(* ===== verification/_CoqProject ===== *)
-Q . S2P
Prelude.v
Bytes.v
Ids.v
Record.v
Codec.v
Digest.v
Sha384.v
Merkle.v
Consistency.v
Completeness.v
Segment.v
Wire.v
WireRecord.v
Frame.v
SimIo.v
Walk.v
Journal.v
Durability.v
JournalProps.v
Integrity.v
Seal.v
PackFormat.v
Sign.v
PackWriter.v
VerifyRecord.v
Tsp.v
P384.v
Verifier.v
VerifierProps.v
PackComplete.v
PackSound.v
Query.v
Causal.v
ObjectStore.v
Publish.v
Cold.v
Tier.v
Ingest.v
Aead.v
Envelope.v
Keys.v
Vault.v
Assemble.v
Json.v
JsonLines.v
JsonLex.v
JsonNumber.v
JsonReader.v
JsonText.v
Bus.v
Shard.v
Simulate.v
BlockHash.v
Sha256.v
VerifySha384.v
VerifySha256.v
Inflate.v
InflateSpec.v
InflateComplete.v
Asn1.v
Bignum.v
Rsa.v
Anchor.v
HttpResponse.v
HttpRequest.v
HttpWire.v
Door.v
