(* ===== verification/Prelude.v ===== *)
(** * Trailryx: a verification development

    Trailryx keeps a tamper-evident record of what software agents did. A record
    is appended to the journal of a shard and made durable; the durable prefix is
    sealed into a segment whose manifest commits to the records, to their hash
    chain and to a sorted index per dimension; manifests are the leaves of a
    shard's tree and shards those of the store's. An auditor holds the store's
    root, and is given proofs under it or an evidence pack, which an offline
    verifier written separately checks from the bytes alone. What an agent did
    reaches the store through an HTTP door; who it was about can be forgotten, by
    destroying keys; when it was known can be attested, by a timestamp authority.
    This development models the path from the journal's bytes on a disk that may
    crash to the verifier's report, and those three beside it.

    ** The parts, the files, the code (paths under src/crates/)

    - Shared: [Prelude] (results, automation, list lemmas), [Bytes] (machine words
      and their bytes, UTF-8), [Codec] (readers over a byte slice, and [codec],
      a writer and a reader that are each other's inverse).
    - Data: [Ids] (trailryx-record/src/ids.rs), [Record] (record.rs, hash.rs,
      time.rs).
    - Hashing: [Digest] (trailryx-crypto/src/lib.rs, chain.rs): the trait [Digest]
      as a class with the laws [DigestLaws], and the chain; [Sha384] (sha384.rs):
      the streaming hasher, an instance of the class, equal to FIPS 180-4.
    - Index: [Merkle], [Consistency] (trailryx-index/src/merkle.rs),
      [Completeness] (completeness.rs), [Segment] (segment.rs), [Integrity] (what
      chain and trees commit to).
    - Journal: [Wire], [WireRecord], [Frame] (trailryx-journal/src/wire.rs);
      [SimIo] (trailryx-sim/src/io.rs, rng.rs): the trait [Io] as a class, its laws
      [IoLaws], and the simulated disk as an instance; [Walk], [Journal]
      (journal.rs); [Durability], [JournalProps]: its contract.
    - Publication: [Seal] (trailryx-store/src/seal.rs), [Sign]
      (trailryx-sign/src/lib.rs), [PackWriter] (trailryx-store/src/evidence.rs).
    - The read side, in trailryx-store/src: [Query] (query.rs), [Causal]
      (causal.rs); [ObjectStore] (trailryx-contracts/src/contracts.rs, fakes.rs,
      trailryx-publish/src/faults.rs), [Publish] (trailryx-publish/src/lib.rs),
      [Cold] (cold.rs), [Tier] (tier.rs).
    - Verification, in trailryx-verify/src: [PackFormat] (pack.rs), [VerifyRecord]
      (record.rs), [Tsp] (tsp.rs), [P384] (p384.rs), [Verifier] (verify.rs,
      merkle.rs); [VerifierProps], [PackComplete], [PackSound]: what its report
      means.
    - Assembling: [Ingest] (trailryx-contracts/src/ingest.rs), what a source hands
      over; [Assemble] (trailryx-assemble/src), identifiers and correlation.
    - Erasure: [Aead] (trailryx-erasure/src/aead.rs), [Envelope] (envelope.rs),
      [Keys] (subject.rs; contracts.rs and fakes.rs for the provider of keys),
      [Vault] (vault.rs).
    - JSON, in trailryx-json/src: [Json] (the limits and errors), [JsonLines]
      (frame.rs), [JsonLex] (lex.rs), [JsonNumber] (number.rs), [JsonReader]
      (reader.rs, validate.rs); [JsonText]: the grammar it reads.
    - Simulation: [Bus] (trailryx-sim/src/bus.rs, clock.rs, trace.rs), [Shard]
      (trailryx-core/src/record.rs, shard.rs), [Simulate] (sim.rs).
    - Hashes, again: [BlockHash] (what the FIPS 180-4 functions share), [Sha256]
      (trailryx-crypto/src/sha256.rs, hmac.rs), [VerifySha384], [VerifySha256] (the
      verifier's own, trailryx-verify/src/sha384.rs, sha256.rs).
    - Anchoring: [Asn1] (trailryx-asn1/src/lib.rs), [Bignum], [Rsa], [Anchor]
      (trailryx-anchor/src/bignum.rs, rsa.rs, tsp.rs, lib.rs).
    - The door, in trailryx-ingest/src: [Inflate] (inflate.rs), with [InflateSpec]
      (RFC 1951 as a compressor writes it) and [InflateComplete]; [HttpResponse]
      (response.rs), [HttpRequest] (config.rs and the parsing half of request.rs),
      [HttpWire] (the reading half), [Door] (auth.rs, bearer.rs, handler.rs,
      server.rs).

    Parts meet at interfaces: [Digest] between every client and the hasher, [Io]
    between the journal and its disk, [ObjectStore] between a publisher and the
    bucket, [Signer] between signing and a key, [codec] between a writer and a
    reader, [Aead], [KeySource] and [KeyProvider] between the vault and its
    cryptography and keys, [Rng] and [Bus] between a shard and the machine,
    [Transport] and [Nonces] between the anchor and its authority, [Read], [Write],
    [Instants], [LastInstant], [AuthProvider] and [OtlpSource] around the door. A client's theorems
    are proved from the interface's laws; [Sha384_Digest], the simulated disk, the
    in-memory stores and providers and the sample ones beside the witnesses
    discharge them.

    ** What the theorems show

    - Durability: in every state a deployment can reach over any honest disk,
      through short writes, refusals, failed flushes and power cuts, the journal
      reads back every promised record, first and in order; reopening reports no
      violation unless there is one; append and sync say what they did; a refused
      file is untouched. [Durability.reach] is the transition system,
      [Durability.live] its invariant.
    - The format: records, frames, headers, manifests and packs round trip; what
      decodes is what the encoder writes; a torn frame is truncated and a damaged
      byte is caught; the walk returns a verified run and the reason it stopped.
    - Commitment: the chain head, an inclusion proof, a manifest root and the
      store's root determine what lies under them; a range answer and a store-wide
      answer are whole.
    - Publication: sealing takes exactly the acknowledged records; a pack reads as
      it was written; a pack of an honest store verifies; two packs that verify
      under one store root hold the same records. A signature binds the statement
      it names, and the verifier's limb arithmetic is the integers'.

    - Reading: a query returns exactly what was asked for and its status says how
      much of that is proved; a reconstruction is the closure of a run under its
      edges; publishing is atomic, without a coordinator and over stores that fail
      and lose answers - of which an error says where it stopped, not that nothing
      was committed; a segment answers alike from memory and from the bucket, unless
      another writer has put other bytes under its body's key, which is refused as
      altered, and what was tampered with there is refused. [Tier.tier_run] is the
      tier's transition system.
    - Assembling: a batch's order does not matter, an edge that cannot be kept is
      told, what is assembled is well formed.
    - Erasure: what was forgotten stays forgotten and no other key is lost; what is
      sealed opens; and, as the code is, the evidence of an erasure that failed
      half way is lost by forgetting again.
    - JSON: validation is the grammar of RFC 8259 within the limits, however a
      stream is cut into chunks; integers are exact.
    - Simulation: a run on an honest disk breaks no promise and its report counts
      every copy of a message as delivered, dropped or still held, and an evaluated
      run on a disk that lies about its flush counts the promises it broke.
    - Two implementations: the verifier's hashes are the store's, and HMAC is
      RFC 2104's.
    - Gzip: whatever a compressor chose is decoded, and nothing costs more than it
      may.
    - Anchoring: a DER value has one spelling, an instant its place on the calendar;
      a signature is accepted by the equation of RFC 8017; a receipt is an
      attestation of this root under this request's nonce.
    - The door: a head is read by its grammar, a message ends where its bytes say
      however they arrive, an answer is one message, nothing unauthorised or
      partial is handed on, and an answer says what became of the batch.

    A statement about hashing is never "no two inputs collide", which is false of
    every hash function. It holds of two computations none of whose finitely many
    hashed strings collide, [Digest.collision_free], a decidable condition; the
    strings are written out ([Segment.store_inputs], [PackSound.pack_strings] and
    the like).

    ** Conventions

    A [u8] is a [byte]; wider integers are [Z] with their range a predicate
    ([u16_ok], [u64_ok]) and their wrap-around written where the code wraps. What
    Rust's types guarantee of a value is a decidable predicate ([record_ok],
    [manifest_ok], [pack_wf]). [Result] is [result], a panic is [None] of an outer
    option, [&mut] state is passed and returned beside the result, also beside an
    error. [usize] is 64 bits.

    Fuel is the input's length where a turn consumes a byte: [walk], [push_loop],
    [next_parsable_frame], [parse_loop] (one more, for the end byte). So for
    [keystream_loop] (the length asked for), [push_frames] (the chunk), [scan_loop]
    and [skip_loop] (the line, and one more), [recover_loop] (the file), [drain] (the
    tail), the inflate loops (the bits of the input and one more), [attributes] and
    [rchunks8] (the bytes); [deliver] takes one more than the messages in flight. A
    connection's loops take a number of reads: [HttpWire.reads_left] plus two is
    enough, and the turns are the configured requests. The tree
    functions take the number of leaves, doubling included; [traverse] takes one
    more than its own limit of hops. [append_loop] has the
    code's own bound of 10,000 attempts, and a varint's ten groups are its own.
    The theorems speak of the functions with their fuel supplied, so none is
    conditional on a run ending; [Walk.walk_terminates] shows more fuel changes
    nothing.

    ** Not modelled

    Debug text, the Display of an error where nothing stores it, the sentence inside
    a verifier's finding, and command lines. Timing: constant time is no property of
    these models. Floating-point reading of JSON numbers; the machine's clock;
    sockets, threads and TLS - the door is one connection, the budget it shares and
    the poison of its locks being inputs; the byte ranges a token's parts lie at.
    The rest of the workspace, listed in the manifest with the reason: the mapping of
    OTLP and agent events to drafts, agent tokens and P-256, the record's schema,
    cloud clients, the federation, SQL and Parquet views, compliance reports,
    third-party cryptography, process wiring. That the orders of the curve's
    fields are prime is used by the code and proved by nobody here: [P384] shows
    that the limb arithmetic is the integers', inversion by Fermat's power
    included.

    ** What would come next

    The mapping of OTLP spans to drafts behind [OtlpSource], the agent tokens behind
    [AuthProvider], the federation's composition of answers. *)

From stdpp Require Export base decidable list gmap sorting strings.
From Stdlib Require Export ZArith Lia.
From Stdlib Require Export Init.Byte.
From Stdlib Require Strings.Byte.

#[global] Open Scope Z_scope.
#[global] Open Scope list_scope.

(** ** Scope and hint databases of the development *)

Declare Scope trailryx_scope.
Delimit Scope trailryx_scope with trx.
#[global] Open Scope trailryx_scope.

(** [bytes] holds the length and round-trip facts of the byte encodings,
    [wire] the equations of the writer's primitives. *)
Create HintDb trx.
Create Rewrite HintDb bytes.

(** ** Results: Rust's [Result<T, E>] *)

Inductive result (E A : Type) : Type :=
  | Ok (a : A)
  | Err (e : E).
Arguments Ok {E A} a.
Arguments Err {E A} e.

#[export] Instance result_ret {E} : MRet (result E) := fun _ a => Ok a.
#[export] Instance result_bind {E} : MBind (result E) := fun _ _ f m =>
  match m with Ok a => f a | Err e => Err e end.
#[export] Instance result_fmap {E} : FMap (result E) := fun _ _ f m =>
  match m with Ok a => Ok (f a) | Err e => Err e end.

#[export] Instance result_eq_dec {E A} `{EqDecision E, EqDecision A} :
  EqDecision (result E A).
Proof. solve_decision. Defined.

(** [Result::map_err] and [Option::ok_or]. *)
Definition map_err {E F A} (f : E -> F) (m : result E A) : result F A :=
  match m with Ok a => Ok a | Err e => Err (f e) end.

Definition ok_or {E A} (o : option A) (e : E) : result E A :=
  match o with Some a => Ok a | None => Err e end.

(** [Result::is_ok]. *)
Definition is_ok {E A} (m : result E A) : bool :=
  match m with Ok _ => true | Err _ => false end.

Lemma result_bind_ok {E A B} (m : result E A) (f : A -> result E B) b :
  m ≫= f = Ok b <-> exists a, m = Ok a /\ f a = Ok b.
Proof.
  destruct m as [a|e]; cbn; split.
  - eauto.
  - intros (a' & Ha & Hf). congruence.
  - discriminate.
  - intros (a' & Ha & _). discriminate.
Qed.

Lemma map_err_ok {E F A} (f : E -> F) (m : result E A) a :
  map_err f m = Ok a <-> m = Ok a.
Proof. destruct m; cbn; split; congruence. Qed.

Lemma ok_or_ok {E A} (o : option A) (e : E) a :
  ok_or o e = Ok a <-> o = Some a.
Proof. destruct o; cbn; split; congruence. Qed.

Lemma Ok_inj {E A} (a b : A) : (Ok a : result E A) = Ok b -> a = b.
Proof. by intros [= ->]. Qed.

(** ** Tactics shared by the whole development *)

(** Split every equation [m ≫= f = Ok b] of the context into its two steps. *)
Ltac inv_bind :=
  repeat match goal with
  | H : (_ ≫= _) = Ok _ |- _ =>
      apply result_bind_ok in H; destruct H as (? & ? & ?)
  | H : map_err _ _ = Ok _ |- _ => apply map_err_ok in H
  | H : ok_or _ _ = Ok _ |- _ => apply ok_or_ok in H
  | H : mret _ = Ok _ |- _ => injection H as H
  | H : Ok _ = Ok _ |- _ => injection H as H
  | H : Err _ = Ok _ |- _ => discriminate H
  | H : Ok _ = Err _ |- _ => discriminate H
  end; subst.

(** Case-split the innermost [match]/[if] of a hypothesis, keeping equations. *)
Ltac case_in H :=
  match type of H with
  | context [match ?x with _ => _ end] =>
      lazymatch x with
      | context [match _ with _ => _ end] => fail
      | _ => let E := fresh "E" in destruct x eqn:E
      end
  end.

(** Turn boolean tests over [Z] and [nat] into propositions. *)
Ltac breflect :=
  repeat match goal with
  | H : (_ && _)%bool = true |- _ => apply andb_true_iff in H; destruct H
  | H : (_ || _)%bool = false |- _ => apply orb_false_iff in H; destruct H
  | H : negb _ = true |- _ => apply negb_true_iff in H
  | H : negb _ = false |- _ => apply negb_false_iff in H
  | H : (_ =? _)%Z = true |- _ => apply Z.eqb_eq in H
  | H : (_ =? _)%Z = false |- _ => apply Z.eqb_neq in H
  | H : (_ <? _)%Z = true |- _ => apply Z.ltb_lt in H
  | H : (_ <? _)%Z = false |- _ => apply Z.ltb_ge in H
  | H : (_ <=? _)%Z = true |- _ => apply Z.leb_le in H
  | H : (_ <=? _)%Z = false |- _ => apply Z.leb_gt in H
  | H : (_ =? _)%nat = true |- _ => apply Nat.eqb_eq in H
  | H : (_ =? _)%nat = false |- _ => apply Nat.eqb_neq in H
  | H : (_ <? _)%nat = true |- _ => apply Nat.ltb_lt in H
  | H : (_ <? _)%nat = false |- _ => apply Nat.ltb_ge in H
  | H : (_ <=? _)%nat = true |- _ => apply Nat.leb_le in H
  | H : (_ <=? _)%nat = false |- _ => apply Nat.leb_gt in H
  | H : bool_decide _ = true |- _ => apply bool_decide_eq_true in H
  | H : bool_decide _ = false |- _ => apply bool_decide_eq_false in H
  end.

(** Prove a closed decidable statement by evaluating its decision procedure. *)
Ltac by_evaluation :=
  lazymatch goal with
  | |- ?P => let d := constr:(_ : Decision P) in refine (@bool_decide_unpack P d _); vm_compute; exact I
  end.

(** A predicate given as a record of decidable fields is decidable: [decide_record]
    finds the conjunction of the fields and decides that. *)
Lemma decide_by (Q P : Prop) : (Q -> P) -> (P -> Q) -> Decision Q -> Decision P.
Proof. intros QP PQ [q|nq]; [left; exact (QP q)|right; intros p; exact (nq (PQ p))]. Defined.

Ltac record_field h := first [eapply (proj1 h) | record_field uconstr:(proj2 h)].
Ltac decide_record :=
  eapply decide_by;
  [ intros ?H; split; match goal with H : _ |- _ => record_field H end
  | intros []; repeat first [assumption | exact I | refine (conj _ _)]
  | apply _ ].

(** ** Lists *)

(** [slice::get(a..b)] as a total function: the elements [a .. a+n). *)
Definition slice {A} (l : list A) (from n : nat) : list A := take n (drop from l).

Lemma slice_app_mid {A} (pre mid post : list A) n m :
  n = length pre -> m = length mid -> slice (pre ++ mid ++ post) n m = mid.
Proof.
  intros -> ->. unfold slice. rewrite drop_app_length, take_app_length. done.
Qed.

Lemma length_slice {A} (l : list A) from n :
  (from + n <= length l)%nat -> length (slice l from n) = n.
Proof. intros. unfold slice. rewrite length_take, length_drop. lia. Qed.

Lemma take_drop_slice {A} (l : list A) from n :
  drop from l = slice l from n ++ drop (from + n) l.
Proof. unfold slice. rewrite <- drop_drop. by rewrite take_drop. Qed.

Lemma take_plus_slice {A} (l : list A) n m : take (n + m) l = take n l ++ slice l n m.
Proof. unfold slice. revert n; induction l as [|x l IH]; intros [|n]; cbn; rewrite ?take_nil, ?drop_nil; try done. by rewrite IH. Qed.

Lemma list_len_ge_app {A} (l : list A) n :
  (n <= length l)%nat -> exists a b, l = a ++ b /\ length a = n.
Proof.
  intros. exists (take n l), (drop n l). rewrite take_drop, length_take. split; [done|lia].
Qed.

Lemma app_eq_same_length {A} (a b c d : list A) :
  length a = length c -> a ++ b = c ++ d -> a = c /\ b = d.
Proof. intros Hl H. apply app_inj_1 in H; auto. Qed.

(** The first index whose element satisfies [p], as [Iterator::position]. *)
Fixpoint position {A} (p : A -> bool) (l : list A) : option nat :=
  match l with
  | [] => None
  | x :: l' => if p x then Some O else S <$> position p l'
  end.

(** [filter] on a list all of whose elements pass, resp. fail. *)
Lemma filter_all {A} (P : A -> Prop) `{forall x, Decision (P x)} (l : list A) :
  Forall P l -> filter P l = l.
Proof.
  induction 1; [done|]. rewrite filter_cons_True by done. by f_equal.
Qed.

Lemma filter_none {A} (P : A -> Prop) `{forall x, Decision (P x)} (l : list A) :
  Forall (fun x => ~ P x) l -> filter P l = [].
Proof. induction 1; [done|]. by rewrite filter_cons_False. Qed.

(** Inclusions between concatenations; [sub] is the database for them. *)
Lemma sub_refl {A} (l : list A) : l ⊆ l.
Proof. done. Qed.
Lemma sub_app_l {A} (x l k : list A) : x ⊆ l -> x ⊆ l ++ k.
Proof. intros H y Hy. apply elem_of_app. left. by apply H. Qed.
Lemma sub_app_r {A} (x l k : list A) : x ⊆ k -> x ⊆ l ++ k.
Proof. intros H y Hy. apply elem_of_app. right. by apply H. Qed.
Lemma app_sub_l {A} (l k x : list A) : l ++ k ⊆ x -> l ⊆ x.
Proof. intros H y Hy. apply H, elem_of_app. by left. Qed.
Lemma app_sub_r {A} (l k x : list A) : l ++ k ⊆ x -> k ⊆ x.
Proof. intros H y Hy. apply H, elem_of_app. by right. Qed.
Lemma sub_trans {A} (x y z : list A) : x ⊆ y -> y ⊆ z -> x ⊆ z.
Proof. intros H1 H2 a Ha. by apply H2, H1. Qed.

Create HintDb sub.
#[export] Hint Resolve sub_refl sub_app_l sub_app_r : sub.

(** ** Natural numbers used as machine words ([usize]) *)

(** [n >> 1] and [n & 1 == 1]. *)
Definition shr1 (n : nat) : nat := Nat.div2 n.
Definition is_odd (n : nat) : bool := Nat.odd n.

Lemma shr1_double n : shr1 (2 * n) = n.
Proof. unfold shr1. rewrite Nat.div2_double. done. Qed.

Lemma shr1_double_S n : shr1 (S (2 * n)) = n.
Proof. unfold shr1. rewrite Nat.div2_succ_double. done. Qed.

Lemma even_or_odd_form n : (n = 2 * shr1 n \/ n = S (2 * shr1 n))%nat.
Proof.
  unfold shr1. pose proof (Nat.div2_odd n) as H. destruct (Nat.odd n); cbn [Nat.b2n] in H; lia.
Qed.

Lemma is_odd_double n : is_odd (2 * n) = false.
Proof. unfold is_odd. rewrite Nat.odd_even. done. Qed.

Lemma is_odd_double_S n : is_odd (S (2 * n)) = true.
Proof. unfold is_odd. rewrite Nat.odd_succ. rewrite Nat.even_even. done. Qed.

Lemma is_odd_spec n : is_odd n = true -> n = S (2 * shr1 n).
Proof.
  intros H. destruct (even_or_odd_form n) as [E|E]; [|done].
  rewrite E, is_odd_double in H. discriminate.
Qed.

Lemma is_even_spec n : is_odd n = false -> n = (2 * shr1 n)%nat.
Proof.
  intros H. destruct (even_or_odd_form n) as [E|E]; [done|].
  rewrite E, is_odd_double_S in H. discriminate.
Qed.
