(* ===== verification/Bytes.v ===== *)
(** * Bytes and machine words

    A [u8] is a [byte] of the Standard Library, so a byte string is well formed
    by its type. Wider unsigned integers ([u16], [u32], [u64], [u128]) and the
    signed [i64] are [Z] with their range and wrap-around written out. This file
    holds the conversions the Rust standard library provides and the source
    uses: [to_be_bytes], [from_be_bytes], [to_le_bytes], [from_le_bytes], the
    slice comparison of [Ord for [u8]], and ASCII digits. *)

From S2P Require Import Prelude.

(** ** One byte *)

(** The value of a byte, in [0 .. 255]. *)
Definition u8v (b : byte) : Z := Z.of_N (Byte.to_N b).

(** [z as u8]: the low eight bits. *)
Definition u8 (z : Z) : byte :=
  match Byte.of_N (Z.to_N (z mod 256)) with Some b => b | None => x00 end.

Lemma u8v_range b : 0 <= u8v b < 256.
Proof.
  unfold u8v. pose proof (Byte.to_N_bounded b). lia.
Qed.

Lemma u8_u8v b : u8 (u8v b) = b.
Proof. destruct b; reflexivity. Qed.

Lemma u8v_u8 z : u8v (u8 z) = z mod 256.
Proof.
  unfold u8, u8v. pose proof (Z.mod_pos_bound z 256 ltac:(lia)) as Hb.
  destruct (Byte.of_N (Z.to_N (z mod 256))) as [b|] eqn:E.
  - apply Byte.to_of_N in E. rewrite E. lia.
  - apply Byte.of_N_None_iff in E. lia.
Qed.

Lemma u8v_u8_small z : 0 <= z < 256 -> u8v (u8 z) = z.
Proof. intros. rewrite u8v_u8. apply Z.mod_small. lia. Qed.

Lemma u8v_inj a b : u8v a = u8v b -> a = b.
Proof. intros H. rewrite <- (u8_u8v a), H. apply u8_u8v. Qed.

#[export] Instance u8v_Inj : Inj (=) (=) u8v := u8v_inj.

#[export] Instance byte_eq_dec : EqDecision byte := Byte.byte_eq_dec.

#[export] Program Instance byte_countable : Countable byte :=
  inj_countable' Byte.to_N (fun n => match Byte.of_N n with Some b => b | None => x00 end) _.
Next Obligation. by intros []. Qed.

(** ** Widths *)

Definition u16_max : Z := 2 ^ 16 - 1.
Definition u32_max : Z := 2 ^ 32 - 1.
Definition u64_max : Z := 2 ^ 64 - 1.

Definition u16_ok (z : Z) : Prop := 0 <= z < 2 ^ 16.
Definition u32_ok (z : Z) : Prop := 0 <= z < 2 ^ 32.
Definition u64_ok (z : Z) : Prop := 0 <= z < 2 ^ 64.
Definition u128_ok (z : Z) : Prop := 0 <= z < 2 ^ 128.
Definition i64_ok (z : Z) : Prop := - 2 ^ 63 <= z < 2 ^ 63.

#[export] Instance u16_ok_dec z : Decision (u16_ok z) := ltac:(unfold u16_ok; apply _).
#[export] Instance u32_ok_dec z : Decision (u32_ok z) := ltac:(unfold u32_ok; apply _).
#[export] Instance u64_ok_dec z : Decision (u64_ok z) := ltac:(unfold u64_ok; apply _).
#[export] Instance u128_ok_dec z : Decision (u128_ok z) := ltac:(unfold u128_ok; apply _).
#[export] Instance i64_ok_dec z : Decision (i64_ok z) := ltac:(unfold i64_ok; apply _).

(** [z as u64] and [z as i64]: two's complement truncation. *)
Definition as_u64 (z : Z) : Z := z mod 2 ^ 64.
Definition as_i64 (z : Z) : Z := (z + 2 ^ 63) mod 2 ^ 64 - 2 ^ 63.

Lemma as_u64_small z : u64_ok z -> as_u64 z = z.
Proof. unfold u64_ok, as_u64. intros. by rewrite Z.mod_small. Qed.

Lemma as_u64_ok z : u64_ok (as_u64 z).
Proof. unfold u64_ok, as_u64. apply Z.mod_pos_bound. lia. Qed.

(** Bits above those of [out] are added. *)
Lemma lxor_range n a b : 0 <= n -> 0 <= a < 2 ^ n -> 0 <= b < 2 ^ n -> 0 <= Z.lxor a b < 2 ^ n.
Proof.
  intros Hn Ha Hb. assert (H : 0 <= Z.lxor a b) by (apply Z.lxor_nonneg; lia). split; [done|].
  destruct (Z.eq_dec (Z.lxor a b) 0) as [->|]; [lia|]. apply Z.log2_lt_pow2; [lia|].
  destruct (Z.eq_dec n 0) as [->|]; [cbn in *; replace a with 0 in * by lia; replace b with 0 in * by lia; done|].
  assert (L : forall x, 0 <= x < 2 ^ n -> Z.log2 x < n).
  { intros x Hx. destruct (Z.eq_dec x 0) as [->|]; [cbn; lia|]. apply Z.log2_lt_pow2; lia. }
  eapply Z.le_lt_trans; [apply Z.log2_lxor; lia|]. by apply Z.max_lub_lt; apply L.
Qed.

Lemma lor_shiftl_add out v s :
  0 <= s -> 0 <= out < 2 ^ s -> Z.lor out (Z.shiftl v s) = out + v * 2 ^ s.
Proof.
  intros Hs Ho. rewrite <- Z.shiftl_mul_pow2 by done.
  assert (Hl : Z.land out (Z.shiftl v s) = 0).
  { apply Z.bits_inj'. intros n Hn. rewrite Z.land_spec, Z.bits_0. apply andb_false_iff.
    destruct (Z.lt_ge_cases n s) as [Hlt|Hge].
    - right. by rewrite Z.shiftl_spec_low.
    - left. destruct (decide (out = 0)) as [->|]; [apply Z.bits_0|].
      apply Z.bits_above_log2; [lia|]. apply Z.log2_lt_pow2; [lia|].
      pose proof (Z.pow_le_mono_r 2 s n). lia. }
  rewrite <- Z.lxor_lor by done. by rewrite <- Z.add_nocarry_lxor.
Qed.

(** ** Little- and big-endian encodings *)

Fixpoint to_le_bytes (n : nat) (v : Z) : list byte :=
  match n with
  | O => []
  | S n' => u8 v :: to_le_bytes n' (v / 256)
  end.

Fixpoint from_le_bytes (l : list byte) : Z :=
  match l with
  | [] => 0
  | b :: l' => u8v b + 256 * from_le_bytes l'
  end.

Definition to_be_bytes (n : nat) (v : Z) : list byte := rev (to_le_bytes n v).
Definition from_be_bytes (l : list byte) : Z := from_le_bytes (rev l).

Lemma length_to_le_bytes n v : length (to_le_bytes n v) = n.
Proof. revert v; induction n; intros; cbn; [done|]. by rewrite IHn. Qed.

Lemma length_to_be_bytes n v : length (to_be_bytes n v) = n.
Proof. unfold to_be_bytes. rewrite length_rev. apply length_to_le_bytes. Qed.

#[export] Hint Rewrite length_to_le_bytes length_to_be_bytes : bytes.

Lemma from_to_le_bytes n v : from_le_bytes (to_le_bytes n v) = v mod 256 ^ Z.of_nat n.
Proof.
  revert v; induction n as [|n IH]; intros v; cbn [to_le_bytes from_le_bytes].
  - change (256 ^ Z.of_nat 0) with 1. by rewrite Z.mod_1_r.
  - rewrite IH, u8v_u8, Nat2Z.inj_succ, Z.pow_succ_r by lia.
    rewrite Z.rem_mul_r by lia. lia.
Qed.

Lemma to_from_le_bytes l : to_le_bytes (length l) (from_le_bytes l) = l.
Proof.
  induction l as [|b l IH]; cbn [length to_le_bytes from_le_bytes]; [done|].
  pose proof (u8v_range b). f_equal.
  - apply u8v_inj. rewrite u8v_u8. rewrite (Z.mul_comm 256), Z.mod_add by lia.
    apply Z.mod_small; lia.
  - rewrite (Z.mul_comm 256), Z.div_add by lia. rewrite Z.div_small by lia. exact IH.
Qed.

Lemma from_le_bytes_range l : 0 <= from_le_bytes l < 256 ^ Z.of_nat (length l).
Proof.
  induction l as [|b l IH]; cbn [length from_le_bytes]; [done|].
  pose proof (u8v_range b). rewrite Nat2Z.inj_succ, Z.pow_succ_r by lia. lia.
Qed.

Lemma from_to_be_bytes n v :
  0 <= v < 256 ^ Z.of_nat n -> from_be_bytes (to_be_bytes n v) = v.
Proof.
  intros. unfold from_be_bytes, to_be_bytes. rewrite rev_involutive, from_to_le_bytes.
  by apply Z.mod_small.
Qed.

Lemma to_from_be_bytes l : to_be_bytes (length l) (from_be_bytes l) = l.
Proof.
  unfold from_be_bytes, to_be_bytes. rewrite <- (length_rev l), to_from_le_bytes.
  apply rev_involutive.
Qed.

Lemma from_be_bytes_range l : 0 <= from_be_bytes l < 256 ^ Z.of_nat (length l).
Proof. unfold from_be_bytes. rewrite <- (length_rev l). apply from_le_bytes_range. Qed.

Lemma to_le_bytes_inj n a b :
  0 <= a < 256 ^ Z.of_nat n -> 0 <= b < 256 ^ Z.of_nat n ->
  to_le_bytes n a = to_le_bytes n b -> a = b.
Proof.
  intros Ha Hb E. apply (f_equal from_le_bytes) in E.
  rewrite !from_to_le_bytes, !Z.mod_small in E by done. done.
Qed.

Lemma to_be_bytes_inj n a b :
  0 <= a < 256 ^ Z.of_nat n -> 0 <= b < 256 ^ Z.of_nat n ->
  to_be_bytes n a = to_be_bytes n b -> a = b.
Proof.
  intros Ha Hb E. apply (to_le_bytes_inj n); [done|done|].
  unfold to_be_bytes in E. apply (f_equal (@rev byte)) in E.
  by rewrite !rev_involutive in E.
Qed.

(** ** Lexicographic order on byte slices: [Ord for [u8]] *)

Fixpoint cmp_bytes (a b : list byte) : comparison :=
  match a, b with
  | [], [] => Eq
  | [], _ :: _ => Lt
  | _ :: _, [] => Gt
  | x :: a', y :: b' =>
      match Z.compare (u8v x) (u8v y) with Eq => cmp_bytes a' b' | c => c end
  end.

Definition lt_bytes (a b : list byte) : bool :=
  match cmp_bytes a b with Lt => true | _ => false end.
Definition le_bytes (a b : list byte) : bool :=
  match cmp_bytes a b with Gt => false | _ => true end.

Lemma cmp_bytes_refl a : cmp_bytes a a = Eq.
Proof. induction a; cbn; [done|]. by rewrite Z.compare_refl. Qed.

Lemma cmp_bytes_eq a b : cmp_bytes a b = Eq <-> a = b.
Proof.
  split; [|intros ->; apply cmp_bytes_refl].
  revert b; induction a as [|x a IH]; intros [|y b]; cbn; try done.
  destruct (u8v x ?= u8v y) eqn:E; try done.
  apply Z.compare_eq, u8v_inj in E as ->. intros H. by rewrite (IH b H).
Qed.

Lemma cmp_bytes_antisym a b : cmp_bytes b a = CompOpp (cmp_bytes a b).
Proof.
  revert b; induction a as [|x a IH]; intros [|y b]; cbn; try done.
  rewrite (Z.compare_antisym (u8v x) (u8v y)).
  destruct (u8v x ?= u8v y); cbn; auto.
Qed.

Lemma cmp_bytes_lt_trans a b c :
  cmp_bytes a b = Lt -> cmp_bytes b c = Lt -> cmp_bytes a c = Lt.
Proof.
  revert b c; induction a as [|x a IH]; intros [|y b] [|z c]; cbn; try done.
  destruct (u8v x ?= u8v y) eqn:E1; destruct (u8v y ?= u8v z) eqn:E2; try done; intros H1 H2.
  - apply Z.compare_eq in E1, E2. rewrite E1, E2, Z.compare_refl. eauto.
  - apply Z.compare_eq in E1. by rewrite E1, E2.
  - apply Z.compare_eq in E2. by rewrite <- E2, E1.
  - rewrite Z.compare_lt_iff in E1, E2.
    assert ((u8v x ?= u8v z) = Lt) as -> by (rewrite Z.compare_lt_iff; lia). done.
Qed.

Lemma lt_bytes_spec a b : lt_bytes a b = true <-> cmp_bytes a b = Lt.
Proof. unfold lt_bytes. destruct (cmp_bytes a b); done. Qed.

Lemma le_bytes_spec a b : le_bytes a b = true <-> (cmp_bytes a b = Lt \/ a = b).
Proof.
  unfold le_bytes. pose proof (cmp_bytes_eq a b) as H.
  destruct (cmp_bytes a b); intuition congruence.
Qed.

Lemma le_bytes_not_lt a b : le_bytes a b = negb (lt_bytes b a).
Proof.
  unfold le_bytes, lt_bytes. rewrite (cmp_bytes_antisym a b). by destruct (cmp_bytes a b).
Qed.

Lemma lt_bytes_irrefl a : lt_bytes a a = false.
Proof. unfold lt_bytes. by rewrite cmp_bytes_refl. Qed.

Lemma lt_bytes_trans a b c : lt_bytes a b = true -> lt_bytes b c = true -> lt_bytes a c = true.
Proof. rewrite !lt_bytes_spec. apply cmp_bytes_lt_trans. Qed.

Lemma le_bytes_refl a : le_bytes a a = true.
Proof. rewrite le_bytes_spec. auto. Qed.

Lemma le_lt_bytes_trans a b c : le_bytes a b = true -> lt_bytes b c = true -> lt_bytes a c = true.
Proof.
  rewrite le_bytes_spec, !lt_bytes_spec. intros [H| ->]; [|done]. by apply cmp_bytes_lt_trans.
Qed.

Lemma lt_le_bytes_trans a b c : lt_bytes a b = true -> le_bytes b c = true -> lt_bytes a c = true.
Proof.
  rewrite le_bytes_spec, !lt_bytes_spec. intros H1 [H| <-]; [|done]. by eapply cmp_bytes_lt_trans.
Qed.

Lemma le_bytes_trans a b c : le_bytes a b = true -> le_bytes b c = true -> le_bytes a c = true.
Proof.
  intros H1 H2. apply le_bytes_spec in H2 as [H2| <-]; [|done].
  apply le_bytes_spec. left. apply lt_bytes_spec. eapply le_lt_bytes_trans; [done|].
  by apply lt_bytes_spec.
Qed.

Lemma lt_bytes_le a b : lt_bytes a b = true -> le_bytes a b = true.
Proof. rewrite lt_bytes_spec, le_bytes_spec. auto. Qed.

(** Big-endian encoding preserves the order, for equal widths. *)
Lemma cmp_bytes_app a b c d :
  length a = length c -> cmp_bytes (a ++ b) (c ++ d) =
  match cmp_bytes a c with Eq => cmp_bytes b d | r => r end.
Proof.
  revert c; induction a as [|x a IH]; intros [|y c]; cbn; try done.
  intros [= H]. destruct (u8v x ?= u8v y); auto.
Qed.

Lemma to_be_bytes_S n v :
  to_be_bytes (S n) v = to_be_bytes n (v / 256) ++ [u8 v].
Proof. reflexivity. Qed.

Lemma cmp_to_be_bytes n a b :
  0 <= a < 256 ^ Z.of_nat n -> 0 <= b < 256 ^ Z.of_nat n ->
  cmp_bytes (to_be_bytes n a) (to_be_bytes n b) = Z.compare a b.
Proof.
  revert a b; induction n as [|n IH]; intros a b Ha Hb.
  - change (256 ^ Z.of_nat 0) with 1 in *. assert (a = 0) as -> by lia.
    assert (b = 0) as -> by lia. done.
  - rewrite Nat2Z.inj_succ, Z.pow_succ_r in Ha, Hb by lia.
    rewrite !to_be_bytes_S, cmp_bytes_app by (rewrite !length_to_be_bytes; done).
    rewrite IH by (split; [apply Z.div_pos | apply Z.div_lt_upper_bound]; lia).
    cbn [cmp_bytes]. rewrite !u8v_u8.
    pose proof (Z.div_mod a 256 ltac:(lia)) as Ea. pose proof (Z.div_mod b 256 ltac:(lia)) as Eb.
    pose proof (Z.mod_pos_bound a 256 ltac:(lia)). pose proof (Z.mod_pos_bound b 256 ltac:(lia)).
    clear IH Ha Hb. rewrite Ea, Eb at 3.
    generalize dependent (a / 256); generalize dependent (b / 256).
    generalize dependent (a mod 256); generalize dependent (b mod 256).
    intros r' Hr' r Hr q' _ q _.
    destruct (Z.compare_spec q q'); destruct (Z.compare_spec r r');
    destruct (Z.compare_spec (256 * q + r) (256 * q' + r')); try done; lia.
Qed.

(** ** Hexadecimal digits *)

(** [char::from_digit(d, 16)] for [d < 16]: lower case. *)
Definition hex_digit (d : Z) : byte :=
  if d <? 10 then u8 (48 + d) else u8 (87 + d).

(** [(b as char).to_digit(16)]. *)
Definition hex_value (b : byte) : option Z :=
  let c := u8v b in
  if (48 <=? c) && (c <=? 57) then Some (c - 48)
  else if (97 <=? c) && (c <=? 102) then Some (c - 87)
  else if (65 <=? c) && (c <=? 70) then Some (c - 55)
  else None.

Lemma hex_value_range b d : hex_value b = Some d -> 0 <= d < 16.
Proof.
  unfold hex_value. repeat case_match; intros; simplify_eq; breflect; lia.
Qed.

Lemma hex_value_digit d : 0 <= d < 16 -> hex_value (hex_digit d) = Some d.
Proof.
  intros. unfold hex_digit, hex_value. destruct (d <? 10) eqn:E; breflect;
  rewrite u8v_u8_small by lia; repeat case_match; breflect; try lia; f_equal; lia.
Qed.
