(* ===== verification/Ids.v ===== *)
(** * Identifiers ([trailryx-record/src/ids.rs])

    The constrained tokens of the metadata plane. The [token!] macro becomes a
    phantom-typed [Token] indexed by the macro's arguments; [check] is the one
    validation every constructor runs; [parse_strict] is the ingest door. A Rust
    [String] is its UTF-8 bytes, and [char_indices] decodes them. *)

From S2P Require Import Prelude Bytes.

(** A [String] or [&str]: its bytes. *)
Abbreviation str := (list byte) (only parsing).

(** A string literal of the source as bytes. *)
Definition lit (s : string) : str := String.list_byte_of_string s.

(** ** UTF-8, as [std::str] decodes it *)

Definition in_range (lo hi : Z) (b : byte) : bool := (lo <=? u8v b) && (u8v b <=? hi).
Definition is_cont (b : byte) : bool := in_range 128 191 b.

(** One scalar value from the front: the value and its length in bytes. *)
Definition utf8_step (s : str) : option (Z * nat) :=
  match s with
  | [] => None
  | b0 :: r =>
      let c := u8v b0 in
      if c <? 128 then Some (c, 1%nat) else
      match r with
      | b1 :: r1 =>
          if in_range 194 223 b0 && is_cont b1 then
            Some ((c - 192) * 64 + (u8v b1 - 128), 2%nat) else
          match r1 with
          | b2 :: r2 =>
              let second_ok :=
                if c =? 224 then in_range 160 191 b1
                else if c =? 237 then in_range 128 159 b1
                else is_cont b1 in
              if in_range 224 239 b0 && second_ok && is_cont b2 then
                Some ((c - 224) * 4096 + (u8v b1 - 128) * 64 + (u8v b2 - 128), 3%nat)
              else
              match r2 with
              | b3 :: _ =>
                  let second_ok :=
                    if c =? 240 then in_range 144 191 b1
                    else if c =? 244 then in_range 128 143 b1
                    else is_cont b1 in
                  if in_range 240 244 b0 && second_ok && is_cont b2 && is_cont b3 then
                    Some ((c - 240) * 262144 + (u8v b1 - 128) * 4096
                            + (u8v b2 - 128) * 64 + (u8v b3 - 128), 4%nat)
                  else None
              | [] => None
              end
          | [] => None
          end
      | [] => None
      end
  end.

(** [str::char_indices]: byte offset and scalar value of each character. The
    fuel is the length of the string; a byte that starts no character (which a
    Rust [String] cannot hold) reads as U+FFFD. *)
Fixpoint char_indices_from (fuel at_ : nat) (s : str) : list (nat * Z) :=
  match fuel with
  | O => []
  | S f =>
      match s with
      | [] => []
      | _ :: _ =>
          match utf8_step s with
          | Some (c, n) => (at_, c) :: char_indices_from f (at_ + n) (drop n s)
          | None => (at_, 65533) :: char_indices_from f (at_ + 1) (drop 1 s)
          end
      end
  end.
Definition char_indices (s : str) : list (nat * Z) := char_indices_from (length s) 0 s.

(** [std::str::from_utf8]. *)
Fixpoint valid_utf8_from (fuel : nat) (s : str) : bool :=
  match s, fuel with
  | [], _ => true
  | _ :: _, O => false
  | _ :: _, S f =>
      match utf8_step s with
      | Some (_, n) => valid_utf8_from f (drop n s)
      | None => false
      end
  end.
Definition valid_utf8 (s : str) : bool := valid_utf8_from (length s) s.

(** ** Errors *)

Inductive IdError :=
  | Empty
  | TooLong (max got : nat)
  | BadChar (at_ : nat) (ch : Z)
  | BadShape (why : string).

#[export] Instance IdError_eq_dec : EqDecision IdError.
Proof. solve_decision. Defined.

(** ** The character sets *)

Definition is_ascii_lowercase (c : Z) : bool := (97 <=? c) && (c <=? 122).
Definition is_ascii_digit (c : Z) : bool := (48 <=? c) && (c <=? 57).

(** ['.' | '_' | '-'] are 46, 95, 45. *)
Definition segment_char (c : Z) : bool :=
  is_ascii_lowercase c || is_ascii_digit c || ((c =? 46) || (c =? 95) || (c =? 45)).

(** ['/' | ':'] are 47 and 58. *)
Definition uri_char (c : Z) : bool := segment_char c || ((c =? 47) || (c =? 58)).

(** The closure given for [ModelId]. *)
Definition model_char (c : Z) : bool := segment_char c || (c =? 47).

(** The loop of [check] over [char_indices]. *)
Fixpoint check_chars (allowed : Z -> bool) (l : list (nat * Z)) : result IdError unit :=
  match l with
  | [] => Ok tt
  | (at_, ch) :: l' => if negb (allowed ch) then Err (BadChar at_ ch) else check_chars allowed l'
  end.

Definition check (s : str) (max : nat) (allowed : Z -> bool) : result IdError unit :=
  if (length s =? 0)%nat then Err Empty
  else if (max <? length s)%nat then Err (TooLong max (length s))
  else check_chars allowed (char_indices s).

(** ** The [token!] macro *)

Record TokenSpec := { MAX_BYTES : nat; allowed : Z -> bool }.

Record Token (sp : TokenSpec) := MkToken { as_str : str }.
Arguments MkToken {sp} as_str.
Arguments as_str {sp} t.

#[export] Instance Token_eq_dec sp : EqDecision (Token sp).
Proof. intros [a] [b]. destruct (decide (a = b)); [left|right]; congruence. Defined.

Definition parse (sp : TokenSpec) (s : str) : result IdError (Token sp) :=
  _ ← check s sp.(MAX_BYTES) sp.(allowed); Ok (MkToken s).

Definition AgentIdSpec : TokenSpec := {| MAX_BYTES := 255; allowed := uri_char |}.
Definition PrincipalIdSpec : TokenSpec := {| MAX_BYTES := 255; allowed := uri_char |}.
Definition RunIdSpec : TokenSpec := {| MAX_BYTES := 64; allowed := segment_char |}.
Definition PolicyVersionSpec : TokenSpec := {| MAX_BYTES := 64; allowed := segment_char |}.
Definition TokenIdSpec : TokenSpec := {| MAX_BYTES := 128; allowed := segment_char |}.
Definition KeyThumbprintSpec : TokenSpec := {| MAX_BYTES := 128; allowed := segment_char |}.
Definition IssuerIdSpec : TokenSpec := {| MAX_BYTES := 255; allowed := uri_char |}.
Definition ModelIdSpec : TokenSpec := {| MAX_BYTES := 128; allowed := model_char |}.
Definition ToolNameSpec : TokenSpec := {| MAX_BYTES := 64; allowed := segment_char |}.
Definition TenantIdSpec : TokenSpec := {| MAX_BYTES := 64; allowed := segment_char |}.

Abbreviation AgentId := (Token AgentIdSpec) (only parsing).
Abbreviation PrincipalId := (Token PrincipalIdSpec) (only parsing).
Abbreviation RunId := (Token RunIdSpec) (only parsing).
Abbreviation PolicyVersion := (Token PolicyVersionSpec) (only parsing).
Abbreviation TokenId := (Token TokenIdSpec) (only parsing).
Abbreviation KeyThumbprint := (Token KeyThumbprintSpec) (only parsing).
Abbreviation IssuerId := (Token IssuerIdSpec) (only parsing).
Abbreviation ModelId := (Token ModelIdSpec) (only parsing).
Abbreviation ToolName := (Token ToolNameSpec) (only parsing).
Abbreviation TenantId := (Token TenantIdSpec) (only parsing).

(** The invariant a token's type carries once it was parsed. *)
Definition token_ok {sp} (t : Token sp) : Prop := parse sp t.(as_str) = Ok t.

#[export] Instance token_ok_dec {sp} (t : Token sp) : Decision (token_ok t).
Proof. unfold token_ok. apply _. Defined.

(** ** [parse_strict] *)

(** [str::strip_prefix]. *)
Fixpoint strip_prefix (p s : str) : option str :=
  match p, s with
  | [], _ => Some s
  | _ :: _, [] => None
  | x :: p', y :: s' => if Byte.eqb x y then strip_prefix p' s' else None
  end.

(** [str::split_once] at an ASCII character. *)
Fixpoint split_once (c : byte) (s : str) : option (str * str) :=
  match s with
  | [] => None
  | x :: s' => if Byte.eqb x c then Some ([], s')
               else match split_once c s' with Some (a, b) => Some (x :: a, b) | None => None end
  end.

Definition slash : byte := x2f.

Definition AgentId_parse_strict (s : str) : result IdError AgentId :=
  id ← parse AgentIdSpec s;
  rest ← ok_or (strip_prefix (lit "agent://") id.(as_str)) (BadShape "must start with agent://");
  dp ← ok_or (split_once slash rest) (BadShape "must have a path after the trust domain");
  let '(domain, path) := dp in
  if (length domain =? 0)%nat then Err (BadShape "empty trust domain")
  else if (length path =? 0)%nat then Err (BadShape "empty path")
  else Ok id.

(** [iter().find_map(|scheme| id.0.strip_prefix(scheme))]. *)
Fixpoint strip_any (schemes : list str) (s : str) : option str :=
  match schemes with
  | [] => None
  | p :: ps => match strip_prefix p s with Some r => Some r | None => strip_any ps s end
  end.

Definition PrincipalId_parse_strict (s : str) : result IdError PrincipalId :=
  id ← parse PrincipalIdSpec s;
  rest ← ok_or (strip_any [lit "agent://"; lit "user://"] id.(as_str))
              (BadShape "must start with agent:// or user://");
  dp ← ok_or (split_once slash rest) (BadShape "must have a path after the trust domain");
  let '(domain, path) := dp in
  if (length domain =? 0)%nat then Err (BadShape "empty trust domain")
  else if (length path =? 0)%nat then Err (BadShape "empty path")
  else Ok id.

(** ** Lemmas *)

(** The three character sets contain ASCII only, so a token is an ASCII string. *)
Definition ascii_set (allowed : Z -> bool) : Prop :=
  forall c, allowed c = true -> 0 <= c < 128.

Lemma segment_char_ascii : ascii_set segment_char.
Proof.
  intros c. unfold segment_char, is_ascii_lowercase, is_ascii_digit.
  intros H. repeat (apply orb_true_iff in H as [H|H]); breflect; lia.
Qed.

Lemma uri_char_ascii : ascii_set uri_char.
Proof.
  intros c H. unfold uri_char in H. apply orb_true_iff in H as [H|H].
  - by apply segment_char_ascii.
  - apply orb_true_iff in H as [H|H]; breflect; lia.
Qed.

Lemma model_char_ascii : ascii_set model_char.
Proof.
  intros c H. unfold model_char in H. apply orb_true_iff in H as [H|H].
  - by apply segment_char_ascii.
  - breflect; lia.
Qed.

#[export] Hint Resolve segment_char_ascii uri_char_ascii model_char_ascii : trx.

Lemma utf8_step_ascii b s : u8v b < 128 -> utf8_step (b :: s) = Some (u8v b, 1%nat).
Proof. intros H. cbn [utf8_step]. apply Z.ltb_lt in H as ->. done. Qed.

(** A longer sequence never decodes to an ASCII value: overlong forms are refused. *)
Lemma utf8_step_high b s c n :
  utf8_step (b :: s) = Some (c, n) -> 128 <= u8v b -> 128 <= c.
Proof.
  intros H Hb. revert H. cbn [utf8_step]. destruct (Z.ltb_spec (u8v b) 128); [lia|].
  unfold is_cont, in_range.
  repeat (case_match; try done); intros; simplify_eq; breflect; lia.
Qed.

Lemma utf8_step_low b s c n :
  utf8_step (b :: s) = Some (c, n) -> c < 128 -> u8v b = c /\ n = 1%nat.
Proof.
  intros H Hc. destruct (Z.ltb_spec (u8v b) 128) as [Hb|Hb].
  - rewrite utf8_step_ascii in H by done. by simplify_eq.
  - pose proof (utf8_step_high _ _ _ _ H Hb). lia.
Qed.

(** [check]'s loop accepts exactly the strings whose every byte is allowed. *)
Lemma check_chars_ascii allowed fuel at_ s :
  ascii_set allowed -> (length s <= fuel)%nat ->
  check_chars allowed (char_indices_from fuel at_ s) = Ok tt <->
  Forall (fun b => allowed (u8v b) = true) s.
Proof.
  intros Ha. revert at_ s; induction fuel as [|f IH]; intros at_ s Hl.
  { destruct s; cbn in Hl; [|lia]. cbn. split; constructor. }
  destruct s as [|b s]; [cbn; split; constructor|].
  cbn [length] in Hl. cbn [char_indices_from]. rewrite Forall_cons.
  destruct (Z.ltb_spec (u8v b) 128) as [Hb|Hb].
  - rewrite utf8_step_ascii by done. change (drop 1 (b :: s)) with s; cbn [check_chars].
    destruct (allowed (u8v b)) eqn:Eb; cbn [negb].
    + rewrite IH by lia. tauto.
    + split; [done|]. intros [? _]. congruence.
  - split.
    + destruct (utf8_step (b :: s)) as [[c n]|] eqn:E; cbn [check_chars].
      * destruct (allowed c) eqn:Ec; cbn [negb]; [|done].
        apply utf8_step_high in E; [|done]. apply Ha in Ec. lia.
      * destruct (allowed 65533) eqn:Ec; cbn [negb]; [|done]. apply Ha in Ec. lia.
    + intros [Hx _]. apply Ha in Hx. lia.
Qed.

Lemma check_ok_iff s max allowed :
  ascii_set allowed ->
  check s max allowed = Ok tt <->
  s <> [] /\ (length s <= max)%nat /\ Forall (fun b => allowed (u8v b) = true) s.
Proof.
  intros Ha. unfold check. destruct s as [|b s]; [cbn; naive_solver|].
  cbn [length Nat.eqb]. destruct (Nat.ltb_spec max (S (length s))).
  - split; [done|]. intros (_ & ? & _). lia.
  - unfold char_indices. rewrite check_chars_ascii by done. split; [|tauto]. intros. split; [done|]. split; [lia|done].
Qed.

Lemma parse_ok_iff sp s t :
  ascii_set sp.(allowed) ->
  parse sp s = Ok t <->
  t = MkToken s /\ s <> [] /\ (length s <= sp.(MAX_BYTES))%nat /\
  Forall (fun b => sp.(allowed) (u8v b) = true) s.
Proof.
  intros Ha. unfold parse. rewrite result_bind_ok. split.
  - intros ([] & Hc & [= <-]). apply check_ok_iff in Hc; [|done]. tauto.
  - intros (-> & ?). exists tt. split; [|done]. by apply check_ok_iff.
Qed.

(** The constructor's result carries the invariant, and keeps the string. *)
Lemma parse_str sp s t : parse sp s = Ok t -> t.(as_str) = s /\ token_ok t.
Proof.
  unfold parse, token_ok. intros H. pose proof H as H'.
  apply result_bind_ok in H as (u & _ & [= <-]). split; done.
Qed.

(** An accepted token is a valid UTF-8 string (every byte of it is ASCII). *)
Lemma ascii_valid_utf8_from fuel s :
  (length s <= fuel)%nat -> Forall (fun b => u8v b < 128) s -> valid_utf8_from fuel s = true.
Proof.
  revert s; induction fuel as [|f IH]; intros [|b s] Hl Hs; cbn [length] in Hl; try done; [lia|].
  apply Forall_cons in Hs as [Hb Hs].
  assert (E : valid_utf8_from (S f) (b :: s) =
    match utf8_step (b :: s) with Some (_, n) => valid_utf8_from f (drop n (b :: s)) | None => false end)
    by done.
  rewrite E, utf8_step_ascii by done. change (drop 1 (b :: s)) with s. apply IH; [lia|done].
Qed.

Lemma token_ok_inv {sp} (t : Token sp) :
  ascii_set sp.(allowed) -> token_ok t ->
  (0 < length t.(as_str) <= sp.(MAX_BYTES))%nat /\ valid_utf8 t.(as_str) = true.
Proof.
  intros Ha Ht. apply parse_ok_iff in Ht as (_ & Hne & Hl & Hs); [|done].
  split; [destruct (as_str t); cbn in *; [done|lia]|].
  apply ascii_valid_utf8_from; [done|].
  eapply Forall_impl; [done|]. intros b Hb. apply Ha in Hb. lia.
Qed.

(** ** The strict constructors *)

Lemma strip_prefix_iff p s r : strip_prefix p s = Some r <-> s = p ++ r.
Proof.
  revert s; induction p as [|x p IH]; intros s; cbn; [naive_solver|].
  destruct s as [|y s]; [done|]. destruct (Byte.eqb x y) eqn:E.
  - apply Byte.byte_dec_bl in E as ->. rewrite IH. split; congruence.
  - split; [done|]. intros [= Hx _]. symmetry in Hx. apply Byte.byte_dec_lb in Hx. congruence.
Qed.

Lemma split_once_iff c s a b :
  split_once c s = Some (a, b) <-> s = a ++ c :: b /\ c ∉ a.
Proof.
  revert a b; induction s as [|x s IH]; intros a b; cbn.
  { split; [done|]. intros [H _]. destruct a; done. }
  destruct (Byte.eqb x c) eqn:E.
  - apply Byte.byte_dec_bl in E as ->. split.
    + intros [= <- <-]. split; [done|]. set_solver.
    + intros [H Hn]. destruct a as [|y a]; [by injection H as ->|].
      injection H as -> H. set_solver.
  - assert (x <> c).
    { intros ->. assert (Byte.eqb c c = true) by (by apply Byte.byte_dec_lb). congruence. }
    destruct (split_once c s) as [[a' b']|] eqn:Es.
    + destruct (proj1 (IH a' b') eq_refl) as [-> Hn]. split.
      * intros [= <- <-]. set_solver.
      * intros [H' Hn']. destruct a as [|y a]; [by injection H'|]. injection H' as <- H'.
        assert (Some (a', b') = Some (a, b)) by (apply IH; set_solver). by simplify_eq.
    + split; [done|]. intros [H' Hn']. destruct a as [|y a]; [by injection H'|].
      injection H' as <- H'. assert (None = Some (a, b)) by (apply IH; set_solver). done.
Qed.

(** The shape [parse_strict] admits behind a scheme: a non-empty trust domain
    without a slash, a slash, and a non-empty path. *)
Definition scheme_shape (scheme s : str) : Prop :=
  exists domain path, s = scheme ++ domain ++ slash :: path /\
    domain <> [] /\ path <> [] /\ slash ∉ domain.

(** The part of both strict constructors after the scheme. *)
Lemma domain_path_iff (E : Type) (e1 : E) e2 e3 {A} (t u : A) rest :
  (dp ← ok_or (split_once slash rest) e1;
   let '(domain, path) := dp in
   if (length domain =? 0)%nat then Err e2
   else if (length path =? 0)%nat then Err e3
   else Ok t) = Ok u <->
  u = t /\ exists domain path, rest = domain ++ slash :: path /\
    domain <> [] /\ path <> [] /\ slash ∉ domain.
Proof.
  destruct (split_once slash rest) as [[d p]|] eqn:Es; cbn.
  - apply split_once_iff in Es as [-> Hn].
    destruct d as [|x d]; cbn.
    { split; [done|]. intros (_ & d' & p' & E' & ? & ? & Hd).
      destruct d'; [done|]. cbn in E'. set_solver. }
    destruct p as [|y p]; cbn.
    + split; [done|]. intros (_ & d' & p' & E' & ? & Hp & Hd).
      assert (Hs : split_once slash (x :: d ++ [slash]) = Some (x :: d, [])) by (by apply split_once_iff).
      rewrite E' in Hs. assert (split_once slash (d' ++ slash :: p') = Some (d', p'))
        by (by apply split_once_iff). congruence.
    + split; [|naive_solver]. intros [= <-]. split; [done|]. by exists (x :: d), (y :: p).
  - split; [done|]. intros (_ & d' & p' & -> & ? & ? & Hd).
    assert (split_once slash (d' ++ slash :: p') = Some (d', p')) by (by apply split_once_iff).
    congruence.
Qed.

(** The ingest door for an agent: [AgentId::parse_strict] accepts exactly the
    tokens of the shape [agent://<domain>/<path>]. *)
Lemma AgentId_parse_strict_iff s t :
  AgentId_parse_strict s = Ok t <->
  parse AgentIdSpec s = Ok t /\ scheme_shape (lit "agent://") s.
Proof.
  unfold AgentId_parse_strict. rewrite result_bind_ok. split.
  - intros (t' & Hp & H). destruct (parse_str _ _ _ Hp) as [Hs _]. rewrite Hs in H.
    apply result_bind_ok in H as (rest & Hr & H). apply ok_or_ok, strip_prefix_iff in Hr as ->.
    apply domain_path_iff in H as (-> & d & p & -> & ? & ? & ?).
    split; [done|]. by exists d, p.
  - intros (Hp & d & p & -> & ? & ? & ?). exists t. split; [done|].
    destruct (parse_str _ _ _ Hp) as [-> _]. rewrite (proj2 (strip_prefix_iff _ _ _) eq_refl).
    cbn [ok_or]. apply domain_path_iff. split; [done|]. by exists d, p.
Qed.

Lemma PrincipalId_parse_strict_iff s t :
  PrincipalId_parse_strict s = Ok t <->
  parse PrincipalIdSpec s = Ok t /\
  (scheme_shape (lit "agent://") s \/ scheme_shape (lit "user://") s).
Proof.
  unfold PrincipalId_parse_strict. rewrite result_bind_ok. split.
  - intros (t' & Hp & H). destruct (parse_str _ _ _ Hp) as [Hs _]. rewrite Hs in H.
    apply result_bind_ok in H as (rest & Hr & H). apply ok_or_ok in Hr.
    apply domain_path_iff in H as (-> & d & p & -> & ? & ? & ?). split; [done|].
    unfold strip_any in Hr. destruct (strip_prefix (lit "agent://") s) as [r|] eqn:E1.
    + apply strip_prefix_iff in E1 as ->. injection Hr as ->. left. by exists d, p.
    + destruct (strip_prefix (lit "user://") s) as [r|] eqn:E2; [|done].
      apply strip_prefix_iff in E2 as ->. injection Hr as ->. right. by exists d, p.
  - intros (Hp & Hsh). exists t. split; [done|].
    destruct (parse_str _ _ _ Hp) as [-> _].
    assert (exists d p, strip_any [lit "agent://"; lit "user://"] s = Some (d ++ slash :: p) /\
      d <> [] /\ p <> [] /\ slash ∉ d) as (d & p & -> & ?).
    { destruct Hsh as [(d & p & -> & ?)|(d & p & -> & ?)]; exists d, p; (split; [|done]).
      - unfold strip_any. by rewrite (proj2 (strip_prefix_iff _ _ _) eq_refl).
      - unfold strip_any. rewrite (proj2 (strip_prefix_iff (lit "user://") _ _) eq_refl). done. }
    cbn [ok_or mbind result_bind]. apply domain_path_iff. naive_solver.
Qed.
