(* ===== verification/Record.v ===== *)
(** * The canonical record ([trailryx-record/src/record.rs], [hash.rs], [time.rs])

    The closed vocabularies with their published names, the four clocks and the
    skew assessment, the 384-bit hash value, and the [Record] itself with the
    well-formedness predicate its Rust types stand for. *)

From S2P Require Import Prelude Bytes Ids.

(** ** Hash values *)

Definition HASH_BYTES : nat := 48.

(** [Hash(pub [u8; HASH_BYTES])]; the array length is [hash_ok]. *)
Abbreviation Hash := (list byte) (only parsing).

Definition hash_ok (h : Hash) : Prop := length h = HASH_BYTES.

#[export] Instance hash_ok_dec h : Decision (hash_ok h) := ltac:(unfold hash_ok; apply _).

Definition Hash_ZERO : Hash := repeat x00 HASH_BYTES.

Definition Hash_is_zero (h : Hash) : bool := forallb (fun b => u8v b =? 0) h.

Definition Hash_to_hex (h : Hash) : str :=
  concat (map (fun b => [hex_digit (Z.shiftr (u8v b) 4); hex_digit (Z.land (u8v b) 15)]) h).

(** The loop of [from_hex]: [n] output bytes from pairs of digits. *)
Fixpoint from_hex_loop (n : nat) (s : str) : option Hash :=
  match n with
  | O => Some []
  | S n' =>
      match s with
      | c1 :: c2 :: s' =>
          hi ← hex_value c1;
          lo ← hex_value c2;
          out ← from_hex_loop n' s';
          Some (u8 (hi * 16 + lo) :: out)
      | _ => None
      end
  end.

Definition Hash_from_hex (s : str) : option Hash :=
  if negb (length s =? HASH_BYTES * 2)%nat then None else from_hex_loop HASH_BYTES s.

(** ** Time *)

(** [Timestamp(pub u64)]: nanoseconds since the epoch. *)
Abbreviation Timestamp := Z (only parsing).

(** [u64::abs_diff]. *)
Definition distance (a b : Timestamp) : Z := Z.abs (a - b).

(** [Untrusted<T>]: the accessor's name is the trust boundary. *)
Record Untrusted (T : Type) := Untrusted_new { as_untrusted : T }.
Arguments Untrusted_new {T} as_untrusted.
Arguments as_untrusted {T} u.

#[export] Instance Untrusted_eq_dec T `{EqDecision T} : EqDecision (Untrusted T).
Proof. solve_decision. Defined.

Definition CLOCK_SKEW_THRESHOLD_NANOS : Z := 5000000000.

Inductive SkewVerdict :=
  | Acceptable (skew_nanos : Z)
  | Excessive (skew_nanos : Z).

Definition is_excessive (v : SkewVerdict) : bool :=
  match v with Excessive _ => true | Acceptable _ => false end.

Definition skew_nanos (v : SkewVerdict) : Z :=
  match v with Acceptable s | Excessive s => s end.

Definition assess_skew (occurred_at : Untrusted Timestamp) (recorded_at : Timestamp) : SkewVerdict :=
  let skew := distance (as_untrusted occurred_at) recorded_at in
  if CLOCK_SKEW_THRESHOLD_NANOS <? skew then Excessive skew else Acceptable skew.

(** ** Closed vocabularies *)

Inductive EventType :=
  | RequestReceived | ModelCall | ToolCall | PolicyDecision | BudgetCheck | MemoryAccess
  | Delegation | RunCompleted | Erasure | StoreEvent | NotificationDispatched | IdentityFinding.

Definition EventType_ALL : list EventType :=
  [RequestReceived; ModelCall; ToolCall; PolicyDecision; BudgetCheck; MemoryAccess;
   Delegation; RunCompleted; Erasure; StoreEvent; NotificationDispatched; IdentityFinding].

Definition EventType_as_str (e : EventType) : string :=
  match e with
  | RequestReceived => "request_received"
  | ModelCall => "model_call"
  | ToolCall => "tool_call"
  | PolicyDecision => "policy_decision"
  | BudgetCheck => "budget_check"
  | MemoryAccess => "memory_access"
  | Delegation => "delegation"
  | RunCompleted => "run_completed"
  | Erasure => "erasure"
  | StoreEvent => "store_event"
  | NotificationDispatched => "notification_dispatched"
  | IdentityFinding => "identity_finding"
  end.

Inductive Severity := Debug_ | Info | Notice | Warning | Error | Critical.

Definition Severity_ALL : list Severity := [Debug_; Info; Notice; Warning; Error; Critical].

Definition Severity_as_str (s : Severity) : string :=
  match s with
  | Debug_ => "debug"
  | Info => "info"
  | Notice => "notice"
  | Warning => "warning"
  | Error => "error"
  | Critical => "critical"
  end.

Inductive Verdict := Allowed | Denied | Held | Failed | NotApplicable.

Definition Verdict_ALL : list Verdict := [Allowed; Denied; Held; Failed; NotApplicable].

Definition Verdict_as_str (v : Verdict) : string :=
  match v with
  | Allowed => "allowed"
  | Denied => "denied"
  | Held => "held"
  | Failed => "failed"
  | NotApplicable => "not_applicable"
  end.

Inductive ErrorCode :=
  | NoError | Timeout_ | RateLimited | Unauthorized | BudgetExceeded | PolicyDenied
  | UpstreamError | Malformed | Internal.

Definition ErrorCode_ALL : list ErrorCode :=
  [NoError; Timeout_; RateLimited; Unauthorized; BudgetExceeded; PolicyDenied;
   UpstreamError; Malformed; Internal].

Definition ErrorCode_as_str (e : ErrorCode) : string :=
  match e with
  | NoError => "none"
  | Timeout_ => "timeout"
  | RateLimited => "rate_limited"
  | Unauthorized => "unauthorized"
  | BudgetExceeded => "budget_exceeded"
  | PolicyDenied => "policy_denied"
  | UpstreamError => "upstream_error"
  | Malformed => "malformed"
  | Internal => "internal"
  end.

Inductive PayloadClass := Prompt | Completion | ToolArguments | ToolResult | Document | Diagnostic.

Definition PayloadClass_ALL : list PayloadClass :=
  [Prompt; Completion; ToolArguments; ToolResult; Document; Diagnostic].

Definition PayloadClass_as_str (p : PayloadClass) : string :=
  match p with
  | Prompt => "prompt"
  | Completion => "completion"
  | ToolArguments => "tool_arguments"
  | ToolResult => "tool_result"
  | Document => "document"
  | Diagnostic => "diagnostic"
  end.

Inductive HashAlg := Sha384_alg.
Inductive SigAlg := Es256 | Es384 | MlDsa65 | SlhDsa.
Inductive KemAlg := X25519MlKem768.

Definition HashAlg_ALL : list HashAlg := [Sha384_alg].
Definition SigAlg_ALL : list SigAlg := [Es256; Es384; MlDsa65; SlhDsa].
Definition KemAlg_ALL : list KemAlg := [X25519MlKem768].

Definition HashAlg_as_str (a : HashAlg) : string := match a with Sha384_alg => "sha384" end.
Definition SigAlg_as_str (a : SigAlg) : string :=
  match a with
  | Es256 => "es256"
  | Es384 => "es384"
  | MlDsa65 => "ml-dsa-65"
  | SlhDsa => "slh-dsa"
  end.
Definition KemAlg_as_str (a : KemAlg) : string :=
  match a with X25519MlKem768 => "x25519-ml-kem-768" end.

#[export] Instance EventType_eq_dec : EqDecision EventType.
Proof. solve_decision. Defined.
#[export] Instance Severity_eq_dec : EqDecision Severity.
Proof. solve_decision. Defined.
#[export] Instance Verdict_eq_dec : EqDecision Verdict.
Proof. solve_decision. Defined.
#[export] Instance ErrorCode_eq_dec : EqDecision ErrorCode.
Proof. solve_decision. Defined.
#[export] Instance PayloadClass_eq_dec : EqDecision PayloadClass.
Proof. solve_decision. Defined.
#[export] Instance HashAlg_eq_dec : EqDecision HashAlg.
Proof. solve_decision. Defined.
#[export] Instance SigAlg_eq_dec : EqDecision SigAlg.
Proof. solve_decision. Defined.
#[export] Instance KemAlg_eq_dec : EqDecision KemAlg.
Proof. solve_decision. Defined.

(** ** The record *)

(** Newtypes over machine words: [RecordId(u128)], [SegmentId(u64)],
    [ShardIx(u16)], [MapperVersion(u16)]. *)
Abbreviation RecordId := Z (only parsing).
Abbreviation SegmentId := Z (only parsing).
Abbreviation ShardIx := Z (only parsing).
Abbreviation MapperVersion := Z (only parsing).

Record DelegationProof := {
  dp_jti : TokenId;
  dp_jkt : KeyThumbprint;
  dp_iss : IssuerId;
  dp_exp : Timestamp;
}.

Record Basis := {
  policy_version : option PolicyVersion;
  budget_remaining_micros : option Z;
  memory_ref : option Hash;
  model : option ModelId;
  temperature_milli : option Z;
  max_tokens : option Z;
  prompt_hash : option Hash;
  tool_manifest : list ToolName;
  identity_chain : list PrincipalId;
  delegation_proof : option DelegationProof;
}.

Record Outcome := {
  o_verdict : option Verdict;
  o_error : option ErrorCode;
  latency_micros : option Z;
  tokens_in : option Z;
  tokens_out : option Z;
  cost_micros : option Z;
}.

Record PayloadRef := {
  p_hash : Hash;
  size_bytes : Z;
  p_class : PayloadClass;
  key_id : Hash;
}.

Record Algorithms := {
  a_hash : HashAlg;
  a_signature : SigAlg;
  a_kem : KemAlg;
}.

Definition Algorithms_default : Algorithms :=
  {| a_hash := Sha384_alg; a_signature := Es384; a_kem := X25519MlKem768 |}.

Definition MapperVersion_UNMAPPED : MapperVersion := 0.

Record Record_ := MkRecord {
  r_id : RecordId;
  tenant : TenantId;
  shard : ShardIx;
  agent_id : AgentId;
  run_id : RunId;
  parent_run_id : option RunId;
  on_behalf_of : list PrincipalId;
  occurred_at : Untrusted Timestamp;
  decided_at : option (Untrusted Timestamp);
  recorded_at : Timestamp;
  knowledge_as_of : option Timestamp;
  clock_skew_nanos : option Z;
  event_type : EventType;
  severity : Severity;
  basis : Basis;
  caused_by : list RecordId;
  outcome : Outcome;
  payload : option PayloadRef;
  seq : Z;
  prev_hash : Hash;
  segment_id : SegmentId;
  algorithms : Algorithms;
  mapper : MapperVersion;
}.

#[export] Instance DelegationProof_eq_dec : EqDecision DelegationProof.
Proof. solve_decision. Defined.
#[export] Instance Basis_eq_dec : EqDecision Basis.
Proof. solve_decision. Defined.
#[export] Instance Outcome_eq_dec : EqDecision Outcome.
Proof. solve_decision. Defined.
#[export] Instance PayloadRef_eq_dec : EqDecision PayloadRef.
Proof. solve_decision. Defined.
#[export] Instance Algorithms_eq_dec : EqDecision Algorithms.
Proof. solve_decision. Defined.
#[export] Instance Record_eq_dec : EqDecision Record_.
Proof. solve_decision. Defined.

Definition PROVABLE_DIMENSIONS : list string :=
  ["id"; "recorded_at"; "agent_id"; "run_id"; "event_type"]%string.

(** ** Well-formedness: what the Rust types guarantee of a value

    Every integer within its width, every hash of 48 bytes, every token one its
    constructor accepted. *)

Definition opt_ok {A} (P : A -> Prop) (o : option A) : Prop :=
  match o with Some a => P a | None => True end.

#[export] Instance opt_ok_dec {A} (P : A -> Prop) `{forall a, Decision (P a)} o :
  Decision (opt_ok P o).
Proof. destruct o; cbn; apply _. Defined.

Record delegation_ok (p : DelegationProof) : Prop := {
  ok_jti : token_ok p.(dp_jti);
  ok_jkt : token_ok p.(dp_jkt);
  ok_iss : token_ok p.(dp_iss);
  ok_exp : u64_ok p.(dp_exp);
}.

#[export] Instance delegation_ok_dec p : Decision (delegation_ok p).
Proof. decide_record. Defined.

Record basis_ok (b : Basis) : Prop := {
  ok_policy : opt_ok token_ok b.(policy_version);
  ok_budget : opt_ok i64_ok b.(budget_remaining_micros);
  ok_memory : opt_ok hash_ok b.(memory_ref);
  ok_model : opt_ok token_ok b.(model);
  ok_temp : opt_ok u16_ok b.(temperature_milli);
  ok_maxtok : opt_ok u32_ok b.(max_tokens);
  ok_prompt : opt_ok hash_ok b.(prompt_hash);
  ok_tools : Forall token_ok b.(tool_manifest);
  ok_chain : Forall token_ok b.(identity_chain);
  ok_deleg : opt_ok delegation_ok b.(delegation_proof);
}.

#[export] Instance basis_ok_dec b : Decision (basis_ok b).
Proof. decide_record. Defined.

Record outcome_ok (o : Outcome) : Prop := {
  ok_latency : opt_ok u64_ok o.(latency_micros);
  ok_tokin : opt_ok u32_ok o.(tokens_in);
  ok_tokout : opt_ok u32_ok o.(tokens_out);
  ok_cost : opt_ok i64_ok o.(cost_micros);
}.

#[export] Instance outcome_ok_dec o : Decision (outcome_ok o).
Proof. decide_record. Defined.

Record payload_ok (p : PayloadRef) : Prop := {
  ok_phash : hash_ok p.(p_hash);
  ok_size : u64_ok p.(size_bytes);
  ok_key : hash_ok p.(key_id);
}.

#[export] Instance payload_ok_dec p : Decision (payload_ok p).
Proof. decide_record. Defined.

Record record_ok (r : Record_) : Prop := {
  ok_id : u128_ok r.(r_id);
  ok_tenant : token_ok r.(tenant);
  ok_shard : u16_ok r.(shard);
  ok_agent : token_ok r.(agent_id);
  ok_run : token_ok r.(run_id);
  ok_parent : opt_ok token_ok r.(parent_run_id);
  ok_behalf : Forall token_ok r.(on_behalf_of);
  ok_occurred : u64_ok (as_untrusted r.(occurred_at));
  ok_decided : opt_ok (fun t => u64_ok (as_untrusted t)) r.(decided_at);
  ok_recorded : u64_ok r.(recorded_at);
  ok_knowledge : opt_ok u64_ok r.(knowledge_as_of);
  ok_skew : opt_ok u64_ok r.(clock_skew_nanos);
  ok_basis : basis_ok r.(basis);
  ok_caused : Forall u128_ok r.(caused_by);
  ok_outcome : outcome_ok r.(outcome);
  ok_payload : opt_ok payload_ok r.(payload);
  ok_seq : u64_ok r.(seq);
  ok_prev : hash_ok r.(prev_hash);
  ok_segment : u64_ok r.(segment_id);
  ok_mapper : u16_ok r.(mapper);
}.

#[export] Instance record_ok_dec r : Decision (record_ok r).
Proof. decide_record. Defined.

(** ** Lemmas *)

Lemma hash_zero_ok : hash_ok Hash_ZERO.
Proof. reflexivity. Qed.
#[export] Hint Resolve hash_zero_ok : trx.

Lemma hex_pair b :
  u8 (Z.shiftr (u8v b) 4 * 16 + Z.land (u8v b) 15) = b /\
  0 <= Z.shiftr (u8v b) 4 < 16 /\ 0 <= Z.land (u8v b) 15 < 16.
Proof. destruct b; vm_compute; repeat split; discriminate. Qed.

Lemma from_hex_loop_to_hex h : from_hex_loop (length h) (Hash_to_hex h) = Some h.
Proof.
  induction h as [|b h IH]; [done|]. cbn [length].
  change (Hash_to_hex (b :: h)) with
    (hex_digit (Z.shiftr (u8v b) 4) :: hex_digit (Z.land (u8v b) 15) :: Hash_to_hex h).
  destruct (hex_pair b) as (Hb & Hhi & Hlo). cbn [from_hex_loop].
  rewrite !hex_value_digit by done. cbn. by rewrite IH, Hb.
Qed.

Lemma length_to_hex h : length (Hash_to_hex h) = (length h * 2)%nat.
Proof. unfold Hash_to_hex. induction h as [|b h IH]; cbn in *; [done|]. by rewrite IH. Qed.

Lemma length_from_hex_loop n s h : from_hex_loop n s = Some h -> length h = n.
Proof.
  revert s h; induction n as [|n IH]; intros s h; cbn; [by intros [= <-]|].
  destruct s as [|c1 [|c2 s]]; try done.
  destruct (hex_value c1), (hex_value c2); try done. cbn.
  destruct (from_hex_loop n s) as [out|] eqn:E; [|done].
  intros [= <-]. cbn. by rewrite (IH _ _ E).
Qed.

Lemma from_hex_ok s h : Hash_from_hex s = Some h -> hash_ok h.
Proof.
  unfold Hash_from_hex. destruct (negb _); [done|]. apply length_from_hex_loop.
Qed.

(** A hash value printed in hexadecimal reads back as itself. *)
Lemma hex_roundtrip h : hash_ok h -> Hash_from_hex (Hash_to_hex h) = Some h.
Proof.
  intros Hh. unfold Hash_from_hex. rewrite length_to_hex, Hh. cbn [negb Nat.eqb Nat.mul HASH_BYTES].
  rewrite <- Hh. apply from_hex_loop_to_hex.
Qed.

(** The skew verdict depends on the disagreement of the clocks, not on its direction. *)
Lemma assess_skew_spec o r :
  is_excessive (assess_skew o r) = (CLOCK_SKEW_THRESHOLD_NANOS <? Z.abs (as_untrusted o - r)) /\
  skew_nanos (assess_skew o r) = Z.abs (as_untrusted o - r).
Proof.
  unfold assess_skew, distance. by destruct (CLOCK_SKEW_THRESHOLD_NANOS <? Z.abs (as_untrusted o - r)).
Qed.

(** ** A record to evaluate the definitions on *)

Definition sample_record (id at_ n : Z) (agent run : string) (e : EventType) : Record_ := {|
  r_id := id;
  tenant := MkToken (lit "acme");
  shard := 3;
  agent_id := MkToken (lit agent);
  run_id := MkToken (lit run);
  parent_run_id := None;
  on_behalf_of := [MkToken (lit "user://acme/ada")];
  occurred_at := Untrusted_new at_;
  decided_at := None;
  recorded_at := at_;
  knowledge_as_of := Some 7;
  clock_skew_nanos := None;
  event_type := e;
  severity := Info;
  basis := {|
    policy_version := Some (MkToken (lit "p1"));
    budget_remaining_micros := Some (-5);
    memory_ref := None;
    model := Some (MkToken (lit "m/1"));
    temperature_milli := Some 700;
    max_tokens := None;
    prompt_hash := Some Hash_ZERO;
    tool_manifest := [MkToken (lit "search"); MkToken (lit "mail")];
    identity_chain := [];
    delegation_proof := Some {|
      dp_jti := MkToken (lit "jti-1"); dp_jkt := MkToken (lit "jkt");
      dp_iss := MkToken (lit "https://issuer"); dp_exp := 99 |};
  |};
  caused_by := [1; 2];
  outcome := {|
    o_verdict := Some Allowed; o_error := None; latency_micros := Some 300;
    tokens_in := Some 12; tokens_out := None; cost_micros := Some (-1) |};
  payload := Some {| p_hash := Hash_ZERO; size_bytes := 4096; p_class := Prompt; key_id := Hash_ZERO |};
  seq := n;
  prev_hash := Hash_ZERO;
  segment_id := 11;
  algorithms := Algorithms_default;
  mapper := 1;
|}.

Lemma sample_record_ok :
  record_ok (sample_record 5 1000 1 "agent://acme/bot" "run-1" ToolCall).
Proof. by_evaluation. Qed.
