(* ===== verification/Codec.v ===== *)
(** * Readers and codecs

    The parsers of the source are cursors over a byte slice that fail with an
    error of their own. A [Reader E A] takes the unread rest of the buffer and
    gives a value with what is left, or an [E]; a writer is the list of bytes it
    appends. [codec put get wf] pairs the two: what was put is read back, and
    whatever is read is the one encoding of the value. *)

From S2P Require Import Prelude Bytes.

Definition Reader (E A : Type) : Type := list byte -> result E (A * list byte).

#[export] Instance rd_ret {E} : MRet (Reader E) := fun _ a bs => Ok (a, bs).
#[export] Instance rd_bind {E} : MBind (Reader E) := fun _ _ f m bs =>
  match m bs with Ok (a, bs') => f a bs' | Err e => Err e end.

#[export] Instance rd_fmap {E} : FMap (Reader E) := fun _ _ f m => a ← m; mret (f a).

Definition rd_fail {E A} (e : E) : Reader E A := fun _ => Err e.

(** A [Result] in the reader's [?] chain. *)
Definition rd_lift {E A} (m : result E A) : Reader E A := fun bs =>
  match m with Ok a => Ok (a, bs) | Err e => Err e end.

(** [buf.get(pos..pos + n).ok_or(e)]. *)
Definition rd_take {E} (e : E) (n : Z) : Reader E (list byte) := fun bs =>
  if Z.of_nat (length bs) <? n then Err e
  else Ok (take (Z.to_nat n) bs, drop (Z.to_nat n) bs).

(** [for _ in 0..n { items.push(f()?) }]. *)
Fixpoint get_items {E A} (f : Reader E A) (n : nat) : Reader E (list A) :=
  match n with
  | O => mret []
  | S n' => a ← f; l ← get_items f n'; mret (a :: l)
  end.

(** ** Codecs *)

Record codec {E A} (put : A -> list byte) (get : Reader E A) (wf : A -> Prop) : Prop := {
  codec_reads : forall a rest, wf a -> get (put a ++ rest) = Ok (a, rest);
  codec_sound : forall bs a rest, get bs = Ok (a, rest) -> bs = put a ++ rest /\ wf a;
}.
Arguments codec_reads {E A put get wf}.
Arguments codec_sound {E A put get wf}.

Create HintDb codec.

Section Readers.
Context {E : Type}.

Lemma rd_bind_ok {A B} (m : Reader E A) (f : A -> Reader E B) bs b rest :
  (m ≫= f) bs = Ok (b, rest) <-> exists a bs', m bs = Ok (a, bs') /\ f a bs' = Ok (b, rest).
Proof.
  unfold mbind, rd_bind. destruct (m bs) as [[a bs']|e]; split; [eauto| |done|].
  - intros (a' & bs'' & [= -> ->] & H). done.
  - intros (a & bs' & ? & _). done.
Qed.

(** Reading back what was put, in front of a continuation. *)
Lemma rd_bind_reads {A B} {put} {get : Reader E A} {wf} (C : codec put get wf) (f : A -> Reader E B) a rest :
  wf a -> (get ≫= f) (put a ++ rest) = f a rest.
Proof. intros Ha. unfold mbind, rd_bind. by rewrite (codec_reads C). Qed.

Lemma rd_ret_ok {A} (a b : A) bs rest : (mret a : Reader E A) bs = Ok (b, rest) <-> a = b /\ bs = rest.
Proof. unfold mret, rd_ret. naive_solver. Qed.

Lemma rd_lift_ok {A} (m : result E A) bs a rest :
  rd_lift m bs = Ok (a, rest) <-> m = Ok a /\ bs = rest.
Proof. unfold rd_lift. destruct m; naive_solver. Qed.

(** The same bytes, read as another type through a bijection on [wf]. *)
Lemma fmap_codec {A B} {put} {get : Reader E A} {wf} (f : A -> B) (g : B -> A) (wf' : B -> Prop) :
  codec put get wf -> (forall b, wf' b -> wf (g b) /\ f (g b) = b) -> (forall a, wf a -> wf' (f a) /\ g (f a) = a) ->
  codec (fun b => put (g b)) (f <$> get) wf'.
Proof.
  intros C Hg Hf. split.
  - intros b rest Hb. destruct (Hg b Hb) as [Hw E0]. unfold fmap, rd_fmap.
    rewrite (rd_bind_reads C) by done. unfold mret, rd_ret. by rewrite E0.
  - intros bs b rest H. unfold fmap, rd_fmap in H. apply rd_bind_ok in H as (a & bs' & H & Hk).
    apply C in H as [-> Ha]. apply rd_ret_ok in Hk as [<- ->]. destruct (Hf a Ha) as [Hw ->]. done.
Qed.

Lemma codec_impl {A} {put : A -> list byte} {get : Reader E A} {wf wf' : A -> Prop} :
  codec put get wf -> (forall a, wf a <-> wf' a) -> codec put get wf'.
Proof.
  intros C H. split.
  - intros a rest Ha. apply C, H, Ha.
  - intros bs a rest Hg. apply C in Hg as [-> ?]. by rewrite <- H.
Qed.

Lemma rd_take_reads (e : E) (n : Z) s rest :
  Z.of_nat (length s) = n -> rd_take e n (s ++ rest) = Ok (s, rest).
Proof.
  intros <-. unfold rd_take. rewrite length_app, Nat2Z.id.
  destruct (Z.ltb_spec (Z.of_nat (length s + length rest)) (Z.of_nat (length s))); [lia|].
  by rewrite take_app_length, drop_app_length.
Qed.

Lemma rd_take_sound (e : E) n bs s rest :
  0 <= n -> rd_take e n bs = Ok (s, rest) -> bs = s ++ rest /\ Z.of_nat (length s) = n.
Proof.
  intros Hn. unfold rd_take. destruct (Z.ltb_spec (Z.of_nat (length bs)) n); [done|].
  intros [= <- <-]. rewrite take_drop, length_take. split; [done|lia].
Qed.

Lemma items_codec {A} {put : A -> list byte} {get : Reader E A} {wf} n :
  codec put get wf ->
  codec (fun l => concat (map put l)) (get_items get n) (fun l => length l = n /\ Forall wf l).
Proof.
  intros C. induction n as [|n IH]; split.
  - intros [|a l] rest [Hl _]; done.
  - intros bs l rest H. apply rd_ret_ok in H as [<- ->]. done.
  - intros [|a l] rest [Hl Hf]; [done|]. apply Forall_cons in Hf as [Ha Hf]. cbn [get_items map concat].
    rewrite <- app_assoc. rewrite (rd_bind_reads C) by done. rewrite (rd_bind_reads IH) by (split; [by injection Hl|done]). done.
  - intros bs l rest H. cbn [get_items] in H. apply rd_bind_ok in H as (a & bs' & Ha & H).
    apply rd_bind_ok in H as (l' & bs'' & Hl & H). apply rd_ret_ok in H as [<- ->].
    apply C in Ha as [-> Ha]. apply IH in Hl as [-> [Hl Hf]]. cbn. rewrite <- app_assoc. split; [done|].
    split; [by rewrite Hl|by constructor].
Qed.

(** A fixed-width field: a slice of [n] bytes read as a value. *)
Lemma fixed_codec {A} (e : E) (n : nat) (put : A -> list byte) (val : list byte -> A) (wf : A -> Prop) :
  (forall a, wf a -> length (put a) = n /\ val (put a) = a) ->
  (forall s, length s = n -> put (val s) = s /\ wf (val s)) ->
  codec put (s ← rd_take e (Z.of_nat n); mret (val s)) wf.
Proof.
  intros Hp Hv. split.
  - intros a rest Ha. destruct (Hp a Ha) as [Hl Ev]. unfold mbind, rd_bind.
    rewrite rd_take_reads by (by rewrite Hl). unfold mret, rd_ret. by rewrite Ev.
  - intros bs a rest H. apply rd_bind_ok in H as (s & bs' & H & Hk).
    apply rd_take_sound in H as [-> Hl]; [|lia]. apply rd_ret_ok in Hk as [<- ->].
    destruct (Hv s ltac:(lia)) as [-> Hw]. done.
Qed.

(** A big-endian unsigned integer of [n] bytes. *)
Lemma be_codec (e : E) (n : nat) :
  codec (to_be_bytes n) (s ← rd_take e (Z.of_nat n); mret (from_be_bytes s))
        (fun v => 0 <= v < 256 ^ Z.of_nat n).
Proof.
  apply fixed_codec.
  - intros v Hv. split; [apply length_to_be_bytes|by apply from_to_be_bytes].
  - intros s Hs. rewrite <- Hs. split; [apply to_from_be_bytes|apply from_be_bytes_range].
Qed.

End Readers.

(** One reading step, of what was put and of what was found. *)
Ltac rd_read :=
  lazymatch goal with
  | |- (?get ≫= _) _ = _ =>
      let C := fresh "C" in
      eassert (C : codec _ get _) by (solve [eauto with codec nocore]);
      rewrite (rd_bind_reads C); [clear C|clear C]
  end.
Ltac rd_found :=
  match goal with
  | H : (_ ≫= _) _ = Ok _ |- _ =>
      let E := fresh "E" in
      apply rd_bind_ok in H; destruct H as (? & ? & E & H);
      eapply codec_sound in E; [|solve [eauto with codec nocore]]; destruct E as [-> ?]
  | H : mret _ _ = Ok _ |- _ => apply rd_ret_ok in H; destruct H as [? ?]; subst
  end.
