(* ===== verification/Digest.v ===== *)
(** * The digest interface and the hash chain
    ([trailryx-crypto/src/lib.rs], [chain.rs])

    [Digest] is the trait every hashing call goes through, with the two laws its
    clients rely on: how a message is cut into [update] calls does not matter,
    and a result has 48 bytes. The chain, the Merkle trees and the journal are
    proved against this interface; [Sha384] discharges it. *)

From S2P Require Import Prelude Bytes Ids Record.

(** ** The trait *)

Class Digest := {
  hasher : Type;
  hasher_new : hasher;
  update : hasher -> list byte -> hasher;
  finish : hasher -> Hash;
}.

(** [Sha384::digest]: the one-shot case. *)
Definition digest `{Digest} (data : list byte) : Hash := finish (update hasher_new data).

(** [h.update(p1); ...; h.update(pn); h.finish()] on a fresh hasher. *)
Definition hash_parts `{Digest} (parts : list (list byte)) : Hash :=
  finish (fold_left update parts hasher_new).

(** What the clients assume of an implementation. *)
Class DigestLaws (D : Digest) : Prop := {
  finish_parts : forall parts, hash_parts parts = digest (concat parts);
  digest_ok : forall data, hash_ok (digest data);
}.

(** Constant-time equality. *)
Fixpoint digests_equal_loop (a b : list byte) (diff : Z) : Z :=
  match a, b with
  | x :: a', y :: b' => digests_equal_loop a' b' (Z.lor diff (Z.lxor (u8v x) (u8v y)))
  | _, _ => diff
  end.

Definition digests_equal (a b : Hash) : bool := digests_equal_loop a b 0 =? 0.

(** ** Collisions

    A statement about hashing holds up to collisions. [collision_free xs ys]
    says that no string of [xs] collides with a different string of [ys]: a
    decidable condition on the finitely many strings two computations hash. *)
Definition collision_free `{Digest} (xs ys : list (list byte)) : Prop :=
  Forall (fun x => Forall (fun y => digest x = digest y -> x = y) ys) xs.

(** Its decision procedure hashes every string once. *)
Definition collision_free_b `{Digest} (xs ys : list (list byte)) : bool :=
  let ds := map (fun y => (digest y, y)) ys in
  forallb (fun x => let dx := digest x in
    forallb (fun '(dy, y) => negb (bool_decide (dx = dy)) || bool_decide (x = y)) ds) xs.

Lemma collision_free_b_spec `{Digest} xs ys : collision_free_b xs ys = true <-> collision_free xs ys.
Proof.
  unfold collision_free_b, collision_free. cbn zeta. rewrite forallb_forall, Forall_forall.
  apply forall_proper. intros x. rewrite forallb_forall, Forall_forall, list_elem_of_In.
  split; intros Hxs Hx; specialize (Hxs Hx); revert Hxs; clear Hx.
  - intros Hf y Hy E. apply list_elem_of_In in Hy.
    specialize (Hf (digest y, y) (in_map (fun y => (digest y, y)) _ _ Hy)). cbn in Hf.
    rewrite bool_decide_true in Hf by done. by apply bool_decide_eq_true in Hf.
  - intros Hf [dy y] Hy. apply in_map_iff in Hy as (y' & [= <- <-] & Hy). apply list_elem_of_In in Hy.
    apply orb_true_iff. destruct (decide (digest x = digest y')) as [E|E].
    + right. apply bool_decide_eq_true. by apply Hf.
    + left. by rewrite bool_decide_false.
Qed.

#[export] Instance collision_free_dec `{Digest} xs ys : Decision (collision_free xs ys) :=
  match bool_dec (collision_free_b xs ys) true with
  | left H => left (proj1 (collision_free_b_spec xs ys) H)
  | right H => right (fun C => H (proj2 (collision_free_b_spec xs ys) C))
  end.

(** ** The hash chain *)

Definition CHAIN_DOMAIN : list byte := lit "trailryx/chain/v1" ++ [x00].

(** The message one link hashes. *)
Definition chain_input (prev : Hash) (seq : Z) (record_bytes : list byte) : list byte :=
  CHAIN_DOMAIN ++ prev ++ to_be_bytes 8 seq ++ to_be_bytes 8 (Z.of_nat (length record_bytes))
  ++ record_bytes.

Definition chain_step `{Digest} (prev : Hash) (seq : Z) (record_bytes : list byte) : Hash :=
  hash_parts [CHAIN_DOMAIN; prev; to_be_bytes 8 seq;
              to_be_bytes 8 (Z.of_nat (length record_bytes)); record_bytes].

Record ChainState := MkChain { chain_head : Hash; chain_length : Z }.

#[export] Instance ChainState_eq_dec : EqDecision ChainState.
Proof. solve_decision. Defined.

Definition chain_genesis : ChainState := {| chain_head := Hash_ZERO; chain_length := 0 |}.

Definition chain_resume (head : Hash) (length : Z) : ChainState :=
  {| chain_head := head; chain_length := length |}.

(** [ChainState::append]: the new state; its head is the link returned. *)
Definition chain_append `{Digest} (c : ChainState) (record_bytes : list byte) : ChainState :=
  let seq := c.(chain_length) + 1 in
  {| chain_head := chain_step c.(chain_head) seq record_bytes; chain_length := seq |}.

Definition chain_verify_step `{Digest} (prev : Hash) (seq : Z) (record_bytes : list byte)
    (claimed : Hash) : bool :=
  digests_equal (chain_step prev seq record_bytes) claimed.

(** The chain over a list of records, and the messages its links hash. *)
Definition chain_of `{Digest} (c : ChainState) (rs : list (list byte)) : ChainState :=
  fold_left chain_append rs c.

Fixpoint chain_inputs `{Digest} (c : ChainState) (rs : list (list byte)) : list (list byte) :=
  match rs with
  | [] => []
  | r :: rs' => chain_input c.(chain_head) (c.(chain_length) + 1) r :: chain_inputs (chain_append c r) rs'
  end.

(** ** Lemmas on equality of digests *)

Lemma lxor_u8v_0 x y : Z.lxor (u8v x) (u8v y) = 0 <-> x = y.
Proof.
  rewrite Z.lxor_eq_0_iff. split; [apply u8v_inj|by intros ->].
Qed.

Lemma digests_equal_loop_spec a b d :
  length a = length b -> digests_equal_loop a b d = 0 <-> d = 0 /\ a = b.
Proof.
  revert b d; induction a as [|x a IH]; intros [|y b] d; cbn; try done; [naive_solver|].
  intros [= Hl]. rewrite IH by done. rewrite Z.lor_eq_0_iff, lxor_u8v_0. naive_solver.
Qed.

(** On values of equal length the constant-time comparison is equality. *)
Lemma digests_equal_spec a b :
  length a = length b -> digests_equal a b = true <-> a = b.
Proof.
  intros Hl. unfold digests_equal. rewrite Z.eqb_eq, digests_equal_loop_spec by done. naive_solver.
Qed.

Lemma digests_equal_ok a b : hash_ok a -> hash_ok b -> digests_equal a b = true <-> a = b.
Proof. unfold hash_ok. intros Ha Hb. apply digests_equal_spec. congruence. Qed.

Lemma digests_equal_refl a : digests_equal a a = true.
Proof. by apply digests_equal_spec. Qed.

#[export] Hint Resolve digest_ok : trx.

(** ** Lemmas on the chain *)

Section Chain.
Context `{DL : DigestLaws}.

Lemma hash_parts_ok parts : hash_ok (hash_parts parts).
Proof. rewrite finish_parts. apply digest_ok. Qed.

Lemma chain_step_digest prev seq r : chain_step prev seq r = digest (chain_input prev seq r).
Proof. unfold chain_step. rewrite finish_parts. cbn. by rewrite app_nil_r. Qed.

Lemma chain_step_ok prev seq r : hash_ok (chain_step prev seq r).
Proof. apply hash_parts_ok. Qed.

Lemma chain_input_inj p1 s1 r1 p2 s2 r2 :
  hash_ok p1 -> hash_ok p2 -> u64_ok s1 -> u64_ok s2 ->
  chain_input p1 s1 r1 = chain_input p2 s2 r2 -> p1 = p2 /\ s1 = s2 /\ r1 = r2.
Proof.
  unfold chain_input, hash_ok, u64_ok. intros Hp1 Hp2 Hs1 Hs2 H. apply app_inv_head in H.
  apply app_eq_same_length in H as [-> H]; [|congruence].
  apply app_eq_same_length in H as [Hs H]; [|by rewrite !length_to_be_bytes].
  apply app_eq_same_length in H as [_ ->]; [|by rewrite !length_to_be_bytes].
  apply to_be_bytes_inj in Hs as ->; [done|..]; change (256 ^ Z.of_nat 8) with (2 ^ 64); done.
Qed.

Lemma chain_append_ok c r : hash_ok (chain_append c r).(chain_head).
Proof. apply chain_step_ok. Qed.

Lemma chain_of_app c rs1 rs2 : chain_of c (rs1 ++ rs2) = chain_of (chain_of c rs1) rs2.
Proof. apply fold_left_app. Qed.

Lemma chain_of_snoc c rs r : chain_of c (rs ++ [r]) = chain_append (chain_of c rs) r.
Proof. by rewrite chain_of_app. Qed.

Lemma chain_of_length c rs :
  (chain_of c rs).(chain_length) = c.(chain_length) + Z.of_nat (length rs).
Proof.
  revert c; induction rs as [|r rs IH]; intros c; cbn [chain_of fold_left length]; [lia|].
  unfold chain_of in IH. rewrite IH. cbn. lia.
Qed.

Lemma chain_of_head_ok c rs : hash_ok c.(chain_head) -> hash_ok (chain_of c rs).(chain_head).
Proof.
  revert c; induction rs as [|r rs IH]; intros c Hc; [done|].
  apply (IH (chain_append c r)), chain_append_ok.
Qed.

Lemma chain_inputs_snoc c rs r :
  chain_inputs c (rs ++ [r]) =
  chain_inputs c rs ++ [chain_input (chain_of c rs).(chain_head) ((chain_of c rs).(chain_length) + 1) r].
Proof.
  revert c; induction rs as [|x rs IH]; intros c; [done|]. cbn [app chain_inputs]. by rewrite IH.
Qed.

(** Two chains that end at the same head and length hold the same records,
    unless two of the messages they hashed collide. *)
Lemma chain_tamper_evident c rs1 rs2 :
  hash_ok c.(chain_head) -> 0 <= c.(chain_length) ->
  c.(chain_length) + Z.of_nat (length rs1) < 2 ^ 64 ->
  collision_free (chain_inputs c rs1) (chain_inputs c rs2) ->
  chain_of c rs1 = chain_of c rs2 -> rs1 = rs2.
Proof.
  intros Hc H0. revert rs2.
  induction rs1 as [|r1 rs1 IH] using rev_ind; intros rs2 Hb Hcf He.
  - apply (f_equal chain_length) in He. rewrite !chain_of_length in He. cbn in He.
    destruct rs2; [done|]. cbn in He. lia.
  - destruct rs2 as [|r2 rs2 _] using rev_ind.
    { apply (f_equal chain_length) in He. rewrite !chain_of_length, length_app in He. cbn in He. lia. }
    pose proof (f_equal chain_length He) as Hl. rewrite !chain_of_length, !length_app in Hl.
    cbn in Hl. rewrite length_app in Hb. cbn in Hb.
    rewrite !chain_of_snoc in He. apply (f_equal chain_head) in He.
    unfold chain_append in He. cbn [chain_head] in He. rewrite !chain_step_digest in He.
    rewrite !chain_inputs_snoc in Hcf. unfold collision_free in Hcf.
    rewrite Forall_app, Forall_singleton in Hcf. destruct Hcf as [Hcf1 Hcf2].
    rewrite Forall_app, Forall_singleton in Hcf2. destruct Hcf2 as [_ Hcf2].
    specialize (Hcf2 He). rewrite !chain_of_length in Hcf2.
    apply chain_input_inj in Hcf2 as (Hh & Hs & ->); try (by apply chain_of_head_ok);
      try (unfold u64_ok; lia).
    f_equal. apply IH; [lia| |].
    + eapply Forall_impl; [exact Hcf1|]. cbn. intros x Hx. by apply Forall_app in Hx as [? _].
    + destruct (chain_of c rs1) as [h1 l1] eqn:E1, (chain_of c rs2) as [h2 l2] eqn:E2.
      cbn in Hh. subst h2. f_equal.
      pose proof (chain_of_length c rs1) as L1. pose proof (chain_of_length c rs2) as L2.
      rewrite E1 in L1. rewrite E2 in L2. cbn in L1, L2. lia.
Qed.

End Chain.

(** ** A light instance

    A 48-byte shift register with feedback that meets the laws of the interface.
    It stands in for the hasher of [Sha384] where an example evaluates hundreds
    of digests; nothing is proved about its strength. *)

Definition register_step (st : list byte) (b : byte) : list byte :=
  match st with
  | h :: t => t ++ [u8 (u8v h * 5 + u8v (default x00 (last t)) * 3 + u8v b + 1)]
  | [] => [b]
  end.

Definition Register_Digest : Digest := {|
  hasher := list byte;
  hasher_new := Hash_ZERO;
  update := fun st data => fold_left register_step data st;
  finish := fun st => st;
|}.

Lemma register_length st data : st <> [] -> length (fold_left register_step data st) = length st.
Proof.
  revert st; induction data as [|b data IH]; intros st Hst; [done|]. cbn [fold_left].
  destruct st as [|h t]; [done|]. rewrite IH; cbn [register_step].
  - rewrite length_app. cbn. lia.
  - by destruct t.
Qed.

Lemma Register_DigestLaws : DigestLaws Register_Digest.
Proof.
  split.
  - intros parts. unfold hash_parts, digest. cbn [finish update hasher_new Register_Digest].
    generalize Hash_ZERO. induction parts as [|p parts IH]; intros z; [done|]. cbn [concat fold_left].
    by rewrite IH, fold_left_app.
  - intros data. by apply register_length.
Qed.
