(* ===== verification/Sha384.v ===== *)
(** * SHA-384 ([trailryx-crypto/src/sha384.rs])

    The streaming hasher as written: eight 64-bit words, a block buffer, and a
    128-bit byte count. [sha384_spec] is the padding and block iteration of
    FIPS 180-4 on a whole message; the hasher computes it however the message
    was cut into [update] calls, which is the law [DigestLaws] asks for. *)

From S2P Require Import Prelude Bytes Ids Record Digest.

Definition K : list Z :=
  [0x428a2f98d728ae22; 0x7137449123ef65cd; 0xb5c0fbcfec4d3b2f;
   0xe9b5dba58189dbbc; 0x3956c25bf348b538; 0x59f111f1b605d019;
   0x923f82a4af194f9b; 0xab1c5ed5da6d8118; 0xd807aa98a3030242;
   0x12835b0145706fbe; 0x243185be4ee4b28c; 0x550c7dc3d5ffb4e2;
   0x72be5d74f27b896f; 0x80deb1fe3b1696b1; 0x9bdc06a725c71235;
   0xc19bf174cf692694; 0xe49b69c19ef14ad2; 0xefbe4786384f25e3;
   0x0fc19dc68b8cd5b5; 0x240ca1cc77ac9c65; 0x2de92c6f592b0275;
   0x4a7484aa6ea6e483; 0x5cb0a9dcbd41fbd4; 0x76f988da831153b5;
   0x983e5152ee66dfab; 0xa831c66d2db43210; 0xb00327c898fb213f;
   0xbf597fc7beef0ee4; 0xc6e00bf33da88fc2; 0xd5a79147930aa725;
   0x06ca6351e003826f; 0x142929670a0e6e70; 0x27b70a8546d22ffc;
   0x2e1b21385c26c926; 0x4d2c6dfc5ac42aed; 0x53380d139d95b3df;
   0x650a73548baf63de; 0x766a0abb3c77b2a8; 0x81c2c92e47edaee6;
   0x92722c851482353b; 0xa2bfe8a14cf10364; 0xa81a664bbc423001;
   0xc24b8b70d0f89791; 0xc76c51a30654be30; 0xd192e819d6ef5218;
   0xd69906245565a910; 0xf40e35855771202a; 0x106aa07032bbd1b8;
   0x19a4c116b8d2d0c8; 0x1e376c085141ab53; 0x2748774cdf8eeb99;
   0x34b0bcb5e19b48a8; 0x391c0cb3c5c95a63; 0x4ed8aa4ae3418acb;
   0x5b9cca4f7763e373; 0x682e6ff3d6b2b8a3; 0x748f82ee5defb2fc;
   0x78a5636f43172f60; 0x84c87814a1f0ab72; 0x8cc702081a6439ec;
   0x90befffa23631e28; 0xa4506cebde82bde9; 0xbef9a3f7b2c67915;
   0xc67178f2e372532b; 0xca273eceea26619c; 0xd186b8c721c0c207;
   0xeada7dd6cde0eb1e; 0xf57d4f7fee6ed178; 0x06f067aa72176fba;
   0x0a637dc5a2c898a6; 0x113f9804bef90dae; 0x1b710b35131c471b;
   0x28db77f523047d84; 0x32caab7b40c72493; 0x3c9ebe0a15c9bebc;
   0x431d67c49c100d4c; 0x4cc5d4becb3e42b6; 0x597f299cfc657e2a;
   0x5fcb6fab3ad6faec; 0x6c44198c4a475817].

Definition IV : list Z :=
  [0xcbbb9d5dc1059ed8; 0x629a292a367cd507;
   0x9159015a3070dd17; 0x152fecd8f70e5939;
   0x67332667ffc00b31; 0x8eb44a8768581511;
   0xdb0c2e0d64f98fa7; 0x47b5481dbefa4fa4].

Definition BLOCK : nat := 128.

(** ** 64-bit word operations *)

Definition mask64 : Z := 0xffffffffffffffff.

(** [wrapping_add], [u64::rotate_right] and [!x]. *)
Definition wadd (a b : Z) : Z := Z.land (a + b) mask64.
Definition rotate_right (x n : Z) : Z :=
  Z.lor (Z.shiftr x n) (Z.land (Z.shiftl x (64 - n)) mask64).
Definition wnot (x : Z) : Z := Z.lxor x mask64.

Definition word (w : list Z) (i : nat) : Z := nth i w 0.

(** ** [compress] *)

(** The first sixteen words of the schedule. *)
Fixpoint block_words (n : nat) (block : list byte) : list Z :=
  match n with
  | O => []
  | S n' => from_be_bytes (take 8 block) :: block_words n' (drop 8 block)
  end.

(** [for i in 16..80]: [n] more words behind [w]. *)
Fixpoint extend_schedule (n : nat) (w : list Z) : list Z :=
  match n with
  | O => w
  | S n' =>
      let i := length w in
      let w15 := word w (i - 15) in
      let w2 := word w (i - 2) in
      let s0 := Z.lxor (Z.lxor (rotate_right w15 1) (rotate_right w15 8)) (Z.shiftr w15 7) in
      let s1 := Z.lxor (Z.lxor (rotate_right w2 19) (rotate_right w2 61)) (Z.shiftr w2 6) in
      extend_schedule n' (w ++ [wadd (wadd (wadd (word w (i - 16)) s0) (word w (i - 7))) s1])
  end.

Definition schedule (block : list byte) : list Z :=
  extend_schedule 64 (block_words 16 block).

(** The working variables [a .. hh]. *)
Record Vars := MkVars { va : Z; vb : Z; vc : Z; vd : Z; ve : Z; vf : Z; vg : Z; vh : Z }.

Definition round (v : Vars) (k w : Z) : Vars :=
  let s1 := Z.lxor (Z.lxor (rotate_right v.(ve) 14) (rotate_right v.(ve) 18)) (rotate_right v.(ve) 41) in
  let ch := Z.lxor (Z.land v.(ve) v.(vf)) (Z.land (wnot v.(ve)) v.(vg)) in
  let t1 := wadd (wadd (wadd (wadd v.(vh) s1) ch) k) w in
  let s0 := Z.lxor (Z.lxor (rotate_right v.(va) 28) (rotate_right v.(va) 34)) (rotate_right v.(va) 39) in
  let maj := Z.lxor (Z.lxor (Z.land v.(va) v.(vb)) (Z.land v.(va) v.(vc))) (Z.land v.(vb) v.(vc)) in
  let t2 := wadd s0 maj in
  {| va := wadd t1 t2; vb := v.(va); vc := v.(vb); vd := v.(vc);
     ve := wadd v.(vd) t1; vf := v.(ve); vg := v.(vf); vh := v.(vg) |}.

Fixpoint rounds (ks ws : list Z) (v : Vars) : Vars :=
  match ks, ws with
  | k :: ks', w :: ws' => rounds ks' ws' (round v k w)
  | _, _ => v
  end.

Definition compress (h : list Z) (block : list byte) : list Z :=
  let v := rounds K (schedule block)
    {| va := word h 0; vb := word h 1; vc := word h 2; vd := word h 3;
       ve := word h 4; vf := word h 5; vg := word h 6; vh := word h 7 |} in
  [wadd (word h 0) v.(va); wadd (word h 1) v.(vb); wadd (word h 2) v.(vc); wadd (word h 3) v.(vd);
   wadd (word h 4) v.(ve); wadd (word h 5) v.(vf); wadd (word h 6) v.(vg); wadd (word h 7) v.(vh)].

(** ** The streaming hasher *)

Record Sha384 := MkSha384 {
  sh_h : list Z;
  sh_buf : list byte;
  sh_buf_len : nat;
  sh_total_bytes : Z;
}.

Definition Sha384_new : Sha384 :=
  {| sh_h := IV; sh_buf := repeat x00 BLOCK; sh_buf_len := 0; sh_total_bytes := 0 |}.

(** [self.buf[at..at + data.len()].copy_from_slice(data)]. *)
Definition copy_at (buf : list byte) (at_ : nat) (data : list byte) : list byte :=
  take at_ buf ++ data ++ drop (at_ + length data) buf.

(** [while data.len() >= BLOCK]: compress whole blocks straight from the input. *)
Fixpoint absorb (fuel : nat) (h : list Z) (data : list byte) : list Z * list byte :=
  match fuel with
  | O => (h, data)
  | S f =>
      if (BLOCK <=? length data)%nat
      then absorb f (compress h (take BLOCK data)) (drop BLOCK data)
      else (h, data)
  end.

Definition wrap128 (z : Z) : Z := z mod 2 ^ 128.

Definition Sha384_update (s : Sha384) (data0 : list byte) : Sha384 :=
  let total := wrap128 (s.(sh_total_bytes) + Z.of_nat (length data0)) in
  let '(h, buf, buf_len, data) :=
    if (0 <? s.(sh_buf_len))%nat then
      let need := (BLOCK - s.(sh_buf_len))%nat in
      let tk := Nat.min need (length data0) in
      let buf := copy_at s.(sh_buf) s.(sh_buf_len) (take tk data0) in
      let buf_len := (s.(sh_buf_len) + tk)%nat in
      if (buf_len =? BLOCK)%nat
      then (compress s.(sh_h) buf, buf, 0%nat, drop tk data0)
      else (s.(sh_h), buf, buf_len, drop tk data0)
    else (s.(sh_h), s.(sh_buf), s.(sh_buf_len), data0) in
  let '(h, data) := absorb (length data) h data in
  if (length data =? 0)%nat
  then {| sh_h := h; sh_buf := buf; sh_buf_len := buf_len; sh_total_bytes := total |}
  else {| sh_h := h; sh_buf := copy_at buf 0 data; sh_buf_len := length data;
          sh_total_bytes := total |}.

(** [self.update(&[b]); self.total_bytes -= 1]. *)
Definition push_padding (s : Sha384) (b : byte) : Sha384 :=
  let s' := Sha384_update s [b] in
  {| sh_h := s'.(sh_h); sh_buf := s'.(sh_buf); sh_buf_len := s'.(sh_buf_len);
     sh_total_bytes := wrap128 (s'.(sh_total_bytes) - 1) |}.

(** [while self.buf_len != BLOCK - 16]. *)
Fixpoint pad_zeros (fuel : nat) (s : Sha384) : Sha384 :=
  match fuel with
  | O => s
  | S f => if (s.(sh_buf_len) =? BLOCK - 16)%nat then s else pad_zeros f (push_padding s x00)
  end.

(** The loop runs less than one block's worth of turns. *)
Definition Sha384_finish (s : Sha384) : Hash :=
  let bit_len := wrap128 (s.(sh_total_bytes) * 8) in
  let s := push_padding s x80 in
  let s := pad_zeros BLOCK s in
  let s := Sha384_update s (to_be_bytes 16 bit_len) in
  concat (map (to_be_bytes 8) (take 6 s.(sh_h))).

#[export] Instance Sha384_Digest : Digest :=
  {| hasher := Sha384; hasher_new := Sha384_new; update := Sha384_update; finish := Sha384_finish |}.

(** ** The specification: FIPS 180-4 on a whole message *)

Definition pad (m : list byte) : list byte :=
  m ++ [x80] ++ repeat x00 (Z.to_nat ((111 - Z.of_nat (length m)) mod 128))
    ++ to_be_bytes 16 (8 * Z.of_nat (length m)).

Definition sha384_spec (m : list byte) : Hash :=
  concat (map (to_be_bytes 8) (take 6 (fst (absorb (length (pad m)) IV (pad m))))).

(** ** Absorbing blocks *)

Lemma absorb_step f h m :
  (BLOCK <= length m)%nat ->
  absorb (S f) h m = absorb f (compress h (take BLOCK m)) (drop BLOCK m).
Proof. intros H. cbn [absorb]. by apply Nat.leb_le in H as ->. Qed.

Lemma absorb_short f h m : (length m < BLOCK)%nat -> absorb f h m = (h, m).
Proof.
  intros H. destruct f; [done|]. cbn [absorb]. apply Nat.leb_gt in H as ->. done.
Qed.

(** Any fuel of at least the length of the input gives the loop's result. *)
Lemma absorb_fuel f g h m :
  (length m <= f)%nat -> (length m <= g)%nat -> absorb f h m = absorb g h m.
Proof.
  revert g h m; induction f as [|f IH]; intros g h m Hf Hg.
  - rewrite !absorb_short; [done|unfold BLOCK; lia|unfold BLOCK; lia].
  - destruct (Nat.le_gt_cases BLOCK (length m)) as [Hm|Hm]; [|by rewrite !absorb_short].
    destruct g as [|g]; [unfold BLOCK in Hm; lia|].
    rewrite !absorb_step by done. apply IH; rewrite length_drop; unfold BLOCK in *; lia.
Qed.

Lemma absorb_rest_short f h m : (length m <= f)%nat -> (length (snd (absorb f h m)) < BLOCK)%nat.
Proof.
  revert h m; induction f as [|f IH]; intros h m Hf.
  - rewrite absorb_short; cbn; unfold BLOCK; lia.
  - destruct (Nat.le_gt_cases BLOCK (length m)) as [Hm|Hm].
    + rewrite absorb_step by done. apply IH. rewrite length_drop. unfold BLOCK in *. lia.
    + rewrite absorb_short by done. done.
Qed.

Lemma absorb_rest_le f h m : (length (snd (absorb f h m)) <= length m)%nat.
Proof.
  revert h m; induction f as [|f IH]; intros h m; [done|].
  destruct (Nat.le_gt_cases BLOCK (length m)) as [Hm|Hm].
  - rewrite absorb_step by done. etransitivity; [apply IH|]. rewrite length_drop. lia.
  - by rewrite absorb_short.
Qed.

(** Absorbing a concatenation is absorbing its parts in turn. *)
Lemma absorb_app f h m d :
  (length (m ++ d) <= f)%nat ->
  absorb f h (m ++ d) = absorb f (fst (absorb f h m)) (snd (absorb f h m) ++ d).
Proof.
  revert h m; induction f as [|f IH]; intros h m Hf; [done|].
  destruct (Nat.le_gt_cases BLOCK (length m)) as [Hm|Hm].
  - rewrite (absorb_step f h m) by done. rewrite length_app in Hf.
    rewrite absorb_step by (rewrite length_app; lia).
    rewrite take_app_le, drop_app_le by done.
    rewrite IH by (rewrite length_app, length_drop; unfold BLOCK in *; lia).
    apply absorb_fuel; rewrite length_app.
    + pose proof (absorb_rest_short f (compress h (take BLOCK m)) (drop BLOCK m)) as Hr.
      rewrite length_drop in Hr. unfold BLOCK in *. lia.
    + pose proof (absorb_rest_short f (compress h (take BLOCK m)) (drop BLOCK m)) as Hr.
      rewrite length_drop in Hr. unfold BLOCK in *. lia.
  - by rewrite (absorb_short (S f) h m).
Qed.

Definition absorb_all (m : list byte) : list Z * list byte := absorb (length m) IV m.

Lemma absorb_all_app m d :
  absorb_all (m ++ d) =
  let '(h, r) := absorb_all m in absorb (length (r ++ d)) h (r ++ d).
Proof.
  unfold absorb_all. rewrite absorb_app by done.
  rewrite (absorb_fuel (length (m ++ d)) (length m) IV m) by (rewrite ?length_app; lia).
  pose proof (absorb_rest_short (length m) IV m) as Hr.
  destruct (absorb (length m) IV m) as [h r] eqn:E. cbn [fst snd] in *.
  apply absorb_fuel; [|done].
  pose proof (absorb_rest_le (length m) IV m) as Hle. rewrite E in Hle. cbn [snd] in Hle.
  rewrite !length_app. lia.
Qed.

(** ** The hasher's state represents the message it was fed *)

Record repr (s : Sha384) (m : list byte) : Prop := {
  repr_absorbed : absorb_all m = (s.(sh_h), take s.(sh_buf_len) s.(sh_buf));
  repr_buf : length s.(sh_buf) = BLOCK;
  repr_buf_len : (s.(sh_buf_len) < BLOCK)%nat;
}.

Lemma length_copy_at buf at_ data :
  (at_ + length data <= length buf)%nat -> length (copy_at buf at_ data) = length buf.
Proof. intros. unfold copy_at. rewrite !length_app, length_take, length_drop. lia. Qed.

Lemma take_copy_at buf at_ data :
  (at_ <= length buf)%nat -> take (at_ + length data) (copy_at buf at_ data) = take at_ buf ++ data.
Proof.
  intros. unfold copy_at. rewrite app_assoc, take_app_length'; [done|].
  rewrite length_app, length_take. lia.
Qed.

Lemma repr_new : repr Sha384_new [].
Proof. split; cbn; [done|done|unfold BLOCK; lia]. Qed.

(** What [update] does after the partial block was filled. *)
Lemma update_tail h buf bl d total m :
  length buf = BLOCK -> (bl < BLOCK)%nat -> (bl = 0 \/ d = [])%nat ->
  absorb_all m = absorb (length (take bl buf ++ d)) h (take bl buf ++ d) ->
  repr (let '(h, data) := absorb (length d) h d in
        if (length data =? 0)%nat
        then {| sh_h := h; sh_buf := buf; sh_buf_len := bl; sh_total_bytes := total |}
        else {| sh_h := h; sh_buf := copy_at buf 0 data; sh_buf_len := length data;
                sh_total_bytes := total |}) m.
Proof.
  intros Hb Hbl Hor Hm. destruct Hor as [-> | ->].
  - rewrite take_0, app_nil_l in Hm. pose proof (absorb_rest_short (length d) h d ltac:(done)) as Hr.
    destruct (absorb (length d) h d) as [h' r] eqn:E. cbn [snd] in Hr.
    destruct (Nat.eqb_spec (length r) 0) as [Hr0|Hr0].
    + apply nil_length_inv in Hr0 as ->. split; cbn; [|done|done]. by rewrite Hm.
    + split; cbn; [|rewrite length_copy_at; [done|cbn; lia]|done].
      rewrite Hm. pose proof (take_copy_at buf 0 r ltac:(lia)) as T. cbn [Nat.add] in T. by rewrite T.
  - cbn [length absorb Nat.eqb]. rewrite app_nil_r in Hm.
    rewrite absorb_short in Hm by (rewrite length_take; lia). split; cbn; done.
Qed.

Lemma repr_update s m d : repr s m -> repr (Sha384_update s d) (m ++ d).
Proof.
  intros [Ha Hb Hl]. unfold Sha384_update. set (total := wrap128 _).
  pose proof (absorb_all_app m d) as Happ. rewrite Ha in Happ.
  destruct (Nat.ltb_spec 0 (sh_buf_len s)) as [Hpos|Hpos].
  2: { apply update_tail; [done|done|left; lia|done]. }
  set (tk := Nat.min (BLOCK - sh_buf_len s) (length d)).
  assert (Htk : length (take tk d) = tk) by (rewrite length_take; lia).
  assert (Hcl : length (copy_at (sh_buf s) (sh_buf_len s) (take tk d)) = BLOCK).
  { rewrite length_copy_at; [done|]. rewrite Htk. lia. }
  assert (Hct : take (sh_buf_len s + tk) (copy_at (sh_buf s) (sh_buf_len s) (take tk d))
                = take (sh_buf_len s) (sh_buf s) ++ take tk d).
  { rewrite <- Htk at 1. apply take_copy_at. lia. }
  destruct (Nat.eqb_spec (sh_buf_len s + tk) BLOCK) as [Hfull|Hpart].
  - apply update_tail; [done|unfold BLOCK; lia|by left|]. rewrite take_0, app_nil_l, Happ.
    assert (Hsplit : take (sh_buf_len s) (sh_buf s) ++ d =
      copy_at (sh_buf s) (sh_buf_len s) (take tk d) ++ drop tk d).
    { rewrite <- (take_drop tk d) at 1. rewrite app_assoc. f_equal.
      rewrite <- Hct. rewrite take_ge; [done|]. lia. }
    rewrite Hsplit. rewrite length_app, Hcl.
    change (BLOCK + length (drop tk d))%nat with (S (127 + length (drop tk d))).
    rewrite absorb_step by (rewrite length_app; lia).
    rewrite take_app_length', drop_app_length' by lia.
    apply absorb_fuel; lia.
  - assert (Hd : drop tk d = []) by (apply drop_ge; lia).
    apply update_tail; [done|lia|by right|]. rewrite Happ, Hct, Hd, app_nil_r.
    assert (take tk d = d) as -> by (apply take_ge; lia). done.
Qed.

Lemma repr_push s m b : repr s m -> repr (push_padding s b) (m ++ [b]).
Proof. intros H. apply (repr_update _ _ [b]) in H as [H1 H2 H3]. by split. Qed.

(** The buffer's fill is the message length modulo the block size. *)
Lemma repr_length s m : repr s m -> sh_buf_len s = (length m mod BLOCK)%nat.
Proof.
  intros [Ha Hb Hl]. unfold absorb_all in Ha.
  assert (Hgen : forall f h m', (length m' <= f)%nat ->
    length (snd (absorb f h m')) = (length m' mod BLOCK)%nat).
  { clear. induction f as [|f IH]; intros h m Hf.
    - destruct m; cbn in *; [done|lia].
    - destruct (Nat.le_gt_cases BLOCK (length m)) as [Hm|Hm].
      + rewrite absorb_step, IH by (rewrite ?length_drop; unfold BLOCK in *; lia).
        rewrite length_drop. rewrite <- (Nat.sub_add BLOCK (length m)) at 2 by done.
        rewrite <- (Nat.mul_1_l BLOCK) at 4. by rewrite Nat.Div0.mod_add.
      + rewrite absorb_short by done. cbn [snd]. by rewrite Nat.mod_small. }
  specialize (Hgen (length m) IV m ltac:(done)). rewrite Ha in Hgen. cbn [snd] in Hgen.
  rewrite length_take in Hgen. lia.
Qed.

(** The number of padding zeros, and how one of them counts down. *)
Definition zeros_left (len : nat) : nat := Z.to_nat ((112 - Z.of_nat len) mod 128).

Lemma zeros_left_done len : (len mod BLOCK = BLOCK - 16)%nat -> zeros_left len = 0%nat.
Proof.
  unfold zeros_left, BLOCK. intros H. apply (f_equal Z.of_nat) in H. rewrite Nat2Z.inj_mod in H.
  change (Z.of_nat (128 - 16)) with 112 in H. change (Z.of_nat 128) with 128 in H.
  rewrite <- H, Zminus_mod_idemp_l, Z.sub_diag. done.
Qed.

Lemma zeros_left_step len :
  (len mod BLOCK <> BLOCK - 16)%nat -> zeros_left len = S (zeros_left (len + 1)).
Proof.
  unfold zeros_left, BLOCK. intros H.
  assert (Hz : Z.of_nat len mod 128 <> 112).
  { intros Hz. apply H. apply Nat2Z.inj. rewrite Nat2Z.inj_mod. exact Hz. }
  clear H. rewrite Nat2Z.inj_add. change (Z.of_nat 1) with 1. generalize dependent (Z.of_nat len). intros L Hz.
  pose proof (Z.mod_pos_bound (112 - (L + 1)) 128 ltac:(lia)).
  assert (Hr : (112 - L) mod 128 = 1 + (112 - (L + 1)) mod 128);
    [|rewrite Hr, Z.add_comm, Z2Nat.inj_add by lia; lia].
  pose proof (Z.div_mod L 128 ltac:(lia)). pose proof (Z.mod_pos_bound L 128 ltac:(lia)).
  pose proof (Z.div_mod (112 - (L + 1)) 128 ltac:(lia)) as E2.
  symmetry. apply (Z.mod_unique _ _ ((112 - (L + 1)) / 128)); lia.
Qed.

Lemma zeros_left_bound len : (zeros_left len <= BLOCK)%nat.
Proof. unfold zeros_left, BLOCK. pose proof (Z.mod_pos_bound (112 - Z.of_nat len) 128). lia. Qed.

(** The padding loop appends exactly the zeros FIPS 180-4 asks for. *)
Lemma repr_pad_zeros fuel s m :
  repr s m -> (zeros_left (length m) <= fuel)%nat ->
  repr (pad_zeros fuel s) (m ++ repeat x00 (zeros_left (length m))).
Proof.
  revert s m; induction fuel as [|fuel IH]; intros s m Hr Hf.
  - assert (zeros_left (length m) = 0%nat) as -> by lia. cbn. by rewrite app_nil_r.
  - cbn [pad_zeros]. rewrite (repr_length _ _ Hr).
    destruct (Nat.eqb_spec (length m mod BLOCK) (BLOCK - 16)) as [He|He].
    + rewrite zeros_left_done by done. cbn. by rewrite app_nil_r.
    + rewrite zeros_left_step in Hf |- * by done.
      apply (repr_push _ _ x00) in Hr. apply IH in Hr; rewrite length_app in *; cbn [length] in *; [|lia].
      by rewrite <- app_assoc in Hr.
Qed.

(** [finish] on a state that represents [m] is the specification's digest of [m]. *)
Lemma finish_repr s m :
  repr s m -> sh_total_bytes s = wrap128 (Z.of_nat (length m)) -> Sha384_finish s = sha384_spec m.
Proof.
  intros Hr Ht. unfold Sha384_finish. rewrite Ht.
  assert (Hlen : to_be_bytes 16 (wrap128 (wrap128 (Z.of_nat (length m)) * 8)) =
    to_be_bytes 16 (8 * Z.of_nat (length m))).
  { unfold to_be_bytes. f_equal. unfold wrap128. rewrite Zmult_mod_idemp_l, Z.mul_comm.
    rewrite <- (to_from_le_bytes (to_le_bytes 16 (8 * Z.of_nat (length m)))).
    rewrite from_to_le_bytes, length_to_le_bytes. done. }
  rewrite Hlen. apply (repr_push _ _ x80) in Hr.
  apply (repr_pad_zeros BLOCK) in Hr; [|apply zeros_left_bound].
  apply (repr_update _ _ (to_be_bytes 16 (8 * Z.of_nat (length m)))) in Hr.
  destruct Hr as [Ha _ _]. unfold sha384_spec. fold (absorb_all (pad m)).
  assert (Hp : pad m = ((m ++ [x80]) ++ repeat x00 (zeros_left (length (m ++ [x80])))) ++
     to_be_bytes 16 (8 * Z.of_nat (length m))).
  { unfold pad, zeros_left. rewrite <- !app_assoc, length_app. cbn [length].
    replace (112 - Z.of_nat (length m + 1)) with (111 - Z.of_nat (length m)) by lia. done. }
  rewrite <- Hp in Ha. by rewrite Ha.
Qed.

Lemma update_total s d :
  sh_total_bytes (Sha384_update s d) = wrap128 (sh_total_bytes s + Z.of_nat (length d)).
Proof. unfold Sha384_update. repeat (case_match; try done). Qed.

Lemma fold_update_repr parts s m :
  repr s m -> sh_total_bytes s = wrap128 (Z.of_nat (length m)) ->
  let s' := fold_left Sha384_update parts s in
  repr s' (m ++ concat parts) /\ sh_total_bytes s' = wrap128 (Z.of_nat (length (m ++ concat parts))).
Proof.
  revert s m; induction parts as [|p parts IH]; intros s m Hr Ht; cbn.
  - by rewrite app_nil_r.
  - rewrite app_assoc. apply IH; [by apply repr_update|].
    rewrite update_total, Ht, length_app. unfold wrap128.
    rewrite Zplus_mod_idemp_l. f_equal. lia.
Qed.

(** ** The hasher computes SHA-384, however the message is cut *)

(** The streaming hasher is SHA-384. However a message is cut into
    [update] calls, whatever the lengths of the pieces, the digest [finish]
    returns is the one of the specification: FIPS 180-4 padding of the whole
    message, absorbed block by block from the initial value. *)
Theorem Sha384_streaming (parts : list (list byte)) :
  hash_parts parts = sha384_spec (concat parts).
Proof.
  destruct (fold_update_repr parts Sha384_new [] repr_new eq_refl) as [Hr Ht].
  exact (finish_repr _ _ Hr Ht).
Qed.

Lemma digest_sha384_spec data : digest data = sha384_spec data.
Proof.
  pose proof (fold_update_repr [data] Sha384_new [] repr_new eq_refl) as [Hr Ht].
  cbn [concat] in *. rewrite app_nil_r in Hr, Ht. exact (finish_repr _ _ Hr Ht).
Qed.

Lemma length_compress h b : length (compress h b) = 8%nat.
Proof. reflexivity. Qed.

Lemma length_absorb f h m : length h = 8%nat -> length (fst (absorb f h m)) = 8%nat.
Proof.
  revert h m; induction f as [|f IH]; intros h m Hh; [done|].
  cbn [absorb]. destruct (BLOCK <=? length m)%nat; [|done]. by apply IH.
Qed.

Lemma length_sha384_spec m : hash_ok (sha384_spec m).
Proof.
  unfold sha384_spec. pose proof (length_absorb (length (pad m)) IV (pad m) eq_refl) as H.
  destruct (fst (absorb _ _ _)) as [|w0 [|w1 [|w2 [|w3 [|w4 [|w5 ws]]]]]]; try done.
Qed.

#[export] Instance Sha384_DigestLaws : DigestLaws Sha384_Digest.
Proof.
  split.
  - intros parts. rewrite digest_sha384_spec.
    destruct (fold_update_repr parts Sha384_new [] repr_new eq_refl) as [Hr Ht].
    exact (finish_repr _ _ Hr Ht).
  - intros data. rewrite digest_sha384_spec. apply length_sha384_spec.
Qed.

(** ** The published vectors (NIST), evaluated *)

Example nist_empty : Hash_to_hex (digest []) =
  lit "38b060a751ac96384cd9327eb1b1e36a21fdb71114be07434c0cc7bf63f6e1da274edebfe76f65fbd51ad2f14898b95b".
Proof. vm_compute. reflexivity. Qed.

Example nist_abc : Hash_to_hex (digest (lit "abc")) =
  lit "cb00753f45a35e8bb5a03d699ac65007272c32ab0eded1631a8b605a43ff5bed8086072ba1e7cc2358baeca134c825a7".
Proof. vm_compute. reflexivity. Qed.
