(* ===== verification/Merkle.v ===== *)
(** * Merkle trees, RFC 6962 shape ([trailryx-index/src/merkle.rs])

    The tree, its inclusion and consistency proofs, and the two verifiers, over
    any [Digest]. Sizes and indices are [usize] values: the operations on them
    only halve, subtract from a larger value and compare, so no width is lost by
    [nat]. The recursions on slices carry the slice's length as fuel. *)

From S2P Require Import Prelude Bytes Ids Record Digest.

Definition LEAF_PREFIX : byte := x00.
Definition NODE_PREFIX : byte := x01.

Section Merkle.
Context `{D : Digest}.

Definition empty_root : Hash := digest [].

Definition leaf_hash (data : list byte) : Hash := hash_parts [[LEAF_PREFIX]; data].

Definition node_hash (left right : Hash) : Hash := hash_parts [[NODE_PREFIX]; left; right].

(** [split]: the loop [while k << 1 < n { k <<= 1 }] from [k = 1]. *)
Fixpoint split_loop (fuel k n : nat) : nat :=
  match fuel with
  | O => k
  | S f => if (2 * k <? n)%nat then split_loop f (2 * k) n else k
  end.
Definition split (n : nat) : nat := split_loop n 1 n.

(** ** The tree *)

Record MerkleTree := MkTree { leaves : list Hash }.

Definition tree_new : MerkleTree := {| leaves := [] |}.
Definition from_leaf_hashes (l : list Hash) : MerkleTree := {| leaves := l |}.

(** [push_data] and [push_leaf]: the grown tree and the new leaf's index. *)
Definition push_data (t : MerkleTree) (data : list byte) : MerkleTree * nat :=
  ({| leaves := leaves t ++ [leaf_hash data] |}, length (leaves t)).
Definition push_leaf (t : MerkleTree) (leaf : Hash) : MerkleTree * nat :=
  ({| leaves := leaves t ++ [leaf] |}, length (leaves t)).

Definition tree_len (t : MerkleTree) : nat := length (leaves t).
Definition tree_leaf (t : MerkleTree) (i : nat) : option Hash := leaves t !! i.

Fixpoint mth_fuel (fuel : nat) (l : list Hash) : Hash :=
  match fuel with
  | O => empty_root
  | S f =>
      match l with
      | [] => empty_root
      | [x] => x
      | _ =>
          let k := split (length l) in
          node_hash (mth_fuel f (take k l)) (mth_fuel f (drop k l))
      end
  end.
Definition mth (l : list Hash) : Hash := mth_fuel (length l) l.

Definition root (t : MerkleTree) : Hash := mth (leaves t).

Definition root_at (t : MerkleTree) (size : nat) : option Hash :=
  if (length (leaves t) <? size)%nat then None else Some (mth (take size (leaves t))).

(** ** Inclusion proofs *)

Record InclusionProof := MkInclusion { ip_index : nat; ip_size : nat; ip_path : list Hash }.

#[export] Instance InclusionProof_eq_dec : EqDecision InclusionProof.
Proof. solve_decision. Defined.

(** [path]: pushes onto [out] bottom-up. *)
Fixpoint path_fuel (fuel : nat) (l : list Hash) (m : nat) (out : list Hash) : list Hash :=
  match fuel with
  | O => out
  | S f =>
      if (length l <=? 1)%nat then out
      else
        let k := split (length l) in
        if (m <? k)%nat
        then path_fuel f (take k l) m out ++ [mth (drop k l)]
        else path_fuel f (drop k l) (m - k) out ++ [mth (take k l)]
  end.
Definition path (l : list Hash) (m : nat) (out : list Hash) : list Hash :=
  path_fuel (length l) l m out.

Definition inclusion_proof (t : MerkleTree) (index size : nat) : option InclusionProof :=
  if ((size <=? index) || (length (leaves t) <? size))%nat then None
  else Some {| ip_index := index; ip_size := size; ip_path := path (take size (leaves t)) index [] |}.

(** [while fn_ & 1 == 0 && fn_ != 0 { fn_ >>= 1; sn >>= 1 }]; the fuel is [fn_]. *)
Fixpoint strip (fuel fn sn : nat) : nat * nat :=
  match fuel with
  | O => (fn, sn)
  | S f => if negb (is_odd fn) && negb (fn =? 0)%nat then strip f (shr1 fn) (shr1 sn) else (fn, sn)
  end.

(** The loop [while sn > 0] of [recompute], and the check that no sibling is
    left over. Each turn consumes a sibling, so it recurses on the path. The two
    uses of [node_hash] are arguments, so that the strings a run hashes can be
    collected by the same loop ([climb_inputs] below). *)
Fixpoint climb {A} (nl : Hash -> A -> A) (nr : A -> Hash -> A)
    (p : list Hash) (fn sn : nat) (acc : A) : option A :=
  if (sn =? 0)%nat then match p with [] => Some acc | _ :: _ => None end
  else
    match p with
    | [] => None
    | sibling :: p' =>
        if is_odd fn || (fn =? sn)%nat then
          let '(fn', sn') := strip fn fn sn in
          climb nl nr p' (shr1 fn') (shr1 sn') (nl sibling acc)
        else climb nl nr p' (shr1 fn) (shr1 sn) (nr acc sibling)
    end.

Definition recompute (p : InclusionProof) (leaf rt : Hash) : bool :=
  if (p.(ip_size) <=? p.(ip_index))%nat then false
  else
    match climb node_hash node_hash p.(ip_path) p.(ip_index) (p.(ip_size) - 1) leaf with
    | Some acc => digests_equal acc rt
    | None => false
    end.

Definition verify_at (p : InclusionProof) (leaf rt : Hash) (expected_index expected_size : nat) : bool :=
  (p.(ip_index) =? expected_index)%nat && (p.(ip_size) =? expected_size)%nat && recompute p leaf rt.

(** ** Consistency proofs *)

Record ConsistencyProof := MkConsistency { cp_old_size : nat; cp_new_size : nat; cp_nodes : list Hash }.

Fixpoint subproof_fuel (fuel : nat) (l : list Hash) (m : nat) (b : bool) (out : list Hash) : list Hash :=
  match fuel with
  | O => out
  | S f =>
      if (m =? length l)%nat then (if b then out else out ++ [mth l])
      else
        let k := split (length l) in
        if (m <=? k)%nat
        then subproof_fuel f (take k l) m b out ++ [mth (drop k l)]
        else subproof_fuel f (drop k l) (m - k) false out ++ [mth (take k l)]
  end.
Definition subproof (l : list Hash) (m : nat) (b : bool) (out : list Hash) : list Hash :=
  subproof_fuel (S (length l)) l m b out.

Definition consistency_proof (t : MerkleTree) (old_size new_size : nat) : option ConsistencyProof :=
  if ((old_size =? 0) || (new_size <? old_size) || (length (leaves t) <? new_size))%nat then None
  else Some {| cp_old_size := old_size; cp_new_size := new_size;
               cp_nodes := subproof (take new_size (leaves t)) old_size true [] |}.

(** [while node & 1 == 1 { node >>= 1; last >>= 1 }]; the fuel is [node]. *)
Fixpoint climb_out (fuel node last : nat) : nat * nat :=
  match fuel with
  | O => (node, last)
  | S f => if is_odd node then climb_out f (shr1 node) (shr1 last) else (node, last)
  end.

(** [while last > 0] of the consistency check: the right spine above the old tree. *)
Fixpoint spine {A} (nr : A -> Hash -> A) (fuel : nat) (it : list Hash) (last : nat) (sr : A)
    : option (A * list Hash) :=
  match fuel with
  | O => Some (sr, it)
  | S f =>
      if (last =? 0)%nat then Some (sr, it)
      else match it with
           | [] => None
           | s :: it' => spine nr f it' (shr1 last) (nr sr s)
           end
  end.

(** [while node > 0]: both accumulators; the fuel is [node]. *)
Fixpoint climb_both {A} (nl : Hash -> A -> A) (nr : A -> Hash -> A)
    (fuel : nat) (it : list Hash) (node last : nat) (fr sr : A) : option (A * A * nat * list Hash) :=
  match fuel with
  | O => Some (fr, sr, last, it)
  | S f =>
      if (node =? 0)%nat then Some (fr, sr, last, it)
      else if is_odd node then
        match it with
        | [] => None
        | s :: it' => climb_both nl nr f it' (shr1 node) (shr1 last) (nl s fr) (nl s sr)
        end
      else if (node <? last)%nat then
        match it with
        | [] => None
        | s :: it' => climb_both nl nr f it' (shr1 node) (shr1 last) fr (nr sr s)
        end
      else climb_both nl nr f it (shr1 node) (shr1 last) fr sr
  end.

(** The body of the consistency check between the size tests and the final
    comparisons: the two recomputed roots. [inj] makes the first accumulator. *)
Definition consistency_climb {A} (nl : Hash -> A -> A) (nr : A -> Hash -> A) (inj : Hash -> A)
    (nodes : list Hash) (old_size new_size : nat) (old_root : Hash) : option (A * A) :=
  let '(node, last) := climb_out (old_size - 1) (old_size - 1) (new_size - 1) in
  let start :=
    if (0 <? node)%nat then
      match nodes with
      | [] => None
      | first :: it => Some (inj first, inj first, it)
      end
    else Some (inj old_root, inj old_root, nodes) in
  '(fr, sr, it) ← start;
  '(fr, sr, last, it) ← climb_both nl nr node it node last fr sr;
  '(sr, it) ← spine nr last it last sr;
  if (length it =? 0)%nat then Some (fr, sr) else None.

Definition consistency_recompute (p : ConsistencyProof) (old_root new_root : Hash) : bool :=
  if ((p.(cp_old_size) =? 0) || (p.(cp_new_size) <? p.(cp_old_size)))%nat then false
  else if (p.(cp_old_size) =? p.(cp_new_size))%nat then
    (length p.(cp_nodes) =? 0)%nat && digests_equal old_root new_root
  else
    match consistency_climb node_hash node_hash (fun h => h) p.(cp_nodes)
            p.(cp_old_size) p.(cp_new_size) old_root with
    | None => false
    | Some (fr, sr) => digests_equal fr old_root && digests_equal sr new_root
    end.

Definition verify_between (p : ConsistencyProof) (old_root : Hash) (old_size : nat)
    (new_root : Hash) (new_size : nat) : bool :=
  (p.(cp_old_size) =? old_size)%nat && (p.(cp_new_size) =? new_size)%nat
  && consistency_recompute p old_root new_root.

End Merkle.

(** ** The shape of the tree *)

Section Shape.
Context `{D : Digest}.

Lemma split_loop_spec f k n :
  (k < n)%nat -> (n <= k * 2 ^ f)%nat ->
  exists i, split_loop f k n = (k * 2 ^ i)%nat /\ (k * 2 ^ i < n <= 2 * (k * 2 ^ i))%nat.
Proof.
  revert k; induction f as [|f IH]; intros k Hk Hn; cbn [split_loop].
  - cbn in Hn. lia.
  - destruct (Nat.ltb_spec (2 * k) n) as [Hlt|Hge].
    + destruct (IH (2 * k)%nat Hlt) as (i & -> & Hi); [cbn in Hn; nia|].
      exists (S i). cbn [Nat.pow]. nia.
    + exists 0%nat. cbn. lia.
Qed.

(** [split n] is the largest power of two below [n]. *)
Lemma split_spec n :
  (2 <= n)%nat -> exists j, split n = (2 ^ j)%nat /\ (2 ^ j < n <= 2 * 2 ^ j)%nat.
Proof.
  intros Hn. destruct (split_loop_spec n 1 n) as (i & E & Hi); [lia| |].
  - pose proof (Nat.pow_gt_lin_r 2 n). lia.
  - exists i. unfold split. rewrite E, Nat.mul_1_l in *. done.
Qed.

Lemma split_bounds n : (2 <= n)%nat -> (0 < split n < n)%nat.
Proof.
  intros Hn. destruct (split_spec n Hn) as (j & -> & Hj). pose proof (Nat.pow_nonzero 2 j). lia.
Qed.

Lemma mth_fuel_S f l :
  (2 <= length l)%nat ->
  mth_fuel (S f) l =
  node_hash (mth_fuel f (take (split (length l)) l)) (mth_fuel f (drop (split (length l)) l)).
Proof. destruct l as [|x [|y l]]; intros H; [cbn in H; lia|cbn in H; lia|reflexivity]. Qed.

Lemma mth_fuel_enough f g l :
  (length l <= f)%nat -> (length l <= g)%nat -> mth_fuel f l = mth_fuel g l.
Proof.
  revert g l; induction f as [|f IH]; intros g l Hf Hg.
  - destruct l; [|cbn in Hf; lia]. by destruct g.
  - destruct g as [|g]; [destruct l; [done|cbn in Hg; lia]|].
    destruct (Nat.le_gt_cases 2 (length l)) as [Hl|Hl].
    + pose proof (split_bounds (length l) Hl). rewrite !mth_fuel_S by done.
      f_equal; apply IH; rewrite ?length_take, ?length_drop; lia.
    + destruct l as [|x [|y l]]; [done|done|cbn in Hl; lia].
Qed.

Lemma mth_nil : mth [] = empty_root.
Proof. done. Qed.
Lemma mth_one x : mth [x] = x.
Proof. done. Qed.

Lemma mth_node l :
  (2 <= length l)%nat ->
  mth l = node_hash (mth (take (split (length l)) l)) (mth (drop (split (length l)) l)).
Proof.
  intros Hl. pose proof (split_bounds _ Hl). unfold mth at 1.
  destruct (length l) as [|n] eqn:E; [lia|]. rewrite mth_fuel_S, E by lia.
  f_equal; apply mth_fuel_enough; rewrite ?length_take, ?length_drop; lia.
Qed.

(** Induction over the tree: leaves, then a node from its two subtrees. *)
Lemma tree_ind (P : list Hash -> Prop) :
  P [] -> (forall x, P [x]) ->
  (forall l, (2 <= length l)%nat -> P (take (split (length l)) l) -> P (drop (split (length l)) l) -> P l) ->
  forall l, P l.
Proof.
  intros H0 H1 Hn l. remember (length l) as n eqn:E. revert l E.
  induction n as [n IH] using lt_wf_ind. intros l ->.
  destruct l as [|x [|y l]]; [done|done|]. set (l' := x :: y :: l) in *.
  assert (Hl : (2 <= length l')%nat) by (cbn; lia). pose proof (split_bounds _ Hl).
  apply Hn; [done| |]; eapply IH; try reflexivity; rewrite ?length_take, ?length_drop; lia.
Qed.

Lemma path_fuel_enough f g l m out :
  (length l <= f)%nat -> (length l <= g)%nat -> path_fuel f l m out = path_fuel g l m out.
Proof.
  revert g l m; induction f as [|f IH]; intros g l m Hf Hg.
  - destruct l; [|cbn in Hf; lia]. by destruct g.
  - destruct g as [|g]; [destruct l; [done|cbn in Hg; lia]|]. cbn [path_fuel].
    destruct (Nat.leb_spec (length l) 1) as [Hl|Hl]; [done|].
    pose proof (split_bounds (length l)).
    destruct (m <? split (length l))%nat; f_equal; apply IH; rewrite ?length_take, ?length_drop; lia.
Qed.

Lemma path_leaf l m out : (length l <= 1)%nat -> path l m out = out.
Proof.
  intros Hl. unfold path. destruct (length l) eqn:E; [done|]. cbn [path_fuel].
  by rewrite E, (proj2 (Nat.leb_le _ _) Hl).
Qed.

Lemma path_node l m out :
  (2 <= length l)%nat ->
  path l m out =
    let k := split (length l) in
    if (m <? k)%nat then path (take k l) m out ++ [mth (drop k l)]
    else path (drop k l) (m - k) out ++ [mth (take k l)].
Proof.
  intros Hl. pose proof (split_bounds _ Hl). unfold path at 1.
  destruct (length l) as [|n] eqn:E; [lia|]. cbn [path_fuel]. rewrite E.
  destruct (Nat.leb_spec (S n) 1); [lia|].
  cbn zeta. destruct (m <? split (S n))%nat; f_equal; unfold path; apply path_fuel_enough;
    rewrite ?length_take, ?length_drop; lia.
Qed.

End Shape.

(** ** The inclusion verifier's loop is the tree's recursion

    [root_from n m p leaf] recomputes a root by descending the tree of [n]
    leaves to position [m], consuming the path from its end. The loop of
    [recompute], which works bottom-up on the bits of [fn_] and [sn], computes
    the same value on every path. *)

Section Inclusion.
Context {A : Type} (nl : Hash -> A -> A) (nr : A -> Hash -> A).

Fixpoint root_from_fuel (fuel n m : nat) (p : list Hash) (leaf : A) : option A :=
  match fuel with
  | O => None
  | S f =>
      if (n <=? 1)%nat then match p with [] => Some leaf | _ :: _ => None end
      else
        match rev p with
        | [] => None
        | s :: rp =>
            let k := split n in
            if (m <? k)%nat
            then (fun a => nr a s) <$> root_from_fuel f k m (rev rp) leaf
            else (fun a => nl s a) <$> root_from_fuel f (n - k) (m - k) (rev rp) leaf
        end
  end.
Definition root_from (n m : nat) (p : list Hash) (leaf : A) : option A :=
  root_from_fuel n n m p leaf.

Lemma root_from_fuel_enough f g n m p leaf :
  (0 < n)%nat -> (n <= f)%nat -> (n <= g)%nat ->
  root_from_fuel f n m p leaf = root_from_fuel g n m p leaf.
Proof.
  revert g n m p; induction f as [|f IH]; intros g n m p H0 Hf Hg; [lia|].
  destruct g as [|g]; [lia|]. cbn [root_from_fuel].
  destruct (Nat.leb_spec n 1); [done|]. destruct (rev p) as [|s rp]; [done|].
  pose proof (split_bounds n). cbn zeta. destruct (m <? split n)%nat; f_equal; apply IH; lia.
Qed.

Lemma root_from_leaf m leaf p : root_from 1 m p leaf = match p with [] => Some leaf | _ :: _ => None end.
Proof. done. Qed.

Lemma root_from_nil n m leaf : (2 <= n)%nat -> root_from n m [] leaf = None.
Proof.
  intros Hn. unfold root_from. destruct n as [|n]; [lia|]. cbn [root_from_fuel rev].
  by destruct (Nat.leb_spec (S n) 1); [lia|].
Qed.

Lemma root_from_snoc n m p s leaf :
  (2 <= n)%nat ->
  root_from n m (p ++ [s]) leaf =
    let k := split n in
    if (m <? k)%nat then (fun a => nr a s) <$> root_from k m p leaf
    else (fun a => nl s a) <$> root_from (n - k) (m - k) p leaf.
Proof.
  intros Hn. pose proof (split_bounds n Hn). unfold root_from at 1.
  destruct n as [|n]; [lia|]. cbn [root_from_fuel].
  destruct (Nat.leb_spec (S n) 1); [lia|]. rewrite rev_app_distr. cbn [rev app].
  rewrite rev_involutive. cbn zeta.
  destruct (m <? split (S n))%nat; f_equal; apply root_from_fuel_enough; lia.
Qed.

(** *** The stripping loop *)

Lemma shr1_lt n : (0 < n)%nat -> (shr1 n < n)%nat.
Proof. intros. destruct (even_or_odd_form n); lia. Qed.

Lemma strip_fuel f g fn sn :
  (fn <= f)%nat -> (fn <= g)%nat -> strip f fn sn = strip g fn sn.
Proof.
  revert g fn sn; induction f as [|f IH]; intros g fn sn Hf Hg.
  - assert (fn = 0)%nat as -> by lia. by destruct g.
  - destruct g as [|g]; [by assert (fn = 0)%nat as -> by lia|].
    cbn [strip]. destruct (negb (is_odd fn) && negb (fn =? 0)%nat) eqn:E; [|done].
    breflect. pose proof (shr1_lt fn). apply IH; lia.
Qed.

Lemma strip_odd fn sn : is_odd fn = true -> strip fn fn sn = (fn, sn).
Proof. intros H. destruct fn; [done|]. cbn [strip]. by rewrite H. Qed.

Lemma strip_even fn sn :
  (0 < fn)%nat -> is_odd fn = false -> strip fn fn sn = strip (shr1 fn) (shr1 fn) (shr1 sn).
Proof.
  intros H0 H. pose proof (shr1_lt fn H0). destruct fn as [|n]; [lia|]. cbn [strip]. rewrite H.
  cbn [negb andb Nat.eqb]. apply strip_fuel; lia.
Qed.

Lemma shr1_pow_add d g : shr1 (2 ^ S d + 2 * g) = (2 ^ d + g)%nat.
Proof. cbn [Nat.pow]. rewrite <- (shr1_double (2 ^ d + g)). f_equal. lia. Qed.

Lemma shr1_pow_add_odd d g : shr1 (2 ^ S d + S (2 * g)) = (2 ^ d + g)%nat.
Proof. cbn [Nat.pow]. rewrite <- (shr1_double_S (2 ^ d + g)). f_equal. lia. Qed.

Lemma shr1_pow_add_any d f : shr1 (2 ^ S d + f) = (2 ^ d + shr1 f)%nat.
Proof.
  destruct (even_or_odd_form f) as [E|E]; rewrite E at 1; [apply shr1_pow_add|apply shr1_pow_add_odd].
Qed.

Lemma is_odd_pow_add d f : is_odd (2 ^ S d + f) = is_odd f.
Proof.
  destruct (even_or_odd_form f) as [E|E]; rewrite E; cbn [Nat.pow].
  - rewrite is_odd_double.
    replace (2 * 2 ^ d + 2 * shr1 f)%nat with (2 * (2 ^ d + shr1 f))%nat by lia. apply is_odd_double.
  - rewrite is_odd_double_S.
    replace (2 * 2 ^ d + S (2 * shr1 f))%nat with (S (2 * (2 ^ d + shr1 f)))%nat by lia.
    apply is_odd_double_S.
Qed.

(** Stripping a lone high bit leaves one. *)
Lemma strip_pow d : strip (2 ^ d) (2 ^ d) (2 ^ d) = (1, 1)%nat.
Proof.
  induction d as [|d IH]; [done|]. pose proof (Nat.pow_nonzero 2 d).
  rewrite strip_even.
  - pose proof (shr1_pow_add_any d 0) as E. rewrite !Nat.add_0_r in E. by rewrite E.
  - cbn [Nat.pow]. lia.
  - pose proof (is_odd_pow_add d 0) as E. by rewrite Nat.add_0_r in E.
Qed.

(** Stripping with and without the high bit [2 ^ d] takes the same turns. *)
Lemma strip_high d f :
  (0 < f < 2 ^ d)%nat ->
  exists d' f', strip f f f = (f', f') /\ (f' < 2 ^ S d')%nat /\
    strip (2 ^ d + f) (2 ^ d + f) (2 ^ d + f) = (2 ^ S d' + f', 2 ^ S d' + f')%nat.
Proof.
  revert f; induction d as [|d IH]; intros f Hf; [cbn in Hf; lia|].
  destruct (is_odd f) eqn:Ho.
  - exists d, f. rewrite (strip_odd f f Ho). split; [done|]. split; [lia|].
    apply strip_odd. by rewrite is_odd_pow_add.
  - pose proof (is_even_spec f Ho) as E. cbn [Nat.pow] in Hf.
    destruct (IH (shr1 f)) as (d' & f' & H1 & H2 & H3); [lia|].
    exists d', f'. split; [rewrite strip_even by (done || lia); exact H1|]. split; [done|].
    rewrite strip_even, shr1_pow_add_any; [exact H3|cbn [Nat.pow]; lia|by rewrite is_odd_pow_add].
Qed.

Lemma strip_zeros_le fuel f s : (f <= s)%nat -> (fst (strip fuel f s) <= snd (strip fuel f s))%nat.
Proof.
  revert f s; induction fuel as [|fuel IH]; intros f s H; [done|]. cbn [strip].
  destruct (negb (is_odd f) && _); [|done]. apply IH. unfold shr1.
  by apply Nat.div2_le_mono.
Qed.

(** *** Left subtree: the perfect tree below a right sibling *)

Lemma pow2_ones i : (2 ^ S i - 1 = S (2 * (2 ^ i - 1)))%nat.
Proof. pose proof (Nat.pow_nonzero 2 i). cbn [Nat.pow]. lia. Qed.

Lemma climb_left p x i f S_ acc :
  (f < 2 ^ i)%nat -> (2 ^ i <= S_ < 2 * 2 ^ i)%nat ->
  climb nl nr (p ++ [x]) f S_ acc = (fun a => nr a x) <$> climb nl nr p f (2 ^ i - 1) acc.
Proof.
  revert i f S_ acc; induction p as [|y p IH]; intros i f S_ acc Hf HS; cbn [app].
  - destruct i as [|i].
    + cbn in Hf, HS. assert (f = 0 /\ S_ = 1)%nat as [-> ->] by lia. done.
    + rewrite pow2_ones. cbn [climb Nat.eqb].
      destruct (Nat.eqb_spec S_ 0); [lia|].
      assert (Hne : (f =? S_)%nat = false) by (apply Nat.eqb_neq; lia).
      assert (HS1 : (0 < shr1 S_)%nat).
      { cbn [Nat.pow] in HS. pose proof (Nat.pow_nonzero 2 i). destruct (even_or_odd_form S_); lia. }
      rewrite Hne. destruct (is_odd f) eqn:Ho; cbn [orb].
      * rewrite strip_odd by done. cbn [climb]. destruct (Nat.eqb_spec (shr1 S_) 0); [lia|done].
      * cbn [climb]. destruct (Nat.eqb_spec (shr1 S_) 0); [lia|done].
  - destruct i as [|i].
    + cbn in Hf, HS. assert (f = 0 /\ S_ = 1)%nat as [-> ->] by lia. cbn.
      by destruct (p ++ [x]) eqn:E; [destruct p|].
    + rewrite pow2_ones. cbn [climb Nat.eqb]. rewrite shr1_double_S.
      destruct (Nat.eqb_spec S_ 0); [lia|].
      assert (Hne : (f =? S_)%nat = false) by (apply Nat.eqb_neq; lia).
      assert (Hf' : (shr1 f < 2 ^ i)%nat) by (cbn [Nat.pow] in Hf; destruct (even_or_odd_form f); lia).
      assert (HS' : (2 ^ i <= shr1 S_ < 2 * 2 ^ i)%nat)
        by (cbn [Nat.pow] in HS; destruct (even_or_odd_form S_); lia).
      rewrite Hne. destruct (is_odd f) eqn:Ho; cbn [orb].
      * rewrite !strip_odd by done. rewrite shr1_double_S. by apply IH.
      * destruct (Nat.eqb_spec f (S (2 * (2 ^ i - 1)))) as [->|_].
        { rewrite is_odd_double_S in Ho. done. }
        by apply IH.
Qed.

(** *** Right subtree: the same walk with one more high bit *)

Lemma climb_right p x d f s acc :
  (f <= s)%nat -> (s < 2 ^ d)%nat ->
  climb nl nr (p ++ [x]) (2 ^ d + f) (2 ^ d + s) acc = (fun a => nl x a) <$> climb nl nr p f s acc.
Proof.
  revert d f s acc; induction p as [|y p IH]; intros d f s acc Hfs Hs; cbn [app].
  - pose proof (Nat.pow_nonzero 2 d). cbn [climb].
    destruct (Nat.eqb_spec (2 ^ d + s) 0); [lia|].
    destruct (Nat.eqb_spec s 0) as [->|Hs0].
    + assert (f = 0)%nat as -> by lia. rewrite !Nat.add_0_r, Nat.eqb_refl, orb_true_r, strip_pow. done.
    + destruct d as [|d]; [cbn in Hs; lia|].
      destruct (is_odd f) eqn:Ho; cbn [orb].
      * rewrite is_odd_pow_add, Ho. cbn [orb]. rewrite strip_odd by (by rewrite is_odd_pow_add).
        rewrite (shr1_pow_add_any d s). pose proof (Nat.pow_nonzero 2 d). cbn [climb].
        destruct (Nat.eqb_spec (2 ^ d + shr1 s) 0); [lia|done].
      * rewrite is_odd_pow_add, Ho. cbn [orb].
        destruct (Nat.eqb_spec (2 ^ S d + f) (2 ^ S d + s)) as [E|E].
        -- assert (f = s) as -> by lia. destruct (strip_high (S d) s) as (d' & f' & _ & _ & ->); [lia|].
           rewrite shr1_pow_add_any. pose proof (Nat.pow_nonzero 2 d'). cbn [climb].
           destruct (Nat.eqb_spec (2 ^ d' + shr1 f') 0); [lia|done].
        -- rewrite (shr1_pow_add_any d s). pose proof (Nat.pow_nonzero 2 d). cbn [climb].
           destruct (Nat.eqb_spec (2 ^ d + shr1 s) 0); [lia|done].
  - pose proof (Nat.pow_nonzero 2 d). cbn [climb].
    destruct (Nat.eqb_spec (2 ^ d + s) 0); [lia|].
    destruct (Nat.eqb_spec s 0) as [->|Hs0].
    { assert (f = 0)%nat as -> by lia. rewrite !Nat.add_0_r, Nat.eqb_refl, orb_true_r, strip_pow.
      cbn. by destruct (p ++ [x]) eqn:E; [destruct p|]. }
    destruct d as [|d]; [cbn in Hs; lia|].
    assert (Hs' : (shr1 s < 2 ^ d)%nat) by (cbn [Nat.pow] in Hs; destruct (even_or_odd_form s); lia).
    assert (Hfs' : (shr1 f <= shr1 s)%nat) by (by apply Nat.div2_le_mono).
    rewrite is_odd_pow_add. destruct (is_odd f) eqn:Ho; cbn [orb].
    + rewrite !strip_odd by (rewrite ?is_odd_pow_add; done). rewrite !shr1_pow_add_any. by apply IH.
    + destruct (Nat.eqb_spec (2 ^ S d + f) (2 ^ S d + s)) as [E|E].
      * assert (f = s) as -> by lia. rewrite Nat.eqb_refl.
        destruct (strip_high (S d) s) as (d' & f' & -> & Hf' & ->); [lia|].
        rewrite !shr1_pow_add_any. apply IH; [done|].
        cbn [Nat.pow] in Hf'. destruct (even_or_odd_form f'); lia.
      * destruct (Nat.eqb_spec f s); [lia|]. rewrite !shr1_pow_add_any. by apply IH.
Qed.

(** *** The equivalence *)

Lemma climb_root_from n m p leaf :
  (m < n)%nat -> climb nl nr p m (n - 1) leaf = root_from n m p leaf.
Proof.
  revert m p; induction n as [n IH] using lt_wf_ind; intros m p Hm.
  destruct (Nat.le_gt_cases n 1) as [Hn|Hn].
  { assert (n = 1 /\ m = 0)%nat as [-> ->] by lia. by destruct p. }
  destruct (split_spec n Hn) as (j & Ek & Hj). pose proof (Nat.pow_nonzero 2 j).
  destruct p as [|x p _] using rev_ind.
  - rewrite root_from_nil by done. cbn [climb]. by destruct (Nat.eqb_spec (n - 1) 0); [lia|].
  - rewrite root_from_snoc by done. cbn zeta. rewrite Ek.
    destruct (Nat.ltb_spec m (2 ^ j)) as [Hl|Hr].
    + rewrite (climb_left p x j m (n - 1) leaf) by lia. by rewrite IH by lia.
    + replace m with (2 ^ j + (m - 2 ^ j))%nat at 1 by lia.
      replace (n - 1)%nat with (2 ^ j + (n - 2 ^ j - 1))%nat by lia.
      rewrite climb_right by lia. by rewrite IH by lia.
Qed.

End Inclusion.

(** A homomorphism of node functions carries one run to the other. *)
Lemma climb_hom {A B} (h : A -> B) nlA nrA nlB nrB p fn sn acc :
  (forall s a, h (nlA s a) = nlB s (h a)) -> (forall s a, h (nrA a s) = nrB (h a) s) ->
  h <$> climb nlA nrA p fn sn acc = climb nlB nrB p fn sn (h acc).
Proof.
  intros Hl Hr. revert fn sn acc; induction p as [|x p IH]; intros fn sn acc; cbn [climb].
  - by destruct (sn =? 0)%nat.
  - destruct (sn =? 0)%nat; [done|]. destruct (is_odd fn || (fn =? sn)%nat).
    + destruct (strip fn fn sn). by rewrite IH, Hl.
    + by rewrite IH, Hr.
Qed.

(** ** Honest proofs verify *)

Section Honest.
Context `{DL : DigestLaws}.

(** The recursion rebuilds the root from the honest path. *)
Lemma root_from_path l m leaf :
  l !! m = Some leaf -> root_from node_hash node_hash (length l) m (path l m []) leaf = Some (mth l).
Proof.
  revert m; induction l as [|x|l Hl IHa IHb] using tree_ind; intros m Hm.
  - done.
  - rewrite path_leaf by done. destruct m; [|done]. by injection Hm as ->.
  - pose proof (split_bounds _ Hl). pose proof (lookup_lt_Some _ _ _ Hm).
    rewrite path_node by done. cbn zeta.
    destruct (Nat.ltb_spec m (split (length l))) as [Hlt|Hge]; rewrite root_from_snoc by done;
      cbn zeta.
    + apply Nat.ltb_lt in Hlt as Hb. rewrite Hb.
      specialize (IHa m). rewrite length_take_le in IHa by lia.
      rewrite IHa by (by rewrite lookup_take_lt). cbn. by rewrite (mth_node l Hl).
    + apply Nat.ltb_ge in Hge as Hb. rewrite Hb.
      specialize (IHb (m - split (length l))%nat). rewrite length_drop in IHb.
      rewrite IHb by (rewrite lookup_drop; by replace (split (length l) + (m - split (length l)))%nat with m by lia).
      cbn. by rewrite (mth_node l Hl).
Qed.


Lemma node_hash_digest x y : node_hash x y = digest (NODE_PREFIX :: x ++ y).
Proof. unfold node_hash. rewrite finish_parts. cbn. by rewrite app_nil_r. Qed.

Lemma leaf_hash_digest x : leaf_hash x = digest (LEAF_PREFIX :: x).
Proof. unfold leaf_hash. rewrite finish_parts. cbn. by rewrite app_nil_r. Qed.

Lemma node_hash_ok x y : hash_ok (node_hash x y).
Proof. rewrite node_hash_digest. apply digest_ok. Qed.

Lemma leaf_hash_ok x : hash_ok (leaf_hash x).
Proof. rewrite leaf_hash_digest. apply digest_ok. Qed.

Lemma empty_root_ok : hash_ok empty_root.
Proof. apply digest_ok. Qed.

Lemma mth_ok l : Forall hash_ok l -> hash_ok (mth l).
Proof.
  induction l as [|x|l Hl _ _] using tree_ind; intros Hf.
  - apply empty_root_ok.
  - rewrite Forall_singleton in Hf. done.
  - rewrite mth_node by done. apply node_hash_ok.
Qed.

(** The proof the tree produces for a leaf verifies, for every leaf of every size. *)
Lemma inclusion_complete (t : MerkleTree) index size leaf :
  Forall hash_ok (leaves t) -> (size <= length (leaves t))%nat -> (index < size)%nat ->
  leaves t !! index = Some leaf ->
  exists p, inclusion_proof t index size = Some p /\
    forall rt, root_at t size = Some rt -> verify_at p leaf rt index size = true.
Proof.
  intros Hok Hs Hi Hl. unfold inclusion_proof, root_at.
  destruct (Nat.leb_spec size index); [lia|]. destruct (Nat.ltb_spec (length (leaves t)) size); [lia|].
  eexists. split; [done|]. intros rt [= <-].
  unfold verify_at, recompute. cbn [ip_index ip_size ip_path]. rewrite !Nat.eqb_refl. cbn [andb].
  destruct (Nat.leb_spec size index); [lia|]. rewrite climb_root_from by done.
  assert (Hl' : take size (leaves t) !! index = Some leaf) by (by rewrite lookup_take_lt).
  pose proof (root_from_path _ _ _ Hl') as E. rewrite length_take_le in E by done. rewrite E.
  apply digests_equal_refl.
Qed.

(** ** Accepted proofs are about the tree, up to collisions *)

(** The strings hashed when the root of [l] is computed. *)
Definition node_input (x y : Hash) : list byte := NODE_PREFIX :: x ++ y.

Fixpoint mth_inputs_fuel (fuel : nat) (l : list Hash) : list (list byte) :=
  match fuel with
  | O => []
  | S f =>
      if (length l <=? 1)%nat then []
      else
        let k := split (length l) in
        node_input (mth (take k l)) (mth (drop k l))
          :: mth_inputs_fuel f (take k l) ++ mth_inputs_fuel f (drop k l)
  end.
Definition mth_inputs (l : list Hash) : list (list byte) := mth_inputs_fuel (length l) l.

(** The strings hashed by the climb of a verifier, collected along its own run. *)
Definition trace_l (s : Hash) (a : Hash * list (list byte)) : Hash * list (list byte) :=
  (node_hash s (fst a), node_input s (fst a) :: snd a).
Definition trace_r (a : Hash * list (list byte)) (s : Hash) : Hash * list (list byte) :=
  (node_hash (fst a) s, node_input (fst a) s :: snd a).

Definition climb_inputs (p : InclusionProof) (leaf : Hash) : list (list byte) :=
  match climb trace_l trace_r p.(ip_path) p.(ip_index) (p.(ip_size) - 1) (leaf, []) with
  | Some (_, t) => t
  | None => []
  end.

Lemma mth_inputs_fuel_enough f g l :
  (length l <= f)%nat -> (length l <= g)%nat -> mth_inputs_fuel f l = mth_inputs_fuel g l.
Proof.
  revert g l; induction f as [|f IH]; intros g l Hf Hg.
  - destruct l; [|cbn in Hf; lia]. by destruct g.
  - destruct g as [|g]; [destruct l; [done|cbn in Hg; lia]|]. cbn [mth_inputs_fuel].
    destruct (Nat.leb_spec (length l) 1); [done|]. pose proof (split_bounds (length l)).
    cbn zeta. f_equal. f_equal; apply IH; rewrite ?length_take, ?length_drop; lia.
Qed.

Lemma mth_inputs_node l :
  (2 <= length l)%nat ->
  mth_inputs l =
    let k := split (length l) in
    node_input (mth (take k l)) (mth (drop k l)) :: mth_inputs (take k l) ++ mth_inputs (drop k l).
Proof.
  intros Hl. pose proof (split_bounds _ Hl). unfold mth_inputs at 1.
  destruct (length l) as [|n] eqn:E; [lia|]. cbn [mth_inputs_fuel]. rewrite E.
  destruct (Nat.leb_spec (S n) 1); [lia|]. cbn zeta. f_equal.
  f_equal; apply mth_inputs_fuel_enough; rewrite ?length_take, ?length_drop; lia.
Qed.

Lemma collision_free_sub xs ys xs' ys' :
  collision_free xs ys -> xs' ⊆ xs -> ys' ⊆ ys -> collision_free xs' ys'.
Proof.
  unfold collision_free. rewrite !Forall_forall. intros H Hx Hy x Hx'.
  apply Forall_forall. intros y Hy'. specialize (H x (Hx _ Hx')). rewrite Forall_forall in H.
  by apply H, Hy.
Qed.

Lemma collision_free_elem xs ys x y :
  collision_free xs ys -> x ∈ xs -> y ∈ ys -> digest x = digest y -> x = y.
Proof.
  unfold collision_free. rewrite Forall_forall. intros H Hx Hy. specialize (H x Hx).
  rewrite Forall_forall in H. by apply H.
Qed.

Lemma node_hash_cf_inj xs ys a b c d :
  collision_free xs ys -> node_input a b ∈ xs -> node_input c d ∈ ys ->
  hash_ok a -> hash_ok c -> node_hash a b = node_hash c d -> a = c /\ b = d.
Proof.
  intros Hcf Hx Hy Ha Hc E. rewrite !node_hash_digest in E.
  eapply collision_free_elem in E; [|done..]. injection E as E.
  apply app_eq_same_length in E; [done|]. unfold hash_ok in *. congruence.
Qed.

Lemma climb_ok p m n leaf a :
  hash_ok leaf -> climb node_hash node_hash p m n leaf = Some a -> hash_ok a.
Proof.
  revert m n leaf; induction p as [|y p IH]; intros m n leaf Hleaf; cbn [climb];
    (destruct (n =? 0)%nat; [by intros [= <-]|]); [done|].
  destruct (is_odd m || (m =? n)%nat); [destruct (strip m m n)|];
    apply IH; apply node_hash_ok.
Qed.

(** The traced run and the plain one agree. *)
Lemma climb_trace_fst p m n leaf :
  fst <$> climb trace_l trace_r p m n (leaf, []) = climb node_hash node_hash p m n leaf.
Proof. by apply (climb_hom fst). Qed.

Lemma climb_trace p m n leaf a tr :
  climb trace_l trace_r p m n (leaf, []) = Some (a, tr) ->
  climb node_hash node_hash p m n leaf = Some a.
Proof. intros H. rewrite <- climb_trace_fst, H. done. Qed.

Lemma climb_traced p m n leaf a :
  climb node_hash node_hash p m n leaf = Some a ->
  exists tr, climb trace_l trace_r p m n (leaf, []) = Some (a, tr).
Proof.
  rewrite <- climb_trace_fst. destruct (climb _ _ _ _ _ _) as [[b tr]|]; [|done].
  intros [= ->]. eauto.
Qed.

(** A descent that reaches the root of [l] started from [l]'s own leaf. *)
Lemma root_from_sound l m p leaf tr :
  Forall hash_ok l -> Forall hash_ok p -> hash_ok leaf -> (m < length l)%nat ->
  root_from trace_l trace_r (length l) m p (leaf, []) = Some (mth l, tr) ->
  collision_free (mth_inputs l) tr ->
  l !! m = Some leaf.
Proof.
  revert m p tr; induction l as [|x|l Hl IHa IHb] using tree_ind;
    intros m p tr Hol Hop Hleaf Hm H Hcf.
  - cbn in Hm. lia.
  - cbn in Hm. assert (m = 0)%nat as -> by lia. rewrite root_from_leaf in H.
    destruct p; [|done]. injection H as ->. done.
  - destruct p as [|s p _] using rev_ind; [by rewrite root_from_nil in H|].
    pose proof (split_bounds _ Hl) as Hk. rewrite root_from_snoc in H by done. cbn zeta in H.
    rewrite mth_inputs_node in Hcf by done. cbn zeta in Hcf. set (k := split (length l)) in *.
    apply Forall_app in Hop as [Hop Hs]. rewrite Forall_singleton in Hs.
    assert (Hoa : Forall hash_ok (take k l)) by (by apply Forall_take).
    assert (Hob : Forall hash_ok (drop k l)) by (by apply Forall_drop).
    rewrite mth_node in H by done. fold k in H.
    destruct (Nat.ltb_spec m k) as [Hlt|Hge].
    + destruct (root_from _ _ k m p _) as [[a ta]|] eqn:E; [|done].
      cbn in H. injection H as H <-.
      symmetry in H.
      assert (Ha : hash_ok a).
      { eapply climb_ok; [exact Hleaf|]. eapply climb_trace. rewrite climb_root_from; [exact E|lia]. }
      eapply node_hash_cf_inj in H as [H1 H2]; [|exact Hcf|by left|by left|by apply mth_ok|done].
      rewrite <- (lookup_take_lt l k m Hlt).
      apply (IHa m p ta); [done|done|done|rewrite length_take; lia| |].
      * rewrite length_take_le by lia. rewrite E. by rewrite H1.
      * eapply collision_free_sub; [exact Hcf|set_solver|set_solver].
    + destruct (root_from _ _ (length l - k) (m - k) p _) as [[a ta]|] eqn:E; [|done].
      cbn in H. injection H as H <-. symmetry in H.
      eapply node_hash_cf_inj in H as [H1 H2]; [|exact Hcf|by left|by left|by apply mth_ok|done].
      replace m with (k + (m - k))%nat by lia. rewrite <- lookup_drop.
      apply (IHb (m - k)%nat p ta); [done|done|done|rewrite length_drop; lia| |].
      * rewrite length_drop, E. by rewrite H2.
      * eapply collision_free_sub; [exact Hcf|set_solver|set_solver].
Qed.

(** An accepted inclusion proof, at a position and size the caller pinned, is
    about the leaf the tree holds there. *)
Lemma inclusion_sound l p leaf index :
  Forall hash_ok l -> Forall hash_ok (ip_path p) -> hash_ok leaf ->
  collision_free (mth_inputs l) (climb_inputs p leaf) ->
  verify_at p leaf (mth l) index (length l) = true ->
  l !! index = Some leaf.
Proof.
  intros Hol Hop Hleaf Hcf Hv. unfold verify_at, recompute in Hv. breflect.
  destruct (Nat.leb_spec (ip_size p) (ip_index p)) as [|Hlt]; [done|].
  destruct p as [i n pth]; cbn [ip_index ip_size ip_path] in *. subst i n.
  unfold climb_inputs in Hcf. cbn [ip_index ip_size ip_path] in Hcf.
  destruct (climb node_hash node_hash pth index (length l - 1) leaf) as [a|] eqn:Ec; [|done].
  destruct (climb_traced _ _ _ _ _ Ec) as [tr E]. rewrite E in Hcf.
  match goal with Hd : digests_equal _ _ = true |- _ =>
    apply digests_equal_ok in Hd; [subst a|by eapply climb_ok|by apply mth_ok] end.
  rewrite climb_root_from in E by done. by eapply root_from_sound.
Qed.

End Honest.
