(* ===== verification/Consistency.v ===== *)
(** * Consistency proofs: the append-only claim
    ([trailryx-index/src/merkle.rs], [ConsistencyProof])

    The verifier's loops are shown to be a recursion over the new tree, from
    which both directions follow: the tree's own proofs verify, and an accepted
    proof ties the old root to a prefix of the new leaves, up to collisions. *)

From S2P Require Import Prelude Bytes Ids Record Digest Merkle.

Section Loops.
Context {A : Type} (nl : Hash -> A -> A) (nr : A -> Hash -> A).

(** The two loops [while node > 0] and [while last > 0] as one, on [last]. *)
Fixpoint both (fuel : nat) (it : list Hash) (node last : nat) (fr sr : A) : option (A * A) :=
  match fuel with
  | O => if (length it =? 0)%nat then Some (fr, sr) else None
  | S f =>
      if (last =? 0)%nat then (if (length it =? 0)%nat then Some (fr, sr) else None)
      else if is_odd node then
        match it with
        | [] => None
        | s :: it' => both f it' (shr1 node) (shr1 last) (nl s fr) (nl s sr)
        end
      else if (node <? last)%nat then
        match it with
        | [] => None
        | s :: it' => both f it' (shr1 node) (shr1 last) fr (nr sr s)
        end
      else both f it (shr1 node) (shr1 last) fr sr
  end.

Definition two_loops (it : list Hash) (node last : nat) (fr sr : A) : option (A * A) :=
  '(fr, sr, last, it) ← climb_both nl nr node it node last fr sr;
  '(sr, it) ← spine nr last it last sr;
  if (length it =? 0)%nat then Some (fr, sr) else None.

Lemma shr1_le_mono a b : (a <= b)%nat -> (shr1 a <= shr1 b)%nat.
Proof. apply Nat.div2_le_mono. Qed.

Lemma shr1_le n : (shr1 n <= n)%nat.
Proof. destruct (even_or_odd_form n); lia. Qed.

Lemma both_spine f g it last fr sr :
  (last <= f)%nat -> (last <= g)%nat ->
  both f it 0 last fr sr =
  '(sr, it) ← spine nr g it last sr; if (length it =? 0)%nat then Some (fr, sr) else None.
Proof.
  revert g it last sr; induction f as [|f IH]; intros g it last sr Hf Hg.
  - assert (last = 0)%nat as -> by lia. by destruct g.
  - destruct (Nat.eqb_spec last 0) as [->|H0]; [by destruct g|].
    destruct g as [|g]; [lia|]. cbn [both spine]. pose proof (shr1_lt last).
    destruct (Nat.eqb_spec last 0); [done|]. change (is_odd 0) with false. cbn iota.
    destruct (Nat.ltb_spec 0 last); [|lia]. destruct it as [|s it]; [done|].
    change (shr1 0) with 0%nat. apply IH; lia.
Qed.

Lemma both_two_loops f g it node last fr sr :
  (node <= last)%nat -> (last <= f)%nat -> (node <= g)%nat ->
  both f it node last fr sr =
  '(fr, sr, last, it) ← climb_both nl nr g it node last fr sr;
  '(sr, it) ← spine nr last it last sr;
  if (length it =? 0)%nat then Some (fr, sr) else None.
Proof.
  revert f it node last fr sr; induction g as [|g IH]; intros f it node last fr sr Hn Hf Hg.
  - assert (node = 0)%nat as -> by lia. cbn. by apply both_spine.
  - cbn [climb_both]. destruct (Nat.eqb_spec node 0) as [->|Hn0]; [cbn; by apply both_spine|].
    destruct f as [|f]; [lia|]. cbn [both]. destruct (Nat.eqb_spec last 0); [lia|].
    pose proof (shr1_lt node). pose proof (shr1_lt last). pose proof (shr1_le_mono _ _ Hn).
    destruct (is_odd node); [destruct it as [|s it]; [done|]; apply IH; lia|].
    destruct (node <? last)%nat; [destruct it as [|s it]; [done|]; apply IH; lia|].
    apply IH; lia.
Qed.

Lemma both_fuel f it node last fr sr :
  (node <= last)%nat -> (last <= f)%nat -> both f it node last fr sr = two_loops it node last fr sr.
Proof. intros. by apply both_two_loops. Qed.

(** *** Left subtree *)

Lemma both_left i it x node S_ fr sr :
  (node < 2 ^ i)%nat -> (2 ^ i <= S_ < 2 * 2 ^ i)%nat ->
  both S_ (it ++ [x]) node S_ fr sr =
  (fun '(f, r) => (f, nr r x)) <$> both (2 ^ i - 1) it node (2 ^ i - 1) fr sr.
Proof.
  revert it node S_ fr sr; induction i as [|i IH]; intros it node S_ fr sr Hn HS.
  - cbn in Hn, HS. assert (node = 0 /\ S_ = 1)%nat as [-> ->] by lia. cbn.
    destruct it as [|s it]; cbn; [done|]. by destruct it.
  - pose proof (Nat.pow_nonzero 2 i).
    assert (Hn' : (shr1 node < 2 ^ i)%nat) by (cbn [Nat.pow] in Hn; destruct (even_or_odd_form node); lia).
    assert (HS' : (2 ^ i <= shr1 S_ < 2 * 2 ^ i)%nat)
      by (cbn [Nat.pow] in HS; destruct (even_or_odd_form S_); lia).
    rewrite pow2_ones.
    assert (Hs : (node < S (2 * (2 ^ i - 1)) \/ is_odd node = true)%nat).
    { destruct (is_odd node) eqn:E; [by right|left]. apply is_even_spec in E.
      cbn [Nat.pow] in Hn. lia. }
    set (L := S (2 * (2 ^ i - 1))) in *.
    assert (EL : shr1 L = (2 ^ i - 1)%nat) by apply shr1_double_S.
    assert (HL : (2 ^ i - 1 <= 2 * (2 ^ i - 1))%nat) by lia.
    destruct S_ as [|s_]; [cbn [Nat.pow] in HS; lia|]. pose proof (shr1_lt (S s_)).
    assert (IH' : forall it fr sr, both s_ (it ++ [x]) (shr1 node) (shr1 (S s_)) fr sr =
      (fun '(f, r) => (f, nr r x)) <$> both (2 * (2 ^ i - 1)) it (shr1 node) (2 ^ i - 1) fr sr).
    { intros. rewrite !both_fuel by lia. rewrite <- (both_fuel (shr1 (S s_))) by lia.
      rewrite <- (both_fuel (2 ^ i - 1)) by lia. by apply IH. }
    unfold L at 1. cbn [both]. fold L. rewrite EL.
    change (S s_ =? 0)%nat with false. change (L =? 0)%nat with false. cbn iota.
    destruct (is_odd node) eqn:Ho.
    + destruct it as [|s it]; cbn [app].
      * assert (Hz : both s_ [] (shr1 node) (shr1 (S s_)) (nl x fr) (nl x sr) = None); [|by rewrite Hz].
        destruct s_ as [|s']; [cbn [Nat.pow] in HS; lia|]. cbn [both].
        destruct (Nat.eqb_spec (shr1 (S (S s'))) 0); [lia|].
        destruct (is_odd (shr1 node)); [done|].
        destruct (Nat.ltb_spec (shr1 node) (shr1 (S (S s')))); [done|lia].
      * apply IH'.
    + destruct Hs as [Hs|]; [|done].
      destruct (Nat.ltb_spec node (S s_)); [|cbn [Nat.pow] in *; lia].
      destruct (Nat.ltb_spec node L); [|lia].
      destruct it as [|s it]; cbn [app].
      * assert (Hz : both s_ [] (shr1 node) (shr1 (S s_)) fr (nr sr x) = None); [|by rewrite Hz].
        destruct s_ as [|s']; [cbn [Nat.pow] in HS; lia|]. cbn [both].
        destruct (Nat.eqb_spec (shr1 (S (S s'))) 0); [lia|].
        destruct (is_odd (shr1 node)); [done|].
        destruct (Nat.ltb_spec (shr1 node) (shr1 (S (S s')))); [done|lia].
      * apply IH'.
Qed.

(** *** Right subtree *)

(** The high bit always costs a sibling. *)
Lemma both_right_nil d node last f fr sr :
  (node <= last)%nat -> (last < 2 ^ d)%nat -> (2 ^ d + last <= f)%nat ->
  both f [] (2 ^ d + node) (2 ^ d + last) fr sr = None.
Proof.
  revert node last f fr sr; induction d as [|d IH]; intros node last f fr sr Hn Hl Hf.
  - destruct f as [|f]; [cbn in Hf; lia|]. cbn in Hl. assert (node = 0 /\ last = 0)%nat as [-> ->] by lia. done.
  - pose proof (Nat.pow_nonzero 2 d). destruct f as [|f]; [cbn [Nat.pow] in Hf; lia|].
    assert (Hl' : (shr1 last < 2 ^ d)%nat)
      by (cbn [Nat.pow] in Hl; destruct (even_or_odd_form last); lia).
    pose proof (shr1_le_mono _ _ Hn). pose proof (shr1_le last).
    cbn [both]. destruct (Nat.eqb_spec (2 ^ S d + last) 0); [cbn [Nat.pow] in *; lia|].
    destruct (is_odd _); [done|]. destruct (_ <? _)%nat; [done|].
    rewrite !shr1_pow_add_any. apply IH; [done|done|]. cbn [Nat.pow] in Hf. lia.
Qed.

Lemma both_right d it x node last fr sr :
  (node <= last)%nat -> (last < 2 ^ d)%nat ->
  both (2 ^ d + last) (it ++ [x]) (2 ^ d + node) (2 ^ d + last) fr sr =
  (fun '(f, r) => (nl x f, nl x r)) <$> both last it node last fr sr.
Proof.
  revert it node last fr sr; induction d as [|d IH]; intros it node last fr sr Hn Hl.
  - cbn in Hl. assert (node = 0 /\ last = 0)%nat as [-> ->] by lia. cbn.
    destruct it as [|s it]; cbn; [done|]. by destruct it.
  - pose proof (Nat.pow_nonzero 2 d).
    assert (Hl' : (shr1 last < 2 ^ d)%nat)
      by (cbn [Nat.pow] in Hl; destruct (even_or_odd_form last); lia).
    pose proof (shr1_le_mono _ _ Hn) as Hn'. pose proof (shr1_le last).
    set (F := pred (2 ^ S d + last)). assert (HF : (2 ^ d + shr1 last <= F)%nat)
      by (unfold F; cbn [Nat.pow]; lia).
    assert (E2 : (2 ^ S d + last = S F)%nat) by (unfold F; cbn [Nat.pow]; lia).
    assert (Hlt : ((2 ^ S d + node <? 2 ^ S d + last) = (node <? last))%nat).
    { destruct (Nat.ltb_spec node last); [apply Nat.ltb_lt|apply Nat.ltb_ge]; lia. }
    assert (IH' : forall it fr sr,
      both F (it ++ [x]) (2 ^ d + shr1 node) (2 ^ d + shr1 last) fr sr =
      (fun '(f, r) => (nl x f, nl x r)) <$> two_loops it (shr1 node) (shr1 last) fr sr).
    { intros. rewrite both_fuel by lia.
      rewrite <- (both_fuel (2 ^ d + shr1 last)) by lia. rewrite IH by lia. by rewrite both_fuel. }
    assert (Hnil : forall fr sr, both F [] (2 ^ d + shr1 node) (2 ^ d + shr1 last) fr sr = None)
      by (intros; by apply both_right_nil).
    rewrite E2 at 1. cbn [both].
    destruct (Nat.eqb_spec (2 ^ S d + last) 0); [lia|].
    rewrite is_odd_pow_add, !shr1_pow_add_any, Hlt.
    destruct last as [|l'].
    + assert (node = 0)%nat as -> by lia. apply IH'.
    + pose proof (shr1_lt (S l')). cbn [both]. change (S l' =? 0)%nat with false. cbn iota.
      rewrite !(both_fuel l') by lia.
      destruct (is_odd node); [|destruct (node <? S l')%nat].
      * destruct it as [|s it]; cbn [app]; [apply Hnil|]. rewrite (both_fuel l') by lia. apply IH'.
      * destruct it as [|s it]; cbn [app]; [apply Hnil|]. rewrite (both_fuel l') by lia. apply IH'.
      * apply IH'.
Qed.

(** ** The recursion over the new tree

    [b] says whether the old root is known ([true]) or the first node of the
    list stands for it; as in [subproof]. *)

Context (inj : Hash -> A).

Fixpoint cons_from_fuel (fuel n m : nat) (b : bool) (p : list Hash) (old : Hash) : option (A * A) :=
  match fuel with
  | O => None
  | S f =>
      if (m =? n)%nat then
        if b then match p with [] => Some (inj old, inj old) | _ :: _ => None end
        else match p with [x] => Some (inj x, inj x) | _ => None end
      else
        match rev p with
        | [] => None
        | s :: rp =>
            let k := split n in
            if (m <=? k)%nat
            then (fun '(f, r) => (f, nr r s)) <$> cons_from_fuel f k m b (rev rp) old
            else (fun '(f, r) => (nl s f, nl s r)) <$> cons_from_fuel f (n - k) (m - k) false (rev rp) old
        end
  end.
Definition cons_from (n m : nat) (b : bool) (p : list Hash) (old : Hash) : option (A * A) :=
  cons_from_fuel n n m b p old.

Lemma cons_from_fuel_enough f g n m b p old :
  (0 < m <= n)%nat -> (n <= f)%nat -> (n <= g)%nat ->
  cons_from_fuel f n m b p old = cons_from_fuel g n m b p old.
Proof.
  revert g n m b p; induction f as [|f IH]; intros g n m b p Hm Hf Hg; [lia|].
  destruct g as [|g]; [lia|]. cbn [cons_from_fuel].
  destruct (Nat.eqb_spec m n); [done|]. destruct (rev p) as [|s rp]; [done|].
  pose proof (split_bounds n). cbn zeta. destruct (Nat.leb_spec m (split n)); f_equal; apply IH; lia.
Qed.

Lemma cons_from_same n b p old :
  (0 < n)%nat ->
  cons_from n n b p old =
    if b then match p with [] => Some (inj old, inj old) | _ :: _ => None end
    else match p with [x] => Some (inj x, inj x) | _ => None end.
Proof.
  intros Hn. unfold cons_from. destruct n as [|n]; [lia|]. cbn [cons_from_fuel].
  by rewrite Nat.eqb_refl.
Qed.

Lemma cons_from_nil n m b old : (0 < m < n)%nat -> cons_from n m b [] old = None.
Proof.
  intros Hn. unfold cons_from. destruct n as [|n]; [lia|]. cbn [cons_from_fuel rev].
  destruct (Nat.eqb_spec m (S n)); [lia|done].
Qed.

Lemma cons_from_snoc n m b p s old :
  (0 < m < n)%nat ->
  cons_from n m b (p ++ [s]) old =
    let k := split n in
    if (m <=? k)%nat then (fun '(f, r) => (f, nr r s)) <$> cons_from k m b p old
    else (fun '(f, r) => (nl s f, nl s r)) <$> cons_from (n - k) (m - k) false p old.
Proof.
  intros Hn. pose proof (split_bounds n ltac:(lia)). unfold cons_from at 1.
  destruct n as [|n]; [lia|]. cbn [cons_from_fuel]. destruct (Nat.eqb_spec m (S n)); [lia|].
  rewrite rev_app_distr. cbn [rev app]. rewrite rev_involutive. cbn zeta.
  destruct (Nat.leb_spec m (split (S n))); f_equal; apply cons_from_fuel_enough; lia.
Qed.

(** The verifier's run with that flag; [consistency_climb] is [b = true]. *)
Definition cons_run (b : bool) (n m : nat) (nodes : list Hash) (old : Hash) : option (A * A) :=
  let '(node, last) := climb_out (m - 1) (m - 1) (n - 1) in
  if (0 <? node)%nat || negb b then
    match nodes with
    | [] => None
    | first :: it => two_loops it node last (inj first) (inj first)
    end
  else two_loops nodes node last (inj old) (inj old).

Lemma consistency_climb_run nodes n m old :
  consistency_climb nl nr inj nodes m n old = cons_run true n m nodes old.
Proof.
  unfold consistency_climb, cons_run, two_loops.
  destruct (climb_out (m - 1) (m - 1) (n - 1)) as [node last]. rewrite orb_false_r.
  destruct (0 <? node)%nat; [|done]. by destruct nodes.
Qed.
(** *** Climbing out of the right spine *)

Lemma climb_out_fuel f g node last :
  (node <= f)%nat -> (node <= g)%nat -> climb_out f node last = climb_out g node last.
Proof.
  revert g node last; induction f as [|f IH]; intros g node last Hf Hg.
  - assert (node = 0)%nat as -> by lia. by destruct g.
  - destruct g as [|g]; [by assert (node = 0)%nat as -> by lia|]. cbn [climb_out].
    destruct (is_odd node) eqn:Ho; [|done]. apply is_odd_spec in Ho. apply IH; lia.
Qed.

Lemma climb_out_odd node last :
  is_odd node = true ->
  climb_out node node last = climb_out (shr1 node) (shr1 node) (shr1 last).
Proof.
  intros Ho. pose proof (is_odd_spec _ Ho). destruct node as [|n]; [done|].
  cbn [climb_out]. rewrite Ho. apply climb_out_fuel; lia.
Qed.

Lemma climb_out_even node last : is_odd node = false -> climb_out node node last = (node, last).
Proof. intros Ho. destruct node; [done|]. cbn [climb_out]. by rewrite Ho. Qed.

Lemma shr1_odd_lt a b : is_odd a = true -> (a < b)%nat -> (shr1 a < shr1 b)%nat.
Proof. intros Ho Hab. apply is_odd_spec in Ho. destruct (even_or_odd_form b); lia. Qed.

Lemma climb_out_lt node last :
  (node < last)%nat -> (fst (climb_out node node last) < snd (climb_out node node last))%nat.
Proof.
  revert last; induction node as [node IH] using lt_wf_ind; intros last H.
  destruct (is_odd node) eqn:Ho; [|by rewrite climb_out_even].
  rewrite climb_out_odd by done. pose proof (is_odd_spec _ Ho).
  apply IH; [lia|]. by apply shr1_odd_lt.
Qed.

Lemma climb_out_left i node S_ :
  (node < 2 ^ i)%nat -> (2 ^ i <= S_ < 2 * 2 ^ i)%nat ->
  exists i' node' S', climb_out node node S_ = (node', S') /\
    climb_out node node (2 ^ i - 1) = (node', 2 ^ i' - 1)%nat /\
    (node' < 2 ^ i')%nat /\ (2 ^ i' <= S' < 2 * 2 ^ i')%nat.
Proof.
  revert node S_; induction i as [|i IH]; intros node S_ Hn HS.
  - exists 0%nat, 0%nat, S_. cbn in Hn. assert (node = 0)%nat as -> by lia. done.
  - destruct (is_odd node) eqn:Ho.
    + rewrite (climb_out_odd node S_), (climb_out_odd node (2 ^ S i - 1)) by done.
      assert (E : shr1 (2 ^ S i - 1) = (2 ^ i - 1)%nat) by (rewrite pow2_ones; apply shr1_double_S).
      rewrite E. cbn [Nat.pow] in Hn, HS.
      apply IH; [destruct (even_or_odd_form node); lia|destruct (even_or_odd_form S_); lia].
    + exists (S i), node, S_. by rewrite !climb_out_even.
Qed.

Lemma climb_out_right d node last :
  (node < last)%nat -> (last < 2 ^ d)%nat ->
  exists d' node' last', climb_out node node last = (node', last') /\
    climb_out (2 ^ d + node) (2 ^ d + node) (2 ^ d + last) = (2 ^ d' + node', 2 ^ d' + last')%nat /\
    (node' <= last')%nat /\ (last' < 2 ^ d')%nat.
Proof.
  revert node last; induction d as [|d IH]; intros node last Hn Hl; [cbn in Hl; lia|].
  destruct (is_odd node) eqn:Ho.
  - rewrite (climb_out_odd node), (climb_out_odd (2 ^ S d + node)) by (rewrite ?is_odd_pow_add; done).
    rewrite (shr1_pow_add_any d node), (shr1_pow_add_any d last).
    apply IH; [by apply shr1_odd_lt|].
    cbn [Nat.pow] in Hl. destruct (even_or_odd_form last); lia.
  - exists (S d), node, last. rewrite !climb_out_even by (rewrite ?is_odd_pow_add; done).
    split; [done|]. split; [done|]. lia.
Qed.

Lemma climb_out_ones i : climb_out (2 ^ i - 1) (2 ^ i - 1) (2 ^ i - 1) = (0, 0)%nat.
Proof.
  induction i as [|i IH]; [done|]. rewrite pow2_ones, climb_out_odd, shr1_double_S; [done|].
  apply is_odd_double_S.
Qed.

(** *** The run descends the tree *)

Lemma both_lt_nil f node last fr sr :
  (node < last)%nat -> (last <= f)%nat -> both f [] node last fr sr = None.
Proof.
  intros Hn Hf. destruct f as [|f]; [lia|]. cbn [both]. destruct (Nat.eqb_spec last 0); [lia|].
  destruct (is_odd node); [done|]. destruct (Nat.ltb_spec node last); [done|lia].
Qed.

Lemma two_loops_lt_nil node last fr sr : (node < last)%nat -> two_loops [] node last fr sr = None.
Proof. intros. rewrite <- (both_fuel last) by lia. by apply both_lt_nil. Qed.

Lemma two_loops_left i it x node S_ fr sr :
  (node < 2 ^ i)%nat -> (2 ^ i <= S_ < 2 * 2 ^ i)%nat ->
  two_loops (it ++ [x]) node S_ fr sr =
  (fun '(f, r) => (f, nr r x)) <$> two_loops it node (2 ^ i - 1) fr sr.
Proof.
  intros. rewrite <- (both_fuel S_), <- (both_fuel (2 ^ i - 1)) by lia. by apply both_left.
Qed.

Lemma two_loops_right d it x node last fr sr :
  (node <= last)%nat -> (last < 2 ^ d)%nat ->
  two_loops (it ++ [x]) (2 ^ d + node) (2 ^ d + last) fr sr =
  (fun '(f, r) => (nl x f, nl x r)) <$> two_loops it node last fr sr.
Proof.
  intros. rewrite <- (both_fuel (2 ^ d + last)), <- (both_fuel last) by lia. by apply both_right.
Qed.

Lemma cons_run_left b n m j p x old :
  (0 < m <= 2 ^ j)%nat -> (2 ^ j < n <= 2 * 2 ^ j)%nat ->
  cons_run b n m (p ++ [x]) old = (fun '(f, r) => (f, nr r x)) <$> cons_run b (2 ^ j) m p old.
Proof.
  intros Hm Hn. unfold cons_run.
  destruct (climb_out_left j (m - 1) (n - 1)) as (i & node & S_ & -> & -> & Hno & HS); [lia..|].
  destruct ((0 <? node)%nat || negb b).
  - destruct p as [|y p]; cbn [app].
    + rewrite two_loops_lt_nil by lia. done.
    + by apply two_loops_left.
  - by apply two_loops_left.
Qed.

Lemma cons_run_right b n m j p x old :
  (2 ^ j < m < n)%nat -> (n <= 2 * 2 ^ j)%nat ->
  cons_run b n m (p ++ [x]) old =
  (fun '(f, r) => (nl x f, nl x r)) <$> cons_run false (n - 2 ^ j) (m - 2 ^ j) p old.
Proof.
  intros Hm Hn. unfold cons_run.
  destruct (climb_out_right j (m - 2 ^ j - 1) (n - 2 ^ j - 1))
    as (d & node & last & E1 & E2 & Hle & Hlt); [lia..|].
  replace (2 ^ j + (m - 2 ^ j - 1))%nat with (m - 1)%nat in E2 by lia.
  replace (2 ^ j + (n - 2 ^ j - 1))%nat with (n - 1)%nat in E2 by lia.
  rewrite E1, E2. pose proof (Nat.pow_nonzero 2 d).
  destruct (Nat.ltb_spec 0 (2 ^ d + node)); [|lia]. rewrite orb_true_r. cbn [orb].
  destruct p as [|y p]; cbn [app].
  - rewrite <- (both_fuel (2 ^ d + last)) by lia. by rewrite both_right_nil.
  - by apply two_loops_right.
Qed.

Lemma cons_run_from b n m p old :
  (0 < m < n)%nat \/ (exists i, m = 2 ^ i /\ n = 2 ^ i)%nat ->
  cons_run b n m p old = cons_from n m b p old.
Proof.
  revert b m p; induction n as [n IH] using lt_wf_ind; intros b m p H.
  destruct H as [H|(i & -> & ->)].
  - destruct p as [|x p _] using rev_ind.
    + rewrite cons_from_nil by done. unfold cons_run.
      pose proof (climb_out_lt (m - 1) (n - 1) ltac:(lia)) as Hlt.
      destruct (climb_out (m - 1) (m - 1) (n - 1)) as [node last]. cbn [fst snd] in Hlt.
      destruct (_ || _); [done|]. by apply two_loops_lt_nil.
    + rewrite cons_from_snoc by done. destruct (split_spec n) as (j & -> & Hj); [lia|]. cbn zeta.
      destruct (Nat.leb_spec m (2 ^ j)) as [Hle|Hgt].
      * rewrite (cons_run_left b n m j) by lia. f_equal. apply IH; [lia|].
        destruct (Nat.eq_dec m (2 ^ j)) as [->|]; [right; by exists j|left; lia].
      * rewrite (cons_run_right b n m j) by lia. f_equal. apply IH; [lia|]. left. lia.
  - pose proof (Nat.pow_nonzero 2 i). rewrite cons_from_same by lia. unfold cons_run.
    rewrite climb_out_ones. cbn [Nat.ltb Nat.leb orb].
    destruct b; cbn [negb].
    + by destruct p.
    + destruct p as [|y p]; [done|]. by destruct p.
Qed.

End Loops.

(** ** Honest proofs, and what an accepted proof shows *)

Section Sound.
Context `{DL : DigestLaws}.

Lemma split_unique n j : (2 ^ j < n <= 2 * 2 ^ j)%nat -> split n = (2 ^ j)%nat.
Proof.
  intros Hj. pose proof (Nat.pow_nonzero 2 j).
  destruct (split_spec n) as (i & -> & Hi); [lia|]. f_equal.
  destruct (Nat.lt_trichotomy i j) as [Hlt|[->|Hlt]]; [|done|]; exfalso.
  - pose proof (Nat.pow_le_mono_r 2 (S i) j ltac:(lia) ltac:(lia)). cbn [Nat.pow] in *. lia.
  - pose proof (Nat.pow_le_mono_r 2 (S j) i ltac:(lia) ltac:(lia)). cbn [Nat.pow] in *. lia.
Qed.

(** A prefix longer than the left subtree splits where the whole tree splits. *)
Lemma mth_prefix l m :
  (split (length l) < m <= length l)%nat -> (2 <= length l)%nat ->
  mth (take m l) =
  node_hash (mth (take (split (length l)) l))
            (mth (take (m - split (length l)) (drop (split (length l)) l))).
Proof.
  intros Hm Hl. destruct (split_spec _ Hl) as (j & E & Hj). rewrite E in *.
  pose proof (Nat.pow_nonzero 2 j).
  rewrite mth_node by (rewrite length_take; lia). rewrite length_take_le by lia.
  rewrite (split_unique m j) by lia. f_equal; f_equal.
  - rewrite take_take. f_equal. lia.
  - rewrite take_drop_commute. do 2 f_equal. lia.
Qed.

Lemma subproof_fuel_enough f g l m b out :
  (0 < m <= length l)%nat -> (length l < f)%nat -> (length l < g)%nat ->
  subproof_fuel f l m b out = subproof_fuel g l m b out.
Proof.
  revert g l m b; induction f as [|f IH]; intros g l m b Hm Hf Hg; [lia|].
  destruct g as [|g]; [lia|]. cbn [subproof_fuel]. destruct (Nat.eqb_spec m (length l)); [done|].
  pose proof (split_bounds (length l) ltac:(lia)). cbn zeta.
  destruct (Nat.leb_spec m (split (length l))); f_equal;
    apply IH; rewrite ?length_take, ?length_drop; lia.
Qed.

Lemma subproof_node l m b out :
  (0 < m < length l)%nat ->
  subproof l m b out =
    let k := split (length l) in
    if (m <=? k)%nat then subproof (take k l) m b out ++ [mth (drop k l)]
    else subproof (drop k l) (m - k) false out ++ [mth (take k l)].
Proof.
  intros Hm. pose proof (split_bounds (length l) ltac:(lia)). unfold subproof at 1.
  cbn [subproof_fuel]. destruct (Nat.eqb_spec m (length l)); [lia|]. cbn zeta.
  destruct (Nat.leb_spec m (split (length l))); f_equal; unfold subproof;
    apply subproof_fuel_enough; rewrite ?length_take, ?length_drop; lia.
Qed.

Lemma subproof_same l b out : subproof l (length l) b out = if b then out else out ++ [mth l].
Proof. unfold subproof. cbn [subproof_fuel]. by rewrite Nat.eqb_refl. Qed.

Lemma cons_from_subproof l m (b : bool) old :
  (0 < m <= length l)%nat -> (b = true -> old = mth (take m l)) ->
  cons_from node_hash node_hash (fun h => h) (length l) m b (subproof l m b []) old =
  Some (mth (take m l), mth l).
Proof.
  revert m b; induction l as [|x|l Hl IHa IHb] using tree_ind; intros m b Hm Hold.
  - cbn in Hm. lia.
  - cbn in Hm. assert (m = 1)%nat as -> by lia.
    pose proof (subproof_same [x] b []) as Es. cbn [length] in *.
    rewrite Es, cons_from_same by lia.
    destruct b; [by rewrite Hold|done].
  - destruct (Nat.eq_dec m (length l)) as [->|Hne].
    { rewrite subproof_same, cons_from_same, firstn_all by lia.
      destruct b; [by rewrite Hold, firstn_all|done]. }
    pose proof (split_bounds _ Hl) as Hk. rewrite subproof_node by lia. cbn zeta.
    set (k := split (length l)) in *.
    destruct (Nat.leb_spec m k) as [Hle|Hgt]; rewrite cons_from_snoc by lia; cbn zeta; fold k.
    + apply Nat.leb_le in Hle as Hb. rewrite Hb.
      specialize (IHa m b). rewrite length_take_le, take_take in IHa by lia.
      replace (m `min` k)%nat with m in IHa by lia. rewrite IHa by (done || lia). cbn.
      by rewrite (mth_node l Hl).
    + apply Nat.leb_gt in Hgt as Hb. rewrite Hb.
      specialize (IHb (m - k)%nat false). rewrite length_drop in IHb.
      rewrite IHb by (done || lia). cbn. rewrite (mth_node l Hl), (mth_prefix l m) by (fold k; lia).
      done.
Qed.

(** The tree's own proof between any two of its sizes verifies. *)
Lemma consistency_complete (t : MerkleTree) m n :
  (0 < m <= n)%nat -> (n <= length (leaves t))%nat ->
  exists p, consistency_proof t m n = Some p /\
    forall rm rn, root_at t m = Some rm -> root_at t n = Some rn ->
      verify_between p rm m rn n = true.
Proof.
  intros Hm Hn. unfold consistency_proof, root_at.
  destruct (Nat.eqb_spec m 0); [lia|]. destruct (Nat.ltb_spec n m); [lia|].
  destruct (Nat.ltb_spec (length (leaves t)) n); [lia|].
  destruct (Nat.ltb_spec (length (leaves t)) m); [lia|]. cbn [orb].
  eexists. split; [done|]. intros rm rn [= <-] [= <-].
  unfold verify_between, consistency_recompute. cbn [cp_old_size cp_new_size cp_nodes].
  rewrite !Nat.eqb_refl. cbn [andb]. destruct (Nat.eqb_spec m 0); [lia|].
  destruct (Nat.ltb_spec n m); [lia|]. cbn [orb].
  assert (Hlen : length (take n (leaves t)) = n) by (rewrite length_take; lia).
  destruct (Nat.eqb_spec m n) as [->|Hne].
  - pose proof (subproof_same (take n (leaves t)) true []) as Es. rewrite Hlen in Es. rewrite Es.
    by rewrite digests_equal_refl.
  - pose proof (cons_from_subproof (take n (leaves t)) m true (mth (take m (take n (leaves t)))))
      as E. rewrite Hlen, take_take in E. replace (m `min` n)%nat with m in E by lia.
    rewrite consistency_climb_run, cons_run_from by (left; lia).
    rewrite E by (done || lia). by rewrite !digests_equal_refl.
Qed.

(** The strings a consistency check hashes for the new root. *)
Definition consistency_inputs (p : ConsistencyProof) (old_root : Hash) : list (list byte) :=
  match consistency_climb trace_l trace_r (fun h => (h, [])) p.(cp_nodes)
          p.(cp_old_size) p.(cp_new_size) old_root with
  | Some (_, (_, t)) => t
  | None => []
  end.

Lemma cons_from_hom {A B} (h : A -> B) nlA nrA injA nlB nrB injB n m b p old :
  (forall s a, h (nlA s a) = nlB s (h a)) -> (forall s a, h (nrA a s) = nrB (h a) s) ->
  (forall s, h (injA s) = injB s) ->
  (fun '(x, y) => (h x, h y)) <$> cons_from nlA nrA injA n m b p old =
  cons_from nlB nrB injB n m b p old.
Proof.
  intros Hl Hr Hi. unfold cons_from. generalize n at 1 3. intros f.
  revert n m b p; induction f as [|f IH]; intros n m b p; [done|]. cbn [cons_from_fuel].
  destruct (m =? n)%nat.
  - destruct b; [destruct p|destruct p as [|? []]]; cbn; by rewrite ?Hi.
  - destruct (rev p) as [|s rp]; [done|]. cbn zeta. destruct (m <=? split n)%nat; rewrite <- IH;
      destruct (cons_from_fuel _ _ _ f _ _ _ _ _) as [[x y]|]; cbn; by rewrite ?Hl, ?Hr.
Qed.

Lemma cons_from_ok n m b p old f r :
  Forall hash_ok p -> hash_ok old ->
  cons_from node_hash node_hash (fun h => h) n m b p old = Some (f, r) -> hash_ok f /\ hash_ok r.
Proof.
  intros Hp Hold. unfold cons_from. generalize n at 1. intros fu.
  revert n m b p f r Hp; induction fu as [|fu IH]; intros n m b p f r Hp; [done|].
  cbn [cons_from_fuel]. destruct (m =? n)%nat.
  - destruct b; [by destruct p; intros [= <- <-]|].
    destruct p as [|x []]; intros [= <- <-]. by rewrite Forall_singleton in Hp.
  - destruct (rev p) as [|s rp] eqn:E; [done|]. cbn zeta.
    assert (Hrp : Forall hash_ok (rev rp)).
    { apply Forall_rev. apply (f_equal (@rev (list byte))) in E. rewrite rev_involutive in E.
      subst p. cbn in Hp. apply Forall_app in Hp as [Hp _]. apply Forall_rev in Hp.
      by rewrite rev_involutive in Hp. }
    destruct (m <=? split n)%nat.
    + destruct (cons_from_fuel _ _ _ fu _ _ _ _ _) as [[x y]|] eqn:Ec; [|done].
      intros [= <- <-]. apply IH in Ec as [? ?]; [|done]. split; [done|apply node_hash_ok].
    + destruct (cons_from_fuel _ _ _ fu _ _ _ _ _) as [[x y]|] eqn:Ec; [|done].
      intros [= <- <-]. split; apply node_hash_ok.
Qed.

Abbreviation traced := (cons_from trace_l trace_r (fun h : Hash => (h, @nil (list byte)))).

Lemma traced_plain n m b p old f r tf tr :
  traced n m b p old = Some ((f, tf), (r, tr)) ->
  cons_from node_hash node_hash (fun h => h) n m b p old = Some (f, r).
Proof.
  intros E. rewrite <- (cons_from_hom fst trace_l trace_r (fun h => (h, []))) by done. by rewrite E.
Qed.

Lemma cons_from_sound l m b p old f tf tr :
  Forall hash_ok l -> Forall hash_ok p -> hash_ok old -> (0 < m <= length l)%nat ->
  traced (length l) m b p old = Some ((f, tf), (mth l, tr)) ->
  collision_free (mth_inputs l) tr -> f = mth (take m l).
Proof.
  revert m b p f tf tr; induction l as [|x|l Hl IHa IHb] using tree_ind;
    intros m b p f tf tr Hol Hop Hold Hm H Hcf.
  - cbn in Hm. lia.
  - cbn in Hm. assert (m = 1)%nat as -> by lia. rewrite cons_from_same in H by (cbn; lia).
    destruct b; [destruct p; [|done]|destruct p as [|? []]; try done]; by simplify_eq/=.
  - destruct (Nat.eq_dec m (length l)) as [->|Hne].
    { rewrite cons_from_same in H by lia. rewrite firstn_all.
      destruct b; [destruct p; [|done]|destruct p as [|? []]; try done]; by simplify_eq/=. }
    destruct p as [|s p _] using rev_ind; [by rewrite cons_from_nil in H by lia|].
    pose proof (split_bounds _ Hl) as Hk. rewrite cons_from_snoc in H by lia. cbn zeta in H.
    rewrite mth_inputs_node in Hcf by done. cbn zeta in Hcf. set (k := split (length l)) in *.
    apply Forall_app in Hop as [Hop Hs]. rewrite Forall_singleton in Hs.
    assert (Hoa : Forall hash_ok (take k l)) by (by apply Forall_take).
    assert (Hob : Forall hash_ok (drop k l)) by (by apply Forall_drop).
    rewrite mth_node in H by done. fold k in H.
    destruct (Nat.leb_spec m k) as [Hle|Hgt].
    + destruct (traced k m b p old) as [[[f' tf'] [r' tr']]|] eqn:E; [|done].
      cbn in H. injection H as -> -> H <-. symmetry in H.
      apply traced_plain in E as Ep. destruct (cons_from_ok _ _ _ _ _ _ _ Hop Hold Ep) as [_ Hr'].
      eapply node_hash_cf_inj in H as [H1 H2]; [|exact Hcf|by left|by left|by apply mth_ok|done].
      specialize (IHa m b p f tf tr' Hoa Hop Hold). rewrite length_take_le, take_take in IHa by lia.
      replace (m `min` k)%nat with m in IHa by lia. apply IHa; [lia| |].
      * rewrite E. by rewrite H1.
      * eapply collision_free_sub; [exact Hcf|set_solver|set_solver].
    + destruct (traced (length l - k) (m - k) false p old) as [[[f' tf'] [r' tr']]|] eqn:E; [|done].
      cbn in H. injection H as <- <- H <-. symmetry in H.
      eapply node_hash_cf_inj in H as [H1 H2]; [|exact Hcf|by left|by left|by apply mth_ok|done].
      rewrite (mth_prefix l m) by (fold k; lia). fold k. f_equal; [done|].
      specialize (IHb (m - k)%nat false p f' tf' tr' Hob Hop Hold). rewrite length_drop in IHb.
      apply IHb; [lia| |].
      * rewrite E. by rewrite H2.
      * eapply collision_free_sub; [exact Hcf|set_solver|set_solver].
Qed.

(** An accepted consistency proof, at sizes the caller pinned, shows that the
    old root is the root of a prefix of the new leaves. *)
Lemma consistency_sound l m p old_root :
  Forall hash_ok l -> Forall hash_ok (cp_nodes p) -> hash_ok old_root ->
  collision_free (mth_inputs l) (consistency_inputs p old_root) ->
  verify_between p old_root m (mth l) (length l) = true ->
  (0 < m <= length l)%nat /\ old_root = mth (take m l).
Proof.
  intros Hol Hop Hold Hcf Hv. unfold verify_between, consistency_recompute in Hv. breflect.
  destruct p as [o n nodes]; cbn [cp_old_size cp_new_size cp_nodes] in *. subst o n.
  destruct (Nat.eqb_spec m 0); [done|]. destruct (Nat.ltb_spec (length l) m); [done|].
  cbn [orb] in *. split; [lia|].
  destruct (Nat.eqb_spec m (length l)) as [->|Hne].
  { breflect. rewrite firstn_all. match goal with Hd : digests_equal _ _ = true |- _ =>
      apply digests_equal_ok in Hd; [done|done|by apply mth_ok] end. }
  unfold consistency_inputs in Hcf. cbn [cp_old_size cp_new_size cp_nodes] in Hcf.
  rewrite consistency_climb_run, cons_run_from in Hcf by (left; lia).
  match goal with H : (match consistency_climb _ _ _ _ _ _ _ with _ => _ end) = true |- _ =>
    rename H into Hv end.
  rewrite consistency_climb_run, cons_run_from in Hv by (left; lia).
  rewrite <- (cons_from_hom fst trace_l trace_r (fun h => (h, []))) in Hv by done.
  destruct (traced (length l) m true nodes old_root) as [[[f tf] [r tr]]|] eqn:E; [|done].
  cbn in Hv. apply andb_true_iff in Hv as [Hf Hr].
  destruct (cons_from_ok _ _ _ _ _ _ _ Hop Hold (traced_plain _ _ _ _ _ _ _ _ _ E)) as [Hfo Hro].
  apply digests_equal_ok in Hf; [|done|done]. apply digests_equal_ok in Hr; [|done|by apply mth_ok].
  subst f r. eapply cons_from_sound; [done|exact Hop|exact Hold|lia|exact E|exact Hcf].
Qed.

End Sound.
