(* ===== verification/Completeness.v ===== *)
(** * Completeness of range answers ([trailryx-index/src/completeness.rs])

    The sorted index of a segment in one dimension, the range query, and the
    verifier of its answer. Positions and counts are [usize] values read from
    lists, so they are [nat]; the one panic of the source, [expect] on an
    inclusion proof, is the [None] of [range]. *)

From S2P Require Import Prelude Bytes Ids Record Digest Sha384 Merkle.

(** ** Dimensions and their keys *)

Inductive Dimension := DRecordId | DRecordedAt | DAgentId | DRunId | DEventType.

#[export] Instance Dimension_eq_dec : EqDecision Dimension.
Proof. solve_decision. Defined.

Definition Dimension_ALL : list Dimension := [DRecordId; DRecordedAt; DAgentId; DRunId; DEventType].

Definition Dimension_as_str (d : Dimension) : string :=
  match d with
  | DRecordId => "id"
  | DRecordedAt => "recorded_at"
  | DAgentId => "agent_id"
  | DRunId => "run_id"
  | DEventType => "event_type"
  end.

Definition event_code (e : EventType) : Z :=
  match e with
  | RequestReceived => 1
  | ModelCall => 2
  | ToolCall => 3
  | PolicyDecision => 4
  | BudgetCheck => 5
  | MemoryAccess => 6
  | Delegation => 7
  | RunCompleted => 8
  | Erasure => 9
  | StoreEvent => 10
  | NotificationDispatched => 11
  | IdentityFinding => 12
  end.

Definition key_of (d : Dimension) (r : Record_) : list byte :=
  match d with
  | DRecordId => to_be_bytes 16 r.(r_id)
  | DRecordedAt => to_be_bytes 8 r.(recorded_at)
  | DAgentId => r.(agent_id).(as_str)
  | DRunId => r.(run_id).(as_str)
  | DEventType => [u8 (event_code r.(event_type))]
  end.

Definition time_key (nanos : Z) : list byte := to_be_bytes 8 nanos.
Definition id_key (id : RecordId) : list byte := to_be_bytes 16 id.
Definition event_key (e : EventType) : list byte := [u8 (event_code e)].

(** [u8::is_ascii_hexdigit]. *)
Definition is_ascii_hexdigit (b : byte) : bool :=
  let c := u8v b in
  ((48 <=? c) && (c <=? 57)) || ((65 <=? c) && (c <=? 70)) || ((97 <=? c) && (c <=? 102)).

(** [(b as char).to_digit(16)], which [u8::from_str_radix] applies per digit. *)
Definition radix16 (b : byte) : option Z :=
  let c := u8v b in
  if (48 <=? c) && (c <=? 57) then Some (c - 48)
  else if (65 <=? c) && (c <=? 70) then Some (c - 55)
  else if (97 <=? c) && (c <=? 102) then Some (c - 87)
  else None.

(** The loop over [(0..32).step_by(2)]. *)
Fixpoint id_from_hex (n : nat) (s : list byte) : option (list byte) :=
  match n with
  | O => Some []
  | S n' =>
      match s with
      | c1 :: c2 :: s' =>
          hi ← radix16 c1; lo ← radix16 c2; out ← id_from_hex n' s'; Some (u8 (hi * 16 + lo) :: out)
      | _ => None
      end
  end.

(** [str::parse::<u64>]: an optional [+], then at least one digit, no overflow. *)
Fixpoint parse_digits (s : list byte) (acc : Z) : option Z :=
  match s with
  | [] => Some acc
  | b :: s' =>
      let c := u8v b in
      if (48 <=? c) && (c <=? 57) then
        let acc' := acc * 10 + (c - 48) in
        if u64_max <? acc' then None else parse_digits s' acc'
      else None
  end.
Definition parse_u64 (s : list byte) : option Z :=
  let s := match s with b :: s' => if u8v b =? 43 then s' else s | [] => s end in
  if (length s =? 0)%nat then None else parse_digits s 0.

Definition key_from_text (d : Dimension) (text : list byte) : option (list byte) :=
  match d with
  | DRecordId =>
      if negb (length text =? 32)%nat || negb (forallb is_ascii_hexdigit text) then None
      else id_from_hex 16 text
  | DRecordedAt => v ← parse_u64 text; Some (to_be_bytes 8 v)
  | DAgentId | DRunId => Some text
  | DEventType =>
      event ← head (filter (fun e => lit (EventType_as_str e) = text) EventType_ALL);
      Some [u8 (event_code event)]
  end.

Definition key_from_i64 (d : Dimension) (value : Z) : option (list byte) :=
  match d with
  | DRecordedAt => if (0 <=? value) then Some (to_be_bytes 8 value) else None
  | DEventType =>
      if (0 <=? value) && (value <? 256) then
        if existsb (fun e => event_code e =? value) EventType_ALL then Some [u8 value] else None
      else None
  | _ => None
  end.

(** ** Entries and the index *)

Record Entry := MkEntry { e_key : list byte; e_seq : Z; record_link : Hash }.

#[export] Instance Entry_eq_dec : EqDecision Entry.
Proof. solve_decision. Defined.

(** What the Rust types guarantee of an entry: a [Vec]'s length, a [u64], a hash. *)
Record entry_ok (e : Entry) : Prop := {
  ok_key_len : u64_ok (Z.of_nat (length e.(e_key)));
  ok_eseq : u64_ok e.(e_seq);
  ok_link : hash_ok e.(record_link);
}.

#[export] Instance entry_ok_dec e : Decision (entry_ok e).
Proof. decide_record. Defined.

(** [(a.key, a.seq) < (b.key, b.seq)], the order of [sort_by] and of the checks. *)
Definition pos_lt (a b : Entry) : bool :=
  match cmp_bytes a.(e_key) b.(e_key) with
  | Lt => true
  | Eq => a.(e_seq) <? b.(e_seq)
  | Gt => false
  end.

(** [sort_by] on the position, a stable sort. *)
Fixpoint insert_entry (e : Entry) (l : list Entry) : list Entry :=
  match l with
  | [] => [e]
  | x :: l' => if pos_lt x e then x :: insert_entry e l' else e :: l
  end.
Definition sort_entries (l : list Entry) : list Entry := foldr insert_entry [] l.

(** [partition_point]: the length of the prefix that satisfies [p]. *)
Fixpoint partition_point {A} (p : A -> bool) (l : list A) : nat :=
  match l with
  | [] => O
  | x :: l' => if p x then S (partition_point p l') else O
  end.

Inductive ProofFailure :=
  | WrongDimension
  | WrongSize (expected got : nat)
  | EmptyAnswerAgainstNonEmptyIndex
  | EntriesAgainstEmptyIndex
  | CountMismatch
  | EntryNotInTree (at_ : nat)
  | NotContiguous (expected got : nat)
  | OutsideRange (at_ : nat)
  | OutOfOrder (at_ : nat)
  | MissingLeftBoundary
  | MissingRightBoundary
  | BoundaryDoesNotBound (side : string)
  | BoundaryNotInTree (side : string)
  | BoundaryAtWrongPosition (side : string) (expected got : nat)
  | SpuriousBoundary (side : string).

#[export] Instance ProofFailure_eq_dec : EqDecision ProofFailure.
Proof. solve_decision. Defined.

Record CompletenessProof := MkCompleteness {
  c_dimension : Dimension;
  c_size : nat;
  first_index : nat;
  c_entries : list Entry;
  entry_proofs : list InclusionProof;
  left_boundary : option (Entry * InclusionProof);
  right_boundary : option (Entry * InclusionProof);
}.

#[export] Instance CompletenessProof_eq_dec : EqDecision CompletenessProof.
Proof. solve_decision. Defined.

Definition matched (p : CompletenessProof) : nat := length p.(c_entries).

Definition some_ {A} (o : option A) : bool := match o with Some _ => true | None => false end.

Section Index.
Context `{D : Digest}.

Definition Entry_leaf_hash (e : Entry) : Hash :=
  hash_parts [[x00]; to_be_bytes 8 (Z.of_nat (length e.(e_key))); e.(e_key);
              to_be_bytes 8 e.(e_seq); e.(record_link)].

Record SortedIndex := MkIndex { dimension : Dimension; entries : list Entry; tree : MerkleTree }.

Definition build (d : Dimension) (records : list (Record_ * Hash)) : SortedIndex :=
  let es := sort_entries (map (fun '(r, leaf) =>
              {| e_key := key_of d r; e_seq := r.(seq); record_link := leaf |}) records) in
  {| dimension := d; entries := es; tree := from_leaf_hashes (map Entry_leaf_hash es) |}.

Definition index_root (ix : SortedIndex) : Hash := root ix.(tree).
Definition index_len (ix : SortedIndex) : nat := length ix.(entries).
Definition index_entry (ix : SortedIndex) (i : nat) : option Entry := ix.(entries) !! i.
Definition index_inclusion (ix : SortedIndex) (i : nat) : option InclusionProof :=
  inclusion_proof ix.(tree) i (length ix.(entries)).

(** [windows(2).find(..)]: the sequence number of the first entry not above its predecessor. *)
Fixpoint first_unordered (l : list Entry) : option Z :=
  match l with
  | a :: (b :: _) as l' => if negb (pos_lt a b) then Some b.(e_seq) else first_unordered l'
  | _ => None
  end.
Definition first_duplicate_position (ix : SortedIndex) : option Z := first_unordered ix.(entries).

(** An entry with its inclusion proof; [None] where [expect] would panic. *)
Definition boundary (ix : SortedIndex) (i : nat) : option (Entry * InclusionProof) :=
  e ← ix.(entries) !! i;
  p ← inclusion_proof ix.(tree) i (length ix.(entries));
  Some (e, p).

(** [range]; [None] where [expect] would panic. *)
Definition range (ix : SortedIndex) (lo hi : list byte) : option CompletenessProof :=
  let es := ix.(entries) in
  let size := length es in
  let first := partition_point (fun e => lt_bytes e.(e_key) lo) es in
  let after := Nat.max (partition_point (fun e => le_bytes e.(e_key) hi) es) first in
  proofs ← mapM (fun i => inclusion_proof ix.(tree) i size) (List.seq first (after - first));
  left ← (if (0 <? first)%nat then Some <$> boundary ix (first - 1) else Some None);
  right ← (if (after <? size)%nat then Some <$> boundary ix after else Some None);
  Some {| c_dimension := ix.(dimension); c_size := size; first_index := first;
          c_entries := slice es first (after - first); entry_proofs := proofs;
          left_boundary := left; right_boundary := right |}.

(** The loop over the entries and their proofs; [k] counts, [prev] is [entries[k - 1]]. *)
Fixpoint check_entries (lo hi : list byte) (rt : Hash) (size first k : nat) (prev : option Entry)
    (es : list Entry) (ps : list InclusionProof) : result ProofFailure unit :=
  match es, ps with
  | entry :: es', proof :: ps' =>
      let expected := (first + k)%nat in
      if negb (proof.(ip_index) =? expected)%nat || negb (proof.(ip_size) =? size)%nat then
        Err (NotContiguous expected proof.(ip_index))
      else if negb (verify_at proof (Entry_leaf_hash entry) rt expected size) then
        Err (EntryNotInTree k)
      else if lt_bytes entry.(e_key) lo || lt_bytes hi entry.(e_key) then Err (OutsideRange k)
      else if match prev with Some p => negb (pos_lt p entry) | None => false end then
        Err (OutOfOrder k)
      else check_entries lo hi rt size first (S k) (Some entry) es' ps'
  | _, _ => Ok tt
  end.

Definition check_left (b : option (Entry * InclusionProof)) (first : nat) (lo : list byte)
    (rt : Hash) (size : nat) : result ProofFailure unit :=
  match b, first with
  | None, O => Ok tt
  | None, S _ => Err MissingLeftBoundary
  | Some _, O => Err (SpuriousBoundary "left")
  | Some (entry, proof), S _ =>
      if negb (proof.(ip_index) =? first - 1)%nat then
        Err (BoundaryAtWrongPosition "left" (first - 1) proof.(ip_index))
      else if negb (verify_at proof (Entry_leaf_hash entry) rt (first - 1) size) then
        Err (BoundaryNotInTree "left")
      else if negb (lt_bytes entry.(e_key) lo) then Err (BoundaryDoesNotBound "left")
      else Ok tt
  end.

Definition check_right (b : option (Entry * InclusionProof)) (after : nat) (hi : list byte)
    (rt : Hash) (size : nat) : result ProofFailure unit :=
  match b, (after =? size)%nat with
  | None, true => Ok tt
  | None, false => Err MissingRightBoundary
  | Some _, true => Err (SpuriousBoundary "right")
  | Some (entry, proof), false =>
      if negb (proof.(ip_index) =? after)%nat then
        Err (BoundaryAtWrongPosition "right" after proof.(ip_index))
      else if negb (verify_at proof (Entry_leaf_hash entry) rt after size) then
        Err (BoundaryNotInTree "right")
      else if le_bytes entry.(e_key) hi then Err (BoundaryDoesNotBound "right")
      else Ok tt
  end.

(** [CompletenessProof::verify]. *)
Definition verify (p : CompletenessProof) (d : Dimension) (lo hi : list byte) (rt : Hash)
    (expected_size : nat) : result ProofFailure unit :=
  if negb (bool_decide (p.(c_dimension) = d)) then Err WrongDimension
  else if negb (p.(c_size) =? expected_size)%nat then Err (WrongSize expected_size p.(c_size))
  else if negb (length p.(c_entries) =? length p.(entry_proofs))%nat then Err CountMismatch
  else if (p.(c_size) =? 0)%nat then
    if negb (digests_equal rt empty_root) then Err EmptyAnswerAgainstNonEmptyIndex
    else if negb (length p.(c_entries) =? 0)%nat || negb (length p.(entry_proofs) =? 0)%nat
            || negb (p.(first_index) =? 0)%nat || some_ p.(left_boundary) || some_ p.(right_boundary)
    then Err EntriesAgainstEmptyIndex
    else Ok tt
  else
    _ ← check_entries lo hi rt p.(c_size) p.(first_index) 0 None p.(c_entries) p.(entry_proofs);
    _ ← check_left p.(left_boundary) p.(first_index) lo rt p.(c_size);
    check_right p.(right_boundary) (p.(first_index) + length p.(c_entries)) hi rt p.(c_size).

End Index.

(** ** The order of positions *)

Lemma pos_lt_spec a b :
  pos_lt a b = true <->
  lt_bytes a.(e_key) b.(e_key) = true \/ (a.(e_key) = b.(e_key) /\ a.(e_seq) < b.(e_seq)).
Proof.
  unfold pos_lt, lt_bytes. pose proof (cmp_bytes_eq a.(e_key) b.(e_key)) as H.
  destruct (cmp_bytes _ _); rewrite ?Z.ltb_lt; intuition congruence.
Qed.

Lemma pos_lt_irrefl a : pos_lt a a = false.
Proof. unfold pos_lt. rewrite cmp_bytes_refl. apply Z.ltb_irrefl. Qed.

Lemma pos_lt_trans a b c : pos_lt a b = true -> pos_lt b c = true -> pos_lt a c = true.
Proof.
  rewrite !pos_lt_spec. intros [H1|[E1 H1]] [H2|[E2 H2]].
  - left. by eapply lt_bytes_trans.
  - left. by rewrite <- E2.
  - left. by rewrite E1.
  - right. split; [congruence|lia].
Qed.

Lemma pos_lt_total a b :
  pos_lt a b = false -> pos_lt b a = false -> a.(e_key) = b.(e_key) /\ a.(e_seq) = b.(e_seq).
Proof.
  unfold pos_lt. rewrite (cmp_bytes_antisym b.(e_key)).
  pose proof (cmp_bytes_eq b.(e_key) a.(e_key)) as H.
  destruct (cmp_bytes b.(e_key) a.(e_key)); cbn; try done.
  rewrite !Z.ltb_ge. intros. split; [by rewrite (proj1 H)|lia].
Qed.

(** [pos_le a b]: [a] may precede [b] in the index. *)
Definition pos_le (a b : Entry) : Prop := pos_lt b a = false.

Lemma pos_le_trans a b c : pos_le a b -> pos_le b c -> pos_le a c.
Proof.
  unfold pos_le. intros H1 H2. destruct (pos_lt c a) eqn:E; [|done].
  destruct (pos_lt a b) eqn:Eab; [by rewrite (pos_lt_trans c a b) in H2|].
  apply pos_lt_total in Eab as [Ek Es]; [|done].
  rewrite <- E, <- H2. unfold pos_lt. by rewrite Ek, Es.
Qed.

Lemma pos_lt_le a b : pos_lt a b = true -> pos_le a b.
Proof.
  unfold pos_le. intros H. destruct (pos_lt b a) eqn:E; [|done].
  by rewrite <- (pos_lt_irrefl a), (pos_lt_trans a b a).
Qed.

Lemma pos_le_key a b : pos_le a b -> le_bytes a.(e_key) b.(e_key) = true.
Proof.
  unfold pos_le, pos_lt. rewrite le_bytes_not_lt. unfold lt_bytes.
  by destruct (cmp_bytes b.(e_key) a.(e_key)).
Qed.

(** ** The sort *)

Lemma insert_entry_perm e l : insert_entry e l ≡ₚ e :: l.
Proof.
  induction l as [|x l IH]; cbn; [done|]. destruct (pos_lt x e); [|done].
  rewrite IH. apply Permutation_swap.
Qed.

Lemma sort_entries_perm l : sort_entries l ≡ₚ l.
Proof. induction l as [|x l IH]; cbn; [done|]. by rewrite insert_entry_perm, IH. Qed.

Lemma insert_entry_sorted e l : StronglySorted pos_le l -> StronglySorted pos_le (insert_entry e l).
Proof.
  induction 1 as [|x l Hs IH Hx]; cbn; [repeat constructor|].
  destruct (pos_lt x e) eqn:E.
  - constructor; [done|]. rewrite insert_entry_perm. constructor; [by apply pos_lt_le|done].
  - constructor; [by constructor|]. constructor; [done|].
    eapply Forall_impl; [exact Hx|]. intros y Hy. by eapply pos_le_trans.
Qed.

Lemma sort_entries_sorted l : StronglySorted pos_le (sort_entries l).
Proof. induction l; cbn; [constructor|by apply insert_entry_sorted]. Qed.

Lemma sorted_lookup {A} (R : A -> A -> Prop) l i j x y :
  StronglySorted R l -> l !! i = Some x -> l !! j = Some y -> (i < j)%nat -> R x y.
Proof.
  intros Hs. revert i j. induction Hs as [|z l Hs IH Hz]; intros i j Hi Hj Hij; [done|].
  destruct j as [|j]; [lia|]. destruct i as [|i]; cbn in Hi, Hj.
  - injection Hi as ->. rewrite Forall_lookup in Hz. by eapply Hz.
  - eapply IH; [done..|lia].
Qed.

(** An index without a duplicate position is strictly ordered. *)
Lemma first_unordered_none l :
  first_unordered l = None <-> StronglySorted (fun a b => pos_lt a b = true) l.
Proof.
  split.
  - intros H. apply Sorted_StronglySorted; [intros ???; apply pos_lt_trans|].
    induction l as [|a l IH]; [constructor|]. destruct l as [|b l]; [repeat constructor|].
    cbn [first_unordered] in H. destruct (pos_lt a b) eqn:E; cbn in H; [|done].
    constructor; [by apply IH|by constructor].
  - induction 1 as [|a l Hs IH Ha]; [done|]. destruct l as [|b l]; [done|].
    cbn [first_unordered]. apply Forall_cons in Ha as [-> _]. exact IH.
Qed.

(** ** Partition points of a sorted index *)

Lemma partition_point_le {A} (p : A -> bool) l : (partition_point p l <= length l)%nat.
Proof. induction l as [|x l IH]; cbn; [done|]. destruct (p x); lia. Qed.

Lemma partition_point_take {A} (p : A -> bool) l :
  Forall (fun x => p x = true) (take (partition_point p l) l).
Proof. induction l as [|x l IH]; cbn; [done|]. destruct (p x) eqn:E; by constructor. Qed.

(** Where [p] only turns from true to false along the list, all after the point fail it. *)
Lemma partition_point_drop {A} (R : A -> A -> Prop) (p : A -> bool) l :
  StronglySorted R l -> (forall a b, R a b -> p b = true -> p a = true) ->
  Forall (fun x => p x = false) (drop (partition_point p l) l).
Proof.
  intros Hs Hp. induction Hs as [|x l Hs IH Hx]; [constructor|].
  cbn [partition_point]. destruct (p x) eqn:E; [exact IH|].
  cbn. constructor; [done|]. eapply Forall_impl; [exact Hx|]. intros y Hy.
  destruct (p y) eqn:Ey; [|done]. by rewrite (Hp x y) in E.
Qed.

(** ** Ranges *)

Definition in_range (lo hi : list byte) (key : list byte) : bool :=
  le_bytes lo key && le_bytes key hi.

Abbreviation entries_in lo hi := (filter (fun e => in_range lo hi e.(e_key) = true)).

Lemma in_range_checks lo hi k : lt_bytes k lo || lt_bytes hi k = negb (in_range lo hi k).
Proof. unfold in_range. rewrite !le_bytes_not_lt. by destruct (lt_bytes k lo), (lt_bytes hi k). Qed.

(** The in-range part of a sorted index is what lies between the two edges. *)
Lemma filter_range_slice lo hi a b c :
  Forall (fun e => lt_bytes e.(e_key) lo = true) a ->
  Forall (fun e => in_range lo hi e.(e_key) = true) b ->
  Forall (fun e => le_bytes e.(e_key) hi = false) c ->
  entries_in lo hi (a ++ b ++ c) = b.
Proof.
  intros Ha Hb Hc. rewrite !filter_app, (filter_all _ b), (filter_none _ a), (filter_none _ c).
  - by rewrite app_nil_r.
  - eapply Forall_impl; [exact Hc|]. intros e He. unfold in_range. cbn in He.
    by rewrite He, andb_false_r.
  - eapply Forall_impl; [exact Ha|]. intros e He. unfold in_range. cbn in He.
    by rewrite le_bytes_not_lt, He.
  - exact Hb.
Qed.

(** ** The honest answer verifies *)

Section Honest.
Context `{DL : DigestLaws}.

Definition index_ok (ix : SortedIndex) : Prop :=
  StronglySorted pos_le ix.(entries) /\ leaves ix.(tree) = map Entry_leaf_hash ix.(entries).

Lemma build_ok d rs : index_ok (build d rs).
Proof. split; [apply sort_entries_sorted|done]. Qed.

Lemma Entry_leaf_hash_ok e : hash_ok (Entry_leaf_hash e).
Proof. apply hash_parts_ok. Qed.

Lemma entry_leaves_ok l : Forall hash_ok (map Entry_leaf_hash l).
Proof. apply Forall_fmap, Forall_true. intros e. apply Entry_leaf_hash_ok. Qed.

Lemma index_inclusion_verifies ix i e :
  index_ok ix -> ix.(entries) !! i = Some e ->
  exists p, inclusion_proof ix.(tree) i (length ix.(entries)) = Some p /\
    p.(ip_index) = i /\ p.(ip_size) = length ix.(entries) /\
    verify_at p (Entry_leaf_hash e) (index_root ix) i (length ix.(entries)) = true.
Proof.
  intros [_ Hl] Hi. assert (Hlen : length (leaves ix.(tree)) = length ix.(entries)) by (by rewrite Hl, length_map).
  destruct (inclusion_complete ix.(tree) i (length ix.(entries)) (Entry_leaf_hash e)) as (p & Hp & Hv).
  - rewrite Hl. apply entry_leaves_ok.
  - by rewrite Hlen.
  - by apply lookup_lt_Some in Hi.
  - rewrite Hl. change (map ?f ?l) with (f <$> l). by rewrite list_lookup_fmap, Hi.
  - exists p. split; [done|]. assert (Hv' : verify_at p (Entry_leaf_hash e) (index_root ix) i (length ix.(entries)) = true).
    { apply Hv. unfold root_at. rewrite Hlen, Nat.ltb_irrefl. unfold index_root, root.
      by rewrite <- Hlen, firstn_all. }
    pose proof Hv' as H. unfold verify_at in H. breflect. auto.
Qed.

Lemma check_entries_honest ix lo hi first k prev es :
  index_ok ix ->
  (forall j e, es !! j = Some e -> ix.(entries) !! (first + k + j)%nat = Some e) ->
  Forall (fun e => in_range lo hi e.(e_key) = true) es ->
  StronglySorted (fun a b => pos_lt a b = true) es ->
  (forall p e, prev = Some p -> head es = Some e -> pos_lt p e = true) ->
  exists ps, mapM (fun i => inclusion_proof ix.(tree) i (length ix.(entries))) (List.seq (first + k) (length es)) = Some ps /\
    length ps = length es /\
    check_entries lo hi (index_root ix) (length ix.(entries)) first k prev es ps = Ok tt.
Proof.
  intros Hix. revert k prev; induction es as [|e es IH]; intros k prev Hl Hr Hs Hp.
  { exists []. done. }
  apply Forall_cons in Hr as [Hre Hr]. apply StronglySorted_inv in Hs as [Hs Hhd].
  destruct (index_inclusion_verifies ix (first + k) e Hix) as (p & Hip & Hpi & Hps & Hv).
  { specialize (Hl 0%nat e eq_refl). by rewrite Nat.add_0_r in Hl. }
  destruct (IH (S k) (Some e)) as (ps & Hm & Hlen & Hc); [|done|done| |].
  { intros j x Hx. replace (first + S k + j)%nat with (first + k + S j)%nat by lia. by apply Hl. }
  { intros p' x [= <-] Hx. destruct es as [|y es]; [done|]. cbn in Hx. injection Hx as ->.
    by apply Forall_cons in Hhd as [? _]. }
  exists (p :: ps). cbn [length List.seq mapM]. rewrite Hip. cbn [mbind option_bind].
  replace (S (first + k)) with (first + S k)%nat by lia. rewrite Hm. split; [done|].
  split; [by rewrite <- Hlen|]. cbn [check_entries].
  rewrite Hpi, Hps, !Nat.eqb_refl, Hv, in_range_checks, Hre. cbn [negb orb].
  destruct prev as [q|]; [rewrite (Hp q e) by done; cbn|]; exact Hc.
Qed.

Lemma range_parts ix lo hi :
  index_ok ix ->
  let es := ix.(entries) in
  let first := partition_point (fun e => lt_bytes e.(e_key) lo) es in
  let after := Nat.max (partition_point (fun e => le_bytes e.(e_key) hi) es) first in
  (first <= after <= length es)%nat /\
  Forall (fun e => lt_bytes e.(e_key) lo = true) (take first es) /\
  Forall (fun e => in_range lo hi e.(e_key) = true) (slice es first (after - first)) /\
  Forall (fun e => le_bytes e.(e_key) hi = false) (drop after es).
Proof.
  intros [Hs _]. cbn zeta. set (es := ix.(entries)) in *.
  set (first := partition_point (fun e => lt_bytes e.(e_key) lo) es).
  set (pt := partition_point (fun e => le_bytes e.(e_key) hi) es).
  assert (Hf : Forall (fun e => lt_bytes e.(e_key) lo = true) (take first es)) by apply partition_point_take.
  assert (Hf' : Forall (fun e => lt_bytes e.(e_key) lo = false) (drop first es)).
  { apply (partition_point_drop pos_le); [done|]. intros a b Hab Hb.
    eapply le_lt_bytes_trans; [by apply pos_le_key|done]. }
  assert (Hp : Forall (fun e => le_bytes e.(e_key) hi = true) (take pt es)) by apply partition_point_take.
  assert (Hp' : Forall (fun e => le_bytes e.(e_key) hi = false) (drop pt es)).
  { apply (partition_point_drop pos_le); [done|]. intros a b Hab Hb.
    eapply le_bytes_trans; [by apply pos_le_key|done]. }
  assert (Hpl : (pt <= length es)%nat) by apply partition_point_le.
  assert (Hfl : (first <= length es)%nat) by apply partition_point_le.
  split; [lia|]. split; [done|]. split.
  - apply Forall_lookup. intros i e Hi. unfold slice in Hi. apply lookup_take_Some in Hi as [Hi Hlt].
    pose proof Hi as Hi2. rewrite lookup_drop in Hi2.
    rewrite Forall_lookup in Hf'. specialize (Hf' _ _ Hi). cbn in Hf'.
    unfold in_range. rewrite le_bytes_not_lt, Hf'. cbn.
    rewrite Forall_lookup in Hp. apply (Hp (first + i)%nat). apply lookup_take_Some. split; [done|lia].
  - replace (Nat.max pt first) with (pt + (Nat.max pt first - pt))%nat by lia.
    rewrite <- drop_drop. by apply Forall_drop.
Qed.

Lemma boundary_verifies ix i :
  index_ok ix -> (i < length ix.(entries))%nat ->
  exists e p, boundary ix i = Some (e, p) /\ ix.(entries) !! i = Some e /\ p.(ip_index) = i /\
    verify_at p (Entry_leaf_hash e) (index_root ix) i (length ix.(entries)) = true.
Proof.
  intros Hix Hi. destruct (lookup_lt_is_Some_2 _ _ Hi) as [e He].
  destruct (index_inclusion_verifies ix i e Hix He) as (p & Hip & Hpi & _ & Hv).
  exists e, p. unfold boundary. rewrite He. cbn. by rewrite Hip.
Qed.

Lemma left_verifies ix first lo :
  index_ok ix -> (first <= length ix.(entries))%nat ->
  Forall (fun e => lt_bytes e.(e_key) lo = true) (take first ix.(entries)) ->
  exists l, (if (0 <? first)%nat then Some <$> boundary ix (first - 1) else Some None) = Some l /\
    check_left l first lo (index_root ix) (length ix.(entries)) = Ok tt.
Proof.
  intros Hix Hf Hall. destruct first as [|f]; [by exists None|]. cbn [Nat.ltb Nat.leb].
  replace (S f - 1)%nat with f by lia.
  destruct (boundary_verifies ix f) as (e & p & Hb & He & Hi & Hv); [done|lia|].
  rewrite Hb. eexists. split; [done|]. cbn. replace (f - 0)%nat with f by lia.
  rewrite Hi, Nat.eqb_refl, Hv. cbn.
  rewrite Forall_lookup in Hall. rewrite (Hall f e); [done|]. apply lookup_take_Some. split; [done|lia].
Qed.

Lemma right_verifies ix after hi :
  index_ok ix -> (after <= length ix.(entries))%nat ->
  Forall (fun e => le_bytes e.(e_key) hi = false) (drop after ix.(entries)) ->
  exists r, (if (after <? length ix.(entries))%nat then Some <$> boundary ix after else Some None) = Some r /\
    check_right r after hi (index_root ix) (length ix.(entries)) = Ok tt.
Proof.
  intros Hix Hf Hall. destruct (Nat.ltb_spec after (length ix.(entries))) as [Hlt|Hge].
  - destruct (boundary_verifies ix after) as (e & p & Hb & He & Hi & Hv); [done|lia|].
    rewrite Hb. eexists. split; [done|]. unfold check_right. destruct (Nat.eqb_spec after (length (entries ix))); [lia|].
    rewrite Hi, Nat.eqb_refl, Hv. cbn.
    rewrite Forall_lookup in Hall. rewrite (Hall 0%nat e); [done|]. rewrite lookup_drop. by rewrite Nat.add_0_r.
  - exists None. split; [done|]. unfold check_right. destruct (Nat.eqb_spec after (length (entries ix))); [done|lia].
Qed.

(** A segment whose index has no duplicate position answers every range, with
    an answer its verifier accepts and that is the in-range part of the index. *)
Lemma range_verifies ix lo hi :
  index_ok ix -> first_duplicate_position ix = None ->
  exists p, range ix lo hi = Some p /\
    verify p ix.(dimension) lo hi (index_root ix) (index_len ix) = Ok tt /\
    p.(c_entries) = entries_in lo hi ix.(entries).
Proof.
  intros Hix Hd. pose proof (range_parts ix lo hi Hix) as (Hb & Hbef & Hin & Haft). unfold range.
  set (es := ix.(entries)) in *.
  set (first := partition_point (fun e => lt_bytes e.(e_key) lo) es) in *.
  set (after := Nat.max (partition_point (fun e => le_bytes e.(e_key) hi) es) first) in *. cbn zeta.
  assert (Hlen : length (slice es first (after - first)) = (after - first)%nat) by (apply length_slice; lia).
  destruct (check_entries_honest ix lo hi first 0 None (slice es first (after - first)) Hix)
    as (ps & Hm & Hpl & Hc); [|done| |done|].
  { intros j e Hj. unfold slice in Hj. apply lookup_take_Some in Hj as [Hj _].
    rewrite lookup_drop in Hj. by rewrite Nat.add_0_r. }
  { apply first_unordered_none in Hd. rewrite <- (take_drop first), <- (take_drop (after - first) (drop first _)) in Hd.
    apply StronglySorted_app_1_r, StronglySorted_app_1_l in Hd. exact Hd. }
  rewrite Nat.add_0_r, Hlen in Hm. fold es in Hm. rewrite Hm. cbn [mbind option_bind].
  destruct (left_verifies ix first lo) as (l & Hl & Hcl);
    [done|exact (Nat.le_trans _ _ _ (proj1 Hb) (proj2 Hb))|done|].
  destruct (right_verifies ix after hi) as (r & Hr & Hcr); [done|exact (proj2 Hb)|done|].
  rewrite Hl. cbn [mbind option_bind]. fold es in Hr. rewrite Hr. cbn [mbind option_bind].
  eexists. split; [done|]. cbn [c_entries]. split.
  - unfold verify. cbn [c_dimension c_size c_entries entry_proofs first_index left_boundary right_boundary].
    rewrite bool_decide_true by done. fold es. unfold index_len. fold es.
    rewrite Hpl, !Nat.eqb_refl. cbn [negb].
    destruct (Nat.eqb_spec (length es) 0) as [E0|E0].
    + assert (first = 0 /\ after = 0)%nat as [Ef Ea] by lia.
      assert (es = []) as Ees by (by apply nil_length_inv).
      assert (index_root ix = empty_root) as ->.
      { unfold index_root, root. destruct Hix as [_ ->]. fold es. by rewrite Ees. }
      rewrite digests_equal_refl. cbn [negb]. rewrite Hlen, Ef, Ea. cbn [negb Nat.sub Nat.eqb orb].
      assert (l = None) as -> by (rewrite Ef in Hl; by injection Hl).
      assert (r = None) as ->; [|done].
      rewrite Ea, E0 in Hr. by injection Hr.
    + fold es in Hc, Hcl, Hcr. rewrite Hc. cbn [mbind result_bind]. rewrite Hcl. cbn [mbind result_bind].
      rewrite Hlen. replace (first + (after - first))%nat with after by lia. exact Hcr.
  - symmetry. rewrite <- (take_drop first es) at 1. rewrite (take_drop_slice es first (after - first)).
    replace (first + (after - first))%nat with after by lia. by apply filter_range_slice.
Qed.

End Honest.

(** ** What an accepted answer shows *)

Section Sound.
Context `{DL : DigestLaws}.

Definition entry_input (e : Entry) : list byte :=
  x00 :: to_be_bytes 8 (Z.of_nat (length e.(e_key))) ++ e.(e_key) ++ to_be_bytes 8 e.(e_seq) ++ e.(record_link).

(** The strings hashed to build an index, and to check an entry with its proof. *)
Definition index_inputs (l : list Entry) : list (list byte) :=
  map entry_input l ++ mth_inputs (map Entry_leaf_hash l).
Definition entry_proof_inputs (ep : Entry * InclusionProof) : list (list byte) :=
  entry_input ep.1 :: climb_inputs ep.2 (Entry_leaf_hash ep.1).

(** Every entry an answer presents, with its proof. *)
Definition presented (p : CompletenessProof) : list (Entry * InclusionProof) :=
  zip p.(c_entries) p.(entry_proofs) ++ option_list p.(left_boundary) ++ option_list p.(right_boundary).
Definition answer_inputs (p : CompletenessProof) : list (list byte) :=
  concat (map entry_proof_inputs (presented p)).

Definition presented_ok (ep : Entry * InclusionProof) : Prop :=
  entry_ok ep.1 /\ Forall hash_ok (ip_path ep.2).
#[export] Instance presented_ok_dec ep : Decision (presented_ok ep).
Proof. unfold presented_ok. apply _. Defined.

Definition answer_ok (p : CompletenessProof) : Prop := Forall presented_ok (presented p).

#[export] Instance answer_ok_dec p : Decision (answer_ok p).
Proof. unfold answer_ok. apply _. Defined.

Lemma Entry_leaf_hash_digest e : Entry_leaf_hash e = digest (entry_input e).
Proof. unfold Entry_leaf_hash. rewrite finish_parts. cbn. by rewrite app_nil_r. Qed.

Lemma entry_input_inj a b : entry_ok a -> entry_ok b -> entry_input a = entry_input b -> a = b.
Proof.
  destruct a as [k1 s1 l1], b as [k2 s2 l2]. intros [Hk1 Hs1 Hl1] [Hk2 Hs2 Hl2] H.
  apply (app_inv_head [x00]) in H.
  cbn [e_key e_seq record_link] in *. unfold u64_ok, hash_ok in *.
  apply app_eq_same_length in H as [Hk H]; [|by rewrite !length_to_be_bytes].
  apply to_be_bytes_inj in Hk; [|done|done].
  apply app_eq_same_length in H as [-> H]; [|lia].
  apply app_eq_same_length in H as [Hs ->]; [|by rewrite !length_to_be_bytes].
  by apply to_be_bytes_inj in Hs as ->.
Qed.

(** One verified entry is the index's own entry at that position. *)
Lemma presented_entry l ep i :
  Forall entry_ok l -> presented_ok ep ->
  collision_free (index_inputs l) (entry_proof_inputs ep) ->
  verify_at ep.2 (Entry_leaf_hash ep.1) (mth (map Entry_leaf_hash l)) i (length l) = true ->
  l !! i = Some ep.1.
Proof.
  destruct ep as [e p]. intros Hl [He Hp] Hcf Hv. cbn in *.
  assert (Hlk : map Entry_leaf_hash l !! i = Some (Entry_leaf_hash e)).
  { eapply inclusion_sound; [apply entry_leaves_ok|exact Hp|apply Entry_leaf_hash_ok| |].
    - eapply collision_free_sub; [exact Hcf|unfold index_inputs; set_solver|unfold entry_proof_inputs; set_solver].
    - by rewrite length_map. }
  change (map ?f l) with (f <$> l) in Hlk. rewrite list_lookup_fmap in Hlk.
  destruct (l !! i) as [e'|] eqn:E; [|done]. injection Hlk as Hlk. f_equal.
  rewrite !Entry_leaf_hash_digest in Hlk. apply entry_input_inj; [|done|].
  - rewrite Forall_lookup in Hl. by eapply Hl.
  - eapply collision_free_elem; [exact Hcf| | |exact Hlk].
    + unfold index_inputs. apply elem_of_app. left. apply list_elem_of_fmap.
      exists e'. split; [done|]. by apply list_elem_of_lookup_2 in E.
    + unfold entry_proof_inputs. set_solver.
Qed.

(** What the loop over the entries establishes. *)
Lemma check_entries_ok lo hi rt size first k prev es ps :
  check_entries lo hi rt size first k prev es ps = Ok tt -> length es = length ps ->
  forall j ep, zip es ps !! j = Some ep ->
    verify_at ep.2 (Entry_leaf_hash ep.1) rt (first + k + j) size = true /\
    in_range lo hi ep.1.(e_key) = true.
Proof.
  revert k prev ps; induction es as [|e es IH]; intros k prev [|p ps] H Hl j ep Hj; try done.
  cbn [check_entries] in H. destruct (_ || _); [done|].
  destruct (negb (verify_at _ _ _ _ _)) eqn:Ev; [done|]. rewrite in_range_checks in H.
  destruct (negb (in_range _ _ _)) eqn:Er; [done|]. destruct (match prev with Some _ => _ | None => _ end); [done|].
  breflect. destruct j as [|j]; cbn in Hj.
  - injection Hj as <-. cbn. by rewrite Nat.add_0_r.
  - replace (first + k + S j)%nat with (first + S k + j)%nat by lia.
    eapply (IH (S k)); [exact H|by injection Hl|exact Hj].
Qed.

Lemma check_left_ok b first lo rt size :
  check_left b first lo rt size = Ok tt ->
  first = 0%nat \/ exists ep, b = Some ep /\
    verify_at ep.2 (Entry_leaf_hash ep.1) rt (first - 1) size = true /\ lt_bytes ep.1.(e_key) lo = true.
Proof.
  destruct b as [[e p]|], first as [|f]; cbn [check_left]; try done; [|by left].
  destruct (negb _); [done|]. destruct (negb (verify_at _ _ _ _ _)) eqn:Ev; [done|].
  destruct (negb (lt_bytes _ _)) eqn:El; [done|]. intros _. breflect. right. by exists (e, p).
Qed.

Lemma check_right_ok b after hi rt size :
  check_right b after hi rt size = Ok tt ->
  after = size \/ exists ep, b = Some ep /\
    verify_at ep.2 (Entry_leaf_hash ep.1) rt after size = true /\ le_bytes ep.1.(e_key) hi = false.
Proof.
  unfold check_right. destruct (Nat.eqb_spec after size); [by left|].
  destruct b as [[e p]|]; [|done]. destruct (negb _); [done|].
  destruct (negb (verify_at _ _ _ _ _)) eqn:Ev; [done|].
  destruct (le_bytes _ _) eqn:El; [done|]. intros _. breflect. right. by exists (e, p).
Qed.

Lemma collision_free_presented l p ep :
  collision_free (index_inputs l) (answer_inputs p) -> ep ∈ presented p ->
  collision_free (index_inputs l) (entry_proof_inputs ep).
Proof.
  intros Hcf Hep. eapply collision_free_sub; [exact Hcf|done|].
  intros x Hx. unfold answer_inputs. apply list_elem_of_In, in_concat.
  exists (entry_proof_inputs ep). split; [by apply in_map, list_elem_of_In|by apply list_elem_of_In].
Qed.

Lemma presented_slice l p :
  Forall entry_ok l -> answer_ok p -> collision_free (index_inputs l) (answer_inputs p) ->
  length p.(c_entries) = length p.(entry_proofs) ->
  (forall j ep, zip p.(c_entries) p.(entry_proofs) !! j = Some ep ->
     verify_at ep.2 (Entry_leaf_hash ep.1) (mth (map Entry_leaf_hash l)) (p.(first_index) + j) (length l) = true) ->
  forall j e, p.(c_entries) !! j = Some e -> l !! (p.(first_index) + j)%nat = Some e.
Proof.
  intros Hl Ha Hcf Hlen Hv j e Hj.
  destruct (lookup_lt_is_Some_2 p.(entry_proofs) j) as [pr Hpr].
  { rewrite <- Hlen. by apply lookup_lt_Some in Hj. }
  assert (Hz : zip p.(c_entries) p.(entry_proofs) !! j = Some (e, pr)).
  { by rewrite lookup_zip_with, Hj; cbn; rewrite Hpr. }
  assert (Hin : (e, pr) ∈ presented p).
  { unfold presented. apply elem_of_app. left. by apply list_elem_of_lookup_2 in Hz. }
  change e with (e, pr).1. apply presented_entry; [done| |by eapply collision_free_presented|by apply Hv].
  unfold answer_ok in Ha. rewrite Forall_forall in Ha. by apply Ha.
Qed.

(** The entries before a sorted position whose key is below [lo], and after one
    whose key is above [hi], are out of range too. *)
Lemma sorted_below l i e lo :
  StronglySorted pos_le l -> l !! i = Some e -> lt_bytes e.(e_key) lo = true ->
  Forall (fun x => lt_bytes x.(e_key) lo = true) (take (S i) l).
Proof.
  intros Hs Hi Hlt. apply Forall_lookup. intros j x Hj. apply lookup_take_Some in Hj as [Hj Hji].
  destruct (Nat.eq_dec j i) as [->|]; [by simplify_eq|].
  eapply le_lt_bytes_trans; [|exact Hlt]. apply pos_le_key. eapply sorted_lookup; [done|exact Hj|exact Hi|lia].
Qed.

Lemma sorted_above l i e hi :
  StronglySorted pos_le l -> l !! i = Some e -> le_bytes e.(e_key) hi = false ->
  Forall (fun x => le_bytes x.(e_key) hi = false) (drop i l).
Proof.
  intros Hs Hi Hgt. apply Forall_lookup. intros j x Hj. rewrite lookup_drop in Hj.
  destruct (Nat.eq_dec j 0) as [->|]; [rewrite Nat.add_0_r in Hj; by simplify_eq|].
  destruct (le_bytes x.(e_key) hi) eqn:E; [|done].
  rewrite <- Hgt. symmetry. eapply le_bytes_trans; [|exact E]. apply pos_le_key.
  eapply sorted_lookup; [done|exact Hi|exact Hj|lia].
Qed.

Lemma answer_complete ix p d lo hi :
  index_ok ix -> Forall entry_ok ix.(entries) -> answer_ok p ->
  collision_free (index_inputs ix.(entries)) (answer_inputs p) ->
  verify p d lo hi (index_root ix) (index_len ix) = Ok tt ->
  p.(c_entries) = entries_in lo hi ix.(entries).
Proof.
  intros [Hs Ht] Hl Ha Hcf Hv. unfold verify, index_root, root, index_len in Hv. rewrite Ht in Hv.
  set (l := ix.(entries)) in *. destruct (negb (bool_decide _)); [done|].
  destruct (negb (c_size p =? length l)%nat) eqn:Es; [done|].
  destruct (negb (length (c_entries p) =? _)%nat) eqn:El; [done|]. breflect. rewrite Es in Hv.
  destruct (Nat.eqb_spec (length l) 0) as [E0|E0].
  { apply nil_length_inv in E0. rewrite E0 in *. destruct (negb (digests_equal _ _)); [done|].
    destruct (length (c_entries p) =? 0)%nat eqn:En; [|done]. breflect. by apply nil_length_inv in En as ->. }
  apply result_bind_ok in Hv as ([] & Hc & Hv). apply result_bind_ok in Hv as ([] & Hlf & Hrt).
  pose proof (check_entries_ok _ _ _ _ _ _ _ _ _ Hc El) as Hz.
  assert (Hsl : forall j e, p.(c_entries) !! j = Some e -> l !! (p.(first_index) + j)%nat = Some e).
  { apply presented_slice; [done..|]. intros j ep Hj. destruct (Hz j ep Hj) as [Hz1 _].
    by rewrite Nat.add_0_r in Hz1. }
  assert (Hin : Forall (fun e => in_range lo hi e.(e_key) = true) p.(c_entries)).
  { apply Forall_lookup. intros j e Hj. destruct (lookup_lt_is_Some_2 p.(entry_proofs) j) as [pr Hpr].
    { rewrite <- El. by apply lookup_lt_Some in Hj. }
    apply (Hz j (e, pr)). by rewrite lookup_zip_with, Hj; cbn; rewrite Hpr. }
  assert (Hedge : forall ep i, ep ∈ presented p ->
     verify_at ep.2 (Entry_leaf_hash ep.1) (mth (map Entry_leaf_hash l)) i (length l) = true ->
     l !! i = Some ep.1).
  { intros ep i Hep. apply presented_entry; [done| |by eapply collision_free_presented].
    unfold answer_ok in Ha. rewrite Forall_forall in Ha. by apply Ha. }
  set (n := length p.(c_entries)) in *. set (f := p.(first_index)) in *.
  assert (Hbef : Forall (fun e => lt_bytes e.(e_key) lo = true) (take f l) /\ (f <= length l)%nat).
  { apply check_left_ok in Hlf as [->|(ep & Eb & Hve & Hlt)]; [split; [constructor|lia]|].
    assert (l !! (f - 1)%nat = Some ep.1) as Hlk.
    { apply Hedge; [|done]. unfold presented. rewrite Eb. set_solver. }
    pose proof (lookup_lt_Some _ _ _ Hlk). split; [|lia].
    pose proof (sorted_below _ _ _ _ Hs Hlk Hlt) as Hall.
    replace (take f l) with (take f (take (S (f - 1)) l)) by (rewrite take_take; f_equal; lia).
    by apply Forall_take. }
  assert (Haft : Forall (fun e => le_bytes e.(e_key) hi = false) (drop (f + n) l)).
  { apply check_right_ok in Hrt as [->|(ep & Eb & Hve & Hlt)]; [by rewrite drop_ge|].
    eapply sorted_above; [done| |exact Hlt]. apply Hedge; [|done]. unfold presented. rewrite Eb. set_solver. }
  assert (Heq : p.(c_entries) = slice l f n).
  { apply list_eq. intros j. unfold slice. destruct (Nat.lt_ge_cases j n) as [Hj|Hj].
    - destruct (lookup_lt_is_Some_2 p.(c_entries) j Hj) as [e He]. rewrite He, lookup_take_lt, lookup_drop by done.
      by rewrite (Hsl j e He).
    - rewrite lookup_ge_None_2 by done. rewrite lookup_take_ge by done. done. }
  rewrite <- (take_drop f l), (take_drop_slice l f n), <- Heq. symmetry. apply filter_range_slice; [apply Hbef|done|done].
Qed.

End Sound.

(** ** Indexes built from records *)

Section Build.
Context `{DL : DigestLaws}.

Definition entry_of (d : Dimension) (rl : Record_ * Hash) : Entry :=
  {| e_key := key_of d rl.1; e_seq := rl.1.(seq); record_link := rl.2 |}.

Lemma build_entries d rs : (build d rs).(entries) = sort_entries (map (entry_of d) rs).
Proof. unfold build. cbn. f_equal. apply map_ext. by intros []. Qed.

Lemma build_len d rs : index_len (build d rs) = length rs.
Proof. unfold index_len. by rewrite build_entries, sort_entries_perm, length_map. Qed.

Lemma key_len_ok d r : record_ok r -> u64_ok (Z.of_nat (length (key_of d r))).
Proof.
  intros Hr. unfold u64_ok. destruct d; cbn [key_of]; rewrite ?length_to_be_bytes; try (cbn; lia).
  - destruct (token_ok_inv r.(agent_id)) as [Hl _]; [exact uri_char_ascii|apply Hr|]. cbn in Hl. lia.
  - destruct (token_ok_inv r.(run_id)) as [Hl _]; [exact segment_char_ascii|apply Hr|]. cbn in Hl. lia.
Qed.

Lemma entry_of_ok d rl : record_ok rl.1 -> hash_ok rl.2 -> entry_ok (entry_of d rl).
Proof. intros Hr Hh. split; [by apply key_len_ok|apply Hr|exact Hh]. Qed.

Lemma build_entries_ok d rs :
  Forall (fun rl => record_ok rl.1 /\ hash_ok rl.2) rs -> Forall entry_ok (build d rs).(entries).
Proof.
  intros H. rewrite build_entries, sort_entries_perm. apply Forall_fmap.
  eapply Forall_impl; [exact H|]. intros rl [? ?]. by apply entry_of_ok.
Qed.

(** Distinct sequence numbers leave no duplicate position. *)
Lemma build_no_duplicate d rs :
  NoDup (map (fun rl => rl.1.(seq)) rs) -> first_duplicate_position (build d rs) = None.
Proof.
  intros Hnd. unfold first_duplicate_position. apply first_unordered_none. rewrite build_entries.
  assert (Hs : NoDup (map e_seq (sort_entries (map (entry_of d) rs)))).
  { rewrite sort_entries_perm, map_map. exact Hnd. }
  pose proof (sort_entries_sorted (map (entry_of d) rs)) as Hsort.
  induction Hsort as [|a l Hl IH Ha]; [constructor|].
  cbn in Hs. apply NoDup_cons in Hs as [Hn Hs]. constructor; [by apply IH|].
  apply Forall_forall. intros b Hb. rewrite Forall_forall in Ha. specialize (Ha b Hb).
  destruct (pos_lt a b) eqn:E; [done|]. apply pos_lt_total in E as [_ E]; [|exact Ha].
  exfalso. apply Hn. rewrite <- E. by apply (list_elem_of_fmap_2 e_seq).
Qed.

(** The in-range entries of the index name exactly the in-range records. *)
Lemma build_range_links d rs lo hi :
  map record_link (entries_in lo hi (build d rs).(entries)) ≡ₚ
  map snd (filter (fun rl => in_range lo hi (key_of d rl.1) = true) rs).
Proof.
  rewrite build_entries, sort_entries_perm. induction rs as [|rl rs IH]; [done|]. cbn [map].
  rewrite !filter_cons. cbn [e_key entry_of].
  destruct (decide (in_range lo hi (key_of d rl.1) = true)); cbn; by rewrite IH.
Qed.

End Build.

(** ** Keys *)

(** [u64]'s [Display]: decimal digits, at most twenty. *)
Fixpoint decimal_fuel (f : nat) (n : Z) : list byte :=
  match f with
  | O => []
  | S f' => if n <? 10 then [u8 (48 + n)] else decimal_fuel f' (n / 10) ++ [u8 (48 + n mod 10)]
  end.
Definition decimal (n : Z) : list byte := decimal_fuel 20 n.

Lemma parse_digits_app a b acc :
  parse_digits (a ++ b) acc = v ← parse_digits a acc; parse_digits b v.
Proof.
  revert acc; induction a as [|x a IH]; intros acc; [done|]. cbn [app parse_digits].
  destruct (_ && _); [|done]. destruct (u64_max <? _); [done|]. apply IH.
Qed.

Lemma parse_digit d acc :
  0 <= d < 10 -> acc * 10 + d <= u64_max -> parse_digits [u8 (48 + d)] acc = Some (acc * 10 + d).
Proof.
  intros Hd Hm. cbn [parse_digits]. rewrite u8v_u8_small by lia.
  destruct (Z.leb_spec 48 (48 + d)); [|lia]. destruct (Z.leb_spec (48 + d) 57); [|lia]. cbn [andb].
  replace (48 + d - 48) with d by lia. destruct (Z.ltb_spec u64_max (acc * 10 + d)); [lia|done].
Qed.

Lemma parse_decimal f n :
  0 <= n < 10 ^ Z.of_nat f -> n <= u64_max -> (0 < f)%nat -> parse_digits (decimal_fuel f n) 0 = Some n.
Proof.
  revert n; induction f as [|f IH]; intros n Hn Hm Hf; [lia|]. cbn [decimal_fuel].
  destruct (Z.ltb_spec n 10) as [Hlt|Hge]; [by rewrite parse_digit by lia|].
  rewrite Nat2Z.inj_succ, Z.pow_succ_r in Hn by lia.
  pose proof (Z.div_mod n 10 ltac:(lia)) as E. pose proof (Z.mod_pos_bound n 10 ltac:(lia)).
  assert (0 < f)%nat.
  { destruct f; [|lia]. cbn in Hn. lia. }
  rewrite parse_digits_app, IH by lia.
  cbn [mbind option_bind]. rewrite parse_digit by lia. f_equal. lia.
Qed.

Lemma decimal_head f n :
  (0 < f)%nat -> 0 <= n -> exists b l, decimal_fuel f n = b :: l /\ 48 <= u8v b <= 57.
Proof.
  revert n; induction f as [|f IH]; intros n Hf Hn; [lia|]. cbn [decimal_fuel].
  destruct (Z.ltb_spec n 10); [eexists _, []; split; [done|]; rewrite u8v_u8_small; lia|].
  destruct f as [|f].
  { eexists _, []. split; [done|]. pose proof (Z.mod_pos_bound n 10 ltac:(lia)). rewrite u8v_u8_small; lia. }
  destruct (IH (n / 10)) as (b & l & -> & Hb); [lia|by apply Z.div_pos|]. by eexists _, _.
Qed.

Lemma parse_u64_decimal n : u64_ok n -> parse_u64 (decimal n) = Some n.
Proof.
  unfold u64_ok. intros Hn. unfold parse_u64, decimal.
  destruct (decimal_head 20 n) as (b & l & E & Hb); [lia|lia|]. rewrite E.
  destruct (Z.eqb_spec (u8v b) 43); [lia|]. cbn [length Nat.eqb]. rewrite <- E.
  apply parse_decimal; [lia|unfold u64_max; lia|lia].
Qed.

Lemma radix16_digit d : 0 <= d < 16 ->
  radix16 (hex_digit d) = Some d /\ is_ascii_hexdigit (hex_digit d) = true.
Proof.
  intros Hd. assert (d ∈ seqZ 0 16) as Hin by (apply elem_of_seqZ; lia).
  cut (Forall (fun d => radix16 (hex_digit d) = Some d /\ is_ascii_hexdigit (hex_digit d) = true) (seqZ 0 16)).
  - rewrite Forall_forall. intros H. by apply H.
  - by_evaluation.
Qed.

Lemma id_from_hex_to_hex l :
  id_from_hex (length l) (Hash_to_hex l) = Some l /\ forallb is_ascii_hexdigit (Hash_to_hex l) = true.
Proof.
  induction l as [|b l [IH1 IH2]]; [done|]. cbn [length].
  change (Hash_to_hex (b :: l)) with
    (hex_digit (Z.shiftr (u8v b) 4) :: hex_digit (Z.land (u8v b) 15) :: Hash_to_hex l).
  destruct (hex_pair b) as (Hb & Hhi & Hlo). cbn [id_from_hex forallb].
  destruct (radix16_digit _ Hhi) as [-> ->]. destruct (radix16_digit _ Hlo) as [-> ->]. cbn.
  by rewrite IH1, IH2, Hb.
Qed.

(** The key a reader's literal gives is the record's own key. *)
Lemma key_from_text_agrees r :
  record_ok r ->
  key_from_text DRecordId (Hash_to_hex (to_be_bytes 16 r.(r_id))) = Some (key_of DRecordId r) /\
  key_from_text DRecordedAt (decimal r.(recorded_at)) = Some (key_of DRecordedAt r) /\
  key_from_text DAgentId r.(agent_id).(as_str) = Some (key_of DAgentId r) /\
  key_from_text DRunId r.(run_id).(as_str) = Some (key_of DRunId r) /\
  key_from_text DEventType (lit (EventType_as_str r.(event_type))) = Some (key_of DEventType r).
Proof.
  intros Hr. repeat split.
  - cbn [key_from_text key_of]. set (l := to_be_bytes 16 r.(r_id)).
    assert (Hl : length l = 16%nat) by apply length_to_be_bytes. rewrite length_to_hex.
    destruct (id_from_hex_to_hex l) as [H1 H2]. rewrite H2. rewrite Hl in *. exact H1.
  - cbn [key_from_text key_of]. rewrite parse_u64_decimal by apply Hr. done.
  - cbn [key_from_text key_of]. by destruct r.(event_type).
Qed.

Lemma key_from_i64_agrees r :
  record_ok r ->
  (i64_ok r.(recorded_at) -> key_from_i64 DRecordedAt r.(recorded_at) = Some (key_of DRecordedAt r)) /\
  key_from_i64 DEventType (event_code r.(event_type)) = Some (key_of DEventType r).
Proof.
  intros Hr. split; [intros _; cbn|cbn [key_of]; by destruct r.(event_type)].
  destruct (Z.leb_spec 0 r.(recorded_at)); [done|]. pose proof (ok_recorded _ Hr) as H'. unfold u64_ok in H'. lia.
Qed.

(** The order of keys is the order of values. *)
Lemma key_order r1 r2 :
  record_ok r1 -> record_ok r2 ->
  cmp_bytes (key_of DRecordId r1) (key_of DRecordId r2) = (r1.(r_id) ?= r2.(r_id)) /\
  cmp_bytes (key_of DRecordedAt r1) (key_of DRecordedAt r2) = (r1.(recorded_at) ?= r2.(recorded_at)) /\
  cmp_bytes (key_of DEventType r1) (key_of DEventType r2) =
    (event_code r1.(event_type) ?= event_code r2.(event_type)).
Proof.
  intros H1 H2. repeat split; cbn [key_of].
  - apply cmp_to_be_bytes; [apply H1|apply H2].
  - apply cmp_to_be_bytes; [apply H1|apply H2].
  - by destruct r1.(event_type), r2.(event_type).
Qed.

(** ** The properties *)

(** Nothing is missing. When the verifier accepts an answer for the range
    [lo .. hi] against the root and the size of the index of [rs], the answer's
    entries are exactly the in-range part of that index, in order, and their
    links are exactly the links of the records whose key is in range: no such
    record is left out and nothing else is added, unless two of the strings
    hashed collide. *)
Theorem range_answer_is_whole `{DL : DigestLaws} (d : Dimension) (rs : list (Record_ * Hash))
    (p : CompletenessProof) (lo hi : list byte) :
  Forall (fun rl => record_ok rl.1 /\ hash_ok rl.2) rs -> answer_ok p ->
  collision_free (index_inputs (build d rs).(entries)) (answer_inputs p) ->
  verify p d lo hi (index_root (build d rs)) (length rs) = Ok tt ->
  p.(c_entries) = entries_in lo hi (build d rs).(entries) /\
  map record_link p.(c_entries) ≡ₚ map snd (filter (fun rl => in_range lo hi (key_of d rl.1) = true) rs).
Proof.
  intros Hrs Ha Hcf Hv. rewrite <- (build_len d) in Hv.
  assert (E : p.(c_entries) = entries_in lo hi (build d rs).(entries)).
  { eapply answer_complete; [apply build_ok|by apply build_entries_ok|exact Ha|exact Hcf|exact Hv]. }
  split; [exact E|]. rewrite E. apply build_range_links.
Qed.

(** Three records of a segment, and the answer to "the second and the third". *)
Definition sample_rows : list (Record_ * Hash) :=
  [(sample_record 9 3000 1 "agent://acme/a" "run-1" ToolCall, repeat x01 48);
   (sample_record 5 1000 2 "agent://acme/b" "run-1" ModelCall, repeat x02 48);
   (sample_record 7 2000 3 "agent://acme/a" "run-2" ToolCall, repeat x03 48)].

Definition sample_answer : CompletenessProof :=
  default (MkCompleteness DRecordId 0 0 [] [] None None)
    (range (build DRecordedAt sample_rows) (time_key 1500) (time_key 2500)).

Lemma range_answer_is_whole_witness :
  map record_link sample_answer.(c_entries) ≡ₚ [repeat x03 48] /\ length sample_answer.(c_entries) = 1%nat.
Proof.
  destruct (range_answer_is_whole DRecordedAt sample_rows sample_answer (time_key 1500) (time_key 2500))
    as [H1 H2].
  - by_evaluation.
  - by_evaluation.
  - by_evaluation.
  - vm_compute. reflexivity.
  - split; [exact H2|]. vm_compute. reflexivity.
Defined.

(** Every range is answered. On a segment whose records have distinct
    sequence numbers, no index has a duplicate position, and a range query in any
    dimension, reversed or empty ranges included, returns without a panic an
    answer that its own verifier accepts. *)
Theorem range_query_answers `{DL : DigestLaws} (d : Dimension) (rs : list (Record_ * Hash)) (lo hi : list byte) :
  NoDup (map (fun rl => rl.1.(seq)) rs) ->
  first_duplicate_position (build d rs) = None /\
  exists p, range (build d rs) lo hi = Some p /\
    verify p d lo hi (index_root (build d rs)) (length rs) = Ok tt /\
    p.(c_entries) = entries_in lo hi (build d rs).(entries).
Proof.
  intros Hnd. pose proof (build_no_duplicate d rs Hnd) as Hd. split; [exact Hd|].
  rewrite <- (build_len d). apply (range_verifies (build d rs) lo hi (build_ok d rs) Hd).
Qed.

Lemma range_query_answers_witness :
  exists p, range (build DAgentId sample_rows) (lit "agent://acme/a") (lit "agent://acme/a") = Some p /\
    verify p DAgentId (lit "agent://acme/a") (lit "agent://acme/a")
      (index_root (build DAgentId sample_rows)) 3 = Ok tt.
Proof.
  destruct (range_query_answers DAgentId sample_rows (lit "agent://acme/a") (lit "agent://acme/a"))
    as (_ & p & Hp & Hv & _).
  - by_evaluation.
  - exists p. split; [exact Hp|exact Hv].
Defined.

(** One key derivation. For a well-formed record, the key a reader's
    rendering of a field gives (the identifier in hexadecimal, the time in
    decimal, the names as they are) is the record's own index key, in every
    dimension, and keys of the fixed-width dimensions order as their values do. *)
Theorem reader_keys_are_index_keys (r1 r2 : Record_) :
  record_ok r1 -> record_ok r2 ->
  (key_from_text DRecordId (Hash_to_hex (to_be_bytes 16 r1.(r_id))) = Some (key_of DRecordId r1) /\
   key_from_text DRecordedAt (decimal r1.(recorded_at)) = Some (key_of DRecordedAt r1) /\
   key_from_text DAgentId r1.(agent_id).(as_str) = Some (key_of DAgentId r1) /\
   key_from_text DRunId r1.(run_id).(as_str) = Some (key_of DRunId r1) /\
   key_from_text DEventType (lit (EventType_as_str r1.(event_type))) = Some (key_of DEventType r1)) /\
  cmp_bytes (key_of DRecordId r1) (key_of DRecordId r2) = (r1.(r_id) ?= r2.(r_id)) /\
  cmp_bytes (key_of DRecordedAt r1) (key_of DRecordedAt r2) = (r1.(recorded_at) ?= r2.(recorded_at)).
Proof.
  intros H1 H2. split; [by apply key_from_text_agrees|]. destruct (key_order r1 r2 H1 H2) as (? & ? & _). done.
Qed.

Lemma reader_keys_are_index_keys_witness :
  let r := sample_record 5 1000 1 "agent://acme/bot" "run-1" ToolCall in
  key_from_text DEventType (lit "tool_call") = Some (key_of DEventType r) /\
  key_from_text DRecordedAt (lit "1000") = Some (key_of DRecordedAt r).
Proof.
  cbn zeta.
  destruct (reader_keys_are_index_keys (sample_record 5 1000 1 "agent://acme/bot" "run-1" ToolCall)
              (sample_record 5 1000 1 "agent://acme/bot" "run-1" ToolCall))
    as ((_ & H2 & _ & _ & H5) & _).
  - by_evaluation.
  - by_evaluation.
  - split; [exact H5|exact H2].
Defined.
