(* ===== verification/Segment.v ===== *)
(** * Sealed segments and the composite proof ([trailryx-index/src/segment.rs])

    A segment's manifest and its root, sealing, the shard and store trees over
    the manifests, and the verifier of a store-wide answer. *)

From S2P Require Import Prelude Bytes Ids Record Digest Sha384 Merkle Completeness.

(** ** The manifest *)

Record SegmentManifest := MkManifest {
  format_version : Z;
  m_segment : SegmentId;
  m_shard : ShardIx;
  m_records : Z;
  history_root : Hash;
  index_roots : list (Dimension * Hash);
  chain_before : Hash;
  chain_after : Hash;
  first_recorded_at : Timestamp;
  last_recorded_at : Timestamp;
  m_algorithms : Algorithms;
}.

#[export] Instance SegmentManifest_eq_dec : EqDecision SegmentManifest.
Proof. solve_decision. Defined.

(** What the Rust types guarantee of a manifest. *)
Record manifest_ok (m : SegmentManifest) : Prop := {
  ok_format : u16_ok m.(format_version);
  ok_msegment : u64_ok m.(m_segment);
  ok_mshard : u16_ok m.(m_shard);
  ok_mrecords : u64_ok m.(m_records);
  ok_history : hash_ok m.(history_root);
  ok_roots : Forall (fun dr => hash_ok dr.2) m.(index_roots);
  ok_nroots : u64_ok (Z.of_nat (length m.(index_roots)));
  ok_before : hash_ok m.(chain_before);
  ok_after : hash_ok m.(chain_after);
  ok_first : u64_ok m.(first_recorded_at);
  ok_last : u64_ok m.(last_recorded_at);
}.

#[export] Instance manifest_ok_dec m : Decision (manifest_ok m).
Proof. decide_record. Defined.

Definition algorithm_code (a : Algorithms) : list byte :=
  [u8 match a.(a_hash) with Sha384_alg => 1 end;
   u8 match a.(a_signature) with Es256 => 1 | MlDsa65 => 2 | SlhDsa => 3 | Es384 => 4 end;
   u8 match a.(a_kem) with X25519MlKem768 => 1 end].

Definition MANIFEST_DOMAIN : list byte := lit "trailryx/segment-manifest/v1" ++ [x00].
Definition STORE_LEAF_DOMAIN : list byte := lit "trailryx/store-leaf/v1" ++ [x00].

(** The [update] calls of the loop over the index roots. *)
Definition index_root_parts (dr : Dimension * Hash) : list (list byte) :=
  let name := lit (Dimension_as_str dr.1) in
  [to_be_bytes 8 (Z.of_nat (length name)); name; dr.2].

(** The [update] calls of [SegmentManifest::root], in order. *)
Definition manifest_parts (m : SegmentManifest) : list (list byte) :=
  [MANIFEST_DOMAIN; to_be_bytes 2 m.(format_version); to_be_bytes 8 m.(m_segment);
   to_be_bytes 2 m.(m_shard); to_be_bytes 8 m.(m_records); m.(history_root);
   m.(chain_before); m.(chain_after); to_be_bytes 8 (Z.of_nat (length m.(index_roots)))]
  ++ concat (map index_root_parts m.(index_roots))
  ++ [to_be_bytes 8 m.(first_recorded_at); to_be_bytes 8 m.(last_recorded_at);
      algorithm_code m.(m_algorithms)].

Definition manifest_index_root (m : SegmentManifest) (d : Dimension) : option Hash :=
  snd <$> head (filter (fun dr => dr.1 = d) m.(index_roots)).

Inductive SealError :=
  | DuplicateKey (dim : Dimension) (at_seq : Z)
  | MixedAlgorithms.

#[export] Instance SealError_eq_dec : EqDecision SealError.
Proof. solve_decision. Defined.

Definition list_min (l : list Z) : option Z :=
  match l with [] => None | x :: l' => Some (foldl Z.min x l') end.
Definition list_max (l : list Z) : option Z :=
  match l with [] => None | x :: l' => Some (foldl Z.max x l') end.

Section Segments.
Context `{D : Digest}.

Definition manifest_root (m : SegmentManifest) : Hash := hash_parts (manifest_parts m).

(** ** The sealed segment *)

Record Segment := MkSegment {
  manifest : SegmentManifest;
  indexes : list SortedIndex;
  history : MerkleTree;
  records : list Record_;
  by_link : gmap (list byte) nat;
}.

#[export] Instance MerkleTree_eq_dec : EqDecision MerkleTree.
Proof. solve_decision. Defined.
#[export] Instance SortedIndex_eq_dec : EqDecision SortedIndex.
Proof. solve_decision. Defined.
#[export] Instance Segment_eq_dec : EqDecision Segment.
Proof. solve_decision. Defined.

(** The loop over the indexes: the first that holds a duplicate position. *)
Fixpoint check_duplicates (l : list SortedIndex) : result SealError unit :=
  match l with
  | [] => Ok tt
  | idx :: l' =>
      match first_duplicate_position idx with
      | Some s => Err (DuplicateKey idx.(dimension) s)
      | None => check_duplicates l'
      end
  end.

(** [collect] into a [BTreeMap]: a later occurrence of a key replaces an earlier one. *)
Definition link_map (links : list Hash) : gmap (list byte) nat :=
  fst (foldl (fun '(m, i) link => (<[link := i]> m, S i)) (∅, O) links).

Definition seal (segment : SegmentId) (shard_ : ShardIx) (before : Hash)
    (rs : list (Record_ * Hash)) : result SealError Segment :=
  if match rs with
     | (first, _) :: _ => existsb (fun rl => negb (bool_decide (rl.1.(algorithms) = first.(algorithms)))) rs
     | [] => false
     end
  then Err MixedAlgorithms
  else
    let hist := from_leaf_hashes (map (fun rl => leaf_hash rl.2) rs) in
    let idxs := map (fun d => build d rs) Dimension_ALL in
    _ ← check_duplicates idxs;
    let times := map (fun rl => rl.1.(recorded_at)) rs in
    Ok {|
      manifest := {|
        format_version := 1;
        m_segment := segment;
        m_shard := shard_;
        m_records := as_u64 (Z.of_nat (length rs));
        history_root := root hist;
        index_roots := map (fun i => (i.(dimension), index_root i)) idxs;
        chain_before := before;
        chain_after := default before (snd <$> last rs);
        first_recorded_at := default 0 (list_min times);
        last_recorded_at := default 0 (list_max times);
        m_algorithms := default Algorithms_default ((fun rl => rl.1.(algorithms)) <$> head rs);
      |};
      indexes := idxs;
      history := hist;
      records := map fst rs;
      by_link := link_map (map snd rs);
    |}.

Definition seg_root (s : Segment) : Hash := manifest_root s.(manifest).

Definition record_by_link (s : Segment) (link : Hash) : option Record_ :=
  i ← s.(by_link) !! link; s.(records) !! i.

(** [links]: every link written at its position into a vector of zero hashes. *)
Definition links (s : Segment) : list Hash :=
  map_fold (fun link i out => <[i := link]> out) (repeat Hash_ZERO (length s.(records))) s.(by_link).

Definition seg_index (s : Segment) (d : Dimension) : option SortedIndex :=
  head (filter (fun i => i.(dimension) = d) s.(indexes)).

(** The inner option is the panic of [SortedIndex::range]. *)
Definition seg_range (s : Segment) (d : Dimension) (lo hi : list byte) : option (option CompletenessProof) :=
  (fun i => range i lo hi) <$> seg_index s d.

Record TimeSpan := MkSpan {
  ts_min : Entry; min_proof : InclusionProof; ts_max : Entry; max_proof : InclusionProof }.

Definition time_span (s : Segment) : option TimeSpan :=
  idx ← seg_index s DRecordedAt;
  if (index_len idx =? 0)%nat then None
  else
    let last := (index_len idx - 1)%nat in
    mn ← index_entry idx 0; mnp ← index_inclusion idx 0;
    mx ← index_entry idx last; mxp ← index_inclusion idx last;
    Some (MkSpan mn mnp mx mxp).

(** ** The shard and store trees *)

Record ShardTree := MkShard { st_shard : ShardIx; st_manifests : list SegmentManifest; st_tree : MerkleTree }.

Definition shard_new (ix : ShardIx) : ShardTree :=
  {| st_shard := ix; st_manifests := []; st_tree := tree_new |}.

Definition shard_push (t : ShardTree) (m : SegmentManifest) : ShardTree :=
  {| st_shard := t.(st_shard);
     st_tree := fst (push_leaf t.(st_tree) (leaf_hash (manifest_root m)));
     st_manifests := t.(st_manifests) ++ [m] |}.

Definition shard_root_of (t : ShardTree) : Hash := root t.(st_tree).
Definition shard_len (t : ShardTree) : nat := length t.(st_manifests).
Definition shard_inclusion (t : ShardTree) (i : nat) : option InclusionProof :=
  inclusion_proof t.(st_tree) i (tree_len t.(st_tree)).

Definition store_leaf_digest (ix : ShardIx) (segments : nat) (rt : Hash) : Hash :=
  hash_parts [STORE_LEAF_DOMAIN; to_be_bytes 2 ix; to_be_bytes 8 (Z.of_nat segments); rt].
Definition shard_leaf (ix : ShardIx) (segments : nat) (rt : Hash) : Hash :=
  leaf_hash (store_leaf_digest ix segments rt).

Record StoreTree := MkStore { store_shards : list (ShardIx * nat * Hash); store_tree : MerkleTree }.

Definition from_shards (shards : list ShardTree) : StoreTree :=
  let es := map (fun s => (s.(st_shard), shard_len s, shard_root_of s)) shards in
  {| store_shards := es;
     store_tree := from_leaf_hashes (map (fun '(ix, n, r) => shard_leaf ix n r) es) |}.

Definition store_root (t : StoreTree) : Hash := root t.(store_tree).
Definition store_inclusion (t : StoreTree) (i : nat) : option InclusionProof :=
  inclusion_proof t.(store_tree) i (tree_len t.(store_tree)).

(** ** The composite proof *)

Inductive SegmentContribution :=
  | Answered (mf : SegmentManifest) (mp : InclusionProof) (proof : CompletenessProof)
  | ExcludedByTime (mf : SegmentManifest) (mp : InclusionProof) (span : option TimeSpan).

Definition sc_manifest (c : SegmentContribution) : SegmentManifest :=
  match c with Answered m _ _ | ExcludedByTime m _ _ => m end.
Definition sc_manifest_proof (c : SegmentContribution) : InclusionProof :=
  match c with Answered _ p _ | ExcludedByTime _ p _ => p end.
Definition is_excluded (c : SegmentContribution) : bool :=
  match c with ExcludedByTime _ _ _ => true | Answered _ _ _ => false end.

Record ShardContribution := MkContribution {
  sh_shard : ShardIx;
  sh_root : Hash;
  segments_in_shard : nat;
  shard_proof : InclusionProof;
  sh_segments : list SegmentContribution;
}.

Record CompositeProof := MkComposite { cmp_dimension : Dimension; cmp_shards : list ShardContribution }.

Inductive CompositeFailure :=
  | ShardMissing (expected got : nat)
  | ShardNotInStore (s : ShardIx)
  | SegmentsMissing (s : ShardIx) (expected got : nat)
  | SegmentNotInShard (s : ShardIx) (at_ : nat)
  | ManifestShardMismatch (s : ShardIx) (at_ : nat)
  | ExclusionNotJustified (s : ShardIx) (at_ : nat)
  | ExclusionNotCheckable (d : Dimension)
  | ExclusionUnproven (s : ShardIx) (at_ : nat)
  | SegmentProof (s : ShardIx) (at_ : nat) (why : ProofFailure)
  | IndexRootMissing (s : ShardIx) (at_ : nat).

Definition composite_matched (p : CompositeProof) : nat :=
  sum_list (map (fun c => match c with Answered _ _ proof => matched proof | ExcludedByTime _ _ _ => O end)
             (concat (map sh_segments p.(cmp_shards)))).

(** [usize::try_from(manifest.records)] on a 64-bit target. *)
Definition records_size (m : SegmentManifest) : nat := Z.to_nat m.(m_records).

Definition check_span (ix : ShardIx) (j : nat) (m : SegmentManifest) (span : option TimeSpan)
    (time_root : Hash) (lo hi : list byte) : result CompositeFailure unit :=
  let size := records_size m in
  match span with
  | None =>
      if negb (m.(m_records) =? 0) || negb (digests_equal time_root empty_root)
      then Err (ExclusionUnproven ix j) else Ok tt
  | Some s =>
      let bounded :=
        verify_at s.(min_proof) (Entry_leaf_hash s.(ts_min)) time_root 0 size
        && verify_at s.(max_proof) (Entry_leaf_hash s.(ts_max)) time_root (size - 1) size in
      if negb bounded then Err (ExclusionUnproven ix j)
      else
        let outside := lt_bytes s.(ts_max).(e_key) lo || lt_bytes hi s.(ts_min).(e_key) in
        if negb outside then Err (ExclusionNotJustified ix j) else Ok tt
  end.

(** The body of the loop over a shard's segments. *)
Definition check_contribution (d : Dimension) (lo hi : list byte) (sc : ShardContribution) (j : nat)
    (c : SegmentContribution) : result CompositeFailure unit :=
  let m := sc_manifest c in
  if negb (m.(m_shard) =? sc.(sh_shard)) then Err (ManifestShardMismatch sc.(sh_shard) j)
  else if negb (verify_at (sc_manifest_proof c) (leaf_hash (manifest_root m)) sc.(sh_root) j
                  sc.(segments_in_shard))
  then Err (SegmentNotInShard sc.(sh_shard) j)
  else
    match c with
    | ExcludedByTime mf _ span =>
        time_root ← ok_or (manifest_index_root mf DRecordedAt) (IndexRootMissing sc.(sh_shard) j);
        check_span sc.(sh_shard) j mf span time_root lo hi
    | Answered _ _ proof =>
        match manifest_index_root m d with
        | None => Err (IndexRootMissing sc.(sh_shard) j)
        | Some index_root_ =>
            map_err (SegmentProof sc.(sh_shard) j) (verify proof d lo hi index_root_ (records_size m))
        end
    end.

Fixpoint check_segments (d : Dimension) (lo hi : list byte) (sc : ShardContribution) (j : nat)
    (l : list SegmentContribution) : result CompositeFailure unit :=
  match l with
  | [] => Ok tt
  | c :: l' => _ ← check_contribution d lo hi sc j c; check_segments d lo hi sc (S j) l'
  end.

Fixpoint check_shards (d : Dimension) (lo hi : list byte) (rt : Hash) (n i : nat)
    (l : list ShardContribution) : result CompositeFailure unit :=
  match l with
  | [] => Ok tt
  | sc :: l' =>
      if negb (verify_at sc.(shard_proof) (shard_leaf sc.(sh_shard) sc.(segments_in_shard) sc.(sh_root)) rt i n)
      then Err (ShardNotInStore sc.(sh_shard))
      else if negb (length sc.(sh_segments) =? sc.(segments_in_shard))%nat
      then Err (SegmentsMissing sc.(sh_shard) sc.(segments_in_shard) (length sc.(sh_segments)))
      else
        _ ← check_segments d lo hi sc 0 sc.(sh_segments);
        check_shards d lo hi rt n (S i) l'
  end.

Definition composite_verify (p : CompositeProof) (d : Dimension) (lo hi : list byte)
    (store_root_ : Hash) (shards_in_store : nat) : result CompositeFailure unit :=
  if negb (length p.(cmp_shards) =? shards_in_store)%nat
  then Err (ShardMissing shards_in_store (length p.(cmp_shards)))
  else if negb (bool_decide (d = DRecordedAt))
          && existsb is_excluded (concat (map sh_segments p.(cmp_shards)))
  then Err (ExclusionNotCheckable d)
  else check_shards d lo hi store_root_ shards_in_store 0 p.(cmp_shards).

End Segments.

(** ** What a manifest's bytes determine *)

Definition manifest_input (m : SegmentManifest) : list byte := concat (manifest_parts m).

Definition store_leaf_input (leaf : ShardIx * nat * Hash) : list byte :=
  let '(ix, n, rt) := leaf in
  STORE_LEAF_DOMAIN ++ to_be_bytes 2 ix ++ to_be_bytes 8 (Z.of_nat n) ++ rt.

Definition store_leaf_ok (leaf : ShardIx * nat * Hash) : Prop :=
  let '(ix, n, rt) := leaf in u16_ok ix /\ u64_ok (Z.of_nat n) /\ hash_ok rt.

#[export] Instance store_leaf_ok_dec leaf : Decision (store_leaf_ok leaf).
Proof. destruct leaf as [[ix n] rt]. unfold store_leaf_ok. apply _. Defined.

(** Split an equation of two concatenations at the first, equally long, part. *)
Ltac split_app H :=
  apply app_eq_same_length in H as [? H];
  [|by rewrite ?length_to_be_bytes; unfold hash_ok in *; congruence].

Lemma to_be_bytes_8_inj a b : u64_ok a -> u64_ok b -> to_be_bytes 8 a = to_be_bytes 8 b -> a = b.
Proof. exact (to_be_bytes_inj 8 a b). Qed.
Lemma to_be_bytes_2_inj a b : u16_ok a -> u16_ok b -> to_be_bytes 2 a = to_be_bytes 2 b -> a = b.
Proof. exact (to_be_bytes_inj 2 a b). Qed.

Lemma store_leaf_input_inj a b :
  store_leaf_ok a -> store_leaf_ok b -> store_leaf_input a = store_leaf_input b -> a = b.
Proof.
  destruct a as [[i1 n1] r1], b as [[i2 n2] r2]. intros (Hi1 & Hn1 & Hr1) (Hi2 & Hn2 & Hr2) H.
  unfold store_leaf_input in H. apply app_inv_head in H. split_app H. split_app H. subst r2.
  f_equal. f_equal; [by apply to_be_bytes_2_inj|]. apply Nat2Z.inj. by apply to_be_bytes_8_inj.
Qed.

Lemma dimension_name_inj d1 d2 : lit (Dimension_as_str d1) = lit (Dimension_as_str d2) -> d1 = d2.
Proof. by destruct d1, d2. Qed.

Lemma dimension_name_len d : u64_ok (Z.of_nat (length (lit (Dimension_as_str d)))).
Proof. by destruct d. Qed.

Lemma index_roots_inj l1 l2 t1 t2 :
  Forall (fun dr => hash_ok dr.2) l1 -> Forall (fun dr => hash_ok dr.2) l2 -> length l1 = length l2 ->
  concat (concat (map index_root_parts l1)) ++ t1 = concat (concat (map index_root_parts l2)) ++ t2 ->
  l1 = l2 /\ t1 = t2.
Proof.
  revert l2; induction l1 as [|[d1 r1] l1 IH]; intros [|[d2 r2] l2] H1 H2 Hl H; try done.
  apply Forall_cons in H1 as [Hr1 H1]. apply Forall_cons in H2 as [Hr2 H2].
  cbn [map concat index_root_parts app fst snd] in H, Hr1, Hr2. rewrite <- !app_assoc in H. split_app H.
  match goal with E : to_be_bytes 8 _ = _ |- _ =>
    apply to_be_bytes_8_inj in E; [|apply dimension_name_len..]; apply Nat2Z.inj in E end.
  split_app H. match goal with E : lit _ = lit _ |- _ => apply dimension_name_inj in E as -> end.
  split_app H. subst r2. apply IH in H as [-> ->]; [done|done|done|by injection Hl].
Qed.

Lemma algorithm_code_inj a b : algorithm_code a = algorithm_code b -> a = b.
Proof.
  destruct a as [[] s1 []], b as [[] s2 []]. unfold algorithm_code. cbn [a_hash a_signature a_kem].
  intros H. injection H. by destruct s1, s2.
Qed.

(** Every field of a manifest is part of what its root hashes. *)
Lemma manifest_input_inj m1 m2 :
  manifest_ok m1 -> manifest_ok m2 -> manifest_input m1 = manifest_input m2 -> m1 = m2.
Proof.
  intros H1 H2 H. unfold manifest_input, manifest_parts in H.
  rewrite !concat_app in H. cbn [concat] in H. rewrite <- !app_assoc in H. apply app_inv_head in H.
  destruct m1, m2, H1, H2; cbn [format_version m_segment m_shard m_records history_root index_roots
    chain_before chain_after first_recorded_at last_recorded_at m_algorithms] in *.
  do 8 split_app H. cbn [app] in H.
  repeat match goal with
  | E : to_be_bytes 8 _ = to_be_bytes 8 _ |- _ => apply to_be_bytes_8_inj in E; [|done..]
  | E : to_be_bytes 2 _ = to_be_bytes 2 _ |- _ => apply to_be_bytes_2_inj in E; [|done..]
  | E : Z.of_nat _ = Z.of_nat _ |- _ => apply Nat2Z.inj in E
  end.
  rewrite ?app_nil_r in H. apply index_roots_inj in H as [-> H]; [|done..].
  split_app H. split_app H. apply algorithm_code_inj in H.
  repeat match goal with
  | E : to_be_bytes 8 _ = to_be_bytes 8 _ |- _ => apply to_be_bytes_8_inj in E; [|done..]
  end. congruence.
Qed.

(** ** Trees over committed items

    The shard tree and the store tree have the same shape: the leaf of an item is
    the leaf hash of the digest of its encoding. *)

Section Committed.
Context `{DL : DigestLaws} {T : Type} (input : T -> list byte) (ok : T -> Prop).
Hypothesis input_inj : forall a b, ok a -> ok b -> input a = input b -> a = b.

Definition item_leaf (t : T) : Hash := leaf_hash (digest (input t)).

Definition item_inputs (t : T) : list (list byte) := [LEAF_PREFIX :: digest (input t); input t].
Definition committed_inputs (ts : list T) : list (list byte) :=
  concat (map item_inputs ts) ++ mth_inputs (map item_leaf ts).
Definition item_proof_inputs (t : T) (p : InclusionProof) : list (list byte) :=
  item_inputs t ++ climb_inputs p (item_leaf t).

Lemma item_inputs_elem ts t x : t ∈ ts -> x ∈ item_inputs t -> x ∈ committed_inputs ts.
Proof.
  intros Ht Hx. unfold committed_inputs. apply elem_of_app. left.
  apply list_elem_of_In, in_concat. exists (item_inputs t).
  split; [by apply in_map, list_elem_of_In|by apply list_elem_of_In].
Qed.

Lemma committed_item ts t p i :
  Forall ok ts -> ok t -> Forall hash_ok (ip_path p) ->
  collision_free (committed_inputs ts) (item_proof_inputs t p) ->
  verify_at p (item_leaf t) (mth (map item_leaf ts)) i (length ts) = true -> ts !! i = Some t.
Proof.
  intros Hts Ht Hp Hcf Hv.
  assert (Hlk : map item_leaf ts !! i = Some (item_leaf t)).
  { eapply inclusion_sound; [|exact Hp|apply leaf_hash_ok| |by rewrite length_map].
    - apply Forall_fmap, Forall_true. intros x. apply leaf_hash_ok.
    - eapply collision_free_sub; [exact Hcf|apply sub_app_r, sub_refl|apply sub_app_r, sub_refl]. }
  change (map ?f ts) with (f <$> ts) in Hlk. rewrite list_lookup_fmap in Hlk.
  destruct (ts !! i) as [t'|] eqn:E; [|done]. injection Hlk as Hlk. f_equal.
  assert (Ht' : t' ∈ ts) by (by apply list_elem_of_lookup_2 in E).
  unfold item_leaf in Hlk. rewrite !leaf_hash_digest in Hlk.
  eapply collision_free_elem in Hlk; [|exact Hcf|eapply item_inputs_elem; [exact Ht'|by left]|by left].
  apply (app_inv_head [LEAF_PREFIX]) in Hlk.
  eapply collision_free_elem in Hlk; [|exact Hcf|eapply item_inputs_elem; [exact Ht'|right; by left]|right; by left].
  apply input_inj; [|done|done]. rewrite Forall_forall in Hts. by apply Hts.
Qed.

End Committed.

(** ** Sealing *)

Section Sealing.
Context `{DL : DigestLaws}.

Lemma manifest_root_digest m : manifest_root m = digest (manifest_input m).
Proof. apply finish_parts. Qed.

Lemma manifest_root_ok m : hash_ok (manifest_root m).
Proof. apply hash_parts_ok. Qed.

Lemma shard_leaf_item ix n rt : shard_leaf ix n rt = item_leaf store_leaf_input (ix, n, rt).
Proof.
  unfold shard_leaf, item_leaf, store_leaf_digest. rewrite finish_parts. cbn [concat store_leaf_input].
  by rewrite app_nil_r.
Qed.

Lemma manifest_leaf_item m : leaf_hash (manifest_root m) = item_leaf manifest_input m.
Proof. unfold item_leaf. by rewrite manifest_root_digest. Qed.

Lemma check_duplicates_ok l :
  check_duplicates l = Ok tt <-> Forall (fun i => first_duplicate_position i = None) l.
Proof.
  induction l as [|i l IH]; cbn; [split; [constructor|done]|]. rewrite Forall_cons.
  destruct (first_duplicate_position i); [split; [done|by intros [? _]]|]. rewrite IH. tauto.
Qed.

Lemma existsb_false {A} (f : A -> bool) l : existsb f l = false <-> Forall (fun x => f x = false) l.
Proof.
  induction l as [|x l IH]; cbn; [split; [constructor|done]|].
  rewrite orb_false_iff, IH, Forall_cons. tauto.
Qed.

Definition same_algorithms (rs : list (Record_ * Hash)) : Prop :=
  Forall (fun rl => Some rl.1.(algorithms) = (fun rl0 => rl0.1.(algorithms)) <$> head rs) rs.

(** When sealing succeeds, and what it then commits to. *)
Lemma seal_ok_iff seg ix before rs :
  is_ok (seal seg ix before rs) = true <->
  same_algorithms rs /\ Forall (fun d => first_duplicate_position (build d rs) = None) Dimension_ALL.
Proof.
  unfold seal, same_algorithms.
  set (mixed := match rs with [] => false | _ => _ end).
  assert (Hm : mixed = false <-> Forall (fun rl => Some rl.1.(algorithms) = (fun rl0 => rl0.1.(algorithms)) <$> head rs) rs).
  { unfold mixed. destruct rs as [|[r h] rs]; [split; [constructor|done]|].
    rewrite existsb_false. apply Forall_proper; [|done]. intros rl. cbn.
    rewrite negb_false_iff, bool_decide_eq_true. split; congruence. }
  rewrite <- Hm. destruct mixed; [split; [done|by intros [? _]]|]. cbn zeta.
  change (Forall ?P Dimension_ALL) with (Forall P Dimension_ALL).
  rewrite <- (Forall_fmap (fun d => build d rs) (fun i => first_duplicate_position i = None)).
  rewrite <- check_duplicates_ok.
  change ((fun d => build d rs) <$> Dimension_ALL) with (map (fun d => build d rs) Dimension_ALL).
  destruct (check_duplicates _) as [[]|e]; cbn; [tauto|]. split; [done|by intros [_ ?]].
Qed.

Lemma seal_inv seg ix before rs s :
  seal seg ix before rs = Ok s ->
  s.(manifest).(m_shard) = ix /\ s.(manifest).(m_records) = as_u64 (Z.of_nat (length rs)) /\
  s.(indexes) = map (fun d => build d rs) Dimension_ALL /\
  (forall d, manifest_index_root s.(manifest) d = Some (index_root (build d rs))) /\
  (forall d, seg_index s d = Some (build d rs)) /\
  s.(records) = map fst rs /\ s.(by_link) = link_map (map snd rs) /\
  s.(manifest).(history_root) = mth (map (fun rl => leaf_hash rl.2) rs).
Proof.
  unfold seal. destruct (match rs with [] => _ | _ => _ end); [done|]. cbn zeta. intros H.
  apply result_bind_ok in H as ([] & _ & [= <-]). repeat split; by intros [].
Qed.

Lemma list_min_ok l d : Forall u64_ok l -> u64_ok d -> u64_ok (default d (list_min l)).
Proof.
  intros H Hd. destruct l as [|x l]; [done|]. apply Forall_cons in H as [Hx H]. cbn.
  revert x Hx; induction H as [|y l Hy H IH]; intros x Hx; [done|]. apply IH. unfold u64_ok in *. lia.
Qed.
Lemma list_max_ok l d : Forall u64_ok l -> u64_ok d -> u64_ok (default d (list_max l)).
Proof.
  intros H Hd. destruct l as [|x l]; [done|]. apply Forall_cons in H as [Hx H]. cbn.
  revert x Hx; induction H as [|y l Hy H IH]; intros x Hx; [done|]. apply IH. unfold u64_ok in *. lia.
Qed.

Definition row_ok (rl : Record_ * Hash) : Prop := record_ok rl.1 /\ hash_ok rl.2.

#[export] Instance row_ok_dec rl : Decision (row_ok rl).
Proof. unfold row_ok. apply _. Defined.

Lemma index_root_ok d rs : hash_ok (index_root (build d rs)).
Proof. unfold index_root, root. apply mth_ok, entry_leaves_ok. Qed.

(** The manifest of a sealed segment is well formed. *)
Lemma seal_manifest_ok seg ix before rs s :
  u64_ok seg -> u16_ok ix -> hash_ok before -> Forall row_ok rs ->
  seal seg ix before rs = Ok s -> manifest_ok s.(manifest).
Proof.
  intros Hseg Hix Hb Hrs. unfold seal. destruct (match rs with [] => _ | _ => _ end); [done|]. cbn zeta. intros H.
  apply result_bind_ok in H as ([] & _ & [= <-]). cbn [manifest].
  assert (Ht : Forall u64_ok (map (fun rl => rl.1.(recorded_at)) rs)).
  { apply Forall_fmap. eapply Forall_impl; [exact Hrs|]. intros rl [Hr _]. apply Hr. }
  split; cbn [format_version m_segment m_shard m_records history_root index_roots
    chain_before chain_after first_recorded_at last_recorded_at]; try done.
  - apply as_u64_ok.
  - apply mth_ok. apply Forall_fmap, Forall_true. intros x. apply leaf_hash_ok.
  - repeat constructor; apply index_root_ok.
  - destruct (last rs) as [rl|] eqn:E; [|done]. cbn. rewrite last_lookup in E.
    rewrite Forall_lookup in Hrs. apply (Hrs _ _ E).
  - by apply list_min_ok.
  - by apply list_max_ok.
Qed.

End Sealing.

(** ** The honest store, and what a composite proof presents *)

Record Sealed := MkSealed {
  sd_segment : SegmentId; sd_before : Hash; sd_rows : list (Record_ * Hash); sd_seal : Segment }.

Section Store.
Context `{DL : DigestLaws}.

Abbreviation store := (list (ShardIx * list Sealed)) (only parsing).

Record sealed_ok (ix : ShardIx) (sd : Sealed) : Prop := {
  ok_sd_segment : u64_ok sd.(sd_segment);
  ok_sd_before : hash_ok sd.(sd_before);
  ok_sd_rows : Forall row_ok sd.(sd_rows);
  ok_sd_count : u64_ok (Z.of_nat (length sd.(sd_rows)));
  ok_sd_seal : seal sd.(sd_segment) ix sd.(sd_before) sd.(sd_rows) = Ok sd.(sd_seal);
}.

#[export] Instance sealed_ok_dec ix sd : Decision (sealed_ok ix sd).
Proof. decide_record. Defined.

Definition sd_manifest (sd : Sealed) : SegmentManifest := sd.(sd_seal).(manifest).

Definition shard_of (s : ShardIx * list Sealed) : ShardTree :=
  foldl shard_push (shard_new s.1) (map sd_manifest s.2).
Definition store_of (st : store) : StoreTree := from_shards (map shard_of st).

Record shard_ok (s : ShardIx * list Sealed) : Prop := {
  ok_s_ix : u16_ok s.1;
  ok_s_count : u64_ok (Z.of_nat (length s.2));
  ok_s_sealed : Forall (sealed_ok s.1) s.2;
}.

#[export] Instance shard_ok_dec s : Decision (shard_ok s).
Proof. decide_record. Defined.

Definition store_rows (st : store) : list (Record_ * Hash) :=
  concat (map (fun s => concat (map sd_rows s.2)) st).

(** The strings hashed to build the store, in the dimension asked about. *)
Definition shard_item (s : ShardIx * list Sealed) : ShardIx * nat * Hash :=
  (s.1, length s.2, mth (map (item_leaf manifest_input) (map sd_manifest s.2))).
Definition sealed_inputs (d : Dimension) (sd : Sealed) : list (list byte) :=
  index_inputs (build d sd.(sd_rows)).(entries) ++ index_inputs (build DRecordedAt sd.(sd_rows)).(entries).
Definition shard_inputs (d : Dimension) (s : ShardIx * list Sealed) : list (list byte) :=
  committed_inputs manifest_input (map sd_manifest s.2) ++ concat (map (sealed_inputs d) s.2).
Definition store_inputs (d : Dimension) (st : store) : list (list byte) :=
  committed_inputs store_leaf_input (map shard_item st) ++ concat (map (shard_inputs d) st).

(** The strings hashed to check a composite proof. *)
Definition evidence_inputs (c : SegmentContribution) : list (list byte) :=
  match c with
  | Answered _ _ proof => answer_inputs proof
  | ExcludedByTime _ _ (Some s) =>
      entry_proof_inputs (s.(ts_min), s.(min_proof)) ++ entry_proof_inputs (s.(ts_max), s.(max_proof))
  | ExcludedByTime _ _ None => []
  end.
Definition contribution_inputs (c : SegmentContribution) : list (list byte) :=
  item_proof_inputs manifest_input (sc_manifest c) (sc_manifest_proof c) ++ evidence_inputs c.
Definition sc_item (sc : ShardContribution) : ShardIx * nat * Hash :=
  (sc.(sh_shard), sc.(segments_in_shard), sc.(sh_root)).
Definition shard_contribution_inputs (sc : ShardContribution) : list (list byte) :=
  item_proof_inputs store_leaf_input (sc_item sc) sc.(shard_proof)
  ++ concat (map contribution_inputs sc.(sh_segments)).
Definition composite_inputs (p : CompositeProof) : list (list byte) :=
  concat (map shard_contribution_inputs p.(cmp_shards)).

(** What the Rust types guarantee of the values presented. *)
Definition evidence_ok (c : SegmentContribution) : Prop :=
  match c with
  | Answered _ _ proof => answer_ok proof
  | ExcludedByTime _ _ (Some s) =>
      presented_ok (s.(ts_min), s.(min_proof)) /\ presented_ok (s.(ts_max), s.(max_proof))
  | ExcludedByTime _ _ None => True
  end.
#[export] Instance evidence_ok_dec c : Decision (evidence_ok c).
Proof. destruct c as [? ? ?|? ? [s|]]; unfold evidence_ok; apply _. Defined.

Record contribution_ok (c : SegmentContribution) : Prop := {
  ok_c_manifest : manifest_ok (sc_manifest c);
  ok_c_path : Forall hash_ok (ip_path (sc_manifest_proof c));
  ok_c_evidence : evidence_ok c;
}.

#[export] Instance contribution_ok_dec c : Decision (contribution_ok c).
Proof. decide_record. Defined.
Record shard_contribution_ok (sc : ShardContribution) : Prop := {
  ok_sc_item : store_leaf_ok (sc_item sc);
  ok_sc_path : Forall hash_ok (ip_path sc.(shard_proof));
  ok_sc_segments : Forall contribution_ok sc.(sh_segments);
}.

#[export] Instance shard_contribution_ok_dec sc : Decision (shard_contribution_ok sc).
Proof. decide_record. Defined.

(** The links of the records an answer reports. *)
Definition contribution_links (c : SegmentContribution) : list Hash :=
  match c with Answered _ _ proof => map record_link proof.(c_entries) | ExcludedByTime _ _ _ => [] end.
Definition composite_links (p : CompositeProof) : list Hash :=
  concat (map contribution_links (concat (map sh_segments p.(cmp_shards)))).

Definition rows_in (d : Dimension) (lo hi : list byte) (rs : list (Record_ * Hash)) : list Hash :=
  map snd (filter (fun rl => in_range lo hi (key_of d rl.1) = true) rs).

(** *** The honest trees *)

Lemma shard_of_spec s :
  (shard_of s).(st_shard) = s.1 /\ (shard_of s).(st_manifests) = map sd_manifest s.2 /\
  leaves (shard_of s).(st_tree) = map (item_leaf manifest_input) (map sd_manifest s.2).
Proof.
  unfold shard_of. generalize (map sd_manifest s.2) as ms. intros ms.
  induction ms as [|m ms (IH1 & IH2 & IH3)] using rev_ind; [done|].
  rewrite foldl_app. cbn. rewrite IH1, IH2, IH3, map_app. cbn. by rewrite manifest_leaf_item.
Qed.

Lemma store_of_root st : store_root (store_of st) = mth (map (item_leaf store_leaf_input) (map shard_item st)).
Proof.
  unfold store_root, root, store_of, from_shards. cbn [store_tree leaves from_leaf_hashes].
  f_equal. rewrite !map_map. apply map_ext. intros s.
  destruct (shard_of_spec s) as (H1 & H2 & H3).
  unfold shard_len, shard_root_of, root. rewrite H1, H2, H3, length_map. by rewrite shard_leaf_item.
Qed.

Lemma concat_sub {A} (f : A -> list (list byte)) l x : x ∈ l -> f x ⊆ concat (map f l).
Proof.
  intros Hx y Hy. apply list_elem_of_In, in_concat. exists (f x).
  split; [by apply in_map, list_elem_of_In|by apply list_elem_of_In].
Qed.

Lemma rows_in_concat d lo hi {A} (f : A -> list (Record_ * Hash)) l :
  rows_in d lo hi (concat (map f l)) = concat (map (fun x => rows_in d lo hi (f x)) l).
Proof.
  unfold rows_in. induction l as [|x l IH]; [done|]. cbn. by rewrite filter_app, map_app, IH.
Qed.

Lemma Forall2_concat_perm {A B C} (f : A -> list C) (g : B -> list C) l1 l2 :
  Forall2 (fun a b => f a ≡ₚ g b) l1 l2 -> concat (map f l1) ≡ₚ concat (map g l2).
Proof. induction 1 as [|a b l1 l2 H _ IH]; [done|]. cbn. by rewrite H, IH. Qed.

Lemma Forall2_of_lookup {A B} (R : A -> B -> Prop) l1 l2 :
  length l1 = length l2 -> (forall i a b, l1 !! i = Some a -> l2 !! i = Some b -> R a b) -> Forall2 R l1 l2.
Proof. intros Hl H. apply Forall2_same_length_lookup. done. Qed.

(** *** One segment *)

Lemma records_size_sealed ix sd : sealed_ok ix sd -> records_size (sd_manifest sd) = length sd.(sd_rows).
Proof.
  intros H. destruct (seal_inv _ _ _ _ _ (ok_sd_seal _ _ H)) as (_ & Hr & _).
  unfold records_size, sd_manifest. rewrite Hr, as_u64_small by apply H. apply Nat2Z.id.
Qed.

Lemma filter_all_out lo hi l :
  Forall (fun e => in_range lo hi e.(e_key) = false) l -> entries_in lo hi l = [].
Proof. intros H. apply filter_none. eapply Forall_impl; [exact H|]. cbn. congruence. Qed.

(** An index wholly below or wholly above the range has nothing in it. *)
Lemma span_outside l mn mx lo hi :
  StronglySorted pos_le l -> l !! O = Some mn -> l !! (length l - 1)%nat = Some mx ->
  lt_bytes mx.(e_key) lo || lt_bytes hi mn.(e_key) = true -> entries_in lo hi l = [].
Proof.
  intros Hs Hmn Hmx Hout. apply filter_all_out. apply orb_true_iff in Hout as [Hlt|Hgt].
  - pose proof (sorted_below _ _ _ _ Hs Hmx Hlt) as H.
    rewrite take_ge in H by lia. eapply Forall_impl; [exact H|].
    intros e He. unfold in_range. cbn in He. by rewrite le_bytes_not_lt, He.
  - assert (Hg : le_bytes mn.(e_key) hi = false) by (by rewrite le_bytes_not_lt, Hgt).
    pose proof (sorted_above _ _ _ _ Hs Hmn Hg) as H. rewrite drop_0 in H.
    eapply Forall_impl; [exact H|]. intros e He. unfold in_range. cbn in He. by rewrite He, andb_false_r.
Qed.

Lemma rows_in_entries d lo hi rs :
  map record_link (entries_in lo hi (build d rs).(entries)) ≡ₚ rows_in d lo hi rs.
Proof. apply build_range_links. Qed.

Lemma check_span_sound ix j sd span lo hi s0 :
  sealed_ok s0 sd ->
  match span with Some s => presented_ok (s.(ts_min), s.(min_proof)) /\ presented_ok (s.(ts_max), s.(max_proof))
             | None => True end ->
  collision_free (index_inputs (build DRecordedAt sd.(sd_rows)).(entries))
    (match span with Some s => entry_proof_inputs (s.(ts_min), s.(min_proof)) ++ entry_proof_inputs (s.(ts_max), s.(max_proof))
                | None => [] end) ->
  check_span ix j (sd_manifest sd) span (index_root (build DRecordedAt sd.(sd_rows))) lo hi = Ok tt ->
  rows_in DRecordedAt lo hi sd.(sd_rows) = [].
Proof.
  intros Hsd Hok Hcf H. apply Permutation_nil. rewrite <- rows_in_entries.
  pose proof (records_size_sealed _ _ Hsd) as Hsz. unfold check_span in H. rewrite Hsz in H.
  set (ix_ := build DRecordedAt sd.(sd_rows)) in *.
  assert (Hlen : length sd.(sd_rows) = length ix_.(entries)) by (symmetry; apply (build_len DRecordedAt)).
  pose proof (build_ok DRecordedAt sd.(sd_rows)) as [Hsort Ht]. fold ix_ in Hsort, Ht.
  assert (Heok : Forall entry_ok ix_.(entries)) by (apply build_entries_ok, Hsd).
  destruct span as [s|].
  - destruct Hok as [Hmin Hmax]. destruct (negb (_ && _)) eqn:Eb; [done|].
    destruct (negb (lt_bytes _ _ || _)) eqn:Eo; [done|]. breflect.
    rewrite Hlen in *. unfold index_root, root in *. rewrite Ht in *.
    erewrite (span_outside _ s.(ts_min) s.(ts_max)); [done|exact Hsort| | |exact Eo].
    + apply (presented_entry _ (s.(ts_min), s.(min_proof)));
        [done|done|eapply collision_free_sub; [exact Hcf|done|auto with sub]|done].
    + apply (presented_entry _ (s.(ts_max), s.(max_proof)));
        [done|done|eapply collision_free_sub; [exact Hcf|done|auto with sub]|done].
  - destruct (Z.eqb_spec (m_records (sd_manifest sd)) 0) as [E|]; [|done].
    unfold records_size in Hsz. rewrite E in Hsz. cbn in Hsz. rewrite Hlen in Hsz.
    symmetry in Hsz. apply nil_length_inv in Hsz. by rewrite Hsz.
Qed.

Lemma contribution_sound d lo hi sc j c ix sd :
  sealed_ok ix sd -> contribution_ok c -> sc_manifest c = sd_manifest sd ->
  (is_excluded c = true -> d = DRecordedAt) ->
  collision_free (sealed_inputs d sd) (evidence_inputs c) ->
  check_contribution d lo hi sc j c = Ok tt ->
  contribution_links c ≡ₚ rows_in d lo hi sd.(sd_rows).
Proof.
  intros Hsd Hc Hm Hex Hcf H. destruct (seal_inv _ _ _ _ _ (ok_sd_seal _ _ Hsd)) as (_ & _ & _ & Hroot & _).
  pose proof (ok_c_evidence _ Hc) as Hev. unfold check_contribution in H.
  destruct (negb (m_shard _ =? _)); [done|]. destruct (negb (verify_at _ _ _ _ _)); [done|].
  destruct c as [mf mp proof|mf mp span]; cbn [sc_manifest is_excluded contribution_links evidence_inputs evidence_ok] in *;
    subst mf; unfold sd_manifest in H at 1; rewrite Hroot in H.
  - apply map_err_ok in H. fold (sd_manifest sd) in H. rewrite (records_size_sealed _ _ Hsd) in H.
    rewrite <- rows_in_entries. rewrite <- (build_len d) in H.
    erewrite (answer_complete _ _ d lo hi (build_ok d sd.(sd_rows)) (build_entries_ok d _ (ok_sd_rows _ _ Hsd)) Hev);
      [done| |exact H].
    eapply collision_free_sub; [exact Hcf|apply sub_app_l, sub_refl|done].
  - specialize (Hex eq_refl) as ->. cbn in H. symmetry.
    rewrite (check_span_sound sc.(sh_shard) j sd span lo hi ix Hsd); [done| | |exact H].
    + by destruct span.
    + eapply collision_free_sub; [exact Hcf|apply sub_app_r, sub_refl|by destruct span].
Qed.

(** *** One shard, and the whole answer *)

Lemma check_segments_lookup d lo hi sc j l :
  check_segments d lo hi sc j l = Ok tt ->
  forall k c, l !! k = Some c -> check_contribution d lo hi sc (j + k) c = Ok tt.
Proof.
  revert j; induction l as [|c0 l IH]; intros j H k c Hk; [done|]. cbn in H.
  apply result_bind_ok in H as ([] & H0 & H). destruct k as [|k]; cbn in Hk.
  - injection Hk as ->. by rewrite Nat.add_0_r.
  - replace (j + S k)%nat with (S j + k)%nat by lia. by eapply IH.
Qed.

Lemma check_shards_lookup d lo hi rt n i l :
  check_shards d lo hi rt n i l = Ok tt ->
  forall k sc, l !! k = Some sc ->
    verify_at sc.(shard_proof) (item_leaf store_leaf_input (sc_item sc)) rt (i + k) n = true /\
    length sc.(sh_segments) = sc.(segments_in_shard) /\
    check_segments d lo hi sc 0 sc.(sh_segments) = Ok tt.
Proof.
  revert i; induction l as [|sc0 l IH]; intros i H k sc Hk; [done|]. cbn in H.
  destruct (negb (verify_at _ _ _ _ _)) eqn:Ev; [done|].
  destruct (negb (length _ =? _)%nat) eqn:El; [done|]. breflect.
  apply result_bind_ok in H as ([] & H0 & H). destruct k as [|k]; cbn in Hk.
  - injection Hk as ->. rewrite Nat.add_0_r. rewrite shard_leaf_item in Ev. done.
  - replace (i + S k)%nat with (S i + k)%nat by lia. by eapply IH.
Qed.

Lemma check_contribution_manifest d lo hi sc j c :
  check_contribution d lo hi sc j c = Ok tt ->
  verify_at (sc_manifest_proof c) (item_leaf manifest_input (sc_manifest c)) sc.(sh_root) j
    sc.(segments_in_shard) = true.
Proof.
  unfold check_contribution. rewrite manifest_leaf_item. destruct (negb (m_shard _ =? _)); [done|].
  destruct (verify_at _ _ _ _ _); [done|]. done.
Qed.

Lemma sd_manifest_ok ix sd : u16_ok ix -> sealed_ok ix sd -> manifest_ok (sd_manifest sd).
Proof. intros Hix H. eapply seal_manifest_ok; [apply H|exact Hix|apply H|apply H|apply H]. Qed.

Lemma shard_sound d lo hi sc s :
  shard_ok s -> shard_contribution_ok sc -> sc_item sc = shard_item s ->
  Forall (fun c => is_excluded c = true -> d = DRecordedAt) sc.(sh_segments) ->
  collision_free (shard_inputs d s) (shard_contribution_inputs sc) ->
  length sc.(sh_segments) = sc.(segments_in_shard) ->
  check_segments d lo hi sc 0 sc.(sh_segments) = Ok tt ->
  concat (map contribution_links sc.(sh_segments)) ≡ₚ rows_in d lo hi (concat (map sd_rows s.2)).
Proof.
  intros Hs Hsc Hitem Hex Hcf Hlen H. injection Hitem as Hix Hn Hroot.
  rewrite rows_in_concat. apply Forall2_concat_perm, Forall2_of_lookup; [congruence|].
  intros i c sd Hc Hsd. pose proof (check_segments_lookup _ _ _ _ _ _ H i c Hc) as Hcc. cbn [Nat.add] in Hcc.
  assert (Hsdok : sealed_ok s.1 sd) by (pose proof (ok_s_sealed _ Hs) as Hall; rewrite Forall_lookup in Hall; by eapply Hall).
  assert (Hcok : contribution_ok c) by (pose proof (ok_sc_segments _ Hsc) as Hall; rewrite Forall_lookup in Hall; by eapply Hall).
  assert (Hsub : contribution_inputs c ⊆ shard_contribution_inputs sc).
  { unfold shard_contribution_inputs. pose proof (concat_sub contribution_inputs sc.(sh_segments) c) as Hs'.
    apply list_elem_of_lookup_2 in Hc. specialize (Hs' Hc). by apply sub_app_r. }
  assert (Hm : sc_manifest c = sd_manifest sd).
  { pose proof (check_contribution_manifest _ _ _ _ _ _ Hcc) as Hv. rewrite Hroot, Hn, <- (length_map sd_manifest s.2) in Hv.
    apply (committed_item manifest_input manifest_ok manifest_input_inj) in Hv.
    - rewrite list_lookup_fmap, Hsd in Hv. by injection Hv.
    - apply Forall_fmap. eapply Forall_impl; [apply Hs|]. intros x Hx. by eapply sd_manifest_ok; [apply Hs|].
    - apply Hcok.
    - apply Hcok.
    - eapply collision_free_sub; [exact Hcf|apply sub_app_l, sub_refl|].
      by eapply app_sub_l. }
  eapply contribution_sound; [exact Hsdok|exact Hcok|exact Hm| | |exact Hcc].
  - rewrite Forall_lookup in Hex. by eapply Hex.
  - eapply collision_free_sub; [exact Hcf| |by eapply app_sub_r].
    unfold shard_inputs. apply list_elem_of_lookup_2 in Hsd.
    pose proof (concat_sub (sealed_inputs d) s.2 sd Hsd). by apply sub_app_r.
Qed.

Lemma shard_item_ok s : shard_ok s -> store_leaf_ok (shard_item s).
Proof.
  intros H. split; [apply H|]. split; [apply H|]. apply mth_ok, Forall_fmap, Forall_true.
  intros m. apply leaf_hash_ok.
Qed.

Lemma composite_sound st p d lo hi :
  Forall shard_ok st -> Forall shard_contribution_ok p.(cmp_shards) ->
  collision_free (store_inputs d st) (composite_inputs p) ->
  composite_verify p d lo hi (store_root (store_of st)) (length st) = Ok tt ->
  composite_links p ≡ₚ rows_in d lo hi (store_rows st).
Proof.
  intros Hst Hp Hcf H. unfold composite_verify in H.
  destruct (negb (length _ =? _)%nat) eqn:El; [done|]. destruct (negb _ && _) eqn:Ex; [done|]. breflect.
  unfold store_rows. rewrite rows_in_concat. unfold composite_links.
  assert (E : concat (map contribution_links (concat (map sh_segments p.(cmp_shards)))) =
    concat (map (fun sc => concat (map contribution_links sc.(sh_segments))) p.(cmp_shards))).
  { generalize p.(cmp_shards) as l. induction l as [|sc l IH]; [done|]. cbn. by rewrite map_app, concat_app, IH. }
  rewrite E. apply Forall2_concat_perm, Forall2_of_lookup; [done|]. intros i sc s Hsc Hs.
  rewrite store_of_root in H. destruct (check_shards_lookup _ _ _ _ _ _ _ H i sc Hsc) as (Hv & Hlen & Hseg).
  cbn [Nat.add] in Hv.
  assert (Hsok : shard_ok s) by (rewrite Forall_lookup in Hst; by eapply Hst).
  assert (Hscok : shard_contribution_ok sc) by (rewrite Forall_lookup in Hp; by eapply Hp).
  pose proof (concat_sub shard_contribution_inputs p.(cmp_shards) sc (list_elem_of_lookup_2 _ _ _ Hsc)) as Hsub.
  fold (composite_inputs p) in Hsub.
  eapply shard_sound; [exact Hsok|exact Hscok| | | |exact Hlen|exact Hseg].
  - rewrite <- (length_map shard_item) in Hv.
    apply (committed_item store_leaf_input store_leaf_ok store_leaf_input_inj) in Hv.
    + rewrite list_lookup_fmap, Hs in Hv. apply (inj Some). symmetry. exact Hv.
    + apply Forall_fmap. eapply Forall_impl; [exact Hst|]. apply shard_item_ok.
    + apply Hscok.
    + apply Hscok.
    + eapply collision_free_sub; [exact Hcf|apply sub_app_l, sub_refl|].
      by eapply app_sub_l.
  - apply Forall_forall. intros c Hc Hexc. apply andb_false_iff in Ex as [Ex|Ex].
    + by apply negb_false_iff, bool_decide_eq_true in Ex.
    + rewrite existsb_false, Forall_forall in Ex. rewrite Ex in Hexc; [done|].
      apply list_elem_of_In, in_concat. exists sc.(sh_segments).
      split; [apply in_map, list_elem_of_In; by eapply list_elem_of_lookup_2|by apply list_elem_of_In].
  - eapply collision_free_sub; [exact Hcf| |exact Hsub]. unfold store_inputs.
    pose proof (concat_sub (shard_inputs d) st s (list_elem_of_lookup_2 _ _ _ Hs)). by apply sub_app_r.
Qed.

End Store.

(** ** Links and records *)

Section Links.
Context `{DL : DigestLaws}.

Lemma link_map_spec l :
  NoDup l ->
  forall k i, link_map l !! k = Some i <-> l !! i = Some k.
Proof.
  unfold link_map. set (step := fun '(m, i) link => (<[link := i]> m, S i)).
  assert (Hsnd : forall l : list (list byte), snd (foldl step (∅ : gmap (list byte) nat, O) l) = length l).
  { intros l0. induction l0 as [|x l0 IH] using rev_ind; [done|]. rewrite foldl_app, length_app. cbn.
    destruct (foldl step _ l0). cbn in *. lia. }
  induction l as [|x l IH] using rev_ind; intros Hnd k i; [cbn; by rewrite lookup_empty|].
  apply NoDup_app in Hnd as (Hnd & Hx & _). specialize (IH Hnd). rewrite foldl_app. cbn.
  pose proof (Hsnd l) as Hl. destruct (foldl step _ l) as [m n]. cbn in *. subst n.
  destruct (decide (x = k)) as [->|Hne].
  - rewrite lookup_insert_eq. split.
    + intros [= <-]. by rewrite lookup_app_r, Nat.sub_diag.
    + intros Hi. apply lookup_snoc_Some in Hi as [[Hi Hk]|[-> _]]; [|done].
      exfalso. apply (Hx k); [by eapply list_elem_of_lookup_2|set_solver].
  - rewrite lookup_insert_ne by done. rewrite IH. split.
    + intros Hi. by apply lookup_app_l_Some.
    + intros Hi. apply lookup_snoc_Some in Hi as [[_ Hk]|[_ Hk]]; [done|congruence].
Qed.

(** Writing every link at its position gives back the list of links. *)
Lemma links_of_map (m : gmap (list byte) nat) n :
  (forall k k' i, m !! k = Some i -> m !! k' = Some i -> k = k') ->
  forall k i, m !! k = Some i -> (i < n)%nat ->
    map_fold (fun link i out => <[i := link]> out) (repeat Hash_ZERO n) m !! i = Some k.
Proof.
  intros Hinj.
  set (P := fun (out : list Hash) (m : gmap (list byte) nat) => length out = n /\
    ((forall k k' i, m !! k = Some i -> m !! k' = Some i -> k = k') ->
     forall k i, m !! k = Some i -> (i < n)%nat -> out !! i = Some k)).
  enough (HP : P (map_fold (fun link i out => <[i := link]> out) (repeat Hash_ZERO n) m) m) by (by apply HP).
  apply (map_fold_weak_ind P); unfold P.
  - split; [by rewrite repeat_length|]. intros _ k i Hk. by rewrite lookup_empty in Hk.
  - clear. intros k0 i0 m out Hnone [Hlen IH]. split; [by rewrite length_insert|]. intros Hinj k i Hk Hi.
    destruct (decide (k = k0)) as [->|Hne].
    + rewrite lookup_insert_eq in Hk. injection Hk as ->. rewrite list_lookup_insert_eq; [done|lia].
    + pose proof Hk as Hk'. rewrite lookup_insert_ne in Hk' by done.
      destruct (decide (i0 = i)) as [->|Hi0].
      { exfalso. apply Hne. eapply Hinj; [exact Hk|apply lookup_insert_eq]. }
      rewrite list_lookup_insert_ne by done. apply IH; [|done|done].
      intros a b j Ha Hb. eapply Hinj; rewrite lookup_insert_ne; try done; intros ->; congruence.
Qed.

Lemma length_links_fold (m : gmap (list byte) nat) (out : list Hash) :
  length (map_fold (fun link i out => <[i := link]> out) out m) = length out.
Proof.
  apply (map_fold_weak_ind (fun o _ => length o = length out)); [done|].
  intros k i m' o _ H. by rewrite length_insert.
Qed.

Lemma seal_links seg ix before rs s :
  seal seg ix before rs = Ok s -> NoDup (map snd rs) ->
  links s = map snd rs /\ forall r h, (r, h) ∈ rs -> record_by_link s h = Some r.
Proof.
  intros Hs Hnd. destruct (seal_inv _ _ _ _ _ Hs) as (_ & _ & _ & _ & _ & Hrec & Hmap & _).
  assert (Hspec : forall k i, s.(by_link) !! k = Some i <-> map snd rs !! i = Some k).
  { intros k i. rewrite Hmap. by apply link_map_spec. }
  split.
  - apply list_eq. intros i. unfold links. rewrite Hrec, length_map.
    destruct (map snd rs !! i) as [k|] eqn:Ei.
    + apply links_of_map; [|by apply Hspec|].
      * intros k1 k2 j H1 H2. apply Hspec in H1, H2. congruence.
      * apply lookup_lt_Some in Ei. by rewrite length_map in Ei.
    + apply lookup_ge_None_2. rewrite length_links_fold, repeat_length.
      apply lookup_ge_None in Ei. by rewrite length_map in Ei.
  - intros r h Hin. apply list_elem_of_lookup in Hin as [i Hi]. unfold record_by_link.
    assert (Hl : s.(by_link) !! h = Some i).
    { apply Hspec. change (map snd rs) with (snd <$> rs). by rewrite list_lookup_fmap, Hi. }
    rewrite Hl, Hrec. cbn. change (map fst rs) with (fst <$> rs). by rewrite list_lookup_fmap, Hi.
Qed.

End Links.

(** ** The properties *)

(** C38 (a store-wide answer is whole). Take a store of sealed segments in shards,
    and any composite proof the verifier accepts for the range [lo .. hi] in
    dimension [d], against the store's root and its committed number of shards.
    Then the records the answer reports, over all shards and segments, are
    exactly the records of the store whose key is in range: no shard, segment or
    record is left out, and a segment skipped by time held nothing in range.
    The only way round it is a collision between two of the strings hashed. *)
Theorem store_answer_is_whole `{DL : DigestLaws} (st : list (ShardIx * list Sealed)) (p : CompositeProof)
    (d : Dimension) (lo hi : list byte) :
  Forall shard_ok st -> Forall shard_contribution_ok p.(cmp_shards) ->
  collision_free (store_inputs d st) (composite_inputs p) ->
  composite_verify p d lo hi (store_root (store_of st)) (length st) = Ok tt ->
  composite_links p ≡ₚ
    map snd (filter (fun rl => in_range lo hi (key_of d rl.1) = true) (store_rows st)).
Proof. apply composite_sound. Qed.

Module Sample.
#[local] Existing Instance Register_Digest | 0.
#[local] Existing Instance Register_DigestLaws | 0.

(** A store of two shards: one answers, the other's only segment is skipped. *)
Definition seal_rows (id : Z) (ix : ShardIx) (rs : list (Record_ * Hash)) : Sealed :=
  MkSealed id Hash_ZERO rs
    match seal id ix Hash_ZERO rs with
    | Ok s => s
    | Err _ => MkSegment (MkManifest 0 0 0 0 [] [] [] [] 0 0 Algorithms_default) [] tree_new [] ∅
    end.

Definition late_rows : list (Record_ * Hash) :=
  [(sample_record 11 9000 1 "agent://acme/c" "run-9" Erasure, repeat x04 48)].

Definition sample_store : list (ShardIx * list Sealed) :=
  [(0, [seal_rows 1 0 sample_rows]); (1, [seal_rows 2 1 late_rows])].

Definition no_proof : InclusionProof := MkInclusion 0 0 [].

Definition sample_composite : CompositeProof :=
  let sealed (i : nat) := default (seal_rows 0 0 []) (s ← sample_store !! i; head s.2) in
  let contribution (i : nat) (c : SegmentContribution) :=
    let t := shard_of (default (0, []) (sample_store !! i)) in
    MkContribution t.(st_shard) (shard_root_of t) (shard_len t)
      (default no_proof (store_inclusion (store_of sample_store) i)) [c] in
  let answer := default (MkCompleteness DRecordId 0 0 [] [] None None)
    (range (build DRecordedAt sample_rows) (time_key 1500) (time_key 2500)) in
  let path (i : nat) := default no_proof (shard_inclusion (shard_of (default (0, []) (sample_store !! i))) 0) in
  MkComposite DRecordedAt
    [contribution 0%nat (Answered (sd_manifest (sealed 0%nat)) (path 0%nat) answer);
     contribution 1%nat (ExcludedByTime (sd_manifest (sealed 1%nat)) (path 1%nat)
                           (time_span (sealed 1%nat).(sd_seal)))].

Lemma sample_store_ok : Forall shard_ok sample_store.
Proof. by_evaluation. Qed.

Lemma store_answer_is_whole_witness :
  composite_links sample_composite ≡ₚ [repeat x03 48] /\
  composite_matched sample_composite = 1%nat.
Proof.
  split; [|vm_compute; reflexivity].
  apply (store_answer_is_whole sample_store sample_composite DRecordedAt (time_key 1500) (time_key 2500)).
  - exact sample_store_ok.
  - by_evaluation.
  - by_evaluation.
  - vm_compute. reflexivity.
Defined.

End Sample.

(** The manifest root commits every field. Two well-formed manifests with
    the same root are the same manifest, segment, shard, counts, index roots,
    chain ends, time bounds and algorithms alike, unless their encodings collide. *)
Theorem manifest_root_commits `{DL : DigestLaws} (m1 m2 : SegmentManifest) :
  manifest_ok m1 -> manifest_ok m2 ->
  collision_free [manifest_input m1] [manifest_input m2] ->
  manifest_root m1 = manifest_root m2 -> m1 = m2.
Proof.
  intros H1 H2 Hcf E. rewrite !manifest_root_digest in E. apply manifest_input_inj; [done|done|].
  eapply collision_free_elem; [exact Hcf|by left|by left|exact E].
Qed.

Definition sample_manifest : SegmentManifest := {|
  format_version := 1; m_segment := 4; m_shard := 2; m_records := 3;
  history_root := repeat x05 48; index_roots := [(DRecordId, repeat x06 48); (DRunId, repeat x07 48)];
  chain_before := Hash_ZERO; chain_after := repeat x03 48;
  first_recorded_at := 1000; last_recorded_at := 3000; m_algorithms := Algorithms_default |}.

Lemma manifest_root_commits_witness : sample_manifest = sample_manifest.
Proof.
  apply (manifest_root_commits sample_manifest sample_manifest).
  - by_evaluation.
  - by_evaluation.
  - by_evaluation.
  - reflexivity.
Defined.

(** Sealing. Sealing succeeds exactly when all records carry the same
    algorithms and no index has two entries at one position; a sealed segment
    then answers in every dimension from the index built over exactly its
    records, commits their number and roots, and, when the chain links are
    distinct, gives back the links in journal order and the record of each. *)
Theorem seal_spec `{DL : DigestLaws} (seg : SegmentId) (ix : ShardIx) (before : Hash) (rs : list (Record_ * Hash)) :
  (is_ok (seal seg ix before rs) = true <->
     same_algorithms rs /\ Forall (fun d => first_duplicate_position (build d rs) = None) Dimension_ALL) /\
  forall s, seal seg ix before rs = Ok s ->
    (forall d, seg_index s d = Some (build d rs) /\
               manifest_index_root s.(manifest) d = Some (index_root (build d rs))) /\
    s.(manifest).(m_records) = as_u64 (Z.of_nat (length rs)) /\
    s.(manifest).(history_root) = mth (map (fun rl => leaf_hash rl.2) rs) /\
    (NoDup (map snd rs) ->
       links s = map snd rs /\ forall r h, (r, h) ∈ rs -> record_by_link s h = Some r).
Proof.
  split; [apply seal_ok_iff|]. intros s Hs.
  destruct (seal_inv _ _ _ _ _ Hs) as (_ & Hn & _ & Hm & Hi & _ & _ & Hh).
  repeat split; try done; intros; by eapply seal_links.
Qed.

Lemma seal_spec_witness :
  exists s, @seal Register_Digest 1 0 Hash_ZERO sample_rows = Ok s /\ links s = [repeat x01 48; repeat x02 48; repeat x03 48].
Proof.
  destruct (seal_spec (DL := Register_DigestLaws) 1 0 Hash_ZERO sample_rows) as [H1 H2].
  destruct (@seal Register_Digest 1 0 Hash_ZERO sample_rows) as [s|e] eqn:E.
  - destruct (H2 s eq_refl) as (_ & _ & _ & H). exists s. split; [reflexivity|]. apply H. by_evaluation.
  - exfalso. assert (Hok : is_ok (@seal Register_Digest 1 0 Hash_ZERO sample_rows) = true) by (vm_compute; reflexivity).
    rewrite E in Hok. discriminate Hok.
Defined.
