(* ===== verification/Wire.v ===== *)
(** * The wire primitives ([trailryx-journal/src/wire.rs])

    A method of [Writer] is the list of bytes it appends ([put_..]); a method of
    [Reader] takes the unread rest of its buffer, [buf[pos..]], and gives the
    value with what is left ([get_..]); [Codec.codec] pairs the two. *)

From S2P Require Import Prelude Bytes Ids Record Codec.

Definition MAX_BODY_BYTES : Z := 4194304.

Inductive WireError :=
  | Truncated
  | BadMagic
  | UnknownVersion (v : Z)
  | BadCrc
  | BadDiscriminant (field : string) (got : byte)
  | TooLarge (n : Z)
  | BadId (field : string) (e : IdError)
  | NonCanonical (why : string)
  | Trailing (n : nat).

#[export] Instance WireError_eq_dec : EqDecision WireError.
Proof. solve_decision. Defined.

(** ** Readers *)

Abbreviation Rd := (Reader WireError).

Definition rd_finish : Rd unit := fun bs =>
  if (length bs =? 0)%nat then Ok (tt, bs) else Err (Trailing (length bs)).

Definition get_u8 : Rd byte := fun bs =>
  match bs with [] => Err Truncated | b :: bs' => Ok (b, bs') end.

(** The loop of [Reader::varint]: it stops at the tenth group at the latest. *)
Fixpoint get_varint_loop (groups : Z) (shift : Z) (out : Z) (bs : list byte) : result WireError (Z * list byte) :=
  match bs with
  | [] => Err Truncated
  | b :: bs' =>
      let groups := groups + 1 in
      if (10 <? groups) || ((groups =? 10) && negb (Z.land (u8v b) 0x7e =? 0)) then
        Err (NonCanonical "varint overflows u64")
      else
        let out := Z.lor out (as_u64 (Z.shiftl (Z.land (u8v b) 0x7f) shift)) in
        if Z.land (u8v b) 0x80 =? 0 then
          if (1 <? groups) && (u8v b =? 0) then Err (NonCanonical "overlong varint")
          else Ok (out, bs')
        else get_varint_loop groups (shift + 7) out bs'
  end.
Definition get_varint : Rd Z := get_varint_loop 0 0 0.

Definition get_varint_i64 : Rd Z :=
  u ← get_varint;
  mret (Z.lxor (Z.shiftr u 1) (- Z.land u 1)).

(** [self.buf.get(self.pos..self.pos + n)]. *)
Definition get_slice : Z -> Rd (list byte) := rd_take Truncated.

Definition get_bytes : Rd (list byte) :=
  len ← get_varint;
  if MAX_BODY_BYTES <? len then rd_fail (TooLarge len) else get_slice len.

Definition get_str : Rd str :=
  s ← get_bytes;
  if valid_utf8 s then mret s else rd_fail Truncated.

Definition get_hash : Rd Hash := get_slice (Z.of_nat HASH_BYTES).

Definition get_u128 : Rd Z := s ← get_slice 16; mret (from_be_bytes s).

Definition get_opt {A} (f : Rd A) : Rd (option A) :=
  b ← get_u8;
  if u8v b =? 0 then mret None
  else if u8v b =? 1 then a ← f; mret (Some a)
  else rd_fail (BadDiscriminant "option" b).

Definition get_seq {A} (f : Rd A) : Rd (list A) :=
  n ← get_varint;
  if MAX_BODY_BYTES <? n then rd_fail (TooLarge n) else get_items f (Z.to_nat n).

(** [u16::try_from(r.varint()?)] and [u32::try_from(r.varint()?)]. *)
Definition get_narrow (max : Z) : Rd Z :=
  v ← get_varint;
  if max <? v then rd_fail Truncated else mret v.

(** [id(field, T::parse(r.str()?))]. *)
Definition get_token (sp : TokenSpec) (field : string) : Rd (Token sp) :=
  s ← get_str;
  rd_lift (map_err (BadId field) (parse sp s)).

(** ** Writers *)

(** LEB128; ten groups of seven bits hold a [u64]. *)
Fixpoint put_varint_loop (fuel : nat) (v : Z) : list byte :=
  match fuel with
  | O => []
  | S f =>
      let b := Z.land v 0x7f in
      let v := Z.shiftr v 7 in
      if v =? 0 then [u8 b] else u8 (Z.lor b 0x80) :: put_varint_loop f v
  end.
Definition put_varint (v : Z) : list byte := put_varint_loop 10 v.

Definition put_u8 (v : Z) : list byte := [u8 v].

(** [((v << 1) ^ (v >> 63)) as u64]. *)
Definition put_varint_i64 (v : Z) : list byte :=
  put_varint (as_u64 (Z.lxor (as_i64 (Z.shiftl v 1)) (Z.shiftr v 63))).

Definition put_bytes (b : list byte) : list byte := put_varint (Z.of_nat (length b)) ++ b.
Definition put_str (s : str) : list byte := put_bytes s.
Definition put_hash (h : Hash) : list byte := h.
Definition put_u128 (v : Z) : list byte := to_be_bytes 16 v.
Definition put_opt {A} (f : A -> list byte) (v : option A) : list byte :=
  match v with Some x => put_u8 1 ++ f x | None => put_u8 0 end.
Definition put_seq {A} (f : A -> list byte) (items : list A) : list byte :=
  put_varint (Z.of_nat (length items)) ++ concat (map f items).
Definition put_token {sp} (t : Token sp) : list byte := put_str t.(as_str).

(** ** Discriminants: the macro [disc!] *)

Definition disc_put {A} (code : A -> Z) (v : A) : list byte := put_u8 (code v).
Definition disc_get {A} (variants : list A) (code : A -> Z) (field : string) : Rd A :=
  got ← get_u8;
  match find (fun v => code v =? u8v got) variants with
  | Some v => mret v
  | None => rd_fail (BadDiscriminant field got)
  end.

Definition event_type_code (e : EventType) : Z :=
  match e with
  | RequestReceived => 1 | ModelCall => 2 | ToolCall => 3 | PolicyDecision => 4
  | BudgetCheck => 5 | MemoryAccess => 6 | Delegation => 7 | RunCompleted => 8
  | Erasure => 9 | StoreEvent => 10 | NotificationDispatched => 11 | IdentityFinding => 12
  end.
Definition severity_code (s : Severity) : Z :=
  match s with Debug_ => 1 | Info => 2 | Notice => 3 | Warning => 4 | Error => 5 | Critical => 6 end.
Definition verdict_code (v : Verdict) : Z :=
  match v with Allowed => 1 | Denied => 2 | Held => 3 | Failed => 4 | NotApplicable => 5 end.
Definition error_code_code (e : ErrorCode) : Z :=
  match e with
  | NoError => 1 | Timeout_ => 2 | RateLimited => 3 | Unauthorized => 4 | BudgetExceeded => 5
  | PolicyDenied => 6 | UpstreamError => 7 | Malformed => 8 | Internal => 9
  end.
Definition payload_class_code (p : PayloadClass) : Z :=
  match p with
  | Prompt => 1 | Completion => 2 | ToolArguments => 3 | ToolResult => 4 | Document => 5 | Diagnostic => 6
  end.
Definition hash_alg_code (a : HashAlg) : Z := match a with Sha384_alg => 1 end.
Definition sig_alg_code (a : SigAlg) : Z :=
  match a with Es256 => 1 | MlDsa65 => 2 | SlhDsa => 3 | Es384 => 4 end.
Definition kem_alg_code (a : KemAlg) : Z := match a with X25519MlKem768 => 1 end.

Definition get_event_type : Rd EventType := disc_get EventType_ALL event_type_code "event_type".
Definition get_severity : Rd Severity := disc_get Severity_ALL severity_code "severity".
Definition get_verdict : Rd Verdict := disc_get Verdict_ALL verdict_code "verdict".
Definition get_error_code : Rd ErrorCode := disc_get ErrorCode_ALL error_code_code "error".
Definition get_payload_class : Rd PayloadClass :=
  disc_get PayloadClass_ALL payload_class_code "payload.class".
Definition get_hash_alg : Rd HashAlg := disc_get HashAlg_ALL hash_alg_code "algorithms.hash".
Definition get_sig_alg : Rd SigAlg := disc_get SigAlg_ALL sig_alg_code "algorithms.signature".
Definition get_kem_alg : Rd KemAlg := disc_get KemAlg_ALL kem_alg_code "algorithms.kem".

(** ** CRC-32 *)

Definition CRC_POLY : Z := 0xEDB88320.
Definition u32_mask : Z := 0xFFFFFFFF.

(** One bit: [mask = (crc & 1).wrapping_neg(); (crc >> 1) ^ (POLY & mask)]. *)
Definition crc_bit (crc : Z) : Z :=
  let mask := Z.land (- Z.land crc 1) u32_mask in
  Z.lxor (Z.shiftr crc 1) (Z.land CRC_POLY mask).

Fixpoint crc_bits (n : nat) (crc : Z) : Z :=
  match n with O => crc | S n' => crc_bits n' (crc_bit crc) end.

Definition crc_byte (crc : Z) (b : byte) : Z := crc_bits 8 (Z.lxor crc (u8v b)).

Definition crc32 (data : list byte) : Z := Z.lxor (fold_left crc_byte data u32_mask) u32_mask.

(** ** Arithmetic of the varint *)

Lemma land_7f v : Z.land v 0x7f = v mod 128.
Proof. exact (Z.land_ones v 7 ltac:(lia)). Qed.

Lemma shiftr_7 v : Z.shiftr v 7 = v / 128.
Proof. by rewrite Z.shiftr_div_pow2. Qed.

(** A statement about all the values of a [w]-bit group, checked one by one. *)
Ltac by_cases_below n :=
  match goal with
  | |- forall x, 0 <= x < n -> @?P x =>
      assert (Hall : Forall P (seqZ 0 n)) by by_evaluation;
      intros x Hx; rewrite Forall_forall in Hall; apply Hall, elem_of_seqZ; lia
  end.

Lemma land_80 : forall b, 0 <= b < 256 -> (Z.land b 0x80 =? 0) = (b <? 128).
Proof. by_cases_below 256. Qed.
Lemma land_7e : forall b, 0 <= b < 256 -> (Z.land b 0x7e =? 0) = (b mod 128 <? 2).
Proof. by_cases_below 256. Qed.
Lemma lor_80 : forall b, 0 <= b < 128 -> Z.lor b 0x80 = b + 128.
Proof. by_cases_below 128. Qed.

Lemma pow_group g : 0 <= g <= 9 -> 2 ^ (64 - 7 * g) >= 2.
Proof. intros. pose proof (Z.pow_le_mono_r 2 1 (64 - 7 * g)). lia. Qed.

(** One group of the loop, in arithmetic. *)
Lemma get_varint_step g out b bs :
  0 <= g <= 9 -> 0 <= out < 2 ^ (7 * g) -> (g = 9 -> u8v b mod 128 < 2) ->
  get_varint_loop g (7 * g) out (b :: bs) =
  let out' := out + (u8v b mod 128) * 2 ^ (7 * g) in
  if u8v b <? 128 then
    if (0 <? g) && (u8v b =? 0) then Err (NonCanonical "overlong varint") else Ok (out', bs)
  else get_varint_loop (g + 1) (7 * (g + 1)) out' bs.
Proof.
  intros Hg Ho H9. pose proof (u8v_range b). cbn [get_varint_loop].
  rewrite land_7e, land_80, land_7f by done.
  destruct (Z.ltb_spec 10 (g + 1)); [lia|]. cbn [orb].
  assert (((g + 1 =? 10) && negb (u8v b mod 128 <? 2)) = false) as ->.
  { destruct (Z.eqb_spec (g + 1) 10); [|done]. cbn. apply negb_false_iff, Z.ltb_lt, H9. lia. }
  pose proof (Z.mod_pos_bound (u8v b) 128 ltac:(lia)) as Hm.
  assert (Hs : Z.shiftl (u8v b mod 128) (7 * g) < 2 ^ 64).
  { rewrite Z.shiftl_mul_pow2 by lia. destruct (Z.eq_dec g 9) as [->|].
    - specialize (H9 eq_refl). change (2 ^ 64) with (2 * 2 ^ (7 * 9)). nia.
    - pose proof (Z.pow_le_mono_r 2 (7 * g) 56 ltac:(lia) ltac:(lia)).
      change (2 ^ 64) with (256 * 2 ^ 56). nia. }
  rewrite as_u64_small by (split; [apply Z.shiftl_nonneg; lia|done]).
  rewrite lor_shiftl_add by lia. cbn zeta.
  replace (1 <? g + 1) with (0 <? g) by (destruct (Z.ltb_spec 0 g), (Z.ltb_spec 1 (g + 1)); lia || done).
  by replace (7 * g + 7) with (7 * (g + 1)) by lia.
Qed.

Lemma put_varint_step f v :
  0 <= v ->
  put_varint_loop (S f) v =
  if v <? 128 then [u8 v] else u8 (v mod 128 + 128) :: put_varint_loop f (v / 128).
Proof.
  intros Hv. cbn [put_varint_loop]. rewrite land_7f, shiftr_7.
  pose proof (Z.mod_pos_bound v 128 ltac:(lia)). rewrite lor_80 by done.
  destruct (Z.ltb_spec v 128).
  - rewrite Z.div_small, Z.mod_small by lia. done.
  - destruct (Z.eqb_spec (v / 128) 0); [pose proof (Z.div_mod v 128 ltac:(lia)); lia|done].
Qed.

Lemma pow_7 g : 0 <= g -> 2 ^ (7 * (g + 1)) = 128 * 2 ^ (7 * g).
Proof. intros. replace (7 * (g + 1)) with (7 + 7 * g) by lia. rewrite Z.pow_add_r by lia. done. Qed.

Lemma pow_rest g : 0 <= g <= 8 -> 2 ^ (64 - 7 * g) = 128 * 2 ^ (64 - 7 * (g + 1)).
Proof.
  intros. replace (64 - 7 * g) with (7 + (64 - 7 * (g + 1))) by lia. rewrite Z.pow_add_r by lia. done.
Qed.

Lemma varint_reads f v g out rest :
  g = 10 - Z.of_nat f -> (1 <= f <= 10)%nat -> 0 <= v < 2 ^ (64 - 7 * g) -> (0 < g -> 0 < v) ->
  0 <= out < 2 ^ (7 * g) ->
  get_varint_loop g (7 * g) out (put_varint_loop f v ++ rest) = Ok (out + v * 2 ^ (7 * g), rest).
Proof.
  revert v g out; induction f as [|f IH]; intros v g out Hg Hf Hv Hpos Ho; [lia|].
  rewrite put_varint_step by lia. destruct (Z.ltb_spec v 128) as [Hlt|Hge].
  - cbn [app]. rewrite get_varint_step; rewrite ?u8v_u8_small, ?Z.mod_small by lia; try done; try lia.
    + cbn zeta. destruct (Z.ltb_spec v 128); [|lia].
      destruct (Z.ltb_spec 0 g), (Z.eqb_spec v 0); cbn; try done. lia.
    + intros ->. cbn in Hv. lia.
  - assert (g <= 8) by (destruct (Z.eq_dec g 9) as [->|]; [cbn in Hv; lia|lia]).
    pose proof (Z.mod_pos_bound v 128 ltac:(lia)). pose proof (Z.div_mod v 128 ltac:(lia)).
    cbn [app]. rewrite get_varint_step by lia.
    rewrite u8v_u8_small by lia. cbn zeta. destruct (Z.ltb_spec (v mod 128 + 128) 128); [lia|].
    replace ((v mod 128 + 128) mod 128) with (v mod 128)
      by (rewrite <- (Z.mod_add v 1 128), Z.mul_1_l, <- Zplus_mod_idemp_l at 1 by lia; done).
    assert (Hp : 0 < 2 ^ (7 * g)) by (apply Z.pow_pos_nonneg; lia).
    rewrite IH; [|lia|lia| |lia|].
    + f_equal. f_equal. rewrite pow_7 by lia. nia.
    + rewrite pow_rest in Hv by lia. lia.
    + rewrite pow_7 by lia. nia.
Qed.

Lemma varint_sound bs g out r rest :
  0 <= g <= 10 -> 0 <= out < 2 ^ (7 * g) -> get_varint_loop g (7 * g) out bs = Ok (r, rest) ->
  exists v, r = out + v * 2 ^ (7 * g) /\ bs = put_varint_loop (Z.to_nat (10 - g)) v ++ rest /\
    0 <= v < 2 ^ (64 - 7 * g) /\ (0 < g -> 0 < v) /\ g <= 9.
Proof.
  revert g out; induction bs as [|b bs IH]; intros g out Hg Ho H; [done|].
  destruct (Z.eq_dec g 10) as [->|Hg10]; [done|]. pose proof (u8v_range b) as Hb.
  assert (H9 : g = 9 -> u8v b mod 128 < 2).
  { intros ->. cbn [get_varint_loop] in H. rewrite land_7e in H by done.
    destruct (Z.ltb_spec (u8v b mod 128) 2); [done|]. done. }
  rewrite get_varint_step in H by (done || lia). cbn zeta in H.
  pose proof (Z.mod_pos_bound (u8v b) 128 ltac:(lia)). assert (0 < 2 ^ (7 * g)) by (apply Z.pow_pos_nonneg; lia).
  pose proof (pow_group g ltac:(lia)).
  replace (Z.to_nat (10 - g)) with (S (Z.to_nat (9 - g))) by lia.
  destruct (Z.ltb_spec (u8v b) 128) as [Hlt|Hge].
  - rewrite Z.mod_small in * by lia. destruct (Z.ltb_spec 0 g), (Z.eqb_spec (u8v b) 0); cbn in H; try done;
    injection H as <- <-; exists (u8v b); rewrite put_varint_step by lia;
    (destruct (Z.ltb_spec (u8v b) 128); [|lia]); rewrite u8_u8v;
    (split; [done|]; split; [done|]; split; [|lia]); (destruct (Z.eq_dec g 9) as [->|];
      [cbn; specialize (H9 eq_refl); lia|rewrite pow_rest by lia; pose proof (Z.pow_pos_nonneg 2 (64 - 7 * (g + 1)) ltac:(lia) ltac:(lia)); lia]).
  - apply IH in H as (v & -> & -> & Hv & Hpos & Hg'); [|lia|rewrite pow_7 by lia; nia].
    specialize (Hpos ltac:(lia)).
    exists (u8v b mod 128 + 128 * v). rewrite pow_7, pow_rest by lia.
    split; [lia|]. split; [|split; [lia|split; lia]].
    rewrite put_varint_step by lia. destruct (Z.ltb_spec (u8v b mod 128 + 128 * v) 128); [lia|].
    rewrite (Z.mul_comm 128), Z.mod_add, Z.div_add, Z.mod_mod, Z.div_small by lia.
    replace (u8v b mod 128 + 128) with (u8v b).
    + rewrite u8_u8v. by replace (Z.to_nat (10 - (g + 1))) with (Z.to_nat (9 - g)) by lia.
    + pose proof (Z.div_mod (u8v b) 128 ltac:(lia)). lia.
Qed.

(** ** Codecs *)

Lemma varint_codec : codec put_varint get_varint u64_ok.
Proof.
  split.
  - intros v rest Hv. unfold get_varint, put_varint.
    rewrite (varint_reads 10 v 0 0) by (cbn; unfold u64_ok in Hv; lia). f_equal. f_equal. cbn. lia.
  - intros bs v rest H. apply (varint_sound bs 0 0) in H as (v' & -> & -> & Hv & _); [|lia|cbn; lia].
    cbn [Z.mul] in *. rewrite Z.mul_1_r, Z.add_0_l. by split.
Qed.

Lemma put_varint_length v : u64_ok v -> (1 <= length (put_varint v) <= 10)%nat.
Proof.
  unfold put_varint, u64_ok. intros Hv.
  assert (H : forall f v, (length (put_varint_loop f v) <= f)%nat).
  { intros f. induction f as [|f IH]; intros w; cbn; [lia|]. destruct (_ =? 0); cbn; [lia|]. specialize (IH (Z.shiftr w 7)). lia. }
  split; [|apply H]. cbn [put_varint_loop]. destruct (_ =? 0); cbn; lia.
Qed.

Lemma narrow_codec max : 0 <= max < 2 ^ 64 -> codec put_varint (get_narrow max) (fun v => 0 <= v <= max).
Proof.
  intros Hm. split.
  - intros v rest Hv. unfold get_narrow. rewrite (rd_bind_reads varint_codec) by (unfold u64_ok; lia).
    destruct (Z.ltb_spec max v); [lia|done].
  - intros bs v rest H. unfold get_narrow in H. apply rd_bind_ok in H as (v' & bs' & H & Hk).
    apply varint_codec in H as [-> Hv']. destruct (Z.ltb_spec max v'); [done|].
    apply rd_ret_ok in Hk as [-> ->]. unfold u64_ok in Hv'. split; [done|lia].
Qed.

Lemma u16_codec : codec put_varint (get_narrow u16_max) u16_ok.
Proof. eapply codec_impl; [by apply narrow_codec|]. unfold u16_ok, u16_max. lia. Qed.
Lemma u32_codec : codec put_varint (get_narrow u32_max) u32_ok.
Proof. eapply codec_impl; [by apply narrow_codec|]. unfold u32_ok, u32_max. lia. Qed.

(** Zigzag: negative values are the odd ones. *)
Lemma zigzag_put v : i64_ok v ->
  as_u64 (Z.lxor (as_i64 (Z.shiftl v 1)) (Z.shiftr v 63)) = if v <? 0 then - 2 * v - 1 else 2 * v.
Proof.
  unfold i64_ok. intros Hv. rewrite Z.shiftl_mul_pow2, Z.shiftr_div_pow2 by lia. change (2 ^ 1) with 2.
  unfold as_i64, as_u64. destruct (Z.ltb_spec v 0) as [Hn|Hn].
  - assert (v / 2 ^ 63 = -1) as -> by (symmetry; apply Z.div_unique with (v + 2 ^ 63); lia).
    rewrite Z.lxor_m1_r. unfold Z.lnot.
    set (w := (v * 2 + 2 ^ 63) mod 2 ^ 64).
    assert (E : - 2 * v - 1 = (Z.pred (- (w - 2 ^ 63))) mod 2 ^ 64); [|by rewrite E].
    unfold w. rewrite <- (Z.mod_small (- 2 * v - 1) (2 ^ 64)) by lia.
    replace (Z.pred (- ((v * 2 + 2 ^ 63) mod 2 ^ 64 - 2 ^ 63)))
      with (2 ^ 63 - 1 - (v * 2 + 2 ^ 63) mod 2 ^ 64) by lia.
    rewrite Zminus_mod_idemp_r. f_equal. lia.
  - rewrite Z.div_small by lia. rewrite Z.lxor_0_r. rewrite Zminus_mod_idemp_l.
    replace (v * 2 + 2 ^ 63 - 2 ^ 63) with (2 * v) by lia. apply Z.mod_small. lia.
Qed.

Lemma zigzag_get u : u64_ok u ->
  Z.lxor (Z.shiftr u 1) (- Z.land u 1) = if Z.odd u then - (u / 2) - 1 else u / 2.
Proof.
  intros Hu. rewrite Z.shiftr_div_pow2 by lia. change (2 ^ 1) with 2.
  assert (Z.land u 1 = Z.b2z (Z.odd u)) as ->.
  { change 1 with (Z.ones 1). rewrite Z.land_ones by lia. rewrite Zmod_odd. by destruct (Z.odd u). }
  destruct (Z.odd u); cbn [Z.b2z].
  - change (- (1)) with (-1). rewrite Z.lxor_m1_r. unfold Z.lnot. lia.
  - by rewrite Z.lxor_0_r.
Qed.

Lemma varint_i64_codec : codec put_varint_i64 get_varint_i64 i64_ok.
Proof.
  split.
  - intros v rest Hv. unfold put_varint_i64, get_varint_i64. rewrite zigzag_put by done.
    unfold i64_ok in Hv.
    assert (Hu : u64_ok (if v <? 0 then - 2 * v - 1 else 2 * v)) by (unfold u64_ok; destruct (Z.ltb_spec v 0); lia).
    rewrite (rd_bind_reads varint_codec) by done. rewrite zigzag_get by done.
    unfold mret, rd_ret. f_equal. f_equal. destruct (Z.ltb_spec v 0).
    + replace (- 2 * v - 1) with (1 + 2 * (- v - 1)) by lia. rewrite Z.odd_add_mul_2. cbn [Z.odd].
      rewrite (Z.mul_comm 2), Z.div_add by lia. change (1 / 2) with 0. lia.
    + rewrite Z.odd_mul. cbn [Z.odd andb]. rewrite Z.mul_comm, Z.div_mul by lia. done.
  - intros bs v rest H. unfold get_varint_i64 in H. apply rd_bind_ok in H as (u & bs' & H & Hk).
    apply varint_codec in H as [-> Hu]. apply rd_ret_ok in Hk as [<- ->].
    rewrite zigzag_get by done. pose proof (Zdiv2_odd_eqn u) as E. rewrite Z.div2_div in E.
    unfold u64_ok in Hu. unfold put_varint_i64.
    assert (Hi : i64_ok (if Z.odd u then - (u / 2) - 1 else u / 2)) by (unfold i64_ok; destruct (Z.odd u); lia).
    split; [|done]. f_equal. rewrite zigzag_put by done. f_equal. destruct (Z.odd u).
    + destruct (Z.ltb_spec (- (u / 2) - 1) 0); lia.
    + destruct (Z.ltb_spec (u / 2) 0); lia.
Qed.

Lemma slice_reads (n : Z) s rest : Z.of_nat (length s) = n -> get_slice n (s ++ rest) = Ok (s, rest).
Proof. apply rd_take_reads. Qed.

Lemma slice_sound n bs s rest :
  0 <= n -> get_slice n bs = Ok (s, rest) -> bs = s ++ rest /\ Z.of_nat (length s) = n.
Proof. apply rd_take_sound. Qed.

Definition bytes_wf (b : list byte) : Prop := Z.of_nat (length b) <= MAX_BODY_BYTES.

Lemma bytes_codec : codec put_bytes get_bytes bytes_wf.
Proof.
  unfold bytes_wf, MAX_BODY_BYTES. split.
  - intros b rest Hb. unfold put_bytes, get_bytes. rewrite <- app_assoc.
    rewrite (rd_bind_reads varint_codec) by (unfold u64_ok; lia).
    destruct (Z.ltb_spec MAX_BODY_BYTES (Z.of_nat (length b))) as [H|H]; [unfold MAX_BODY_BYTES in H; lia|].
    by apply slice_reads.
  - intros bs b rest H. unfold get_bytes in H. apply rd_bind_ok in H as (n & bs' & H & Hk).
    apply varint_codec in H as [-> Hn]. unfold u64_ok in Hn.
    destruct (Z.ltb_spec MAX_BODY_BYTES n) as [|Hle]; [done|]. unfold MAX_BODY_BYTES in Hle.
    apply slice_sound in Hk as [-> Hl]; [|lia]. unfold put_bytes. rewrite Hl, <- app_assoc. split; [done|lia].
Qed.

Lemma str_codec : codec put_str get_str (fun s => bytes_wf s /\ valid_utf8 s = true).
Proof.
  split.
  - intros s rest [Hb Hv]. unfold get_str, put_str. rewrite (rd_bind_reads bytes_codec) by done. by rewrite Hv.
  - intros bs s rest H. unfold get_str in H. apply rd_bind_ok in H as (s' & bs' & H & Hk).
    apply bytes_codec in H as [-> Hb]. destruct (valid_utf8 s') eqn:E; [|done].
    apply rd_ret_ok in Hk as [-> ->]. done.
Qed.

Lemma token_codec sp field :
  ascii_set sp.(allowed) -> Z.of_nat sp.(MAX_BYTES) <= MAX_BODY_BYTES ->
  codec put_token (get_token sp field) token_ok.
Proof.
  intros Ha Hm. split.
  - intros t rest Ht. destruct (token_ok_inv t Ha Ht) as [Hl Hv]. unfold get_token, put_token.
    rewrite (rd_bind_reads str_codec) by (split; [unfold bytes_wf; lia|done]).
    unfold token_ok in Ht. by rewrite Ht.
  - intros bs t rest H. unfold get_token in H. apply rd_bind_ok in H as (s & bs' & H & Hk).
    apply str_codec in H as [-> [Hb Hv]]. apply rd_lift_ok in Hk as [Hk ->]. apply map_err_ok in Hk.
    destruct (parse_str _ _ _ Hk) as [<- Ht]. done.
Qed.

Lemma hash_codec : codec put_hash get_hash hash_ok.
Proof.
  split.
  - intros h rest Hh. apply slice_reads. by rewrite Hh.
  - intros bs h rest H. apply slice_sound in H as [-> Hl]; [|done]. split; [done|]. unfold hash_ok. lia.
Qed.

Lemma u128_codec : codec put_u128 get_u128 u128_ok.
Proof.
  split.
  - intros v rest Hv. unfold get_u128, put_u128. unfold mbind, rd_bind.
    rewrite slice_reads by (by rewrite length_to_be_bytes). unfold mret, rd_ret.
    rewrite from_to_be_bytes; [done|]. exact Hv.
  - intros bs v rest H. unfold get_u128 in H. apply rd_bind_ok in H as (s & bs' & H & Hk).
    apply slice_sound in H as [-> Hl]; [|done]. apply rd_ret_ok in Hk as [<- ->].
    assert (Hl' : length s = 16%nat) by lia. unfold put_u128. rewrite <- Hl', to_from_be_bytes. split; [done|].
    pose proof (from_be_bytes_range s) as Hr. rewrite Hl' in Hr. exact Hr.
Qed.

Lemma disc_codec {A} (variants : list A) (code : A -> Z) field :
  (forall v, find (fun v' => code v' =? code v) variants = Some v) -> (forall v, 0 <= code v < 256) ->
  codec (disc_put code) (disc_get variants code field) (fun _ => True).
Proof.
  intros Hf Hc. split.
  - intros v rest _. unfold disc_put, disc_get, put_u8. cbn [app].
    unfold mbind, rd_bind. cbn [get_u8]. rewrite u8v_u8_small by apply Hc. by rewrite Hf.
  - intros bs v rest H. unfold disc_get in H. apply rd_bind_ok in H as (b & bs' & H & Hk).
    destruct bs as [|b0 bs0]; [done|]. cbn in H. injection H as -> ->.
    destruct (find _ variants) as [v'|] eqn:E; [|done]. apply rd_ret_ok in Hk as [-> ->].
    apply find_some in E as [_ E]. apply Z.eqb_eq in E. unfold disc_put, put_u8. by rewrite E, u8_u8v.
Qed.

Lemma opt_codec {A} {put : A -> list byte} {get wf} :
  codec put get wf -> codec (put_opt put) (get_opt get) (opt_ok wf).
Proof.
  intros C. split.
  - intros [a|] rest Ha; unfold put_opt, get_opt, put_u8; cbn [app]; unfold mbind at 1, rd_bind at 1; cbn [get_u8].
    + rewrite u8v_u8_small by lia. cbn. by rewrite (rd_bind_reads C).
    + rewrite u8v_u8_small by lia. done.
  - intros bs o rest H. unfold get_opt in H. apply rd_bind_ok in H as (b & bs' & H & Hk).
    destruct bs as [|b0 bs0]; [done|]. cbn in H. injection H as -> ->.
    destruct (Z.eqb_spec (u8v b) 0) as [E|]; [|destruct (Z.eqb_spec (u8v b) 1) as [E|]; [|done]].
    + apply rd_ret_ok in Hk as [<- ->]. cbn. rewrite <- (u8_u8v b), E. done.
    + apply rd_bind_ok in Hk as (a & bs'' & Hg & Hk). apply rd_ret_ok in Hk as [<- ->].
      apply C in Hg as [-> Ha]. cbn. rewrite <- (u8_u8v b), E. done.
Qed.

Definition seq_wf {A} (wf : A -> Prop) (l : list A) : Prop :=
  Z.of_nat (length l) <= MAX_BODY_BYTES /\ Forall wf l.

Lemma seq_codec {A} {put : A -> list byte} {get wf} :
  codec put get wf -> codec (put_seq put) (get_seq get) (seq_wf wf).
Proof.
  intros C. split.
  - intros l rest [Hn Hl]. unfold get_seq, put_seq. rewrite <- app_assoc.
    rewrite (rd_bind_reads varint_codec) by (unfold u64_ok, MAX_BODY_BYTES in *; lia).
    destruct (Z.ltb_spec MAX_BODY_BYTES (Z.of_nat (length l))); [lia|]. rewrite Nat2Z.id.
    by apply (items_codec _ C).
  - intros bs l rest H. unfold get_seq in H. apply rd_bind_ok in H as (n & bs' & H & Hk).
    apply varint_codec in H as [-> Hn]. unfold u64_ok in Hn.
    destruct (Z.ltb_spec MAX_BODY_BYTES n); [done|].
    apply (items_codec _ C) in Hk as [-> [Hl Hf]]. unfold put_seq, seq_wf.
    rewrite Hl, Z2Nat.id, <- app_assoc by lia. done.
Qed.

Lemma finish_ok bs u rest : rd_finish bs = Ok (u, rest) <-> bs = [] /\ rest = [].
Proof.
  unfold rd_finish. destruct bs; cbn; [|naive_solver]. destruct u. split; [intros [= <-]; done|].
  by intros [_ ->].
Qed.

(** ** CRC-32 detects any one changed byte *)

Lemma crc_bit_spec c : u32_ok c -> crc_bit c = Z.lxor (c / 2) (if Z.odd c then CRC_POLY else 0).
Proof.
  intros Hc. unfold crc_bit. rewrite Z.shiftr_div_pow2 by lia. change (2 ^ 1) with 2. f_equal.
  assert (Z.land c 1 = Z.b2z (Z.odd c)) as ->; [|by destruct (Z.odd c)].
  change 1 with (Z.ones 1). rewrite Z.land_ones by lia. rewrite Zmod_odd. by destruct (Z.odd c).
Qed.

Lemma testbit_31_small a : 0 <= a < 2 ^ 31 -> Z.testbit a 31 = false.
Proof.
  intros Ha. destruct (decide (a = 0)) as [->|]; [apply Z.bits_0|].
  apply Z.bits_above_log2; [lia|]. apply Z.log2_lt_pow2; lia.
Qed.

Lemma lxor_u32 a b : u32_ok a -> u32_ok b -> u32_ok (Z.lxor a b).
Proof. by apply (lxor_range 32). Qed.

Lemma crc_bit_ok c : u32_ok c -> u32_ok (crc_bit c).
Proof.
  intros Hc. rewrite crc_bit_spec by done. apply lxor_u32.
  - unfold u32_ok in *. pose proof (Z.div_mod c 2 ltac:(lia)). pose proof (Z.mod_pos_bound c 2 ltac:(lia)). lia.
  - destruct (Z.odd c); by_evaluation.
Qed.

(** The top bit of the result is the bit shifted out: nothing is lost. *)
Lemma crc_bit_inj a b : u32_ok a -> u32_ok b -> crc_bit a = crc_bit b -> a = b.
Proof.
  intros Ha Hb. rewrite !crc_bit_spec by done. intros E.
  assert (Hhalf : forall x, u32_ok x -> Z.testbit (x / 2) 31 = false).
  { intros x Hx. apply testbit_31_small. unfold u32_ok in Hx.
    pose proof (Z.div_mod x 2 ltac:(lia)). pose proof (Z.mod_pos_bound x 2 ltac:(lia)). lia. }
  assert (Ho : Z.odd a = Z.odd b).
  { pose proof (f_equal (fun z => Z.testbit z 31) E) as Eb. cbn beta in Eb.
    rewrite !Z.lxor_spec, !Hhalf in Eb by done. destruct (Z.odd a), (Z.odd b); done. }
  rewrite Ho in E. apply (f_equal (fun z => Z.lxor z (if Z.odd b then CRC_POLY else 0))) in E.
  rewrite !Z.lxor_assoc, Z.lxor_nilpotent, !Z.lxor_0_r in E.
  pose proof (Zdiv2_odd_eqn a) as E1. pose proof (Zdiv2_odd_eqn b) as E2. rewrite Z.div2_div in E1, E2.
  rewrite E1, E2, E, Ho. done.
Qed.

Lemma crc_bits_ok n c : u32_ok c -> u32_ok (crc_bits n c).
Proof. revert c; induction n as [|n IH]; intros c Hc; cbn; [done|]. by apply IH, crc_bit_ok. Qed.

Lemma crc_bits_inj n a b : u32_ok a -> u32_ok b -> crc_bits n a = crc_bits n b -> a = b.
Proof.
  revert a b; induction n as [|n IH]; intros a b Ha Hb; cbn; [done|]. intros E.
  apply IH in E; [by apply crc_bit_inj|by apply crc_bit_ok..].
Qed.

Lemma u8v_u32 b : u32_ok (u8v b).
Proof. pose proof (u8v_range b). unfold u32_ok. lia. Qed.

Lemma lxor_cancel_l c x y : Z.lxor c x = Z.lxor c y -> x = y.
Proof.
  intros E. apply (f_equal (Z.lxor c)) in E.
  by rewrite <- !Z.lxor_assoc, Z.lxor_nilpotent, !Z.lxor_0_l in E.
Qed.

Lemma crc_byte_eq : crc_byte = fun crc b => crc_bits 8 (Z.lxor crc (u8v b)).
Proof. unfold crc_byte. reflexivity. Qed.

Lemma crc_byte_ok c b : u32_ok c -> u32_ok (crc_byte c b).
Proof. intros Hc. rewrite crc_byte_eq. apply crc_bits_ok, lxor_u32; [done|apply u8v_u32]. Qed.

(** A step loses neither the state nor the byte. *)
Lemma crc_byte_inj a b x y :
  u32_ok a -> u32_ok b -> crc_byte a x = crc_byte b y -> Z.lxor a (u8v x) = Z.lxor b (u8v y).
Proof.
  rewrite crc_byte_eq. generalize 8%nat. intros n Ha Hb E. cbn beta in E.
  by apply crc_bits_inj in E; [|by apply lxor_u32, u8v_u32..].
Qed.

Section Fold.
Context (step : Z -> byte -> Z).
Hypothesis step_ok : forall c b, u32_ok c -> u32_ok (step c b).
Hypothesis step_inj : forall a b x y,
  u32_ok a -> u32_ok b -> step a x = step b y -> Z.lxor a (u8v x) = Z.lxor b (u8v y).

Lemma step_fold_ok l c : u32_ok c -> u32_ok (fold_left step l c).
Proof. revert c; induction l as [|b l IH]; intros c Hc; [done|]. by apply IH, step_ok. Qed.

Lemma step_fold_inj l a b : u32_ok a -> u32_ok b -> fold_left step l a = fold_left step l b -> a = b.
Proof.
  revert a b; induction l as [|x l IH]; intros a b Ha Hb E; [done|]. cbn [fold_left] in E.
  apply IH in E; [|by apply step_ok..]. apply step_inj in E; [|done..].
  rewrite !(Z.lxor_comm _ (u8v x)) in E. by apply lxor_cancel_l in E.
Qed.

Lemma step_one_byte p x y s c :
  u32_ok c -> fold_left step (p ++ x :: s) c = fold_left step (p ++ y :: s) c -> x = y.
Proof.
  intros Hc. rewrite !fold_left_app. cbn [fold_left]. intros E.
  pose proof (step_fold_ok p c Hc) as Hp. apply step_fold_inj in E; [|by apply step_ok..].
  apply step_inj in E; [|done..]. by apply lxor_cancel_l, u8v_inj in E.
Qed.

End Fold.

Lemma crc_start_ok : u32_ok u32_mask.
Proof. by_evaluation. Qed.

Lemma crc32_ok l : u32_ok (crc32 l).
Proof.
  unfold crc32. apply lxor_u32; [|apply crc_start_ok]. apply (step_fold_ok crc_byte crc_byte_ok), crc_start_ok.
Qed.

Lemma crc32_one_byte p x y s : crc32 (p ++ x :: s) = crc32 (p ++ y :: s) -> x = y.
Proof.
  unfold crc32. rewrite !(Z.lxor_comm _ u32_mask). intros E. apply lxor_cancel_l in E.
  exact (step_one_byte crc_byte crc_byte_ok crc_byte_inj p x y s u32_mask crc_start_ok E).
Qed.
