(* ===== verification/WireRecord.v ===== *)
(** * The encoding of a record ([trailryx-journal/src/wire.rs])

    [encode_record] and [decode_record_at] field by field, as the source writes
    and reads them. A body of version 1 is a body of version 2 without its last
    field, the delegation proof. *)

From S2P Require Import Prelude Bytes Ids Record Codec Wire.

Definition FRAME_VERSION : Z := 2.
Definition OLDEST_FRAME_VERSION : Z := 1.

Definition put_payload (p : PayloadRef) : list byte :=
  put_hash p.(p_hash) ++ put_varint p.(size_bytes) ++ disc_put payload_class_code p.(p_class)
  ++ put_hash p.(key_id).

Definition put_delegation (p : DelegationProof) : list byte :=
  put_token p.(dp_jti) ++ put_token p.(dp_jkt) ++ put_token p.(dp_iss) ++ put_varint p.(dp_exp).

Definition put_untrusted (v : Untrusted Timestamp) : list byte := put_varint (as_untrusted v).

(** The fields both versions have, in their order. *)
Definition encode_fields (rec : Record_) : list byte :=
  let b := rec.(basis) in
  let o := rec.(outcome) in
  put_u128 rec.(r_id)
  ++ put_token rec.(tenant)
  ++ put_varint rec.(shard)
  ++ put_token rec.(agent_id)
  ++ put_token rec.(run_id)
  ++ put_opt put_token rec.(parent_run_id)
  ++ put_seq put_token rec.(on_behalf_of)
  ++ put_untrusted rec.(occurred_at)
  ++ put_opt put_untrusted rec.(decided_at)
  ++ put_varint rec.(recorded_at)
  ++ put_opt put_varint rec.(knowledge_as_of)
  ++ put_opt put_varint rec.(clock_skew_nanos)
  ++ disc_put event_type_code rec.(event_type)
  ++ disc_put severity_code rec.(severity)
  ++ put_opt put_token b.(policy_version)
  ++ put_opt put_varint_i64 b.(budget_remaining_micros)
  ++ put_opt put_hash b.(memory_ref)
  ++ put_opt put_token b.(model)
  ++ put_opt put_varint b.(temperature_milli)
  ++ put_opt put_varint b.(max_tokens)
  ++ put_opt put_hash b.(prompt_hash)
  ++ put_seq put_token b.(tool_manifest)
  ++ put_seq put_token b.(identity_chain)
  ++ put_seq put_u128 rec.(caused_by)
  ++ put_opt (disc_put verdict_code) o.(o_verdict)
  ++ put_opt (disc_put error_code_code) o.(o_error)
  ++ put_opt put_varint o.(latency_micros)
  ++ put_opt put_varint o.(tokens_in)
  ++ put_opt put_varint o.(tokens_out)
  ++ put_opt put_varint_i64 o.(cost_micros)
  ++ put_opt put_payload rec.(payload)
  ++ put_varint rec.(seq)
  ++ put_hash rec.(prev_hash)
  ++ put_varint rec.(segment_id)
  ++ disc_put hash_alg_code rec.(algorithms).(a_hash)
  ++ disc_put sig_alg_code rec.(algorithms).(a_signature)
  ++ disc_put kem_alg_code rec.(algorithms).(a_kem)
  ++ put_varint rec.(mapper).

Definition encode_record (rec : Record_) : list byte :=
  encode_fields rec ++ put_opt put_delegation rec.(basis).(delegation_proof).

Definition get_payload : Rd PayloadRef :=
  h ← get_hash;
  size ← get_varint;
  class ← get_payload_class;
  key ← get_hash;
  mret {| p_hash := h; size_bytes := size; p_class := class; key_id := key |}.

Definition get_delegation : Rd DelegationProof :=
  jti ← get_token TokenIdSpec "basis.delegation_proof.jti";
  jkt ← get_token KeyThumbprintSpec "basis.delegation_proof.jkt";
  iss ← get_token IssuerIdSpec "basis.delegation_proof.iss";
  exp ← get_varint;
  mret {| dp_jti := jti; dp_jkt := jkt; dp_iss := iss; dp_exp := exp |}.

Definition get_untrusted : Rd (Untrusted Timestamp) := v ← get_varint; mret (Untrusted_new v).

Definition decode_fields : Rd Record_ :=
  rec_id ← get_u128;
  tenant_ ← get_token TenantIdSpec "tenant";
  shard_ ← get_narrow u16_max;
  agent ← get_token AgentIdSpec "agent_id";
  run ← get_token RunIdSpec "run_id";
  parent ← get_opt (get_token RunIdSpec "parent_run_id");
  behalf ← get_seq (get_token PrincipalIdSpec "on_behalf_of");
  occurred ← get_untrusted;
  decided ← get_opt get_untrusted;
  recorded ← get_varint;
  knowledge ← get_opt get_varint;
  skew ← get_opt get_varint;
  event ← get_event_type;
  sev ← get_severity;
  policy ← get_opt (get_token PolicyVersionSpec "basis.policy_version");
  budget ← get_opt get_varint_i64;
  memory ← get_opt get_hash;
  model_ ← get_opt (get_token ModelIdSpec "basis.model");
  temperature ← get_opt (get_narrow u16_max);
  maxtok ← get_opt (get_narrow u32_max);
  prompt ← get_opt get_hash;
  tools ← get_seq (get_token ToolNameSpec "basis.tool_manifest");
  chain ← get_seq (get_token PrincipalIdSpec "basis.identity_chain");
  caused ← get_seq get_u128;
  verdict ← get_opt get_verdict;
  error ← get_opt get_error_code;
  latency ← get_opt get_varint;
  tin ← get_opt (get_narrow u32_max);
  tout ← get_opt (get_narrow u32_max);
  cost ← get_opt get_varint_i64;
  payload_ ← get_opt get_payload;
  seq_ ← get_varint;
  prev ← get_hash;
  segment ← get_varint;
  ahash ← get_hash_alg;
  asig ← get_sig_alg;
  akem ← get_kem_alg;
  mapper_ ← get_narrow u16_max;
  mret {|
    r_id := rec_id; tenant := tenant_; shard := shard_; agent_id := agent; run_id := run;
    parent_run_id := parent; on_behalf_of := behalf; occurred_at := occurred; decided_at := decided;
    recorded_at := recorded; knowledge_as_of := knowledge; clock_skew_nanos := skew;
    event_type := event; severity := sev;
    basis := {|
      policy_version := policy; budget_remaining_micros := budget; memory_ref := memory;
      model := model_; temperature_milli := temperature; max_tokens := maxtok;
      prompt_hash := prompt; tool_manifest := tools; identity_chain := chain;
      delegation_proof := None |};
    caused_by := caused;
    outcome := {|
      o_verdict := verdict; o_error := error; latency_micros := latency; tokens_in := tin;
      tokens_out := tout; cost_micros := cost |};
    payload := payload_; seq := seq_; prev_hash := prev; segment_id := segment;
    algorithms := {| a_hash := ahash; a_signature := asig; a_kem := akem |};
    mapper := mapper_ |}.

(** [basis.delegation_proof = ..] on the record read so far. *)
Definition with_delegation (rec : Record_) (p : option DelegationProof) : Record_ :=
  let b := rec.(basis) in
  {| r_id := rec.(r_id); tenant := rec.(tenant); shard := rec.(shard); agent_id := rec.(agent_id);
     run_id := rec.(run_id); parent_run_id := rec.(parent_run_id); on_behalf_of := rec.(on_behalf_of);
     occurred_at := rec.(occurred_at); decided_at := rec.(decided_at); recorded_at := rec.(recorded_at);
     knowledge_as_of := rec.(knowledge_as_of); clock_skew_nanos := rec.(clock_skew_nanos);
     event_type := rec.(event_type); severity := rec.(severity);
     basis := {|
       policy_version := b.(policy_version); budget_remaining_micros := b.(budget_remaining_micros);
       memory_ref := b.(memory_ref); model := b.(model); temperature_milli := b.(temperature_milli);
       max_tokens := b.(max_tokens); prompt_hash := b.(prompt_hash); tool_manifest := b.(tool_manifest);
       identity_chain := b.(identity_chain); delegation_proof := p |};
     caused_by := rec.(caused_by); outcome := rec.(outcome); payload := rec.(payload); seq := rec.(seq);
     prev_hash := rec.(prev_hash); segment_id := rec.(segment_id); algorithms := rec.(algorithms);
     mapper := rec.(mapper) |}.

Definition decode_body (version : Z) : Rd Record_ :=
  rec ← decode_fields;
  rec ← (if 2 <=? version then p ← get_opt get_delegation; mret (with_delegation rec p) else mret rec);
  _ ← rd_finish;
  mret rec.

Definition decode_record_at (bytes : list byte) (version : Z) : result WireError Record_ :=
  fst <$> decode_body version bytes.

Definition decode_record (bytes : list byte) : result WireError Record_ :=
  decode_record_at bytes FRAME_VERSION.

(** ** The codecs of the parts *)

Lemma tenant_codec : codec put_token (get_token TenantIdSpec "tenant") token_ok.
Proof. apply token_codec; [exact segment_char_ascii|by_evaluation]. Qed.
Lemma agent_codec : codec put_token (get_token AgentIdSpec "agent_id") token_ok.
Proof. apply token_codec; [exact uri_char_ascii|by_evaluation]. Qed.
Lemma run_codec f : codec put_token (get_token RunIdSpec f) token_ok.
Proof. apply token_codec; [exact segment_char_ascii|by_evaluation]. Qed.
Lemma principal_codec f : codec put_token (get_token PrincipalIdSpec f) token_ok.
Proof. apply token_codec; [exact uri_char_ascii|by_evaluation]. Qed.
Lemma policy_codec f : codec put_token (get_token PolicyVersionSpec f) token_ok.
Proof. apply token_codec; [exact segment_char_ascii|by_evaluation]. Qed.
Lemma model_codec f : codec put_token (get_token ModelIdSpec f) token_ok.
Proof. apply token_codec; [exact model_char_ascii|by_evaluation]. Qed.
Lemma tool_codec f : codec put_token (get_token ToolNameSpec f) token_ok.
Proof. apply token_codec; [first [exact segment_char_ascii|exact model_char_ascii]|by_evaluation]. Qed.
Lemma jti_codec f : codec put_token (get_token TokenIdSpec f) token_ok.
Proof. apply token_codec; [first [exact segment_char_ascii|exact uri_char_ascii]|by_evaluation]. Qed.
Lemma jkt_codec f : codec put_token (get_token KeyThumbprintSpec f) token_ok.
Proof. apply token_codec; [first [exact segment_char_ascii|exact uri_char_ascii]|by_evaluation]. Qed.
Lemma iss_codec f : codec put_token (get_token IssuerIdSpec f) token_ok.
Proof. apply token_codec; [exact uri_char_ascii|by_evaluation]. Qed.

Ltac solve_disc := apply disc_codec; [by intros []|intros []; vm_compute; split; congruence].

Lemma event_type_codec : codec (disc_put event_type_code) get_event_type (fun _ => True).
Proof. solve_disc. Qed.
Lemma severity_codec : codec (disc_put severity_code) get_severity (fun _ => True).
Proof. solve_disc. Qed.
Lemma verdict_codec : codec (disc_put verdict_code) get_verdict (fun _ => True).
Proof. solve_disc. Qed.
Lemma error_code_codec : codec (disc_put error_code_code) get_error_code (fun _ => True).
Proof. solve_disc. Qed.
Lemma payload_class_codec : codec (disc_put payload_class_code) get_payload_class (fun _ => True).
Proof. solve_disc. Qed.
Lemma hash_alg_codec : codec (disc_put hash_alg_code) get_hash_alg (fun _ => True).
Proof. solve_disc. Qed.
Lemma sig_alg_codec : codec (disc_put sig_alg_code) get_sig_alg (fun _ => True).
Proof. solve_disc. Qed.
Lemma kem_alg_codec : codec (disc_put kem_alg_code) get_kem_alg (fun _ => True).
Proof. solve_disc. Qed.

Lemma untrusted_codec :
  codec put_untrusted get_untrusted (fun v => u64_ok (as_untrusted v)).
Proof.
  split.
  - intros [v] rest Hv. unfold get_untrusted, put_untrusted. cbn [as_untrusted] in *. by rewrite (rd_bind_reads varint_codec).
  - intros bs v rest H. unfold get_untrusted in H. apply rd_bind_ok in H as (v' & bs' & H & Hk).
    apply varint_codec in H as [-> Hv]. apply rd_ret_ok in Hk as [<- ->]. done.
Qed.

#[export] Hint Resolve tenant_codec agent_codec run_codec principal_codec policy_codec model_codec
  tool_codec jti_codec jkt_codec iss_codec event_type_codec severity_codec verdict_codec
  error_code_codec payload_class_codec hash_alg_codec sig_alg_codec kem_alg_codec untrusted_codec
  varint_codec varint_i64_codec u16_codec u32_codec hash_codec u128_codec opt_codec seq_codec : codec.

Lemma payload_codec : codec put_payload get_payload payload_ok.
Proof.
  split.
  - intros p rest [H1 H2 H3]. unfold get_payload, put_payload. rewrite <- !app_assoc.
    do 4 (rd_read; [|done]). by destruct p.
  - intros bs p rest H. unfold get_payload in H. repeat rd_found. unfold put_payload.
    rewrite <- !app_assoc. split; [done|]. by split.
Qed.

Lemma delegation_codec : codec put_delegation get_delegation delegation_ok.
Proof.
  split.
  - intros p rest [H1 H2 H3 H4]. unfold get_delegation, put_delegation. rewrite <- !app_assoc.
    do 4 (rd_read; [|done]). by destruct p.
  - intros bs p rest H. unfold get_delegation in H. repeat rd_found. unfold put_delegation.
    rewrite <- !app_assoc. split; [done|]. by split.
Qed.

#[export] Hint Resolve payload_codec delegation_codec : codec.

(** ** The whole record *)

(** The lists the format bounds by [MAX_BODY_BYTES]. *)
Record lists_ok (r : Record_) : Prop := {
  ok_l_behalf : Z.of_nat (length r.(on_behalf_of)) <= MAX_BODY_BYTES;
  ok_l_tools : Z.of_nat (length r.(basis).(tool_manifest)) <= MAX_BODY_BYTES;
  ok_l_chain : Z.of_nat (length r.(basis).(identity_chain)) <= MAX_BODY_BYTES;
  ok_l_caused : Z.of_nat (length r.(caused_by)) <= MAX_BODY_BYTES;
}.

#[export] Instance lists_ok_dec r : Decision (lists_ok r).
Proof. decide_record. Defined.

Definition fields_wf (r : Record_) : Prop :=
  record_ok r /\ lists_ok r /\ r.(basis).(delegation_proof) = None.

Lemma decode_fields_reads r rest :
  record_ok r -> lists_ok r -> decode_fields (encode_fields r ++ rest) = Ok (with_delegation r None, rest).
Proof.
  intros Hr Hl. destruct Hr, Hl, ok_basis, ok_outcome.
  unfold encode_fields. cbv zeta. rewrite <- !app_assoc. unfold decode_fields.
  repeat (rd_read; [|first [done | by split | by destruct (o_verdict (outcome r)) | by destruct (o_error (outcome r))]]).
  unfold mret, rd_ret, with_delegation. by destruct (outcome r), (algorithms r).
Qed.

Lemma decode_fields_sound bs r rest :
  decode_fields bs = Ok (r, rest) -> bs = encode_fields r ++ rest /\ fields_wf r.
Proof.
  unfold decode_fields. intros H. repeat rd_found.
  split; [unfold encode_fields; cbv zeta; by rewrite <- !app_assoc|].
  repeat match goal with H : seq_wf _ _ |- _ => destruct H as [? ?] end.
  split; [|split; [by split|done]]. split; try done; by split.
Qed.

Lemma with_delegation_self r : with_delegation r r.(basis).(delegation_proof) = r.
Proof. destruct r as [? ? ? ? ? ? ? ? ? ? ? ? ? ? b ? ? ? ? ? ? ? ?]. by destruct b. Qed.

Lemma encode_fields_delegation r p : encode_fields (with_delegation r p) = encode_fields r.
Proof. reflexivity. Qed.

Lemma with_delegation_ok r p : record_ok r -> opt_ok delegation_ok p -> record_ok (with_delegation r p).
Proof. intros [] Hp. destruct ok_basis. split; try done. Qed.

Lemma record_delegation_ok r : record_ok r -> opt_ok delegation_ok r.(basis).(delegation_proof).
Proof. intros []. by destruct ok_basis. Qed.

(** Reading at version 2 and at version 1. *)
Lemma decode_v2 r : record_ok r -> lists_ok r -> decode_record_at (encode_record r) 2 = Ok r.
Proof.
  intros Hr Hl. unfold decode_record_at, decode_body, encode_record.
  unfold mbind at 1, rd_bind at 1. rewrite decode_fields_reads by done. cbn [Z.leb].
  change (2 <=? 2) with true. cbn iota. rewrite <- (app_nil_r (put_opt _ _)).
  unfold mbind at 1, rd_bind at 1. erewrite rd_bind_reads; [|exact (opt_codec delegation_codec)|by apply record_delegation_ok].
  unfold mret, rd_ret. change (with_delegation (with_delegation r None)) with (with_delegation r).
  rewrite with_delegation_self. reflexivity.
Qed.

Lemma decode_v1 r : record_ok r -> lists_ok r -> decode_record_at (encode_fields r) 1 = Ok (with_delegation r None).
Proof.
  intros Hr Hl. unfold decode_record_at, decode_body. rewrite <- (app_nil_r (encode_fields r)).
  unfold mbind at 1, rd_bind at 1. by rewrite decode_fields_reads.
Qed.

Lemma decode_body_inv bs version r :
  decode_record_at bs version = Ok r ->
  exists f p, r = with_delegation f p /\ fields_wf f /\ opt_ok delegation_ok p /\
    bs = encode_fields f ++ (if 2 <=? version then put_opt put_delegation p else []) /\
    ((2 <=? version) = false -> p = None).
Proof.
  unfold decode_record_at. destruct (decode_body version bs) as [[r' rest]|e] eqn:E; [|done].
  intros [= ->]. unfold decode_body in E. apply rd_bind_ok in E as (f & bs' & Hf & E).
  apply decode_fields_sound in Hf as [-> Hf]. apply rd_bind_ok in E as (f' & bs'' & Hd & E).
  apply rd_bind_ok in E as (u & bs3 & Hfin & E). apply finish_ok in Hfin as [-> ->].
  apply rd_ret_ok in E as [-> <-]. destruct (2 <=? version).
  - apply rd_bind_ok in Hd as (p & bs4 & Hp & E). apply rd_ret_ok in E as [<- ->].
    apply (codec_sound (opt_codec delegation_codec)) in Hp as [-> Hp].
    exists f, p. rewrite app_nil_r. done.
  - apply rd_ret_ok in Hd as [-> ->]. exists r, None. split; [|done].
    destruct Hf as (_ & _ & Hn). by rewrite <- Hn, with_delegation_self.
Qed.

Lemma decode_record_sound bs r :
  decode_record bs = Ok r -> bs = encode_record r /\ record_ok r /\ lists_ok r.
Proof.
  intros H. apply decode_body_inv in H as (f & p & -> & (Hf & Hl & _) & Hp & -> & _). split; [done|].
  split; [by apply with_delegation_ok|]. by destruct Hl; split.
Qed.

Lemma decode_v1_sound bs r :
  decode_record_at bs 1 = Ok r ->
  bs = encode_fields r /\ record_ok r /\ lists_ok r /\ r.(basis).(delegation_proof) = None.
Proof.
  intros H. apply decode_body_inv in H as (f & p & -> & (Hf & Hl & _) & Hp & -> & Hnone).
  rewrite (Hnone eq_refl). cbn [Z.leb]. change (2 <=? 1) with false. cbn iota. rewrite app_nil_r.
  split; [done|]. split; [by apply with_delegation_ok|]. by destruct Hl; split.
Qed.

(** Reading a body as the other version is refused, not misread. *)
Lemma decode_v1_as_v2 r : record_ok r -> lists_ok r -> decode_record_at (encode_fields r) 2 = Err Truncated.
Proof.
  intros Hr Hl. unfold decode_record_at, decode_body. rewrite <- (app_nil_r (encode_fields r)).
  unfold mbind at 1, rd_bind at 1. by rewrite decode_fields_reads.
Qed.

Lemma decode_v2_as_v1 r :
  record_ok r -> lists_ok r ->
  decode_record_at (encode_record r) 1 =
  Err (Trailing (length (put_opt put_delegation r.(basis).(delegation_proof)))).
Proof.
  intros Hr Hl. unfold decode_record_at, decode_body, encode_record.
  unfold mbind at 1, rd_bind at 1. rewrite decode_fields_reads by done.
  change (2 <=? 1) with false. cbn iota. unfold mbind at 1, rd_bind at 1. unfold mret at 1, rd_ret at 1.
  unfold mbind, rd_bind, rd_finish. set (l := put_opt _ _).
  assert (l <> []) by (unfold l, put_opt, put_u8; by destruct (delegation_proof (basis r))).
  by destruct l.
Qed.

(** ** Lists fit when the body fits *)

Lemma put_varint_nonempty v : (1 <= length (put_varint v))%nat.
Proof. unfold put_varint. cbn [put_varint_loop]. destruct (_ =? 0); cbn; lia. Qed.

Lemma put_token_nonempty {sp} (t : Token sp) : (1 <= length (put_token t))%nat.
Proof.
  unfold put_token, put_str, put_bytes. rewrite length_app.
  pose proof (put_varint_nonempty (Z.of_nat (length t.(as_str)))). lia.
Qed.

Lemma put_u128_nonempty v : (1 <= length (put_u128 v))%nat.
Proof. unfold put_u128. rewrite length_to_be_bytes. lia. Qed.

Lemma put_seq_length {A} (put : A -> list byte) l :
  (forall a, (1 <= length (put a))%nat) -> (length l <= length (put_seq put l))%nat.
Proof.
  intros Hp. unfold put_seq. rewrite length_app.
  assert (length l <= length (concat (map put l)))%nat; [|lia].
  induction l as [|a l IH]; cbn; [lia|]. rewrite length_app. specialize (Hp a). lia.
Qed.

Lemma body_lists_ok r : Z.of_nat (length (encode_record r)) <= MAX_BODY_BYTES -> lists_ok r.
Proof.
  unfold encode_record, encode_fields. cbv zeta. rewrite !length_app. intros H.
  pose proof (put_seq_length put_token r.(on_behalf_of) put_token_nonempty).
  pose proof (put_seq_length put_token r.(basis).(tool_manifest) put_token_nonempty).
  pose proof (put_seq_length put_token r.(basis).(identity_chain) put_token_nonempty).
  pose proof (put_seq_length put_u128 r.(caused_by) put_u128_nonempty).
  split; lia.
Qed.

(** ** The properties *)

Definition sample : Record_ := sample_record 5 1000 1 "agent://acme/bot" "run-1" ToolCall.

(** C39 (one encoding per record). The decoder accepts exactly the bytes the encoder
    writes for a well-formed record - identifiers that their constructors accept,
    integers within their widths, hashes of 48 bytes, lists within the format's
    limit - and returns that record: every optional field, list, clock, signed
    amount and enumeration of it. A body within the format's limit has its lists
    within it. *)
Theorem every_record_has_one_encoding :
  (forall bs r, decode_record bs = Ok r <-> bs = encode_record r /\ record_ok r /\ lists_ok r) /\
  (forall r, Z.of_nat (length (encode_record r)) <= MAX_BODY_BYTES -> lists_ok r).
Proof.
  split; [|exact body_lists_ok]. intros bs r. split; [apply decode_record_sound|].
  intros (-> & Hr & Hl). by apply decode_v2.
Qed.

(** The two body versions. A version-1 body is read at version 1 as the
    record without a delegation proof; read at version 2 it is refused as
    truncated, and a version-2 body read at version 1 is refused for the bytes
    left over: neither is ever read as a different record. *)
Theorem body_versions_do_not_mix (r : Record_) :
  record_ok r -> Z.of_nat (length (encode_record r)) <= MAX_BODY_BYTES ->
  decode_record_at (encode_fields r) 1 = Ok (with_delegation r None) /\
  decode_record_at (encode_fields r) 2 = Err Truncated /\
  exists n, decode_record_at (encode_record r) 1 = Err (Trailing n) /\ (0 < n)%nat.
Proof.
  intros Hr Hl. apply body_lists_ok in Hl. split; [by apply decode_v1|]. split; [by apply decode_v1_as_v2|].
  eexists. split; [by apply decode_v2_as_v1|]. unfold put_opt, put_u8.
  destruct (delegation_proof (basis r)); cbn; lia.
Qed.

Lemma body_versions_do_not_mix_witness :
  decode_record_at (encode_fields sample) 1 = Ok (with_delegation sample None) /\
  decode_record_at (encode_fields sample) 2 = Err Truncated.
Proof.
  destruct (body_versions_do_not_mix sample) as (H1 & H2 & _).
  - exact sample_record_ok.
  - vm_compute. discriminate.
  - split; [exact H1|exact H2].
Defined.
