(* ===== verification/Frame.v ===== *)
(** * Frames and segment headers ([trailryx-journal/src/wire.rs], Framing)

    [frame := magic version len body chain_link crc32], and the header each
    segment file starts with. *)

From S2P Require Import Prelude Bytes Ids Record Codec Wire WireRecord.

Definition FRAME_MAGIC : byte := u8 0xA7.
Definition SEGMENT_MAGIC : list byte := lit "TRLX".
Definition FORMAT_VERSION : Z := 1.
Definition MAX_SEGMENT_HEADER_LEN : nat := 34.

(** [crc.to_le_bytes()] appended to what it covers. *)
Definition with_crc (out : list byte) : list byte := out ++ to_le_bytes 4 (crc32 out).

Definition frame_head (len : Z) (version : Z) : list byte :=
  [FRAME_MAGIC] ++ put_u8 version ++ put_varint len.

Definition encode_frame_at (body : list byte) (chain_link : Hash) (version : Z) : list byte :=
  with_crc (frame_head (Z.of_nat (length body)) version ++ body ++ chain_link).

Definition encode_frame (body : list byte) (chain_link : Hash) : list byte :=
  encode_frame_at body chain_link FRAME_VERSION.

Record Frame := MkFrame { f_body : list byte; f_link : Hash; total_len : nat; f_version : Z }.

#[export] Instance Frame_eq_dec : EqDecision Frame.
Proof. solve_decision. Defined.

(** The reader's part of [decode_frame]: magic, version and length. *)
Definition get_frame_head : Rd (Z * Z) :=
  m ← get_u8;
  if negb (bool_decide (m = FRAME_MAGIC)) then rd_fail BadMagic
  else
    version ← get_u8;
    if negb ((OLDEST_FRAME_VERSION <=? u8v version) && (u8v version <=? FRAME_VERSION))
    then rd_fail (UnknownVersion (u8v version))
    else
      len ← get_varint;
      if MAX_BODY_BYTES <? len then rd_fail (TooLarge len) else mret (u8v version, len).

(** [u32::from_le_bytes] of the four bytes at [at_]. *)
Definition crc_at (buf : list byte) (at_ : nat) : Z := from_le_bytes (slice buf at_ 4).

Definition decode_frame (buf : list byte) : result WireError Frame :=
  match get_frame_head buf with
  | Err e => Err e
  | Ok ((version, len), rest) =>
      let header_len := (length buf - length rest)%nat in
      let body_end := (header_len + Z.to_nat len)%nat in
      let link_end := (body_end + HASH_BYTES)%nat in
      let crc_end := (link_end + 4)%nat in
      if (length buf <? crc_end)%nat then Err Truncated
      else if negb (crc32 (take link_end buf) =? crc_at buf link_end) then Err BadCrc
      else Ok {| f_body := slice buf header_len (Z.to_nat len);
                 f_link := slice buf body_end HASH_BYTES;
                 total_len := crc_end; f_version := version |}
  end.

(** ** Segment headers *)

Definition encode_segment_header (shard_ : ShardIx) (segment : SegmentId) (created_at : Timestamp) : list byte :=
  with_crc (SEGMENT_MAGIC ++ put_varint FORMAT_VERSION ++ put_varint shard_ ++ put_varint segment
            ++ put_varint created_at).

Record SegmentHeader := MkHeader {
  h_format : Z; h_shard : ShardIx; h_segment : SegmentId; h_created_at : Timestamp; h_len : nat }.

#[export] Instance SegmentHeader_eq_dec : EqDecision SegmentHeader.
Proof. solve_decision. Defined.

Definition get_header_fields : Rd (Z * Z * Z * Z) :=
  format ← get_narrow u16_max;
  if negb (format =? FORMAT_VERSION) then
    rd_fail (UnknownVersion (if format <? 256 then format else 255))
  else
    shard_ ← get_narrow u16_max;
    segment ← get_varint;
    created ← get_varint;
    mret (format, shard_, segment, created).

Definition decode_segment_header (buf : list byte) : result WireError SegmentHeader :=
  if (length buf <? 4)%nat then Err Truncated
  else if negb (bool_decide (take 4 buf = SEGMENT_MAGIC)) then Err BadMagic
  else
    match get_header_fields (drop 4 buf) with
    | Err e => Err e
    | Ok ((format, shard_, segment, created), rest) =>
        let consumed := (4 + (length buf - 4 - length rest))%nat in
        let crc_end := (consumed + 4)%nat in
        if (length buf <? crc_end)%nat then Err Truncated
        else if negb (crc32 (take consumed buf) =? crc_at buf consumed) then Err BadCrc
        else Ok {| h_format := format; h_shard := shard_; h_segment := segment;
                   h_created_at := created; h_len := crc_end |}
    end.

(** ** The head of a frame *)

Definition version_ok (v : Z) : Prop := v = 1 \/ v = 2.

#[export] Instance version_ok_dec v : Decision (version_ok v).
Proof. unfold version_ok. apply _. Defined.

Lemma get_u8_cons b bs {B} (f : byte -> Rd B) : (get_u8 ≫= f) (b :: bs) = f b bs.
Proof. reflexivity. Qed.

Lemma version_check v : version_ok v ->
  u8v (u8 v) = v /\ negb ((OLDEST_FRAME_VERSION <=? v) && (v <=? FRAME_VERSION)) = false.
Proof. by intros [-> | ->]. Qed.

Lemma frame_head_reads v len rest :
  version_ok v -> 0 <= len <= MAX_BODY_BYTES ->
  get_frame_head (frame_head len v ++ rest) = Ok ((v, len), rest).
Proof.
  intros Hv Hl. destruct (version_check v Hv) as [Ev Ec]. unfold get_frame_head, frame_head, put_u8. cbn [app].
  rewrite get_u8_cons, bool_decide_true by done. cbn [negb]. rewrite get_u8_cons, Ev, Ec.
  rewrite (rd_bind_reads varint_codec) by (unfold u64_ok, MAX_BODY_BYTES in *; lia).
  destruct (Z.ltb_spec MAX_BODY_BYTES len); [lia|done].
Qed.

(** A length over the limit is refused before anything else is read. *)
Lemma frame_head_too_large v len rest :
  version_ok v -> u64_ok len -> MAX_BODY_BYTES < len ->
  get_frame_head (frame_head len v ++ rest) = Err (TooLarge len).
Proof.
  intros Hv Hu Hl. destruct (version_check v Hv) as [Ev Ec]. unfold get_frame_head, frame_head, put_u8. cbn [app].
  rewrite get_u8_cons, bool_decide_true by done. cbn [negb]. rewrite get_u8_cons, Ev, Ec.
  rewrite (rd_bind_reads varint_codec) by done.
  destruct (Z.ltb_spec MAX_BODY_BYTES len); [done|lia].
Qed.

Lemma frame_head_sound bs v len rest :
  get_frame_head bs = Ok ((v, len), rest) ->
  bs = frame_head len v ++ rest /\ version_ok v /\ 0 <= len <= MAX_BODY_BYTES.
Proof.
  unfold get_frame_head. intros H. destruct bs as [|m bs]; [done|]. rewrite get_u8_cons in H.
  case_bool_decide as Hm; cbn [negb] in H; [|done]. subst m. destruct bs as [|b bs]; [done|].
  rewrite get_u8_cons in H. destruct (negb _) eqn:Ev; [done|]. breflect.
  apply rd_bind_ok in H as (n & bs' & Hn & H). apply varint_codec in Hn as [-> Hn].
  destruct (Z.ltb_spec MAX_BODY_BYTES n); [done|]. apply rd_ret_ok in H as [[= <- <-] ->].
  unfold frame_head, put_u8, u64_ok in *. rewrite u8_u8v. unfold OLDEST_FRAME_VERSION, FRAME_VERSION in *.
  split; [done|]. split; [|lia]. unfold version_ok. lia.
Qed.

(** A varint cut short is truncated, never another number. *)
Lemma varint_cut f v g out n :
  g = 10 - Z.of_nat f -> (1 <= f <= 10)%nat -> 0 <= v < 2 ^ (64 - 7 * g) -> 0 <= out < 2 ^ (7 * g) ->
  (n < length (put_varint_loop f v))%nat ->
  get_varint_loop g (7 * g) out (take n (put_varint_loop f v)) = Err Truncated.
Proof.
  revert v g out n; induction f as [|f IH]; intros v g out n Hg Hf Hv Ho Hn; [lia|].
  destruct n as [|n]; [done|]. rewrite put_varint_step in * by lia.
  destruct (Z.ltb_spec v 128); [cbn in Hn; lia|]. cbn [length] in Hn.
  change (take (S n) (?x :: ?l)) with (x :: take n l).
  assert (g <= 8) by (destruct (Z.eq_dec g 9) as [->|]; [cbn in Hv; lia|lia]).
  pose proof (Z.mod_pos_bound v 128 ltac:(lia)). pose proof (Z.div_mod v 128 ltac:(lia)).
  rewrite get_varint_step by lia. rewrite u8v_u8_small by lia. cbn zeta.
  destruct (Z.ltb_spec (v mod 128 + 128) 128); [lia|].
  replace ((v mod 128 + 128) mod 128) with (v mod 128)
    by (rewrite <- (Z.mod_add v 1 128), Z.mul_1_l, <- Zplus_mod_idemp_l at 1 by lia; done).
  assert (Hp : 0 < 2 ^ (7 * g)) by (apply Z.pow_pos_nonneg; lia).
  apply IH; [lia|lia| |rewrite pow_7 by lia; nia|lia].
  rewrite pow_rest in Hv by lia. lia.
Qed.

Lemma frame_head_cut v len n :
  version_ok v -> u64_ok len -> (n < length (frame_head len v))%nat ->
  get_frame_head (take n (frame_head len v)) = Err Truncated.
Proof.
  intros Hv Hl Hn. destruct (version_check v Hv) as [Ev Ec].
  unfold frame_head, put_u8 in *. cbn [app length] in Hn. cbn [app].
  destruct n as [|[|n]]; [done|done|]. change (take (S (S n)) (?x :: ?y :: ?l)) with (x :: y :: take n l).
  unfold get_frame_head. rewrite get_u8_cons, bool_decide_true by done. cbn [negb].
  rewrite get_u8_cons, Ev, Ec. unfold mbind, rd_bind, get_varint, put_varint in *.
  change (get_varint_loop 0 0 0) with (get_varint_loop 0 (7 * 0) 0).
  rewrite varint_cut with (f := 10%nat); [done|done|lia| |done|lia].
  unfold u64_ok in Hl. change (64 - 7 * 0) with 64. exact Hl.
Qed.

(** ** Whole frames *)

Lemma length_with_crc out : length (with_crc out) = (length out + 4)%nat.
Proof. unfold with_crc. by rewrite length_app, length_to_le_bytes. Qed.

Lemma crc_at_with_crc out rest : crc_at (with_crc out ++ rest) (length out) = crc32 out.
Proof.
  unfold crc_at, with_crc. rewrite <- app_assoc.
  rewrite slice_app_mid by (by rewrite ?length_to_le_bytes).
  rewrite from_to_le_bytes. apply Z.mod_small, crc32_ok.
Qed.

(** What [decode_frame] computes on a head followed by [rest]. *)
Lemma decode_frame_head v len rest :
  version_ok v -> 0 <= len <= MAX_BODY_BYTES ->
  let hd := frame_head len v in
  let link_end := (length hd + Z.to_nat len + HASH_BYTES)%nat in
  decode_frame (hd ++ rest) =
  if (length (hd ++ rest) <? link_end + 4)%nat then Err Truncated
  else if negb (crc32 (take link_end (hd ++ rest)) =? crc_at (hd ++ rest) link_end) then Err BadCrc
  else Ok {| f_body := slice (hd ++ rest) (length hd) (Z.to_nat len);
             f_link := slice (hd ++ rest) (length hd + Z.to_nat len) HASH_BYTES;
             total_len := link_end + 4; f_version := v |}.
Proof.
  intros Hv Hl. cbn zeta. unfold decode_frame. rewrite frame_head_reads by done. cbn zeta.
  replace (length (frame_head len v ++ rest) - length rest)%nat with (length (frame_head len v))
    by (rewrite length_app; lia).
  reflexivity.
Qed.

Lemma length_encode_frame body link v :
  length (encode_frame_at body link v) =
  (length (frame_head (Z.of_nat (length body)) v) + length body + length link + 4)%nat.
Proof. unfold encode_frame_at. rewrite length_with_crc, !length_app. lia. Qed.

Definition body_fits (body : list byte) : Prop := Z.of_nat (length body) <= MAX_BODY_BYTES.

#[export] Instance body_fits_dec b : Decision (body_fits b) := ltac:(unfold body_fits; apply _).

Lemma frame_reads body link v rest :
  version_ok v -> body_fits body -> hash_ok link ->
  decode_frame (encode_frame_at body link v ++ rest) =
  Ok {| f_body := body; f_link := link; total_len := length (encode_frame_at body link v); f_version := v |}.
Proof.
  intros Hv Hb Hlink. unfold body_fits in Hb.
  set (hd := frame_head (Z.of_nat (length body)) v).
  assert (Hout : length (hd ++ body ++ link) = (length hd + length body + HASH_BYTES)%nat)
    by (rewrite !length_app, Hlink; lia).
  assert (E : encode_frame_at body link v ++ rest = hd ++ body ++ link ++ to_le_bytes 4 (crc32 (hd ++ body ++ link)) ++ rest)
    by (unfold encode_frame_at, with_crc; fold hd; by rewrite <- !app_assoc).
  assert (Hcrc : crc_at (hd ++ body ++ link ++ to_le_bytes 4 (crc32 (hd ++ body ++ link)) ++ rest)
     (length hd + length body + HASH_BYTES) = crc32 (hd ++ body ++ link)).
  { rewrite <- E, <- Hout. apply crc_at_with_crc. }
  rewrite E. unfold hd. rewrite decode_frame_head by (done || lia). fold hd. rewrite Nat2Z.id. cbn zeta.
  rewrite Hcrc. rewrite !length_app, length_to_le_bytes, Hlink.
  destruct (Nat.ltb_spec (length hd + (length body + (HASH_BYTES + (4 + length rest))))
              (length hd + length body + HASH_BYTES + 4)); [lia|].
  assert (Ht : take (length hd + length body + HASH_BYTES)
     (hd ++ body ++ link ++ to_le_bytes 4 (crc32 (hd ++ body ++ link)) ++ rest) = hd ++ body ++ link).
  { rewrite <- Hout. rewrite !(app_assoc hd), !(app_assoc (hd ++ body)).
    rewrite !app_assoc. rewrite <- (app_assoc ((hd ++ body) ++ link)). apply take_app_length. }
  rewrite Ht, Z.eqb_refl. cbn [negb]. f_equal. f_equal.
  - by apply slice_app_mid.
  - rewrite (app_assoc hd). apply slice_app_mid; [by rewrite length_app|by rewrite Hlink].
  - rewrite length_encode_frame, Hlink. fold hd. lia.
Qed.

Lemma frame_sound buf f :
  decode_frame buf = Ok f ->
  (f.(total_len) <= length buf)%nat /\
  take f.(total_len) buf = encode_frame_at f.(f_body) f.(f_link) f.(f_version) /\
  body_fits f.(f_body) /\ hash_ok f.(f_link) /\ version_ok f.(f_version).
Proof.
  intros H. unfold decode_frame in H.
  destruct (get_frame_head buf) as [[[v len] rest]|e] eqn:Eh; [|done].
  apply frame_head_sound in Eh as (-> & Hv & Hl).
  replace (length (frame_head len v ++ rest) - length rest)%nat with (length (frame_head len v)) in H
    by (rewrite length_app; lia). cbn zeta in H.
  set (hd := frame_head len v) in *. set (n := Z.to_nat len) in *.
  destruct (Nat.ltb_spec (length (hd ++ rest)) (length hd + n + HASH_BYTES + 4)) as [|Hlen]; [done|].
  destruct (Z.eqb_spec (crc32 (take (length hd + n + HASH_BYTES) (hd ++ rest)))
              (crc_at (hd ++ rest) (length hd + n + HASH_BYTES))) as [Hcrc|]; [|done].
  cbn [negb] in H. apply Ok_inj in H as <-. cbn [total_len f_body f_link f_version].
  rewrite length_app in Hlen.
  assert (Hb : slice (hd ++ rest) (length hd) n = take n rest).
  { unfold slice. by rewrite drop_app_length. }
  assert (Hbl : length (take n rest) = n) by (rewrite length_take; lia).
  assert (Hk : slice (hd ++ rest) (length hd + n) HASH_BYTES = slice rest n HASH_BYTES).
  { unfold slice. by rewrite <- drop_drop, drop_app_length. }
  assert (Hkl : length (slice rest n HASH_BYTES) = HASH_BYTES) by (apply length_slice; lia).
  rewrite Hb, Hk. split; [rewrite length_app; lia|]. split; [|].
  - unfold encode_frame_at. rewrite Hbl. replace (Z.of_nat n) with len by (unfold n; lia). fold hd.
    assert (Ht : take (length hd + n + HASH_BYTES) (hd ++ rest) = hd ++ take n rest ++ slice rest n HASH_BYTES).
    { rewrite <- Nat.add_assoc, take_app_add. f_equal. by rewrite take_plus_slice. }
    unfold with_crc. rewrite <- Ht, Hcrc. unfold crc_at.
    assert (Hs : length (slice (hd ++ rest) (length hd + n + HASH_BYTES) 4) = 4%nat)
      by (apply length_slice; rewrite length_app; lia).
    rewrite <- Hs at 2. rewrite to_from_le_bytes. by rewrite take_plus_slice.
  - split; [unfold body_fits; rewrite Hbl; lia|]. split; [exact Hkl|exact Hv].
Qed.

(** The bytes of a frame after its head. *)
Definition frame_tail (body : list byte) (link : Hash) (v : Z) : list byte :=
  (body ++ link) ++ to_le_bytes 4 (crc32 (frame_head (Z.of_nat (length body)) v ++ body ++ link)).

Lemma frame_split body link v :
  encode_frame_at body link v = frame_head (Z.of_nat (length body)) v ++ frame_tail body link v.
Proof. unfold encode_frame_at, with_crc, frame_tail. by rewrite <- !app_assoc. Qed.

Lemma length_frame_tail body link v :
  length (frame_tail body link v) = (length body + length link + 4)%nat.
Proof. unfold frame_tail. by rewrite !length_app, length_to_le_bytes. Qed.

(** A frame cut anywhere is truncated. *)
Lemma frame_cut body link v n :
  version_ok v -> body_fits body -> hash_ok link -> (n < length (encode_frame_at body link v))%nat ->
  decode_frame (take n (encode_frame_at body link v)) = Err Truncated.
Proof.
  intros Hv Hb Hlink Hn. unfold body_fits in Hb. rewrite frame_split in *.
  rewrite length_app, length_frame_tail, Hlink in Hn. set (hd := frame_head (Z.of_nat (length body)) v) in *.
  destruct (Nat.lt_ge_cases n (length hd)) as [Hlt|Hge].
  - rewrite take_app_le by lia. unfold decode_frame, hd.
    rewrite frame_head_cut; [done|done|unfold u64_ok, MAX_BODY_BYTES in *; lia|done].
  - rewrite take_app_ge by lia. unfold hd. rewrite decode_frame_head by (done || lia). cbn zeta. fold hd.
    rewrite Nat2Z.id, length_app, length_take, length_frame_tail, Hlink.
    destruct (Nat.ltb_spec (length hd + (n - length hd) `min` (length body + HASH_BYTES + 4))
                (length hd + length body + HASH_BYTES + 4)); [done|lia].
Qed.

(** The check of a frame whose tail was replaced by one of the same length. *)
Lemma decode_frame_tail body link v out crc rest :
  version_ok v -> body_fits body -> hash_ok link ->
  length out = length (body ++ link) -> length crc = 4%nat ->
  let hd := frame_head (Z.of_nat (length body)) v in
  crc32 (hd ++ out) <> from_le_bytes crc ->
  decode_frame (hd ++ out ++ crc ++ rest) = Err BadCrc.
Proof.
  intros Hv Hb Hlink Ho Hc. cbn zeta. intros Hne. unfold body_fits in Hb.
  rewrite decode_frame_head by (done || lia). cbn zeta. rewrite Nat2Z.id.
  set (hd := frame_head (Z.of_nat (length body)) v) in *. rewrite length_app, Hlink in Ho.
  rewrite !length_app, Ho, Hc.
  destruct (Nat.ltb_spec (length hd + (length body + HASH_BYTES + (4 + length rest)))
              (length hd + length body + HASH_BYTES + 4)); [lia|].
  assert (Hlen : length (hd ++ out) = (length hd + length body + HASH_BYTES)%nat) by (rewrite length_app; lia).
  assert (Ht : take (length hd + length body + HASH_BYTES) (hd ++ out ++ crc ++ rest) = hd ++ out).
  { rewrite <- Hlen, app_assoc. apply take_app_length. }
  assert (Hs : crc_at (hd ++ out ++ crc ++ rest) (length hd + length body + HASH_BYTES) = from_le_bytes crc).
  { unfold crc_at. f_equal. rewrite app_assoc. by apply slice_app_mid. }
  rewrite Ht, Hs. destruct (Z.eqb_spec (crc32 (hd ++ out)) (from_le_bytes crc)); [done|]. done.
Qed.

Lemma from_le_bytes_inj a b : length a = length b -> from_le_bytes a = from_le_bytes b -> a = b.
Proof. intros Hl E. rewrite <- (to_from_le_bytes a), <- (to_from_le_bytes b), Hl, E. done. Qed.

(** One changed byte after the head, in the body, the link or the checksum, is
    always caught. *)
Lemma frame_one_byte body link v p x y s rest :
  version_ok v -> body_fits body -> hash_ok link ->
  frame_tail body link v = p ++ x :: s -> x <> y ->
  decode_frame (frame_head (Z.of_nat (length body)) v ++ (p ++ y :: s) ++ rest) = Err BadCrc.
Proof.
  intros Hv Hb Hlink E Hxy. set (hd := frame_head (Z.of_nat (length body)) v).
  unfold frame_tail in E. fold hd in E.
  assert (Hcases : (exists s', body ++ link = p ++ x :: s' /\ s = s' ++ to_le_bytes 4 (crc32 (hd ++ body ++ link)))
    \/ (exists p', p = (body ++ link) ++ p' /\ to_le_bytes 4 (crc32 (hd ++ body ++ link)) = p' ++ x :: s)).
  { revert E. generalize (to_le_bytes 4 (crc32 (hd ++ body ++ link))) as cb. intros cb E.
    apply app_eq_inv in E as [(k & E1 & E2)|(k & E1 & E2)]; [|by right; exists k].
    destruct k as [|z k]; [right; exists []; rewrite app_nil_r in *; done|].
    cbn in E2. injection E2 as -> ->. left. by exists k. }
  destruct Hcases as [(s' & Eb & ->)|(p' & -> & Ec)].
  - replace (hd ++ (p ++ y :: s' ++ to_le_bytes 4 (crc32 (hd ++ body ++ link))) ++ rest)
      with (hd ++ (p ++ y :: s') ++ to_le_bytes 4 (crc32 (hd ++ body ++ link)) ++ rest)
      by (rewrite <- !app_assoc; cbn; by rewrite <- !app_assoc).
    apply (decode_frame_tail body link v); [done..| |apply length_to_le_bytes|].
    + rewrite Eb, !length_app. done.
    + rewrite from_to_le_bytes, Z.mod_small by apply crc32_ok. fold hd. rewrite Eb.
      rewrite !app_assoc. intros Hcrc. apply crc32_one_byte in Hcrc. congruence.
  - replace (hd ++ (((body ++ link) ++ p') ++ y :: s) ++ rest) with (hd ++ (body ++ link) ++ (p' ++ y :: s) ++ rest)
      by (rewrite <- !app_assoc; cbn; by rewrite <- ?app_assoc).
    assert (Hl4 : length (p' ++ x :: s) = 4%nat) by (rewrite <- Ec; apply length_to_le_bytes).
    apply (decode_frame_tail body link v); [done..| |].
    + rewrite <- Hl4, !length_app. done.
    + fold hd. intros Hcrc. apply Hxy.
      rewrite <- (Z.mod_small (crc32 (hd ++ body ++ link)) (256 ^ Z.of_nat 4)) in Hcrc by apply crc32_ok.
      rewrite <- from_to_le_bytes, Ec in Hcrc. apply from_le_bytes_inj in Hcrc; [|by rewrite !length_app].
      apply app_inv_head in Hcrc. by injection Hcrc.
Qed.

Lemma frame_too_large body link v rest :
  version_ok v -> ~ body_fits body -> u64_ok (Z.of_nat (length body)) ->
  decode_frame (encode_frame_at body link v ++ rest) = Err (TooLarge (Z.of_nat (length body))).
Proof.
  intros Hv Hb Hu. unfold body_fits in Hb. rewrite frame_split, <- app_assoc. unfold decode_frame.
  rewrite frame_head_too_large; [done|done|done|lia].
Qed.

(** ** Segment headers *)

Definition header_fields (ix seg at_ : Z) : list byte :=
  put_varint FORMAT_VERSION ++ put_varint ix ++ put_varint seg ++ put_varint at_.

Lemma header_fields_reads ix seg at_ rest :
  u16_ok ix -> u64_ok seg -> u64_ok at_ ->
  get_header_fields (header_fields ix seg at_ ++ rest) = Ok ((FORMAT_VERSION, ix, seg, at_), rest).
Proof.
  intros H1 H2 H3. unfold get_header_fields, header_fields. rewrite <- !app_assoc.
  rewrite (rd_bind_reads u16_codec) by by_evaluation.
  rewrite Z.eqb_refl. cbn [negb].
  rewrite (rd_bind_reads u16_codec) by done. rewrite (rd_bind_reads varint_codec) by done.
  by rewrite (rd_bind_reads varint_codec).
Qed.

Lemma header_fields_sound bs f ix seg at_ rest :
  get_header_fields bs = Ok ((f, ix, seg, at_), rest) ->
  bs = header_fields ix seg at_ ++ rest /\ f = FORMAT_VERSION /\ u16_ok ix /\ u64_ok seg /\ u64_ok at_.
Proof.
  unfold get_header_fields, header_fields. intros H. apply rd_bind_ok in H as (f' & b1 & H1 & H).
  apply (codec_sound u16_codec) in H1 as [-> _]. destruct (Z.eqb_spec f' FORMAT_VERSION) as [->|]; [|done].
  cbn [negb] in H. apply rd_bind_ok in H as (ix' & b2 & H2 & H). apply (codec_sound u16_codec) in H2 as [-> ?].
  apply rd_bind_ok in H as (seg' & b3 & H3 & H). apply (codec_sound varint_codec) in H3 as [-> ?].
  apply rd_bind_ok in H as (at' & b4 & H4 & H). apply (codec_sound varint_codec) in H4 as [-> ?].
  apply rd_ret_ok in H as [[= <- <- <- <-] ->]. by rewrite <- !app_assoc.
Qed.

Lemma length_header_fields ix seg at_ :
  u16_ok ix -> u64_ok seg -> u64_ok at_ -> (length (encode_segment_header ix seg at_) <= MAX_SEGMENT_HEADER_LEN)%nat.
Proof.
  intros H1 H2 H3. unfold encode_segment_header. rewrite length_with_crc, !length_app.
  pose proof (put_varint_length _ H2). pose proof (put_varint_length _ H3).
  assert (Hix : (length (put_varint ix) <= 3)%nat).
  { unfold u16_ok in H1. unfold put_varint. rewrite put_varint_step by lia. destruct (Z.ltb_spec ix 128); [cbn; lia|].
    pose proof (Z.div_mod ix 128 ltac:(lia)). pose proof (Z.mod_pos_bound ix 128 ltac:(lia)).
    rewrite put_varint_step by lia. destruct (Z.ltb_spec (ix / 128) 128); [cbn; lia|].
    pose proof (Z.div_mod (ix / 128) 128 ltac:(lia)). pose proof (Z.mod_pos_bound (ix / 128) 128 ltac:(lia)).
    rewrite put_varint_step by lia. destruct (Z.ltb_spec (ix / 128 / 128) 128); [cbn; lia|lia]. }
  change (length SEGMENT_MAGIC) with 4%nat. change (length (put_varint FORMAT_VERSION)) with 1%nat.
  unfold MAX_SEGMENT_HEADER_LEN. lia.
Qed.

Lemma header_reads ix seg at_ rest :
  u16_ok ix -> u64_ok seg -> u64_ok at_ ->
  decode_segment_header (encode_segment_header ix seg at_ ++ rest) =
  Ok {| h_format := FORMAT_VERSION; h_shard := ix; h_segment := seg; h_created_at := at_;
        h_len := length (encode_segment_header ix seg at_) |}.
Proof.
  intros H1 H2 H3. unfold encode_segment_header. fold (header_fields ix seg at_).
  set (out := SEGMENT_MAGIC ++ header_fields ix seg at_). unfold decode_segment_header.
  assert (E : with_crc out ++ rest = SEGMENT_MAGIC ++ header_fields ix seg at_ ++ to_le_bytes 4 (crc32 out) ++ rest)
    by (unfold with_crc, out; by rewrite <- !app_assoc).
  assert (Hl : length (with_crc out ++ rest) = (length out + 4 + length rest)%nat) by (rewrite length_app, length_with_crc; lia).
  assert (Ho : length out = (4 + length (header_fields ix seg at_))%nat) by (unfold out; by rewrite length_app).
  rewrite Hl. destruct (Nat.ltb_spec (length out + 4 + length rest) 4); [lia|].
  assert (Ht : take 4 (with_crc out ++ rest) = SEGMENT_MAGIC) by (rewrite E; reflexivity).
  assert (Hd : drop 4 (with_crc out ++ rest) = header_fields ix seg at_ ++ to_le_bytes 4 (crc32 out) ++ rest)
    by (rewrite E; reflexivity).
  rewrite Ht, Hd, bool_decide_true by done. cbn [negb]. rewrite header_fields_reads by done.
  rewrite length_app, length_to_le_bytes.
  replace (4 + (length out + 4 + length rest - 4 - (4 + length rest)))%nat with (length out) by lia. cbn zeta.
  destruct (Nat.ltb_spec (length out + 4 + length rest) (length out + 4)); [lia|].
  rewrite crc_at_with_crc. unfold with_crc at 1. rewrite <- app_assoc, take_app_length, Z.eqb_refl.
  cbn [negb]. by rewrite length_with_crc.
Qed.

Lemma header_sound buf h :
  decode_segment_header buf = Ok h ->
  (h.(h_len) <= length buf)%nat /\
  take h.(h_len) buf = encode_segment_header h.(h_shard) h.(h_segment) h.(h_created_at) /\
  h.(h_format) = FORMAT_VERSION /\ u16_ok h.(h_shard) /\ u64_ok h.(h_segment) /\ u64_ok h.(h_created_at).
Proof.
  unfold decode_segment_header. destruct (Nat.ltb_spec (length buf) 4) as [|H4]; [done|].
  case_bool_decide as Hm; cbn [negb]; [|done].
  destruct (get_header_fields (drop 4 buf)) as [[[[[f ix] seg] at_] rest]|e] eqn:E; [|done].
  apply header_fields_sound in E as (E & -> & H1 & H2 & H3). cbn zeta.
  assert (Eb : buf = (SEGMENT_MAGIC ++ header_fields ix seg at_) ++ rest).
  { rewrite <- (take_drop 4 buf), Hm, E. by rewrite <- app_assoc. }
  set (out := SEGMENT_MAGIC ++ header_fields ix seg at_) in *.
  assert (Hlen : (4 + (length buf - 4 - length rest))%nat = length out).
  { rewrite Eb, length_app. assert (4 <= length out)%nat by (unfold out; rewrite length_app; cbn; lia). lia. }
  rewrite Hlen. destruct (Nat.ltb_spec (length buf) (length out + 4)) as [|Hl]; [done|].
  destruct (Z.eqb_spec (crc32 (take (length out) buf)) (crc_at buf (length out))) as [Hc|]; cbn [negb]; [|done].
  intros H. apply Ok_inj in H as <-. cbn [h_len h_shard h_segment h_created_at h_format].
  split; [lia|]. split; [|done]. unfold encode_segment_header. fold (header_fields ix seg at_). fold out.
  rewrite take_plus_slice. unfold with_crc.
  assert (Ht : take (length out) buf = out) by (rewrite Eb; apply take_app_length).
  rewrite Ht in *. f_equal. rewrite Hc. unfold crc_at.
  assert (Hs : length (slice buf (length out) 4) = 4%nat) by (apply length_slice; lia).
  rewrite <- Hs at 2. symmetry. apply to_from_le_bytes.
Qed.

(** What a reader makes of a cut encoding: a truncated first part, or the first
    part and a cut rest. *)
Definition cut_reads {A} (put : A -> list byte) (get : Rd A) (wf : A -> Prop) : Prop :=
  forall v n, wf v -> (n < length (put v))%nat -> get (take n (put v)) = Err Truncated.

Lemma cut_varint : cut_reads put_varint get_varint u64_ok.
Proof.
  intros v n Hv Hn. unfold get_varint, put_varint in *. change (get_varint_loop 0 0 0) with (get_varint_loop 0 (7 * 0) 0).
  apply varint_cut; [done|lia| |done|done]. exact Hv.
Qed.

Lemma cut_u16 : cut_reads put_varint (get_narrow u16_max) u16_ok.
Proof.
  intros v n Hv Hn. unfold get_narrow, mbind, rd_bind. rewrite cut_varint; [done| |done].
  unfold u16_ok, u64_ok in *. lia.
Qed.

Lemma bind_cut {A B} (put : A -> list byte) get wf (f : A -> Rd B) v n rest :
  codec put get wf -> cut_reads put get wf -> wf v ->
  (get ≫= f) (take n (put v ++ rest)) =
  if (n <? length (put v))%nat then Err Truncated else f v (take (n - length (put v)) rest).
Proof.
  intros Hc Hcut Hv. destruct (Nat.ltb_spec n (length (put v))) as [Hlt|Hge].
  - rewrite take_app_le by lia. unfold mbind, rd_bind. by rewrite Hcut.
  - rewrite take_app_ge by lia. by rewrite (rd_bind_reads Hc).
Qed.

Lemma header_fields_cut ix seg at_ n :
  u16_ok ix -> u64_ok seg -> u64_ok at_ -> (n < length (header_fields ix seg at_))%nat ->
  get_header_fields (take n (header_fields ix seg at_)) = Err Truncated.
Proof.
  intros H1 H2 H3. unfold header_fields, get_header_fields. rewrite !length_app. intros Hn.
  rewrite (bind_cut _ _ _ _ _ _ _ u16_codec cut_u16) by by_evaluation.
  destruct (Nat.ltb_spec n (length (put_varint FORMAT_VERSION))); [done|]. rewrite Z.eqb_refl. cbn [negb].
  rewrite (bind_cut _ _ _ _ _ _ _ u16_codec cut_u16) by done.
  destruct (Nat.ltb_spec (n - length (put_varint FORMAT_VERSION)) (length (put_varint ix))); [done|].
  rewrite (bind_cut _ _ _ _ _ _ _ varint_codec cut_varint) by done.
  destruct (Nat.ltb_spec (n - length (put_varint FORMAT_VERSION) - length (put_varint ix)) (length (put_varint seg))); [done|].
  rewrite <- (app_nil_r (put_varint at_)). rewrite (bind_cut _ _ _ _ _ _ _ varint_codec cut_varint) by done.
  match goal with |- (if (?a <? ?b)%nat then _ else _) = _ => destruct (Nat.ltb_spec a b); [done|lia] end.
Qed.

(** A header cut anywhere is truncated. *)
Lemma header_cut ix seg at_ n :
  u16_ok ix -> u64_ok seg -> u64_ok at_ -> (n < length (encode_segment_header ix seg at_))%nat ->
  decode_segment_header (take n (encode_segment_header ix seg at_)) = Err Truncated.
Proof.
  intros H1 H2 H3. unfold encode_segment_header. fold (header_fields ix seg at_).
  set (out := SEGMENT_MAGIC ++ header_fields ix seg at_). rewrite length_with_crc. intros Hn.
  assert (Ho : length out = (4 + length (header_fields ix seg at_))%nat) by (unfold out; by rewrite length_app).
  unfold decode_segment_header. rewrite length_take, length_with_crc.
  destruct (Nat.ltb_spec (n `min` (length out + 4)) 4) as [|H4]; [done|].
  assert (E : with_crc out = SEGMENT_MAGIC ++ header_fields ix seg at_ ++ to_le_bytes 4 (crc32 out))
    by (unfold with_crc, out; by rewrite <- !app_assoc).
  assert (Ht : take 4 (take n (with_crc out)) = SEGMENT_MAGIC).
  { rewrite take_take, Nat.min_l by lia. rewrite E. reflexivity. }
  assert (Hd : drop 4 (take n (with_crc out)) = take (n - 4) (header_fields ix seg at_ ++ to_le_bytes 4 (crc32 out))).
  { replace n with (4 + (n - 4))%nat at 1 by lia. rewrite <- take_drop_commute, E. reflexivity. }
  rewrite Ht, Hd, bool_decide_true by done. cbn [negb].
  destruct (Nat.lt_ge_cases (n - 4) (length (header_fields ix seg at_))) as [Hlt|Hge].
  - rewrite take_app_le by lia. by rewrite header_fields_cut.
  - rewrite take_app_ge by lia. rewrite header_fields_reads by done. cbn zeta.
    rewrite length_take, length_to_le_bytes.
    match goal with |- (if (?a <? ?b)%nat then _ else _) = _ => destruct (Nat.ltb_spec a b); [done|lia] end.
Qed.

(** ** The properties *)

(** Frames round trip, and nothing else decodes. A frame written by either
    version reads back as its body, link and version, whatever follows it, and
    its [total_len] is its length; conversely, a buffer that decodes begins with
    exactly the frame of the values returned. *)
Theorem frame_roundtrip (body : list byte) (link : Hash) (v : Z) (rest buf : list byte) (f : Frame) :
  version_ok v -> body_fits body -> hash_ok link ->
  decode_frame (encode_frame_at body link v ++ rest) =
    Ok {| f_body := body; f_link := link; total_len := length (encode_frame_at body link v); f_version := v |} /\
  (decode_frame buf = Ok f ->
   take f.(total_len) buf = encode_frame_at f.(f_body) f.(f_link) f.(f_version) /\
   (f.(total_len) <= length buf)%nat /\ body_fits f.(f_body) /\ hash_ok f.(f_link)).
Proof.
  intros Hv Hb Hl. split; [by apply frame_reads|]. intros H. apply frame_sound in H as (H1 & H2 & H3 & H4 & _). done.
Qed.

Definition sample_frame : Frame :=
  {| f_body := lit "body"; f_link := repeat x09 48; total_len := 59; f_version := 2 |}.

Lemma frame_roundtrip_witness :
  decode_frame (encode_frame (lit "body") (repeat x09 48) ++ lit "next") = Ok sample_frame.
Proof.
  destruct (frame_roundtrip (lit "body") (repeat x09 48) 2 (lit "next")
              (encode_frame (lit "body") (repeat x09 48) ++ lit "next") sample_frame) as [H _].
  - by right.
  - by_evaluation.
  - by_evaluation.
  - exact H.
Defined.

(** C40 (a torn or damaged frame is caught). A frame cut short at any byte, as a
    crash leaves it, decodes to [Truncated]: never to another frame, and never to a
    verdict of damage. Changing any single byte of a frame after its head, in the
    body, the chain link or the checksum itself, makes it decode to [BadCrc],
    whatever follows. *)
Theorem damaged_frame_is_caught (body : list byte) (link : Hash) (v : Z)
    (Hv : version_ok v) (Hb : body_fits body) (Hl : hash_ok link) :
  (forall n, (n < length (encode_frame_at body link v))%nat -> decode_frame (take n (encode_frame_at body link v)) = Err Truncated) /\
  (forall p s x y rest,
     encode_frame_at body link v = frame_head (Z.of_nat (length body)) v ++ p ++ x :: s -> x <> y ->
     decode_frame (frame_head (Z.of_nat (length body)) v ++ (p ++ y :: s) ++ rest) = Err BadCrc).
Proof.
  split; [intros n; by apply frame_cut|]. intros p s x y rest E Hxy. rewrite frame_split in E. apply app_inv_head in E. by eapply frame_one_byte.
Qed.

Lemma damaged_frame_is_caught_witness :
  decode_frame (take 30 (encode_frame (lit "body") (repeat x09 48))) = Err Truncated /\
  decode_frame (frame_head 4 2 ++ (lit "b" ++ x21 :: drop 2 (frame_tail (lit "body") (repeat x09 48) 2)) ++ []) = Err BadCrc.
Proof.
  destruct (damaged_frame_is_caught (lit "body") (repeat x09 48) 2) as [Hcut Hbyte].
  - by right.
  - by_evaluation.
  - by_evaluation.
  - split.
    + apply (Hcut 30%nat). vm_compute. lia.
    + apply (Hbyte (lit "b") (drop 2 (frame_tail (lit "body") (repeat x09 48) 2)) x6f x21 []); [vm_compute; reflexivity|discriminate].
Defined.

(** Segment headers. A header reads back as the shard, segment and time it
    was written for, whatever follows, within the 34 bytes the recovery relies
    on; and a header that decodes is the one encoding of what it says. *)
Theorem segment_header_roundtrip (ix seg at_ : Z) (rest buf : list byte) (h : SegmentHeader) :
  u16_ok ix -> u64_ok seg -> u64_ok at_ ->
  decode_segment_header (encode_segment_header ix seg at_ ++ rest) =
    Ok {| h_format := FORMAT_VERSION; h_shard := ix; h_segment := seg; h_created_at := at_;
          h_len := length (encode_segment_header ix seg at_) |} /\
  (length (encode_segment_header ix seg at_) <= MAX_SEGMENT_HEADER_LEN)%nat /\
  (decode_segment_header buf = Ok h ->
     take h.(h_len) buf = encode_segment_header h.(h_shard) h.(h_segment) h.(h_created_at)).
Proof.
  intros H1 H2 H3. split; [by apply header_reads|]. split; [by apply length_header_fields|].
  intros H. by apply header_sound in H as (_ & ? & _).
Qed.

Lemma segment_header_roundtrip_witness :
  decode_segment_header (encode_segment_header 3 70000 1000 ++ lit "rest") =
  Ok {| h_format := 1; h_shard := 3; h_segment := 70000; h_created_at := 1000; h_len := 15 |}.
Proof.
  destruct (segment_header_roundtrip 3 70000 1000 (lit "rest") [] (MkHeader 0 0 0 0 0)) as [H _].
  - by_evaluation.
  - by_evaluation.
  - by_evaluation.
  - exact H.
Defined.
