(* ===== verification/SimIo.v ===== *)
(** * Storage with a crash model ([trailryx-sim/src/io.rs], [rng.rs])

    The [Io] trait as a class of operations on a state, the laws its clients rely
    on, and the simulated disk that meets them: durable and dirty bytes per file,
    short writes, refused writes, failing flushes and the power cut. *)

From S2P Require Import Prelude Bytes Ids.

(** ** The trait *)

Inductive IoError := NotFound | NoSpace | SyncFailed | OtherIo (s : str).

#[export] Instance IoError_eq_dec : EqDecision IoError.
Proof. solve_decision. Defined.

Abbreviation FileId := nat (only parsing).

Class Io (S : Type) := {
  io_create : str -> S -> result IoError FileId * S;
  io_append : FileId -> list byte -> S -> result IoError nat * S;
  io_fsync : FileId -> S -> result IoError unit * S;
  io_truncate : FileId -> nat -> S -> result IoError unit * S;
  io_read_all : FileId -> S -> result IoError (list byte) * S;
  io_size : FileId -> S -> result IoError Z;
}.

(** What a client may rely on. [io_view s f] is what file [f] holds: the bytes
    that survive a crash and the bytes that may not. [io_honest] singles out the
    disks whose directory is in order and whose successful flush is a flush. *)
Class IoLaws (S : Type) `{Io S} := {
  io_view : S -> FileId -> option (list byte * list byte);
  io_named : S -> str -> option FileId;
  io_honest : S -> Prop;
  io_crash : S -> S -> Prop;

  io_named_law : forall s n f, io_honest s -> io_named s n = Some f ->
    io_view s f <> None /\ forall n', io_named s n' = Some f -> n' = n;
  io_create_law : forall name s r s', io_create name s = (r, s') ->
    (io_honest s -> io_honest s') /\
    match r with
    | Ok f =>
        io_named s' name = Some f /\ (forall n, n <> name -> io_named s' n = io_named s n) /\
        (forall g, g <> f -> io_view s' g = io_view s g) /\
        match io_named s name with
        | Some f0 => f = f0 /\ io_view s' f = io_view s f
        | None => io_view s f = None /\ io_view s' f = Some ([], [])
        end
    | Err _ => s' = s
    end;
  io_append_law : forall f data s r s', io_append f data s = (r, s') ->
    (io_honest s -> io_honest s') /\ (forall n, io_named s' n = io_named s n) /\
    (forall g, g <> f -> io_view s' g = io_view s g) /\
    match r with
    | Ok n => (n <= length data)%nat /\
        exists du di, io_view s f = Some (du, di) /\ io_view s' f = Some (du, di ++ take n data)
    | Err _ => io_view s' f = io_view s f
    end;
  io_fsync_law : forall f s r s', io_fsync f s = (r, s') ->
    (io_honest s -> io_honest s') /\ (forall n, io_named s' n = io_named s n) /\
    (forall g, g <> f -> io_view s' g = io_view s g) /\
    match r with
    | Ok _ => io_honest s -> exists du di, io_view s f = Some (du, di) /\ io_view s' f = Some (du ++ di, [])
    | Err _ => io_view s' f = io_view s f
    end;
  io_truncate_law : forall f len s r s', io_truncate f len s = (r, s') ->
    (io_honest s -> io_honest s') /\ (forall n, io_named s' n = io_named s n) /\
    (forall g, g <> f -> io_view s' g = io_view s g) /\
    match r with
    | Ok _ => exists du di, io_view s f = Some (du, di) /\
        io_view s' f = Some (take len du, take (len - length du) di)
    | Err _ => io_view s' f = io_view s f
    end;
  io_read_law : forall f s r s', io_read_all f s = (r, s') ->
    s' = s /\
    match r with
    | Ok bytes => exists du di, io_view s f = Some (du, di) /\ bytes = du ++ di
    | Err _ => io_view s f = None
    end;
  io_crash_law : forall s s', io_crash s s' ->
    (io_honest s -> io_honest s') /\ (forall n, io_named s' n = io_named s n) /\
    forall f, match io_view s f with
              | Some (du, di) => exists keep, io_view s' f = Some (du ++ take keep di, [])
              | None => io_view s' f = None
              end;
}.

(** ** The generator ([rng.rs]) *)

(** [splitmix64]: the value and the next state. *)
Definition next_u64 (state : Z) : Z * Z :=
  let state := as_u64 (state + 0x9E3779B97F4A7C15) in
  let z := state in
  let z := as_u64 (Z.lxor z (Z.shiftr z 30) * 0xBF58476D1CE4E5B9) in
  let z := as_u64 (Z.lxor z (Z.shiftr z 27) * 0x94D049BB133111EB) in
  (Z.lxor z (Z.shiftr z 31), state).

Definition below (n : Z) (state : Z) : Z * Z :=
  if n =? 0 then (0, state) else let '(v, state) := next_u64 state in (v mod n, state).

Definition chance_ppm (ppm : Z) (state : Z) : bool * Z :=
  if ppm =? 0 then (false, state)
  else let '(v, state) := below 1000000 state in (v <? ppm, state).

(** ** The simulated disk *)

Record IoFaults := MkFaults {
  short_write_ppm : Z; lying_fsync_ppm : Z; fsync_error_ppm : Z; no_space_ppm : Z }.

Record IoStats := MkStats {
  st_appends : Z; st_short_writes : Z; st_fsyncs : Z; st_lying_fsyncs : Z; st_fsync_errors : Z;
  st_no_space : Z; st_crashes : Z; st_bytes_lost : Z }.

Record SimFile := MkFile { sf_name : str; durable : list byte; dirty : list byte }.

Record SimIo := MkSim {
  files : list SimFile;
  by_name : gmap (list byte) FileId;
  rng : Z;
  faults : IoFaults;
  stats : IoStats;
}.

Definition no_faults : IoFaults := MkFaults 0 0 0 0.
Definition no_stats : IoStats := MkStats 0 0 0 0 0 0 0 0.

Definition sim_new (seed : Z) (f : IoFaults) : SimIo :=
  {| files := []; by_name := ∅; rng := seed; faults := f; stats := no_stats |}.

Definition set_rng (s : SimIo) (r : Z) : SimIo :=
  {| files := s.(files); by_name := s.(by_name); rng := r; faults := s.(faults); stats := s.(stats) |}.
Definition set_stats (s : SimIo) (st : IoStats) : SimIo :=
  {| files := s.(files); by_name := s.(by_name); rng := s.(rng); faults := s.(faults); stats := st |}.
Definition set_files (s : SimIo) (fs : list SimFile) : SimIo :=
  {| files := fs; by_name := s.(by_name); rng := s.(rng); faults := s.(faults); stats := s.(stats) |}.

Definition sim_create (name : str) (s : SimIo) : result IoError FileId * SimIo :=
  match s.(by_name) !! name with
  | Some id => (Ok id, s)
  | None =>
      let id := length s.(files) in
      if u32_max <? Z.of_nat id then (Err NoSpace, s)
      else
        (Ok id,
         {| files := s.(files) ++ [{| sf_name := name; durable := []; dirty := [] |}];
            by_name := <[name := id]> s.(by_name);
            rng := s.(rng); faults := s.(faults); stats := s.(stats) |})
  end.

Definition sim_append (f : FileId) (data : list byte) (s : SimIo) : result IoError nat * SimIo :=
  let '(no_space, r) := chance_ppm s.(faults).(no_space_ppm) s.(rng) in
  let '(short, r) := chance_ppm s.(faults).(short_write_ppm) r in
  let '(cut, r) :=
    if short && (1 <? length data)%nat then
      let '(v, r) := below (Z.of_nat (length data)) r in (Z.to_nat v, r)
    else (length data, r) in
  let s := set_rng s r in
  let st := s.(stats) in
  if no_space then
    (Err NoSpace, set_stats s (MkStats st.(st_appends) st.(st_short_writes) st.(st_fsyncs)
       st.(st_lying_fsyncs) st.(st_fsync_errors) (st.(st_no_space) + 1) st.(st_crashes) st.(st_bytes_lost)))
  else
    match s.(files) !! f with
    | None => (Err NotFound, s)
    | Some file =>
        let file' := {| sf_name := file.(sf_name); durable := file.(durable);
                        dirty := file.(dirty) ++ take cut data |} in
        let short_writes := st.(st_short_writes) + (if (cut <? length data)%nat then 1 else 0) in
        (Ok cut,
         set_stats (set_files s (<[f := file']> s.(files)))
           (MkStats (st.(st_appends) + 1) short_writes st.(st_fsyncs) st.(st_lying_fsyncs)
              st.(st_fsync_errors) st.(st_no_space) st.(st_crashes) st.(st_bytes_lost)))
    end.

Definition sim_fsync (f : FileId) (s : SimIo) : result IoError unit * SimIo :=
  let '(lying, r) := chance_ppm s.(faults).(lying_fsync_ppm) s.(rng) in
  let '(failing, r) := chance_ppm s.(faults).(fsync_error_ppm) r in
  let s := set_rng s r in
  let st := s.(stats) in
  let counted (lies errors : Z) := MkStats st.(st_appends) st.(st_short_writes) (st.(st_fsyncs) + 1)
    (st.(st_lying_fsyncs) + lies) (st.(st_fsync_errors) + errors) st.(st_no_space) st.(st_crashes) st.(st_bytes_lost) in
  if failing then (Err SyncFailed, set_stats s (counted 0 1))
  else if lying then (Ok tt, set_stats s (counted 1 0))
  else
    let s := set_stats s (counted 0 0) in
    match s.(files) !! f with
    | None => (Err NotFound, s)
    | Some file =>
        let file' := {| sf_name := file.(sf_name); durable := file.(durable) ++ file.(dirty); dirty := [] |} in
        (Ok tt, set_files s (<[f := file']> s.(files)))
    end.

Definition sim_truncate (f : FileId) (len : nat) (s : SimIo) : result IoError unit * SimIo :=
  match s.(files) !! f with
  | None => (Err NotFound, s)
  | Some file =>
      let file' :=
        if (len <=? length file.(durable))%nat then
          {| sf_name := file.(sf_name); durable := take len file.(durable); dirty := [] |}
        else
          let keep := (len - length file.(durable))%nat in
          if (keep <? length file.(dirty))%nat
          then {| sf_name := file.(sf_name); durable := file.(durable); dirty := take keep file.(dirty) |}
          else file in
      (Ok tt, set_files s (<[f := file']> s.(files)))
  end.

Definition sim_read_all (f : FileId) (s : SimIo) : result IoError (list byte) * SimIo :=
  match s.(files) !! f with
  | None => (Err NotFound, s)
  | Some file => (Ok (file.(durable) ++ file.(dirty)), s)
  end.

Definition sim_size (f : FileId) (s : SimIo) : result IoError Z :=
  match s.(files) !! f with
  | None => Err NotFound
  | Some file => Ok (Z.of_nat (length file.(durable) + length file.(dirty)))
  end.

Definition sim_durable_len (f : FileId) (s : SimIo) : result IoError Z :=
  match s.(files) !! f with
  | None => Err NotFound
  | Some file => Ok (Z.of_nat (length file.(durable)))
  end.

(** The loop of [crash] over the files. *)
Fixpoint crash_files (fs : list SimFile) (r lost : Z) : list SimFile * Z * Z :=
  match fs with
  | [] => ([], r, lost)
  | f :: fs' =>
      if (length f.(dirty) =? 0)%nat then
        let '(fs', r, lost) := crash_files fs' r lost in (f :: fs', r, lost)
      else
        let '(v, r) := below (Z.of_nat (length f.(dirty)) + 1) r in
        let keep := Z.to_nat v in
        let f' := {| sf_name := f.(sf_name); durable := f.(durable) ++ take keep f.(dirty); dirty := [] |} in
        let '(fs', r, lost) := crash_files fs' r (lost + Z.of_nat (length f.(dirty) - keep)) in
        (f' :: fs', r, lost)
  end.

Definition sim_crash (s : SimIo) : SimIo :=
  let '(fs, r, lost) := crash_files s.(files) s.(rng) 0 in
  let st := s.(stats) in
  {| files := fs; by_name := s.(by_name); rng := r; faults := s.(faults);
     stats := MkStats st.(st_appends) st.(st_short_writes) st.(st_fsyncs) st.(st_lying_fsyncs)
       st.(st_fsync_errors) st.(st_no_space) (st.(st_crashes) + 1) (st.(st_bytes_lost) + lost) |}.

#[export] Instance SimIo_Io : Io SimIo := {
  io_create := sim_create;
  io_append := sim_append;
  io_fsync := sim_fsync;
  io_truncate := sim_truncate;
  io_read_all := sim_read_all;
  io_size f s := sim_size f s;
}.

(** ** The simulated disk meets the laws *)

Definition sim_view (s : SimIo) (f : FileId) : option (list byte * list byte) :=
  (fun file => (file.(durable), file.(dirty))) <$> s.(files) !! f.

Definition sim_named (s : SimIo) (n : str) : option FileId := s.(by_name) !! n.

Record sim_honest (s : SimIo) : Prop := {
  honest_fsync : s.(faults).(lying_fsync_ppm) = 0;
  honest_names : forall n f, s.(by_name) !! n = Some f -> (f < length s.(files))%nat;
  honest_inj : forall n n' f, s.(by_name) !! n = Some f -> s.(by_name) !! n' = Some f -> n' = n;
}.

Definition sim_crashes (s s' : SimIo) : Prop := s' = sim_crash s.

Lemma below_range n r v r' : 0 <= n -> below n r = (v, r') -> 0 <= v /\ (0 < n -> v < n).
Proof.
  unfold below. intros Hn. destruct (Z.eqb_spec n 0).
  - intros [= <- <-]. split; lia.
  - destruct (next_u64 r) as [u r0]. intros [= <- <-].
    pose proof (Z.mod_pos_bound u n ltac:(lia)) as Hu. split; [apply Hu|intros _; apply Hu].
Qed.

(** An operation that writes only file [f], and leaves names and faults alone. *)
Lemma sim_honest_write s fs r st :
  length fs = length s.(files) -> sim_honest s ->
  sim_honest {| files := fs; by_name := s.(by_name); rng := r; faults := s.(faults); stats := st |}.
Proof. intros Hl [H1 H2 H3]. split; cbn; [done| |done]. intros n f Hn. rewrite Hl. by eapply H2. Qed.

(** An outcome that wrote no file. *)
Ltac wrote_nothing s :=
  intros [= <- <-]; (split; [intros Hh; exact (sim_honest_write s _ _ _ eq_refl Hh)|done]).

Lemma view_insert_ne s f file g r st :
  g <> f ->
  sim_view {| files := <[f := file]> s.(files); by_name := s.(by_name); rng := r; faults := s.(faults); stats := st |} g
  = sim_view s g.
Proof. intros Hg. unfold sim_view. cbn. by rewrite list_lookup_insert_ne. Qed.

Lemma view_insert_eq s f file file' r st :
  s.(files) !! f = Some file ->
  sim_view {| files := <[f := file']> s.(files); by_name := s.(by_name); rng := r; faults := s.(faults); stats := st |} f
  = Some (file'.(durable), file'.(dirty)).
Proof. intros Hf. unfold sim_view. cbn. rewrite list_lookup_insert_eq; [done|]. by apply lookup_lt_Some in Hf. Qed.

Lemma sim_create_ok name s r s' :
  sim_create name s = (r, s') ->
  (sim_honest s -> sim_honest s') /\
  match r with
  | Ok f =>
      sim_named s' name = Some f /\ (forall n, n <> name -> sim_named s' n = sim_named s n) /\
      (forall g, g <> f -> sim_view s' g = sim_view s g) /\
      match sim_named s name with
      | Some f0 => f = f0 /\ sim_view s' f = sim_view s f
      | None => sim_view s f = None /\ sim_view s' f = Some ([], [])
      end
  | Err _ => s' = s
  end.
Proof.
  unfold sim_create, sim_named. destruct (by_name s !! name) as [f0|] eqn:En; [by intros [= <- <-]|].
  destruct (u32_max <? _); [by intros [= <- <-]|]. intros [= <- <-]. cbn. split.
  - intros [H1 H2 H3]. split; cbn; [done| |].
    + intros n f. rewrite length_app. cbn. destruct (decide (n = name)) as [->|Hne].
      * rewrite lookup_insert_eq. intros [= <-]. lia.
      * rewrite lookup_insert_ne by done. intros Hn. apply H2 in Hn. lia.
    + intros n n' f. destruct (decide (n = name)) as [->|Hn], (decide (n' = name)) as [->|Hn'];
        rewrite ?lookup_insert_eq, ?lookup_insert_ne by done; try done.
      * intros [= <-] Hx. apply H2 in Hx. lia.
      * intros Hx [= <-]. apply H2 in Hx. lia.
      * apply H3.
  - rewrite lookup_insert_eq. split; [done|]. split; [intros n Hn; by rewrite lookup_insert_ne|].
    unfold sim_view; cbn. split; [|split].
    + intros g Hg. destruct (Nat.lt_ge_cases g (length (files s))) as [Hlt|Hge].
      * by rewrite lookup_app_l.
      * rewrite !lookup_ge_None_2; [done|lia|rewrite length_app; cbn; lia].
    + by rewrite lookup_ge_None_2.
    + by rewrite lookup_app_r, Nat.sub_diag.
Qed.

Lemma sim_append_ok f data s r s' :
  sim_append f data s = (r, s') ->
  (sim_honest s -> sim_honest s') /\ (forall n, sim_named s' n = sim_named s n) /\
  (forall g, g <> f -> sim_view s' g = sim_view s g) /\
  match r with
  | Ok n => (n <= length data)%nat /\
      exists du di, sim_view s f = Some (du, di) /\ sim_view s' f = Some (du, di ++ take n data)
  | Err _ => sim_view s' f = sim_view s f
  end.
Proof.
  unfold sim_append. destruct (chance_ppm _ (rng s)) as [nosp r1]. destruct (chance_ppm _ r1) as [short r2].
  assert (Hcut : exists cut r3, (if short && (1 <? length data)%nat then
      let '(v, r) := below (Z.of_nat (length data)) r2 in (Z.to_nat v, r) else (length data, r2)) = (cut, r3) /\
      (cut <= length data)%nat).
  { destruct (short && _) eqn:Es; [|by eexists _, _].
    apply andb_true_iff in Es as [_ Es]. apply Nat.ltb_lt in Es.
    destruct (below (Z.of_nat (length data)) r2) as [v r3] eqn:Eb. apply below_range in Eb as [Hv0 Hv]; [|lia].
    specialize (Hv ltac:(lia)). eexists _, _. split; [done|]. lia. }
  destruct Hcut as (cut & r3 & -> & Hc). destruct nosp; [wrote_nothing s|].
  change (files (set_rng s r3)) with (files s). destruct (files s !! f) as [file|] eqn:Ef; [|wrote_nothing s].
  intros [= <- <-]. split; [intros Hh; exact (sim_honest_write s _ _ _ (length_insert _ _ _) Hh)|].
  split; [done|]. split; [intros g Hg; exact (view_insert_ne s f _ g _ _ Hg)|]. split; [done|].
  exists file.(durable), file.(dirty). unfold sim_view at 1. rewrite Ef. split; [done|].
  exact (view_insert_eq s f file _ _ _ Ef).
Qed.

Lemma sim_fsync_ok f s r s' :
  sim_fsync f s = (r, s') ->
  (sim_honest s -> sim_honest s') /\ (forall n, sim_named s' n = sim_named s n) /\
  (forall g, g <> f -> sim_view s' g = sim_view s g) /\
  match r with
  | Ok _ => sim_honest s -> exists du di, sim_view s f = Some (du, di) /\ sim_view s' f = Some (du ++ di, [])
  | Err _ => sim_view s' f = sim_view s f
  end.
Proof.
  unfold sim_fsync. destruct (chance_ppm _ (rng s)) as [lying r1] eqn:El. destruct (chance_ppm _ r1) as [failing r2].
  destruct failing; [wrote_nothing s|]. destruct lying.
  { intros [= <- <-]. split; [intros Hh; exact (sim_honest_write s _ _ _ eq_refl Hh)|]. split; [done|]. split; [done|]. intros [H _ _].
    unfold chance_ppm in El. rewrite H in El. cbn in El. by injection El. }
  destruct (files _ !! f) as [file|] eqn:Ef; [|wrote_nothing s]. cbn in Ef. intros [= <- <-].
  split; [intros Hh; exact (sim_honest_write s _ _ _ (length_insert _ _ _) Hh)|].
  split; [done|]. split; [intros g Hg; exact (view_insert_ne s f _ g _ _ Hg)|]. intros _.
  exists file.(durable), file.(dirty). unfold sim_view at 1. rewrite Ef. split; [done|].
  exact (view_insert_eq s f file _ _ _ Ef).
Qed.

Lemma sim_truncate_ok f len s r s' :
  sim_truncate f len s = (r, s') ->
  (sim_honest s -> sim_honest s') /\ (forall n, sim_named s' n = sim_named s n) /\
  (forall g, g <> f -> sim_view s' g = sim_view s g) /\
  match r with
  | Ok _ => exists du di, sim_view s f = Some (du, di) /\
      sim_view s' f = Some (take len du, take (len - length du) di)
  | Err _ => sim_view s' f = sim_view s f
  end.
Proof.
  unfold sim_truncate. destruct (files s !! f) as [file|] eqn:Ef; [|by intros [= <- <-]].
  intros [= <- <-]. split; [intros Hh; exact (sim_honest_write s _ _ _ (length_insert _ _ _) Hh)|].
  split; [done|]. split; [intros g Hg; exact (view_insert_ne s f _ g _ _ Hg)|].
  exists file.(durable), file.(dirty). unfold sim_view at 1. rewrite Ef. split; [done|].
  unfold set_files. rewrite (view_insert_eq s f file _ _ _ Ef).
  destruct (Nat.leb_spec len (length (durable file))) as [Hle|Hgt].
  - cbn. by replace (len - length (durable file))%nat with 0%nat by lia.
  - rewrite (take_ge (durable file)) by lia.
    destruct (Nat.ltb_spec (len - length (durable file)) (length (dirty file))); cbn; [done|].
    by rewrite take_ge.
Qed.

Lemma crash_files_ok fs r lost fs' r' lost' :
  crash_files fs r lost = (fs', r', lost') ->
  length fs' = length fs /\
  forall i file, fs !! i = Some file ->
    exists keep file', fs' !! i = Some file' /\ file'.(durable) = file.(durable) ++ take keep file.(dirty) /\
      file'.(dirty) = [].
Proof.
  revert r lost fs' r' lost'; induction fs as [|f fs IH]; intros r lost fs' r' lost'; cbn [crash_files].
  { by intros [= <- <- <-]. }
  destruct (length (dirty f) =? 0)%nat eqn:Ed.
  - destruct (crash_files fs r lost) as [[fs1 r1] l1] eqn:E. intros [= <- <- <-].
    apply IH in E as [Hl Hi]. split; [cbn; by rewrite Hl|]. intros [|i] file Hf; [|by apply Hi].
    injection Hf as ->. apply Nat.eqb_eq, nil_length_inv in Ed. exists 0%nat, file. cbn. by rewrite app_nil_r.
  - destruct (below _ r) as [v r1]. destruct (crash_files fs r1 _) as [[fs1 r2] l1] eqn:E. intros [= <- <- <-].
    apply IH in E as [Hl Hi]. split; [cbn; by rewrite Hl|]. intros [|i] file Hf; [|by apply Hi].
    injection Hf as ->. by eexists _, _.
Qed.

Lemma sim_crash_ok s s' :
  sim_crashes s s' ->
  (sim_honest s -> sim_honest s') /\ (forall n, sim_named s' n = sim_named s n) /\
  forall f, match sim_view s f with
            | Some (du, di) => exists keep, sim_view s' f = Some (du ++ take keep di, [])
            | None => sim_view s' f = None
            end.
Proof.
  unfold sim_crashes, sim_crash. destruct (crash_files _ _ _) as [[fs r] lost] eqn:E. intros ->.
  apply crash_files_ok in E as [Hl Hi]. split; [by apply sim_honest_write|]. split; [done|].
  intros f. unfold sim_view at 1. destruct (files s !! f) as [file|] eqn:Ef; cbn.
  - destruct (Hi f file Ef) as (keep & file' & Hf' & Hd & Hdi). exists keep. unfold sim_view. cbn.
    by rewrite Hf'; cbn; rewrite Hd, Hdi.
  - unfold sim_view. cbn. apply lookup_ge_None in Ef. rewrite lookup_ge_None_2; [done|lia].
Qed.

#[export] Program Instance SimIo_Laws : IoLaws SimIo := {
  io_view := sim_view;
  io_named := sim_named;
  io_honest := sim_honest;
  io_crash := sim_crashes;
  io_create_law := sim_create_ok;
  io_append_law := sim_append_ok;
  io_fsync_law := sim_fsync_ok;
  io_truncate_law := sim_truncate_ok;
  io_crash_law := sim_crash_ok;
}.
Next Obligation.
  intros s n f [H1 H2 H3] Hn. split; [|intros n' Hn'; by eapply H3].
  apply H2 in Hn. unfold sim_view. destruct (lookup_lt_is_Some_2 _ _ Hn) as [file ->]. done.
Qed.
Next Obligation.
  intros f s r s'. cbn. unfold sim_read_all, sim_view.
  destruct (files s !! f) as [file|]; intros [= <- <-]; split; try done. by eexists _, _.
Qed.
