(* ===== verification/Walk.v ===== *)
(** * The walk over a journal file ([trailryx-journal/src/journal.rs])

    One walk, used by recovery and by reading alike: every frame parses and its
    checksum matches, the record decodes, belongs to this shard and segment, its
    sequence and previous head follow, and its link recomputes. The loop is given
    fuel; [walk_from_eq] is the equation of the loop it computes. *)

From S2P Require Import Prelude Bytes Ids Record Codec Digest Wire WireRecord Frame.

Inductive StoppedBecause :=
  | EndOfFile
  | TornTail (e : WireError)
  | ChainBroken (at_seq : Z)
  | WrongOwnerAt (at_seq : Z).

#[export] Instance StoppedBecause_eq_dec : EqDecision StoppedBecause.
Proof. solve_decision. Defined.

Record Walked := MkWalked {
  w_records : list (Record_ * Hash);
  w_chain : ChainState;
  w_good_bytes : nat;
  w_stopped : StoppedBecause;
}.

Section Walk.
Context {D : Digest}.

(** One turn of the loop on the unread bytes: the frame and its record, or why
    the walk stops there. *)
Definition walk_step (header : SegmentHeader) (chain : ChainState) (buf : list byte) :
    result StoppedBecause (Frame * Record_) :=
  match decode_frame buf with
  | Err e => Err (TornTail e)
  | Ok frame =>
      match decode_record_at frame.(f_body) frame.(f_version) with
      | Err e => Err (TornTail e)
      | Ok rec =>
          let expect_seq := chain.(chain_length) + 1 in
          if negb (rec.(shard) =? header.(h_shard)) || negb (rec.(segment_id) =? header.(h_segment))
          then Err (WrongOwnerAt expect_seq)
          else
            let prev := chain.(chain_head) in
            if negb (rec.(seq) =? expect_seq) || negb (bool_decide (rec.(prev_hash) = prev))
               || negb (chain_verify_step prev rec.(seq) frame.(f_body) frame.(f_link))
            then Err (ChainBroken expect_seq)
            else Ok (frame, rec)
      end
  end.

Fixpoint walk_loop (fuel : nat) (bytes : list byte) (header : SegmentHeader) (off : nat)
    (chain : ChainState) (records : list (Record_ * Hash)) : Walked :=
  let stop why := {| w_records := records; w_chain := chain; w_good_bytes := off; w_stopped := why |} in
  if (length bytes <=? off)%nat then stop EndOfFile
  else
    match walk_step header chain (drop off bytes) with
    | Err why => stop why
    | Ok (frame, rec) =>
        match fuel with
        | O => stop EndOfFile
        | S f => walk_loop f bytes header (off + frame.(total_len))
                   (chain_append chain frame.(f_body)) (records ++ [(rec, frame.(f_link))])
        end
    end.

(** Every frame takes at least one byte, so a turn per byte is enough. *)
Definition walk (bytes : list byte) (header : SegmentHeader) (genesis : Hash) : Walked :=
  walk_loop (length bytes) bytes header header.(h_len) (chain_resume genesis 0) [].

(** The frames the walk accepts, in their order. *)
Fixpoint walk_frames (fuel : nat) (bytes : list byte) (header : SegmentHeader) (off : nat) (chain : ChainState) :
    list (Frame * Record_) :=
  match fuel with
  | O => []
  | S f =>
      if (length bytes <=? off)%nat then []
      else
        match walk_step header chain (drop off bytes) with
        | Err _ => []
        | Ok e => e :: walk_frames f bytes header (off + e.1.(total_len)) (chain_append chain e.1.(f_body))
        end
  end.

(** The first offset at or after [at_] where a whole frame parses. *)
Fixpoint next_parsable_loop (fuel : nat) (bytes : list byte) (at_ : nat) : option nat :=
  match fuel with
  | O => None
  | S f =>
      if (at_ <? length bytes)%nat then
        if bool_decide (bytes !! at_ = Some FRAME_MAGIC) &&
           match decode_frame (drop at_ bytes) with
           | Ok frame => is_ok (decode_record_at frame.(f_body) frame.(f_version))
           | Err _ => false
           end
        then Some at_
        else next_parsable_loop f bytes (at_ + 1)
      else None
  end.

Definition next_parsable_frame (bytes : list byte) (from : nat) : option nat :=
  next_parsable_loop (length bytes - from) bytes from.

(** Where the first segment of a shard starts. *)
Definition GENESIS_DOMAIN : list byte := lit "trailryx/segment-genesis/v1" ++ [x00].
Definition segment_genesis (header_bytes : list byte) : Hash := hash_parts [GENESIS_DOMAIN; header_bytes].

Inductive ChainStart := First | After (head : Hash).

Definition genesis_of (start : ChainStart) (header_bytes : list byte) : Hash :=
  match start with First => segment_genesis header_bytes | After head => head end.

(** [walk_bytes]; its error is [JournalError::NotAJournal]. *)
Definition walk_bytes (bytes : list byte) (start : ChainStart) : result WireError Walked :=
  match decode_segment_header bytes with
  | Err e => Err e
  | Ok header => Ok (walk bytes header (genesis_of start (take header.(h_len) bytes)))
  end.

(** ** Runs of frames that follow one another *)

(** The bytes of the frames of a list. *)
Definition frame_bytes (f : Frame) : list byte := encode_frame_at f.(f_body) f.(f_link) f.(f_version).
Definition frames_bytes (l : list (Frame * Record_)) : list byte := concat (map (fun e => frame_bytes e.1) l).

(** What the walk keeps of each. *)
Definition kept (l : list (Frame * Record_)) : list (Record_ * Hash) := map (fun e => (e.2, e.1.(f_link))) l.
Definition bodies (l : list (Frame * Record_)) : list (list byte) := map (fun e => e.1.(f_body)) l.

Definition walk_bodies (bytes : list byte) (h : SegmentHeader) (g : Hash) : list (list byte) :=
  bodies (walk_frames (length bytes) bytes h h.(h_len) (chain_resume g 0)).

(** [follows h c e]: [e] is the next entry of the journal of header [h] whose
    chain has arrived at [c]. *)
Record follows (h : SegmentHeader) (c : ChainState) (e : Frame * Record_) : Prop := {
  fo_body : body_fits e.1.(f_body);
  fo_link : hash_ok e.1.(f_link);
  fo_version : version_ok e.1.(f_version);
  fo_total : e.1.(total_len) = length (frame_bytes e.1);
  fo_record : decode_record_at e.1.(f_body) e.1.(f_version) = Ok e.2;
  fo_shard : e.2.(shard) = h.(h_shard);
  fo_segment : e.2.(segment_id) = h.(h_segment);
  fo_seq : e.2.(seq) = c.(chain_length) + 1;
  fo_prev : e.2.(prev_hash) = c.(chain_head);
  fo_step : chain_verify_step c.(chain_head) e.2.(seq) e.1.(f_body) e.1.(f_link) = true;
}.

Inductive run (h : SegmentHeader) : ChainState -> list (Frame * Record_) -> Prop :=
  | run_nil c : run h c []
  | run_cons c e l : follows h c e -> run h (chain_append c e.1.(f_body)) l -> run h c (e :: l).

(** ** One step *)

Lemma walk_step_reads h c e rest :
  follows h c e -> walk_step h c (frame_bytes e.1 ++ rest) = Ok e.
Proof.
  intros [H1 H2 H3 H4 H5 H6 H7 H8 H9 H10]. destruct e as [f rec]. cbn [fst snd] in *.
  unfold walk_step, frame_bytes. rewrite frame_reads by done. cbn [f_body f_version f_link].
  rewrite H5. cbn zeta. rewrite H6, H7, !Z.eqb_refl. cbn [negb orb].
  rewrite H8, Z.eqb_refl, H9, bool_decide_true by done. rewrite <- H8, H10. cbn [negb orb].
  destruct f as [b k t v]. cbn in *. by rewrite H4.
Qed.

Lemma walk_step_sound h c buf e :
  walk_step h c buf = Ok e ->
  follows h c e /\ exists rest, buf = frame_bytes e.1 ++ rest.
Proof.
  unfold walk_step. destruct (decode_frame buf) as [f|] eqn:Ef; [|done].
  destruct (decode_record_at _ _) as [rec|] eqn:Er; [|done]. cbn zeta.
  destruct (negb (shard rec =? h_shard h) || negb (segment_id rec =? h_segment h)) eqn:E1; [done|].
  destruct (negb (seq rec =? chain_length c + 1) || _ || _) eqn:E2; [done|].
  intros He. apply Ok_inj in He as <-. apply frame_sound in Ef as (Hl & Ht & Hb & Hk & Hv). breflect.
  assert (Hlen : total_len f = length (frame_bytes f)).
  { unfold frame_bytes. rewrite <- Ht, length_take. lia. }
  split; [by split|]. exists (drop (total_len f) buf). cbn [fst]. unfold frame_bytes. by rewrite <- Ht, take_drop.
Qed.

Lemma frame_bytes_nonempty f : (1 <= length (frame_bytes f))%nat.
Proof. unfold frame_bytes. rewrite length_encode_frame. lia. Qed.

(** ** The loop *)

(** With fuel for the bytes left, the loop does not depend on it: this is the
    equation of the [while]. *)
Lemma walk_loop_fuel f1 f2 bytes h off c recs :
  (length bytes - off <= f1)%nat -> (length bytes - off <= f2)%nat ->
  walk_loop f1 bytes h off c recs = walk_loop f2 bytes h off c recs.
Proof.
  revert f2 off c recs; induction f1 as [|f1 IH]; intros [|f2] off c recs H1 H2; cbn [walk_loop];
    (destruct (Nat.leb_spec (length bytes) off); [done|]); try lia.
  destruct (walk_step h c (drop off bytes)) as [[f rec]|why] eqn:E; [|done].
  apply walk_step_sound in E as [[_ _ _ Ht _ _ _ _ _ _] _]. cbn in Ht.
  pose proof (frame_bytes_nonempty f). apply IH; lia.
Qed.

Lemma walk_loop_next f bytes h off c e recs :
  (off < length bytes)%nat -> walk_step h c (drop off bytes) = Ok e ->
  walk_loop (S f) bytes h off c recs =
  walk_loop f bytes h (off + e.1.(total_len)) (chain_append c e.1.(f_body)) (recs ++ [(e.2, e.1.(f_link))]).
Proof.
  intros Ho E. cbn [walk_loop]. destruct (Nat.leb_spec (length bytes) off); [lia|]. rewrite E. by destruct e.
Qed.

Lemma walk_loop_end f bytes h off c recs :
  (length bytes <= off)%nat -> walk_loop f bytes h off c recs = MkWalked recs c off EndOfFile.
Proof. intros Ho. destruct f; cbn [walk_loop]; by destruct (Nat.leb_spec (length bytes) off); [|lia]. Qed.

Lemma walk_loop_stop f bytes h off c why recs :
  (off < length bytes)%nat -> walk_step h c (drop off bytes) = Err why ->
  walk_loop f bytes h off c recs = MkWalked recs c off why.
Proof.
  intros Ho E. destruct f; cbn [walk_loop]; (destruct (Nat.leb_spec (length bytes) off); [lia|]); by rewrite E.
Qed.

Lemma walk_loop_run h c l f bytes off recs rest :
  run h c l -> (length bytes - off <= f)%nat -> drop off bytes = frames_bytes l ++ rest ->
  walk_loop f bytes h off c recs =
  walk_loop f bytes h (off + length (frames_bytes l)) (chain_of c (bodies l)) (recs ++ kept l).
Proof.
  intros Hr. revert f off recs. induction Hr as [c|c e l He Hr IH]; intros f off recs Hf Hd.
  { cbn. by rewrite Nat.add_0_r, app_nil_r. }
  unfold frames_bytes in Hd. cbn [map concat] in Hd. rewrite <- app_assoc in Hd.
  pose proof (frame_bytes_nonempty e.1) as Hn.
  assert (Hlen : (off + length (frame_bytes e.1) <= length bytes)%nat).
  { apply (f_equal length) in Hd. rewrite length_drop, !length_app in Hd. lia. }
  destruct f as [|f]; [lia|]. rewrite (walk_loop_next f _ _ _ _ e) by (rewrite ?Hd; (lia || by apply walk_step_reads)).
  rewrite (fo_total _ _ _ He). destruct e as [fr rec]. cbn [fst snd] in *.
  rewrite (walk_loop_fuel f (S f)) by lia. rewrite (IH (S f)); [|lia|].
  - unfold frames_bytes. cbn [map concat bodies kept fst snd]. rewrite length_app, <- app_assoc, Nat.add_assoc. done.
  - rewrite <- drop_drop, Hd. by rewrite drop_app_length.
Qed.

(** The loop ends after some run, at a place where the next step fails or the
    file ends. *)
Lemma walk_loop_sound f bytes h off c recs :
  (length bytes - off <= f)%nat -> (off <= length bytes)%nat ->
  exists l rest, run h c l /\ drop off bytes = frames_bytes l ++ rest /\
    let c' := chain_of c (bodies l) in
    walk_loop f bytes h off c recs =
      {| w_records := recs ++ kept l; w_chain := c';
         w_good_bytes := off + length (frames_bytes l);
         w_stopped := match rest with [] => EndOfFile | _ =>
                        match walk_step h c' rest with Err why => why | Ok _ => EndOfFile end end |} /\
    (rest <> [] -> exists why, walk_step h c' rest = Err why).
Proof.
  revert off c recs; induction f as [|f IH]; intros off c recs Hf Ho; cbn [walk_loop];
    (destruct (Nat.leb_spec (length bytes) off) as [Hge|Hlt];
     [exists [], []; rewrite drop_ge by lia; split; [constructor|]; cbn; by rewrite Nat.add_0_r, app_nil_r|]); [lia|].
  destruct (walk_step h c (drop off bytes)) as [[fr rec]|why] eqn:E.
  - pose proof E as E'. apply walk_step_sound in E' as [Hfo (rest & Hd)]. cbn [fst] in Hd.
    pose proof (frame_bytes_nonempty fr). pose proof (fo_total _ _ _ Hfo) as Ht. cbn [fst] in Ht.
    assert (off + length (frame_bytes fr) <= length bytes)%nat.
    { apply (f_equal length) in Hd. rewrite length_drop, length_app in Hd. lia. }
    destruct (IH (off + total_len fr)%nat (chain_append c (f_body fr)) (recs ++ [(rec, f_link fr)]))
      as (l & rest' & Hr & Hd' & Hw); [lia|lia|].
    exists ((fr, rec) :: l), rest'. split; [by constructor|].
    split.
    + unfold frames_bytes in *. cbn [map concat fst]. rewrite <- app_assoc, <- Hd'. rewrite Ht, <- drop_drop, Hd, drop_app_length.
      done.
    + cbn zeta in *. cbn [bodies kept map fst snd chain_of fold_left] in *. destruct Hw as [-> Hw].
      split; [|exact Hw]. unfold frames_bytes. cbn [map concat fst]. rewrite <- app_assoc, length_app, Ht, Nat.add_assoc. done.
  - exists [], (drop off bytes). split; [constructor|]. split; [done|]. cbn. rewrite E, app_nil_r, Nat.add_0_r.
    split; [|eauto]. destruct (drop off bytes) eqn:Ed; [|done].
    apply (f_equal length) in Ed. rewrite length_drop in Ed. cbn in Ed. lia.
Qed.

Lemma walk_frames_ok f bytes h off c recs :
  (length bytes - off <= f)%nat ->
  let l := walk_frames f bytes h off c in
  run h c l /\ (walk_loop f bytes h off c recs).(w_records) = recs ++ kept l /\
  (walk_loop f bytes h off c recs).(w_chain) = chain_of c (bodies l) /\ (length l <= f)%nat.
Proof.
  cbn zeta. revert off c recs; induction f as [|f IH]; intros off c recs Hf; cbn [walk_loop walk_frames];
    (destruct (Nat.leb_spec (length bytes) off);
      [split; [constructor|]; cbn; rewrite app_nil_r; split; [done|split; [done|lia]]|]); [lia|].
  destruct (walk_step h c (drop off bytes)) as [[fr rec]|] eqn:E.
  - apply walk_step_sound in E as [Hfo _]. pose proof (fo_total _ _ _ Hfo) as Ht. cbn [fst] in *.
    pose proof (frame_bytes_nonempty fr).
    destruct (IH (off + total_len fr)%nat (chain_append c (f_body fr)) (recs ++ [(rec, f_link fr)])) as (H1 & H2 & H3 & H4); [lia|].
    split; [by constructor|]. cbn [kept bodies map fst snd]. rewrite H2, H3, <- app_assoc. cbn [app length].
    split; [done|]. split; [done|lia].
  - split; [constructor|]. cbn. rewrite app_nil_r. split; [done|]. split; [done|lia].
Qed.

Lemma walk_run_ok bytes h g :
  let l := walk_frames (length bytes) bytes h h.(h_len) (chain_resume g 0) in
  run h (chain_resume g 0) l /\ (walk bytes h g).(w_records) = kept l /\
  (walk bytes h g).(w_chain) = chain_of (chain_resume g 0) (bodies l) /\ (length l <= length bytes)%nat.
Proof. apply walk_frames_ok. lia. Qed.

End Walk.

(** ** What the journal writes *)

Section History.
Context `{DL : DigestLaws}.

(** The frame [append] writes for a stamped record when the chain has arrived at
    [c], with the record. *)
Definition entry (c : ChainState) (rec : Record_) : Frame * Record_ :=
  let body := encode_record rec in
  let link := chain_step c.(chain_head) rec.(seq) body in
  ({| f_body := body; f_link := link; total_len := length (encode_frame body link); f_version := FRAME_VERSION |}, rec).

Fixpoint entries (c : ChainState) (recs : list Record_) : list (Frame * Record_) :=
  match recs with
  | [] => []
  | r :: recs' => entry c r :: entries (chain_append c (encode_record r)) recs'
  end.

Definition journal_bytes (c : ChainState) (recs : list Record_) : list byte := frames_bytes (entries c recs).
Definition chain_at (c : ChainState) (recs : list Record_) : ChainState := chain_of c (map encode_record recs).

(** The record [append] writes: the caller's [seq], [prev_hash], [segment_id] and
    [shard] are overwritten. *)
Definition stamp (ix sg sq : Z) (prev : Hash) (rec : Record_) : Record_ :=
  {| r_id := rec.(r_id); tenant := rec.(tenant); shard := ix; agent_id := rec.(agent_id);
     run_id := rec.(run_id); parent_run_id := rec.(parent_run_id); on_behalf_of := rec.(on_behalf_of);
     occurred_at := rec.(occurred_at); decided_at := rec.(decided_at); recorded_at := rec.(recorded_at);
     knowledge_as_of := rec.(knowledge_as_of); clock_skew_nanos := rec.(clock_skew_nanos);
     event_type := rec.(event_type); severity := rec.(severity); basis := rec.(basis);
     caused_by := rec.(caused_by); outcome := rec.(outcome); payload := rec.(payload);
     seq := sq; prev_hash := prev; segment_id := sg;
     algorithms := rec.(algorithms); mapper := rec.(mapper) |}.

(** A record stamped for shard [ix] and segment [sg] at chain state [c]. *)
Record stamped (ix sg : Z) (c : ChainState) (rec : Record_) : Prop := {
  st_ok : record_ok rec;
  st_fits : body_fits (encode_record rec);
  st_shard : rec.(shard) = ix;
  st_segment : rec.(segment_id) = sg;
  st_seq : rec.(seq) = c.(chain_length) + 1;
  st_prev : rec.(prev_hash) = c.(chain_head);
}.

#[export] Instance stamped_dec ix sg c rec : Decision (stamped ix sg c rec).
Proof. decide_record. Defined.

Fixpoint history (ix sg : Z) (c : ChainState) (recs : list Record_) : Prop :=
  match recs with
  | [] => True
  | r :: recs' => stamped ix sg c r /\ history ix sg (chain_append c (encode_record r)) recs'
  end.

#[export] Instance history_dec ix sg c recs : Decision (history ix sg c recs).
Proof. revert c; induction recs as [|r recs IH]; intros c; cbn; apply _. Defined.

(** What a crash can leave of the frame that comes next: nothing, or a strict
    prefix of it. *)
Definition torn (ix sg : Z) (c : ChainState) (t : list byte) : Prop :=
  t = [] \/ exists rec m, stamped ix sg c rec /\ t = take m (frame_bytes (entry c rec).1) /\
    (m < length (frame_bytes (entry c rec).1))%nat.

Definition stop_after (t : list byte) : StoppedBecause :=
  match t with [] => EndOfFile | _ => TornTail Truncated end.

Lemma stamp_ok ix sg sq prev rec :
  record_ok rec -> u16_ok ix -> u64_ok sg -> u64_ok sq -> hash_ok prev -> record_ok (stamp ix sg sq prev rec).
Proof. intros [] ? ? ? ?. by split. Qed.

Lemma stamp_stamped ix sg c rec :
  let r := stamp ix sg (c.(chain_length) + 1) c.(chain_head) rec in
  record_ok r -> body_fits (encode_record r) -> stamped ix sg c r.
Proof. by split. Qed.

Lemma stamped_follows h c rec :
  stamped h.(h_shard) h.(h_segment) c rec -> follows h c (entry c rec).
Proof.
  intros [H1 H2 H3 H4 H5 H6]. split; cbn [entry fst snd f_body f_link f_version total_len].
  - exact H2.
  - apply chain_step_ok.
  - by right.
  - reflexivity.
  - apply decode_v2; [done|by apply body_lists_ok].
  - exact H3.
  - exact H4.
  - exact H5.
  - exact H6.
  - apply digests_equal_refl.
Qed.

Lemma entry_body c rec : (entry c rec).1.(f_body) = encode_record rec.
Proof. done. Qed.

Lemma history_run h c recs :
  history h.(h_shard) h.(h_segment) c recs -> run h c (entries c recs).
Proof.
  revert c; induction recs as [|r recs IH]; intros c; cbn; [constructor|].
  intros [Hr Hh]. constructor; [by apply stamped_follows|by apply IH].
Qed.

Lemma bodies_entries c recs : bodies (entries c recs) = map encode_record recs.
Proof. revert c; induction recs as [|r recs IH]; intros c; cbn; [done|]. by rewrite IH. Qed.

Lemma kept_entries c recs : map fst (kept (entries c recs)) = recs.
Proof. revert c; induction recs as [|r recs IH]; intros c; cbn; [done|]. by rewrite IH. Qed.

Lemma chain_at_snoc c recs r :
  chain_at c (recs ++ [r]) = chain_append (chain_at c recs) (encode_record r).
Proof. unfold chain_at. by rewrite map_app, chain_of_app. Qed.

Lemma chain_at_length c recs :
  (chain_at c recs).(chain_length) = c.(chain_length) + Z.of_nat (length recs).
Proof. unfold chain_at. by rewrite chain_of_length, length_map. Qed.

Lemma entries_app c l k : entries c (l ++ k) = entries c l ++ entries (chain_at c l) k.
Proof. revert c; induction l as [|r l IH]; intros c; cbn; [done|]. by rewrite IH. Qed.

Lemma history_app ix sg c l k :
  history ix sg c (l ++ k) <-> history ix sg c l /\ history ix sg (chain_at c l) k.
Proof. revert c; induction l as [|r l IH]; intros c; cbn [app history]; [change (chain_at c []) with c; tauto|].
  rewrite IH. change (chain_at c (r :: l)) with (chain_at (chain_append c (encode_record r)) l). tauto. Qed.

Lemma journal_bytes_app c l k : journal_bytes c (l ++ k) = journal_bytes c l ++ journal_bytes (chain_at c l) k.
Proof. unfold journal_bytes, frames_bytes. by rewrite entries_app, map_app, concat_app. Qed.

Lemma journal_bytes_cons c r l :
  journal_bytes c (r :: l) = frame_bytes (entry c r).1 ++ journal_bytes (chain_append c (encode_record r)) l.
Proof. done. Qed.

Lemma journal_bytes_snoc c l r :
  journal_bytes c (l ++ [r]) = journal_bytes c l ++ frame_bytes (entry (chain_at c l) r).1.
Proof. rewrite journal_bytes_app, journal_bytes_cons. by rewrite app_nil_r. Qed.

Lemma torn_step h c t :
  torn h.(h_shard) h.(h_segment) c t -> t <> [] -> walk_step h c t = Err (TornTail Truncated).
Proof.
  intros [->|(rec & m & [H1 H2 H3 H4 H5 H6] & -> & Hm)] Hne; [done|].
  unfold walk_step, frame_bytes in *. rewrite frame_cut; [done|by right|done|apply chain_step_ok|done].
Qed.

(** The walk over a file that holds a history and perhaps a torn frame. *)
Lemma walk_history h hdr recs t g :
  h.(h_len) = length hdr -> history h.(h_shard) h.(h_segment) (chain_resume g 0) recs ->
  torn h.(h_shard) h.(h_segment) (chain_at (chain_resume g 0) recs) t ->
  walk (hdr ++ journal_bytes (chain_resume g 0) recs ++ t) h g =
  {| w_records := kept (entries (chain_resume g 0) recs); w_chain := chain_at (chain_resume g 0) recs;
     w_good_bytes := length hdr + length (journal_bytes (chain_resume g 0) recs); w_stopped := stop_after t |}.
Proof.
  intros Hl Hh Ht. unfold walk. set (c := chain_resume g 0) in *. set (bytes := hdr ++ _).
  assert (Hd : drop (h_len h) bytes = frames_bytes (entries c recs) ++ t)
    by (unfold bytes; rewrite Hl, drop_app_length; done).
  rewrite (walk_loop_run h c (entries c recs) _ _ _ _ t) by (by apply history_run || lia || done).
  rewrite bodies_entries. fold (chain_at c recs) (journal_bytes c recs). cbn [app].
  assert (Hd' : drop (h_len h + length (journal_bytes c recs)) bytes = t).
  { rewrite <- drop_drop, Hd. apply drop_app_length. }
  assert (Hb : length bytes = (h_len h + length (journal_bytes c recs) + length t)%nat)
    by (unfold bytes; rewrite !length_app; lia).
  rewrite Hl in Hd', Hb |- *. destruct (decide (t = [])) as [->|Hne].
  - rewrite walk_loop_end by (cbn in Hb; lia). done.
  - assert (0 < length t)%nat by (destruct t; [done|cbn; lia]).
    rewrite (walk_loop_stop _ _ _ _ _ (TornTail Truncated)); [by destruct t|lia|]. rewrite Hd'. by apply torn_step.
Qed.

(** A crash that keeps a prefix of the file keeps a history and a torn frame, and
    every record whose frame was kept whole. *)
Lemma history_cut ix sg c recs t n :
  history ix sg c recs -> torn ix sg (chain_at c recs) t ->
  exists k t', take n (journal_bytes c recs ++ t) = journal_bytes c (take k recs) ++ t' /\
    torn ix sg (chain_at c (take k recs)) t' /\ (k <= length recs)%nat /\
    forall j, (j <= length recs)%nat -> (length (journal_bytes c (take j recs)) <= n)%nat -> (j <= k)%nat.
Proof.
  revert c n; induction recs as [|r recs IH]; intros c n.
  - intros _ Ht. exists 0%nat, (take n t). change (chain_at c (take 0 [])) with c.
    change (chain_at c []) with c in Ht. split; [done|]. split; [|split; [done|intros j Hj _; exact Hj]].
    destruct Ht as [->|(rec & m & Hs & -> & Hm)]; [left; by rewrite take_nil|].
    right. exists rec, (n `min` m)%nat. rewrite take_take. split; [done|]. split; [done|]. lia.
  - cbn [history]. intros [Hr Hh] Ht. rewrite journal_bytes_cons, <- app_assoc.
    set (fr := frame_bytes (entry c r).1) in *. destruct (Nat.lt_ge_cases n (length fr)) as [Hlt|Hge].
    + exists 0%nat, (take n fr). rewrite take_app_le by lia. split; [done|]. split; [right; by exists r, n|].
      split; [lia|]. intros [|j] Hj; [lia|]. cbn [take]. rewrite journal_bytes_cons, length_app. fold fr. lia.
    + destruct (IH (chain_append c (encode_record r)) (n - length fr)%nat Hh Ht) as (k & t' & E & Ht' & Hk & Hmax).
      exists (S k), t'. rewrite take_app_ge by lia. rewrite E. cbn [take]. rewrite journal_bytes_cons, <- app_assoc.
      split; [done|]. split; [exact Ht'|]. split; [cbn [length]; lia|]. intros [|j] Hj; [lia|]. cbn [take].
      rewrite journal_bytes_cons, length_app. fold fr. intros Hl. cbn [length] in Hj.
      specialize (Hmax j ltac:(lia) ltac:(lia)). lia.
Qed.

Lemma history_take ix sg c recs k : history ix sg c recs -> history ix sg c (take k recs).
Proof. intros H. rewrite <- (take_drop k recs) in H. by apply history_app in H as [? _]. Qed.

End History.

(** ** A body has one version *)

Lemma body_version_unique bs v1 v2 r1 r2 :
  version_ok v1 -> version_ok v2 -> decode_record_at bs v1 = Ok r1 -> decode_record_at bs v2 = Ok r2 ->
  v1 = v2 /\ r1 = r2.
Proof.
  intros H1 H2 E1 E2.
  assert (Hmix : forall r r', decode_record_at bs 1 = Ok r -> decode_record_at bs 2 = Ok r' -> False).
  { intros r r' Er Er'. apply decode_v1_sound in Er as (-> & Hr & Hl & _). rewrite decode_v1_as_v2 in Er' by done. done. }
  destruct H1 as [-> | ->], H2 as [-> | ->]; try (exfalso; by eapply Hmix); rewrite E1 in E2; apply Ok_inj in E2; done.
Qed.

Section Tamper.
Context `{DL : DigestLaws}.

(** A run is determined by its bodies. *)
Lemma run_bodies h c l1 l2 :
  hash_ok c.(chain_head) -> run h c l1 -> run h c l2 -> bodies l1 = bodies l2 -> kept l1 = kept l2.
Proof.
  intros Hc Hr. revert l2. induction Hr as [c|c e1 l1 He1 Hr IH]; intros l2 Hr2 Hb.
  - by destruct l2.
  - destruct Hr2 as [|c e2 l2 He2 Hr2]; [done|]. cbn in Hb. injection Hb as Hb Hbs. cbn [kept map].
    destruct He1 as [_ L1 V1 _ R1 _ _ Q1 _ S1], He2 as [_ L2 V2 _ R2 _ _ Q2 _ S2].
    rewrite <- Hb in R2, S2, Hr2.
    destruct (body_version_unique _ _ _ _ _ V1 V2 R1 R2) as [_ Er]. rewrite Er in *.
    apply digests_equal_ok in S1, S2; [|by try apply chain_step_ok..]. rewrite <- S1, <- S2. f_equal.
    apply IH; [apply chain_append_ok|done|done].
Qed.

End Tamper.

(** ** The scan for a frame past the stopping point *)

(** A whole frame with a decodable record starts at [at_]. *)
Definition parses_at (bytes : list byte) (at_ : nat) : Prop :=
  exists f r, decode_frame (drop at_ bytes) = Ok f /\ decode_record_at f.(f_body) f.(f_version) = Ok r.

Lemma parses_at_magic bytes at_ : parses_at bytes at_ -> (at_ < length bytes)%nat /\ bytes !! at_ = Some FRAME_MAGIC.
Proof.
  intros (f & r & E & _). unfold decode_frame in E.
  destruct (get_frame_head (drop at_ bytes)) as [[[v len] rest]|] eqn:Eh; [|done].
  apply frame_head_sound in Eh as [Eh _]. unfold frame_head in Eh. cbn [app] in Eh.
  assert (Hm : bytes !! at_ = Some FRAME_MAGIC).
  { rewrite <- (Nat.add_0_r at_), <- lookup_drop, Eh. done. }
  split; [by eapply lookup_lt_Some|done].
Qed.

Lemma next_parsable_loop_spec f bytes at_ :
  (length bytes - at_ <= f)%nat ->
  match next_parsable_loop f bytes at_ with
  | Some i => (at_ <= i)%nat /\ parses_at bytes i /\ forall j, (at_ <= j < i)%nat -> ~ parses_at bytes j
  | None => forall j, (at_ <= j)%nat -> ~ parses_at bytes j
  end.
Proof.
  revert at_; induction f as [|f IH]; intros at_ Hf; cbn [next_parsable_loop].
  { intros j Hj Hp. apply parses_at_magic in Hp as [Hp _]. lia. }
  destruct (Nat.ltb_spec at_ (length bytes)) as [Hlt|Hge].
  2:{ intros j Hj Hp. apply parses_at_magic in Hp as [Hp _]. lia. }
  destruct (bool_decide (bytes !! at_ = Some FRAME_MAGIC) && _) eqn:E.
  - apply andb_true_iff in E as [_ E]. split; [done|]. split; [|lia].
    destruct (decode_frame (drop at_ bytes)) as [fr|] eqn:Ef; [|done].
    destruct (decode_record_at (f_body fr) (f_version fr)) as [r|] eqn:Er; [|done]. by exists fr, r.
  - assert (Hno : ~ parses_at bytes at_).
    { intros Hp. pose proof (parses_at_magic _ _ Hp) as [_ Hm]. destruct Hp as (fr & r & Ef & Er).
      rewrite bool_decide_true, Ef, Er in E by done. done. }
    specialize (IH (at_ + 1)%nat ltac:(lia)). destruct (next_parsable_loop f bytes (at_ + 1)) as [i|].
    + destruct IH as (H1 & H2 & H3). split; [lia|]. split; [done|]. intros j Hj.
      destruct (decide (j = at_)) as [->|]; [done|]. apply H3. lia.
    + intros j Hj. destruct (decide (j = at_)) as [->|]; [done|]. apply IH. lia.
Qed.

Lemma walk_step_not_eof `{DL : DigestLaws} h c buf : walk_step h c buf <> Err EndOfFile.
Proof.
  unfold walk_step. destruct (decode_frame buf); [|done]. destruct (decode_record_at _ _); [|done]. cbn zeta.
  by destruct (negb _ || _); [|destruct (negb _ || _ || _)].
Qed.

Lemma length_frame_bytes h c e `{D : Digest} : follows h c e -> (55 <= length (frame_bytes e.1))%nat.
Proof.
  intros []. unfold frame_bytes, frame_head. rewrite length_encode_frame, fo_link0. unfold frame_head.
  rewrite !length_app. pose proof (put_varint_nonempty (Z.of_nat (length (f_body e.1)))).
  unfold put_u8, HASH_BYTES. cbn [length]. lia.
Qed.

(** ** The properties *)

(** The walk, on any bytes. Whatever a file holds after its header, the walk
    splits it into a run of frames, each of which parses, belongs to the shard and
    segment of the header and continues the chain of the one before, and a rest;
    it returns the records of the run with their links, the chain they lead to and
    the offset where the rest starts. It reports the end of the file exactly when
    nothing is left, and otherwise the reason the next step fails with. *)
Theorem walk_sound `{DL : DigestLaws} (bytes : list byte) (h : SegmentHeader) (g : Hash) :
  (h.(h_len) <= length bytes)%nat ->
  let w := walk bytes h g in
  exists l rest, run h (chain_resume g 0) l /\ drop h.(h_len) bytes = frames_bytes l ++ rest /\
    w.(w_records) = kept l /\ w.(w_chain) = chain_of (chain_resume g 0) (bodies l) /\
    w.(w_good_bytes) = (h.(h_len) + length (frames_bytes l))%nat /\
    (rest = [] -> w.(w_stopped) = EndOfFile) /\
    (rest <> [] -> walk_step h w.(w_chain) rest = Err w.(w_stopped) /\ w.(w_stopped) <> EndOfFile).
Proof.
  intros Hl. cbn zeta. unfold walk.
  destruct (walk_loop_sound (length bytes) bytes h h.(h_len) (chain_resume g 0) []) as (l & rest & Hr & Hd & Hw & Hs);
    [lia|done|].
  exists l, rest. rewrite Hw. cbn [w_records w_chain w_good_bytes w_stopped app].
  split; [done|]. split; [done|]. split; [done|]. split; [done|]. split; [done|]. split; [by intros ->|].
  intros Hne. destruct (Hs Hne) as (why & Hwhy). destruct rest as [|x rest]; [done|]. cbn zeta in Hwhy |- *. rewrite Hwhy.
  split; [done|]. intros ->. by apply walk_step_not_eof in Hwhy.
Qed.

(** Termination of the walk. The loop of the walk stops on every input: any
    fuel of a turn per unread byte computes the same result, and since a frame
    takes at least 55 bytes the walk returns at most a record per 55 bytes. *)
Theorem walk_terminates `{DL : DigestLaws} (bytes : list byte) (h : SegmentHeader) (g : Hash) (fuel : nat) :
  (h.(h_len) <= length bytes)%nat -> (length bytes - h.(h_len) <= fuel)%nat ->
  walk_loop fuel bytes h h.(h_len) (chain_resume g 0) [] = walk bytes h g /\
  (55 * length (walk bytes h g).(w_records) <= length bytes - h.(h_len))%nat.
Proof.
  intros Hl Hf. split; [unfold walk; apply walk_loop_fuel; lia|]. unfold walk.
  destruct (walk_loop_sound (length bytes) bytes h h.(h_len) (chain_resume g 0) []) as (l & rest & Hr & Hd & -> & _);
    [lia|done|].
  cbn [w_records app]. unfold kept. rewrite length_map. rewrite <- length_drop, Hd, length_app.
  assert (55 * length l <= length (frames_bytes l))%nat; [|lia]. clear -Hr.
  induction Hr as [|c e l He Hr IH]; [done|]. unfold frames_bytes in *. cbn [map concat length]. rewrite length_app.
  apply length_frame_bytes in He. lia.
Qed.

(** A history is read back. A file that holds a header, the frames of the
    records the journal wrote, and what a crash left of one more frame reads back
    as exactly those records, ends at the chain they make, with the offset just
    past the last whole frame; a torn frame is reported as a torn tail, its
    absence as the end of the file. *)
Theorem walk_recovers_history `{DL : DigestLaws} (ix sg at_ : Z) (g : Hash) (recs : list Record_) (t : list byte) :
  let hdr := encode_segment_header ix sg at_ in
  let c := chain_resume g 0 in
  u16_ok ix -> u64_ok sg -> u64_ok at_ ->
  history ix sg c recs -> torn ix sg (chain_at c recs) t ->
  walk_bytes (hdr ++ journal_bytes c recs ++ t) (After g) =
  Ok {| w_records := kept (entries c recs); w_chain := chain_at c recs;
        w_good_bytes := length hdr + length (journal_bytes c recs); w_stopped := stop_after t |} /\
  map fst (kept (entries c recs)) = recs.
Proof.
  cbn zeta. intros H1 H2 H3 Hh Ht. split; [|apply kept_entries]. unfold walk_bytes. rewrite header_reads by done.
  cbn [genesis_of]. f_equal. by apply walk_history.
Qed.

(** A head commits to a journal. Two files of the same shard and segment whose
    chains start at the same genesis and whose walks arrive at the same chain state
    hold the same records with the same links, unless two of the messages their
    chains hash collide. *)
Theorem walked_head_commits `{DL : DigestLaws} (bytes1 bytes2 : list byte) (h : SegmentHeader) (g : Hash) :
  let c := chain_resume g 0 in
  hash_ok g -> Z.of_nat (length bytes1) < 2 ^ 64 ->
  collision_free (chain_inputs c (walk_bodies bytes1 h g)) (chain_inputs c (walk_bodies bytes2 h g)) ->
  (walk bytes1 h g).(w_chain) = (walk bytes2 h g).(w_chain) ->
  (walk bytes1 h g).(w_records) = (walk bytes2 h g).(w_records).
Proof.
  cbn zeta. intros Hg Hl Hcf. destruct (walk_run_ok bytes1 h g) as (R1 & W1 & C1 & L1).
  destruct (walk_run_ok bytes2 h g) as (R2 & W2 & C2 & _). rewrite W1, W2, C1, C2. intros E.
  apply chain_tamper_evident in E; [|done|done| |exact Hcf].
  - exact (run_bodies h (chain_resume g 0) _ _ Hg R1 R2 E).
  - cbn [chain_length chain_resume]. unfold bodies. rewrite length_map. lia.
Qed.

(** What lies past the stopping point. The scan finds the first offset at or
    after [from] where a whole frame with a decodable record starts, and answers
    nothing only when there is none. *)
Theorem next_parsable_frame_spec (bytes : list byte) (from : nat) :
  match next_parsable_frame bytes from with
  | Some i => (from <= i)%nat /\ parses_at bytes i /\ Forall (fun j => ~ parses_at bytes j) (List.seq from (i - from))
  | None => Forall (fun j => ~ parses_at bytes j) (List.seq from (length bytes - from))
  end.
Proof.
  pose proof (next_parsable_loop_spec (length bytes - from) bytes from (le_n _)) as H. unfold next_parsable_frame.
  destruct (next_parsable_loop _ bytes from) as [i|].
  - destruct H as (H1 & H2 & H3). split; [done|]. split; [done|]. apply Forall_forall. intros j Hj.
    apply elem_of_seq in Hj. apply H3. lia.
  - apply Forall_forall. intros j Hj. apply elem_of_seq in Hj. apply H. lia.
Qed.

(** ** Witnesses *)

Module Sample.
#[local] Existing Instance Register_Digest | 0.
#[local] Existing Instance Register_DigestLaws | 0.

Definition c0 : ChainState := chain_resume Hash_ZERO 0.
Definition r1 : Record_ := stamp 3 7 1 Hash_ZERO (sample_record 5 1000 1 "agent://acme/bot" "run-1" ToolCall).
Definition r2 : Record_ :=
  stamp 3 7 2 (chain_at c0 [r1]).(chain_head) (sample_record 6 1001 2 "agent://acme/bot" "run-1" ModelCall).
Definition header : SegmentHeader := MkHeader 1 3 7 1000 13.

(** Both records, and the second one torn. *)
Definition whole : list byte := encode_segment_header 3 7 1000 ++ journal_bytes c0 [r1; r2].
Definition cut : list byte := take (length whole - 9) whole.

Lemma walk_sound_witness :
  (walk cut header Hash_ZERO).(w_stopped) = TornTail Truncated /\ (walk cut header Hash_ZERO).(w_stopped) <> EndOfFile.
Proof.
  destruct (walk_sound cut header Hash_ZERO) as (l & rest & _ & _ & _ & _ & _ & _ & H).
  - by_evaluation.
  - split; [vm_compute; reflexivity|]. destruct rest as [|x rest].
    + vm_compute. discriminate.
    + apply (H ltac:(discriminate)).
Defined.

Lemma walk_terminates_witness :
  walk_loop 5000 cut header header.(h_len) c0 [] = walk cut header Hash_ZERO.
Proof. apply (walk_terminates cut header Hash_ZERO 5000); by_evaluation. Defined.

Lemma walk_recovers_history_witness :
  map fst (kept (entries c0 [r1])) = [r1] /\
  walk_bytes (encode_segment_header 3 7 1000 ++ journal_bytes c0 [r1] ++ take 40 (frame_bytes (entry (chain_at c0 [r1]) r2).1))
    (After Hash_ZERO) =
  Ok (MkWalked (kept (entries c0 [r1])) (chain_at c0 [r1])
       (length (encode_segment_header 3 7 1000) + length (journal_bytes c0 [r1])) (TornTail Truncated)).
Proof.
  destruct (walk_recovers_history 3 7 1000 Hash_ZERO [r1] (take 40 (frame_bytes (entry (chain_at c0 [r1]) r2).1))) as [H1 H2].
  - by_evaluation.
  - by_evaluation.
  - by_evaluation.
  - by_evaluation.
  - right. exists r2, 40%nat. split; [by_evaluation|]. split; [done|by_evaluation].
  - split; [exact H2|exact H1].
Defined.

Lemma walked_head_commits_witness :
  (walk whole header Hash_ZERO).(w_chain) = (walk (whole ++ lit "tail") header Hash_ZERO).(w_chain) /\
  (walk whole header Hash_ZERO).(w_records) = (walk (whole ++ lit "tail") header Hash_ZERO).(w_records).
Proof.
  split; [by_evaluation|]. apply (walked_head_commits whole (whole ++ lit "tail") header Hash_ZERO); by_evaluation.
Defined.

Lemma scan_finds_second : next_parsable_frame (lit "junk" ++ whole) 2 = Some 17%nat.
Proof. vm_compute. reflexivity. Qed.

End Sample.
