(* ===== verification/Journal.v ===== *)
(** * The journal ([trailryx-journal/src/journal.rs])

    The journal of one shard over a disk of the class [Io]. An operation takes
    the journal and the disk and returns its result with both: what a [?] leaves
    half done is in the journal and the disk returned beside the error. *)

From S2P Require Import Prelude Bytes Ids Record Codec Digest Wire WireRecord Frame SimIo Walk.

Inductive JournalError :=
  | JIo (e : IoError)
  | JWire (e : WireError)
  | NotAJournal (e : WireError)
  | WrongOwner (file_shard : ShardIx) (file_segment : SegmentId)
  | CorruptHeader (why : WireError) (file_bytes : nat)
  | CorruptMidFile (at_offset : nat) (why : StoppedBecause) (next_good_frame : nat).

Inductive Appended :=
  | Written (seq : Z) (link : Hash)
  | Duplicate (seq : Z)
  | Busy (pending_seq : Z)
  | Stalled (written_bytes : nat).

Record DurabilityViolation := MkViolation { promised : Z; recovered : Z }.

Record Recovered := MkRecovered {
  rv_records : Z;
  rv_max_seq : Z;
  rv_head : Hash;
  rv_good_bytes : nat;
  rv_discarded_bytes : nat;
  rv_stopped : StoppedBecause;
  rv_violation : option DurabilityViolation;
}.

#[export] Instance JournalError_eq_dec : EqDecision JournalError.
Proof. solve_decision. Defined.
#[export] Instance Appended_eq_dec : EqDecision Appended.
Proof. solve_decision. Defined.
#[export] Instance DurabilityViolation_eq_dec : EqDecision DurabilityViolation.
Proof. solve_decision. Defined.
#[export] Instance Recovered_eq_dec : EqDecision Recovered.
Proof. solve_decision. Defined.

Definition is_suspicious (r : Recovered) : bool :=
  match r.(rv_stopped) with ChainBroken _ => true | _ => false end
  || match r.(rv_violation) with Some _ => true | None => false end.

(** ** The window of ids already accepted *)

Record DedupWindow := MkDedup { seen : gmap Z Z; order : list Z; capacity : Z }.

Definition dedup_new (cap : Z) : DedupWindow := {| seen := ∅; order := []; capacity := Z.max cap 1 |}.
Definition dedup_contains (w : DedupWindow) (id : RecordId) : bool := bool_decide (is_Some (w.(seen) !! id)).
Definition dedup_position (w : DedupWindow) (id : RecordId) : option Z := w.(seen) !! id.

Definition remember (w : DedupWindow) (id : RecordId) (sq : Z) : DedupWindow :=
  let seen' := <[id := sq]> w.(seen) in
  match w.(seen) !! id with
  | Some _ => {| seen := seen'; order := w.(order); capacity := w.(capacity) |}
  | None =>
      let order' := w.(order) ++ [id] in
      if w.(capacity) <? Z.of_nat (length order') then
        match order' with
        | old :: rest => {| seen := delete old seen'; order := rest; capacity := w.(capacity) |}
        | [] => {| seen := seen'; order := order'; capacity := w.(capacity) |}
        end
      else {| seen := seen'; order := order'; capacity := w.(capacity) |}
  end.

Definition dedup_len (w : DedupWindow) : nat := size w.(seen).
Definition dedup_is_empty (w : DedupWindow) : bool := (dedup_len w =? 0)%nat.

(** ** The journal *)

Record Pending := MkPending { p_bytes : list byte; p_done : nat; p_seq : Z; p_link : Hash; p_id : RecordId }.

Record Journal := MkJournal {
  j_file : FileId;
  j_shard : ShardIx;
  j_segment : SegmentId;
  j_created_at : Timestamp;
  j_start : ChainStart;
  j_genesis : Hash;
  j_chain : ChainState;
  j_written : Z;
  j_acked : Z;
  j_watermark : FileId;
  j_good_bytes : nat;
  j_since_sync : Z;
  j_sync_every : Z;
  j_pending : option Pending;
  j_dedup : DedupWindow;
  j_gaps : Z;
  j_degraded : bool;
}.

Definition with_genesis (j : Journal) (g : Hash) : Journal :=
  MkJournal j.(j_file) j.(j_shard) j.(j_segment) j.(j_created_at) j.(j_start) g j.(j_chain) j.(j_written)
    j.(j_acked) j.(j_watermark) j.(j_good_bytes) j.(j_since_sync) j.(j_sync_every) j.(j_pending) j.(j_dedup)
    j.(j_gaps) j.(j_degraded).

Definition with_pending (j : Journal) (p : option Pending) (degraded : bool) : Journal :=
  MkJournal j.(j_file) j.(j_shard) j.(j_segment) j.(j_created_at) j.(j_start) j.(j_genesis) j.(j_chain) j.(j_written)
    j.(j_acked) j.(j_watermark) j.(j_good_bytes) j.(j_since_sync) j.(j_sync_every) p j.(j_dedup)
    j.(j_gaps) degraded.

Definition with_acked (j : Journal) (acked since_sync : Z) (degraded : bool) : Journal :=
  MkJournal j.(j_file) j.(j_shard) j.(j_segment) j.(j_created_at) j.(j_start) j.(j_genesis) j.(j_chain) j.(j_written)
    acked j.(j_watermark) j.(j_good_bytes) since_sync j.(j_sync_every) j.(j_pending) j.(j_dedup)
    j.(j_gaps) degraded.

Definition note_gap (j : Journal) : Journal :=
  MkJournal j.(j_file) j.(j_shard) j.(j_segment) j.(j_created_at) j.(j_start) j.(j_genesis) j.(j_chain) j.(j_written)
    j.(j_acked) j.(j_watermark) j.(j_good_bytes) j.(j_since_sync) j.(j_sync_every) j.(j_pending) j.(j_dedup)
    (j.(j_gaps) + 1) j.(j_degraded).

Definition sync_due (j : Journal) : bool := j.(j_sync_every) <=? j.(j_since_sync).
Definition has_pending (j : Journal) : bool := match j.(j_pending) with Some _ => true | None => false end.

(** The twelve bytes of the watermark file. *)
Definition watermark_bytes (acked : Z) : list byte :=
  let bytes := to_be_bytes 8 acked in bytes ++ to_le_bytes 4 (crc32 bytes).

(** What [read_watermark] makes of a file's bytes. *)
Definition parse_watermark (bytes : list byte) : Z :=
  if negb (length bytes =? 12)%nat then 0
  else
    let want := from_le_bytes (slice bytes 8 4) in
    if negb (crc32 (take 8 bytes) =? want) then 0 else from_be_bytes (take 8 bytes).

(** A header that cannot be read is refused unless the file is empty or could be
    a torn header and nothing else. *)
Definition refuse_header (e : WireError) (file_bytes : nat) : option JournalError :=
  if (file_bytes =? 0)%nat then None
  else
    match e with
    | Truncated | BadCrc =>
        if (file_bytes <=? MAX_SEGMENT_HEADER_LEN)%nat then None else Some (CorruptHeader e file_bytes)
    | _ => Some (NotAJournal e)
    end.

Section Journal.
Context {D : Digest} {W : Type} {IO : Io W}.

(** The loop that puts [bytes] on a file: at most 10,000 attempts, a refusal for
    want of space being one of them. *)
Fixpoint append_loop (attempts_left : nat) (f : FileId) (bytes : list byte) (done_ : nat) (s : W) :
    result JournalError unit * W :=
  if (done_ <? length bytes)%nat then
    match attempts_left with
    | O => (Err (JIo NoSpace), s)
    | S a =>
        match io_append f (drop done_ bytes) s with
        | (Ok n, s) => append_loop a f bytes (done_ + n) s
        | (Err NoSpace, s) => append_loop a f bytes done_ s
        | (Err e, s) => (Err (JIo e), s)
        end
    end
  else (Ok tt, s).

Definition MAX_ATTEMPTS : nat := Z.to_nat 10000.

Definition ensure_header (j : Journal) (s : W) : result JournalError nat * W :=
  match io_read_all j.(j_file) s with
  | (Err e, s) => (Err (JIo e), s)
  | (Ok bytes, s) =>
      let write_header :=
        match io_truncate j.(j_file) 0 s with
        | (Err e, s) => (Err (JIo e), s)
        | (Ok _, s) =>
            let header := encode_segment_header j.(j_shard) j.(j_segment) j.(j_created_at) in
            match append_loop MAX_ATTEMPTS j.(j_file) header 0 s with
            | (Err e, s) => (Err e, s)
            | (Ok _, s) => (Ok (length header), s)
            end
        end in
      match decode_segment_header bytes with
      | Ok h =>
          if negb (h.(h_shard) =? j.(j_shard)) || negb (h.(h_segment) =? j.(j_segment))
          then (Err (WrongOwner h.(h_shard) h.(h_segment)), s)
          else (Ok h.(h_len), s)
      | Err e =>
          match refuse_header e (length bytes) with
          | Some err => (Err err, s)
          | None => write_header
          end
      end
  end.

Definition read_watermark (j : Journal) (s : W) : Z * W :=
  match io_read_all j.(j_watermark) s with
  | (Err _, s) => (0, s)
  | (Ok bytes, s) => (parse_watermark bytes, s)
  end.

Definition write_watermark (j : Journal) (s : W) : result JournalError unit * W :=
  let bytes := watermark_bytes j.(j_acked) in
  match io_truncate j.(j_watermark) 0 s with
  | (Err e, s) => (Err (JIo e), s)
  | (Ok _, s) =>
      match append_loop MAX_ATTEMPTS j.(j_watermark) bytes 0 s with
      | (Err e, s) => (Err e, s)
      | (Ok _, s) =>
          match io_fsync j.(j_watermark) s with
          | (Err e, s) => (Err (JIo e), s)
          | (Ok _, s) => (Ok tt, s)
          end
      end
  end.

(** The end of [recover]: what the walk found becomes the journal's state. *)
Definition adopt (j : Journal) (walked : Walked) (discarded : nat) (mark : Z) : Recovered * Journal :=
  let dedup := fold_left (fun w e => remember w e.1.(r_id) e.1.(seq)) walked.(w_records) j.(j_dedup) in
  let promised := Z.max j.(j_acked) mark in
  let recovered := walked.(w_chain).(chain_length) in
  let violation := if recovered <? promised then Some (MkViolation promised recovered) else None in
  ({| rv_records := Z.of_nat (length walked.(w_records)); rv_max_seq := recovered;
      rv_head := walked.(w_chain).(chain_head); rv_good_bytes := walked.(w_good_bytes);
      rv_discarded_bytes := discarded; rv_stopped := walked.(w_stopped); rv_violation := violation |},
   MkJournal j.(j_file) j.(j_shard) j.(j_segment) j.(j_created_at) j.(j_start) j.(j_genesis) walked.(w_chain)
     recovered (Z.min j.(j_acked) recovered) j.(j_watermark) walked.(w_good_bytes) 0 j.(j_sync_every) None dedup
     j.(j_gaps) false).

Definition recover (j : Journal) (s : W) : result JournalError Recovered * Journal * W :=
  match ensure_header j s with
  | (Err e, s) => (Err e, j, s)
  | (Ok header_len, s) =>
      match io_read_all j.(j_file) s with
      | (Err e, s) => (Err (JIo e), j, s)
      | (Ok bytes, s) =>
          match decode_segment_header bytes with
          | Err e => (Err (NotAJournal e), j, s)
          | Ok header =>
              let genesis := genesis_of j.(j_start) (take header_len bytes) in
              let j := with_genesis j genesis in
              let walked := walk bytes header genesis in
              let discarded := (length bytes - walked.(w_good_bytes))%nat in
              let finish (s : W) :=
                let '(mark, s) := read_watermark j s in
                let '(report, j) := adopt j walked discarded mark in
                (Ok report, j, s) in
              if (0 <? discarded)%nat then
                match next_parsable_frame bytes walked.(w_good_bytes) with
                | Some at_ => (Err (CorruptMidFile walked.(w_good_bytes) walked.(w_stopped) at_), j, s)
                | None =>
                    match io_truncate j.(j_file) walked.(w_good_bytes) s with
                    | (Err e, s) => (Err (JIo e), j, s)
                    | (Ok _, s) => finish s
                    end
                end
              else finish s
          end
      end
  end.

Definition DEDUP_CAPACITY : Z := 65536.

(** [now] is [clock.wall_nanos()]. *)
Definition open (ix : ShardIx) (segment : SegmentId) (name : str) (sync_every : Z) (start : ChainStart) (now : Timestamp)
    (s : W) : result JournalError (Journal * Recovered) * W :=
  match io_create name s with
  | (Err e, s) => (Err (JIo e), s)
  | (Ok file, s) =>
      match io_create (name ++ lit ".ack") s with
      | (Err e, s) => (Err (JIo e), s)
      | (Ok watermark, s) =>
          let j := MkJournal file ix segment now start Hash_ZERO chain_genesis 0 0 watermark 0 0 (Z.max sync_every 1)
                     None (dedup_new DEDUP_CAPACITY) 0 false in
          match recover j s with
          | (Err e, _, s) => (Err e, s)
          | (Ok report, j, s) => (Ok (j, report), s)
          end
      end
  end.

(** The loop of [push_pending]: it stops when an append accepts nothing or is
    refused for want of space. A turn that goes on has written a byte, so a turn
    per byte is enough. *)
Fixpoint push_loop (fuel : nat) (f : FileId) (bytes : list byte) (done_ : nat) (degraded : bool) (s : W) :
    result JournalError unit * nat * bool * W :=
  if (done_ <? length bytes)%nat then
    match fuel with
    | O => (Ok tt, done_, degraded, s)
    | S fuel =>
        match io_append f (drop done_ bytes) s with
        | (Ok O, s) => (Ok tt, done_, degraded, s)
        | (Ok n, s) => push_loop fuel f bytes (done_ + n) degraded s
        | (Err NoSpace, s) => (Ok tt, done_, true, s)
        | (Err e, s) => (Err (JIo e), done_, degraded, s)
        end
    end
  else (Ok tt, done_, degraded, s).

(** The record is whole on the file. *)
Definition commit (j : Journal) (p : Pending) : Journal :=
  MkJournal j.(j_file) j.(j_shard) j.(j_segment) j.(j_created_at) j.(j_start) j.(j_genesis)
    (chain_resume p.(p_link) p.(p_seq)) p.(p_seq) j.(j_acked) j.(j_watermark)
    (j.(j_good_bytes) + length p.(p_bytes)) (j.(j_since_sync) + 1) j.(j_sync_every) None
    (remember j.(j_dedup) p.(p_id) p.(p_seq)) j.(j_gaps) false.

Definition push_pending (j : Journal) (s : W) : result JournalError Appended * Journal * W :=
  match j.(j_pending) with
  | None => (Ok (Stalled 0), j, s)
  | Some p =>
      let '(r, done_, degraded, s) :=
        push_loop (length p.(p_bytes)) j.(j_file) p.(p_bytes) p.(p_done) j.(j_degraded) s in
      let p := MkPending p.(p_bytes) done_ p.(p_seq) p.(p_link) p.(p_id) in
      match r with
      | Err e => (Err e, with_pending j (Some p) degraded, s)
      | Ok _ =>
          if (p.(p_done) <? length p.(p_bytes))%nat
          then (Ok (Stalled p.(p_done)), with_pending j (Some p) degraded, s)
          else (Ok (Written p.(p_seq) p.(p_link)), commit j p, s)
      end
  end.

Definition append (record : Record_) (j : Journal) (s : W) : result JournalError Appended * Journal * W :=
  match j.(j_pending) with
  | Some p =>
      if negb (p.(p_id) =? record.(r_id)) then (Ok (Busy p.(p_seq)), j, s) else push_pending j s
  | None =>
      match dedup_position j.(j_dedup) record.(r_id) with
      | Some sq => (Ok (Duplicate sq), j, s)
      | None =>
          let sq := j.(j_written) + 1 in
          let stamped := stamp j.(j_shard) j.(j_segment) sq j.(j_chain).(chain_head) record in
          let body := encode_record stamped in
          let link := chain_step j.(j_chain).(chain_head) sq body in
          let frame := encode_frame body link in
          push_pending (with_pending j (Some (MkPending frame 0 sq link record.(r_id))) j.(j_degraded)) s
      end
  end.

Definition sync (j : Journal) (s : W) : result JournalError Z * Journal * W :=
  match io_fsync j.(j_file) s with
  | (Ok _, s) =>
      let j := with_acked j j.(j_written) 0 false in
      let '(_, s) := write_watermark j s in
      (Ok j.(j_acked), j, s)
  | (Err e, s) => (Err (JIo e), with_acked j j.(j_acked) j.(j_since_sync) true, s)
  end.

Definition read_all (j : Journal) (s : W) : result JournalError Walked * W :=
  match io_read_all j.(j_file) s with
  | (Err e, s) => (Err (JIo e), s)
  | (Ok bytes, s) =>
      match decode_segment_header bytes with
      | Err e => (Err (NotAJournal e), s)
      | Ok header => (Ok (walk bytes header j.(j_genesis)), s)
      end
  end.

(** Bytes a frame adds around a record body. *)
Definition frame_overhead (body_len : nat) : nat :=
  (length (encode_frame (repeat x00 body_len) Hash_ZERO) - body_len)%nat.

End Journal.
