(* ===== verification/Durability.v ===== *)
(** * The durability contract ([docs/durability.md], [trailryx-journal/src/journal.rs])

    The journal over any disk that meets [IoLaws], as a transition system with
    crashes: [reach] says which journals and disks a deployment can arrive at and
    which records it has been promised. [live] is the invariant of a running
    journal, [disk_inv] that of the files when no process runs. *)

From S2P Require Import Prelude Bytes Ids Record Codec Digest Wire WireRecord Frame SimIo Walk Journal.

(** ** Loops over a disk *)

Section Disk.
Context {W : Type} {IO : Io W} {IOL : IoLaws W}.

(** [s'] differs from [s] in the file [f] at most. *)
Record only (f : FileId) (s s' : W) : Prop := {
  on_honest : io_honest s -> io_honest s';
  on_named : forall n, io_named s' n = io_named s n;
  on_view : forall g, g <> f -> io_view s' g = io_view s g;
}.

Lemma only_refl f s : only f s s.
Proof. by split. Qed.

Lemma only_trans f s1 s2 s3 : only f s1 s2 -> only f s2 s3 -> only f s1 s3.
Proof.
  intros [a1 b1 c1] [a2 b2 c2]. split; [auto|intros n; by rewrite b2|intros g Hg; by rewrite c2, c1].
Qed.

Lemma append_only f data s r s' : io_append f data s = (r, s') ->
  only f s s' /\
  match r with
  | Ok n => (n <= length data)%nat /\
      exists du di, io_view s f = Some (du, di) /\ io_view s' f = Some (du, di ++ take n data)
  | Err _ => io_view s' f = io_view s f
  end.
Proof. intros H. apply io_append_law in H as (H1 & H2 & H3 & H4). done. Qed.

Lemma truncate_only f len s r s' : io_truncate f len s = (r, s') ->
  only f s s' /\
  match r with
  | Ok _ => exists du di, io_view s f = Some (du, di) /\ io_view s' f = Some (take len du, take (len - length du) di)
  | Err _ => io_view s' f = io_view s f
  end.
Proof. intros H. apply io_truncate_law in H as (H1 & H2 & H3 & H4). done. Qed.

Lemma fsync_only f s r s' : io_fsync f s = (r, s') -> io_honest s ->
  only f s s' /\
  match r with
  | Ok _ => exists du di, io_view s f = Some (du, di) /\ io_view s' f = Some (du ++ di, [])
  | Err _ => io_view s' f = io_view s f
  end.
Proof. intros H Hh. apply io_fsync_law in H as (H1 & H2 & H3 & H4). split; [done|]. destruct r; auto. Qed.

(** What a loop that puts [bytes] on a file leaves: some first part of them, all
    of them when it reports success. *)
Lemma append_loop_ok a f bytes k s r s' du di :
  append_loop a f bytes k s = (r, s') -> (k <= length bytes)%nat ->
  io_view s f = Some (du, di ++ take k bytes) ->
  only f s s' /\ exists m, (m <= length bytes)%nat /\ io_view s' f = Some (du, di ++ take m bytes) /\
    match r with Ok _ => m = length bytes | Err e => (m < length bytes)%nat /\ exists io, e = JIo io end.
Proof.
  revert k s; induction a as [|a IH]; intros k s; cbn [append_loop];
    (destruct (Nat.ltb_spec k (length bytes)) as [Hlt|Hge];
     [|intros [= <- <-] Hk Hv; split; [apply only_refl|]; exists k; repeat split; auto; lia]).
  { intros [= <- <-] Hk Hv. split; [apply only_refl|]. exists k. eauto. }
  destruct (io_append f (drop k bytes) s) as [[n|e] s1] eqn:E; apply append_only in E as [Ho Hr].
  - destruct Hr as (Hn & du0 & di0 & Hv0 & Hv1). rewrite length_drop in Hn. intros H Hk Hv.
    rewrite Hv in Hv0. injection Hv0 as <- <-. rewrite <- app_assoc in Hv1.
    assert (Ht : take k bytes ++ take n (drop k bytes) = take (k + n) bytes) by (by rewrite take_plus_slice).
    rewrite Ht in Hv1. apply IH in H as [Ho' Hm]; [|lia|done]. split; [by eapply only_trans|done].
  - intros H Hk Hv. rewrite <- Hr in Hv.
    assert (Hstop : r = Err (JIo e) -> s' = s1 -> only f s s' /\ exists m, (m <= length bytes)%nat /\
      io_view s' f = Some (du, di ++ take m bytes) /\ match r with Ok _ => m = length bytes | Err e => (m < length bytes)%nat /\ exists io, e = JIo io end).
    { intros -> ->. split; [done|]. exists k. eauto. }
    destruct e; try (injection H as <- <-; by apply Hstop).
    apply IH in H as [Ho' Hm]; [|lia|done]. split; [by eapply only_trans|done].
Qed.

Lemma push_loop_ok n f bytes k dg s r k' dg' s' du di :
  push_loop n f bytes k dg s = (r, k', dg', s') -> (k <= length bytes)%nat -> io_view s f = Some (du, di) ->
  only f s s' /\ (k <= k' <= length bytes)%nat /\
  (exists di', io_view s' f = Some (du, di') /\ forall pre, du ++ di = pre ++ take k bytes -> du ++ di' = pre ++ take k' bytes) /\
  match r with Ok _ => True | Err e => (k' < length bytes)%nat /\ exists io, e = JIo io end.
Proof.
  revert k s di; induction n as [|n IH]; intros k s di; cbn [push_loop];
    (destruct (Nat.ltb_spec k (length bytes)) as [Hlt|Hge];
     [|intros [= <- <- <- <-] Hk Hv; split; [apply only_refl|]; split; [lia|]; split; [by exists di|done]]).
  { intros [= <- <- <- <-] Hk Hv. split; [apply only_refl|]; split; [lia|]; split; [by exists di|done]. }
  destruct (io_append f (drop k bytes) s) as [[m|e] s1] eqn:E; apply append_only in E as [Ho Hr].
  - destruct Hr as (Hn & du0 & di0 & Hv0 & Hv1). rewrite length_drop in Hn. intros H Hk Hv.
    rewrite Hv in Hv0. injection Hv0 as <- <-.
    assert (Hpre : forall pre, du ++ di = pre ++ take k bytes ->
      du ++ di ++ take m (drop k bytes) = pre ++ take (k + m) bytes).
    { intros pre E. by rewrite app_assoc, E, <- app_assoc, take_plus_slice. }
    destruct m as [|m].
    + injection H as <- <- <- <-. split; [done|]. split; [lia|]. split; [|done].
      eexists. split; [exact Hv1|]. intros pre E. by rewrite (Hpre pre E), Nat.add_0_r.
    + apply IH with (di := di ++ take (S m) (drop k bytes)) in H as (Ho' & Hm & (di' & Hv' & Hp') & Hr); [|lia|done].
      split; [by eapply only_trans|]. split; [lia|]. split; [|done]. exists di'. split; [done|].
      intros pre E. by apply Hp', Hpre.
  - intros H Hk Hv. rewrite <- Hr in Hv. destruct e; injection H as <- <- <- <-; (split; [done|]);
      (split; [lia|]); (split; [by exists di|]); try done; (split; [lia|by eexists]).
Qed.

(** The fuel of [push_loop] is enough: it never ends for want of it. *)
Lemma push_loop_fuel n1 n2 f bytes k dg s :
  (length bytes - k <= n1)%nat -> (length bytes - k <= n2)%nat ->
  push_loop n1 f bytes k dg s = push_loop n2 f bytes k dg s.
Proof.
  revert n2 k s; induction n1 as [|n1 IH]; intros [|n2] k s H1 H2; cbn [push_loop];
    (destruct (Nat.ltb_spec k (length bytes)); [|done]); try lia.
  destruct (io_append f (drop k bytes) s) as [[[|m]|e] s1]; try done. apply IH; lia.
Qed.

End Disk.

(** ** The watermark file *)

Lemma length_watermark a : length (watermark_bytes a) = 12%nat.
Proof. unfold watermark_bytes. cbn zeta. by rewrite length_app, length_to_be_bytes, length_to_le_bytes. Qed.

(** A whole watermark reads as the number written, and any cut of it as none. *)
Lemma parse_watermark_cut a k :
  u64_ok a -> parse_watermark (take k (watermark_bytes a)) = if (12 <=? k)%nat then a else 0.
Proof.
  intros Ha. unfold parse_watermark. rewrite length_take, length_watermark.
  destruct (Nat.leb_spec 12 k) as [Hge|Hlt].
  2:{ rewrite Nat.min_l by lia. destruct (Nat.eqb_spec k 12); [lia|done]. }
  rewrite Nat.min_r by lia. cbn [Nat.eqb negb]. rewrite (take_ge (watermark_bytes a)) by (rewrite length_watermark; lia).
  unfold watermark_bytes. cbn zeta. set (b := to_be_bytes 8 a).
  assert (Hb : length b = 8%nat) by apply length_to_be_bytes.
  rewrite take_app_le, take_ge by lia.
  assert (Hs : slice (b ++ to_le_bytes 4 (crc32 b)) 8 4 = to_le_bytes 4 (crc32 b)).
  { unfold slice. rewrite <- Hb at 1. rewrite drop_app_length. apply take_ge. by rewrite length_to_le_bytes. }
  rewrite Hs, from_to_le_bytes, Z.mod_small by apply crc32_ok. rewrite Z.eqb_refl. cbn [negb].
  unfold b. by apply from_to_be_bytes.
Qed.

(** ** What the files hold *)

Section Contract.
Context `{DL : DigestLaws} {W : Type} {IO : Io W} {IOL : IoLaws W}.
Context (ix sg : Z) (name : str) (start : ChainStart).
Context (Hix : u16_ok ix) (Hsg : u64_ok sg).

Definition header_of (at_ : Z) : list byte := encode_segment_header ix sg at_.

(** Where the chain of a file created at [at_] starts. *)
Definition base (at_ : Z) : ChainState := chain_resume (genesis_of start (header_of at_)) 0.

Definition ack_name : str := name ++ lit ".ack".

(** The bytes every promised record is read from are durable. *)
Definition promised_durable (at_ : Z) (A : list Record_) (du : list byte) : Prop :=
  A = [] \/ (length (header_of at_) + length (journal_bytes (base at_) A) <= length du)%nat.

(** A file with its header: a history that begins with the promised records, and
    a torn frame. *)
Record file_full (A : list Record_) (at_ : Z) (recs : list Record_) (t du di : list byte) : Prop := {
  ff_at : u64_ok at_;
  ff_bytes : du ++ di = header_of at_ ++ journal_bytes (base at_) recs ++ t;
  ff_history : history ix sg (base at_) recs;
  ff_torn : torn ix sg (chain_at (base at_) recs) t;
  ff_acked : A `prefix_of` recs;
  ff_durable : promised_durable at_ A du;
}.

(** A file whose header did not finish landing, or an empty one. *)
Definition file_torn (A : list Record_) (bytes : list byte) : Prop :=
  A = [] /\ exists at_ n, u64_ok at_ /\ (n < length (header_of at_))%nat /\ bytes = take n (header_of at_).

Definition file_ok (A : list Record_) (du di : list byte) : Prop :=
  file_torn A (du ++ di) \/ exists at_ recs t, file_full A at_ recs t du di.

(** A watermark file holds a first part of a number that was promised. *)
Definition mark_ok (A : list Record_) (bytes : list byte) : Prop :=
  exists a k, u64_ok a /\ a <= Z.of_nat (length A) /\ bytes = take k (watermark_bytes a).

Definition file_inv (s : W) (A : list Record_) : Prop :=
  match io_named s name with
  | None => A = []
  | Some f => exists du di, io_view s f = Some (du, di) /\ file_ok A du di
  end.

Definition mark_inv (s : W) (A : list Record_) : Prop :=
  match io_named s ack_name with
  | None => True
  | Some f => exists du di, io_view s f = Some (du, di) /\ mark_ok A (du ++ di)
  end.

(** The invariant of the disk. *)
Record disk_inv (s : W) (A : list Record_) : Prop := {
  di_honest : io_honest s;
  di_file : file_inv s A;
  di_mark : mark_inv s A;
}.

(** [j] is a journal opened on these files. *)
Record opened (j : Journal) (s : W) : Prop := {
  op_file : io_named s name = Some j.(j_file);
  op_mark : io_named s ack_name = Some j.(j_watermark);
  op_shard : j.(j_shard) = ix;
  op_segment : j.(j_segment) = sg;
  op_start : j.(j_start) = start;
  op_created : u64_ok j.(j_created_at);
}.

Lemma name_ne_ack : name <> ack_name.
Proof.
  unfold ack_name. intros E. apply (f_equal length) in E. rewrite length_app in E.
  change (length (lit ".ack")) with 4%nat in E. lia.
Qed.

Lemma files_differ s f g : io_honest s -> io_named s name = Some f -> io_named s ack_name = Some g -> f <> g.
Proof.
  intros Hh Hf Hg ->. destruct (io_named_law s name g Hh Hf) as [_ H]. apply name_ne_ack. symmetry. by apply H.
Qed.

Lemma opened_only f j s s' : only f s s' -> opened j s -> opened j s'.
Proof. intros [_ Hn _] [H1 H2 H3 H4 H5 H6]. split; rewrite ?Hn; done. Qed.

Lemma mark_inv_only f s s' A :
  io_honest s -> io_named s name = Some f -> only f s s' -> mark_inv s A -> mark_inv s' A.
Proof.
  intros Hh Hf [_ Hn Hv]. unfold mark_inv. rewrite Hn. destruct (io_named s ack_name) as [g|] eqn:Hg; [|done].
  rewrite Hv; [done|]. intros ->. by eapply files_differ.
Qed.

Lemma file_inv_only f s s' A :
  io_honest s -> io_named s ack_name = Some f -> only f s s' -> file_inv s A -> file_inv s' A.
Proof.
  intros Hh Hf [_ Hn Hv]. unfold file_inv. rewrite Hn. destruct (io_named s name) as [g|] eqn:Hg; [|done].
  rewrite Hv; [done|]. intros ->. by eapply files_differ.
Qed.

Lemma file_inv_at j s A du di :
  opened j s -> io_view s j.(j_file) = Some (du, di) -> file_ok A du di -> file_inv s A.
Proof. intros Ho Hv Hf. unfold file_inv. rewrite (op_file _ _ Ho). by exists du, di. Qed.

Lemma mark_grows A A' bytes : (length A <= length A')%nat -> mark_ok A bytes -> mark_ok A' bytes.
Proof. intros Hl (a & k & H1 & H2 & H3). exists a, k. split; [done|]. split; [lia|done]. Qed.

Lemma header_at at_ rest : u64_ok at_ ->
  decode_segment_header (header_of at_ ++ rest) =
  Ok (MkHeader FORMAT_VERSION ix sg at_ (length (header_of at_))).
Proof. intros Hat. by apply header_reads. Qed.

(** The walk over a full file. *)
Lemma walk_full A at_ recs t du di :
  file_full A at_ recs t du di ->
  let h := MkHeader FORMAT_VERSION ix sg at_ (length (header_of at_)) in
  walk (du ++ di) h (base at_).(chain_head) =
  MkWalked (kept (entries (base at_) recs)) (chain_at (base at_) recs)
    (length (header_of at_) + length (journal_bytes (base at_) recs)) (stop_after t).
Proof.
  intros [Hat -> Hh Ht _ _]. cbn zeta. by apply walk_history.
Qed.

(** ** Crashes *)

Lemma crash_full A at_ recs t du di keep :
  file_full A at_ recs t du di -> file_ok A (du ++ take keep di) [].
Proof.
  intros [Hat Hb Hh Ht Hp Hd]. set (n := (length du + keep)%nat).
  assert (Hcut : du ++ take keep di = take n (du ++ di)) by (unfold n; by rewrite take_app_add).
  destruct (Nat.lt_ge_cases n (length (header_of at_))) as [Hlt|Hge].
  - left. assert (A = []) as -> by (destruct Hd as [->|]; [done|lia]). split; [done|].
    exists at_, n. rewrite app_nil_r, Hcut, Hb, take_app_le by lia. done.
  - right. destruct (history_cut ix sg (base at_) recs t (n - length (header_of at_)) Hh Ht) as (k & t' & E & Ht' & Hk & Hmax).
    exists at_, (take k recs), t'. destruct Hp as [tail ->]. split.
    + done.
    + rewrite app_nil_r, Hcut, Hb, take_app_ge by lia. by rewrite E.
    + by apply history_take.
    + exact Ht'.
    + destruct Hd as [->|Hd]; [by apply prefix_nil|].
      assert (length A <= k)%nat.
      { apply Hmax; [rewrite length_app; lia|]. rewrite take_app_length. lia. }
      exists (take (k - length A) tail). by rewrite take_app_ge by lia.
    + destruct Hd as [->|Hd]; [by left|right]. rewrite length_app. lia.
Qed.

Lemma crash_file A du di keep : file_ok A du di -> file_ok A (du ++ take keep di) [].
Proof.
  intros [(-> & at_ & n & Hat & Hn & Hb)|(at_ & recs & t & Hf)]; [|by eapply crash_full].
  left. split; [done|]. exists at_, ((length du + keep) `min` n)%nat. rewrite app_nil_r, <- take_app_add, Hb, take_take.
  split; [done|]. split; [lia|done].
Qed.

Lemma crash_mark A du di keep : mark_ok A (du ++ di) -> mark_ok A ((du ++ take keep di) ++ []).
Proof.
  intros (a & k & Ha & Hl & E). exists a, ((length du + keep) `min` k)%nat.
  rewrite app_nil_r, <- take_app_add, E, take_take. done.
Qed.

Lemma crash_inv s s' A : disk_inv s A -> io_crash s s' -> disk_inv s' A.
Proof.
  intros [Hh Hf Hm] Hc. apply io_crash_law in Hc as (H1 & H2 & H3). split; [auto|..].
  - revert Hf. unfold file_inv. rewrite H2. destruct (io_named s name) as [f|]; [|done].
    intros (du & di & Hv & Hok). specialize (H3 f). rewrite Hv in H3. destruct H3 as [keep Hv'].
    eexists _, _. split; [done|by apply crash_file].
  - revert Hm. unfold mark_inv. rewrite H2. destruct (io_named s ack_name) as [f|]; [|done].
    intros (du & di & Hv & Hok). specialize (H3 f). rewrite Hv in H3. destruct H3 as [keep Hv'].
    eexists _, _. split; [done|by apply crash_mark].
Qed.

(** ** Recovery *)

Lemma disk_inv_write j s s' A du di :
  disk_inv s A -> opened j s -> only j.(j_file) s s' ->
  io_view s' j.(j_file) = Some (du, di) -> file_ok A du di -> disk_inv s' A.
Proof.
  intros [Hh Hf Hm] Ho Hon Hv Hok. split; [by apply Hon| |].
  - by apply (file_inv_at j s' A du di); [eapply opened_only|..].
  - eapply mark_inv_only; [done|exact (op_file _ _ Ho)|done..].
Qed.

Lemma disk_inv_view j s A :
  disk_inv s A -> opened j s -> exists du di, io_view s j.(j_file) = Some (du, di) /\ file_ok A du di.
Proof. intros [_ Hf _] Ho. unfold file_inv in Hf. by rewrite (op_file _ _ Ho) in Hf. Qed.

Lemma disk_inv_same j s s' A :
  disk_inv s A -> opened j s -> only j.(j_file) s s' -> io_view s' j.(j_file) = io_view s j.(j_file) -> disk_inv s' A.
Proof.
  intros Hd Ho Hon Hv. destruct (disk_inv_view _ _ _ Hd Ho) as (du & di & Hv0 & Hok). rewrite Hv0 in Hv.
  by eapply disk_inv_write.
Qed.

Lemma full_ok A at_ recs t du di : file_full A at_ recs t du di -> file_ok A du di.
Proof. intros. right. by exists at_, recs, t. Qed.

Lemma file_empty : file_torn [] [].
Proof.
  split; [done|]. exists 0, 0%nat. split; [by_evaluation|]. split; [|done].
  unfold header_of, encode_segment_header. rewrite length_with_crc. lia.
Qed.

(** Writing the header of a file that holds nothing. *)
Lemma write_header_ok j s r s' :
  opened j s -> io_view s j.(j_file) = Some ([], []) -> disk_inv s [] ->
  append_loop MAX_ATTEMPTS j.(j_file) (encode_segment_header j.(j_shard) j.(j_segment) j.(j_created_at)) 0 s = (r, s') ->
  only j.(j_file) s s' /\ disk_inv s' [] /\
  exists du di, io_view s' j.(j_file) = Some (du, di) /\
  match r with
  | Ok _ => file_full [] j.(j_created_at) [] [] du di
  | Err e => file_ok [] du di /\ exists io, e = JIo io
  end.
Proof.
  intros Ho Hv Hd H. rewrite (op_shard _ _ Ho), (op_segment _ _ Ho) in H. fold (header_of j.(j_created_at)) in H.
  apply append_loop_ok with (du := []) (di := []) in H as (Hon & m & Hm & Hv' & Hr); [|lia|done].
  cbn [app] in Hv'. pose proof (op_created _ _ Ho) as Hc.
  assert (Hres : match r with Ok _ => file_full [] (j_created_at j) [] [] [] (take m (header_of (j_created_at j)))
                 | Err e => file_ok [] [] (take m (header_of (j_created_at j))) /\ exists io, e = JIo io end).
  { destruct r as [u|e].
    - subst m. split; [done| |done|by left|done|by left]. cbn [app]. rewrite take_ge by lia.
      unfold journal_bytes, frames_bytes. cbn. by rewrite app_nil_r.
    - destruct Hr as [Hr Hio]. split; [|done]. left. split; [done|]. by exists (j_created_at j), m. }
  split; [done|]. split; [|by exists [], (take m (header_of (j_created_at j)))].
  eapply disk_inv_write; [done..|]. destruct r; [by eapply full_ok|by destruct Hres].
Qed.

Lemma header_of_cut at_ n : u64_ok at_ -> (n < length (header_of at_))%nat ->
  decode_segment_header (take n (header_of at_)) = Err Truncated.
Proof. intros. by apply header_cut. Qed.

Lemma length_header_of at_ : u64_ok at_ -> (length (header_of at_) <= MAX_SEGMENT_HEADER_LEN)%nat.
Proof. intros. by apply length_header_fields. Qed.

Lemma ensure_header_ok j s r s' A :
  disk_inv s A -> opened j s -> ensure_header j s = (r, s') ->
  only j.(j_file) s s' /\ disk_inv s' A /\
  match r with
  | Ok n => exists at_ recs t du di, io_view s' j.(j_file) = Some (du, di) /\ file_full A at_ recs t du di /\
              n = length (header_of at_)
  | Err e => exists io, e = JIo io
  end.
Proof.
  intros Hd Ho. unfold ensure_header. destruct (disk_inv_view _ _ _ Hd Ho) as (du & di & Hv & Hok).
  destruct (io_read_all (j_file j) s) as [[bytes|e] s1] eqn:Er; apply io_read_law in Er as [-> Hr]; [|congruence].
  destruct Hr as (du' & di' & Hv' & ->). rewrite Hv in Hv'. injection Hv' as <- <-.
  destruct Hok as [(-> & at_ & n & Hat & Hn & ->)|(at_ & recs & t & Hf)].
  - rewrite header_of_cut by done. rewrite length_take. pose proof (length_header_of at_ Hat).
    assert (Href : refuse_header Truncated (n `min` length (header_of at_)) = None).
    { unfold refuse_header. destruct (Nat.eqb_spec (n `min` length (header_of at_)) 0); [done|].
      destruct (Nat.leb_spec (n `min` length (header_of at_)) MAX_SEGMENT_HEADER_LEN); [done|lia]. }
    rewrite Href.
    destruct (io_truncate (j_file j) 0 s) as [[u|e] s2] eqn:Et; apply truncate_only in Et as [Hon Ht].
    + destruct Ht as (du0 & di0 & _ & Hv2). cbn [take Nat.sub] in Hv2.
      assert (Hd2 : disk_inv s2 []) by (eapply disk_inv_write; [done|done|done|done|left; apply file_empty]).
      destruct (append_loop _ _ _ _ s2) as [[u'|e] s3] eqn:El;
        apply write_header_ok in El as (Hon' & Hd3 & du3 & di3 & Hv3 & Hres); try done; try (by eapply opened_only);
        intros [= <- <-]; (split; [by eapply only_trans|]); (split; [done|]).
      * exists (j_created_at j), [], [], du3, di3. split; [done|]. split; [done|].
        unfold header_of. by rewrite (op_shard _ _ Ho), (op_segment _ _ Ho).
      * by destruct Hres.
    + intros [= <- <-]. split; [done|]. split; [by eapply disk_inv_same|by eexists].
  - rewrite (ff_bytes _ _ _ _ _ _ Hf), header_at by apply Hf. cbn [h_shard h_segment h_len].
    rewrite (op_shard _ _ Ho), (op_segment _ _ Ho), !Z.eqb_refl. cbn [negb orb]. intros [= <- <-].
    split; [apply only_refl|]. split; [done|]. by exists at_, recs, t, du, di.
Qed.

(** ** A running journal *)

Definition pending_bytes (j : Journal) : list byte :=
  match j.(j_pending) with Some p => take p.(p_done) p.(p_bytes) | None => [] end.

(** The pending frame is that of the record which comes next. *)
Definition pending_ok (j : Journal) (c : ChainState) : Prop :=
  match j.(j_pending) with
  | None => True
  | Some p => exists r, stamped ix sg c r /\ p.(p_bytes) = frame_bytes (entry c r).1 /\ p.(p_seq) = r.(seq) /\
      p.(p_link) = (entry c r).1.(f_link) /\ p.(p_id) = r.(r_id) /\ (p.(p_done) < length p.(p_bytes))%nat
  end.

(** The window answers with the position of a record of that id. *)
Definition dedup_ok (w : DedupWindow) (recs : list Record_) : Prop :=
  forall id sq, w.(seen) !! id = Some sq ->
    exists r, recs !! Z.to_nat (sq - 1) = Some r /\ r.(r_id) = id /\ r.(seq) = sq /\ 1 <= sq.

Record live (j : Journal) (s : W) (A : list Record_) (at_ : Z) (recs : list Record_) (du di : list byte) : Prop := {
  lv_honest : io_honest s;
  lv_opened : opened j s;
  lv_view : io_view s j.(j_file) = Some (du, di);
  lv_full : file_full A at_ recs (pending_bytes j) du di;
  lv_pending : pending_ok j (chain_at (base at_) recs);
  lv_genesis : j.(j_genesis) = (base at_).(chain_head);
  lv_chain : j.(j_chain) = chain_at (base at_) recs;
  lv_written : j.(j_written) = Z.of_nat (length recs);
  lv_acked : 0 <= j.(j_acked) <= Z.of_nat (length A);
  lv_good : j.(j_good_bytes) = (length (header_of at_) + length (journal_bytes (base at_) recs))%nat;
  lv_dedup : dedup_ok j.(j_dedup) recs;
  lv_mark : mark_inv s A;
}.

Lemma live_disk j s A at_ recs du di : live j s A at_ recs du di -> disk_inv s A.
Proof.
  intros L. split; [apply L| |apply L]. eapply file_inv_at; [apply L|apply L|eapply full_ok, L].
Qed.

Lemma history_seq c recs i r :
  history ix sg c recs -> recs !! i = Some r -> r.(seq) = c.(chain_length) + Z.of_nat i + 1 /\ record_ok r.
Proof.
  revert c i; induction recs as [|x recs IH]; intros c [|i]; cbn [history lookup list_lookup]; [done|done|..].
  - intros [Hx _] [= <-]. rewrite (st_seq _ _ _ _ Hx). split; [lia|apply Hx].
  - intros [_ Hh] Hi. apply (IH _ _ Hh) in Hi as [-> Hr]. cbn [chain_append chain_length]. split; [lia|done].
Qed.

Lemma history_length at_ recs : history ix sg (base at_) recs -> u64_ok (Z.of_nat (length recs)).
Proof.
  intros Hh. destruct recs as [|x recs] using rev_ind; [by_evaluation|]. clear IHrecs.
  assert (Hi : (recs ++ [x]) !! length recs = Some x) by (by rewrite lookup_app_r, Nat.sub_diag).
  apply (history_seq _ _ _ _ Hh) in Hi as [Hs Hr]. pose proof (ok_seq _ Hr) as Hq. rewrite Hs in Hq.
  rewrite length_app. cbn [length base chain_resume chain_length] in *. unfold u64_ok in *. lia.
Qed.

Lemma remember_seen w id sq i q :
  (remember w id sq).(seen) !! i = Some q -> (i = id /\ q = sq) \/ w.(seen) !! i = Some q.
Proof.
  unfold remember. assert (Hins : forall m : gmap Z Z, <[id:=sq]> m !! i = Some q -> (i = id /\ q = sq) \/ m !! i = Some q).
  { intros m. destruct (decide (i = id)) as [->|]; [rewrite lookup_insert_eq; intros [= <-]; by left|].
    rewrite lookup_insert_ne by done. by right. }
  destruct (seen w !! id); [apply Hins|]. destruct (capacity w <? _); [|apply Hins].
  destruct (order w ++ [id]); [apply Hins|]. cbn [seen]. intros Hd. apply lookup_delete_Some in Hd as [_ Hd]. by apply Hins.
Qed.

Lemma remember_ok w recs r :
  dedup_ok w recs -> recs !! Z.to_nat (r.(seq) - 1) = Some r -> 1 <= r.(seq) -> dedup_ok (remember w r.(r_id) r.(seq)) recs.
Proof. intros Hw Hr H1 i q Hq. apply remember_seen in Hq as [[-> ->]|Hq]; [by exists r|by apply Hw]. Qed.

Lemma dedup_ok_app w recs x : dedup_ok w recs -> dedup_ok w (recs ++ [x]).
Proof.
  intros Hw i q Hq. apply Hw in Hq as (r & Hr & Hx). exists r. split; [|done].
  rewrite lookup_app_l; [done|by eapply lookup_lt_Some].
Qed.

Lemma remember_all w c recs at_ l :
  history ix sg (base at_) recs -> l = kept (entries c recs) ->
  dedup_ok w recs -> dedup_ok (fold_left (fun w e => remember w e.1.(r_id) e.1.(seq)) l w) recs.
Proof.
  intros Hh ->. assert (Hall : Forall (fun e : Record_ * Hash => recs !! Z.to_nat (e.1.(seq) - 1) = Some e.1 /\ 1 <= e.1.(seq))
    (kept (entries c recs))).
  { apply Forall_forall. intros e He.
    assert (He' : e.1 ∈ map fst (kept (entries c recs))) by (apply list_elem_of_In, in_map; by apply list_elem_of_In).
    rewrite kept_entries in He'. apply list_elem_of_lookup in He' as [i Hi]. destruct (history_seq _ _ _ _ Hh Hi) as [Hs _].
    cbn [base chain_resume chain_length] in Hs. rewrite Hs. split; [|lia].
    replace (Z.to_nat (0 + Z.of_nat i + 1 - 1)) with i by lia. done. }
  revert w Hall. generalize (kept (entries c recs)). intros l. induction l as [|e l IH]; intros w; [done|].
  rewrite Forall_cons. intros [[He1 He2] Hl] Hw. cbn [fold_left]. apply IH; [done|]. by apply remember_ok.
Qed.

Lemma read_watermark_ok j s A m s' :
  mark_inv s A -> opened j s -> read_watermark j s = (m, s') -> s' = s /\ m <= Z.of_nat (length A).
Proof.
  intros Hm Ho. unfold read_watermark. destruct (io_read_all (j_watermark j) s) as [[bytes|e] s1] eqn:E;
    apply io_read_law in E as [-> Hr]; intros [= <- <-]; (split; [done|]); [|lia].
  destruct Hr as (du & di & Hv & ->). unfold mark_inv in Hm. rewrite (op_mark _ _ Ho), Hv in Hm.
  destruct Hm as (du' & di' & [= <- <-] & a & k & Ha & Hl & ->). rewrite parse_watermark_cut by done.
  destruct (12 <=? k)%nat; lia.
Qed.

(** A journal nothing was appended through yet. *)
Record fresh (j : Journal) : Prop := {
  fr_acked : j.(j_acked) = 0;
  fr_seen : j.(j_dedup).(seen) = ∅;
}.

Lemma fresh_dedup j recs : fresh j -> dedup_ok j.(j_dedup) recs.
Proof. intros [_ Hs] i q. rewrite Hs, lookup_empty. done. Qed.

(** What the end of [recover] makes of a whole walk over the file. *)
Lemma adopt_live j s A at_ recs du di n m rep j' :
  io_honest s -> opened j s -> fresh j -> mark_inv s A ->
  io_view s j.(j_file) = Some (du, di) -> file_full A at_ recs [] du di ->
  j.(j_genesis) = (base at_).(chain_head) -> m <= Z.of_nat (length A) ->
  forall t,
  adopt j (MkWalked (kept (entries (base at_) recs)) (chain_at (base at_) recs)
    (length (header_of at_) + length (journal_bytes (base at_) recs)) (stop_after t)) n m = (rep, j') ->
  live j' s A at_ recs du di /\ rep.(rv_violation) = None /\ rep.(rv_max_seq) = Z.of_nat (length recs) /\
  rep.(rv_records) = Z.of_nat (length recs) /\ rep.(rv_stopped) = stop_after t.
Proof.
  intros Hh Ho Hfr Hm Hv Hf Hg Hmark t. unfold adopt. cbn [w_chain w_records w_good_bytes w_stopped].
  rewrite chain_at_length. cbn [base chain_resume chain_length]. rewrite Z.add_0_l, (fr_acked _ Hfr).
  pose proof (prefix_length _ _ (ff_acked _ _ _ _ _ _ Hf)).
  destruct (Z.ltb_spec (Z.of_nat (length recs)) (Z.max 0 m)); [lia|]. intros [= <- <-].
  cbn [rv_violation rv_max_seq rv_records rv_stopped]. split; [|].
  - destruct Ho. split; cbn; try done.
    + lia.
    + apply (remember_all _ (base at_) recs at_); [apply Hf|done|by apply fresh_dedup].
  - split; [done|]. split; [done|]. split; [|done]. f_equal.
    rewrite <- (kept_entries (base at_) recs) at 2. by rewrite length_map.
Qed.

(** The two steps after the file was cut back to its records. *)
Lemma finish_live j s A at_ recs du di t n r j' s' :
  disk_inv s A -> opened j s -> fresh j -> io_view s j.(j_file) = Some (du, di) ->
  file_full A at_ recs [] du di -> j.(j_genesis) = (base at_).(chain_head) ->
  (let '(mark, s) := read_watermark j s in
   let '(report, j) := adopt j (MkWalked (kept (entries (base at_) recs)) (chain_at (base at_) recs)
     (length (header_of at_) + length (journal_bytes (base at_) recs)) (stop_after t)) n mark in
   (@Ok JournalError _ report, j, s)) = (r, j', s') ->
  disk_inv s' A /\ exists rep, r = Ok rep /\ live j' s' A at_ recs du di /\ rep.(rv_violation) = None /\
    rep.(rv_max_seq) = Z.of_nat (length recs) /\ rep.(rv_records) = Z.of_nat (length recs) /\ rep.(rv_stopped) = stop_after t.
Proof.
  intros Hd Ho Hfr Hv Hf Hg. destruct (read_watermark j s) as [m s1] eqn:Em.
  apply (read_watermark_ok _ _ A) in Em as [-> Hm]; [|apply Hd|done].
  destruct (adopt j _ n m) as [rep j2] eqn:Ea. intros [= <- <- <-]. split; [done|]. exists rep. split; [done|].
  eapply adopt_live; [apply Hd|done|done|apply Hd|done|done|done|done|exact Ea].
Qed.

(** Cutting a full file back to its records. *)
Lemma truncate_full A at_ recs t du di :
  file_full A at_ recs t du di ->
  let good := (length (header_of at_) + length (journal_bytes (base at_) recs))%nat in
  file_full A at_ recs [] (take good du) (take (good - length du) di).
Proof.
  intros []. cbn zeta. split; [done| |done|by left|done|].
  - rewrite <- take_app, ff_bytes0, app_nil_r. by rewrite app_assoc, <- length_app, take_app_length.
  - destruct ff_durable0 as [->|Hdu]; [by left|right]. rewrite length_take. destruct ff_acked0 as [tail ->].
    rewrite journal_bytes_app, length_app in *. lia.
Qed.

Definition recovered_live (j' : Journal) (s' : W) (A : list Record_) (r : result JournalError Recovered) : Prop :=
  match r with
  | Ok rep => exists at_ recs du di t, live j' s' A at_ recs du di /\ rep.(rv_violation) = None /\
      rep.(rv_max_seq) = Z.of_nat (length recs) /\ rep.(rv_records) = Z.of_nat (length recs) /\ rep.(rv_stopped) = stop_after t
  | Err e => (exists io, e = JIo io) \/ exists a b, e = CorruptMidFile a (TornTail Truncated) b
  end.

Lemma recover_ok j s A r j' s' :
  disk_inv s A -> opened j s -> fresh j -> recover j s = (r, j', s') ->
  disk_inv s' A /\ recovered_live j' s' A r.
Proof.
  intros Hd Ho Hfr. unfold recover. destruct (ensure_header j s) as [[n|e] s1] eqn:Ee;
    apply (ensure_header_ok _ _ _ _ A) in Ee as (Hon & Hd1 & Hr); try done;
    [|intros [= <- <- <-]; split; [done|by left]].
  destruct Hr as (at_ & recs & t & du & di & Hv & Hf & ->). pose proof (opened_only _ _ _ _ Hon Ho) as Ho1.
  destruct (io_read_all (j_file j) s1) as [[bytes|e] s2] eqn:Er; apply io_read_law in Er as [-> Hr]; [|congruence].
  destruct Hr as (du' & di' & Hv' & ->). rewrite Hv in Hv'. injection Hv' as <- <-.
  pose proof (ff_bytes _ _ _ _ _ _ Hf) as Hb. pose proof (ff_at _ _ _ _ _ _ Hf) as Hat.
  rewrite Hb, header_at by done. rewrite take_app_length. rewrite <- Hb. rewrite (op_start _ _ Ho).
  change (genesis_of start (header_of at_)) with (base at_).(chain_head). rewrite (walk_full _ _ _ _ _ _ Hf). cbn zeta.
  cbn [w_good_bytes w_stopped]. set (j1 := with_genesis j (base at_).(chain_head)).
  assert (Hj1 : forall s, opened j s -> opened j1 s) by (intros ? []; by split).
  assert (Hfr1 : fresh j1) by (destruct Hfr; by split).
  set (good := (length (header_of at_) + length (journal_bytes (base at_) recs))%nat).
  assert (Hlen : (length (du ++ di) - good)%nat = length t) by (rewrite Hb; unfold good; rewrite !length_app; lia).
  change (j_file j1) with (j_file j). destruct (Nat.ltb_spec 0 (length (du ++ di) - good)) as [Hpos|Hzero].
  - destruct (next_parsable_frame (du ++ di) good) as [b|].
    { intros [= <- <- <-]. split; [done|]. right. rewrite Hlen in Hpos. destruct t; [cbn in Hpos; lia|]. by eexists _, _. }
    destruct (io_truncate (j_file j) good s1) as [[u|e] s3] eqn:Et; apply truncate_only in Et as [Hon3 Ht].
    + destruct Ht as (du0 & di0 & Hv0 & Hv3). rewrite Hv in Hv0. injection Hv0 as <- <-.
      pose proof (truncate_full _ _ _ _ _ _ Hf) as Hf3. intros E.
      apply (finish_live j1 s3 A at_ recs (take good du) (take (good - length du) di) t) in E as [? (rep & -> & ?)]; try done.
      * split; [done|]. by eexists _, _, _, _, _.
      * eapply disk_inv_write; [exact Hd1|done..|by eapply full_ok].
      * apply Hj1. by eapply opened_only.
    + intros [= <- <- <-]. split; [by eapply disk_inv_same|]. left. by eexists.
  - intros E. assert (t = []) as -> by (rewrite Hlen in Hzero; destruct t; [done|cbn in Hzero; lia]).
    apply (finish_live j1 s1 A at_ recs du di []) in E as [? (rep & -> & ?)]; try done; [|by apply Hj1].
    split; [done|]. by eexists _, _, _, _, _.
Qed.

(** ** Opening *)

Lemma create_keeps n s f s' n' g v :
  io_create n s = (Ok f, s') -> io_honest s -> n' <> n -> io_named s n' = Some g -> io_view s g = Some v ->
  io_named s' n' = Some g /\ io_view s' g = Some v.
Proof.
  intros H Hh Hn Hg Hv. apply io_create_law in H as (_ & _ & H2 & H3 & H4). rewrite H2 by done. split; [done|].
  rewrite H3; [done|]. intros ->. destruct (io_named s n) as [f0|] eqn:Ef.
  - destruct H4 as [-> _]. destruct (io_named_law s n f0 Hh Ef) as [_ Hu]. by apply Hn, Hu.
  - destruct H4 as [H4 _]. congruence.
Qed.

Lemma create_named n s f s' : io_create n s = (Ok f, s') ->
  io_named s' n = Some f /\ (io_honest s -> io_honest s') /\ (forall m, m <> n -> io_named s' m = io_named s m) /\
  io_view s' f = match io_named s n with Some f0 => io_view s f0 | None => Some ([], []) end.
Proof.
  intros H. apply io_create_law in H as (H0 & H1 & H2 & _ & H4). split; [done|]. split; [done|]. split; [done|].
  destruct (io_named s n) as [f0|]; [by destruct H4 as [-> ->]|by destruct H4].
Qed.

Lemma create_file s f s' A : io_create name s = (Ok f, s') -> disk_inv s A -> disk_inv s' A.
Proof.
  intros H [Hh Hf Hm]. pose proof (create_named _ _ _ _ H) as (Hn & Hh' & Ho & Hv). split; [auto|..].
  - unfold file_inv in *. rewrite Hn, Hv. destruct (io_named s name) as [f0|] eqn:Ef.
    + destruct Hf as (du & di & -> & Hok). by exists du, di.
    + subst A. exists [], []. split; [done|]. left. apply file_empty.
  - unfold mark_inv in *. rewrite Ho by (intros E; by apply name_ne_ack).
    destruct (io_named s ack_name) as [g|] eqn:Eg; [|done]. destruct Hm as (du & di & Hvg & Hok).
    destruct (create_keeps _ _ _ _ _ _ _ H Hh (fun E => name_ne_ack (eq_sym E)) Eg Hvg) as [_ ->]. by exists du, di.
Qed.

Lemma create_mark s f s' A : io_create ack_name s = (Ok f, s') -> disk_inv s A -> disk_inv s' A.
Proof.
  intros H [Hh Hf Hm]. pose proof (create_named _ _ _ _ H) as (Hn & Hh' & Ho & Hv). split; [auto|..].
  - unfold file_inv in *. rewrite Ho by apply name_ne_ack.
    destruct (io_named s name) as [g|] eqn:Eg; [|done]. destruct Hf as (du & di & Hvg & Hok).
    destruct (create_keeps _ _ _ _ _ _ _ H Hh name_ne_ack Eg Hvg) as [_ ->]. by exists du, di.
  - unfold mark_inv in *. rewrite Hn, Hv. destruct (io_named s ack_name) as [f0|] eqn:Ef.
    + destruct Hm as (du & di & -> & Hok). by exists du, di.
    + exists [], []. split; [done|]. exists 0, 0%nat. split; [by_evaluation|]. split; [lia|done].
Qed.

Lemma create_err n s e s' : io_create n s = (Err e, s') -> s' = s.
Proof. intros H. by apply io_create_law in H as (_ & ->). Qed.

Definition opened_live (s' : W) (A : list Record_) (r : result JournalError (Journal * Recovered)) : Prop :=
  match r with
  | Ok (j, rep) => recovered_live j s' A (Ok rep)
  | Err e => (exists io, e = JIo io) \/ exists a b, e = CorruptMidFile a (TornTail Truncated) b
  end.

Lemma open_ok now every s A r s' :
  u64_ok now -> disk_inv s A -> open ix sg name every start now s = (r, s') ->
  disk_inv s' A /\ opened_live s' A r.
Proof.
  intros Hnow Hd. unfold open. destruct (io_create name s) as [[f|e] s1] eqn:E1.
  2:{ apply create_err in E1 as ->. intros [= <- <-]. split; [done|]. left. by eexists. }
  pose proof (create_file _ _ _ _ E1 Hd) as Hd1. fold ack_name.
  destruct (io_create ack_name s1) as [[g|e] s2] eqn:E2.
  2:{ apply create_err in E2 as ->. intros [= <- <-]. split; [done|]. left. by eexists. }
  pose proof (create_mark _ _ _ _ E2 Hd1) as Hd2.
  set (j := MkJournal f ix sg now start Hash_ZERO chain_genesis 0 0 g 0 0 (Z.max every 1) None (dedup_new DEDUP_CAPACITY) 0 false).
  assert (Ho : opened j s2).
  { pose proof (create_named _ _ _ _ E1) as (Hn1 & _ & _ & _). pose proof (create_named _ _ _ _ E2) as (Hn2 & _ & Ho2 & _).
    split; try done. rewrite Ho2 by apply name_ne_ack. exact Hn1. }
  destruct (recover j s2) as [[[rep|e] j'] s3] eqn:Er;
    apply (recover_ok _ _ A _ _ _ Hd2 Ho) in Er as [Hd3 Hr]; try done; intros [= <- <-]; (split; [exact Hd3|exact Hr]).
Qed.

(** ** Appending *)

Lemma pending_torn j c : pending_ok j c -> torn ix sg c (pending_bytes j).
Proof.
  unfold pending_ok, pending_bytes. destruct (j_pending j) as [p|]; [|by left].
  intros (r & Hr & Hb & _ & _ & _ & Hl). right. exists r, (p_done p). rewrite Hb in *. done.
Qed.

(** A journal that differs from a live one in what it holds of the pending frame. *)
Lemma live_pending j s s' A at_ recs du di p dg di' :
  live j s A at_ recs du di -> only j.(j_file) s s' ->
  io_view s' j.(j_file) = Some (du, di') ->
  pending_ok (with_pending j p dg) (chain_at (base at_) recs) ->
  du ++ di' = header_of at_ ++ journal_bytes (base at_) recs ++ pending_bytes (with_pending j p dg) ->
  live (with_pending j p dg) s' A at_ recs du di'.
Proof.
  intros L Hon Hv Hp Hb. destruct L. destruct lv_opened0, lv_full0. split; cbn [with_pending j_file j_acked j_chain
    j_written j_genesis j_good_bytes j_dedup]; try done.
  - by apply Hon.
  - eapply opened_only; [exact Hon|]. by split.
  - split; try done. by apply pending_torn.
  - by eapply mark_inv_only.
Qed.

Lemma live_content j s A at_ recs du di :
  live j s A at_ recs du di -> du ++ di = header_of at_ ++ journal_bytes (base at_) recs ++ pending_bytes j.
Proof. intros L. apply L. Qed.

(** The record is whole: it joins the history. *)
Lemma live_commit j s s' A at_ recs du di di' p r :
  live j s A at_ recs du di -> only j.(j_file) s s' -> io_view s' j.(j_file) = Some (du, di') ->
  stamped ix sg (chain_at (base at_) recs) r -> p.(p_bytes) = frame_bytes (entry (chain_at (base at_) recs) r).1 ->
  p.(p_seq) = r.(seq) -> p.(p_link) = (entry (chain_at (base at_) recs) r).1.(f_link) -> p.(p_id) = r.(r_id) ->
  du ++ di' = header_of at_ ++ journal_bytes (base at_) recs ++ p.(p_bytes) ->
  live (commit j p) s' A at_ (recs ++ [r]) du di'.
Proof.
  intros L Hon Hv Hr Hpb Hps Hpl Hpi Hb.
  assert (Hseq : r.(seq) = Z.of_nat (length recs) + 1).
  { rewrite (st_seq _ _ _ _ Hr), chain_at_length. cbn [base chain_resume chain_length]. lia. }
  destruct L. destruct lv_opened0, lv_full0. split; cbn [commit j_file j_acked j_chain j_written j_genesis
    j_good_bytes j_dedup]; try done.
  - by apply Hon.
  - eapply opened_only; [exact Hon|]. by split.
  - split; try done.
    + rewrite Hb, journal_bytes_snoc, Hpb. unfold pending_bytes. cbn [commit j_pending]. by rewrite app_nil_r.
    + apply history_app. split; [done|]. cbn [history]. done.
    + by left.
    + by apply prefix_app_r.
  - rewrite chain_at_snoc, Hpl, Hps. unfold chain_append, chain_resume. cbn [entry fst f_link].
    by rewrite <- (st_seq _ _ _ _ Hr).
  - rewrite Hps, Hseq, length_app. cbn [length]. lia.
  - rewrite lv_good0, journal_bytes_snoc, length_app, Hpb. lia.
  - rewrite Hpi, Hps. apply remember_ok; [by apply dedup_ok_app| |lia].
    rewrite Hseq. replace (Z.to_nat (Z.of_nat (length recs) + 1 - 1)) with (length recs) by lia.
    by rewrite lookup_app_r, Nat.sub_diag.
  - by eapply mark_inv_only.
Qed.

(** What [append] asks of its argument: with nothing outstanding, the stamped
    record is in range and its body within the limit the reader enforces. *)
Definition appendable (j : Journal) (record : Record_) : Prop :=
  j.(j_pending) = None ->
  let r := stamp ix sg (j.(j_written) + 1) j.(j_chain).(chain_head) record in
  record_ok r /\ body_fits (encode_record r).

(** The outcome of an append as the records of the file tell it. *)
Definition append_outcome (j : Journal) (recs : list Record_) (record : Record_) (c : ChainState)
    (r : result JournalError Appended) (j' : Journal) (recs' : list Record_) : Prop :=
  match r with
  | Ok (Written sq link) => exists x, recs' = recs ++ [x] /\ sq = Z.of_nat (length recs) + 1 /\
      link = (entry c x).1.(f_link) /\ x.(r_id) = record.(r_id) /\
      (j.(j_pending) = None -> x = stamp ix sg sq c.(chain_head) record)
  | Ok (Duplicate sq) => recs' = recs /\ j' = j /\
      exists x, recs !! Z.to_nat (sq - 1) = Some x /\ x.(r_id) = record.(r_id) /\ x.(seq) = sq
  | Ok (Busy sq) => recs' = recs /\ j' = j /\ sq = Z.of_nat (length recs) + 1 /\
      exists p, j.(j_pending) = Some p /\ p.(p_id) <> record.(r_id)
  | Ok (Stalled n) => recs' = recs /\ exists p, j'.(j_pending) = Some p /\ p.(p_id) = record.(r_id) /\ p.(p_done) = n
  | Err e => recs' = recs /\ exists io, e = JIo io
  end.

Lemma stamped_seq at_ recs r : stamped ix sg (chain_at (base at_) recs) r -> r.(seq) = Z.of_nat (length recs) + 1.
Proof. intros Hr. rewrite (st_seq _ _ _ _ Hr), chain_at_length. cbn [base chain_resume chain_length]. lia. Qed.

Lemma push_pending_ok j s A at_ recs du di p x r j' s' :
  live j s A at_ recs du di -> j.(j_pending) = Some p ->
  let c := chain_at (base at_) recs in
  stamped ix sg c x -> p.(p_bytes) = frame_bytes (entry c x).1 -> p.(p_seq) = x.(seq) ->
  p.(p_link) = (entry c x).1.(f_link) -> p.(p_id) = x.(r_id) -> (p.(p_done) <= length p.(p_bytes))%nat ->
  push_pending j s = (r, j', s') ->
  exists recs' di', live j' s' A at_ recs' du di' /\
  match r with
  | Ok (Written sq link) => recs' = recs ++ [x] /\ sq = x.(seq) /\ link = p.(p_link)
  | Ok (Stalled n) => recs' = recs /\ exists q, j'.(j_pending) = Some q /\ q.(p_id) = p.(p_id) /\ q.(p_done) = n
  | Ok _ => False
  | Err e => recs' = recs /\ exists io, e = JIo io
  end.
Proof.
  intros L Hp c Hx Hb Hq Hl Hi Hd. unfold push_pending. rewrite Hp.
  destruct (push_loop _ _ _ _ _ s) as [[[r1 k] dg] s1] eqn:E.
  apply push_loop_ok with (du := du) (di := di) in E as (Hon & Hk & (di' & Hv' & Hpre) & Hr1); [|done|apply L].
  pose proof (live_content _ _ _ _ _ _ _ L) as Hc. unfold pending_bytes in Hc. rewrite Hp, app_assoc in Hc.
  apply Hpre in Hc. rewrite <- app_assoc in Hc. set (q := MkPending (p_bytes p) k (p_seq p) (p_link p) (p_id p)) in *.
  assert (Hkeep : (k < length (p_bytes p))%nat -> live (with_pending j (Some q) dg) s1 A at_ recs du di').
  { intros Hlt. eapply live_pending; [exact L|done|done| |exact Hc]. by exists x. }
  destruct r1 as [u|e].
  - cbn [q p_done p_bytes]. destruct (Nat.ltb_spec k (length (p_bytes p))) as [Hlt|Hge]; intros [= <- <- <-].
    + exists recs, di'. split; [by apply Hkeep|]. split; [done|]. by exists q.
    + exists (recs ++ [x]), di'. split; [|by rewrite <- Hq].
      rewrite take_ge in Hc by lia. by apply (live_commit j s s1 A at_ recs du di di' q x L).
  - destruct Hr1 as [Hlt Hio]. intros [= <- <- <-]. exists recs, di'. split; [by apply Hkeep|done].
Qed.

Lemma append_ok record j s A at_ recs du di r j' s' :
  live j s A at_ recs du di -> appendable j record -> append record j s = (r, j', s') ->
  exists recs' di', live j' s' A at_ recs' du di' /\
    append_outcome j recs record (chain_at (base at_) recs) r j' recs'.
Proof.
  intros L Ha. unfold append. pose proof (lv_pending _ _ _ _ _ _ _ L) as Hpd. unfold pending_ok in Hpd.
  unfold append_outcome, appendable in *. destruct (j_pending j) as [p|] eqn:Hp.
  - destruct Hpd as (x & Hx & Hb & Hq & Hl & Hi & Hd). destruct (Z.eqb_spec (p_id p) (r_id record)) as [Hid|Hid]; cbn [negb].
    + intros E. eapply push_pending_ok in E as (recs' & di' & L' & Hr); [|done..|lia].
      exists recs', di'. split; [done|]. destruct r as [[sq link|sq|sq|n]|e]; try done.
      * destruct Hr as (-> & -> & ->). exists x. split; [done|]. split; [by eapply stamped_seq|]. split; [done|].
        split; [congruence|done].
      * destruct Hr as (-> & q & Hq' & Hqi & Hqd). split; [done|]. exists q. split; [done|]. split; [congruence|done].
    + intros [= <- <- <-]. exists recs, di. split; [done|]. split; [done|]. split; [done|].
      split; [rewrite Hq; by eapply stamped_seq|]. by exists p.
  - specialize (Ha eq_refl). destruct (dedup_position (j_dedup j) (r_id record)) as [sq|] eqn:Ed.
    + intros [= <- <- <-]. exists recs, di. split; [done|]. split; [done|]. split; [done|].
      apply (lv_dedup _ _ _ _ _ _ _ L) in Ed as (x & Hx & Hi & Hs & _). by exists x.
    + rewrite (lv_written _ _ _ _ _ _ _ L), (lv_chain _ _ _ _ _ _ _ L), (op_shard _ _ (lv_opened _ _ _ _ _ _ _ L)),
        (op_segment _ _ (lv_opened _ _ _ _ _ _ _ L)) in *.
      set (c := chain_at (base at_) recs) in *. set (x := stamp ix sg (Z.of_nat (length recs) + 1) (chain_head c) record) in *.
      assert (Hc : chain_length c = Z.of_nat (length recs)) by (unfold c; rewrite chain_at_length; cbn [base chain_resume chain_length]; lia).
      assert (Hx : stamped ix sg c x).
      { unfold x in *. rewrite <- Hc in *. apply stamp_stamped; apply Ha. }
      intros E. set (q := MkPending _ 0 _ _ _) in E.
      assert (L0 : live (with_pending j (Some q) (j_degraded j)) s A at_ recs du di).
      { eapply live_pending; [exact L|apply only_refl|apply L| |].
        - exists x. split; [exact Hx|]. split; [done|]. split; [done|]. split; [done|]. split; [done|].
          cbn [q p_done p_bytes]. unfold encode_frame. rewrite length_encode_frame. lia.
        - pose proof (live_content _ _ _ _ _ _ _ L) as Hb. unfold pending_bytes in Hb. rewrite Hp in Hb. exact Hb. }
      eapply (push_pending_ok _ _ _ _ _ _ _ q x) in E as (recs' & di' & L' & Hr); [|done..|cbn; lia].
      exists recs', di'. split; [done|]. destruct r as [[sq link|sq|sq|n]|e]; try done.
      destruct Hr as (-> & -> & ->). exists x. split; [done|]. split; [done|]. split; [done|]. split; [done|]. done.
Qed.

(** ** Syncing *)

(** Writing the watermark leaves a first part of a promised number in its file. *)
Lemma write_watermark_ok j s A r s' :
  opened j s -> mark_inv s A -> u64_ok j.(j_acked) -> j.(j_acked) <= Z.of_nat (length A) -> io_honest s ->
  write_watermark j s = (r, s') -> only j.(j_watermark) s s' /\ mark_inv s' A.
Proof.
  intros Ho Hm Hu Ha Hh. unfold write_watermark. unfold mark_inv in *. pose proof (op_mark _ _ Ho) as Hn. rewrite Hn in Hm.
  destruct Hm as (du & di & Hv & Hok). set (w := watermark_bytes (j_acked j)).
  assert (Hres : forall s1 du1 di1, only j.(j_watermark) s s1 -> io_view s1 j.(j_watermark) = Some (du1, di1) -> mark_ok A (du1 ++ di1) ->
    only j.(j_watermark) s s1 /\ match io_named s1 ack_name with
      | Some f => exists du di, io_view s1 f = Some (du, di) /\ mark_ok A (du ++ di) | None => True end).
  { intros s1 du1 di1 Hon Hv1 Hok1. split; [done|]. rewrite (on_named _ _ _ Hon), Hn. by exists du1, di1. }
  destruct (io_truncate (j_watermark j) 0 s) as [[u|e] s1] eqn:E1; apply truncate_only in E1 as [Hon1 Hv1].
  2:{ intros [= <- <-]. rewrite Hv in Hv1. by eapply Hres. }
  destruct Hv1 as (du0 & di0 & _ & Hv1). cbn [take Nat.sub] in Hv1.
  destruct (append_loop MAX_ATTEMPTS (j_watermark j) w 0 s1) as [r2 s2] eqn:E2.
  apply append_loop_ok with (du := []) (di := []) in E2 as (Hon2 & m & Hmle & Hv2 & Hr2); [|lia|exact Hv1].
  assert (Hon12 : only (j_watermark j) s s2) by (by eapply only_trans).
  assert (Hm2 : mark_ok A (take m w)) by (by exists j.(j_acked), m). cbn [app] in Hv2.
  destruct r2 as [u2|e]; [|intros [= <- <-]; by eapply Hres].
  destruct (io_fsync (j_watermark j) s2) as [[u3|e] s3] eqn:E3; apply fsync_only in E3 as [Hon3 Hv3];
    try (by apply Hon12); intros [= <- <-].
  - destruct Hv3 as (du3 & di3 & Hv3 & Hv3'). rewrite Hv2 in Hv3. injection Hv3 as <- <-.
    eapply Hres; [by eapply only_trans|exact Hv3'|by rewrite app_nil_r].
  - rewrite Hv2 in Hv3. eapply Hres; [by eapply only_trans|exact Hv3|done].
Qed.

Lemma live_reack j s A at_ recs du di du' di' s' A' acked every dg :
  live j s A at_ recs du di -> only j.(j_file) s s' -> io_view s' j.(j_file) = Some (du', di') ->
  du' ++ di' = du ++ di -> A' `prefix_of` recs -> promised_durable at_ A' du' -> (length A <= length A')%nat ->
  0 <= acked <= Z.of_nat (length A') -> live (with_acked j acked every dg) s' A' at_ recs du' di'.
Proof.
  intros L Hon Hv Hb Hp Hd Hl Hak. destruct L. destruct lv_opened0, lv_full0. split; cbn [with_acked j_file j_acked j_chain
    j_written j_genesis j_good_bytes j_dedup]; try done.
  - by apply Hon.
  - eapply opened_only; [exact Hon|]. by split.
  - split; try done. by rewrite Hb.
  - eapply mark_inv_only in lv_mark0; [|done..]. unfold mark_inv in *. destruct (io_named s' ack_name) as [f|]; [|done].
    destruct lv_mark0 as (du0 & di0 & H1 & H2). exists du0, di0. split; [done|]. by eapply mark_grows.
Qed.

Lemma sync_ok j s A at_ recs du di r j' s' :
  live j s A at_ recs du di -> sync j s = (r, j', s') ->
  match r with
  | Ok n => n = Z.of_nat (length recs) /\ live j' s' recs at_ recs (du ++ di) []
  | Err e => live j' s' A at_ recs du di /\ exists io, e = JIo io
  end.
Proof.
  intros L. unfold sync. pose proof (lv_honest _ _ _ _ _ _ _ L) as Hh.
  destruct (io_fsync (j_file j) s) as [[u|e] s1] eqn:E; apply fsync_only in E as [Hon Hv]; try done.
  - destruct Hv as (du0 & di0 & Hv0 & Hv1). rewrite (lv_view _ _ _ _ _ _ _ L) in Hv0. injection Hv0 as <- <-.
    pose proof (prefix_length _ _ (ff_acked _ _ _ _ _ _ (lv_full _ _ _ _ _ _ _ L))) as Hal.
    assert (L1 : live (with_acked j (j_written j) 0 false) s1 recs at_ recs (du ++ di) []).
    { eapply live_reack; [exact L|done|done|by rewrite app_nil_r|done| |done|rewrite (lv_written _ _ _ _ _ _ _ L); lia].
      right. pose proof (live_content _ _ _ _ _ _ _ L) as Hc. rewrite Hc, !length_app. lia. }
    destruct (write_watermark _ s1) as [r2 s2] eqn:Ew. intros [= <- <- <-].
    split; [apply L|]. destruct L1 as [a1 a2 a3 a4 a5 a6 a7 a8 a9 a10 a11 a12].
    apply (write_watermark_ok _ _ recs) in Ew as [Hon2 Hm2]; [|done|done| |apply a9|done].
    + split; try done.
      * by apply Hon2.
      * by eapply opened_only.
      * rewrite (on_view _ _ _ Hon2); [done|]. apply (files_differ s1); [done|exact (op_file _ _ a2)|exact (op_mark _ _ a2)].
    + cbn [with_acked j_acked]. rewrite (lv_written _ _ _ _ _ _ _ L). eapply history_length, (lv_full _ _ _ _ _ _ _ L).
  - intros [= <- <- <-]. split; [|by eexists]. pose proof L as [].
    eapply live_reack; [exact L|done|by rewrite Hv|done|apply L|apply L|done|done].
Qed.

(** ** The transition system *)

(** [reach o s A]: a deployment of this journal can arrive at the disk [s] with
    the journal [o] running, or none, after having been promised the records [A].
    A process may stop at any step and the power may fail at any step; a failed
    [open] leaves no journal; only a successful [sync] promises, and what it
    promises is every record the file then reads back. *)
Inductive reach : option Journal -> W -> list Record_ -> Prop :=
  | reach_init s :
      io_honest s -> io_named s name = None -> io_named s ack_name = None -> reach None s []
  | reach_open s A now every j rep s' :
      reach None s A -> u64_ok now -> open ix sg name every start now s = (Ok (j, rep), s') -> reach (Some j) s' A
  | reach_open_failed s A now every e s' :
      reach None s A -> u64_ok now -> open ix sg name every start now s = (Err e, s') -> reach None s' A
  | reach_append j s A record r j' s' :
      reach (Some j) s A -> appendable j record -> append record j s = (r, j', s') -> reach (Some j') s' A
  | reach_sync j s A n j' s' w s'' :
      reach (Some j) s A -> sync j s = (Ok n, j', s') -> read_all j' s' = (Ok w, s'') ->
      reach (Some j') s' (map fst w.(w_records))
  | reach_sync_failed j s A e j' s' :
      reach (Some j) s A -> sync j s = (Err e, j', s') -> reach (Some j') s' A
  | reach_gap j s A : reach (Some j) s A -> reach (Some (note_gap j)) s A
  | reach_exit j s A : reach (Some j) s A -> reach None s A
  | reach_crash o s A s' : reach o s A -> io_crash s s' -> reach None s' A.

Lemma read_all_live j s A at_ recs du di :
  live j s A at_ recs du di ->
  read_all j s = (Ok (MkWalked (kept (entries (base at_) recs)) (chain_at (base at_) recs)
    (length (header_of at_) + length (journal_bytes (base at_) recs)) (stop_after (pending_bytes j))), s).
Proof.
  intros L. unfold read_all. destruct (io_read_all (j_file j) s) as [[bytes|e] s1] eqn:E;
    apply io_read_law in E as [-> Hr]; [|by rewrite (lv_view _ _ _ _ _ _ _ L) in Hr].
  destruct Hr as (du' & di' & Hv & ->). rewrite (lv_view _ _ _ _ _ _ _ L) in Hv. injection Hv as <- <-.
  pose proof (lv_full _ _ _ _ _ _ _ L) as Hf. rewrite (ff_bytes _ _ _ _ _ _ Hf) at 1.
  rewrite header_at by apply Hf. rewrite (lv_genesis _ _ _ _ _ _ _ L), (walk_full _ _ _ _ _ _ Hf). done.
Qed.

Definition reach_inv (o : option Journal) (s : W) (A : list Record_) : Prop :=
  match o with
  | None => disk_inv s A
  | Some j => exists at_ recs du di, live j s A at_ recs du di
  end.

Lemma reach_invariant o s A : reach o s A -> reach_inv o s A.
Proof.
  induction 1 as [s Hh Hn Ha|s A now every j rep s' _ IH Hnow E|s A now every e s' _ IH Hnow E
    |j s A record r j' s' _ IH Ha E|j s A n j' s' w s'' _ IH E Er|j s A e j' s' _ IH E|j s A _ IH|j s A _ IH
    |o s A s' _ IH Hc]; unfold reach_inv in *.
  - split; [done|by unfold file_inv; rewrite Hn|by unfold mark_inv; rewrite Ha].
  - apply (open_ok _ _ _ A) in E as [_ (at_ & recs & du & di & t & L & _)]; [|done..]. by exists at_, recs, du, di.
  - by apply (open_ok _ _ _ A) in E as [? _].
  - destruct IH as (at_ & recs & du & di & L). eapply append_ok in E as (recs' & di' & L' & _); [|done..].
    by exists at_, recs', du, di'.
  - destruct IH as (at_ & recs & du & di & L). eapply sync_ok in E as [_ L']; [|done].
    exists at_, recs, (du ++ di), []. rewrite (read_all_live _ _ _ _ _ _ _ L') in Er. injection Er as <- _.
    cbn [w_records]. by rewrite kept_entries.
  - destruct IH as (at_ & recs & du & di & L). eapply sync_ok in E as [L' _]; [|done]. by exists at_, recs, du, di.
  - destruct IH as (at_ & recs & du & di & L). exists at_, recs, du, di. destruct L. destruct lv_opened0.
    split; try done.
  - destruct IH as (at_ & recs & du & di & L). by eapply live_disk.
  - eapply crash_inv; [|done]. destruct o as [j|]; [|done]. destruct IH as (at_ & recs & du & di & L). by eapply live_disk.
Qed.

Lemma reach_live j s A : reach (Some j) s A -> exists at_ recs du di, live j s A at_ recs du di.
Proof. apply (reach_invariant (Some j)). Qed.

End Contract.
