(* ===== verification/JournalProps.v ===== *)
(** * What the journal promises

    The properties of the journal over any disk that meets [IoLaws], and their
    instances on the simulated disk. *)

From S2P Require Import Prelude Bytes Ids Record Codec Digest Wire WireRecord Frame SimIo Walk Journal Durability.

(** ** Refusals and reports, on any disk *)

Section AnyDisk.
Context `{DL : DigestLaws} {W : Type} {IO : Io W} {IOL : IoLaws W}.

Definition refuses (e : JournalError) : Prop := match e with JIo _ => False | _ => True end.

(** What [ensure_header] leaves: a refusal writes nothing, and a header is
    written only to a file that then holds it alone. *)
Lemma ensure_header_any j s r s' :
  u16_ok j.(j_shard) -> u64_ok j.(j_segment) -> u64_ok j.(j_created_at) ->
  ensure_header j s = (r, s') ->
  only j.(j_file) s s' /\
  match r with
  | Err e => refuses e -> s' = s
  | Ok n => s' = s \/ exists du di, io_view s' j.(j_file) = Some (du, di) /\
      du ++ di = encode_segment_header j.(j_shard) j.(j_segment) j.(j_created_at)
  end.
Proof.
  intros H1 H2 H3. unfold ensure_header. destruct (io_read_all (j_file j) s) as [[bytes|e] s1] eqn:Er;
    apply io_read_law in Er as [-> _]; [|intros [= <- <-]; split; [apply only_refl|done]].
  destruct (decode_segment_header bytes) as [h|e].
  { destruct (negb _ || _); intros [= <- <-]; (split; [apply only_refl|]); [done|by left]. }
  destruct (refuse_header e (length bytes)) as [err|]; [intros [= <- <-]; by split; [apply only_refl|]|].
  destruct (io_truncate (j_file j) 0 s) as [[u|e'] s2] eqn:Et; apply truncate_only in Et as [Hon Ht];
    [|intros [= <- <-]; by split; [|intros []]].
  destruct Ht as (du & di & _ & Hv). cbn [take Nat.sub] in Hv. destruct (append_loop _ _ _ 0 s2) as [r3 s3] eqn:El.
  apply append_loop_ok with (du := []) (di := []) in El as (Hon3 & m & Hm & Hv3 & Hr3); [|lia|exact Hv].
  destruct r3 as [u3|e3]; intros [= <- <-]; (split; [by eapply only_trans|]).
  - right. subst m. eexists _, _. split; [exact Hv3|]. cbn [app]. by rewrite take_ge.
  - destruct Hr3 as [_ [io ->]]. by intros [].
Qed.

(** The fields of a journal are in range. *)
Record journal_ok (j : Journal) : Prop := {
  jo_shard : u16_ok j.(j_shard);
  jo_segment : u64_ok j.(j_segment);
  jo_created : u64_ok j.(j_created_at);
}.

Lemma walk_header_only ix sg at_ g :
  let hdr := encode_segment_header ix sg at_ in
  w_good_bytes (walk hdr (MkHeader FORMAT_VERSION ix sg at_ (length hdr)) g) = length hdr.
Proof.
  cbn zeta. set (hdr := encode_segment_header ix sg at_).
  rewrite <- (app_nil_r hdr) at 1.
  pose proof (walk_history (MkHeader FORMAT_VERSION ix sg at_ (length hdr)) hdr [] [] g eq_refl I (or_introl eq_refl)) as E.
  change (hdr ++ journal_bytes (chain_resume g 0) [] ++ []) with (hdr ++ []) in E. rewrite E. cbn [w_good_bytes].
  change (length (journal_bytes (chain_resume g 0) [])) with 0%nat. lia.
Qed.

Lemma recover_refuses j s e j' s' :
  journal_ok j -> recover j s = (Err e, j', s') -> refuses e -> s' = s.
Proof.
  intros [H1 H2 H3] E He. unfold recover in E. destruct (ensure_header j s) as [[n|err] s1] eqn:Ee;
    apply ensure_header_any in Ee as [_ Hr]; try done; [|injection E as <- <- <-; by apply Hr].
  destruct (io_read_all (j_file j) s1) as [[bytes|e2] s2] eqn:Er; apply io_read_law in Er as [-> Hb];
    [|injection E as <- <- <-; done].
  destruct Hb as (du & di & Hv & ->). destruct Hr as [->|(du' & di' & Hv' & Hd)].
  - destruct (decode_segment_header _) as [h|]; [|by injection E as <- <- <-].
    destruct (0 <? _)%nat; [|destruct (read_watermark _ s), (adopt _ _ _ _); discriminate].
    destruct (next_parsable_frame _ _); [by injection E as <- <- <-|].
    destruct (io_truncate _ _ s) as [[u|e3] s3]; [|injection E as <- <- <-; done].
    destruct (read_watermark _ s3), (adopt _ _ _ _); discriminate.
  - rewrite Hv in Hv'. injection Hv' as <- <-. rewrite Hd in E. exfalso. revert E.
    rewrite <- (app_nil_r (encode_segment_header _ _ _)), header_reads, !app_nil_r by done.
    rewrite walk_header_only, Nat.sub_diag. cbn [Nat.ltb Nat.leb].
    destruct (read_watermark _ s1), (adopt _ _ _ _); discriminate.
Qed.

Lemma recover_report j s rep j' s' du di :
  journal_ok j -> j.(j_file) <> j.(j_watermark) -> io_view s j.(j_watermark) = Some (du, di) ->
  recover j s = (Ok rep, j', s') ->
  let promised := Z.max j.(j_acked) (parse_watermark (du ++ di)) in
  rep.(rv_violation) = (if rep.(rv_max_seq) <? promised then Some (MkViolation promised rep.(rv_max_seq)) else None) /\
  j'.(j_acked) = Z.min j.(j_acked) rep.(rv_max_seq) /\ j'.(j_written) = rep.(rv_max_seq) /\ j'.(j_pending) = None.
Proof.
  intros [H1 H2 H3] Hne Hv E. cbn zeta. unfold recover in E. destruct (ensure_header j s) as [[n|err] s1] eqn:Ee;
    apply ensure_header_any in Ee as [Hon _]; try done.
  destruct (io_read_all (j_file j) s1) as [[bytes|e2] s2] eqn:Er; apply io_read_law in Er as [-> Hb]; [|done].
  destruct (decode_segment_header _) as [h|]; [|done]. cbn zeta in E.
  assert (Hfin : forall s3 walked k, only j.(j_file) s s3 ->
    (let '(mark, s) := read_watermark (with_genesis j (genesis_of (j_start j) (take n bytes))) s3 in
     let '(report, j) := adopt (with_genesis j (genesis_of (j_start j) (take n bytes))) walked k mark in
     (@Ok JournalError _ report, j, s)) = (Ok rep, j', s') ->
    rep.(rv_violation) = (if rep.(rv_max_seq) <? Z.max j.(j_acked) (parse_watermark (du ++ di))
      then Some (MkViolation (Z.max j.(j_acked) (parse_watermark (du ++ di))) rep.(rv_max_seq)) else None) /\
    j'.(j_acked) = Z.min j.(j_acked) rep.(rv_max_seq) /\ j'.(j_written) = rep.(rv_max_seq) /\ j'.(j_pending) = None).
  { intros s3 walked k Hon3. unfold read_watermark. change (j_watermark (with_genesis j _)) with (j_watermark j).
    destruct (io_read_all (j_watermark j) s3) as [[wb|e4] s4] eqn:Ew; apply io_read_law in Ew as [-> Hw].
    - destruct Hw as (du3 & di3 & Hv3 & ->). rewrite (on_view _ _ _ Hon3), Hv in Hv3 by done. injection Hv3 as <- <-.
      unfold adopt. cbn [with_genesis j_acked]. intros [= <- <- <-]. done.
    - rewrite (on_view _ _ _ Hon3), Hv in Hw by done. done. }
  destruct (0 <? _)%nat; [|by eapply Hfin].
  destruct (next_parsable_frame _ _); [done|].
  destruct (io_truncate _ _ s1) as [[u|e3] s3] eqn:Et; [|done]. apply truncate_only in Et as [Hon3 _].
  eapply Hfin; [|exact E]. by eapply only_trans.
Qed.

End AnyDisk.

(** ** The window of ids *)

Record dedup_wf (w : DedupWindow) : Prop := {
  dw_nodup : NoDup w.(order);
  dw_dom : forall id, id ∈ w.(order) <-> is_Some (w.(seen) !! id);
  dw_cap : Z.of_nat (length w.(order)) <= w.(capacity);
}.

Lemma dedup_wf_len w : dedup_wf w -> dedup_len w = length w.(order).
Proof.
  intros [Hn Hd _]. unfold dedup_len. rewrite <- size_dom.
  assert (E : dom w.(seen) = list_to_set (C := gset Z) w.(order)).
  { apply set_eq. intros id. by rewrite elem_of_dom, elem_of_list_to_set, Hd. }
  rewrite E. by apply size_list_to_set.
Qed.

Lemma dedup_new_wf cap : dedup_wf (dedup_new cap).
Proof.
  split; cbn [dedup_new order seen capacity length]; [constructor| |lia].
  intros id. rewrite lookup_empty. split; [intros H; by apply not_elem_of_nil in H|by intros [? ?]].
Qed.

Lemma remember_wf w id sq :
  dedup_wf w -> 1 <= w.(capacity) ->
  dedup_wf (remember w id sq) /\ (remember w id sq).(capacity) = w.(capacity) /\
  (remember w id sq).(seen) !! id = Some sq.
Proof.
  intros [Hn Hd Hc] H1. unfold remember. destruct (seen w !! id) as [old|] eqn:Es.
  - split; [|split; [done|cbn; by rewrite lookup_insert_eq]]. split; cbn [order seen capacity]; [done| |done].
    intros i. rewrite Hd. destruct (decide (i = id)) as [->|Hi]; [by rewrite lookup_insert_eq, Es|by rewrite lookup_insert_ne].
  - assert (Hid : id ∉ w.(order)) by (rewrite Hd, Es; by intros [? ?]).
    assert (Hn' : NoDup (w.(order) ++ [id])).
    { apply NoDup_app. split; [done|]. split; [|apply NoDup_singleton].
      intros x Hx ->%list_elem_of_singleton. done. }
    assert (Hd' : forall i, i ∈ w.(order) ++ [id] <-> is_Some (<[id:=sq]> w.(seen) !! i)).
    { intros i. rewrite elem_of_app, list_elem_of_singleton, Hd. destruct (decide (i = id)) as [->|Hi].
      - rewrite lookup_insert_eq. naive_solver.
      - rewrite lookup_insert_ne by done. naive_solver. }
    destruct (Z.ltb_spec w.(capacity) (Z.of_nat (length (w.(order) ++ [id])))) as [Hlt|Hge].
    + destruct (w.(order) ++ [id]) as [|x rest] eqn:Eo; [by destruct (w.(order))|].
      assert (Hx : x <> id).
      { intros ->. destruct (w.(order)) as [|y l]; cbn in Eo.
        - injection Eo as <-. cbn in Hlt. lia.
        - injection Eo as -> _. apply Hid. by left. }
      apply NoDup_cons in Hn' as [Hxr Hn']. split; [|split; [done|]]; cbn [seen].
      * split; cbn [order seen capacity]; [done| |].
        -- intros i. destruct (decide (i = x)) as [->|Hi].
           ++ rewrite lookup_delete_eq. split; [done|by intros [? ?]].
           ++ rewrite lookup_delete_ne, <- Hd' by done. rewrite elem_of_cons. naive_solver.
        -- assert (Hl : length (w.(order) ++ [id]) = length (x :: rest)) by (by rewrite Eo).
           rewrite length_app in Hl. cbn [length] in Hl. lia.
      * rewrite lookup_delete_ne by done. apply lookup_insert_eq.
    + split; [|split; [done|cbn; by rewrite lookup_insert_eq]]. split; cbn [order seen capacity]; [done|done|lia].
Qed.

Definition remember_list (w : DedupWindow) (ops : list (Z * Z)) : DedupWindow :=
  fold_left (fun w op => remember w op.1 op.2) ops w.

Lemma remember_list_wf w ops :
  dedup_wf w -> 1 <= w.(capacity) ->
  dedup_wf (remember_list w ops) /\ (remember_list w ops).(capacity) = w.(capacity).
Proof.
  revert w; induction ops as [|[id sq] ops IH]; intros w Hw Hc; [done|]. cbn [remember_list fold_left fst snd].
  destruct (remember_wf w id sq Hw Hc) as (Hw' & Hc' & _). rewrite <- Hc'. apply IH; [done|lia].
Qed.

(** The dedup window is bounded. However many ids a source sends, the window
    holds at most its capacity of them, and at least one; the id just accepted is
    always in it, with the position it landed at. *)
Theorem dedup_is_bounded (cap : Z) (ops : list (Z * Z)) (id sq : Z) :
  let w := remember_list (dedup_new cap) (ops ++ [(id, sq)]) in
  (Z.of_nat (dedup_len w) <= Z.max cap 1) /\ dedup_position w id = Some sq.
Proof.
  cbn zeta. pose proof (dedup_new_wf cap) as H0. assert (Hc : 1 <= (dedup_new cap).(capacity)) by (cbn; lia).
  destruct (remember_list_wf _ (ops ++ [(id, sq)]) H0 Hc) as [Hw Hcap]. rewrite dedup_wf_len by done.
  split; [pose proof (dw_cap _ Hw); rewrite Hcap in *; done|].
  destruct (remember_list_wf _ ops H0 Hc) as [Hw' Hcap']. unfold remember_list in *. rewrite fold_left_app.
  cbn [fold_left fst snd]. apply remember_wf; [done|]. by rewrite Hcap'.
Qed.

(** ** The contract *)

Section Promises.
Context `{DL : DigestLaws} {W : Type} {IO : Io W} {IOL : IoLaws W}.

(** What a caller reads back. *)
Definition readable (j : Journal) (s : W) (recs : list Record_) : Prop :=
  exists w, read_all j s = (Ok w, s) /\ map fst w.(w_records) = recs /\
    j.(j_written) = Z.of_nat (length recs) /\ j.(j_chain) = w.(w_chain) /\
    (w.(w_stopped) = EndOfFile \/ w.(w_stopped) = TornTail Truncated).

Lemma stop_after_cases t : stop_after t = EndOfFile \/ stop_after t = TornTail Truncated.
Proof. destruct t; [by left|by right]. Qed.

Lemma live_readable ix sg name start j s A at_ recs du di :
  u16_ok ix -> u64_ok sg -> live ix sg name start j s A at_ recs du di -> readable j s recs.
Proof.
  intros H1 H2 L. eexists. split; [by eapply read_all_live|]. cbn [w_records w_chain w_stopped]. rewrite kept_entries.
  split; [done|]. split; [apply L|]. split; [apply L|]. apply stop_after_cases.
Qed.

(** C1 (the durability contract). In every state a deployment can arrive at, over
    any honest disk, through any appends, short writes, refusals, syncs, restarts
    and power cuts: a running journal reads its file back without an error, every
    record it was ever promised comes first and in order, and it never claims to
    have made more durable than that. *)
Theorem acked_records_survive (ix sg : Z) (name : str) (start : ChainStart) (j : Journal) (s : W) (A : list Record_) :
  u16_ok ix -> u64_ok sg -> reach ix sg name start (Some j) s A ->
  exists recs, readable j s recs /\ A `prefix_of` recs /\ 0 <= j.(j_acked) <= Z.of_nat (length A).
Proof.
  intros H1 H2 R. apply reach_live in R as (at_ & recs & du & di & L); [|done..]. exists recs.
  split; [by eapply (live_readable ix sg name start)|]. split; [apply L|apply L].
Qed.

(** C2 (reopening after a crash). Opening the files a crash or an exit left either
    gives a journal that reads back every promised record, reports no durability
    violation, is not suspicious and has counted what it recovered; or fails with
    an error of the disk, or because bytes past a torn tail still parse, and then
    everything promised can still be opened later. It never takes its own file
    for somebody else's, and never takes a torn header for a damaged one. *)
Theorem reopening_keeps_promises (ix sg : Z) (name : str) (start : ChainStart) (now every : Z) (s : W)
    (A : list Record_) (r : result JournalError (Journal * Recovered)) (s' : W) :
  u16_ok ix -> u64_ok sg -> u64_ok now -> reach ix sg name start None s A ->
  open ix sg name every start now s = (r, s') ->
  match r with
  | Ok (j, rep) => exists recs, readable j s' recs /\ A `prefix_of` recs /\
      rep.(rv_violation) = None /\ is_suspicious rep = false /\ rep.(rv_max_seq) = Z.of_nat (length recs)
  | Err e => reach ix sg name start None s' A /\
      ((exists io, e = JIo io) \/ exists a b, e = CorruptMidFile a (TornTail Truncated) b)
  end.
Proof.
  intros H1 H2 Hnow R E. pose proof (reach_invariant ix sg name start H1 H2 _ _ _ R) as Hd. cbn [reach_inv] in Hd.
  pose proof E as E'. apply (open_ok ix sg name start H1 H2 _ _ _ A) in E' as [_ Hr]; [|done..].
  destruct r as [[j rep]|e]; [|split; [by eapply reach_open_failed|exact Hr]].
  destruct Hr as (at_ & recs & du & di & t & L & Hv & Hm & _ & Hs). exists recs. split; [by eapply (live_readable ix sg name start)|].
  split; [apply L|]. split; [done|]. split; [|done]. unfold is_suspicious. rewrite Hv, Hs.
  by destruct (stop_after_cases t) as [-> | ->].
Qed.

(** What an append did is what it said. [Written]: exactly one record joined
    the file, the one given, stamped with the next sequence number and the head of
    the chain, at the position and with the link reported. [Duplicate]: nothing
    changed and the position given holds a record of that id. [Busy]: nothing
    changed and another record is outstanding. [Stalled] and errors: nothing new
    is readable. *)
Theorem append_tells_the_truth (ix sg : Z) (name : str) (start : ChainStart) (record : Record_) (j : Journal) (s : W)
    (A : list Record_) (r : result JournalError Appended) (j' : Journal) (s' : W) :
  u16_ok ix -> u64_ok sg -> reach ix sg name start (Some j) s A -> appendable ix sg j record ->
  append record j s = (r, j', s') ->
  exists recs recs', readable j s recs /\ readable j' s' recs' /\
    append_outcome ix sg j recs record j.(j_chain) r j' recs'.
Proof.
  intros H1 H2 R Ha E. apply reach_live in R as (at_ & recs & du & di & L); [|done..].
  pose proof (lv_chain _ _ _ _ _ _ _ _ _ _ _ L) as Hc.
  eapply (append_ok ix sg name start) in E as (recs' & di' & L' & Ho); [|done..].
  exists recs, recs'. split; [by eapply (live_readable ix sg name start)|]. split; [by eapply (live_readable ix sg name start)|]. by rewrite Hc.
Qed.

(** Sync. A sync that succeeds answers the number of records the journal
    reads back, and from then on they are promised; one that fails promises
    nothing: the watermark stays where it was, the same records are readable. *)
Theorem sync_promises_what_it_flushed (ix sg : Z) (name : str) (start : ChainStart) (j : Journal) (s : W)
    (A : list Record_) (r : result JournalError Z) (j' : Journal) (s' : W) :
  u16_ok ix -> u64_ok sg -> reach ix sg name start (Some j) s A -> sync j s = (r, j', s') ->
  exists recs, readable j s recs /\ readable j' s' recs /\
  match r with
  | Ok n => n = Z.of_nat (length recs) /\ j'.(j_acked) = n /\ reach ix sg name start (Some j') s' recs
  | Err e => j'.(j_acked) = j.(j_acked) /\ reach ix sg name start (Some j') s' A
  end.
Proof.
  intros H1 H2 R E. pose proof R as R0. apply reach_live in R as (at_ & recs & du & di & L); [|done..]. exists recs.
  split; [by eapply (live_readable ix sg name start)|]. pose proof E as Es. apply (sync_ok ix sg name start _ _ A at_ recs du di) in Es; [|done].
  destruct r as [n|e].
  - destruct Es as [-> L']. split; [by eapply (live_readable ix sg name start)|]. split; [done|].
    pose proof (read_all_live ix sg name start H1 H2 _ _ _ _ _ _ _ L') as Er. split.
    + unfold sync in E. destruct (io_fsync _ s) as [[u|e] s1]; [|done]. destruct (write_watermark _ s1) as [r2 s2].
      injection E as E <- <-. exact E.
    + eapply reach_sync in E; [|exact R0|exact Er]. cbn [w_records] in E. by rewrite kept_entries in E.
  - destruct Es as [L' _]. split; [by eapply (live_readable ix sg name start)|]. split; [|by eapply reach_sync_failed].
    unfold sync in E. destruct (io_fsync _ s) as [[u|e2] s1]; [by destruct (write_watermark _ s1)|].
    by injection E as <- <- <-.
Qed.

(** A refused file is untouched. Over any disk, honest or not, recovery that
    refuses a file, because it is not a journal, belongs to another shard or
    segment, has a damaged header with records behind it, or holds a whole frame
    past the place the walk stopped, has written nothing at all. *)
Theorem refused_file_is_untouched (j : Journal) (s : W) (e : JournalError) (j' : Journal) (s' : W) :
  journal_ok j -> recover j s = (Err e, j', s') -> refuses e -> s' = s.
Proof. apply recover_refuses. Qed.

(** Loss is reported. Over any disk, also one whose flushes lied: recovery
    reports a violation exactly when fewer records came back than this process or
    the watermark file promised, with both numbers, and never goes on promising
    more than it recovered. *)
Theorem loss_is_reported (j : Journal) (s : W) (rep : Recovered) (j' : Journal) (s' : W) (du di : list byte) :
  journal_ok j -> j.(j_file) <> j.(j_watermark) -> io_view s j.(j_watermark) = Some (du, di) ->
  recover j s = (Ok rep, j', s') ->
  let promised := Z.max j.(j_acked) (parse_watermark (du ++ di)) in
  (rep.(rv_violation) = Some (MkViolation promised rep.(rv_max_seq)) <-> rep.(rv_max_seq) < promised) /\
  (rep.(rv_violation) = None <-> promised <= rep.(rv_max_seq)) /\
  j'.(j_acked) = Z.min j.(j_acked) rep.(rv_max_seq) /\ j'.(j_written) = rep.(rv_max_seq).
Proof.
  intros Hj Hne Hv E. cbn zeta. eapply recover_report in E as (Hvi & Ha & Hw & _); [|done..]. rewrite Hvi.
  destruct (Z.ltb_spec (rv_max_seq rep) (Z.max (j_acked j) (parse_watermark (du ++ di)))); (split; [|split; [|done]]);
    (split; [|]); try done; try lia.
Qed.

End Promises.

(** ** Bodies over the reader's limit *)

(** Where an oversized frame follows a history, the walk stops. *)
Lemma walk_oversized `{DL : DigestLaws} ix sg at_ g recs x rest :
  let c := chain_resume g 0 in
  let body := encode_record x in
  u16_ok ix -> u64_ok sg -> u64_ok at_ -> history ix sg c recs ->
  ~ body_fits body -> u64_ok (Z.of_nat (length body)) ->
  exists w, walk_bytes (encode_segment_header ix sg at_ ++ journal_bytes c recs ++ frame_bytes (entry (chain_at c recs) x).1 ++ rest) (After g) = Ok w /\
  map fst w.(w_records) = recs /\ w.(w_stopped) = TornTail (TooLarge (Z.of_nat (length body))).
Proof.
  cbn zeta. intros H1 H2 H3 Hh Hf Hu. unfold walk_bytes. rewrite header_reads by done. cbn [genesis_of]. eexists.
  split; [reflexivity|]. unfold walk. cbn [h_len]. set (hdr := encode_segment_header ix sg at_). set (c := chain_resume g 0).
  set (fr := frame_bytes (entry (chain_at c recs) x).1). set (h := MkHeader _ _ _ _ _).
  set (bytes := hdr ++ journal_bytes c recs ++ fr ++ rest).
  assert (Hd : drop (length hdr) bytes = frames_bytes (entries c recs) ++ fr ++ rest) by apply drop_app_length.
  rewrite (walk_loop_run h c (entries c recs) _ _ _ _ (fr ++ rest)) by (by apply history_run || lia || done).
  rewrite (walk_loop_stop _ _ _ _ _ (TornTail (TooLarge (Z.of_nat (length (encode_record x)))))).
  - cbn [w_records w_stopped app]. by rewrite kept_entries.
  - unfold bytes. rewrite !length_app. pose proof (frame_bytes_nonempty (entry (chain_at c recs) x).1).
    fold (journal_bytes c recs). unfold fr. lia.
  - rewrite <- drop_drop, Hd, drop_app_length. unfold walk_step, fr, frame_bytes.
    rewrite frame_too_large; [done|by right|done|done].
Qed.

(** A disk that takes a whole frame finishes it in one write. *)
Lemma push_whole {W : Type} {IO : Io W} (j : Journal) (p : Pending) (s s' : W) :
  j.(j_pending) = Some p -> p.(p_done) = 0%nat ->
  io_append j.(j_file) p.(p_bytes) s = (Ok (length p.(p_bytes)), s') -> (1 <= length p.(p_bytes))%nat ->
  push_pending j s = (Ok (Written p.(p_seq) p.(p_link)),
    commit j (MkPending p.(p_bytes) (length p.(p_bytes)) p.(p_seq) p.(p_link) p.(p_id)), s').
Proof.
  intros Hp Hd Ha Hn.
  assert (Hl : push_loop (length (p_bytes p)) (j_file j) (p_bytes p) 0 (j_degraded j) s
    = (Ok tt, length (p_bytes p), j_degraded j, s')).
  { destruct (length (p_bytes p)) as [|n] eqn:En; [lia|]. cbn [push_loop]. rewrite En. cbn [Nat.ltb Nat.leb].
    rewrite drop_0, Ha. destruct n; cbn [push_loop]; rewrite En; cbn [Nat.add]; by rewrite Nat.ltb_irrefl. }
  unfold push_pending. rewrite Hp, Hd, Hl. cbn [p_done p_bytes]. by rewrite Nat.ltb_irrefl.
Qed.

(** Bodies over the limit. The journal takes a record whose encoded body is
    over [MAX_BODY_BYTES]: on a disk that accepts the write, [append] answers
    [Written]. The reader refuses such a frame, so the walk over that file ends
    just before it, with every later record behind the stop: what was written,
    and after a sync promised, does not come back. *)
Theorem oversized_append_is_written_not_read `{DL : DigestLaws} {W : Type} {IO : Io W}
    (record : Record_) (j : Journal) (s s' : W) (at_ : Z) (g : Hash) (recs : list Record_) (rest : list byte) :
  let c := chain_at (chain_resume g 0) recs in
  let x := stamp j.(j_shard) j.(j_segment) (Z.of_nat (length recs) + 1) c.(chain_head) record in
  let fr := frame_bytes (entry c x).1 in
  u16_ok j.(j_shard) -> u64_ok j.(j_segment) -> u64_ok at_ ->
  history j.(j_shard) j.(j_segment) (chain_resume g 0) recs ->
  j.(j_pending) = None -> dedup_position j.(j_dedup) record.(r_id) = None ->
  j.(j_chain) = c -> j.(j_written) = Z.of_nat (length recs) ->
  MAX_BODY_BYTES < Z.of_nat (length (encode_record x)) < 2 ^ 64 ->
  io_append j.(j_file) fr s = (Ok (length fr), s') ->
  (exists j', append record j s = (Ok (Written (Z.of_nat (length recs) + 1) (entry c x).1.(f_link)), j', s')) /\
  exists w, walk_bytes (encode_segment_header j.(j_shard) j.(j_segment) at_ ++ journal_bytes (chain_resume g 0) recs ++ fr ++ rest)
              (After g) = Ok w /\
    map fst w.(w_records) = recs /\ w.(w_stopped) = TornTail (TooLarge (Z.of_nat (length (encode_record x)))).
Proof.
  cbn zeta. intros H1 H2 H3 Hh Hp Hd Hc Hw Hl Ha. split.
  - set (c := chain_at (chain_resume g 0) recs) in *. unfold append. rewrite Hp, Hd, Hw, Hc. cbn zeta.
    set (x := stamp _ _ _ _ _) in *.
    set (p := MkPending (frame_bytes (entry c x).1) 0 (Z.of_nat (length recs) + 1) (entry c x).1.(f_link) record.(r_id)).
    eexists. refine (push_whole (with_pending j (Some p) j.(j_degraded)) p s s' eq_refl eq_refl Ha _). exact (frame_bytes_nonempty (entry c x).1).
  - apply walk_oversized; [done..| |split; lia]. unfold body_fits. lia.
Qed.

(** ** A run over the simulated disk

    Short writes, refused writes and failing flushes are on; flushes do not lie.
    The journal is opened, takes a record, syncs, takes another; the power fails
    while that one is dirty, and the files are opened again. *)

Module Sample.
#[local] Existing Instance Register_Digest | 0.
#[local] Existing Instance Register_DigestLaws | 0.

Definition disk : SimIo := sim_new 11 (MkFaults 120000 0 20000 10000).
Definition name : str := lit "j".
Definition rec1 : Record_ := sample_record 5 1000 1 "agent://acme/bot" "run-1" ToolCall.
Definition rec2 : Record_ := sample_record 6 1001 2 "agent://acme/bot" "run-1" ModelCall.

Definition none : Journal := MkJournal 0 0 0 0 First [] chain_genesis 0 0 0 0 0 0 None (dedup_new 1) 0 false.
Definition no_report : Recovered := MkRecovered 0 0 [] 0 0 EndOfFile None.
Definition opened_of (r : result JournalError (Journal * Recovered)) : Journal * Recovered :=
  match r with Ok x => x | Err _ => (none, no_report) end.
Definition ok_of {A} (d : A) (r : result JournalError A) : A := match r with Ok x => x | Err _ => d end.

Definition open1 := open 3 7 name 10 First 1000 disk.
Definition j1 : Journal := (opened_of open1.1).1.
Definition put1 := append rec1 j1 open1.2.
Definition sync1 := sync put1.1.2 put1.2.
Definition put2 := append rec2 sync1.1.2 sync1.2.
Definition crashed : SimIo := sim_crash put2.2.
Definition open2 := open 3 7 name 10 First 2000 crashed.

Definition walk1 : Walked := ok_of (MkWalked [] chain_genesis 0 EndOfFile) (read_all sync1.1.2 sync1.2).1.
Definition promised1 : list Record_ := map fst walk1.(w_records).

Lemma open1_ok : open1 = (Ok (j1, (opened_of open1.1).2), open1.2).
Proof. vm_compute. reflexivity. Qed.
Lemma put1_ok : put1 = (put1.1.1, put1.1.2, put1.2).
Proof. vm_compute. reflexivity. Qed.
Lemma sync1_ok : sync1 = (Ok 1, sync1.1.2, sync1.2).
Proof. vm_compute. reflexivity. Qed.
Lemma put2_ok : put2 = (put2.1.1, put2.1.2, put2.2).
Proof. vm_compute. reflexivity. Qed.
Lemma walk1_ok : read_all sync1.1.2 sync1.2 = (Ok walk1, sync1.2).
Proof. vm_compute. reflexivity. Qed.

Lemma honest0 : io_honest disk.
Proof. split; [done|by intros n f|by intros n n' f]. Qed.

Lemma appendable1 : appendable 3 7 j1 rec1.
Proof. intros _. cbn zeta. split; by_evaluation. Qed.
Lemma appendable2 : appendable 3 7 sync1.1.2 rec2.
Proof. intros _. cbn zeta. split; by_evaluation. Qed.

Lemma reach1 : reach 3 7 name First (Some j1) open1.2 [].
Proof.
  eapply reach_open; [apply (reach_init 3 7 name First disk honest0); reflexivity|..|exact open1_ok]. by_evaluation.
Qed.
Lemma reach_put1 : reach 3 7 name First (Some put1.1.2) put1.2 [].
Proof. eapply reach_append; [exact reach1|exact appendable1|exact put1_ok]. Qed.
Lemma reach_sync1 : reach 3 7 name First (Some sync1.1.2) sync1.2 promised1.
Proof. eapply reach_sync; [exact reach_put1|exact sync1_ok|exact walk1_ok]. Qed.
Lemma reach_put2 : reach 3 7 name First (Some put2.1.2) put2.2 promised1.
Proof. eapply reach_append; [exact reach_sync1|exact appendable2|exact put2_ok]. Qed.
Lemma reach_crashed : reach 3 7 name First None crashed promised1.
Proof. eapply reach_crash; [exact reach_put2|reflexivity]. Qed.

Lemma acked_records_survive_witness :
  length promised1 = 1%nat /\ exists recs, readable put2.1.2 put2.2 recs /\ promised1 `prefix_of` recs.
Proof.
  split; [vm_compute; reflexivity|].
  destruct (acked_records_survive 3 7 name First put2.1.2 put2.2 promised1) as (recs & H1 & H2 & _).
  - by_evaluation.
  - by_evaluation.
  - exact reach_put2.
  - exact (ex_intro _ recs (conj H1 H2)).
Defined.

(** The crash tore the second record; the first one comes back. *)
Lemma reopening_keeps_promises_witness :
  match open2.1 with
  | Ok (j, rep) => rep.(rv_discarded_bytes) = 310%nat /\ rep.(rv_violation) = None /\
      exists recs, readable j open2.2 recs /\ promised1 `prefix_of` recs
  | Err _ => False
  end.
Proof.
  pose proof (reopening_keeps_promises 3 7 name First 2000 10 crashed promised1 open2.1 open2.2
    ltac:(by_evaluation) ltac:(by_evaluation) ltac:(by_evaluation) reach_crashed ltac:(apply surjective_pairing)) as H.
  assert (E : exists j rep, open2.1 = Ok (j, rep) /\ rep.(rv_discarded_bytes) = 310%nat).
  { exists (opened_of open2.1).1, (opened_of open2.1).2. split; vm_compute; reflexivity. }
  destruct E as (j & rep & E & Hd). rewrite E in *. destruct H as (recs & H1 & H2 & H3 & _).
  exact (conj Hd (conj H3 (ex_intro _ recs (conj H1 H2)))).
Defined.

Lemma append_tells_the_truth_witness :
  exists recs recs', readable sync1.1.2 sync1.2 recs /\ readable put2.1.2 put2.2 recs' /\
    append_outcome 3 7 sync1.1.2 recs rec2 sync1.1.2.(j_chain) put2.1.1 put2.1.2 recs'.
Proof.
  apply (append_tells_the_truth 3 7 name First rec2 sync1.1.2 sync1.2 promised1 put2.1.1 put2.1.2 put2.2).
  - by_evaluation.
  - by_evaluation.
  - exact reach_sync1.
  - exact appendable2.
  - exact put2_ok.
Defined.

Lemma sync_promises_what_it_flushed_witness :
  exists recs, readable sync1.1.2 sync1.2 recs /\ 1 = Z.of_nat (length recs) /\
    reach 3 7 name First (Some sync1.1.2) sync1.2 recs.
Proof.
  destruct (sync_promises_what_it_flushed 3 7 name First put1.1.2 put1.2 [] (Ok 1) sync1.1.2 sync1.2) as (recs & _ & H1 & H2 & _ & H3).
  - by_evaluation.
  - by_evaluation.
  - exact reach_put1.
  - exact sync1_ok.
  - exact (ex_intro _ recs (conj H1 (conj H2 H3))).
Defined.

(** One flipped bit in the header of a file with records behind it. *)
Definition damaged : SimIo :=
  {| files := [MkFile name (x00 :: drop 1 (default [] (durable <$> (files put1.2 !! 0%nat))) ++ default [] (dirty <$> (files put1.2 !! 0%nat))) [];
               MkFile (name ++ lit ".ack") [] []];
     by_name := put1.2.(by_name); rng := 1; faults := no_faults; stats := no_stats |}.
Definition recover_damaged := recover j1 damaged.

Lemma refused_file_is_untouched_witness :
  recover_damaged.1.1 = Err (NotAJournal BadMagic) /\ recover_damaged.2 = damaged.
Proof.
  assert (E : recover_damaged = (Err (NotAJournal BadMagic), recover_damaged.1.2, recover_damaged.2)) by (vm_compute; reflexivity).
  split; [by rewrite E|].
  apply (refused_file_is_untouched j1 damaged (NotAJournal BadMagic) recover_damaged.1.2 recover_damaged.2).
  - split; by_evaluation.
  - exact E.
  - exact I.
Defined.

(** The journal file is gone, the watermark says one record was promised. *)
Definition emptied : SimIo :=
  {| files := [MkFile name [] []; MkFile (name ++ lit ".ack") (watermark_bytes 1) []];
     by_name := put1.2.(by_name); rng := 1; faults := no_faults; stats := no_stats |}.
Definition recover_emptied := recover j1 emptied.

Lemma loss_is_reported_witness :
  match recover_emptied.1.1 with Ok rep => rep.(rv_violation) = Some (MkViolation 1 0) | Err _ => False end.
Proof.
  set (rep := ok_of no_report recover_emptied.1.1).
  assert (E : recover_emptied = (Ok rep, recover_emptied.1.2, recover_emptied.2)) by (vm_compute; reflexivity).
  rewrite E. cbn [fst].
  destruct (loss_is_reported j1 emptied rep recover_emptied.1.2 recover_emptied.2 (watermark_bytes 1) []) as [[_ H] _].
  - split; by_evaluation.
  - vm_compute. discriminate.
  - vm_compute. reflexivity.
  - exact E.
  - assert (Ev : rep.(rv_max_seq) = 0) by (vm_compute; reflexivity).
    assert (Ep : Z.max (j_acked j1) (parse_watermark (watermark_bytes 1 ++ [])) = 1) by (vm_compute; reflexivity).
    rewrite Ev, Ep in H. apply H. done.
Defined.

(** A record with 262,200 causes: 16 bytes each, so over the limit. *)
Definition with_causes (r : Record_) (l : list RecordId) : Record_ :=
  {| r_id := r.(r_id); tenant := r.(tenant); shard := r.(shard); agent_id := r.(agent_id);
     run_id := r.(run_id); parent_run_id := r.(parent_run_id); on_behalf_of := r.(on_behalf_of);
     occurred_at := r.(occurred_at); decided_at := r.(decided_at); recorded_at := r.(recorded_at);
     knowledge_as_of := r.(knowledge_as_of); clock_skew_nanos := r.(clock_skew_nanos);
     event_type := r.(event_type); severity := r.(severity); basis := r.(basis);
     caused_by := l; outcome := r.(outcome); payload := r.(payload);
     seq := r.(seq); prev_hash := r.(prev_hash); segment_id := r.(segment_id);
     algorithms := r.(algorithms); mapper := r.(mapper) |}.

Lemma length_with_causes r l :
  (length (encode_record (with_causes r l)) + 1 = length (encode_record (with_causes r [])) + length (put_seq put_u128 l))%nat.
Proof.
  unfold encode_record, encode_fields. cbn [with_causes r_id tenant shard agent_id run_id parent_run_id on_behalf_of
    occurred_at decided_at recorded_at knowledge_as_of clock_skew_nanos event_type severity basis caused_by outcome
    payload seq prev_hash segment_id algorithms mapper]. cbv zeta. rewrite !length_app.
  change (length (put_seq put_u128 [])) with 1%nat. lia.
Qed.

Lemma length_causes n v : Z.of_nat n < 2 ^ 64 ->
  16 * Z.of_nat n + 1 <= Z.of_nat (length (put_seq put_u128 (repeat v n))) <= 16 * Z.of_nat n + 10.
Proof.
  intros Hn. unfold put_seq. rewrite length_app, repeat_length.
  pose proof (put_varint_length (Z.of_nat n) ltac:(unfold u64_ok; lia)). pose proof (put_varint_nonempty (Z.of_nat n)).
  assert (Hc : Z.of_nat (length (concat (map put_u128 (repeat v n)))) = 16 * Z.of_nat n).
  { clear. induction n as [|n IH]; [done|]. cbn [repeat map concat]. rewrite length_app. unfold put_u128 at 1.
    rewrite length_to_be_bytes. lia. }
  lia.
Qed.

Definition huge : Record_ := with_causes rec1 (repeat 1 (Z.to_nat 262200)).
Definition clean : SimIo :=
  {| files := [MkFile name [] []]; by_name := ∅; rng := 1; faults := no_faults; stats := no_stats |}.
Definition after_genesis : Journal :=
  MkJournal 0 3 7 1000 (After Hash_ZERO) Hash_ZERO (chain_resume Hash_ZERO 0) 0 0 1 13 0 10 None (dedup_new 1) 0 false.

(** A disk with no faults takes any write whole. *)
Lemma clean_append data : exists s', io_append 0%nat data clean = (Ok (length data), s').
Proof. eexists. reflexivity. Qed.

Lemma huge_length :
  MAX_BODY_BYTES < Z.of_nat (length (encode_record (stamp 3 7 1 Hash_ZERO huge))) < 2 ^ 64.
Proof.
  change (stamp 3 7 1 Hash_ZERO huge) with (with_causes (stamp 3 7 1 Hash_ZERO rec1) (repeat 1 (Z.to_nat 262200))).
  pose proof (length_with_causes (stamp 3 7 1 Hash_ZERO rec1) (repeat 1 (Z.to_nat 262200))) as H.
  pose proof (length_causes (Z.to_nat 262200) 1) as Hl. rewrite Z2Nat.id in Hl by done. specialize (Hl eq_refl).
  assert (Hb : length (encode_record (with_causes (stamp 3 7 1 Hash_ZERO rec1) [])) = 345%nat) by (vm_compute; reflexivity).
  rewrite Hb in H. unfold MAX_BODY_BYTES. lia.
Qed.

Lemma oversized_append_is_written_not_read_witness :
  (exists j' s', append huge after_genesis clean =
     (Ok (Written 1 (entry (chain_resume Hash_ZERO 0) (stamp 3 7 1 Hash_ZERO huge)).1.(f_link)), j', s')) /\
  MAX_BODY_BYTES < Z.of_nat (length (encode_record (stamp 3 7 1 Hash_ZERO huge))).
Proof.
  destruct (clean_append (frame_bytes (entry (chain_resume Hash_ZERO 0) (stamp 3 7 1 Hash_ZERO huge)).1)) as [s' Hs].
  destruct (oversized_append_is_written_not_read huge after_genesis clean s' 1000 Hash_ZERO [] []) as [[j' Hj] _].
  - by_evaluation.
  - by_evaluation.
  - by_evaluation.
  - exact I.
  - reflexivity.
  - reflexivity.
  - reflexivity.
  - reflexivity.
  - exact huge_length.
  - exact Hs.
  - split; [exists j', s'; exact Hj|exact (proj1 huge_length)].
Defined.

End Sample.
