(* ===== verification/Integrity.v ===== *)
(** * What a digest commits to: the chain and the trees

    The statements an auditor relies on, for any [Digest] that meets its laws,
    with their instances on the SHA-384 hasher of [Sha384]. *)

From S2P Require Import Prelude Bytes Ids Record Digest Sha384 Merkle Consistency.

(** ** The hash chain *)

(** C37 (tamper evidence). Two histories appended to the same chain state that
    reach the same head and the same length are the same list of records, in
    the same order, unless two of the messages their links hash collide: a
    changed, dropped, added or moved record changes the head. *)
Theorem chain_head_commits `{DL : DigestLaws} (c : ChainState) (rs1 rs2 : list (list byte)) :
  hash_ok c.(chain_head) -> 0 <= c.(chain_length) ->
  c.(chain_length) + Z.of_nat (length rs1) < 2 ^ 64 ->
  collision_free (chain_inputs c rs1) (chain_inputs c rs2) ->
  chain_of c rs1 = chain_of c rs2 -> rs1 = rs2.
Proof. apply chain_tamper_evident. Qed.

Lemma chain_head_commits_witness :
  let rs := [lit "first"; lit "second"] in
  chain_of chain_genesis rs = chain_of chain_genesis rs /\ rs = rs.
Proof.
  cbn zeta. split; [reflexivity|].
  apply (chain_head_commits chain_genesis [lit "first"; lit "second"] [lit "first"; lit "second"]).
  - reflexivity.
  - done.
  - done.
  - by_evaluation.
  - reflexivity.
Defined.

(** ** Merkle inclusion *)

(** Completeness of inclusion proofs. For every leaf of every prefix of the
    tree, the tree produces a proof, and the verifier that pins that position
    and that size accepts it against the root the tree had at that size. *)
Theorem inclusion_proof_verifies `{DL : DigestLaws} (t : MerkleTree) (index size : nat) (leaf : Hash) :
  Forall hash_ok (leaves t) -> (size <= tree_len t)%nat -> (index < size)%nat ->
  tree_leaf t index = Some leaf ->
  exists p rt, inclusion_proof t index size = Some p /\ root_at t size = Some rt /\
    verify_at p leaf rt index size = true.
Proof.
  intros Hok Hs Hi Hl. destruct (inclusion_complete t index size leaf Hok Hs Hi Hl) as (p & Hp & Hv).
  destruct (root_at t size) as [rt|] eqn:Hr.
  - exists p, rt. auto.
  - unfold root_at in Hr. unfold tree_len in Hs. destruct (Nat.ltb_spec (length (leaves t)) size); [lia|done].
Qed.

Definition three_leaves : MerkleTree :=
  fst (push_data (fst (push_data (fst (push_data tree_new (lit "a"))) (lit "b"))) (lit "c")).

Lemma inclusion_proof_verifies_witness :
  exists p rt, inclusion_proof three_leaves 2 3 = Some p /\ root_at three_leaves 3 = Some rt /\
    verify_at p (leaf_hash (lit "c")) rt 2 3 = true.
Proof.
  apply (inclusion_proof_verifies three_leaves 2 3 (leaf_hash (lit "c"))).
  - by_evaluation.
  - cbn. lia.
  - lia.
  - reflexivity.
Defined.

(** C36 (soundness of inclusion proofs). A proof that the verifier accepts for a
    leaf, at a position and size the caller fixed, against the root of [l], shows
    that [l] holds that leaf at that position, whatever bytes the proof carries,
    unless a string hashed on the way up collides with a node of the tree. *)
Theorem inclusion_proof_sound `{DL : DigestLaws} (l : list Hash) (p : InclusionProof) (leaf : Hash) (index : nat) :
  Forall hash_ok l -> Forall hash_ok (ip_path p) -> hash_ok leaf ->
  collision_free (mth_inputs l) (climb_inputs p leaf) ->
  verify_at p leaf (mth l) index (length l) = true ->
  l !! index = Some leaf.
Proof. apply inclusion_sound. Qed.

Lemma inclusion_proof_sound_witness :
  let l := leaves three_leaves in
  let p := default (MkInclusion 0 0 []) (inclusion_proof three_leaves 1 3) in
  verify_at p (leaf_hash (lit "b")) (mth l) 1 (length l) = true /\ l !! 1%nat = Some (leaf_hash (lit "b")).
Proof.
  cbn zeta.
  assert (Hv : verify_at (default (MkInclusion 0 0 []) (inclusion_proof three_leaves 1 3))
    (leaf_hash (lit "b")) (mth (leaves three_leaves)) 1 (length (leaves three_leaves)) = true)
    by (vm_compute; reflexivity).
  split; [exact Hv|].
  apply (inclusion_proof_sound (leaves three_leaves)
           (default (MkInclusion 0 0 []) (inclusion_proof three_leaves 1 3)) (leaf_hash (lit "b")) 1).
  - by_evaluation.
  - by_evaluation.
  - by_evaluation.
  - by_evaluation.
  - exact Hv.
Defined.
