(* ===== verification/Seal.v ===== *)
(** * Sealing a journal into a segment ([trailryx-store/src/seal.rs])

    The seam between the journal and the index: what is sealed is the durable
    prefix of what the journal reads back, with the links its frames carry. *)

From S2P Require Import Prelude Bytes Ids Record Codec Digest Merkle Completeness Segment Wire WireRecord Frame SimIo Walk Journal Durability JournalProps.

Inductive StoreError :=
  | ChainDoesNotStartThere (declared actual : Hash)
  | StJournal (e : JournalError)
  | StSeal (e : SealError)
  | JournalSuspect (why : StoppedBecause)
  | StDurabilityViolation (promised_ recovered_ : Z).

#[export] Instance StoreError_eq_dec : EqDecision StoreError.
Proof. solve_decision. Defined.

Section Sealing.
Context `{D : Digest}.

Record SealedSegment := MkSealedSegment { ss_segment : Segment; ss_records : Z; ss_chain_after : Hash }.

Inductive SealOutcome := OSealed (s : SealedSegment) | NothingDurable.

(** [seal_segment] after the file was read. [usize] is 64 bits. *)
Definition seal_walked (j : Journal) (segment_ : SegmentId) (shard_ : ShardIx) (walked : Walked) :
    result StoreError SealOutcome :=
  let before := j.(j_genesis) in
  match walked.(w_stopped) with
  | EndOfFile | TornTail _ =>
      let acked := j.(j_acked) in
      let available := as_u64 (Z.of_nat (length walked.(w_records))) in
      if available <? acked then Err (StDurabilityViolation acked available)
      else if acked =? 0 then Ok NothingDurable
      else
        let durable_ := take (Z.to_nat acked) walked.(w_records) in
        match head durable_ with
        | Some (first, _) =>
            if negb (bool_decide (first.(prev_hash) = before))
            then Err (ChainDoesNotStartThere before first.(prev_hash))
            else
              sealed ← map_err StSeal (seal segment_ shard_ before durable_);
              Ok (OSealed (MkSealedSegment sealed acked (default before (snd <$> last durable_))))
        | None =>
            sealed ← map_err StSeal (seal segment_ shard_ before durable_);
            Ok (OSealed (MkSealedSegment sealed acked (default before (snd <$> last durable_))))
        end
  | other => Err (JournalSuspect other)
  end.

Definition seal_segment {W} `{IO : Io W} (j : Journal) (segment_ : SegmentId) (shard_ : ShardIx) (s : W) :
    result StoreError SealOutcome * W :=
  match read_all j s with
  | (Err e, s) => (Err (StJournal e), s)
  | (Ok walked, s) => (seal_walked j segment_ shard_ walked, s)
  end.

Definition provable_dimensions : list Dimension := Dimension_ALL.

End Sealing.

(** ** Segments sealed over what a journal wrote *)

Section Written.
Context `{DL : DigestLaws}.

(** The rows of a segment: the records of a journal that began at [before], each
    with the link its frame carries. *)
Definition journal_rows (before : Hash) (recs : list Record_) : list (Record_ * Hash) :=
  kept (entries (chain_resume before 0) recs).

Record written_segment (ix : ShardIx) (sd : Sealed) : Prop := {
  ws_sealed : sealed_ok ix sd;
  ws_history : history ix sd.(sd_segment) (chain_resume sd.(sd_before) 0) (map fst sd.(sd_rows));
  ws_rows : sd.(sd_rows) = journal_rows sd.(sd_before) (map fst sd.(sd_rows));
}.

#[export] Instance written_segment_dec ix sd : Decision (written_segment ix sd).
Proof. decide_record. Defined.

Lemma kept_take n c recs : take n (kept (entries c recs)) = kept (entries c (take n recs)).
Proof.
  revert n c; induction recs as [|r recs IH]; intros [|n] c; try done.
  cbn [take entries kept map]. f_equal. apply IH.
Qed.

Lemma history_distinct ix sg c recs : history ix sg c recs -> NoDup (map (fun r => r.(seq)) recs).
Proof.
  intros Hh. apply NoDup_alt. intros i k q Hi Hk. change (map ?f ?l) with (f <$> l) in *.
  rewrite list_lookup_fmap in Hi, Hk. destruct (recs !! i) as [a|] eqn:Ea; [|done].
  destruct (recs !! k) as [b|] eqn:Eb; [|done]. cbn in Hi, Hk. injection Hi as Hi. injection Hk as Hk.
  apply (history_seq _ _ _ _ _ _ Hh) in Ea as [Ea _]. apply (history_seq _ _ _ _ _ _ Hh) in Eb as [Eb _]. lia.
Qed.

Lemma journal_rows_ok ix sg before recs :
  history ix sg (chain_resume before 0) recs -> Forall row_ok (journal_rows before recs).
Proof.
  unfold journal_rows. generalize (chain_resume before 0) as c. induction recs as [|r recs IH]; intros c; [constructor|].
  intros [[] Hh]. cbn [entries kept map]. constructor; [|by apply IH].
  split; [done|apply chain_step_ok].
Qed.

(** Sealing what a journal wrote fails only where the algorithms differ. *)
Lemma seal_written_error ix sg before recs e :
  history ix sg (chain_resume before 0) recs -> seal sg ix before (journal_rows before recs) = Err e ->
  e = MixedAlgorithms /\ ~ same_algorithms (journal_rows before recs).
Proof.
  intros Hh E. assert (Hf : ~ same_algorithms (journal_rows before recs)).
  { intros Hs. destruct (seal_ok_iff sg ix before (journal_rows before recs)) as [_ H]. rewrite E in H.
    assert (is_ok (@Err SealError Segment e) = true); [|done]. apply H. split; [done|].
    apply Forall_forall. intros d _. apply build_no_duplicate.
    rewrite <- (map_map fst (fun r => r.(seq))). unfold journal_rows. rewrite kept_entries.
    by eapply history_distinct. }
  split; [|done]. unfold seal in E.
  match type of E with (if ?b then _ else _) = _ => destruct b eqn:Em end; [by injection E as <-|].
  exfalso. apply Hf. unfold same_algorithms. destruct (journal_rows before recs) as [|[r h] rows]; [constructor|].
  apply existsb_false in Em. eapply Forall_impl; [exact Em|]. intros rl H.
  apply negb_false_iff, bool_decide_eq_true in H. cbn in *. by f_equal.
Qed.

End Written.

(** ** What is sealed *)

Section Contract.
Context `{DL : DigestLaws} {W : Type} {IO : Io W} {IOL : IoLaws W}.
Context (ix sg : Z) (name : str) (start : ChainStart).

(** The head a chain was told to start from is a hash. *)
Definition start_ok (c : ChainStart) : Prop := match c with First => True | After h => hash_ok h end.

Definition seal_result (A : list Record_) (j : Journal) (r : result StoreError SealOutcome) : Prop :=
  let promised_ := take (Z.to_nat j.(j_acked)) A in
  match r with
  | Err e => e = StSeal MixedAlgorithms /\ ~ same_algorithms (journal_rows j.(j_genesis) promised_)
  | Ok NothingDurable => j.(j_acked) = 0
  | Ok (OSealed ss) =>
      ss.(ss_records) = j.(j_acked) /\ ss.(ss_records) = Z.of_nat (length promised_) /\ 0 < ss.(ss_records) /\
      written_segment ix (MkSealed sg j.(j_genesis) (journal_rows j.(j_genesis) promised_) ss.(ss_segment)) /\
      records ss.(ss_segment) = promised_ /\ ss.(ss_chain_after) = ss.(ss_segment).(manifest).(chain_after)
  end.

Lemma seal_walked_spec j A more w :
  u16_ok ix -> u64_ok sg -> hash_ok j.(j_genesis) -> history ix sg (chain_resume j.(j_genesis) 0) (A ++ more) ->
  u64_ok (Z.of_nat (length (A ++ more))) -> 0 <= j.(j_acked) <= Z.of_nat (length A) ->
  w.(w_records) = journal_rows j.(j_genesis) (A ++ more) ->
  (w.(w_stopped) = EndOfFile \/ w.(w_stopped) = TornTail Truncated) ->
  seal_result A j (seal_walked j sg ix w).
Proof.
  intros H1 H2 Hgo Hh Hn Ha Hw Hs. unfold seal_result. set (g := j.(j_genesis)) in *.
  set (promised_ := take (Z.to_nat j.(j_acked)) A).
  assert (Ep : promised_ = take (Z.to_nat (j_acked j)) (A ++ more)) by (unfold promised_; rewrite take_app_le by lia; done).
  assert (Hhp : history ix sg (chain_resume g 0) promised_) by (rewrite Ep; by apply history_take).
  assert (Hlp : Z.of_nat (length promised_) = j.(j_acked)) by (unfold promised_; rewrite length_take; lia).
  set (rows := journal_rows g promised_).
  assert (Hrows : map fst rows = promised_) by apply kept_entries.
  assert (Hlr : length rows = length promised_) by (by rewrite <- Hrows, length_map).
  assert (Hlen : length (w_records w) = length (A ++ more)).
  { rewrite Hw, <- (length_map fst). unfold journal_rows. by rewrite kept_entries. }
  assert (Ht : take (Z.to_nat j.(j_acked)) w.(w_records) = rows) by (rewrite Hw; unfold journal_rows; by rewrite kept_take, <- Ep).
  pose proof (journal_rows_ok ix sg g promised_ Hhp) as Hok. fold rows in Hok.
  assert (Hfirst : forall r h, head rows = Some (r, h) -> r.(prev_hash) = g).
  { intros r h. unfold rows, journal_rows. destruct promised_ as [|x l]; [done|]. intros [= <- _].
    destruct Hhp as [[] _]. done. }
  assert (Hgoal : seal_walked j sg ix w = Ok NothingDurable /\ j.(j_acked) = 0 \/
    0 < j.(j_acked) /\ seal_walked j sg ix w =
      (sealed ← map_err StSeal (seal sg ix g rows);
       Ok (OSealed (MkSealedSegment sealed j.(j_acked) (default g (snd <$> last rows)))))).
  { unfold seal_walked. fold g. rewrite Hlen, as_u64_small, Ht by done. rewrite length_app in *.
    destruct Hs as [-> | ->]; (destruct (Z.ltb_spec (Z.of_nat (length A + length more)) (j_acked j)); [lia|]);
      (destruct (Z.eqb_spec (j_acked j) 0) as [E0|E0]; [by left|]); right; (split; [lia|]);
      (destruct (head rows) as [[r h]|] eqn:Eh; [|done]); by rewrite (Hfirst _ _ eq_refl), bool_decide_true. }
  destruct Hgoal as [[-> E0]|[Hpos ->]]; [exact E0|].
  destruct (seal sg ix g rows) as [sd|e] eqn:Es; cbn [map_err mbind result_bind].
  - cbn [ss_records ss_segment ss_chain_after]. split; [done|]. split; [done|]. split; [done|]. split; [|split].
    + split; cbn [sd_segment sd_before sd_rows sd_seal]; [|by rewrite Hrows..]. split; try done.
      cbn [sd_rows]. rewrite Hlr. unfold u64_ok in *. rewrite length_app in Hn. lia.
    + apply seal_inv in Es as (_ & _ & _ & _ & _ & -> & _). exact Hrows.
    + unfold seal in Es. destruct (match rows with [] => _ | _ => _ end); [done|]. cbn zeta in Es.
      apply result_bind_ok in Es as ([] & _ & [= <-]). done.
  - apply seal_written_error in Es as [-> Hm]; done.
Qed.

Lemma seal_live j s A at_ recs du di :
  u16_ok ix -> u64_ok sg -> start_ok start -> live ix sg name start j s A at_ recs du di ->
  exists r, seal_segment j sg ix s = (r, s) /\ seal_result A j r.
Proof.
  intros H1 H2 Hst L. unfold seal_segment. rewrite (read_all_live ix sg name start H1 H2 _ _ _ _ _ _ _ L).
  eexists. split; [done|]. pose proof (lv_full _ _ _ _ _ _ _ _ _ _ _ L) as Hf.
  pose proof (ff_history _ _ _ _ _ _ _ _ _ Hf) as Hh. pose proof (ff_acked _ _ _ _ _ _ _ _ _ Hf) as [more ->].
  pose proof (lv_genesis _ _ _ _ _ _ _ _ _ _ _ L) as Hg. unfold base in *. cbn [chain_resume chain_head] in Hg.
  rewrite <- Hg in *.
  apply (seal_walked_spec j A more); try done.
  - rewrite Hg. destruct start; [apply hash_parts_ok|exact Hst].
  - eapply (history_length ix sg start at_). unfold base. by rewrite <- Hg.
  - apply L.
  - apply stop_after_cases.
Qed.

End Contract.

(** C5 (only what is durable is sealed). In every state a deployment of a journal
    can arrive at, over any honest disk, sealing writes nothing and either finds
    nothing durable, exactly when nothing has been acknowledged; or seals exactly
    the acknowledged records, the first of those promised, in the journal's order
    and with the journal's links, into a segment that begins where the journal's
    chain began and ends at the link of the last of them; or fails, and then only
    because those records do not all carry the same algorithms. *)
Theorem sealing_takes_the_promised_prefix `{DL : DigestLaws} {W : Type} {IO : Io W} {IOL : IoLaws W}
    (ix sg : Z) (name : str) (start : ChainStart) (j : Journal) (s : W) (A : list Record_)
    (r : result StoreError SealOutcome) (s' : W) :
  u16_ok ix -> u64_ok sg -> start_ok start -> reach ix sg name start (Some j) s A ->
  seal_segment j sg ix s = (r, s') -> s' = s /\ seal_result ix sg A j r.
Proof.
  intros H1 H2 Hst R E. apply reach_live in R as (at_ & recs & du & di & L); [|done..].
  destruct (seal_live ix sg name start j s A at_ recs du di H1 H2 Hst L) as (r' & E' & Hr).
  rewrite E in E'. by injection E' as -> ->.
Qed.

(** The journal of [JournalProps.Sample] when its second record is written and not
    yet synced: the first is sealed. *)
Lemma sealing_takes_the_promised_prefix_witness :
  let j := JournalProps.Sample.put2.1.2 in
  match (seal_segment (D := Register_Digest) j 7 3 JournalProps.Sample.put2.2).1 with
  | Ok (OSealed ss) => ss.(ss_records) = 1 /\ records ss.(ss_segment) = JournalProps.Sample.promised1
  | _ => False
  end.
Proof.
  cbn zeta. set (x := seal_segment _ _ _ _).
  assert (Hx : exists ss, x.1 = Ok (OSealed ss) /\ ss.(ss_records) = 1 /\
            j_acked JournalProps.Sample.put2.1.2 = 1 /\ length JournalProps.Sample.promised1 = 1%nat).
  { destruct x.1 as [[ss|]|e] eqn:E; [exists ss|..]; vm_compute in E; [|discriminate E..].
    split; [reflexivity|]. split; [by injection E as <-|]. split; vm_compute; reflexivity. }
  destruct Hx as (ss & E & E1 & Ea & El). rewrite E. split; [exact E1|].
  destruct (sealing_takes_the_promised_prefix (DL := Register_DigestLaws) 3 7 JournalProps.Sample.name First
    JournalProps.Sample.put2.1.2 JournalProps.Sample.put2.2 JournalProps.Sample.promised1 x.1 x.2) as [_ H].
  - by_evaluation.
  - by_evaluation.
  - exact I.
  - exact JournalProps.Sample.reach_put2.
  - unfold x. apply surjective_pairing.
  - rewrite E in H. destruct H as (_ & _ & _ & _ & H & _). rewrite H, Ea. apply take_ge. by rewrite El.
Defined.
