(* ===== verification/PackFormat.v ===== *)
(** * The evidence pack and its reader ([trailryx-verify/src/pack.rs])

    Fixed-width big-endian fields, explicit lengths, and a sequence of sections
    closed by [SECTION_END]. A reader's [what] is the label the source reports;
    [put_section] writes one section, and [parse] is characterised by the
    sections it accepts. *)

From S2P Require Import Prelude Bytes Ids Record Codec.

Definition PACK_MAGIC : list byte := lit "TRXEVID".
Definition PACK_VERSION : Z := 3.
Definition MIN_VERSION : Z := 2.

Definition SECTION_END : Z := 0.
Definition SECTION_HEADER : Z := 1.
Definition SECTION_SHARD : Z := 2.
Definition SECTION_SEGMENT : Z := 3.
Definition SECTION_RECORDS : Z := 4.
Definition SECTION_SIGNATURE : Z := 5.
Definition SECTION_WITNESS : Z := 6.
Definition SECTION_ANCHOR : Z := 7.

Definition MAX_ITEMS : Z := 100000000.

Inductive PackError :=
  | PackBadMagic
  | PackUnknownVersion (v : byte)
  | PackTruncated (what : string)
  | PackUnknownSection (k : byte)
  | PackTooMany (what : string)
  | PackNotUtf8 (what : string)
  | PackSectionOverrun (what : string)
  | PackMissing (what : string)
  | PackDuplicate (what : string) (shard segment : Z).

#[export] Instance PackError_eq_dec : EqDecision PackError.
Proof. solve_decision. Defined.

(** ** The reader *)

Abbreviation Pr := (Reader PackError).

Definition pk_take (n : Z) (what : string) : Pr (list byte) := rd_take (PackTruncated what) n.

(** [u8]; [u16], [u32] and [u64] as values; a slice of 48 bytes. *)
Definition pk_u8 (what : string) : Pr byte := s ← pk_take 1 what; mret (hd x00 s).
Definition pk_uint (n : nat) (what : string) : Pr Z := s ← pk_take (Z.of_nat n) what; mret (from_be_bytes s).
Definition pk_u16 : string -> Pr Z := pk_uint 2.
Definition pk_u32 : string -> Pr Z := pk_uint 4.
Definition pk_u64 : string -> Pr Z := pk_uint 8.
Definition pk_hash (what : string) : Pr Hash := pk_take (Z.of_nat HASH_BYTES) what.

Definition pk_bytes (what : string) : Pr (list byte) := len ← pk_u32 what; pk_take len what.

Definition pk_string (what : string) : Pr str :=
  b ← pk_bytes what;
  if valid_utf8 b then mret b else rd_fail (PackNotUtf8 what).

Definition pk_count (what : string) : Pr Z :=
  n ← pk_u64 what;
  if MAX_ITEMS <? n then rd_fail (PackTooMany what) else mret n.

(** ** What a pack holds *)

(** [[u8; 3]]. *)
Definition AlgCodes : Type := byte * byte * byte.
Definition alg_bytes (a : AlgCodes) : list byte := let '(h, s, k) := a in [h; s; k].

Record PackHeader := MkPackHeader {
  ph_tenant : str;
  ph_generated_at : Z;
  ph_store_root : Hash;
  ph_shard_count : Z;
  ph_algorithms : AlgCodes;
}.

Record PackSignature := MkPackSignature {
  sg_algorithm : str; sg_public_key : list byte; sg_signature : list byte }.

Record PackWitness := MkPackWitness {
  pw_witness : str; pw_seen_at : Z; pw_algorithm : str; pw_public_key : list byte; pw_signature : list byte }.

Inductive AnchorKind :=
  | Tsp
  | TransparencyLog
  | SignedArtifact
  | UnknownKind (code : byte).

#[export] Instance AnchorKind_eq_dec : EqDecision AnchorKind.
Proof. solve_decision. Defined.

Definition from_code (code : byte) : AnchorKind :=
  if u8v code =? 1 then Tsp
  else if u8v code =? 2 then TransparencyLog
  else if u8v code =? 3 then SignedArtifact
  else UnknownKind code.

Definition kind_code (k : AnchorKind) : byte :=
  match k with Tsp => u8 1 | TransparencyLog => u8 2 | SignedArtifact => u8 3 | UnknownKind c => c end.

Record Anchor := MkAnchor {
  an_kind : AnchorKind;
  an_authority : str;
  an_algorithm : str;
  an_root : Hash;
  an_challenge : list byte;
  an_evidence : list byte;
}.

Definition anchor_nonce (a : Anchor) : option Z :=
  if (length a.(an_challenge) =? 8)%nat then Some (from_be_bytes a.(an_challenge)) else None.

Record PackShard := MkPackShard { psh_shard : Z; psh_segment_count : Z; psh_root : Hash }.

Record PackSegment := MkPackSegment {
  psg_format_version : Z;
  psg_segment : Z;
  psg_shard : Z;
  psg_records : Z;
  psg_history_root : Hash;
  psg_index_roots : list (str * Hash);
  psg_chain_before : Hash;
  psg_chain_after : Hash;
  psg_first_recorded_at : Z;
  psg_last_recorded_at : Z;
  psg_algorithms : AlgCodes;
}.

Record RecordSet := MkRecordSet { rs_shard : Z; rs_segment : Z; rs_records : list (list byte) }.

Record Pack := MkPack {
  pk_header : PackHeader;
  pk_signature : option PackSignature;
  pk_witnesses : list PackWitness;
  pk_anchors : list Anchor;
  pk_shards : list PackShard;
  pk_segments : list PackSegment;
  pk_record_sets : list RecordSet;
}.

#[export] Instance PackHeader_eq_dec : EqDecision PackHeader.
Proof. solve_decision. Defined.
#[export] Instance PackSignature_eq_dec : EqDecision PackSignature.
Proof. solve_decision. Defined.
#[export] Instance PackWitness_eq_dec : EqDecision PackWitness.
Proof. solve_decision. Defined.
#[export] Instance Anchor_eq_dec : EqDecision Anchor.
Proof. solve_decision. Defined.
#[export] Instance PackShard_eq_dec : EqDecision PackShard.
Proof. solve_decision. Defined.
#[export] Instance PackSegment_eq_dec : EqDecision PackSegment.
Proof. solve_decision. Defined.
#[export] Instance RecordSet_eq_dec : EqDecision RecordSet.
Proof. solve_decision. Defined.
#[export] Instance Pack_eq_dec : EqDecision Pack.
Proof. solve_decision. Defined.

(** ** The sections' bodies *)

Definition pk_algorithms : Pr AlgCodes :=
  h ← pk_u8 "the hash algorithm";
  s ← pk_u8 "the signature algorithm";
  k ← pk_u8 "the KEM algorithm";
  mret (h, s, k).

Definition parse_header : Pr PackHeader :=
  tenant_ ← pk_string "the tenant";
  generated ← pk_u64 "the timestamp";
  root_ ← pk_hash "the store root";
  shards ← pk_u32 "the shard count";
  algs ← pk_algorithms;
  mret (MkPackHeader tenant_ generated root_ shards algs).

Definition parse_signature : Pr PackSignature :=
  algorithm ← pk_string "a signature algorithm";
  key ← pk_bytes "a public key";
  sig ← pk_bytes "a signature";
  mret (MkPackSignature algorithm key sig).

Definition parse_witness : Pr PackWitness :=
  name ← pk_string "a witness name";
  seen ← pk_u64 "a witness timestamp";
  algorithm ← pk_string "a signature algorithm";
  key ← pk_bytes "a public key";
  sig ← pk_bytes "a signature";
  mret (MkPackWitness name seen algorithm key sig).

Definition parse_anchor : Pr Anchor :=
  kind ← pk_u8 "an anchor kind";
  authority ← pk_string "an anchor authority";
  algorithm ← pk_string "an anchor algorithm";
  root_ ← pk_hash "an anchored root";
  challenge ← pk_bytes "an anchor challenge";
  evidence ← pk_bytes "anchor evidence";
  mret (MkAnchor (from_code kind) authority algorithm root_ challenge evidence).

Definition parse_shard : Pr PackShard :=
  shard_ ← pk_u16 "a shard index";
  count ← pk_u32 "a segment count";
  root_ ← pk_hash "a shard root";
  mret (MkPackShard shard_ count root_).

Definition parse_index_root : Pr (str * Hash) :=
  name ← pk_string "a dimension name"; root_ ← pk_hash "an index root"; mret (name, root_).

Definition parse_segment : Pr PackSegment :=
  format ← pk_u16 "a format version";
  segment_ ← pk_u64 "a segment id";
  shard_ ← pk_u16 "a shard index";
  records_ ← pk_u64 "a record count";
  history_ ← pk_hash "a history root";
  before ← pk_hash "a chain head";
  after ← pk_hash "a chain head";
  n ← pk_count "an index-root count";
  roots ← get_items parse_index_root (Z.to_nat n);
  first ← pk_u64 "a first timestamp";
  last ← pk_u64 "a last timestamp";
  algs ← pk_algorithms;
  mret (MkPackSegment format segment_ shard_ records_ history_ roots before after first last algs).

Definition parse_records : Pr RecordSet :=
  shard_ ← pk_u16 "a shard index";
  segment_ ← pk_u64 "a segment id";
  n ← pk_count "a record count";
  records_ ← get_items (pk_bytes "a record body") (Z.to_nat n);
  mret (MkRecordSet shard_ segment_ records_).

(** ** [Pack::parse] *)

(** The locals of the loop. *)
Record Parts := MkParts {
  pt_header : option PackHeader;
  pt_signature : option PackSignature;
  pt_witnesses : list PackWitness;
  pt_anchors : list Anchor;
  pt_shards : list PackShard;
  pt_segments : list PackSegment;
  pt_record_sets : list RecordSet;
}.

Definition no_parts : Parts := MkParts None None [] [] [] [] [].

Definition same_shard (d s : PackShard) : bool := d.(psh_shard) =? s.(psh_shard).
Definition same_segment (d s : PackSegment) : bool :=
  (d.(psg_shard) =? s.(psg_shard)) && (d.(psg_segment) =? s.(psg_segment)).
Definition same_set (d s : RecordSet) : bool :=
  (d.(rs_shard) =? s.(rs_shard)) && (d.(rs_segment) =? s.(rs_segment)).
Definition same_anchor (d s : Anchor) : bool :=
  bool_decide (d.(an_authority) = s.(an_authority)) && bool_decide (d.(an_kind) = s.(an_kind))
  && bool_decide (d.(an_challenge) = s.(an_challenge)).

Inductive PackPart :=
  | PHeader (h : PackHeader)
  | PShard (s : PackShard)
  | PSegment (s : PackSegment)
  | PRecords (s : RecordSet)
  | PSignature (s : PackSignature)
  | PWitness (w : PackWitness)
  | PAnchor (a : Anchor).

(** One arm of the [match kind]: the parse of the body. *)
Definition parse_part (kind : byte) : Pr PackPart :=
  let k := u8v kind in
  if k =? SECTION_HEADER then PHeader <$> parse_header
  else if k =? SECTION_SHARD then PShard <$> parse_shard
  else if k =? SECTION_SEGMENT then PSegment <$> parse_segment
  else if k =? SECTION_RECORDS then PRecords <$> parse_records
  else if k =? SECTION_SIGNATURE then PSignature <$> parse_signature
  else if k =? SECTION_WITNESS then PWitness <$> parse_witness
  else if k =? SECTION_ANCHOR then PAnchor <$> parse_anchor
  else rd_fail (PackUnknownSection kind).

(** The rest of the arm: a part the pack already has is refused, any other is
    stored. A second header or signature replaces the first. *)
Definition add_part (st : Parts) (p : PackPart) : result PackError Parts :=
  let '(MkParts h sg ws ans shs sgs rss) := st in
  match p with
  | PHeader x => Ok (MkParts (Some x) sg ws ans shs sgs rss)
  | PShard x =>
      if existsb (fun d => same_shard d x) shs
      then Err (PackDuplicate "shard manifests" x.(psh_shard) 0)
      else Ok (MkParts h sg ws ans (shs ++ [x]) sgs rss)
  | PSegment x =>
      if existsb (fun d => same_segment d x) sgs
      then Err (PackDuplicate "segment manifests" x.(psg_shard) x.(psg_segment))
      else Ok (MkParts h sg ws ans shs (sgs ++ [x]) rss)
  | PRecords x =>
      if existsb (fun d => same_set d x) rss
      then Err (PackDuplicate "record sets" x.(rs_shard) x.(rs_segment))
      else Ok (MkParts h sg ws ans shs sgs (rss ++ [x]))
  | PSignature x => Ok (MkParts h (Some x) ws ans shs sgs rss)
  | PWitness x => Ok (MkParts h sg (ws ++ [x]) ans shs sgs rss)
  | PAnchor x =>
      if existsb (fun d => same_anchor d x) ans
      then Err (PackDuplicate "an anchor from one party of one kind under one challenge" 0
                  (default 0 (anchor_nonce x)))
      else Ok (MkParts h sg ws (ans ++ [x]) shs sgs rss)
  end.

(** One section: its body is parsed, stored, and must have been read to its end. *)
Definition parse_section (kind : byte) (body : list byte) (st : Parts) : result PackError Parts :=
  '(p, rest) ← parse_part kind body;
  st' ← add_part st p;
  if (length rest =? 0)%nat then Ok st' else Err (PackSectionOverrun "a section").

(** The [loop]: a turn reads at least the kind byte, so one turn per byte left
    and one for the end is enough. *)
Fixpoint parse_loop (fuel : nat) (st : Parts) (bs : list byte) : result PackError Parts :=
  match fuel with
  | O => Err (PackTruncated "a section kind")
  | S f =>
      '(kind, bs) ← pk_u8 "a section kind" bs;
      if u8v kind =? SECTION_END then Ok st
      else
        '(len, bs) ← pk_count "a section length" bs;
        '(body, bs) ← pk_take len "a section body" bs;
        st ← parse_section kind body st;
        parse_loop f st bs
  end.

Definition close_parts (st : Parts) : result PackError Pack :=
  h ← ok_or st.(pt_header) (PackMissing "header");
  Ok (MkPack h st.(pt_signature) st.(pt_witnesses) st.(pt_anchors) st.(pt_shards)
        st.(pt_segments) st.(pt_record_sets)).

Definition Pack_parse (bytes : list byte) : result PackError Pack :=
  '(magic, bs) ← pk_take (Z.of_nat (length PACK_MAGIC)) "the magic" bytes;
  if negb (bool_decide (magic = PACK_MAGIC)) then Err PackBadMagic
  else
    '(version, bs) ← pk_u8 "the version" bs;
    if negb ((MIN_VERSION <=? u8v version) && (u8v version <=? PACK_VERSION))
    then Err (PackUnknownVersion version)
    else
      st ← parse_loop (S (length bs)) no_parts bs;
      close_parts st.

Definition records_for (p : Pack) (shard_ segment_ : Z) : option RecordSet :=
  find (fun s => (s.(rs_shard) =? shard_) && (s.(rs_segment) =? segment_)) p.(pk_record_sets).

(** ** The bytes of each part *)

Definition put_u32_bytes (b : list byte) : list byte := to_be_bytes 4 (Z.of_nat (length b)) ++ b.
Definition put_count (n : Z) : list byte := to_be_bytes 8 n.

Definition put_header (h : PackHeader) : list byte :=
  put_u32_bytes h.(ph_tenant) ++ to_be_bytes 8 h.(ph_generated_at) ++ h.(ph_store_root)
  ++ to_be_bytes 4 h.(ph_shard_count) ++ alg_bytes h.(ph_algorithms).
Definition put_signature (s : PackSignature) : list byte :=
  put_u32_bytes s.(sg_algorithm) ++ put_u32_bytes s.(sg_public_key) ++ put_u32_bytes s.(sg_signature).
Definition put_witness (w : PackWitness) : list byte :=
  put_u32_bytes w.(pw_witness) ++ to_be_bytes 8 w.(pw_seen_at) ++ put_u32_bytes w.(pw_algorithm)
  ++ put_u32_bytes w.(pw_public_key) ++ put_u32_bytes w.(pw_signature).
Definition put_anchor (a : Anchor) : list byte :=
  [kind_code a.(an_kind)] ++ put_u32_bytes a.(an_authority) ++ put_u32_bytes a.(an_algorithm)
  ++ a.(an_root) ++ put_u32_bytes a.(an_challenge) ++ put_u32_bytes a.(an_evidence).
Definition put_shard (s : PackShard) : list byte :=
  to_be_bytes 2 s.(psh_shard) ++ to_be_bytes 4 s.(psh_segment_count) ++ s.(psh_root).
Definition put_index_root (nr : str * Hash) : list byte := put_u32_bytes nr.1 ++ nr.2.
Definition put_segment (s : PackSegment) : list byte :=
  to_be_bytes 2 s.(psg_format_version) ++ to_be_bytes 8 s.(psg_segment) ++ to_be_bytes 2 s.(psg_shard)
  ++ to_be_bytes 8 s.(psg_records) ++ s.(psg_history_root) ++ s.(psg_chain_before) ++ s.(psg_chain_after)
  ++ put_count (Z.of_nat (length s.(psg_index_roots))) ++ concat (map put_index_root s.(psg_index_roots))
  ++ to_be_bytes 8 s.(psg_first_recorded_at) ++ to_be_bytes 8 s.(psg_last_recorded_at)
  ++ alg_bytes s.(psg_algorithms).
Definition put_records (s : RecordSet) : list byte :=
  to_be_bytes 2 s.(rs_shard) ++ to_be_bytes 8 s.(rs_segment)
  ++ put_count (Z.of_nat (length s.(rs_records))) ++ concat (map put_u32_bytes s.(rs_records)).

Definition part_kind (p : PackPart) : Z :=
  match p with
  | PHeader _ => SECTION_HEADER | PShard _ => SECTION_SHARD | PSegment _ => SECTION_SEGMENT
  | PRecords _ => SECTION_RECORDS | PSignature _ => SECTION_SIGNATURE
  | PWitness _ => SECTION_WITNESS | PAnchor _ => SECTION_ANCHOR
  end.
Definition put_part (p : PackPart) : list byte :=
  match p with
  | PHeader h => put_header h | PShard s => put_shard s | PSegment s => put_segment s
  | PRecords s => put_records s | PSignature s => put_signature s
  | PWitness w => put_witness w | PAnchor a => put_anchor a
  end.

Definition put_section (p : PackPart) : list byte :=
  [u8 (part_kind p)] ++ put_count (Z.of_nat (length (put_part p))) ++ put_part p.

(** ** What is well formed *)

Definition short (b : list byte) : Prop := u32_ok (Z.of_nat (length b)).
Definition str_ok (s : str) : Prop := short s /\ valid_utf8 s = true.
Definition few {A} (l : list A) : Prop := Z.of_nat (length l) <= MAX_ITEMS.

Record header_ok (h : PackHeader) : Prop := {
  ok_ph_tenant : str_ok h.(ph_tenant);
  ok_ph_generated : u64_ok h.(ph_generated_at);
  ok_ph_root : hash_ok h.(ph_store_root);
  ok_ph_count : u32_ok h.(ph_shard_count);
}.
Record signature_ok (s : PackSignature) : Prop := {
  ok_sg_algorithm : str_ok s.(sg_algorithm);
  ok_sg_key : short s.(sg_public_key);
  ok_sg_signature : short s.(sg_signature);
}.
Record witness_ok (w : PackWitness) : Prop := {
  ok_pw_witness : str_ok w.(pw_witness);
  ok_pw_seen : u64_ok w.(pw_seen_at);
  ok_pw_algorithm : str_ok w.(pw_algorithm);
  ok_pw_key : short w.(pw_public_key);
  ok_pw_signature : short w.(pw_signature);
}.
Record anchor_ok (a : Anchor) : Prop := {
  ok_an_kind : from_code (kind_code a.(an_kind)) = a.(an_kind);
  ok_an_authority : str_ok a.(an_authority);
  ok_an_algorithm : str_ok a.(an_algorithm);
  ok_an_root : hash_ok a.(an_root);
  ok_an_challenge : short a.(an_challenge);
  ok_an_evidence : short a.(an_evidence);
}.
Record pshard_ok (s : PackShard) : Prop := {
  ok_psh_shard : u16_ok s.(psh_shard);
  ok_psh_count : u32_ok s.(psh_segment_count);
  ok_psh_root : hash_ok s.(psh_root);
}.
Definition index_root_wf (nr : str * Hash) : Prop := str_ok nr.1 /\ hash_ok nr.2.
Record psegment_ok (s : PackSegment) : Prop := {
  ok_psg_format : u16_ok s.(psg_format_version);
  ok_psg_segment : u64_ok s.(psg_segment);
  ok_psg_shard : u16_ok s.(psg_shard);
  ok_psg_records : u64_ok s.(psg_records);
  ok_psg_history : hash_ok s.(psg_history_root);
  ok_psg_few : few s.(psg_index_roots);
  ok_psg_roots : Forall index_root_wf s.(psg_index_roots);
  ok_psg_before : hash_ok s.(psg_chain_before);
  ok_psg_after : hash_ok s.(psg_chain_after);
  ok_psg_first : u64_ok s.(psg_first_recorded_at);
  ok_psg_last : u64_ok s.(psg_last_recorded_at);
}.
Record set_ok (s : RecordSet) : Prop := {
  ok_rs_shard : u16_ok s.(rs_shard);
  ok_rs_segment : u64_ok s.(rs_segment);
  ok_rs_few : few s.(rs_records);
  ok_rs_records : Forall short s.(rs_records);
}.

Definition part_wf (p : PackPart) : Prop :=
  match p with
  | PHeader h => header_ok h | PShard s => pshard_ok s | PSegment s => psegment_ok s
  | PRecords s => set_ok s | PSignature s => signature_ok s
  | PWitness w => witness_ok w | PAnchor a => anchor_ok a
  end.

(** A part whose section the reader takes: its body is within [MAX_ITEMS] bytes. *)
Definition section_ok (p : PackPart) : Prop := part_wf p /\ few (put_part p).

#[export] Instance short_dec b : Decision (short b) := ltac:(unfold short; apply _).
#[export] Instance str_ok_dec s : Decision (str_ok s) := ltac:(unfold str_ok; apply _).
#[export] Instance few_dec {A} (l : list A) : Decision (few l) := ltac:(unfold few; apply _).
#[export] Instance header_ok_dec h : Decision (header_ok h).
Proof. decide_record. Defined.
#[export] Instance signature_ok_dec s : Decision (signature_ok s).
Proof. decide_record. Defined.
#[export] Instance witness_ok_dec w : Decision (witness_ok w).
Proof. decide_record. Defined.
#[export] Instance anchor_ok_dec a : Decision (anchor_ok a).
Proof. decide_record. Defined.
#[export] Instance pshard_ok_dec s : Decision (pshard_ok s).
Proof. decide_record. Defined.
#[export] Instance index_root_wf_dec nr : Decision (index_root_wf nr) := ltac:(unfold index_root_wf; apply _).
#[export] Instance psegment_ok_dec s : Decision (psegment_ok s).
Proof. decide_record. Defined.
#[export] Instance set_ok_dec s : Decision (set_ok s).
Proof. decide_record. Defined.
#[export] Instance part_wf_dec p : Decision (part_wf p).
Proof. destruct p; apply _. Defined.
#[export] Instance section_ok_dec p : Decision (section_ok p) := ltac:(unfold section_ok; apply _).

(** ** The fields are codecs *)

Lemma pk_u8_codec what : codec (fun b => [b]) (pk_u8 what) (fun _ => True).
Proof.
  apply (fixed_codec (PackTruncated what) 1 (fun b => [b]) (fun s => hd x00 s)); [done|].
  intros [|b []] Hs; done.
Qed.

Lemma pk_u16_codec what : codec (to_be_bytes 2) (pk_u16 what) u16_ok.
Proof. apply (be_codec (PackTruncated what) 2). Qed.
Lemma pk_u32_codec what : codec (to_be_bytes 4) (pk_u32 what) u32_ok.
Proof. apply (be_codec (PackTruncated what) 4). Qed.
Lemma pk_u64_codec what : codec (to_be_bytes 8) (pk_u64 what) u64_ok.
Proof. apply (be_codec (PackTruncated what) 8). Qed.

Lemma pk_hash_codec what : codec (fun h : Hash => h) (pk_hash what) hash_ok.
Proof.
  unfold hash_ok. split.
  - intros h rest Hh. apply rd_take_reads. by rewrite Hh.
  - intros bs h rest H. apply rd_take_sound in H as [-> Hl]; [|done]. split; [done|lia].
Qed.

#[export] Hint Resolve pk_u8_codec pk_u16_codec pk_u32_codec pk_u64_codec pk_hash_codec : codec.

Lemma pk_bytes_codec what : codec put_u32_bytes (pk_bytes what) short.
Proof.
  unfold short. split.
  - intros b rest Hb. unfold put_u32_bytes, pk_bytes. rewrite <- app_assoc. rd_read; [|done].
    by apply rd_take_reads.
  - intros bs b rest H. unfold pk_bytes in H. rd_found.
    apply rd_take_sound in H as [-> Hl]; [|unfold u32_ok in *; lia].
    unfold put_u32_bytes. rewrite Hl, <- app_assoc. done.
Qed.

#[export] Hint Resolve pk_bytes_codec : codec.

Lemma pk_string_codec what : codec put_u32_bytes (pk_string what) str_ok.
Proof.
  split.
  - intros s rest [Hs Hv]. unfold pk_string. rd_read; [|done]. by rewrite Hv.
  - intros bs s rest H. unfold pk_string in H. rd_found.
    match type of H with context [valid_utf8 ?b] => destruct (valid_utf8 b) eqn:Ev end; [|done].
    apply rd_ret_ok in H as [-> ->]. done.
Qed.

Lemma pk_count_codec what : codec put_count (pk_count what) (fun n => 0 <= n <= MAX_ITEMS).
Proof.
  unfold put_count. split.
  - intros n rest Hn. unfold pk_count. rd_read; [|unfold MAX_ITEMS in Hn; unfold u64_ok; lia].
    destruct (Z.ltb_spec MAX_ITEMS n); [lia|done].
  - intros bs n rest H. unfold pk_count in H. rd_found. unfold u64_ok in *.
    match type of H with context [MAX_ITEMS <? ?m] => destruct (Z.ltb_spec MAX_ITEMS m) end; [done|].
    apply rd_ret_ok in H as [-> ->]. split; [done|lia].
Qed.

Lemma pk_algorithms_codec : codec alg_bytes pk_algorithms (fun _ => True).
Proof.
  split.
  - intros [[h s] k] rest _. unfold pk_algorithms, alg_bytes.
    change ([h; s; k] ++ rest) with ([h] ++ [s] ++ [k] ++ rest).
    by do 3 rewrite (rd_bind_reads (pk_u8_codec _)) by done.
  - intros bs a rest H. unfold pk_algorithms in H. repeat rd_found. done.
Qed.

#[export] Hint Resolve pk_string_codec pk_count_codec pk_algorithms_codec : codec.

(** A list counted before its items. *)
Lemma counted_codec {A B} {put : A -> list byte} {get : Pr A} {wf} (f : list A -> Pr B) what l rest :
  codec put get wf -> few l -> Forall wf l ->
  (n ← pk_count what; l ← get_items get (Z.to_nat n); f l)
    (put_count (Z.of_nat (length l)) ++ concat (map put l) ++ rest) = f l rest.
Proof.
  intros C Hf Hl. unfold few in Hf. rewrite (rd_bind_reads (pk_count_codec what)) by lia.
  rewrite Nat2Z.id, (rd_bind_reads (items_codec _ C)) by done. done.
Qed.

Lemma counted_sound {A B} {put : A -> list byte} {get : Pr A} {wf} (f : list A -> Pr B) what bs b rest :
  codec put get wf -> (n ← pk_count what; l ← get_items get (Z.to_nat n); f l) bs = Ok (b, rest) ->
  exists l bs', bs = put_count (Z.of_nat (length l)) ++ concat (map put l) ++ bs' /\
    few l /\ Forall wf l /\ f l bs' = Ok (b, rest).
Proof.
  intros C H. apply rd_bind_ok in H as (n & bs1 & H1 & H). apply pk_count_codec in H1 as [-> Hn].
  apply rd_bind_ok in H as (l & bs2 & H2 & H). apply (items_codec _ C) in H2 as [-> [Hl Hw]].
  exists l, bs2. unfold few. assert (Z.of_nat (length l) = n) as -> by lia. split; [done|]. split; [lia|done].
Qed.

(** ** So are the sections' bodies *)

Ltac read_record := repeat (rd_read; [|done]).

Lemma header_codec : codec put_header parse_header header_ok.
Proof.
  split.
  - intros h rest [H1 H2 H3 H4]. unfold parse_header, put_header. rewrite <- !app_assoc.
    read_record. by destruct h.
  - intros bs h rest H. unfold parse_header in H. repeat rd_found. unfold put_header.
    rewrite <- !app_assoc. split; [done|]. by split.
Qed.

Lemma signature_codec : codec put_signature parse_signature signature_ok.
Proof.
  split.
  - intros s rest [H1 H2 H3]. unfold parse_signature, put_signature. rewrite <- !app_assoc.
    read_record. by destruct s.
  - intros bs s rest H. unfold parse_signature in H. repeat rd_found. unfold put_signature.
    rewrite <- !app_assoc. split; [done|]. by split.
Qed.

Lemma witness_codec : codec put_witness parse_witness witness_ok.
Proof.
  split.
  - intros w rest [H1 H2 H3 H4 H5]. unfold parse_witness, put_witness. rewrite <- !app_assoc.
    read_record. by destruct w.
  - intros bs w rest H. unfold parse_witness in H. repeat rd_found. unfold put_witness.
    rewrite <- !app_assoc. split; [done|]. by split.
Qed.

Lemma kind_code_from c : kind_code (from_code c) = c.
Proof.
  unfold from_code. repeat case_match; breflect; try done; cbn; rewrite <- (u8_u8v c); congruence.
Qed.

Lemma anchor_codec : codec put_anchor parse_anchor anchor_ok.
Proof.
  split.
  - intros a rest [H1 H2 H3 H4 H5 H6]. unfold parse_anchor, put_anchor. rewrite <- !app_assoc.
    rewrite (rd_bind_reads (pk_u8_codec _)) by done. read_record. rewrite H1. by destruct a.
  - intros bs a rest H. unfold parse_anchor in H. repeat rd_found. unfold put_anchor. cbn [an_kind].
    rewrite kind_code_from, <- !app_assoc. split; [done|]. split; try done. cbn [an_kind].
    by rewrite kind_code_from.
Qed.

Lemma shard_codec : codec put_shard parse_shard pshard_ok.
Proof.
  split.
  - intros s rest [H1 H2 H3]. unfold parse_shard, put_shard. rewrite <- !app_assoc.
    read_record. by destruct s.
  - intros bs s rest H. unfold parse_shard in H. repeat rd_found. unfold put_shard.
    rewrite <- !app_assoc. split; [done|]. by split.
Qed.

Lemma index_root_codec : codec put_index_root parse_index_root index_root_wf.
Proof.
  split.
  - intros [n r] rest [H1 H2]. unfold parse_index_root, put_index_root. cbn [fst snd] in *.
    rewrite <- !app_assoc. read_record. done.
  - intros bs nr rest H. unfold parse_index_root in H. repeat rd_found. unfold put_index_root.
    rewrite <- !app_assoc. done.
Qed.

Lemma segment_codec : codec put_segment parse_segment psegment_ok.
Proof.
  split.
  - intros s rest []. unfold parse_segment, put_segment. rewrite <- !app_assoc.
    do 7 (rd_read; [|done]). rewrite (counted_codec _ _ _ _ index_root_codec) by done.
    read_record. by destruct s.
  - intros bs s rest H. unfold parse_segment in H. do 7 rd_found.
    apply (counted_sound _ _ _ _ _ index_root_codec) in H as (l & bs' & -> & ? & ? & H).
    repeat rd_found. unfold put_segment. rewrite <- !app_assoc. split; [done|]. by split.
Qed.

Lemma records_codec : codec put_records parse_records set_ok.
Proof.
  split.
  - intros s rest []. unfold parse_records, put_records. rewrite <- !app_assoc.
    do 2 (rd_read; [|done]). rewrite (counted_codec _ _ _ _ (pk_bytes_codec _)) by done. by destruct s.
  - intros bs s rest H. unfold parse_records in H. do 2 rd_found.
    apply (counted_sound _ _ _ _ _ (pk_bytes_codec _)) in H as (l & bs' & -> & ? & ? & H).
    repeat rd_found. unfold put_records. rewrite <- !app_assoc. split; [done|]. by split.
Qed.

#[export] Hint Resolve header_codec signature_codec witness_codec anchor_codec shard_codec
  segment_codec records_codec : codec.

(** ** What [Pack_parse] accepts *)

Lemma part_reads p rest : part_wf p -> parse_part (u8 (part_kind p)) (put_part p ++ rest) = Ok (p, rest).
Proof.
  destruct p; cbn [part_kind put_part part_wf]; intros Hp;
    unfold parse_part; cbv zeta; rewrite u8v_u8_small by by_evaluation;
    cbn [Z.eqb Pos.eqb SECTION_HEADER SECTION_SHARD SECTION_SEGMENT SECTION_RECORDS SECTION_SIGNATURE
         SECTION_WITNESS SECTION_ANCHOR];
    unfold fmap, rd_fmap; by rd_read.
Qed.

Lemma part_sound k body p rest :
  parse_part k body = Ok (p, rest) -> u8v k = part_kind p /\ body = put_part p ++ rest /\ part_wf p.
Proof.
  unfold parse_part. cbv zeta. intros H.
  repeat match type of H with
  | (if ?b then _ else _) _ = _ => destruct b eqn:?; [breflect|]
  end; [..|done]; unfold fmap, rd_fmap in H; rd_found;
  apply rd_ret_ok in H as [<- ->]; by split.
Qed.

Fixpoint add_parts (st : Parts) (l : list PackPart) : result PackError Parts :=
  match l with
  | [] => Ok st
  | p :: l' => st' ← add_part st p; add_parts st' l'
  end.

Lemma section_reads st p : part_wf p -> parse_section (u8 (part_kind p)) (put_part p) st = add_part st p.
Proof.
  intros Hp. unfold parse_section. rewrite <- (app_nil_r (put_part p)), part_reads by done.
  cbn [mbind result_bind]. by destruct (add_part st p).
Qed.

Lemma part_kind_byte p : (u8v (u8 (part_kind p)) =? SECTION_END) = false.
Proof. by destruct p. Qed.

Lemma length_put_section p : (9 <= length (put_section p))%nat.
Proof. unfold put_section, put_count. rewrite !length_app, length_to_be_bytes. cbn. lia. Qed.

Lemma loop_reads l fuel st junk :
  Forall section_ok l -> (length l < fuel)%nat ->
  parse_loop fuel st (concat (map put_section l) ++ [x00] ++ junk) = add_parts st l.
Proof.
  revert fuel st; induction l as [|p l IH]; intros [|f] st Hl Hf; try (cbn in Hf; lia).
  { cbn [map concat add_parts parse_loop]. rewrite app_nil_l. by rewrite (codec_reads (pk_u8_codec _)). }
  apply Forall_cons in Hl as [[Hp Hs] Hl]. cbn [map concat add_parts parse_loop].
  unfold put_section. rewrite <- !app_assoc.
  rewrite (codec_reads (pk_u8_codec _)) by done. cbn [mbind result_bind]. rewrite part_kind_byte.
  rewrite (codec_reads (pk_count_codec _)) by (unfold few in Hs; lia). cbn [mbind result_bind].
  unfold pk_take. rewrite rd_take_reads by done. cbn [mbind result_bind]. rewrite section_reads by done.
  destruct (add_part st p) as [st'|e]; [|done]. cbn [mbind result_bind]. apply IH; [done|cbn in Hf; lia].
Qed.

Lemma loop_sound fuel st bs st' :
  parse_loop fuel st bs = Ok st' ->
  exists l junk, bs = concat (map put_section l) ++ [x00] ++ junk /\ Forall section_ok l /\ add_parts st l = Ok st'.
Proof.
  revert st bs; induction fuel as [|f IH]; intros st bs H; [done|]. cbn [parse_loop] in H.
  apply result_bind_ok in H as ([k bs1] & Hk & H). apply (codec_sound (pk_u8_codec _)) in Hk as [-> _].
  destruct (u8v k =? SECTION_END) eqn:Ek.
  - injection H as <-. exists [], bs1. breflect. apply (u8v_inj k x00) in Ek as ->.
    split; [reflexivity|]. split; [constructor|reflexivity].
  - apply result_bind_ok in H as ([n bs2] & Hn & H). apply pk_count_codec in Hn as [-> Hn].
    apply result_bind_ok in H as ([body bs3] & Hb & H). apply rd_take_sound in Hb as [-> Hl]; [|lia].
    apply result_bind_ok in H as (st1 & Hs & H). unfold parse_section in Hs.
    apply result_bind_ok in Hs as ([p rest] & Hp & Hs). apply part_sound in Hp as (Hkp & -> & Hw).
    apply result_bind_ok in Hs as (st2 & Ha & Hs). destruct rest as [|? ?]; [|done]. injection Hs as ->.
    apply IH in H as (l & junk & -> & Hf & Hl'). exists (p :: l), junk. rewrite app_nil_r in Hl.
    cbn [map concat add_parts]. rewrite Ha. split; [|split; [|done]].
    + unfold put_section. rewrite <- Hkp, u8_u8v, app_nil_r, Hl, <- !app_assoc. done.
    + constructor; [|done]. split; [done|]. unfold few. lia.
Qed.

Definition put_pack (v : Z) (l : list PackPart) (junk : list byte) : list byte :=
  PACK_MAGIC ++ [u8 v] ++ concat (map put_section l) ++ [x00] ++ junk.

Lemma length_sections l : (length l <= length (concat (map put_section l)))%nat.
Proof.
  induction l as [|p l IH]; cbn; [lia|]. rewrite length_app. pose proof (length_put_section p). lia.
Qed.

Lemma parse_reads v l junk :
  MIN_VERSION <= v <= PACK_VERSION -> Forall section_ok l ->
  Pack_parse (put_pack v l junk) = (st ← add_parts no_parts l; close_parts st).
Proof.
  unfold MIN_VERSION, PACK_VERSION. intros Hv Hl. unfold Pack_parse, put_pack, pk_take.
  rewrite rd_take_reads by done. cbn [mbind result_bind]. rewrite bool_decide_true by done. cbn [negb].
  rewrite (codec_reads (pk_u8_codec _)) by done. cbn [mbind result_bind].
  rewrite u8v_u8_small by lia.
  destruct (Z.leb_spec MIN_VERSION v), (Z.leb_spec v PACK_VERSION); unfold MIN_VERSION, PACK_VERSION in *; try lia.
  cbn [andb negb]. rewrite loop_reads; [done|done|]. rewrite length_app. pose proof (length_sections l). lia.
Qed.

Lemma parse_sound bytes p :
  Pack_parse bytes = Ok p ->
  exists v l junk st, MIN_VERSION <= v <= PACK_VERSION /\ bytes = put_pack v l junk /\
    Forall section_ok l /\ add_parts no_parts l = Ok st /\ close_parts st = Ok p.
Proof.
  unfold Pack_parse. intros H. apply result_bind_ok in H as ([m bs1] & Hm & H).
  apply rd_take_sound in Hm as [-> _]; [|done].
  destruct (bool_decide (m = PACK_MAGIC)) eqn:Em; [|done]. breflect. subst m. cbn [negb] in H.
  apply result_bind_ok in H as ([v bs2] & Hv & H). apply (codec_sound (pk_u8_codec _)) in Hv as [-> _].
  destruct (negb _) eqn:Ev in H; [done|]. breflect.
  apply result_bind_ok in H as (st & Hl & Hf). apply loop_sound in Hl as (l & junk & -> & Hs & Ha).
  exists (u8v v), l, junk, st. unfold put_pack. rewrite u8_u8v. done.
Qed.

(** ** What the loop never lets in twice *)

Definition anchor_key (a : Anchor) : str * AnchorKind * list byte :=
  (a.(an_authority), a.(an_kind), a.(an_challenge)).

Record parts_unique (st : Parts) : Prop := {
  uq_shards : NoDup (map psh_shard st.(pt_shards));
  uq_segments : NoDup (map (fun s => (s.(psg_shard), s.(psg_segment))) st.(pt_segments));
  uq_sets : NoDup (map (fun s => (s.(rs_shard), s.(rs_segment))) st.(pt_record_sets));
  uq_anchors : NoDup (map anchor_key st.(pt_anchors));
}.

Lemma existsb_fresh {A K} (key : A -> K) (same : A -> A -> bool) (l : list A) x :
  (forall d, same d x = false -> key d <> key x) ->
  existsb (fun d => same d x) l = false -> NoDup (map key l) -> NoDup (map key (l ++ [x])).
Proof.
  intros Hk He Hn. rewrite map_app. apply NoDup_app. split; [done|]. split; [|apply NoDup_singleton].
  intros k Hin Hx. apply list_elem_of_singleton in Hx as ->. apply list_elem_of_fmap in Hin as (d & E & Hd).
  apply (Hk d); [|done]. destruct (same d x) eqn:Es; [|done].
  rewrite <- He. symmetry. apply existsb_exists. exists d. split; [by apply list_elem_of_In|done].
Qed.

Lemma add_part_unique st p st' : add_part st p = Ok st' -> parts_unique st -> parts_unique st'.
Proof.
  destruct st as [h sg ws ans shs sgs rss]. intros H [H1 H2 H3 H4]. cbn in H1, H2, H3, H4.
  destruct p as [x|x|x|x|x|x|x]; cbn [add_part] in H; try (injection H as <-; by split);
    destruct (existsb _ _) eqn:E in H; try done; injection H as <-; split; try done;
    cbn [pt_shards pt_segments pt_record_sets pt_anchors]; revert E; try assumption.
  - intros E. apply (existsb_fresh psh_shard same_shard); [|done|done]. unfold same_shard. intros d Hd. breflect. done.
  - intros E. apply (existsb_fresh (fun s => (psg_shard s, psg_segment s)) same_segment); [|done|done].
    unfold same_segment. intros d Hd [= E1 E2]. rewrite E1, E2, !Z.eqb_refl in Hd. done.
  - intros E. apply (existsb_fresh (fun s => (rs_shard s, rs_segment s)) same_set); [|done|done].
    unfold same_set. intros d Hd [= E1 E2]. rewrite E1, E2, !Z.eqb_refl in Hd. done.
  - intros E. apply (existsb_fresh anchor_key same_anchor); [|done|done].
    unfold same_anchor, anchor_key. intros d Hd [= E1 E2 E3]. rewrite E1, E2, E3 in Hd.
    rewrite !bool_decide_true in Hd by done. done.
Qed.

Lemma add_parts_unique l st st' : add_parts st l = Ok st' -> parts_unique st -> parts_unique st'.
Proof.
  revert st; induction l as [|p l IH]; intros st H Hu; [by injection H as <-|]. cbn in H.
  apply result_bind_ok in H as (st1 & H1 & H). eapply IH; [exact H|]. by eapply add_part_unique.
Qed.

Lemma no_parts_unique : parts_unique no_parts.
Proof. split; apply NoDup_nil_2. Qed.

(** Everything stored was well formed in its section. *)
Record parts_wf (st : Parts) : Prop := {
  wf_pt_header : opt_ok header_ok st.(pt_header);
  wf_pt_signature : opt_ok signature_ok st.(pt_signature);
  wf_pt_witnesses : Forall witness_ok st.(pt_witnesses);
  wf_pt_anchors : Forall anchor_ok st.(pt_anchors);
  wf_pt_shards : Forall pshard_ok st.(pt_shards);
  wf_pt_segments : Forall psegment_ok st.(pt_segments);
  wf_pt_sets : Forall set_ok st.(pt_record_sets);
}.

Lemma add_part_wf st p st' : add_part st p = Ok st' -> part_wf p -> parts_wf st -> parts_wf st'.
Proof.
  destruct st as [h sg ws ans shs sgs rss]. intros H Hp [].
  destruct p as [x|x|x|x|x|x|x]; cbn [add_part part_wf] in *; try (destruct (existsb _ _) in H; [done|]);
    injection H as <-; split; cbn in *; try done; apply Forall_app; split; try done; by constructor.
Qed.

Lemma add_parts_wf l st st' : add_parts st l = Ok st' -> Forall section_ok l -> parts_wf st -> parts_wf st'.
Proof.
  revert st; induction l as [|p l IH]; intros st H Hl Hw; [by injection H as <-|]. cbn in H.
  apply Forall_cons in Hl as [[Hp _] Hl].
  apply result_bind_ok in H as (st1 & H1 & H). eapply IH; [exact H|done|]. by eapply add_part_wf.
Qed.

Record pack_wf (p : Pack) : Prop := {
  wf_header : header_ok p.(pk_header);
  wf_signature : opt_ok signature_ok p.(pk_signature);
  wf_witnesses : Forall witness_ok p.(pk_witnesses);
  wf_anchors : Forall anchor_ok p.(pk_anchors);
  wf_shards : Forall pshard_ok p.(pk_shards);
  wf_segments : Forall psegment_ok p.(pk_segments);
  wf_sets : Forall set_ok p.(pk_record_sets);
  one_shard : NoDup (map psh_shard p.(pk_shards));
  one_segment : NoDup (map (fun s => (s.(psg_shard), s.(psg_segment))) p.(pk_segments));
  one_set : NoDup (map (fun s => (s.(rs_shard), s.(rs_segment))) p.(pk_record_sets));
  one_anchor : NoDup (map anchor_key p.(pk_anchors));
}.

Lemma parsed_pack_wf bytes p : Pack_parse bytes = Ok p -> pack_wf p.
Proof.
  intros H. apply parse_sound in H as (v & l & junk & st & _ & _ & Hl & Ha & Hc).
  pose proof (add_parts_unique _ _ _ Ha no_parts_unique) as [].
  assert (parts_wf no_parts) as W by (by split).
  pose proof (add_parts_wf _ _ _ Ha Hl W) as []. unfold close_parts in Hc.
  apply result_bind_ok in Hc as (h & Hh & [= <-]). apply ok_or_ok in Hh. split; try done.
  cbn. rewrite Hh in wf_pt_header0. done.
Qed.

Lemma find_unique {A K} (key : A -> K) (p : A -> bool) (l : list A) x :
  NoDup (map key l) -> (forall y, p y = true -> key y = key x) -> p x = true -> x ∈ l -> find p l = Some x.
Proof.
  intros Hn Hp Hx. induction l as [|y l IH]; intros Hin; [by apply elem_of_nil in Hin|].
  cbn in *. apply NoDup_cons in Hn as [Hy Hn]. apply elem_of_cons in Hin as [<-|Hin]; [by rewrite Hx|].
  destruct (p y) eqn:Ey; [|by apply IH]. exfalso. apply Hy. rewrite (Hp y Ey).
  apply list_elem_of_fmap. by exists x.
Qed.

Lemma records_for_spec p s : pack_wf p -> s ∈ p.(pk_record_sets) -> records_for p s.(rs_shard) s.(rs_segment) = Some s.
Proof.
  intros [] Hs. unfold records_for. eapply (find_unique (fun s => (s.(rs_shard), s.(rs_segment)))); [done| |by rewrite !Z.eqb_refl|done].
  intros y Hy. breflect. by f_equal.
Qed.

(** ** Sections without a repeat are all kept, in order *)

Definition shards_in (l : list PackPart) : list PackShard :=
  omap (fun p => match p with PShard s => Some s | _ => None end) l.
Definition segments_in (l : list PackPart) : list PackSegment :=
  omap (fun p => match p with PSegment s => Some s | _ => None end) l.
Definition sets_in (l : list PackPart) : list RecordSet :=
  omap (fun p => match p with PRecords s => Some s | _ => None end) l.
Definition witnesses_in (l : list PackPart) : list PackWitness :=
  omap (fun p => match p with PWitness w => Some w | _ => None end) l.
Definition anchors_in (l : list PackPart) : list Anchor :=
  omap (fun p => match p with PAnchor a => Some a | _ => None end) l.
Definition headers_in (l : list PackPart) : list PackHeader :=
  omap (fun p => match p with PHeader h => Some h | _ => None end) l.
Definition signatures_in (l : list PackPart) : list PackSignature :=
  omap (fun p => match p with PSignature s => Some s | _ => None end) l.

Definition later {A} (o : option A) (l : list A) : option A :=
  match last l with Some x => Some x | None => o end.

Definition gather (st : Parts) (l : list PackPart) : Parts :=
  MkParts (later st.(pt_header) (headers_in l)) (later st.(pt_signature) (signatures_in l))
    (st.(pt_witnesses) ++ witnesses_in l) (st.(pt_anchors) ++ anchors_in l)
    (st.(pt_shards) ++ shards_in l) (st.(pt_segments) ++ segments_in l) (st.(pt_record_sets) ++ sets_in l).

Lemma later_cons {A} (o : option A) x l : later (Some x) l = later o (x :: l).
Proof. unfold later. destruct l as [|y l]; [done|]. rewrite (last_cons x (y :: l)). by destruct (last (y :: l)). Qed.

Lemma existsb_none {A K} (key : A -> K) (same : A -> A -> bool) (l : list A) x r :
  (forall d, same d x = true -> key d = key x) ->
  NoDup (map key (l ++ x :: r)) -> existsb (fun d => same d x) l = false.
Proof.
  intros Hk Hn. apply not_true_iff_false. intros He. apply existsb_exists in He as (d & Hd & Hs).
  rewrite map_app in Hn. apply NoDup_app in Hn as (_ & Hn & _). apply (Hn (key d)).
  - apply list_elem_of_fmap. exists d. split; [done|]. by apply list_elem_of_In.
  - rewrite (Hk d Hs). left.
Qed.

Lemma add_parts_gather l st : parts_unique (gather st l) -> add_parts st l = Ok (gather st l).
Proof.
  revert st; induction l as [|p l IH]; intros st [H1 H2 H3 H4].
  { destruct st. unfold gather. cbn. by rewrite !app_nil_r. }
  assert (Hg : forall st', add_part st p = Ok st' -> gather st' l = gather st (p :: l) ->
    add_parts st (p :: l) = Ok (gather st (p :: l))).
  { intros st' Ha E. cbn [add_parts]. rewrite Ha. cbn [mbind result_bind]. rewrite IH; [by rewrite E|].
    rewrite E. by split. }
  destruct st as [h sg ws ans shs sgs rss]. cbn in H1, H2, H3, H4.
  destruct p as [x|x|x|x|x|x|x].
  1: eapply Hg; [reflexivity|]; unfold gather; cbn; by rewrite (later_cons h).
  4: eapply Hg; [reflexivity|]; unfold gather; cbn; by rewrite (later_cons sg).
  4: eapply Hg; [reflexivity|]; unfold gather; cbn; by rewrite <- app_assoc.
  all: eapply Hg; [cbn [add_part]; first
    [ rewrite (existsb_none psh_shard same_shard shs x (shards_in l)); [reflexivity|unfold same_shard; intros; breflect; done|exact H1]
    | rewrite (existsb_none (fun s => (psg_shard s, psg_segment s)) same_segment sgs x (segments_in l));
        [reflexivity|unfold same_segment; intros; breflect; congruence|exact H2]
    | rewrite (existsb_none (fun s => (rs_shard s, rs_segment s)) same_set rss x (sets_in l));
        [reflexivity|unfold same_set; intros; breflect; congruence|exact H3]
    | rewrite (existsb_none anchor_key same_anchor ans x (anchors_in l));
        [reflexivity|unfold same_anchor, anchor_key; intros; breflect; congruence|exact H4] ]
    |unfold gather; cbn; by rewrite <- app_assoc].
Qed.

(** A header in front of the sections shows in the parts only if no header follows. *)
Definition prefer (h : PackHeader) (st : Parts) : Parts :=
  match st.(pt_header) with
  | Some _ => st
  | None => MkParts (Some h) st.(pt_signature) st.(pt_witnesses) st.(pt_anchors) st.(pt_shards)
              st.(pt_segments) st.(pt_record_sets)
  end.

Lemma add_part_prefer h st p : add_part (prefer h st) p = prefer h <$> add_part st p.
Proof.
  destruct st as [[h0|] sg ws ans shs sgs rss]; destruct p as [x|x|x|x|x|x|x]; cbn; try done;
    by destruct (existsb _ _).
Qed.

Lemma add_parts_prefer h l st : add_parts (prefer h st) l = prefer h <$> add_parts st l.
Proof.
  revert st; induction l as [|p l IH]; intros st; [done|]. cbn [add_parts].
  rewrite add_part_prefer. destruct (add_part st p) as [st1|e]; [|done]. cbn. apply IH.
Qed.

Lemma parse_after_header v h l junk p :
  MIN_VERSION <= v <= PACK_VERSION -> Forall section_ok l -> section_ok (PHeader h) ->
  Pack_parse (put_pack v l []) = Ok p -> Pack_parse (put_pack v (PHeader h :: l) junk) = Ok p.
Proof.
  intros Hv Hl Hh. rewrite !parse_reads by (done || by constructor). intros H.
  apply result_bind_ok in H as (st & Hs & Hc). cbn [add_parts add_part no_parts mbind result_bind].
  change (MkParts (Some h) None [] [] [] [] []) with (prefer h no_parts).
  rewrite add_parts_prefer, Hs. cbn. unfold prefer. unfold close_parts in Hc.
  apply result_bind_ok in Hc as (h0 & Hh0 & Hc). apply ok_or_ok in Hh0. rewrite Hh0.
  unfold close_parts. rewrite Hh0. exact Hc.
Qed.

(** ** The properties *)

(** What the reader accepts. A byte string is read as a pack exactly when
    it is the magic, a version from 2 to 3, sections each written as
    [put_section] writes it and none repeating a shard, a segment, a record set
    or an anchor already there, with a header among them, and the end byte; the
    pack is what those sections hold, every field within its type. What follows
    the end byte is not looked at. *)
Theorem pack_parse_iff (bytes : list byte) (p : Pack) :
  Pack_parse bytes = Ok p <->
  exists v l junk,
    MIN_VERSION <= v <= PACK_VERSION /\ Forall section_ok l /\ bytes = put_pack v l junk /\
    (st ← add_parts no_parts l; close_parts st) = Ok p /\ pack_wf p.
Proof.
  split.
  - intros H. pose proof (parsed_pack_wf _ _ H) as Hw.
    apply parse_sound in H as (v & l & junk & st & Hv & -> & Hl & Ha & Hc).
    exists v, l, junk. rewrite Ha. done.
  - intros (v & l & junk & Hv & Hl & -> & H & _). by rewrite parse_reads.
Qed.

Module Sample.

Definition header : PackHeader := MkPackHeader (lit "acme") 7 (repeat x01 48) 1 (x01, x01, x01).
Definition shard1 : PackShard := MkPackShard 0 0 (repeat x02 48).
Definition parts : list PackPart := [PHeader header; PShard shard1].
Definition pack : Pack := MkPack header None [] [] [shard1] [] [].

Lemma parts_ok : Forall section_ok parts.
Proof. by_evaluation. Qed.

End Sample.

Lemma pack_parse_iff_witness : Pack_parse (put_pack 3 Sample.parts []) = Ok Sample.pack.
Proof.
  apply (pack_parse_iff (put_pack 3 Sample.parts []) Sample.pack). exists 3, Sample.parts, [].
  split; [vm_compute; split; discriminate|]. split; [exact Sample.parts_ok|]. split; [reflexivity|].
  split; [vm_compute; reflexivity|].
  apply (parsed_pack_wf (put_pack 3 Sample.parts [])). vm_compute. reflexivity.
Defined.

(** Bytes no check reads. Anything may follow the end byte of a pack that
    parses, and a header section in front of its sections leaves no trace
    either: the pack read is the same. The format has two spellings of one pack. *)
Theorem pack_has_unread_bytes (v : Z) (h : PackHeader) (l : list PackPart) (junk : list byte) (p : Pack) :
  MIN_VERSION <= v <= PACK_VERSION -> Forall section_ok l -> section_ok (PHeader h) ->
  Pack_parse (put_pack v l []) = Ok p ->
  Pack_parse (put_pack v (PHeader h :: l) junk) = Ok p.
Proof. apply parse_after_header. Qed.

Lemma pack_has_unread_bytes_witness :
  Pack_parse (put_pack 3 (PHeader (MkPackHeader (lit "mallory") 0 (repeat xff 48) 9 (x00, x00, x00)) :: Sample.parts)
                (lit "anything at all")) = Ok Sample.pack.
Proof.
  apply pack_has_unread_bytes.
  - vm_compute; split; discriminate.
  - exact Sample.parts_ok.
  - by_evaluation.
  - vm_compute. reflexivity.
Defined.
