(* ===== verification/Sign.v ===== *)
(** * What is signed ([trailryx-sign/src/lib.rs])

    The statements a publisher and a witness sign, the signer behind its trait,
    and the two signing operations. A signer's private state and its signing
    function are behind [Signer]; nothing here assumes anything of them. *)

From S2P Require Import Prelude Bytes Ids Record Digest.

Inductive SignError :=
  | Unavailable (why : str)
  | Unvalidated (what : string)
  | BadLength (expected got : nat)
  | BadWitnessName (why : string).

#[export] Instance SignError_eq_dec : EqDecision SignError.
Proof. solve_decision. Defined.

(** The trait; [&mut self] is the state passed through. *)
Class Signer (S : Type) := {
  signer_algorithm : S -> SigAlg;
  signer_public_key : S -> list byte;
  is_validated : S -> bool;
  signer_sign : S -> list byte -> result SignError (list byte) * S;
}.

Definition KEY_ID_DOMAIN : list byte := lit "trailryx/key-id/v1" ++ [x00].
Definition ROOT_DOMAIN : list byte := lit "trailryx/signed-root/v1" ++ [x00].
Definition WITNESS_DOMAIN : list byte := lit "trailryx/witness/v1" ++ [x00].

Definition public_key_id `{Digest} (public_key : list byte) : Hash := digest (KEY_ID_DOMAIN ++ public_key).

Definition field (bytes : list byte) : list byte := to_be_bytes 8 (Z.of_nat (length bytes)) ++ bytes.

Definition root_statement (tenant : TenantId) (store_root : Hash) (shards : Z) (generated_at : Timestamp)
    (algorithm : SigAlg) (public_key : list byte) : list byte :=
  ROOT_DOMAIN ++ field tenant.(as_str) ++ field store_root ++ to_be_bytes 4 shards
  ++ to_be_bytes 8 generated_at ++ field (lit (SigAlg_as_str algorithm)) ++ field public_key.

Definition witness_statement (witness : str) (store_root : Hash) (seen_at : Timestamp)
    (algorithm : SigAlg) (public_key : list byte) : list byte :=
  WITNESS_DOMAIN ++ field witness ++ field store_root ++ to_be_bytes 8 seen_at
  ++ field (lit (SigAlg_as_str algorithm)) ++ field public_key.

Record RootSignature := MkRootSignature {
  rsig_algorithm : SigAlg; rsig_public_key : list byte; rsig_signature : list byte }.

Record WitnessAttestation := MkAttestation {
  wa_witness : str; wa_seen_at : Timestamp; wa_algorithm : SigAlg;
  wa_public_key : list byte; wa_signature : list byte }.

#[export] Instance RootSignature_eq_dec : EqDecision RootSignature.
Proof. solve_decision. Defined.
#[export] Instance WitnessAttestation_eq_dec : EqDecision WitnessAttestation.
Proof. solve_decision. Defined.

Definition RootSignature_key_id `{Digest} (s : RootSignature) : Hash := public_key_id s.(rsig_public_key).
Definition WitnessAttestation_key_id `{Digest} (w : WitnessAttestation) : Hash := public_key_id w.(wa_public_key).

Definition expected_length (algorithm : SigAlg) : option nat :=
  match algorithm with
  | Es384 => Some 96%nat
  | Es256 => Some 64%nat
  | MlDsa65 | SlhDsa => None
  end.

Definition check_length (algorithm : SigAlg) (signature : list byte) : result SignError unit :=
  match expected_length algorithm with
  | Some expected =>
      if (length signature =? expected)%nat then Ok tt else Err (BadLength expected (length signature))
  | None => Ok tt
  end.

Definition MAX_WITNESS_NAME : nat := 64.

Definition witness_char (c : Z) : bool :=
  is_ascii_lowercase c || is_ascii_digit c || ((c =? 46) || (c =? 95) || (c =? 45)).

(** [witness.chars().all(..)]: the characters of the name, which is valid UTF-8. *)
Definition check_witness_name (witness : str) : result SignError unit :=
  if (length witness =? 0)%nat then Err (BadWitnessName "is empty")
  else if (MAX_WITNESS_NAME <? length witness)%nat then Err (BadWitnessName "is longer than 64 bytes")
  else if negb (forallb (fun ic => witness_char ic.2) (char_indices witness))
  then Err (BadWitnessName "holds something outside [a-z0-9._-]")
  else Ok tt.

Section Signing.
Context {S : Type} `{Signer S}.

Definition sign_root_unvalidated (signer : S) (tenant : TenantId) (store_root : Hash) (shards : Z)
    (generated_at : Timestamp) : result SignError RootSignature * S :=
  let algorithm := signer_algorithm signer in
  let public_key := signer_public_key signer in
  let '(r, signer) := signer_sign signer
    (root_statement tenant store_root shards generated_at algorithm public_key) in
  (signature ← r;
   _ ← check_length algorithm signature;
   Ok (MkRootSignature algorithm public_key signature), signer).

Definition sign_root (signer : S) (tenant : TenantId) (store_root : Hash) (shards : Z)
    (generated_at : Timestamp) : result SignError RootSignature * S :=
  if negb (is_validated signer) then (Err (Unvalidated "the signer"), signer)
  else sign_root_unvalidated signer tenant store_root shards generated_at.

Definition attest (signer : S) (witness : str) (store_root : Hash) (seen_at : Timestamp)
    : result SignError WitnessAttestation * S :=
  match check_witness_name witness with
  | Err e => (Err e, signer)
  | Ok _ =>
      let algorithm := signer_algorithm signer in
      let public_key := signer_public_key signer in
      let '(r, signer) := signer_sign signer
        (witness_statement witness store_root seen_at algorithm public_key) in
      (signature ← r;
       _ ← check_length algorithm signature;
       Ok (MkAttestation witness seen_at algorithm public_key signature), signer)
  end.

End Signing.

(** ** What a statement determines *)

Definition long_ok (b : list byte) : Prop := u64_ok (Z.of_nat (length b)).

#[export] Instance long_ok_dec b : Decision (long_ok b) := ltac:(unfold long_ok; apply _).

Lemma field_inj a b s t : long_ok a -> long_ok b -> field a ++ s = field b ++ t -> a = b /\ s = t.
Proof.
  unfold field, long_ok. intros Ha Hb E. rewrite <- !app_assoc in E.
  apply app_eq_same_length in E as [El E]; [|by rewrite !length_to_be_bytes].
  apply to_be_bytes_inj in El; [|done..]. by apply app_eq_same_length in E; [|lia].
Qed.

Lemma sig_name_inj a b : lit (SigAlg_as_str a) = lit (SigAlg_as_str b) -> a = b.
Proof. by destruct a, b. Qed.

Lemma sig_name_long a : long_ok (lit (SigAlg_as_str a)).
Proof. destruct a; by_evaluation. Qed.

Lemma hash_long h : hash_ok h -> long_ok h.
Proof. unfold hash_ok, long_ok, u64_ok. intros ->. by split. Qed.

Lemma token_long {sp} (t : Token sp) : ascii_set sp.(allowed) -> (sp.(MAX_BYTES) <= 255)%nat -> token_ok t -> long_ok t.(as_str).
Proof.
  intros Ha Hm Ht. destruct (token_ok_inv t Ha Ht) as [Hl _]. unfold long_ok, u64_ok. lia.
Qed.

#[export] Hint Resolve sig_name_long hash_long : trx.

Lemma domains_differ a b : ROOT_DOMAIN ++ a <> WITNESS_DOMAIN ++ b.
Proof. discriminate. Qed.

Lemma root_statement_inj t1 r1 n1 g1 a1 k1 t2 r2 n2 g2 a2 k2 :
  token_ok t1 -> token_ok t2 -> hash_ok r1 -> hash_ok r2 -> u32_ok n1 -> u32_ok n2 ->
  u64_ok g1 -> u64_ok g2 -> long_ok k1 -> long_ok k2 ->
  root_statement t1 r1 n1 g1 a1 k1 = root_statement t2 r2 n2 g2 a2 k2 ->
  t1 = t2 /\ r1 = r2 /\ n1 = n2 /\ g1 = g2 /\ a1 = a2 /\ k1 = k2.
Proof.
  intros Ht1 Ht2 Hr1 Hr2 Hn1 Hn2 Hg1 Hg2 Hk1 Hk2 E. unfold root_statement in E.
  apply app_inv_head in E.
  apply field_inj in E as [Et E]; [|apply token_long; [exact segment_char_ascii|cbn; lia|done]..].
  apply field_inj in E as [-> E]; [|by apply hash_long..].
  apply app_eq_same_length in E as [En E]; [|by rewrite !length_to_be_bytes].
  apply to_be_bytes_inj in En as ->; [|done..].
  apply app_eq_same_length in E as [Eg E]; [|by rewrite !length_to_be_bytes].
  apply to_be_bytes_inj in Eg as ->; [|done..].
  apply field_inj in E as [Ea E]; [|by auto with trx..]. apply sig_name_inj in Ea as ->.
  rewrite <- (app_nil_r (field k1)), <- (app_nil_r (field k2)) in E.
  apply field_inj in E as [-> _]; [|done..]. destruct t1, t2. cbn in Et. by subst.
Qed.

Lemma witness_statement_inj w1 r1 g1 a1 k1 w2 r2 g2 a2 k2 :
  long_ok w1 -> long_ok w2 -> hash_ok r1 -> hash_ok r2 -> u64_ok g1 -> u64_ok g2 ->
  long_ok k1 -> long_ok k2 ->
  witness_statement w1 r1 g1 a1 k1 = witness_statement w2 r2 g2 a2 k2 ->
  w1 = w2 /\ r1 = r2 /\ g1 = g2 /\ a1 = a2 /\ k1 = k2.
Proof.
  intros Hw1 Hw2 Hr1 Hr2 Hg1 Hg2 Hk1 Hk2 E. unfold witness_statement in E. apply app_inv_head in E.
  apply field_inj in E as [-> E]; [|done..].
  apply field_inj in E as [-> E]; [|by apply hash_long..].
  apply app_eq_same_length in E as [Eg E]; [|by rewrite !length_to_be_bytes].
  apply to_be_bytes_inj in Eg as ->; [|done..].
  apply field_inj in E as [Ea E]; [|by auto with trx..]. apply sig_name_inj in Ea as ->.
  rewrite <- (app_nil_r (field k1)), <- (app_nil_r (field k2)) in E.
  by apply field_inj in E as [-> _].
Qed.

(** A signature binds what it names. A root is signed only by a validated
    signer, over exactly the statement of its tenant, root, shard count, time,
    algorithm and key, and kept with that algorithm and key; that statement is no
    other root's, and never a witness's, whatever it attests. *)
Theorem signed_root_binds_its_statement {S : Type} `{Signer S} (signer signer' : S) (t : TenantId) (rt : Hash)
    (n : Z) (g : Timestamp) (s : RootSignature) :
  sign_root signer t rt n g = (Ok s, signer') ->
  is_validated signer = true /\
  signer_sign signer (root_statement t rt n g s.(rsig_algorithm) s.(rsig_public_key)) = (Ok s.(rsig_signature), signer') /\
  (forall len, expected_length s.(rsig_algorithm) = Some len -> length s.(rsig_signature) = len) /\
  (forall t' rt' n' g' a' k', token_ok t -> token_ok t' -> hash_ok rt -> hash_ok rt' -> u32_ok n -> u32_ok n' ->
     u64_ok g -> u64_ok g' -> long_ok s.(rsig_public_key) -> long_ok k' ->
     root_statement t rt n g s.(rsig_algorithm) s.(rsig_public_key) = root_statement t' rt' n' g' a' k' ->
     t = t' /\ rt = rt' /\ n = n' /\ g = g' /\ s.(rsig_algorithm) = a' /\ s.(rsig_public_key) = k') /\
  (forall w rt' seen_at a' k',
     root_statement t rt n g s.(rsig_algorithm) s.(rsig_public_key) <> witness_statement w rt' seen_at a' k').
Proof.
  unfold sign_root. destruct (is_validated signer); [|done]. cbn [negb]. unfold sign_root_unvalidated.
  destruct (signer_sign signer _) as [[sg|e] z] eqn:Es; [|done]. cbn [mbind result_bind].
  destruct (check_length _ sg) as [[]|e] eqn:El; [|done]. intros [= <- <-]. cbn [rsig_algorithm rsig_public_key rsig_signature].
  split; [done|]. split; [done|]. split; [|split].
  - intros len Hl. unfold check_length in El. rewrite Hl in El. by destruct (Nat.eqb_spec (length sg) len).
  - intros. by apply root_statement_inj.
  - intros. apply domains_differ.
Qed.

Module Sample.

(** A signer that answers 96 bytes and counts what it signed. *)
#[export] Instance counting_signer : Signer nat := {|
  signer_algorithm := fun _ => Es384;
  signer_public_key := fun _ => repeat x04 97;
  is_validated := fun _ => true;
  signer_sign := fun n _ => (Ok (repeat x05 96), S n);
|}.

Lemma signed_root_binds_its_statement_witness :
  length (repeat x05 96) = 96%nat /\
  (root_statement (MkToken (lit "acme")) Hash_ZERO 1 5 Es384 (repeat x04 97) <>
     witness_statement (lit "w") Hash_ZERO 5 Es384 (repeat x04 97)).
Proof.
  destruct (signed_root_binds_its_statement (H := counting_signer) 0%nat 1%nat (MkToken (lit "acme")) Hash_ZERO 1 5
    (MkRootSignature Es384 (repeat x04 97) (repeat x05 96)) eq_refl) as (_ & _ & H & _ & Hw).
  split; [apply H; reflexivity|apply Hw].
Defined.

End Sample.
