(* ===== verification/PackWriter.v ===== *)
(** * Writing an evidence pack ([trailryx-store/src/evidence.rs])

    The builder, the bytes it writes and the manifest's own encoding with its
    decoder. The writer and the reader of [PackFormat] share no code in the
    source and share none here: that one reads what the other writes is proved. *)

From S2P Require Import Prelude Bytes Ids Record Codec Digest Merkle Completeness Segment Wire WireRecord PackFormat Sign.

Definition WRITER_MAGIC : list byte := lit "TRXEVID".
Definition WRITER_VERSION : Z := 3.

Definition ANCHOR_TSP : Z := 1.
Definition ANCHOR_TRANSPARENCY_LOG : Z := 2.
Definition ANCHOR_SIGNED_ARTIFACT : Z := 3.

Record AnchorPart := MkAnchorPart {
  ap_kind : byte; ap_authority : str; ap_algorithm : str; ap_root : Hash;
  ap_challenge : list byte; ap_evidence : list byte }.

Record ShardPart := MkShardPart {
  sp_shard : Z; sp_root : Hash; sp_segments : list (SegmentManifest * list (list byte)) }.

Record PackBuilder := MkBuilder {
  pb_tenant : TenantId;
  pb_generated_at : Timestamp;
  pb_signature : option RootSignature;
  pb_witnesses : list WitnessAttestation;
  pb_anchors : list AnchorPart;
  pb_shards : list ShardPart;
}.

(** ** The builder's methods *)

Definition builder_new (tenant : TenantId) (generated_at : Timestamp) : PackBuilder :=
  MkBuilder tenant generated_at None [] [] [].

Definition signed_with (b : PackBuilder) (s : RootSignature) : PackBuilder :=
  MkBuilder b.(pb_tenant) b.(pb_generated_at) (Some s) b.(pb_witnesses) b.(pb_anchors) b.(pb_shards).

Definition witnessed_by (b : PackBuilder) (w : WitnessAttestation) : PackBuilder :=
  MkBuilder b.(pb_tenant) b.(pb_generated_at) b.(pb_signature) (b.(pb_witnesses) ++ [w])
    b.(pb_anchors) b.(pb_shards).

Definition anchored (b : PackBuilder) (kind : byte) (authority algorithm : str) (root_ : Hash)
    (challenge evidence : list byte) : PackBuilder :=
  MkBuilder b.(pb_tenant) b.(pb_generated_at) b.(pb_signature) b.(pb_witnesses)
    (b.(pb_anchors) ++ [MkAnchorPart kind authority algorithm root_ challenge evidence]) b.(pb_shards).

Definition anchored_by (b : PackBuilder) (authority : str) (root_ : Hash) (nonce : Z)
    (token : list byte) : PackBuilder :=
  anchored b (u8 ANCHOR_TSP) authority [] root_ (to_be_bytes 8 nonce) token.

Definition add_shard `{Digest} (b : PackBuilder) (tree : ShardTree) (segments : list Segment) : PackBuilder :=
  MkBuilder b.(pb_tenant) b.(pb_generated_at) b.(pb_signature) b.(pb_witnesses) b.(pb_anchors)
    (b.(pb_shards) ++ [MkShardPart tree.(st_shard) (shard_root_of tree)
       (map (fun s => (s.(manifest), map encode_record s.(records))) segments)]).

(** ** The bytes *)

Definition section (kind : Z) (body : list byte) : list byte :=
  [u8 kind] ++ to_be_bytes 8 (Z.of_nat (length body)) ++ body.

(** [(b.len() as u32).to_be_bytes()], then [b]. *)
Definition w_bytes (b : list byte) : list byte := to_be_bytes 4 (Z.of_nat (length b)) ++ b.
Definition w_str (s : str) : list byte := w_bytes s.

Definition pack_algorithm_code (m : SegmentManifest) : AlgCodes :=
  (u8 match m.(m_algorithms).(a_hash) with Sha384_alg => 1 end,
   u8 match m.(m_algorithms).(a_signature) with Es256 => 1 | MlDsa65 => 2 | SlhDsa => 3 | Es384 => 4 end,
   u8 match m.(m_algorithms).(a_kem) with X25519MlKem768 => 1 end).

Definition encode_manifest (m : SegmentManifest) : list byte :=
  to_be_bytes 2 m.(format_version) ++ to_be_bytes 8 m.(m_segment) ++ to_be_bytes 2 m.(m_shard)
  ++ to_be_bytes 8 m.(m_records) ++ m.(history_root) ++ m.(chain_before) ++ m.(chain_after)
  ++ to_be_bytes 8 (Z.of_nat (length m.(index_roots)))
  ++ concat (map (fun dr => w_str (lit (Dimension_as_str dr.1)) ++ dr.2) m.(index_roots))
  ++ to_be_bytes 8 m.(first_recorded_at) ++ to_be_bytes 8 m.(last_recorded_at)
  ++ alg_bytes (pack_algorithm_code m).

Definition builder_algorithms (b : PackBuilder) : AlgCodes :=
  default (u8 1, u8 1, u8 1)
    (s ← head b.(pb_shards); mr ← head s.(sp_segments); Some (pack_algorithm_code mr.1)).

Definition header_body (b : PackBuilder) (store_root_ : Hash) : list byte :=
  w_str b.(pb_tenant).(as_str) ++ to_be_bytes 8 b.(pb_generated_at) ++ store_root_
  ++ to_be_bytes 4 (Z.of_nat (length b.(pb_shards))) ++ alg_bytes (builder_algorithms b).

Definition signature_body (s : RootSignature) : list byte :=
  w_str (lit (SigAlg_as_str s.(rsig_algorithm))) ++ w_bytes s.(rsig_public_key) ++ w_bytes s.(rsig_signature).

Definition witness_body (a : WitnessAttestation) : list byte :=
  w_str a.(wa_witness) ++ to_be_bytes 8 a.(wa_seen_at) ++ w_str (lit (SigAlg_as_str a.(wa_algorithm)))
  ++ w_bytes a.(wa_public_key) ++ w_bytes a.(wa_signature).

Definition anchor_body (a : AnchorPart) : list byte :=
  [a.(ap_kind)] ++ w_str a.(ap_authority) ++ w_str a.(ap_algorithm) ++ a.(ap_root)
  ++ w_bytes a.(ap_challenge) ++ w_bytes a.(ap_evidence).

Definition shard_body (s : ShardPart) : list byte :=
  to_be_bytes 2 s.(sp_shard) ++ to_be_bytes 4 (Z.of_nat (length s.(sp_segments))) ++ s.(sp_root).

Definition records_body (m : SegmentManifest) (rs : list (list byte)) : list byte :=
  to_be_bytes 2 m.(m_shard) ++ to_be_bytes 8 m.(m_segment) ++ to_be_bytes 8 (Z.of_nat (length rs))
  ++ concat (map w_bytes rs).

Definition build_pack (b : PackBuilder) (store_root_ : Hash) : list byte :=
  WRITER_MAGIC ++ [u8 WRITER_VERSION]
  ++ section 1 (header_body b store_root_)
  ++ match b.(pb_signature) with Some s => section 5 (signature_body s) | None => [] end
  ++ concat (map (fun w => section 6 (witness_body w)) b.(pb_witnesses))
  ++ concat (map (fun a => section 7 (anchor_body a)) b.(pb_anchors))
  ++ concat (map (fun s => section 2 (shard_body s)) b.(pb_shards))
  ++ concat (map (fun s => concat (map (fun mr => section 3 (encode_manifest mr.1)
                                                  ++ section 4 (records_body mr.1 mr.2)) s.(sp_segments)))
               b.(pb_shards))
  ++ [u8 0].

(** [PackBuilder::build]: the store's root is in the header. *)
Definition pack_build `{Digest} (b : PackBuilder) (store : StoreTree) : list byte := build_pack b (store_root store).

(** ** The manifest read back from cold storage *)

Abbreviation Mr := (Reader unit).

Definition m_uint (n : nat) : Mr Z := s ← rd_take tt (Z.of_nat n); mret (from_be_bytes s).
Definition m_hash : Mr Hash := rd_take tt 48.
Definition m_str : Mr str :=
  len ← m_uint 4;
  s ← rd_take tt len;
  if valid_utf8 s then mret s else rd_fail tt.

Definition m_dimension : Mr Dimension :=
  name ← m_str;
  match find (fun d => bool_decide (lit (Dimension_as_str d) = name)) Dimension_ALL with
  | Some d => mret d
  | None => rd_fail tt
  end.

Definition m_index_root : Mr (Dimension * Hash) := d ← m_dimension; h ← m_hash; mret (d, h).

(** A byte matched against the codes of an enumeration. *)
Definition m_code {A} (codes : list (Z * A)) : Mr A :=
  v ← m_uint 1;
  match find (fun ca => ca.1 =? v) codes with Some ca => mret ca.2 | None => rd_fail tt end.

Definition m_manifest (total : Z) : Mr SegmentManifest :=
  format ← m_uint 2;
  segment_ ← m_uint 8;
  shard_ ← m_uint 2;
  records_ ← m_uint 8;
  history_ ← m_hash;
  before ← m_hash;
  after ← m_hash;
  count ← m_uint 8;
  if total / 52 <? count then rd_fail tt
  else
    roots ← get_items m_index_root (Z.to_nat count);
    first ← m_uint 8;
    last ← m_uint 8;
    h ← m_code [(1, Sha384_alg)];
    s ← m_code [(1, Es256); (2, MlDsa65); (3, SlhDsa); (4, Es384)];
    k ← m_code [(1, X25519MlKem768)];
    mret {| format_version := format; m_segment := segment_; m_shard := shard_; m_records := records_;
            history_root := history_; index_roots := roots; chain_before := before; chain_after := after;
            first_recorded_at := first; last_recorded_at := last;
            m_algorithms := {| a_hash := h; a_signature := s; a_kem := k |} |}.

Definition decode_manifest (bytes : list byte) : option SegmentManifest :=
  match m_manifest (Z.of_nat (length bytes)) bytes with
  | Ok (m, []) => Some m
  | _ => None
  end.

(** ** The manifest's encoding is a codec *)

Lemma m_u_codec n : codec (to_be_bytes n) (m_uint n) (fun v => 0 <= v < 256 ^ Z.of_nat n).
Proof. apply (be_codec tt n). Qed.
Lemma m_u16_codec : codec (to_be_bytes 2) (m_uint 2) u16_ok.
Proof. apply m_u_codec. Qed.
Lemma m_u32_codec : codec (to_be_bytes 4) (m_uint 4) u32_ok.
Proof. apply m_u_codec. Qed.
Lemma m_u64_codec : codec (to_be_bytes 8) (m_uint 8) u64_ok.
Proof. apply m_u_codec. Qed.

Lemma m_hash_codec : codec (fun h : Hash => h) m_hash hash_ok.
Proof.
  unfold hash_ok. split.
  - intros h rest Hh. apply rd_take_reads. by rewrite Hh.
  - intros bs h rest H. apply rd_take_sound in H as [-> Hl]; [|done]. unfold HASH_BYTES. split; [done|lia].
Qed.

#[export] Hint Resolve m_u16_codec m_u32_codec m_u64_codec m_hash_codec : codec.

Lemma m_str_codec : codec w_str m_str str_ok.
Proof.
  split.
  - intros s rest [Hs Hv]. unfold w_str, w_bytes, m_str. rewrite <- app_assoc. rd_read; [|done].
    unfold mbind, rd_bind. rewrite rd_take_reads by done. by rewrite Hv.
  - intros bs s rest H. unfold m_str in H. rd_found.
    apply rd_bind_ok in H as (s' & bs' & Hs & H). apply rd_take_sound in Hs as [-> Hl]; [|unfold u32_ok in *; lia].
    destruct (valid_utf8 s') eqn:Ev; [|done]. apply rd_ret_ok in H as [-> ->].
    unfold w_str, w_bytes, str_ok, short. rewrite Hl, <- app_assoc. done.
Qed.

Lemma dimension_str_ok d : str_ok (lit (Dimension_as_str d)).
Proof. destruct d; by_evaluation. Qed.

Lemma m_dimension_codec : codec (fun d => w_str (lit (Dimension_as_str d))) m_dimension (fun _ => True).
Proof.
  split.
  - intros d rest _. unfold m_dimension. rewrite (rd_bind_reads m_str_codec) by apply dimension_str_ok.
    by destruct d.
  - intros bs d rest H. unfold m_dimension in H. apply rd_bind_ok in H as (s & bs' & Hs & H).
    apply m_str_codec in Hs as [-> _].
    destruct (find _ Dimension_ALL) as [d'|] eqn:E; [|done]. apply rd_ret_ok in H as [-> ->].
    apply find_some in E as [_ E]. apply bool_decide_eq_true in E. by rewrite E.
Qed.

#[export] Hint Resolve m_dimension_codec : codec.

Lemma m_index_root_codec :
  codec (fun dr : Dimension * Hash => w_str (lit (Dimension_as_str dr.1)) ++ dr.2) m_index_root (fun dr => hash_ok dr.2).
Proof.
  split.
  - intros [d h] rest Hh. unfold m_index_root. cbn [fst snd] in *. rewrite <- app_assoc.
    rewrite (rd_bind_reads m_dimension_codec) by done. by rd_read.
  - intros bs dr rest H. unfold m_index_root in H. repeat rd_found. cbn [fst snd].
    by rewrite <- !app_assoc.
Qed.

Lemma m_code_codec {A} (codes : list (Z * A)) (code : A -> Z) :
  (forall a, find (fun ca => ca.1 =? code a) codes = Some (code a, a)) ->
  Forall (fun ca => code ca.2 = ca.1 /\ 0 <= ca.1 < 256) codes -> (forall a, 0 <= code a < 256) ->
  codec (fun a => [u8 (code a)]) (m_code codes) (fun _ => True).
Proof.
  intros Hf Hc Hr. split.
  - intros a rest _. unfold m_code. change [u8 (code a)] with (to_be_bytes 1 (code a)).
    rewrite (rd_bind_reads (m_u_codec 1)) by apply Hr. by rewrite Hf.
  - intros bs a rest H. unfold m_code in H. apply rd_bind_ok in H as (v & bs' & Hv & H).
    apply m_u_codec in Hv as [-> _]. destruct (find _ codes) as [[c a']|] eqn:E; [|done].
    apply rd_ret_ok in H as [<- ->]. apply find_some in E as [Hin E]. cbn in E. apply Z.eqb_eq in E as ->.
    apply list_elem_of_In in Hin. rewrite Forall_forall in Hc. destruct (Hc _ Hin) as [Ec _]. cbn in Ec |- *.
    by rewrite Ec.
Qed.

Definition hash_code (a : HashAlg) : Z := match a with Sha384_alg => 1 end.
Definition sig_code (a : SigAlg) : Z := match a with Es256 => 1 | MlDsa65 => 2 | SlhDsa => 3 | Es384 => 4 end.
Definition kem_code (a : KemAlg) : Z := match a with X25519MlKem768 => 1 end.

Ltac solve_code := apply m_code_codec; [by intros []|repeat constructor; done|by intros []].
Lemma m_hash_alg_codec : codec (fun a => [u8 (hash_code a)]) (m_code [(1, Sha384_alg)]) (fun _ => True).
Proof. solve_code. Qed.
Lemma m_sig_alg_codec :
  codec (fun a => [u8 (sig_code a)]) (m_code [(1, Es256); (2, MlDsa65); (3, SlhDsa); (4, Es384)]) (fun _ => True).
Proof. solve_code. Qed.
Lemma m_kem_alg_codec : codec (fun a => [u8 (kem_code a)]) (m_code [(1, X25519MlKem768)]) (fun _ => True).
Proof. solve_code. Qed.

#[export] Hint Resolve m_hash_alg_codec m_sig_alg_codec m_kem_alg_codec : codec.

Lemma alg_bytes_codes m :
  alg_bytes (pack_algorithm_code m) =
  [u8 (hash_code m.(m_algorithms).(a_hash))] ++ [u8 (sig_code m.(m_algorithms).(a_signature))]
  ++ [u8 (kem_code m.(m_algorithms).(a_kem))].
Proof. reflexivity. Qed.

Lemma index_roots_length (l : list (Dimension * Hash)) :
  Forall (fun dr => hash_ok dr.2) l ->
  (52 * length l <= length (concat (map (fun dr => w_str (lit (Dimension_as_str dr.1)) ++ dr.2) l)))%nat.
Proof.
  induction 1 as [|[d h] l Hh Hl IH]; [done|]. cbn [map concat length]. rewrite !length_app.
  unfold w_str, w_bytes. rewrite length_app, length_to_be_bytes. unfold hash_ok, HASH_BYTES in Hh. cbn [snd] in Hh |- *.
  unfold w_str, w_bytes in IH. lia.
Qed.

Lemma m_manifest_reads m total rest :
  manifest_ok m -> Z.of_nat (length (encode_manifest m)) <= total ->
  m_manifest total (encode_manifest m ++ rest) = Ok (m, rest).
Proof.
  intros [] Ht. pose proof (index_roots_length _ ok_roots) as Hr.
  unfold encode_manifest in Ht. rewrite !length_app in Ht.
  unfold m_manifest, encode_manifest. rewrite alg_bytes_codes, <- !app_assoc.
  do 8 (rd_read; [|done]).
  destruct (Z.ltb_spec (total / 52) (Z.of_nat (length (index_roots m)))) as [Hlt|_].
  { exfalso. apply Z.lt_nge in Hlt. apply Hlt, Z.div_le_lower_bound; lia. }
  rewrite Nat2Z.id, (rd_bind_reads (items_codec _ m_index_root_codec)) by done.
  do 2 (rd_read; [|done]). rewrite (rd_bind_reads m_hash_alg_codec) by done.
  rewrite (rd_bind_reads m_sig_alg_codec) by done. rewrite (rd_bind_reads m_kem_alg_codec) by done.
  by destruct m as [? ? ? ? ? ? ? ? ? ? []].
Qed.

Lemma m_manifest_sound total bs m rest :
  m_manifest total bs = Ok (m, rest) -> bs = encode_manifest m ++ rest /\ manifest_ok m.
Proof.
  intros H. unfold m_manifest in H. do 8 rd_found.
  match type of H with context [?a <? ?b] => destruct (a <? b) eqn:? end; [done|].
  apply rd_bind_ok in H as (roots & bs' & Hr & H). apply (items_codec _ m_index_root_codec) in Hr as [-> [Hl Hw]].
  unfold u64_ok in *. repeat rd_found. unfold encode_manifest. rewrite alg_bytes_codes, <- !app_assoc.
  cbn [format_version m_segment m_shard m_records history_root index_roots chain_before chain_after
       first_recorded_at last_recorded_at m_algorithms a_hash a_signature a_kem].
  rewrite Hl, Z2Nat.id by lia. split; [done|]. split; try done. cbn. unfold u64_ok. rewrite Hl. lia.
Qed.

(** ** The pack a builder describes *)

Definition segment_of (m : SegmentManifest) : PackSegment :=
  MkPackSegment m.(format_version) m.(m_segment) m.(m_shard) m.(m_records) m.(history_root)
    (map (fun dr => (lit (Dimension_as_str dr.1), dr.2)) m.(index_roots)) m.(chain_before) m.(chain_after)
    m.(first_recorded_at) m.(last_recorded_at) (pack_algorithm_code m).
Definition set_of (mr : SegmentManifest * list (list byte)) : RecordSet :=
  MkRecordSet mr.1.(m_shard) mr.1.(m_segment) mr.2.
Definition shard_part (s : ShardPart) : PackShard :=
  MkPackShard s.(sp_shard) (Z.of_nat (length s.(sp_segments))) s.(sp_root).
Definition signature_part (s : RootSignature) : PackSignature :=
  MkPackSignature (lit (SigAlg_as_str s.(rsig_algorithm))) s.(rsig_public_key) s.(rsig_signature).
Definition witness_part (w : WitnessAttestation) : PackWitness :=
  MkPackWitness w.(wa_witness) w.(wa_seen_at) (lit (SigAlg_as_str w.(wa_algorithm))) w.(wa_public_key)
    w.(wa_signature).
Definition anchor_part (a : AnchorPart) : Anchor :=
  MkAnchor (from_code a.(ap_kind)) a.(ap_authority) a.(ap_algorithm) a.(ap_root) a.(ap_challenge) a.(ap_evidence).
Definition header_part (b : PackBuilder) (root_ : Hash) : PackHeader :=
  MkPackHeader b.(pb_tenant).(as_str) b.(pb_generated_at) root_ (Z.of_nat (length b.(pb_shards)))
    (builder_algorithms b).

Definition builder_segments (b : PackBuilder) : list (SegmentManifest * list (list byte)) :=
  concat (map sp_segments b.(pb_shards)).

Definition pack_of (b : PackBuilder) (root_ : Hash) : Pack :=
  MkPack (header_part b root_) (signature_part <$> b.(pb_signature)) (map witness_part b.(pb_witnesses))
    (map anchor_part b.(pb_anchors)) (map shard_part b.(pb_shards))
    (map (fun mr => segment_of mr.1) (builder_segments b)) (map set_of (builder_segments b)).

Definition segment_parts (mr : SegmentManifest * list (list byte)) : list PackPart :=
  [PSegment (segment_of mr.1); PRecords (set_of mr)].

Definition parts_of (b : PackBuilder) (root_ : Hash) : list PackPart :=
  [PHeader (header_part b root_)]
  ++ match b.(pb_signature) with Some s => [PSignature (signature_part s)] | None => [] end
  ++ map (fun w => PWitness (witness_part w)) b.(pb_witnesses)
  ++ map (fun a => PAnchor (anchor_part a)) b.(pb_anchors)
  ++ map (fun s => PShard (shard_part s)) b.(pb_shards)
  ++ concat (map segment_parts (builder_segments b)).

Record builder_ok (b : PackBuilder) (root_ : Hash) : Prop := {
  ok_b_sections : Forall section_ok (parts_of b root_);
  ok_b_shards : NoDup (map sp_shard b.(pb_shards));
  ok_b_segments : NoDup (map (fun mr => (mr.1.(m_shard), mr.1.(m_segment))) (builder_segments b));
  ok_b_anchors : NoDup (map (fun a => (a.(ap_authority), from_code a.(ap_kind), a.(ap_challenge))) b.(pb_anchors));
}.

#[export] Instance builder_ok_dec b root_ : Decision (builder_ok b root_).
Proof. decide_record. Defined.

Lemma put_segment_of m : put_segment (segment_of m) = encode_manifest m.
Proof.
  unfold put_segment, segment_of, encode_manifest. cbn [psg_format_version psg_segment psg_shard psg_records
    psg_history_root psg_index_roots psg_chain_before psg_chain_after psg_first_recorded_at
    psg_last_recorded_at psg_algorithms].
  rewrite length_map, map_map. reflexivity.
Qed.

Lemma segment_sections mr :
  concat (map put_section (segment_parts mr)) = section 3 (encode_manifest mr.1) ++ section 4 (records_body mr.1 mr.2).
Proof.
  unfold segment_parts, put_section. cbn [map concat put_part part_kind]. rewrite put_segment_of, app_nil_r. reflexivity.
Qed.

Lemma anchor_section a : put_section (PAnchor (anchor_part a)) = section 7 (anchor_body a).
Proof.
  unfold put_section. cbn [put_part part_kind]. unfold put_anchor, anchor_part.
  cbn [an_kind an_authority an_algorithm an_root an_challenge an_evidence]. rewrite kind_code_from. reflexivity.
Qed.

Lemma concat_map_concat {A B C} (f : B -> list C) (g : A -> list B) (l : list A) :
  concat (map f (concat (map g l))) = concat (map (fun a => concat (map f (g a))) l).
Proof. induction l as [|a l IH]; [done|]. cbn. by rewrite map_app, concat_app, IH. Qed.

Lemma segments_sections (shs : list ShardPart) :
  concat (map put_section (concat (map segment_parts (concat (map sp_segments shs))))) =
  concat (map (fun s => concat (map (fun mr => section 3 (encode_manifest mr.1)
                                                ++ section 4 (records_body mr.1 mr.2)) s.(sp_segments))) shs).
Proof.
  rewrite concat_map_concat, concat_map_concat. f_equal. apply map_ext. intros s. f_equal.
  apply map_ext. intros mr. apply segment_sections.
Qed.

Lemma build_parts b root_ : build_pack b root_ = put_pack WRITER_VERSION (parts_of b root_) [].
Proof.
  unfold build_pack, put_pack, parts_of, builder_segments. rewrite !map_app, !concat_app, segments_sections.
  rewrite !map_map. rewrite (map_ext _ _ anchor_section), <- !app_assoc. do 2 f_equal.
  cbn [map concat]. rewrite app_nil_r. f_equal. f_equal.
  by destruct (pb_signature b) as [s|]; cbn [map concat]; rewrite ?app_nil_r.
Qed.

(** ** The reader sees it *)

Lemma omap_map {A B C} (f : B -> option C) (g : A -> B) l : omap f (map g l) = omap (fun a => f (g a)) l.
Proof. induction l as [|a l IH]; [done|]. cbn. by rewrite IH. Qed.
Lemma omap_none {A B} (l : list A) : omap (fun _ => @None B) l = [].
Proof. by induction l. Qed.
Lemma omap_some {A B} (f : A -> B) l : omap (fun a => Some (f a)) l = map f l.
Proof. induction l as [|a l IH]; [done|]. cbn. by f_equal. Qed.
Lemma omap_concat {A B C} (f : B -> option C) (g : A -> list B) l :
  omap f (concat (map g l)) = concat (map (fun a => omap f (g a)) l).
Proof. induction l as [|a l IH]; [done|]. cbn. by rewrite omap_app, IH. Qed.
Lemma concat_nils {A B} (l : list A) : concat (map (fun _ => @nil B) l) = [].
Proof. by induction l. Qed.
Lemma concat_ones {A B} (f : A -> B) l : concat (map (fun a => [f a]) l) = map f l.
Proof. induction l as [|a l IH]; [done|]. cbn. by f_equal. Qed.

Lemma gather_parts b root_ :
  gather no_parts (parts_of b root_) =
  MkParts (Some (header_part b root_)) (signature_part <$> b.(pb_signature)) (map witness_part b.(pb_witnesses))
    (map anchor_part b.(pb_anchors)) (map shard_part b.(pb_shards))
    (map (fun mr => segment_of mr.1) (builder_segments b)) (map set_of (builder_segments b)).
Proof.
  unfold gather, parts_of, headers_in, signatures_in, witnesses_in, anchors_in, shards_in, segments_in, sets_in.
  rewrite !omap_app, !omap_map, !omap_concat. cbn beta iota zeta delta [segment_parts omap list_omap].
  rewrite ?omap_none, ?omap_some, ?concat_nils, ?concat_ones.
  destruct (pb_signature b); cbn; by rewrite ?app_nil_r.
Qed.

Lemma map_key_eq {A B K} (f : A -> B) (key : B -> K) (key' : A -> K) l :
  (forall a, key (f a) = key' a) -> map key (map f l) = map key' l.
Proof. intros H. rewrite map_map. by apply map_ext. Qed.

Lemma built_pack_parses b root_ : builder_ok b root_ -> Pack_parse (build_pack b root_) = Ok (pack_of b root_).
Proof.
  intros []. rewrite build_parts, parse_reads by (done || by split). rewrite add_parts_gather.
  - rewrite gather_parts. reflexivity.
  - rewrite gather_parts. split; cbn [pt_shards pt_segments pt_record_sets pt_anchors].
    + by rewrite (map_key_eq _ _ sp_shard).
    + by rewrite (map_key_eq _ _ (fun mr => (m_shard mr.1, m_segment mr.1))).
    + by rewrite (map_key_eq _ _ (fun mr => (m_shard mr.1, m_segment mr.1))).
    + by rewrite (map_key_eq _ _ (fun a => (a.(ap_authority), from_code a.(ap_kind), a.(ap_challenge)))).
Qed.

Lemma decode_manifest_iff bs m : decode_manifest bs = Some m <-> bs = encode_manifest m /\ manifest_ok m.
Proof.
  unfold decode_manifest. split.
  - destruct (m_manifest _ bs) as [[m' [|? ?]]|e] eqn:E; try done. intros [= ->].
    apply m_manifest_sound in E as [-> Hm]. by rewrite app_nil_r.
  - intros [-> Hm]. pose proof (m_manifest_reads m (Z.of_nat (length (encode_manifest m))) [] Hm ltac:(lia)) as E.
    rewrite app_nil_r in E. by rewrite E.
Qed.

(** A pack reads as it was written. Whatever a builder was given, its shards,
    segments, records, signature, witnesses and anchors, the reader gives back from
    the bytes the builder writes: every field, in the order it was added. *)
Theorem pack_roundtrip `{D : Digest} (b : PackBuilder) (st : StoreTree) :
  builder_ok b (store_root st) -> Pack_parse (pack_build b st) = Ok (pack_of b (store_root st)).
Proof. apply built_pack_parses. Qed.

(** The manifest's encoding. The bytes a manifest is kept in decode to it and
    to nothing else: [decode_manifest] accepts exactly the encodings of manifests
    whose fields are in range, each as the manifest it encodes. *)
Theorem manifest_codec (bytes : list byte) (m : SegmentManifest) :
  decode_manifest bytes = Some m <-> bytes = encode_manifest m /\ manifest_ok m.
Proof. apply decode_manifest_iff. Qed.

Module Sample.

Definition manifest : SegmentManifest := {|
  format_version := 1; m_segment := 3; m_shard := 2; m_records := 5; history_root := repeat x01 48;
  index_roots := [(DAgentId, repeat x02 48); (DRunId, repeat x03 48)]; chain_before := repeat x04 48;
  chain_after := repeat x05 48; first_recorded_at := 10; last_recorded_at := 20;
  m_algorithms := Algorithms_default |}.

Definition builder : PackBuilder :=
  MkBuilder (MkToken (lit "acme")) 7 (Some (MkRootSignature Es384 (repeat x02 97) (repeat x03 96)))
    [MkAttestation (lit "w1") 9 Es256 (repeat x04 65) (repeat x05 64)]
    [MkAnchorPart x01 (lit "tsa") [] (repeat x06 48) (to_be_bytes 8 77) (lit "token")]
    [MkShardPart 2 (repeat x08 48) [(manifest, [lit "one"; lit "two"])]].

End Sample.

Lemma pack_roundtrip_witness :
  Pack_parse (@pack_build Register_Digest Sample.builder (MkStore [] tree_new)) =
    Ok (pack_of Sample.builder (@store_root Register_Digest (MkStore [] tree_new))).
Proof. apply (pack_roundtrip (D := Register_Digest) Sample.builder (MkStore [] tree_new)). by_evaluation. Defined.

Lemma manifest_codec_witness : decode_manifest (encode_manifest Sample.manifest) = Some Sample.manifest.
Proof. apply (manifest_codec (encode_manifest Sample.manifest) Sample.manifest). split; [reflexivity|by_evaluation]. Defined.
