(* ===== verification/VerifyRecord.v ===== *)
(** * The verifier's partial record reader ([trailryx-verify/src/record.rs])

    [fields] walks a canonical record and keeps six of its fields. It shares
    nothing with the journal's decoder: its varints are lenient, a presence byte
    other than 1 means absent, and it stops after the sequence number. On the
    bytes the journal writes the two agree. *)

From S2P Require Import Prelude Bytes Ids Record Codec Wire WireRecord Frame Completeness PackFormat.

Record Fields := MkFields {
  fd_id : Z;
  fd_recorded_at : Z;
  fd_agent_id : str;
  fd_run_id : str;
  fd_event_type : byte;
  fd_seq : Z;
}.

#[export] Instance Fields_eq_dec : EqDecision Fields.
Proof. solve_decision. Defined.

(** ** The cursor *)

Definition cur_byte : Pr byte := fun bs =>
  match bs with [] => Err (PackTruncated "a record") | b :: bs' => Ok (b, bs') end.

Definition cur_take (n : Z) : Pr (list byte) := rd_take (PackTruncated "a record") n.

(** The loop of [varint]: bits shifted past the 64th are lost, and the tenth
    group is the last whose shift is below 64. *)
Fixpoint cur_varint_loop (shift value : Z) (bs : list byte) : result PackError (Z * list byte) :=
  match bs with
  | [] => Err (PackTruncated "a record")
  | b :: bs' =>
      if 64 <=? shift then Err (PackTruncated "a varint")
      else
        let value := Z.lor value (as_u64 (Z.shiftl (Z.land (u8v b) 0x7f) shift)) in
        if Z.land (u8v b) 0x80 =? 0 then Ok (value, bs') else cur_varint_loop (shift + 7) value bs'
  end.
Definition cur_varint : Pr Z := cur_varint_loop 0 0.

Definition cur_zigzag : Pr Z :=
  v ← cur_varint; mret (Z.lxor (as_i64 (Z.shiftr v 1)) (- as_i64 (Z.land v 1))).

Definition cur_bytes : Pr (list byte) := len ← cur_varint; cur_take len.

Definition cur_string : Pr str :=
  b ← cur_bytes;
  if valid_utf8 b then mret b else rd_fail (PackNotUtf8 "a record field").

Definition cur_u128 : Pr Z := b ← cur_take 16; mret (from_be_bytes b).
Definition cur_hash : Pr unit := _ ← cur_take 48; mret tt.

(** [.map(|_| ())]. *)
Definition ignore {A} (f : Pr A) : Pr unit := _ ← f; mret tt.

Definition cur_opt (f : Pr unit) : Pr unit :=
  b ← cur_byte;
  if u8v b =? 1 then f else mret tt.

Definition cur_seq (f : Pr unit) : Pr unit :=
  n ← cur_varint;
  _ ← get_items f (Z.to_nat n);
  mret tt.

Definition fields_reader : Pr Fields :=
  id ← cur_u128;
  _ ← cur_bytes;
  _ ← cur_varint;
  agent ← cur_string;
  run ← cur_string;
  _ ← cur_opt (ignore cur_bytes);
  _ ← cur_seq (ignore cur_bytes);
  _ ← cur_varint;
  _ ← cur_opt (ignore cur_varint);
  recorded ← cur_varint;
  _ ← cur_opt (ignore cur_varint);
  _ ← cur_opt (ignore cur_varint);
  event ← cur_byte;
  _ ← cur_byte;
  _ ← cur_opt (ignore cur_bytes);
  _ ← cur_opt (ignore cur_zigzag);
  _ ← cur_opt cur_hash;
  _ ← cur_opt (ignore cur_bytes);
  _ ← cur_opt (ignore cur_varint);
  _ ← cur_opt (ignore cur_varint);
  _ ← cur_opt cur_hash;
  _ ← cur_seq (ignore cur_bytes);
  _ ← cur_seq (ignore cur_bytes);
  _ ← cur_seq (ignore cur_u128);
  _ ← cur_opt (ignore cur_byte);
  _ ← cur_opt (ignore cur_byte);
  _ ← cur_opt (ignore cur_varint);
  _ ← cur_opt (ignore cur_varint);
  _ ← cur_opt (ignore cur_varint);
  _ ← cur_opt (ignore cur_zigzag);
  _ ← cur_opt (_ ← cur_hash; _ ← cur_varint; _ ← cur_byte; cur_hash);
  seq_ ← cur_varint;
  mret (MkFields id recorded agent run event seq_).

Definition fields (bytes : list byte) : result PackError Fields := fst <$> fields_reader bytes.

Definition key_for (dim : str) (f : Fields) : option (list byte) :=
  if bool_decide (dim = lit "id") then Some (to_be_bytes 16 f.(fd_id))
  else if bool_decide (dim = lit "recorded_at") then Some (to_be_bytes 8 f.(fd_recorded_at))
  else if bool_decide (dim = lit "agent_id") then Some f.(fd_agent_id)
  else if bool_decide (dim = lit "run_id") then Some f.(fd_run_id)
  else if bool_decide (dim = lit "event_type") then Some [f.(fd_event_type)]
  else None.

(** ** Reading what the journal wrote *)

(** [reads put get f wf]: what [put] wrote is read as its image under [f]. *)
Definition reads {A B} (put : A -> list byte) (get : Pr B) (f : A -> B) (wf : A -> Prop) : Prop :=
  forall a rest, wf a -> get (put a ++ rest) = Ok (f a, rest).

Lemma bind_read {A B C} {put : A -> list byte} {get : Pr B} {f wf} (k : B -> Pr C) a rest :
  reads put get f wf -> wf a -> (get ≫= k) (put a ++ rest) = k (f a) rest.
Proof. intros R Ha. unfold mbind, rd_bind. by rewrite R. Qed.

(** The strict varint reader accepts nothing the lenient one reads otherwise. *)
Lemma lenient_varint bs g out v rest :
  0 <= g -> get_varint_loop g (7 * g) out bs = Ok (v, rest) -> cur_varint_loop (7 * g) out bs = Ok (v, rest).
Proof.
  revert g out; induction bs as [|b bs IH]; intros g out Hg H; [done|].
  cbn [get_varint_loop cur_varint_loop] in *.
  destruct (Z.ltb_spec 10 (g + 1)) as [|Hle]; [done|]. cbn [orb] in H.
  destruct (Z.leb_spec 64 (7 * g)) as [|_]; [lia|].
  destruct (_ && _) in H; [done|]. destruct (Z.land (u8v b) 0x80 =? 0).
  - destruct (_ && _) in H; [done|]. by injection H as -> ->.
  - replace (7 * g + 7) with (7 * (g + 1)) in * by lia. apply IH; [lia|exact H].
Qed.

Lemma read_varint : reads put_varint cur_varint (fun v => v) u64_ok.
Proof.
  intros v rest Hv. apply (lenient_varint _ 0); [lia|]. by apply (codec_reads varint_codec).
Qed.

Lemma read_byte {A} (code : A -> Z) : reads (disc_put code) cur_byte (fun a => u8 (code a)) (fun _ => True).
Proof. by intros a rest _. Qed.

Lemma read_u128 : reads put_u128 cur_u128 (fun v => v) u128_ok.
Proof.
  intros v rest Hv. unfold cur_u128, cur_take, put_u128, mbind, rd_bind.
  rewrite rd_take_reads by (by rewrite length_to_be_bytes). unfold mret, rd_ret.
  by rewrite from_to_be_bytes by exact Hv.
Qed.

Lemma read_hash : reads put_hash cur_hash (fun _ => tt) hash_ok.
Proof.
  intros h rest Hh. unfold cur_hash, cur_take, put_hash, mbind, rd_bind. by rewrite rd_take_reads by (by rewrite Hh).
Qed.

(** A byte string short enough for its length to be a [u64]. *)
Definition len_ok (b : list byte) : Prop := u64_ok (Z.of_nat (length b)).

Lemma read_bytes : reads put_bytes cur_bytes (fun b => b) len_ok.
Proof.
  intros b rest Hb. unfold cur_bytes, put_bytes. rewrite <- app_assoc.
  rewrite (bind_read _ _ _ read_varint) by done. by apply rd_take_reads.
Qed.

Lemma read_string : reads put_str cur_string (fun s => s) (fun s => len_ok s /\ valid_utf8 s = true).
Proof.
  intros s rest [Hl Hv]. unfold cur_string, put_str. rewrite (bind_read _ _ _ read_bytes) by done. by rewrite Hv.
Qed.

Definition ascii_spec (sp : TokenSpec) : Prop := ascii_set sp.(allowed) /\ (sp.(MAX_BYTES) <= 255)%nat.

Lemma token_len {sp} (t : Token sp) : ascii_spec sp -> token_ok t -> len_ok t.(as_str) /\ valid_utf8 t.(as_str) = true.
Proof.
  intros [Ha Hm] Ht. destruct (token_ok_inv t Ha Ht) as [Hl Hv]. split; [|done]. unfold len_ok, u64_ok. lia.
Qed.

Lemma read_token_bytes sp : ascii_spec sp -> reads (@put_token sp) cur_bytes as_str token_ok.
Proof. intros Hs t rest Ht. apply read_bytes. by apply token_len. Qed.
Lemma read_token_string sp : ascii_spec sp -> reads (@put_token sp) cur_string as_str token_ok.
Proof. intros Hs t rest Ht. apply read_string. by apply token_len. Qed.

Lemma read_zigzag : reads put_varint_i64 (ignore cur_zigzag) (fun _ => tt) i64_ok.
Proof.
  intros v rest Hv. unfold ignore, cur_zigzag, put_varint_i64, mbind, rd_bind at 1 2.
  unfold mbind, rd_bind. rewrite read_varint by apply as_u64_ok. done.
Qed.

Lemma read_ignore {A B} {put : A -> list byte} {get : Pr B} {f wf} :
  reads put get f wf -> reads put (ignore get) (fun _ => tt) wf.
Proof. intros R a rest Ha. unfold ignore. by rewrite (bind_read _ _ _ R). Qed.

Lemma read_opt {A} {put : A -> list byte} {get wf} :
  reads put get (fun _ => tt) wf -> reads (put_opt put) (cur_opt get) (fun _ => tt) (opt_ok wf).
Proof.
  intros R [a|] rest Ha; unfold put_opt, cur_opt, put_u8; cbn [app]; unfold mbind, rd_bind; cbn [cur_byte].
  - rewrite u8v_u8_small by lia. by apply R.
  - by rewrite u8v_u8_small by lia.
Qed.

Lemma read_items {A} {put : A -> list byte} {get wf} l rest :
  reads put get (fun _ => tt) wf -> Forall wf l ->
  exists us, get_items get (length l) (concat (map put l) ++ rest) = Ok (us, rest).
Proof.
  intros R. induction 1 as [|a l Ha Hl [us IH]]; [by exists []|]. cbn [map concat length get_items].
  rewrite <- app_assoc. rewrite (bind_read _ _ _ R) by done.
  exists (tt :: us). unfold mbind, rd_bind. by rewrite IH.
Qed.

(** The lists of a record are [Vec]s: their lengths are [u64]s. *)
Definition vec_wf {A} (wf : A -> Prop) (l : list A) : Prop := u64_ok (Z.of_nat (length l)) /\ Forall wf l.

Lemma read_seq {A} {put : A -> list byte} {get wf} :
  reads put get (fun _ => tt) wf ->
  reads (put_seq put) (cur_seq get) (fun _ => tt) (vec_wf wf).
Proof.
  intros R l rest [Hn Hl]. unfold put_seq, cur_seq. rewrite <- app_assoc.
  rewrite (bind_read _ _ _ read_varint) by done. rewrite Nat2Z.id.
  destruct (read_items l rest R Hl) as [us E]. unfold mbind, rd_bind. by rewrite E.
Qed.

Lemma read_payload :
  reads put_payload (_ ← cur_hash; _ ← cur_varint; _ ← cur_byte; cur_hash) (fun _ => tt) payload_ok.
Proof.
  intros p rest []. unfold put_payload. rewrite <- !app_assoc. rewrite (bind_read _ _ _ read_hash) by done.
  rewrite (bind_read _ _ _ read_varint) by done. rewrite (bind_read _ _ _ (read_byte _)) by done.
  by apply read_hash.
Qed.

(** ** The fields of a written record *)

Definition fields_of (r : Record_) : Fields :=
  MkFields r.(r_id) r.(recorded_at) r.(agent_id).(as_str) r.(run_id).(as_str)
    (u8 (event_type_code r.(event_type))) r.(seq).

(** The lists of a record are [Vec]s. *)
Record vecs_ok (r : Record_) : Prop := {
  ok_v_behalf : u64_ok (Z.of_nat (length r.(on_behalf_of)));
  ok_v_tools : u64_ok (Z.of_nat (length r.(basis).(tool_manifest)));
  ok_v_chain : u64_ok (Z.of_nat (length r.(basis).(identity_chain)));
  ok_v_caused : u64_ok (Z.of_nat (length r.(caused_by)));
}.

#[export] Instance vecs_ok_dec r : Decision (vecs_ok r).
Proof. decide_record. Defined.

Lemma lists_vecs_ok r : lists_ok r -> vecs_ok r.
Proof. intros []. unfold MAX_BODY_BYTES in *. split; unfold u64_ok; lia. Qed.

Lemma segment_spec sp : sp.(allowed) = segment_char -> (sp.(MAX_BYTES) <= 255)%nat -> ascii_spec sp.
Proof. intros E Hm. split; [rewrite E; exact segment_char_ascii|done]. Qed.
Lemma uri_spec sp : sp.(allowed) = uri_char -> (sp.(MAX_BYTES) <= 255)%nat -> ascii_spec sp.
Proof. intros E Hm. split; [rewrite E; exact uri_char_ascii|done]. Qed.
Lemma model_spec sp : sp.(allowed) = model_char -> (sp.(MAX_BYTES) <= 255)%nat -> ascii_spec sp.
Proof. intros E Hm. split; [rewrite E; exact model_char_ascii|done]. Qed.

Create HintDb cur.
#[export] Hint Resolve read_varint read_byte read_u128 read_hash read_zigzag read_payload read_ignore
  read_opt read_seq read_token_bytes read_token_string : cur.
#[export] Hint Extern 1 (ascii_spec _) =>
  first [apply segment_spec; [reflexivity|cbn; lia] | apply uri_spec; [reflexivity|cbn; lia]
        | apply model_spec; [reflexivity|cbn; lia]] : cur.

Lemma read_untrusted : reads put_untrusted cur_varint as_untrusted (fun v => u64_ok (as_untrusted v)).
Proof. intros v rest Hv. by apply read_varint. Qed.

#[export] Hint Resolve read_untrusted : cur.

Lemma u16_u64 z : u16_ok z -> u64_ok z.
Proof. unfold u16_ok, u64_ok. lia. Qed.
Lemma u32_u64 z : u32_ok z -> u64_ok z.
Proof. unfold u32_ok, u64_ok. lia. Qed.
Lemma opt_ok_impl {A} (P Q : A -> Prop) o : (forall a, P a -> Q a) -> opt_ok P o -> opt_ok Q o.
Proof. destruct o; cbn; eauto. Qed.
Lemma opt_ok_any {A} (o : option A) : opt_ok (fun _ => True) o.
Proof. by destruct o. Qed.

Lemma vec_wf_intro {A} (wf : A -> Prop) l : u64_ok (Z.of_nat (length l)) -> Forall wf l -> vec_wf wf l.
Proof. by split. Qed.

Create HintDb width.
#[export] Hint Resolve u16_u64 u32_u64 opt_ok_any vec_wf_intro I : width.
#[export] Hint Extern 2 (opt_ok u64_ok _) => eapply opt_ok_impl; [|eassumption] : width.

(** One reading step: the value, and that its type bounds it. *)
Ltac cur_step :=
  erewrite bind_read; [|solve [eauto with cur nocore]|solve [cbv beta; eauto with width nocore]].

Lemma fields_reads r rest :
  record_ok r -> vecs_ok r ->
  exists rest', fields_reader (encode_fields r ++ rest) = Ok (fields_of r, rest').
Proof.
  intros [] []. destruct ok_basis, ok_outcome.
  unfold encode_fields. cbv zeta. rewrite <- !app_assoc. unfold fields_reader. eexists.
  repeat cur_step. unfold mret, rd_ret. reflexivity.
Qed.

Lemma fields_encode r : record_ok r -> vecs_ok r -> fields (encode_record r) = Ok (fields_of r).
Proof.
  intros Hr Hv. unfold fields, encode_record.
  destruct (fields_reads r (put_opt put_delegation r.(basis).(delegation_proof)) Hr Hv) as [rest' E].
  by rewrite E.
Qed.

Lemma key_for_of d r : key_for (lit (Dimension_as_str d)) (fields_of r) = Some (key_of d r).
Proof. destruct d; [reflexivity..|]. unfold fields_of, key_for, key_of. cbn. by destruct (event_type r). Qed.

(** The verifier reads what the journal writes. From the bytes of any record
    within the body limit, the verifier's own reader takes the id, the time, the
    agent, the run, the event's code and the sequence number that were written,
    and rebuilds in every dimension exactly the key the index holds the record
    under; and these are bytes the journal's decoder reads as the record itself. *)
Theorem verifier_reads_journal_records (r : Record_) :
  record_ok r -> body_fits (encode_record r) ->
  fields (encode_record r) = Ok (fields_of r) /\
  (forall d, key_for (lit (Dimension_as_str d)) (fields_of r) = Some (key_of d r)) /\
  decode_record (encode_record r) = Ok r.
Proof.
  intros Hr Hb. pose proof (body_lists_ok _ Hb) as Hl. split; [by apply fields_encode, lists_vecs_ok|].
  split; [intros d; apply key_for_of|by apply decode_v2].
Qed.

Lemma verifier_reads_journal_records_witness :
  fields (encode_record (sample_record 5 1000 1 "agent://acme/bot" "run-1" ToolCall)) =
  Ok (MkFields 5 1000 (lit "agent://acme/bot") (lit "run-1") x03 1).
Proof.
  destruct (verifier_reads_journal_records (sample_record 5 1000 1 "agent://acme/bot" "run-1" ToolCall)) as [H _].
  - by_evaluation.
  - by_evaluation.
  - rewrite H. vm_compute. reflexivity.
Defined.
