(* ===== verification/Tsp.v ===== *)
(** * What a timestamp token says ([trailryx-verify/src/tsp.rs])

    The verifier's own DER reader, as far as it goes: the imprint, the time and
    the nonce of a token. The authority's signature is not read. *)

From S2P Require Import Prelude Bytes Ids Record Digest.

Definition OID_SIGNED_DATA : list byte := map u8 [0x2A; 0x86; 0x48; 0x86; 0xF7; 0x0D; 0x01; 0x07; 0x02].
Definition OID_TST_INFO : list byte := map u8 [0x2A; 0x86; 0x48; 0x86; 0xF7; 0x0D; 0x01; 0x09; 0x10; 0x01; 0x04].
Definition OID_SHA384 : list byte := map u8 [0x60; 0x86; 0x48; 0x01; 0x65; 0x03; 0x04; 0x02; 0x02].

Definition TAG_BOOLEAN : Z := 0x01.
Definition TAG_INTEGER : Z := 0x02.
Definition TAG_OCTET_STRING : Z := 0x04.
Definition TAG_OID : Z := 0x06.
Definition TAG_GENERALIZED_TIME : Z := 0x18.
Definition TAG_SEQUENCE : Z := 0x30.
Definition TAG_CONTEXT_0 : Z := 0xA0.

Inductive TokenError :=
  | TokenTruncated
  | TokenNotDer
  | TokenUnexpected
  | NotATimestamp
  | WrongDigest
  | BadTime.

#[export] Instance TokenError_eq_dec : EqDecision TokenError.
Proof. solve_decision. Defined.

Record Stamped := MkStamped { imprint : Hash; stamped_at : Z; stamped_nonce : option Z }.

#[export] Instance Stamped_eq_dec : EqDecision Stamped.
Proof. solve_decision. Defined.

Definition covers `{Digest} (s : Stamped) (root_ : Hash) : bool := bool_decide (s.(imprint) = digest root_).

(** ** Tag, length, value *)

(** [split_at_checked]. *)
Definition split_at_checked (bs : list byte) (n : Z) : option (list byte * list byte) :=
  if Z.of_nat (length bs) <? n then None else Some (take (Z.to_nat n) bs, drop (Z.to_nat n) bs).

(** The loop over the length's digits: [usize] arithmetic that refuses to overflow. *)
Fixpoint der_length (digits : list byte) (length_ : Z) : option Z :=
  match digits with
  | [] => Some length_
  | d :: ds =>
      if u64_max <? length_ * 256 then None
      else if u64_max <? length_ * 256 + u8v d then None
      else der_length ds (length_ * 256 + u8v d)
  end.

Definition der_split (bs : list byte) : result TokenError (byte * list byte * list byte) :=
  match bs with
  | [] => Err TokenTruncated
  | tag :: after_tag =>
      if Z.land (u8v tag) 0x1F =? 0x1F then Err TokenNotDer
      else
        match after_tag with
        | [] => Err TokenTruncated
        | first :: after_first =>
            '(length_, after_length) ←
              (if u8v first <? 0x80 then Ok (u8v first, after_first)
               else if (u8v first =? 0x80) || (u8v first =? 0xFF) then Err TokenNotDer
               else
                 let count := Z.land (u8v first) 0x7F in
                 if 8 <? count then Err TokenNotDer
                 else
                   '(digits, rest) ← ok_or (split_at_checked after_first count) TokenTruncated;
                   if match digits with d :: _ => u8v d =? 0 | [] => false end then Err TokenNotDer
                   else
                     length_ ← ok_or (der_length digits 0) TokenNotDer;
                     if length_ <? 0x80 then Err TokenNotDer else Ok (length_, rest));
            '(body, rest) ← ok_or (split_at_checked after_length length_) TokenTruncated;
            Ok (tag, body, rest)
        end
  end.

Definition tlv (bs : list byte) (want : Z) : result TokenError (list byte * list byte) :=
  '(tag, body, rest) ← der_split bs;
  if negb (u8v tag =? want) then Err TokenUnexpected else Ok (body, rest).

Definition skip (bs : list byte) : result TokenError (list byte) :=
  '(_, _, rest) ← der_split bs; Ok rest.

Definition after_field : list byte -> result TokenError (list byte) := skip.

Definition nested (bs : list byte) (want : Z) : result TokenError (list byte) :=
  '(body, rest) ← tlv bs want;
  if negb (length rest =? 0)%nat then Err TokenNotDer else Ok body.

(** ** The time *)

Definition digit (b : byte) : bool := (48 <=? u8v b) && (u8v b <=? 57).

Definition decimal_value (bs : list byte) : Z := fold_left (fun acc d => acc * 10 + (u8v d - 48)) bs 0.

Definition month_days (year month : Z) : option Z :=
  let leap := (year mod 4 =? 0) && (negb (year mod 100 =? 0) || (year mod 400 =? 0)) in
  if bool_decide (month ∈ [1; 3; 5; 7; 8; 10; 12]) then Some 31
  else if bool_decide (month ∈ [4; 6; 9; 11]) then Some 30
  else if month =? 2 then Some (if leap then 29 else 28)
  else None.

(** Days since 1970-01-01 of a date of the proleptic Gregorian calendar. *)
Definition civil_days (year month day : Z) : Z :=
  let y := if month <=? 2 then year - 1 else year in
  let era := Z.quot (if 0 <=? y then y else y - 399) 400 in
  let yoe := y - era * 400 in
  let mp := Z.rem (month + 9) 12 in
  let doy := Z.quot (153 * mp + 2) 5 + day - 1 in
  let doe := yoe * 365 + Z.quot yoe 4 - Z.quot yoe 100 + doy in
  era * 146097 + doe - 719468.

Definition fraction_ok (fraction : list byte) : bool :=
  match fraction with
  | [] => true
  | dot :: digits => (u8v dot =? 46) && negb (length digits =? 0)%nat && forallb digit digits
  end.

Definition generalized_time (body : list byte) : result TokenError Z :=
  if (length body <? 15)%nat then Err BadTime
  else if negb (u8v (default x00 (last body)) =? 90) then Err BadTime
  else
    let head := removelast body in
    let fixed := take 14 head in
    if negb (fraction_ok (drop 14 head)) then Err BadTime
    else if negb (forallb digit fixed) then Err BadTime
    else
      let n from to := decimal_value (slice fixed from (to - from)) in
      let year := n 0%nat 4%nat in
      let month := n 4%nat 6%nat in
      let day := n 6%nat 8%nat in
      let hour := n 8%nat 10%nat in
      let minute := n 10%nat 12%nat in
      let second := n 12%nat 14%nat in
      days ← ok_or (month_days year month) BadTime;
      if (day <? 1) || (days <? day) || (23 <? hour) || (59 <? minute) || (59 <? second) then Err BadTime
      else Ok (civil_days year month day * 86400 + hour * 3600 + minute * 60 + second).

(** ** The nonce *)

Definition first_is (bs : list byte) (tag : Z) : bool :=
  match bs with b :: _ => u8v b =? tag | [] => false end.

Definition skip_if (bs : list byte) (tag : Z) : result TokenError (list byte) :=
  if first_is bs tag then skip bs else Ok bs.

Definition optional_nonce (rest : list byte) : result TokenError (option Z) :=
  rest ← skip_if rest TAG_SEQUENCE;
  rest ← skip_if rest TAG_BOOLEAN;
  if negb (first_is rest TAG_INTEGER) then Ok None
  else
    '(body, _) ← tlv rest TAG_INTEGER;
    match body with
    | [] => Err TokenNotDer
    | first :: more =>
        if (u8v first =? 0) && match more with next :: _ => Z.land (u8v next) 0x80 =? 0 | [] => false end
        then Err TokenNotDer
        else if negb (Z.land (u8v first) 0x80 =? 0) then Ok None
        else
          let significant := if u8v first =? 0 then more else body in
          if (8 <? length significant)%nat then Ok None else Ok (Some (fold_left (fun acc b => Z.lor (as_u64 (Z.shiftl acc 8)) (u8v b)) significant 0))
    end.

(** ** The token *)

Definition tsp_read (token : list byte) : result TokenError Stamped :=
  ci ← nested token TAG_SEQUENCE;
  '(content_type, after_type) ← tlv ci TAG_OID;
  if negb (bool_decide (content_type = OID_SIGNED_DATA)) then Err NotATimestamp
  else
    '(explicit, _) ← tlv after_type TAG_CONTEXT_0;
    sd ← nested explicit TAG_SEQUENCE;
    '(_, after_version) ← tlv sd TAG_INTEGER;
    after_algorithms ← skip after_version;
    '(eci, _) ← tlv after_algorithms TAG_SEQUENCE;
    '(econtent_type, after_econtent_type) ← tlv eci TAG_OID;
    if negb (bool_decide (econtent_type = OID_TST_INFO)) then Err NotATimestamp
    else
      '(wrapper, _) ← tlv after_econtent_type TAG_CONTEXT_0;
      '(content, _) ← tlv wrapper TAG_OCTET_STRING;
      info ← nested content TAG_SEQUENCE;
      '(_, after_info_version) ← tlv info TAG_INTEGER;
      '(_, after_policy) ← tlv after_info_version TAG_OID;
      '(mi, _) ← tlv after_policy TAG_SEQUENCE;
      '(algorithm, _) ← tlv mi TAG_SEQUENCE;
      '(algorithm_oid, _) ← tlv algorithm TAG_OID;
      if negb (bool_decide (algorithm_oid = OID_SHA384)) then Err WrongDigest
      else
        after_alg ← after_field mi;
        '(hashed, _) ← tlv after_alg TAG_OCTET_STRING;
        if negb (length hashed =? HASH_BYTES)%nat then Err WrongDigest
        else
          after_imprint ← skip after_policy;
          '(_, after_serial) ← tlv after_imprint TAG_INTEGER;
          '(time, after_time) ← tlv after_serial TAG_GENERALIZED_TIME;
          at_ ← generalized_time time;
          nonce ← optional_nonce after_time;
          Ok (MkStamped hashed at_ nonce).

(** ** Lemmas *)

Lemma split_at_checked_spec bs n a b :
  0 <= n -> split_at_checked bs n = Some (a, b) -> bs = a ++ b /\ Z.of_nat (length a) = n.
Proof.
  intros Hn. unfold split_at_checked. destruct (Z.ltb_spec (Z.of_nat (length bs)) n); [done|].
  intros [= <- <-]. rewrite take_drop, length_take. split; [done|lia].
Qed.

