(* ===== verification/P384.v ===== *)
(** * ECDSA on P-384, verification only ([trailryx-verify/src/p384.rs])

    A field element is six 64-bit limbs, least significant first. The limb
    arithmetic is written out as the source loops over it and proved to be
    arithmetic modulo the modulus; the curve formulas are built on it. That the
    points form a group, and that the two moduli are prime, is not proved here. *)

From Stdlib Require Import Zpow_facts.
From S2P Require Import Prelude Bytes Ids Record Digest.

Definition Fe : Type := list Z.

Definition P384_P : Fe :=
  [0x00000000ffffffff; 0xffffffff00000000; 0xfffffffffffffffe;
   0xffffffffffffffff; 0xffffffffffffffff; 0xffffffffffffffff].
Definition P384_N : Fe :=
  [0xecec196accc52973; 0x581a0db248b0a77a; 0xc7634d81f4372ddf;
   0xffffffffffffffff; 0xffffffffffffffff; 0xffffffffffffffff].
Definition P384_B : Fe :=
  [0x2a85c8edd3ec2aef; 0xc656398d8a2ed19d; 0x0314088f5013875a;
   0x181d9c6efe814112; 0x988e056be3f82d19; 0xb3312fa7e23ee7e4].
Definition GX : Fe :=
  [0x3a545e3872760ab7; 0x5502f25dbf55296c; 0x59f741e082542a38;
   0x6e1d3b628ba79b98; 0x8eb1c71ef320ad74; 0xaa87ca22be8b0537].
Definition GY : Fe :=
  [0x7a431d7c90ea0e5f; 0x0a60b1ce1d7e819d; 0xe9da3113b5f0b8c0;
   0xf8f41dbd289a147c; 0x5d9e98bf9292dc29; 0x3617de4a96262c6f].
Definition FE_ZERO : Fe := repeat 0 6.
Definition FE_ONE : Fe := [1; 0; 0; 0; 0; 0].

Definition PUBLIC_KEY_BYTES : nat := 97.
Definition SIGNATURE_BYTES : nat := 96.

(** ** Big integers *)

Definition is_zero (a : Fe) : bool := forallb (fun l => l =? 0) a.

(** The loop from the top limb down. *)
Fixpoint less_top (a b : list Z) : bool :=
  match a, b with
  | x :: a', y :: b' => if negb (x =? y) then x <? y else less_top a' b'
  | _, _ => false
  end.
Definition less (a b : Fe) : bool := less_top (rev a) (rev b).

(** [overflowing_sub] twice, and [overflowing_add] twice, per limb. *)
Fixpoint sub_loop (a b : list Z) (borrow : Z) : list Z * Z :=
  match a, b with
  | x :: a', y :: b' =>
      let d := as_u64 (x - y) in
      let b1 := x <? y in
      let d' := as_u64 (d - borrow) in
      let b2 := d <? borrow in
      let '(r, out) := sub_loop a' b' (Z.b2z b1 + Z.b2z b2) in
      (d' :: r, out)
  | _, _ => (a, borrow)
  end.
Definition sub_assign (a b : Fe) : Fe * Z := sub_loop a b 0.

Fixpoint add_loop (a b : list Z) (carry : Z) : list Z * Z :=
  match a, b with
  | x :: a', y :: b' =>
      let s := as_u64 (x + y) in
      let c1 := u64_max <? x + y in
      let s' := as_u64 (s + carry) in
      let c2 := u64_max <? s + carry in
      let '(r, out) := add_loop a' b' (Z.b2z c1 + Z.b2z c2) in
      (s' :: r, out)
  | _, _ => (a, carry)
  end.
Definition add_assign (a b : Fe) : Fe * Z := add_loop a b 0.

Fixpoint shl_loop (a : list Z) (carry : Z) : list Z * Z :=
  match a with
  | x :: a' =>
      let next := Z.shiftr x 63 in
      let '(r, out) := shl_loop a' next in
      (Z.lor (as_u64 (Z.shiftl x 1)) carry :: r, out)
  | [] => ([], carry)
  end.
Definition shl1 (a : Fe) : Fe * Z := shl_loop a 0.

(** The carry loop of [mul_wide]; an empty rest would be an index out of range. *)
Fixpoint carry_loop (out : list Z) (carry : Z) : list Z :=
  match out with
  | o :: out' =>
      if carry =? 0 then out
      else let t := o + carry in as_u64 t :: carry_loop out' (Z.shiftr t 64)
  | [] => []
  end.

(** The inner loop: row [i] adds [a[i] * b] to [out[i..]]. *)
Fixpoint mul_row (ai : Z) (b out : list Z) (carry : Z) : list Z :=
  match b, out with
  | bj :: b', o :: out' =>
      let t := ai * bj + o + carry in
      as_u64 t :: mul_row ai b' out' (Z.shiftr t 64)
  | _, _ => carry_loop out carry
  end.

(** The outer loop, on [out[i..]]: no later row touches [out[i]]. *)
Fixpoint mul_rows (a b out : list Z) : list Z :=
  match a with
  | [] => out
  | ai :: a' =>
      match mul_row ai b out 0 with
      | o :: out' => o :: mul_rows a' b out'
      | [] => []
      end
  end.
Definition mul_wide (a b : Fe) : list Z := mul_rows a b (repeat 0 12).

(** [(x[i / 64] >> (i % 64)) & 1]. *)
Definition bit_at (x : list Z) (i : nat) : Z :=
  Z.land (Z.shiftr (nth (i / 64)%nat x 0) (Z.of_nat (i mod 64))) 1.

(** [r[0] |= bit]. *)
Definition or_low (r : list Z) (bit : Z) : list Z :=
  match r with x :: r' => Z.lor x bit :: r' | [] => [] end.

Fixpoint reduce_loop (i : nat) (wide : list Z) (m r : Fe) : Fe :=
  match i with
  | O => r
  | S i' =>
      let bit := bit_at wide i' in
      let '(r, carry) := shl1 r in
      let r := or_low r bit in
      let r := if negb (carry =? 0) || negb (less r m) then fst (sub_assign r m) else r in
      reduce_loop i' wide m r
  end.
Definition reduce (wide : list Z) (m : Fe) : Fe := reduce_loop 768 wide m FE_ZERO.

Definition mul_mod (a b m : Fe) : Fe := reduce (mul_wide a b) m.

Definition add_mod (a b m : Fe) : Fe :=
  let '(r, carry) := add_assign a b in
  if negb (carry =? 0) || negb (less r m) then fst (sub_assign r m) else r.

Definition sub_mod (a b m : Fe) : Fe :=
  let '(r, borrow) := sub_assign a b in
  if negb (borrow =? 0) then fst (add_assign r m) else r.

(** The loop over the exponent's bits, least significant first. *)
Fixpoint pow_loop (n i : nat) (exp m result acc : Fe) : Fe :=
  match n with
  | O => result
  | S n' =>
      let result := if bit_at exp i =? 1 then mul_mod result acc m else result in
      pow_loop n' (S i) exp m result (mul_mod acc acc m)
  end.
Definition pow_mod (base exp m : Fe) : Fe := pow_loop 384 0 exp m FE_ONE base.

Definition inv_mod (a m : Fe) : Fe := pow_mod a (fst (sub_assign m [2; 0; 0; 0; 0; 0])) m.

(** [bytes.chunks(8).rev()]: the source is given 48 bytes. *)
Fixpoint chunks8 (n : nat) (bs : list byte) : list (list byte) :=
  match n with O => [] | S n' => take 8 bs :: chunks8 n' (drop 8 bs) end.
Definition fe_from_be_bytes (bs : list byte) : Fe := map from_be_bytes (rev (chunks8 6 bs)).

(** ** The curve *)

Record Point := MkPoint { px : Fe; py : Fe; pz : Fe }.

Definition INFINITY : Point := MkPoint FE_ONE FE_ONE FE_ZERO.

Abbreviation mulp a b := (mul_mod a b P384_P).
Abbreviation addp a b := (add_mod a b P384_P).
Abbreviation subp a b := (sub_mod a b P384_P).

Definition pt_double (p : Point) : Point :=
  if is_zero p.(pz) then INFINITY
  else
    let delta := mulp p.(pz) p.(pz) in
    let gamma := mulp p.(py) p.(py) in
    let beta := mulp p.(px) gamma in
    let x_minus := subp p.(px) delta in
    let x_plus := addp p.(px) delta in
    let t := mulp x_minus x_plus in
    let alpha := addp (addp t t) t in
    let beta4 := addp beta beta in
    let beta4 := addp beta4 beta4 in
    let beta8 := addp beta4 beta4 in
    let x3 := subp (mulp alpha alpha) beta8 in
    let yz := addp p.(py) p.(pz) in
    let z3 := subp (subp (mulp yz yz) gamma) delta in
    let gamma2 := mulp gamma gamma in
    let g8 := addp gamma2 gamma2 in
    let g8 := addp g8 g8 in
    let g8 := addp g8 g8 in
    let y3 := subp (mulp alpha (subp beta4 x3)) g8 in
    MkPoint x3 y3 z3.

Definition pt_add (a b : Point) : Point :=
  if is_zero a.(pz) then b
  else if is_zero b.(pz) then a
  else
    let z1z1 := mulp a.(pz) a.(pz) in
    let z2z2 := mulp b.(pz) b.(pz) in
    let u1 := mulp a.(px) z2z2 in
    let u2 := mulp b.(px) z1z1 in
    let s1 := mulp (mulp a.(py) b.(pz)) z2z2 in
    let s2 := mulp (mulp b.(py) a.(pz)) z1z1 in
    if bool_decide (u1 = u2) then (if bool_decide (s1 = s2) then pt_double a else INFINITY)
    else
      let h := subp u2 u1 in
      let h2 := addp h h in
      let i := mulp h2 h2 in
      let j := mulp h i in
      let r := subp s2 s1 in
      let r := addp r r in
      let v := mulp u1 i in
      let x3 := subp (subp (mulp r r) j) (addp v v) in
      let s1j := mulp s1 j in
      let y3 := subp (mulp r (subp v x3)) (addp s1j s1j) in
      let zz := addp a.(pz) b.(pz) in
      let z3 := mulp (subp (subp (mulp zz zz) z1z1) z2z2) h in
      MkPoint x3 y3 z3.

Fixpoint pt_mul_loop (i : nat) (k : Fe) (p acc : Point) : Point :=
  match i with
  | O => acc
  | S i' =>
      let acc := pt_double acc in
      let acc := if bit_at k i' =? 1 then pt_add acc p else acc in
      pt_mul_loop i' k p acc
  end.
Definition pt_mul (k : Fe) (p : Point) : Point := pt_mul_loop 384 k p INFINITY.

Definition affine_x (p : Point) : option Fe :=
  if is_zero p.(pz) then None
  else
    let zinv := inv_mod p.(pz) P384_P in
    let zinv2 := mulp zinv zinv in
    Some (mulp p.(px) zinv2).

Definition on_curve (x y : Fe) : bool :=
  let lhs := mulp y y in
  let x3 := mulp (mulp x x) x in
  let three_x := addp (addp x x) x in
  let rhs := addp (subp x3 three_x) P384_B in
  bool_decide (lhs = rhs).

(** ** ECDSA *)

Inductive SigError :=
  | BadKeyEncoding
  | KeyNotOnCurve
  | BadSignatureEncoding
  | ComponentOutOfRange
  | DoesNotVerify.

#[export] Instance SigError_eq_dec : EqDecision SigError.
Proof. solve_decision. Defined.

(** Below the order: a value less than twice the order, reduced once. *)
Definition below_order (v : Fe) : Fe := if negb (less v P384_N) then fst (sub_assign v P384_N) else v.

Definition p384_verify `{Digest} (public_key message signature : list byte) : result SigError unit :=
  if negb (length public_key =? PUBLIC_KEY_BYTES)%nat || negb (u8v (hd x00 public_key) =? 4)
  then Err BadKeyEncoding
  else if negb (length signature =? SIGNATURE_BYTES)%nat then Err BadSignatureEncoding
  else
    let qx := fe_from_be_bytes (slice public_key 1 48) in
    let qy := fe_from_be_bytes (slice public_key 49 48) in
    if negb (less qx P384_P) || negb (less qy P384_P) || negb (on_curve qx qy) then Err KeyNotOnCurve
    else
      let r := fe_from_be_bytes (take 48 signature) in
      let s := fe_from_be_bytes (drop 48 signature) in
      if is_zero r || is_zero s || negb (less r P384_N) || negb (less s P384_N)
      then Err ComponentOutOfRange
      else
        let e := below_order (fe_from_be_bytes (digest message)) in
        let w := inv_mod s P384_N in
        let u1 := mul_mod e w P384_N in
        let u2 := mul_mod r w P384_N in
        let g := MkPoint GX GY FE_ONE in
        let q := MkPoint qx qy FE_ONE in
        let point := pt_add (pt_mul u1 g) (pt_mul u2 q) in
        match affine_x point with
        | None => Err DoesNotVerify
        | Some x => if bool_decide (below_order x = r) then Ok tt else Err DoesNotVerify
        end.

(** ** Limbs as numbers *)

Fixpoint val (a : list Z) : Z := match a with [] => 0 | x :: a' => x + 2 ^ 64 * val a' end.

(** [n] limbs of 64 bits. *)
Definition limbs (n : nat) (a : list Z) : Prop := length a = n /\ Forall u64_ok a.

#[export] Instance limbs_dec n a : Decision (limbs n a) := ltac:(unfold limbs; apply _).

(** The capacity of [n] limbs. *)
Definition cap (n : nat) : Z := 2 ^ (64 * Z.of_nat n).

Lemma cap_S n : cap (S n) = 2 ^ 64 * cap n.
Proof. unfold cap. rewrite Nat2Z.inj_succ, <- Z.pow_add_r by lia. f_equal. lia. Qed.
Lemma cap_0 : cap 0 = 1.
Proof. reflexivity. Qed.
Lemma cap_pos n : 0 < cap n.
Proof. unfold cap. apply Z.pow_pos_nonneg; lia. Qed.

Lemma limbs_nil : limbs 0 [].
Proof. by split. Qed.
Lemma limbs_cons n x a : limbs (S n) (x :: a) <-> u64_ok x /\ limbs n a.
Proof.
  unfold limbs. rewrite Forall_cons. cbn. split; [intros [[= <-] [? ?]]|intros [? [-> ?]]]; done.
Qed.
Lemma limbs_inv n a : limbs (S n) a -> exists x a', a = x :: a' /\ u64_ok x /\ limbs n a'.
Proof. destruct a as [|x a]; [by intros [? _]|]. intros H. apply limbs_cons in H. eauto. Qed.
Lemma limbs_0_inv a : limbs 0 a -> a = [].
Proof. by destruct a; [|intros [? _]]. Qed.

Lemma val_range n a : limbs n a -> 0 <= val a < cap n.
Proof.
  revert a; induction n as [|n IH]; intros a Ha.
  - apply limbs_0_inv in Ha as ->. done.
  - apply limbs_inv in Ha as (x & a' & -> & Hx & Ha). apply IH in Ha. rewrite cap_S. cbn [val]. unfold u64_ok in Hx. lia.
Qed.

Lemma as_u64_add z : 0 <= z < 2 * 2 ^ 64 ->
  u64_ok (as_u64 z) /\ as_u64 z = z - 2 ^ 64 * Z.b2z (u64_max <? z).
Proof.
  intros Hz. split; [apply as_u64_ok|]. unfold as_u64, u64_max. destruct (Z.ltb_spec (2 ^ 64 - 1) z); cbn [Z.b2z].
  - rewrite <- (Z.mod_add z (-1)) by lia. rewrite Z.mod_small; lia.
  - rewrite Z.mod_small; lia.
Qed.

Lemma as_u64_sub z : - 2 ^ 64 <= z < 2 ^ 64 ->
  u64_ok (as_u64 z) /\ as_u64 z = z + 2 ^ 64 * Z.b2z (z <? 0).
Proof.
  intros Hz. split; [apply as_u64_ok|]. unfold as_u64. destruct (Z.ltb_spec z 0); cbn [Z.b2z].
  - rewrite <- (Z.mod_add z 1) by lia. rewrite Z.mod_small; lia.
  - rewrite Z.mod_small; lia.
Qed.

Lemma sub_loop_spec n a b w :
  limbs n a -> limbs n b -> 0 <= w <= 1 ->
  exists r out, sub_loop a b w = (r, out) /\ limbs n r /\ 0 <= out <= 1 /\
    val r = val a - val b - w + cap n * out.
Proof.
  revert a b w; induction n as [|n IH]; intros a b w Ha Hb Hw.
  { apply limbs_0_inv in Ha as ->, Hb as ->. exists [], w. rewrite cap_0. cbn. split; [done|]. split; [done|]. lia. }
  apply limbs_inv in Ha as (x & a' & -> & Hx & Ha). apply limbs_inv in Hb as (y & b' & -> & Hy & Hb).
  unfold u64_ok in *. cbn [sub_loop].
  destruct (as_u64_sub (x - y) ltac:(lia)) as [Hd Ed].
  replace (x <? y) with (x - y <? 0) by (destruct (Z.ltb_spec (x - y) 0), (Z.ltb_spec x y); done || lia).
  set (d := as_u64 (x - y)) in *. unfold u64_ok in Hd.
  destruct (as_u64_sub (d - w) ltac:(lia)) as [Hd' Ed'].
  replace (d <? w) with (d - w <? 0) by (destruct (Z.ltb_spec (d - w) 0), (Z.ltb_spec d w); done || lia).
  set (b1 := Z.b2z (x - y <? 0)) in *. set (b2 := Z.b2z (d - w <? 0)) in *.
  assert (Hb12 : 0 <= b1 + b2 <= 1).
  { unfold b1, b2 in *. destruct (Z.ltb_spec (x - y) 0), (Z.ltb_spec (d - w) 0); cbn [Z.b2z] in *; lia. }
  destruct (IH a' b' (b1 + b2) Ha Hb Hb12) as (r & out & -> & Hr & Ho & Ev).
  eexists _, out. split; [done|]. split; [by apply limbs_cons|]. split; [done|].
  cbn [val]. rewrite cap_S, Ev. lia.
Qed.

Lemma add_loop_spec n a b c :
  limbs n a -> limbs n b -> 0 <= c <= 1 ->
  exists r out, add_loop a b c = (r, out) /\ limbs n r /\ 0 <= out <= 1 /\
    val r = val a + val b + c - cap n * out.
Proof.
  revert a b c; induction n as [|n IH]; intros a b c Ha Hb Hc.
  { apply limbs_0_inv in Ha as ->, Hb as ->. exists [], c. rewrite cap_0. cbn. split; [done|]. split; [done|]. lia. }
  apply limbs_inv in Ha as (x & a' & -> & Hx & Ha). apply limbs_inv in Hb as (y & b' & -> & Hy & Hb).
  unfold u64_ok in *. cbn [add_loop].
  destruct (as_u64_add (x + y) ltac:(lia)) as [Hs Es]. set (s := as_u64 (x + y)) in *. unfold u64_ok in Hs.
  destruct (as_u64_add (s + c) ltac:(lia)) as [Hs' Es'].
  set (c1 := Z.b2z (u64_max <? x + y)) in *. set (c2 := Z.b2z (u64_max <? s + c)) in *.
  assert (Hc12 : 0 <= c1 + c2 <= 1).
  { unfold c1, c2, u64_max in *. destruct (Z.ltb_spec (2 ^ 64 - 1) (x + y)), (Z.ltb_spec (2 ^ 64 - 1) (s + c));
      cbn [Z.b2z] in *; lia. }
  destruct (IH a' b' (c1 + c2) Ha Hb Hc12) as (r & out & -> & Hr & Ho & Ev).
  eexists _, out. split; [done|]. split; [by apply limbs_cons|]. split; [done|].
  cbn [val]. rewrite cap_S, Ev. lia.
Qed.

Lemma shl_loop_spec n a c :
  limbs n a -> 0 <= c <= 1 ->
  exists r out, shl_loop a c = (r, out) /\ limbs n r /\ 0 <= out <= 1 /\
    val r = 2 * val a + c - cap n * out /\ (c = 0 -> match r with x :: _ => Z.even x = true | [] => True end).
Proof.
  revert a c; induction n as [|n IH]; intros a c Ha Hc.
  { apply limbs_0_inv in Ha as ->. exists [], c. rewrite cap_0. cbn. split; [done|]. split; [done|]. lia. }
  apply limbs_inv in Ha as (x & a' & -> & Hx & Ha). unfold u64_ok in *. cbn [shl_loop].
  assert (Hn : 0 <= Z.shiftr x 63 <= 1).
  { rewrite Z.shiftr_div_pow2 by lia. pose proof (Z.div_mod x (2 ^ 63) ltac:(lia)).
    pose proof (Z.mod_pos_bound x (2 ^ 63) ltac:(lia)). lia. }
  destruct (IH a' _ Ha Hn) as (r & out & -> & Hr & Ho & Ev & _).
  assert (Es : as_u64 (Z.shiftl x 1) = 2 * x - 2 ^ 64 * Z.shiftr x 63).
  { rewrite Z.shiftl_mul_pow2, Z.shiftr_div_pow2 by lia. unfold as_u64.
    pose proof (Z.div_mod x (2 ^ 63) ltac:(lia)) as E. pose proof (Z.mod_pos_bound x (2 ^ 63) ltac:(lia)).
    symmetry. apply Z.mod_unique_pos with (x / 2 ^ 63); lia. }
  assert (El : Z.lor (as_u64 (Z.shiftl x 1)) c = as_u64 (Z.shiftl x 1) + c).
  { rewrite Es. replace (2 * x - 2 ^ 64 * Z.shiftr x 63) with (Z.shiftl (x - 2 ^ 63 * Z.shiftr x 63) 1)
      by (rewrite Z.shiftl_mul_pow2 by lia; lia).
    rewrite Z.lor_comm, lor_shiftl_add, Z.shiftl_mul_pow2 by lia. lia. }
  eexists _, out. split; [done|]. rewrite El. split; [|split; [done|split]].
  - apply limbs_cons. split; [|done]. unfold u64_ok. rewrite Es. rewrite Z.shiftr_div_pow2 in * by lia.
    pose proof (Z.div_mod x (2 ^ 63) ltac:(lia)). pose proof (Z.mod_pos_bound x (2 ^ 63) ltac:(lia)). lia.
  - cbn [val]. rewrite cap_S, Ev, Es. lia.
  - intros ->. rewrite Z.add_0_r, Es. rewrite Z.even_sub, !Z.even_mul. done.
Qed.

Lemma val_app a b : val (a ++ b) = val a + cap (length a) * val b.
Proof.
  induction a as [|x a IH]; [cbn [app val length]; rewrite cap_0; lia|].
  cbn [app val length]. rewrite IH, cap_S. lia.
Qed.

Lemma limbs_snoc_inv n a : limbs (S n) a -> exists a' x, a = a' ++ [x] /\ limbs n a' /\ u64_ok x.
Proof.
  intros [Hl Hf]. destruct a as [|x a' _] using rev_ind; [done|]. rewrite length_app in Hl. cbn in Hl.
  apply Forall_app in Hf as [Hf Hx]. rewrite Forall_singleton in Hx. exists a', x. split; [done|]. split; [split; [lia|done]|done].
Qed.

Lemma less_spec n a b : limbs n a -> limbs n b -> less a b = (val a <? val b).
Proof.
  unfold less. revert a b; induction n as [|n IH]; intros a b Ha Hb.
  { by apply limbs_0_inv in Ha as ->, Hb as ->. }
  apply limbs_snoc_inv in Ha as (a' & x & -> & Ha & Hx). apply limbs_snoc_inv in Hb as (b' & y & -> & Hb & Hy).
  rewrite !rev_app_distr. cbn [rev app less_top]. rewrite (IH a' b') by done.
  rewrite !val_app. destruct Ha as [La Ha], Hb as [Lb Hb]. rewrite La, Lb.
  pose proof (val_range n a' (conj La Ha)). pose proof (val_range n b' (conj Lb Hb)). cbn [val].
  destruct (Z.eqb_spec x y) as [->|Hne]; cbn [negb].
  - destruct (Z.ltb_spec (val a') (val b')), (Z.ltb_spec (val a' + cap n * (y + 2 ^ 64 * 0)) (val b' + cap n * (y + 2 ^ 64 * 0))); lia.
  - destruct (Z.ltb_spec x y), (Z.ltb_spec (val a' + cap n * (x + 2 ^ 64 * 0)) (val b' + cap n * (y + 2 ^ 64 * 0))); nia.
Qed.

Lemma is_zero_spec n a : limbs n a -> is_zero a = (val a =? 0).
Proof.
  revert a; induction n as [|n IH]; intros a Ha; [by apply limbs_0_inv in Ha as ->|].
  apply limbs_inv in Ha as (x & a' & -> & Hx & Ha). unfold is_zero in *. cbn [forallb val]. rewrite (IH a' Ha).
  pose proof (val_range n a' Ha). unfold u64_ok in Hx.
  destruct (Z.eqb_spec x 0), (Z.eqb_spec (val a') 0), (Z.eqb_spec (x + 2 ^ 64 * val a') 0); lia.
Qed.

(** *** Multiplication *)

Lemma as_u64_split t : 0 <= t -> u64_ok (as_u64 t) /\ t = as_u64 t + 2 ^ 64 * Z.shiftr t 64.
Proof.
  intros Ht. split; [apply as_u64_ok|]. unfold as_u64. rewrite Z.shiftr_div_pow2 by lia.
  pose proof (Z.div_mod t (2 ^ 64) ltac:(lia)). lia.
Qed.

Lemma carry_loop_spec n out c :
  limbs n out -> 0 <= c -> val out + c < cap n ->
  limbs n (carry_loop out c) /\ val (carry_loop out c) = val out + c.
Proof.
  revert out c; induction n as [|n IH]; intros out c Ho Hc Hb.
  { apply limbs_0_inv in Ho as ->. rewrite cap_0 in Hb. cbn in *. split; [done|lia]. }
  apply limbs_inv in Ho as (o & out' & -> & Hu & Ho). cbn [carry_loop].
  destruct (Z.eqb_spec c 0) as [->|Hne]; [split; [by apply limbs_cons|lia]|].
  unfold u64_ok in Hu. destruct (as_u64_split (o + c) ltac:(lia)) as [Hs Es].
  assert (0 <= Z.shiftr (o + c) 64) by (apply Z.shiftr_nonneg; lia).
  rewrite cap_S in Hb. cbn [val] in Hb |- *.
  destruct (IH out' (Z.shiftr (o + c) 64) Ho ltac:(lia)) as [Hl Ev].
  { unfold u64_ok in Hs. nia. }
  rewrite Ev. split; [by apply limbs_cons|]. lia.
Qed.

Lemma mul_row_spec k n ai b out c :
  u64_ok ai -> limbs k b -> limbs n out -> (k <= n)%nat -> 0 <= c -> val out + ai * val b + c < cap n ->
  limbs n (mul_row ai b out c) /\ val (mul_row ai b out c) = val out + ai * val b + c.
Proof.
  intros Ha. revert n b out c; induction k as [|k IH]; intros n b out c Hb Ho Hk Hc Hf.
  { apply limbs_0_inv in Hb as ->. cbn [mul_row val] in *. rewrite Z.mul_0_r, Z.add_0_r in *.
    by apply carry_loop_spec. }
  destruct n as [|n]; [lia|]. apply limbs_inv in Hb as (bj & b' & -> & Hj & Hb).
  apply limbs_inv in Ho as (o & out' & -> & Hu & Ho). cbn [mul_row].
  unfold u64_ok in *. assert (0 <= ai * bj) by nia.
  destruct (as_u64_split (ai * bj + o + c) ltac:(lia)) as [Hs Es].
  assert (0 <= Z.shiftr (ai * bj + o + c) 64) by (apply Z.shiftr_nonneg; lia).
  rewrite cap_S in Hf. cbn [val] in Hf |- *. unfold u64_ok in Hs.
  destruct (IH n b' out' (Z.shiftr (ai * bj + o + c) 64) Hb Ho ltac:(lia) ltac:(lia)) as [Hl Ev].
  { assert (2 ^ 64 * (val out' + ai * val b' + Z.shiftr (ai * bj + o + c) 64) < 2 ^ 64 * cap n) by lia. lia. }
  rewrite Ev. split; [by apply limbs_cons|]. lia.
Qed.

Lemma mul_rows_spec i k n a b out :
  limbs i a -> limbs k b -> limbs n out -> (i + k <= n)%nat -> val out + val a * val b < cap n ->
  limbs n (mul_rows a b out) /\ val (mul_rows a b out) = val out + val a * val b.
Proof.
  revert n a out; induction i as [|i IH]; intros n a out Ha Hb Ho Hn Hf.
  { apply limbs_0_inv in Ha as ->. cbn [mul_rows val]. split; [done|lia]. }
  apply limbs_inv in Ha as (ai & a' & -> & Hi & Ha). destruct n as [|n]; [lia|]. cbn [mul_rows val] in *.
  pose proof (val_range _ _ Ha). pose proof (val_range _ _ Hb). unfold u64_ok in Hi.
  assert (0 <= val a' * val b) by nia.
  destruct (mul_row_spec k (S n) ai b out 0 Hi Hb Ho ltac:(lia) ltac:(lia) ltac:(lia)) as [Hl Ev].
  destruct (mul_row ai b out 0) as [|o out'] eqn:E; [by destruct Hl|].
  apply limbs_cons in Hl as [Hu Hl]. cbn [val] in Ev. rewrite cap_S in Hf. unfold u64_ok in Hu.
  destruct (IH n a' out' Ha Hb Hl ltac:(lia)) as [Hl' Ev'].
  { assert (2 ^ 64 * (val out' + val a' * val b) < 2 ^ 64 * cap n) by lia. lia. }
  split; [by apply limbs_cons|]. cbn [val]. rewrite Ev'. lia.
Qed.

Lemma val_zeros n : val (repeat 0 n) = 0.
Proof. induction n as [|n IH]; [done|]. cbn [repeat val]. lia. Qed.
Lemma limbs_zeros n : limbs n (repeat 0 n).
Proof. split; [apply repeat_length|]. by induction n; constructor. Qed.

Lemma mul_wide_spec a b : limbs 6 a -> limbs 6 b -> limbs 12 (mul_wide a b) /\ val (mul_wide a b) = val a * val b.
Proof.
  intros Ha Hb. unfold mul_wide. pose proof (val_range _ _ Ha). pose proof (val_range _ _ Hb).
  destruct (mul_rows_spec 6 6 12 a b (repeat 0 12) Ha Hb (limbs_zeros 12) ltac:(lia)) as [Hl Ev].
  - rewrite val_zeros. assert (val a * val b < cap 6 * cap 6) by nia.
    change (cap 12) with (cap 6 * cap 6). lia.
  - split; [done|]. by rewrite Ev, val_zeros.
Qed.

(** *** Reduction by long division *)

Lemma testbit_above x n : u64_ok x -> 64 <= n -> Z.testbit x n = false.
Proof.
  unfold u64_ok. intros Hx Hn. destruct (decide (x = 0)) as [->|]; [apply Z.bits_0|].
  apply Z.bits_above_log2; [lia|]. apply Z.lt_le_trans with 64; [|done]. apply Z.log2_lt_pow2; lia.
Qed.

Lemma testbit_val n a i : limbs n a -> (i < 64 * n)%nat ->
  Z.testbit (nth (i / 64)%nat a 0) (Z.of_nat (i mod 64)) = Z.testbit (val a) (Z.of_nat i).
Proof.
  revert a i; induction n as [|n IH]; intros a i Ha Hi; [lia|].
  apply limbs_inv in Ha as (x & a' & -> & Hx & Ha). cbn [val].
  replace (x + 2 ^ 64 * val a') with (x + val a' * 2 ^ 64) by lia.
  rewrite <- lor_shiftl_add by (unfold u64_ok in Hx; lia). rewrite Z.lor_spec.
  destruct (decide (i < 64)%nat) as [Hlt|Hge].
  - rewrite Nat.div_small, Nat.mod_small by done. cbn [nth].
    rewrite Z.shiftl_spec_low by lia. by rewrite orb_false_r.
  - replace i with (64 + (i - 64))%nat at 1 2 by lia.
    replace (64 + (i - 64))%nat with ((i - 64) + 1 * 64)%nat by lia.
    rewrite Nat.div_add, Nat.Div0.mod_add by lia. rewrite Nat.add_1_r. cbn [nth].
    rewrite IH by (done || lia). rewrite (testbit_above x) by (done || lia). cbn [orb].
    rewrite Z.shiftl_spec by lia. f_equal. lia.
Qed.

Lemma bit_at_spec n a i : limbs n a -> (i < 64 * n)%nat -> bit_at a i = (val a / 2 ^ Z.of_nat i) mod 2.
Proof.
  intros Ha Hi. unfold bit_at. change 1 with (Z.ones 1) at 1. rewrite Z.land_ones by lia.
  rewrite Z.shiftr_div_pow2 by lia. change (2 ^ 1) with 2.
  rewrite <- !Z.testbit_spec' by lia. by rewrite (testbit_val n).
Qed.

Lemma or_low_spec n r bit :
  limbs (S n) r -> match r with x :: _ => Z.even x = true | [] => True end -> 0 <= bit <= 1 ->
  limbs (S n) (or_low r bit) /\ val (or_low r bit) = val r + bit.
Proof.
  intros Hr He Hb. apply limbs_inv in Hr as (x & r' & -> & Hx & Hr). cbn [or_low].
  apply Z.even_spec in He as [y ->].
  assert (El : Z.lor (2 * y) bit = 2 * y + bit).
  { replace (2 * y) with (Z.shiftl y 1) by (rewrite Z.shiftl_mul_pow2 by lia; lia).
    rewrite Z.lor_comm, lor_shiftl_add, Z.shiftl_mul_pow2 by lia. lia. }
  rewrite El. cbn [val]. split; [|lia]. apply limbs_cons. split; [|done]. unfold u64_ok in *. lia.
Qed.

Lemma sub_assign_below a b :
  limbs 6 a -> limbs 6 b -> 0 <= val a - val b -> 
  limbs 6 (fst (sub_assign a b)) /\ val (fst (sub_assign a b)) = val a - val b.
Proof.
  intros Ha Hb Hd. unfold sub_assign. destruct (sub_loop_spec 6 a b 0 Ha Hb ltac:(lia)) as (r & out & -> & Hr & Ho & Ev).
  cbn [fst]. split; [done|]. pose proof (val_range _ _ Hr). pose proof (val_range _ _ Ha). pose proof (val_range _ _ Hb).
  assert (out = 0 \/ out = 1) as [-> | ->] by lia; lia.
Qed.

(** After a carry out of the top limb the borrow of the subtraction cancels it. *)
Lemma sub_assign_carry a b v :
  limbs 6 a -> limbs 6 b -> v = val a + cap 6 -> 0 <= v - val b < cap 6 ->
  limbs 6 (fst (sub_assign a b)) /\ val (fst (sub_assign a b)) = v - val b.
Proof.
  intros Ha Hb -> Hd. unfold sub_assign. destruct (sub_loop_spec 6 a b 0 Ha Hb ltac:(lia)) as (r & out & -> & Hr & Ho & Ev).
  cbn [fst]. split; [done|]. pose proof (val_range _ _ Hr). pose proof (val_range _ _ Ha). pose proof (val_range _ _ Hb).
  assert (out = 0 \/ out = 1) as [-> | ->] by lia; lia.
Qed.

(** The conditional subtraction: a value below twice the modulus, its 385th bit
    in [carry], comes out reduced. *)
Lemma subtract_once r m carry v :
  limbs 6 r -> limbs 6 m -> 0 <= carry <= 1 -> v = val r + cap 6 * carry -> v < 2 * val m ->
  let r' := if negb (carry =? 0) || negb (less r m) then fst (sub_assign r m) else r in
  limbs 6 r' /\ val r' = v mod val m.
Proof.
  intros Hr Hm Hc Ev Hv. pose proof (val_range _ _ Hr). pose proof (val_range _ _ Hm). pose proof (cap_pos 6).
  rewrite (less_spec 6) by done. cbv zeta. destruct (Z.eqb_spec carry 0) as [->|Hne]; cbn [negb orb].
  - destruct (Z.ltb_spec (val r) (val m)); cbn [negb].
    + split; [done|]. rewrite Z.mod_small; lia.
    + destruct (sub_assign_below r m Hr Hm ltac:(lia)) as [Hl E]. split; [done|]. rewrite E.
      apply Z.mod_unique_pos with 1; lia.
  - assert (carry = 1) as -> by lia.
    destruct (sub_assign_carry r m v Hr Hm ltac:(lia) ltac:(lia)) as [Hl E].
    split; [done|]. rewrite E. apply Z.mod_unique_pos with 1; lia.
Qed.

Lemma reduce_loop_spec i wide m r :
  limbs 12 wide -> limbs 6 m -> 0 < val m -> (i <= 768)%nat ->
  limbs 6 r -> val r = (val wide / 2 ^ Z.of_nat i) mod val m ->
  limbs 6 (reduce_loop i wide m r) /\ val (reduce_loop i wide m r) = val wide mod val m.
Proof.
  intros Hw Hm Hpos. revert r; induction i as [|i IH]; intros r Hi Hr Er.
  { cbn [reduce_loop]. split; [done|]. by rewrite Er, Z.div_1_r. }
  cbn [reduce_loop]. unfold shl1.
  destruct (shl_loop_spec 6 r 0 Hr ltac:(lia)) as (r1 & carry & -> & Hr1 & Hc & Ev & He).
  rewrite (bit_at_spec 12) by (done || lia). set (q := val wide / 2 ^ Z.of_nat i) in *.
  pose proof (Z.mod_pos_bound q 2 ltac:(lia)) as Hq.
  destruct (or_low_spec 5 r1 (q mod 2) Hr1 (He eq_refl) ltac:(lia)) as [Hl El].
  assert (Eq : val wide / 2 ^ Z.of_nat (S i) = q / 2).
  { unfold q. rewrite Z.div_div by (try apply Z.pow_nonzero; lia). f_equal.
    rewrite Nat2Z.inj_succ, Z.pow_succ_r by lia. lia. }
  rewrite Eq in Er. pose proof (Z.mod_pos_bound (q / 2) (val m) Hpos).
  destruct (subtract_once (or_low r1 (q mod 2)) m carry (2 * val r + q mod 2) Hl Hm Hc) as [Hl' Ev'].
  - rewrite El, Ev. lia.
  - lia.
  - apply IH; [lia|exact Hl'|]. rewrite Ev', Er.
    rewrite <- Z.add_mod_idemp_l, Z.mul_mod_idemp_r, Z.add_mod_idemp_l by lia. f_equal.
    pose proof (Z.div_mod q 2 ltac:(lia)). lia.
Qed.

Lemma reduce_spec wide m :
  limbs 12 wide -> limbs 6 m -> 0 < val m -> limbs 6 (reduce wide m) /\ val (reduce wide m) = val wide mod val m.
Proof.
  intros Hw Hm Hpos. apply reduce_loop_spec; try done; [apply limbs_zeros|].
  unfold FE_ZERO. rewrite val_zeros. pose proof (val_range _ _ Hw) as Hr.
  rewrite Z.div_small by exact Hr. by rewrite Z.mod_0_l by lia.
Qed.

(** *** Arithmetic modulo [m] *)

(** An element below the modulus. *)
Definition below (m a : Fe) : Prop := limbs 6 a /\ val a < val m.

#[export] Instance below_dec m a : Decision (below m a) := ltac:(unfold below; apply _).

Section Modular.
Context (m : Fe).
Hypothesis Hm : limbs 6 m.

Lemma below_pos a : below m a -> 0 < val m.
Proof. intros [Ha Hlt]. pose proof (val_range _ _ Ha). lia. Qed.

Lemma mul_mod_spec a b : limbs 6 a -> limbs 6 b -> 0 < val m ->
  below m (mul_mod a b m) /\ val (mul_mod a b m) = (val a * val b) mod val m.
Proof.
  intros Ha Hb Hpos. unfold mul_mod. destruct (mul_wide_spec a b Ha Hb) as [Hw Ew].
  destruct (reduce_spec _ m Hw Hm Hpos) as [Hl E]. rewrite E, Ew in *. split; [|done]. split; [done|].
  rewrite E. apply Z.mod_pos_bound, Hpos.
Qed.

Lemma add_mod_spec a b : below m a -> below m b ->
  below m (add_mod a b m) /\ val (add_mod a b m) = (val a + val b) mod val m.
Proof.
  intros [Ha Hla] [Hb Hlb]. pose proof (val_range _ _ Ha). pose proof (val_range _ _ Hb).
  unfold add_mod, add_assign.
  destruct (add_loop_spec 6 a b 0 Ha Hb ltac:(lia)) as (r & c & -> & Hr & Hc & Ev).
  destruct (subtract_once r m c (val a + val b) Hr Hm Hc ltac:(lia) ltac:(lia)) as [Hl E]. rewrite E.
  split; [|done]. split; [done|]. rewrite E. apply Z.mod_pos_bound. lia.
Qed.

Lemma sub_mod_spec a b : below m a -> below m b ->
  below m (sub_mod a b m) /\ val (sub_mod a b m) = (val a - val b) mod val m.
Proof.
  intros [Ha Hla] [Hb Hlb]. pose proof (val_range _ _ Ha). pose proof (val_range _ _ Hb).
  unfold sub_mod, sub_assign.
  destruct (sub_loop_spec 6 a b 0 Ha Hb ltac:(lia)) as (r & w & -> & Hr & Hw & Ev).
  pose proof (val_range _ _ Hr). pose proof (val_range _ _ Hm).
  destruct (Z.eqb_spec w 0) as [->|Hne]; cbn [negb].
  - assert (val r = val a - val b) as E by lia. split; [split; [done|lia]|]. rewrite E, Z.mod_small; lia.
  - assert (w = 1) as -> by lia. unfold add_assign.
    destruct (add_loop_spec 6 r m 0 Hr Hm ltac:(lia)) as (r' & c & -> & Hr' & Hc & Ev'). cbn [fst].
    pose proof (val_range _ _ Hr').
    assert (val r' = val a - val b + val m) as E by (assert (c = 0 \/ c = 1) as [-> | ->] by lia; lia).
    split; [split; [done|lia]|].
    rewrite E. apply Z.mod_unique_pos with (-1); lia.
Qed.

Lemma pow_half x e : 0 <= e -> x ^ e = x ^ (e mod 2) * (x * x) ^ (e / 2).
Proof.
  intros He. pose proof (Z.div_mod e 2 ltac:(lia)). pose proof (Z.mod_pos_bound e 2 ltac:(lia)).
  pose proof (Z.div_pos e 2 He ltac:(lia)).
  replace (x * x) with (x ^ 2) by lia. rewrite <- Z.pow_mul_r, <- Z.pow_add_r by lia. f_equal. lia.
Qed.

Lemma pow_mod_idemp x e k : 0 <= e -> 0 < k -> (x mod k) ^ e mod k = x ^ e mod k.
Proof.
  intros He Hk. revert e He. apply natlike_ind; [done|]. intros e He IH.
  rewrite !Z.pow_succ_r by done. rewrite <- Z.mul_mod_idemp_r, IH by lia.
  by rewrite Z.mul_mod_idemp_l, Z.mul_mod_idemp_r by lia.
Qed.

Lemma pow_loop_spec n i exp result acc :
  limbs 6 exp -> below m result -> limbs 6 acc -> (n + i = 384)%nat ->
  below m (pow_loop n i exp m result acc) /\
  val (pow_loop n i exp m result acc) = (val result * val acc ^ (val exp / 2 ^ Z.of_nat i)) mod val m.
Proof.
  intros He. revert i result acc; induction n as [|n IH]; intros i result acc Hr Ha Hn.
  { cbn [pow_loop]. split; [done|]. pose proof (val_range _ _ He) as Hb.
    assert (i = 384%nat) as -> by lia. rewrite Z.div_small by exact Hb. rewrite Z.pow_0_r, Z.mul_1_r.
    destruct Hr as [Hl Hlt]. pose proof (val_range _ _ Hl). rewrite Z.mod_small; lia. }
  pose proof (below_pos _ Hr) as Hpos. pose proof (val_range _ _ He) as Hb.
  cbn [pow_loop]. rewrite (bit_at_spec 6) by (done || lia). set (e := val exp / 2 ^ Z.of_nat i).
  assert (He0 : 0 <= e) by (apply Z.div_pos; [lia|apply Z.pow_pos_nonneg; lia]).
  destruct (mul_mod_spec result acc (proj1 Hr) Ha Hpos) as [Hra Era].
  destruct (mul_mod_spec acc acc Ha Ha Hpos) as [Haa Eaa].
  assert (Ee : val exp / 2 ^ Z.of_nat (S i) = e / 2).
  { unfold e. rewrite Z.div_div by (try apply Z.pow_nonzero; lia). f_equal.
    rewrite Nat2Z.inj_succ, Z.pow_succ_r by lia. lia. }
  pose proof (Z.div_pos e 2 He0 ltac:(lia)) as He2.
  rewrite (pow_half (val acc) e He0).
  destruct (Z.eqb_spec (e mod 2) 1) as [E1|E1].
  - destruct (IH (S i) _ (mul_mod acc acc m) Hra (proj1 Haa) ltac:(lia)) as [Hl E]. split; [exact Hl|].
    rewrite E, Ee, Era, Eaa, E1, Z.pow_1_r.
    rewrite <- Z.mul_mod_idemp_r, pow_mod_idemp, Z.mul_mod_idemp_l, Z.mul_mod_idemp_r by lia.
    by rewrite Z.mul_assoc.
  - destruct (IH (S i) _ (mul_mod acc acc m) Hr (proj1 Haa) ltac:(lia)) as [Hl E]. split; [exact Hl|].
    pose proof (Z.mod_pos_bound e 2 ltac:(lia)). assert (e mod 2 = 0) as -> by lia.
    rewrite E, Ee, Eaa, Z.pow_0_r, Z.mul_1_l.
    by rewrite <- Z.mul_mod_idemp_r, pow_mod_idemp, Z.mul_mod_idemp_r by lia.
Qed.

Lemma pow_mod_spec base exp :
  limbs 6 base -> limbs 6 exp -> 1 < val m ->
  below m (pow_mod base exp m) /\ val (pow_mod base exp m) = (val base ^ val exp) mod val m.
Proof.
  intros Hb He Hm1. unfold pow_mod.
  destruct (pow_loop_spec 384 0 exp FE_ONE base He) as [Hl E]; [split; [by_evaluation|exact Hm1]|done|done|].
  split; [exact Hl|]. rewrite E. change (val FE_ONE) with 1. by rewrite Z.mul_1_l, Z.div_1_r.
Qed.

Lemma inv_mod_spec a :
  limbs 6 a -> 2 <= val m ->
  below m (inv_mod a m) /\ val (inv_mod a m) = (val a ^ (val m - 2)) mod val m.
Proof.
  intros Ha Hm2. unfold inv_mod.
  destruct (sub_assign_below m [2; 0; 0; 0; 0; 0] Hm) as [Hl E]; [by_evaluation|change (val [2; 0; 0; 0; 0; 0]) with 2; lia|].
  destruct (pow_mod_spec a _ Ha Hl ltac:(lia)) as [Hb Ev]. split; [exact Hb|]. by rewrite Ev, E.
Qed.

End Modular.

(** ** Reading an element *)

Lemma from_le_app a b : from_le_bytes (a ++ b) = from_le_bytes a + 256 ^ Z.of_nat (length a) * from_le_bytes b.
Proof.
  induction a as [|x a IH]; [cbn [app from_le_bytes length]; lia|].
  cbn [app from_le_bytes length]. rewrite IH, Nat2Z.inj_succ, Z.pow_succ_r by lia. lia.
Qed.

Lemma from_be_app a b : from_be_bytes (a ++ b) = 256 ^ Z.of_nat (length b) * from_be_bytes a + from_be_bytes b.
Proof. unfold from_be_bytes. rewrite rev_app_distr, from_le_app, length_rev. lia. Qed.

Lemma chunks8_spec n bs :
  length bs = (8 * n)%nat ->
  limbs n (map from_be_bytes (rev (chunks8 n bs))) /\ val (map from_be_bytes (rev (chunks8 n bs))) = from_be_bytes bs.
Proof.
  revert bs; induction n as [|n IH]; intros bs Hl.
  { destruct bs; [|done]. done. }
  cbn [chunks8 rev]. rewrite map_app. cbn [map].
  destruct (IH (drop 8 bs)) as [[Ll Lf] E]; [rewrite length_drop; lia|]. rewrite length_map in Ll.
  assert (H8 : length (take 8 bs) = 8%nat) by (rewrite length_take; lia).
  pose proof (from_be_bytes_range (take 8 bs)) as Hr. rewrite H8 in Hr.
  split.
  - split; [rewrite length_app, length_map, Ll; cbn; lia|]. apply Forall_app. split; [done|].
    apply Forall_singleton. exact Hr.
  - assert (E2 : from_be_bytes bs = 256 ^ Z.of_nat (length (drop 8 bs)) * from_be_bytes (take 8 bs) + from_be_bytes (drop 8 bs))
      by (by rewrite <- from_be_app, take_drop).
    rewrite val_app, length_map, Ll, E, E2, length_drop, Hl. cbn [val]. unfold cap.
    replace (256 ^ Z.of_nat (8 * S n - 8)) with (2 ^ (64 * Z.of_nat n)); [lia|].
    change 256 with (2 ^ 8). rewrite <- Z.pow_mul_r by lia. f_equal. lia.
Qed.

Lemma fe_from_be_bytes_spec bs :
  length bs = 48%nat -> limbs 6 (fe_from_be_bytes bs) /\ val (fe_from_be_bytes bs) = from_be_bytes bs.
Proof. intros Hl. by apply chunks8_spec. Qed.

(** ** The same computation over the integers

    The reference: the curve's formulas on integers modulo [p], the inverse as a
    power, the scalar's bits by [Z.testbit]. [rep a v] says that the limbs [a]
    hold the residue [v]. *)

Definition p_ : Z := val P384_P.
Definition n_ : Z := val P384_N.

Definition zmul (a b : Z) : Z := (a * b) mod p_.
Definition zadd (a b : Z) : Z := (a + b) mod p_.
Definition zsub (a b : Z) : Z := (a - b) mod p_.
Definition zinv (a m : Z) : Z := Zpow_mod a (m - 2) m.

Record ZPoint := MkZPoint { zx : Z; zy : Z; zz : Z }.

Definition z_infinity : ZPoint := MkZPoint 1 1 0.

Definition z_double (p : ZPoint) : ZPoint :=
  if p.(zz) =? 0 then z_infinity
  else
    let delta := zmul p.(zz) p.(zz) in
    let gamma := zmul p.(zy) p.(zy) in
    let beta := zmul p.(zx) gamma in
    let t := zmul (zsub p.(zx) delta) (zadd p.(zx) delta) in
    let alpha := zadd (zadd t t) t in
    let beta2 := zadd beta beta in
    let beta4 := zadd beta2 beta2 in
    let beta8 := zadd beta4 beta4 in
    let x3 := zsub (zmul alpha alpha) beta8 in
    let yz := zadd p.(zy) p.(zz) in
    let z3 := zsub (zsub (zmul yz yz) gamma) delta in
    let gamma2 := zmul gamma gamma in
    let g2 := zadd gamma2 gamma2 in
    let g4 := zadd g2 g2 in
    let g8 := zadd g4 g4 in
    MkZPoint x3 (zsub (zmul alpha (zsub beta4 x3)) g8) z3.

Definition z_add (a b : ZPoint) : ZPoint :=
  if a.(zz) =? 0 then b
  else if b.(zz) =? 0 then a
  else
    let z1z1 := zmul a.(zz) a.(zz) in
    let z2z2 := zmul b.(zz) b.(zz) in
    let u1 := zmul a.(zx) z2z2 in
    let u2 := zmul b.(zx) z1z1 in
    let s1 := zmul (zmul a.(zy) b.(zz)) z2z2 in
    let s2 := zmul (zmul b.(zy) a.(zz)) z1z1 in
    if u1 =? u2 then (if s1 =? s2 then z_double a else z_infinity)
    else
      let h := zsub u2 u1 in
      let h2 := zadd h h in
      let i := zmul h2 h2 in
      let j := zmul h i in
      let d := zsub s2 s1 in
      let r := zadd d d in
      let v := zmul u1 i in
      let x3 := zsub (zsub (zmul r r) j) (zadd v v) in
      let s1j := zmul s1 j in
      let y3 := zsub (zmul r (zsub v x3)) (zadd s1j s1j) in
      let w := zadd a.(zz) b.(zz) in
      MkZPoint x3 y3 (zmul (zsub (zsub (zmul w w) z1z1) z2z2) h).

Fixpoint z_mul_loop (i : nat) (k : Z) (p acc : ZPoint) : ZPoint :=
  match i with
  | O => acc
  | S i' =>
      let acc := z_double acc in
      z_mul_loop i' k p (if Z.testbit k (Z.of_nat i') then z_add acc p else acc)
  end.

Definition z_affine_x (p : ZPoint) : option Z :=
  if p.(zz) =? 0 then None
  else let w := zinv p.(zz) p_ in Some (zmul p.(zx) (zmul w w)).

(** [y^2 = x^3 - 3x + b] modulo [p]. *)
Definition z_on_curve (x y : Z) : bool := (y * y) mod p_ =? (x * x * x - 3 * x + val P384_B) mod p_.

Definition p384_reference `{Digest} (public_key message signature : list byte) : result SigError unit :=
  if negb (length public_key =? PUBLIC_KEY_BYTES)%nat || negb (u8v (hd x00 public_key) =? 4)
  then Err BadKeyEncoding
  else if negb (length signature =? SIGNATURE_BYTES)%nat then Err BadSignatureEncoding
  else
    let qx := from_be_bytes (slice public_key 1 48) in
    let qy := from_be_bytes (slice public_key 49 48) in
    if negb (qx <? p_) || negb (qy <? p_) || negb (z_on_curve qx qy) then Err KeyNotOnCurve
    else
      let r := from_be_bytes (take 48 signature) in
      let s := from_be_bytes (drop 48 signature) in
      if (r =? 0) || (s =? 0) || negb (r <? n_) || negb (s <? n_) then Err ComponentOutOfRange
      else
        let e := from_be_bytes (digest message) mod n_ in
        let w := zinv s n_ in
        let point := z_add (z_mul_loop 384 ((e * w) mod n_) (MkZPoint (val GX) (val GY) 1) z_infinity)
                           (z_mul_loop 384 ((r * w) mod n_) (MkZPoint qx qy 1) z_infinity) in
        match z_affine_x point with
        | None => Err DoesNotVerify
        | Some x => if x mod n_ =? r then Ok tt else Err DoesNotVerify
        end.

Lemma P_limbs : limbs 6 P384_P.
Proof. by_evaluation. Qed.
Lemma N_limbs : limbs 6 P384_N.
Proof. by_evaluation. Qed.

Lemma p_pos : 2 <= p_.
Proof. by_evaluation. Qed.
Lemma n_pos : 2 <= n_.
Proof. by_evaluation. Qed.
Lemma twice_n : cap 6 <= 2 * n_.
Proof. by_evaluation. Qed.

Definition rep (a : Fe) (v : Z) : Prop := below P384_P a /\ val a = v.

Lemma rep_mul a b v w : rep a v -> rep b w -> rep (mulp a b) (zmul v w).
Proof.
  intros [[Ha _] <-] [[Hb _] <-]. apply mul_mod_spec; [exact P_limbs|done|done|]. pose proof p_pos. unfold p_ in *. lia.
Qed.
Lemma rep_add a b v w : rep a v -> rep b w -> rep (addp a b) (zadd v w).
Proof. intros [Ha <-] [Hb <-]. apply add_mod_spec; [exact P_limbs|done|done]. Qed.
Lemma rep_sub a b v w : rep a v -> rep b w -> rep (subp a b) (zsub v w).
Proof. intros [Ha <-] [Hb <-]. apply sub_mod_spec; [exact P_limbs|done|done]. Qed.

Lemma val_inj n a b : limbs n a -> limbs n b -> val a = val b -> a = b.
Proof.
  revert a b; induction n as [|n IH]; intros a b Ha Hb E.
  { by apply limbs_0_inv in Ha as ->, Hb as ->. }
  apply limbs_inv in Ha as (x & a' & -> & Hx & Ha). apply limbs_inv in Hb as (y & b' & -> & Hy & Hb).
  cbn [val] in E. pose proof (val_range _ _ Ha). pose proof (val_range _ _ Hb). unfold u64_ok in *.
  assert (val a' = val b') by lia. f_equal; [lia|]. by apply IH.
Qed.

Lemma rep_eq a b v w : rep a v -> rep b w -> bool_decide (a = b) = (v =? w).
Proof.
  intros [[Ha _] <-] [[Hb _] <-]. destruct (Z.eqb_spec (val a) (val b)) as [E|E].
  - apply bool_decide_eq_true. by eapply val_inj.
  - apply bool_decide_eq_false. congruence.
Qed.

Lemma rep_zero a v : rep a v -> is_zero a = (v =? 0).
Proof. intros [[Ha _] <-]. by apply is_zero_spec with 6%nat. Qed.

Create HintDb rep.
#[export] Hint Resolve rep_mul rep_add rep_sub : rep.

Definition rep_point (p : Point) (q : ZPoint) : Prop :=
  rep p.(px) q.(zx) /\ rep p.(py) q.(zy) /\ rep p.(pz) q.(zz).

Lemma rep_one : rep FE_ONE 1.
Proof. split; by_evaluation. Qed.
Lemma rep_infinity : rep_point INFINITY z_infinity.
Proof. split; [exact rep_one|]. split; [exact rep_one|]. split; by_evaluation. Qed.
#[export] Hint Resolve rep_one rep_infinity : rep.

Lemma rep_double p q : rep_point p q -> rep_point (pt_double p) (z_double q).
Proof.
  intros (Hx & Hy & Hz). unfold pt_double, z_double. rewrite (rep_zero _ _ Hz).
  destruct (zz q =? 0); [exact rep_infinity|]. cbv zeta. unfold rep_point. cbn [px py pz zx zy zz].
  refine (conj _ (conj _ _)); auto 30 with rep.
Qed.

Lemma rep_add_point a b c d : rep_point a c -> rep_point b d -> rep_point (pt_add a b) (z_add c d).
Proof.
  intros Ha Hb. pose proof Ha as (Hax & Hay & Haz). pose proof Hb as (Hbx & Hby & Hbz).
  unfold pt_add, z_add. rewrite (rep_zero _ _ Haz), (rep_zero _ _ Hbz).
  destruct (zz c =? 0); [exact Hb|]. destruct (zz d =? 0); [exact Ha|]. cbv zeta.
  assert (Hu : forall u1 u2 v1 v2 (X Y : Point), rep u1 v1 -> rep u2 v2 ->
    (if bool_decide (u1 = u2) then X else Y) = (if v1 =? v2 then X else Y)) by (intros; by erewrite rep_eq).
  rewrite (Hu _ _ (zmul (zx c) (zmul (zz d) (zz d))) (zmul (zx d) (zmul (zz c) (zz c)))) by auto with rep.
  rewrite (Hu _ _ (zmul (zmul (zy c) (zz d)) (zmul (zz d) (zz d))) (zmul (zmul (zy d) (zz c)) (zmul (zz c) (zz c))))
    by auto with rep.
  destruct (_ =? _); [destruct (_ =? _); [by apply rep_double|exact rep_infinity]|].
  unfold rep_point. cbn [px py pz zx zy zz]. refine (conj _ (conj _ _)); auto 40 with rep.
Qed.

Lemma bit_at_testbit k i : limbs 6 k -> (i < 384)%nat -> (bit_at k i =? 1) = Z.testbit (val k) (Z.of_nat i).
Proof.
  intros Hk Hi. rewrite (bit_at_spec 6) by (done || lia). rewrite <- Z.testbit_spec' by lia.
  by destruct (Z.testbit _ _).
Qed.

Lemma rep_mul_loop i k p q acc zacc :
  limbs 6 k -> (i <= 384)%nat -> rep_point p q -> rep_point acc zacc ->
  rep_point (pt_mul_loop i k p acc) (z_mul_loop i (val k) q zacc).
Proof.
  intros Hk Hi Hp. revert acc zacc; induction i as [|i IH]; intros acc zacc Ha; [exact Ha|].
  cbn [pt_mul_loop z_mul_loop]. rewrite bit_at_testbit by (done || lia). apply IH; [lia|].
  destruct (Z.testbit _ _); [|by apply rep_double]. apply rep_add_point; [by apply rep_double|exact Hp].
Qed.

Lemma zinv_spec (m a : Fe) : limbs 6 m -> limbs 6 a -> 2 <= val m -> val (inv_mod a m) = zinv (val a) (val m).
Proof.
  intros Hm Ha H2. unfold zinv. rewrite Zpow_mod_correct by lia. by apply inv_mod_spec.
Qed.

Lemma rep_affine p q : rep_point p q ->
  match affine_x p, z_affine_x q with
  | Some a, Some v => rep a v
  | None, None => True
  | _, _ => False
  end.
Proof.
  intros (Hx & Hy & Hz). unfold affine_x, z_affine_x. rewrite (rep_zero _ _ Hz).
  destruct (zz q =? 0); [done|].
  assert (Hi : rep (inv_mod (pz p) P384_P) (zinv (zz q) p_)).
  { destruct Hz as [[Hz _] <-]. pose proof p_pos.
    split; [by apply inv_mod_spec; [exact P_limbs|..]|]. by apply zinv_spec; [exact P_limbs|..]. }
  auto with rep.
Qed.

Lemma rep_coordinate a : limbs 6 a -> val a < p_ -> rep a (val a).
Proof. intros Ha Hlt. split; [split; done|done]. Qed.

Lemma B_rep : rep P384_B (val P384_B).
Proof. split; [by_evaluation|reflexivity]. Qed.
#[export] Hint Resolve B_rep : rep.

Lemma on_curve_spec x y : rep x (val x) -> rep y (val y) -> on_curve x y = z_on_curve (val x) (val y).
Proof.
  intros Hx Hy. unfold on_curve.
  set (X := val x) in *. set (Y := val y) in *.
  rewrite (rep_eq _ _ (zmul Y Y) (zadd (zsub (zmul (zmul X X) X) (zadd (zadd X X) X)) (val P384_B))) by auto with rep.
  unfold z_on_curve. pose proof p_pos.
  assert (E : zadd (zsub (zmul (zmul X X) X) (zadd (zadd X X) X)) (val P384_B) = (X * X * X - 3 * X + val P384_B) mod p_); [|by rewrite E].
  unfold zadd, zsub, zmul. rewrite Z.mul_mod_idemp_l by lia.
  rewrite (Z.add_mod_idemp_l (X + X)) by lia.
  rewrite <- Zminus_mod, Z.add_mod_idemp_l by lia. f_equal. lia.
Qed.

Lemma below_order_spec v : limbs 6 v -> limbs 6 (below_order v) /\ val (below_order v) = val v mod n_.
Proof.
  intros Hv. pose proof (val_range _ _ Hv). pose proof twice_n. pose proof n_pos.
  unfold below_order. rewrite (less_spec 6) by (done || exact N_limbs). fold n_.
  destruct (Z.ltb_spec (val v) n_); cbn [negb].
  - split; [done|]. by rewrite Z.mod_small by lia.
  - destruct (sub_assign_below v P384_N Hv N_limbs) as [Hl E]; [fold n_; lia|]. fold n_ in E.
    split; [exact Hl|]. rewrite E. apply Z.mod_unique_pos with 1; lia.
Qed.

Lemma slice_48 (l : list byte) k : (k + 48 <= length l)%nat -> length (slice l k 48) = 48%nat.
Proof. apply length_slice. Qed.

Section Ecdsa.
Context `{DL : DigestLaws}.

(** The last comparison. *)
Lemma accept_spec p q r :
  rep_point p q -> limbs 6 r ->
  match affine_x p with
  | None => Err DoesNotVerify
  | Some x => if bool_decide (below_order x = r) then Ok tt else Err DoesNotVerify
  end =
  match z_affine_x q with
  | None => Err DoesNotVerify
  | Some x => if x mod n_ =? val r then (Ok tt : result SigError unit) else Err DoesNotVerify
  end.
Proof.
  intros Hp Hr. pose proof (rep_affine p q Hp) as Ha.
  destruct (affine_x p) as [x|], (z_affine_x q) as [v|]; try done.
  destruct Ha as [[Hx _] <-]. destruct (below_order_spec x Hx) as [Hbx Ebx]. rewrite <- Ebx.
  destruct (Z.eqb_spec (val (below_order x)) (val r)) as [E|E].
  - rewrite bool_decide_true; [done|]. by eapply val_inj.
  - rewrite bool_decide_false; [done|]. congruence.
Qed.

(** The part after the encodings were checked. *)
Lemma ecdsa_core qx qy r s e :
  limbs 6 qx -> limbs 6 qy -> limbs 6 r -> limbs 6 s -> limbs 6 e -> val qx < p_ -> val qy < p_ -> val r < n_ ->
  let w := inv_mod s P384_N in
  let point := pt_add (pt_mul (mul_mod (below_order e) w P384_N) (MkPoint GX GY FE_ONE))
                      (pt_mul (mul_mod r w P384_N) (MkPoint qx qy FE_ONE)) in
  let zw := zinv (val s) n_ in
  let zpoint := z_add (z_mul_loop 384 (((val e mod n_) * zw) mod n_) (MkZPoint (val GX) (val GY) 1) z_infinity)
                      (z_mul_loop 384 ((val r * zw) mod n_) (MkZPoint (val qx) (val qy) 1) z_infinity) in
  match affine_x point with
  | None => Err DoesNotVerify
  | Some x => if bool_decide (below_order x = r) then Ok tt else Err DoesNotVerify
  end =
  match z_affine_x zpoint with
  | None => Err DoesNotVerify
  | Some x => if x mod n_ =? val r then (Ok tt : result SigError unit) else Err DoesNotVerify
  end.
Proof.
  intros Hqx Hqy Hr Hs He Hlx Hly Hlr. cbv zeta. pose proof n_pos as Hn.
  destruct (inv_mod_spec P384_N N_limbs s Hs Hn) as [[Hw _] _].
  pose proof (zinv_spec P384_N s N_limbs Hs Hn) as Ew. fold n_ in Ew.
  destruct (below_order_spec e He) as [Hbe Ebe].
  destruct (mul_mod_spec P384_N N_limbs _ _ Hbe Hw ltac:(fold n_; lia)) as [[Hu1 _] Eu1].
  destruct (mul_mod_spec P384_N N_limbs _ _ Hr Hw ltac:(fold n_; lia)) as [[Hu2 _] Eu2].
  fold n_ in Eu1, Eu2. rewrite Ew in Eu1, Eu2. rewrite Ebe in Eu1. rewrite <- Eu1, <- Eu2.
  assert (Hp : rep_point (MkPoint qx qy FE_ONE) (MkZPoint (val qx) (val qy) 1)).
  { refine (conj _ (conj _ _)); [by apply rep_coordinate|by apply rep_coordinate|exact rep_one]. }
  assert (Hg : rep_point (MkPoint GX GY FE_ONE) (MkZPoint (val GX) (val GY) 1)).
  { refine (conj _ (conj _ _)); [split; by_evaluation|split; by_evaluation|exact rep_one]. }
  apply accept_spec; [|done]. unfold pt_mul.
  apply rep_add_point; (apply rep_mul_loop; [done|exact (le_n _)|done|exact rep_infinity]).
Qed.

Lemma p384_verify_reference pk message sig : p384_verify pk message sig = p384_reference pk message sig.
Proof.
  unfold p384_verify, p384_reference.
  destruct (Nat.eqb_spec (length pk) PUBLIC_KEY_BYTES) as [Hpk|]; [|done]. cbn [negb orb].
  destruct (negb _); [done|].
  destruct (Nat.eqb_spec (length sig) SIGNATURE_BYTES) as [Hsig|]; [|done]. cbn [negb]. cbv zeta.
  unfold PUBLIC_KEY_BYTES, SIGNATURE_BYTES in *.
  destruct (fe_from_be_bytes_spec (slice pk 1 48)) as [Hx Ex]; [apply slice_48; lia|].
  destruct (fe_from_be_bytes_spec (slice pk 49 48)) as [Hy Ey]; [apply slice_48; lia|].
  destruct (fe_from_be_bytes_spec (take 48 sig)) as [Hr Er]; [rewrite length_take; lia|].
  destruct (fe_from_be_bytes_spec (drop 48 sig)) as [Hs Es]; [rewrite length_drop; lia|].
  destruct (fe_from_be_bytes_spec (digest message)) as [He Ee]; [apply digest_ok|].
  rewrite <- Ex, <- Ey, <- Er, <- Es, <- Ee.
  set (qx := fe_from_be_bytes (slice pk 1 48)) in *. set (qy := fe_from_be_bytes (slice pk 49 48)) in *.
  set (r := fe_from_be_bytes (take 48 sig)) in *. set (s := fe_from_be_bytes (drop 48 sig)) in *.
  set (e := fe_from_be_bytes (digest message)) in *.
  rewrite !(less_spec 6) by (done || exact P_limbs || exact N_limbs). rewrite !(is_zero_spec 6) by done. fold p_ n_.
  destruct (Z.ltb_spec (val qx) p_) as [Hlx|]; [|done]. destruct (Z.ltb_spec (val qy) p_) as [Hly|]; [|done].
  cbn [negb orb]. rewrite on_curve_spec by (by apply rep_coordinate).
  destruct (negb _); [done|].
  destruct (Z.ltb_spec (val r) n_) as [Hlr|Hge]; [|by rewrite !orb_true_r].
  destruct (_ || _); [done|]. by apply ecdsa_core.
Qed.

End Ecdsa.

(** C6 (ES384 over limbs is ES384 over the integers). For every key, message and
    signature, the verifier's arithmetic on six 64-bit limbs, its carries and
    borrows, its shift-and-add multiplication, its inversion by Fermat's theorem
    and its projective curve formulas, gives the answer, or the very error, of the
    same verification written over the integers modulo the curve's primes. *)
Theorem es384_is_integer_ecdsa `{DL : DigestLaws} (public_key message signature : list byte) :
  p384_verify public_key message signature = p384_reference public_key message signature.
Proof. apply p384_verify_reference. Qed.

(** The key of the generator itself, and a signature of ones. *)
Lemma es384_is_integer_ecdsa_witness :
  let key := x04 :: to_be_bytes 48 (val GX) ++ to_be_bytes 48 (val GY) in
  let one := to_be_bytes 48 1 in
  @p384_verify Register_Digest key [] (one ++ one) = @p384_reference Register_Digest key [] (one ++ one).
Proof. cbn zeta. apply (es384_is_integer_ecdsa (DL := Register_DigestLaws)). Defined.
