(* ===== verification/Verifier.v ===== *)
(** * The offline verifier ([trailryx-verify/src/verify.rs], [merkle.rs])

    Every check of [verify], in its order, over the pack the reader returned. A
    finding carries its level and the name of its check; the sentence written
    for a human is not modelled, and nothing reads it back. *)

From S2P Require Import Prelude Bytes Ids Record Codec Digest Merkle Completeness Segment PackFormat VerifyRecord Tsp P384.

(** ** The report *)

Inductive Level := Note | Weak | Broken.

#[export] Instance Level_eq_dec : EqDecision Level.
Proof. solve_decision. Defined.

Record Finding := MkFinding { f_level : Level; f_check : string }.

#[export] Instance Finding_eq_dec : EqDecision Finding.
Proof. solve_decision. Defined.

Record Report := MkReport { findings : list Finding; records_checked : Z; segments_checked : Z }.

Definition report_default : Report := MkReport [] 0 0.

Definition report_push (l : Level) (check : string) (r : Report) : Report :=
  MkReport (r.(findings) ++ [MkFinding l check]) r.(records_checked) r.(segments_checked).
Definition note : string -> Report -> Report := report_push Note.
Definition weak : string -> Report -> Report := report_push Weak.
Definition broken : string -> Report -> Report := report_push Broken.

Definition verified (r : Report) : bool :=
  negb (existsb (fun f => bool_decide (f.(f_level) = Broken)) r.(findings)).

Definition when (b : bool) (f : Report -> Report) (r : Report) : Report := if b then f r else r.

Section Verifier.
Context `{D : Digest}.

(** ** Merkle roots *)

Definition v_empty_root : Hash := digest [].
Definition v_leaf_hash (data : list byte) : Hash := hash_parts [[x00]; data].
Definition v_node_hash (left right : Hash) : Hash := hash_parts [[x01]; left; right].

(** [while k << 1 < n { k <<= 1 }]; doubling from 1, [n] turns reach [n]. *)
Fixpoint v_split_loop (fuel k n : nat) : nat :=
  match fuel with
  | O => k
  | S f => if (2 * k <? n)%nat then v_split_loop f (2 * k) n else k
  end.

Fixpoint root_of_fuel (fuel : nat) (l : list Hash) : Hash :=
  match fuel with
  | O => v_empty_root
  | S f =>
      match l with
      | [] => v_empty_root
      | [x] => x
      | _ =>
          let n := length l in
          let k := v_split_loop n 1 n in
          v_node_hash (root_of_fuel f (take k l)) (root_of_fuel f (drop k l))
      end
  end.
Definition root_of (l : list Hash) : Hash := root_of_fuel (length l) l.

(** ** What is hashed *)

Definition V_CHAIN_DOMAIN : list byte := lit "trailryx/chain/v1" ++ [x00].

Definition v_chain_step (prev : Hash) (seq_ : Z) (record_bytes : list byte) : Hash :=
  hash_parts [V_CHAIN_DOMAIN; prev; to_be_bytes 8 seq_;
              to_be_bytes 8 (Z.of_nat (length record_bytes)); record_bytes].

Definition entry_leaf (key : list byte) (seq_ : Z) (link : Hash) : Hash :=
  hash_parts [[x00]; to_be_bytes 8 (Z.of_nat (length key)); key; to_be_bytes 8 seq_; link].

Definition v_index_root_parts (nr : str * Hash) : list (list byte) :=
  [to_be_bytes 8 (Z.of_nat (length nr.1)); nr.1; nr.2].

Definition v_manifest_parts (s : PackSegment) : list (list byte) :=
  [lit "trailryx/segment-manifest/v1" ++ [x00]; to_be_bytes 2 s.(psg_format_version);
   to_be_bytes 8 s.(psg_segment); to_be_bytes 2 s.(psg_shard); to_be_bytes 8 s.(psg_records);
   s.(psg_history_root); s.(psg_chain_before); s.(psg_chain_after);
   to_be_bytes 8 (Z.of_nat (length s.(psg_index_roots)))]
  ++ concat (map v_index_root_parts s.(psg_index_roots))
  ++ [to_be_bytes 8 s.(psg_first_recorded_at); to_be_bytes 8 s.(psg_last_recorded_at);
      alg_bytes s.(psg_algorithms)].
Definition v_manifest_root (s : PackSegment) : Hash := hash_parts (v_manifest_parts s).

Definition v_shard_leaf (shard_ segments : Z) (root_ : Hash) : Hash :=
  v_leaf_hash (hash_parts [lit "trailryx/store-leaf/v1" ++ [x00]; to_be_bytes 2 shard_;
                           to_be_bytes 8 segments; root_]).

(** ** Statements, keys and signatures *)

Definition v_field (bytes : list byte) : list byte := to_be_bytes 8 (Z.of_nat (length bytes)) ++ bytes.

Definition v_root_statement (tenant_ : str) (store_root_ : Hash) (shards generated_at : Z)
    (algorithm : str) (public_key : list byte) : list byte :=
  (lit "trailryx/signed-root/v1" ++ [x00]) ++ v_field tenant_ ++ v_field store_root_
  ++ to_be_bytes 4 shards ++ to_be_bytes 8 generated_at ++ v_field algorithm ++ v_field public_key.

Definition v_witness_statement (witness : str) (store_root_ : Hash) (seen_at : Z)
    (algorithm : str) (public_key : list byte) : list byte :=
  (lit "trailryx/witness/v1" ++ [x00]) ++ v_field witness ++ v_field store_root_
  ++ to_be_bytes 8 seen_at ++ v_field algorithm ++ v_field public_key.

Definition v_key_id (public_key : list byte) : Hash :=
  hash_parts [lit "trailryx/key-id/v1" ++ [x00]; public_key].

Inductive Checked := Good | Bad (why : SigError) | UnknownAlgorithm.

Definition check_one (algorithm : str) (public_key statement signature : list byte) : Checked :=
  if bool_decide (algorithm = lit "es384") then
    match p384_verify public_key statement signature with Ok _ => Good | Err e => Bad e end
  else UnknownAlgorithm.

(** ** Algorithms *)

Definition check_algorithms (p : Pack) (r : Report) : Report :=
  let '(hash_, signature, kem) := p.(pk_header).(ph_algorithms) in
  let r := when (negb (u8v hash_ =? 1)) (weak "hash-algorithm") r in
  let r := when (u8v signature =? 3) (note "signature-algorithm") r in
  let r := when (negb (u8v kem =? 1)) (weak "kem-algorithm") r in
  fold_left (fun r s => when (negb (bool_decide (s.(psg_algorithms) = p.(pk_header).(ph_algorithms))))
                          (note "mixed-algorithms") r) p.(pk_segments) r.

(** ** Anchors *)

(** One turn of the loop: whether the anchor counts, and the report. *)
Definition check_anchor (p : Pack) (a : Anchor) (r : Report) : nat * Report :=
  if negb (bool_decide (a.(an_root) = p.(pk_header).(ph_store_root))) then (0%nat, broken "anchor" r)
  else if negb (bool_decide (a.(an_kind) = Tsp)) then (0%nat, weak "anchor" r)
  else
    match tsp_read a.(an_evidence) with
    | Err _ => (0%nat, broken "anchor" r)
    | Ok stamped =>
        if negb (covers stamped a.(an_root)) then (0%nat, broken "anchor" r)
        else
          let bound r :=
            let r := weak "anchor-signature" (note "anchor" r) in
            let generated_at_seconds := p.(pk_header).(ph_generated_at) / 1000000000 in
            (1%nat, when (stamped.(stamped_at) <? generated_at_seconds) (weak "anchor-clock") r) in
          match anchor_nonce a, stamped.(stamped_nonce) with
          | Some sent, Some echoed =>
              if sent =? echoed then bound r else (0%nat, broken "anchor" r)
          | _, _ => bound (weak "anchor-freshness" r)
          end
    end.

Fixpoint check_anchors (p : Pack) (l : list Anchor) (bound : nat) (r : Report) : nat * Report :=
  match l with
  | [] => (bound, r)
  | a :: l' => let '(n, r) := check_anchor p a r in check_anchors p l' (bound + n) r
  end.

(** ** Witnesses and the signature *)

(** The loop's state: independent attestations, the keys seen, the report. *)
Record WitnessState := MkWitnessState { ws_independent : nat; ws_seen : list Hash; ws_report : Report }.

Definition check_witness (p : Pack) (publisher : option Hash) (w : PackWitness) (st : WitnessState) : WitnessState :=
  let id := v_key_id w.(pw_public_key) in
  let statement := v_witness_statement w.(pw_witness) p.(pk_header).(ph_store_root) w.(pw_seen_at)
                     w.(pw_algorithm) w.(pw_public_key) in
  let is_publisher := bool_decide (publisher = Some id) in
  let is_repeat := existsb (fun k => bool_decide (k = id)) st.(ws_seen) in
  let '(independent, r) :=
    match check_one w.(pw_algorithm) w.(pw_public_key) statement w.(pw_signature) with
    | Good => ((st.(ws_independent) + (if negb is_publisher && negb is_repeat then 1 else 0))%nat,
               note "witness" st.(ws_report))
    | Bad _ => (st.(ws_independent), broken "witness" st.(ws_report))
    | UnknownAlgorithm => (st.(ws_independent), weak "witness" st.(ws_report))
    end in
  let r := when is_publisher (weak "witness-independence") r in
  let r := when (w.(pw_seen_at) <? p.(pk_header).(ph_generated_at)) (weak "witness-clock") r in
  let r := when is_repeat (weak "witness-independence") r in
  MkWitnessState independent (st.(ws_seen) ++ [id]) r.

Definition check_witnesses (p : Pack) (publisher : option Hash) (r : Report) : Report :=
  let '(anchored_, r) := check_anchors p p.(pk_anchors) 0 r in
  let st := fold_left (fun st w => check_witness p publisher w st) p.(pk_witnesses) (MkWitnessState 0 [] r) in
  when ((st.(ws_independent) =? 0) && (anchored_ =? 0))%nat (weak "witnesses") st.(ws_report).

Definition check_signature (p : Pack) (r : Report) : Report :=
  match p.(pk_signature) with
  | None => check_witnesses p None (weak "root-signature" r)
  | Some s =>
      let statement := v_root_statement p.(pk_header).(ph_tenant) p.(pk_header).(ph_store_root)
                         p.(pk_header).(ph_shard_count) p.(pk_header).(ph_generated_at)
                         s.(sg_algorithm) s.(sg_public_key) in
      let r :=
        match check_one s.(sg_algorithm) s.(sg_public_key) statement s.(sg_signature) with
        | Good => note "root-signature" r
        | Bad _ => broken "root-signature" r
        | UnknownAlgorithm => weak "root-signature" r
        end in
      check_witnesses p (Some (v_key_id s.(sg_public_key))) r
  end.

(** ** One segment *)

(** The loop over the record bytes; the first that does not decode ends it. *)
Fixpoint parse_fields (bytes : list (list byte)) : option (list Fields) :=
  match bytes with
  | [] => Some []
  | b :: bs =>
      match fields b with
      | Ok f => fs ← parse_fields bs; Some (f :: fs)
      | Err _ => None
      end
  end.

(** The loop over the chain: the links, the head, and the gaps reported. *)
Fixpoint check_chain (i : Z) (link : Hash) (l : list (Fields * list byte)) (r : Report)
    : list Hash * Hash * Report :=
  match l with
  | [] => ([], link, r)
  | (f, bytes) :: l' =>
      let link := v_chain_step link f.(fd_seq) bytes in
      let r := when (negb (f.(fd_seq) =? i + 1)) (broken "sequence-contiguous") r in
      let '(links, head, r) := check_chain (i + 1) link l' r in
      (link :: links, head, r)
  end.

(** The entries of one dimension, or [None] where a key cannot be rebuilt. *)
Fixpoint index_entries (dim : str) (l : list (Fields * Hash)) : option (list Entry) :=
  match l with
  | [] => Some []
  | (f, link) :: l' =>
      key ← key_for dim f;
      es ← index_entries dim l';
      Some (MkEntry key f.(fd_seq) link :: es)
  end.

(** [windows(2)], each pair in order. *)
Fixpoint strictly_sorted (l : list Entry) : bool :=
  match l with
  | a :: (b :: _) as l' => pos_lt a b && strictly_sorted l'
  | _ => true
  end.

Definition check_index (dim : str) (declared : Hash) (parsed : list Fields) (links : list Hash) (r : Report) : Report :=
  match index_entries dim (zip parsed links) with
  | None => weak "index-dimension" r
  | Some es =>
      let es := sort_entries es in
      if negb (strictly_sorted es) then broken "index-strictly-sorted" r
      else
        let derived := root_of (map (fun e => entry_leaf e.(e_key) e.(e_seq) e.(record_link)) es) in
        when (negb (bool_decide (derived = declared))) (broken "index-root") r
  end.

Definition add_records (n : Z) (r : Report) : Report :=
  MkReport r.(findings) (r.(records_checked) + n) r.(segments_checked).
Definition add_segment (r : Report) : Report :=
  MkReport r.(findings) r.(records_checked) (r.(segments_checked) + 1).

Definition check_segment (p : Pack) (s : PackSegment) (r : Report) : Report :=
  match records_for p s.(psg_shard) s.(psg_segment) with
  | None => broken "records-present" r
  | Some set =>
      let r := when (negb (Z.of_nat (length set.(rs_records)) =? s.(psg_records))) (broken "record-count") r in
      match parse_fields set.(rs_records) with
      | None => broken "record-decodes" r
      | Some parsed =>
          let '(links, head, r) := check_chain 0 s.(psg_chain_before) (zip parsed set.(rs_records)) r in
          let r := add_records (Z.of_nat (length parsed)) r in
          let r := when (negb (bool_decide (head = s.(psg_chain_after)))) (broken "chain-within-segment") r in
          let history_ := root_of (map v_leaf_hash links) in
          let r := when (negb (bool_decide (history_ = s.(psg_history_root)))) (broken "history-root") r in
          let first := default 0 (list_min (map fd_recorded_at parsed)) in
          let last := default 0 (list_max (map fd_recorded_at parsed)) in
          let r := when (negb (first =? s.(psg_first_recorded_at)) || negb (last =? s.(psg_last_recorded_at)))
                     (broken "time-span") r in
          fold_left (fun r nr => check_index nr.1 nr.2 parsed links r) s.(psg_index_roots) r
      end
  end.

(** ** One shard *)

(** [sort_by_key] on the segment id, a stable sort. *)
Fixpoint insert_segment (s : PackSegment) (l : list PackSegment) : list PackSegment :=
  match l with
  | [] => [s]
  | x :: l' => if x.(psg_segment) <? s.(psg_segment) then x :: insert_segment s l' else s :: l
  end.
Definition sort_segments (l : list PackSegment) : list PackSegment := foldr insert_segment [] l.

Definition shard_segments (p : Pack) (shard_ : Z) : list PackSegment :=
  sort_segments (filter (fun s => s.(psg_shard) = shard_) p.(pk_segments)).

(** The loop that stops at the first wrong number. *)
Fixpoint check_numbering (at_ : Z) (l : list PackSegment) (r : Report) : Report :=
  match l with
  | [] => r
  | s :: l' =>
      if negb (s.(psg_segment) =? at_ + 1) then broken "segment-numbering" r
      else check_numbering (at_ + 1) l' r
  end.

(** The loop over a shard's segments: the report, what was visited, the leaves. *)
Fixpoint check_shard_segments (p : Pack) (previous : option Hash) (l : list PackSegment) (r : Report)
    : Report * list (Z * Z) * list Hash :=
  match l with
  | [] => (r, [], [])
  | s :: l' =>
      let r := add_segment (check_segment p s r) in
      let r := when (match previous with Some h => negb (bool_decide (h = s.(psg_chain_before))) | None => false end)
                 (broken "chain-across-segments") r in
      let '(r, visited, leaves_) := check_shard_segments p (Some s.(psg_chain_after)) l' r in
      (r, (s.(psg_shard), s.(psg_segment)) :: visited, v_leaf_hash (v_manifest_root s) :: leaves_)
  end.

Definition check_shard (p : Pack) (sh : PackShard) (r : Report) : Report * list (Z * Z) :=
  let segments := shard_segments p sh.(psh_shard) in
  let r := when (negb (Z.of_nat (length segments) =? sh.(psh_segment_count))) (broken "segment-count") r in
  let r := check_numbering 0 segments r in
  let r := match segments with
           | [] => r
           | first :: _ =>
               if bool_decide (first.(psg_chain_before) = Hash_ZERO) then broken "first-segment-start" r
               else note "first-segment-start" r
           end in
  let '(r, visited, leaves_) := check_shard_segments p None segments r in
  (when (negb (bool_decide (root_of leaves_ = sh.(psh_root)))) (broken "shard-root") r, visited).

Fixpoint check_pack_shards (p : Pack) (l : list PackShard) (r : Report) : Report * list (Z * Z) :=
  match l with
  | [] => (r, [])
  | sh :: l' =>
      let '(r, visited) := check_shard p sh r in
      let '(r, more) := check_pack_shards p l' r in
      (r, visited ++ more)
  end.

(** ** The whole pack *)

Definition verify_pack (p : Pack) : Report :=
  let r := check_algorithms p report_default in
  let r := check_signature p r in
  let r := when (negb (Z.of_nat (length p.(pk_shards)) =? p.(pk_header).(ph_shard_count))) (broken "shard-count") r in
  let '(r, visited) := check_pack_shards p p.(pk_shards) r in
  let store_leaves := map (fun s => v_shard_leaf s.(psh_shard) s.(psh_segment_count) s.(psh_root)) p.(pk_shards) in
  let r := when (negb (bool_decide (root_of store_leaves = p.(pk_header).(ph_store_root)))) (broken "store-root") r in
  let r := fold_left (fun r s => when (negb (existsb (fun sh => sh.(psh_shard) =? s.(psg_shard)) p.(pk_shards)))
                                   (broken "orphan-segment") r) p.(pk_segments) r in
  fold_left (fun r s => when (negb (existsb (fun v => bool_decide (v = (s.(rs_shard), s.(rs_segment)))) visited))
                          (broken "orphan-records") r) p.(pk_record_sets) r.

Definition verify (bytes : list byte) : result PackError Report := verify_pack <$> Pack_parse bytes.

End Verifier.
