(* ===== verification/VerifierProps.v ===== *)
(** * What a clean report means

    The verifier's hashes are the store's; what each check adds to the report;
    and [verified (verify_pack p)] as one decidable condition, [pack_good p]. *)

From S2P Require Import Prelude Bytes Ids Record Codec Digest Merkle Completeness Segment Wire WireRecord PackFormat Sign PackWriter VerifyRecord Tsp P384 Verifier.

(** ** Reports: what a finding does to the verdict *)

Lemma verified_push l c r : verified (report_push l c r) = verified r && negb (bool_decide (l = Broken)).
Proof.
  unfold verified, report_push. cbn [findings]. rewrite existsb_app, negb_orb. cbn. by rewrite orb_false_r.
Qed.

Lemma verified_note c r : verified (note c r) = verified r.
Proof. unfold note. rewrite verified_push. apply andb_true_r. Qed.
Lemma verified_weak c r : verified (weak c r) = verified r.
Proof. unfold weak. rewrite verified_push. apply andb_true_r. Qed.
Lemma verified_broken c r : verified (broken c r) = false.
Proof. unfold broken. rewrite verified_push. apply andb_false_r. Qed.
Lemma verified_when_note b c r : verified (when b (note c) r) = verified r.
Proof. destruct b; [apply verified_note|done]. Qed.
Lemma verified_when_weak b c r : verified (when b (weak c) r) = verified r.
Proof. destruct b; [apply verified_weak|done]. Qed.
Lemma verified_when_broken b c r : verified (when b (broken c) r) = verified r && negb b.
Proof. destruct b; cbn; [by rewrite verified_broken, andb_false_r|by rewrite andb_true_r]. Qed.
Lemma verified_add_records n r : verified (add_records n r) = verified r.
Proof. done. Qed.
Lemma verified_add_segment r : verified (add_segment r) = verified r.
Proof. done. Qed.

Create Rewrite HintDb verdict.
#[export] Hint Rewrite verified_note verified_weak verified_broken verified_when_note verified_when_weak
  verified_when_broken verified_add_records verified_add_segment : verdict.

Lemma verified_fold {A} (f : Report -> A -> Report) (cond : A -> bool) l r :
  (forall r a, verified (f r a) = verified r && cond a) -> verified (fold_left f l r) = verified r && forallb cond l.
Proof.
  intros H. revert r; induction l as [|a l IH]; intros r; cbn [fold_left forallb]; [by rewrite andb_true_r|].
  by rewrite IH, H, andb_assoc.
Qed.

Lemma verified_fold_same {A} (f : Report -> A -> Report) l r :
  (forall r a, verified (f r a) = verified r) -> verified (fold_left f l r) = verified r.
Proof. intros H. revert r; induction l as [|a l IH]; intros r; [done|]. cbn [fold_left]. by rewrite IH, H. Qed.

(** ** The verifier's hashes are the store's *)

Section Hashes.
Context `{DL : DigestLaws}.

Lemma v_split_loop_eq f k n : v_split_loop f k n = split_loop f k n.
Proof. revert k; induction f as [|f IH]; intros k; cbn; [done|]. by rewrite IH. Qed.

Lemma root_of_mth l : root_of l = mth l.
Proof.
  unfold root_of, mth. generalize (length l) as f. intros f. revert l.
  induction f as [|f IH]; intros l; [done|]. destruct l as [|x [|y l]]; [done|done|].
  cbn [root_of_fuel mth_fuel]. rewrite v_split_loop_eq, !IH. reflexivity.
Qed.

Lemma v_leaf_hash_eq d : v_leaf_hash d = leaf_hash d.
Proof. reflexivity. Qed.
Lemma v_chain_step_eq prev s b : v_chain_step prev s b = chain_step prev s b.
Proof. reflexivity. Qed.
Lemma entry_leaf_eq e : entry_leaf e.(e_key) e.(e_seq) e.(record_link) = Entry_leaf_hash e.
Proof. reflexivity. Qed.

Lemma v_manifest_root_of m : v_manifest_root (segment_of m) = manifest_root m.
Proof.
  unfold v_manifest_root, manifest_root. f_equal. unfold v_manifest_parts, manifest_parts, segment_of.
  cbn [psg_format_version psg_segment psg_shard psg_records psg_history_root psg_index_roots
       psg_chain_before psg_chain_after psg_first_recorded_at psg_last_recorded_at psg_algorithms].
  rewrite length_map, map_map. reflexivity.
Qed.

Lemma v_shard_leaf_eq ix n rt : v_shard_leaf ix (Z.of_nat n) rt = shard_leaf ix n rt.
Proof. reflexivity. Qed.

Lemma root_statement_eq t rt n g a k :
  v_root_statement t.(as_str) rt n g (lit (SigAlg_as_str a)) k = root_statement t rt n g a k.
Proof. reflexivity. Qed.
Lemma witness_statement_eq w rt s a k :
  v_witness_statement w rt s (lit (SigAlg_as_str a)) k = witness_statement w rt s a k.
Proof. reflexivity. Qed.

Lemma key_id_eq k : v_key_id k = public_key_id k.
Proof. unfold v_key_id, public_key_id. rewrite finish_parts. cbn [concat]. by rewrite app_nil_r. Qed.

End Hashes.

(** ** Check by check *)

Section Checks.
Context `{DL : DigestLaws}.

Lemma verified_algorithms p r : verified (check_algorithms p r) = verified r.
Proof.
  unfold check_algorithms. destruct (ph_algorithms (pk_header p)) as [[h s] k].
  rewrite verified_fold_same; [by autorewrite with verdict|]. intros r' a. by autorewrite with verdict.
Qed.

(** *** Anchors, witnesses, signature *)

Definition anchor_good (p : Pack) (a : Anchor) : bool := verified (snd (check_anchor p a report_default)).

Lemma verified_anchor p a r : verified (snd (check_anchor p a r)) = verified r && anchor_good p a.
Proof.
  assert (Hd : verified report_default = true) by done.
  unfold anchor_good, check_anchor. repeat case_match; cbn [snd]; autorewrite with verdict; rewrite ?Hd;
    by rewrite ?andb_true_r, ?andb_false_r.
Qed.

Lemma verified_anchors p l n r : verified (snd (check_anchors p l n r)) = verified r && forallb (anchor_good p) l.
Proof.
  revert n r; induction l as [|a l IH]; intros n r; cbn [check_anchors forallb]; [by rewrite andb_true_r|].
  pose proof (verified_anchor p a r) as Ha. destruct (check_anchor p a r) as [k r']. cbn [snd] in Ha.
  by rewrite IH, Ha, andb_assoc.
Qed.

Definition not_bad (c : Checked) : bool := match c with Bad _ => false | _ => true end.

Definition witness_good (p : Pack) (w : PackWitness) : bool :=
  not_bad (check_one w.(pw_algorithm) w.(pw_public_key)
    (v_witness_statement w.(pw_witness) p.(pk_header).(ph_store_root) w.(pw_seen_at) w.(pw_algorithm) w.(pw_public_key))
    w.(pw_signature)).

Lemma verified_witness p pub w st :
  verified (ws_report (check_witness p pub w st)) = verified st.(ws_report) && witness_good p w.
Proof.
  unfold check_witness, witness_good. cbv zeta.
  destruct (check_one _ _ _ _); cbn [not_bad ws_report]; autorewrite with verdict;
    by rewrite ?andb_true_r, ?andb_false_r.
Qed.

Lemma verified_witness_fold p pub l st :
  verified (ws_report (fold_left (fun st w => check_witness p pub w st) l st)) =
  verified st.(ws_report) && forallb (witness_good p) l.
Proof.
  revert st; induction l as [|w l IH]; intros st; cbn [fold_left forallb]; [by rewrite andb_true_r|].
  by rewrite IH, verified_witness, andb_assoc.
Qed.

Definition signature_good (p : Pack) : bool :=
  match p.(pk_signature) with
  | None => true
  | Some s =>
      not_bad (check_one s.(sg_algorithm) s.(sg_public_key)
        (v_root_statement p.(pk_header).(ph_tenant) p.(pk_header).(ph_store_root) p.(pk_header).(ph_shard_count)
           p.(pk_header).(ph_generated_at) s.(sg_algorithm) s.(sg_public_key)) s.(sg_signature))
  end.

Definition attested (p : Pack) : bool :=
  signature_good p && forallb (witness_good p) p.(pk_witnesses) && forallb (anchor_good p) p.(pk_anchors).

Lemma verified_witnesses p pub r :
  verified (check_witnesses p pub r) =
  verified r && (forallb (witness_good p) p.(pk_witnesses) && forallb (anchor_good p) p.(pk_anchors)).
Proof.
  unfold check_witnesses. pose proof (verified_anchors p (pk_anchors p) 0 r) as Ha.
  destruct (check_anchors p (pk_anchors p) 0 r) as [n r']. cbn [snd] in Ha.
  rewrite verified_when_weak, verified_witness_fold. cbn [ws_report]. rewrite Ha, <- andb_assoc. f_equal.
  apply andb_comm.
Qed.

Lemma verified_signature p r : verified (check_signature p r) = verified r && attested p.
Proof.
  unfold check_signature, attested, signature_good. destruct (pk_signature p) as [s|]; rewrite verified_witnesses.
  - destruct (check_one _ _ _ _); cbn [not_bad]; autorewrite with verdict; by rewrite ?andb_false_r, ?andb_true_l.
  - by rewrite verified_weak, andb_true_l.
Qed.

(** *** A segment *)

Fixpoint chain_links (link : Hash) (l : list (Fields * list byte)) : list Hash :=
  match l with
  | [] => []
  | (f, bytes) :: l' => let h := chain_step link f.(fd_seq) bytes in h :: chain_links h l'
  end.

Fixpoint contiguous (i : Z) (l : list Fields) : bool :=
  match l with [] => true | f :: l' => (f.(fd_seq) =? i + 1) && contiguous (i + 1) l' end.

Lemma check_chain_spec i link fs bs r :
  length fs = length bs ->
  exists r', check_chain i link (zip fs bs) r = (chain_links link (zip fs bs), default link (last (chain_links link (zip fs bs))), r') /\
    verified r' = verified r && contiguous i fs.
Proof.
  revert i link bs r; induction fs as [|f fs IH]; intros i link [|b bs] r Hl; try done.
  { exists r. by rewrite andb_true_r. }
  injection Hl as Hl. cbn [zip zip_with check_chain chain_links contiguous]. rewrite v_chain_step_eq.
  set (h := chain_step link (fd_seq f) b).
  destruct (IH (i + 1) h bs (when (negb (fd_seq f =? i + 1)) (broken "sequence-contiguous") r) Hl) as (r' & E & Hv).
  change (zip_with pair fs bs) with (zip fs bs). rewrite E. exists r'. split.
  - f_equal. f_equal. rewrite last_cons. by destruct (last _).
  - rewrite Hv. autorewrite with verdict. by rewrite negb_involutive, andb_assoc.
Qed.

(** A dimension the verifier cannot rebuild passes; one it can must match. *)
Definition index_good (parsed : list Fields) (links_ : list Hash) (nr : str * Hash) : bool :=
  match index_entries nr.1 (zip parsed links_) with
  | None => true
  | Some es =>
      strictly_sorted (sort_entries es) && bool_decide (mth (map Entry_leaf_hash (sort_entries es)) = nr.2)
  end.

Lemma verified_index parsed links_ nr r :
  verified (check_index nr.1 nr.2 parsed links_ r) = verified r && index_good parsed links_ nr.
Proof.
  unfold check_index, index_good. destruct (index_entries _ _) as [es|]; [|by rewrite verified_weak, andb_true_r].
  destruct (strictly_sorted _); cbn [negb andb]; [|by rewrite verified_broken, andb_false_r].
  rewrite verified_when_broken, negb_involutive, root_of_mth. reflexivity.
Qed.

Definition set_good (s : PackSegment) (bs : list (list byte)) : bool :=
  (Z.of_nat (length bs) =? s.(psg_records)) &&
  match parse_fields bs with
  | None => false
  | Some parsed =>
      let links_ := chain_links s.(psg_chain_before) (zip parsed bs) in
      contiguous 0 parsed
      && bool_decide (default s.(psg_chain_before) (last links_) = s.(psg_chain_after))
      && bool_decide (mth (map leaf_hash links_) = s.(psg_history_root))
      && (default 0 (list_min (map fd_recorded_at parsed)) =? s.(psg_first_recorded_at))
      && (default 0 (list_max (map fd_recorded_at parsed)) =? s.(psg_last_recorded_at))
      && forallb (index_good parsed links_) s.(psg_index_roots)
  end.

Definition segment_good (p : Pack) (s : PackSegment) : bool :=
  match records_for p s.(psg_shard) s.(psg_segment) with
  | None => false
  | Some set => set_good s set.(rs_records)
  end.

Lemma parse_fields_length bs fs : parse_fields bs = Some fs -> length fs = length bs.
Proof.
  revert fs; induction bs as [|b bs IH]; intros fs H; cbn in H; [by injection H as <-|].
  destruct (fields b) as [f|]; [|done]. destruct (parse_fields bs) as [fs'|]; [|done].
  injection H as <-. cbn. by rewrite (IH fs').
Qed.

Lemma verified_segment p s r : verified (check_segment p s r) = verified r && segment_good p s.
Proof.
  unfold check_segment, segment_good. destruct (records_for _ _ _) as [set|]; [|by rewrite verified_broken, andb_false_r].
  unfold set_good. destruct (parse_fields (rs_records set)) as [parsed|] eqn:Ep;
    [|by rewrite verified_broken, !andb_false_r].
  set (r1 := when _ _ r).
  destruct (check_chain_spec 0 (psg_chain_before s) parsed (rs_records set) r1 (parse_fields_length _ _ Ep)) as (r' & -> & Hv).
  rewrite (verified_fold _ (index_good parsed (chain_links (psg_chain_before s) (zip parsed (rs_records set)))))
    by (intros; apply verified_index).
  autorewrite with verdict. rewrite Hv. unfold r1. autorewrite with verdict.
  rewrite root_of_mth. change (map v_leaf_hash) with (map leaf_hash).
  rewrite negb_orb, !negb_involutive, <- !andb_assoc. done.
Qed.

(** *** A shard *)

Fixpoint numbered (at_ : Z) (l : list PackSegment) : bool :=
  match l with [] => true | s :: l' => (s.(psg_segment) =? at_ + 1) && numbered (at_ + 1) l' end.

Fixpoint linked (previous : option Hash) (l : list PackSegment) : bool :=
  match l with
  | [] => true
  | s :: l' =>
      match previous with Some h => bool_decide (h = s.(psg_chain_before)) | None => true end
      && linked (Some s.(psg_chain_after)) l'
  end.

Definition starts (l : list PackSegment) : bool :=
  match l with [] => true | s :: _ => negb (bool_decide (s.(psg_chain_before) = Hash_ZERO)) end.

Lemma verified_numbering at_ l r : verified (check_numbering at_ l r) = verified r && numbered at_ l.
Proof.
  revert at_; induction l as [|s l IH]; intros at_; cbn [check_numbering numbered]; [by rewrite andb_true_r|].
  destruct (_ =? _); cbn [negb andb]; [apply IH|]. by rewrite verified_broken, andb_false_r.
Qed.

Definition segment_leaf (s : PackSegment) : Hash := leaf_hash (v_manifest_root s).
Definition segment_key (s : PackSegment) : Z * Z := (s.(psg_shard), s.(psg_segment)).

Lemma check_shard_segments_spec p prev l r :
  exists r', check_shard_segments p prev l r = (r', map segment_key l, map segment_leaf l) /\
    verified r' = verified r && (forallb (segment_good p) l && linked prev l).
Proof.
  revert prev r; induction l as [|s l IH]; intros prev r; cbn [check_shard_segments forallb linked map].
  { exists r. by rewrite andb_true_r. }
  match goal with |- context [check_shard_segments p ?h l ?r1] => destruct (IH h r1) as (r' & -> & Hv) end.
  exists r'. split; [done|]. rewrite Hv. autorewrite with verdict. rewrite verified_segment.
  destruct prev as [h|]; rewrite ?negb_involutive; cbn [negb];
    destruct (segment_good p s), (verified r), (forallb _ l), (linked _ l); try done; by destruct (bool_decide _).
Qed.

Definition shard_good (p : Pack) (sh : PackShard) : bool :=
  let l := shard_segments p sh.(psh_shard) in
  (Z.of_nat (length l) =? sh.(psh_segment_count)) && numbered 0 l && starts l
  && (forallb (segment_good p) l && linked None l) && bool_decide (mth (map segment_leaf l) = sh.(psh_root)).

Lemma check_shard_spec p sh r :
  exists r', check_shard p sh r = (r', map segment_key (shard_segments p sh.(psh_shard))) /\
    verified r' = verified r && shard_good p sh.
Proof.
  unfold check_shard. set (l := shard_segments p (psh_shard sh)).
  match goal with |- context [check_shard_segments p None l ?r1] =>
    destruct (check_shard_segments_spec p None l r1) as (r' & -> & Hv) end.
  eexists. split; [done|]. rewrite verified_when_broken, negb_involutive, root_of_mth, Hv.
  unfold shard_good. fold l. rewrite !andb_assoc. do 3 f_equal.
  rewrite <- andb_assoc. unfold starts. destruct l as [|s l'].
  - rewrite verified_numbering, verified_when_broken, negb_involutive, !andb_true_r. done.
  - destruct (bool_decide _); rewrite ?verified_broken, ?verified_note; cbn [negb];
      rewrite ?andb_false_r, ?andb_true_r; [done|].
    by rewrite verified_numbering, verified_when_broken, negb_involutive, ?andb_assoc.
Qed.

Definition visited_keys (p : Pack) : list (Z * Z) :=
  concat (map (fun sh => map segment_key (shard_segments p sh.(psh_shard))) p.(pk_shards)).

Lemma check_pack_shards_spec p l r :
  exists r', check_pack_shards p l r =
    (r', concat (map (fun sh => map segment_key (shard_segments p sh.(psh_shard))) l)) /\
    verified r' = verified r && forallb (shard_good p) l.
Proof.
  revert r; induction l as [|sh l IH]; intros r; cbn [check_pack_shards map concat forallb].
  { exists r. by rewrite andb_true_r. }
  destruct (check_shard_spec p sh r) as (r1 & -> & H1). destruct (IH r1) as (r2 & -> & H2).
  exists r2. split; [done|]. by rewrite H2, H1, andb_assoc.
Qed.

(** *** The pack *)

Definition pack_shard_leaf (s : PackShard) : Hash := v_shard_leaf s.(psh_shard) s.(psh_segment_count) s.(psh_root).

Definition listed (p : Pack) (s : PackSegment) : bool :=
  existsb (fun sh => sh.(psh_shard) =? s.(psg_shard)) p.(pk_shards).
Definition visited (p : Pack) (s : RecordSet) : bool :=
  existsb (fun v => bool_decide (v = (s.(rs_shard), s.(rs_segment)))) (visited_keys p).

Definition pack_good (p : Pack) : bool :=
  attested p && (Z.of_nat (length p.(pk_shards)) =? p.(pk_header).(ph_shard_count))
  && forallb (shard_good p) p.(pk_shards)
  && bool_decide (mth (map pack_shard_leaf p.(pk_shards)) = p.(pk_header).(ph_store_root))
  && forallb (listed p) p.(pk_segments) && forallb (visited p) p.(pk_record_sets).

Lemma verified_pack p : verified (verify_pack p) = pack_good p.
Proof.
  unfold verify_pack.
  match goal with |- context [check_pack_shards p (pk_shards p) ?r1] =>
    destruct (check_pack_shards_spec p (pk_shards p) r1) as (r' & -> & Hv) end.
  rewrite (verified_fold _ (visited p)), (verified_fold _ (listed p)).
  - rewrite verified_when_broken, negb_involutive, root_of_mth, Hv. autorewrite with verdict.
    rewrite verified_signature, verified_algorithms, negb_involutive. change (verified report_default) with true.
    rewrite andb_true_l. reflexivity.
  - intros r a. by rewrite verified_when_broken, negb_involutive.
  - intros r a. by rewrite verified_when_broken, negb_involutive.
Qed.

End Checks.
