(* ===== verification/PackComplete.v ===== *)
(** * A pack built from an honest store verifies

    Segments sealed over what the journal wrote, one after another in each shard,
    put in a pack by the builder: the offline verifier finds nothing broken. *)

From S2P Require Import Prelude Bytes Ids Record Codec Digest Merkle Completeness Segment Wire WireRecord Frame Walk Journal Seal PackFormat Sign PackWriter VerifyRecord Tsp P384 Verifier VerifierProps.

(** ** The honest store *)

Section Honest.
Context `{DL : DigestLaws}.

(** The segments of a shard are numbered from [at_ + 1] and each begins where the
    one before it ended. *)
Fixpoint continued (at_ : Z) (previous : option Hash) (l : list Sealed) : Prop :=
  match l with
  | [] => True
  | sd :: l' =>
      sd.(sd_segment) = at_ + 1 /\ match previous with Some h => sd.(sd_before) = h | None => True end /\
      continued (at_ + 1) (Some (sd_manifest sd).(chain_after)) l'
  end.

#[export] Instance continued_dec at_ prev l : Decision (continued at_ prev l).
Proof. revert at_ prev; induction l; intros; cbn; [apply _|]. destruct prev; apply _. Defined.

Record written_shard (s : ShardIx * list Sealed) : Prop := {
  wsh_ix : u16_ok s.1;
  wsh_count : u64_ok (Z.of_nat (length s.2));
  wsh_segments : Forall (written_segment s.1) s.2;
  wsh_continued : continued 0 None s.2;
  wsh_begins : match s.2 with [] => True | sd :: _ => sd.(sd_before) <> Hash_ZERO end;
}.

#[export] Instance written_shard_dec s : Decision (written_shard s).
Proof. assert (Decision match s.2 with [] => True | sd :: _ => sd.(sd_before) <> Hash_ZERO end) by (destruct s.2; apply _). decide_record. Defined.

(** The builder after [add_shard] over the store's shards. *)
Definition add_store (b : PackBuilder) (st : list (ShardIx * list Sealed)) : PackBuilder :=
  fold_left (fun b s => add_shard b (shard_of s) (map sd_seal s.2)) st b.

(** ** What the store gives the builder *)

Definition sealed_part (sd : Sealed) : SegmentManifest * list (list byte) :=
  (sd_manifest sd, map encode_record (map fst sd.(sd_rows))).

Definition shard_entry (s : ShardIx * list Sealed) : ShardPart :=
  MkShardPart s.1 (mth (map (item_leaf manifest_input) (map sd_manifest s.2))) (map sealed_part s.2).

Lemma add_store_shards b st :
  Forall (fun s => Forall (sealed_ok s.1) s.2) st ->
  add_store b st = MkBuilder b.(pb_tenant) b.(pb_generated_at) b.(pb_signature) b.(pb_witnesses) b.(pb_anchors)
                     (b.(pb_shards) ++ map shard_entry st).
Proof.
  intros H. unfold add_store. revert b; induction H as [|s st Hs Hst IH]; intros b.
  { cbn. rewrite app_nil_r. by destruct b. }
  cbn [fold_left map]. rewrite IH. unfold add_shard. cbn [pb_tenant pb_generated_at pb_signature pb_witnesses pb_anchors pb_shards].
  rewrite <- app_assoc. do 2 f_equal. cbn [app]. f_equal. unfold shard_entry, shard_root_of, root.
  destruct (shard_of_spec s) as (-> & _ & ->). f_equal. rewrite map_map.
  apply map_ext_in. intros sd Hsd. unfold sealed_part, sd_manifest. f_equal.
  rewrite Forall_forall in Hs. apply list_elem_of_In in Hsd. destruct (Hs _ Hsd) as [_ _ _ _ Hseal].
  apply seal_inv in Hseal as (_ & _ & _ & _ & _ & -> & _). done.
Qed.

(** ** One segment *)

Lemma parse_written rs :
  Forall record_ok rs -> Forall vecs_ok rs -> parse_fields (map encode_record rs) = Some (map fields_of rs).
Proof.
  induction 1 as [|r rs Hr Hrs IH]; intros Hv; [done|]. apply Forall_cons in Hv as [Hv Hvs].
  cbn [map parse_fields]. rewrite fields_encode by done. by rewrite IH.
Qed.

Lemma history_fits ix sg c recs : history ix sg c recs -> Forall record_ok recs /\ Forall vecs_ok recs.
Proof.
  revert c; induction recs as [|r recs IH]; intros c; [done|]. intros [[] Hh]. destruct (IH _ Hh).
  split; constructor; try done. by apply lists_vecs_ok, body_lists_ok.
Qed.

Lemma chain_links_written ix sg c recs :
  history ix sg c recs ->
  chain_links c.(chain_head) (zip (map fields_of recs) (map encode_record recs)) = map snd (kept (entries c recs)).
Proof.
  revert c; induction recs as [|r recs IH]; intros c; [done|]. intros [[] Hh].
  change (chain_step c.(chain_head) r.(seq) (encode_record r)
          :: chain_links (chain_step c.(chain_head) r.(seq) (encode_record r))
               (zip (map fields_of recs) (map encode_record recs)) =
          (entry c r).1.(f_link) :: map snd (kept (entries (chain_append c (encode_record r)) recs))).
  rewrite <- (IH _ Hh). unfold chain_append. cbn [chain_head]. by rewrite <- st_seq.
Qed.

Lemma contiguous_written ix sg c recs :
  history ix sg c recs -> contiguous c.(chain_length) (map fields_of recs) = true.
Proof.
  revert c; induction recs as [|r recs IH]; intros c; [done|]. intros [[] Hh].
  cbn [map contiguous fd_seq fields_of]. rewrite st_seq, Z.eqb_refl. exact (IH _ Hh).
Qed.

Lemma index_entries_written d (rows : list (Record_ * Hash)) :
  index_entries (lit (Dimension_as_str d)) (zip (map fields_of (map fst rows)) (map snd rows)) =
  Some (map (entry_of d) rows).
Proof.
  induction rows as [|[r h] rows IH]; [done|]. cbn [map fst snd zip_with index_entries].
  rewrite key_for_of. cbn [mbind option_bind]. by rewrite IH.
Qed.

Lemma strictly_sorted_ordered l : StronglySorted (fun a b => pos_lt a b = true) l -> strictly_sorted l = true.
Proof.
  induction 1 as [|a l Hs IH Ha]; [done|]. destruct l as [|b l]; [done|]. cbn [strictly_sorted].
  apply Forall_cons in Ha as [-> _]. exact IH.
Qed.

Lemma chain_after_sealed seg ix before rs s :
  seal seg ix before rs = Ok s ->
  s.(manifest).(chain_after) = default before (last (map snd rs)) /\ s.(manifest).(chain_before) = before /\
  s.(manifest).(m_segment) = seg /\
  s.(manifest).(first_recorded_at) = default 0 (list_min (map (fun rl => rl.1.(recorded_at)) rs)) /\
  s.(manifest).(last_recorded_at) = default 0 (list_max (map (fun rl => rl.1.(recorded_at)) rs)) /\
  s.(manifest).(index_roots) = map (fun d => (d, index_root (build d rs))) Dimension_ALL.
Proof.
  unfold seal. destruct (match rs with [] => _ | _ => _ end); [done|]. cbn zeta. intros H.
  apply result_bind_ok in H as ([] & _ & [= <-]). cbn [manifest chain_after chain_before m_segment
    first_recorded_at last_recorded_at index_roots]. repeat split; try done.
  change (map snd rs) with (snd <$> rs). by rewrite fmap_last.
Qed.

Lemma written_index_good ix sd d :
  written_segment ix sd ->
  index_good (map fields_of (map fst sd.(sd_rows))) (map snd sd.(sd_rows))
    (lit (Dimension_as_str d), index_root (build d sd.(sd_rows))) = true.
Proof.
  intros [[_ _ _ _ Hs] _ _]. assert (Hdup : first_duplicate_position (build d sd.(sd_rows)) = None).
  { destruct (seal_ok_iff sd.(sd_segment) ix sd.(sd_before) sd.(sd_rows)) as [[_ H] _]; [by rewrite Hs|].
    rewrite Forall_forall in H. apply H. destruct d; set_solver. }
  unfold index_good. cbn [fst snd]. rewrite index_entries_written, <- build_entries.
  rewrite strictly_sorted_ordered by (apply first_unordered_none, Hdup).
  rewrite andb_true_l. by apply bool_decide_eq_true.
Qed.

Lemma written_set_good ix sd :
  written_segment ix sd -> set_good (segment_of (sd_manifest sd)) (map encode_record (map fst sd.(sd_rows))) = true.
Proof.
  intros Hw. pose proof Hw as [[Hseg Hb Hr Hn Hs] Hh Hrows].
  pose proof (chain_after_sealed _ _ _ _ _ Hs) as (Ha & Hbe & _ & Hf & Hl & Hix).
  pose proof (seal_inv _ _ _ _ _ Hs) as (_ & Hcount & _ & _ & _ & _ & _ & Hhist).
  pose proof (chain_links_written _ _ _ _ Hh) as Hlinks. cbn [chain_resume chain_head] in Hlinks.
  fold (journal_rows sd.(sd_before) (map fst sd.(sd_rows))) in Hlinks. rewrite <- Hrows in Hlinks.
  destruct (history_fits _ _ _ _ Hh) as [Hro Hvo].
  unfold set_good, segment_of, sd_manifest.
  cbn [psg_records psg_chain_before psg_chain_after psg_history_root psg_first_recorded_at psg_last_recorded_at psg_index_roots].
  rewrite parse_written, Hbe, Ha, Hcount, Hhist, Hf, Hl, Hix by done. cbv zeta. rewrite Hlinks.
  change (contiguous 0) with (contiguous (chain_resume sd.(sd_before) 0).(chain_length)).
  rewrite (contiguous_written _ _ _ _ Hh), !length_map, as_u64_small, Z.eqb_refl by done.
  change (map leaf_hash (map snd sd.(sd_rows))) with (leaf_hash <$> (snd <$> sd.(sd_rows))).
  rewrite <- list_fmap_compose, !map_map. cbn [fd_recorded_at fields_of].
  rewrite !bool_decide_true by done. rewrite !Z.eqb_refl. cbn [andb].
  apply forallb_forall. intros nr Hin. apply in_map_iff in Hin as (d & <- & _).
  pose proof (written_index_good ix sd d Hw) as H. by rewrite map_map in H.
Qed.

(** ** One shard *)

Definition segments_from (s : ShardIx * list Sealed) : list PackSegment :=
  map (fun sd => segment_of (sd_manifest sd)) s.2.

Lemma written_segment_key ix sd :
  written_segment ix sd ->
  psg_shard (segment_of (sd_manifest sd)) = ix /\ psg_segment (segment_of (sd_manifest sd)) = sd.(sd_segment).
Proof.
  intros [[_ _ _ _ Hs] _ _]. unfold segment_of, sd_manifest. cbn [psg_shard psg_segment].
  apply seal_inv in Hs as Hi. apply chain_after_sealed in Hs. tauto.
Qed.

Lemma insert_numbered at_ x l :
  numbered (at_ + 1) l = true -> x.(psg_segment) = at_ + 1 -> insert_segment x l = x :: l.
Proof.
  destruct l as [|y l]; [done|]. cbn. intros H E. apply andb_true_iff in H as [H _]. apply Z.eqb_eq in H.
  destruct (Z.ltb_spec (psg_segment y) (psg_segment x)); [lia|done].
Qed.

Lemma sort_numbered at_ l : numbered at_ l = true -> sort_segments l = l.
Proof.
  revert at_; induction l as [|x l IH]; intros at_; [done|]. cbn [numbered]. intros H.
  apply andb_true_iff in H as [E H]. apply Z.eqb_eq in E. unfold sort_segments in *. cbn [foldr].
  rewrite (IH _ H). by eapply insert_numbered.
Qed.

Lemma continued_good ix at_ prev l :
  Forall (written_segment ix) l -> continued at_ prev l ->
  numbered at_ (segments_from (ix, l)) = true /\ linked prev (segments_from (ix, l)) = true.
Proof.
  intros H. revert at_ prev; induction H as [|sd l Hsd Hl IH]; intros at_ prev; [done|].
  intros (Hn & Hp & Hc). destruct (IH _ _ Hc) as [H1 H2].
  destruct (written_segment_key _ _ Hsd) as [_ Hk]. destruct Hsd as [[_ _ _ _ Hs] _ _].
  apply chain_after_sealed in Hs as (_ & Hb & _).
  unfold segments_from in *. cbn [snd map numbered linked] in *. rewrite Hk, Hn, Z.eqb_refl. split; [exact H1|].
  apply andb_true_iff. split; [|exact H2].
  destruct prev as [h|]; [|done]. apply bool_decide_eq_true. unfold segment_of, sd_manifest.
  cbn [psg_chain_before]. congruence.
Qed.

(** ** The pack *)

Lemma filter_concat_key {A B} (key : B -> Z) (f : Z * A -> list B) (st : list (Z * A)) s :
  NoDup (map fst st) -> s ∈ st -> (forall s', s' ∈ st -> Forall (fun x => key x = s'.1) (f s')) ->
  filter (fun x => key x = s.1) (concat (map f st)) = f s.
Proof.
  induction st as [|a st IH]; intros Hnd Hs Hk; [by apply not_elem_of_nil in Hs|].
  cbn [map concat] in *. apply NoDup_cons in Hnd as [Hna Hnd]. rewrite filter_app.
  assert (Hka : Forall (fun x => key x = a.1) (f a)) by (apply Hk; left).
  assert (Hout : forall k, (forall s', s' ∈ st -> s'.1 <> k) -> filter (fun x => key x = k) (concat (map f st)) = []).
  { intros k Hne. apply filter_none, Forall_concat, Forall_fmap, Forall_forall. intros s' Hs'. cbn.
    eapply Forall_impl; [apply Hk; right; exact Hs'|]. intros x Hx Hxk. apply (Hne s' Hs'). congruence. }
  apply elem_of_cons in Hs as [->|Hs].
  - rewrite Hout, app_nil_r.
    + by apply filter_all.
    + intros s' Hs' E. apply Hna. rewrite <- E. by apply (list_elem_of_fmap_2 fst).
  - rewrite IH by (done || (intros; apply Hk; by right)).
    rewrite filter_none; [done|]. eapply Forall_impl; [exact Hka|]. intros x Hx E.
    apply Hna. rewrite <- Hx, E. by apply (list_elem_of_fmap_2 fst).
Qed.

(** The store, the builder it went into, and the pack. *)
Context (st : list (ShardIx * list Sealed)) (b : PackBuilder).
Let p := pack_of (add_store b st) (store_root (store_of st)).
Hypothesis Hst : Forall written_shard st.
Hypothesis Hfresh : b.(pb_shards) = [].
Hypothesis Hb : builder_ok (add_store b st) (store_root (store_of st)).

Lemma store_builder_shards : (add_store b st).(pb_shards) = map shard_entry st.
Proof.
  rewrite add_store_shards; [by cbn; rewrite Hfresh|]. eapply Forall_impl; [exact Hst|]. intros s [_ _ H _ _].
  eapply Forall_impl; [exact H|]. by intros sd [].
Qed.

Lemma store_builder_segments :
  builder_segments (add_store b st) = concat (map (fun s => map sealed_part s.2) st).
Proof. unfold builder_segments. rewrite store_builder_shards, map_map. reflexivity. Qed.

Lemma pack_segments_eq : p.(pk_segments) = concat (map segments_from st).
Proof.
  unfold p, pack_of. cbn [pk_segments]. rewrite store_builder_segments, concat_map, map_map. f_equal.
  apply map_ext. intros s. unfold segments_from. by rewrite map_map.
Qed.

Lemma pack_shards_eq : p.(pk_shards) = map (fun s => shard_part (shard_entry s)) st.
Proof. unfold p, pack_of. cbn [pk_shards]. by rewrite store_builder_shards, map_map. Qed.

Lemma store_shards_distinct : NoDup (map fst st).
Proof. destruct Hb as [_ H _ _]. by rewrite store_builder_shards, map_map in H. Qed.

Lemma written_in s sd : s ∈ st -> sd ∈ s.2 -> written_segment s.1 sd.
Proof.
  intros Hs Hsd. rewrite Forall_forall in Hst. destruct (Hst _ Hs) as [_ _ H _ _].
  rewrite Forall_forall in H. by apply H.
Qed.

Lemma shard_segments_written s : s ∈ st -> shard_segments p s.1 = segments_from s.
Proof.
  intros Hs. unfold shard_segments. rewrite pack_segments_eq.
  rewrite (filter_concat_key psg_shard segments_from st s store_shards_distinct Hs).
  - pose proof Hst as Hall. rewrite Forall_forall in Hall. destruct (Hall _ Hs) as [_ _ H Hc _]. destruct s as [ix l].
    apply (sort_numbered 0). by eapply continued_good.
  - intros s' Hs'. apply Forall_forall. intros x Hx. apply list_elem_of_fmap in Hx as (sd & -> & Hsd).
    by destruct (written_segment_key s'.1 sd (written_in _ _ Hs' Hsd)).
Qed.

Lemma written_segment_good s sd : s ∈ st -> sd ∈ s.2 -> segment_good p (segment_of (sd_manifest sd)) = true.
Proof.
  intros Hs Hsd. pose proof (written_in _ _ Hs Hsd) as Hw.
  assert (Hwf : pack_wf p) by (eapply parsed_pack_wf, built_pack_parses, Hb).
  assert (Hin : set_of (sealed_part sd) ∈ p.(pk_record_sets)).
  { unfold p, pack_of. cbn [pk_record_sets]. rewrite store_builder_segments. apply list_elem_of_fmap_2.
    apply list_elem_of_In, in_concat. exists (map sealed_part s.2). rewrite <- !list_elem_of_In.
    split; [by apply (list_elem_of_fmap_2 (fun s => map sealed_part s.2))|by apply list_elem_of_fmap_2]. }
  pose proof (records_for_spec _ _ Hwf Hin) as E. unfold segment_good.
  change (psg_shard (segment_of (sd_manifest sd))) with (rs_shard (set_of (sealed_part sd))).
  change (psg_segment (segment_of (sd_manifest sd))) with (rs_segment (set_of (sealed_part sd))).
  rewrite E. exact (written_set_good _ _ Hw).
Qed.

Lemma written_shard_good s : s ∈ st -> shard_good p (shard_part (shard_entry s)) = true.
Proof.
  intros Hs. unfold shard_good. cbn [shard_part shard_entry psh_shard psh_segment_count psh_root sp_shard sp_root sp_segments].
  rewrite shard_segments_written by done. pose proof (written_in s) as Hw.
  pose proof Hst as Hall. rewrite Forall_forall in Hall. destruct (Hall _ Hs) as [_ _ Hl Hc Hz]. destruct s as [ix l]. cbn [fst snd] in *.
  destruct (continued_good ix 0 None l Hl Hc) as [-> ->]. unfold segments_from. cbn [snd].
  rewrite !length_map, Z.eqb_refl, map_map, map_map. cbn [andb]. rewrite andb_true_r. rewrite !andb_true_iff. repeat split.
  - destruct l as [|sd l]; [done|]. cbn [map starts]. destruct (Hw sd Hs ltac:(left)) as [[_ _ _ _ Hse] _ _].
    apply chain_after_sealed in Hse as (_ & E & _). unfold segment_of, sd_manifest. cbn [psg_chain_before].
    by rewrite E, bool_decide_false.
  - apply forallb_forall. intros x Hx. apply in_map_iff in Hx as (sd & <- & Hsd). apply list_elem_of_In in Hsd.
    by eapply written_segment_good.
  - apply bool_decide_eq_true. f_equal. apply map_ext. intros sd. unfold segment_leaf.
    by rewrite v_manifest_root_of, manifest_leaf_item.
Qed.

Lemma written_pack_good : attested p = true -> pack_good p = true.
Proof.
  intros Ha. unfold pack_good. rewrite Ha, pack_shards_eq. rewrite !andb_true_iff. repeat split.
  - unfold p, pack_of. cbn [pk_header ph_shard_count header_part]. rewrite store_builder_shards, !length_map.
    apply Z.eqb_refl.
  - apply forallb_forall. intros x Hx. apply in_map_iff in Hx as (s & <- & Hs). apply list_elem_of_In in Hs.
    by apply written_shard_good.
  - apply bool_decide_eq_true. unfold p, pack_of. cbn [pk_header ph_store_root header_part].
    rewrite store_of_root, !map_map. f_equal. apply map_ext. intros s.
    unfold pack_shard_leaf, shard_part, shard_entry. cbn [psh_shard psh_segment_count psh_root sp_shard sp_root sp_segments].
    rewrite length_map, v_shard_leaf_eq, shard_leaf_item. reflexivity.
  - apply forallb_forall. intros x Hx. rewrite pack_segments_eq in Hx.
    apply in_concat in Hx as (l & Hl & Hx). apply in_map_iff in Hl as (s & <- & Hs).
    apply in_map_iff in Hx as (sd & <- & Hsd). apply list_elem_of_In in Hs, Hsd.
    unfold listed. rewrite pack_shards_eq. apply existsb_exists. exists (shard_part (shard_entry s)).
    split; [apply in_map_iff; exists s; by rewrite <- list_elem_of_In|].
    destruct (written_segment_key s.1 sd (written_in _ _ Hs Hsd)) as [-> _]. apply Z.eqb_refl.
  - apply forallb_forall. intros x Hx. unfold visited. apply existsb_exists.
    unfold p, pack_of in Hx. cbn [pk_record_sets] in Hx. rewrite store_builder_segments in Hx.
    apply in_map_iff in Hx as (mr & <- & Hx). apply in_concat in Hx as (l & Hl & Hx).
    apply in_map_iff in Hl as (s & <- & Hs). apply in_map_iff in Hx as (sd & <- & Hsd).
    exists (segment_key (segment_of (sd_manifest sd))). split; [|by apply bool_decide_eq_true].
    unfold visited_keys. rewrite pack_shards_eq. rewrite map_map. apply in_concat.
    exists (map segment_key (segments_from s)). split.
    + apply in_map_iff. exists s. split; [|done]. f_equal.
      apply (shard_segments_written s). by apply list_elem_of_In.
    + apply in_map_iff. exists (segment_of (sd_manifest sd)). split; [done|]. apply in_map_iff. by exists sd.
Qed.

End Honest.

(** C4 (an honest pack verifies). A store whose segments were sealed over what
    their journals wrote, numbered from one in each shard and each beginning where
    the one before it ended, put into a pack by the builder with no attestation
    that fails: the verifier reads the pack's bytes, and its report has nothing
    broken. *)
Theorem honest_pack_verifies `{DL : DigestLaws} (st : list (ShardIx * list Sealed)) (b : PackBuilder) :
  Forall written_shard st -> b.(pb_shards) = [] ->
  builder_ok (add_store b st) (store_root (store_of st)) ->
  attested (pack_of (add_store b st) (store_root (store_of st))) = true ->
  exists r, Verifier.verify (pack_build (add_store b st) (store_of st)) = Ok r /\ verified r = true.
Proof.
  intros Hst Hfresh Hb Ha. exists (verify_pack (pack_of (add_store b st) (store_root (store_of st)))).
  unfold Verifier.verify, pack_build. rewrite built_pack_parses by done. split; [done|].
  rewrite verified_pack. by apply written_pack_good.
Qed.

Module Sample.
#[local] Existing Instance Register_Digest | 0.
#[local] Existing Instance Register_DigestLaws | 0.

(** The records a journal stamps, one after another. *)
Fixpoint stamp_all (ix sg : Z) (c : ChainState) (recs : list Record_) : list Record_ :=
  match recs with
  | [] => []
  | r :: recs' =>
      let r' := stamp ix sg (c.(chain_length) + 1) c.(chain_head) r in
      r' :: stamp_all ix sg (chain_append c (encode_record r')) recs'
  end.

Definition seal_journal (ix sg : Z) (before : Hash) (recs : list Record_) : Sealed :=
  let rows := journal_rows before (stamp_all ix sg (chain_resume before 0) recs) in
  MkSealed sg before rows
    match seal sg ix before rows with
    | Ok s => s
    | Err _ => MkSegment (MkManifest 0 0 0 0 [] [] [] [] 0 0 Algorithms_default) [] tree_new [] ∅
    end.

Definition segment1 : Sealed :=
  seal_journal 0 1 (repeat x07 48)
    [sample_record 5 1000 1 "agent://acme/bot" "run-1" ToolCall; sample_record 6 1001 2 "agent://acme/bot" "run-1" ModelCall].
Definition segment2 : Sealed :=
  seal_journal 0 2 (sd_manifest segment1).(chain_after) [sample_record 7 1002 3 "agent://acme/bot" "run-2" ToolCall].
Definition segment3 : Sealed :=
  seal_journal 4 1 (repeat x09 48) [sample_record 8 900 4 "agent://acme/cat" "run-3" Erasure].

(** Two shards, one of two segments. *)
Definition store : list (ShardIx * list Sealed) := [(0, [segment1; segment2]); (4, [segment3])].

(** A signature of an algorithm the verifier does not know, and a witness's. *)
Definition builder : PackBuilder :=
  witnessed_by (signed_with (builder_new (MkToken (lit "acme")) 2000)
    (MkRootSignature Es256 (repeat x02 33) (repeat x03 64)))
    (MkAttestation (lit "witness-1") 2001 Es256 (repeat x04 33) (repeat x05 64)).

Lemma honest_pack_verifies_witness :
  exists r, Verifier.verify (pack_build (add_store builder store) (store_of store)) = Ok r /\
    verified r = true /\ (records_checked r, segments_checked r) = (4, 3).
Proof.
  destruct (honest_pack_verifies store builder) as (r & H1 & H2).
  - by_evaluation.
  - reflexivity.
  - by_evaluation.
  - vm_compute. reflexivity.
  - exists r. split; [exact H1|]. split; [exact H2|].
    assert (E : (fun r => (records_checked r, segments_checked r)) <$>
      Verifier.verify (pack_build (add_store builder store) (store_of store)) = Ok (4, 3)) by (vm_compute; reflexivity).
    rewrite H1 in E. injection E as E1 E2. rewrite E1, E2. reflexivity.
Defined.

End Sample.
