(* ===== verification/PackSound.v ===== *)
(** * A verified store root pins the pack

    Two packs that verify and carry the same store root hold the same shards,
    the same segments and the same record bytes, unless two of the strings
    hashed on the way collide. *)

From S2P Require Import Prelude Bytes Ids Record Codec Digest Merkle Completeness Segment Wire WireRecord PackFormat Sign PackWriter VerifyRecord Tsp P384 Verifier VerifierProps PackComplete.

(** ** Equal roots over prefixed leaves are equal lists

    Without sizes: a leaf's string starts with 0x00 and a node's with 0x01, so
    trees of different shapes do not share a root. *)

Section Trees.
Context `{DL : DigestLaws}.

Definition leaf_strings (ds : list (list byte)) : list (list byte) :=
  [] :: map (fun d => LEAF_PREFIX :: d) ds ++ mth_inputs (map leaf_hash ds).

Lemma leaf_strings_leaf ds d : d ∈ ds -> (LEAF_PREFIX :: d) ∈ leaf_strings ds.
Proof. intros Hd. right. apply elem_of_app. left. apply list_elem_of_fmap. by exists d. Qed.

Lemma map_take_drop {A B} (f : A -> B) k (l : list A) : take k (map f l) = map f (take k l) /\ drop k (map f l) = map f (drop k l).
Proof. revert k; induction l as [|x l IH]; intros [|k]; cbn; try done. destruct (IH k) as [-> ->]. done. Qed.

Lemma length_mth_leaves ds : length (map leaf_hash ds) = length ds.
Proof. apply length_map. Qed.

(** The two halves of a tree with a node on top. *)
Lemma mth_leaves_node ds :
  (2 <= length ds)%nat ->
  exists l r, ds = l ++ r /\ (length l < length ds)%nat /\ (length r < length ds)%nat /\ l <> [] /\ r <> [] /\
    mth (map leaf_hash ds) = node_hash (mth (map leaf_hash l)) (mth (map leaf_hash r)) /\
    node_input (mth (map leaf_hash l)) (mth (map leaf_hash r)) ∈ leaf_strings ds /\
    leaf_strings l ⊆ leaf_strings ds /\ leaf_strings r ⊆ leaf_strings ds.
Proof.
  intros Hl. pose proof (split_bounds (length ds) Hl) as Hs. set (k := split (length ds)) in *.
  destruct (map_take_drop leaf_hash k ds) as [Et Ed].
  exists (take k ds), (drop k ds). rewrite take_drop, length_take, length_drop.
  assert (Hi : mth_inputs (map leaf_hash ds) =
    node_input (mth (map leaf_hash (take k ds))) (mth (map leaf_hash (drop k ds)))
      :: mth_inputs (map leaf_hash (take k ds)) ++ mth_inputs (map leaf_hash (drop k ds))).
  { rewrite mth_inputs_node by (by rewrite length_mth_leaves). rewrite length_mth_leaves. fold k. cbv zeta. by rewrite Et, Ed. }
  assert (Hsub : forall part, part ⊆ ds -> mth_inputs (map leaf_hash part) ⊆ mth_inputs (map leaf_hash ds) ->
    leaf_strings part ⊆ leaf_strings ds).
  { intros part Hp Hm x Hx. unfold leaf_strings in *. apply elem_of_cons in Hx as [->|Hx]; [left|right].
    apply elem_of_app in Hx as [Hx|Hx]; apply elem_of_app; [left|right; by apply Hm].
    apply list_elem_of_fmap in Hx as (d & -> & Hd). apply list_elem_of_fmap. exists d. auto. }
  assert (Htd : take k ds ⊆ ds /\ drop k ds ⊆ ds).
  { split; intros x Hx; rewrite <- (take_drop k ds); apply elem_of_app; auto. }
  split; [done|]. split; [lia|]. split; [lia|].
  split; [intros E; apply (f_equal length) in E; rewrite length_take in E; cbn in E; lia|].
  split; [intros E; apply (f_equal length) in E; rewrite length_drop in E; cbn in E; lia|].
  split; [rewrite mth_node by (by rewrite length_mth_leaves); rewrite length_mth_leaves; fold k; by rewrite Et, Ed|].
  split; [right; apply elem_of_app; right; rewrite Hi; left|].
  split; apply Hsub; try apply Htd; rewrite Hi; intros x Hx; right; apply elem_of_app; auto.
Qed.

(** The string whose digest is the root. *)
Lemma mth_leaves_top ds :
  exists top, mth (map leaf_hash ds) = digest top /\ top ∈ leaf_strings ds /\
    match ds with [] => top = [] | [d] => top = LEAF_PREFIX :: d | _ => exists t, top = NODE_PREFIX :: t end.
Proof.
  destruct ds as [|d [|d' ds]].
  - exists []. split; [done|]. split; [left|done].
  - exists (LEAF_PREFIX :: d). split; [apply leaf_hash_digest|]. split; [apply leaf_strings_leaf; left|done].
  - destruct (mth_leaves_node (d :: d' :: ds)) as (l & r & _ & _ & _ & _ & _ & E & Hin & _); [cbn; lia|].
    eexists. split; [rewrite E; apply node_hash_digest|]. split; [exact Hin|]. eexists. reflexivity.
Qed.

Lemma leaf_root_ok ds : hash_ok (mth (map leaf_hash ds)).
Proof. apply mth_ok. apply Forall_fmap, Forall_true. intros d. apply leaf_hash_ok. Qed.

Lemma mth_leaves_inj ds1 ds2 xs ys :
  collision_free xs ys -> leaf_strings ds1 ⊆ xs -> leaf_strings ds2 ⊆ ys ->
  mth (map leaf_hash ds1) = mth (map leaf_hash ds2) -> ds1 = ds2.
Proof.
  intros Hcf. remember (length ds1) as n eqn:En. revert ds1 ds2 En.
  induction n as [n IH] using lt_wf_ind. intros ds1 ds2 -> H1 H2 E.
  destruct (mth_leaves_top ds1) as (t1 & E1 & Hin1 & Ht1). destruct (mth_leaves_top ds2) as (t2 & E2 & Hin2 & Ht2).
  assert (Et : t1 = t2) by (apply (collision_free_elem _ _ _ _ Hcf (H1 _ Hin1) (H2 _ Hin2)); congruence).
  subst t2. unfold LEAF_PREFIX, NODE_PREFIX in Ht1, Ht2. destruct ds1 as [|a [|b ds1]]; destruct ds2 as [|c [|d ds2]]; try done;
    repeat match goal with H : exists _, _ |- _ => destruct H end; try congruence.
  destruct (mth_leaves_node (a :: b :: ds1)) as (l1 & r1 & Ed1 & Hl1 & Hr1 & _ & _ & En1 & Hi1 & Hsl1 & Hsr1); [cbn; lia|].
  destruct (mth_leaves_node (c :: d :: ds2)) as (l2 & r2 & Ed2 & _ & _ & _ & _ & En2 & Hi2 & Hsl2 & Hsr2); [cbn; lia|].
  rewrite En1, En2 in E.
  apply (node_hash_cf_inj xs ys) in E as [El Er]; [|done|by apply H1|by apply H2|apply leaf_root_ok..].
  rewrite Ed1, Ed2. f_equal.
  - eapply IH; [exact Hl1|reflexivity|by etrans|by etrans|exact El].
  - eapply IH; [exact Hr1|reflexivity|by etrans|by etrans|exact Er].
Qed.

(** Trees over committed items. *)
Section Items.
Context {T : Type} (input : T -> list byte) (ok : T -> Prop).
Hypothesis input_inj : forall a b, ok a -> ok b -> input a = input b -> a = b.

Definition tree_strings (ts : list T) : list (list byte) :=
  leaf_strings (map (fun t => digest (input t)) ts) ++ map input ts.

Lemma map_digest_inj ts1 ts2 xs ys :
  collision_free xs ys -> map input ts1 ⊆ xs -> map input ts2 ⊆ ys -> Forall ok ts1 -> Forall ok ts2 ->
  map (fun t => digest (input t)) ts1 = map (fun t => digest (input t)) ts2 -> ts1 = ts2.
Proof.
  intros Hcf. revert ts2; induction ts1 as [|a ts1 IH]; intros [|b ts2] H1 H2 Ho1 Ho2 E; try done.
  apply Forall_cons in Ho1 as [Ha Ho1], Ho2 as [Hb Ho2]. cbn [map] in *. injection E as E Es. f_equal.
  - apply input_inj; [done|done|]. eapply collision_free_elem; [exact Hcf|apply H1; left|apply H2; left|exact E].
  - apply IH; [| |done|done|done]; intros x Hx; [apply H1|apply H2]; by right.
Qed.

Lemma tree_inj ts1 ts2 xs ys :
  collision_free xs ys -> tree_strings ts1 ⊆ xs -> tree_strings ts2 ⊆ ys -> Forall ok ts1 -> Forall ok ts2 ->
  mth (map (fun t => leaf_hash (digest (input t))) ts1) = mth (map (fun t => leaf_hash (digest (input t))) ts2) ->
  ts1 = ts2.
Proof.
  intros Hcf H1 H2 Ho1 Ho2 E.
  assert (Em : forall ts, map (fun t => leaf_hash (digest (input t))) ts = map leaf_hash (map (fun t => digest (input t)) ts))
    by (intros; by rewrite map_map).
  rewrite !Em in E. apply (mth_leaves_inj _ _ xs ys) in E; [|done|by eapply app_sub_l|by eapply app_sub_l].
  eapply map_digest_inj; [exact Hcf|by eapply app_sub_r|by eapply app_sub_r|done..].
Qed.

End Items.
End Trees.

(** ** What the manifests and the shards' leaves determine *)

Definition v_manifest_input (s : PackSegment) : list byte := concat (v_manifest_parts s).

Definition v_shard_input (s : PackShard) : list byte :=
  (lit "trailryx/store-leaf/v1" ++ [x00]) ++ to_be_bytes 2 s.(psh_shard) ++ to_be_bytes 8 s.(psh_segment_count)
  ++ s.(psh_root).

Lemma short_long b : short b -> u64_ok (Z.of_nat (length b)).
Proof. unfold short, u32_ok, u64_ok. lia. Qed.

Lemma v_index_roots_inj l1 l2 t1 t2 :
  Forall index_root_wf l1 -> Forall index_root_wf l2 -> length l1 = length l2 ->
  concat (concat (map v_index_root_parts l1)) ++ t1 = concat (concat (map v_index_root_parts l2)) ++ t2 ->
  l1 = l2 /\ t1 = t2.
Proof.
  revert l2; induction l1 as [|[d1 r1] l1 IH]; intros [|[d2 r2] l2] H1 H2 Hl H; try done.
  apply Forall_cons in H1 as [[[Hd1 _] Hr1] H1]. apply Forall_cons in H2 as [[[Hd2 _] Hr2] H2].
  cbn [map concat v_index_root_parts app fst snd] in *. rewrite <- !app_assoc in H. split_app H.
  match goal with E : to_be_bytes 8 _ = _ |- _ =>
    apply to_be_bytes_8_inj in E; [|by apply short_long..]; apply Nat2Z.inj in E end.
  split_app H. split_app H. subst. apply IH in H as [-> ->]; [done|done|done|by injection Hl].
Qed.

Lemma few_long {A} (l : list A) : few l -> u64_ok (Z.of_nat (length l)).
Proof. unfold few, MAX_ITEMS, u64_ok. lia. Qed.

Lemma v_manifest_input_inj s1 s2 :
  psegment_ok s1 -> psegment_ok s2 -> v_manifest_input s1 = v_manifest_input s2 -> s1 = s2.
Proof.
  intros H1 H2 H. unfold v_manifest_input, v_manifest_parts in H.
  rewrite !concat_app in H. cbn [concat] in H. rewrite <- !app_assoc in H. do 2 apply app_inv_head in H.
  destruct s1 as [f1 g1 h1 n1 hr1 ir1 cb1 ca1 a1 b1 al1], s2 as [f2 g2 h2 n2 hr2 ir2 cb2 ca2 a2 b2 al2], H1, H2;
    cbn [psg_format_version psg_segment psg_shard psg_records psg_history_root psg_index_roots
    psg_chain_before psg_chain_after psg_first_recorded_at psg_last_recorded_at psg_algorithms] in *.
  do 8 split_app H. cbn [app] in H.
  repeat match goal with
  | E : to_be_bytes 8 _ = to_be_bytes 8 _ |- _ => apply to_be_bytes_8_inj in E; [|first [done|by apply few_long]..]
  | E : to_be_bytes 2 _ = to_be_bytes 2 _ |- _ => apply to_be_bytes_2_inj in E; [|done..]
  | E : Z.of_nat _ = Z.of_nat _ |- _ => apply Nat2Z.inj in E
  end.
  rewrite ?app_nil_r in H. apply v_index_roots_inj in H as [-> H]; [|done..].
  split_app H. split_app H.
  repeat match goal with
  | E : to_be_bytes 8 _ = to_be_bytes 8 _ |- _ => apply to_be_bytes_8_inj in E; [|done..]
  end.
  match goal with E : alg_bytes ?a = alg_bytes ?b |- _ => destruct a as [[? ?] ?], b as [[? ?] ?]; injection E as -> -> -> end.
  congruence.
Qed.

Lemma v_shard_input_inj s1 s2 : pshard_ok s1 -> pshard_ok s2 -> v_shard_input s1 = v_shard_input s2 -> s1 = s2.
Proof.
  intros [] [] H. unfold v_shard_input in H. apply app_inv_head in H. split_app H. split_app H.
  unfold u32_ok in *.
  match goal with E : to_be_bytes 8 _ = _ |- _ => apply to_be_bytes_8_inj in E; [|unfold u64_ok; lia..] end.
  match goal with E : to_be_bytes 2 _ = _ |- _ => apply to_be_bytes_2_inj in E; [|done..] end.
  destruct s1, s2. cbn in *. congruence.
Qed.

Section Pinned.
Context `{DL : DigestLaws}.

Lemma segment_leaf_digest s : segment_leaf s = leaf_hash (digest (v_manifest_input s)).
Proof. unfold segment_leaf, v_manifest_root. by rewrite finish_parts. Qed.

Lemma pack_shard_leaf_digest s : pack_shard_leaf s = leaf_hash (digest (v_shard_input s)).
Proof.
  unfold pack_shard_leaf, v_shard_leaf. rewrite v_leaf_hash_eq, finish_parts. unfold v_shard_input. cbn [concat].
  by rewrite app_nil_r.
Qed.

(** ** The strings a verification hashes *)

Fixpoint chain_strings (link : Hash) (l : list (Fields * list byte)) : list (list byte) :=
  match l with
  | [] => []
  | (f, bytes) :: l' =>
      chain_input link f.(fd_seq) bytes :: chain_strings (chain_step link f.(fd_seq) bytes) l'
  end.

Definition segment_strings (p : Pack) (s : PackSegment) : list (list byte) :=
  match records_for p s.(psg_shard) s.(psg_segment) with
  | Some set =>
      match parse_fields set.(rs_records) with
      | Some parsed =>
          let zs := zip parsed set.(rs_records) in
          leaf_strings (chain_links s.(psg_chain_before) zs) ++ chain_strings s.(psg_chain_before) zs
      | None => []
      end
  | None => []
  end.

Definition shard_strings (p : Pack) (sh : PackShard) : list (list byte) :=
  tree_strings v_manifest_input (shard_segments p sh.(psh_shard))
  ++ concat (map (segment_strings p) (shard_segments p sh.(psh_shard))).

Definition pack_strings (p : Pack) : list (list byte) :=
  tree_strings v_shard_input p.(pk_shards) ++ concat (map (shard_strings p) p.(pk_shards)).

(** ** Equal links are equal records *)

Lemma chain_links_inj xs ys link fs1 bs1 fs2 bs2 i :
  collision_free xs ys -> hash_ok link -> 0 <= i -> i + Z.of_nat (length fs1) < 2 ^ 64 ->
  length fs1 = length bs1 -> length fs2 = length bs2 ->
  chain_strings link (zip fs1 bs1) ⊆ xs -> chain_strings link (zip fs2 bs2) ⊆ ys ->
  contiguous i fs1 = true -> contiguous i fs2 = true ->
  chain_links link (zip fs1 bs1) = chain_links link (zip fs2 bs2) -> bs1 = bs2.
Proof.
  intros Hcf. revert link bs1 fs2 bs2 i; induction fs1 as [|f1 fs1 IH];
    intros link [|b1 bs1] [|f2 fs2] [|b2 bs2] i Hlink Hi Hb Hl1 Hl2 Hx Hy Hc1 Hc2 E; try done.
  injection Hl1 as Hl1. injection Hl2 as Hl2. cbn [zip zip_with chain_links chain_strings contiguous length] in *.
  apply andb_true_iff in Hc1 as [H1 Hc1]. apply andb_true_iff in Hc2 as [H2 Hc2]. breflect.
  injection E as Eh E. rewrite H1, H2 in *.
  assert (b1 = b2) as ->.
  { rewrite !chain_step_digest in Eh.
    eapply collision_free_elem in Eh; [|exact Hcf|apply Hx; left|apply Hy; left].
    apply chain_input_inj in Eh as (_ & _ & ->); [done|done|done|unfold u64_ok; lia..]. }
  f_equal. apply (IH (chain_step link (i + 1) b2) bs1 fs2 bs2 (i + 1)); try done; try lia.
  - apply chain_step_ok.
  - intros x Hin. apply Hx. by right.
  - intros x Hin. apply Hy. by right.
Qed.

Lemma bool_decide_ok (P : Prop) `{Decision P} : bool_decide P = true -> P.
Proof. apply bool_decide_eq_true. Qed.

Lemma segment_good_inv p s :
  segment_good p s = true ->
  exists set parsed, records_for p s.(psg_shard) s.(psg_segment) = Some set /\
    parse_fields set.(rs_records) = Some parsed /\ contiguous 0 parsed = true /\
    mth (map leaf_hash (chain_links s.(psg_chain_before) (zip parsed set.(rs_records)))) = s.(psg_history_root).
Proof.
  unfold segment_good, set_good. destruct (records_for _ _ _) as [set|]; [|done].
  destruct (parse_fields (rs_records set)) as [parsed|] eqn:Ep; [|by rewrite andb_false_r].
  intros H. breflect. exists set, parsed. done.
Qed.

Lemma segment_pinned p1 p2 s xs ys :
  collision_free xs ys -> segment_strings p1 s ⊆ xs -> segment_strings p2 s ⊆ ys ->
  psegment_ok s -> pack_wf p1 -> segment_good p1 s = true -> segment_good p2 s = true ->
  exists set1 set2, records_for p1 s.(psg_shard) s.(psg_segment) = Some set1 /\
    records_for p2 s.(psg_shard) s.(psg_segment) = Some set2 /\ set1.(rs_records) = set2.(rs_records).
Proof.
  intros Hcf Hx Hy Hs Hw1 H1 H2.
  apply segment_good_inv in H1 as (set1 & fs1 & Er1 & Ep1 & Hc1 & Hh1).
  apply segment_good_inv in H2 as (set2 & fs2 & Er2 & Ep2 & Hc2 & Hh2).
  exists set1, set2. split; [done|]. split; [done|].
  unfold segment_strings in Hx, Hy. rewrite Er1, Ep1 in Hx. rewrite Er2, Ep2 in Hy. cbv zeta in Hx, Hy.
  rewrite <- Hh2 in Hh1.
  apply (mth_leaves_inj _ _ xs ys) in Hh1; [|done|by eapply app_sub_l|by eapply app_sub_l].
  assert (Hfew : few (rs_records set1)).
  { unfold records_for in Er1. apply find_some in Er1 as [Hin _]. apply list_elem_of_In in Hin.
    pose proof (wf_sets _ Hw1) as Hf. rewrite Forall_forall in Hf. by apply (Hf _ Hin). }
  pose proof (parse_fields_length _ _ Ep1) as Hl1. pose proof (parse_fields_length _ _ Ep2) as Hl2.
  eapply (chain_links_inj xs ys (psg_chain_before s) fs1 _ fs2 _ 0); [exact Hcf|exact (ok_psg_before _ Hs)|lia| |done|done| | |done|done|exact Hh1].
  - unfold few, MAX_ITEMS in Hfew. rewrite Hl1. lia.
  - by eapply app_sub_r.
  - by eapply app_sub_r.
Qed.
(** ** The pack's lists, through its shards *)

Lemma insert_segment_perm s l : insert_segment s l ≡ₚ s :: l.
Proof.
  induction l as [|x l IH]; cbn; [done|]. destruct (_ <? _); [|done]. rewrite IH. apply Permutation_swap.
Qed.

Lemma sort_segments_perm l : sort_segments l ≡ₚ l.
Proof. induction l as [|s l IH]; [done|]. cbn. by rewrite insert_segment_perm, IH. Qed.

Lemma elem_shard_segments p k s : s ∈ shard_segments p k <-> s ∈ p.(pk_segments) /\ s.(psg_shard) = k.
Proof. unfold shard_segments. rewrite sort_segments_perm, list_elem_of_filter. tauto. Qed.

Record pack_verdict (p : Pack) : Prop := {
  vd_root : mth (map pack_shard_leaf p.(pk_shards)) = p.(pk_header).(ph_store_root);
  vd_shards : forall sh, sh ∈ p.(pk_shards) ->
    mth (map segment_leaf (shard_segments p sh.(psh_shard))) = sh.(psh_root);
  vd_segments : forall sh s, sh ∈ p.(pk_shards) -> s ∈ shard_segments p sh.(psh_shard) -> segment_good p s = true;
  vd_listed : forall s, s ∈ p.(pk_segments) -> exists sh, sh ∈ p.(pk_shards) /\ sh.(psh_shard) = s.(psg_shard);
  vd_visited : forall rs, rs ∈ p.(pk_record_sets) -> exists sh s, sh ∈ p.(pk_shards) /\
    s ∈ shard_segments p sh.(psh_shard) /\ s.(psg_shard) = rs.(rs_shard) /\ s.(psg_segment) = rs.(rs_segment);
}.

Lemma forallb_elem {A} (f : A -> bool) l x : forallb f l = true -> x ∈ l -> f x = true.
Proof. intros H Hx. rewrite forallb_forall in H. by apply H, list_elem_of_In. Qed.

Lemma pack_good_verdict p : pack_good p = true -> pack_verdict p.
Proof.
  unfold pack_good. intros H. breflect.
  match goal with H : forallb (shard_good p) _ = true |- _ => rename H into Hsh end.
  match goal with H : forallb (listed p) _ = true |- _ => rename H into Hli end.
  match goal with H : forallb (visited p) _ = true |- _ => rename H into Hvi end.
  assert (Hg : forall sh, sh ∈ pk_shards p -> shard_good p sh = true) by (intros; by eapply forallb_elem).
  split; [done| | | |].
  - intros sh Hin. specialize (Hg sh Hin). unfold shard_good in Hg. breflect. done.
  - intros sh s Hin Hs. specialize (Hg sh Hin). unfold shard_good in Hg. breflect. by eapply forallb_elem.
  - intros s Hs. pose proof (forallb_elem _ _ s Hli Hs) as E. unfold listed in E.
    apply existsb_exists in E as (sh & Hin & E). apply list_elem_of_In in Hin. breflect. eauto.
  - intros rs Hrs. pose proof (forallb_elem _ _ rs Hvi Hrs) as E. unfold visited in E.
    apply existsb_exists in E as (k & Hin & E). breflect. subst k. unfold visited_keys in Hin.
    apply in_concat in Hin as (l & Hl & Hin). apply in_map_iff in Hl as (sh & <- & Hsh').
    apply in_map_iff in Hin as (s & [= E1 E2] & Hs). exists sh, s. rewrite !list_elem_of_In. done.
Qed.

Lemma concat_map_sub {A} (f : A -> list (list byte)) l x xs : concat (map f l) ⊆ xs -> x ∈ l -> f x ⊆ xs.
Proof.
  intros H Hx y Hy. apply H, list_elem_of_In, in_concat. exists (f x).
  split; [by apply in_map, list_elem_of_In|by apply list_elem_of_In].
Qed.

Lemma map_leaf_shards l : map pack_shard_leaf l = map (fun s => leaf_hash (digest (v_shard_input s))) l.
Proof. apply map_ext. intros s. apply pack_shard_leaf_digest. Qed.
Lemma map_leaf_segments l : map segment_leaf l = map (fun s => leaf_hash (digest (v_manifest_input s))) l.
Proof. apply map_ext. intros s. apply segment_leaf_digest. Qed.

Lemma shard_segments_ok p k : pack_wf p -> Forall psegment_ok (shard_segments p k).
Proof.
  intros Hw. apply Forall_forall. intros s Hs. apply elem_shard_segments in Hs as [Hs _].
  pose proof (wf_segments _ Hw) as Hf. rewrite Forall_forall in Hf. by apply Hf.
Qed.

Section Two.
Context (p1 p2 : Pack).
Hypotheses (W1 : pack_wf p1) (W2 : pack_wf p2) (V1 : pack_verdict p1) (V2 : pack_verdict p2).
Hypothesis Hroot : p1.(pk_header).(ph_store_root) = p2.(pk_header).(ph_store_root).
Hypothesis Hcf : collision_free (pack_strings p1) (pack_strings p2).

Lemma same_shards : p1.(pk_shards) = p2.(pk_shards).
Proof.
  eapply (tree_inj v_shard_input pshard_ok v_shard_input_inj); [exact Hcf|..].
  - unfold pack_strings. apply sub_app_l, sub_refl.
  - unfold pack_strings. apply sub_app_l, sub_refl.
  - apply W1.
  - apply W2.
  - rewrite <- !map_leaf_shards, (vd_root _ V1), (vd_root _ V2). exact Hroot.
Qed.

Lemma shard_strings_sub p sh : sh ∈ p.(pk_shards) -> shard_strings p sh ⊆ pack_strings p.
Proof. intros H. eapply concat_map_sub; [|exact H]. unfold pack_strings. apply sub_app_r, sub_refl. Qed.

Lemma same_segments sh : sh ∈ p1.(pk_shards) ->
  shard_segments p1 sh.(psh_shard) = shard_segments p2 sh.(psh_shard).
Proof.
  intros Hin. pose proof Hin as Hin2. rewrite same_shards in Hin2.
  eapply (tree_inj v_manifest_input psegment_ok v_manifest_input_inj); [exact Hcf|..].
  - etrans; [|by apply shard_strings_sub]. apply sub_app_l, sub_refl.
  - etrans; [|by apply shard_strings_sub]. apply sub_app_l, sub_refl.
  - by apply shard_segments_ok.
  - by apply shard_segments_ok.
  - rewrite <- !map_leaf_segments, (vd_shards _ V1), (vd_shards _ V2) by done. done.
Qed.

Lemma same_records sh s : sh ∈ p1.(pk_shards) -> s ∈ shard_segments p1 sh.(psh_shard) ->
  exists set1 set2, records_for p1 s.(psg_shard) s.(psg_segment) = Some set1 /\
    records_for p2 s.(psg_shard) s.(psg_segment) = Some set2 /\ set1.(rs_records) = set2.(rs_records).
Proof.
  intros Hin Hs. pose proof Hin as Hin2. rewrite same_shards in Hin2.
  pose proof Hs as Hs2. rewrite (same_segments sh Hin) in Hs2.
  eapply segment_pinned; [exact Hcf| | | |exact W1|by eapply (vd_segments _ V1)|by eapply (vd_segments _ V2)].
  - etrans; [|by apply shard_strings_sub]. eapply concat_map_sub; [|exact Hs]. apply sub_app_r, sub_refl.
  - etrans; [|by apply shard_strings_sub]. eapply concat_map_sub; [|exact Hs2]. apply sub_app_r, sub_refl.
  - pose proof (shard_segments_ok p1 (psh_shard sh) W1) as Hf. rewrite Forall_forall in Hf. by apply Hf.
Qed.

Lemma records_for_inv p k g set : records_for p k g = Some set ->
  set ∈ p.(pk_record_sets) /\ set.(rs_shard) = k /\ set.(rs_segment) = g.
Proof.
  unfold records_for. intros H. apply find_some in H as [Hin H]. apply list_elem_of_In in Hin. breflect. done.
Qed.

Lemma segments_sub s : s ∈ p1.(pk_segments) -> s ∈ p2.(pk_segments).
Proof.
  intros Hs. destruct (vd_listed _ V1 s Hs) as (sh & Hin & E).
  assert (Hs' : s ∈ shard_segments p1 (psh_shard sh)) by (by apply elem_shard_segments).
  rewrite same_segments in Hs' by done. by apply elem_shard_segments in Hs' as [? _].
Qed.

Lemma sets_sub rs : rs ∈ p1.(pk_record_sets) -> rs ∈ p2.(pk_record_sets).
Proof.
  intros Hrs. destruct (vd_visited _ V1 rs Hrs) as (sh & s & Hin & Hs & E1 & E2).
  destruct (same_records sh s Hin Hs) as (set1 & set2 & H1 & H2 & E).
  rewrite E1, E2, (records_for_spec p1 rs W1 Hrs) in H1. injection H1 as <-.
  apply records_for_inv in H2 as (Hin2 & F1 & F2). destruct rs as [a b c], set2 as [a' b' c']. cbn in *.
  subst. congruence.
Qed.

End Two.

Lemma pack_pinned p1 p2 :
  pack_wf p1 -> pack_wf p2 -> pack_verdict p1 -> pack_verdict p2 ->
  p1.(pk_header).(ph_store_root) = p2.(pk_header).(ph_store_root) ->
  collision_free (pack_strings p1) (pack_strings p2) ->
  p1.(pk_shards) = p2.(pk_shards) /\ p1.(pk_segments) ≡ₚ p2.(pk_segments) /\
  p1.(pk_record_sets) ≡ₚ p2.(pk_record_sets).
Proof.
  intros W1 W2 V1 V2 Hr Hcf. assert (Hcf' : collision_free (pack_strings p2) (pack_strings p1)).
  { unfold collision_free in *. rewrite !Forall_forall in *. intros y Hy. apply Forall_forall. intros x Hx E.
    specialize (Hcf x Hx). rewrite Forall_forall in Hcf. symmetry. by apply Hcf. }
  split; [by eapply same_shards|]. split; apply NoDup_Permutation.
  - eapply NoDup_fmap_1. exact (one_segment _ W1).
  - eapply NoDup_fmap_1. exact (one_segment _ W2).
  - intros s. split; intros Hs; [by eapply (segments_sub p1 p2)|by eapply (segments_sub p2 p1)].
  - eapply NoDup_fmap_1. exact (one_set _ W1).
  - eapply NoDup_fmap_1. exact (one_set _ W2).
  - intros s. split; intros Hs; [by eapply (sets_sub p1 p2)|by eapply (sets_sub p2 p1)].
Qed.

End Pinned.

(** C3 (a verified store root pins the records). Two packs, of whatever bytes, that
    the verifier reads and finds nothing broken in, and that carry the same store
    root, hold the same shards, the same segments and, segment by segment, the
    same record bytes, unless two of the strings hashed on the way collide. What
    the root does not cover is left free: the header's other fields, the
    attestations and the order of the sections. *)
Theorem verified_root_pins_the_records `{DL : DigestLaws} (bytes1 bytes2 : list byte) (p1 p2 : Pack) :
  Pack_parse bytes1 = Ok p1 -> Pack_parse bytes2 = Ok p2 ->
  verified <$> Verifier.verify bytes1 = Ok true -> verified <$> Verifier.verify bytes2 = Ok true ->
  p1.(pk_header).(ph_store_root) = p2.(pk_header).(ph_store_root) ->
  collision_free (pack_strings p1) (pack_strings p2) ->
  p1.(pk_shards) = p2.(pk_shards) /\ p1.(pk_segments) ≡ₚ p2.(pk_segments) /\
  p1.(pk_record_sets) ≡ₚ p2.(pk_record_sets).
Proof.
  unfold Verifier.verify. intros E1 E2 V1 V2 Hr Hcf. rewrite E1 in V1. rewrite E2 in V2. cbn in V1, V2.
  injection V1 as V1. injection V2 as V2. rewrite verified_pack in V1, V2.
  apply pack_pinned; try done; by (eapply parsed_pack_wf || apply pack_good_verdict).
Qed.

(** The sample store's pack, and the same store without attestations under another name. *)
Module Sample.
#[local] Existing Instance Register_Digest | 0.
#[local] Existing Instance Register_DigestLaws | 0.

Definition root1 : Hash := store_root (store_of PackComplete.Sample.store).
Definition builder1 : PackBuilder := add_store PackComplete.Sample.builder PackComplete.Sample.store.
Definition builder2 : PackBuilder := add_store (builder_new (MkToken (lit "other")) 5) PackComplete.Sample.store.

Lemma verified_root_pins_the_records_witness :
  pk_record_sets (pack_of builder1 root1) ≡ₚ pk_record_sets (pack_of builder2 root1) /\
  pk_header (pack_of builder1 root1) <> pk_header (pack_of builder2 root1).
Proof.
  destruct (verified_root_pins_the_records (build_pack builder1 root1) (build_pack builder2 root1)
    (pack_of builder1 root1) (pack_of builder2 root1)) as (_ & _ & H).
  - vm_compute. reflexivity.
  - vm_compute. reflexivity.
  - vm_compute. reflexivity.
  - vm_compute. reflexivity.
  - vm_compute. reflexivity.
  - apply collision_free_b_spec. vm_compute. reflexivity.
  - split; [exact H|]. vm_compute. discriminate.
Defined.

End Sample.
