(* ===== verification/Query.v ===== *)
(** * The read surface over a sealed segment ([trailryx-store/src/query.rs])

    A range in one dimension, an instant to look back from and predicates no index
    is sorted by; the answer carries how much of it is proved. *)

From S2P Require Import Prelude Bytes Ids Record Digest Merkle Completeness Segment.

(** ** Predicates outside the sorted dimension *)

Inductive Filter :=
  | FTenant (t : TenantId)
  | FSeverity (s : Severity)
  | FMinSeverity (s : Severity)
  | FVerdict (v : Verdict)
  | FError (e : ErrorCode)
  | FHasPayload (want : bool).

#[export] Instance Filter_eq_dec : EqDecision Filter.
Proof. solve_decision. Defined.

Definition severity_rank (s : Severity) : Z :=
  match s with Debug_ => 0 | Info => 1 | Notice => 2 | Warning => 3 | Error => 4 | Critical => 5 end.

Definition filter_matches (f : Filter) (r : Record_) : bool :=
  match f with
  | FTenant t => bool_decide (r.(tenant) = t)
  | FSeverity s => bool_decide (r.(severity) = s)
  | FMinSeverity s => severity_rank s <=? severity_rank r.(severity)
  | FVerdict v => bool_decide (r.(outcome).(o_verdict) = Some v)
  | FError e => bool_decide (r.(outcome).(o_error) = Some e)
  | FHasPayload want => Bool.eqb (some_ r.(payload)) want
  end.

Definition filter_name (f : Filter) : string :=
  match f with
  | FTenant _ => "tenant"
  | FSeverity _ | FMinSeverity _ => "severity"
  | FVerdict _ => "outcome.verdict"
  | FError _ => "outcome.error"
  | FHasPayload _ => "payload"
  end.

(** ** Queries *)

Record Query := MkQuery {
  q_dimension : Dimension;
  q_lo : list byte;
  q_hi : list byte;
  q_filters : list Filter;
  q_as_of : option Timestamp;
}.

Definition query_range (d : Dimension) (lo hi : list byte) : Query := MkQuery d lo hi [] None.
Definition query_point (d : Dimension) (key : list byte) : Query := query_range d key key.
Definition time_between (from to : Timestamp) : Query := query_range DRecordedAt (time_key from) (time_key to).
Definition query_with (q : Query) (f : Filter) : Query :=
  MkQuery q.(q_dimension) q.(q_lo) q.(q_hi) (q.(q_filters) ++ [f]) q.(q_as_of).
Definition query_as_of (q : Query) (at_ : Timestamp) : Query :=
  MkQuery q.(q_dimension) q.(q_lo) q.(q_hi) q.(q_filters) (Some at_).

(** On the time dimension [as_of] is a tighter bound. *)
Definition effective_hi (q : Query) : list byte :=
  match q.(q_as_of), q.(q_dimension) with
  | Some at_, DRecordedAt =>
      let bound := time_key at_ in
      if lt_bytes bound q.(q_hi) then bound else q.(q_hi)
  | _, _ => q.(q_hi)
  end.

(** ** How much of an answer is proved *)

Inductive ProofStatus :=
  | PsFull
  | PsPartial (unproved : list string)
  | PsNone (why : string).

#[export] Instance ProofStatus_eq_dec : EqDecision ProofStatus.
Proof. solve_decision. Defined.

Definition is_full (s : ProofStatus) : bool := match s with PsFull => true | _ => false end.

Definition downgrade (reason : string) (s : ProofStatus) : ProofStatus :=
  match s with
  | PsFull => PsPartial [reason]
  | PsPartial unproved =>
      if bool_decide (reason ∈ unproved) then s else PsPartial (unproved ++ [reason])
  | PsNone _ => s
  end.

Section Query.
Context `{D : Digest}.

Record Answer := MkAnswer {
  a_records : list Record_;
  a_proof : ProofStatus;
  a_segment_proofs : list CompletenessProof;
  a_matched_before_filters : nat;
}.

Definition answer_len (a : Answer) : nat := length a.(a_records).
Definition answer_is_empty (a : Answer) : bool := (answer_len a =? 0)%nat.

(** One turn of the loop over the filters. *)
Definition apply_filter (st : list Record_ * ProofStatus) (f : Filter) : list Record_ * ProofStatus :=
  (filter (fun r => filter_matches f r = true) st.1, downgrade (filter_name f) st.2).

(** [None] is the panic of [SortedIndex::range]. *)
Definition query_segment (segment : Segment) (q : Query) : option Answer :=
  let hi := effective_hi q in
  let elsewhere := some_ q.(q_as_of) && negb (bool_decide (q.(q_dimension) = DRecordedAt)) in
  let status := if elsewhere then downgrade "as_of" PsFull else PsFull in
  match seg_index segment q.(q_dimension) with
  | None => Some (MkAnswer [] (PsNone "the segment has no index for this dimension") [] 0)
  | Some idx =>
      proof ← range idx q.(q_lo) hi;
      let records := omap (fun e => record_by_link segment e.(record_link)) proof.(c_entries) in
      let records :=
        match q.(q_as_of) with
        | Some at_ => if elsewhere then filter (fun r => r.(recorded_at) <= at_) records else records
        | None => records
        end in
      let '(records, status) := fold_left apply_filter q.(q_filters) (records, status) in
      Some (MkAnswer records status [proof] (matched proof))
  end.

End Query.

(** ** What was asked for *)

Definition as_of_admits (q : Query) (r : Record_) : bool :=
  match q.(q_as_of) with Some at_ => r.(recorded_at) <=? at_ | None => true end.

Definition asked_for (q : Query) (r : Record_) : bool :=
  in_range q.(q_lo) q.(q_hi) (key_of q.(q_dimension) r) && as_of_admits q r
  && forallb (fun f => filter_matches f r) q.(q_filters).

(** The reasons an answer is not a proof, in the order they are found. *)
Definition unproved_parts (q : Query) : list string :=
  (if some_ q.(q_as_of) && negb (bool_decide (q.(q_dimension) = DRecordedAt)) then ["as_of"] else [])
  ++ map filter_name q.(q_filters).

Definition status_of (reasons : list string) : ProofStatus :=
  fold_left (fun s r => downgrade r s) reasons PsFull.

Lemma downgrade_status reasons unproved :
  fold_left (fun s r => downgrade r s) reasons (PsPartial unproved) =
  PsPartial (fold_left (fun l r => if bool_decide (r ∈ l) then l else l ++ [r]) reasons unproved).
Proof.
  revert unproved; induction reasons as [|r reasons IH]; intros unproved; [done|].
  cbn [fold_left downgrade]. destruct (bool_decide (r ∈ unproved)); apply IH.
Qed.

Lemma status_full reasons : is_full (status_of reasons) = bool_decide (reasons = []).
Proof. destruct reasons as [|r reasons]; [done|]. unfold status_of. cbn [fold_left downgrade]. by rewrite downgrade_status. Qed.

Lemma status_not_none reasons why : status_of reasons <> PsNone why.
Proof. destruct reasons as [|r reasons]; [done|]. unfold status_of. cbn [fold_left downgrade]. by rewrite downgrade_status. Qed.

Lemma apply_filters fs rs st :
  fold_left apply_filter fs (rs, st) =
  (filter (fun r => forallb (fun f => filter_matches f r) fs = true) rs,
   fold_left (fun s r => downgrade r s) (map filter_name fs) st).
Proof.
  revert rs st; induction fs as [|f fs IH]; intros rs st; cbn [fold_left map].
  - f_equal. symmetry. apply filter_all. by apply Forall_true.
  - unfold apply_filter at 2. cbn [fst snd]. rewrite IH. f_equal.
    rewrite list_filter_filter. apply list_filter_iff. intros r. cbn [forallb]. rewrite andb_true_iff. tauto.
Qed.

(** Folding [as_of] into the bound of the time dimension. *)
Lemma effective_bound q r :
  record_ok r -> opt_ok u64_ok q.(q_as_of) ->
  in_range q.(q_lo) (effective_hi q) (key_of q.(q_dimension) r)
    && (if bool_decide (q.(q_dimension) = DRecordedAt) then true else as_of_admits q r) =
  in_range q.(q_lo) q.(q_hi) (key_of q.(q_dimension) r) && as_of_admits q r.
Proof.
  intros Hr Ha. unfold effective_hi, as_of_admits. destruct (q_as_of q) as [at_|];
    [|by destruct (bool_decide _)].
  destruct (q_dimension q) eqn:Ed; try (by rewrite bool_decide_false).
  rewrite bool_decide_true by done. rewrite andb_true_r. unfold in_range. rewrite <- andb_assoc. f_equal.
  assert (Hk : forall z, u64_ok z -> le_bytes (time_key (recorded_at r)) (time_key z) = (recorded_at r <=? z)).
  { intros z Hz. unfold le_bytes, time_key. rewrite cmp_to_be_bytes; [|apply Hr|exact Hz].
    unfold Z.leb. by destruct (_ ?= _). }
  change (key_of DRecordedAt r) with (time_key (recorded_at r)).
  destruct (lt_bytes (time_key at_) (q_hi q)) eqn:El.
  - rewrite Hk by done. destruct (Z.leb_spec (recorded_at r) at_) as [Hle|]; [|by rewrite andb_false_r].
    rewrite andb_true_r. symmetry. apply lt_bytes_le. eapply le_lt_bytes_trans; [|exact El].
    rewrite Hk by done. by apply Z.leb_le.
  - destruct (le_bytes (time_key (recorded_at r)) (q_hi q)) eqn:Eh; [|done]. cbn [andb]. symmetry.
    rewrite <- Hk by done. eapply le_bytes_trans; [exact Eh|]. by rewrite le_bytes_not_lt, El.
Qed.

(** ** A sealed segment answers *)

Section Answers.
Context `{DL : DigestLaws}.

Lemma in_range_point k v : in_range k k v = bool_decide (v = k).
Proof.
  unfold in_range. destruct (decide (v = k)) as [->|Hne].
  - by rewrite le_bytes_refl, bool_decide_true.
  - rewrite bool_decide_false by done. apply andb_false_iff.
    destruct (le_bytes k v) eqn:E1; [right|by left]. destruct (le_bytes v k) eqn:E2; [|done].
    exfalso. apply le_bytes_spec in E1 as [E1| ->]; [|done]. apply le_bytes_spec in E2 as [E2| ->]; [|done].
    pose proof (cmp_bytes_antisym k v) as H. rewrite E1, E2 in H. discriminate H.
Qed.

Lemma omap_links {A B C} (f : A -> C) (g : C -> option B) l : omap (fun e => g (f e)) l = omap g (map f l).
Proof. induction l as [|x l IH]; [done|]. cbn. rewrite IH. done. Qed.

(** The records behind the in-range entries are the in-range records. *)
Lemma answered_records seg ix before rs s d lo hi :
  seal seg ix before rs = Ok s -> NoDup (map snd rs) ->
  omap (fun e => record_by_link s e.(record_link)) (entries_in lo hi (build d rs).(entries)) ≡ₚ
  filter (fun r => in_range lo hi (key_of d r) = true) (map fst rs).
Proof.
  intros Hs Hnd. rewrite omap_links, build_range_links.
  pose proof (proj2 (seal_links _ _ _ _ _ Hs Hnd)) as Hl. clear Hs Hnd.
  induction rs as [|[r h] rs IH]; [done|]. cbn [map fst]. rewrite !filter_cons. cbn [fst].
  assert (IH' := IH (fun r' h' H => Hl r' h' (list_elem_of_further _ _ _ H))).
  destruct (decide _); [|exact IH']. cbn [map snd omap list_omap]. rewrite (Hl r h) by left. by rewrite IH'.
Qed.

Lemma filter_ext_in {A} (P Q : A -> Prop) `{forall x, Decision (P x), forall x, Decision (Q x)} (l : list A) :
  (forall x, x ∈ l -> P x <-> Q x) -> filter P l = filter Q l.
Proof.
  induction l as [|x l IH]; intros Hl; [done|]. rewrite !filter_cons, IH by (intros y Hy; apply Hl; by right).
  destruct (Hl x) as [H1 H2]; [by left|]. destruct (decide (P x)), (decide (Q x)); tauto.
Qed.

Lemma filter_map_fst {A B} (P : A -> Prop) `{forall x, Decision (P x)} (l : list (A * B)) :
  filter P (map fst l) = map fst (filter (fun x => P x.1) l).
Proof. induction l as [|x l IH]; [done|]. cbn [map]. rewrite !filter_cons, IH. by destruct (decide (P x.1)). Qed.

(** No index of a sealed segment has two entries at one position. *)
Lemma seal_unique seg ix before rs s d :
  seal seg ix before rs = Ok s -> first_duplicate_position (build d rs) = None.
Proof.
  intros Hs. pose proof (proj2 (proj1 (seal_ok_iff seg ix before rs) (f_equal is_ok Hs))) as Hall.
  rewrite Forall_forall in Hall. apply Hall. destruct d; set_solver.
Qed.

Lemma query_segment_answers seg ix before rs s q :
  seal seg ix before rs = Ok s -> NoDup (map snd rs) -> Forall row_ok rs -> opt_ok u64_ok q.(q_as_of) ->
  exists a p, query_segment s q = Some a /\ a.(a_segment_proofs) = [p] /\
    a.(a_records) ≡ₚ filter (fun r => asked_for q r = true) (map fst rs) /\
    a.(a_proof) = status_of (unproved_parts q) /\
    range (build q.(q_dimension) rs) q.(q_lo) (effective_hi q) = Some p /\
    a.(a_matched_before_filters) =
      length (filter (fun r => in_range q.(q_lo) (effective_hi q) (key_of q.(q_dimension) r) = true) (map fst rs)).
Proof.
  intros Hs Hnd Hok Ha. destruct (seal_inv _ _ _ _ _ Hs) as (_ & _ & _ & _ & Hi & _).
  pose proof (seal_unique _ _ _ _ _ (q_dimension q) Hs) as Hdup.
  destruct (range_verifies (build (q_dimension q) rs) (q_lo q) (effective_hi q) (build_ok _ _) Hdup)
    as (p & Hp & _ & Hes).
  pose proof (answered_records _ _ _ _ _ (q_dimension q) (q_lo q) (effective_hi q) Hs Hnd) as Hrec.
  unfold query_segment. rewrite Hi, Hp. cbn [mbind option_bind]. rewrite Hes.
  set (found := omap _ _) in *.
  set (kept := match q_as_of q with Some _ => _ | None => found end).
  set (st0 := if _ && _ then downgrade _ _ else PsFull).
  rewrite apply_filters. do 2 eexists. split; [reflexivity|].
  cbn [a_segment_proofs a_records a_proof a_matched_before_filters].
  split; [done|]. split; [|split; [|split; [done|]]].
  - assert (Hk : kept ≡ₚ filter (fun r => in_range q.(q_lo) q.(q_hi) (key_of q.(q_dimension) r)
                                        && as_of_admits q r = true) (map fst rs)).
    { transitivity (filter (fun r => (if bool_decide (q.(q_dimension) = DRecordedAt) then true else as_of_admits q r) = true) found).
      - unfold kept, as_of_admits. destruct (q_as_of q) as [at_|]; cbn [some_ andb].
        + destruct (bool_decide _); cbn [negb].
          * rewrite filter_all; [done|by apply Forall_true].
          * apply reflexive_eq, list_filter_iff. intros r. by rewrite Z.leb_le.
        + rewrite filter_all; [done|]. apply Forall_true. intros r. by destruct (bool_decide _).
      - rewrite Hrec, list_filter_filter. apply reflexive_eq, filter_ext_in. intros r Hr.
        rewrite <- effective_bound; [rewrite andb_true_iff; tauto| |done].
        apply list_elem_of_fmap in Hr as ([r' h] & -> & Hr). rewrite Forall_forall in Hok.
        apply (Hok _ Hr). }
    rewrite Hk, list_filter_filter. apply reflexive_eq, list_filter_iff. intros r. unfold asked_for.
    rewrite !andb_true_iff. tauto.
  - unfold st0, unproved_parts, status_of. by destruct (_ && _).
  - unfold matched. rewrite Hes, <- (length_map record_link), build_range_links, length_map.
    by rewrite filter_map_fst, length_map.
Qed.

(** A point query with no other predicate: the records of the key, all proved. *)
Lemma point_query_answers seg ix before rs s d key :
  seal seg ix before rs = Ok s -> NoDup (map snd rs) -> Forall row_ok rs ->
  exists a, query_segment s (query_point d key) = Some a /\ a.(a_proof) = PsFull /\
    a.(a_records) ≡ₚ filter (fun r => key_of d r = key) (map fst rs).
Proof.
  intros Hs Hnd Hok. destruct (query_segment_answers _ _ _ _ _ (query_point d key) Hs Hnd Hok I)
    as (a & p & Hq & _ & Hr & Hp & _). exists a. split; [exact Hq|]. split; [exact Hp|]. rewrite Hr.
  apply reflexive_eq, list_filter_iff. intros r. unfold asked_for. cbn. rewrite in_range_point, !andb_true_r.
  by rewrite bool_decide_eq_true.
Qed.

End Answers.

(** ** The property *)

(** C12 (an answer says how much of it is proved). Querying a sealed segment with
    any range, instant and filters never panics. The records returned are exactly
    the records of the segment that were asked for: in range, recorded by the
    instant, passing every filter. The answer's completeness proof verifies
    against the index root of the segment's manifest. And its status is [Full]
    exactly when that proof covers the whole question: no filter was used, and an
    instant was given only on the time dimension; otherwise the status lists the
    names of the parts that are not proved. *)
Theorem query_is_honest `{DL : DigestLaws} (seg : SegmentId) (ix : ShardIx) (before : Hash)
    (rs : list (Record_ * Hash)) (s : Segment) (q : Query) :
  seal seg ix before rs = Ok s -> NoDup (map snd rs) -> Forall row_ok rs -> opt_ok u64_ok q.(q_as_of) ->
  exists a p, query_segment s q = Some a /\ a.(a_segment_proofs) = [p] /\
    a.(a_records) ≡ₚ filter (fun r => asked_for q r = true) (map fst rs) /\
    (exists rt, manifest_index_root s.(manifest) q.(q_dimension) = Some rt /\
       verify p q.(q_dimension) q.(q_lo) (effective_hi q) rt (length rs) = Ok tt) /\
    a.(a_proof) = status_of (unproved_parts q) /\
    (is_full a.(a_proof) = true <->
     q.(q_filters) = [] /\ (q.(q_as_of) = None \/ q.(q_dimension) = DRecordedAt)) /\
    (is_full a.(a_proof) = true ->
     a.(a_matched_before_filters) = answer_len a).
Proof.
  intros Hs Hnd Hok Ha.
  destruct (query_segment_answers _ _ _ _ _ q Hs Hnd Hok Ha) as (a & p & Hq & Hsp & Hr & Hst & Hp & Hm).
  exists a, p. split; [exact Hq|]. split; [exact Hsp|]. split; [exact Hr|]. split.
  - destruct (seal_inv _ _ _ _ _ Hs) as (_ & _ & _ & Hroot & _). exists (index_root (build (q_dimension q) rs)).
    split; [apply Hroot|].
    pose proof (seal_unique _ _ _ _ _ (q_dimension q) Hs) as Hdup.
    destruct (range_verifies (build (q_dimension q) rs) (q_lo q) (effective_hi q) (build_ok _ _) Hdup)
      as (p' & Hp' & Hv & _). rewrite Hp in Hp'. injection Hp' as <-. by rewrite build_len in Hv.
  - split; [exact Hst|]. split.
    + rewrite Hst, status_full, bool_decide_eq_true. unfold unproved_parts.
      destruct (q_filters q), (q_as_of q), (q_dimension q); cbn; naive_solver.
    + rewrite Hst, status_full, bool_decide_eq_true. intros Hu. rewrite Hm. unfold answer_len. rewrite Hr. f_equal.
      apply filter_ext_in. intros r Hin. unfold asked_for.
      assert (Hro : record_ok r).
      { apply list_elem_of_fmap in Hin as ([r' h] & -> & Hin). rewrite Forall_forall in Hok. apply (Hok _ Hin). }
      rewrite <- effective_bound by done. unfold unproved_parts in Hu. unfold as_of_admits.
      destruct (q_filters q); [|by destruct (_ && _)]. cbn [forallb]. rewrite andb_true_r.
      destruct (q_as_of q), (bool_decide _); try done; by rewrite andb_true_r.
Qed.

Definition sample_query : Query :=
  query_as_of (query_with (time_between 500 5000) (FMinSeverity Info)) 2500.

Lemma query_is_honest_witness :
  exists s a, @seal Register_Digest 1 0 Hash_ZERO sample_rows = Ok s /\
    @query_segment Register_Digest s sample_query = Some a /\
    length a.(a_records) = 2%nat /\ a.(a_proof) = PsPartial ["severity"] /\ is_full a.(a_proof) = false.
Proof.
  destruct (@seal Register_Digest 1 0 Hash_ZERO sample_rows) as [s|e] eqn:E.
  - destruct (query_is_honest (DL := Register_DigestLaws) 1 0 Hash_ZERO sample_rows s sample_query E)
      as (a & p & Hq & _ & Hr & _ & Hst & _).
    + by_evaluation.
    + by_evaluation.
    + by_evaluation.
    + exists s, a. split; [reflexivity|]. split; [exact Hq|]. split; [rewrite Hr; vm_compute; reflexivity|].
      rewrite Hst. split; vm_compute; reflexivity.
  - exfalso. assert (Hok : is_ok (@seal Register_Digest 1 0 Hash_ZERO sample_rows) = true) by (vm_compute; reflexivity).
    rewrite E in Hok. discriminate Hok.
Defined.
