(* ===== verification/Causal.v ===== *)
(** * Reconstructing what led to a run ([trailryx-store/src/causal.rs])

    A breadth-first traversal of the records' [parent_run_id] and [caused_by]
    edges, each hop a proved query, bounded in hops and in records. *)

From S2P Require Import Prelude Bytes Ids Record Digest Merkle Completeness Segment Query.

Record Bounds := MkBounds { max_hops : nat; max_records : nat }.

Definition Bounds_default : Bounds := MkBounds 64 (10 * 10 * 10 * 10).

Inductive Stopped := Exhausted | HopLimit | RecordLimit.

#[export] Instance Stopped_eq_dec : EqDecision Stopped.
Proof. solve_decision. Defined.

Inductive Hop :=
  | HRoot (run : RunId)
  | HParentRun (run : RunId) (from : RecordId)
  | HCause (record : RecordId) (from : RecordId).

Inductive Step := StRun (r : RunId) | StRecord (id : RecordId).

(** The order of [sort_by_key]: [recorded_at], then [id]. *)
Definition by_time (a b : Record_) : bool :=
  (a.(recorded_at) <? b.(recorded_at))
  || ((a.(recorded_at) =? b.(recorded_at)) && (a.(r_id) <=? b.(r_id))).

(** A stable sort. *)
Fixpoint insert_by_time (r : Record_) (l : list Record_) : list Record_ :=
  match l with
  | [] => [r]
  | x :: l' => if by_time r x then r :: l else x :: insert_by_time r l'
  end.
Definition sort_by_time (l : list Record_) : list Record_ := foldr insert_by_time [] l.

Definition merge_status (into other : ProofStatus) : ProofStatus :=
  match other with
  | PsFull => into
  | PsPartial unproved => fold_left (fun s u => downgrade u s) unproved into
  | PsNone why => downgrade why into
  end.

Definition OUTSIDE : string := "a caused_by edge points outside these segments".
Definition LOSS : string := "the store recorded a loss against this run, so the closure may be short".

Section Causal.
Context `{D : Digest}.

Record Reconstruction := MkReconstruction {
  rc_records : list Record_;
  rc_proof : ProofStatus;
  rc_hops : list Hop;
  rc_segment_proofs : list CompletenessProof;
  rc_stopped : Stopped;
}.

Definition is_complete (r : Reconstruction) : bool :=
  is_full r.(rc_proof) && bool_decide (r.(rc_stopped) = Exhausted).

(** The local variables of [reconstruct]. *)
Record Trav := MkTrav {
  t_records : list Record_;
  t_seen_records : gset Z;
  t_seen_runs : gset (list byte);
  t_hops : list Hop;
  t_proofs : list CompletenessProof;
  t_status : ProofStatus;
  t_queue : list (Step * option RecordId);
  t_taken : nat;
  t_stopped : Stopped;
}.

Definition hop_query (s : Step) : Query :=
  match s with
  | StRun r => query_point DRunId r.(as_str)
  | StRecord id => query_point DRecordId (id_key id)
  end.

(** The loop over the segments; [None] is a panic of [query_segment]. *)
Fixpoint ask_all (segs : list Segment) (q : Query) (status : ProofStatus) (proofs : list CompletenessProof)
    (found : list Record_) : option (ProofStatus * list CompletenessProof * list Record_) :=
  match segs with
  | [] => Some (status, proofs, found)
  | seg :: segs' =>
      a ← query_segment seg q;
      ask_all segs' q (merge_status status a.(a_proof)) (proofs ++ a.(a_segment_proofs)) (found ++ a.(a_records))
  end.

Definition is_loss (r : Record_) : bool :=
  bool_decide (r.(event_type) = StoreEvent) && bool_decide (r.(outcome).(o_verdict) = Some Failed).

(** One turn of the loop over [caused_by]. *)
Definition follow_cause (from : RecordId) (t : Trav) (cause : RecordId) : Trav :=
  if bool_decide (cause ∈ t.(t_seen_records)) then t
  else MkTrav t.(t_records) t.(t_seen_records) t.(t_seen_runs) (t.(t_hops) ++ [HCause cause from]) t.(t_proofs)
         t.(t_status) (t.(t_queue) ++ [(StRecord cause, Some from)]) t.(t_taken) t.(t_stopped).

Definition follow_parent (r : Record_) (t : Trav) : Trav :=
  match r.(parent_run_id) with
  | Some parent =>
      if bool_decide (parent.(as_str) ∈ t.(t_seen_runs)) then t
      else MkTrav t.(t_records) t.(t_seen_records) ({[parent.(as_str)]} ∪ t.(t_seen_runs))
             (t.(t_hops) ++ [HParentRun parent r.(r_id)]) t.(t_proofs) t.(t_status)
             (t.(t_queue) ++ [(StRun parent, Some r.(r_id))]) t.(t_taken) t.(t_stopped)
  | None => t
  end.

Definition with_status (t : Trav) (s : ProofStatus) : Trav :=
  MkTrav t.(t_records) t.(t_seen_records) t.(t_seen_runs) t.(t_hops) t.(t_proofs) s t.(t_queue) t.(t_taken) t.(t_stopped).
Definition with_seen (t : Trav) (s : gset Z) : Trav :=
  MkTrav t.(t_records) s t.(t_seen_runs) t.(t_hops) t.(t_proofs) t.(t_status) t.(t_queue) t.(t_taken) t.(t_stopped).
Definition with_stopped (t : Trav) (s : Stopped) : Trav :=
  MkTrav t.(t_records) t.(t_seen_records) t.(t_seen_runs) t.(t_hops) t.(t_proofs) t.(t_status) t.(t_queue) t.(t_taken) s.
Definition push_record (t : Trav) (r : Record_) : Trav :=
  MkTrav (t.(t_records) ++ [r]) t.(t_seen_records) t.(t_seen_runs) t.(t_hops) t.(t_proofs) t.(t_status) t.(t_queue)
    t.(t_taken) t.(t_stopped).

(** What the loop does with a record it had not seen. *)
Definition take_record (t : Trav) (r : Record_) : Trav :=
  let t := if is_loss r then with_status t (downgrade LOSS t.(t_status)) else t in
  let t := follow_parent r t in
  let t := fold_left (follow_cause r.(r_id)) r.(caused_by) t in
  push_record t r.

(** [for r in found], with its [continue] and its [break]. *)
Fixpoint visit (b : Bounds) (t : Trav) (found : list Record_) : Trav :=
  match found with
  | [] => t
  | r :: found' =>
      if bool_decide (r.(r_id) ∈ t.(t_seen_records)) then visit b t found'
      else
        let t := with_seen t ({[r.(r_id)]} ∪ t.(t_seen_records)) in
        if (b.(max_records) <=? length t.(t_records))%nat then with_stopped t RecordLimit
        else visit b (take_record t r) found'
  end.

(** A popped step: query, note an edge that leads nowhere, visit what was found. *)
Definition hop (segs : list Segment) (b : Bounds) (t : Trav) (step : Step) (from : option RecordId)
    (queue : list (Step * option RecordId)) : option Trav :=
  '(status, proofs, found) ← ask_all segs (hop_query step) t.(t_status) t.(t_proofs) [];
  let status :=
    match step, from with
    | StRecord id, Some _ =>
        if existsb (fun r => r.(r_id) =? id) found then status else downgrade OUTSIDE status
    | _, _ => status
    end in
  Some (visit b (MkTrav t.(t_records) t.(t_seen_records) t.(t_seen_runs) t.(t_hops) proofs status queue
                   (S t.(t_taken)) t.(t_stopped)) found).

(** [while let Some(..) = queue.pop_front()]; [None] is a panic or spent fuel. *)
Fixpoint traverse (fuel : nat) (segs : list Segment) (b : Bounds) (t : Trav) : option Trav :=
  match fuel with
  | O => None
  | S fuel' =>
      match t.(t_queue) with
      | [] => Some t
      | (step, from) :: queue =>
          if (b.(max_hops) <=? t.(t_taken))%nat then Some (with_stopped t HopLimit)
          else
            t ← hop segs b t step from queue;
            if bool_decide (t.(t_stopped) = RecordLimit) then Some t else traverse fuel' segs b t
      end
  end.

Definition reconstruct (segs : list Segment) (run : RunId) (b : Bounds) : option Reconstruction :=
  t ← traverse (S b.(max_hops)) segs b
        (MkTrav [] ∅ {[run.(as_str)]} [HRoot run] [] PsFull [(StRun run, None)] 0 Exhausted);
  Some (MkReconstruction (sort_by_time t.(t_records)) t.(t_status) t.(t_hops) t.(t_proofs) t.(t_stopped)).

End Causal.

(** ** What led to a run *)

(** The closure of a run's records under both kinds of edge, among [all]. *)
Inductive led_to (all : list Record_) (run : RunId) : Record_ -> Prop :=
  | led_run r : r ∈ all -> r.(run_id) = run -> led_to all run r
  | led_parent r p r' : led_to all run r -> r.(parent_run_id) = Some p -> r' ∈ all -> r'.(run_id) = p ->
      led_to all run r'
  | led_cause r c r' : led_to all run r -> c ∈ r.(caused_by) -> r' ∈ all -> r'.(r_id) = c -> led_to all run r'.

(** Every edge of a record, and a loss the store recorded against its run. *)
Definition edges_of (r : Record_) : nat := S (length r.(caused_by)).
Definition dangling (all : list Record_) (r : Record_) : Prop :=
  Exists (fun c => Forall (fun r' => r'.(r_id) <> c) all) r.(caused_by).

Definition hop_justified (run : RunId) (taken : list Record_) (h : Hop) : Prop :=
  match h with
  | HRoot r => r = run
  | HParentRun p from => exists r, r ∈ taken /\ r.(r_id) = from /\ r.(parent_run_id) = Some p
  | HCause c from => exists r, r ∈ taken /\ r.(r_id) = from /\ c ∈ r.(caused_by)
  end.

Definition step_matches (s : Step) (r : Record_) : Prop :=
  match s with StRun p => r.(run_id) = p | StRecord c => r.(r_id) = c end.

#[export] Instance step_matches_dec s r : Decision (step_matches s r).
Proof. destruct s; unfold step_matches; apply _. Defined.

Definition step_justified (run : RunId) (taken : list Record_) (s : Step) : Prop :=
  match s with
  | StRun p => p = run \/ exists r, r ∈ taken /\ r.(parent_run_id) = Some p
  | StRecord c => exists r, r ∈ taken /\ c ∈ r.(caused_by)
  end.

Definition named_from (sf : Step * option RecordId) : Prop :=
  match sf with (StRecord _, None) => False | _ => True end.

(** The edges of a record not followed yet. *)
Definition new_parents (runs : gset (list byte)) (r : Record_) : list RunId :=
  match r.(parent_run_id) with
  | Some p => if bool_decide (p.(as_str) ∈ runs) then [] else [p]
  | None => []
  end.
Definition new_causes (seen : gset Z) (r : Record_) : list RecordId := filter (fun c => c ∉ seen) r.(caused_by).

Section Closure.
Context `{D : Digest}.

Lemma follow_causes from cs t :
  fold_left (follow_cause from) cs t =
  MkTrav t.(t_records) t.(t_seen_records) t.(t_seen_runs)
    (t.(t_hops) ++ map (fun c => HCause c from) (filter (fun c => c ∉ t.(t_seen_records)) cs)) t.(t_proofs) t.(t_status)
    (t.(t_queue) ++ map (fun c => (StRecord c, Some from)) (filter (fun c => c ∉ t.(t_seen_records)) cs))
    t.(t_taken) t.(t_stopped).
Proof.
  revert t; induction cs as [|c cs IH]; intros t; cbn [fold_left].
  - cbn. rewrite !app_nil_r. by destruct t.
  - rewrite IH, !filter_cons. unfold follow_cause.
    destruct (decide (c ∈ t_seen_records t)) as [Hc|Hc].
    + rewrite bool_decide_true by done. destruct (decide (c ∉ t_seen_records t)); [done|reflexivity].
    + rewrite bool_decide_false by done. destruct (decide (c ∉ t_seen_records t)); [|done].
      cbn [map t_records t_seen_records t_seen_runs t_hops t_proofs t_status t_queue t_taken t_stopped].
      by rewrite <- !app_assoc.
Qed.

Lemma take_record_eq t r :
  take_record t r =
  let id := r.(r_id) in
  let ps := new_parents t.(t_seen_runs) r in
  let cs := new_causes t.(t_seen_records) r in
  MkTrav (t.(t_records) ++ [r]) t.(t_seen_records) (list_to_set (map as_str ps) ∪ t.(t_seen_runs))
    (t.(t_hops) ++ map (fun p => HParentRun p id) ps ++ map (fun c => HCause c id) cs) t.(t_proofs)
    (if is_loss r then downgrade LOSS t.(t_status) else t.(t_status))
    (t.(t_queue) ++ map (fun p => (StRun p, Some id)) ps ++ map (fun c => (StRecord c, Some id)) cs)
    t.(t_taken) t.(t_stopped).
Proof.
  unfold take_record, new_parents, new_causes, follow_parent, push_record. cbn zeta.
  set (t1 := if is_loss r then _ else t).
  assert (Ht1 : t1 = with_status t (if is_loss r then downgrade LOSS t.(t_status) else t.(t_status))).
  { unfold t1. destruct (is_loss r); [done|by destruct t]. }
  rewrite Ht1. destruct (parent_run_id r) as [p|].
  - cbn [with_status t_seen_runs]. destruct (bool_decide (as_str p ∈ t_seen_runs t)); rewrite follow_causes;
      cbn [map app list_to_set t_records t_seen_records t_seen_runs t_hops t_proofs t_status t_queue t_taken t_stopped with_status];
      rewrite <- ?app_assoc; f_equal; set_solver.
  - rewrite follow_causes.
    cbn [map app list_to_set t_records t_seen_records t_seen_runs t_hops t_proofs t_status t_queue t_taken t_stopped with_status].
    f_equal; set_solver.
Qed.

Section Traversal.
Context (all : list Record_) (run : RunId).

(** What holds between two hops. [pend] holds the steps popped and not yet
    answered in full. *)
Record trav_ok (pend : list Step) (t : Trav) : Prop := {
  i_taken : forall r, r ∈ t.(t_records) -> led_to all run r;
  i_seen : forall i, i ∈ t.(t_seen_records) <-> exists r, r ∈ t.(t_records) /\ r.(r_id) = i;
  i_nodup : NoDup (map r_id t.(t_records));
  i_hops : Forall (hop_justified run t.(t_records)) t.(t_hops);
  i_steps : Forall (step_justified run t.(t_records)) (pend ++ map fst t.(t_queue));
  i_from : Forall named_from t.(t_queue);
  i_root : run.(as_str) ∈ t.(t_seen_runs);
  i_parents : forall r p, r ∈ t.(t_records) -> r.(parent_run_id) = Some p -> p.(as_str) ∈ t.(t_seen_runs);
  i_runs : forall p : RunId, p.(as_str) ∈ t.(t_seen_runs) ->
    StRun p ∈ pend ++ map fst t.(t_queue) \/ forall r, r ∈ all -> r.(run_id) = p -> r.(r_id) ∈ t.(t_seen_records);
  i_causes : forall r c, r ∈ t.(t_records) -> c ∈ r.(caused_by) ->
    c ∈ t.(t_seen_records) \/ StRecord c ∈ pend ++ map fst t.(t_queue)
    \/ is_full t.(t_status) = false /\ forall r', r' ∈ all -> r'.(r_id) <> c;
  i_loss : is_full t.(t_status) = true -> forall r, r ∈ t.(t_records) -> is_loss r = false;
  i_short : is_full t.(t_status) = false ->
    exists r, r ∈ t.(t_records) /\ (is_loss r = true \/ dangling all r);
  i_count : (t.(t_taken) + length t.(t_queue) = length t.(t_hops))%nat;
  i_bound : (length t.(t_hops) <= 1 + sum_list (map edges_of t.(t_records)))%nat;
}.

Lemma is_full_downgrade why s : is_full (downgrade why s) = false.
Proof. destruct s; cbn; try done. by destruct (bool_decide _). Qed.

Lemma hop_justified_mono l k h : l ⊆ k -> hop_justified run l h -> hop_justified run k h.
Proof. intros Hs. destruct h; cbn; set_solver. Qed.
Lemma step_justified_mono l k s : l ⊆ k -> step_justified run l s -> step_justified run k s.
Proof. intros Hs. destruct s; cbn; set_solver. Qed.

Lemma new_parents_in runs r p : p ∈ new_parents runs r <-> r.(parent_run_id) = Some p /\ p.(as_str) ∉ runs.
Proof.
  unfold new_parents. destruct (parent_run_id r) as [q|]; [|set_solver].
  case_bool_decide as Hq; set_solver.
Qed.

Lemma edges_pushed runs seen r : (length (new_parents runs r) + length (new_causes seen r) <= edges_of r)%nat.
Proof.
  unfold edges_of, new_parents, new_causes. pose proof (length_filter (fun c => c ∉ seen) (caused_by r)).
  destruct (parent_run_id r); [destruct (bool_decide _)|]; cbn; lia.
Qed.

Lemma as_str_inj {sp} (a b : Token sp) : a.(as_str) = b.(as_str) -> a = b.
Proof. destruct a, b. cbn. by intros ->. Qed.

Lemma sum_list_snoc l n : sum_list (l ++ [n]) = (sum_list l + n)%nat.
Proof. induction l as [|m l IH]; cbn; [lia|]. rewrite IH. lia. Qed.

Lemma trav_ok_take pend t r :
  trav_ok pend t -> r ∈ all -> led_to all run r -> r.(r_id) ∉ t.(t_seen_records) ->
  trav_ok pend (take_record (with_seen t ({[r.(r_id)]} ∪ t.(t_seen_records))) r).
Proof.
  intros [] Hin Hled Hnew. rewrite take_record_eq. cbn zeta.
  cbn [with_seen t_records t_seen_records t_seen_runs t_hops t_proofs t_status t_queue t_taken t_stopped].
  set (ps := new_parents _ _). set (cs := new_causes _ _).
  assert (Hsub : t_records t ⊆ t_records t ++ [r]) by set_solver.
  split; cbn [t_records t_seen_records t_seen_runs t_hops t_proofs t_status t_queue t_taken t_stopped].
  - set_solver.
  - set_solver.
  - rewrite map_app. apply NoDup_app. split; [done|]. split; [|apply NoDup_singleton].
    intros i Hi ->%list_elem_of_singleton. apply Hnew, i_seen0. apply list_elem_of_fmap in Hi as (r' & Hi & ?). by exists r'.
  - apply Forall_app. split; [eapply Forall_impl; [exact i_hops0|]; intros h; by apply hop_justified_mono|].
    apply Forall_app. split; apply Forall_fmap, Forall_forall; intros x Hx; exists r.
    + apply new_parents_in in Hx as [Hx _]. set_solver.
    + apply list_elem_of_filter in Hx as [_ Hx]. set_solver.
  - rewrite !map_app, !map_map, app_assoc. apply Forall_app.
    split; [eapply Forall_impl; [exact i_steps0|]; intros h; by apply step_justified_mono|].
    apply Forall_app. split; apply Forall_fmap, Forall_forall; intros x Hx; cbn.
    + right. exists r. apply new_parents_in in Hx as [Hx _]. set_solver.
    + exists r. apply list_elem_of_filter in Hx as [_ Hx]. set_solver.
  - apply Forall_app. split; [done|]. apply Forall_app. by split; apply Forall_fmap, Forall_true.
  - set_solver.
  - intros r' p [Hr'| ->%list_elem_of_singleton]%elem_of_app Hp; [set_solver|].
    destruct (decide (as_str p ∈ t_seen_runs t)) as [|Hp']; [set_solver|].
    apply elem_of_union_l, elem_of_list_to_set, list_elem_of_fmap_2, new_parents_in. done.
  - intros p [Hp|Hp]%elem_of_union.
    + apply elem_of_list_to_set, list_elem_of_fmap in Hp as (q & Hq & Hp). apply as_str_inj in Hq as <-.
      left. rewrite !map_app, !map_map. apply elem_of_app. right. apply elem_of_app. right.
      apply elem_of_app. left. by apply (list_elem_of_fmap_2 (fun p => fst (StRun p, Some (r_id r)))).
    + destruct (i_runs0 p Hp) as [Hp'|Hp']; [left|right].
      * rewrite map_app, app_assoc. apply elem_of_app. by left.
      * intros r' H1 H2. apply elem_of_union_r. by apply Hp'.
  - intros r' c [Hr'| ->%list_elem_of_singleton]%elem_of_app Hc.
    + destruct (i_causes0 r' c Hr' Hc) as [|[Hq|[Hf Hq]]]; [set_solver| |].
      * right; left. rewrite map_app, app_assoc. apply elem_of_app. by left.
      * right; right. split; [|done]. destruct (is_loss r); [apply is_full_downgrade|done].
    + destruct (decide (c ∈ {[r_id r]} ∪ t_seen_records t)) as [|Hc']; [by left|]. right; left.
      rewrite !map_app, !map_map. apply elem_of_app. right. apply elem_of_app. right.
      apply elem_of_app. right. apply (list_elem_of_fmap_2 (fun c => fst (StRecord c, Some (r_id r)))).
      by apply list_elem_of_filter.
  - destruct (is_loss r) eqn:El; [by rewrite is_full_downgrade|].
    intros Hf r' [Hr'| ->%list_elem_of_singleton]%elem_of_app; [by apply i_loss0|done].
  - destruct (is_loss r) eqn:El; [intros _; exists r; set_solver|].
    intros Hf. destruct (i_short0 Hf) as (r' & Hr' & H). exists r'. set_solver.
  - rewrite !length_app, !length_map. lia.
  - rewrite map_app. cbn [map]. rewrite sum_list_snoc, !length_app, !length_map. pose proof (edges_pushed (t_seen_runs t) ({[r_id r]} ∪ t_seen_records t) r).
    cbn. fold ps cs in H. lia.
Qed.

Lemma led_in r : led_to all run r -> r ∈ all.
Proof. by intros []. Qed.

(** A justified step only finds records of the closure. *)
Lemma step_found taken s r :
  (forall r, r ∈ taken -> led_to all run r) -> step_justified run taken s -> r ∈ all -> step_matches s r ->
  led_to all run r.
Proof.
  intros Ht. destruct s as [p|c]; cbn.
  - intros [->|(r' & Hr' & Hp)] Hin Hm; [by apply led_run|]. by eapply led_parent; [apply Ht| | |].
  - intros (r' & Hr' & Hc) Hin Hm. by eapply led_cause; [apply Ht| | |].
Qed.

(** The state in which the limit on records stops the traversal. *)
Definition record_limit (b : Bounds) (t : Trav) : Prop :=
  exists pend t0 s r, trav_ok pend t0 /\ t = with_stopped (with_seen t0 s) RecordLimit /\
    (b.(max_records) <= length t0.(t_records))%nat /\ r ∈ all /\ r.(r_id) ∉ t0.(t_seen_records).

Lemma visit_ok b pend t found :
  trav_ok pend t -> Forall (led_to all run) found -> t.(t_stopped) = Exhausted ->
  let t' := visit b t found in
  t'.(t_taken) = t.(t_taken) /\ t'.(t_proofs) = t.(t_proofs) /\
  (is_full t'.(t_status) = true -> is_full t.(t_status) = true) /\
  ((t'.(t_stopped) = Exhausted /\ trav_ok pend t' /\ t.(t_seen_records) ⊆ t'.(t_seen_records) /\
    forall r, r ∈ found -> r.(r_id) ∈ t'.(t_seen_records))
   \/ record_limit b t').
Proof.
  revert t; induction found as [|r found IH]; intros t Hok Hled Hst; cbn [visit].
  { do 3 (split; [done|]). left. set_solver. }
  apply Forall_cons in Hled as [Hr Hled]. case_bool_decide as Hseen.
  { destruct (IH t Hok Hled Hst) as (? & ? & ? & H). do 3 (split; [done|]).
    destruct H as [(? & ? & Hsub & Hf)|]; [left|by right]. split_and!; try done.
    intros r' [-> |Hr']%elem_of_cons; [by apply Hsub|by apply Hf]. }
  cbn zeta. cbn [with_seen t_records]. destruct (Nat.leb_spec (max_records b) (length (t_records t))) as [Hmax|_].
  { do 3 (split; [done|]). right. exists pend, t, ({[r.(r_id)]} ∪ t.(t_seen_records)), r.
    split_and!; try done. by apply led_in. }
  pose proof (trav_ok_take pend t r Hok (led_in r Hr) Hr Hseen) as Hok'.
  rewrite take_record_eq in *. cbn zeta in *.
  match type of Hok' with trav_ok _ ?u => destruct (IH u Hok' Hled Hst) as (H1 & H2 & H3 & H4) end.
  split; [exact H1|]. split; [exact H2|]. split.
  { intros Hf. specialize (H3 Hf). cbn in H3. destruct (is_loss r); [by rewrite is_full_downgrade in H3|exact H3]. }
  destruct H4 as [(? & ? & Hsub & Hf)|]; [left|by right]. cbn [with_seen t_seen_records] in Hsub.
  split_and!; try done; [set_solver|]. intros r' [->|Hr']%elem_of_cons; [set_solver|by apply Hf].
Qed.

Context (segs : list Segment) (proved : CompletenessProof -> Prop).

(** What the traversal uses of its segments: a hop's query finds the records of
    its key, leaves the status as it was and adds proofs. *)
Definition step_ok (s : Step) : Prop := match s with StRun _ => True | StRecord c => u128_ok c end.

Definition segments_answer : Prop :=
  forall s, step_ok s -> exists ps found,
    (forall status proofs, ask_all segs (hop_query s) status proofs [] = Some (status, proofs ++ ps, found)) /\
    found ≡ₚ filter (step_matches s) all /\ Forall proved ps /\ length ps = length segs.

Hypothesis Hask : segments_answer.
Hypothesis Hrec : Forall record_ok all.

Lemma step_justified_ok taken s :
  (forall r, r ∈ taken -> led_to all run r) -> step_justified run taken s -> step_ok s.
Proof.
  intros Ht. destruct s as [p|c]; cbn; [done|]. intros (r & Hr & Hc).
  pose proof (led_in r (Ht r Hr)) as Hin. rewrite Forall_forall in Hrec. destruct (Hrec r Hin).
  rewrite Forall_forall in ok_caused. by apply ok_caused.
Qed.

Definition proofs_ok (t : Trav) : Prop :=
  Forall proved t.(t_proofs) /\ length t.(t_proofs) = (t.(t_taken) * length segs)%nat.

Lemma hop_ok b t step from queue :
  trav_ok [] t -> proofs_ok t -> t.(t_queue) = (step, from) :: queue -> t.(t_stopped) = Exhausted ->
  exists t', hop segs b t step from queue = Some t' /\ t'.(t_taken) = S t.(t_taken) /\ proofs_ok t' /\
    ((t'.(t_stopped) = Exhausted /\ trav_ok [] t') \/ record_limit b t').
Proof.
  intros Hok [Hp Hpl] Hq Hst. pose proof Hok as []. rewrite Hq in *.
  assert (Hj : step_justified run (t_records t) step) by (by apply Forall_cons in i_steps0 as [? _]).
  destruct (Hask step (step_justified_ok _ _ i_taken0 Hj)) as (ps & found & Ha & Hf & Hps & Hpsl).
  unfold hop. rewrite Ha. cbn [mbind option_bind].
  set (status := match step with StRun _ => _ | StRecord _ => _ end).
  set (t1 := MkTrav _ _ _ _ _ _ _ _ _).
  assert (Hin : forall r, r ∈ found <-> r ∈ all /\ step_matches step r).
  { intros r. rewrite Hf, list_elem_of_filter. tauto. }
  assert (Hstat : status = t_status t \/
    is_full status = false /\ exists c, step = StRecord c /\ forall r, r ∈ all -> r_id r <> c).
  { unfold status. destruct step as [p|c]; [by left|]. destruct from; [|by left].
    destruct (existsb _ found) eqn:Ee; [by left|]. right. split; [apply is_full_downgrade|]. exists c. split; [done|].
    intros r Hr Hc. rewrite existsb_false, Forall_forall in Ee.
    specialize (Ee r (proj2 (Hin r) (conj Hr Hc))). cbn in Ee. lia. }
  assert (Hok1 : trav_ok [step] t1).
  { split; cbn [t1 t_records t_seen_records t_seen_runs t_hops t_proofs t_status t_queue t_taken t_stopped]; try done.
    - by apply Forall_cons in i_from0 as [_ ?].
    - intros r c Hr Hc. destruct (i_causes0 r c Hr Hc) as [|[|[Hf' ?]]]; [by left|by right; left|].
      right; right. split; [|done]. destruct Hstat as [->|[? _]]; done.
    - intros Hf'. apply i_loss0. destruct Hstat as [<-|[? _]]; congruence.
    - intros Hf'. destruct Hstat as [Heq|(_ & c & -> & Hno)]; [apply i_short0; congruence|].
      destruct Hj as (r & Hr & Hc). exists r. split; [done|]. right. apply Exists_exists. exists c. split; [done|].
      by apply Forall_forall.
    - cbn in i_count0. lia. }
  assert (Hled : Forall (led_to all run) found).
  { apply Forall_forall. intros r [Hr Hm]%Hin. by eapply step_found. }
  destruct (visit_ok b [step] t1 found Hok1 Hled Hst) as (H1 & H2 & H3 & H4). cbn zeta in *.
  eexists. split; [reflexivity|]. split; [exact H1|]. split.
  { unfold proofs_ok. rewrite H1, H2. cbn. rewrite Forall_app, length_app. split; [done|lia]. }
  destruct H4 as [(Hst' & Hok' & _ & Hseen)|H4]; [left|by right]. split; [done|].
  set (t2 := visit b t1 found) in *. destruct Hok'. split; try done.
  - by apply Forall_cons in i_steps1 as [_ ?].
  - intros p Hpr. destruct (i_runs1 p Hpr) as [[Hs|Hs]%elem_of_cons|]; [|by left|by right].
    right. intros r Hr Hm. apply Hseen, Hin. by rewrite <- Hs.
  - intros r c Hr Hc. destruct (i_causes1 r c Hr Hc) as [|[[Hs|Hs]%elem_of_cons|]]; [by left| |by right; left|by right; right].
    destruct (decide (Exists (fun r' => r_id r' = c) all)) as [He|He].
    + left. apply Exists_exists in He as (r' & Hr' & <-). apply Hseen, Hin. by rewrite <- Hs.
    + right; right. assert (Hno : forall r', r' ∈ all -> r_id r' <> c).
      { intros r' Hr' Hid. apply He, Exists_exists. by exists r'. }
      split; [|done]. destruct (is_full (t_status t2)) eqn:Ef; [|done]. specialize (H3 eq_refl). cbn in H3.
      unfold status in H3. rewrite <- Hs in H3. apply Forall_cons in i_from0 as [Hfrom _]. rewrite <- Hs in Hfrom.
      destruct from; [|done]. destruct (existsb _ found) eqn:Ee; [|by rewrite is_full_downgrade in H3].
      apply existsb_exists in Ee as (r' & Hr' & Hid). exfalso. apply (Hno r'); [by apply Hin, list_elem_of_In|lia].
Qed.

(** The states in which the traversal returns. *)
Definition finished (b : Bounds) (t : Trav) : Prop :=
  t.(t_stopped) = Exhausted /\ trav_ok [] t /\ t.(t_queue) = []
  \/ (exists t0, t = with_stopped t0 HopLimit /\ trav_ok [] t0 /\ t0.(t_queue) <> [] /\ (b.(max_hops) <= t0.(t_taken))%nat)
  \/ record_limit b t.

Lemma traverse_ok fuel b t :
  trav_ok [] t -> proofs_ok t -> t.(t_stopped) = Exhausted -> (b.(max_hops) - t.(t_taken) < fuel)%nat ->
  exists t', traverse fuel segs b t = Some t' /\ proofs_ok t' /\ finished b t'.
Proof.
  revert t; induction fuel as [|fuel IH]; intros t Hok Hp Hst Hfuel; cbn [traverse].
  { lia. }
  destruct (t_queue t) as [|[step from] queue] eqn:Eq.
  { exists t. split; [done|]. split; [done|]. by left. }
  destruct (Nat.leb_spec (max_hops b) (t_taken t)) as [Hle|Hlt].
  { eexists. split; [reflexivity|]. split; [exact Hp|]. right; left. exists t. rewrite Eq. done. }
  destruct (hop_ok b t step from queue Hok Hp Eq Hst) as (t' & -> & Ht & Hp' & H). cbn [mbind option_bind].
  destruct H as [[Hst' Hok']|H].
  - rewrite bool_decide_false by congruence. apply IH; try done. lia.
  - rewrite bool_decide_true by (destruct H as (? & ? & ? & ? & _ & -> & _); done).
    exists t'. split; [done|]. split; [done|]. by right; right.
Qed.



Hypothesis Hids : forall r r', r ∈ all -> r' ∈ all -> r.(r_id) = r'.(r_id) -> r = r'.

Lemma seen_is_taken t pend r : trav_ok pend t -> r ∈ all -> r.(r_id) ∈ t.(t_seen_records) -> r ∈ t.(t_records).
Proof.
  intros [] Hin (r' & Hr' & Hid)%i_seen0. rewrite <- (Hids r' r); [done| |done|done]. by apply led_in, i_taken0.
Qed.

(** With nothing left to follow, the records taken are the whole closure. *)
Lemma exhausted_is_closed t r : trav_ok [] t -> t.(t_queue) = [] -> led_to all run r -> r ∈ t.(t_records).
Proof.
  intros Hok Hq. induction 1 as [r Hin Hr|r p r' _ IH Hp Hin Hr|r c r' _ IH Hc Hin Hr];
    apply (seen_is_taken t [] _ Hok Hin); destruct Hok as [Ht _ _ _ _ _ Hroot Hpar Hruns Hcause]; rewrite Hq in *.
  - destruct (Hruns run Hroot) as [?%elem_of_nil|H]; [done|]. by apply H.
  - destruct (Hruns p (Hpar _ _ IH Hp)) as [?%elem_of_nil|H]; [done|]. by apply H.
  - destruct (Hcause _ _ IH Hc) as [H|[?%elem_of_nil|[_ H]]]; [by rewrite Hr|done|]. by destruct (H r' Hin).
Qed.

Lemma exhausted_status t :
  trav_ok [] t -> t.(t_queue) = [] ->
  is_full t.(t_status) = true <-> Forall (fun r => is_loss r = false /\ ~ dangling all r) t.(t_records).
Proof.
  intros Hok Hq. rewrite Forall_forall. split.
  - intros Hf r Hr. split; [by apply (i_loss [] t Hok)|]. intros (c & Hc & Hno)%Exists_exists.
    rewrite Forall_forall in Hno. destruct (i_causes [] t Hok r c Hr Hc) as [H|[H|[H _]]]; [|rewrite Hq in H; cbn in H; by apply elem_of_nil in H|congruence].
    apply (i_seen [] t Hok) in H as (r' & Hr' & Hid). by apply (Hno r' (led_in _ (i_taken [] t Hok _ Hr'))).
  - intros H. destruct (is_full (t_status t)) eqn:Ef; [done|].
    destruct (i_short [] t Hok Ef) as (r & Hr & Hs). destruct (H r Hr), Hs; [congruence|done].
Qed.

Lemma taken_sub t pend : trav_ok pend t -> t.(t_records) ⊆+ all.
Proof.
  intros []. apply NoDup_submseteq; [by eapply NoDup_fmap_1|]. intros r Hr. by apply led_in, i_taken0.
Qed.

Lemma sum_edges_sub l : l ⊆+ all -> (sum_list (map edges_of l) <= sum_list (map edges_of all))%nat.
Proof.
  intros (k & Hk)%submseteq_Permutation. rewrite Hk, map_app.
  assert (Happ : forall a c : list nat, sum_list (a ++ c) = (sum_list a + sum_list c)%nat).
  { induction a as [|x a IH]; intros c; [done|]. cbn. rewrite IH. lia. }
  rewrite Happ. lia.
Qed.

(** Enough bounds, and the traversal is exhausted. *)
Lemma enough_bounds b t :
  finished b t -> (length all <= b.(max_records))%nat -> (1 + sum_list (map edges_of all) <= b.(max_hops))%nat ->
  t.(t_stopped) = Exhausted.
Proof.
  intros [[? _]|[(t0 & -> & Hok & Hq & Hm)|(pend & t0 & s & r & Hok & -> & Hm & Hin & Hn)]] Hr Hh; [done| |]; exfalso.
  - pose proof (sum_edges_sub _ (taken_sub t0 [] Hok)). destruct Hok.
    destruct (t_queue t0) as [|x l]; [done|]. cbn in i_count0. lia.
  - assert (Hsub : r :: t_records t0 ⊆+ all).
    { apply NoDup_submseteq; [apply NoDup_cons; split|].
      - intros Hr'. apply Hn, (i_seen pend t0 Hok). by exists r.
      - eapply NoDup_fmap_1, (i_nodup pend t0 Hok).
      - intros r' [->|Hr']%elem_of_cons; [done|]. by apply led_in, (i_taken pend t0 Hok). }
    apply submseteq_length in Hsub. cbn in Hsub. lia.
Qed.

Lemma start_ok :
  trav_ok [] (MkTrav [] ∅ {[run.(as_str)]} [HRoot run] [] PsFull [(StRun run, None)] 0 Exhausted).
Proof.
  split; cbn [t_records t_seen_records t_seen_runs t_hops t_proofs t_status t_queue t_taken t_stopped map fst app];
    try set_solver; try (by repeat constructor).
  intros p Hp%elem_of_singleton%as_str_inj. left. subst. apply list_elem_of_here.
Qed.

Lemma reconstruct_ok b :
  exists t, reconstruct segs run b =
      Some (MkReconstruction (sort_by_time t.(t_records)) t.(t_status) t.(t_hops) t.(t_proofs) t.(t_stopped)) /\
    proofs_ok t /\ finished b t.
Proof.
  unfold reconstruct. edestruct traverse_ok as (t & -> & H); [exact start_ok| | | |by exists t]; cbn.
  - split; [constructor|done].
  - done.
  - lia.
Qed.

(** However it stopped, what was taken belongs to the closure and every hop had
    its reason. *)
Lemma finished_sound b t :
  finished b t ->
  (forall r, r ∈ t.(t_records) -> led_to all run r) /\ NoDup (map r_id t.(t_records)) /\
  Forall (hop_justified run t.(t_records)) t.(t_hops).
Proof.
  by intros [(_ & [] & _)|[(t0 & -> & [] & _)|(pend & t0 & s & r & [] & -> & _)]].
Qed.

End Traversal.
End Closure.

(** ** The order of the answer *)

Lemma by_time_trans a b c : by_time a b = true -> by_time b c = true -> by_time a c = true.
Proof. unfold by_time. rewrite !orb_true_iff, !andb_true_iff, !Z.ltb_lt, !Z.eqb_eq, !Z.leb_le. lia. Qed.

Lemma by_time_total a b : by_time a b = false -> by_time b a = true.
Proof. unfold by_time. rewrite orb_false_iff, andb_false_iff, orb_true_iff, andb_true_iff. lia. Qed.

Lemma insert_by_time_perm r l : insert_by_time r l ≡ₚ r :: l.
Proof. induction l as [|x l IH]; cbn; [done|]. destruct (by_time r x); [done|]. rewrite IH. constructor. Qed.

Lemma sort_by_time_perm l : sort_by_time l ≡ₚ l.
Proof. induction l as [|r l IH]; cbn; [done|]. by rewrite insert_by_time_perm, IH. Qed.

Lemma insert_by_time_sorted r l :
  StronglySorted (fun a b => by_time a b = true) l -> StronglySorted (fun a b => by_time a b = true) (insert_by_time r l).
Proof.
  induction 1 as [|x l Hl IH Hx]; cbn; [by repeat constructor|]. destruct (by_time r x) eqn:E.
  - constructor; [by constructor|]. constructor; [done|]. eapply Forall_impl; [exact Hx|].
    intros y. by apply by_time_trans.
  - constructor; [done|]. rewrite insert_by_time_perm. constructor; [by apply by_time_total|done].
Qed.

Lemma sort_by_time_sorted l : StronglySorted (fun a b => by_time a b = true) (sort_by_time l).
Proof. induction l as [|r l IH]; [constructor|]. by apply insert_by_time_sorted. Qed.

(** ** Sealed segments answer the traversal *)

Section SealedSegments.
Context `{DL : DigestLaws}.

Definition all_records (sds : list (ShardIx * Sealed)) : list Record_ :=
  concat (map (fun s => map fst s.2.(sd_rows)) sds).

Definition segment_ok (s : ShardIx * Sealed) : Prop := sealed_ok s.1 s.2 /\ NoDup (map snd s.2.(sd_rows)).

#[export] Instance segment_ok_dec s : Decision (segment_ok s).
Proof. unfold segment_ok. apply _. Defined.

(** The proof is one of a segment's, and verifies against its manifest. *)
Definition proved_by (sds : list (ShardIx * Sealed)) (p : CompletenessProof) : Prop :=
  exists s d key rt, s ∈ sds /\ manifest_index_root (sd_manifest s.2) d = Some rt /\
    verify p d key key rt (length s.2.(sd_rows)) = Ok tt.

Definition the_segments (sds : list (ShardIx * Sealed)) : list Segment := map (fun s => s.2.(sd_seal)) sds.

Definition hop_dimension (s : Step) : Dimension := match s with StRun _ => DRunId | StRecord _ => DRecordId end.
Definition hop_key (s : Step) : list byte := match s with StRun r => r.(as_str) | StRecord id => id_key id end.

Lemma hop_key_matches s r :
  step_ok s -> record_ok r -> key_of (hop_dimension s) r = hop_key s <-> step_matches s r.
Proof.
  intros Hs Hr. destruct s as [p|c]; cbn [hop_dimension hop_key key_of step_matches step_ok] in *.
  - split; [apply as_str_inj|by intros ->].
  - split; [|by intros ->]. unfold id_key. intros H. apply to_be_bytes_inj in H; [done|apply Hr|exact Hs].
Qed.

Lemma sealed_segment_answers s st :
  segment_ok s -> step_ok st ->
  exists a p, query_segment s.2.(sd_seal) (hop_query st) = Some a /\ a.(a_proof) = PsFull /\
    a.(a_segment_proofs) = [p] /\ a.(a_records) ≡ₚ filter (step_matches st) (map fst s.2.(sd_rows)) /\
    exists d key rt, manifest_index_root (sd_manifest s.2) d = Some rt /\
      verify p d key key rt (length s.2.(sd_rows)) = Ok tt.
Proof.
  intros [[_ _ Hrows _ Hs] Hnd] Hst.
  assert (Hq : hop_query st = query_point (hop_dimension st) (hop_key st)) by (by destruct st). rewrite Hq.
  destruct (query_segment_answers _ _ _ _ _ (query_point (hop_dimension st) (hop_key st)) Hs Hnd Hrows I)
    as (a & p & Ha & Hp & Hr & Hstat & Hrg & _).
  exists a, p. split; [exact Ha|]. split; [exact Hstat|]. split; [exact Hp|]. split.
  - rewrite Hr. apply reflexive_eq, filter_ext_in. intros r Hin. unfold asked_for. cbn.
    rewrite in_range_point, !andb_true_r, bool_decide_eq_true. apply hop_key_matches; [done|].
    apply list_elem_of_fmap in Hin as ([r' h] & -> & Hin). rewrite Forall_forall in Hrows. apply (Hrows _ Hin).
  - destruct (seal_inv _ _ _ _ _ Hs) as (_ & _ & _ & Hroot & _).
    exists (hop_dimension st), (hop_key st), (index_root (build (hop_dimension st) s.2.(sd_rows))).
    split; [apply Hroot|]. cbn [query_point query_range q_dimension q_lo effective_hi q_as_of q_hi] in Hrg.
    destruct (range_verifies (build (hop_dimension st) s.2.(sd_rows)) (hop_key st) (hop_key st) (build_ok _ _)
                (seal_unique _ _ _ _ _ _ Hs)) as (p' & Hp' & Hv & _).
    rewrite Hrg in Hp'. injection Hp' as <-. by rewrite build_len in Hv.
Qed.

Lemma sealed_segments_answer sds :
  Forall segment_ok sds -> segments_answer (all_records sds) (the_segments sds) (proved_by sds).
Proof.
  intros Hall st Hst.
  cut (forall found0, exists ps found,
    (forall status proofs, ask_all (the_segments sds) (hop_query st) status proofs found0 =
       Some (status, proofs ++ ps, found0 ++ found)) /\
    found ≡ₚ filter (step_matches st) (all_records sds) /\ Forall (proved_by sds) ps /\
    length ps = length (the_segments sds)).
  { intros H. apply (H []). }
  induction Hall as [|s sds Hs Hall IH]; intros found0.
  { exists [], []. split; [|done]. intros status proofs. cbn. by rewrite !app_nil_r. }
  destruct (sealed_segment_answers s st Hs Hst) as (a & p & Ha & Hf & Hp & Hr & Hv).
  destruct (IH (found0 ++ a.(a_records))) as (ps & found & Hask & Hfound & Hps & Hlen).
  exists (p :: ps), (a.(a_records) ++ found). split; [|split; [|split]].
  - intros status proofs. cbn [the_segments map ask_all]. rewrite Ha. cbn [mbind option_bind].
    rewrite Hf, Hp. cbn [merge_status]. fold (the_segments sds). by rewrite Hask, <- !app_assoc.
  - change (all_records (s :: sds)) with (map fst s.2.(sd_rows) ++ all_records sds).
    by rewrite filter_app, Hr, Hfound.
  - constructor; [|eapply Forall_impl; [exact Hps|]].
    + destruct Hv as (d & key & rt & H1 & H2). exists s, d, key, rt. split; [left|done].
    + intros p' (s' & d & key & rt & H1 & H2). exists s', d, key, rt. split; [by right|done].
  - cbn. by rewrite Hlen.
Qed.

Lemma all_records_ok sds : Forall segment_ok sds -> Forall record_ok (all_records sds).
Proof.
  intros Hall. unfold all_records. apply Forall_concat, Forall_fmap. eapply Forall_impl; [exact Hall|].
  intros s [[_ _ Hrows _ _] _]. apply Forall_fmap. eapply Forall_impl; [exact Hrows|]. by intros rl [H _].
Qed.

End SealedSegments.

(** ** The properties *)

(** C13 (the reconstruction is the closure). Over any sealed segments in which an
    id names one record, and with any bounds, reconstructing a run returns without
    a panic. Every record returned led to the run, none twice, in the order of
    time; every hop is an edge of a returned record; every segment answered every
    hop, each with a completeness proof that verifies against its manifest. When
    the traversal was not stopped by a bound, every record that led to the run is
    returned; and the answer calls itself complete exactly when, besides, no
    returned record tells of a loss and no [caused_by] edge leads nowhere. *)
Theorem reconstruction_is_the_closure `{DL : DigestLaws} (sds : list (ShardIx * Sealed)) (run : RunId) (b : Bounds) :
  Forall segment_ok sds ->
  (forall r r', r ∈ all_records sds -> r' ∈ all_records sds -> r.(r_id) = r'.(r_id) -> r = r') ->
  exists R, reconstruct (the_segments sds) run b = Some R /\
    (forall r, r ∈ R.(rc_records) -> led_to (all_records sds) run r) /\
    NoDup (map r_id R.(rc_records)) /\
    StronglySorted (fun r r' => by_time r r' = true) R.(rc_records) /\
    Forall (hop_justified run R.(rc_records)) R.(rc_hops) /\
    Forall (proved_by sds) R.(rc_segment_proofs) /\
    (R.(rc_stopped) = Exhausted -> forall r, led_to (all_records sds) run r -> r ∈ R.(rc_records)) /\
    (is_complete R = true <-> R.(rc_stopped) = Exhausted /\
       Forall (fun r => is_loss r = false /\ ~ dangling (all_records sds) r) R.(rc_records)).
Proof.
  intros Hsd Hids.
  destruct (reconstruct_ok (all_records sds) run (the_segments sds) (proved_by sds)
              (sealed_segments_answer sds Hsd) (all_records_ok sds Hsd) Hids b) as (t & -> & [Hp _] & Hfin).
  destruct (finished_sound _ _ _ _ Hfin) as (Ht & Hnd & Hh). pose proof (sort_by_time_perm (t_records t)) as Hperm.
  eexists. split; [reflexivity|]. cbn [rc_records rc_hops rc_segment_proofs rc_stopped].
  split; [intros r; rewrite Hperm; apply Ht|]. split; [by rewrite Hperm|]. split; [apply sort_by_time_sorted|].
  split; [eapply Forall_impl; [exact Hh|]; intros h; apply hop_justified_mono; by rewrite Hperm|]. split; [exact Hp|].
  assert (Hex : t_stopped t = Exhausted -> trav_ok (all_records sds) run [] t /\ t_queue t = []).
  { destruct Hfin as [(_ & ? & ?)|[(t0 & -> & _)|(? & ? & ? & ? & _ & -> & _)]]; [done|by intros [=]|by intros [=]]. }
  split.
  - intros Hst r Hr. destruct (Hex Hst) as [Hok Hq]. rewrite Hperm.
    by eapply exhausted_is_closed.
  - unfold is_complete. cbn [rc_proof rc_stopped]. rewrite andb_true_iff, bool_decide_eq_true, Hperm.
    split; intros [H1 H2].
    + split; [done|]. destruct (Hex H2) as [Hok Hq]. by apply (exhausted_status _ _ t Hok Hq).
    + split; [|done]. destruct (Hex H1) as [Hok Hq]. by apply (exhausted_status _ _ t Hok Hq).
Qed.

(** C14 (a reconstruction finishes). Given room for as many records as the segments
    hold and for one hop per edge of theirs plus the first, the traversal is never
    stopped by a bound: it returns the whole closure. *)
Theorem reconstruction_finishes `{DL : DigestLaws} (sds : list (ShardIx * Sealed)) (run : RunId) (b : Bounds) :
  Forall segment_ok sds ->
  (forall r r', r ∈ all_records sds -> r' ∈ all_records sds -> r.(r_id) = r'.(r_id) -> r = r') ->
  (length (all_records sds) <= b.(max_records))%nat ->
  (1 + sum_list (map edges_of (all_records sds)) <= b.(max_hops))%nat ->
  exists R, reconstruct (the_segments sds) run b = Some R /\ R.(rc_stopped) = Exhausted /\
    forall r, r ∈ R.(rc_records) <-> led_to (all_records sds) run r.
Proof.
  intros Hsd Hids Hr Hh.
  destruct (reconstruct_ok (all_records sds) run (the_segments sds) (proved_by sds)
              (sealed_segments_answer sds Hsd) (all_records_ok sds Hsd) Hids b) as (t & -> & _ & Hfin).
  pose proof (enough_bounds _ _ b t Hfin Hr Hh) as Hst. eexists. split; [reflexivity|]. split; [exact Hst|].
  intros r. cbn [rc_records]. rewrite sort_by_time_perm. split; [apply (finished_sound _ _ _ _ Hfin)|].
  destruct Hfin as [(_ & Hok & Hq)|[(t0 & -> & _)|(? & ? & ? & ? & _ & -> & _)]]; try done.
  by apply (exhausted_is_closed _ _ Hids).
Qed.

Module Sample.
#[local] Existing Instance Register_Digest | 0.
#[local] Existing Instance Register_DigestLaws | 0.

(** A record of a run, with the edges given. *)
Definition linked (id at_ n : Z) (run : string) (parent : option string) (causes : list RecordId) : Record_ :=
  let r := sample_record id at_ n "agent://acme/a" run ToolCall in
  MkRecord r.(r_id) r.(tenant) r.(shard) r.(agent_id) r.(run_id) ((fun p => MkToken (lit p)) <$> parent)
    r.(on_behalf_of) r.(occurred_at) r.(decided_at) r.(recorded_at) r.(knowledge_as_of) r.(clock_skew_nanos)
    r.(event_type) r.(severity) r.(basis) causes r.(outcome) r.(payload) r.(seq) r.(prev_hash) r.(segment_id)
    r.(algorithms) r.(mapper).

(** A run of two records, caused by a record of another segment, whose run is
    the child of a third. *)
Definition linked_segments : list (ShardIx * Sealed) :=
  [(0, Segment.Sample.seal_rows 1 0
         [(linked 1 900 1 "run-1" None [3], repeat x01 48); (linked 2 800 2 "run-1" None [1; 3], repeat x02 48)]);
   (1, Segment.Sample.seal_rows 2 1
         [(linked 3 700 1 "run-2" (Some "run-3"%string) [], repeat x03 48);
          (linked 4 600 2 "run-3" None [], repeat x04 48); (linked 5 500 3 "run-4" None [], repeat x05 48)])].

(** The same, the parent run missing. *)
Definition orphan_segments : list (ShardIx * Sealed) :=
  [(0, Segment.Sample.seal_rows 1 0 [(linked 3 700 1 "run-2" (Some "run-3"%string) [], repeat x03 48)])].

Definition run (s : string) : RunId := MkToken (lit s).

Lemma ids_identify (all : list Record_) :
  Forall (fun r => Forall (fun r' => r.(r_id) = r'.(r_id) -> r = r') all) all ->
  forall r r', r ∈ all -> r' ∈ all -> r.(r_id) = r'.(r_id) -> r = r'.
Proof.
  intros H r r' Hr Hr'. rewrite Forall_forall in H. pose proof (H r Hr) as H'. rewrite Forall_forall in H'. by apply H'.
Qed.

Lemma linked_segments_ok : Forall segment_ok linked_segments.
Proof. by_evaluation. Qed.
Lemma linked_ids : forall r r', r ∈ all_records linked_segments -> r' ∈ all_records linked_segments ->
  r.(r_id) = r'.(r_id) -> r = r'.
Proof. apply ids_identify. by_evaluation. Qed.

(** A parent run no segment holds goes unnoticed: the reconstruction calls itself
    complete and fully proved, where a [caused_by] edge to nowhere is reported. *)
Lemma absent_parent_run_goes_unnoticed :
  exists R, reconstruct (the_segments orphan_segments) (run "run-2") Bounds_default = Some R /\
    is_complete R = true /\ map r_id R.(rc_records) = [3] /\ R.(rc_hops) = [HRoot (run "run-2"); HParentRun (run "run-3") 3].
Proof. eexists. split; [vm_compute; reflexivity|]. split; [|split]; vm_compute; reflexivity. Qed.

Lemma reconstruction_is_the_closure_witness :
  exists R, reconstruct (the_segments linked_segments) (run "run-1") (MkBounds 3 10) = Some R /\
    NoDup (map r_id R.(rc_records)) /\ StronglySorted (fun r r' => by_time r r' = true) R.(rc_records).
Proof.
  destruct (reconstruction_is_the_closure linked_segments (run "run-1") (MkBounds 3 10) linked_segments_ok linked_ids)
    as (R & HR & _ & Hnd & Hs & _).
  exists R. split; [exact HR|]. split; [exact Hnd|exact Hs].
Defined.

Lemma reconstruction_finishes_witness :
  exists R, reconstruct (the_segments linked_segments) (run "run-1") (MkBounds 10 5) = Some R /\
    R.(rc_stopped) = Exhausted.
Proof.
  destruct (reconstruction_finishes linked_segments (run "run-1") (MkBounds 10 5) linked_segments_ok linked_ids)
    as (R & HR & Hst & _).
  - vm_compute. lia.
  - vm_compute. lia.
  - exists R. split; [exact HR|exact Hst].
Defined.

(** The closure of the sample, in the order of time. *)
Example linked_reconstruction :
  (fun R => (map r_id R.(rc_records), R.(rc_stopped), is_complete R))
    <$> reconstruct (the_segments linked_segments) (run "run-1") (MkBounds 10 5) = Some ([4; 3; 2; 1], Exhausted, true).
Proof. vm_compute. reflexivity. Qed.

End Sample.
