(* ===== verification/ObjectStore.v ===== *)
(** * The object store contract and its fakes ([trailryx-contracts/src/contracts.rs],
      [fakes.rs], [trailryx-publish/src/faults.rs])

    The [ObjectStore] trait as a class of operations on a state ([list], which no
    client here calls, left out), the laws its
    clients rely on, and the stores of the source that meet them: in memory, with
    versions, and behind injected faults. *)

From S2P Require Import Prelude Bytes Ids Completeness SimIo.

(** ** The trait *)

Inductive AdapterError := AdUnavailable (s : string) | AdRejected (s : string) | AdUnsupported (s : string).
Inductive PutOutcome := PoWritten | PoAlreadyExists.

#[export] Instance AdapterError_eq_dec : EqDecision AdapterError.
Proof. solve_decision. Defined.
#[export] Instance PutOutcome_eq_dec : EqDecision PutOutcome.
Proof. solve_decision. Defined.

Abbreviation VersionId := (list byte) (only parsing).

Class ObjectStore (S : Type) := {
  put_if_absent : str -> list byte -> S -> result AdapterError (PutOutcome * option VersionId) * S;
  os_get : str -> S -> result AdapterError (option (list byte)) * S;
  os_get_version : str -> VersionId -> S -> result AdapterError (option (list byte)) * S;
}.

Abbreviation Objects := (gmap (list byte) (list byte)) (only parsing).

(** What a publisher may rely on. [objects s] is what a plain read sees. Between
    two calls others may write, in the ways [os_peers] allows: they may add
    objects and never replace one. A failed write may have happened. *)
Class ObjectStoreLaws (S : Type) `{ObjectStore S} := {
  objects : S -> Objects;
  os_ok : S -> Prop;
  os_peers : Objects -> Objects -> Prop;

  os_peers_refl : forall m, os_peers m m;
  os_peers_mono : forall m m', os_peers m m' -> m ⊆ m';
  os_put_law : forall key bytes s r s', put_if_absent key bytes s = (r, s') -> os_ok s ->
    os_ok s' /\ exists m, os_peers (objects s) m /\
    match r with
    | Ok (PoWritten, _) => m !! key = None /\ objects s' = <[key := bytes]> m
    | Ok (PoAlreadyExists, _) => is_Some (m !! key) /\ objects s' = m
    | Err _ => objects s' = m \/ m !! key = None /\ objects s' = <[key := bytes]> m
    end;
  os_get_law : forall key s r s', os_get key s = (r, s') -> os_ok s ->
    os_ok s' /\ os_peers (objects s) (objects s') /\
    match r with Ok o => o = objects s' !! key | Err _ => True end;
}.

(** A store that fails at most [K] calls in a row, and can honour the contract:
    [os_failures] bounds the failures before the next answer. *)
Definition answers_or_tires {S A : Type} (failures : S -> nat) (r : result AdapterError A) (s s' : S) : Prop :=
  match r with
  | Ok _ => True
  | Err (AdUnsupported _) => False
  | Err _ => (failures s' < failures s)%nat
  end.

Class PatientStore (S : Type) `{ObjectStore S} (K : nat) := {
  os_patient : S -> Prop;
  os_failures : S -> nat;
  os_failures_bound : forall s, os_patient s -> (os_failures s <= K)%nat;
  os_put_patience : forall key bytes s r s', put_if_absent key bytes s = (r, s') -> os_patient s ->
    os_patient s' /\ answers_or_tires os_failures r s s';
  os_get_patience : forall key s r s', os_get key s = (r, s') -> os_patient s ->
    os_patient s' /\ answers_or_tires os_failures r s s';
}.

(** A write changes what is stored under its own key only. *)
Lemma os_put_keeps {S : Type} `{OL : ObjectStoreLaws S} key bytes s r s' :
  put_if_absent key bytes s = (r, s') -> os_ok s -> os_ok s' /\ objects s ⊆ objects s'.
Proof.
  intros E Hok. apply os_put_law in E as (Hok' & m & Hm%os_peers_mono & E); [|done]. split; [done|].
  destruct r as [[[] v]|e].
  - destruct E as [Hn ->]. etrans; [exact Hm|]. by apply insert_subseteq.
  - by destruct E as [_ ->].
  - destruct E as [->|[Hn ->]]; [done|]. etrans; [exact Hm|]. by apply insert_subseteq.
Qed.

(** ** In memory *)

Abbreviation MemoryObjectStore := (gmap (list byte) (list byte)) (only parsing).

#[export] Instance Memory_ObjectStore : ObjectStore MemoryObjectStore := {
  put_if_absent key bytes s :=
    match s !! key with
    | Some _ => (Ok (PoAlreadyExists, None), s)
    | None => (Ok (PoWritten, None), <[key := bytes]> s)
    end;
  os_get key s := (Ok (s !! key), s);
  os_get_version key version s :=
    (Err (AdUnsupported "this store does not version objects, so a version cannot be read back"), s);
}.

#[export] Program Instance Memory_laws : ObjectStoreLaws MemoryObjectStore := {
  objects s := s;
  os_ok _ := True;
  os_peers m m' := m = m';
}.
Next Obligation. done. Qed.
Next Obligation. by intros m m' ->. Qed.
Next Obligation.
  cbn. intros key bytes s r s'. destruct (s !! key) as [b|] eqn:E; intros [= <- <-] _; (split; [done|]); exists s.
  - split; [done|]. by rewrite E.
  - split; [done|]. by split.
Qed.
Next Obligation. cbn. by intros key s r s' [= <- <-] _. Qed.

#[export] Program Instance Memory_patient : PatientStore MemoryObjectStore 0 := {
  os_patient _ := True;
  os_failures _ := O;
}.
Next Obligation. done. Qed.
Next Obligation. cbn. intros key bytes s r s'. by destruct (s !! key); intros [= <- <-]. Qed.
Next Obligation. cbn. by intros key s r s' [= <- <-]. Qed.

(** ** The store that overwrites *)

(** [OverwritingObjectStore::put_if_absent], the broken one: it has no laws. *)
Definition overwriting_put (key bytes : list byte) (s : Objects) :
    result AdapterError (PutOutcome * option VersionId) * Objects :=
  (Ok (PoWritten, None), <[key := bytes]> s).

(** ** With versions *)

Record VersioningObjectStore := MkVersioning {
  vs_versions : gmap (list byte) (list (VersionId * list byte));
  vs_deleted : gset (list byte);
  vs_next : Z;
}.

(** [next] is a [u64]. *)
Definition vs_overwrite (key bytes : list byte) (s : VersioningObjectStore) : VersionId * VersioningObjectStore :=
  let next := as_u64 (s.(vs_next) + 1) in
  let version := lit "v" ++ decimal next in
  (version,
   MkVersioning (<[key := default [] (s.(vs_versions) !! key) ++ [(version, bytes)]]> s.(vs_versions))
     (s.(vs_deleted) ∖ {[key]}) next).

Arguments vs_overwrite : simpl never.

Definition vs_delete_marker (key : list byte) (s : VersioningObjectStore) : VersioningObjectStore :=
  MkVersioning s.(vs_versions) ({[key]} ∪ s.(vs_deleted)) s.(vs_next).

Definition vs_version_count (key : list byte) (s : VersioningObjectStore) : nat :=
  length (default [] (s.(vs_versions) !! key)).

Definition vs_find (key : list byte) (version : VersionId) (s : VersioningObjectStore) : option (list byte) :=
  vs ← s.(vs_versions) !! key;
  snd <$> head (filter (fun p => p.1 = version) vs).

#[export] Instance Versioning_ObjectStore : ObjectStore VersioningObjectStore := {
  put_if_absent key bytes s :=
    match s.(vs_versions) !! key with
    | Some _ => (Ok (PoAlreadyExists, None), s)
    | None => let '(version, s) := vs_overwrite key bytes s in (Ok (PoWritten, Some version), s)
    end;
  os_get key s :=
    (Ok (if bool_decide (key ∈ s.(vs_deleted)) then None
         else vs ← s.(vs_versions) !! key; snd <$> last vs), s);
  os_get_version key version s := (Ok (vs_find key version s), s);
}.

(** With no delete marker a plain read sees the newest version. *)
Definition vs_objects (s : VersioningObjectStore) : Objects := omap (fun vs => snd <$> last vs) s.(vs_versions).

Definition vs_ok (s : VersioningObjectStore) : Prop :=
  s.(vs_deleted) = ∅ /\ map_Forall (fun _ vs => vs <> []) s.(vs_versions).

Lemma vs_overwrite_new key bytes s v s' :
  vs_overwrite key bytes s = (v, s') -> s.(vs_versions) !! key = None -> vs_ok s ->
  vs_ok s' /\ vs_objects s' = <[key := bytes]> (vs_objects s).
Proof.
  unfold vs_overwrite. generalize (as_u64 (vs_next s + 1)). intros next.
  generalize (lit "v" ++ decimal next). intros ver [= <- <-] Hk [Hd Hv]. rewrite Hk. split; [split|].
  - cbn [vs_deleted]. rewrite Hd. set_solver.
  - cbn [vs_versions]. by apply map_Forall_insert_2.
  - unfold vs_objects. cbn [vs_versions default app]. by apply omap_insert_Some.
Qed.

#[export] Program Instance Versioning_laws : ObjectStoreLaws VersioningObjectStore := {
  objects := vs_objects;
  os_ok := vs_ok;
  os_peers m m' := m = m';
}.
Next Obligation. done. Qed.
Next Obligation. by intros m m' ->. Qed.
Next Obligation.
  cbn. intros key bytes s r s'. intros E Hs. assert (Hs' := Hs). destruct Hs' as [Hd Hv].
  destruct (vs_versions s !! key) as [vs|] eqn:Ek.
  - injection E as <- <-. split; [done|]. exists (vs_objects s). split; [done|]. split; [|done].
    unfold vs_objects. rewrite lookup_omap, Ek. cbn. specialize (Hv _ _ Ek).
    destruct (last vs) eqn:El; [by eexists|]. by apply last_None in El.
  - destruct (vs_overwrite key bytes s) as [v s1] eqn:Ev. assert (E1 := f_equal snd E). assert (E2 := f_equal fst E). cbn [fst snd] in E1, E2. subst r s'.
    destruct (vs_overwrite_new _ _ _ _ _ Ev Ek Hs) as [Hok Ho]. split; [done|]. exists (vs_objects s).
    split; [done|]. split; [|done]. unfold vs_objects. by rewrite lookup_omap, Ek.
Qed.
Next Obligation.
  cbn. intros key s r s' [= <- <-] [Hd Hv]. split; [done|]. split; [done|].
  rewrite Hd, bool_decide_false by set_solver. unfold vs_objects. by rewrite lookup_omap.
Qed.

(** ** Behind faults *)

Record StoreFaults := MkStoreFaults { unavailable_ppm : Z; lost_ack_ppm : Z; read_error_ppm : Z }.

Definition StoreFaults_NONE : StoreFaults := MkStoreFaults 0 0 0.
Definition StoreFaults_HOSTILE : StoreFaults := MkStoreFaults 150000 120000 80000.

Record FaultyStore (S : Type) := MkFaulty {
  fs_inner : S; fs_rng : Z; fs_faults : StoreFaults; fs_committed : list str }.
Arguments MkFaulty {S}.
Arguments fs_inner {S}.
Arguments fs_rng {S}.
Arguments fs_faults {S}.
Arguments fs_committed {S}.

Definition FaultyStore_new {S} (inner : S) (seed : Z) (faults : StoreFaults) : FaultyStore S :=
  MkFaulty inner seed faults [].

Section Faulty.
Context {S : Type} `{OS : ObjectStore S}.

Definition faulty_read {A} (why : string) (call : S -> result AdapterError A * S) (s : FaultyStore S) :
    result AdapterError A * FaultyStore S :=
  let '(fail, rng) := chance_ppm s.(fs_faults).(read_error_ppm) s.(fs_rng) in
  if fail then (Err (AdUnavailable why), MkFaulty s.(fs_inner) rng s.(fs_faults) s.(fs_committed))
  else let '(r, inner) := call s.(fs_inner) in (r, MkFaulty inner rng s.(fs_faults) s.(fs_committed)).

#[export] Instance Faulty_ObjectStore : ObjectStore (FaultyStore S) := {
  put_if_absent key bytes s :=
    let '(down, rng) := chance_ppm s.(fs_faults).(unavailable_ppm) s.(fs_rng) in
    if down then
      (Err (AdUnavailable "the store was unreachable"), MkFaulty s.(fs_inner) rng s.(fs_faults) s.(fs_committed))
    else
      let '(lost, rng) := chance_ppm s.(fs_faults).(lost_ack_ppm) rng in
      match put_if_absent key bytes s.(fs_inner) with
      | (Err e, inner) => (Err e, MkFaulty inner rng s.(fs_faults) s.(fs_committed))
      | (Ok outcome, inner) =>
          let committed := match outcome.1 with
                           | PoWritten => s.(fs_committed) ++ [key]
                           | PoAlreadyExists => s.(fs_committed)
                           end in
          let s := MkFaulty inner rng s.(fs_faults) committed in
          if lost then (Err (AdUnavailable "the store answered after the connection was gone"), s)
          else (Ok outcome, s)
      end;
  os_get key := faulty_read "the read failed" (os_get key);
  os_get_version key version := faulty_read "the read failed" (os_get_version key version);
}.

Context `{OL : !ObjectStoreLaws S}.

#[export] Program Instance Faulty_laws : ObjectStoreLaws (FaultyStore S) := {
  objects s := objects s.(fs_inner);
  os_ok s := os_ok s.(fs_inner);
  os_peers := os_peers;
}.
Next Obligation. apply os_peers_refl. Qed.
Next Obligation. apply os_peers_mono. Qed.
Next Obligation.
  cbn. intros key bytes s r s' E Hok. destruct (chance_ppm _ (fs_rng s)) as [down rng].
  assert (Hrefl := os_peers_refl (objects (fs_inner s))).
  destruct down; [injection E as <- <-; split; [done|]; exists (objects (fs_inner s)); split; [done|by left]|].
  destruct (chance_ppm _ rng) as [lost rng']. destruct (put_if_absent key bytes (fs_inner s)) as [[o|e] inner] eqn:Ep;
    apply os_put_law in Ep as (Hok' & m & Hm & Hp); try done.
  - destruct lost; injection E as <- <-; (split; [done|]); exists m; (split; [done|]); [|done].
    destruct o as [[] v]; cbn in *; [by right|left; apply Hp].
  - injection E as <- <-. split; [done|]. by exists m.
Qed.
Next Obligation.
  cbn. intros key s r s' E Hok. unfold faulty_read in E. destruct (chance_ppm _ _) as [fail rng].
  destruct fail; [injection E as <- <-; split; [done|]; split; [apply os_peers_refl|done]|].
  destruct (os_get key (fs_inner s)) as [r' inner] eqn:Eg. injection E as <- <-.
  by apply os_get_law in Eg.
Qed.

End Faulty.

(** ** A scripted store, to try clients against *)

(** In memory, with a script of what happens before each call: a peer writes
    first, the call fails, or the call is done and its answer is lost. *)
Inductive Scripted := ScAnswer | ScPeer (key bytes : list byte) | ScDown | ScLost.

Record ScriptedStore := MkScripted { sc_mem : Objects; sc_script : list Scripted }.

Definition sc_call {A} (call : Objects -> result AdapterError A * Objects) (s : ScriptedStore) :
    result AdapterError A * ScriptedStore :=
  let down := Err (AdUnavailable "down") in
  match s.(sc_script) with
  | [] => let '(r, m) := call s.(sc_mem) in (r, MkScripted m [])
  | ScAnswer :: l => let '(r, m) := call s.(sc_mem) in (r, MkScripted m l)
  | ScPeer key bytes :: l =>
      let '(r, m) := call (snd (put_if_absent key bytes s.(sc_mem))) in (r, MkScripted m l)
  | ScDown :: l => (down, MkScripted s.(sc_mem) l)
  | ScLost :: l => let '(r, m) := call s.(sc_mem) in (down, MkScripted m l)
  end.

#[export] Instance Scripted_ObjectStore : ObjectStore ScriptedStore := {
  put_if_absent key bytes := sc_call (put_if_absent key bytes);
  os_get key := sc_call (os_get key);
  os_get_version key version := sc_call (os_get_version key version);
}.

(** The failures before the next answer. *)
Fixpoint sc_failures (l : list Scripted) : nat :=
  match l with ScDown :: l' | ScLost :: l' => S (sc_failures l') | _ => O end.

Fixpoint sc_patient (K : nat) (l : list Scripted) : Prop :=
  match l with [] => True | _ :: l' => (sc_failures l <= K)%nat /\ sc_patient K l' end.

#[export] Instance sc_patient_dec (K : nat) l : Decision (sc_patient K l).
Proof. induction l; cbn; apply _. Defined.

Lemma memory_put_spec key bytes m r m' :
  put_if_absent key bytes m = (r, m') ->
  m ⊆ m' /\ (r = Ok (PoWritten, None) /\ m !! key = None /\ m' = <[key := bytes]> m \/
             r = Ok (PoAlreadyExists, None) /\ is_Some (m !! key) /\ m' = m).
Proof.
  cbn. destruct (m !! key) as [b|] eqn:E; intros [= <- <-]; split; try done.
  - by right.
  - by apply insert_subseteq.
  - by left.
Qed.

#[export] Program Instance Scripted_laws : ObjectStoreLaws ScriptedStore := {
  objects := sc_mem;
  os_ok _ := True;
  os_peers m m' := m ⊆ m';
}.
Next Obligation. done. Qed.
Next Obligation. done. Qed.
Next Obligation.
  intros key bytes s r s' E _. split; [done|]. cbn [put_if_absent Scripted_ObjectStore] in E. unfold sc_call in E.
  assert (Hput : forall m m1, m ⊆ m1 -> forall r1 m2, put_if_absent key bytes m1 = (r1, m2) ->
    exists m0, m ⊆ m0 /\ match r1 with
      | Ok (PoWritten, _) => m0 !! key = None /\ m2 = <[key := bytes]> m0
      | Ok (PoAlreadyExists, _) => is_Some (m0 !! key) /\ m2 = m0
      | Err _ => m2 = m0 \/ m0 !! key = None /\ m2 = <[key := bytes]> m0
      end).
  { intros m m1 Hm r1 m2 Ep. exists m1. split; [done|].
    apply memory_put_spec in Ep as [_ [(-> & ? & ->)|(-> & ? & ->)]]; by split. }
  destruct (sc_script s) as [|[|k b| |] l].
  - destruct (put_if_absent key bytes (sc_mem s)) as [r1 m] eqn:Ep. injection E as <- <-. by eapply Hput.
  - destruct (put_if_absent key bytes (sc_mem s)) as [r1 m] eqn:Ep. injection E as <- <-. by eapply Hput.
  - destruct (put_if_absent k b (sc_mem s)) as [r0 m0] eqn:E0. apply memory_put_spec in E0 as [Hm _]. cbn [snd] in E.
    destruct (put_if_absent key bytes m0) as [r1 m] eqn:Ep. injection E as <- <-. by eapply Hput.
  - injection E as <- <-. exists (sc_mem s). split; [done|by left].
  - destruct (put_if_absent key bytes (sc_mem s)) as [r1 m] eqn:Ep. injection E as <- <-. exists (sc_mem s).
    split; [done|]. apply memory_put_spec in Ep as [_ [(_ & ? & ->)|(_ & _ & ->)]]; [by right|by left].
Qed.
Next Obligation.
  intros key s r s' E _. split; [done|]. cbn [os_get Scripted_ObjectStore] in E. unfold sc_call in E.
  destruct (sc_script s) as [|[|k b| |] l]; cbn [os_get Memory_ObjectStore] in E; injection E as <- <-; cbn [sc_mem].
  3: { destruct (sc_mem s !! k) eqn:Ek; cbn [snd]; (split; [|done]); [done|by apply insert_subseteq]. }
  all: by split.
Qed.

Lemma sc_call_patience {A} (K : nat) (call : Objects -> result AdapterError A * Objects) s r s' :
  (forall m, is_ok (fst (call m)) = true) -> sc_call call s = (r, s') -> sc_patient K s.(sc_script) ->
  sc_patient K s'.(sc_script) /\ answers_or_tires (fun s => sc_failures s.(sc_script)) r s s'.
Proof.
  intros Hc E Hp. unfold sc_call in E. pose proof (Hc (sc_mem s)) as H0.
  destruct (sc_script s) as [|[|k b| |] l] eqn:El.
  - destruct (call (sc_mem s)) as [[a|e] m]; [|done]. by injection E as <- <-.
  - destruct (call (sc_mem s)) as [[a|e] m]; [|done]. injection E as <- <-. by destruct Hp.
  - specialize (Hc (snd (put_if_absent k b (sc_mem s)))). destruct (call (snd _)) as [[a|e] m]; [|done].
    injection E as <- <-. by destruct Hp.
  - injection E as <- <-. destruct Hp as [_ Hp]. split; [done|]. cbn. rewrite El. cbn. lia.
  - destruct (call (sc_mem s)) as [r1 m]. injection E as <- <-. destruct Hp as [_ Hp]. split; [done|]. cbn. rewrite El. cbn. lia.
Qed.

#[export] Program Instance Scripted_patient (K : nat) : PatientStore ScriptedStore K := {
  os_patient s := sc_patient K s.(sc_script);
  os_failures s := sc_failures s.(sc_script);
}.
Next Obligation. intros K s. cbn. destruct (sc_script s) as [|x l]; [cbn; lia|]. by intros [H _]. Qed.
Next Obligation.
  intros K key bytes s r s' E Hp. eapply (sc_call_patience K (put_if_absent key bytes)); [|exact E|exact Hp].
  intros m. cbn. by destruct (m !! key).
Qed.
Next Obligation.
  intros K key s r s' E Hp. by eapply (sc_call_patience K (os_get key)); [|exact E|exact Hp].
Qed.

(** ** A version that was written stays readable *)

(** What can happen to a versioning store afterwards: conditional writes by other
    publishers, plain writes and deletions by an administrator. *)
Inductive StoreEvent_ :=
  | SePut (key bytes : list byte)
  | SeOverwrite (key bytes : list byte)
  | SeDelete (key : list byte).

Definition vs_apply (s : VersioningObjectStore) (e : StoreEvent_) : VersioningObjectStore :=
  match e with
  | SePut key bytes => snd (put_if_absent key bytes s)
  | SeOverwrite key bytes => snd (vs_overwrite key bytes s)
  | SeDelete key => vs_delete_marker key s
  end.

Lemma vs_find_overwrite key v bytes k b s :
  vs_find key v s = Some bytes -> vs_find key v (snd (vs_overwrite k b s)) = Some bytes.
Proof.
  unfold vs_find, vs_overwrite. generalize (as_u64 (vs_next s + 1)). intros next.
  generalize (lit "v" ++ decimal next). intros ver. cbn [snd vs_versions].
  destruct (decide (k = key)) as [->|Hne]; [|by rewrite lookup_insert_ne]. rewrite lookup_insert_eq.
  destruct (vs_versions s !! key) as [vs|]; [|done]. cbn [mbind option_bind default]. rewrite filter_app.
  change (id vs) with vs. by destruct (filter (fun p => p.1 = v) vs).
Qed.

Lemma vs_find_apply key v bytes s e : vs_find key v s = Some bytes -> vs_find key v (vs_apply s e) = Some bytes.
Proof.
  intros H. destruct e as [k b|k b|k]; cbn [vs_apply].
  - cbn [put_if_absent Versioning_ObjectStore]. destruct (vs_versions s !! k); [done|].
    pose proof (vs_find_overwrite key v bytes k b s H) as H'. by destruct (vs_overwrite k b s).
  - by apply vs_find_overwrite.
  - exact H.
Qed.

Lemma vs_written_found key bytes s v s' :
  put_if_absent key bytes s = (Ok (PoWritten, Some v), s') -> vs_find key v s' = Some bytes.
Proof.
  cbn [put_if_absent Versioning_ObjectStore]. destruct (vs_versions s !! key) eqn:Ek; [done|].
  destruct (vs_overwrite key bytes s) as [v1 s1] eqn:Ev. intros [= -> ->]. revert Ev.
  unfold vs_overwrite. rewrite Ek. cbn [default app].
  generalize (as_u64 (vs_next s + 1)). intros next. generalize (lit "v" ++ decimal next). intros ver [= -> <-].
  unfold vs_find. cbn [vs_versions]. rewrite lookup_insert_eq. cbn [mbind option_bind].
  rewrite filter_cons, decide_True by done. done.
Qed.
