(* ===== verification/Publish.v ===== *)
(** * Publishing a sealed segment ([trailryx-publish/src/lib.rs])

    The body at a key that names its content, then the manifest under a conditional
    write, which is the commit; the retries, and the reading back that tells a
    retry of one's own from a divergence. *)

From S2P Require Import Prelude Bytes Ids Record Digest Completeness SimIo ObjectStore.

Section Publish.
Context `{D : Digest}.

Record Publication := MkPublication {
  pb_shard : ShardIx;
  pb_segment : SegmentId;
  pb_manifest : list byte;
  pb_body : list byte;
}.

(** [Display for ShardIx]. *)
Definition display_shard (s : ShardIx) : str := lit "s" ++ decimal s.

(** [{:016x}] of a [u64]: its sixteen hexadecimal digits. *)
Definition hex16 (n : Z) : str := Hash_to_hex (to_be_bytes 8 n).

Definition published_digest (bytes : list byte) : Hash :=
  hash_parts [lit "trailryx/published-object/v1" ++ [x00]; bytes].

Definition body_digest (bytes : list byte) : Hash := published_digest bytes.

Definition body_key_for (p : Publication) (d : Hash) : str :=
  lit "segments/" ++ display_shard p.(pb_shard) ++ lit "/" ++ hex16 p.(pb_segment) ++ lit "-" ++ Hash_to_hex d ++ lit ".trx".

Definition body_key (p : Publication) : str := body_key_for p (published_digest p.(pb_body)).

Definition manifest_key (p : Publication) : str :=
  lit "manifests/" ++ display_shard p.(pb_shard) ++ lit "/" ++ hex16 p.(pb_segment) ++ lit ".mf".

Inductive Published := Committed (version : option VersionId) | AlreadyPublished.

Inductive PublishError :=
  | PuUnavailable (attempts : Z) (last : AdapterError)
  | PuUnsupported (why : string)
  | Diverged (key : str) (ours theirs : Hash)
  | Indeterminate (key : str).

#[export] Instance Published_eq_dec : EqDecision Published.
Proof. solve_decision. Defined.
#[export] Instance PublishError_eq_dec : EqDecision PublishError.
Proof. solve_decision. Defined.

Section Store.
Context {S : Type} `{OS : ObjectStore S}.

(** The loop of [retrying], [n] calls left. *)
Fixpoint retry_loop {T} (n : nat) (attempts : Z) (last : AdapterError) (call : S -> result AdapterError T * S) (s : S) :
    result PublishError T * S :=
  match n with
  | O => (Err (PuUnavailable attempts last), s)
  | Datatypes.S n' =>
      match call s with
      | (Ok value, s) => (Ok value, s)
      | (Err (AdUnsupported why), s) => (Err (PuUnsupported why), s)
      | (Err other, s) => retry_loop n' attempts other call s
      end
  end.

Definition retrying {T} (attempts : Z) (call : S -> result AdapterError T * S) (s : S) : result PublishError T * S :=
  retry_loop (Z.to_nat attempts) attempts (AdUnavailable "not attempted") call s.

(** What the stored manifest says of a refused write. *)
Definition read_back (p : Publication) (stored : option (list byte)) : result PublishError Published :=
  match stored with
  | Some stored =>
      if bool_decide (stored = p.(pb_manifest)) then Ok AlreadyPublished
      else Err (Diverged (manifest_key p) (published_digest p.(pb_manifest)) (published_digest stored))
  | None => Err (Indeterminate (manifest_key p))
  end.

(** [attempts] is a [u32]. *)
Definition publish (p : Publication) (attempts : Z) (s : S) : result PublishError Published * S :=
  let attempts := Z.max attempts 1 in
  match retrying attempts (put_if_absent (body_key p) p.(pb_body)) s with
  | (Err e, s) => (Err e, s)
  | (Ok _, s) =>
      match retrying attempts (put_if_absent (manifest_key p) p.(pb_manifest)) s with
      | (Err e, s) => (Err e, s)
      | (Ok (PoWritten, version), s) => (Ok (Committed version), s)
      | (Ok (PoAlreadyExists, _), s) =>
          match retrying attempts (os_get (manifest_key p)) s with
          | (Err e, s) => (Err e, s)
          | (Ok stored, s) => (read_back p stored, s)
          end
      end
  end.

Definition read_published (key : str) (version : VersionId) (s : S) : result AdapterError (option (list byte)) * S :=
  os_get_version key version s.

End Store.

(** ** Keys *)

Lemma body_key_not_manifest p d q : body_key_for p d <> manifest_key q.
Proof. discriminate. Qed.

Lemma Hash_to_hex_inj a b : length a = length b -> Hash_to_hex a = Hash_to_hex b -> a = b.
Proof.
  intros Hl E. pose proof (from_hex_loop_to_hex a) as H1. pose proof (from_hex_loop_to_hex b) as H2.
  rewrite E, Hl, H2 in H1. congruence.
Qed.

Lemma length_Hash_to_hex h : length (Hash_to_hex h) = (2 * length h)%nat.
Proof. unfold Hash_to_hex. induction h as [|x h IH]; cbn; [done|]. cbn in IH. rewrite IH. lia. Qed.

(** A body's key names its digest. *)
Lemma body_key_digest p q d e : hash_ok d -> hash_ok e -> body_key_for p d = body_key_for q e -> d = e.
Proof.
  intros Hd He E. unfold body_key_for in E. unfold hash_ok in *. rewrite !app_assoc in E.
  apply app_inj_2 in E as [E _]; [|done]. apply app_inj_2 in E as [_ E]; [|by rewrite !length_Hash_to_hex, Hd, He].
  apply Hash_to_hex_inj in E; congruence.
Qed.

(** ** What a publication does to the store *)

Section Laws.
Context {S : Type} {OS : ObjectStore S} {OL : ObjectStoreLaws S}.

(** Conditional writes of the objects [puts], interleaved with others' writes. *)
Inductive grows (puts : list (str * list byte)) : Objects -> Objects -> Prop :=
  | grows_refl m : grows puts m m
  | grows_peers m m' m'' : os_peers m m' -> grows puts m' m'' -> grows puts m m''
  | grows_put m k b m'' : (k, b) ∈ puts -> m !! k = None -> grows puts (<[k := b]> m) m'' -> grows puts m m''.

Lemma grows_trans puts m1 m2 m3 : grows puts m1 m2 -> grows puts m2 m3 -> grows puts m1 m3.
Proof.
  induction 1 as [|m m' m'' Hp Hg IH|m k b m'' Hin Hn Hg IH]; intros H3; [done|..].
  - eapply grows_peers; [exact Hp|]. by apply IH.
  - eapply grows_put; [exact Hin|exact Hn|]. by apply IH.
Qed.

Lemma grows_mono puts m m' : grows puts m m' -> m ⊆ m'.
Proof.
  induction 1 as [|m m' m'' Hp%os_peers_mono Hg IH|m k b m'' Hin Hn Hg IH]; [done|by etrans|].
  etrans; [|exact IH]. by apply insert_subseteq.
Qed.

(** The body first, and the manifest only over a body that is there. *)
Definition in_commit_order (p : Publication) (m m' : Objects) : Prop :=
  exists mid, grows [(body_key p, p.(pb_body))] m mid /\
    (m' = mid \/ is_Some (mid !! body_key p) /\ grows [(manifest_key p, p.(pb_manifest))] mid m').

Definition put_answer (key bytes : list byte) (m m' : Objects) (o : PutOutcome) : Prop :=
  match o with PoWritten => m' !! key = Some bytes /\ m !! key = None | PoAlreadyExists => is_Some (m' !! key) end.

(** The errors of [retrying] itself: the store was not reached, or cannot do it. *)
Definition not_reached (e : PublishError) : Prop :=
  match e with PuUnavailable _ _ | PuUnsupported _ => True | _ => False end.

(** The same, with what they carry: the whole budget, and the last refusal. *)
Definition gave_up (attempts : Z) (e : PublishError) : Prop :=
  match e with
  | PuUnavailable n last => n = attempts /\ forall why, last <> AdUnsupported why
  | PuUnsupported _ => True
  | _ => False
  end.

Lemma retry_put n attempts last key bytes s r s' :
  retry_loop n attempts last (put_if_absent key bytes) s = (r, s') -> os_ok s -> (forall why, last <> AdUnsupported why) ->
  os_ok s' /\ grows [(key, bytes)] (objects s) (objects s') /\
  match r with Ok (o, _) => put_answer key bytes (objects s) (objects s') o | Err e => gave_up attempts e end.
Proof.
  assert (Hin : (key, bytes) ∈ [(key, bytes)]) by (apply list_elem_of_singleton; done).
  revert last s; induction n as [|n IH]; intros last s; cbn [retry_loop].
  { intros [= <- <-] Hok Hlast. split; [done|]. split; [constructor|by split]. }
  destruct (put_if_absent key bytes s) as [q s1] eqn:E. intros Hr Hok Hlast.
  apply os_put_law in E as (Hok1 & m & Hm & Hq); [|done].
  assert (Hg : grows [(key, bytes)] (objects s) (objects s1)).
  { eapply grows_peers; [exact Hm|]. destruct q as [[[] v]|e].
    - destruct Hq as [Hn ->]. by eapply grows_put, grows_refl.
    - destruct Hq as [_ ->]. constructor.
    - destruct Hq as [->|[Hn ->]]; [constructor|]. by eapply grows_put, grows_refl. }
  destruct q as [[o v]|e].
  { injection Hr as <- <-. split; [done|]. split; [done|]. destruct o; cbn; destruct Hq as [? ->]; [|done].
    split; [apply lookup_insert_eq|]. eapply lookup_weaken_None; [eassumption|by apply os_peers_mono]. }
  destruct e as [w|w|w].
  3: { injection Hr as <- <-. by split. }
  all: apply IH in Hr as (Hok' & Hg' & Hr); [|done..]; split; [done|]; split; [by eapply grows_trans|];
    destruct r as [[[] v]|e]; cbn in *; try done;
    split; [apply Hr|]; eapply lookup_weaken_None; [apply Hr|by eapply grows_mono].
Qed.

Lemma retry_get n attempts last key s r s' :
  retry_loop n attempts last (os_get key) s = (r, s') -> os_ok s -> (forall why, last <> AdUnsupported why) ->
  os_ok s' /\ grows [] (objects s) (objects s') /\
  match r with Ok o => o = objects s' !! key | Err e => gave_up attempts e end.
Proof.
  revert last s; induction n as [|n IH]; intros last s; cbn [retry_loop].
  { intros [= <- <-] Hok Hlast. split; [done|]. split; [constructor|by split]. }
  destruct (os_get key s) as [q s1] eqn:E. intros Hr Hok Hlast.
  apply os_get_law in E as (Hok1 & Hm & Hq); [|done].
  assert (Hg : grows [] (objects s) (objects s1)) by (eapply grows_peers, grows_refl; exact Hm).
  destruct q as [o|e]; [injection Hr as <- <-; by split|]. destruct e as [w|w|w].
  3: { injection Hr as <- <-. by split. }
  all: apply IH in Hr as (Hok' & Hg' & Hr); [|done..]; split; [done|]; split; [by eapply grows_trans|]; done.
Qed.

Lemma grows_weaken puts puts' m m' : puts ⊆ puts' -> grows puts m m' -> grows puts' m m'.
Proof.
  intros Hs. induction 1; [constructor|by eapply grows_peers|eapply grows_put; [by apply Hs|done|done]].
Qed.

(** The call at which a publication stopped unanswered, and what was written by
    then: the body's write, the manifest's, or the reading back. In the second the
    manifest may have been stored by this very publication, its answer lost. *)
Inductive unanswered (p : Publication) (m m' : Objects) : Prop :=
  | un_body : grows [(body_key p, p.(pb_body))] m m' -> unanswered p m m'
  | un_manifest mid : grows [(body_key p, p.(pb_body))] m mid -> is_Some (mid !! body_key p) ->
      grows [(manifest_key p, p.(pb_manifest))] mid m' -> unanswered p m m'
  | un_reading : is_Some (m' !! body_key p) -> is_Some (m' !! manifest_key p) -> unanswered p m m'.

(** What the result says of the store, [m] before the call and [m'] after it. *)
Definition publish_result (p : Publication) (attempts : Z) (m m' : Objects) (r : result PublishError Published) : Prop :=
  match r with
  | Ok o => m' !! manifest_key p = Some p.(pb_manifest) /\ is_Some (m' !! body_key p) /\
      (o <> AlreadyPublished -> m !! manifest_key p = None)
  | Err (Diverged k ours theirs) =>
      k = manifest_key p /\ ours = published_digest p.(pb_manifest) /\
      exists stored, m' !! k = Some stored /\ stored <> p.(pb_manifest) /\ theirs = published_digest stored
  | Err (Indeterminate _) => False
  | Err (PuUnavailable n last) => n = Z.max attempts 1 /\ (forall why, last <> AdUnsupported why) /\ unanswered p m m'
  | Err (PuUnsupported _) => unanswered p m m'
  end.

(** What is stored decides what publishing again reports, if it is answered. *)
Definition settled (p : Publication) (m : Objects) (r : result PublishError Published) : Prop :=
  forall stored, m !! manifest_key p = Some stored ->
    (exists e, r = Err e /\ not_reached e) \/
    stored = p.(pb_manifest) /\ r = Ok AlreadyPublished \/
    stored <> p.(pb_manifest) /\ r = Err (Diverged (manifest_key p) (published_digest p.(pb_manifest)) (published_digest stored)).

(** An error of the loop, with the call it stopped at. *)
Lemma stopped_result p attempts m m' e :
  gave_up (Z.max attempts 1) e -> unanswered p m m' -> publish_result p attempts m m' (Err e).
Proof. destruct e; cbn; [by intros [-> ?]|done..]. Qed.

Lemma publish_ok p attempts s r s' :
  publish p attempts s = (r, s') -> os_ok s ->
  os_ok s' /\ in_commit_order p (objects s) (objects s') /\ publish_result p attempts (objects s) (objects s') r.
Proof.
  unfold publish, retrying. set (a := Z.max attempts 1). set (n := Z.to_nat a).
  destruct (retry_loop n a _ (put_if_absent (body_key p) (pb_body p)) s) as [r1 s1] eqn:E1. intros H Hok.
  apply retry_put in E1 as (Hok1 & Hg1 & Hr1); [|done..].
  destruct r1 as [[o1 v1]|e].
  2: { injection H as <- <-. split; [done|]. split; [exists (objects s1); by split; [|left]|].
       apply stopped_result; [done|by apply un_body]. }
  assert (Hb : is_Some (objects s1 !! body_key p)) by (destruct o1; [by eexists; apply Hr1|done]). clear Hr1.
  destruct (retry_loop n a _ (put_if_absent (manifest_key p) (pb_manifest p)) s1) as [r2 s2] eqn:E2.
  apply retry_put in E2 as (Hok2 & Hg2 & Hr2); [|done..].
  assert (Hkept : forall s3 k, grows [] (objects s2) (objects s3) -> is_Some (objects s2 !! k) -> is_Some (objects s3 !! k)).
  { intros s3 k Hg [b Hk]. exists b. by eapply lookup_weaken, grows_mono. }
  assert (Hb2 : is_Some (objects s2 !! body_key p)).
  { destruct Hb as [b Hb']. exists b. by eapply lookup_weaken, grows_mono. }
  assert (Hord : forall s3, grows [] (objects s2) (objects s3) -> in_commit_order p (objects s) (objects s3)).
  { intros s3 Hg3. exists (objects s1). split; [done|]. right. split; [done|].
    eapply grows_trans; [exact Hg2|]. eapply grows_weaken; [|exact Hg3]. set_solver. }
  destruct r2 as [[[] v2]|e].
  - injection H as <- <-. split; [done|]. split; [apply Hord; constructor|]. destruct Hr2 as [Hw Hfresh].
    split; [done|]. split; [done|]. intros _. eapply lookup_weaken_None; [exact Hfresh|by eapply grows_mono].
  - destruct (retry_loop n a _ (os_get (manifest_key p)) s2) as [r3 s3] eqn:E3.
    apply retry_get in E3 as (Hok3 & Hg3 & Hr3); [|done..].
    pose proof (Hkept _ _ Hg3 Hb2) as Hb3. pose proof (Hkept _ _ Hg3 Hr2) as Hm3.
    destruct r3 as [stored|e]; injection H as <- <-; (split; [done|]); (split; [by apply Hord|]).
    + destruct Hm3 as [b Hm3]. rewrite Hr3, Hm3. cbn [read_back]. case_bool_decide as Hd; cbn [publish_result]; [by subst b|].
      split; [done|]. split; [done|]. by exists b.
    + apply stopped_result; [done|by apply un_reading].
  - injection H as <- <-. split; [done|]. split; [apply Hord; constructor|].
    apply stopped_result; [done|by apply (un_manifest p _ _ (objects s1))].
Qed.

Lemma publish_settles p attempts m s r s' :
  publish p attempts s = (r, s') -> os_ok s -> m ⊆ objects s -> settled p m r.
Proof.
  intros H Hok Hsub stored Hm. pose proof (lookup_weaken _ _ _ _ Hm Hsub) as Hs.
  apply publish_ok in H as (_ & (mid & Hg%grows_mono & Ho) & Hr); [|done].
  assert (Hm' : objects s' !! manifest_key p = Some stored).
  { pose proof (lookup_weaken _ _ _ _ Hs Hg) as Hmid. destruct Ho as [->|[_ Hg'%grows_mono]]; [done|by eapply lookup_weaken]. }
  destruct r as [o|e]; cbn [publish_result] in Hr.
  - destruct Hr as (Hw & _ & Hnew). right; left. split; [congruence|].
    destruct o as [v|]; [|done]. by rewrite Hnew in Hs.
  - destruct e as [n last|why|k ours theirs|k]; [left; by eexists..| |done].
    destruct Hr as (-> & -> & st & Hst & Hne & ->). right; right. simplify_eq. by split.
Qed.

(** ** Liveness *)

Context {K : nat} `{PS : !PatientStore S K}.

Lemma retry_answers {T} n attempts last (call : S -> result AdapterError T * S) s r s' :
  (forall s r s', call s = (r, s') -> os_patient s -> os_patient s' /\ answers_or_tires os_failures r s s') ->
  retry_loop n attempts last call s = (r, s') -> os_patient s -> (os_failures s < n)%nat ->
  os_patient s' /\ is_ok r = true.
Proof.
  intros Hc. revert last s; induction n as [|n IH]; intros last s; cbn [retry_loop]; [lia|].
  destruct (call s) as [[v|e] s1] eqn:E; intros Hr Hp Hn; apply Hc in E as [Hp1 Ha]; try done.
  - by injection Hr as <- <-.
  - destruct e as [w|w|w]; [| |done]; (eapply IH; [exact Hr|exact Hp1|]); cbn in Ha; lia.
Qed.

Lemma publish_answers p attempts s r s' :
  publish p attempts s = (r, s') -> os_patient s -> Z.of_nat K < Z.max attempts 1 ->
  match r with Err (PuUnavailable _ _) | Err (PuUnsupported _) => False | _ => True end.
Proof.
  unfold publish, retrying. intros H Hp Hk.
  assert (Hn : forall s, os_patient s -> (os_failures s < Z.to_nat (Z.max attempts 1))%nat).
  { intros s0 Hs0. pose proof (os_failures_bound s0 Hs0). lia. }
  destruct (retry_loop _ _ _ (put_if_absent (body_key p) _) s) as [r1 s1] eqn:E1.
  eapply retry_answers in E1 as [Hp1 Hr1]; [|apply os_put_patience|done|by apply Hn].
  destruct r1 as [o1|]; [|done].
  destruct (retry_loop _ _ _ (put_if_absent (manifest_key p) _) s1) as [r2 s2] eqn:E2.
  eapply retry_answers in E2 as [Hp2 Hr2]; [|apply os_put_patience|done|by apply Hn].
  destruct r2 as [[[] v2]|]; [by injection H as <- <-| |done].
  destruct (retry_loop _ _ _ (os_get (manifest_key p)) s2) as [r3 s3] eqn:E3.
  eapply retry_answers in E3 as [_ Hr3]; [|apply os_get_patience|done|by apply Hn].
  destruct r3 as [stored|]; [|done]. injection H as <- <-. unfold read_back.
  destruct stored; [|done]. by destruct (bool_decide _).
Qed.

End Laws.
End Publish.

(** ** The properties *)

(** C7 (publication is atomic). Over any object store that keeps its contract,
    whatever else is written meanwhile, whichever calls fail or lose their answer:
    publishing replaces nothing that was stored, and the manifest is written only
    over a body that is there. A success means that exactly this manifest is stored
    under the segment's key, with an object under the key of its body's digest, and
    that it was this call that stored it unless the result says otherwise. A
    divergence is reported only when other bytes are stored there, and names their
    digest; [Indeterminate] never is. The two errors of a store that does not answer
    come when the whole budget was spent, or at once when the store cannot do it, and
    leave one of three states: the manifest was never asked for; it was, over a body
    that is there, and may or may not have been stored; or one is stored that could
    not be read back. They do not say that nothing was committed. Publishing again
    settles it: over any later contents it is answered by what is stored now, never
    by a second commit. *)
Theorem publication_is_atomic `{D : Digest} {S : Type} {OS : ObjectStore S} {OL : ObjectStoreLaws S} (p : Publication) (attempts : Z)
    (s : S) (r : result PublishError Published) (s' : S) :
  publish p attempts s = (r, s') -> os_ok s ->
  os_ok s' /\ objects s ⊆ objects s' /\ in_commit_order p (objects s) (objects s') /\
  publish_result p attempts (objects s) (objects s') r /\
  forall again (s2 : S) r2 s2', objects s' ⊆ objects s2 -> os_ok s2 -> publish p again s2 = (r2, s2') ->
    settled p (objects s') r2.
Proof.
  intros H Hok. destruct (publish_ok p attempts s r s' H Hok) as (? & Ho & ?). split_and!; try done.
  - destruct Ho as (mid & Hg%grows_mono & [->|[_ Hg'%grows_mono]]); [done|by etrans].
  - intros again s2 r2 s2' Hsub Hok2 H2. by eapply publish_settles.
Qed.

(** Publishers agree. If two publishers of one segment both succeed, on
    whatever interleaving of their calls, they published the same manifest. *)
Theorem publishers_agree `{D : Digest} {S : Type} {OS : ObjectStore S} {OL : ObjectStoreLaws S} (p1 p2 : Publication) (a1 a2 : Z)
    (s1 s2 t1 t2 : S) (o1 o2 : Published) (final : Objects) :
  p1.(pb_shard) = p2.(pb_shard) -> p1.(pb_segment) = p2.(pb_segment) ->
  publish p1 a1 s1 = (Ok o1, t1) -> os_ok s1 -> publish p2 a2 s2 = (Ok o2, t2) -> os_ok s2 ->
  objects t1 ⊆ final -> objects t2 ⊆ final ->
  p1.(pb_manifest) = p2.(pb_manifest).
Proof.
  intros Hs Hg E1 H1 E2 H2 F1 F2. apply publish_ok in E1 as (_ & _ & M1 & _); [|done].
  apply publish_ok in E2 as (_ & _ & M2 & _); [|done].
  assert (Hk : manifest_key p1 = manifest_key p2) by (unfold manifest_key; by rewrite Hs, Hg).
  rewrite Hk in M1. pose proof (lookup_weaken _ _ _ _ M1 F1) as L1. pose proof (lookup_weaken _ _ _ _ M2 F2) as L2.
  congruence.
Qed.

(** C8 (a publication finishes). On a store that fails at most [K] calls in a row
    and can honour the contract, a budget of more than [K] attempts is enough: the
    segment is published, or a different one is already there under its number. *)
Theorem publication_finishes `{D : Digest} {S : Type} {OS : ObjectStore S} {OL : ObjectStoreLaws S} {K : nat} `{PS : !PatientStore S K}
    (p : Publication) (attempts : Z) (s : S) :
  os_ok s -> os_patient s -> Z.of_nat K < Z.max attempts 1 ->
  exists r s', publish p attempts s = (r, s') /\
    (is_ok r = true <-> objects s' !! manifest_key p = Some p.(pb_manifest)) /\
    (is_ok r = false -> exists theirs, r = Err (Diverged (manifest_key p) (published_digest p.(pb_manifest)) theirs)).
Proof.
  intros Hok Hp Hk. destruct (publish p attempts s) as [r s'] eqn:E. exists r, s'. split; [done|].
  pose proof (publish_answers p attempts s r s' E Hp Hk) as Ha. apply publish_ok in E as (_ & _ & Hr); [|done].
  destruct r as [o|e]; cbn [is_ok].
  - destruct Hr as (? & _). by split.
  - destruct e as [| |k ours theirs|k]; try done. destruct Hr as (-> & -> & stored & Hs & Hne & _).
    split; [|intros _; by exists theirs]. split; [done|]. congruence.
Qed.

Module Sample.
#[local] Existing Instance Register_Digest | 0.

Definition ours : Publication := MkPublication 2 7 (lit "manifest") (lit "body").
Definition rival : Publication := MkPublication 2 7 (lit "other") (lit "other body").

(** The body's first write fails, the manifest's answer is lost, a peer publishes
    the same body meanwhile. *)
Definition bad_day : ScriptedStore :=
  MkScripted ∅ [ScDown; ScPeer (body_key ours) (lit "body"); ScLost; ScDown; ScAnswer].

(** A rival's manifest arrives between the two writes. *)
Definition raced : ScriptedStore := MkScripted ∅ [ScAnswer; ScPeer (manifest_key rival) (lit "other")].

Lemma publication_is_atomic_witness :
  sc_mem (publish ours 3 bad_day).2 !! manifest_key ours = Some (lit "manifest").
Proof.
  destruct (publication_is_atomic (OL := Scripted_laws) ours 3 bad_day _ _ (surjective_pairing _) I) as (_ & _ & _ & H & _).
  assert (E : (publish ours 3 bad_day).1 = Ok AlreadyPublished) by (vm_compute; reflexivity).
  rewrite E in H. exact (proj1 H).
Defined.

Lemma publishers_agree_witness : lit "manifest" = pb_manifest ours.
Proof.
  assert (E : publish ours 3 bad_day = (Ok AlreadyPublished, (publish ours 3 bad_day).2)).
  { rewrite (surjective_pairing (publish ours 3 bad_day)) at 1. f_equal; vm_compute; reflexivity. }
  apply (publishers_agree (OL := Scripted_laws) ours ours 3 3 bad_day bad_day _ _ _ _ (sc_mem (publish ours 3 bad_day).2)
    eq_refl eq_refl E I E I); reflexivity.
Defined.

Lemma publication_finishes_witness :
  exists r s', publish ours 3 bad_day = (r, s') /\
    (is_ok r = true <-> sc_mem s' !! manifest_key ours = Some (lit "manifest")).
Proof.
  destruct (publication_finishes (OL := Scripted_laws) (K := 2) ours 3 bad_day) as (r & s' & E & H & _).
  - exact I.
  - by_evaluation.
  - vm_compute. reflexivity.
  - exists r, s'. split; [exact E|exact H].
Defined.

(** The only attempt's answer is lost: the error says that the store was not
    reached, and the manifest is stored. *)
Definition lost_answer : ScriptedStore := MkScripted ∅ [ScAnswer; ScLost].

Example an_unavailable_publication_may_be_committed :
  let '(r, s) := publish ours 1 lost_answer in
  r = Err (PuUnavailable 1 (AdUnavailable "down")) /\ sc_mem s !! manifest_key ours = Some (lit "manifest") /\
  (publish ours 1 s).1 = Ok AlreadyPublished.
Proof. vm_compute. split_and!; reflexivity. Qed.

(** Other bytes under the body's key are taken for the body. *)
Definition squatted : ScriptedStore := MkScripted {[body_key ours := lit "other bytes"]} [].

Example a_body_that_is_there_is_not_read :
  let '(r, s) := publish ours 1 squatted in
  r = Ok (Committed None) /\ sc_mem s !! body_key ours = Some (lit "other bytes").
Proof. vm_compute. split; reflexivity. Qed.

(** The rival's manifest is kept and the divergence reported. *)
Example raced_publication :
  (publish ours 1 raced).1 =
    Err (Diverged (manifest_key ours) (published_digest (lit "manifest")) (published_digest (lit "other"))).
Proof. vm_compute. reflexivity. Qed.

End Sample.

(** A version read survives an administrator. On a store that versions its
    objects, what a publication wrote is read back by the version the store named,
    after any sequence of conditional writes, of plain writes over the key and of
    deletions; where a plain read returns whatever is there now. *)
Theorem pinned_version_survives (key bytes : list byte) (s s' : VersioningObjectStore) (version : VersionId)
    (later : list StoreEvent_) :
  put_if_absent key bytes s = (Ok (PoWritten, Some version), s') ->
  fst (read_published key version (fold_left vs_apply later s')) = Ok (Some bytes).
Proof.
  intros H%vs_written_found. cbn. f_equal. revert s' H.
  induction later as [|e later IH]; intros s' H; [exact H|]. cbn [fold_left]. by apply IH, vs_find_apply.
Qed.

Lemma pinned_version_survives_witness :
  fst (read_published (lit "k") (lit "v1")
    (fold_left vs_apply [SeOverwrite (lit "k") (lit "forged"); SeDelete (lit "k")]
       (put_if_absent (lit "k") (lit "sealed") (MkVersioning ∅ ∅ 0)).2)) = Ok (Some (lit "sealed")).
Proof.
  apply (pinned_version_survives (lit "k") (lit "sealed") (MkVersioning ∅ ∅ 0)). vm_compute. reflexivity.
Defined.
