(* ===== verification/Cold.v ===== *)
(** * The cold tier ([trailryx-store/src/cold.rs])

    A sealed segment as two objects: its records as one body, and its manifest
    behind the body's digest; and the checks of the reading back. *)

From S2P Require Import Prelude Bytes Ids Record Codec Digest Merkle Completeness Segment SimIo PackFormat PackWriter ObjectStore Publish.

Definition ENVELOPE_VERSION : Z := 1.

Inductive ColdError :=
  | ClPublish (e : PublishError)
  | ClMalformed (what : string)
  | ClBodyMissing
  | ClBodyAltered
  | ClWrongSegment
  | ClUnavailable.

#[export] Instance ColdError_eq_dec : EqDecision ColdError.
Proof. solve_decision. Defined.

Record Fetched := MkFetched { ft_manifest : SegmentManifest; ft_records : list (list byte) }.

#[export] Instance Fetched_eq_dec : EqDecision Fetched.
Proof. solve_decision. Defined.

(** ** The body *)

Definition encode_body (records : list (list byte)) : list byte :=
  to_be_bytes 8 (Z.of_nat (length records)) ++ concat (map w_bytes records).

(** [for _ in 0..count]; a turn that goes on takes four bytes at least, so the
    length of the input is fuel enough: without fuel nothing is left to take. *)
Fixpoint decode_records (fuel : nat) (count : Z) (rest : list byte) (out : list (list byte)) :
    result ColdError (list (list byte)) :=
  if count <=? 0 then
    if (length rest =? 0)%nat then Ok out else Err (ClMalformed "bytes after the last record")
  else if (length rest <? 4)%nat then Err (ClMalformed "a record length past the end")
  else
    match fuel with
    | O => Err (ClMalformed "a record length past the end")
    | S fuel' =>
        let len := Z.to_nat (from_be_bytes (take 4 rest)) in
        let rest := drop 4 rest in
        if (length rest <? len)%nat then Err (ClMalformed "a record shorter than it declared")
        else decode_records fuel' (count - 1) (drop len rest) (out ++ [take len rest])
    end.

Definition cold_decode_body (bytes : list byte) : result ColdError (list (list byte)) :=
  if (length bytes <? 8)%nat then Err (ClMalformed "a body shorter than its own count")
  else decode_records (length bytes) (from_be_bytes (take 8 bytes)) (drop 8 bytes) [].

(** ** The envelope *)

Definition encode_envelope (body_digest : Hash) (m : SegmentManifest) : list byte :=
  to_be_bytes 2 ENVELOPE_VERSION ++ body_digest ++ encode_manifest m.

Definition decode_envelope (bytes : list byte) : result ColdError (Hash * SegmentManifest) :=
  if (length bytes <? 2 + 48)%nat then Err (ClMalformed "an envelope shorter than its header")
  else if negb (from_be_bytes (take 2 bytes) =? ENVELOPE_VERSION)
  then Err (ClMalformed "an envelope version this reader predates")
  else
    m ← ok_or (decode_manifest (drop 50 bytes)) (ClMalformed "an unreadable manifest");
    Ok (slice bytes 2 48, m).

(** ** Publishing and fetching *)

Section Cold.
Context `{D : Digest} {S : Type} {OS : ObjectStore S}.

Definition cold_manifest_key (shard_ : ShardIx) (segment : SegmentId) : str :=
  manifest_key (MkPublication shard_ segment [] []).

Definition cold_publication (m : SegmentManifest) (records : list (list byte)) : Publication :=
  let body := encode_body records in
  MkPublication m.(m_shard) m.(m_segment) (encode_envelope (body_digest body) m) body.

Definition publish_segment (m : SegmentManifest) (records : list (list byte)) (attempts : Z) (s : S) :
    result ColdError Published * S :=
  let '(r, s) := publish (cold_publication m records) attempts s in (map_err ClPublish r, s).

(** What the fetched body is checked against. *)
Definition check_body (committed : Hash) (m : SegmentManifest) (body : list byte) : result ColdError (option Fetched) :=
  if negb (bool_decide (body_digest body = committed)) then Err ClBodyAltered
  else
    records ← cold_decode_body body;
    if negb (as_u64 (Z.of_nat (length records)) =? m.(m_records))
    then Err (ClMalformed "the body holds a different number of records than the manifest declares")
    else Ok (Some (MkFetched m records)).

Definition fetch_segment (shard_ : ShardIx) (segment : SegmentId) (s : S) : result ColdError (option Fetched) * S :=
  match os_get (cold_manifest_key shard_ segment) s with
  | (Err _, s) => (Err ClUnavailable, s)
  | (Ok None, s) => (Ok None, s)
  | (Ok (Some envelope), s) =>
      match decode_envelope envelope with
      | Err e => (Err e, s)
      | Ok (committed, m) =>
          if negb (m.(m_shard) =? shard_) || negb (m.(m_segment) =? segment) then (Err ClWrongSegment, s)
          else
            match os_get (body_key_for (MkPublication shard_ segment [] []) committed) s with
            | (Err _, s) => (Err ClUnavailable, s)
            | (Ok None, s) => (Err ClBodyMissing, s)
            | (Ok (Some body), s) => (check_body committed m body, s)
            end
      end
  end.

Definition fetch_published_manifest (shard_ : ShardIx) (segment : SegmentId) (version : VersionId) (s : S) :
    result ColdError (option (Hash * SegmentManifest)) * S :=
  match os_get_version (cold_manifest_key shard_ segment) version s with
  | (Err _, s) => (Err ClUnavailable, s)
  | (Ok None, s) => (Ok None, s)
  | (Ok (Some bytes), s) => (dm ← decode_envelope bytes; Ok (Some dm), s)
  end.

End Cold.

(** ** The body's encoding is a codec *)

Definition body_ok (records : list (list byte)) : Prop :=
  u64_ok (Z.of_nat (length records)) /\ Forall (fun r => u32_ok (Z.of_nat (length r))) records.

#[export] Instance body_ok_dec records : Decision (body_ok records).
Proof. unfold body_ok. apply _. Defined.

Lemma decode_records_encoded fuel records out :
  Forall (fun r => u32_ok (Z.of_nat (length r))) records -> (length (concat (map w_bytes records)) <= fuel)%nat ->
  decode_records fuel (Z.of_nat (length records)) (concat (map w_bytes records)) out = Ok (out ++ records).
Proof.
  intros Hr. revert fuel out. induction Hr as [|r records Hlen Hr IH]; intros fuel out Hf.
  { destruct fuel; cbn; by rewrite app_nil_r. }
  cbn [map concat] in *. unfold w_bytes in Hf at 1. rewrite !length_app, length_to_be_bytes in Hf.
  destruct fuel as [|fuel]; [lia|]. cbn [decode_records length].
  destruct (Z.leb_spec (Z.of_nat (S (length records))) 0); [lia|].
  set (rest := concat (map w_bytes records)) in *.
  assert (Hw : w_bytes r ++ rest = to_be_bytes 4 (Z.of_nat (length r)) ++ r ++ rest) by (unfold w_bytes; by rewrite <- app_assoc).
  rewrite Hw.
  destruct (Nat.ltb_spec (length (to_be_bytes 4 (Z.of_nat (length r)) ++ r ++ rest)) 4) as [Hl|_].
  { rewrite length_app, length_to_be_bytes in Hl. lia. }
  rewrite take_app_length', drop_app_length' by (by rewrite length_to_be_bytes).
  rewrite from_to_be_bytes, Nat2Z.id by exact Hlen.
  destruct (Nat.ltb_spec (length (r ++ rest)) (length r)) as [Hl|_].
  { rewrite length_app in Hl. lia. }
  rewrite take_app_length, drop_app_length.
  replace (Z.of_nat (S (length records)) - 1) with (Z.of_nat (length records)) by lia.
  unfold rest. rewrite IH by lia. by rewrite <- app_assoc.
Qed.

Lemma decode_records_sound fuel count rest out rs :
  0 <= count -> decode_records fuel count rest out = Ok rs ->
  exists records, rs = out ++ records /\ Z.of_nat (length records) = count /\ rest = concat (map w_bytes records) /\
    Forall (fun r => u32_ok (Z.of_nat (length r))) records.
Proof.
  revert count rest out; induction fuel as [|fuel IH]; intros count rest out Hc; cbn [decode_records];
    (destruct (Z.leb_spec count 0) as [H0|H0];
     [destruct (Nat.eqb_spec (length rest) 0) as [Hn|]; [|done]; intros [= <-]; exists [];
      apply nil_length_inv in Hn as ->; rewrite app_nil_r; split_and!; [done|cbn; lia|done|constructor]|]);
    destruct (Nat.ltb_spec (length rest) 4) as [|H4]; try done.
  destruct (Nat.ltb_spec (length (drop 4 rest)) (Z.to_nat (from_be_bytes (take 4 rest)))) as [|Hl]; [done|].
  intros H. apply IH in H as (records & -> & Hn & Hrest & Hok); [|lia].
  set (n := from_be_bytes (take 4 rest)) in *. set (r := take (Z.to_nat n) (drop 4 rest)) in *.
  assert (H4' : length (take 4 rest) = 4%nat) by (rewrite length_take; lia).
  pose proof (from_be_bytes_range (take 4 rest)) as Hr. fold n in Hr. rewrite H4' in Hr.
  assert (Hlr : Z.of_nat (length r) = n) by (unfold r; rewrite length_take; lia).
  exists (r :: records). split; [by rewrite <- app_assoc|]. split; [cbn; lia|]. split.
  - cbn [map concat]. rewrite <- Hrest. unfold w_bytes. rewrite Hlr. unfold n. rewrite <- H4' at 1.
    rewrite to_from_be_bytes, <- app_assoc. unfold r. rewrite !take_drop. done.
  - constructor; [|done]. rewrite Hlr. exact Hr.
Qed.

Lemma cold_body_iff bytes records : cold_decode_body bytes = Ok records <-> bytes = encode_body records /\ body_ok records.
Proof.
  unfold cold_decode_body, encode_body, body_ok. split.
  - destruct (Nat.ltb_spec (length bytes) 8) as [|Hl]; [done|]. intros H.
    assert (H8 : length (take 8 bytes) = 8%nat) by (rewrite length_take; lia).
    pose proof (from_be_bytes_range (take 8 bytes)) as Hr. rewrite H8 in Hr.
    apply decode_records_sound in H as (rs & -> & Hn & Hrest & Hok); [|lia]. cbn [app]. rewrite Hn, <- Hrest.
    split; [|by split]. rewrite <- H8 at 1. by rewrite to_from_be_bytes, take_drop.
  - intros (-> & Hn & Hok). rewrite length_app, length_to_be_bytes.
    destruct (Nat.ltb_spec (8 + length (concat (map w_bytes records))) 8); [lia|].
    rewrite take_app_length', drop_app_length' by (by rewrite length_to_be_bytes).
    rewrite from_to_be_bytes by exact Hn. by rewrite decode_records_encoded by (done || lia).
Qed.

Lemma decode_envelope_iff bytes d m :
  decode_envelope bytes = Ok (d, m) <-> bytes = encode_envelope d m /\ hash_ok d /\ manifest_ok m.
Proof.
  unfold decode_envelope, encode_envelope. split.
  - destruct (Nat.ltb_spec (length bytes) (2 + 48)) as [|Hl]; [done|].
    destruct (Z.eqb_spec (from_be_bytes (take 2 bytes)) ENVELOPE_VERSION) as [Hv|]; [|done]. cbn [negb].
    intros H. apply result_bind_ok in H as (m' & Hm & [= <- <-]). apply ok_or_ok, decode_manifest_iff in Hm as [Hb Hm].
    split; [|split; [|done]].
    + rewrite <- Hv, <- Hb. assert (H2 : length (take 2 bytes) = 2%nat) by (rewrite length_take; lia).
      rewrite <- H2 at 1. rewrite to_from_be_bytes, app_assoc, <- take_plus_slice. cbn [Nat.add]. by rewrite take_drop.
    + unfold hash_ok. rewrite length_slice; [done|]. cbn. lia.
  - intros (-> & Hd & Hm). unfold hash_ok, HASH_BYTES in Hd.
    destruct (Nat.ltb_spec (length (to_be_bytes 2 ENVELOPE_VERSION ++ d ++ encode_manifest m)) (2 + 48)) as [Hl|_].
    { rewrite !length_app, length_to_be_bytes, Hd in Hl. lia. }
    rewrite take_app_length' by (by rewrite length_to_be_bytes). cbn [negb].
    change (from_be_bytes (to_be_bytes 2 ENVELOPE_VERSION) =? ENVELOPE_VERSION) with true. cbn [negb].
    rewrite app_assoc, drop_app_length' by (rewrite length_app, length_to_be_bytes, Hd; done).
    rewrite (proj2 (decode_manifest_iff _ m)) by done. cbn [ok_or mbind result_bind].
    unfold slice. rewrite <- app_assoc, drop_app_length' by (by rewrite length_to_be_bytes).
    by rewrite take_app_length' by done.
Qed.

(** ** The store the segments are kept in *)

Section Kept.
Context `{DL : DigestLaws}.

(** What is stored under a body's key has the digest the key names. A publisher
    keeps this so; no store checks it, and the contract does not promise it. *)
Definition addressed (m : Objects) : Prop :=
  forall p d b, hash_ok d -> m !! body_key_for p d = Some b -> published_digest b = d.

(** No manifest without the body it commits to. *)
Definition bodies_present (m : Objects) : Prop :=
  forall shard_ segment env d mf, u16_ok shard_ -> u64_ok segment ->
    m !! cold_manifest_key shard_ segment = Some env -> decode_envelope env = Ok (d, mf) ->
    is_Some (m !! body_key_for (MkPublication shard_ segment [] []) d).

(** Under the body's key is the body, or nothing. *)
Definition only_this_body (p : Publication) (m : Objects) : Prop :=
  forall b, m !! body_key p = Some b -> b = p.(pb_body).

(** What a fetch of [p]'s segment may answer when the object under its body's key is
    [b]: [whole] when it is the body, a refusal when it is not; and, in either case,
    that the store was not reached. Only two bodies of one digest are left open. *)
Definition fetch_answer (p : Publication) (whole : Fetched) (b : list byte) (r : result ColdError (option Fetched)) : Prop :=
  (b = p.(pb_body) -> r = Ok (Some whole) \/ r = Err ClUnavailable) /\
  (published_digest b <> published_digest p.(pb_body) -> r = Err ClBodyAltered \/ r = Err ClUnavailable).

Lemma decimal_inj a b : u64_ok a -> u64_ok b -> decimal a = decimal b -> a = b.
Proof. intros Ha Hb E. pose proof (parse_u64_decimal a Ha). pose proof (parse_u64_decimal b Hb). congruence. Qed.

Lemma hex16_inj a b : u64_ok a -> u64_ok b -> hex16 a = hex16 b -> a = b.
Proof.
  intros Ha Hb E. apply Hash_to_hex_inj in E; [|by rewrite !length_to_be_bytes]. by apply to_be_bytes_8_inj.
Qed.

Lemma manifest_key_inj p q :
  u16_ok p.(pb_shard) -> u16_ok q.(pb_shard) -> u64_ok p.(pb_segment) -> u64_ok q.(pb_segment) ->
  manifest_key p = manifest_key q -> p.(pb_shard) = q.(pb_shard) /\ p.(pb_segment) = q.(pb_segment).
Proof.
  intros H1 H2 H3 H4 E. unfold manifest_key in E. rewrite !app_assoc in E.
  apply app_inj_2 in E as [E _]; [|done].
  apply app_inj_2 in E as [E E2]; [|unfold hex16; by rewrite !length_Hash_to_hex, !length_to_be_bytes].
  apply app_inj_2 in E as [E _]; [|done]. apply app_inj_1 in E as [_ E]; [|done].
  unfold display_shard in E. apply app_inj_1 in E as [_ E]; [|done].
  split; [|by apply hex16_inj]. unfold u16_ok in *. apply decimal_inj; [unfold u64_ok; lia..|done].
Qed.

Context {S : Type} {OS : ObjectStore S} {OL : ObjectStoreLaws S}.

Lemma grows_inv (I : Objects -> Prop) puts m m' :
  (forall m m', os_peers m m' -> I m -> I m') ->
  (forall k b m, (k, b) ∈ puts -> m !! k = None -> I m -> I (<[k := b]> m)) ->
  grows puts m m' -> I m -> I m'.
Proof. intros Hp Hb. induction 1 as [|m m' m'' Hs _ IH|m k b m'' Hin Hn _ IH]; [done|eauto|eauto]. Qed.

Lemma addressed_put_body p m : addressed m -> addressed (<[body_key p := p.(pb_body)]> m).
Proof.
  intros Ha q d b Hd. destruct (decide (body_key p = body_key_for q d)) as [E|Hne].
  - rewrite E, lookup_insert_eq. intros [= <-]. unfold body_key in E. symmetry in E.
    apply body_key_digest in E; [done|done|]. apply hash_parts_ok.
  - rewrite lookup_insert_ne by done. by apply Ha.
Qed.

Lemma addressed_put_manifest p b m : addressed m -> addressed (<[manifest_key p := b]> m).
Proof.
  intros Ha q d b' Hd. rewrite lookup_insert_ne; [by apply Ha|]. intros E. by eapply body_key_not_manifest.
Qed.

Lemma publish_addressed p m m' :
  (forall m m', os_peers m m' -> addressed m -> addressed m') -> in_commit_order p m m' -> addressed m -> addressed m'.
Proof.
  intros Hp (mid & H1 & H2) Ha. assert (Hmid : addressed mid).
  { eapply (grows_inv addressed); [exact Hp| |exact H1|exact Ha].
    intros k b m0 [= -> ->]%list_elem_of_singleton _. apply addressed_put_body. }
  destruct H2 as [->|[_ H2]]; [done|]. eapply (grows_inv addressed); [exact Hp| |exact H2|exact Hmid].
  intros k b m0 [= -> ->]%list_elem_of_singleton _. apply addressed_put_manifest.
Qed.

Lemma bodies_present_put_body p m : m !! body_key p = None -> bodies_present m -> bodies_present (<[body_key p := p.(pb_body)]> m).
Proof.
  intros Hn Hb sh sg env d mf Hs Hg Hm He. rewrite lookup_insert_ne in Hm; [|apply body_key_not_manifest].
  destruct (Hb sh sg env d mf Hs Hg Hm He) as [b Hbd]. exists b. by rewrite lookup_insert_ne by congruence.
Qed.

Lemma publish_segment_present mf records m m' :
  (forall m m', os_peers m m' -> bodies_present m -> bodies_present m') ->
  manifest_ok mf -> in_commit_order (cold_publication mf records) m m' -> bodies_present m -> bodies_present m'.
Proof.
  intros Hp Hmf (mid & H1 & H2) Hb. set (p := cold_publication mf records) in *.
  assert (Hmid : bodies_present mid).
  { eapply (grows_inv bodies_present); [exact Hp| |exact H1|exact Hb].
    intros k b m0 [= -> ->]%list_elem_of_singleton. apply bodies_present_put_body. }
  destruct H2 as [->|[Hbody H2]]; [done|].
  eapply (grows_inv (fun m => bodies_present m /\ is_Some (m !! body_key p))); [| |exact H2|done]; cbn beta.
  - intros m1 m2 Hm [H3 [b H4]]. split; [by eapply Hp|]. exists b. by eapply lookup_weaken, os_peers_mono.
  - intros k b0 m1 [= -> ->]%list_elem_of_singleton Hn [H3 [b H4]].
    split; [|exists b; rewrite lookup_insert_ne; [done|apply not_eq_sym, body_key_not_manifest]].
    intros sh sg env d mf' Hs Hg Hm He. rewrite lookup_insert_ne by (apply not_eq_sym, body_key_not_manifest).
    destruct (decide (manifest_key p = cold_manifest_key sh sg)) as [E|Hne].
    + rewrite E, lookup_insert_eq in Hm. injection Hm as <-.
      apply manifest_key_inj in E as [E1 E2]; [|apply Hmf|done|apply Hmf|done].
      cbn [p cold_publication pb_manifest pb_shard pb_segment] in *.
      assert (Hd : decode_envelope (encode_envelope (body_digest (encode_body records)) mf) =
                   Ok (body_digest (encode_body records), mf)).
      { apply decode_envelope_iff. split; [done|]. split; [apply hash_parts_ok|done]. }
      rewrite Hd in He. injection He as <- <-. exists b. rewrite <- H4. unfold body_key, body_key_for.
      cbn [pb_shard pb_segment pb_body p cold_publication]. by rewrite E1, E2.
    + rewrite lookup_insert_ne in Hm by done. by eapply H3.
Qed.

(** What a successful fetch read. *)
Lemma fetch_sound shard_ segment s f s' :
  fetch_segment shard_ segment s = (Ok (Some f), s') -> os_ok s ->
  let d := published_digest (encode_body f.(ft_records)) in
  objects s' !! cold_manifest_key shard_ segment = Some (encode_envelope d f.(ft_manifest)) /\
  objects s' !! body_key_for (MkPublication shard_ segment [] []) d = Some (encode_body f.(ft_records)) /\
  f.(ft_manifest).(m_shard) = shard_ /\ f.(ft_manifest).(m_segment) = segment /\
  f.(ft_manifest).(m_records) = Z.of_nat (length f.(ft_records)) /\ body_ok f.(ft_records) /\ manifest_ok f.(ft_manifest).
Proof.
  unfold fetch_segment. destruct (os_get _ s) as [[[env|]|] s1] eqn:E1; [|done..].
  destruct (decode_envelope env) as [[d m]|] eqn:Ed; [|done].
  destruct (negb _ || negb _) eqn:Ew; [done|]. destruct (os_get _ s1) as [[[body|]|] s2] eqn:E2; [|done..].
  intros [= H <-] Hok. apply os_get_law in E1 as (Hok1 & _ & L1); [|done].
  apply os_get_law in E2 as (_ & Hm2%os_peers_mono & L2); [|done].
  unfold check_body in H. case_bool_decide as Hd; [|done]. cbn [negb] in H.
  apply result_bind_ok in H as (rs & Hrs & H). apply cold_body_iff in Hrs as [-> Hb].
  destruct (Z.eqb_spec (as_u64 (Z.of_nat (length rs))) (m_records m)) as [Hn|]; [|done]. injection H as <-.
  cbn [ft_records ft_manifest]. change (published_digest (encode_body rs) = d) in Hd. rewrite Hd.
  apply decode_envelope_iff in Ed as (-> & _ & Hm). apply orb_false_iff in Ew as [W1 W2].
  rewrite as_u64_small in Hn by apply Hb. cbn zeta. split_and!; try done; try lia.
  by eapply lookup_weaken; [symmetry|].
Qed.

(** A publication leaves no other body under its key, when there was none and nobody
    else puts one there. *)
Lemma publish_only_this_body p m m' :
  (forall m m', os_peers m m' -> only_this_body p m -> only_this_body p m') ->
  in_commit_order p m m' -> only_this_body p m -> only_this_body p m'.
Proof.
  intros Hp (mid & H1 & H2) Ho. assert (Hmid : only_this_body p mid).
  { eapply (grows_inv (only_this_body p)); [exact Hp| |exact H1|exact Ho].
    intros k b m0 [= -> ->]%list_elem_of_singleton _ _ b'. rewrite lookup_insert_eq. by intros [= <-]. }
  destruct H2 as [->|[_ H2]]; [done|]. eapply (grows_inv (only_this_body p)); [exact Hp| |exact H2|exact Hmid].
  intros k b m0 [= -> ->]%list_elem_of_singleton _ Hm0 b'.
  rewrite lookup_insert_ne by (apply not_eq_sym, body_key_not_manifest). apply Hm0.
Qed.

(** A published segment is read back as it is stored, or the store did not answer. *)
Lemma fetch_published mf records s b r s' :
  manifest_ok mf -> body_ok records -> mf.(m_records) = Z.of_nat (length records) ->
  let p := cold_publication mf records in
  objects s !! manifest_key p = Some p.(pb_manifest) -> objects s !! body_key p = Some b -> os_ok s ->
  fetch_segment mf.(m_shard) mf.(m_segment) s = (r, s') ->
  os_ok s' /\ objects s ⊆ objects s' /\ fetch_answer p (MkFetched mf records) b r.
Proof.
  intros Hmf Hb Hn p Hm Hbody Hok. unfold fetch_segment.
  change (cold_manifest_key (m_shard mf) (m_segment mf)) with (manifest_key p).
  destruct (os_get (manifest_key p) s) as [[o|e] s1] eqn:E1; apply os_get_law in E1 as (Hok1 & Hm1%os_peers_mono & L1); try done.
  2: { intros [= <- <-]. split; [done|]. split; [done|]. split; by right. }
  rewrite (lookup_weaken _ _ _ _ Hm Hm1) in L1. subst o.
  assert (Hd : decode_envelope p.(pb_manifest) = Ok (published_digest (encode_body records), mf)).
  { apply decode_envelope_iff. split; [done|]. split; [apply hash_parts_ok|done]. }
  rewrite Hd, !Z.eqb_refl. cbn [negb orb].
  change (body_key_for _ _) with (body_key p). destruct (os_get (body_key p) s1) as [[o|e] s2] eqn:E2;
    apply os_get_law in E2 as (Hok2 & Hm2%os_peers_mono & L2); try done.
  2: { intros [= <- <-]. split; [done|]. split; [by etrans|]. split; by right. }
  assert (Hb2 : objects s2 !! body_key p = Some b) by (eapply lookup_weaken, Hm2; by eapply lookup_weaken).
  rewrite Hb2 in L2. subst o. intros [= <- <-]. split; [done|]. split; [by etrans|].
  unfold check_body, body_digest. split.
  - intros ->. cbn [p cold_publication pb_body]. rewrite bool_decide_true by done. cbn [negb]. left.
    rewrite (proj2 (cold_body_iff _ records)) by done. cbn [mbind result_bind].
    by rewrite as_u64_small, Hn, Z.eqb_refl by apply Hb.
  - intros Hne. rewrite bool_decide_false by exact Hne. by left.
Qed.

Lemma publish_segment_ok mf records attempts s r s' :
  publish_segment mf records attempts s = (r, s') -> os_ok s ->
  let p := cold_publication mf records in
  os_ok s' /\ in_commit_order p (objects s) (objects s') /\
  (is_ok r = true -> objects s' !! manifest_key p = Some p.(pb_manifest) /\ is_Some (objects s' !! body_key p)).
Proof.
  unfold publish_segment. destruct (publish _ attempts s) as [r1 s1] eqn:E. intros [= <- <-] Hok.
  apply publish_ok in E as (? & ? & Hr); [|done]. split; [done|]. split; [done|]. destruct r1; [|done]. intros _. split; apply Hr.
Qed.

End Kept.

(** ** The properties *)

(** C9 (a cold segment comes back). Over any object store that keeps its contract,
    once publishing a segment has succeeded there is one object under the key of its
    body's digest, and it decides what fetching the segment at any later time
    answers, whatever was added meanwhile. If it is the body, the manifest and the
    records come back byte for byte; if its digest is another, the fetch is refused
    as altered; or the store does not answer. Never a segment that is missing or
    malformed, or records that are not the ones published, unless two bodies have
    one digest. It is the body whenever nothing else was under the key before and no
    other writer puts anything else there, which the contract leaves open and the
    publication does not look at. *)
Theorem cold_segment_comes_back `{DL : DigestLaws} {S : Type} {OS : ObjectStore S} {OL : ObjectStoreLaws S}
    (mf : SegmentManifest) (records : list (list byte)) (attempts : Z) (s s1 : S) (o : Published) :
  manifest_ok mf -> body_ok records -> mf.(m_records) = Z.of_nat (length records) ->
  publish_segment mf records attempts s = (Ok o, s1) -> os_ok s ->
  let p := cold_publication mf records in
  exists b, objects s1 !! body_key p = Some b /\
    (forall s2 r s3, objects s1 ⊆ objects s2 -> os_ok s2 -> fetch_segment mf.(m_shard) mf.(m_segment) s2 = (r, s3) ->
       fetch_answer p (MkFetched mf records) b r) /\
    ((forall m m', os_peers m m' -> only_this_body p m -> only_this_body p m') -> only_this_body p (objects s) ->
     b = p.(pb_body)).
Proof.
  intros Hmf Hb Hn E Hok p. apply publish_segment_ok in E as (_ & Ho & Hs); [|done].
  destruct (Hs eq_refl) as [Hm [b Hbody]]. exists b. split; [done|]. split.
  - intros s2 r s3 Hsub Hok2 Hf. eapply fetch_published in Hf as (_ & _ & Hr); try done; by eapply lookup_weaken.
  - intros Hp Hs0. by eapply publish_only_this_body.
Qed.

(** No manifest without its body. Over any object store that keeps its contract and
    whose other writers keep these two things, publishing keeps them too, however it
    ends: every manifest in the store has its body, and a body's key names its
    digest. *)
Theorem no_manifest_without_its_body `{DL : DigestLaws} {S : Type} {OS : ObjectStore S} {OL : ObjectStoreLaws S}
    (mf : SegmentManifest) (records : list (list byte)) (attempts : Z) (s s' : S) (r : result ColdError Published) :
  (forall m m', os_peers m m' -> bodies_present m -> bodies_present m') ->
  (forall m m', os_peers m m' -> addressed m -> addressed m') ->
  manifest_ok mf -> publish_segment mf records attempts s = (r, s') -> os_ok s ->
  bodies_present (objects s) -> addressed (objects s) ->
  bodies_present (objects s') /\ addressed (objects s').
Proof.
  intros Hp Ha Hmf E Hok H1 H2. apply publish_segment_ok in E as (_ & Ho & _); [|done].
  split; [by eapply publish_segment_present|by eapply publish_addressed].
Qed.

(** What is fetched is what was committed. A fetch that succeeds, over any
    store that keeps its contract but may hold anything, returns a manifest that
    names the segment asked for and records that are, all of them and nothing
    else, the bytes of an object whose digest the manifest's object carries. *)
Theorem fetched_is_committed `{DL : DigestLaws} {S : Type} {OS : ObjectStore S} {OL : ObjectStoreLaws S}
    (shard_ : ShardIx) (segment : SegmentId) (s s' : S) (f : Fetched) :
  fetch_segment shard_ segment s = (Ok (Some f), s') -> os_ok s ->
  let d := published_digest (encode_body f.(ft_records)) in
  objects s' !! cold_manifest_key shard_ segment = Some (encode_envelope d f.(ft_manifest)) /\
  objects s' !! body_key_for (MkPublication shard_ segment [] []) d = Some (encode_body f.(ft_records)) /\
  f.(ft_manifest).(m_shard) = shard_ /\ f.(ft_manifest).(m_segment) = segment /\
  f.(ft_manifest).(m_records) = Z.of_nat (length f.(ft_records)) /\ body_ok f.(ft_records) /\ manifest_ok f.(ft_manifest).
Proof. intros H Hok. exact (fetch_sound shard_ segment s f s' H Hok). Qed.

Module Sample.
#[local] Existing Instance Register_Digest | 0.
#[local] Existing Instance Register_DigestLaws | 0.

Definition manifest : SegmentManifest :=
  MkManifest 1 7 2 2 Hash_ZERO [(DRecordId, Hash_ZERO)] Hash_ZERO Hash_ZERO 1 9 Algorithms_default.
Definition recs : list (list byte) := [lit "first"; lit "second"].

(** An object store in memory, on a bad afternoon. *)
Definition region : FaultyStore MemoryObjectStore := FaultyStore_new ∅ 11 StoreFaults_HOSTILE.
Definition region_laws : ObjectStoreLaws (FaultyStore MemoryObjectStore) := Faulty_laws.
Definition stored (s : FaultyStore MemoryObjectStore) : Objects := s.(fs_inner).
Lemma region_fine (s : FaultyStore MemoryObjectStore) : @os_ok _ _ region_laws s.
Proof. exact I. Qed.

Definition published := publish_segment manifest recs 5 region.
Definition fetched := fetch_segment 2 7 published.2.

Lemma published_ok : published = (Ok (Committed None), published.2).
Proof. rewrite (surjective_pairing published) at 1. f_equal; vm_compute; reflexivity. Qed.
Lemma fetched_ok : fetch_segment 2 7 published.2 = (Ok (Some (MkFetched manifest recs)), fetched.2).
Proof. unfold fetched. rewrite (surjective_pairing (fetch_segment 2 7 published.2)) at 1. f_equal; vm_compute; reflexivity. Qed.

Lemma manifest_is_ok : manifest_ok manifest.
Proof. by_evaluation. Qed.
Lemma alone (P : Objects -> Prop) : forall m m', @os_peers _ _ region_laws m m' -> P m -> P m'.
Proof. cbn. by intros m m' ->. Qed.
Lemma empty_addressed : addressed ∅.
Proof. intros p d b _. by rewrite lookup_empty. Qed.
Lemma empty_holds_nothing p : only_this_body p ∅.
Proof. intros b. by rewrite lookup_empty. Qed.
Lemma empty_present : bodies_present ∅.
Proof. intros sh sg env d mf _ _. unfold cold_manifest_key. by rewrite lookup_empty. Qed.

Lemma cold_segment_comes_back_witness :
  fetched.1 = Ok (Some (MkFetched manifest recs)) \/ fetched.1 = Err ClUnavailable.
Proof.
  destruct (cold_segment_comes_back (OL := region_laws) manifest recs 5 region published.2 (Committed None)) as (b & _ & Hf & Hb).
  - exact manifest_is_ok.
  - by_evaluation.
  - reflexivity.
  - exact published_ok.
  - exact (region_fine _).
  - destruct (Hf published.2 fetched.1 fetched.2 (reflexivity _) (region_fine _) (surjective_pairing _)) as [H _].
    apply H, Hb; [apply alone|exact (empty_holds_nothing _)].
Defined.

(** Other bytes under the body's key, put there first: the publication is reported as
    committed, and the segment cannot be read. *)
Definition squatted : MemoryObjectStore := {[body_key (cold_publication manifest recs) := lit "other bytes"]}.

Example a_squatted_body_is_found_out_later :
  let '(r, s) := publish_segment manifest recs 1 squatted in
  r = Ok (Committed None) /\ (fetch_segment 2 7 s).1 = Err ClBodyAltered.
Proof. vm_compute. split; reflexivity. Qed.

Lemma no_manifest_without_its_body_witness : bodies_present (stored published.2) /\ addressed (stored published.2).
Proof.
  apply (no_manifest_without_its_body (OL := region_laws) manifest recs 5 region published.2 (Ok (Committed None))).
  - apply alone.
  - apply alone.
  - exact manifest_is_ok.
  - exact published_ok.
  - exact (region_fine _).
  - exact empty_present.
  - exact empty_addressed.
Defined.

Lemma fetched_is_committed_witness :
  stored fetched.2 !! cold_manifest_key 2 7 = Some (encode_envelope (published_digest (encode_body recs)) manifest).
Proof.
  destruct (fetched_is_committed (OL := region_laws) 2 7 published.2 fetched.2 (MkFetched manifest recs) fetched_ok
              (region_fine _)) as [H _].
  cbn [ft_records ft_manifest] in H. exact H.
Defined.

End Sample.
