(* ===== verification/Tier.v ===== *)
(** * Hot and cold segments ([trailryx-store/src/tier.rs])

    The newest segments of each shard in memory, every sealed segment in the object
    store; a cold one is fetched and sealed again before it answers. *)

From S2P Require Import Prelude Bytes Ids Record Digest Merkle Completeness Segment Wire WireRecord Frame SimIo Walk Seal PackWriter PackComplete PackSound Query ObjectStore Publish Cold.

Inductive TierError :=
  | TrCold (e : ColdError)
  | TrNotPublished
  | TrUndecodable
  | TrManifestMismatch (published recomputed : SegmentManifest)
  | TrSeal (e : SealError).

Definition Policy_default : nat := 4.

(** A body has no version byte: the current version is tried first, then the first. *)
Definition decode_cold (bytes : list byte) : result TierError Record_ :=
  match decode_record bytes with
  | Ok r => Ok r
  | Err _ => map_err (fun _ => TrUndecodable) (decode_record_at bytes 1)
  end.

Section Tier.
Context `{D : Digest} {S : Type} {OS : ObjectStore S}.

Record Tier := MkTier {
  tr_cold : S;
  tr_hot : gmap (Z * Z) Segment;
  tr_keep_hot : nat;
  tr_warmed : Z;
}.

Definition tier_new (cold : S) (keep_hot : nat) : Tier := MkTier cold ∅ keep_hot 0.
Definition hot_count (t : Tier) : nat := size t.(tr_hot).

(** The decoded records, each with the link recomputed from the one before. *)
Fixpoint relink (link : Hash) (bodies : list (list byte)) : result TierError (list (Record_ * Hash)) :=
  match bodies with
  | [] => Ok []
  | bytes :: bodies' =>
      record ← decode_cold bytes;
      let link := chain_step link record.(seq) bytes in
      rest ← relink link bodies';
      Ok ((record, link) :: rest)
  end.

Definition rebuild (shard_ : ShardIx) (segment : SegmentId) (f : Fetched) : result TierError Segment :=
  rs ← relink f.(ft_manifest).(chain_before) f.(ft_records);
  rebuilt ← map_err TrSeal (seal segment shard_ f.(ft_manifest).(chain_before) rs);
  if negb (bool_decide (rebuilt.(manifest) = f.(ft_manifest)))
  then Err (TrManifestMismatch f.(ft_manifest) rebuilt.(manifest))
  else Ok rebuilt.

(** [warmed] is a [u64]. *)
Definition tier_warm (shard_ : ShardIx) (segment : SegmentId) (t : Tier) : result TierError Segment * Tier :=
  let '(r, cold) := fetch_segment shard_ segment t.(tr_cold) in
  let t := MkTier cold t.(tr_hot) t.(tr_keep_hot) t.(tr_warmed) in
  match r with
  | Err e => (Err (TrCold e), t)
  | Ok None => (Err TrNotPublished, t)
  | Ok (Some f) =>
      (rebuild shard_ segment f, MkTier t.(tr_cold) t.(tr_hot) t.(tr_keep_hot) (as_u64 (t.(tr_warmed) + 1)))
  end.

(** The segments of a shard that are hot, oldest first, and those to drop. *)
Definition hot_of (hot : gmap (Z * Z) Segment) (shard_ : Z) : list Z :=
  merge_sort Z.le (map snd (filter (fun k => k.1 = shard_) (map fst (map_to_list hot)))).
Definition to_drop (hot : gmap (Z * Z) Segment) (keep_hot : nat) (shard_ : Z) : list Z :=
  let segments := hot_of hot shard_ in take (length segments - keep_hot) segments.

(** The two loops of [evict]: the segments per shard first, then the removals. *)
Definition per_shard (hot : gmap (Z * Z) Segment) : list Z :=
  elements (list_to_set (map (fun kv => kv.1.1) (map_to_list hot)) : gset Z).

Definition evict_hot (hot : gmap (Z * Z) Segment) (keep_hot : nat) : gmap (Z * Z) Segment :=
  fold_left (fun m sh => fold_left (fun m sg => delete (sh, sg) m) (to_drop hot keep_hot sh) m) (per_shard hot) hot.

Definition evict (t : Tier) : Tier := MkTier t.(tr_cold) (evict_hot t.(tr_hot) t.(tr_keep_hot)) t.(tr_keep_hot) t.(tr_warmed).

Definition hold (t : Tier) (shard_ : ShardIx) (segment : SegmentId) (s : Segment) : Tier :=
  MkTier t.(tr_cold) (<[(shard_, segment) := s]> t.(tr_hot)) t.(tr_keep_hot) t.(tr_warmed).

Definition tier_publish (sealed : SealedSegment) (attempts : Z) (t : Tier) : result TierError unit * Tier :=
  let m := sealed.(ss_segment).(manifest) in
  let bodies := map encode_record (records sealed.(ss_segment)) in
  let '(r, cold) := publish_segment m bodies attempts t.(tr_cold) in
  let t := MkTier cold t.(tr_hot) t.(tr_keep_hot) t.(tr_warmed) in
  match r with
  | Err e => (Err (TrCold e), t)
  | Ok _ => (Ok tt, evict (hold t m.(m_shard) m.(m_segment) sealed.(ss_segment)))
  end.

(** The inner [None] is a panic of [query_segment]. *)
Definition tier_query (shard_ : ShardIx) (segment : SegmentId) (q : Query) (t : Tier) :
    result TierError (option Answer) * Tier :=
  match t.(tr_hot) !! (shard_, segment) with
  | Some held => (Ok (query_segment held q), t)
  | None =>
      match tier_warm shard_ segment t with
      | (Err e, t) => (Err e, t)
      | (Ok warmed, t) => (Ok (query_segment warmed q), evict (hold t shard_ segment warmed))
      end
  end.

End Tier.
Arguments Tier S : clear implicits.

(** ** Eviction *)

Section Evict.
Context `{D : Digest}.

Lemma lookup_drop_list (m : gmap (Z * Z) Segment) sh sgs k :
  fold_left (fun m sg => delete (sh, sg) m) sgs m !! k =
  if bool_decide (k.1 = sh /\ k.2 ∈ sgs) then None else m !! k.
Proof.
  revert m; induction sgs as [|sg sgs IH]; intros m; cbn [fold_left].
  - rewrite bool_decide_false; [done|]. intros [_ H]. by apply elem_of_nil in H.
  - rewrite IH. destruct k as [a b]. cbn [fst snd]. destruct (decide (a = sh /\ b ∈ sgs)) as [H|H].
    + rewrite !bool_decide_true; [done| |done]. split; [apply H|]. right. apply H.
    + rewrite (bool_decide_false (a = sh /\ b ∈ sgs)) by done.
      destruct (decide (a = sh /\ b = sg)) as [[-> ->]|Hne].
      * rewrite lookup_delete_eq, bool_decide_true; [done|]. split; [done|left].
      * rewrite lookup_delete_ne by naive_solver. rewrite bool_decide_false; [done|].
        intros [-> [->|?]%elem_of_cons]; naive_solver.
Qed.

Lemma lookup_drop_shards (f : Z -> list Z) (m : gmap (Z * Z) Segment) shs k :
  fold_left (fun m sh => fold_left (fun m sg => delete (sh, sg) m) (f sh) m) shs m !! k =
  if bool_decide (k.1 ∈ shs /\ k.2 ∈ f k.1) then None else m !! k.
Proof.
  revert m; induction shs as [|sh shs IH]; intros m; cbn [fold_left].
  - rewrite bool_decide_false; [done|]. intros [H _]. by apply elem_of_nil in H.
  - rewrite IH. destruct (decide (k.1 ∈ shs /\ k.2 ∈ f k.1)) as [H|H].
    + rewrite !bool_decide_true; [done| |done]. split; [right|]; apply H.
    + rewrite (bool_decide_false (k.1 ∈ shs /\ _)) by done. rewrite lookup_drop_list.
      destruct (decide (k.1 = sh /\ k.2 ∈ f sh)) as [[E1 E2]|Hne].
      * rewrite !bool_decide_true; [done| |done]. rewrite E1. split; [left|done].
      * rewrite !bool_decide_false; [done| |done]. intros [[E|?]%elem_of_cons Hk]; [apply Hne; by rewrite <- E at 2|by apply H].
Qed.

Lemma elem_of_hot_of hot sh sg : sg ∈ hot_of hot sh <-> is_Some (hot !! (sh, sg)).
Proof.
  unfold hot_of. rewrite merge_sort_Permutation, list_elem_of_fmap. split.
  - intros ([a b] & -> & [Ha Hk]%list_elem_of_filter). cbn in Ha. subst a.
    apply list_elem_of_fmap in Hk as ([k s] & E & Hk). cbn in E. subst k. exists s. by apply elem_of_map_to_list.
  - intros [s Hs]. exists (sh, sg). split; [done|]. apply list_elem_of_filter. split; [done|].
    apply list_elem_of_fmap. exists (sh, sg, s). split; [done|]. by apply elem_of_map_to_list.
Qed.

Lemma hot_of_NoDup hot sh : NoDup (hot_of hot sh).
Proof.
  unfold hot_of. rewrite merge_sort_Permutation. apply NoDup_fmap_2_strong.
  - intros [a b] [c d] [Ha _]%list_elem_of_filter [Hc _]%list_elem_of_filter. cbn in *. congruence.
  - apply NoDup_filter, NoDup_fst_map_to_list.
Qed.

Lemma hot_of_sorted hot sh : StronglySorted Z.le (hot_of hot sh).
Proof. apply (StronglySorted_merge_sort Z.le). Qed.

Lemma lookup_evict hot keep sh sg :
  evict_hot hot keep !! (sh, sg) = if bool_decide (sg ∈ to_drop hot keep sh) then None else hot !! (sh, sg).
Proof.
  unfold evict_hot. rewrite lookup_drop_shards. cbn [fst snd].
  destruct (decide (sg ∈ to_drop hot keep sh)) as [H|H].
  - rewrite !bool_decide_true; [done|done|]. split; [|done]. unfold per_shard. rewrite elem_of_elements, elem_of_list_to_set.
    assert (Hin : sg ∈ hot_of hot sh) by (unfold to_drop in H; eapply elem_of_submseteq; [exact H|apply submseteq_take]).
    apply elem_of_hot_of in Hin as [s Hs]. apply list_elem_of_fmap. exists (sh, sg, s). split; [done|].
    by apply elem_of_map_to_list.
  - rewrite !bool_decide_false; [done|done|]. by intros [_ ?].
Qed.

Lemma hot_of_evict hot keep sh : hot_of (evict_hot hot keep) sh ≡ₚ drop (length (hot_of hot sh) - keep) (hot_of hot sh).
Proof.
  pose proof (hot_of_NoDup hot sh) as Hnd. rewrite <- (take_drop (length (hot_of hot sh) - keep) (hot_of hot sh)) in Hnd.
  apply NoDup_app in Hnd as (_ & Hdisj & Hnd).
  apply NoDup_Permutation; [apply hot_of_NoDup|exact Hnd|]. intros sg.
  rewrite elem_of_hot_of, lookup_evict. fold (to_drop hot keep sh). split.
  - case_bool_decide as Hd; [by intros []|]. rewrite <- elem_of_hot_of. intros Hin.
    rewrite <- (take_drop (length (hot_of hot sh) - keep) (hot_of hot sh)), elem_of_app in Hin. by destruct Hin.
  - intros Hin. rewrite bool_decide_false by (intros Hd; by apply (Hdisj sg)).
    apply elem_of_hot_of. eapply elem_of_submseteq; [exact Hin|apply submseteq_drop].
Qed.

(** What eviction does: at most [keep] of a shard stay, none but its newest, and
    each as it was. *)
Lemma evict_spec hot keep sh :
  (length (hot_of (evict_hot hot keep) sh) <= keep)%nat /\
  evict_hot hot keep ⊆ hot /\
  (forall old new, is_Some (hot !! (sh, old)) -> evict_hot hot keep !! (sh, old) = None ->
     is_Some (evict_hot hot keep !! (sh, new)) -> old < new) /\
  ((length (hot_of hot sh) <= keep)%nat -> forall sg, evict_hot hot keep !! (sh, sg) = hot !! (sh, sg)).
Proof.
  split; [|split; [|split]].
  - rewrite hot_of_evict, length_drop. lia.
  - apply map_subseteq_spec. intros [a b] s. rewrite lookup_evict. by destruct (bool_decide _).
  - intros old new Ho Hd Hn. rewrite lookup_evict in Hd. case_bool_decide as Hdrop; [|by rewrite Hd in Ho; destruct Ho].
    apply elem_of_hot_of in Hn. rewrite hot_of_evict in Hn.
    pose proof (hot_of_sorted hot sh) as Hs. pose proof (hot_of_NoDup hot sh) as Hnd. unfold to_drop in Hdrop.
    rewrite <- (take_drop (length (hot_of hot sh) - keep) (hot_of hot sh)) in Hs, Hnd.
    apply NoDup_app in Hnd as (_ & Hdisj & _).
    assert (old <= new) by (by apply StronglySorted_app in Hs as [Hs _]; apply Hs).
    assert (old <> new) by (intros ->; by apply (Hdisj new)). lia.
  - intros Hl sg. rewrite lookup_evict. unfold to_drop. replace (_ - keep)%nat with O by lia.
    rewrite bool_decide_false; [done|]. intros H. by apply elem_of_nil in H.
Qed.

End Evict.

(** ** What the tier holds and what it published *)

Section Warm.
Context `{DL : DigestLaws}.

Lemma decode_cold_current r : record_ok r -> body_fits (encode_record r) -> decode_cold (encode_record r) = Ok r.
Proof.
  intros Hr Hf. unfold decode_cold, decode_record. change FRAME_VERSION with 2.
  rewrite decode_v2; [done|done|]. apply body_lists_ok. exact Hf.
Qed.

Lemma relink_history ix sg c recs :
  history ix sg c recs -> relink c.(chain_head) (map encode_record recs) = Ok (kept (entries c recs)).
Proof.
  revert c; induction recs as [|r recs IH]; intros c; [done|]. intros [Hst Hh]. cbn [map relink entries kept].
  destruct Hst as [Hr Hf _ _ Hsq _]. rewrite decode_cold_current by done. cbn [mbind result_bind].
  pose proof (IH _ Hh) as E. cbn [chain_append chain_head] in E. rewrite Hsq, E. cbn [mbind result_bind].
  unfold kept. cbn [map entry snd fst f_link]. by rewrite Hsq.
Qed.

Lemma seal_fields seg ix before rs s :
  seal seg ix before rs = Ok s -> s.(manifest).(m_segment) = seg /\ s.(manifest).(chain_before) = before.
Proof.
  unfold seal. destruct (match rs with [] => _ | _ => _ end); [done|]. cbn zeta. intros H.
  by apply result_bind_ok in H as ([] & _ & [= <-]).
Qed.

(** The object a segment is published as. *)
Definition publication_of (w : ShardIx * Sealed) : Publication :=
  cold_publication (sd_manifest w.2) (map encode_record (map fst w.2.(sd_rows))).

Definition fetched_of (w : ShardIx * Sealed) : Fetched :=
  MkFetched (sd_manifest w.2) (map encode_record (map fst w.2.(sd_rows))).

Definition was_written (w : ShardIx * Sealed) : Prop := u16_ok w.1 /\ written_segment w.1 w.2.

#[export] Instance was_written_dec w : Decision (was_written w).
Proof. unfold was_written. apply _. Defined.

Lemma written_body_ok w : was_written w -> body_ok (map encode_record (map fst w.2.(sd_rows))).
Proof.
  intros [_ [[_ _ _ Hn _] Hh _]]. split; [by rewrite !length_map|]. apply Forall_fmap.
  revert Hh. generalize (chain_resume (sd_before w.2) 0). induction (map fst (sd_rows w.2)) as [|r l IH]; intros c; [constructor|].
  intros [[_ Hf _ _ _ _] Hh]. constructor; [|by eapply IH]. unfold compose, body_fits, u32_ok, MAX_BODY_BYTES in *. lia.
Qed.

Lemma written_manifest w :
  was_written w -> let m := sd_manifest w.2 in
  manifest_ok m /\ m.(m_shard) = w.1 /\ m.(m_segment) = w.2.(sd_segment) /\
  m.(m_records) = Z.of_nat (length (map encode_record (map fst w.2.(sd_rows)))) /\
  records w.2.(sd_seal) = map fst w.2.(sd_rows).
Proof.
  intros [Hix [[Hs Hb Hr Hn E] _ _]]. cbn zeta. unfold sd_manifest.
  destruct (seal_inv _ _ _ _ _ E) as (H1 & H2 & _ & _ & _ & H3 & _). destruct (seal_fields _ _ _ _ _ E) as [H4 _].
  split; [by apply (seal_manifest_ok (sd_segment w.2) w.1 (sd_before w.2) (sd_rows w.2))|]. split_and!; try done. by rewrite H2, as_u64_small, !length_map.
Qed.

(** What was published is rebuilt as it was sealed. *)
Lemma rebuild_written w : was_written w -> rebuild w.1 w.2.(sd_segment) (fetched_of w) = Ok w.2.(sd_seal).
Proof.
  intros [_ [[_ _ _ _ E] Hh Hr]]. unfold rebuild, fetched_of. cbn [ft_manifest ft_records]. unfold sd_manifest.
  destruct (seal_fields _ _ _ _ _ E) as [_ ->].
  pose proof (relink_history _ _ _ _ Hh) as Hl. cbn [chain_resume chain_head] in Hl. rewrite Hl. cbn [mbind result_bind]. fold (journal_rows (sd_before w.2) (map fst (sd_rows w.2))).
  rewrite <- Hr, E. cbn [map_err mbind result_bind]. by rewrite bool_decide_true.
Qed.

(** ** What rebuilding checks *)

(** The strings hashed by relinking a list of bodies. *)
Fixpoint relink_strings (link : Hash) (bodies : list (list byte)) : list (list byte) :=
  match bodies with
  | [] => []
  | b :: bodies' =>
      match decode_cold b with
      | Ok r => chain_input link r.(seq) b :: relink_strings (chain_step link r.(seq) b) bodies'
      | Err _ => []
      end
  end.

(** All those a rebuilt segment's history root rests on. *)
Definition rebuild_strings (link : Hash) (bodies : list (list byte)) : list (list byte) :=
  relink_strings link bodies ++
  leaf_strings match relink link bodies with Ok rs => map snd rs | Err _ => [] end.

Lemma decode_cold_ok b r : decode_cold b = Ok r -> record_ok r.
Proof.
  unfold decode_cold. destruct (decode_record b) as [r'|] eqn:E; [intros [= <-]; by apply decode_record_sound in E as (_ & ? & _)|].
  destruct (decode_record_at b 1) as [r'|] eqn:E1; [intros [= <-]; by apply decode_v1_sound in E1 as (_ & ? & _)|done].
Qed.

Lemma relink_inj xs ys link b1 b2 rs1 rs2 :
  collision_free xs ys -> hash_ok link -> relink_strings link b1 ⊆ xs -> relink_strings link b2 ⊆ ys ->
  relink link b1 = Ok rs1 -> relink link b2 = Ok rs2 -> map snd rs1 = map snd rs2 -> b1 = b2.
Proof.
  intros Hcf. revert link b2 rs1 rs2; induction b1 as [|x b1 IH]; intros link [|y b2] rs1 rs2 Hl H1 H2 E1 E2 E; [done| | |].
  - cbn [relink] in *. apply result_bind_ok in E2 as (r & _ & E2). apply result_bind_ok in E2 as (rs & _ & [= <-]). by injection E1 as <-.
  - cbn [relink] in *. apply result_bind_ok in E1 as (r & _ & E1). apply result_bind_ok in E1 as (rs & _ & [= <-]). by injection E2 as <-.
  - cbn [relink relink_strings] in *. apply result_bind_ok in E1 as (r1 & D1 & E1). apply result_bind_ok in E1 as (l1 & R1 & [= <-]).
    apply result_bind_ok in E2 as (r2 & D2 & E2). apply result_bind_ok in E2 as (l2 & R2 & [= <-]).
    cbn [map snd] in E. injection E as Eh El. rewrite D1 in H1. rewrite D2 in H2.
    assert (Hin : chain_input link r1.(seq) x = chain_input link r2.(seq) y).
    { eapply collision_free_elem; [exact Hcf|apply H1; left|apply H2; left|]. by rewrite <- !chain_step_digest. }
    apply decode_cold_ok in D1, D2. apply chain_input_inj in Hin as (_ & Es & ->); [|done..|apply D1|apply D2].
    f_equal. rewrite <- Es in R2, H2. eapply IH; [apply chain_step_ok| | |exact R1|exact R2|exact El].
    + intros z Hz. apply H1. by right.
    + intros z Hz. apply H2. by right.
Qed.

(** Bodies that rebuild the manifest of a written segment are its records. *)
Lemma rebuild_pins w ix sg f s :
  was_written w -> rebuild ix sg f = Ok s -> f.(ft_manifest) = sd_manifest w.2 ->
  collision_free (rebuild_strings w.2.(sd_before) f.(ft_records))
    (rebuild_strings w.2.(sd_before) (fetched_of w).(ft_records)) ->
  f.(ft_records) = (fetched_of w).(ft_records) /\ s.(manifest) = sd_manifest w.2 /\ records s = map fst w.2.(sd_rows).
Proof.
  intros [_ [[_ Hb _ _ E] Hh Hr]] H Hm Hcf. unfold rebuild in H. rewrite Hm in H. unfold sd_manifest in *.
  destruct (seal_fields _ _ _ _ _ E) as [_ Hbf]. rewrite Hbf in H.
  apply result_bind_ok in H as (rs & R1 & H). apply result_bind_ok in H as (s' & Hs & H).
  apply map_err_ok in Hs. case_bool_decide as Hd; [|done]. injection H as ->.
  pose proof (relink_history _ _ _ _ Hh) as R2. cbn [chain_resume chain_head] in R2.
  fold (journal_rows (sd_before w.2) (map fst (sd_rows w.2))) in R2. rewrite <- Hr in R2.
  unfold rebuild_strings in Hcf. cbn [fetched_of ft_records] in *. rewrite R1, R2 in Hcf.
  destruct (seal_inv _ _ _ _ _ Hs) as (_ & _ & _ & _ & _ & Hrec & _ & Hh1).
  destruct (seal_inv _ _ _ _ _ E) as (_ & _ & _ & _ & _ & _ & _ & Hh2).
  assert (El : map snd rs = map snd w.2.(sd_rows)).
  { eapply mth_leaves_inj; [exact Hcf|apply sub_app_r, sub_refl|apply sub_app_r, sub_refl|].
    assert (Ml : forall l : list (Record_ * Hash), map leaf_hash (map snd l) = map (fun rl => leaf_hash rl.2) l) by (intros; by rewrite map_map).
    rewrite !Ml. congruence. }
  assert (Eb : f.(ft_records) = map encode_record (map fst w.2.(sd_rows))).
  { eapply relink_inj; [exact Hcf|exact Hb|apply sub_app_l, sub_refl|apply sub_app_l, sub_refl|exact R1|exact R2|exact El]. }
  split; [done|]. split; [done|]. rewrite Hrec. rewrite Eb, R2 in R1. by injection R1 as <-.
Qed.

Context {S : Type} {OS : ObjectStore S} {OL : ObjectStoreLaws S}.

Definition in_cold (m : Objects) (w : ShardIx * Sealed) : Prop :=
  m !! manifest_key (publication_of w) = Some (publication_of w).(pb_manifest) /\
  is_Some (m !! body_key (publication_of w)).

(** Under the key of the segment's body there is another string of its digest. *)
Definition twin_stored (m : Objects) (w : ShardIx * Sealed) : Prop :=
  exists b, m !! body_key (publication_of w) = Some b /\ b <> (publication_of w).(pb_body) /\
    published_digest b = published_digest (publication_of w).(pb_body).

(** Under the key of the segment's body there is a string of another digest. *)
Definition other_stored (m : Objects) (w : ShardIx * Sealed) : Prop :=
  exists b, m !! body_key (publication_of w) = Some b /\
    published_digest b <> published_digest (publication_of w).(pb_body).

(** The answers there are to a query of [w], a fetch of it included. *)
Definition answered {T : Type} (m : Objects) (w : ShardIx * Sealed) (whole : T) (r : result TierError T) : Prop :=
  r = Ok whole \/ r = Err (TrCold ClUnavailable) \/ (other_stored m w /\ r = Err (TrCold ClBodyAltered)) \/ twin_stored m w.

(** Other writers put a body under the key of its own digest only. *)
Definition others_address : Prop := forall m m', os_peers m m' -> addressed m -> addressed m'.

Record tier_ok (world : list (ShardIx * Sealed)) (t : Tier S) : Prop := {
  tk_world : Forall was_written world;
  tk_cold : Forall (in_cold (objects t.(tr_cold))) world;
  tk_hot : forall w s, w ∈ world -> t.(tr_hot) !! (w.1, w.2.(sd_segment)) = Some s ->
    s = w.2.(sd_seal) \/ twin_stored (objects t.(tr_cold)) w;
  tk_store : os_ok t.(tr_cold);
}.

Lemma in_cold_mono m m' w : m ⊆ m' -> in_cold m w -> in_cold m' w.
Proof. intros Hs [H1 [b H2]]. split; [by eapply lookup_weaken|]. exists b. by eapply lookup_weaken. Qed.

Lemma twin_stored_mono m m' w : m ⊆ m' -> twin_stored m w -> twin_stored m' w.
Proof. intros Hs (b & H1 & H2). exists b. split; [by eapply lookup_weaken|done]. Qed.

(** What a call on the cold store leaves of it. *)
Definition bucket_grows (t t' : Tier S) : Prop :=
  os_ok t'.(tr_cold) /\ objects t.(tr_cold) ⊆ objects t'.(tr_cold) /\
  (others_address -> addressed (objects t.(tr_cold)) -> addressed (objects t'.(tr_cold))).

Lemma warm_grows ix sg t r t' :
  tier_warm ix sg t = (r, t') -> os_ok t.(tr_cold) ->
  bucket_grows t t' /\ t'.(tr_hot) = t.(tr_hot) /\ t'.(tr_keep_hot) = t.(tr_keep_hot).
Proof.
  unfold tier_warm, fetch_segment, bucket_grows. intros E Hok.
  destruct (os_get (cold_manifest_key ix sg) (tr_cold t)) as [o s1] eqn:E1.
  apply os_get_law in E1 as (Hok1 & Hp1 & _); [|done]. pose proof (os_peers_mono _ _ Hp1) as Hm1.
  assert (Ha1 : others_address -> addressed (objects (tr_cold t)) -> addressed (objects s1)) by (intros H; by apply H).
  destruct o as [[env|]|e]; [|by injection E as <- <-..].
  destruct (decode_envelope env) as [[d m]|]; [|by injection E as <- <-].
  destruct (negb _ || negb _); [by injection E as <- <-|].
  destruct (os_get (body_key_for _ d) s1) as [o s2] eqn:E2.
  apply os_get_law in E2 as (Hok2 & Hp2 & _); [|done]. pose proof (os_peers_mono _ _ Hp2) as Hm2.
  assert (Ha2 : others_address -> addressed (objects (tr_cold t)) -> addressed (objects s2)).
  { intros H Ha. by eapply H, Ha1. }
  assert (Hm : objects (tr_cold t) ⊆ objects s2) by (by etrans).
  destruct o as [[body|]|e]; [|by injection E as <- <-..].
  destruct (check_body d m body) as [[f|]|e]; by injection E as <- <-.
Qed.

(** What holds stays when only the bucket grows. *)
Lemma tier_ok_grows world t t' : tier_ok world t -> bucket_grows t t' -> t'.(tr_hot) = t.(tr_hot) -> tier_ok world t'.
Proof.
  intros [Hwd Hc Hh _] (Hok & Hm & _) Hhot. split; [done| | |done].
  - eapply Forall_impl; [exact Hc|]. intros x. by apply in_cold_mono.
  - intros w s Hw. rewrite Hhot. intros Hs. destruct (Hh w s Hw Hs) as [|Ht]; [by left|right]. by eapply twin_stored_mono.
Qed.

Lemma warm_published world w t r t' :
  tier_ok world t -> w ∈ world -> tier_warm w.1 w.2.(sd_segment) t = (r, t') ->
  tier_ok world t' /\ answered (objects t'.(tr_cold)) w w.2.(sd_seal) r.
Proof.
  intros Hok Hw E. pose proof Hok as [Hwd Hcold _ Hst]. destruct (warm_grows _ _ _ _ _ E Hst) as ((_ & Hm & _) & Hh & _).
  split; [eapply tier_ok_grows; [exact Hok|by eapply warm_grows|done]|].
  rewrite Forall_forall in Hwd, Hcold. pose proof (Hwd w Hw) as Hwr. destruct (Hcold w Hw) as [Hc1 [b Hc2]].
  destruct (written_manifest w Hwr) as (Hmf & Hms & Hmg & Hmn & _). pose proof (written_body_ok w Hwr) as Hb.
  assert (Hstored : objects t'.(tr_cold) !! body_key (publication_of w) = Some b) by (by eapply lookup_weaken).
  unfold tier_warm in E. destruct (fetch_segment _ _ (tr_cold t)) as [q s1] eqn:Ef. rewrite <- Hms, <- Hmg in Ef.
  eapply fetch_published in Ef as (_ & _ & Hq1 & Hq2); try done. unfold answered.
  destruct (decide (b = (publication_of w).(pb_body))) as [Eb|Hne].
  - destruct (Hq1 Eb) as [->| ->]; injection E as <- <-; [left; by apply rebuild_written|by right; left].
  - destruct (decide (published_digest b = published_digest (publication_of w).(pb_body))) as [Ed|Hd].
    + right; right; right. by exists b.
    + destruct (Hq2 Hd) as [->| ->]; injection E as <- <-; [|by right; left]. right; right; left. split; [by exists b|done].
Qed.

Lemma evict_ok world t : tier_ok world t -> tier_ok world (evict t).
Proof.
  intros []. split; try done. cbn [evict tr_hot]. intros w s Hw Hs. apply tk_hot0; [done|].
  destruct (evict_spec (tr_hot t) (tr_keep_hot t) 0) as (_ & Hsub & _). by eapply lookup_weaken.
Qed.

Lemma hold_ok world t ix sg s :
  tier_ok world t ->
  (forall w, w ∈ world -> w.1 = ix -> w.2.(sd_segment) = sg -> s = w.2.(sd_seal) \/ twin_stored (objects t.(tr_cold)) w) ->
  tier_ok world (hold t ix sg s).
Proof.
  intros [] Hs. split; try done. cbn [hold tr_hot tr_cold]. intros w s' Hw.
  destruct (decide ((ix, sg) = (w.1, sd_segment w.2))) as [[= H1 H2]|Hne].
  - subst ix sg. rewrite lookup_insert_eq. intros [= <-]. by apply Hs.
  - rewrite lookup_insert_ne by done. by apply tk_hot0.
Qed.

Lemma query_ok world ix sg q t r t' :
  tier_ok world t -> tier_query ix sg q t = (r, t') ->
  tier_ok world t' /\
  forall w, w ∈ world -> w.1 = ix -> w.2.(sd_segment) = sg ->
    answered (objects t'.(tr_cold)) w (query_segment w.2.(sd_seal) q) r.
Proof.
  intros Hok E. unfold tier_query in E. destruct (tr_hot t !! (ix, sg)) as [held|] eqn:Eh.
  { injection E as <- <-. split; [done|]. intros w Hw <- <-.
    destruct (tk_hot _ _ Hok _ _ Hw Eh) as [->|]; [by left|by right; right; right]. }
  destruct (tier_warm ix sg t) as [q1 t1] eqn:Ew.
  assert (Hok1 : tier_ok world t1).
  { destruct (warm_grows _ _ _ _ _ Ew (tk_store _ _ Hok)) as (Hg & Hh & _). by eapply tier_ok_grows. }
  assert (Hw1 : forall w, w ∈ world -> w.1 = ix -> w.2.(sd_segment) = sg -> answered (objects t1.(tr_cold)) w w.2.(sd_seal) q1).
  { intros w Hw <- <-. by destruct (warm_published _ _ _ _ _ Hok Hw Ew). }
  destruct q1 as [warmed|e]; injection E as <- <-; (split; [|intros w Hw E1 E2; specialize (Hw1 w Hw E1 E2)]).
  - apply evict_ok, hold_ok; [done|]. intros w Hw E1 E2.
    destruct (Hw1 w Hw E1 E2) as [[= ->]|[|[[]|]]]; [by left|done|done|by right].
  - cbn [evict hold tr_cold]. destruct Hw1 as [[= ->]|[|[[]|]]]; [by left|done|done|by right; right; right].
  - done.
  - destruct Hw1 as [|[[= ->]|[[Ho [= ->]]|]]]; [done|by right; left|by right; right; left|by right; right; right].
Qed.

Lemma query_grows ix sg q t r t' :
  tier_query ix sg q t = (r, t') -> os_ok t.(tr_cold) ->
  bucket_grows t t' /\ t'.(tr_keep_hot) = t.(tr_keep_hot) /\
  (t'.(tr_hot) = t.(tr_hot) \/ exists hot, t'.(tr_hot) = evict_hot hot t.(tr_keep_hot)).
Proof.
  unfold tier_query. intros E Hok. destruct (tr_hot t !! (ix, sg)).
  { injection E as <- <-. split; [by split; [|split]|]. split; [done|by left]. }
  destruct (tier_warm ix sg t) as [[warmed|e] t1] eqn:Ew; apply warm_grows in Ew as (H1 & H2 & H3); try done;
    injection E as <- <-; (split; [done|]); (split; [done|]).
  - right. exists (<[(ix, sg) := warmed]> t1.(tr_hot)). cbn [evict hold tr_hot tr_keep_hot]. by rewrite H3.
  - by left.
Qed.

Lemma publish_grows w n h attempts t r t' :
  was_written w -> tier_publish (MkSealedSegment w.2.(sd_seal) n h) attempts t = (r, t') -> os_ok t.(tr_cold) ->
  bucket_grows t t' /\
  match r with
  | Ok _ => in_cold (objects t'.(tr_cold)) w /\
      t' = evict (hold (MkTier t'.(tr_cold) t.(tr_hot) t.(tr_keep_hot) t.(tr_warmed)) w.1 w.2.(sd_segment) w.2.(sd_seal))
  | Err _ => t' = MkTier t'.(tr_cold) t.(tr_hot) t.(tr_keep_hot) t.(tr_warmed)
  end.
Proof.
  intros Hw E Hok. destruct (written_manifest w Hw) as (_ & Hms & Hmg & _ & Hr). unfold tier_publish in E.
  cbn [ss_segment] in E. rewrite Hr in E. unfold sd_manifest in *. rewrite Hms, Hmg in E.
  destruct (publish_segment _ _ attempts (tr_cold t)) as [q s1] eqn:Ep.
  apply publish_segment_ok in Ep as (Hok1 & Ho & Hp); [|done].
  assert (Hm : objects (tr_cold t) ⊆ objects s1).
  { destruct Ho as (mid & G1%grows_mono & [->|[_ G2%grows_mono]]); [done|by etrans]. }
  assert (Hg : forall hot keep warmed, bucket_grows t (MkTier s1 hot keep warmed)).
  { intros. split; [done|]. split; [done|]. intros Ha. by eapply publish_addressed. }
  destruct q as [o|e]; injection E as <- <-; (split; [apply Hg|]); [|done].
  cbn [evict hold tr_cold]. split; [by apply Hp|done].
Qed.

Lemma publish_tier_ok world w n h attempts t r t' :
  tier_ok world t -> was_written w ->
  (forall w', w' ∈ world -> w'.1 = w.1 -> w'.2.(sd_segment) = w.2.(sd_segment) -> w' = w) ->
  tier_publish (MkSealedSegment w.2.(sd_seal) n h) attempts t = (r, t') ->
  tier_ok (if is_ok r then w :: world else world) t'.
Proof.
  intros Hok Hw Hu E. destruct (publish_grows w n h attempts t r t' Hw E (tk_store _ _ Hok)) as [Hg Hr].
  assert (Hmid : tier_ok world (MkTier t'.(tr_cold) t.(tr_hot) t.(tr_keep_hot) t.(tr_warmed))) by (by eapply tier_ok_grows).
  destruct r as [[]|e]; cbn [is_ok]; [|by rewrite Hr].
  destruct Hr as [Hcold Ht]. rewrite Ht. apply evict_ok.
  assert (Hheld : tier_ok world (hold (MkTier t'.(tr_cold) t.(tr_hot) t.(tr_keep_hot) t.(tr_warmed)) w.1 w.2.(sd_segment) w.2.(sd_seal))).
  { apply hold_ok; [done|]. intros w' Hw' E1 E2. left. by rewrite (Hu w'). }
  destruct Hheld as [H1 H2 H3 H4]. split; [by constructor|by constructor| |done].
  intros w' s' [->|Hw']%elem_of_cons; [|by apply H3]. cbn [hold tr_hot]. rewrite lookup_insert_eq. intros [= <-]. by left.
Qed.

(** ** Runs *)

(** What a deployment of a tier can do, over a bucket that first held [m0], with the
    segments it has published. *)
Inductive tier_run (m0 : Objects) : list (ShardIx * Sealed) -> Tier S -> Prop :=
  | run_new cold keep_hot : os_ok cold -> objects cold = m0 -> tier_run m0 [] (tier_new cold keep_hot)
  | run_publish world t w n h attempts r t' :
      tier_run m0 world t -> was_written w ->
      (forall w', w' ∈ world -> w'.1 = w.1 -> w'.2.(sd_segment) = w.2.(sd_segment) -> w' = w) ->
      tier_publish (MkSealedSegment w.2.(sd_seal) n h) attempts t = (r, t') ->
      tier_run m0 (if is_ok r then w :: world else world) t'
  | run_query world t ix sg q r t' :
      tier_run m0 world t -> tier_query ix sg q t = (r, t') -> tier_run m0 world t'.

Lemma tier_run_ok m0 world t :
  tier_run m0 world t -> tier_ok world t /\ (others_address -> addressed m0 -> addressed (objects t.(tr_cold))).
Proof.
  induction 1 as [cold keep Hok <-|world t w n h attempts r t' _ [IH Ha] Hw Hf E|world t ix sg q r t' _ [IH Ha] E].
  - split; [|done]. split; [constructor|constructor| |done]. by intros w s H%elem_of_nil.
  - split; [by eapply publish_tier_ok|]. intros Hp H0.
    destruct (publish_grows w n h attempts t r t' Hw E (tk_store _ _ IH)) as [(_ & _ & Hg) _]. by apply Hg, Ha.
  - split; [by eapply query_ok|]. intros Hp H0.
    destruct (query_grows _ _ _ _ _ _ E (tk_store _ _ IH)) as [(_ & _ & Hg) _]. by apply Hg, Ha.
Qed.

Lemma hot_of_empty sh : hot_of ∅ sh = [].
Proof. reflexivity. Qed.

Lemma tier_run_bound m0 world t sh : tier_run m0 world t -> (length (hot_of t.(tr_hot) sh) <= t.(tr_keep_hot))%nat.
Proof.
  assert (Hev : forall hot keep, (length (hot_of (evict_hot hot keep) sh) <= keep)%nat) by (intros hot keep; apply evict_spec).
  induction 1 as [cold keep _ _|world t w n h attempts r t' HR IH Hw _ E|world t ix sg q r t' HR IH E].
  - cbn [tier_new tr_hot tr_keep_hot]. rewrite hot_of_empty. cbn. lia.
  - apply tier_run_ok in HR as [HR _].
    destruct (publish_grows w n h attempts t r t' Hw E (tk_store _ _ HR)) as [_ Hr].
    destruct r; [destruct Hr as [_ ->]; cbn; apply Hev|by rewrite Hr].
  - apply tier_run_ok in HR as [HR _].
    destruct (query_grows _ _ _ _ _ _ E (tk_store _ _ HR)) as (_ & -> & [->|[hot ->]]); [done|apply Hev].
Qed.

End Warm.

(** ** The properties *)

(** C10 (hot or cold, one answer). In every state a tier can arrive at by publishing
    written segments and answering queries, over any object store that keeps its
    contract, the bucket holds one object under the key of a published segment's
    body, and a query of the segment returns exactly what querying the segment itself
    returns, whether it was in memory or was fetched and sealed again; or it reports
    that the store did not answer; or, when that object has another digest than the
    body, that the body was altered. Never a missing segment or body, an undecodable
    record, a manifest that does not match, or another answer; unless that object is
    another string of the body's very digest. It has the body's digest whenever
    that was so of every body in the bucket at first and other writers keep it so:
    the tier's own publications do. *)
Theorem hot_and_cold_answer_alike `{DL : DigestLaws} {S : Type} {OS : ObjectStore S} {OL : ObjectStoreLaws S}
    (m0 : Objects) (world : list (ShardIx * Sealed)) (t t' : Tier S) (ix : ShardIx) (sd : Sealed) (q : Query)
    (r : result TierError (option Answer)) :
  tier_run m0 world t -> (ix, sd) ∈ world -> tier_query ix sd.(sd_segment) q t = (r, t') ->
  let p := publication_of (ix, sd) in
  exists b, objects t'.(tr_cold) !! body_key p = Some b /\
    (r = Ok (query_segment sd.(sd_seal) q) \/ r = Err (TrCold ClUnavailable) \/
     (published_digest b <> published_digest p.(pb_body) /\ r = Err (TrCold ClBodyAltered)) \/
     (b <> p.(pb_body) /\ published_digest b = published_digest p.(pb_body))) /\
    ((forall m m', os_peers m m' -> addressed m -> addressed m') -> addressed m0 ->
     published_digest b = published_digest p.(pb_body)).
Proof.
  intros HR Hw E p. apply tier_run_ok in HR as [Hok Ha]. destruct (query_ok _ _ _ _ _ _ _ Hok E) as [Hok' Hq].
  pose proof (proj1 (Forall_forall _ _) (tk_cold _ _ Hok') _ Hw) as [_ [b Hb]]. exists b. split; [exact Hb|]. split.
  - destruct (Hq _ Hw eq_refl eq_refl) as [H|[H|[[(b' & Hb' & Hd) H]|(b' & Hb' & H)]]]; [by left|by right; left|..].
    + rewrite Hb in Hb'. injection Hb' as <-. by right; right; left.
    + rewrite Hb in Hb'. injection Hb' as <-. by right; right; right.
  - intros Hp H0. destruct (query_grows _ _ _ _ _ _ E (tk_store _ _ Hok)) as [(_ & _ & Hg) _].
    apply (Hg Hp (Ha Hp H0) p); [apply hash_parts_ok|exact Hb].
Qed.

(** The newest stay hot. In every such state no shard has more segments in
    memory than the policy keeps. Evicting changes no segment that stays, never
    drops a newer segment of a shard and keeps an older one, and drops nothing from
    a shard within the policy. *)
Theorem the_newest_stay_hot `{DL : DigestLaws} {S : Type} {OS : ObjectStore S} {OL : ObjectStoreLaws S}
    (m0 : Objects) (world : list (ShardIx * Sealed)) (t : Tier S) (hot : gmap (Z * Z) Segment) (keep_hot : nat) (sh : Z) :
  tier_run m0 world t ->
  (length (hot_of t.(tr_hot) sh) <= t.(tr_keep_hot))%nat /\
  evict_hot hot keep_hot ⊆ hot /\
  (forall old new, is_Some (hot !! (sh, old)) -> evict_hot hot keep_hot !! (sh, old) = None ->
     is_Some (evict_hot hot keep_hot !! (sh, new)) -> old < new) /\
  ((length (hot_of hot sh) <= keep_hot)%nat -> forall sg, evict_hot hot keep_hot !! (sh, sg) = hot !! (sh, sg)).
Proof. intros HR. split; [by eapply tier_run_bound|]. apply evict_spec. Qed.

(** C11 (tampering in the bucket is caught). Over any object store, holding any
    bytes at all: when warming a segment succeeds and the manifest it was checked
    against is that of a written segment, the one a signature or an anchor vouches
    for, the bytes fetched are the segment's records, all of them and in order,
    and so is what answers from then on; unless two of the strings hashed on the
    way collide. *)
Theorem tampering_in_the_bucket_is_caught `{DL : DigestLaws} {S : Type} {OS : ObjectStore S} {OL : ObjectStoreLaws S}
    (w : ShardIx * Sealed) (t t' : Tier S) (f : Fetched) (cold : S) (s : Segment) :
  was_written w -> os_ok t.(tr_cold) -> tier_warm w.1 w.2.(sd_segment) t = (Ok s, t') ->
  fetch_segment w.1 w.2.(sd_segment) t.(tr_cold) = (Ok (Some f), cold) ->
  objects t'.(tr_cold) !! cold_manifest_key w.1 w.2.(sd_segment) =
    Some (encode_envelope (published_digest (encode_body f.(ft_records))) f.(ft_manifest)) /\
  s.(manifest) = f.(ft_manifest) /\
  (f.(ft_manifest) = sd_manifest w.2 ->
   collision_free (rebuild_strings w.2.(sd_before) f.(ft_records))
     (rebuild_strings w.2.(sd_before) (fetched_of w).(ft_records)) ->
   f.(ft_records) = (fetched_of w).(ft_records) /\ records s = map fst w.2.(sd_rows)).
Proof.
  intros Hw Hok E Ef. unfold tier_warm in E. rewrite Ef in E. injection E as Hr <-.
  apply fetch_sound in Ef as (Hm & _); [|done]. split; [exact Hm|]. split.
  - unfold rebuild in Hr. apply result_bind_ok in Hr as (rs & _ & Hr). apply result_bind_ok in Hr as (s' & _ & Hr).
    case_bool_decide as Hd; [|done]. by injection Hr as <-.
  - intros Hf Hcf. by destruct (rebuild_pins w w.1 w.2.(sd_segment) f s Hw Hr Hf Hcf) as (? & _ & ?).
Qed.

Module Sample.
#[local] Existing Instance Register_Digest | 0.
#[local] Existing Instance Register_DigestLaws | 0.

Definition memory_laws : ObjectStoreLaws MemoryObjectStore := Memory_laws.
Definition contents (m : MemoryObjectStore) : Objects := m.
Lemma memory_fine (m : MemoryObjectStore) : @os_ok _ _ memory_laws m.
Proof. exact I. Qed.
Lemma bucket_alone : forall m m', @os_peers _ _ memory_laws m m' -> addressed m -> addressed m'.
Proof. cbn. by intros m m' ->. Qed.
Lemma empty_bucket_addressed : addressed ∅.
Proof. intros p d b _. by rewrite lookup_empty. Qed.

Definition w1 : ShardIx * Sealed := (0, PackComplete.Sample.segment1).
Definition w2 : ShardIx * Sealed := (0, PackComplete.Sample.segment2).
Definition sealed_of (w : ShardIx * Sealed) : SealedSegment := MkSealedSegment w.2.(sd_seal) 1 Hash_ZERO.

Lemma w1_written : was_written w1.
Proof. by_evaluation. Qed.
Lemma w2_written : was_written w2.
Proof. by_evaluation. Qed.

(** One segment hot, two published, the first evicted. *)
Definition t0 : Tier MemoryObjectStore := tier_new ∅ 1.
Definition t1 := (tier_publish (sealed_of w1) 1 t0).2.
Definition t2 := (tier_publish (sealed_of w2) 1 t1).2.

Lemma published1 : tier_publish (sealed_of w1) 1 t0 = (Ok tt, t1).
Proof. rewrite (surjective_pairing (tier_publish (sealed_of w1) 1 t0)). apply pair_equal_spec. split; [vm_compute; reflexivity|reflexivity]. Qed.
Lemma published2 : tier_publish (sealed_of w2) 1 t1 = (Ok tt, t2).
Proof. rewrite (surjective_pairing (tier_publish (sealed_of w2) 1 t1)). apply pair_equal_spec. split; [vm_compute; reflexivity|reflexivity]. Qed.

Lemma run2 : @tier_run _ _ _ memory_laws ∅ [w2; w1] t2.
Proof.
  apply (run_publish (OL := memory_laws) ∅ [w1] t1 w2 1 Hash_ZERO 1 (Ok tt) t2).
  - apply (run_publish (OL := memory_laws) ∅ [] t0 w1 1 Hash_ZERO 1 (Ok tt) t1).
    + apply (run_new (OL := memory_laws)); [exact (memory_fine _)|reflexivity].
    + exact w1_written.
    + intros w' H. by apply elem_of_nil in H.
    + exact published1.
  - exact w2_written.
  - intros w' ->%list_elem_of_singleton _ H. vm_compute in H. discriminate H.
  - exact published2.
Qed.

Definition q : Query := query_point DRunId (lit "run-1").
Definition cold_query := tier_query 0 1 q t2.

Lemma hot_and_cold_answer_alike_witness :
  hot_of t2.(tr_hot) 0 = [2] /\
  exists b, contents cold_query.2.(tr_cold) !! body_key (publication_of w1) = Some b /\
    published_digest b = published_digest (pb_body (publication_of w1)) /\
    (cold_query.1 = Ok (query_segment PackComplete.Sample.segment1.(sd_seal) q) \/
     cold_query.1 = Err (TrCold ClUnavailable) \/ b <> pb_body (publication_of w1)).
Proof.
  split; [vm_compute; reflexivity|].
  destruct (hot_and_cold_answer_alike (OL := memory_laws) ∅ [w2; w1] t2 cold_query.2 0 PackComplete.Sample.segment1 q cold_query.1) as (b & Hb & H & Ha).
  - exact run2.
  - right. left.
  - apply surjective_pairing.
  - pose proof (Ha bucket_alone empty_bucket_addressed) as Hd. exists b. split; [exact Hb|]. split; [exact Hd|].
    destruct H as [H|[H|[[Hne _]|[Hne _]]]]; [left; exact H|right; left; exact H|destruct (Hne Hd)|right; right; exact Hne].
Defined.

Lemma the_newest_stay_hot_witness : (length (hot_of t2.(tr_hot) 0) <= 1)%nat.
Proof. exact (proj1 (the_newest_stay_hot (OL := memory_laws) ∅ [w2; w1] t2 ∅ 1 0 run2)). Defined.

Definition warmed1 := tier_warm 0 1 t2.

Definition fetched1 := fetch_segment 0 1 t2.(tr_cold).

Lemma warmed1_ok : tier_warm 0 1 t2 = (Ok PackComplete.Sample.segment1.(sd_seal), warmed1.2).
Proof.
  unfold warmed1. rewrite (surjective_pairing (tier_warm 0 1 t2)) at 1. apply pair_equal_spec.
  split; [vm_compute; reflexivity|reflexivity].
Qed.
Lemma fetched1_ok : fetch_segment 0 1 t2.(tr_cold) = (Ok (Some (fetched_of w1)), fetched1.2).
Proof.
  unfold fetched1. rewrite (surjective_pairing (fetch_segment 0 1 t2.(tr_cold))) at 1. apply pair_equal_spec.
  split; [vm_compute; reflexivity|reflexivity].
Qed.

Lemma tampering_in_the_bucket_is_caught_witness :
  records PackComplete.Sample.segment1.(sd_seal) = map fst PackComplete.Sample.segment1.(sd_rows).
Proof.
  destruct (tampering_in_the_bucket_is_caught (OL := memory_laws) w1 t2 warmed1.2 (fetched_of w1) fetched1.2
              PackComplete.Sample.segment1.(sd_seal) w1_written (memory_fine _) warmed1_ok fetched1_ok) as (_ & _ & H).
  apply H; [reflexivity|]. apply collision_free_b_spec. vm_compute. reflexivity.
Defined.

(** A cold segment is dropped again as soon as it has answered, when the shard
    already keeps as many newer ones as the policy allows. *)
Lemma warmed_segment_is_not_kept :
  match cold_query.1 with Ok (Some a) => answer_len a = 2%nat | _ => False end /\
  hot_of cold_query.2.(tr_hot) 0 = [2] /\
  match (tier_query 0 1 q cold_query.2).1 with Ok _ => (tier_query 0 1 q cold_query.2).2.(tr_warmed) = 2 | _ => False end.
Proof. split; [vm_compute; reflexivity|]. split; vm_compute; reflexivity. Qed.

(** ** A journal of the first frame version *)

Definition old_record : Record_ :=
  with_delegation (stamp 0 3 1 (repeat x07 48) (sample_record 5 1000 1 "agent://acme/bot" "run-1" ToolCall)) None.
Definition old_link : Hash := chain_step (repeat x07 48) 1 (encode_fields old_record).
Definition old_file : list byte :=
  encode_segment_header 0 3 1000 ++ encode_frame_at (encode_fields old_record) old_link 1.

(** The file is read whole, and seals. *)
Lemma old_file_reads :
  walk_bytes old_file (After (repeat x07 48)) =
  Ok {| w_records := [(old_record, old_link)]; w_chain := MkChain old_link 1; w_good_bytes := length old_file;
        w_stopped := EndOfFile |}.
Proof. vm_compute. reflexivity. Qed.

Definition old_sealed : SealedSegment :=
  MkSealedSegment
    match seal 3 0 (repeat x07 48) [(old_record, old_link)] with
    | Ok s => s
    | Err _ => PackComplete.Sample.segment1.(sd_seal)
    end 1 old_link.

(** Published, its record is written in the current version, so that what comes
    back never rebuilds the manifest it was published with. *)
Lemma old_segment_cannot_be_warmed :
  is_ok (seal 3 0 (repeat x07 48) [(old_record, old_link)]) = true /\
  (tier_publish old_sealed 1 (tier_new (∅ : MemoryObjectStore) 0)).1 = Ok tt /\
  match (tier_query 0 3 q (tier_publish old_sealed 1
                             (tier_new (∅ : MemoryObjectStore) 0)).2).1 with
  | Err (TrManifestMismatch _ _) => True
  | _ => False
  end.
Proof. split; [vm_compute; reflexivity|]. split; [vm_compute; reflexivity|]. vm_compute. exact I. Qed.

End Sample.
