(* ===== verification/Ingest.v ===== *)
(** * What a source hands over ([trailryx-contracts/src/ingest.rs])

    Typed metadata beside classified payload parts; the source's own names for its
    events, compared and dropped. *)

From S2P Require Import Prelude Bytes Ids Record.

Record MetaDraft := MkMetaDraft {
  md_mapper : MapperVersion;
  md_tenant : TenantId;
  md_agent_id : AgentId;
  md_run_id : RunId;
  md_parent_run_id : option RunId;
  md_on_behalf_of : list PrincipalId;
  md_occurred_at : Untrusted Timestamp;
  md_decided_at : option (Untrusted Timestamp);
  md_event_type : EventType;
  md_severity : Severity;
  md_basis : Basis;
  md_verdict : option Verdict;
  md_error : option ErrorCode;
  md_latency_micros : option Z;
  md_tokens_in : option Z;
  md_tokens_out : option Z;
  md_cost_micros : option Z;
}.

Record PayloadPart := MkPart { pp_class : PayloadClass; pp_bytes : list byte }.

#[export] Instance PayloadPart_eq_dec : EqDecision PayloadPart.
Proof. solve_decision. Defined.

Definition PayloadPart_new (class : PayloadClass) (bytes : list byte) : PayloadPart := MkPart class bytes.

Definition PayloadPart_unmapped (bytes : list byte) : PayloadPart := PayloadPart_new Diagnostic bytes.

(** [Cursor(u64)]. *)
Abbreviation Cursor := Z (only parsing).

(** ** A source's name for one event *)

Definition SOURCE_KEY_MAX_BYTES : nat := 32.

Record SourceKey := MkSourceKey { sk_len : byte; sk_bytes : list byte }.

#[export] Instance SourceKey_eq_dec : EqDecision SourceKey.
Proof. solve_decision. Defined.

Definition SourceKey_new (raw : list byte) : option SourceKey :=
  if bool_decide (raw = []) || (SOURCE_KEY_MAX_BYTES <? length raw)%nat then None
  else Some (MkSourceKey (u8 (Z.of_nat (length raw)))
               (raw ++ repeat x00 (SOURCE_KEY_MAX_BYTES - length raw))).

Definition SourceKey_as_bytes (k : SourceKey) : list byte := take (Z.to_nat (u8v k.(sk_len))) k.(sk_bytes).

Record Correlation := MkCorrelation { co_id : SourceKey; co_parent : option SourceKey }.

Record Ingest := MkIngest {
  in_meta : MetaDraft;
  in_payload : list PayloadPart;
  in_correlation : option Correlation;
  in_cursor : Cursor;
}.

Definition payload_bytes (i : Ingest) : Z := foldr (fun p n => Z.of_nat (length p.(pp_bytes)) + n) 0 i.(in_payload).

(** ** Keys compare on their real length *)

Lemma SourceKey_new_bytes raw k : SourceKey_new raw = Some k -> SourceKey_as_bytes k = raw.
Proof.
  unfold SourceKey_new. case_bool_decide; [done|]. destruct (Nat.ltb_spec SOURCE_KEY_MAX_BYTES (length raw)) as [|Hl]; [done|].
  intros [= <-]. unfold SourceKey_as_bytes, SOURCE_KEY_MAX_BYTES in *. cbn [sk_len sk_bytes].
  rewrite u8v_u8_small, Nat2Z.id by lia. apply take_app_length.
Qed.

Lemma SourceKey_new_inj a b k : SourceKey_new a = Some k -> SourceKey_new b = Some k -> a = b.
Proof. intros Ha%SourceKey_new_bytes Hb%SourceKey_new_bytes. congruence. Qed.

Lemma SourceKey_new_none raw : SourceKey_new raw = None <-> raw = [] \/ (SOURCE_KEY_MAX_BYTES < length raw)%nat.
Proof.
  unfold SourceKey_new. case_bool_decide as E; cbn [orb]; [by split; [left|]|].
  destruct (Nat.ltb_spec SOURCE_KEY_MAX_BYTES (length raw)); split; naive_solver lia.
Qed.
