(* ===== verification/Aead.v ===== *)
(** * The cipher and the key source ([trailryx-erasure/src/aead.rs])

    The two primitives the vault does not implement, as classes with what the vault
    relies on, and the stand-ins the crate brings: counter mode over the digest with
    an encrypt-then-MAC tag, and predictable keys. *)

From S2P Require Import Prelude Bytes Ids Record Digest.

Definition KEY_BYTES : nat := 32.
Definition NONCE_BYTES : nat := 12.
Definition TAG_BYTES : nat := 16.

(** [Dek([u8; KEY_BYTES])]. *)
Abbreviation Dek := (list byte) (only parsing).

Class Aead (A : Type) := {
  aead_is_validated : A -> bool;
  aead_seal : A -> Dek -> list byte -> list byte -> list byte -> list byte;
  aead_open : A -> Dek -> list byte -> list byte -> list byte -> option (list byte);
}.

(** What is accepted under a key, a nonce and associated data is what was sealed
    under them. *)
Class AeadLaws (A : Type) {AE : Aead A} := {
  aead_opens : forall a key nonce aad ciphertext plaintext, length key = KEY_BYTES -> length nonce = NONCE_BYTES ->
    aead_open a key nonce aad ciphertext = Some plaintext <-> ciphertext = aead_seal a key nonce aad plaintext;
}.

Class KeySource (S : Type) := {
  keys_is_validated : S -> bool;
  fresh_dek : S -> Dek * S;
  fresh_nonce : S -> list byte * S;
}.

(** [Dek] and the nonce are arrays. *)
Class KeySourceLaws (S : Type) {KS : KeySource S} := {
  fresh_dek_length : forall s, length (fresh_dek s).1 = KEY_BYTES;
  fresh_nonce_length : forall s, length (fresh_nonce s).1 = NONCE_BYTES;
}.

(** ** Comparing a tag *)

Definition constant_time_eq (a b : list byte) : bool :=
  if negb (length a =? length b)%nat then false else digests_equal_loop a b 0 =? 0.

Lemma constant_time_eq_spec a b : constant_time_eq a b = true <-> a = b.
Proof.
  unfold constant_time_eq. destruct (Nat.eqb_spec (length a) (length b)) as [E|E]; cbn [negb].
  - by apply digests_equal_spec.
  - split; [done|]. by intros ->.
Qed.

(** ** Exclusive or of bytes *)

Definition xor_byte (x y : byte) : byte := u8 (Z.lxor (u8v x) (u8v y)).

Lemma lxor_u8_range x y : 0 <= Z.lxor (u8v x) (u8v y) < 256.
Proof. by apply (lxor_range 8); [|apply u8v_range..]. Qed.

Lemma u8v_xor x y : u8v (xor_byte x y) = Z.lxor (u8v x) (u8v y).
Proof. unfold xor_byte. apply u8v_u8_small, lxor_u8_range. Qed.

Lemma xor_byte_involutive k p : xor_byte k (xor_byte k p) = p.
Proof.
  unfold xor_byte. rewrite u8v_u8_small by apply lxor_u8_range.
  by rewrite <- Z.lxor_assoc, Z.lxor_nilpotent, Z.lxor_0_l, u8_u8v.
Qed.

Lemma zip_xor_involutive ks p : (length p <= length ks)%nat -> zip_with xor_byte ks (zip_with xor_byte ks p) = p.
Proof.
  revert ks. induction p as [|b p IH]; intros [|k ks] Hl; cbn in *; try done; [lia|].
  by rewrite xor_byte_involutive, IH by lia.
Qed.

(** ** The stand-in cipher *)

Inductive Sha384Ctr := MkSha384Ctr.

Section Stand_ins.
Context {D : Digest}.

(** [while out.len() < len], a digest a turn. *)
Fixpoint keystream_loop (fuel : nat) (key nonce : list byte) (len : nat) (counter : Z) (out : list byte) : list byte :=
  match fuel with
  | O => out
  | S fuel =>
      if (length out <? len)%nat then
        let block := lit "trailryx.ctr.v1" ++ key ++ nonce ++ to_le_bytes 8 counter in
        keystream_loop fuel key nonce len (counter + 1) (out ++ digest block)
      else out
  end.

Definition keystream (key nonce : list byte) (len : nat) : list byte :=
  take len (keystream_loop len key nonce len 0 []).

Definition ctr_tag (key nonce aad ciphertext : list byte) : list byte :=
  let block := lit "trailryx.tag.v1" ++ key ++ nonce ++ to_le_bytes 8 (Z.of_nat (length aad)) ++ aad
               ++ to_le_bytes 8 (Z.of_nat (length ciphertext)) ++ ciphertext in
  take TAG_BYTES (digest block).

Definition ctr_seal (key nonce aad plaintext : list byte) : list byte :=
  let out := zip_with xor_byte (keystream key nonce (length plaintext)) plaintext in
  out ++ ctr_tag key nonce aad out.

Definition ctr_open (key nonce aad ciphertext : list byte) : option (list byte) :=
  if (length ciphertext <? TAG_BYTES)%nat then None
  else
    let split := (length ciphertext - TAG_BYTES)%nat in
    let body := take split ciphertext in
    if negb (constant_time_eq (drop split ciphertext) (ctr_tag key nonce aad body)) then None
    else Some (zip_with xor_byte (keystream key nonce (length body)) body).

#[export] Instance Sha384Ctr_Aead : Aead Sha384Ctr := {
  aead_is_validated _ := false;
  aead_seal _ := ctr_seal;
  aead_open _ := ctr_open;
}.

(** ** Predictable keys *)

Record PredictableKeys := MkPredictableKeys { pk_counter : Z }.

Definition PredictableKeys_new : PredictableKeys := MkPredictableKeys 0.

(** [counter] is a [u64]. *)
Definition next_block (label : string) (s : PredictableKeys) : Hash * PredictableKeys :=
  let counter := as_u64 (s.(pk_counter) + 1) in
  (digest (lit "trailryx.predictable.v1" ++ lit label ++ to_le_bytes 8 counter), MkPredictableKeys counter).

#[export] Instance PredictableKeys_KeySource : KeySource PredictableKeys := {
  keys_is_validated _ := false;
  fresh_dek s := let '(block, s) := next_block "dek" s in (take KEY_BYTES block, s);
  fresh_nonce s := let '(block, s) := next_block "nonce" s in (take NONCE_BYTES block, s);
}.

(** ** They do what the vault relies on *)

Context {DL : DigestLaws D}.

Lemma length_digest data : length (digest data) = 48%nat.
Proof. apply digest_ok. Qed.

Lemma keystream_loop_long fuel key nonce len counter out :
  (len <= length out + fuel)%nat -> (len <= length (keystream_loop fuel key nonce len counter out))%nat.
Proof.
  revert counter out. induction fuel as [|fuel IH]; intros counter out Hl; cbn [keystream_loop]; [lia|].
  destruct (Nat.ltb_spec (length out) len); [|done]. apply IH. rewrite length_app, length_digest. lia.
Qed.

(** The loop ends with enough key: its [take] cuts to the length asked for. *)
Lemma length_keystream key nonce len : length (keystream key nonce len) = len.
Proof.
  unfold keystream. rewrite length_take. assert (H := keystream_loop_long len key nonce len 0 []). cbn in H. lia.
Qed.

Lemma length_ctr_tag key nonce aad ciphertext : length (ctr_tag key nonce aad ciphertext) = TAG_BYTES.
Proof. unfold ctr_tag. rewrite length_take, length_digest. unfold TAG_BYTES. lia. Qed.

Lemma ctr_opens key nonce aad ciphertext plaintext :
  ctr_open key nonce aad ciphertext = Some plaintext <-> ciphertext = ctr_seal key nonce aad plaintext.
Proof.
  unfold ctr_open, ctr_seal. split.
  - destruct (Nat.ltb_spec (length ciphertext) TAG_BYTES) as [|Hl]; [done|].
    destruct (list_len_ge_app ciphertext (length ciphertext - TAG_BYTES)) as (body & tag & -> & Hb); [lia|].
    rewrite take_app_length', drop_app_length' by done.
    destruct (constant_time_eq _ _) eqn:E; cbn [negb]; [|done]. apply constant_time_eq_spec in E. intros [= <-].
    rewrite length_zip_with, length_keystream, Nat.min_id.
    rewrite zip_xor_involutive by (by rewrite length_keystream). by rewrite E.
  - intros ->. set (out := zip_with _ _ _).
    assert (Ho : length out = length plaintext) by (unfold out; rewrite length_zip_with, length_keystream; lia).
    rewrite length_app, length_ctr_tag. destruct (Nat.ltb_spec (length out + TAG_BYTES) TAG_BYTES); [lia|].
    replace (length out + TAG_BYTES - TAG_BYTES)%nat with (length out) by lia.
    rewrite take_app_length, drop_app_length. rewrite (proj2 (constant_time_eq_spec _ _)) by done. cbn [negb].
    rewrite Ho. unfold out. rewrite zip_xor_involutive by (by rewrite length_keystream). done.
Qed.

#[export] Instance Sha384Ctr_laws : AeadLaws Sha384Ctr.
Proof. constructor. intros [] key nonce aad c p _ _. apply ctr_opens. Qed.

#[export] Instance PredictableKeys_laws : KeySourceLaws PredictableKeys.
Proof.
  constructor; intros s; cbn; rewrite length_take; unfold KEY_BYTES, NONCE_BYTES;
    by rewrite length_digest.
Qed.

(** Two messages with one tag input have one key, nonce, associated data and text. *)
Lemma tag_input_inj k1 n1 a1 c1 k2 n2 a2 c2 :
  length k1 = length k2 -> length n1 = length n2 -> u64_ok (Z.of_nat (length a1)) -> u64_ok (Z.of_nat (length a2)) ->
  lit "trailryx.tag.v1" ++ k1 ++ n1 ++ to_le_bytes 8 (Z.of_nat (length a1)) ++ a1
    ++ to_le_bytes 8 (Z.of_nat (length c1)) ++ c1
  = lit "trailryx.tag.v1" ++ k2 ++ n2 ++ to_le_bytes 8 (Z.of_nat (length a2)) ++ a2
    ++ to_le_bytes 8 (Z.of_nat (length c2)) ++ c2 ->
  k1 = k2 /\ n1 = n2 /\ a1 = a2 /\ c1 = c2.
Proof.
  intros Hk Hn H1 H2 E. apply app_inv_head in E. apply app_inj_1 in E as [-> E]; [|done].
  apply app_inj_1 in E as [-> E]; [|done]. apply app_inj_1 in E as [El E]; [|by rewrite !length_to_le_bytes].
  apply (to_le_bytes_inj 8) in El; try (unfold u64_ok in *; lia).
  apply app_inj_1 in E as [-> E]; [|lia]. apply app_inj_1 in E as [_ ->]; [done|by rewrite !length_to_le_bytes].
Qed.

End Stand_ins.
