(* ===== verification/Envelope.v ===== *)
(** * What the object store holds of a payload
    ([trailryx-erasure/src/envelope.rs], and the blobs of [vault.rs])

    The envelope and what its ciphertext is bound to; the blob of classified parts
    it encrypts; the manifest of an erasure. *)

From S2P Require Import Prelude Bytes Ids Record Codec ObjectStore Ingest Aead.

(** [KeyId(Hash)]. *)
Abbreviation KeyId := (list byte) (only parsing).

Definition PAYLOAD_MAGIC : list byte := lit "TRXP".
Definition PAYLOAD_VERSION : byte := x01.
Definition MAX_WRAPPED_BYTES : Z := 8 * 1024.

Inductive EnvelopeError :=
  | EnvBadMagic
  | EnvUnknownVersion (v : byte)
  | EnvTruncated
  | EnvWrappedKeyTooLong (n : Z).

#[export] Instance EnvelopeError_eq_dec : EqDecision EnvelopeError.
Proof. solve_decision. Defined.

Record Envelope := MkEnvelope {
  env_kek : KeyId; env_nonce : list byte; env_wrapped_dek : list byte; env_ciphertext : list byte }.

#[export] Instance Envelope_eq_dec : EqDecision Envelope.
Proof. solve_decision. Defined.

(** [len() as u16] keeps the low sixteen bits. *)
Definition envelope_encode (e : Envelope) : list byte :=
  PAYLOAD_MAGIC ++ [PAYLOAD_VERSION] ++ e.(env_kek) ++ e.(env_nonce)
  ++ to_le_bytes 2 (Z.of_nat (length e.(env_wrapped_dek))) ++ e.(env_wrapped_dek) ++ e.(env_ciphertext).

(** [bytes[at..]]. *)
Definition rd_rest {E} : Reader E (list byte) := fun rest => Ok (rest, []).

Definition envelope_read : Reader EnvelopeError Envelope :=
  let take n := rd_take EnvTruncated n in
  magic ← take 4;
  if negb (bool_decide (magic = PAYLOAD_MAGIC)) then rd_fail EnvBadMagic
  else
    v ← take 1;
    let version := default x00 (head v) in
    if negb (bool_decide (version = PAYLOAD_VERSION)) then rd_fail (EnvUnknownVersion version)
    else
      kek ← take 48;
      nonce ← take (Z.of_nat NONCE_BYTES);
      len ← take 2;
      let len := from_le_bytes len in
      if MAX_WRAPPED_BYTES <? len then rd_fail (EnvWrappedKeyTooLong len)
      else
        wrapped_dek ← take len;
        ciphertext ← rd_rest;
        mret (MkEnvelope kek nonce wrapped_dek ciphertext).

Definition envelope_decode (bytes : list byte) : result EnvelopeError Envelope :=
  '(e, _) ← envelope_read bytes; Ok e.

Definition associated_data (record : RecordId) (class : PayloadClass) (plaintext_hash : Hash) (kek : KeyId) : list byte :=
  lit "trailryx.payload.v1" ++ to_le_bytes 16 record ++ lit (PayloadClass_as_str class) ++ [x00]
  ++ plaintext_hash ++ kek.

(** ** A blob of parts *)

Inductive VaultError :=
  | VaUnvalidated (what : string)
  | VaAdapter (e : AdapterError)
  | VaEnvelope (e : EnvelopeError)
  | VaMissing
  | VaWrongKey
  | VaWrongContent
  | VaErased
  | VaManifestMismatch
  | VaMalformed (what : string).

#[export] Instance VaultError_eq_dec : EqDecision VaultError.
Proof. solve_decision. Defined.

Definition PARTS_MAGIC : list byte := lit "TRXB" ++ [x01].

(** [name.len() as u8] and [parts.len() as u32] keep the low bits. *)
Definition encode_part (part : PayloadPart) : list byte :=
  let name := lit (PayloadClass_as_str part.(pp_class)) in
  to_le_bytes 1 (Z.of_nat (length name)) ++ name
  ++ to_le_bytes 8 (Z.of_nat (length part.(pp_bytes))) ++ part.(pp_bytes).

Definition encode_parts (parts : list PayloadPart) : list byte :=
  PARTS_MAGIC ++ to_le_bytes 4 (Z.of_nat (length parts)) ++ concat (map encode_part parts).

(** Past the end of a blob of [total] bytes; [checked_add] tells the two errors apart,
    the place being what has been read. *)
Definition blob_take (total n : Z) : Reader VaultError (list byte) := fun bs =>
  rd_take (VaMalformed (if u64_max <? total - Z.of_nat (length bs) + n then "length" else "truncated")) n bs.

Definition class_named (name : list byte) : option PayloadClass :=
  List.find (fun c => bool_decide (lit (PayloadClass_as_str c) = name)) PayloadClass_ALL.

Definition decode_part (total : Z) : Reader VaultError PayloadPart :=
  name_len ← blob_take total 1;
  name ← blob_take total (from_le_bytes name_len);
  if negb (valid_utf8 name) then rd_fail (VaMalformed "class name")
  else
    class ← rd_lift (ok_or (class_named name) (VaMalformed "unknown class"));
    len ← blob_take total 8;
    bytes ← blob_take total (from_le_bytes len);
    mret (PayloadPart_new class bytes).

(** What follows the last part is not looked at. *)
Definition decode_parts (blob : list byte) : result VaultError (list PayloadPart) :=
  let total := Z.of_nat (length blob) in
  '(parts, _) ← (magic ← blob_take total 5;
                 if negb (bool_decide (magic = PARTS_MAGIC)) then rd_fail (VaMalformed "not a payload blob")
                 else
                   count ← blob_take total 4;
                   get_items (decode_part total) (Z.to_nat (from_le_bytes count))) blob;
  Ok parts.

(** ** The manifest of an erasure *)

Definition MANIFEST_MAGIC : list byte := lit "TRXE" ++ [x01].

Definition encode_erasure_manifest (entries : list Hash) : list byte :=
  MANIFEST_MAGIC ++ to_le_bytes 4 (Z.of_nat (length entries)) ++ concat entries.

Definition decode_erasure_manifest (bytes : list byte) : result VaultError (list Hash) :=
  if (length bytes <? 9)%nat || negb (bool_decide (take 5 bytes = MANIFEST_MAGIC)) then
    Err (VaMalformed "not an erasure manifest")
  else
    let count := from_le_bytes (slice bytes 5 4) in
    if negb (Z.of_nat (length bytes) =? 9 + count * 48) then Err (VaMalformed "manifest length")
    else Ok (map (fun i => slice bytes (9 + i * 48) 48) (List.seq 0 (Z.to_nat count))).

(** ** The envelope's bytes *)

Record envelope_ok (e : Envelope) : Prop := {
  env_kek_ok : hash_ok e.(env_kek);
  env_nonce_ok : length e.(env_nonce) = NONCE_BYTES;
  env_wrapped_ok : Z.of_nat (length e.(env_wrapped_dek)) <= MAX_WRAPPED_BYTES;
}.

#[export] Instance envelope_ok_dec e : Decision (envelope_ok e).
Proof. decide_record. Defined.

(** A little-endian field read from its own bytes. *)
Lemma le_field n l : Z.of_nat (length l) = Z.of_nat n -> to_le_bytes n (from_le_bytes l) = l.
Proof. intros ->%Nat2Z.inj_iff%eq_sym. apply to_from_le_bytes. Qed.

Lemma le_field_range n l : Z.of_nat (length l) = Z.of_nat n -> 0 <= from_le_bytes l < 256 ^ Z.of_nat n.
Proof. intros ->%Nat2Z.inj_iff%eq_sym. apply from_le_bytes_range. Qed.

Lemma envelope_decode_encode e : envelope_ok e -> envelope_decode (envelope_encode e) = Ok e.
Proof.
  intros [Hk Hn Hw]. destruct e as [kek nonce w c]. cbn [env_kek env_nonce env_wrapped_dek env_ciphertext] in *.
  unfold envelope_decode, envelope_read, envelope_encode, mbind, rd_bind. cbn [env_kek env_nonce env_wrapped_dek env_ciphertext].
  rewrite (rd_take_reads _ 4) by done. rewrite bool_decide_true by done. cbn [negb].
  rewrite (rd_take_reads _ 1) by done. cbn [head default]. rewrite bool_decide_true by done. cbn [negb].
  rewrite (rd_take_reads _ 48) by (by rewrite Hk). rewrite (rd_take_reads _ (Z.of_nat NONCE_BYTES)) by (by rewrite Hn).
  rewrite (rd_take_reads _ 2) by (by rewrite length_to_le_bytes).
  unfold MAX_WRAPPED_BYTES in *. rewrite from_to_le_bytes, Z.mod_small by (cbn; lia).
  destruct (Z.ltb_spec (8 * 1024) (Z.of_nat (length w))); [lia|]. by rewrite rd_take_reads.
Qed.

Lemma envelope_decode_sound bytes e : envelope_decode bytes = Ok e -> bytes = envelope_encode e /\ envelope_ok e.
Proof.
  unfold envelope_decode. intros H. apply result_bind_ok in H as ([e' r] & H & [= ->]).
  unfold envelope_read in H. apply rd_bind_ok in H as (magic & b1 & H1 & H). apply rd_take_sound in H1 as [-> _]; [|lia].
  case_bool_decide as Em; cbn [negb] in H; [|done]. subst magic.
  apply rd_bind_ok in H as (v & b2 & H2 & H). apply rd_take_sound in H2 as [-> Hv]; [|lia].
  case_bool_decide as Ev; cbn [negb] in H; [|done]. destruct v as [|v [|]]; cbn [length] in Hv; try lia. cbn in Ev. subst v.
  apply rd_bind_ok in H as (kek & b3 & H3 & H). apply rd_take_sound in H3 as [-> Hk]; [|lia].
  apply rd_bind_ok in H as (nonce & b4 & H4 & H). apply rd_take_sound in H4 as [-> Hn]; [|lia].
  apply rd_bind_ok in H as (len & b5 & H5 & H). apply rd_take_sound in H5 as [-> Hl]; [|lia].
  destruct (Z.ltb_spec MAX_WRAPPED_BYTES (from_le_bytes len)) as [|Hm]; [done|].
  apply rd_bind_ok in H as (w & b6 & H6 & H). apply rd_take_sound in H6 as [-> Hw]; [|apply from_le_bytes_range].
  apply rd_bind_ok in H as (c & b7 & [= <- <-] & H). apply rd_ret_ok in H as [<- <-]. assert (Hl2 : length len = 2%nat) by lia. split.
  - unfold envelope_encode. cbn [env_kek env_nonce env_wrapped_dek env_ciphertext]. rewrite Hw.
    by rewrite le_field.
  - split; cbn; [unfold hash_ok, HASH_BYTES; lia|lia|by rewrite Hw].
Qed.

(** Two bindings of a ciphertext agree in everything they name. *)
Lemma associated_data_inj r1 c1 h1 k1 r2 c2 h2 k2 :
  u128_ok r1 -> u128_ok r2 -> hash_ok h1 -> hash_ok h2 -> hash_ok k1 -> hash_ok k2 ->
  associated_data r1 c1 h1 k1 = associated_data r2 c2 h2 k2 -> r1 = r2 /\ c1 = c2 /\ h1 = h2 /\ k1 = k2.
Proof.
  intros Hr1 Hr2 Hh1 Hh2 Hk1 Hk2 E. unfold associated_data, hash_ok in *. apply app_inv_head in E.
  apply app_inj_1 in E as [Er E]; [|by rewrite !length_to_le_bytes].
  apply (to_le_bytes_inj 16) in Er; [|exact Hr1|exact Hr2]. rewrite !app_assoc in E.
  apply app_inj_2 in E as [E ->]; [|congruence]. apply app_inj_2 in E as [E ->]; [|congruence].
  apply app_inj_2 in E as [E _]; [|done]. repeat split; [done|]. revert E. by destruct c1, c2; vm_compute.
Qed.

(** ** The blob's bytes *)

Definition part_ok (p : PayloadPart) : Prop := u64_ok (Z.of_nat (length p.(pp_bytes))).

Lemma class_named_name c : class_named (lit (PayloadClass_as_str c)) = Some c.
Proof. by destruct c. Qed.

Lemma class_named_sound name c : class_named name = Some c -> lit (PayloadClass_as_str c) = name.
Proof. intros H. apply find_some in H as [_ H]. by apply bool_decide_eq_true in H. Qed.

Lemma part_codec total : codec encode_part (decode_part total) part_ok.
Proof.
  split.
  - intros [c b] rest Hb. unfold part_ok in Hb. cbn [pp_bytes] in Hb.
    unfold encode_part, decode_part, blob_take, mbind, rd_bind. cbn [pp_class pp_bytes]. rewrite <- !app_assoc.
    rewrite (rd_take_reads _ 1) by (by rewrite length_to_le_bytes).
    assert (Hn : Z.of_nat (length (lit (PayloadClass_as_str c))) < 256) by (by destruct c).
    rewrite from_to_le_bytes, Z.mod_small by lia. rewrite rd_take_reads by done.
    replace (valid_utf8 (lit (PayloadClass_as_str c))) with true by (by destruct c). cbn [negb].
    rewrite class_named_name. cbn [ok_or rd_lift]. rewrite (rd_take_reads _ 8) by (by rewrite length_to_le_bytes).
    rewrite from_to_le_bytes, Z.mod_small by exact Hb. by rewrite rd_take_reads.
  - intros bs p rest H. unfold decode_part, blob_take in H.
    apply rd_bind_ok in H as (nl & b1 & H1 & H). apply rd_take_sound in H1 as [-> Hnl]; [|lia].
    apply rd_bind_ok in H as (name & b2 & H2 & H). apply rd_take_sound in H2 as [-> Hname]; [|apply from_le_bytes_range].
    destruct (valid_utf8 name); [|done]. cbn [negb] in H.
    apply rd_bind_ok in H as (c & b3 & H3 & H). apply rd_lift_ok in H3 as [H3 ->]. apply ok_or_ok, class_named_sound in H3.
    apply rd_bind_ok in H as (len & b4 & H4 & H). apply rd_take_sound in H4 as [-> Hlen]; [|lia].
    apply rd_bind_ok in H as (b & b5 & H5 & H). apply rd_take_sound in H5 as [-> Hb]; [|apply from_le_bytes_range].
    apply rd_ret_ok in H as [<- ->]. unfold encode_part, part_ok, PayloadPart_new. cbn [pp_class pp_bytes].
    rewrite H3, Hname, Hb, !le_field by lia. rewrite <- !app_assoc. split; [done|].
    by apply (le_field_range 8).
Qed.

Definition blob_ok (parts : list PayloadPart) : Prop := u32_ok (Z.of_nat (length parts)) /\ Forall part_ok parts.

#[export] Instance parts_ok_dec parts : Decision (blob_ok parts).
Proof. unfold blob_ok, part_ok. apply _. Defined.

(** A blob opens to the parts that were sealed, and nothing else opens to them but
    the blob and what may follow it. *)
Lemma decode_parts_iff blob parts :
  decode_parts blob = Ok parts <-> blob_ok parts /\ exists rest, blob = encode_parts parts ++ rest.
Proof.
  unfold decode_parts, encode_parts, blob_ok. split.
  - intros H. apply result_bind_ok in H as ([ps rest] & H & [= ->]). unfold blob_take in H.
    apply rd_bind_ok in H as (magic & b1 & H1 & H). apply rd_take_sound in H1 as [-> _]; [|lia].
    case_bool_decide as Em; cbn [negb] in H; [|done]. subst magic.
    apply rd_bind_ok in H as (count & b2 & H2 & H). apply rd_take_sound in H2 as [-> Hc]; [|lia].
    apply (codec_sound (items_codec _ (part_codec _))) in H as [-> [Hl Hf]].
    assert (El : Z.of_nat (length parts) = from_le_bytes count) by (assert (Hr := from_le_bytes_range count); lia).
    split; [split; [rewrite El; apply (le_field_range 4); lia|done]|]. exists rest.
    rewrite El, le_field, <- !app_assoc by lia. done.
  - intros [[Hl Hf] [rest ->]]. rewrite <- !app_assoc. unfold blob_take, mbind at 2, rd_bind.
    rewrite (rd_take_reads _ 5) by done. rewrite bool_decide_true by done. cbn [negb]. unfold mbind at 2.
    rewrite (rd_take_reads _ 4) by (by rewrite length_to_le_bytes). rewrite from_to_le_bytes, Z.mod_small by exact Hl.
    rewrite Nat2Z.id. by rewrite (codec_reads (items_codec _ (part_codec _))).
Qed.

(** ** The manifest's bytes *)

Lemma slices_concat (n : nat) (hs : list (list byte)) pre :
  Forall (fun h => length h = n) hs ->
  map (fun i => slice (pre ++ concat hs) (length pre + i * n) n) (List.seq 0 (length hs)) = hs.
Proof.
  intros Hf. revert pre. induction Hf as [|h hs Hh Hf IH]; intros pre; [done|]. cbn [length List.seq map concat].
  f_equal.
  - apply slice_app_mid; [lia|done].
  - rewrite <- (IH (pre ++ h)) at 2. rewrite <- seq_shift, map_map. apply map_ext. intros i.
    rewrite length_app, <- app_assoc. f_equal. lia.
Qed.

Lemma slices_join (n k : nat) (l : list byte) :
  length l = (k * n)%nat -> concat (map (fun i => slice l (i * n) n) (List.seq 0 k)) = l.
Proof.
  revert l. induction k as [|k IH]; intros l Hl; cbn [List.seq map concat]; [by destruct l|].
  destruct (list_len_ge_app l n) as (a & b & -> & Ha); [lia|]. rewrite length_app in Hl.
  f_equal.
  - by apply (slice_app_mid []).
  - rewrite <- seq_shift, map_map. etrans; [|apply (IH b); lia]. f_equal. apply map_ext. intros i. unfold slice.
    rewrite drop_app_ge by lia. do 2 f_equal. lia.
Qed.

Lemma erasure_manifest_roundtrip entries :
  u32_ok (Z.of_nat (length entries)) -> Forall hash_ok entries ->
  decode_erasure_manifest (encode_erasure_manifest entries) = Ok entries.
Proof.
  intros Hl Hf. unfold decode_erasure_manifest, encode_erasure_manifest.
  set (count := to_le_bytes 4 (Z.of_nat (length entries))).
  assert (Hc : length count = 4%nat) by apply length_to_le_bytes.
  assert (Hs : length (concat entries) = (length entries * 48)%nat).
  { clear Hl count Hc. induction Hf as [|h hs Hh Hf IH]; [done|]. cbn. rewrite length_app, IH.
    unfold hash_ok, HASH_BYTES in Hh. lia. }
  rewrite !length_app, Hc, Hs. change (length MANIFEST_MAGIC) with 5%nat.
  destruct (Nat.ltb_spec (5 + (4 + length entries * 48)) 9); [lia|]. cbn [orb].
  rewrite (take_app_length' MANIFEST_MAGIC) by done. rewrite bool_decide_true by done. cbn [negb].
  rewrite (slice_app_mid MANIFEST_MAGIC count) by done.
  assert (Ev : from_le_bytes count = Z.of_nat (length entries)) by (unfold count; by rewrite from_to_le_bytes, Z.mod_small by exact Hl).
  rewrite Ev.
  destruct (Z.eqb_spec (Z.of_nat (5 + (4 + length entries * 48))) (9 + Z.of_nat (length entries) * 48)); [|lia].
  cbn [negb]. rewrite Nat2Z.id. f_equal. rewrite app_assoc.
  replace 9%nat with (length (MANIFEST_MAGIC ++ count)) by (by rewrite length_app, Hc). by apply slices_concat.
Qed.
