(* ===== verification/Keys.v ===== *)
(** * Subjects and keys ([trailryx-erasure/src/subject.rs], the [KeyProvider] trait of
      [trailryx-contracts/src/contracts.rs], its fakes and its conformance suite)

    Whose keys are whose, and the custodian that keeps them: the trait with the
    laws the vault relies on, and the custodians of the source: one that destroys
    at once, one that schedules, one broken on purpose. *)

From S2P Require Import Prelude Bytes Ids Record Digest ObjectStore Aead Envelope.

(** ** Subjects *)

Definition SubjectHandleSpec : TokenSpec := {| MAX_BYTES := 64; allowed := segment_char |}.
Abbreviation SubjectHandle := (Token SubjectHandleSpec) (only parsing).

Definition SubjectHandle_parse (s : str) : result IdError SubjectHandle := parse SubjectHandleSpec s.

(** What [derive] hashes. *)
Definition derive_seed (label : string) (tenant : TenantId) (tail : list byte) : list byte :=
  lit "trailryx.kek.v1" ++ [x00] ++ lit label ++ [x00] ++ tenant.(as_str) ++ [x00] ++ tail.

Definition derive `{Digest} (label : string) (tenant : TenantId) (tail : list byte) : KeyId :=
  digest (derive_seed label tenant tail).

Definition kek_for_subject `{Digest} (tenant : TenantId) (subject : SubjectHandle) : KeyId :=
  derive "subject" tenant subject.(as_str).

Definition kek_for_record `{Digest} (tenant : TenantId) (record : RecordId) : KeyId :=
  derive "record" tenant (to_le_bytes 16 record).

(** ** The ledger *)

(** Ascending, as a [BTreeSet] of byte arrays iterates. *)
Definition key_le (a b : list byte) : Prop := le_bytes a b = true.
#[export] Instance key_le_dec : RelDecision key_le := fun a b => bool_dec (le_bytes a b) true.

Definition ascending (keys : gset (list byte)) : list KeyId := merge_sort key_le (elements keys).

(** [BTreeMap<SubjectHandle, BTreeSet<KeyId>>], by the handle's string. *)
Record KeyLedger := MkLedger { rows : gmap (list byte) (gset (list byte)) }.

Definition KeyLedger_new : KeyLedger := MkLedger ∅.

Definition row (l : KeyLedger) (subject : SubjectHandle) : gset (list byte) := default ∅ (l.(rows) !! subject.(as_str)).

(** The answer is whether the key is new. *)
Definition ledger_attribute (subject : SubjectHandle) (kek : KeyId) (l : KeyLedger) : bool * KeyLedger :=
  (bool_decide (kek ∉ row l subject), MkLedger (<[subject.(as_str) := {[kek]} ∪ row l subject]> l.(rows))).

Definition keys_of (l : KeyLedger) (subject : SubjectHandle) : list KeyId := ascending (row l subject).

Definition knows (l : KeyLedger) (subject : SubjectHandle) : bool := bool_decide (is_Some (l.(rows) !! subject.(as_str))).

Definition drop_subject (subject : SubjectHandle) (l : KeyLedger) : list KeyId * KeyLedger :=
  (keys_of l subject, MkLedger (delete subject.(as_str) l.(rows))).

Definition subjects (l : KeyLedger) : nat := size l.(rows).

(** ** The trait [KeyProvider] *)

Inductive Destroyed := Now | Already | Scheduled (effective_at : Timestamp) (reversible : bool).

#[export] Instance Destroyed_eq_dec : EqDecision Destroyed.
Proof. solve_decision. Defined.

Definition is_final (d : Destroyed) : bool := match d with Now | Already => true | Scheduled _ _ => false end.
Definition is_reversible (d : Destroyed) : bool := match d with Scheduled _ true => true | _ => false end.

Class KeyProvider (K : Type) := {
  kp_wrap : KeyId -> list byte -> K -> result AdapterError (list byte) * K;
  kp_unwrap : KeyId -> list byte -> K -> result AdapterError (list byte) * K;
  kp_destroy : KeyId -> K -> result AdapterError Destroyed * K;
  kp_exists : KeyId -> K -> bool;
}.

(** What the vault relies on. [kp_holds s k w d]: [w] was wrapped under [k] from [d],
    whatever became of [k]; [kp_gone s k]: [k] is destroyed for good. Both only
    grow. A final answer about a key that was ever used means it is gone, a gone
    key is neither used nor reissued, and destroying one leaves the others. *)
Class KeyProviderLaws (K : Type) {KP : KeyProvider K} := {
  kp_ok : K -> Prop;
  kp_holds : K -> KeyId -> list byte -> list byte -> Prop;
  kp_gone : K -> KeyId -> Prop;
  kp_after : K -> K -> Prop := fun s s' =>
    (kp_ok s -> kp_ok s') /\ (forall k w d, kp_holds s k w d -> kp_holds s' k w d) /\ (forall k, kp_gone s k -> kp_gone s' k);

  kp_wrap_law : forall k d s r s', kp_wrap k d s = (r, s') -> kp_ok s ->
    kp_after s s' /\ match r with Ok w => kp_holds s' k w d /\ ~ kp_gone s k | Err _ => True end;
  kp_unwrap_law : forall k w s r s', kp_unwrap k w s = (r, s') -> kp_ok s ->
    kp_after s s' /\
    match r with Ok d' => ~ kp_gone s k /\ forall d, kp_holds s k w d -> d' = d | Err _ => True end;
  kp_destroy_law : forall k s r s', kp_destroy k s = (r, s') -> kp_ok s ->
    kp_after s s' /\ (forall k', k' <> k -> kp_exists k' s' = kp_exists k' s) /\
    match r with
    | Ok a => kp_exists k s' = false /\ (is_final a = true -> forall w d, kp_holds s k w d -> kp_gone s' k)
    | Err _ => True
    end;
  kp_gone_law : forall s k, kp_ok s -> kp_gone s k -> kp_exists k s = false;
  kp_wrap_short : forall k d s w s', kp_wrap k d s = (Ok w, s') -> length d = KEY_BYTES ->
    Z.of_nat (length w) <= MAX_WRAPPED_BYTES;
}.

(** A custodian that always answers. *)
Class KeyProviderAnswers (K : Type) {KP : KeyProvider K} {KL : KeyProviderLaws K} := {
  kp_unwrap_answers : forall k w s d, kp_ok s -> kp_exists k s = true -> kp_holds s k w d ->
    exists s', kp_unwrap k w s = (Ok d, s');
}.

#[export] Instance kp_after_preorder {K} `{KL : KeyProviderLaws K} : PreOrder kp_after.
Proof. split; [intros s; unfold kp_after; tauto|]. intros a b c (H1 & H2 & H3) (H4 & H5 & H6). unfold kp_after. naive_solver. Qed.

(** ** The fakes *)

(** [data[i] ^ k[i % len] ^ 0x5a]. *)
Definition scramble (kek : KeyId) (data : list byte) : list byte :=
  imap (fun i b => xor_byte (xor_byte b (nth (i mod length kek) kek x00)) x5a) data.

Record MemoryKeyProvider := MkMemoryKeys { mk_live : gset (list byte); mk_tombstones : gset (list byte) }.

Definition MemoryKeyProvider_new : MemoryKeyProvider := MkMemoryKeys ∅ ∅.

#[export] Instance Memory_KeyProvider : KeyProvider MemoryKeyProvider := {
  kp_wrap kek dek s :=
    if bool_decide (kek ∈ s.(mk_tombstones)) then (Err (AdRejected "key id was destroyed"), s)
    else (Ok (scramble kek dek), MkMemoryKeys ({[kek]} ∪ s.(mk_live)) s.(mk_tombstones));
  kp_unwrap kek wrapped s :=
    if negb (bool_decide (kek ∈ s.(mk_live))) then (Err (AdRejected "no such key"), s)
    else (Ok (scramble kek wrapped), s);
  kp_destroy kek s :=
    let existed := bool_decide (kek ∈ s.(mk_live)) in
    (Ok (if existed then Now else Already), MkMemoryKeys (s.(mk_live) ∖ {[kek]}) ({[kek]} ∪ s.(mk_tombstones)));
  kp_exists kek s := bool_decide (kek ∈ s.(mk_live));
}.

(** The custodian that schedules. *)
Record SchedulingKeyProvider := MkScheduling {
  sp_live : gset (list byte);
  sp_pending : gmap (list byte) Timestamp;
  sp_tombstones : gset (list byte);
  sp_window_nanos : Z;
  sp_now : Timestamp;
  sp_reversible : bool;
}.

Definition SchedulingKeyProvider_new (now : Timestamp) (window_nanos : Z) : SchedulingKeyProvider :=
  MkScheduling ∅ ∅ ∅ window_nanos now true.

Definition sp_irreversible (s : SchedulingKeyProvider) : SchedulingKeyProvider :=
  MkScheduling s.(sp_live) s.(sp_pending) s.(sp_tombstones) s.(sp_window_nanos) s.(sp_now) false.

Definition sp_advance_to (now : Timestamp) (s : SchedulingKeyProvider) : SchedulingKeyProvider :=
  MkScheduling s.(sp_live) s.(sp_pending) s.(sp_tombstones) s.(sp_window_nanos) now s.(sp_reversible).

(** Everything due, gone; the answer counts it. *)
Definition sp_elapse (s : SchedulingKeyProvider) : nat * SchedulingKeyProvider :=
  let due := filter (fun p => p.2 <= s.(sp_now)) s.(sp_pending) in
  (size due,
   MkScheduling s.(sp_live) (s.(sp_pending) ∖ due) (dom due ∪ s.(sp_tombstones))
     s.(sp_window_nanos) s.(sp_now) s.(sp_reversible)).

Definition sp_cancel (kek : KeyId) (s : SchedulingKeyProvider) : bool * SchedulingKeyProvider :=
  if negb s.(sp_reversible) then (false, s)
  else
    match s.(sp_pending) !! kek with
    | Some _ =>
        (true, MkScheduling ({[kek]} ∪ s.(sp_live)) (delete kek s.(sp_pending)) s.(sp_tombstones)
                 s.(sp_window_nanos) s.(sp_now) s.(sp_reversible))
    | None => (false, s)
    end.

Definition sp_scheduled_count (s : SchedulingKeyProvider) : nat := size s.(sp_pending).

Definition saturating_add_u64 (a b : Z) : Z := Z.min (a + b) u64_max.

#[export] Instance Scheduling_KeyProvider : KeyProvider SchedulingKeyProvider := {
  kp_wrap kek dek s :=
    if bool_decide (kek ∈ s.(sp_tombstones)) || bool_decide (is_Some (s.(sp_pending) !! kek)) then
      (Err (AdRejected "key id is destroyed or scheduled"), s)
    else (Ok (scramble kek dek),
          MkScheduling ({[kek]} ∪ s.(sp_live)) s.(sp_pending) s.(sp_tombstones) s.(sp_window_nanos) s.(sp_now) s.(sp_reversible));
  kp_unwrap kek wrapped s :=
    if negb (bool_decide (kek ∈ s.(sp_live))) then (Err (AdRejected "no such key"), s)
    else (Ok (scramble kek wrapped), s);
  kp_destroy kek s :=
    if bool_decide (kek ∈ s.(sp_tombstones)) then (Ok Already, s)
    else
      match s.(sp_pending) !! kek with
      | Some at_ => (Ok (Scheduled at_ s.(sp_reversible)), s)
      | None =>
          if negb (bool_decide (kek ∈ s.(sp_live))) then (Ok Already, s)
          else
            let at_ := saturating_add_u64 s.(sp_now) s.(sp_window_nanos) in
            (Ok (Scheduled at_ s.(sp_reversible)),
             MkScheduling (s.(sp_live) ∖ {[kek]}) (<[kek := at_]> s.(sp_pending)) s.(sp_tombstones)
               s.(sp_window_nanos) s.(sp_now) s.(sp_reversible))
      end;
  kp_exists kek s := bool_decide (kek ∈ s.(sp_live));
}.

(** Broken on purpose: no tombstone. It has no laws. *)
Record ResurrectingKeyProvider := MkResurrecting { rp_live : gset (list byte) }.

#[export] Instance Resurrecting_KeyProvider : KeyProvider ResurrectingKeyProvider := {
  kp_wrap kek dek s := (Ok (scramble kek dek), MkResurrecting ({[kek]} ∪ s.(rp_live)));
  kp_unwrap kek wrapped s :=
    if negb (bool_decide (kek ∈ s.(rp_live))) then (Err (AdRejected "no such key"), s)
    else (Ok (scramble kek wrapped), s);
  kp_destroy kek s :=
    (Ok (if bool_decide (kek ∈ s.(rp_live)) then Now else Already), MkResurrecting (s.(rp_live) ∖ {[kek]}));
  kp_exists kek s := bool_decide (kek ∈ s.(rp_live));
}.

(** ** The conformance suite's [key_provider]

    A check's name and whether it passed; its detail is text. *)
Section Conformance.
Context {K : Type} `{KP : KeyProvider K}.

Definition CONFORMANCE_KEK : KeyId := repeat x07 HASH_BYTES.
Definition CONFORMANCE_DEK : list byte := lit "a data key, 32 bytes long......xx".

Definition check_destroyed_twice (d1 d2 : result AdapterError Destroyed) : string * bool :=
  match d1 with
  | Ok (Scheduled _ _) => ("destroying twice reports the same schedule"%string, bool_decide (d1 = d2))
  | _ => ("destroy is idempotent"%string, bool_decide (d2 = Ok Already))
  end.

Definition conformance_key_provider (s : K) : list (string * bool) * K :=
  let kek := CONFORMANCE_KEK in
  let dek := CONFORMANCE_DEK in
  match kp_wrap kek dek s with
  | (Err _, s) => ([("wrap succeeds"%string, false)], s)
  | (Ok wrapped, s) =>
      let '(round, s) := kp_unwrap kek wrapped s in
      let before := kp_exists kek s in
      let '(d1, s) := kp_destroy kek s in
      let gone := negb (kp_exists kek s) in
      let '(after, s) := kp_unwrap kek wrapped s in
      let '(d2, s) := kp_destroy kek s in
      let '(resurrect, s) := kp_wrap kek dek s in
      ([("wrap succeeds"%string, true);
        ("wrapping is not the identity"%string, negb (bool_decide (wrapped = dek)));
        ("unwrap returns the original"%string, bool_decide (round = Ok dek));
        ("the key exists before destruction"%string, before);
        ("destroy reports the key was there"%string,
          match d1 with Ok Now | Ok (Scheduled _ _) => true | _ => false end);
        ("the key is gone"%string, gone);
        ("unwrap fails from the moment of destruction"%string, negb (is_ok after));
        check_destroyed_twice d1 d2]
       ++ match d1 with
          | Ok (Scheduled effective_at _) => [("a scheduled destruction names a time"%string, 0 <? effective_at)]
          | _ => []
          end
       ++ [("a destroyed key id is never reissued"%string, negb (is_ok resurrect))], s)
  end.

Definition report_passed (checks : list (string * bool)) : bool := forallb snd checks.
Definition report_failures (checks : list (string * bool)) : list string := (filter (fun c => c.2 = false) checks).*1.

End Conformance.

(** ** Which key is whose *)

Definition no_nul (l : list byte) : Prop := Forall (fun b => b <> x00) l.

Lemma token_no_nul {sp} (t : Token sp) : sp.(allowed) = segment_char -> token_ok t -> no_nul t.(as_str).
Proof.
  intros Ea Ht. apply parse_ok_iff in Ht as (_ & _ & _ & Hs); [|rewrite Ea; exact segment_char_ascii].
  eapply Forall_impl; [exact Hs|]. rewrite Ea. by intros b Hb ->.
Qed.

Lemma app_nul_inj a b c d : no_nul a -> no_nul c -> a ++ x00 :: b = c ++ x00 :: d -> a = c /\ b = d.
Proof.
  intros Ha. revert c. induction Ha as [|x a Hx Ha IH]; intros [|y c] Hc E; apply Forall_cons in Hc || clear Hc.
  - by injection E.
  - cbn in E. injection E as E1 E2. destruct Hc as [Hy _]. congruence.
  - cbn in E. injection E as E1 E2. congruence.
  - cbn in E. injection E as -> E. destruct Hc as [_ Hc]. by destruct (IH c Hc E) as [-> ->].
Qed.

(** Two key derivations agree on a label, a tenant and a tail. *)
Lemma derive_seed_inj l1 t1 x1 l2 t2 x2 :
  no_nul (lit l1) -> no_nul (lit l2) -> token_ok t1 -> token_ok t2 ->
  derive_seed l1 t1 x1 = derive_seed l2 t2 x2 -> lit l1 = lit l2 /\ t1 = t2 /\ x1 = x2.
Proof.
  intros Hl1 Hl2 Ht1 Ht2 E. unfold derive_seed in E. apply app_inv_head, app_inv_head in E.
  apply (app_nul_inj (lit l1) _ (lit l2)) in E as [-> E]; [|done..].
  apply (app_nul_inj t1.(as_str) _ t2.(as_str)) in E as [E ->]; [|by apply token_no_nul..].
  destruct t1, t2. cbn in E. by subst.
Qed.

(** ** Ascending order *)

#[export] Instance key_le_total : Total key_le.
Proof.
  intros a b. unfold key_le. rewrite !le_bytes_not_lt. destruct (lt_bytes b a) eqn:E; [|by left].
  right. cbn. destruct (lt_bytes a b) eqn:E2; [|done]. exfalso.
  assert (H := lt_bytes_trans _ _ _ E E2). by rewrite lt_bytes_irrefl in H.
Qed.
#[export] Instance key_le_trans : Transitive key_le.
Proof. intros a b c. apply le_bytes_trans. Qed.

Lemma ascending_perm keys : ascending keys ≡ₚ elements keys.
Proof. apply merge_sort_Permutation. Qed.

Lemma elem_of_ascending k keys : k ∈ ascending keys <-> k ∈ keys.
Proof. by rewrite ascending_perm, elem_of_elements. Qed.

Lemma length_ascending keys : length (ascending keys) = size keys.
Proof. by rewrite ascending_perm. Qed.

(** ** The ledger *)

Lemma row_attribute s s' k l :
  row (ledger_attribute s k l).2 s' = if decide (s' = s) then {[k]} ∪ row l s else row l s'.
Proof.
  unfold ledger_attribute, row. cbn [snd rows]. destruct (decide (s' = s)) as [->|Hn].
  - by rewrite lookup_insert_eq.
  - rewrite lookup_insert_ne; [done|]. intros E. apply Hn. destruct s, s'. cbn in E. by subst.
Qed.

Lemma row_drop s s' l : row (drop_subject s l).2 s' = if decide (s' = s) then ∅ else row l s'.
Proof.
  unfold drop_subject, row. cbn [snd rows]. destruct (decide (s' = s)) as [->|Hn].
  - by rewrite lookup_delete_eq.
  - rewrite lookup_delete_ne; [done|]. intros E. apply Hn. destruct s, s'. cbn in E. by subst.
Qed.

(** ** The custodians meet the contract *)

Lemma scramble_involutive kek data : scramble kek (scramble kek data) = data.
Proof.
  apply list_eq. intros i. unfold scramble. rewrite !list_lookup_imap. destruct (data !! i) as [b|]; cbn; [|done].
  f_equal. apply u8v_inj. rewrite !u8v_xor. generalize (u8v (nth (i `mod` length kek) kek x00)), (u8v x5a), (u8v b).
  intros x y z. apply Z.bits_inj'. intros n _. rewrite !Z.lxor_spec. by destruct (Z.testbit x n), (Z.testbit y n), (Z.testbit z n).
Qed.

(** The laws' cases, on sets; a key taken out of one set is the key or another. *)
Ltac kp_cases :=
  repeat split; intros; destruct_and?; subst; try done;
  lazymatch goal with
  | |- bool_decide _ = false => rewrite bool_decide_false; set_solver
  | |- bool_decide _ = bool_decide _ => apply bool_decide_ext; set_solver
  | |- ?x ∈ _ =>
      first [ match goal with |- context [_ ∖ {[?y]}] => destruct (decide (x = y)); set_solver end
            | set_solver
            | idtac ]
  | |- _ => try set_solver
  end.

#[export] Program Instance MemoryKeys_laws : KeyProviderLaws MemoryKeyProvider := {
  kp_ok s := s.(mk_live) ## s.(mk_tombstones);
  kp_holds s k w d := k ∈ s.(mk_live) ∪ s.(mk_tombstones) /\ d = scramble k w;
  kp_gone s k := k ∈ s.(mk_tombstones);
}.
Next Obligation.
  cbn. intros k d s r s' E Hok. case_bool_decide as Ek; injection E as <- <-; cbn; [tauto|]. kp_cases. by rewrite scramble_involutive.
Qed.
Next Obligation.
  cbn. intros k w s r s' E Hok. case_bool_decide as Ek; cbn [negb] in E; injection E as <- <-; kp_cases.
Qed.
Next Obligation. cbn. intros k s r s' [= <- <-] Hok. cbn. kp_cases. Qed.
Next Obligation. cbn. intros s k Hok Hk. rewrite bool_decide_false; set_solver. Qed.
Next Obligation.
  cbn. intros k d s w s' E Hd. case_match; [done|]. injection E as <- _. unfold scramble. rewrite length_imap, Hd. by vm_compute.
Qed.

#[export] Instance MemoryKeys_answers : KeyProviderAnswers MemoryKeyProvider.
Proof. constructor. cbn. intros k w s d _ He [_ ->]. rewrite He. by eexists. Qed.

Definition sp_known (s : SchedulingKeyProvider) : gset (list byte) := s.(sp_live) ∪ dom s.(sp_pending) ∪ s.(sp_tombstones).

#[export] Program Instance Scheduling_laws : KeyProviderLaws SchedulingKeyProvider := {
  kp_ok s := s.(sp_live) ## s.(sp_tombstones) /\ s.(sp_live) ## dom s.(sp_pending) /\ dom s.(sp_pending) ## s.(sp_tombstones);
  kp_holds s k w d := k ∈ sp_known s /\ d = scramble k w;
  kp_gone s k := k ∈ s.(sp_tombstones);
}.
Next Obligation.
  cbn. intros k d s r s' E Hok. case_bool_decide as Ek; cbn [orb] in E; [injection E as <- <-; cbn; tauto|].
  case_bool_decide as Ep; injection E as <- <-; cbn; [tauto|].
  rewrite <- elem_of_dom in Ep. unfold sp_known. cbn. kp_cases. by rewrite scramble_involutive.
Qed.
Next Obligation.
  cbn. intros k w s r s' E Hok. case_bool_decide as Ek; cbn [negb] in E; injection E as <- <-; kp_cases.
Qed.
Next Obligation.
  cbn. intros k s r s' E Hok. case_bool_decide as Ek; [injection E as <- <-; kp_cases|].
  destruct (sp_pending s !! k) as [t|] eqn:Ep.
  { injection E as <- <-. apply elem_of_dom_2 in Ep. kp_cases. }
  apply not_elem_of_dom in Ep. case_bool_decide as El; cbn [negb] in E; injection E as <- <-; unfold sp_known; cbn.
  - rewrite dom_insert_L. kp_cases.
  - kp_cases.
Qed.
Next Obligation. cbn. intros s k Hok Hk. rewrite bool_decide_false; set_solver. Qed.
Next Obligation.
  cbn. intros k d s w s' E Hd. case_match; [done|]. injection E as <- _. unfold scramble. rewrite length_imap, Hd. by vm_compute.
Qed.

#[export] Instance Scheduling_answers : KeyProviderAnswers SchedulingKeyProvider.
Proof. constructor. cbn. intros k w s d _ He [_ ->]. rewrite He. by eexists. Qed.

(** The custodian's own events keep what it holds and what is gone. *)
Lemma sp_elapse_after s : kp_after s (sp_elapse s).2.
Proof.
  unfold kp_after, sp_elapse, sp_known. cbn. set (due := filter _ (sp_pending s)).
  assert (Hd : dom due ⊆ dom (sp_pending s)) by (apply dom_filter_subseteq).
  rewrite dom_difference_L. kp_cases. unfold sp_known in *. cbn in *. rewrite dom_difference_L.
  destruct (decide (k ∈ dom due)); set_solver.
Qed.

Lemma sp_cancel_after k s : kp_after s (sp_cancel k s).2.
Proof.
  unfold sp_cancel. destruct (sp_reversible s); cbn [negb]; [|reflexivity].
  destruct (sp_pending s !! k) as [t|] eqn:Ep; [|reflexivity]. apply elem_of_dom_2 in Ep.
  unfold kp_after. cbn. unfold sp_known. cbn. rewrite dom_delete_L. kp_cases.
Qed.

Lemma MemoryKeyProvider_new_ok : kp_ok MemoryKeyProvider_new.
Proof. cbn. set_solver. Qed.

Lemma SchedulingKeyProvider_new_ok now window : kp_ok (SchedulingKeyProvider_new now window).
Proof. cbn. rewrite dom_empty_L. set_solver. Qed.

(** ** The suite tells them apart *)

Example memory_conforms : report_passed (conformance_key_provider MemoryKeyProvider_new).1 = true.
Proof. by vm_compute. Qed.

Example scheduling_conforms : report_passed (conformance_key_provider (SchedulingKeyProvider_new 5 100)).1 = true.
Proof. by vm_compute. Qed.

Example resurrecting_is_caught :
  report_failures (conformance_key_provider (MkResurrecting ∅)).1 = ["a destroyed key id is never reissued"%string].
Proof. by vm_compute. Qed.
