(* ===== verification/Vault.v ===== *)
(** * The vault ([trailryx-erasure/src/vault.rs])

    Sealing payloads, opening them, attributing them to subjects, and making them
    unreachable by destroying keys. What an erasure promises and what it reports. *)

From S2P Require Import Prelude Bytes Ids Record Digest Completeness Publish ObjectStore Ingest Aead Envelope Keys.

(** ** What an erasure reports *)

Record Forgotten := MkForgotten {
  keys_destroyed : Z;
  keys_already_gone : Z;
  keys_scheduled : Z;
  completes_at : option Timestamp;
  fg_reversible : bool;
  fg_manifest : Hash;
  fg_manifest_size : Z;
  subject_key : KeyId;
  fg_tag : Hash;
  fg_draft : MetaDraft;
}.

Definition forgotten_is_complete (f : Forgotten) : bool := f.(keys_scheduled) =? 0.

(** The state: the four adapters and the ledger. *)
Record Vault (O K A Q : Type) := MkVault {
  v_tenant : TenantId;
  v_trust_domain : str;
  v_store : O;
  v_provider : K;
  v_aead : A;
  v_keys : Q;
  v_ledger : KeyLedger;
  v_erasures : Z;
}.
Arguments MkVault {O K A Q}.
Arguments v_tenant {O K A Q}.
Arguments v_trust_domain {O K A Q}.
Arguments v_store {O K A Q}.
Arguments v_provider {O K A Q}.
Arguments v_aead {O K A Q}.
Arguments v_keys {O K A Q}.
Arguments v_ledger {O K A Q}.
Arguments v_erasures {O K A Q}.

(** Most restrictive first. *)
Definition restrictiveness (class : PayloadClass) : Z :=
  match class with
  | Prompt => 0 | Completion => 1 | ToolArguments => 2 | ToolResult => 3 | Document => 4 | Diagnostic => 5
  end.

(** [min_by_key] gives the first of the least. *)
Definition min_class (classes : list PayloadClass) : option PayloadClass :=
  match classes with
  | [] => None
  | c :: l => Some (fold_left (fun m c => if restrictiveness c <? restrictiveness m then c else m) l c)
  end.

Definition Basis_default : Basis := {|
  policy_version := None; budget_remaining_micros := None; memory_ref := None; model := None;
  temperature_milli := None; max_tokens := None; prompt_hash := None; tool_manifest := [];
  identity_chain := []; delegation_proof := None |}.

(** What the tally of a [forget] holds while the keys are destroyed. The counts
    are [u32]s and count the keys of a set in memory. *)
Record Tally := MkTally {
  ta_destroyed : Z; ta_already : Z; ta_scheduled : Z;
  ta_completes_at : option Timestamp; ta_reversible : bool; ta_entries : list Hash }.

Definition Tally_zero : Tally := MkTally 0 0 0 None false [].

Section Vault.
Context {D : Digest}.

Definition erasure_tag (subject_key : KeyId) : Hash := digest (lit "trailryx.erasure.subject.v1" ++ subject_key).

Definition manifest_entry (subject_key destroyed : KeyId) : Hash :=
  digest (lit "trailryx.erasure.entry.v1" ++ subject_key ++ destroyed).

Definition latest (seen : option Timestamp) (effective_at : Timestamp) : Timestamp :=
  match seen with
  | Some seen => if effective_at <=? seen then seen else effective_at
  | None => effective_at
  end.

(** One turn of the loop, after the custodian's answer. *)
Definition tally_one (subject_key key : KeyId) (d : Destroyed) (t : Tally) : Tally :=
  let entries := t.(ta_entries) ++ [manifest_entry subject_key key] in
  match d with
  | Now => MkTally (t.(ta_destroyed) + 1) t.(ta_already) t.(ta_scheduled) t.(ta_completes_at) t.(ta_reversible) entries
  | Already => MkTally t.(ta_destroyed) (t.(ta_already) + 1) t.(ta_scheduled) t.(ta_completes_at) t.(ta_reversible) entries
  | Scheduled effective_at undoable =>
      MkTally t.(ta_destroyed) t.(ta_already) (t.(ta_scheduled) + 1)
        (Some (latest t.(ta_completes_at) effective_at)) (t.(ta_reversible) || undoable) entries
  end.

(** [Err] from a trust domain that names no agent. *)
Definition erasure_draft (tenant : TenantId) (trust_domain : str) (recorded_at : Timestamp) (tag manifest_hash : Hash)
    (keys scheduled : Z) : result VaultError MetaDraft :=
  agent_id ← map_err (fun _ => VaMalformed "trust domain")
               (AgentId_parse_strict (lit "agent://" ++ trust_domain ++ lit "/trailryx.erasure"));
  let run := Hash_to_hex (digest (lit "trailryx.erasure.run.v1" ++ tag ++ manifest_hash)) in
  run_id ← map_err (fun _ => VaMalformed "run id") (parse RunIdSpec (lit "erasure-" ++ take 32 run));
  Ok {| md_mapper := MapperVersion_UNMAPPED;
        md_tenant := tenant;
        md_agent_id := agent_id;
        md_run_id := run_id;
        md_parent_run_id := None;
        md_on_behalf_of := [];
        md_occurred_at := Untrusted_new recorded_at;
        md_decided_at := None;
        md_event_type := Erasure;
        md_severity := Notice;
        md_basis := {|
          policy_version := None; budget_remaining_micros := None; memory_ref := Some tag; model := None;
          temperature_milli := None; max_tokens := None; prompt_hash := None; tool_manifest := [];
          identity_chain := []; delegation_proof := None |};
        md_verdict := Some (if keys =? 0 then NotApplicable else if scheduled =? 0 then Allowed else Held);
        md_error := None;
        md_latency_micros := None;
        md_tokens_in := Some keys;
        md_tokens_out := Some scheduled;
        md_cost_micros := None |}.

Definition manifest_ref (f : Forgotten) : PayloadRef :=
  {| p_hash := f.(fg_manifest); size_bytes := f.(fg_manifest_size); p_class := Diagnostic; key_id := Hash_ZERO |}.

Section Adapters.
Context {O K A Q : Type} {OS : ObjectStore O} {KP : KeyProvider K} {AE : Aead A} {KS : KeySource Q}.
Abbreviation V := (Vault O K A Q) (only parsing).

Definition Vault_unvalidated (tenant : TenantId) (trust_domain : str) (store : O) (provider : K) (aead : A) (keys : Q) : V :=
  MkVault tenant trust_domain store provider aead keys KeyLedger_new 0.

Definition Vault_new (tenant : TenantId) (trust_domain : str) (store : O) (provider : K) (aead : A) (keys : Q) :
    result VaultError V :=
  if negb (aead_is_validated aead) then Err (VaUnvalidated "the cipher")
  else if negb (keys_is_validated keys) then Err (VaUnvalidated "the key source")
  else Ok (Vault_unvalidated tenant trust_domain store provider aead keys).

Definition set_store (store : O) (v : V) : V :=
  MkVault v.(v_tenant) v.(v_trust_domain) store v.(v_provider) v.(v_aead) v.(v_keys) v.(v_ledger) v.(v_erasures).
Definition set_provider (provider : K) (v : V) : V :=
  MkVault v.(v_tenant) v.(v_trust_domain) v.(v_store) provider v.(v_aead) v.(v_keys) v.(v_ledger) v.(v_erasures).
Definition set_keys (keys : Q) (v : V) : V :=
  MkVault v.(v_tenant) v.(v_trust_domain) v.(v_store) v.(v_provider) v.(v_aead) keys v.(v_ledger) v.(v_erasures).
Definition set_ledger (ledger : KeyLedger) (v : V) : V :=
  MkVault v.(v_tenant) v.(v_trust_domain) v.(v_store) v.(v_provider) v.(v_aead) v.(v_keys) ledger v.(v_erasures).

(** [{:032x}] of a [u128]. *)
Definition object_key (v : V) (record : RecordId) : str :=
  lit "payload/" ++ v.(v_tenant).(as_str) ++ lit "/" ++ Hash_to_hex (to_be_bytes 16 record).

(** Whether the store wrote or already had an object is not looked at. *)
Definition vault_seal (record : RecordId) (parts : list PayloadPart) (subject : option SubjectHandle) (v : V) :
    result VaultError PayloadRef * V :=
  let blob := encode_parts parts in
  let hash := digest blob in
  let class := default Diagnostic (min_class (map pp_class parts)) in
  let kek := kek_for_record v.(v_tenant) record in
  let v := match subject with
           | Some s => set_ledger (ledger_attribute s kek v.(v_ledger)).2 v
           | None => v
           end in
  let '(dek, keys) := fresh_dek v.(v_keys) in
  let '(nonce, keys) := fresh_nonce keys in
  let v := set_keys keys v in
  let aad := associated_data record class hash kek in
  let ciphertext := aead_seal v.(v_aead) dek nonce aad blob in
  match kp_wrap kek dek v.(v_provider) with
  | (Err e, provider) => (Err (VaAdapter e), set_provider provider v)
  | (Ok wrapped_dek, provider) =>
      let v := set_provider provider v in
      let envelope := MkEnvelope kek nonce wrapped_dek ciphertext in
      match put_if_absent (object_key v record) (envelope_encode envelope) v.(v_store) with
      | (Err e, store) => (Err (VaAdapter e), set_store store v)
      | (Ok _, store) =>
          (Ok {| p_hash := hash; size_bytes := Z.of_nat (length blob); p_class := class; key_id := kek |},
           set_store store v)
      end
  end.

(** After the key is unwrapped. *)
Definition open_with (v : V) (record : RecordId) (reference : PayloadRef) (envelope : Envelope) (dek : list byte) :
    result VaultError (list PayloadPart) :=
  if negb (length dek =? KEY_BYTES)%nat then Err (VaMalformed "wrapped key is the wrong size")
  else
    let aad := associated_data record reference.(p_class) reference.(p_hash) envelope.(env_kek) in
    blob ← ok_or (aead_open v.(v_aead) dek envelope.(env_nonce) aad envelope.(env_ciphertext)) VaWrongContent;
    if negb (bool_decide (digest blob = reference.(p_hash))) then Err VaWrongContent
    else decode_parts blob.

Definition vault_open (record : RecordId) (reference : PayloadRef) (v : V) : result VaultError (list PayloadPart) * V :=
  match os_get (object_key v record) v.(v_store) with
  | (Err e, store) => (Err (VaAdapter e), set_store store v)
  | (Ok None, store) => (Err VaMissing, set_store store v)
  | (Ok (Some bytes), store) =>
      let v := set_store store v in
      match envelope_decode bytes with
      | Err e => (Err (VaEnvelope e), v)
      | Ok envelope =>
          if negb (bool_decide (envelope.(env_kek) = reference.(key_id))) then (Err VaWrongKey, v)
          else if negb (kp_exists envelope.(env_kek) v.(v_provider)) then (Err VaErased, v)
          else
            match kp_unwrap envelope.(env_kek) envelope.(env_wrapped_dek) v.(v_provider) with
            | (Err _, provider) => (Err VaErased, set_provider provider v)
            | (Ok dek, provider) =>
                let v := set_provider provider v in (open_with v record reference envelope dek, v)
            end
      end
  end.

Definition attribute (reference : PayloadRef) (subject : SubjectHandle) (v : V) : bool * V :=
  let '(new, ledger) := ledger_attribute subject reference.(key_id) v.(v_ledger) in (new, set_ledger ledger v).

(** The loop of [forget]: the first refusal ends it. *)
Fixpoint destroy_all (subject_key : KeyId) (keys : list KeyId) (t : Tally) (provider : K) : result AdapterError Tally * K :=
  match keys with
  | [] => (Ok t, provider)
  | key :: keys =>
      match kp_destroy key provider with
      | (Err e, provider) => (Err e, provider)
      | (Ok d, provider) => destroy_all subject_key keys (tally_one subject_key key d t) provider
      end
  end.

(** Storing the manifest under its own hash, and looking at what was there. *)
Definition put_manifest (hash : Hash) (manifest : list byte) (store : O) : result VaultError unit * O :=
  let object_key := lit "erasure/" ++ Hash_to_hex hash in
  match put_if_absent object_key manifest store with
  | (Err e, store) => (Err (VaAdapter e), store)
  | (Ok (PoWritten, _), store) => (Ok tt, store)
  | (Ok (PoAlreadyExists, _), store) =>
      match os_get object_key store with
      | (Err e, store) => (Err (VaAdapter e), store)
      | (Ok (Some bytes), store) => (if bool_decide (digest bytes = hash) then Ok tt else Err VaManifestMismatch, store)
      | (Ok None, store) => (Err VaManifestMismatch, store)
      end
  end.

(** The row goes when every key is gone, and before the manifest is stored. *)
Definition forget (subject : SubjectHandle) (recorded_at : Timestamp) (v : V) : result VaultError Forgotten * V :=
  let subject_key := kek_for_subject v.(v_tenant) subject in
  let keys := keys_of v.(v_ledger) subject in
  match destroy_all subject_key keys Tally_zero v.(v_provider) with
  | (Err e, provider) => (Err (VaAdapter e), set_provider provider v)
  | (Ok t, provider) =>
      let ledger := if t.(ta_scheduled) =? 0 then (drop_subject subject v.(v_ledger)).2 else v.(v_ledger) in
      let entries := merge_sort key_le t.(ta_entries) in
      let manifest := encode_erasure_manifest entries in
      let manifest_hash := digest manifest in
      let tag := erasure_tag subject_key in
      let '(stored, store) := put_manifest manifest_hash manifest v.(v_store) in
      let v := MkVault v.(v_tenant) v.(v_trust_domain) store provider v.(v_aead) v.(v_keys) ledger (v.(v_erasures) + 1) in
      (_ ← stored;
       draft ← erasure_draft v.(v_tenant) v.(v_trust_domain) recorded_at tag manifest_hash
                 (t.(ta_destroyed) + t.(ta_already) + t.(ta_scheduled)) t.(ta_scheduled);
       Ok {| keys_destroyed := t.(ta_destroyed); keys_already_gone := t.(ta_already);
             keys_scheduled := t.(ta_scheduled); completes_at := t.(ta_completes_at);
             fg_reversible := t.(ta_reversible); fg_manifest := manifest_hash;
             fg_manifest_size := Z.of_nat (length manifest); subject_key := subject_key; fg_tag := tag;
             fg_draft := draft |}, v)
  end.

End Adapters.
End Vault.

(** ** What may happen to a vault *)

Section Runs.
Context {D : Digest} {O K A Q : Type} {OS : ObjectStore O} {KP : KeyProvider K} {AE : Aead A} {KS : KeySource Q}
  {KL : KeyProviderLaws K}.
Implicit Types (v : Vault O K A Q).

(** Its operations, with whatever answer; the custodian's clock and its operator;
    and the store, as [R] lets it change: replaced by a backup, or grown. *)
Inductive vault_step (R : O -> O -> Prop) : Vault O K A Q -> Vault O K A Q -> Prop :=
  | step_seal record parts subject v r v' : vault_seal record parts subject v = (r, v') -> vault_step R v v'
  | step_open record reference v r v' : vault_open record reference v = (r, v') -> vault_step R v v'
  | step_attribute reference subject v r v' : attribute reference subject v = (r, v') -> vault_step R v v'
  | step_forget subject recorded_at v r v' : forget subject recorded_at v = (r, v') -> vault_step R v v'
  | step_provider v provider : kp_after v.(v_provider) provider -> vault_step R v (set_provider provider v)
  | step_store v store : R v.(v_store) store -> vault_step R v (set_store store v).

Definition vault_run (R : O -> O -> Prop) := rtc (vault_step R).

Definition keeps_custody v v' : Prop :=
  v'.(v_tenant) = v.(v_tenant) /\ v'.(v_aead) = v.(v_aead) /\ kp_after v.(v_provider) v'.(v_provider).

#[local] Instance keeps_custody_preorder : PreOrder keeps_custody.
Proof.
  split; [intros v; by split; [|split]|]. intros a b c (T1 & A1 & P1) (T2 & A2 & P2). unfold keeps_custody.
  split; [congruence|]. split; [congruence|]. by etrans.
Qed.

(** *** Sealing, step by step *)

(** The class, the key and the state just before the key is wrapped. *)
Definition seal_class (parts : list PayloadPart) : PayloadClass := default Diagnostic (min_class (map pp_class parts)).

Definition sealed_ref v (record : RecordId) (parts : list PayloadPart) : PayloadRef :=
  {| p_hash := digest (encode_parts parts); size_bytes := Z.of_nat (length (encode_parts parts));
     p_class := seal_class parts; key_id := kek_for_record v.(v_tenant) record |}.

Definition seal_aad v (record : RecordId) (parts : list PayloadPart) : list byte :=
  associated_data record (seal_class parts) (digest (encode_parts parts)) (kek_for_record v.(v_tenant) record).

Lemma vault_seal_inv record parts subject v r v' :
  vault_seal record parts subject v = (r, v') -> kp_ok v.(v_provider) ->
  keeps_custody v v' /\
  (forall s k, k ∈ row v.(v_ledger) s -> k ∈ row v'.(v_ledger) s) /\
  (forall s, subject = Some s -> kek_for_record v.(v_tenant) record ∈ row v'.(v_ledger) s) /\
  match r with
  | Ok ref =>
      ref = sealed_ref v record parts /\
      exists dek nonce wrapped o store,
        kp_holds v'.(v_provider) ref.(key_id) wrapped dek /\
        (length dek = KEY_BYTES -> Z.of_nat (length wrapped) <= MAX_WRAPPED_BYTES) /\
        dek = (fresh_dek v.(v_keys)).1 /\ nonce = (fresh_nonce (fresh_dek v.(v_keys)).2).1 /\
        put_if_absent (object_key v record)
          (envelope_encode (MkEnvelope ref.(key_id) nonce wrapped
             (aead_seal v.(v_aead) dek nonce (seal_aad v record parts) (encode_parts parts)))) v.(v_store) = (Ok o, store) /\
        v'.(v_store) = store
  | Err (VaAdapter e) => v'.(v_store) = v.(v_store) \/ exists bytes, put_if_absent (object_key v record) bytes v.(v_store) = (Err e, v'.(v_store))
  | Err _ => False
  end.
Proof.
  intros E Hok. unfold vault_seal in E. set (kek := kek_for_record (v_tenant v) record) in *.
  set (v1 := match subject with Some s => _ | None => v end) in E.
  assert (H1 : v_tenant v1 = v_tenant v /\ v_aead v1 = v_aead v /\ v_provider v1 = v_provider v /\ v_store v1 = v_store v
               /\ v_keys v1 = v_keys v /\ (forall s k, k ∈ row v.(v_ledger) s -> k ∈ row v1.(v_ledger) s)
               /\ (forall s, subject = Some s -> kek ∈ row v1.(v_ledger) s)).
  { unfold v1. destruct subject as [s|]; cbn [set_ledger v_tenant v_aead v_provider v_store v_keys v_ledger]; [|naive_solver].
    split_and!; try done.
    - intros s' k Hk. rewrite row_attribute. case_decide; subst; set_solver.
    - intros s' [= <-]. rewrite row_attribute, decide_True by done. set_solver. }
  destruct H1 as (Ht & Ha & Hp & Hs & Hk & Hrow & Hsub). clearbody v1.
  destruct (fresh_dek (v_keys v1)) as [dek q1] eqn:Ed. destruct (fresh_nonce q1) as [nonce q2] eqn:En.
  cbn [set_keys v_tenant v_aead v_provider v_store] in E. rewrite Hk in Ed. rewrite Ed. cbn [fst snd]. rewrite En. cbn [fst].
  destruct (kp_wrap kek dek (v_provider v1)) as [[w|e] p] eqn:Ew; rewrite Hp in Ew;
    pose proof (kp_wrap_law _ _ _ _ _ Ew Hok) as (Hafter & Hw).
  - unfold object_key in E at 1. cbn [set_provider set_keys v_tenant v_store v_aead] in E. rewrite Ht, Hs, Ha in E.
    fold (object_key v record) in E.
    destruct (put_if_absent _ _ (v_store v)) as [[o|e] store] eqn:Ep; injection E as <- <-;
      cbn [set_store set_provider set_keys v_tenant v_aead v_provider v_ledger v_store];
      (split; [by split; [|split]|]); (split; [done|]); (split; [done|]).
    + split; [done|]. exists dek, nonce, w, o, store. split; [apply Hw|]. split; [by intros; eapply kp_wrap_short|]. by split_and!.
    + right. by eexists.
  - injection E as <- <-. cbn [set_provider set_keys v_tenant v_aead v_provider v_ledger v_store].
    split; [by split; [|split]|]. split; [done|]. split; [done|]. by left.
Qed.

(** *** Opening *)

(** What an accepted payload went through. *)
Lemma vault_open_inv record reference v r v' :
  vault_open record reference v = (r, v') -> kp_ok v.(v_provider) ->
  keeps_custody v v' /\ v'.(v_ledger) = v.(v_ledger) /\
  exists answer, os_get (object_key v record) v.(v_store) = (answer, v'.(v_store)) /\
  (is_ok r = true ->
   exists bytes envelope dek, answer = Ok (Some bytes) /\ envelope_decode bytes = Ok envelope /\
     envelope.(env_kek) = reference.(key_id) /\ kp_exists reference.(key_id) v.(v_provider) = true /\
     kp_unwrap reference.(key_id) envelope.(env_wrapped_dek) v.(v_provider) = (Ok dek, v'.(v_provider)) /\
     r = open_with v record reference envelope dek).
Proof.
  intros E Hok. unfold vault_open in E.
  destruct (os_get (object_key v record) (v_store v)) as [[[bytes|]|e] store] eqn:Eg.
  2-3: by injection E as <- <-; cbn; split; [by split; [|split]|]; split; [done|]; eexists.
  destruct (envelope_decode bytes) as [envelope|e] eqn:Ed.
  2: by injection E as <- <-; cbn; split; [by split; [|split]|]; split; [done|]; eexists.
  case_bool_decide as Ek; cbn [negb] in E.
  2: by injection E as <- <-; cbn; split; [by split; [|split]|]; split; [done|]; eexists.
  cbn [set_store v_provider] in E. destruct (kp_exists _ _) eqn:Ex; cbn [negb] in E.
  2: by injection E as <- <-; cbn; split; [by split; [|split]|]; split; [done|]; eexists.
  destruct (kp_unwrap _ _ _) as [[dek|e] p] eqn:Eu; pose proof (kp_unwrap_law _ _ _ _ _ Eu Hok) as (Hafter & _).
  - assert (E1 := f_equal fst E). assert (E2 := f_equal snd E). cbn [fst snd] in E1, E2. subst r v'. cbn.
    split; [by split; [|split]|]. split; [done|]. eexists. split; [done|]. intros _. exists bytes, envelope, dek.
    rewrite <- Ek. split_and!; done.
  - injection E as <- <-. cbn. split; [by split; [|split]|]. split; [done|]. by eexists.
Qed.

(** *** Destroying *)

Lemma destroy_all_spec sk keys t p r p' :
  destroy_all sk keys t p = (r, p') -> kp_ok p ->
  kp_after p p' /\ (forall k, k ∉ keys -> kp_exists k p' = kp_exists k p) /\
  match r with
  | Ok t' =>
      t'.(ta_entries) = t.(ta_entries) ++ map (manifest_entry sk) keys /\
      t'.(ta_destroyed) + t'.(ta_already) + t'.(ta_scheduled)
        = t.(ta_destroyed) + t.(ta_already) + t.(ta_scheduled) + Z.of_nat (length keys) /\
      t.(ta_scheduled) <= t'.(ta_scheduled) /\
      (t'.(ta_scheduled) = t.(ta_scheduled) -> forall k w d, k ∈ keys -> kp_holds p k w d -> kp_gone p' k)
  | Err _ => True
  end.
Proof.
  revert t p. induction keys as [|key keys IH]; intros t p E Hok; cbn [destroy_all] in E.
  { injection E as <- <-. split; [reflexivity|]. split; [done|]. rewrite app_nil_r. cbn. split_and!; try done; [lia|set_solver]. }
  destruct (kp_destroy key p) as [[d|e] p1] eqn:Ed; pose proof (kp_destroy_law _ _ _ _ Ed Hok) as (Hafter & Hother & Hd).
  - apply IH in E as (Hafter' & Hother' & Hr); [|by apply Hafter]. split; [by etrans|]. split.
    { intros k Hk. rewrite Hother' by set_solver. apply Hother. set_solver. }
    destruct r as [t'|e]; [|done]. destruct Hr as (He & Hc & Hs & Hg). destruct Hd as [_ Hd].
    split; [rewrite He; by destruct d; cbn; rewrite <- app_assoc|].
    split; [rewrite Hc; destruct d; cbn [tally_one ta_destroyed ta_already ta_scheduled length]; lia|].
    split; [destruct d; cbn [tally_one ta_scheduled] in Hs; lia|].
    intros Hsame k w x [->|Hk]%elem_of_cons Hh.
    + apply Hafter'. destruct d; cbn [tally_one ta_scheduled] in Hs, Hsame; [by eapply Hd..|lia].
    + eapply Hg; [|done|by apply Hafter]. destruct d; cbn [tally_one ta_scheduled] in *; lia.
  - injection E as <- <-. split; [done|]. split; [|done]. intros k Hk. apply Hother. set_solver.
Qed.

Lemma forget_inv subject recorded_at v r v' :
  forget subject recorded_at v = (r, v') -> kp_ok v.(v_provider) ->
  let keys := keys_of v.(v_ledger) subject in
  keeps_custody v v' /\ v'.(v_trust_domain) = v.(v_trust_domain) /\
  (forall k, k ∉ keys -> kp_exists k v'.(v_provider) = kp_exists k v.(v_provider)) /\
  match destroy_all (kek_for_subject v.(v_tenant) subject) keys Tally_zero v.(v_provider) with
  | (Err e, p) => r = Err (VaAdapter e) /\ v'.(v_ledger) = v.(v_ledger) /\ v'.(v_store) = v.(v_store)
  | (Ok t, p) =>
      p = v'.(v_provider) /\
      v'.(v_ledger) = (if t.(ta_scheduled) =? 0 then (drop_subject subject v.(v_ledger)).2 else v.(v_ledger))
  end.
Proof.
  intros E Hok keys. unfold forget in E. fold keys in E.
  destruct (destroy_all _ keys Tally_zero (v_provider v)) as [[t|e] p] eqn:Ed;
    pose proof (destroy_all_spec _ _ _ _ _ _ Ed Hok) as (Hafter & Hother & _).
  - destruct (put_manifest _ _ _) as [stored store]. apply pair_equal_spec in E as [_ <-].
    cbn [v_tenant v_trust_domain v_aead v_provider v_ledger]. split; [by split; [|split]|]. by split_and!.
  - injection E as <- <-. cbn. split; [by split; [|split]|]. by split_and!.
Qed.

(** A step keeps custody; a key of a row stays in the row until it is gone. *)
Lemma vault_step_keeps R v v' : vault_step R v v' -> kp_ok v.(v_provider) ->
  keeps_custody v v' /\
  forall s k w d, kp_holds v.(v_provider) k w d -> k ∈ row v.(v_ledger) s ->
    k ∈ row v'.(v_ledger) s \/ kp_gone v'.(v_provider) k.
Proof.
  intros Hstep Hok. destruct Hstep as [record parts subject v r v' E|record reference v r v' E|reference subject v r v' E
                                      |subject at_ v r v' E|v p Hp|v st Hst].
  - apply vault_seal_inv in E as (Hc & Hrow & _); [|done]. split; [done|]. intros s k w d _ Hk. left. by apply Hrow.
  - apply vault_open_inv in E as (Hc & Hl & _); [|done]. split; [done|]. rewrite Hl. by left.
  - unfold attribute in E. destruct (ledger_attribute _ _ _) as [new ledger] eqn:El. injection E as <- <-.
    split; [by split; [|split]|]. intros s k w d _ Hk. left. cbn. apply (f_equal snd) in El. cbn [snd] in El. rewrite <- El.
    rewrite row_attribute. case_decide; subst; set_solver.
  - apply forget_inv in E as (Hc & _ & _ & Hf); [|done]. split; [done|]. intros s k w d Hh Hk.
    destruct (destroy_all _ _ _ _) as [[t|e] p] eqn:Ed.
    + destruct Hf as [-> ->]. destruct (Z.eqb_spec (ta_scheduled t) 0) as [Hz|Hz]; [|by left].
      rewrite row_drop. case_decide as Es; [|by left]. right. subst s.
      apply destroy_all_spec in Ed as (_ & _ & _ & _ & _ & Hg); [|done].
      eapply Hg; [done| |done]. by apply elem_of_ascending.
    + destruct Hf as (_ & -> & _). by left.
  - split; [by split; [|split]|]. by left.
  - split; [by split; [|split]|]. by left.
Qed.

Lemma vault_run_keeps R v v' : vault_run R v v' -> kp_ok v.(v_provider) ->
  keeps_custody v v' /\ kp_ok v'.(v_provider) /\
  forall s k w d, kp_holds v.(v_provider) k w d -> k ∈ row v.(v_ledger) s \/ kp_gone v.(v_provider) k ->
    k ∈ row v'.(v_ledger) s \/ kp_gone v'.(v_provider) k.
Proof.
  intros Hrun. induction Hrun as [v|v v1 v2 Hs Hrun IH]; intros Hok; [split; [reflexivity|]; by split|].
  apply vault_step_keeps in Hs as [Hc Hrow]; [|done]. assert (Hc' := Hc). destruct Hc' as (_ & _ & Hok1 & Hholds & Hgone).
  destruct (IH (Hok1 Hok)) as (Hc2 & Hok2 & Hrow2). split; [by etrans|]. split; [done|].
  intros s k w d Hh [Hk|Hk]; (eapply Hrow2; [by apply Hholds|]); [by eapply Hrow|right; by apply Hgone].
Qed.

End Runs.

(** ** Keys are not shared *)

Section Derivation.
Context {D : Digest}.

Lemma key_tails_differ t1 t2 r (s : SubjectHandle) : token_ok t1 -> token_ok t2 ->
  derive_seed "record" t1 (to_le_bytes 16 r) <> derive_seed "subject" t2 s.(as_str).
Proof. intros H1 H2 E. apply derive_seed_inj in E as (E & _); try done; by repeat constructor. Qed.

(** Keys are not shared. Two records have one key only if they are one record of
    one tenant, two subjects only if they are one subject of one tenant, and a
    record's key is never a subject's, up to collisions: forgetting somebody in one
    tenant reaches into no other. *)
Theorem keys_are_not_shared (t1 t2 : TenantId) (r1 r2 : RecordId) (s1 s2 : SubjectHandle) :
  token_ok t1 -> token_ok t2 -> u128_ok r1 -> u128_ok r2 ->
  collision_free [derive_seed "record" t1 (to_le_bytes 16 r1); derive_seed "subject" t1 s1.(as_str)]
                 [derive_seed "record" t2 (to_le_bytes 16 r2); derive_seed "subject" t2 s2.(as_str)] ->
  (kek_for_record t1 r1 = kek_for_record t2 r2 -> t1 = t2 /\ r1 = r2) /\
  (kek_for_subject t1 s1 = kek_for_subject t2 s2 -> t1 = t2 /\ s1 = s2) /\
  kek_for_record t1 r1 <> kek_for_subject t2 s2.
Proof.
  intros Ht1 Ht2 Hr1 Hr2 C. unfold collision_free in C. rewrite !Forall_cons in C.
  destruct C as ((C1 & C2 & _) & (_ & C3 & _) & _). unfold kek_for_record, kek_for_subject, derive. split_and!.
  - intros E%C1. apply derive_seed_inj in E as (_ & -> & E); try done; [|by repeat constructor..]. split; [done|].
    by apply (to_le_bytes_inj 16) in E.
  - intros E%C3. apply derive_seed_inj in E as (_ & -> & E); try done; [|by repeat constructor..]. split; [done|].
    destruct s1, s2. cbn in E. by subst.
  - intros E%C2. by apply key_tails_differ in E.
Qed.

End Derivation.

(** ** Forgotten for good *)

(** C15 (forgotten stays forgotten). Once an erasure reports itself complete, a
    payload sealed under one of the subject's keys never opens again: whatever is
    sealed, attributed or forgotten later, whatever the custodian's operator does,
    and whatever is restored into the object store. *)
Theorem forgotten_stays_forgotten `{D : Digest} {O K A Q : Type} {OS : ObjectStore O} {KP : KeyProvider K} {AE : Aead A}
    {KS : KeySource Q} {KL : KeyProviderLaws K} (v0 v1 v2 v3 v4 v5 : Vault O K A Q) record parts sub ref subject at_ f record' ref' r :
  let any := fun _ _ : O => True in
  kp_ok v0.(v_provider) ->
  vault_seal record parts sub v0 = (Ok ref, v1) -> vault_run any v1 v2 ->
  ref.(key_id) ∈ keys_of v2.(v_ledger) subject ->
  forget subject at_ v2 = (Ok f, v3) -> forgotten_is_complete f = true -> vault_run any v3 v4 ->
  ref'.(key_id) = ref.(key_id) -> vault_open record' ref' v4 = (r, v5) ->
  exists e, r = Err e.
Proof.
  intros any Hok Hseal Hrun12 Hkey Hforget Hcomplete Hrun34 Hid Hopen.
  apply vault_seal_inv in Hseal as ((_ & _ & Hok1 & _) & _ & _ & _ & dek & nonce & w & o & st & Hh & _); [|done].
  apply vault_run_keeps in Hrun12 as ((_ & _ & _ & Hholds & _) & Hok2 & _); [|by apply Hok1].
  assert (Hg : kp_gone v3.(v_provider) ref.(key_id) /\ kp_ok v3.(v_provider)).
  { pose proof (forget_inv _ _ _ _ _ Hforget Hok2) as ((_ & _ & Hok3 & _) & _ & _ & Hf). split; [|by apply Hok3].
    destruct (destroy_all _ _ _ _) as [[t|e] p] eqn:Ed; [|by destruct Hf].
    destruct Hf as [<- _]. unfold forget in Hforget. rewrite Ed in Hforget.
    destruct (put_manifest _ _ _) as [stored store]. apply (f_equal fst) in Hforget. cbn [fst] in Hforget. inv_bind.
    unfold forgotten_is_complete in Hcomplete. cbn [keys_scheduled] in Hcomplete. breflect.
    apply destroy_all_spec in Ed as (_ & _ & _ & _ & _ & Hg); [|done]. eapply Hg; [done|done|by apply Hholds]. }
  destruct Hg as [Hg Hok3]. apply vault_run_keeps in Hrun34 as ((_ & _ & _ & _ & Hgone) & Hok4 & _); [|done].
  destruct r as [ps|e]; [|by eexists].
  apply vault_open_inv in Hopen as (_ & _ & answer & _ & Hopen); [|done].
  destruct (Hopen eq_refl) as (bytes & envelope & dek' & _ & _ & _ & Hex & _). rewrite Hid in Hex.
  by rewrite (kp_gone_law _ _ Hok4 (Hgone _ Hg)) in Hex.
Qed.

(** C16 (no key is lost). A payload sealed for a subject stays on the subject's list
    until its key is destroyed for good: through every operation, also the
    erasures that fail halfway or are only scheduled. *)
Theorem no_key_is_lost `{D : Digest} {O K A Q : Type} {OS : ObjectStore O} {KP : KeyProvider K} {AE : Aead A}
    {KS : KeySource Q} {KL : KeyProviderLaws K} (v0 v1 v2 : Vault O K A Q) record parts subject ref :
  kp_ok v0.(v_provider) ->
  vault_seal record parts (Some subject) v0 = (Ok ref, v1) -> vault_run (fun _ _ => True) v1 v2 ->
  ref.(key_id) ∈ keys_of v2.(v_ledger) subject \/ kp_gone v2.(v_provider) ref.(key_id).
Proof.
  intros Hok Hseal Hrun.
  apply vault_seal_inv in Hseal as ((_ & _ & Hok1 & _) & _ & Hsub & -> & dek & nonce & w & o & st & Hh & _); [|done].
  apply vault_run_keeps in Hrun as (_ & _ & Hrow); [|by apply Hok1]. unfold keys_of. rewrite elem_of_ascending.
  eapply Hrow; [done|]. left. by apply Hsub.
Qed.

(** ** What the store holds *)

Section Stores.
Context {D : Digest} {O K A Q : Type} {OS : ObjectStore O} {KP : KeyProvider K} {AE : Aead A} {KS : KeySource Q}
  {KL : KeyProviderLaws K} {OL : ObjectStoreLaws O}.
Implicit Types (v : Vault O K A Q).

Definition objects_grow (s s' : O) : Prop := os_ok s' /\ objects s ⊆ objects s'.

Lemma put_objects_grow key bytes s r s' : put_if_absent key bytes s = (r, s') -> os_ok s -> objects_grow s s'.
Proof. apply os_put_keeps. Qed.

Lemma get_grows key s r s' : os_get key s = (r, s') -> os_ok s -> objects_grow s s'.
Proof. intros E Hok. apply os_get_law in E as (? & Hp%os_peers_mono & _); [|done]. done. Qed.

Lemma objects_grow_trans s1 s2 s3 : objects_grow s1 s2 -> objects_grow s2 s3 -> objects_grow s1 s3.
Proof. intros [H1 H2] [H3 H4]. split; [done|]. by etrans. Qed.

(** A manifest reported stored is there under the hash it was reported with. *)
Lemma put_manifest_spec hash manifest s r s' :
  put_manifest hash manifest s = (r, s') -> os_ok s -> digest manifest = hash ->
  objects_grow s s' /\
  (r = Ok tt -> exists bytes, objects s' !! (lit "erasure/" ++ Hash_to_hex hash) = Some bytes /\ digest bytes = hash).
Proof.
  intros E Hok Hd. unfold put_manifest in E.
  destruct (put_if_absent _ manifest s) as [[[[] ver]|e] s1] eqn:Ep; pose proof (put_objects_grow _ _ _ _ _ Ep Hok) as Hg.
  - apply os_put_law in Ep as (_ & m & _ & _ & Em); [|done]. injection E as <- <-. split; [done|]. intros _. exists manifest.
    by rewrite Em, lookup_insert_eq.
  - destruct (os_get _ s1) as [[[bytes|]|e] s2] eqn:Eg; pose proof (get_grows _ _ _ _ Eg (proj1 Hg)) as Hg2;
      (case_bool_decide as Eb || clear Eg); injection E as <- <-; (split; [by eapply objects_grow_trans|]); try done.
    intros _. exists bytes. split; [|done]. by apply os_get_law in Eg as (_ & _ & Eg); [|apply Hg].
  - injection E as <- <-. by split.
Qed.

Lemma vault_step_grows v v' : vault_step objects_grow v v' -> kp_ok v.(v_provider) -> os_ok v.(v_store) -> objects_grow v.(v_store) v'.(v_store).
Proof.
  intros Hstep Hk Hok. assert (Hrefl : objects_grow (v_store v) (v_store v)) by done.
  destruct Hstep as [record parts subject v r v' E|record reference v r v' E|reference subject v r v' E
                    |subject at_ v r v' E|v p Hp|v st Hst]; try done.
  - apply vault_seal_inv in E as (_ & _ & _ & E); [|done]. destruct r as [ref|e].
    + destruct E as (_ & dek & nonce & w & o & st & _ & _ & _ & _ & Ep & ->). by eapply put_objects_grow.
    + destruct e; try done. destruct E as [->|[bytes Ep]]; [done|]. by eapply put_objects_grow.
  - apply vault_open_inv in E as (_ & _ & answer & Eg & _); [|done]. by eapply get_grows.
  - unfold attribute in E. destruct (ledger_attribute _ _ _). by injection E as <- <-.
  - unfold forget in E. destruct (destroy_all _ _ _ _) as [[t|e] p]; [|by injection E as <- <-].
    destruct (put_manifest _ _ _) as [stored st] eqn:Ep. apply pair_equal_spec in E as [_ <-].
    apply put_manifest_spec in Ep as [Hg _]; done.
Qed.

Lemma vault_run_grows v v' : vault_run objects_grow v v' -> kp_ok v.(v_provider) -> os_ok v.(v_store) -> objects_grow v.(v_store) v'.(v_store).
Proof.
  intros Hrun. induction Hrun as [v|v v1 v2 Hs Hrun IH]; intros Hk Hok; [done|].
  pose proof (vault_step_grows _ _ Hs Hk Hok) as Hg. apply vault_step_keeps in Hs as [(_ & _ & Hk1 & _) _]; [|done].
  eapply objects_grow_trans; [exact Hg|]. apply IH; [by apply Hk1|apply Hg].
Qed.

(** ** The report of an erasure *)

Lemma erasure_draft_ok t td at_ tag h keys scheduled d :
  erasure_draft t td at_ tag h keys scheduled = Ok d ->
  d.(md_verdict) = Some (if keys =? 0 then NotApplicable else if scheduled =? 0 then Allowed else Held) /\
  d.(md_tokens_in) = Some keys /\ d.(md_tokens_out) = Some scheduled /\ d.(md_event_type) = Erasure /\
  d.(md_basis).(memory_ref) = Some tag.
Proof. unfold erasure_draft. intros H. apply result_bind_ok in H as (a & _ & H). by apply result_bind_ok in H as (r & _ & [= <-]). Qed.

Context {DL : DigestLaws D}.

Lemma entries_hash_ok sk keys : Forall hash_ok (map (manifest_entry sk) keys).
Proof. apply Forall_map, Forall_true. intros k. apply digest_ok. Qed.

End Stores.

(** An erasure reports what it did. Every key of the subject is counted once; the
    subject's row goes exactly when none is merely scheduled, and the record says
    which; the manifest in the store is the one reported, and it lists one opaque
    entry a key, sorted; no other key is touched. *)
Theorem forget_reports_what_it_did `{D : Digest} {DL : DigestLaws D} {O K A Q : Type} {OS : ObjectStore O} {KP : KeyProvider K}
    {AE : Aead A} {KS : KeySource Q} {KL : KeyProviderLaws K} {OL : ObjectStoreLaws O}
    (v v' : Vault O K A Q) subject at_ f :
  kp_ok v.(v_provider) -> os_ok v.(v_store) -> forget subject at_ v = (Ok f, v') ->
  let keys := keys_of v.(v_ledger) subject in
  let n := Z.of_nat (length keys) in
  f.(keys_destroyed) + f.(keys_already_gone) + f.(keys_scheduled) = n /\ 0 <= f.(keys_scheduled) /\
  row v'.(v_ledger) subject = (if forgotten_is_complete f then ∅ else row v.(v_ledger) subject) /\
  f.(fg_draft).(md_verdict) = Some (if n =? 0 then NotApplicable else if forgotten_is_complete f then Allowed else Held) /\
  f.(fg_draft).(md_tokens_in) = Some n /\ f.(fg_draft).(md_tokens_out) = Some f.(keys_scheduled) /\
  (exists entries stored, objects v'.(v_store) !! (lit "erasure/" ++ Hash_to_hex f.(fg_manifest)) = Some stored /\
     digest stored = f.(fg_manifest) /\
     entries ≡ₚ map (manifest_entry f.(subject_key)) keys /\ StronglySorted key_le entries /\
     (u32_ok n -> collision_free [stored] [encode_erasure_manifest entries] ->
      decode_erasure_manifest stored = Ok entries)) /\
  forall k, k ∉ keys -> kp_exists k v'.(v_provider) = kp_exists k v.(v_provider).
Proof.
  intros Hk Hos E keys n. pose proof (forget_inv _ _ _ _ _ E Hk) as (_ & _ & Hother & Hf). unfold forget in E. fold keys in E, Hf.
  destruct (destroy_all _ keys Tally_zero _) as [[t|e] p] eqn:Ed; [|by destruct Hf].
  apply destroy_all_spec in Ed as (_ & _ & He & Hcount & Hs & _); [|done]. cbn in He, Hcount, Hs. destruct Hf as [_ Hl].
  destruct (put_manifest _ _ _) as [stored st] eqn:Ep. apply pair_equal_spec in E as [E Ev].
  apply result_bind_ok in E as ([] & -> & E). apply result_bind_ok in E as (d & Ed & [= <-]).
  apply erasure_draft_ok in Ed as (Hv & Hti & Hto & _). apply put_manifest_spec in Ep as [_ Hst]; [|done..].
  destruct (Hst eq_refl) as (bytes & Hb & Hd). unfold forgotten_is_complete.
  cbn [keys_destroyed keys_already_gone keys_scheduled fg_draft fg_manifest subject_key].
  rewrite Hcount in Hv, Hti. fold n in Hcount, Hv, Hti. split; [exact Hcount|]. split; [done|]. split.
  { rewrite Hl. destruct (ta_scheduled t =? 0); [|done]. by rewrite row_drop, decide_True. }
  split; [exact Hv|]. split; [exact Hti|]. split; [exact Hto|]. split; [|exact Hother].
  exists (merge_sort key_le (ta_entries t)), bytes. rewrite <- Ev. cbn [v_store].
  assert (Hperm : merge_sort key_le (ta_entries t) ≡ₚ map (manifest_entry (kek_for_subject (v_tenant v) subject)) keys)
    by (by rewrite merge_sort_Permutation, He).
  split; [exact Hb|]. split; [exact Hd|]. split; [exact Hperm|]. split; [apply StronglySorted_merge_sort; apply _|].
  intros Hn C. unfold collision_free in C. rewrite !Forall_singleton in C. rewrite (C Hd).
  apply erasure_manifest_roundtrip; rewrite Hperm; [by rewrite length_map|apply entries_hash_ok].
Qed.

(** ** What is sealed opens *)

(** C17 (what is sealed opens). A payload stored under a name nobody else wrote opens to
    the parts that were sealed, after any run in which the store loses nothing: the
    answer is the parts while the key can be used, [Erased] once it cannot, or the
    store's own failure. *)
Theorem what_is_sealed_opens `{D : Digest} {DL : DigestLaws D} {O K A Q : Type} {OS : ObjectStore O} {KP : KeyProvider K}
    {AE : Aead A} {KS : KeySource Q} {KL : KeyProviderLaws K} {OL : ObjectStoreLaws O} {AL : AeadLaws A} {KA : KeyProviderAnswers K}
    {QL : KeySourceLaws Q} (v0 v1 v2 v3 : Vault O K A Q) record parts subject ref r :
  kp_ok v0.(v_provider) -> os_ok v0.(v_store) -> blob_ok parts ->
  objects v0.(v_store) !! object_key v0 record = None ->
  (forall m m', os_peers m m' -> m !! object_key v0 record = None -> m' !! object_key v0 record = None) ->
  vault_seal record parts subject v0 = (Ok ref, v1) -> vault_run objects_grow v1 v2 -> vault_open record ref v2 = (r, v3) ->
  (exists e, r = Err (VaAdapter e)) \/
  r = if kp_exists ref.(key_id) v2.(v_provider) then Ok parts else Err VaErased.
Proof.
  intros Hk Hos Hparts Hnone Hpeers Hseal Hrun Hopen.
  pose proof (vault_seal_inv _ _ _ _ _ _ Hseal Hk) as
    ((Ht & Ha & Hk1 & _) & _ & _ & -> & dek & nonce & w & o & st & Hh & Hw & Edek & En & Ep & Est).
  set (ref := sealed_ref v0 record parts) in *. set (blob := encode_parts parts) in *.
  assert (Hd : length dek = KEY_BYTES) by (by rewrite Edek, fresh_dek_length).
  assert (Hn : length nonce = NONCE_BYTES) by (by rewrite En, fresh_nonce_length).
  set (envelope := MkEnvelope ref.(key_id) nonce w (aead_seal v0.(v_aead) dek nonce (seal_aad v0 record parts) blob)) in *.
  assert (Henv : envelope_ok envelope) by (split; [apply digest_ok|done|by apply Hw]).
  pose proof (vault_run_keeps _ _ _ Hrun (Hk1 Hk)) as ((Ht2 & Ha2 & _ & Hh2 & _) & Hk2 & _).
  assert (H1 : os_ok v1.(v_store) /\ objects v1.(v_store) !! object_key v0 record = Some (envelope_encode envelope)).
  { apply os_put_law in Ep as (Hok1 & m & Hm & Hput); [|done]. rewrite Est. split; [done|].
    destruct o as [[] ver]; destruct Hput as [Hs Hput].
    - by rewrite Hput, lookup_insert_eq.
    - rewrite (Hpeers _ _ Hm Hnone) in Hs. by apply is_Some_None in Hs. }
  destruct H1 as [Hos1 Hobj]. pose proof (vault_run_grows _ _ Hrun (Hk1 Hk) Hos1) as [Hos2 Hsub].
  assert (Hkey : object_key v2 record = object_key v0 record) by (unfold object_key; by rewrite Ht2, Ht).
  unfold vault_open in Hopen. rewrite Hkey in Hopen. destruct (os_get _ (v_store v2)) as [[got|e] st2] eqn:Eg.
  2: { left. injection Hopen as <- <-. by eexists. }
  right. apply os_get_law in Eg as (_ & Hp2 & ->); [|done]. apply os_peers_mono in Hp2.
  rewrite (lookup_weaken _ _ _ _ (lookup_weaken _ _ _ _ Hobj Hsub) Hp2), envelope_decode_encode in Hopen by done.
  cbn [env_kek envelope] in Hopen. rewrite bool_decide_true in Hopen by done. cbn [negb set_store v_provider] in Hopen.
  destruct (kp_exists (key_id ref) (v_provider v2)) eqn:Hex; cbn [negb] in Hopen; [|by injection Hopen as <- <-].
  destruct (kp_unwrap_answers _ _ _ dek Hk2 Hex (Hh2 _ _ _ Hh)) as [p Hu]. cbn [env_wrapped_dek envelope] in Hopen.
  rewrite Hu in Hopen. apply pair_equal_spec in Hopen as [<- _]. unfold open_with. rewrite Hd.
  cbn [negb Nat.eqb KEY_BYTES set_provider set_store v_aead env_nonce env_ciphertext env_kek envelope]. rewrite Ha2, Ha.
  rewrite (proj2 (aead_opens _ _ _ _ _ blob Hd Hn)) by done. cbn [ok_or mbind result_bind].
  rewrite bool_decide_true by done. cbn [negb]. apply decode_parts_iff. split; [done|]. exists []. by rewrite app_nil_r.
Qed.

(** ** What a failure leaves *)

(** C18 (an erasure's evidence can be lost). When every key was destroyed and the
    erasure then failed, the subject's row is gone: forgetting again, as the caller
    of a failed erasure must, reports that nothing is held, and the manifest it
    stores lists no key. *)
Theorem erasure_evidence_can_be_lost `{D : Digest} {O K A Q : Type} {OS : ObjectStore O} {KP : KeyProvider K}
    {AE : Aead A} {KS : KeySource Q}
    (v0 v1 v2 : Vault O K A Q) subject at1 at2 e f t p :
  destroy_all (kek_for_subject v0.(v_tenant) subject) (keys_of v0.(v_ledger) subject) Tally_zero v0.(v_provider) = (Ok t, p) ->
  t.(ta_scheduled) = 0 ->
  forget subject at1 v0 = (Err e, v1) -> forget subject at2 v1 = (Ok f, v2) ->
  f.(keys_destroyed) = 0 /\ f.(keys_already_gone) = 0 /\ f.(fg_draft).(md_verdict) = Some NotApplicable /\
  f.(fg_manifest) = digest (encode_erasure_manifest []).
Proof.
  intros Ed Ht E1 E. assert (Hrow : row v1.(v_ledger) subject = ∅).
  { unfold forget in E1. rewrite Ed, Ht in E1. destruct (put_manifest _ _ _) as [stored st].
    apply pair_equal_spec in E1 as [_ <-]. cbn [Z.eqb v_ledger]. by rewrite row_drop, decide_True. }
  unfold forget, keys_of in E. rewrite Hrow in E. unfold ascending in E. rewrite elements_empty in E.
  change (merge_sort key_le []) with (@nil KeyId) in E. cbn [destroy_all] in E.
  destruct (put_manifest _ _ _) as [stored st]. apply pair_equal_spec in E as [E _].
  apply result_bind_ok in E as ([] & _ & E). apply result_bind_ok in E as (d & Ed' & [= <-]).
  apply erasure_draft_ok in Ed' as (Hv & _). by split_and!.
Qed.

(** A custodian that cannot be reached while its key exists reads as an erasure. *)
Lemma unreachable_custodian_reads_as_erased `{D : Digest} {O K A Q : Type} {OS : ObjectStore O} {KP : KeyProvider K}
    {AE : Aead A} {KS : KeySource Q} (v : Vault O K A Q) record reference bytes store envelope why p :
  os_get (object_key v record) v.(v_store) = (Ok (Some bytes), store) -> envelope_decode bytes = Ok envelope ->
  envelope.(env_kek) = reference.(key_id) -> kp_exists envelope.(env_kek) v.(v_provider) = true ->
  kp_unwrap envelope.(env_kek) envelope.(env_wrapped_dek) v.(v_provider) = (Err (AdUnavailable why), p) ->
  (vault_open record reference v).1 = Err VaErased.
Proof.
  intros Eg Ed Ek Ex Eu. unfold vault_open. rewrite Eg, Ed. rewrite bool_decide_true by done.
  cbn [negb set_store v_provider]. by rewrite Ex, Eu.
Qed.

(** ** A vault that runs *)

Module Sample.

#[local] Existing Instance Register_Digest.
#[local] Existing Instance Register_DigestLaws.

Definition acme : TenantId := MkToken (lit "acme").
Definition ivan : SubjectHandle := MkToken (lit "subject-8f21ac").
Definition parts : list PayloadPart := [MkPart Completion (lit "noted"); MkPart Prompt (lit "call me at home")].

Section Custodian.
Context {O K : Type} `{ObjectStore O} `{KeyProvider K}.
Definition new_vault (store : O) (custodian : K) : Vault O K Sha384Ctr PredictableKeys :=
  Vault_unvalidated acme (lit "acme.example") store custodian MkSha384Ctr PredictableKeys_new.
End Custodian.

Definition no_ref : PayloadRef := {| p_hash := []; size_bytes := 0; p_class := Prompt; key_id := [] |}.
Definition ok_of {E A} (d : A) (r : result E A) : A := match r with Ok a => a | Err _ => d end.

(** In memory. *)
Definition m0 : Vault Objects MemoryKeyProvider Sha384Ctr PredictableKeys := new_vault ∅ MemoryKeyProvider_new.
Definition m1 := (vault_seal 7 parts (Some ivan) m0).2.
Definition ref1 : PayloadRef := ok_of no_ref (vault_seal 7 parts (Some ivan) m0).1.

Lemma ok_pair {E A B} (d : A) (p : result E A * B) : is_ok p.1 = true -> p = (Ok (ok_of d p.1), p.2).
Proof. by destruct p as [[a|e] b]. Qed.

Example payload_sealed : vault_seal 7 parts (Some ivan) m0 = (Ok ref1, m1).
Proof. apply ok_pair. vm_compute. reflexivity. Qed.

Example payload_opened : (vault_open 7 ref1 m1).1 = Ok parts.
Proof. vm_compute. reflexivity. Qed.

Example payload_forgotten : (vault_open 7 ref1 (forget ivan 1 m1).2).1 = Err VaErased.
Proof. vm_compute. reflexivity. Qed.

(** A second payload under one record's name is reported sealed and not stored. *)
Definition other_parts : list PayloadPart := [MkPart Prompt (lit "something else")].
Definition m1' := (vault_seal 7 other_parts None m1).2.
Definition ref1' : PayloadRef := ok_of no_ref (vault_seal 7 other_parts None m1).1.

Example second_seal_is_not_stored :
  is_ok (vault_seal 7 other_parts None m1).1 = true /\ (vault_open 7 ref1' m1').1 = Err VaWrongContent.
Proof. split; vm_compute; reflexivity. Qed.

(** A custodian that schedules: what was forgotten cannot be read, is not erased, and
    its operator brings it back. *)
Definition s0 : Vault Objects SchedulingKeyProvider Sha384Ctr PredictableKeys := new_vault ∅ (SchedulingKeyProvider_new 5 100).
Definition s1 := (vault_seal 7 parts (Some ivan) s0).2.
Definition sref : PayloadRef := ok_of no_ref (vault_seal 7 parts (Some ivan) s0).1.
Definition s2 := (forget ivan 1 s1).2.
Definition s3 := set_provider (sp_cancel sref.(key_id) s2.(v_provider)).2 s2.
Definition s4 := set_provider (sp_elapse (sp_advance_to 105 s2.(v_provider))).2 s2.

Example cancelled_erasure_reads_again :
  (vault_open 7 sref s2).1 = Err VaErased /\ (vault_open 7 sref s3).1 = Ok parts /\
  (vault_open 7 sref s4).1 = Err VaErased.
Proof. split_and!; vm_compute; reflexivity. Qed.

(** A trust domain that names no agent fails every erasure, after the keys are gone. *)
Example bad_trust_domain_destroys_and_fails :
  let v := MkVault acme (lit "Not A Domain") m1.(v_store) m1.(v_provider) m1.(v_aead) m1.(v_keys) m1.(v_ledger) 0 in
  let '(r, v) := forget ivan 1 v in
  r = Err (VaMalformed "trust domain") /\ knows v.(v_ledger) ivan = false /\ kp_exists ref1.(key_id) v.(v_provider) = false.
Proof. vm_compute. split_and!; reflexivity. Qed.

(** *** The theorems at work *)

Definition globex : TenantId := MkToken (lit "globex").

Lemma keys_are_not_shared_witness : kek_for_record acme 1 <> kek_for_subject globex ivan.
Proof.
  refine (proj2 (proj2 (keys_are_not_shared acme globex 1 2 ivan ivan _ _ _ _ _)));
    [reflexivity|reflexivity|by vm_compute|by vm_compute|by_evaluation].
Defined.

(** The backup of the store is restored after the erasure. *)
Definition m2 := (forget ivan 1 m1).2.
Definition frep : Forgotten := ok_of (MkForgotten 0 0 0 None false [] 0 [] [] {|
  md_mapper := 0; md_tenant := acme; md_agent_id := MkToken []; md_run_id := MkToken []; md_parent_run_id := None;
  md_on_behalf_of := []; md_occurred_at := Untrusted_new 0; md_decided_at := None; md_event_type := Erasure;
  md_severity := Notice; md_basis := Basis_default; md_verdict := None; md_error := None; md_latency_micros := None;
  md_tokens_in := None; md_tokens_out := None; md_cost_micros := None |}) (forget ivan 1 m1).1.
Definition m3 := set_store m1.(v_store) m2.

Lemma forget_m1 : forget ivan 1 m1 = (Ok frep, m2).
Proof. apply ok_pair. vm_compute. reflexivity. Qed.

Lemma forgotten_stays_forgotten_witness : exists e, (vault_open 7 ref1 m3).1 = Err e.
Proof.
  refine (forgotten_stays_forgotten m0 m1 m1 m2 m3 (vault_open 7 ref1 m3).2 7 parts (Some ivan) ref1 ivan 1 frep 7 ref1 _
            _ payload_sealed _ _ forget_m1 _ _ eq_refl (surjective_pairing _)).
  - exact MemoryKeyProvider_new_ok.
  - apply rtc_refl.
  - by_evaluation.
  - vm_compute. reflexivity.
  - apply rtc_once. apply (step_store _ m2 m1.(v_store)). exact I.
Defined.

Lemma scheduled_seal : vault_seal 7 parts (Some ivan) s0 = (Ok sref, s1).
Proof. apply ok_pair. vm_compute. reflexivity. Qed.

Lemma no_key_is_lost_witness : sref.(key_id) ∈ keys_of s2.(v_ledger) ivan \/ kp_gone s2.(v_provider) sref.(key_id).
Proof.
  refine (no_key_is_lost s0 s1 s2 7 parts ivan sref _ scheduled_seal _).
  - exact (SchedulingKeyProvider_new_ok 5 100).
  - apply rtc_once. exact (step_forget _ ivan 1 s1 _ s2 (surjective_pairing _)).
Defined.

Lemma forget_reports_what_it_did_witness : frep.(keys_destroyed) + frep.(keys_already_gone) + frep.(keys_scheduled) = 1.
Proof.
  refine (proj1 (forget_reports_what_it_did m1 m2 ivan 1 frep _ I forget_m1)).
  change (m1.(v_provider).(mk_live) ## m1.(v_provider).(mk_tombstones)). by_evaluation.
Defined.

(** Another record is sealed in between. *)
Definition m1'' := (vault_seal 8 other_parts None m1).2.

Lemma what_is_sealed_opens_witness :
  (exists e, (vault_open 7 ref1 m1'').1 = Err (VaAdapter e)) \/ (vault_open 7 ref1 m1'').1 = Ok parts.
Proof.
  refine (what_is_sealed_opens m0 m1 m1'' (vault_open 7 ref1 m1'').2 7 parts (Some ivan) ref1 _ _ I _ eq_refl _ payload_sealed _ (surjective_pairing _)).
  - exact MemoryKeyProvider_new_ok.
  - by_evaluation.
  - by intros m m' ->.
  - apply rtc_once. exact (step_seal _ 8 other_parts None m1 _ m1'' (surjective_pairing _)).
Defined.

(** The store is down when the manifest is to be stored. *)
Definition d0 : Vault ScriptedStore MemoryKeyProvider Sha384Ctr PredictableKeys :=
  new_vault (MkScripted ∅ [ScAnswer; ScDown]) MemoryKeyProvider_new.
Definition d1 := (vault_seal 7 parts (Some ivan) d0).2.
Definition d2 := (forget ivan 1 d1).2.
Definition d3 := (forget ivan 2 d2).2.
Definition drep : Forgotten := ok_of frep (forget ivan 2 d2).1.
Definition dall := destroy_all (kek_for_subject d1.(v_tenant) ivan) (keys_of d1.(v_ledger) ivan) Tally_zero d1.(v_provider).

Lemma erasure_evidence_can_be_lost_witness : drep.(keys_destroyed) = 0 /\ drep.(keys_already_gone) = 0.
Proof.
  refine (let H := erasure_evidence_can_be_lost d1 d2 d3 ivan 1 2 (VaAdapter (AdUnavailable "down")) drep
            (ok_of Tally_zero dall.1) dall.2 _ _ _ _ in conj (proj1 H) (proj1 (proj2 H))).
  - apply (ok_pair Tally_zero dall). vm_compute. reflexivity.
  - vm_compute. reflexivity.
  - rewrite (surjective_pairing (forget ivan 1 d1)). apply pair_equal_spec. split; [|reflexivity]. vm_compute. reflexivity.
  - apply ok_pair. vm_compute. reflexivity.
Defined.

End Sample.
