(* ===== verification/Assemble.v ===== *)
(** * Assembling records ([trailryx-assemble/src/lib.rs], [ids.rs], [correlation.rs])

    From what a source handed over to what the journal takes: the record's
    identity, its edges, its payload put behind a key, and the account of the edges
    that could not be made. *)

From S2P Require Import Prelude Bytes Ids Record Digest Completeness SimIo Causal ObjectStore Ingest Aead Envelope Keys Vault.

(** ** Identities *)

Definition RANDOM_BITS : Z := 80.
Definition RANDOM_MASK : Z := Z.shiftl 1 RANDOM_BITS - 1.
Definition MAX_MS : Z := Z.shiftl 1 48 - 1.
Definition u128_max : Z := 2 ^ 128 - 1.

(** The trait [Rng]; a draw is a [u64]. *)
Class Rng (R : Type) := rng_next : R -> Z * R.
Class RngLaws (R : Type) {RN : Rng R} := rng_next_ok : forall r, u64_ok (rng_next r).1.

Record SimRng := MkSimRng { rng_state : Z }.

#[export] Instance SimRng_Rng : Rng SimRng := fun r => let '(v, s) := next_u64 r.(rng_state) in (v, MkSimRng s).

Record IdMinter (R : Type) := MkIds { ids_rng : R; ids_last : Z }.
Arguments MkIds {R}.
Arguments ids_rng {R}.
Arguments ids_last {R}.

Section Minting.
Context {R : Type} `{RN : Rng R}.

Definition Ids_new (rng : R) : IdMinter R := MkIds rng 0.

(** Two draws, eighty bits. *)
Definition ids_random (rng : R) : Z * R :=
  let '(a, rng) := rng_next rng in
  let '(b, rng) := rng_next rng in
  (Z.lor (Z.shiftl a 16) (Z.land b 0xffff), rng).

Definition mint (recorded_at : Timestamp) (i : IdMinter R) : RecordId * IdMinter R :=
  let ms := Z.min (recorded_at / 1000000) MAX_MS in
  let '(random, rng) := ids_random i.(ids_rng) in
  let candidate := Z.lor (Z.shiftl ms RANDOM_BITS) (Z.land random RANDOM_MASK) in
  let candidate := if candidate <=? i.(ids_last) then Z.min (i.(ids_last) + 1) u128_max else candidate in
  (candidate, MkIds rng candidate).

End Minting.

(** [as u64] keeps the low bits. *)
Definition millisecond_of (id : RecordId) : Z := as_u64 (Z.shiftr id RANDOM_BITS).

(** ** The correlation window *)

#[export] Instance SourceKey_countable : Countable SourceKey :=
  inj_countable' (fun k => (k.(sk_len), k.(sk_bytes))) (fun p => MkSourceKey p.1 p.2) ltac:(by intros []).

Record Window := MkWindow { cw_seen : gmap SourceKey RecordId; cw_order : list SourceKey; cw_capacity : nat }.

Definition Window_new (capacity : nat) : Window := MkWindow ∅ [] (Nat.max capacity 1).

Definition resolve (key : SourceKey) (c : Window) : option RecordId := c.(cw_seen) !! key.

Definition window_remember (key : SourceKey) (id : RecordId) (c : Window) : Window :=
  match c.(cw_seen) !! key with
  | Some _ => c
  | None =>
      let seen := <[key := id]> c.(cw_seen) in
      let order := c.(cw_order) ++ [key] in
      if (c.(cw_capacity) <? length order)%nat then
        match order with
        | oldest :: order => MkWindow (delete oldest seen) order c.(cw_capacity)
        | [] => MkWindow seen order c.(cw_capacity)
        end
      else MkWindow seen order c.(cw_capacity)
  end.

Definition window_len (c : Window) : nat := size c.(cw_seen).

(** ** The assembler *)

Definition DEFAULT_CORRELATION_WINDOW : nat := Z.to_nat 65536.

Record Assembled := MkAssembled { am_record : Record_; am_payload : list PayloadPart }.

(** [lost_edges] is a [BTreeMap<RunId, u32>], by the run's string. *)
Record Assembler (R : Type) := MkAssembler {
  as_shard : ShardIx;
  as_ids : IdMinter R;
  as_correlation : Window;
  as_unresolved_parents : Z;
  as_lost_edges : gmap (list byte) Z;
}.
Arguments MkAssembler {R}.
Arguments as_shard {R}.
Arguments as_ids {R}.
Arguments as_correlation {R}.
Arguments as_unresolved_parents {R}.
Arguments as_lost_edges {R}.

Definition assemble (id : RecordId) (shard : ShardIx) (draft : MetaDraft) (recorded_at : Timestamp)
    (caused_by : list RecordId) : Record_ := {|
  r_id := id;
  tenant := draft.(md_tenant);
  shard := shard;
  agent_id := draft.(md_agent_id);
  run_id := draft.(md_run_id);
  parent_run_id := draft.(md_parent_run_id);
  on_behalf_of := draft.(md_on_behalf_of);
  occurred_at := draft.(md_occurred_at);
  decided_at := draft.(md_decided_at);
  recorded_at := recorded_at;
  knowledge_as_of := None;
  clock_skew_nanos := Some (skew_nanos (assess_skew draft.(md_occurred_at) recorded_at));
  event_type := draft.(md_event_type);
  severity := draft.(md_severity);
  basis := draft.(md_basis);
  caused_by := caused_by;
  outcome := {| o_verdict := draft.(md_verdict); o_error := draft.(md_error); latency_micros := draft.(md_latency_micros);
                tokens_in := draft.(md_tokens_in); tokens_out := draft.(md_tokens_out); cost_micros := draft.(md_cost_micros) |};
  payload := None;
  seq := 0;
  prev_hash := Hash_ZERO;
  segment_id := 0;
  algorithms := Algorithms_default;
  mapper := draft.(md_mapper);
|}.

(** Any payload reference the record had is replaced; the journal's fields are not. *)
Definition attach (r : Record_) (reference : PayloadRef) : Record_ :=
  MkRecord r.(r_id) r.(tenant) r.(shard) r.(agent_id) r.(run_id) r.(parent_run_id) r.(on_behalf_of) r.(occurred_at)
    r.(decided_at) r.(recorded_at) r.(knowledge_as_of) r.(clock_skew_nanos) r.(event_type) r.(severity) r.(basis)
    r.(caused_by) r.(outcome) (Some reference) r.(seq) r.(prev_hash) r.(segment_id) r.(algorithms) r.(mapper).

(** The draft of a lost-edge record: the run's own, with the store's event in it. *)
Definition lost_edge_draft (draft : MetaDraft) (run : RunId) (recorded_at : Timestamp) (edges : Z) : MetaDraft := {|
  md_mapper := MapperVersion_UNMAPPED;
  md_tenant := draft.(md_tenant);
  md_agent_id := draft.(md_agent_id);
  md_run_id := run;
  md_parent_run_id := draft.(md_parent_run_id);
  md_on_behalf_of := draft.(md_on_behalf_of);
  md_occurred_at := Untrusted_new recorded_at;
  md_decided_at := None;
  md_event_type := StoreEvent;
  md_severity := Warning;
  md_basis := draft.(md_basis);
  md_verdict := Some Failed;
  md_error := Some Internal;
  md_latency_micros := None;
  md_tokens_in := Some edges;
  md_tokens_out := None;
  md_cost_micros := None;
|}.

Definition saturating_inc_u32 (n : Z) : Z := Z.min (n + 1) u32_max.

Section Assembling.
Context {R : Type} `{RN : Rng R}.
Implicit Types (a : Assembler R).

Definition Assembler_with_window (shard : ShardIx) (rng : R) (window : nat) : Assembler R :=
  MkAssembler shard (Ids_new rng) (Window_new window) 0 ∅.

Definition Assembler_new (shard : ShardIx) (rng : R) : Assembler R :=
  Assembler_with_window shard rng DEFAULT_CORRELATION_WINDOW.

Definition mint_id (recorded_at : Timestamp) a : RecordId * Assembler R :=
  let '(id, ids) := mint recorded_at a.(as_ids) in
  (id, MkAssembler a.(as_shard) ids a.(as_correlation) a.(as_unresolved_parents) a.(as_lost_edges)).

(** Mint, and remember the source's name. *)
Definition claim (recorded_at : Timestamp) (ingest : Ingest) a : RecordId * Assembler R :=
  let '(id, a) := mint_id recorded_at a in
  match ingest.(in_correlation) with
  | Some c => (id, MkAssembler a.(as_shard) a.(as_ids) (window_remember c.(co_id) id a.(as_correlation))
                     a.(as_unresolved_parents) a.(as_lost_edges))
  | None => (id, a)
  end.

(** The edge and whether one was lost. *)
Definition edge_of (ingest : Ingest) (id : RecordId) (c : Window) : list RecordId * bool :=
  match ingest.(in_correlation) ≫= co_parent with
  | None => ([], false)
  | Some parent =>
      match resolve parent c with
      | Some found => if found =? id then ([], true) else ([found], false)
      | None => ([], true)
      end
  end.

(** At the cap only a run already listed is counted. *)
Definition count_lost (capacity : nat) (run : RunId) (lost : gmap (list byte) Z) : gmap (list byte) Z :=
  if (size lost <? capacity)%nat then
    <[run.(as_str) := saturating_inc_u32 (default 0 (lost !! run.(as_str)))]> lost
  else
    match lost !! run.(as_str) with
    | Some n => <[run.(as_str) := saturating_inc_u32 n]> lost
    | None => lost
    end.

Definition finish_one (recorded_at : Timestamp) (ingest : Ingest) (id : RecordId) a : Assembled * Assembler R :=
  let '(caused_by, lost) := edge_of ingest id a.(as_correlation) in
  let a :=
    if lost then
      MkAssembler a.(as_shard) a.(as_ids) a.(as_correlation) (a.(as_unresolved_parents) + 1)
        (count_lost a.(as_correlation).(cw_capacity) ingest.(in_meta).(md_run_id) a.(as_lost_edges))
    else a in
  (MkAssembled (assemble id a.(as_shard) ingest.(in_meta) recorded_at caused_by) ingest.(in_payload), a).

Definition adopt_one (ingest : Ingest) (recorded_at : Timestamp) a : Assembled * Assembler R :=
  let '(id, a) := claim recorded_at ingest a in finish_one recorded_at ingest id a.

(** The two passes over a batch. *)
Fixpoint claim_all (recorded_at : Timestamp) (batch : list Ingest) a : list (Ingest * RecordId) * Assembler R :=
  match batch with
  | [] => ([], a)
  | ingest :: batch =>
      let '(id, a) := claim recorded_at ingest a in
      let '(minted, a) := claim_all recorded_at batch a in
      ((ingest, id) :: minted, a)
  end.

Fixpoint finish_all (recorded_at : Timestamp) (minted : list (Ingest * RecordId)) a : list Assembled * Assembler R :=
  match minted with
  | [] => ([], a)
  | (ingest, id) :: minted =>
      let '(r, a) := finish_one recorded_at ingest id a in
      let '(rs, a) := finish_all recorded_at minted a in
      (r :: rs, a)
  end.

Definition adopt_batch (batch : list Ingest) (recorded_at : Timestamp) a : list Assembled * Assembler R :=
  let '(minted, a) := claim_all recorded_at batch a in finish_all recorded_at minted a.

(** A record whose edges the caller knows. *)
Definition record_known (draft : MetaDraft) (recorded_at : Timestamp) (caused_by : list RecordId) (payload : list PayloadPart) a :
    Assembled * Assembler R :=
  let '(id, a) := mint_id recorded_at a in
  (MkAssembled (assemble id a.(as_shard) draft recorded_at caused_by) payload, a).

Definition lost_edge_text (edges : Z) : list byte := lit "caused_by_unresolved" ++ [x09] ++ decimal edges ++ [x0a].

Fixpoint report_lost (recorded_at : Timestamp) (draft : MetaDraft) (lost : list (list byte * Z)) a : list Assembled * Assembler R :=
  match lost with
  | [] => ([], a)
  | (run, edges) :: lost =>
      let '(id, a) := mint_id recorded_at a in
      let r := MkAssembled (assemble id a.(as_shard) (lost_edge_draft draft (MkToken run) recorded_at edges) recorded_at [])
                 [PayloadPart_new Diagnostic (lost_edge_text edges)] in
      let '(rs, a) := report_lost recorded_at draft lost a in
      (r :: rs, a)
  end.

(** Ascending by run. *)
Definition lost_rows (lost : gmap (list byte) Z) : list (list byte * Z) :=
  omap (fun run => (fun n => (run, n)) <$> lost !! run) (ascending (dom lost)).

Definition lost_edge_events (recorded_at : Timestamp) (draft : MetaDraft) a : list Assembled * Assembler R :=
  report_lost recorded_at draft (lost_rows a.(as_lost_edges))
    (MkAssembler a.(as_shard) a.(as_ids) a.(as_correlation) a.(as_unresolved_parents) ∅).

Definition has_lost_edges a : bool := negb (bool_decide (a.(as_lost_edges) = ∅)).

End Assembling.

Definition has_payload (m : Assembled) : bool := negb (bool_decide (m.(am_payload) = [])).

(** [Assembled::seal]. *)
Definition assembled_seal `{D : Digest} {O K A Q : Type} {OS : ObjectStore O} {KP : KeyProvider K} {AE : Aead A} {KS : KeySource Q}
    (m : Assembled) (subject : option SubjectHandle) (v : Vault O K A Q) : result VaultError Record_ * Vault O K A Q :=
  match m.(am_payload) with
  | [] => (Ok m.(am_record), v)
  | parts =>
      match vault_seal m.(am_record).(r_id) parts subject v with
      | (Err e, v) => (Err e, v)
      | (Ok reference, v) => (Ok (attach m.(am_record) reference), v)
      end
  end.

(** ** Identities increase *)

Section Mint_facts.
Context {R : Type} {RN : Rng R} {RL : RngLaws R}.

Lemma lor_disjoint_add hi lo k : 0 <= k -> 0 <= lo < 2 ^ k -> Z.lor (Z.shiftl hi k) lo = hi * 2 ^ k + lo.
Proof.
  intros Hk Hlo. rewrite <- Z.shiftl_mul_pow2 by done. symmetry. assert (H : Z.land (Z.shiftl hi k) lo = 0).
  2: { by rewrite Z.add_nocarry_lxor, Z.lxor_lor. }
  apply Z.bits_inj'. intros n Hn.
  rewrite Z.land_spec, Z.bits_0, Z.shiftl_spec by lia. destruct (Z.ltb_spec n k).
  - by rewrite Z.testbit_neg_r by lia.
  - apply andb_false_iff. right. destruct (Z.eq_dec lo 0) as [->|]; [apply Z.bits_0|]. apply Z.bits_above_log2; [lia|].
    apply Z.log2_lt_pow2; [lia|]. eapply Z.lt_le_trans; [apply Hlo|]. apply Z.pow_le_mono_r; lia.
Qed.

(** An identity is its millisecond and eighty bits. *)
Definition ms_of (recorded_at : Timestamp) : Z := recorded_at / 1000000.

Lemma ms_of_small recorded_at : u64_ok recorded_at -> 0 <= ms_of recorded_at < 2 ^ 45.
Proof.
  unfold u64_ok, ms_of. intros H. split; [apply Z.div_pos; lia|]. apply Z.div_lt_upper_bound; lia.
Qed.

Lemma mint_spec recorded_at (i : IdMinter R) id i' :
  mint recorded_at i = (id, i') -> u64_ok recorded_at -> 0 <= i.(ids_last) < u128_max ->
  i'.(ids_last) = id /\ i.(ids_last) < id /\ ms_of recorded_at * 2 ^ 80 <= id /\
  (id < (ms_of recorded_at + 1) * 2 ^ 80 \/ id = i.(ids_last) + 1).
Proof.
  intros E Ht Hl. unfold mint in E. destruct (ids_random (ids_rng i)) as [random rng].
  pose proof (ms_of_small _ Ht) as Hms. fold (ms_of recorded_at) in E.
  rewrite Z.min_l in E by (change MAX_MS with (2 ^ 48 - 1); lia).
  assert (Hr : 0 <= Z.land random RANDOM_MASK < 2 ^ 80).
  { change RANDOM_MASK with (Z.ones 80). rewrite Z.land_ones by lia. apply Z.mod_pos_bound. lia. }
  rewrite lor_disjoint_add in E by (change RANDOM_BITS with 80; lia). change RANDOM_BITS with 80 in E.
  set (low := Z.land random RANDOM_MASK) in *. clearbody low. unfold u128_max in *.
  destruct (Z.leb_spec (ms_of recorded_at * 2 ^ 80 + low) (ids_last i)); injection E as <- <-; cbn [ids_last]; lia.
Qed.

Lemma millisecond_of_spec id ms : 0 <= ms < 2 ^ 64 -> ms * 2 ^ 80 <= id < (ms + 1) * 2 ^ 80 -> millisecond_of id = ms.
Proof.
  intros Hms Hid. unfold millisecond_of. rewrite Z.shiftr_div_pow2 by (change RANDOM_BITS with 80; lia).
  change RANDOM_BITS with 80. replace (id / 2 ^ 80) with ms; [by apply as_u64_small|].
  apply (Z.div_unique id (2 ^ 80) ms (id - ms * 2 ^ 80)); lia.
Qed.

End Mint_facts.

(** ** The window *)

Record window_ok (c : Window) : Prop := {
  win_capacity : (1 <= c.(cw_capacity))%nat;
  win_length : (length c.(cw_order) <= c.(cw_capacity))%nat;
  win_nodup : NoDup c.(cw_order);
  win_dom : forall k, is_Some (c.(cw_seen) !! k) <-> k ∈ c.(cw_order);
}.

Lemma Window_new_ok n : window_ok (Window_new n).
Proof. split; cbn; [lia|lia|constructor|]. intros k. rewrite lookup_empty. split; [by intros []|set_solver]. Qed.

Lemma window_remember_ok k id c : window_ok c -> window_ok (window_remember k id c) /\ (window_remember k id c).(cw_capacity) = c.(cw_capacity).
Proof.
  intros [Hc Hl Hn Hd]. unfold window_remember. destruct (cw_seen c !! k) as [x|] eqn:Ek; [by split|].
  assert (Hk : k ∉ cw_order c) by (rewrite <- Hd, Ek; by intros []).
  assert (Hn' : NoDup (cw_order c ++ [k])) by (apply NoDup_app; split; [done|]; split; [set_solver|apply NoDup_singleton]).
  assert (Hd' : forall k', is_Some (<[k := id]> (cw_seen c) !! k') <-> k' ∈ cw_order c ++ [k]).
  { intros k'. destruct (decide (k' = k)) as [->|Hne].
    - rewrite lookup_insert_eq. split; [set_solver|by eexists].
    - rewrite lookup_insert_ne, Hd by done. set_solver. }
  destruct (Nat.ltb_spec (cw_capacity c) (length (cw_order c ++ [k]))) as [Hlt|Hge]; [|by split].
  destruct (cw_order c ++ [k]) as [|o order] eqn:Eo; [by destruct (cw_order c)|]. split; [|done].
  apply (f_equal length) in Eo. rewrite length_app in Eo. cbn in Eo. apply NoDup_cons in Hn' as [Ho Hn'].
  split; cbn [cw_capacity cw_order cw_seen]; [done|lia|done|]. intros k'. destruct (decide (k' = o)) as [->|Hne].
  - rewrite lookup_delete_eq. split; [by intros []|done].
  - rewrite lookup_delete_ne, Hd' by done. set_solver.
Qed.

Definition remember_all (l : list (SourceKey * RecordId)) (c : Window) : Window := fold_left (fun c p => window_remember p.1 p.2 c) l c.

Lemma remember_all_ok l c : window_ok c -> window_ok (remember_all l c) /\ (remember_all l c).(cw_capacity) = c.(cw_capacity).
Proof.
  revert c. induction l as [|[k id] l IH]; intros c Hc; [done|]. cbn.
  destruct (window_remember_ok k id c Hc) as [H1 H2]. destruct (IH _ H1) as [H3 H4]. split; [exact H3|]. by etrans; [exact H4|].
Qed.

(** A name still young enough is kept, whatever else is remembered. *)
Lemma remember_all_keeps l c k id o1 o2 :
  window_ok c -> c.(cw_order) = o1 ++ k :: o2 -> resolve k c = Some id ->
  (length o2 + length l < c.(cw_capacity))%nat -> resolve k (remember_all l c) = Some id.
Proof.
  revert c o1 o2. induction l as [|[k' id'] l IH]; intros c o1 o2 Hok Eo Hk Hl; [done|]. cbn [length] in Hl.
  cbn [remember_all fold_left fst snd]. fold (remember_all l (window_remember k' id' c)).
  destruct (window_remember_ok k' id' c Hok) as [Hok' Hcap]. destruct (cw_seen c !! k') as [x|] eqn:Ek'.
  { unfold window_remember. rewrite Ek'. eapply (IH c o1 o2); [done..|lia]. }
  assert (Hne : k' <> k) by (intros ->; unfold resolve in Hk; congruence).
  revert Hok' Hcap. unfold window_remember. rewrite Ek'.
  destruct (Nat.ltb_spec (cw_capacity c) (length (cw_order c ++ [k']))) as [Hlt|Hge].
  - rewrite Eo, <- app_assoc in *. destruct o1 as [|o o1].
    { exfalso. cbn [app length] in Hlt. rewrite length_app in Hlt. cbn in Hlt. lia. }
    cbn [app]. intros Hok' Hcap. assert (Ho : o <> k).
    { intros ->. destruct Hok as [_ _ Hn _]. rewrite Eo in Hn. apply NoDup_cons in Hn as [Hn _]. set_solver. }
    apply (IH _ o1 (o2 ++ [k'])); [done|by cbn; rewrite <- ?app_assoc| |cbn; rewrite length_app; cbn; lia].
    unfold resolve. cbn [cw_seen]. by rewrite lookup_delete_ne, lookup_insert_ne.
  - intros Hok' Hcap. apply (IH _ o1 (o2 ++ [k'])); [done|by cbn; rewrite Eo, <- app_assoc| |cbn; rewrite length_app; cbn; lia].
    unfold resolve. cbn [cw_seen]. by rewrite lookup_insert_ne.
Qed.

(** Remembering other names does not bring one in. *)
Lemma remember_all_none l c k : resolve k c = None -> k ∉ l.*1 -> resolve k (remember_all l c) = None.
Proof.
  revert c. induction l as [|[k' id'] l IH]; intros c Hk Hn; [done|]. cbn in Hn. apply not_elem_of_cons in Hn as [Hne Hn].
  cbn. apply IH; [|done]. unfold window_remember. destruct (cw_seen c !! k') as [x|]; [done|]. unfold resolve in *.
  destruct (_ <? _)%nat.
  - destruct (cw_order c ++ [k']) as [|o order]; cbn [cw_seen]; [by rewrite lookup_insert_ne|].
    destruct (decide (k = o)) as [->|]; [by rewrite lookup_delete_eq|]. by rewrite lookup_delete_ne, lookup_insert_ne.
  - cbn [cw_seen]. by rewrite lookup_insert_ne.
Qed.

(** A batch the window can hold: its first claim to a new name stands. *)
Lemma remember_all_first l1 l2 k id c :
  window_ok c -> resolve k c = None -> k ∉ l1.*1 -> (length (l1 ++ (k, id) :: l2) <= c.(cw_capacity))%nat ->
  resolve k (remember_all (l1 ++ (k, id) :: l2) c) = Some id.
Proof.
  intros Hok Hk Hn Hl. unfold remember_all. rewrite fold_left_app. cbn [fold_left fst snd].
  fold (remember_all l1 c). set (c1 := remember_all l1 c).
  destruct (remember_all_ok l1 c Hok) as [Hok1 Hcap1]. fold c1 in Hok1, Hcap1.
  assert (Hk1 : resolve k c1 = None) by (by apply remember_all_none). fold (remember_all l2 (window_remember k id c1)).
  destruct (window_remember_ok k id c1 Hok1) as [Hok2 Hcap2]. rewrite length_app in Hl. cbn in Hl.
  assert (H : exists o1, (window_remember k id c1).(cw_order) = o1 ++ [k] /\ resolve k (window_remember k id c1) = Some id).
  { revert Hok2. unfold window_remember. unfold resolve in Hk1. rewrite Hk1. destruct (_ <? _)%nat eqn:Elt; intros Hok2.
    - destruct (cw_order c1) as [|o order] eqn:Eo.
      + breflect. cbn in Elt. lia.
      + cbn [app]. exists order. split; [done|]. unfold resolve. cbn [cw_seen]. rewrite lookup_delete_ne; [by rewrite lookup_insert_eq|].
        intros ->. destruct (win_dom _ Hok1 k) as [_ Hd]. rewrite Eo in Hd. rewrite Hk1 in Hd. destruct Hd; [set_solver|done].
    - exists (cw_order c1). split; [done|]. unfold resolve. cbn. by rewrite lookup_insert_eq. }
  destruct H as (o1 & Ho & Hr). eapply remember_all_keeps; [done|exact Ho|done|]. cbn. lia.
Qed.

(** ** A batch in two passes *)

Definition claims (minted : list (Ingest * RecordId)) : list (SourceKey * RecordId) :=
  omap (fun p => (fun c => (c.(co_id), p.2)) <$> p.1.(in_correlation)) minted.

(** Room for [n] more identities. *)
Definition id_room (last : RecordId) (n : nat) : Prop := 0 <= last /\ last + Z.of_nat n < 2 ^ 127 /\ Z.of_nat n < 2 ^ 64.

Lemma length_omap_le {A B} (f : A -> option B) l : (length (omap f l) <= length l)%nat.
Proof. induction l as [|x l IH]; cbn; [lia|]. destruct (f x); cbn; lia. Qed.

Lemma list_last_cons {A} (x d : A) l : List.last (x :: l) d = List.last l x.
Proof. revert x d. induction l as [|y l IH]; intros x d; [done|]. change (List.last (y :: l) d = List.last (y :: l) x). by rewrite !IH. Qed.

Section Batches.
Context {R : Type} {RN : Rng R} {RL : RngLaws R}.
Implicit Types (a : Assembler R).

Lemma mint_id_spec recorded_at a id a' n :
  mint_id recorded_at a = (id, a') -> u64_ok recorded_at -> id_room a.(as_ids).(ids_last) (S n) ->
  a'.(as_ids).(ids_last) = id /\ a.(as_ids).(ids_last) < id /\ ms_of recorded_at * 2 ^ 80 <= id /\ id_room id n /\
  (id < (ms_of recorded_at + 1) * 2 ^ 80 \/ id = a.(as_ids).(ids_last) + 1) /\
  a'.(as_shard) = a.(as_shard) /\ a'.(as_correlation) = a.(as_correlation) /\
  a'.(as_unresolved_parents) = a.(as_unresolved_parents) /\ a'.(as_lost_edges) = a.(as_lost_edges).
Proof.
  intros E Ht (Hl1 & Hl2 & Hl3). unfold mint_id in E. destruct (mint recorded_at (as_ids a)) as [id' ids] eqn:Em. injection E as <- <-.
  pose proof (ms_of_small _ Ht). apply mint_spec in Em as (E1 & E2 & E3 & E4); [|done|unfold u128_max; lia].
  cbn [as_ids as_shard as_correlation as_unresolved_parents as_lost_edges]. split_and!; try done. unfold id_room. lia.
Qed.

Lemma claim_all_spec recorded_at batch a minted a' :
  claim_all recorded_at batch a = (minted, a') -> u64_ok recorded_at -> id_room a.(as_ids).(ids_last) (length batch) ->
  minted.*1 = batch /\ a'.(as_correlation) = remember_all (claims minted) a.(as_correlation) /\
  a'.(as_shard) = a.(as_shard) /\ a'.(as_unresolved_parents) = a.(as_unresolved_parents) /\
  a'.(as_lost_edges) = a.(as_lost_edges) /\
  StronglySorted Z.lt (a.(as_ids).(ids_last) :: minted.*2) /\
  Forall (fun id => ms_of recorded_at * 2 ^ 80 <= id < 2 ^ 127) minted.*2 /\
  a'.(as_ids).(ids_last) = List.last minted.*2 a.(as_ids).(ids_last) /\
  (forall id, head minted.*2 = Some id -> a.(as_ids).(ids_last) < ms_of recorded_at * 2 ^ 80 ->
     millisecond_of id = ms_of recorded_at).
Proof.
  intros E Ht. revert a minted a' E. induction batch as [|ingest batch IH]; intros a minted a' E Hroom; cbn [claim_all] in E.
  { injection E as <- <-. split_and!; try done; repeat constructor. }
  destruct (claim recorded_at ingest a) as [id a1] eqn:Ec. destruct (claim_all recorded_at batch a1) as [ms a2] eqn:Ea.
  injection E as <- <-. unfold claim in Ec. destruct (mint_id recorded_at a) as [id' a0] eqn:Em.
  pose proof (mint_id_spec _ _ _ _ (length batch) Em Ht Hroom) as (E1 & E2 & E3 & E4 & E5 & E6 & E7 & E8 & E9).
  assert (H1 : id = id' /\ a1.(as_ids) = a0.(as_ids) /\ a1.(as_shard) = a0.(as_shard) /\
    a1.(as_unresolved_parents) = a0.(as_unresolved_parents) /\ a1.(as_lost_edges) = a0.(as_lost_edges) /\
    forall l, remember_all l a1.(as_correlation) = remember_all (claims [(ingest, id')] ++ l) a.(as_correlation)).
  { rewrite <- E7. destruct (in_correlation ingest) as [c|] eqn:Ein; injection Ec as <- <-; split_and!; try done;
      intros l; unfold claims; cbn [omap list_omap fst snd]; by rewrite Ein. }
  destruct H1 as (-> & Hids & Hsh & Hun & Hlo & Hco). rewrite <- Hids in E1.
  apply IH in Ea as (F1 & F2 & F3 & F4 & F5 & F6 & F7 & F8 & _); [|by rewrite E1].
  rewrite Hco in F2. rewrite E1 in F6, F8. cbn [fmap list_fmap fst snd]. split_and!.
  - by rewrite F1.
  - rewrite F2. f_equal. unfold claims. cbn. by destruct (in_correlation ingest).
  - congruence.
  - congruence.
  - congruence.
  - constructor; [done|]. apply Forall_cons. split; [done|]. apply StronglySorted_inv in F6 as [_ F6].
    eapply Forall_impl; [exact F6|]. cbn. lia.
  - constructor; [|done]. unfold id_room in E4. lia.
  - by rewrite F8, list_last_cons.
  - intros id [= <-] Hl. pose proof (ms_of_small _ Ht).
    apply millisecond_of_spec; lia.
Qed.

Definition lost_one (c : Window) (p : Ingest * RecordId) : bool := (edge_of p.1 p.2 c).2.

Definition made (a : Assembler R) (recorded_at : Timestamp) (p : Ingest * RecordId) : Assembled :=
  MkAssembled (assemble p.2 a.(as_shard) p.1.(in_meta) recorded_at (edge_of p.1 p.2 a.(as_correlation)).1) p.1.(in_payload).

Lemma count_lost_spec cap run lost :
  dom lost ⊆ dom (count_lost cap run lost) /\ (size lost <= size (count_lost cap run lost))%nat /\
  (run.(as_str) ∈ dom (count_lost cap run lost) \/ (cap <= size (count_lost cap run lost))%nat) /\
  ((size lost <= cap)%nat -> (size (count_lost cap run lost) <= cap)%nat).
Proof.
  unfold count_lost. destruct (Nat.ltb_spec (size lost) cap) as [Hs|Hs].
  - rewrite dom_insert. destruct (decide (is_Some (lost !! run.(as_str)))) as [Hi|Hi].
    + rewrite map_size_insert_Some by done. split_and!; [set_solver|lia|set_solver|lia].
    + apply eq_None_not_Some in Hi. rewrite map_size_insert_None by done. split_and!; [set_solver|lia|set_solver|lia].
  - destruct (lost !! run.(as_str)) as [n|] eqn:El.
    + rewrite dom_insert, map_size_insert_Some by (by eexists). split_and!; [set_solver|lia|set_solver|lia].
    + split_and!; [done|lia|by right|done].
Qed.

Lemma finish_all_spec recorded_at minted a rs a' :
  finish_all recorded_at minted a = (rs, a') ->
  rs = map (made a recorded_at) minted /\ a'.(as_shard) = a.(as_shard) /\ a'.(as_ids) = a.(as_ids) /\
  a'.(as_correlation) = a.(as_correlation) /\
  a'.(as_unresolved_parents) = a.(as_unresolved_parents) + Z.of_nat (length (filter (fun p => lost_one a.(as_correlation) p = true) minted)) /\
  dom a.(as_lost_edges) ⊆ dom a'.(as_lost_edges) /\
  (size a.(as_lost_edges) <= size a'.(as_lost_edges))%nat /\
  ((size a.(as_lost_edges) <= a.(as_correlation).(cw_capacity))%nat -> (size a'.(as_lost_edges) <= a.(as_correlation).(cw_capacity))%nat) /\
  forall p, p ∈ minted -> lost_one a.(as_correlation) p = true ->
    p.1.(in_meta).(md_run_id).(as_str) ∈ dom a'.(as_lost_edges) \/
    (a.(as_correlation).(cw_capacity) <= size a'.(as_lost_edges))%nat.
Proof.
  revert a rs a'. induction minted as [|[ingest id] minted IH]; intros a rs a' E; cbn [finish_all] in E.
  { injection E as <- <-. split_and!; try done; [cbn; lia|set_solver]. }
  destruct (finish_one recorded_at ingest id a) as [r a1] eqn:Ef. destruct (finish_all recorded_at minted a1) as [rs1 a2] eqn:Ea.
  injection E as <- <-. unfold finish_one in Ef. destruct (edge_of ingest id (as_correlation a)) as [edges lost] eqn:Ee.
  set (cap := cw_capacity (as_correlation a)) in *. set (run := md_run_id (in_meta ingest)) in *.
  destruct (count_lost_spec cap run (as_lost_edges a)) as (C1 & C2 & C3 & C4).
  assert (H1 : a1.(as_shard) = a.(as_shard) /\ a1.(as_ids) = a.(as_ids) /\ a1.(as_correlation) = a.(as_correlation) /\
    a1.(as_unresolved_parents) = a.(as_unresolved_parents) + (if lost then 1 else 0) /\
    a1.(as_lost_edges) = (if lost then count_lost cap run a.(as_lost_edges) else a.(as_lost_edges)) /\
    r = made a recorded_at (ingest, id)).
  { unfold made. cbn [fst snd]. rewrite Ee. cbn [fst]. destruct lost; injection Ef as <- <-; cbn; split_and!; try done; lia. }
  destruct H1 as (H1 & H2 & H3 & H4 & H5 & ->). apply IH in Ea as (F1 & F2 & F3 & F4 & F5 & F6 & F7 & F8 & F9).
  rewrite H3 in F4, F5, F8, F9. fold cap in F8, F9. rewrite filter_cons.
  assert (Hl : lost_one (as_correlation a) (ingest, id) = lost) by (unfold lost_one; cbn [fst snd]; by rewrite Ee).
  split_and!.
  - rewrite F1. cbn [map]. f_equal. apply map_ext. intros p. unfold made. by rewrite H1, H3.
  - congruence.
  - congruence.
  - congruence.
  - rewrite F5, H4, Hl. destruct lost; case_decide; try done; cbn [length]; lia.
  - rewrite H5 in F6. destruct lost; [|done]. by etrans.
  - rewrite H5 in F7. destruct lost; lia.
  - intros Hs. apply F8. rewrite H5. destruct lost; [by apply C4|done].
  - intros p [->|Hp]%elem_of_cons Hlost.
    + rewrite Hl in Hlost. rewrite Hlost in H5. rewrite H5 in F6, F7. destruct C3 as [C3|C3]; [left; apply F6; exact C3|right; lia].
    + by apply F9.
Qed.

End Batches.

(** ** Well-formed drafts, assemblers and records *)

Record draft_ok (d : MetaDraft) : Prop := {
  dok_mapper : u16_ok d.(md_mapper);
  dok_tenant : token_ok d.(md_tenant);
  dok_agent : token_ok d.(md_agent_id);
  dok_run : token_ok d.(md_run_id);
  dok_parent : opt_ok token_ok d.(md_parent_run_id);
  dok_behalf : Forall token_ok d.(md_on_behalf_of);
  dok_occurred : u64_ok (as_untrusted d.(md_occurred_at));
  dok_decided : opt_ok (fun t => u64_ok (as_untrusted t)) d.(md_decided_at);
  dok_basis : basis_ok d.(md_basis);
  dok_latency : opt_ok u64_ok d.(md_latency_micros);
  dok_tokens_in : opt_ok u32_ok d.(md_tokens_in);
  dok_tokens_out : opt_ok u32_ok d.(md_tokens_out);
  dok_cost : opt_ok i64_ok d.(md_cost_micros);
}.

#[export] Instance draft_ok_dec d : Decision (draft_ok d).
Proof. decide_record. Defined.

Record assembler_ok {R} (a : Assembler R) : Prop := {
  aok_shard : u16_ok a.(as_shard);
  aok_window : window_ok a.(as_correlation);
  aok_ids : map_Forall (fun _ id => u128_ok id) a.(as_correlation).(cw_seen);
  aok_lost : (size a.(as_lost_edges) <= a.(as_correlation).(cw_capacity))%nat;
  aok_runs : map_Forall (fun run n => token_ok (MkToken run : RunId) /\ u32_ok n) a.(as_lost_edges);
}.

Lemma assemble_ok id shard d at_ edges :
  u128_ok id -> u16_ok shard -> draft_ok d -> u64_ok at_ -> Forall u128_ok edges ->
  record_ok (assemble id shard d at_ edges).
Proof.
  intros Hid Hsh [] Ht He. split; cbn; try done.
  - rewrite (proj2 (assess_skew_spec _ _)). unfold u64_ok in *. lia.
Qed.

Lemma remember_ids (P : RecordId -> Prop) k id c : P id -> map_Forall (fun _ i => P i) c.(cw_seen) ->
  map_Forall (fun _ i => P i) (window_remember k id c).(cw_seen).
Proof.
  intros Hid Hc. unfold window_remember. destruct (cw_seen c !! k); [done|].
  assert (H : map_Forall (fun _ i => P i) (<[k := id]> (cw_seen c))) by (by apply map_Forall_insert_2).
  destruct (_ <? _)%nat; [|done]. destruct (_ ++ _); [done|]. by apply map_Forall_delete.
Qed.

Lemma remember_all_ids (P : RecordId -> Prop) l c : Forall P l.*2 -> map_Forall (fun _ i => P i) c.(cw_seen) ->
  map_Forall (fun _ i => P i) (remember_all l c).(cw_seen).
Proof.
  revert c. induction l as [|[k id] l IH]; intros c Hl Hc; [done|]. cbn in Hl. apply Forall_cons in Hl as [Hid Hl].
  cbn. apply IH; [done|]. by apply remember_ids.
Qed.

Lemma count_lost_rows cap run lost : token_ok run ->
  map_Forall (fun r n => token_ok (MkToken r : RunId) /\ u32_ok n) lost ->
  map_Forall (fun r n => token_ok (MkToken r : RunId) /\ u32_ok n) (count_lost cap run lost).
Proof.
  intros Hr Hl. assert (Hinc : forall n, u32_ok n -> u32_ok (saturating_inc_u32 n)) by (unfold u32_ok, saturating_inc_u32, u32_max; lia).
  assert (Hn : u32_ok (default 0 (lost !! run.(as_str)))).
  { destruct (lost !! as_str run) eqn:E; [apply Hl in E as [_ E]; exact E|]. by vm_compute. }
  unfold count_lost. destruct run as [run]. cbn [as_str] in *. destruct (_ <? _)%nat.
  - apply map_Forall_insert_2; [|done]. split; [done|by apply Hinc].
  - destruct (lost !! run) as [n|]; [|done]. apply map_Forall_insert_2; [|done]. split; [done|by apply Hinc].
Qed.

Section Well_typed.
Context {R : Type} {RN : Rng R} {RL : RngLaws R}.
Implicit Types (a : Assembler R).

Lemma finish_all_rows recorded_at minted a rs a' :
  finish_all recorded_at minted a = (rs, a') -> Forall (fun p => draft_ok p.1.(in_meta)) minted ->
  map_Forall (fun run n => token_ok (MkToken run : RunId) /\ u32_ok n) a.(as_lost_edges) ->
  map_Forall (fun run n => token_ok (MkToken run : RunId) /\ u32_ok n) a'.(as_lost_edges).
Proof.
  revert a rs a'. induction minted as [|[ingest id] minted IH]; intros a rs a' E Hf Ha; cbn [finish_all] in E; [by injection E as <- <-|].
  destruct (finish_one recorded_at ingest id a) as [r a1] eqn:Ef. destruct (finish_all recorded_at minted a1) as [rs1 a2] eqn:Ea.
  injection E as <- <-. apply Forall_cons in Hf as [Hd Hf]. eapply IH; [exact Ea|done|]. unfold finish_one in Ef.
  destruct (edge_of _ _ _) as [edges lost]. destruct lost; injection Ef as <- <-; [|done]. cbn [as_lost_edges].
  apply count_lost_rows; [apply Hd|done].
Qed.

Lemma made_ok a recorded_at p :
  u16_ok a.(as_shard) -> map_Forall (fun _ i => u128_ok i) a.(as_correlation).(cw_seen) -> draft_ok p.1.(in_meta) ->
  u64_ok recorded_at -> u128_ok p.2 -> record_ok (made a recorded_at p).(am_record).
Proof.
  intros Hs Hi Hd Ht Hp. apply assemble_ok; try done. unfold edge_of.
  destruct (in_correlation p.1 ≫= co_parent) as [k|]; [|by constructor].
  destruct (resolve k _) as [found|] eqn:Er; [|by constructor]. apply Hi in Er. destruct (found =? p.2); [by constructor|].
  by apply Forall_singleton.
Qed.

Lemma report_lost_ok recorded_at draft lost a rs a' :
  report_lost recorded_at draft lost a = (rs, a') -> draft_ok draft -> u64_ok recorded_at -> u16_ok a.(as_shard) ->
  id_room a.(as_ids).(ids_last) (length lost) -> Forall (fun p => token_ok (MkToken p.1 : RunId) /\ u32_ok p.2) lost ->
  map (fun m => (m.(am_record).(run_id).(as_str), m.(am_record).(outcome).(tokens_in))) rs = map (fun p => (p.1, Some p.2)) lost /\
  Forall (fun m => record_ok m.(am_record) /\ is_loss m.(am_record) = true) rs /\
  a'.(as_shard) = a.(as_shard) /\ a'.(as_correlation) = a.(as_correlation) /\ a'.(as_lost_edges) = a.(as_lost_edges).
Proof.
  revert a rs a'. induction lost as [|[run n] lost IH]; intros a rs a' E Hd Ht Hs Hroom Hl; cbn [report_lost] in E.
  { injection E as <- <-. by split_and!. }
  destruct (mint_id recorded_at a) as [id a1] eqn:Em. destruct (report_lost recorded_at draft lost a1) as [rs1 a2] eqn:Er.
  injection E as <- <-. apply Forall_cons in Hl as [[Hrun Hn] Hl]. cbn [fst snd] in Hrun, Hn.
  pose proof (mint_id_spec _ _ _ _ (length lost) Em Ht Hroom) as (E1 & E2 & E3 & E4 & E5 & E6 & E7 & E8 & E9).
  apply IH in Er as (F1 & F2 & F3 & F4 & F5); try done; [|by rewrite E6|by rewrite E1].
  split; [cbn [map]; by rewrite F1|]. split_and!; [|congruence..]. constructor; [|done]. split; [|done]. apply assemble_ok.
  - unfold id_room in E4, Hroom. unfold u128_ok. lia.
  - by rewrite E6.
  - destruct Hd. by split.
  - done.
  - constructor.
Qed.

Lemma lost_rows_elem lost run n : (run, n) ∈ lost_rows lost <-> lost !! run = Some n.
Proof.
  unfold lost_rows. rewrite list_elem_of_omap. split.
  - intros (run' & _ & H). destruct (lost !! run') eqn:E; [|done]. by injection H as -> ->.
  - intros E. exists run. rewrite elem_of_ascending, E. split; [by apply elem_of_dom_2 in E|done].
Qed.

Lemma lost_rows_length lost : (length (lost_rows lost) <= size lost)%nat.
Proof.
  rewrite <- (size_dom (D := gset (list byte))), <- length_ascending. unfold lost_rows.
  apply length_omap_le.
Qed.

End Well_typed.

(** ** The theorems *)

Section Batch_states.
Context {R : Type} {RN : Rng R} {RL : RngLaws R}.
Implicit Types (a : Assembler R).

(** What a batch leaves and gives, in a well-formed state. *)
Lemma adopt_batch_ok a a' batch at_ rs :
  assembler_ok a -> u64_ok at_ -> id_room a.(as_ids).(ids_last) (length batch) ->
  Forall (fun i => draft_ok i.(in_meta)) batch -> adopt_batch batch at_ a = (rs, a') ->
  assembler_ok a' /\ Forall (fun m => record_ok m.(am_record)) rs /\ map am_payload rs = map in_payload batch.
Proof.
  intros [H1 H2 H3 H4 H5] Ht Hroom Hd E. unfold adopt_batch in E.
  destruct (claim_all at_ batch a) as [minted a1] eqn:Ec. pose proof (claim_all_spec _ _ _ _ _ Ec Ht Hroom) as
    (C1 & C2 & C3 & C4 & C5 & _ & C7 & _). pose proof (finish_all_spec _ _ _ _ _ E) as (-> & F2 & F3 & F4 & _ & _ & _ & F8 & _).
  assert (Hids : Forall u128_ok minted.*2).
  { eapply Forall_impl; [exact C7|]. cbn. pose proof (ms_of_small _ Ht). unfold u128_ok. lia. }
  assert (Hseen : map_Forall (fun _ id => u128_ok id) a1.(as_correlation).(cw_seen)).
  { rewrite C2. apply remember_all_ids; [|done]. apply Forall_forall. intros id Hin. apply list_elem_of_fmap in Hin as ([k id'] & -> & Hin).
    apply list_elem_of_omap in Hin as ([i id''] & Hin & Hf). cbn in Hf. destruct (in_correlation i); [|done]. injection Hf as _ <-.
    rewrite Forall_forall in Hids. apply Hids, list_elem_of_fmap. by exists (i, id''). }
  assert (Hdraft : Forall (fun p => draft_ok p.1.(in_meta)) minted) by (rewrite <- C1, Forall_fmap in Hd; exact Hd).
  destruct (remember_all_ok (claims minted) _ H2) as [W1 W2]. split; [|split].
  - split; [by rewrite F2, C3|by rewrite F4, C2|by rewrite F4| |].
    + rewrite F4. apply F8. by rewrite C5, C2, W2.
    + eapply finish_all_rows; [exact E|done|]. by rewrite C5.
  - apply Forall_map, Forall_forall. intros p Hp. rewrite Forall_forall in Hdraft. rewrite Forall_forall in Hids. apply made_ok; try done.
    + by rewrite C3.
    + by apply Hdraft.
    + apply Hids, list_elem_of_fmap. by exists p.
  - rewrite map_map, <- C1. cbn. symmetry. apply map_map.
Qed.

(** The records told of lost edges. *)
Lemma lost_edge_events_ok a a' draft at_ ls :
  assembler_ok a -> u64_ok at_ -> id_room a.(as_ids).(ids_last) (size a.(as_lost_edges)) -> draft_ok draft ->
  lost_edge_events at_ draft a = (ls, a') ->
  assembler_ok a' /\ Forall (fun m => record_ok m.(am_record) /\ is_loss m.(am_record) = true) ls /\
  a'.(as_lost_edges) = ∅ /\
  map (fun m => (m.(am_record).(run_id).(as_str), m.(am_record).(outcome).(tokens_in))) ls
    = map (fun p => (p.1, Some p.2)) (lost_rows a.(as_lost_edges)).
Proof.
  intros [K1 K2 K3 K4 K5] Ht Hroom Hd El. unfold lost_edge_events in El.
  assert (Hr : id_room a.(as_ids).(ids_last) (length (lost_rows a.(as_lost_edges)))).
  { pose proof (lost_rows_length (as_lost_edges a)). unfold id_room in *. lia. }
  assert (Hrows : Forall (fun p => token_ok (MkToken p.1 : RunId) /\ u32_ok p.2) (lost_rows a.(as_lost_edges))).
  { apply Forall_forall. intros [run n] Hin%lost_rows_elem. by apply K5 in Hin. }
  destruct (report_lost_ok _ _ _ _ _ _ El Hd Ht K1 Hr Hrows) as (L1 & L2 & L3 & L4 & L5).
  cbn [as_shard as_correlation as_lost_edges] in L3, L4, L5.
  split; [|by split_and!]. split; rewrite ?L3, ?L4, ?L5; [done|done|done|rewrite map_size_empty; lia|apply map_Forall_empty].
Qed.

End Batch_states.

(** C21 (assembled records are well formed). From an assembler in a well-formed state,
    with its window and its list of lost edges within their bounds, a batch of
    well-formed drafts gives well-formed records and leaves such an assembler, and
    so does reporting the lost edges. *)
Theorem assembled_records_are_well_formed {R : Type} {RN : Rng R} {RL : RngLaws R} (a a' : Assembler R) batch at_ rs :
  assembler_ok a -> u64_ok at_ -> id_room a.(as_ids).(ids_last) (length batch) ->
  Forall (fun i => draft_ok i.(in_meta)) batch -> adopt_batch batch at_ a = (rs, a') ->
  assembler_ok a' /\ Forall (fun m => record_ok m.(am_record)) rs /\ map am_payload rs = map in_payload batch /\
  forall draft ls a'', draft_ok draft -> id_room a'.(as_ids).(ids_last) (size a'.(as_lost_edges)) ->
    lost_edge_events at_ draft a' = (ls, a'') ->
    assembler_ok a'' /\ Forall (fun m => record_ok m.(am_record)) ls.
Proof.
  intros Ha Ht Hroom Hd E. destruct (adopt_batch_ok _ _ _ _ _ Ha Ht Hroom Hd E) as (Ha' & Hrs & Hpay).
  split; [done|]. split; [done|]. split; [done|]. intros draft ls a'' Hdr Hroom' El.
  apply lost_edge_events_ok in El as (Ha'' & Hls & _); try done. split; [done|]. eapply Forall_impl; [exact Hls|]. by intros m [].
Qed.

(** Identities increase. The identities a batch is given are strictly greater than
    every one given before and increase in the batch's order, whatever the clock
    does; each is at or after the millisecond it was recorded in, and the first of a
    batch is in it when the clock has moved on. *)
Theorem identities_increase {R : Type} {RN : Rng R} {RL : RngLaws R} (a a' : Assembler R) batch at_ rs :
  u64_ok at_ -> id_room a.(as_ids).(ids_last) (length batch) -> adopt_batch batch at_ a = (rs, a') ->
  let ids := map (fun m => m.(am_record).(r_id)) rs in
  length ids = length batch /\
  StronglySorted Z.lt (a.(as_ids).(ids_last) :: ids) /\ a'.(as_ids).(ids_last) = List.last ids a.(as_ids).(ids_last) /\
  Forall (fun id => at_ / 1000000 <= millisecond_of id) ids /\
  (a.(as_ids).(ids_last) < at_ / 1000000 * 2 ^ 80 -> forall id, head ids = Some id -> millisecond_of id = at_ / 1000000).
Proof.
  intros Ht Hroom E ids. unfold adopt_batch in E. destruct (claim_all at_ batch a) as [minted a1] eqn:Ec.
  pose proof (claim_all_spec _ _ _ _ _ Ec Ht Hroom) as (C1 & _ & _ & _ & _ & C6 & C7 & C8 & C9).
  apply finish_all_spec in E as (-> & _ & F3 & _). assert (Ei : ids = minted.*2) by (unfold ids; by rewrite map_map). rewrite Ei, F3.
  split; [by rewrite <- C1, !length_fmap|]. split; [done|]. split; [done|]. split.
  - eapply Forall_impl; [exact C7|]. cbn. intros id [Hlo Hhi]. fold (ms_of at_). unfold millisecond_of.
    pose proof (ms_of_small _ Ht). rewrite Z.shiftr_div_pow2 by (change RANDOM_BITS with 80; lia). change RANDOM_BITS with 80.
    assert (ms_of at_ <= id / 2 ^ 80) by (apply Z.div_le_lower_bound; lia).
    assert (id / 2 ^ 80 < 2 ^ 47) by (apply Z.div_lt_upper_bound; lia). rewrite as_u64_small; [done|]. unfold u64_ok. lia.
  - intros Hl id Hh. by apply C9.
Qed.

(** The name an event goes by, and the one it gives its parent. *)
Definition name_of (i : Ingest) : option SourceKey := co_id <$> i.(in_correlation).
Definition parent_of (i : Ingest) : option SourceKey := i.(in_correlation) ≫= co_parent.

Lemma claims_app m1 m2 : claims (m1 ++ m2) = claims m1 ++ claims m2.
Proof. apply omap_app. Qed.

Lemma claims_keys m k : k ∈ (claims m).*1 -> exists i id, (i, id) ∈ m /\ name_of i = Some k.
Proof.
  intros Hin. apply list_elem_of_fmap in Hin as ([k' id] & -> & Hin). apply list_elem_of_omap in Hin as ([i id'] & Hin & Hf).
  exists i, id'. split; [done|]. unfold name_of. cbn in *. destruct (in_correlation i); by simplify_eq/=.
Qed.

(** C19 (a batch's edges do not depend on its order). In a batch the window can hold, an
    event whose parent is in the same batch under a name not seen before gets exactly
    the edge to it, to the first that claims the name, also when the parent comes
    later; an event that is its own parent gets none. *)
Theorem batch_order_does_not_matter {R : Type} {RN : Rng R} {RL : RngLaws R} (a a' : Assembler R) batch at_ rs i j child parent k r p :
  u64_ok at_ -> id_room a.(as_ids).(ids_last) (length batch) -> window_ok a.(as_correlation) ->
  (length batch <= a.(as_correlation).(cw_capacity))%nat -> resolve k a.(as_correlation) = None ->
  adopt_batch batch at_ a = (rs, a') ->
  batch !! i = Some child -> parent_of child = Some k ->
  batch !! j = Some parent -> name_of parent = Some k ->
  (forall j' other, (j' < j)%nat -> batch !! j' = Some other -> name_of other <> Some k) ->
  rs !! i = Some r -> rs !! j = Some p ->
  r.(am_record).(caused_by) = if decide (i = j) then [] else [p.(am_record).(r_id)].
Proof.
  intros Ht Hroom Hw Hcap Hk E Hi Hpk Hj Hname Hfirst Hr Hp. unfold adopt_batch in E.
  destruct (claim_all at_ batch a) as [minted a1] eqn:Ec.
  pose proof (claim_all_spec _ _ _ _ _ Ec Ht Hroom) as (C1 & C2 & _ & _ & _ & C6 & _). apply finish_all_spec in E as (-> & _).
  rewrite list_lookup_fmap in Hr, Hp. destruct (minted !! i) as [[child' id_i]|] eqn:Ei; [|done].
  destruct (minted !! j) as [[parent' id_j]|] eqn:Ej; [|done]. injection Hr as <-. injection Hp as <-.
  assert (child' = child /\ parent' = parent) as [-> ->].
  { rewrite <- C1, list_lookup_fmap in Hi, Hj. rewrite Ei in Hi. rewrite Ej in Hj. by injection Hi as ->; injection Hj as ->. }
  assert (Hres : resolve k a1.(as_correlation) = Some id_j).
  { rewrite C2. pose proof (take_drop_middle _ _ _ Ej) as Em. rewrite <- Em, claims_app.
    assert (Ec' : claims ((parent, id_j) :: drop (S j) minted) = (k, id_j) :: claims (drop (S j) minted)).
    { unfold name_of in Hname. unfold claims. cbn. destruct (in_correlation parent); by simplify_eq/=. }
    rewrite Ec'. apply remember_all_first; [done|done| |].
    - intros Hin. apply claims_keys in Hin as (other & id & Hin & Hn). apply list_elem_of_lookup in Hin as [j' Hj'].
      apply lookup_take_Some in Hj' as [Hj' Hlt]. apply (Hfirst j' other Hlt); [|done]. rewrite <- C1, list_lookup_fmap. by rewrite Hj'.
    - rewrite <- Ec', <- claims_app, Em. etrans; [apply length_omap_le|]. by rewrite <- (length_fmap fst), C1. }
  unfold made. cbn [am_record assemble caused_by r_id fst snd]. unfold edge_of. unfold parent_of in Hpk. rewrite Hpk, Hres.
  apply StronglySorted_inv in C6 as [C6 _].
  destruct (Z.eqb_spec id_j id_i) as [E|E]; cbn [fst]; case_decide as Ed; try done.
  - exfalso. apply Ed. subst id_j. assert (Hn : NoDup minted.*2).
    { clear -C6. induction C6 as [|x l Hs IH Hf]; constructor; [|done]. intros Hin. rewrite Forall_forall in Hf. specialize (Hf _ Hin). lia. }
    eapply NoDup_lookup; [exact Hn| |]; rewrite list_lookup_fmap; [by rewrite Ei|by rewrite Ej].
  - exfalso. apply E. subst j. rewrite Ei in Ej. by injection Ej as ->.
Qed.

(** The records without the edge they should have are those that lost one. *)
Lemma edgeless_lost {R} (a : Assembler R) at_ minted :
  filter (fun p => parent_of p.1 <> None /\ p.2.(am_record).(caused_by) = []) (zip minted.*1 (map (made a at_) minted))
  = (fun p => (p.1, made a at_ p)) <$> filter (fun p => lost_one a.(as_correlation) p = true) minted.
Proof.
  induction minted as [|p l IH]; [done|].
  change (zip (p :: l).*1 (map (made a at_) (p :: l))) with ((p.1, made a at_ p) :: zip l.*1 (map (made a at_) l)).
  assert (H : parent_of p.1 <> None /\ (made a at_ p).(am_record).(caused_by) = [] <-> lost_one a.(as_correlation) p = true).
  { unfold lost_one, parent_of, made. cbn [am_record assemble caused_by]. unfold edge_of.
    destruct (in_correlation p.1 ≫= co_parent) as [k|]; [|cbn; naive_solver].
    destruct (resolve k _) as [found|]; [destruct (found =? p.2)|]; cbn [fst snd]; naive_solver. }
  rewrite !filter_cons, IH. cbn [fst snd]. do 2 case_decide; try done; tauto.
Qed.

(** C20 (a lost edge is told). Every record that named a parent and has no edge is counted,
    and the run it belongs to gets a record of the store's own, one that a
    reconstruction of the run takes for a loss, unless as many runs as the window
    holds are waiting for one already. *)
Theorem lost_edges_are_told {R : Type} {RN : Rng R} {RL : RngLaws R} (a a' a'' : Assembler R) batch at_ rs draft ls :
  assembler_ok a -> u64_ok at_ -> id_room a.(as_ids).(ids_last) (length batch) ->
  Forall (fun i => draft_ok i.(in_meta)) batch -> draft_ok draft ->
  adopt_batch batch at_ a = (rs, a') -> id_room a'.(as_ids).(ids_last) (size a'.(as_lost_edges)) ->
  lost_edge_events at_ draft a' = (ls, a'') ->
  let edgeless := filter (fun p => parent_of p.1 <> None /\ p.2.(am_record).(caused_by) = []) (zip batch rs) in
  a'.(as_unresolved_parents) = a.(as_unresolved_parents) + Z.of_nat (length edgeless) /\
  (forall p, p ∈ edgeless ->
     (exists m, m ∈ ls /\ m.(am_record).(run_id) = p.2.(am_record).(run_id) /\ is_loss m.(am_record) = true) \/
     (a.(as_correlation).(cw_capacity) <= size a'.(as_lost_edges))%nat) /\
  has_lost_edges a'' = false.
Proof.
  intros Ha Ht Hroom Hd Hdr E Hroom' El edgeless.
  destruct (adopt_batch_ok _ _ _ _ _ Ha Ht Hroom Hd E) as (Ha' & _).
  destruct (lost_edge_events_ok _ _ _ _ _ Ha' Ht Hroom' Hdr El) as (_ & L2 & L3 & L1).
  unfold adopt_batch in E. destruct (claim_all at_ batch a) as [minted a1] eqn:Ec.
  pose proof (claim_all_spec _ _ _ _ _ Ec Ht Hroom) as (C1 & C2 & C3 & C4 & C5 & _).
  apply finish_all_spec in E as (-> & F2 & F3 & F4 & F5 & _ & _ & _ & F9).
  assert (He : edgeless = (fun p => (p.1, made a1 at_ p)) <$> filter (fun p => lost_one a1.(as_correlation) p = true) minted)
    by (unfold edgeless; rewrite <- C1; apply edgeless_lost).
  split; [by rewrite He, length_fmap, F5, C4|]. split; [|unfold has_lost_edges; by rewrite L3].
  intros p Hp. rewrite He in Hp. apply list_elem_of_fmap in Hp as (q & -> & Hq). apply list_elem_of_filter in Hq as [Hlost Hq].
  destruct (F9 q Hq Hlost) as [Hrun|Hfull]; [left|right].
  - apply elem_of_dom in Hrun as [n Hn].
    assert (Hin : (q.1.(in_meta).(md_run_id).(as_str), Some n) ∈ map (fun p => (p.1, Some p.2)) (lost_rows (as_lost_edges a')))
      by (apply list_elem_of_fmap; exists (q.1.(in_meta).(md_run_id).(as_str), n); split; [done|by apply lost_rows_elem]).
    rewrite <- L1 in Hin. apply list_elem_of_fmap in Hin as (m & Em & Hm). exists m. split; [done|].
    rewrite Forall_forall in L2. split; [|by apply L2]. injection Em as Em _. cbn.
    destruct (run_id (am_record m)), (md_run_id (in_meta q.1)). cbn in Em. by subst.
  - rewrite C2 in Hfull. by rewrite (proj2 (remember_all_ok _ _ (aok_window _ Ha))) in Hfull.
Qed.

(** Sealing changes the payload reference and nothing else. *)
Lemma assembled_seal_spec `{D : Digest} {DL : DigestLaws D} {O K A Q : Type} {OS : ObjectStore O} {KP : KeyProvider K} {AE : Aead A}
    {KS : KeySource Q} {KL : KeyProviderLaws K} (m : Assembled) subject (v v' : Vault O K A Q) r :
  assembled_seal m subject v = (Ok r, v') -> kp_ok v.(v_provider) -> record_ok m.(am_record) ->
  u64_ok (Z.of_nat (length (encode_parts m.(am_payload)))) ->
  record_ok r /\
  r = if has_payload m then attach m.(am_record) (sealed_ref v m.(am_record).(r_id) m.(am_payload)) else m.(am_record).
Proof.
  intros E Hk Hm Hsize. unfold assembled_seal, has_payload in *. destruct (am_payload m) as [|p ps]; [by injection E as <- <-|].
  destruct (vault_seal _ (p :: ps) subject v) as [[ref|e] v1] eqn:Es; [|done]. injection E as <- <-.
  apply vault_seal_inv in Es as (_ & _ & _ & -> & _); [|done]. cbn [negb bool_decide]. split; [|done].
  destruct Hm. split; try done. cbn. split; [apply digest_ok|exact Hsize|apply digest_ok].
Qed.

#[export] Instance id_room_dec last n : Decision (id_room last n).
Proof. unfold id_room. apply _. Defined.

Lemma Assembler_with_window_ok {R} (shard : ShardIx) (rng : R) window :
  u16_ok shard -> assembler_ok (Assembler_with_window shard rng window).
Proof.
  intros Hs. split; cbn; [done|apply Window_new_ok|apply map_Forall_empty| |apply map_Forall_empty]. rewrite map_size_empty. lia.
Qed.

Lemma next_u64_ok s : u64_ok (next_u64 s).1.
Proof.
  unfold next_u64. cbn [fst]. match goal with |- u64_ok (Z.lxor ?z _) => assert (Hz : u64_ok z) by apply as_u64_ok; revert Hz; generalize z end.
  intros z Hz. unfold u64_ok in *. apply lxor_range; [lia|done|]. rewrite Z.shiftr_div_pow2 by lia.
  split; [apply Z.div_pos; lia|]. apply Z.div_lt_upper_bound; lia.
Qed.

#[export] Instance SimRng_laws : RngLaws SimRng.
Proof.
  intros [s]. unfold rng_next, SimRng_Rng. cbn [rng_state]. pose proof (next_u64_ok s) as H. by destruct (next_u64 s).
Qed.

(** ** An assembler that runs *)

Module Sample.

Definition key (s : string) : SourceKey := default (MkSourceKey x00 []) (SourceKey_new (lit s)).

Definition event (run : string) (name : string) (parent : option string) : Ingest := {|
  in_meta := {|
    md_mapper := 1; md_tenant := MkToken (lit "acme"); md_agent_id := MkToken (lit "agent://acme/bot");
    md_run_id := MkToken (lit run); md_parent_run_id := None; md_on_behalf_of := [];
    md_occurred_at := Untrusted_new 5; md_decided_at := None; md_event_type := ToolCall; md_severity := Info;
    md_basis := Basis_default; md_verdict := None; md_error := None; md_latency_micros := None;
    md_tokens_in := None; md_tokens_out := None; md_cost_micros := None |};
  in_payload := [MkPart Prompt (lit "hello")];
  in_correlation := Some (MkCorrelation (key name) (key <$> parent));
  in_cursor := 0 |}.

(** Children first, as spans are exported; one names a parent nobody saw. *)
Definition batch : list Ingest :=
  [event "run-1" "child" (Some "root"); event "run-1" "root" None; event "run-2" "lone" (Some "elsewhere")]%string.

Definition at_ : Timestamp := 1700000000123456789.
Definition a0 : Assembler SimRng := Assembler_with_window 3 (MkSimRng 42) 4.
Definition rs : list Assembled := (adopt_batch batch at_ a0).1.
Definition a1 := (adopt_batch batch at_ a0).2.
Definition store_draft : MetaDraft := (event "store" "x" None).(in_meta).
Definition ls : list Assembled := (lost_edge_events at_ store_draft a1).1.
Definition a2 := (lost_edge_events at_ store_draft a1).2.

Lemma batch_drafts_ok : Forall (fun i => draft_ok i.(in_meta)) batch.
Proof. by_evaluation. Qed.

Lemma batch_adopted : adopt_batch batch at_ a0 = (rs, a1).
Proof. apply surjective_pairing. Qed.

Example run_edges : map (fun m => length m.(am_record).(caused_by)) rs = [1; 0; 0]%nat /\ a1.(as_unresolved_parents) = 1.
Proof. vm_compute. split; reflexivity. Qed.

Lemma assembled_records_are_well_formed_witness : assembler_ok a1 /\ Forall (fun m => record_ok m.(am_record)) rs.
Proof.
  refine (let H := assembled_records_are_well_formed a0 a1 batch at_ rs _ _ _ batch_drafts_ok batch_adopted in
          conj (proj1 H) (proj1 (proj2 H))).
  - apply Assembler_with_window_ok. by vm_compute.
  - by vm_compute.
  - by_evaluation.
Defined.

Lemma identities_increase_witness : StronglySorted Z.lt (0 :: map (fun m => m.(am_record).(r_id)) rs).
Proof.
  refine (proj1 (proj2 (identities_increase a0 a1 batch at_ rs _ _ batch_adopted))).
  - by vm_compute.
  - by_evaluation.
Defined.

Definition r0 : Assembled := default (MkAssembled (assemble 0 0 store_draft 0 []) []) (rs !! 0%nat).
Definition r1 : Assembled := default (MkAssembled (assemble 0 0 store_draft 0 []) []) (rs !! 1%nat).

Lemma batch_order_does_not_matter_witness : r0.(am_record).(caused_by) = [r1.(am_record).(r_id)].
Proof.
  refine (batch_order_does_not_matter a0 a1 batch at_ rs 0 1 (event "run-1" "child" (Some "root"%string)) (event "run-1" "root" None) (key "root")
            r0 r1 _ _ _ _ _ batch_adopted eq_refl eq_refl eq_refl eq_refl _ _ _).
  - by vm_compute.
  - by_evaluation.
  - apply Window_new_ok.
  - cbn. lia.
  - reflexivity.
  - intros [|j'] other Hj Ho; [|lia]. injection Ho as <-. vm_compute. discriminate.
  - vm_compute. reflexivity.
  - vm_compute. reflexivity.
Defined.

Lemma lost_edges_are_told_witness : a1.(as_unresolved_parents) = 1 /\ has_lost_edges a2 = false.
Proof.
  assert (H0 : assembler_ok a0) by (apply Assembler_with_window_ok; by vm_compute).
  assert (Ht : u64_ok at_) by (by vm_compute).
  assert (Hr0 : id_room a0.(as_ids).(ids_last) (length batch)) by by_evaluation.
  assert (Hr1 : id_room a1.(as_ids).(ids_last) (size a1.(as_lost_edges))) by by_evaluation.
  assert (Hd : draft_ok store_draft) by by_evaluation.
  destruct (lost_edges_are_told a0 a1 a2 batch at_ rs store_draft ls H0 Ht Hr0 batch_drafts_ok Hd batch_adopted Hr1
              (surjective_pairing _)) as (H1 & _ & H2).
  split; [|exact H2]. etrans; [exact H1|]. vm_compute. reflexivity.
Defined.

End Sample.
