(* ===== verification/Json.v ===== *)
(** * The JSON reader's errors and bounds ([trailryx-json/src/lib.rs])

    A refusal says whether the bytes are not JSON, are JSON beyond a bound, or are
    not UTF-8; every bound is in one place. *)

From S2P Require Import Prelude Bytes Ids.

Inductive Bound := Depth | NumberDigits | ObjectMembers | LineTooLong.

Inductive Encoding := InvalidUtf8 | IncompleteUtf8 | Utf16Le | Utf16Be | Utf32Le | Utf32Be.

Inductive Syntax :=
  | UnexpectedEof | UnexpectedByte | TrailingContent | TrailingComma | ExpectedColon | ExpectedName
  | DuplicateName | ControlInString | BadEscape | LoneSurrogate | BadNumber | BadLiteral.

Inductive Kind := KSyntax (s : Syntax) | KLimit (b : Bound) | KEncoding (e : Encoding).

Record JsonError := MkJsonError { je_kind : Kind; je_line : Z; je_byte_in_line : Z }.

#[export] Instance Bound_eq_dec : EqDecision Bound. Proof. solve_decision. Defined.
#[export] Instance Encoding_eq_dec : EqDecision Encoding. Proof. solve_decision. Defined.
#[export] Instance Syntax_eq_dec : EqDecision Syntax. Proof. solve_decision. Defined.
#[export] Instance Kind_eq_dec : EqDecision Kind. Proof. solve_decision. Defined.
#[export] Instance JsonError_eq_dec : EqDecision JsonError. Proof. solve_decision. Defined.

Definition json_syntax (s : Syntax) (line : Z) (byte_in_line : nat) : JsonError :=
  MkJsonError (KSyntax s) line (Z.of_nat byte_in_line).
Definition json_limit (b : Bound) (line : Z) (byte_in_line : nat) : JsonError :=
  MkJsonError (KLimit b) line (Z.of_nat byte_in_line).
Definition json_encoding (e : Encoding) (line : Z) (byte_in_line : nat) : JsonError :=
  MkJsonError (KEncoding e) line (Z.of_nat byte_in_line).

Definition is_limit (e : JsonError) : bool := match e.(je_kind) with KLimit _ => true | _ => false end.

Abbreviation JsonResult := (result JsonError) (only parsing).

Record Limits := MkLimits {
  max_depth : nat; max_number_bytes : nat; max_keys_per_object : nat; max_line_bytes : nat }.

Definition Limits_default : Limits :=
  MkLimits 32 (Z.to_nat 1024) (Z.to_nat 256) (Z.to_nat (16 * 1024 * 1024)).
