(* ===== verification/JsonLines.v ===== *)
(** * Lines from a stream ([trailryx-json/src/frame.rs])

    The framer: chunks of a stream in, lines out, with their numbers and their
    places; blank lines, lines beyond the bound, byte-order marks, and the stream's
    end. How the stream was cut into chunks does not matter. *)

From S2P Require Import Prelude Bytes Ids Json.

Definition LF : byte := x0a.
Definition CR : byte := x0d.

Record Line := MkLine { ln_bytes : list byte; ln_number : Z; ln_offset : Z; ln_end : Z }.

Record FrameReport := MkFrameReport { blank_lines : Z; oversize_lines : Z; leading_bom : bool }.

Record Framer := MkFramer {
  fr_limits : Limits;
  fr_carry : list byte;
  fr_line_no : Z;
  fr_offset : Z;
  fr_discarding : bool;
  fr_refused : option Encoding;
  fr_at_start : bool;
  fr_report : FrameReport;
}.

#[export] Instance Line_eq_dec : EqDecision Line. Proof. solve_decision. Defined.
#[export] Instance FrameReport_eq_dec : EqDecision FrameReport. Proof. solve_decision. Defined.

Definition FrameReport_default : FrameReport := MkFrameReport 0 0 false.

Definition Framer_new (limits : Limits) : Framer := MkFramer limits [] 0 0 false None true FrameReport_default.

Definition carried (f : Framer) : nat := length f.(fr_carry).

(** Counters and offsets are [u64]s that saturate. *)
Definition sat_add (a b : Z) : Z := Z.min (a + b) u64_max.
Definition sat_sub (a b : Z) : Z := Z.max (a - b) 0.

Definition BOM_UTF8 : list byte := [xef; xbb; xbf].

Definition MARKS : list (list byte) :=
  [[x00; x00; xfe; xff]; [xff; xfe; x00; x00]; [xfe; xff]; [xff; xfe]; BOM_UTF8].

Fixpoint starts_with (l p : list byte) {struct p} : bool :=
  match p, l with
  | [], _ => true
  | _ :: _, [] => false
  | x :: p, y :: l => bool_decide (x = y) && starts_with l p
  end.

Definition partial_mark (head : list byte) : bool :=
  existsb (fun m => (length head <? length m)%nat && starts_with m head) MARKS.

Definition is_blank (bytes : list byte) : bool :=
  forallb (fun b => bool_decide (b = x20) || bool_decide (b = x09)) bytes.

Definition find_lf (bytes : list byte) : option nat := position (fun b => bool_decide (b = LF)) bytes.

Definition sniff_encoding (first : list byte) : option Encoding :=
  if starts_with first [x00; x00; xfe; xff] then Some Utf32Be
  else if starts_with first [xff; xfe; x00; x00] then Some Utf32Le
  else if starts_with first [xfe; xff] then Some Utf16Be
  else if starts_with first [xff; xfe] then Some Utf16Le
  else None.

(** [if let [head @ .., b'\r'] = bytes { bytes = head }]. *)
Definition strip_cr (bytes : list byte) : list byte :=
  match last bytes with Some b => if bool_decide (b = CR) then removelast bytes else bytes | None => bytes end.

Definition fr_advance (n : nat) (f : Framer) : Framer :=
  MkFramer f.(fr_limits) f.(fr_carry) f.(fr_line_no) (sat_add f.(fr_offset) (Z.of_nat n)) f.(fr_discarding) f.(fr_refused)
    f.(fr_at_start) f.(fr_report).
Definition fr_with_carry (carry : list byte) (f : Framer) : Framer :=
  MkFramer f.(fr_limits) carry f.(fr_line_no) f.(fr_offset) f.(fr_discarding) f.(fr_refused) f.(fr_at_start) f.(fr_report).
Definition fr_next_line (f : Framer) : Framer :=
  MkFramer f.(fr_limits) f.(fr_carry) (sat_add f.(fr_line_no) 1) f.(fr_offset) f.(fr_discarding) f.(fr_refused)
    f.(fr_at_start) f.(fr_report).
Definition fr_with_discarding (d : bool) (f : Framer) : Framer :=
  MkFramer f.(fr_limits) f.(fr_carry) f.(fr_line_no) f.(fr_offset) d f.(fr_refused) f.(fr_at_start) f.(fr_report).
Definition fr_refuse (e : Encoding) (f : Framer) : Framer :=
  MkFramer f.(fr_limits) f.(fr_carry) f.(fr_line_no) f.(fr_offset) f.(fr_discarding) (Some e) f.(fr_at_start) f.(fr_report).
Definition fr_started (f : Framer) : Framer :=
  MkFramer f.(fr_limits) f.(fr_carry) f.(fr_line_no) f.(fr_offset) f.(fr_discarding) f.(fr_refused) false f.(fr_report).
Definition fr_with_report (r : FrameReport) (f : Framer) : Framer :=
  MkFramer f.(fr_limits) f.(fr_carry) f.(fr_line_no) f.(fr_offset) f.(fr_discarding) f.(fr_refused) f.(fr_at_start) r.

Definition count_blank (r : FrameReport) : FrameReport :=
  MkFrameReport (sat_add r.(blank_lines) 1) r.(oversize_lines) r.(leading_bom).
Definition count_oversize (r : FrameReport) : FrameReport :=
  MkFrameReport r.(blank_lines) (sat_add r.(oversize_lines) 1) r.(leading_bom).
Definition saw_bom (r : FrameReport) : FrameReport := MkFrameReport r.(blank_lines) r.(oversize_lines) true.

Definition encoding_error (e : Encoding) (f : Framer) : JsonError := json_encoding e (sat_add f.(fr_line_no) 1) 0.

(** Resolving the first bytes: what is left to frame. *)
Definition open_stream (chunk : list byte) (f : Framer) : JsonResult (list byte) * Framer :=
  let head := take 4 (f.(fr_carry) ++ chunk) in
  if partial_mark head then (Ok [], fr_advance (length chunk) (fr_with_carry (f.(fr_carry) ++ chunk) f))
  else
    let f := fr_started f in
    match sniff_encoding head with
    | Some e => (Err (encoding_error e f), fr_refuse e f)
    | None =>
        if starts_with head BOM_UTF8 then
          let from_chunk := (length BOM_UTF8 - length f.(fr_carry))%nat in
          (Ok (drop from_chunk chunk),
           fr_advance from_chunk (fr_with_carry [] (fr_with_report (saw_bom f.(fr_report)) f)))
        else (Ok chunk, f)
    end.

Section Callback.
(** The caller's state and what it does with a line. *)
Context {X : Type} (on_line : Line -> X -> JsonResult unit * X).

(** A line that ended: counted when blank, handed over otherwise. *)
Definition hand_over (bytes : list byte) (number start end_ : Z) (f : Framer) (x : X) : JsonResult unit * Framer * X :=
  if is_blank bytes then (Ok tt, fr_with_report (count_blank f.(fr_report)) f, x)
  else let '(r, x) := on_line (MkLine bytes number start end_) x in (r, f, x).

(** A turn of [push]'s loop consumes at least a byte of [rest]. *)
Fixpoint push_frames (fuel : nat) (rest : list byte) (f : Framer) (x : X) : JsonResult unit * Framer * X :=
  match fuel, rest with
  | O, _ | _, [] => (Ok tt, f, x)
  | S fuel, _ :: _ =>
      if f.(fr_discarding) then
        match find_lf rest with
        | Some at_ => push_frames fuel (drop (at_ + 1) rest) (fr_next_line (fr_with_discarding false (fr_advance (at_ + 1) f))) x
        | None => (Ok tt, fr_advance (length rest) f, x)
        end
      else
        let room := (f.(fr_limits).(max_line_bytes) - length f.(fr_carry))%nat in
        let window := take (Nat.min (length rest) (room + 1)) rest in
        match find_lf window with
        | Some at_ =>
            let start := sat_sub f.(fr_offset) (Z.of_nat (length f.(fr_carry))) in
            let f := fr_next_line (fr_advance (at_ + 1) f) in
            let bytes := strip_cr (f.(fr_carry) ++ take at_ rest) in
            let '(handed, f, x) := hand_over bytes f.(fr_line_no) start f.(fr_offset) f x in
            let f := fr_with_carry [] f in
            match handed with
            | Ok _ => push_frames fuel (drop (at_ + 1) rest) f x
            | Err e => (Err e, f, x)
            end
        | None =>
            if (room <? length rest)%nat then
              push_frames fuel (drop (length window) rest)
                (fr_advance (length window) (fr_with_discarding true (fr_with_carry []
                   (fr_with_report (count_oversize f.(fr_report)) f)))) x
            else (Ok tt, fr_advance (length rest) (fr_with_carry (f.(fr_carry) ++ rest) f), x)
        end
  end.

Definition push (chunk : list byte) (f : Framer) (x : X) : JsonResult unit * Framer * X :=
  match f.(fr_refused) with
  | Some e => (Err (encoding_error e f), f, x)
  | None =>
      if f.(fr_at_start) then
        match open_stream chunk f with
        | (Err e, f) => (Err e, f, x)
        | (Ok rest, f) => push_frames (length rest) rest f x
        end
      else push_frames (length chunk) chunk f x
  end.

(** The end of the stream: whether a partial line was held. *)
Definition finish_lines (f : Framer) (x : X) : JsonResult bool * Framer * X :=
  match f.(fr_refused) with
  | Some e => (Err (encoding_error e f), f, x)
  | None =>
      let refused := if f.(fr_at_start) then sniff_encoding f.(fr_carry) else None in
      let f := if f.(fr_at_start) then fr_started f else f in
      match refused with
      | Some e => (Err (encoding_error e (fr_refuse e f)), fr_refuse e f, x)
      | None =>
          if f.(fr_discarding) then (Ok true, fr_next_line (fr_with_discarding false f), x)
          else if bool_decide (f.(fr_carry) = []) then (Ok false, f, x)
          else
            let start := sat_sub f.(fr_offset) (Z.of_nat (length f.(fr_carry))) in
            let f := fr_next_line f in
            let '(handed, f, x) := hand_over f.(fr_carry) f.(fr_line_no) start f.(fr_offset) f x in
            let f := fr_with_carry [] f in
            (match handed with Ok _ => Ok true | Err e => Err e end, f, x)
      end
  end.

End Callback.

(** ** What a stream holds

    The lines of a stream, read off the whole of it: its mark, then the segments
    its LFs end, then what is left. *)

Definition split_step (s : list (list byte) * list byte) (b : byte) : list (list byte) * list byte :=
  if bool_decide (b = LF) then (s.1 ++ [s.2], []) else (s.1, s.2 ++ [b]).

Definition split_from (s : list (list byte) * list byte) (l : list byte) : list (list byte) * list byte := fold_left split_step l s.

Definition blen (l : list byte) : Z := Z.of_nat (length l).

Section Reference.
Variable limits : Limits.

Definition over (seg : list byte) : bool := (limits.(max_line_bytes) <? length seg)%nat.

(** Line [n] begins at [o]; a terminated segment is a line, nothing when it is
    blank or too long. *)
Fixpoint lines_at (n o : Z) (segs : list (list byte)) : list Line :=
  match segs with
  | [] => []
  | seg :: segs =>
      let end_ := o + blen seg + 1 in
      (if over seg || is_blank (strip_cr seg) then [] else [MkLine (strip_cr seg) n o end_]) ++ lines_at (n + 1) end_ segs
  end.

Fixpoint bytes_of (segs : list (list byte)) : Z :=
  match segs with [] => 0 | seg :: segs => blen seg + 1 + bytes_of segs end.

Definition blanks (segs : list (list byte)) : Z :=
  Z.of_nat (length (filter (fun s => negb (over s) && is_blank (strip_cr s) = true) segs)).
Definition overs (segs : list (list byte)) : Z := Z.of_nat (length (filter (fun s => over s = true) segs)).
Definition b2z (b : bool) : Z := if b then 1 else 0.

Record Framed := MkFramed { fd_lines : list Line; fd_report : FrameReport; fd_pending : bool }.

(** The body of a stream, after a mark of [base] bytes. The last segment has no
    terminator: a CR at its end is content. *)
Definition frame_body (base : Z) (bom : bool) (body : list byte) : Framed :=
  let '(segs, tail) := split_from ([], []) body in
  let held := negb (bool_decide (tail = [])) in
  let n := Z.of_nat (length segs) + 1 in
  let o := base + bytes_of segs in
  MkFramed
    (lines_at 1 base segs ++
       (if negb held || over tail || is_blank tail then [] else [MkLine tail n o (o + blen tail)]))
    (MkFrameReport (blanks segs + b2z (held && negb (over tail) && is_blank tail)) (overs segs + b2z (over tail)) bom)
    held.

Definition frame_stream (s : list byte) : result Encoding Framed :=
  match sniff_encoding s with
  | Some e => Err e
  | None => Ok (if starts_with s BOM_UTF8 then frame_body 3 true (drop 3 s) else frame_body 0 false s)
  end.

End Reference.

(** ** Splitting *)

Lemma find_lf_some l i : find_lf l = Some i -> exists w t, l = w ++ LF :: t /\ length w = i /\ LF ∉ w.
Proof.
  revert i. induction l as [|b l IH]; intros i; [done|]. unfold find_lf. cbn [position]. case_bool_decide as E.
  - intros [= <-]. exists [], l. subst. split_and!; [done|done|set_solver].
  - fold (find_lf l). destruct (find_lf l) as [j|] eqn:Ej; [|done]. intros [= <-].
    destruct (IH j eq_refl) as (w & t & -> & Hw & Hn). exists (b :: w), t. split_and!; [done|cbn; lia|].
    rewrite not_elem_of_cons. split; [congruence|done].
Qed.

Lemma find_lf_none l : find_lf l = None -> LF ∉ l.
Proof.
  induction l as [|b l IH]; [set_solver|]. unfold find_lf. cbn [position]. case_bool_decide as E; [done|].
  fold (find_lf l). destruct (find_lf l); [done|]. intros _. rewrite not_elem_of_cons. split; [congruence|by apply IH].
Qed.

Lemma split_from_app s l1 l2 : split_from s (l1 ++ l2) = split_from (split_from s l1) l2.
Proof. apply fold_left_app. Qed.

Lemma split_plain segs tail w : LF ∉ w -> split_from (segs, tail) w = (segs, tail ++ w).
Proof.
  revert tail. induction w as [|b w IH]; intros tail Hn; cbn; [by rewrite app_nil_r|].
  apply not_elem_of_cons in Hn as [Hb Hn]. unfold split_step at 2. rewrite bool_decide_eq_false_2 by congruence. cbn.
  fold (split_from (segs, tail ++ [b]) w). rewrite IH by done. by rewrite <- app_assoc.
Qed.

Lemma split_line segs tail w t :
  LF ∉ w -> split_from (segs, tail) (w ++ LF :: t) = split_from (segs ++ [tail ++ w], []) t.
Proof. intros Hn. rewrite split_from_app, split_plain by done. done. Qed.

Lemma bytes_of_app a b : bytes_of (a ++ b) = bytes_of a + bytes_of b.
Proof. induction a as [|s a IH]; cbn; lia. Qed.

Lemma split_bytes_from s l :
  bytes_of (split_from s l).1 + blen (split_from s l).2 = bytes_of s.1 + blen s.2 + blen l.
Proof.
  revert s. induction l as [|b l IH]; intros [segs tail]; cbn; [unfold blen; cbn; lia|].
  fold (split_from (split_step (segs, tail) b) l). rewrite IH. unfold split_step. case_bool_decide; cbn.
  - rewrite bytes_of_app. unfold blen. cbn. unfold blen. lia.
  - unfold blen. rewrite length_app. cbn. lia.
Qed.

Lemma split_bytes l : bytes_of (split_from ([], []) l).1 + blen (split_from ([], []) l).2 = blen l.
Proof. by rewrite split_bytes_from. Qed.

Lemma blen_app a b : blen (a ++ b) = blen a + blen b.
Proof. unfold blen. rewrite length_app. lia. Qed.
Lemma blen_nonneg a : 0 <= blen a.
Proof. unfold blen. lia. Qed.

Lemma lines_at_app limits n o a b :
  lines_at limits n o (a ++ b) = lines_at limits n o a ++ lines_at limits (n + Z.of_nat (length a)) (o + bytes_of a) b.
Proof.
  revert n o. induction a as [|s a IH]; intros n o; cbn [lines_at app length bytes_of].
  - by rewrite !Z.add_0_r.
  - rewrite IH, <- app_assoc.
    replace (n + 1 + Z.of_nat (length a)) with (n + Z.of_nat (S (length a))) by lia.
    by replace (o + blen s + 1 + bytes_of a) with (o + (blen s + 1 + bytes_of a)) by lia.
Qed.

Lemma blanks_app limits a b : blanks limits (a ++ b) = blanks limits a + blanks limits b.
Proof. unfold blanks. rewrite filter_app, length_app. lia. Qed.
Lemma overs_app limits a b : overs limits (a ++ b) = overs limits a + overs limits b.
Proof. unfold overs. rewrite filter_app, length_app. lia. Qed.

Lemma segments_bytes segs : Z.of_nat (length segs) <= bytes_of segs.
Proof. induction segs as [|s segs IH]; cbn; [lia|]. pose proof (blen_nonneg s). lia. Qed.
Lemma blanks_bytes limits segs : 0 <= blanks limits segs <= bytes_of segs.
Proof.
  pose proof (segments_bytes segs). unfold blanks.
  pose proof (length_filter (fun s => negb (over limits s) && is_blank (strip_cr s) = true) segs). lia.
Qed.
Lemma overs_bytes limits segs : 0 <= overs limits segs <= bytes_of segs.
Proof.
  pose proof (segments_bytes segs). unfold overs. pose proof (length_filter (fun s => over limits s = true) segs). lia.
Qed.

(** ** The framer against the reference *)

#[local] Arguments over : simpl never.
#[local] Arguments blen : simpl never.
#[local] Arguments strip_cr : simpl never.
#[local] Arguments u64_max : simpl never.
#[local] Arguments sat_add : simpl never.

Section Framing.
Context {X : Type} (on_line : Line -> X -> JsonResult unit * X) (limits : Limits).

(** A caller that keeps reading whatever a line holds, as the readers built on
    the framer do: a refusal is recorded with the line. *)
Definition keeps_going : Prop := forall l x, (on_line l x).1 = Ok tt.

Definition told (l : list Line) (x : X) : X := fold_left (fun x l => (on_line l x).2) l x.

(** The framer once [segs] have ended and [tail] is being read. *)
Definition framer_at (base : Z) (bom : bool) (segs : list (list byte)) (tail : list byte) : Framer :=
  MkFramer limits (if over limits tail then [] else tail) (Z.of_nat (length segs)) (base + bytes_of segs + blen tail)
    (over limits tail) None false
    (MkFrameReport (blanks limits segs) (overs limits segs + b2z (over limits tail)) bom).

Lemma told_app a b x : told (a ++ b) x = told b (told a x).
Proof. apply fold_left_app. Qed.

Lemma hand_over_line bytes n o e f x :
  keeps_going ->
  hand_over on_line bytes n o e f x =
  (Ok tt, if is_blank bytes then fr_with_report (count_blank f.(fr_report)) f else f,
   told (if is_blank bytes then [] else [MkLine bytes n o e]) x).
Proof.
  intros Hk. unfold hand_over. destruct (is_blank bytes); [done|]. cbn.
  pose proof (Hk (MkLine bytes n o e) x) as H. destruct (on_line _ x) as [r y]. cbn in *. by subst.
Qed.

(** What a whole segment adds to the counters. *)
Definition seg_lines (base : Z) (segs : list (list byte)) (seg : list byte) : list Line :=
  lines_at limits (1 + Z.of_nat (length segs)) (base + bytes_of segs) [seg].

Lemma over_app a b : over limits a = true -> over limits (a ++ b) = true.
Proof. unfold over. rewrite !Nat.ltb_lt, length_app. lia. Qed.

Lemma sat_add_small a b : a + b <= u64_max -> sat_add a b = a + b.
Proof. unfold sat_add. lia. Qed.

(** A framer's fields, equal one by one. *)
Lemma framer_eq f g :
  f.(fr_limits) = g.(fr_limits) -> f.(fr_carry) = g.(fr_carry) -> f.(fr_line_no) = g.(fr_line_no) ->
  f.(fr_offset) = g.(fr_offset) -> f.(fr_discarding) = g.(fr_discarding) -> f.(fr_refused) = g.(fr_refused) ->
  f.(fr_at_start) = g.(fr_at_start) -> f.(fr_report).(blank_lines) = g.(fr_report).(blank_lines) ->
  f.(fr_report).(oversize_lines) = g.(fr_report).(oversize_lines) ->
  f.(fr_report).(leading_bom) = g.(fr_report).(leading_bom) -> f = g.
Proof. destruct f as [???????[]], g as [???????[]]; cbn; intros; subst; done. Qed.

Lemma over_nil_app tail w : over limits tail = false -> (limits.(max_line_bytes) - length tail < length w)%nat -> over limits (tail ++ w) = true.
Proof. unfold over. rewrite Nat.ltb_lt, Nat.ltb_ge, length_app. lia. Qed.
Lemma fits_app tail w : over limits tail = false -> (length w <= limits.(max_line_bytes) - length tail)%nat -> over limits (tail ++ w) = false.
Proof. unfold over. rewrite !Nat.ltb_ge, length_app. lia. Qed.

Lemma over_one s : overs limits [s] = b2z (over limits s).
Proof. unfold overs. rewrite filter_cons, filter_nil. by destruct (over limits s). Qed.
Lemma blanks_one s : blanks limits [s] = b2z (negb (over limits s) && is_blank (strip_cr s)).
Proof. unfold blanks. rewrite filter_cons, filter_nil. by destruct (negb (over limits s) && is_blank (strip_cr s)). Qed.

Lemma skip_segment base bom segs tail w :
  over limits tail = true -> 0 <= base -> base + bytes_of segs + blen tail + blen w + 1 <= u64_max ->
  fr_next_line (fr_with_discarding false (fr_advance (length w + 1) (framer_at base bom segs tail))) =
  framer_at base bom (segs ++ [tail ++ w]) [].
Proof.
  intros Ho Hb Hl. pose proof (segments_bytes segs). pose proof (blen_nonneg tail). pose proof (blen_nonneg w).
  assert (Hn : over limits [] = false) by (unfold over; apply Nat.ltb_ge; cbn; lia).
  apply framer_eq; cbn; rewrite ?Ho, ?Hn, ?length_app, ?bytes_of_app, ?blanks_app, ?overs_app, ?over_one, ?blanks_one,
    ?(over_app _ w Ho); cbn; rewrite ?blen_app; try done; rewrite ?sat_add_small by (unfold blen in *; lia);
    unfold blen in *; cbn; lia.
Qed.

Lemma hand_segment base bom segs tail w x :
  keeps_going -> over limits (tail ++ w) = false -> 0 <= base -> base + bytes_of segs + blen tail + blen w + 1 <= u64_max ->
  let f := fr_next_line (fr_advance (length w + 1) (framer_at base bom segs tail)) in
  let start := sat_sub (framer_at base bom segs tail).(fr_offset) (blen tail) in
  let '(handed, g, y) := hand_over on_line (strip_cr (tail ++ w)) f.(fr_line_no) start f.(fr_offset) f x in
  handed = Ok tt /\ fr_with_carry [] g = framer_at base bom (segs ++ [tail ++ w]) [] /\
  y = told (seg_lines base segs (tail ++ w)) x.
Proof.
  intros Hk Ho Hb Hl f start. rewrite (hand_over_line _ _ _ _ _ _ Hk).
  pose proof (segments_bytes segs). pose proof (blen_nonneg tail). pose proof (blen_nonneg w).
  pose proof (blanks_bytes limits segs).
  assert (Hn : over limits [] = false) by (unfold over; apply Nat.ltb_ge; cbn; lia).
  assert (Ht : over limits tail = false) by (unfold over in *; rewrite Nat.ltb_ge, length_app in *; lia).
  assert (Ef : f.(fr_line_no) = 1 + Z.of_nat (length segs)) by (subst f; cbn; rewrite sat_add_small; lia).
  assert (Eo : f.(fr_offset) = base + bytes_of segs + blen (tail ++ w) + 1).
  { subst f; cbn. rewrite blen_app, sat_add_small; unfold blen in *; lia. }
  assert (Es : start = base + bytes_of segs) by (subst start; cbn; unfold sat_sub; lia).
  split; [done|]. split.
  - destruct (is_blank _) eqn:Eb; apply framer_eq; cbn;
      rewrite ?Ht, ?Hn, ?length_app, ?bytes_of_app, ?blanks_app, ?overs_app, ?over_one, ?blanks_one, ?Ho, ?Eb; cbn;
      rewrite ?blen_app; try done; rewrite ?sat_add_small by (unfold blen in *; lia); unfold blen in *; cbn; lia.
  - unfold seg_lines, lines_at. rewrite Ho, Ef, Eo, Es, app_nil_r. cbn [orb]. destruct (is_blank _); [done|]. done.
Qed.

(** The caller after the segments that have ended. *)
Definition caller_at (base : Z) (segs : list (list byte)) (x : X) : X := told (lines_at limits 1 base segs) x.

Lemma caller_at_segment base segs seg x :
  told (seg_lines base segs seg) (caller_at base segs x) = caller_at base (segs ++ [seg]) x.
Proof. unfold caller_at, seg_lines. by rewrite lines_at_app, told_app. Qed.

Lemma find_lf_window l n at_ : find_lf (take n l) = Some at_ -> find_lf l = Some at_.
Proof.
  revert n at_. induction l as [|b l IH]; intros [|n] at_; cbn; try done.
  unfold find_lf. cbn. case_bool_decide; [done|]. fold (find_lf (take n l)) (find_lf l).
  destruct (find_lf (take n l)) as [j|] eqn:E; [|done]. intros [= <-]. by rewrite (IH _ _ E).
Qed.

(** Bytes without an LF: dropped while discarding, kept while they fit, and the
    line given up at the first that does not. *)
Lemma drop_plain base bom segs tail w :
  over limits tail = true -> base + bytes_of segs + blen tail + blen w <= u64_max ->
  fr_advance (length w) (framer_at base bom segs tail) = framer_at base bom segs (tail ++ w).
Proof.
  intros Eo Hl. apply framer_eq; cbn; rewrite ?Eo, ?(over_app _ w Eo); try done.
  rewrite blen_app, sat_add_small; unfold blen in *; lia.
Qed.

Lemma gather_plain base bom segs tail w :
  over limits (tail ++ w) = false -> base + bytes_of segs + blen tail + blen w <= u64_max ->
  fr_advance (length w) (fr_with_carry (tail ++ w) (framer_at base bom segs tail)) = framer_at base bom segs (tail ++ w).
Proof.
  intros Ho Hl. assert (Eo : over limits tail = false) by (unfold over in *; rewrite !Nat.ltb_ge, length_app in *; lia).
  apply framer_eq; cbn; rewrite ?Ho, ?Eo; try done. rewrite blen_app, sat_add_small; unfold blen in *; lia.
Qed.

Lemma breach base bom segs tail w :
  over limits tail = false -> over limits (tail ++ w) = true -> 0 <= base ->
  base + bytes_of segs + blen tail + blen w <= u64_max -> (0 < length w)%nat ->
  fr_advance (length w) (fr_with_discarding true (fr_with_carry [] (fr_with_report
    (count_oversize (framer_at base bom segs tail).(fr_report)) (framer_at base bom segs tail)))) =
  framer_at base bom segs (tail ++ w).
Proof.
  intros Eo Hov Hb Hl Hw. pose proof (overs_bytes limits segs). pose proof (blen_nonneg tail).
  apply framer_eq; cbn; rewrite ?Hov, ?Eo; cbn; try done; rewrite ?blen_app, ?sat_add_small by (unfold blen in *; lia);
    unfold blen in *; lia.
Qed.

(** [push]'s loop takes the state after a prefix to the state after a longer one. *)
Lemma push_frames_spec base bom fuel rest segs tail x :
  keeps_going -> 0 <= base -> (length rest <= fuel)%nat ->
  base + bytes_of segs + blen tail + blen rest <= u64_max ->
  let '(segs', tail') := split_from (segs, tail) rest in
  push_frames on_line fuel rest (framer_at base bom segs tail) (caller_at base segs x) =
  (Ok tt, framer_at base bom segs' tail', caller_at base segs' x).
Proof.
  intros Hk Hb. revert rest segs tail. induction fuel as [|fuel IH]; intros rest segs tail Hf Hl.
  { destruct rest; [|cbn in Hf; lia]. done. }
  destruct rest as [|b0 rest0]; [done|]. destruct (split_from _ _) as [segs' tail'] eqn:Es. cbn [push_frames].
  remember (b0 :: rest0) as rest eqn:Er. assert (Hne : (0 < length rest)%nat) by (subst; cbn; lia). clear Er b0 rest0.
  assert (Hseg : forall w t, rest = w ++ LF :: t -> LF ∉ w ->
    push_frames on_line fuel t (framer_at base bom (segs ++ [tail ++ w]) []) (caller_at base (segs ++ [tail ++ w]) x) =
    (Ok tt, framer_at base bom segs' tail', caller_at base segs' x)).
  { intros w t -> Hw. rewrite split_line in Es by done.
    specialize (IH t (segs ++ [tail ++ w]) []). rewrite Es in IH. apply IH.
    - rewrite length_app in Hf. cbn in Hf. lia.
    - rewrite bytes_of_app. rewrite blen_app in Hl. unfold blen in *. cbn in *. unfold blen. rewrite length_app. cbn. lia. }
  change (fr_discarding (framer_at base bom segs tail)) with (over limits tail). destruct (over limits tail) eqn:Eo.
  - destruct (find_lf rest) as [at_|] eqn:Ef.
    + destruct (find_lf_some _ _ Ef) as (w & t & Erw & Hat & Hw). subst at_.
      specialize (Hseg w t Erw Hw).
      rewrite Erw at 1. rewrite drop_app_add. cbn [drop]. rewrite skip_segment; [|done|done|].
      2:{ rewrite Erw, blen_app in Hl. unfold blen in *. cbn in Hl. lia. }
      rewrite <- Hseg. f_equal. unfold caller_at. rewrite lines_at_app. cbn [lines_at].
      rewrite (over_app _ w Eo). cbn. by rewrite app_nil_r.
    + apply find_lf_none in Ef. rewrite split_plain in Es by done. injection Es as <- <-. by rewrite drop_plain.
  - change (fr_carry (framer_at base bom segs tail)) with (if over limits tail then [] else tail). rewrite Eo.
    change (max_line_bytes (fr_limits (framer_at base bom segs tail))) with (max_line_bytes limits).
    cbv zeta. set (room := (max_line_bytes limits - length tail)%nat).
    destruct (find_lf (take _ rest)) as [at_|] eqn:Ef.
    + pose proof (find_lf_window _ _ _ Ef) as Ef'.
      destruct (find_lf_some _ _ Ef') as (w & t & Erw & Hat & Hw). subst at_.
      assert (Hfit : over limits (tail ++ w) = false).
      { apply fits_app; [done|]. destruct (find_lf_some _ _ Ef) as (w' & t' & Et & Hw' & _).
        apply (f_equal length) in Et. rewrite length_take, length_app in Et. cbn in Et. fold room. lia. }
      specialize (Hseg w t Erw Hw).
      pose proof (hand_segment base bom segs tail w (caller_at base segs x) Hk Hfit Hb) as Hh.
      rewrite Erw. rewrite take_app_length, drop_app_add. cbn [drop].
      change (fr_carry (fr_next_line (fr_advance (length w + 1) (framer_at base bom segs tail)))) with (if over limits tail then [] else tail).
      rewrite Eo. cbv zeta in Hh.
      destruct (hand_over on_line _ _ _ _ _ _) as [[handed g] y]. destruct Hh as (-> & -> & ->).
      { rewrite Erw, blen_app in Hl. unfold blen in *. cbn in Hl. lia. }
      by rewrite caller_at_segment.
    + apply find_lf_none in Ef. destruct (room <? length rest)%nat eqn:Ero; breflect.
      * set (w := take (Nat.min (length rest) (room + 1)) rest) in *.
        assert (Hw : length w = (room + 1)%nat) by (unfold w; rewrite length_take; lia).
        assert (Hrest : rest = w ++ drop (length w) rest).
        { unfold w. rewrite length_take. replace (Nat.min (Nat.min (length rest) (room + 1)) (length rest)) with (Nat.min (length rest) (room + 1)) by lia. by rewrite take_drop. }
        assert (Hov : over limits (tail ++ w) = true) by (apply over_nil_app; [done|fold room; lia]).
        specialize (IH (drop (length w) rest) segs (tail ++ w)).
        rewrite Hrest, split_from_app, split_plain in Es by done. rewrite Es in IH.
        rewrite breach; [|done|done|done| |lia].
        { apply IH; [rewrite length_drop; lia|]. unfold blen in *. rewrite length_app, length_drop. lia. }
        rewrite Hrest, blen_app in Hl. pose proof (blen_nonneg (drop (length w) rest)). lia.
      * assert (Hw : take (Nat.min (length rest) (room + 1)) rest = rest) by (apply take_ge; lia). rewrite Hw in Ef.
        assert (Hfit : over limits (tail ++ rest) = false) by (apply fits_app; [done|fold room; lia]).
        rewrite split_plain in Es by done. injection Es as <- <-. by rewrite gather_plain.
Qed.

(** The framer while the first bytes could still be part of a mark, and once they
    turned out to be one that is refused. *)
Definition framer_start (p : list byte) : Framer :=
  MkFramer limits p 0 (blen p) false None true FrameReport_default.
Definition framer_refused (p : list byte) (e : Encoding) : Framer :=
  MkFramer limits p 0 (blen p) false (Some e) false FrameReport_default.

(** Where the body of a stream begins. *)
Definition body_of (s : list byte) : Z * bool * list byte :=
  if starts_with s BOM_UTF8 then (3, true, drop 3 s) else (0, false, s).

Definition framer_in (s : list byte) : Framer :=
  let '(base, bom, body) := body_of s in
  let '(segs, tail) := split_from ([], []) body in framer_at base bom segs tail.
Definition caller_in (s : list byte) (x : X) : X :=
  let '(base, bom, body) := body_of s in caller_at base (split_from ([], []) body).1 x.

Inductive after (x : X) : list byte -> Framer * X -> Prop :=
  | after_start p : partial_mark p = true -> after x p (framer_start p, x)
  | after_refused s p e :
      partial_mark (take 4 s) = false -> sniff_encoding s = Some e -> after x s (framer_refused p e, x)
  | after_body s :
      partial_mark (take 4 s) = false -> sniff_encoding s = None -> after x s (framer_in s, caller_in s x).

End Framing.

Lemma starts_with_iff l p : starts_with l p = true <-> exists k, l = p ++ k.
Proof.
  revert l. induction p as [|b p IH]; intros l.
  { split; [intros _; by exists l|done]. }
  destruct l as [|c l]; cbn.
  { split; [done|]. intros [k Hk]. done. }
  rewrite andb_true_iff, bool_decide_eq_true, IH. split.
  - intros [-> [k ->]]. by exists k.
  - intros [k Hk]. injection Hk as -> ->. eauto.
Qed.

(** What is held is a strict prefix of a mark. *)
Lemma partial_cases p :
  partial_mark p = true ->
  p ∈ [[]; [x00]; [x00; x00]; [x00; x00; xfe]; [xff]; [xff; xfe]; [xff; xfe; x00]; [xfe]; [xef]; [xef; xbb]].
Proof.
  unfold partial_mark. rewrite existsb_exists. intros (m & Hm & H). apply andb_true_iff in H as [Hl Hs].
  apply Nat.ltb_lt in Hl. apply starts_with_iff in Hs as [k ->]. apply list_elem_of_In in Hm.
  rewrite length_app in Hl. destruct k as [|b k]; [cbn in Hl; lia|]. clear Hl. unfold MARKS, BOM_UTF8 in Hm.
  repeat (apply elem_of_cons in Hm as [Hm|Hm];
    [do 4 (destruct p as [|? p]; [cbn in Hm; simplify_eq Hm; intros; subst; by_evaluation|]); by destruct p|]).
  by apply elem_of_nil in Hm.
Qed.

Lemma partial_take4 s : partial_mark (take 4 s) = true -> take 4 s = s.
Proof.
  intros H. apply take_ge. apply partial_cases in H.
  assert (length (take 4 s) <= 3)%nat as Hl.
  { repeat (apply elem_of_cons in H as [->|H]; [cbn; lia|]). set_solver. }
  rewrite length_take in Hl. lia.
Qed.

Lemma starts_with_app s c m : (length m <= length s)%nat \/ starts_with m s = false -> starts_with (s ++ c) m = starts_with s m.
Proof.
  revert s. induction m as [|b m IH]; intros s H; [done|]. destruct s as [|d s]; [destruct H as [H|H]; cbn in H; [lia|done]|].
  cbn in *. destruct (decide (d = b)) as [->|Hd]; [|rewrite bool_decide_eq_false_2 by congruence; done].
  rewrite bool_decide_eq_true_2 in * by done. cbn in *. apply IH. destruct H; [left; lia|by right].
Qed.

Lemma starts_with_take n s m : (length m <= n)%nat -> starts_with (take n s) m = starts_with s m.
Proof.
  revert n s. induction m as [|b m IH]; intros n s Hn; [done|]. destruct n as [|n]; [cbn in Hn; lia|].
  destruct s as [|d s]; [done|]. cbn in *. by rewrite IH by lia.
Qed.


Lemma partial_iff h : partial_mark h = true <-> exists m, m ∈ MARKS /\ (length h < length m)%nat /\ starts_with m h = true.
Proof.
  unfold partial_mark. rewrite existsb_exists. setoid_rewrite andb_true_iff. setoid_rewrite Nat.ltb_lt.
  by setoid_rewrite list_elem_of_In.
Qed.

Lemma marks_short m : m ∈ MARKS -> (length m <= 4)%nat.
Proof.
  intros Hm. unfold MARKS, BOM_UTF8 in Hm.
  repeat (apply elem_of_cons in Hm as [->|Hm]; [cbn; lia|]). by apply elem_of_nil in Hm.
Qed.

(** Once a head is no longer a prefix of a mark, what follows changes nothing. *)
Lemma mark_decided s c m :
  partial_mark (take 4 s) = false -> m ∈ MARKS -> starts_with (s ++ c) m = starts_with s m.
Proof.
  intros Hp Hm. apply starts_with_app. destruct (decide (length m <= length s)%nat) as [|Hl]; [by left|right].
  apply not_true_is_false. intros Hs. apply not_true_iff_false in Hp. apply Hp, partial_iff. exists m.
  pose proof (marks_short m Hm). rewrite take_ge by lia. split_and!; [done|lia|done].
Qed.

Lemma decided_stable s c :
  partial_mark (take 4 s) = false ->
  partial_mark (take 4 (s ++ c)) = false /\ sniff_encoding (s ++ c) = sniff_encoding s /\
  starts_with (s ++ c) BOM_UTF8 = starts_with s BOM_UTF8.
Proof.
  intros Hp. split_and!.
  - apply not_true_is_false. intros H. apply not_true_iff_false in Hp. apply Hp. apply partial_iff in H as (m & Hm & Hl & Hs).
    apply partial_iff. exists m. rewrite take_app in *. destruct (decide (4 <= length s)%nat) as [H4|H4].
    + replace (4 - length s)%nat with 0%nat in * by lia. rewrite take_0, app_nil_r in *. done.
    + rewrite length_app in Hl. split_and!; [done|lia|]. apply starts_with_iff in Hs as [k Hk]. apply starts_with_iff.
      exists (take (4 - length s) c ++ k). by rewrite app_assoc.
  - unfold sniff_encoding. rewrite !(mark_decided s c) by (done || by_evaluation). done.
  - apply mark_decided; [done|by_evaluation].
Qed.

Lemma sniff_take4 s : sniff_encoding (take 4 s) = sniff_encoding s.
Proof. unfold sniff_encoding. by rewrite !starts_with_take by (cbn; lia). Qed.

Section Framed_stream.
Context {X : Type} (on_line : Line -> X -> JsonResult unit * X) (limits : Limits).
Hypothesis Hkeeps : keeps_going on_line.
Hypothesis Hroom : (3 <= limits.(max_line_bytes))%nat.

Lemma over_short p : (length p <= 3)%nat -> over limits p = false.
Proof. unfold over. rewrite Nat.ltb_ge. lia. Qed.

Lemma partial_short p : partial_mark p = true -> (length p <= 3)%nat /\ (LF ∉ p) /\ starts_with p BOM_UTF8 = false.
Proof.
  intros Hp. apply partial_cases in Hp.
  repeat (apply elem_of_cons in Hp as [->|Hp]; [split_and!; [cbn; lia|by_evaluation|done]|]). by apply elem_of_nil in Hp.
Qed.

(** The body's frames, from wherever the stream stands. *)
Lemma push_body s x c body base bom :
  body_of s = (base, bom, body) -> body_of (s ++ c) = (base, bom, body ++ c) -> 0 <= base -> blen (s ++ c) <= u64_max ->
  blen s = base + blen body ->
  push_frames on_line (length c) c (framer_in limits s) (caller_in on_line limits s x) =
  (Ok tt, framer_in limits (s ++ c), caller_in on_line limits (s ++ c) x).
Proof.
  intros Hs Hsc Hb Hl Hlen. unfold framer_in, caller_in. rewrite Hs, Hsc, split_from_app.
  destruct (split_from ([], []) body) as [segs tail] eqn:E.
  assert (Hbody : bytes_of segs + blen tail = blen body).
  { rewrite <- (split_bytes body), E. done. }
  pose proof (push_frames_spec on_line limits base bom (length c) c segs tail x Hkeeps Hb ltac:(lia)) as H.
  rewrite blen_app in Hl. destruct (split_from _ c) as [segs' tail']. cbn [fst]. rewrite H by lia. done.
Qed.

(** A chunk that arrives while the first bytes are held. *)
Lemma push_opening s y c :
  partial_mark s = true -> blen (s ++ c) <= u64_max ->
  let '(_, f', y') := push on_line c (framer_start limits s) y in after on_line limits y (s ++ c) (f', y').
Proof.
  intros Hp Hl. unfold push. cbn [fr_refused fr_at_start framer_start]. unfold open_stream. cbn [fr_carry framer_start].
  destruct (partial_short s Hp) as (Hp3 & HpLF & Hpb).
  destruct (partial_mark (take 4 (s ++ c))) eqn:Eh.
  { cbn. replace (fr_advance _ _) with (framer_start limits (s ++ c)); [|apply framer_eq; cbn; try done].
    - apply after_start. by rewrite <- (partial_take4 _ Eh).
    - rewrite blen_app in *. rewrite sat_add_small; unfold blen in *; lia. }
  rewrite sniff_take4. destruct (sniff_encoding (s ++ c)) as [e|] eqn:Es; [by apply (after_refused _ _ y (s ++ c) s e)|].
  rewrite starts_with_take by (cbn; lia). destruct (starts_with (s ++ c) BOM_UTF8) eqn:Eb.
  + apply starts_with_iff in Eb as [k Hk].
    assert (Ek : drop (length BOM_UTF8 - length s) c = k).
    { rewrite <- (drop_app_length BOM_UTF8 k), <- Hk, drop_app, (drop_ge s) by (cbn; lia). done. }
    cbn [fr_carry fr_started framer_start]. rewrite Ek.
    assert (Hn : exists n, n = (length BOM_UTF8 - length s)%nat /\ blen s + Z.of_nat n = 3).
    { eexists. split; [done|]. unfold blen. cbn [length BOM_UTF8]. lia. }
    destruct Hn as (n & <- & Hn). set (f0 := fr_advance _ _). assert (Ef0 : f0 = framer_in limits BOM_UTF8).
    { unfold f0. change (framer_in limits BOM_UTF8) with (framer_at limits 3 true [] []).
      apply framer_eq; cbn; rewrite ?over_short by (cbn; lia); try done. change (blen []) with 0. rewrite sat_add_small; unfold u64_max; lia. }
    rewrite Ef0. rewrite Hk in *. pose proof (push_body BOM_UTF8 y k [] 3 true eq_refl eq_refl ltac:(lia) Hl ltac:(done)) as Hb.
    change (caller_in on_line limits BOM_UTF8 y) with y in Hb. rewrite Hb. by apply after_body.
  + assert (Es0 : body_of s = (0, false, s)) by (unfold body_of; by rewrite Hpb).
    assert (Esc : body_of (s ++ c) = (0, false, s ++ c)) by (unfold body_of; by rewrite Eb).
    pose proof (push_body s y c s 0 false Es0 Esc ltac:(lia) Hl ltac:(done)) as Hb.
    unfold framer_in at 1, caller_in at 1 in Hb. rewrite Es0, split_plain in Hb by done. cbn [fst app] in Hb.
    replace (fr_started (framer_start limits s)) with (framer_at limits 0 false [] s).
    { change (caller_at on_line limits 0 [] y) with y in Hb. rewrite Hb. by apply after_body. }
    apply framer_eq; cbn; rewrite ?over_short by (cbn; lia); done.
Qed.

Lemma push_after x s f y c :
  after on_line limits x s (f, y) -> blen (s ++ c) <= u64_max ->
  let '(_, f', y') := push on_line c f y in after on_line limits x (s ++ c) (f', y').
Proof.
  intros Ha Hl. inversion Ha as [p Hp|s' p e Hp He|s' Hp Hn]; subst; clear Ha.
  - by apply push_opening.
  - destruct (decided_stable s c Hp) as (Hp' & Hs' & _). unfold push. cbn. apply after_refused; [done|by rewrite Hs'].
  - destruct (decided_stable s c Hp) as (Hp' & Hs' & Hb'). unfold push.
    assert (Hf : fr_refused (framer_in limits s) = None /\ fr_at_start (framer_in limits s) = false).
    { unfold framer_in. destruct (body_of s) as [[b m] bd]. by destruct (split_from _ bd). }
    destruct Hf as [-> ->].
    destruct (body_of s) as [[base bom] body] eqn:Eb. 
    assert (body_of (s ++ c) = (base, bom, body ++ c) /\ 0 <= base /\ blen s = base + blen body) as (Esc & Hb0 & Hlen).
    { unfold body_of in *. rewrite Hb'. destruct (starts_with s BOM_UTF8) eqn:Em; injection Eb as <- <- <-; [|split_and!; done].
      apply starts_with_iff in Em as [k ->]. rewrite <- app_assoc. split_and!; [done|lia|]. change (drop 3 (BOM_UTF8 ++ k)) with k. rewrite blen_app. done. }
    rewrite (push_body s x c body base bom Eb Esc Hb0 Hl Hlen). apply after_body; [done|]. by rewrite Hs'.
Qed.

(** The chunks of a stream, pushed one after the other; what [push] answered is
    the caller's to keep. *)
Definition feed (chunks : list (list byte)) (s : Framer * X) : Framer * X :=
  fold_left (fun s c => let '(_, f, x) := push on_line c s.1 s.2 in (f, x)) chunks s.

Lemma feed_after x chunks s st :
  after on_line limits x s st -> blen (s ++ concat chunks) <= u64_max ->
  after on_line limits x (s ++ concat chunks) (feed chunks st).
Proof.
  revert s st. induction chunks as [|c chunks IH]; intros s [f y] Ha Hl; cbn [feed fold_left concat fst snd].
  { by rewrite app_nil_r. }
  cbn [concat] in Hl. rewrite app_assoc in *. pose proof (push_after x s f y c Ha) as Hp.
  destruct (push on_line c f y) as [[r g] z]. apply IH; [|done]. apply Hp.
  rewrite (blen_app _ (concat chunks)) in Hl. pose proof (blen_nonneg (concat chunks)). lia.
Qed.

Lemma held_bounded x s f y : after on_line limits x s (f, y) -> (carried f <= limits.(max_line_bytes))%nat \/ is_Some f.(fr_refused).
Proof.
  intros Ha. inversion Ha as [p Hp|s' p e Hp He|s' Hp Hn]; subst; clear Ha; unfold carried; cbn; [|by right|].
  - left. destruct (partial_short s Hp) as [? _]. lia.
  - left. unfold framer_in. destruct (body_of s) as [[base bom] body]. destruct (split_from _ _) as [segs tail]. cbn.
    destruct (over limits tail) eqn:E; [cbn; lia|]. unfold over in E. by apply Nat.ltb_ge in E.
Qed.

(** The end of a stream whose first bytes are resolved. *)
Lemma finish_body s x :
  sniff_encoding s = None -> blen s <= u64_max ->
  let '(r, g, z) := finish_lines on_line (framer_in limits s) (caller_in on_line limits s x) in
  exists d, frame_stream limits s = Ok d /\ r = Ok d.(fd_pending) /\ z = told on_line d.(fd_lines) x /\
    g.(fr_report) = d.(fd_report).
Proof.
  intros Hs Hl. unfold frame_stream. rewrite Hs. unfold framer_in, caller_in, body_of.
  assert (Hbody : forall base bom body, 0 <= base -> blen s = base + blen body ->
    let '(segs, tail) := split_from ([], []) body in
    let '(r, g, z) := finish_lines on_line (framer_at limits base bom segs tail) (caller_at on_line limits base segs x) in
    let d := frame_body limits base bom body in
    r = Ok d.(fd_pending) /\ z = told on_line d.(fd_lines) x /\ g.(fr_report) = d.(fd_report)).
  { intros base bom body Hb Hlen. unfold frame_body. pose proof (split_bytes body) as Hsb.
    destruct (split_from ([], []) body) as [segs tail]. cbn [fst snd] in Hsb. rewrite <- Hsb in Hlen.
    pose proof (segments_bytes segs). pose proof (blanks_bytes limits segs). pose proof (blen_nonneg tail).
    unfold finish_lines. cbn. destruct (over limits tail) eqn:Eo; cbn.
    { rewrite bool_decide_eq_false_2 by (intros ->; by rewrite over_short in Eo by (cbn; lia)). cbn.
      rewrite app_nil_r, Z.add_0_r, Eo. by split_and!. }
    case_bool_decide as Et; cbn; [rewrite app_nil_r, Eo, !Z.add_0_r; by split_and!|].
    rewrite hand_over_line by done. cbn. assert (Hn1 : Z.of_nat (length segs) + 1 <= u64_max).
    { destruct tail; [done|]. unfold blen in *. cbn in *. lia. }
    assert (Ho : sat_sub (base + bytes_of segs + blen tail) (blen tail) = base + bytes_of segs) by (unfold sat_sub; lia).
    unfold blen in Ho at 2. rewrite Ho, sat_add_small by done.
    destruct (is_blank tail); cbn; rewrite ?Eo, ?Z.add_0_r, ?app_nil_r; split_and!; try done.
    - unfold count_blank. cbn. rewrite sat_add_small; [by rewrite ?Eo, ?Z.add_0_r|].
      destruct tail; [done|]. unfold blen in *. cbn in *. lia.
    - unfold caller_at, told. by rewrite fold_left_app. }
  destruct (starts_with s BOM_UTF8) eqn:Eb.
  - specialize (Hbody 3 true (drop 3 s) ltac:(lia)). destruct (split_from _ _) as [segs tail]. cbn [fst].
    destruct (finish_lines _ _ _) as [[r g] z]. eexists. split; [done|]. apply Hbody.
    apply starts_with_iff in Eb as [k ->]. by rewrite blen_app.
  - specialize (Hbody 0 false s ltac:(lia)). destruct (split_from _ _) as [segs tail]. cbn [fst].
    destruct (finish_lines _ _ _) as [[r g] z]. eexists. split; [done|]. by apply Hbody.
Qed.

(** C23 (how a stream is cut does not matter). For a bound of at least three bytes a
    line, room for a mark, and a caller that refuses no line: whatever chunks a stream
    of less than 2^64 bytes arrives in, pushing them and finishing tells it exactly
    the lines of the stream, in order, each with its bytes, its number and its
    place, and reports its blank and oversize lines, its mark and whether its last
    line was unterminated; a stream whose mark says it is not UTF-8 is refused and
    tells nothing. Until a stream is refused no more than one line of the bound is held. *)
Theorem chunking_does_not_matter chunks x :
  let s := concat chunks in
  blen s <= u64_max ->
  let '(f, y) := feed chunks (Framer_new limits, x) in
  let '(r, g, z) := finish_lines on_line f y in
  ((carried f <= limits.(max_line_bytes))%nat \/ is_Some f.(fr_refused)) /\
  match frame_stream limits s with
  | Ok d => r = Ok d.(fd_pending) /\ z = told on_line d.(fd_lines) x /\ g.(fr_report) = d.(fd_report)
  | Err e => r = Err (json_encoding e 1 0) /\ z = x /\ g.(fr_report) = FrameReport_default
  end.
Proof.
  intros s Hl. assert (Ha : after on_line limits x s (feed chunks (Framer_new limits, x))).
  { apply (feed_after x chunks [] (Framer_new limits, x)); [by apply (after_start on_line limits x [])|done]. }
  clearbody s. destruct (feed chunks _) as [f y]. pose proof (held_bounded x s f y Ha) as Hc.
  inversion Ha as [p Hp|s' p e Hp He|s' Hp Hn]; subst; clear Ha.
  - destruct (partial_short _ Hp) as (Hs3 & HLF & Hb).
    assert (Ef : finish_lines on_line (framer_start limits s) y =
      match sniff_encoding s with
      | Some e => (Err (json_encoding e 1 0), fr_refuse e (fr_started (framer_start limits s)), y)
      | None => finish_lines on_line (framer_in limits s) (caller_in on_line limits s y)
      end).
    { unfold framer_in, caller_in, body_of. rewrite Hb, split_plain by done. cbn [fst app].
      unfold finish_lines at 1. cbn. destruct (sniff_encoding s) as [e|]; [done|].
      unfold finish_lines, framer_at. cbn. by rewrite over_short. }
    rewrite Ef. clear Ef. unfold frame_stream. destruct (sniff_encoding s) as [e|] eqn:Es; [done|].
    pose proof (finish_body s y Es Hl) as Hf. destruct (finish_lines _ _ _) as [[r g] z].
    destruct Hf as (d & Hd & Hr). unfold frame_stream in Hd. rewrite Es in Hd. by rewrite (Ok_inj _ _ Hd).
  - unfold frame_stream. by rewrite He.
  - pose proof (finish_body s x Hn Hl) as Hf. destruct (finish_lines _ _ _) as [[r g] z].
    destruct Hf as (d & -> & Hr). done.
Qed.

End Framed_stream.

(** A caller that keeps its lines. *)
Definition collect (l : Line) (x : list Line) : JsonResult unit * list Line := (Ok tt, x ++ [l]).

(** A mark, a line over the bound, a blank one and an unterminated one, a byte at
    a time. *)
Definition framed_sample : list byte :=
  BOM_UTF8 ++ [x31; CR; LF; x20; LF; x31; x31; x31; x31; x31; LF; x32; CR].

Lemma chunking_does_not_matter_witness :
  (feed collect (map (fun b => [b]) framed_sample) (Framer_new (MkLimits 1 1 1 4), [])).2 = [MkLine [x31] 1 3 6] /\
  (let '(f, y) := feed collect (map (fun b => [b]) framed_sample) (Framer_new (MkLimits 1 1 1 4), []) in
   let '(r, g, z) := finish_lines collect f y in
   r = Ok true /\ z = [MkLine [x31] 1 3 6; MkLine [x32; CR] 4 14 16] /\ g.(fr_report) = MkFrameReport 1 1 true).
Proof.
  split; [vm_compute; reflexivity|].
  pose proof (chunking_does_not_matter collect (MkLimits 1 1 1 4) (fun l x => eq_refl) ltac:(cbn; lia)
    (map (fun b => [b]) framed_sample) [] ltac:(vm_compute; congruence)) as H.
  destruct (feed _ _ _) as [f y]. destruct (finish_lines _ _ _) as [[r g] z]. destruct H as [_ (H1 & H2 & H3)].
  rewrite H1, H2, H3. split_and!; reflexivity.
Defined.
