(* ===== verification/JsonLex.v ===== *)
(** * Whitespace, strings, escapes, UTF-8 ([trailryx-json/src/lex.rs])

    The scanner of one string, as the code has it, over the bytes of the line and
    an offset; the grammar of RFC 8259 it implements, and that it accepts exactly
    that. A [String] is its UTF-8 bytes, whether borrowed or owned; the buffer a
    string with escapes is built in is local, since every use clears it. *)

From S2P Require Import Prelude Bytes Ids Json.

Definition QUOTE : byte := x22.
Definition BACKSLASH : byte := x5c.

Definition is_whitespace (b : byte) : bool :=
  bool_decide (b = x20) || bool_decide (b = x09) || bool_decide (b = x0a) || bool_decide (b = x0d).

(** How many bytes of [l], from its front, satisfy [p]. *)
Fixpoint byte_run (p : byte -> bool) (l : list byte) : nat :=
  match l with b :: l => if p b then S (byte_run p l) else 0 | [] => 0 end.

Definition skip_whitespace (bytes : list byte) (at_ : nat) : nat := (at_ + byte_run is_whitespace (drop at_ bytes))%nat.

(** [Utf8Error::error_len] is [None]: what is left could still be completed. *)
Definition utf8_incomplete (s : str) : bool :=
  match s with
  | [b0] => in_range 194 244 b0
  | [b0; b1] =>
      let c := u8v b0 in
      (in_range 224 239 b0 &&
       (if c =? 224 then in_range 160 191 b1 else if c =? 237 then in_range 128 159 b1 else is_cont b1))
      || (in_range 240 244 b0 &&
          (if c =? 240 then in_range 144 191 b1 else if c =? 244 then in_range 128 143 b1 else is_cont b1))
  | [b0; b1; b2] =>
      let c := u8v b0 in
      in_range 240 244 b0 && is_cont b2 &&
      (if c =? 240 then in_range 144 191 b1 else if c =? 244 then in_range 128 143 b1 else is_cont b1)
  | _ => false
  end.

(** [std::str::from_utf8], with [valid_up_to] and whether [error_len] is [None]. *)
Fixpoint from_utf8_from (fuel at_ : nat) (s : str) : result (nat * bool) unit :=
  match s, fuel with
  | [], _ => Ok tt
  | _ :: _, O => Err (at_, false)
  | _ :: _, S f =>
      match utf8_step s with
      | Some (_, n) => from_utf8_from f (at_ + n) (drop n s)
      | None => Err (at_, utf8_incomplete s)
      end
  end.
Definition from_utf8 (s : str) : result (nat * bool) unit := from_utf8_from (length s) 0 s.

Definition check_utf8 (bytes : list byte) (line : Z) : JsonResult unit :=
  match from_utf8 bytes with
  | Ok _ => Ok tt
  | Err (valid_up_to, incomplete) =>
      Err (json_encoding (if incomplete : bool then IncompleteUtf8 else InvalidUtf8) line valid_up_to)
  end.

(** [String::push] of a character. *)
Definition char_bytes (c : Z) : str :=
  if c <? 128 then [u8 c]
  else if c <? 2048 then [u8 (192 + c / 64); u8 (128 + c mod 64)]
  else if c <? 65536 then [u8 (224 + c / 4096); u8 (128 + c / 64 mod 64); u8 (128 + c mod 64)]
  else [u8 (240 + c / 262144); u8 (128 + c / 4096 mod 64); u8 (128 + c / 64 mod 64); u8 (128 + c mod 64)].

Definition char_from_u32 (c : Z) : option Z :=
  if (0 <=? c) && (c <? 1114112) && negb ((55296 <=? c) && (c <=? 57343)) then Some c else None.

Fixpoint plain_run_from (rest : list byte) (at_ : nat) (line : Z) : JsonResult nat :=
  match rest with
  | [] => Ok at_
  | b :: rest =>
      if bool_decide (b = QUOTE) || bool_decide (b = BACKSLASH) then Ok at_
      else if u8v b <? 32 then Err (json_syntax ControlInString line at_)
      else plain_run_from rest (at_ + 1) line
  end.
Definition plain_run (bytes : list byte) (at_ : nat) (line : Z) : JsonResult nat := plain_run_from (drop at_ bytes) at_ line.

Definition text (bytes : list byte) (from to : nat) (line : Z) : JsonResult str :=
  let s := slice bytes from (to - from) in
  match from_utf8 s with
  | Ok _ => Ok s
  | Err (valid_up_to, _) => Err (json_encoding InvalidUtf8 line (from + valid_up_to))
  end.

Definition unescape_simple (b : byte) : option byte :=
  match b with
  | x22 => Some x22
  | x5c => Some x5c
  | x2f => Some x2f
  | x62 => Some x08
  | x66 => Some x0c
  | x6e => Some x0a
  | x72 => Some x0d
  | x74 => Some x09
  | _ => None
  end.

(** Four hex digits to a [u16], the shift wrapping at its width. *)
Fixpoint hex4_digits (n : nat) (v : Z) (bytes : list byte) : option Z :=
  match n, bytes with
  | O, _ => Some v
  | S n, b :: bytes =>
      match hex_value b with
      | Some d => hex4_digits n (Z.lor (Z.shiftl v 4 mod 2 ^ 16) d) bytes
      | None => None
      end
  | S _, [] => None
  end.
Definition hex4 (bytes : list byte) : option Z := if (length bytes <? 4)%nat then None else hex4_digits 4 0 bytes.
Definition hex4_at (bytes : list byte) (at_ : nat) : option Z :=
  if (at_ <=? length bytes)%nat then hex4 (drop at_ bytes) else None.

Definition is_high_surrogate (u : Z) : bool := (55296 <=? u) && (u <=? 56319).
Definition is_low_surrogate (u : Z) : bool := (56320 <=? u) && (u <=? 57343).
Definition combine_surrogates (high low : Z) : Z := 65536 + Z.shiftl (high - 55296) 10 + (low - 56320).

(** What the escape at [at_] stands for is appended to [out]; the offset past it. *)
Definition unescape_at (bytes : list byte) (at_ : nat) (line : Z) (out : str) : JsonResult (str * nat) :=
  match bytes !! (at_ + 1)%nat with
  | None => Err (json_syntax UnexpectedEof line (at_ + 1))
  | Some esc =>
      match unescape_simple esc with
      | Some b => Ok (out ++ char_bytes (u8v b), at_ + 2)%nat
      | None =>
          if negb (bool_decide (esc = x75)) then Err (json_syntax BadEscape line (at_ + 1))
          else
            let lone := json_syntax LoneSurrogate line at_ in
            high ← ok_or (hex4_at bytes (at_ + 2)) (json_syntax BadEscape line (at_ + 2));
            if is_low_surrogate high then Err lone
            else if negb (is_high_surrogate high) then
              c ← ok_or (char_from_u32 high) lone;
              Ok (out ++ char_bytes c, at_ + 6)%nat
            else
              let pair := (at_ + 6)%nat in
              if negb (bool_decide (bytes !! pair = Some BACKSLASH)) || negb (bool_decide (bytes !! (pair + 1)%nat = Some x75))
              then Err lone
              else
                low ← ok_or (hex4_at bytes (pair + 2)) (json_syntax BadEscape line (pair + 2));
                if negb (is_low_surrogate low) then Err lone
                else
                  c ← ok_or (char_from_u32 (combine_surrogates high low)) lone;
                  Ok (out ++ char_bytes c, pair + 6)%nat
      end
  end.

(** The loop over runs and escapes; a turn consumes a byte at least. *)
Fixpoint scan_loop (fuel : nat) (bytes : list byte) (i : nat) (line : Z) (scratch : str) : JsonResult (str * nat) :=
  match fuel with
  | O => Err (json_syntax UnexpectedEof line i)
  | S fuel =>
      end_ ← plain_run bytes i line;
      scratch ← (if (i <? end_)%nat then (fun t => scratch ++ t) <$> text bytes i end_ line else Ok scratch);
      match bytes !! end_ with
      | None => Err (json_syntax UnexpectedEof line end_)
      | Some b =>
          if bool_decide (b = QUOTE) then Ok (scratch, end_ + 1)%nat
          else '(scratch, i) ← unescape_at bytes end_ line scratch; scan_loop fuel bytes i line scratch
      end
  end.

Definition scan_string (bytes : list byte) (at_ : nat) (line : Z) : JsonResult (str * nat) :=
  let body := (at_ + 1)%nat in
  first ← plain_run bytes body line;
  match bytes !! first with
  | None => Err (json_syntax UnexpectedEof line first)
  | Some b =>
      if bool_decide (b = QUOTE) then t ← text bytes body first line; Ok (t, first + 1)%nat
      else
        scratch ← text bytes body first line;
        '(scratch, i) ← unescape_at bytes first line scratch;
        scan_loop (length bytes) bytes i line scratch
  end.

(** ** The grammar of a string (RFC 8259, section 7) *)

Definition plain_char (b : byte) : bool := negb (bool_decide (b = QUOTE) || bool_decide (b = BACKSLASH)) && (32 <=? u8v b).

(** An escape, and what it stands for. *)
Inductive escape : list byte -> str -> Prop :=
  | esc_simple b c : unescape_simple b = Some c -> escape [BACKSLASH; b] [c]
  | esc_unicode h v :
      length h = 4%nat -> hex4 h = Some v -> is_high_surrogate v = false -> is_low_surrogate v = false ->
      escape (BACKSLASH :: x75 :: h) (char_bytes v)
  | esc_pair h l high low :
      length h = 4%nat -> length l = 4%nat -> hex4 h = Some high -> hex4 l = Some low ->
      is_high_surrogate high = true -> is_low_surrogate low = true ->
      escape (BACKSLASH :: x75 :: h ++ BACKSLASH :: x75 :: l) (char_bytes (combine_surrogates high low)).

(** What stands between the quotes, and the string it spells. *)
Inductive str_body : list byte -> str -> Prop :=
  | sb_end : str_body [] []
  | sb_plain b raw v : plain_char b = true -> str_body raw v -> str_body (b :: raw) (b :: v)
  | sb_escape e c raw v : escape e c -> str_body raw v -> str_body (e ++ raw) (c ++ v).

(** ** UTF-8 *)

Lemma from_utf8_valid s : from_utf8 s = Ok tt <-> valid_utf8 s = true.
Proof.
  unfold from_utf8, valid_utf8. generalize (length s), 0%nat. intros fuel. revert s.
  induction fuel as [|f IH]; intros [|b s] at_; cbn [from_utf8_from valid_utf8_from]; try done.
  destruct (utf8_step (b :: s)) as [[c n]|]; [apply IH|done].
Qed.

(** A valid string, character by character. *)
Inductive utf8_chars : str -> Prop :=
  | uc_nil : utf8_chars []
  | uc_cons s c n : utf8_step s = Some (c, n) -> utf8_chars (drop n s) -> utf8_chars s.

Lemma utf8_step_len s c n : utf8_step s = Some (c, n) -> (1 <= n <= length s)%nat.
Proof.
  unfold utf8_step. destruct s as [|b0 [|b1 [|b2 [|b3 s]]]]; cbn; intros; repeat (case_match; try done); simplify_eq; lia.
Qed.

Lemma valid_utf8_chars s : valid_utf8 s = true <-> utf8_chars s.
Proof.
  unfold valid_utf8. assert (H : forall fuel, (length s <= fuel)%nat -> valid_utf8_from fuel s = true <-> utf8_chars s).
  { intros fuel. revert s. induction fuel as [|f IH]; intros [|b s] Hl; try (cbn in Hl; lia); try (split; [constructor|done]).
    cbn [valid_utf8_from]. destruct (utf8_step (b :: s)) as [[c n]|] eqn:E.
    - pose proof (utf8_step_len _ _ _ E). rewrite IH by (rewrite length_drop; cbn in *; lia). split; [by econstructor|].
      intros Hc. inversion Hc; simplify_eq. done.
    - split; [done|]. intros Hc. inversion Hc; simplify_eq. }
  by apply H.
Qed.

Lemma utf8_step_app s t c n : utf8_step s = Some (c, n) -> utf8_step (s ++ t) = Some (c, n).
Proof.
  unfold utf8_step. destruct s as [|b0 [|b1 [|b2 [|b3 s]]]]; cbn; try done; intros H; repeat (case_match; try done).
Qed.

Lemma utf8_chars_app s t : utf8_chars s -> utf8_chars t -> utf8_chars (s ++ t).
Proof.
  intros Hs Ht. induction Hs as [|s c n Hstep _ IH]; [done|]. pose proof (utf8_step_len _ _ _ Hstep).
  eapply uc_cons; [by apply utf8_step_app|]. rewrite drop_app_le by lia. done.
Qed.

Lemma not_cont b : u8v b < 128 -> forall lo hi, 128 <= lo -> in_range lo hi b = false.
Proof. intros Hb lo hi Hlo. unfold in_range. destruct (Z.leb_spec lo (u8v b)); [lia|done]. Qed.

(** No character reaches over an ASCII byte. *)
Lemma utf8_step_before s b t c n :
  s <> [] -> u8v b < 128 -> utf8_step (s ++ b :: t) = Some (c, n) -> (n <= length s)%nat /\ utf8_step s = Some (c, n).
Proof.
  intros Hs Hb. pose proof (not_cont b Hb) as Hn.
  destruct s as [|b0 [|b1 [|b2 [|b3 s]]]]; [done|..]; unfold utf8_step, is_cont; cbn [app length].
  - rewrite !(Hn 128), ?(Hn 160), ?(Hn 144) by lia. rewrite !andb_false_r. intros H. 
    repeat (case_match; try done); simplify_eq; try lia; try (rewrite ?andb_false_r in *; done); split; try done; lia.
  - rewrite !(Hn 128) by lia. rewrite ?andb_false_r. cbn. intros H.
    repeat (case_match; try done); simplify_eq; try lia; try (rewrite ?andb_false_r in *; done); split; try done; lia.
  - rewrite !(Hn 128) by lia. rewrite ?andb_false_r. cbn. intros H.
    repeat (case_match; try done); simplify_eq; try lia; try (rewrite ?andb_false_r in *; done); split; try done; lia.
  - intros H. repeat (case_match; try done); simplify_eq; split; try done; lia.
Qed.

Lemma utf8_chars_split s b t : u8v b < 128 -> utf8_chars (s ++ b :: t) -> utf8_chars s /\ utf8_chars (b :: t).
Proof.
  intros Hb H. remember (s ++ b :: t) as l eqn:El. revert s El. induction H as [|l c n Hstep Hr IH]; intros s El.
  { by destruct s. }
  subst l.
  destruct s as [|d s]; [split; [constructor|by econstructor]|].
  destruct (utf8_step_before (d :: s) b t c n) as [Hn Hs]; [done|done|done|].
  destruct (IH (drop n (d :: s))) as [H1 H2]; [by rewrite drop_app_le by lia|]. split; [by econstructor|done].
Qed.

Lemma utf8_chars_ascii b t : u8v b < 128 -> utf8_chars (b :: t) <-> utf8_chars t.
Proof.
  intros Hb. split.
  - intros H. inversion H as [|? c n Hs Hr]; subst. rewrite utf8_step_ascii in Hs by done. by simplify_eq.
  - intros H. eapply uc_cons; [by apply utf8_step_ascii|done].
Qed.

Lemma utf8_chars_ascii_app a t : Forall (fun b => u8v b < 128) a -> utf8_chars (a ++ t) <-> utf8_chars t.
Proof. induction 1 as [|b a Hb _ IH]; [done|]. cbn. by rewrite utf8_chars_ascii. Qed.

(** A character's bytes decode to it. *)
Ltac decide_bounds :=
  repeat match goal with
  | |- context [?a <=? ?b] => first [rewrite (proj2 (Z.leb_le a b)) by lia | rewrite (proj2 (Z.leb_gt a b)) by lia]
  | |- context [?a <? ?b] => first [rewrite (proj2 (Z.ltb_lt a b)) by lia | rewrite (proj2 (Z.ltb_ge a b)) by lia]
  end.

Lemma char_bytes_step c t :
  0 <= c < 1114112 -> c < 55296 \/ 57343 < c -> utf8_step (char_bytes c ++ t) = Some (c, length (char_bytes c)).
Proof.
  intros Hc Hs. unfold char_bytes.
  pose proof (Z.div_mod c 64 ltac:(lia)) as H1. pose proof (Z.mod_pos_bound c 64 ltac:(lia)) as H2.
  pose proof (Z.div_mod (c / 64) 64 ltac:(lia)) as H3. pose proof (Z.mod_pos_bound (c / 64) 64 ltac:(lia)) as H4.
  pose proof (Z.div_mod (c / 4096) 64 ltac:(lia)) as H5. pose proof (Z.mod_pos_bound (c / 4096) 64 ltac:(lia)) as H6.
  replace (c / 64 / 64) with (c / 4096) in H3 by (rewrite Z.div_div by lia; done).
  replace (c / 4096 / 64) with (c / 262144) in H5 by (rewrite Z.div_div by lia; done).
  set (r := c mod 64) in *. set (m := c / 64 mod 64) in *. set (k := c / 4096 mod 64) in *.
  set (a := c / 64) in *. set (b := c / 4096) in *. set (d := c / 262144) in *. clearbody r m k a b d.
  destruct (Z.ltb_spec c 128).
  { cbn [app]. rewrite utf8_step_ascii by (rewrite u8v_u8_small; lia). by rewrite u8v_u8_small by lia. }
  destruct (Z.ltb_spec c 2048).
  { cbn [app]. unfold utf8_step, is_cont, in_range. rewrite !u8v_u8_small by lia. decide_bounds. cbn. do 2 f_equal. lia. }
  destruct (Z.ltb_spec c 65536).
  { cbn [app]. unfold utf8_step, is_cont, in_range. rewrite !u8v_u8_small by lia.
    destruct (Z.eqb_spec (224 + b) 224); [|destruct (Z.eqb_spec (224 + b) 237)]; decide_bounds; cbn; do 2 f_equal; lia. }
  cbn [app]. unfold utf8_step, is_cont, in_range. rewrite !u8v_u8_small by lia.
  destruct (Z.eqb_spec (240 + d) 224); [lia|]. destruct (Z.eqb_spec (240 + d) 237); [lia|].
  destruct (Z.eqb_spec (240 + d) 240); [|destruct (Z.eqb_spec (240 + d) 244)]; decide_bounds; cbn; do 2 f_equal; lia.
Qed.

Lemma char_bytes_chars c t : 0 <= c < 1114112 -> c < 55296 \/ 57343 < c -> utf8_chars t -> utf8_chars (char_bytes c ++ t).
Proof. intros Hc Hs Ht. eapply uc_cons; [by apply char_bytes_step|]. by rewrite drop_app_length. Qed.

(** ** Escapes *)

Lemma get_from pre (y : list byte) k : (pre ++ y) !! (length pre + k)%nat = y !! k.
Proof. rewrite lookup_app_r by lia. f_equal. lia. Qed.

Lemma hex4_get pre y k : hex4_at (pre ++ y) (length pre + k) = hex4 (drop k y).
Proof.
  unfold hex4_at. rewrite length_app. destruct (_ <=? _)%nat eqn:E; breflect.
  - f_equal. rewrite drop_app_ge by lia. f_equal. lia.
  - by rewrite drop_ge by lia.
Qed.

Lemma hex4_app h post : length h = 4%nat -> hex4 (h ++ post) = hex4 h.
Proof.
  intros Hl. destruct h as [|a [|b [|c [|d [|]]]]]; cbn in Hl; try lia.
  unfold hex4. cbn. repeat (case_match; try done).
Qed.

Lemma hex4_front y v : hex4 y = Some v -> exists h post, y = h ++ post /\ length h = 4%nat /\ hex4 h = Some v.
Proof.
  intros H. exists (take 4 y), (drop 4 y). unfold hex4 in H. destruct (_ <? _)%nat eqn:E in H; [done|]. breflect.
  split_and!; [by rewrite take_drop|rewrite length_take; lia|].
  rewrite <- (hex4_app (take 4 y) (drop 4 y)), take_drop by (rewrite length_take; lia). unfold hex4.
  by rewrite (proj2 (Nat.ltb_ge _ _)) by lia.
Qed.

Lemma hex4_step v d : 0 <= v < 4096 -> 0 <= d < 16 -> Z.lor (Z.shiftl v 4 mod 2 ^ 16) d = 16 * v + d.
Proof.
  intros Hv Hd. rewrite Z.mod_small by (rewrite Z.shiftl_mul_pow2; lia). rewrite Z.lor_comm, lor_shiftl_add by lia. lia.
Qed.

Lemma hex4_range h v : hex4 h = Some v -> 0 <= v < 65536.
Proof.
  unfold hex4. destruct (_ <? _)%nat eqn:E; [done|]. breflect. destruct h as [|a [|b [|c [|d h]]]]; cbn in E; try lia.
  cbn [hex4_digits]. destruct (hex_value a) as [da|] eqn:Ea; [|done]. destruct (hex_value b) as [db|] eqn:Eb; [|done].
  destruct (hex_value c) as [dc|] eqn:Ec; [|done]. destruct (hex_value d) as [dd|] eqn:Ed; [|done]. intros [= <-].
  apply hex_value_range in Ea, Eb, Ec, Ed. rewrite (hex4_step 0 da) by lia. rewrite (hex4_step _ db) by lia.
  rewrite (hex4_step _ dc), hex4_step by lia. lia.
Qed.

Lemma unescape_simple_ascii b c : unescape_simple b = Some c -> char_bytes (u8v c) = [c] /\ u8v b < 128 /\ u8v c < 128 /\ b <> x75.
Proof. destruct b; try done; intros [= <-]; by split_and!. Qed.

Lemma surrogate_pair high low :
  is_high_surrogate high = true -> is_low_surrogate low = true -> 65536 <= combine_surrogates high low < 1114112.
Proof.
  unfold is_high_surrogate, is_low_surrogate, combine_surrogates. intros. breflect. rewrite Z.shiftl_mul_pow2 by lia. lia.
Qed.

Lemma char_from_u32_ok c : 0 <= c < 1114112 -> c < 55296 \/ 57343 < c -> char_from_u32 c = Some c.
Proof.
  intros Hc Hs. unfold char_from_u32. rewrite (proj2 (Z.leb_le 0 c)), (proj2 (Z.ltb_lt c 1114112)) by lia.
  destruct (Z.leb_spec 55296 c), (Z.leb_spec c 57343); try done. lia.
Qed.

(** A code unit that is no surrogate is a character. *)
Lemma unit_char v : 0 <= v < 65536 -> is_high_surrogate v = false -> is_low_surrogate v = false -> v < 55296 \/ 57343 < v.
Proof.
  unfold is_high_surrogate, is_low_surrogate. intros Hv Hh Hl. apply andb_false_iff in Hh, Hl. destruct Hh, Hl; breflect; lia.
Qed.

Lemma unescape_iff pre x line out o' i :
  let at_ := length pre in
  unescape_at (pre ++ BACKSLASH :: x) at_ line out = Ok (o', i) <->
  exists e v post, BACKSLASH :: x = e ++ post /\ escape e v /\ o' = out ++ v /\ i = (at_ + length e)%nat.
Proof.
  cbn zeta. split.
  - unfold unescape_at. rewrite get_from. destruct x as [|b x]; [done|]. change ((BACKSLASH :: b :: x) !! 1%nat) with (Some b). cbv iota beta.
    destruct (unescape_simple b) as [c|] eqn:Es.
    { intros [= <- <-]. destruct (unescape_simple_ascii _ _ Es) as [-> _]. exists [BACKSLASH; b], [c], x.
      split_and!; try done. by constructor. }
    destruct (bool_decide (b = x75)) eqn:Eb; [|done]. breflect. subst b. cbn [negb].
    rewrite hex4_get, !skipn_cons, drop_0. destruct (hex4 x) as [high|] eqn:Eh; [|done]. cbn.
    destruct (hex4_front _ _ Eh) as (h & post & -> & Hl & Eh').
    destruct (is_low_surrogate high) eqn:El; [done|]. destruct (is_high_surrogate high) eqn:Ehi; cbn [negb].
    2:{ rewrite char_from_u32_ok; [|pose proof (hex4_range _ _ Eh); lia|by apply unit_char; [eapply hex4_range| |]].
        cbn. intros [= <- <-]. exists (BACKSLASH :: x75 :: h), (char_bytes high), post.
        split_and!; [done|by constructor|done|cbn; lia]. }
    replace (length pre + 6 + 1)%nat with (length pre + 7)%nat by lia. rewrite !get_from.
    replace (length pre + 6 + 2)%nat with (length pre + 8)%nat by lia. rewrite hex4_get.
    change ((BACKSLASH :: x75 :: h ++ post) !! 6%nat) with ((h ++ post) !! (4)%nat).
    change ((BACKSLASH :: x75 :: h ++ post) !! 7%nat) with ((h ++ post) !! (5)%nat).
    change (drop 8 (BACKSLASH :: x75 :: h ++ post)) with (drop 6 (h ++ post)).
    rewrite !lookup_app_r, drop_app_ge by lia. rewrite Hl. cbn [Nat.sub].
    destruct (_ || _) eqn:Ep; [done|]. breflect. destruct post as [|p0 [|p1 post]]; cbn in *; simplify_eq.
    rewrite drop_0. destruct (hex4 post) as [low|] eqn:Elo; [|done]. cbn.
    destruct (hex4_front _ _ Elo) as (l & post' & -> & Hl' & Elo').
    destruct (is_low_surrogate low) eqn:Ell; [|done]. cbn [negb].
    pose proof (surrogate_pair _ _ Ehi Ell). rewrite char_from_u32_ok by lia. cbn. intros [= <- <-].
    exists (BACKSLASH :: x75 :: h ++ BACKSLASH :: x75 :: l), (char_bytes (combine_surrogates high low)), post'.
    split_and!; [cbn; by rewrite <- app_assoc|by constructor|done|cbn; rewrite length_app; cbn; lia].
  - intros (e & v & post & Hx & He & -> & ->). unfold unescape_at. rewrite get_from. destruct He as [b c Hc|h v Hl Hv Hh Hlo|h l high low Hlh Hll Hh Hlo Hhi Hlow].
    + injection Hx as ->. cbn. rewrite Hc. by destruct (unescape_simple_ascii _ _ Hc) as [-> _].
    + injection Hx as ->. cbn [app].
      match goal with |- context [(?a :: ?b :: ?y) !! 1%nat] => change ((a :: b :: y) !! 1%nat) with (Some b) end. cbn [unescape_simple]. rewrite (bool_decide_eq_true_2 (x75 = x75)) by done. cbn.
      rewrite hex4_get, !skipn_cons, drop_0. rewrite hex4_app, Hv by done. cbn. rewrite Hh, Hlo. cbn.
      pose proof (hex4_range _ _ Hv). rewrite char_from_u32_ok; [|lia|by apply unit_char]. cbn. do 2 f_equal. lia.
    + injection Hx as ->. cbn [app].
      match goal with |- context [(?a :: ?b :: ?y) !! 1%nat] => change ((a :: b :: y) !! 1%nat) with (Some b) end. cbn [unescape_simple]. rewrite (bool_decide_eq_true_2 (x75 = x75)) by done. cbn.
      rewrite hex4_get, !skipn_cons, drop_0. rewrite <- app_assoc, hex4_app, Hh by done. cbn.
      assert (is_low_surrogate high = false) as ->.
      { unfold is_high_surrogate, is_low_surrogate in *. breflect. apply andb_false_iff. left. apply Z.leb_gt. lia. }
      rewrite Hhi. cbn [negb].
      replace (length pre + 6 + 1)%nat with (length pre + 7)%nat by lia. rewrite !get_from.
      replace (length pre + 6 + 2)%nat with (length pre + 8)%nat by lia. rewrite hex4_get.
      match goal with |- context [(?a :: ?b :: h ++ ?p) !! 6%nat] =>
        change ((a :: b :: h ++ p) !! 6%nat) with ((h ++ p) !! 4%nat);
        change ((a :: b :: h ++ p) !! 7%nat) with ((h ++ p) !! 5%nat);
        change (drop 8 (a :: b :: h ++ p)) with (drop 6 (h ++ p)) end.
      rewrite !lookup_app_r, drop_app_ge by lia. rewrite Hlh. cbn. rewrite drop_0, hex4_app, Hlo by done. cbn. rewrite Hlow. cbn.
      pose proof (surrogate_pair _ _ Hhi Hlow). rewrite char_from_u32_ok by lia. cbn. rewrite length_app. cbn. do 2 f_equal. lia.
Qed.

(** ** Strings *)

(** [x] starts with the rest of a string: it spells [v], and [post] follows its quote. *)
Definition closes (x : list byte) (v : str) (post : list byte) : Prop :=
  exists raw, x = raw ++ QUOTE :: post /\ str_body raw v.

Definition stops (x : list byte) : Prop := x = [] \/ (exists y, x = QUOTE :: y) \/ (exists y, x = BACKSLASH :: y).

Lemma plain_not b : plain_char b = true -> b <> QUOTE /\ b <> BACKSLASH /\ 32 <= u8v b.
Proof. unfold plain_char. intros. breflect. tauto. Qed.

Lemma escape_shape e c : escape e c -> exists y, e = BACKSLASH :: y.
Proof. destruct 1; eauto. Qed.

Lemma closes_plain w x o post :
  Forall (fun b => plain_char b = true) w -> closes (w ++ x) o post <-> exists v, o = w ++ v /\ closes x v post.
Proof.
  intros Hw. revert o. induction Hw as [|b w Hb _ IH]; intros o; cbn; [naive_solver|]. split.
  - intros (raw & Hx & Hr). destruct Hr as [|b' raw v Hb' Hr|e c raw v He Hr].
    + injection Hx as -> _. by apply plain_not in Hb as [? _].
    + injection Hx as -> Hx. destruct (proj1 (IH v)) as (v' & -> & Hv'); [by exists raw|]. by exists v'.
    + apply escape_shape in He as [y ->]. injection Hx as -> _. by apply plain_not in Hb as (_ & ? & _).
  - intros (v & -> & Hv). destruct (proj2 (IH (w ++ v))) as (raw & Hx & Hr); [by exists v|].
    exists (b :: raw). split; [cbn; by rewrite Hx|by constructor].
Qed.

Lemma closes_quote y v post : closes (QUOTE :: y) v post <-> v = [] /\ post = y.
Proof.
  split.
  - intros (raw & Hx & Hr). destruct Hr as [|b raw v Hb Hr|e c raw v He Hr].
    + by injection Hx as ->.
    + injection Hx as <- _. by apply plain_not in Hb as [? _].
    + by apply escape_shape in He as [z ->].
  - intros [-> ->]. exists []. split; [done|constructor].
Qed.

Lemma closes_escape y o post :
  closes (BACKSLASH :: y) o post <->
  exists e c rest v, BACKSLASH :: y = e ++ rest /\ escape e c /\ o = c ++ v /\ closes rest v post.
Proof.
  split.
  - intros (raw & Hx & Hr). destruct Hr as [|b raw v Hb Hr|e c raw v He Hr]; [done| |].
    + injection Hx as <- _. by apply plain_not in Hb as (_ & ? & _).
    + exists e, c, (raw ++ QUOTE :: post), v. split_and!; [by rewrite Hx, app_assoc|done|done|by exists raw].
  - intros (e & c & rest & v & -> & He & -> & raw & -> & Hr). exists (e ++ raw). split; [by rewrite app_assoc|by constructor].
Qed.

Lemma closes_nil v post : ~ closes [] v post.
Proof. intros (raw & Hx & _). by destruct raw. Qed.

Lemma closes_control b y v post : u8v b < 32 -> ~ closes (b :: y) v post.
Proof.
  intros Hb (raw & Hx & Hr). destruct Hr as [|b' raw v Hb' Hr|e c raw v He Hr].
  - by injection Hx as ->.
  - injection Hx as -> _. apply plain_not in Hb' as (_ & _ & ?). lia.
  - apply escape_shape in He as [z ->]. by injection Hx as ->.
Qed.

(** A run of plain characters ends at a quote, a backslash, the end of the input,
    or is refused at a control character. *)
Lemma plain_run_cases rest at_ line :
  (exists w x, rest = w ++ x /\ Forall (fun b => plain_char b = true) w /\ stops x /\
     plain_run_from rest at_ line = Ok (at_ + length w)%nat) \/
  (exists w b x, rest = w ++ b :: x /\ Forall (fun b => plain_char b = true) w /\ u8v b < 32 /\
     plain_run_from rest at_ line = Err (json_syntax ControlInString line (at_ + length w))).
Proof.
  revert at_. induction rest as [|b rest IH]; intros at_; cbn [plain_run_from].
  { left. exists [], []. split_and!; [done|done|by left|by rewrite Nat.add_0_r]. }
  destruct (bool_decide (b = QUOTE) || bool_decide (b = BACKSLASH)) eqn:Es.
  { left. exists [], (b :: rest). split_and!; [done|done| |by rewrite Nat.add_0_r].
    right. apply orb_true_iff in Es as [E|E]; breflect; subst; eauto. }
  destruct (u8v b <? 32) eqn:Ec; breflect.
  { right. exists [], b, rest. split_and!; [done|done|done|by rewrite Nat.add_0_r]. }
  assert (Hp : plain_char b = true).
  { unfold plain_char. rewrite !bool_decide_eq_false_2 by done. by apply Z.leb_le. }
  destruct (IH (at_ + 1)%nat) as [(w & x & -> & Hw & Hs & ->)|(w & c & x & -> & Hw & Hc & ->)].
  - left. exists (b :: w), x. split_and!; [done|by constructor|done|f_equal; cbn; lia].
  - right. exists (b :: w), c, x. split_and!; [done|by constructor|done|do 2 f_equal; cbn; lia].
Qed.

Lemma text_ok pre w x line : utf8_chars w -> text (pre ++ w ++ x) (length pre) (length pre + length w) line = Ok w.
Proof.
  intros Hw. unfold text. replace (length pre + length w - length pre)%nat with (length w) by lia.
  rewrite (slice_app_mid pre w x) by done. by rewrite (proj2 (from_utf8_valid w) (proj2 (valid_utf8_chars w) Hw)).
Qed.

Lemma quote_ascii : u8v QUOTE < 128. Proof. done. Qed.
Lemma backslash_ascii : u8v BACKSLASH < 128. Proof. done. Qed.

Lemma utf8_stops w x : stops x -> utf8_chars (w ++ x) -> utf8_chars w /\ utf8_chars x.
Proof.
  intros [->|[[y ->]|[y ->]]] H.
  - rewrite app_nil_r in H. split; [done|constructor].
  - by apply (utf8_chars_split _ _ _ quote_ascii).
  - by apply (utf8_chars_split _ _ _ backslash_ascii).
Qed.

Lemma hex_value_ascii b d : hex_value b = Some d -> u8v b < 128.
Proof. unfold hex_value. repeat case_match; intros; simplify_eq; breflect; lia. Qed.

Lemma hex4_ascii h v : length h = 4%nat -> hex4 h = Some v -> Forall (fun b => u8v b < 128) h.
Proof.
  intros Hl. destruct h as [|a [|b [|c [|d [|]]]]]; cbn in Hl; try lia. unfold hex4. cbn.
  destruct (hex_value a) eqn:Ea; [|done]. destruct (hex_value b) eqn:Eb; [|done].
  destruct (hex_value c) eqn:Ec; [|done]. destruct (hex_value d) eqn:Ed; [|done]. intros _.
  repeat constructor; eapply hex_value_ascii; eassumption.
Qed.

(** An escape is ASCII, stands for whole characters, and is longer than they are. *)
Lemma escape_facts e c :
  escape e c -> Forall (fun b => u8v b < 128) e /\ (forall t, utf8_chars t -> utf8_chars (c ++ t)) /\
  (length c < length e)%nat.
Proof.
  assert (Hlen : forall v, (length (char_bytes v) <= 4)%nat) by (intros v; unfold char_bytes; repeat case_match; cbn; lia).
  destruct 1 as [b c Hc|h v Hl Hv Hh Hlo|h l high low Hlh Hll Hh Hlo Hhi Hlow].
  - apply unescape_simple_ascii in Hc as (_ & Hb & Hc & _). split_and!; [repeat constructor; done| |cbn; lia].
    intros t Ht. by apply utf8_chars_ascii.
  - split_and!; [|intros t Ht|cbn; specialize (Hlen v); lia].
    + constructor; [done|]. constructor; [done|]. by eapply hex4_ascii.
    + pose proof (hex4_range _ _ Hv). apply char_bytes_chars; [lia|by apply unit_char|done].
  - pose proof (surrogate_pair _ _ Hhi Hlow). split_and!; [|intros t Ht; apply char_bytes_chars; [lia|lia|done]|].
    + repeat (constructor; [done|]). apply Forall_app. split; [by eapply hex4_ascii|]. repeat (constructor; [done|]). by eapply hex4_ascii.
    + cbn. rewrite length_app. cbn. specialize (Hlen (combine_surrogates high low)). lia.
Qed.

(** One escape starts at a backslash, if any does. *)
Lemma escape_det e1 c1 r1 e2 c2 r2 : escape e1 c1 -> escape e2 c2 -> e1 ++ r1 = e2 ++ r2 -> c1 = c2 /\ r1 = r2.
Proof.
  intros H1 H2 He. destruct (escape_shape _ _ H1) as [y Hy].
  assert (U1 : unescape_at (BACKSLASH :: y ++ r1) 0 0 [] = Ok (c1, length e1)).
  { apply (unescape_iff []). exists e1, c1, r1. subst e1. by split_and!. }
  assert (U2 : unescape_at (BACKSLASH :: y ++ r1) 0 0 [] = Ok (c2, length e2)).
  { apply (unescape_iff []). exists e2, c2, r2. subst e1. by split_and!. }
  rewrite U1 in U2. injection U2 as -> Hl. split; [done|]. by apply app_eq_same_length in He as [_ ?].
Qed.

Lemma closes_after_escape e c rest o post :
  escape e c -> closes (e ++ rest) o post <-> exists v, o = c ++ v /\ closes rest v post.
Proof.
  intros He. destruct (escape_shape _ _ He) as [y Hy]. rewrite Hy. cbn [app]. rewrite closes_escape. split.
  - intros (e' & c' & rest' & v & Hx & He' & -> & Hc). destruct (escape_det e c rest e' c' rest' He He') as [<- <-]; [by rewrite Hy|].
    by exists v.
  - intros (v & -> & Hc). exists e, c, rest, v. split_and!; [by rewrite Hy|done|done|done].
Qed.

(** The loop reads the string it stands in, and only a string. *)
Lemma scan_loop_iff fuel pre x line s o e :
  utf8_chars x -> (length x < fuel)%nat ->
  scan_loop fuel (pre ++ x) (length pre) line s = Ok (o, e) <->
  exists v post, closes x v post /\ o = s ++ v /\ (e + length post)%nat = length (pre ++ x).
Proof.
  revert pre x s. induction fuel as [|fuel IH]; intros pre x s Hu Hf; [lia|]. cbn [scan_loop].
  unfold plain_run. rewrite drop_app_length.
  destruct (plain_run_cases x (length pre) line) as [(w & y & -> & Hw & Hs & ->)|(w & b & y & -> & Hw & Hb & ->)].
  2:{ cbn. split; [done|]. intros (v & post & Hc & _). apply closes_plain in Hc as (v' & _ & Hc); [|done].
      by apply closes_control in Hc. }
  destruct (utf8_stops _ _ Hs Hu) as [Huw Huy]. cbn [mbind result_bind].
  replace (if (length pre <? length pre + length w)%nat then _ else Ok s) with (Ok (s ++ w) : JsonResult str).
  2:{ destruct (_ <? _)%nat eqn:E; breflect; [rewrite text_ok by done; done|]. destruct w; [by rewrite app_nil_r|cbn in E; lia]. }
  cbn [mbind result_bind]. rewrite app_assoc, <- length_app.
  replace (length (pre ++ w)) with (length (pre ++ w) + 0)%nat at 1 by lia. rewrite get_from.
  destruct Hs as [->|[[z ->]|[z ->]]].
  - cbn. split; [done|]. intros (v & post & Hc & _). apply closes_plain in Hc as (v' & _ & Hc); [|done]. by apply closes_nil in Hc.
  - cbn [lookup list_lookup]. rewrite bool_decide_eq_true_2 by done. split.
    + intros [= <- <-]. exists w, z. split_and!; [|done|rewrite !length_app; cbn; lia].
      apply closes_plain; [done|]. exists []. rewrite app_nil_r. split; [done|]. by apply closes_quote.
    + intros (v & post & Hc & -> & He). apply closes_plain in Hc as (v' & -> & Hc); [|done]. apply closes_quote in Hc as [-> ->].
      rewrite app_nil_r. do 2 f_equal. rewrite !length_app in *. cbn in He. lia.
  - cbn [lookup list_lookup]. rewrite bool_decide_eq_false_2 by done.
    destruct (unescape_at _ _ _ _) as [[s' i]|err] eqn:Eu; cbn [mbind result_bind].
    + apply unescape_iff in Eu as (e' & c & rest & Hz & He' & -> & ->). destruct (escape_facts e' c He') as (Ha & _ & Hlen).
      rewrite Hz in *. rewrite app_assoc, <- (length_app (pre ++ w)). rewrite !length_app in Hf.
      apply utf8_chars_ascii_app in Huy; [|done]. rewrite IH by (done || lia). split.
      * intros (v & post & Hc & -> & He). exists (w ++ c ++ v), post. split_and!; [|by rewrite <- !app_assoc|done].
        apply closes_plain; [done|]. eexists. split; [done|]. apply (closes_after_escape _ _ _ _ _ He'). by exists v.
      * intros (v & post & Hc & -> & He). apply closes_plain in Hc as (v' & -> & Hc); [|done].
        apply (closes_after_escape _ _ _ _ _ He') in Hc as (v & -> & Hc). exists v, post. by rewrite <- !app_assoc in *.
    + split; [done|]. intros (v & post & Hc & -> & He). apply closes_plain in Hc as (v' & -> & Hc); [|done].
      apply closes_escape in Hc as (e' & c & rest & v & Hz & He' & _). exfalso.
      assert (Hok : unescape_at ((pre ++ w) ++ BACKSLASH :: z) (length (pre ++ w)) line (s ++ w) = Ok ((s ++ w) ++ c, length (pre ++ w) + length e')%nat).
      { apply unescape_iff. by exists e', c, rest. }
      congruence.
Qed.

(** [scan_string] reads a string from its quote, and only a string. *)
Lemma scan_string_iff pre x line v e :
  utf8_chars x ->
  scan_string (pre ++ QUOTE :: x) (length pre) line = Ok (v, e) <->
  exists post, closes x v post /\ (e + length post)%nat = length (pre ++ QUOTE :: x).
Proof.
  intros Hu. replace (pre ++ QUOTE :: x) with ((pre ++ [QUOTE]) ++ x) by (by rewrite <- app_assoc).
  unfold scan_string. replace (length pre + 1)%nat with (length (pre ++ [QUOTE])) by (by rewrite length_app).
  assert (Hf : (length x < length ((pre ++ [QUOTE]) ++ x))%nat) by (rewrite !length_app; cbn; lia).
  set (p := pre ++ [QUOTE]) in *. clearbody p.
  unfold plain_run. rewrite drop_app_length.
  destruct (plain_run_cases x (length p) line) as [(w & y & -> & Hw & Hs & ->)|(w & b & y & -> & Hw & Hb & ->)].
  2:{ cbn. split; [done|]. intros (post & Hc & _). apply closes_plain in Hc as (v' & _ & Hc); [|done].
      by apply closes_control in Hc. }
  destruct (utf8_stops _ _ Hs Hu) as [Huw Huy]. cbn [mbind result_bind]. rewrite text_ok by done. cbn [mbind result_bind].
  rewrite app_assoc, <- length_app in *.
  replace (length (p ++ w)) with (length (p ++ w) + 0)%nat at 1 by lia. rewrite get_from.
  destruct Hs as [->|[[z ->]|[z ->]]].
  - cbn. split; [done|]. intros (post & Hc & _). apply closes_plain in Hc as (v' & _ & Hc); [|done]. by apply closes_nil in Hc.
  - cbn [lookup list_lookup]. rewrite bool_decide_eq_true_2 by done. split.
    + intros [= <- <-]. exists z. split; [|rewrite !length_app; cbn; lia].
      apply closes_plain; [done|]. exists []. rewrite app_nil_r. split; [done|]. by apply closes_quote.
    + intros (post & Hc & He). apply closes_plain in Hc as (v' & -> & Hc); [|done]. apply closes_quote in Hc as [-> ->].
      rewrite app_nil_r. do 2 f_equal. rewrite !length_app in *. cbn in He. lia.
  - cbn [lookup list_lookup]. rewrite bool_decide_eq_false_2 by done.
    destruct (unescape_at _ _ _ _) as [[s' i]|err] eqn:Eu; cbn [mbind result_bind].
    + apply unescape_iff in Eu as (e' & c & rest & Hz & He' & -> & ->). destruct (escape_facts e' c He') as (Ha & _ & Hlen).
      rewrite Hz in *. rewrite app_assoc, <- (length_app (p ++ w)) in *. rewrite !length_app in Hf.
      apply utf8_chars_ascii_app in Huy; [|done]. rewrite scan_loop_iff by (done || rewrite !length_app; lia). split.
      * intros (v' & post & Hc & -> & He). exists post. split; [|done]. rewrite <- !app_assoc.
        apply closes_plain; [done|]. eexists. split; [done|]. apply (closes_after_escape _ _ _ _ _ He'). by exists v'.
      * intros (post & Hc & He). rewrite <- ?app_assoc in Hc. apply closes_plain in Hc as (v' & -> & Hc); [|done].
        apply (closes_after_escape _ _ _ _ _ He') in Hc as (v'' & -> & Hc). exists v'', post. by rewrite <- !app_assoc in *.
    + split; [done|]. intros (post & Hc & He). apply closes_plain in Hc as (v' & -> & Hc); [|done].
      apply closes_escape in Hc as (e' & c & rest & v'' & Hz & He' & _). exfalso.
      assert (Hok : unescape_at ((p ++ w) ++ BACKSLASH :: z) (length (p ++ w)) line w = Ok (w ++ c, length (p ++ w) + length e')%nat).
      { apply unescape_iff. by exists e', c, rest. }
      congruence.
Qed.

(** The value is a string, and no longer than what spelled it. *)
Lemma str_body_utf8 raw v w post :
  str_body raw v -> utf8_chars (w ++ raw ++ QUOTE :: post) -> utf8_chars (w ++ v).
Proof.
  intros Hb. revert w. induction Hb as [|b raw v Hp Hb IH|e c raw v He Hb IH]; intros w Hu.
  - rewrite app_nil_r. by apply (utf8_chars_split _ _ _ quote_ascii) in Hu as [? _].
  - specialize (IH (w ++ [b])). rewrite <- !app_assoc in IH. by apply IH.
  - destruct (escape_facts e c He) as (Ha & Hc & _). destruct (escape_shape e c He) as [y Hy].
    assert (Hu' : utf8_chars (w ++ BACKSLASH :: y ++ raw ++ QUOTE :: post)) by (rewrite Hy, <- app_assoc in Hu; exact Hu).
    apply (utf8_chars_split _ _ _ backslash_ascii) in Hu' as [Hw Hu'].
    apply utf8_chars_app; [done|]. apply Hc, (IH []). apply (utf8_chars_ascii_app e); [done|]. by rewrite Hy.
Qed.

Lemma str_body_shrinks raw v : str_body raw v -> (length v <= length raw)%nat.
Proof.
  induction 1 as [|b raw v Hp Hb IH|e c raw v He Hb IH]; cbn; [lia|lia|].
  destruct (escape_facts e c He) as (_ & _ & Hl). rewrite !length_app. lia.
Qed.
