(* ===== verification/JsonNumber.v ===== *)
(** * Numbers ([trailryx-json/src/number.rs])

    The scanner of one number and its exact readings as integers. The grammar is
    RFC 8259's; a literal's meaning is [m * 10^k], with [m] its digits across the
    point. The reading as a float is not modelled. *)

From S2P Require Import Prelude Bytes Ids Json JsonLex.

Record Number := MkNumber { nb_raw : list byte; nb_integral : bool }.

Definition is_digit (b : byte) : bool := in_range 48 57 b.

Definition byte_at (bytes : list byte) (at_ : nat) (p : byte -> bool) : bool :=
  match bytes !! at_ with Some b => p b | None => false end.
Definition is_byte (c b : byte) : bool := bool_decide (b = c).

Definition MINUS : byte := x2d.
Definition PLUS : byte := x2b.
Definition POINT : byte := x2e.
Definition is_e (b : byte) : bool := is_byte x65 b || is_byte x45 b.
Definition is_sign (b : byte) : bool := is_byte PLUS b || is_byte MINUS b.

(** The offset past the digits at [at_]. *)
Definition digits_from (bytes : list byte) (at_ : nat) : nat := (at_ + byte_run is_digit (drop at_ bytes))%nat.

(** ** The scanner *)

Section Scan.
Variables (bytes : list byte) (line : Z).

Definition bad (offset : nat) : JsonError := json_syntax BadNumber line offset.

Definition scan_int (i : nat) : JsonResult nat :=
  if byte_at bytes i (is_byte x30) then
    if byte_at bytes (i + 1) is_digit then Err (bad (i + 1)) else Ok (i + 1)%nat
  else if byte_at bytes i is_digit then Ok (digits_from bytes i)
  else Err (bad i).

Definition scan_digits (from : nat) : JsonResult nat :=
  let i := digits_from bytes from in if (i =? from)%nat then Err (bad i) else Ok i.

Definition scan_frac (i : nat) : JsonResult (bool * nat) :=
  if byte_at bytes i (is_byte POINT) then i ← scan_digits (i + 1); Ok (false, i) else Ok (true, i).

Definition scan_exp (i : nat) : JsonResult (bool * nat) :=
  if byte_at bytes i is_e then
    let i := (i + 1)%nat in
    i ← scan_digits (if byte_at bytes i is_sign then i + 1 else i);
    Ok (false, i)
  else Ok (true, i).

Definition punctuation (b : byte) : bool := is_byte x2c b || is_byte x3a b || is_byte x5d b || is_byte x7d b.

Definition scan (at_ max_bytes : nat) : JsonResult (Number * nat) :=
  i ← scan_int (if byte_at bytes at_ (is_byte MINUS) then at_ + 1 else at_);
  '(no_frac, i) ← scan_frac i;
  '(no_exp, i) ← scan_exp i;
  if byte_at bytes i (fun b => negb (punctuation b) && negb (is_whitespace b)) then Err (bad i)
  else
    let used := (i - at_)%nat in
    if (max_bytes <? used)%nat then Err (json_limit NumberDigits line at_)
    else Ok (MkNumber (slice bytes at_ (i - at_)) (no_frac && no_exp), used).

End Scan.

(** ** What a literal means *)

Record Mantissa := MkMantissa { mt_int : list byte; mt_frac : list byte }.
Definition mantissa_digits (m : Mantissa) : list byte := m.(mt_int) ++ m.(mt_frac).

Definition EXPONENT_CAP : Z := 1000000.

Definition i64_max : Z := 2 ^ 63 - 1.
Definition i64_min : Z := - 2 ^ 63.
Definition i64_saturate (z : Z) : Z := Z.max i64_min (Z.min i64_max z).

(** The digits at the front of [l], accumulated with a clamp. *)
Fixpoint read_exponent (l : list byte) (exponent : Z) : Z :=
  match l with
  | b :: l =>
      if is_digit b then
        read_exponent l (Z.min (i64_saturate (i64_saturate (exponent * 10) + (u8v b - 48))) EXPONENT_CAP)
      else exponent
  | [] => exponent
  end.

(** The exponent at [at_], when there is one. *)
Definition exponent_at (raw : list byte) (at_ : nat) : Z :=
  if byte_at raw at_ is_e then
    let at_ := (at_ + 1)%nat in
    let exponent_negative := byte_at raw at_ (is_byte MINUS) in
    let at_ := (if byte_at raw at_ is_sign then at_ + 1 else at_)%nat in
    let exponent := read_exponent (drop at_ raw) 0 in
    if exponent_negative then - exponent else exponent
  else 0.

Definition decompose (raw : list byte) : bool * Mantissa * Z :=
  let negative := byte_at raw 0 (is_byte MINUS) in
  let int_from := (if negative then 1 else 0)%nat in
  let at_ := digits_from raw int_from in
  let int := slice raw int_from (at_ - int_from) in
  let '(frac, at_) :=
    if byte_at raw at_ (is_byte POINT) then
      let frac_from := (at_ + 1)%nat in
      let at_ := digits_from raw frac_from in (slice raw frac_from (at_ - frac_from), at_)
    else ([], at_) in
  (negative, MkMantissa int frac, exponent_at raw at_).

Definition negative (n : Number) : bool := byte_at n.(nb_raw) 0 (is_byte MINUS).

(** [count] digits from the front; trailing zeros pay for a negative scale. *)
Fixpoint pay_zeros (count : nat) (digits : list byte) (scale : Z) : nat * Z :=
  match count with
  | O => (O, scale)
  | S c => if (scale <? 0) && byte_at digits c (is_byte x30) then pay_zeros c digits (scale + 1) else (S c, scale)
  end.

Definition checked_u64 (z : Z) : option Z := if (0 <=? z) && (z <=? u64_max) then Some z else None.

Fixpoint accumulate (digits : list byte) (value : Z) : option Z :=
  match digits with
  | [] => Some value
  | b :: digits => v ← checked_u64 (value * 10); v ← checked_u64 (v + (u8v b - 48)); accumulate digits v
  end.

Fixpoint scale_up (n : nat) (value : Z) : option Z :=
  match n with O => Some value | S n => v ← checked_u64 (value * 10); scale_up n v end.

Definition checked_i64 (z : Z) : option Z := if (i64_min <=? z) && (z <=? i64_max) then Some z else None.

Definition magnitude (n : Number) : option Z :=
  let '(_, mantissa, exponent) := decompose n.(nb_raw) in
  let digits := mantissa_digits mantissa in
  if forallb (is_byte x30) digits then Some 0
  else
    scale ← checked_i64 (exponent - Z.of_nat (length mantissa.(mt_frac)));
    let '(count, scale) := pay_zeros (length digits) digits scale in
    if scale <? 0 then None
    else
      value ← accumulate (take count digits) 0;
      scale_up (Z.to_nat scale) value.

Definition nb_as_u64 (n : Number) : option Z :=
  m ← magnitude n;
  if negative n && negb (m =? 0) then None else Some m.

Definition nb_as_i64 (n : Number) : option Z :=
  m ← magnitude n;
  if negb (negative n) then checked_i64 m
  else if m =? 2 ^ 63 then Some i64_min
  else v ← checked_i64 m; checked_i64 (- v).

(** ** The grammar of a number (RFC 8259, section 6) *)

Definition digits (ds : list byte) : Prop := Forall (fun b => is_digit b = true) ds.
Definition digits_value (ds : list byte) : Z := fold_left (fun v b => 10 * v + (u8v b - 48)) ds 0.

Inductive int_part : list byte -> Prop :=
  | int_zero : int_part [x30]
  | int_digits d ds : is_digit d = true -> d <> x30 -> digits ds -> int_part (d :: ds).

(** A fraction and its digits; an exponent and its value. *)
Inductive frac_part : list byte -> list byte -> Prop :=
  | frac_none : frac_part [] []
  | frac_some ds : digits ds -> ds <> [] -> frac_part (POINT :: ds) ds.

Inductive exp_part : list byte -> Z -> Prop :=
  | exp_none : exp_part [] 0
  | exp_plain e ds : is_e e = true -> digits ds -> ds <> [] -> exp_part (e :: ds) (digits_value ds)
  | exp_plus e ds : is_e e = true -> digits ds -> ds <> [] -> exp_part (e :: PLUS :: ds) (digits_value ds)
  | exp_minus e ds : is_e e = true -> digits ds -> ds <> [] -> exp_part (e :: MINUS :: ds) (- digits_value ds).

(** [json_number raw integral m k]: the literal [raw] means [m * 10^k]. *)
Inductive json_number : list byte -> bool -> Z -> Z -> Prop :=
  | jn_literal (neg : bool) int frac f ex e :
      int_part int -> frac_part frac f -> exp_part ex e ->
      json_number ((if neg then [MINUS] else []) ++ int ++ frac ++ ex) (bool_decide (frac = []) && bool_decide (ex = []))
        ((if neg then -1 else 1) * digits_value (int ++ f)) (e - Z.of_nat (length f)).

(** [m * 10^k] is the integer [v]. *)
Definition is_value (m k v : Z) : Prop := m * 10 ^ (Z.max k 0) = v * 10 ^ (Z.max (- k) 0).

(** What may come after a number. *)
Definition ends_number (post : list byte) : Prop :=
  match post with [] => True | b :: _ => punctuation b = true \/ is_whitespace b = true end.

(** ** Reading from where the scanner stands *)

Definition hd_is (p : byte -> bool) (x : list byte) : bool := match x with b :: _ => p b | [] => false end.

Lemma byte_at_here pre x p : byte_at (pre ++ x) (length pre) p = hd_is p x.
Proof. unfold byte_at. replace (length pre) with (length pre + 0)%nat by lia. rewrite get_from. by destruct x. Qed.

Lemma byte_at_next pre b x p : byte_at (pre ++ b :: x) (length pre + 1) p = hd_is p x.
Proof. unfold byte_at. rewrite get_from. by destruct x. Qed.

Lemma run_split p x : exists ds y, x = ds ++ y /\ Forall (fun b => p b = true) ds /\ hd_is p y = false /\ byte_run p x = length ds.
Proof.
  induction x as [|b x IH]; [by exists [], []|]. cbn. destruct (p b) eqn:E.
  - destruct IH as (ds & y & -> & Hd & Hy & ->). exists (b :: ds), y. split_and!; [done|by constructor|done|done].
  - exists [], (b :: x). by split_and!.
Qed.

Lemma run_exact p ds y : Forall (fun b => p b = true) ds -> hd_is p y = false -> byte_run p (ds ++ y) = length ds.
Proof. induction 1 as [|b ds Hb _ IH]; cbn; [destruct y as [|c y]; cbn; [done|by intros ->]|]. intros. rewrite Hb. by rewrite IH. Qed.

Lemma digits_from_here pre ds y :
  digits ds -> hd_is is_digit y = false -> digits_from (pre ++ ds ++ y) (length pre) = length (pre ++ ds).
Proof. intros Hd Hy. unfold digits_from. rewrite drop_app_length, run_exact by done. by rewrite length_app. Qed.

Lemma digits_split x : exists ds y, x = ds ++ y /\ digits ds /\ hd_is is_digit y = false.
Proof. destruct (run_split is_digit x) as (ds & y & -> & Hd & Hy & _). by exists ds, y. Qed.

Lemma hd_app p a b : a <> [] -> hd_is p (a ++ b) = hd_is p a.
Proof. by destruct a. Qed.

Lemma is_byte_iff c b : is_byte c b = true <-> b = c.
Proof. apply bool_decide_eq_true. Qed.

Lemma hd_byte c x : hd_is (is_byte c) x = true -> exists y, x = c :: y.
Proof. destruct x as [|b y]; [done|]. cbn. rewrite is_byte_iff. intros ->. by exists y. Qed.

(** Digits, then no digit. *)
Lemma scan_digits_iff pre x line i :
  scan_digits (pre ++ x) line (length pre) = Ok i <->
  exists ds y, x = ds ++ y /\ digits ds /\ ds <> [] /\ hd_is is_digit y = false /\ i = length (pre ++ ds).
Proof.
  unfold scan_digits. split.
  - destruct (digits_split x) as (ds & y & -> & Hd & Hy). rewrite digits_from_here by done.
    destruct (_ =? _)%nat eqn:E; breflect; [done|]. intros [= <-]. exists ds, y. split_and!; try done.
    intros ->. by rewrite app_nil_r in E.
  - intros (ds & y & -> & Hd & Hne & Hy & ->). rewrite digits_from_here by done.
    destruct (_ =? _)%nat eqn:E; breflect; [|done]. rewrite length_app in E. destruct ds; [done|cbn in E; lia].
Qed.

Lemma step_in (pre : list byte) b x : (pre ++ b :: x) = (pre ++ [b]) ++ x.
Proof. by rewrite <- app_assoc. Qed.
Lemma step_at (pre : list byte) (b : byte) : (length pre + 1)%nat = length (pre ++ [b]).
Proof. by rewrite length_app. Qed.

Lemma scan_int_iff pre x line i :
  scan_int (pre ++ x) line (length pre) = Ok i <->
  exists int y, x = int ++ y /\ int_part int /\ hd_is is_digit y = false /\ i = length (pre ++ int).
Proof.
  unfold scan_int. rewrite !byte_at_here. split.
  - destruct (hd_is (is_byte x30) x) eqn:E0.
    + destruct (hd_byte _ _ E0) as [y ->]. rewrite byte_at_next. destruct (hd_is is_digit y) eqn:Ed; [done|]. intros [= <-].
      exists [x30], y. split_and!; [done|constructor|done|by rewrite length_app].
    + destruct (hd_is is_digit x) eqn:Ed; [|done]. destruct (digits_split x) as (ds & y & -> & Hd & Hy).
      rewrite digits_from_here by done. intros [= <-]. exists ds, y. destruct ds as [|d ds]; [cbn in Ed; congruence|].
      apply Forall_cons in Hd as [Hd1 Hd]. split_and!; try done. constructor; [done| |done].
      intros ->. cbn in E0. by rewrite (proj2 (is_byte_iff x30 x30)) in E0.
  - intros (int & y & -> & Hi & Hy & ->). destruct Hi as [|d ds Hd Hne Hds].
    + cbn [app hd_is]. rewrite (proj2 (is_byte_iff x30 x30)) by done. rewrite byte_at_next, Hy. by rewrite length_app.
    + cbn [app hd_is]. destruct (is_byte x30 d) eqn:E; [by apply is_byte_iff in E|]. rewrite Hd.
      change (d :: ds ++ y) with ((d :: ds) ++ y). rewrite digits_from_here; [done|by constructor|done].
Qed.

Lemma scan_frac_iff pre x line b i :
  scan_frac (pre ++ x) line (length pre) = Ok (b, i) <->
  exists frac f y, x = frac ++ y /\ frac_part frac f /\ (frac = [] -> hd_is (is_byte POINT) y = false) /\
    (frac <> [] -> hd_is is_digit y = false) /\ b = bool_decide (frac = []) /\ i = length (pre ++ frac).
Proof.
  unfold scan_frac. rewrite byte_at_here. split.
  - destruct (hd_is (is_byte POINT) x) eqn:E0.
    + destruct (hd_byte _ _ E0) as [z ->]. rewrite step_in, (step_at pre POINT).
      destruct (scan_digits _ _ _) as [j|] eqn:Es; [|done]. cbn. intros [= <- <-].
      apply scan_digits_iff in Es as (ds & y & -> & Hd & Hne & Hy & ->).
      exists (POINT :: ds), ds, y. split_and!; try done; [by constructor|by rewrite <- app_assoc].
    + intros [= <- <-]. exists [], [], x. split_and!; try done; [constructor|by rewrite app_nil_r].
  - intros (frac & f & y & -> & Hf & Hn & Hd & -> & ->). destruct Hf as [|ds Hds Hne]; cbn [app].
    + rewrite Hn by done. by rewrite app_nil_r.
    + cbn [hd_is]. rewrite (proj2 (is_byte_iff POINT POINT)) by done. rewrite step_in, (step_at pre POINT).
      rewrite (proj2 (scan_digits_iff (pre ++ [POINT]) (ds ++ y) line (length ((pre ++ [POINT]) ++ ds)))).
      { cbn. by rewrite <- app_assoc. }
      exists ds, y. split_and!; try done. by apply Hd.
Qed.

Lemma hd_e x : hd_is is_e x = true -> exists e y, x = e :: y /\ is_e e = true.
Proof. destruct x as [|e y]; [done|]. by exists e, y. Qed.

Lemma digit_not_sign d : is_digit d = true -> is_sign d = false.
Proof. by destruct d. Qed.

Lemma scan_exp_iff pre x line b i :
  scan_exp (pre ++ x) line (length pre) = Ok (b, i) <->
  exists ex e y, x = ex ++ y /\ exp_part ex e /\ (ex = [] -> hd_is is_e y = false) /\
    (ex <> [] -> hd_is is_digit y = false) /\ b = bool_decide (ex = []) /\ i = length (pre ++ ex).
Proof.
  unfold scan_exp. rewrite byte_at_here. split.
  - destruct (hd_is is_e x) eqn:E0.
    + destruct (hd_e _ E0) as (c & z & -> & Hc). rewrite step_in, (step_at pre c), byte_at_here.
      destruct (hd_is is_sign z) eqn:Es.
      * destruct z as [|s z]; [done|]. rewrite step_in, (step_at (pre ++ [c]) s). cbn in Es.
        destruct (scan_digits _ _ _) as [j|] eqn:Ed; [|done]. cbn. intros [= <- <-].
        apply scan_digits_iff in Ed as (ds & y & -> & Hd & Hne & Hy & ->).
        unfold is_sign in Es. apply orb_true_iff in Es as [Es|Es]; apply is_byte_iff in Es as ->.
        -- exists (c :: PLUS :: ds), (digits_value ds), y. split_and!; try done; [by constructor|by rewrite <- !app_assoc].
        -- exists (c :: MINUS :: ds), (- digits_value ds), y. split_and!; try done; [by constructor|by rewrite <- !app_assoc].
      * destruct (scan_digits _ _ _) as [j|] eqn:Ed; [|done]. cbn. intros [= <- <-].
        apply scan_digits_iff in Ed as (ds & y & -> & Hd & Hne & Hy & ->).
        exists (c :: ds), (digits_value ds), y. split_and!; try done; [by constructor|by rewrite <- app_assoc].
    + intros [= <- <-]. exists [], 0, x. split_and!; try done; [constructor|by rewrite app_nil_r].
  - intros (ex & e & y & -> & He & Hn & Hd & -> & ->). destruct He as [|c ds Hc Hds Hne|c ds Hc Hds Hne|c ds Hc Hds Hne]; cbn [app hd_is].
    + rewrite Hn by done. by rewrite app_nil_r.
    + rewrite Hc, step_in, (step_at pre c), byte_at_here. rewrite hd_app by done.
      destruct ds as [|d ds]; [done|]. apply Forall_cons in Hds as [Hd1 Hds]. cbn [hd_is]. rewrite (digit_not_sign d Hd1).
      rewrite (proj2 (scan_digits_iff (pre ++ [c]) ((d :: ds) ++ y) line (length ((pre ++ [c]) ++ d :: ds)))).
      { cbn. by rewrite <- app_assoc. }
      exists (d :: ds), y. split_and!; try done; [by constructor|by apply Hd].
    + rewrite Hc, step_in, (step_at pre c), byte_at_here. cbn [hd_is]. change (is_sign PLUS) with true. cbv iota.
      rewrite step_in, (step_at (pre ++ [c]) PLUS).
      rewrite (proj2 (scan_digits_iff ((pre ++ [c]) ++ [PLUS]) (ds ++ y) line (length (((pre ++ [c]) ++ [PLUS]) ++ ds)))).
      { cbn. by rewrite <- !app_assoc. }
      exists ds, y. split_and!; try done. by apply Hd.
    + rewrite Hc, step_in, (step_at pre c), byte_at_here. cbn [hd_is]. change (is_sign MINUS) with true. cbv iota.
      rewrite step_in, (step_at (pre ++ [c]) MINUS).
      rewrite (proj2 (scan_digits_iff ((pre ++ [c]) ++ [MINUS]) (ds ++ y) line (length (((pre ++ [c]) ++ [MINUS]) ++ ds)))).
      { cbn. by rewrite <- !app_assoc. }
      exists ds, y. split_and!; try done. by apply Hd.
Qed.

Lemma ender b : punctuation b = true \/ is_whitespace b = true -> is_digit b = false /\ is_byte POINT b = false /\ is_e b = false.
Proof. destruct b; intros [H|H]; done. Qed.

Lemma ends_hd post : ends_number post -> hd_is is_digit post = false /\ hd_is (is_byte POINT) post = false /\ hd_is is_e post = false.
Proof. destruct post as [|b post]; [done|]. apply ender. Qed.

Lemma e_facts c : is_e c = true -> is_digit c = false /\ is_byte POINT c = false.
Proof. by destruct c. Qed.

Lemma exp_hd ex e post : exp_part ex e -> ends_number post -> hd_is is_digit (ex ++ post) = false /\ hd_is (is_byte POINT) (ex ++ post) = false.
Proof.
  intros He Hp. destruct (ends_hd post Hp) as (H1 & H2 & _). destruct He as [|c ds Hc _ _|c ds Hc _ _|c ds Hc _ _]; [done|..]; by apply e_facts.
Qed.

Lemma int_hd int y : int_part int -> hd_is (is_byte MINUS) (int ++ y) = false.
Proof. destruct 1 as [|d ds Hd _ _]; [done|]. cbn. by destruct d. Qed.

Lemma ends_byte pre post : ends_number post <-> byte_at (pre ++ post) (length pre) (fun b => negb (punctuation b) && negb (is_whitespace b)) = false.
Proof.
  rewrite byte_at_here. destruct post as [|b post]; cbn; [done|]. destruct (punctuation b), (is_whitespace b); cbn; intuition done.
Qed.

(** [scan] reads a literal of the grammar that something may follow, whole. *)
Lemma scan_iff pre x line max n used :
  scan (pre ++ x) line (length pre) max = Ok (n, used) <->
  exists raw post m k, x = raw ++ post /\ json_number raw n.(nb_integral) m k /\ n.(nb_raw) = raw /\ ends_number post /\
    used = length raw /\ (length raw <= max)%nat.
Proof.
  unfold scan. split.
  - rewrite byte_at_here. assert (Hsg : exists (neg : bool) x', x = (if neg then [MINUS] else []) ++ x' /\
      (if hd_is (is_byte MINUS) x then length pre + 1 else length pre)%nat = length (pre ++ if neg then [MINUS] else [])).
    { destruct (hd_is (is_byte MINUS) x) eqn:E.
      - destruct (hd_byte _ _ E) as [y ->]. exists true, y. split; [done|]. by rewrite length_app.
      - exists false, x. by rewrite app_nil_r. }
    destruct Hsg as (neg & x' & -> & ->). set (sg := if neg then [MINUS] else []). rewrite app_assoc.
    destruct (scan_int _ _ _) as [i|] eqn:Ei; [|done]. apply scan_int_iff in Ei as (int & y & -> & Hint & _ & ->).
    cbn [mbind result_bind]. rewrite app_assoc.
    destruct (scan_frac _ _ _) as [[b1 i]|] eqn:Ef; [|done]. apply scan_frac_iff in Ef as (frac & f & z & -> & Hfrac & _ & _ & -> & ->).
    cbn [mbind result_bind]. rewrite app_assoc.
    destruct (scan_exp _ _ _) as [[b2 i]|] eqn:Ee; [|done]. apply scan_exp_iff in Ee as (ex & e & post & -> & Hex & _ & _ & -> & ->).
    cbn [mbind result_bind]. rewrite app_assoc.
    destruct (byte_at _ _ _) eqn:Eb; [done|]. apply ends_byte in Eb. destruct (_ <? _)%nat eqn:Em; [done|]. breflect.
    intros [= <- <-]. cbn [nb_integral nb_raw]. exists (sg ++ int ++ frac ++ ex), post. do 2 eexists.
    assert (Hl : length ((((pre ++ sg) ++ int) ++ frac) ++ ex) = (length pre + length (sg ++ int ++ frac ++ ex))%nat).
    { rewrite !length_app. lia. }
    rewrite Hl in Em |- *. replace (length pre + length (sg ++ int ++ frac ++ ex) - length pre)%nat with (length (sg ++ int ++ frac ++ ex)) in * by lia.
    split_and!; [by rewrite <- !app_assoc|by constructor| |done|done|done].
    rewrite <- !app_assoc. rewrite !(app_assoc _ _ post), <- !app_assoc.
    replace (pre ++ sg ++ int ++ frac ++ ex ++ post) with (pre ++ (sg ++ int ++ frac ++ ex) ++ post) by (by rewrite <- !app_assoc).
    by apply slice_app_mid.
  - intros (raw & post & m & k & -> & Hn & Hraw & Hp & -> & Hmax). destruct n as [r b]. cbn in Hn, Hraw. subst r.
    destruct Hn as [neg int frac f ex e Hi Hf He]. set (sg := if neg then [MINUS] else []) in *.
    rewrite byte_at_here, <- !app_assoc.
    replace (if hd_is (is_byte MINUS) (sg ++ int ++ frac ++ ex ++ post) then (length pre + 1)%nat else length pre) with (length (pre ++ sg)).
    2:{ subst sg. destruct neg; cbn [app]; [by rewrite length_app|]. rewrite int_hd by done. by rewrite app_nil_r. }
    destruct (exp_hd ex e post He Hp) as [Hd Hpt]. destruct (ends_hd post Hp) as (Hd' & _ & He').
    assert (Hfd : hd_is is_digit (frac ++ ex ++ post) = false) by (destruct Hf; [done|by cbn]).
    rewrite (app_assoc pre sg).
    rewrite (proj2 (scan_int_iff (pre ++ sg) (int ++ frac ++ ex ++ post) line (length ((pre ++ sg) ++ int)))); [|by exists int, (frac ++ ex ++ post)].
    cbn [mbind result_bind]. rewrite (app_assoc (pre ++ sg)).
    rewrite (proj2 (scan_frac_iff ((pre ++ sg) ++ int) (frac ++ ex ++ post) line (bool_decide (frac = [])) (length (((pre ++ sg) ++ int) ++ frac)))); [|by exists frac, f, (ex ++ post)].
    cbn [mbind result_bind]. rewrite (app_assoc ((pre ++ sg) ++ int)).
    rewrite (proj2 (scan_exp_iff (((pre ++ sg) ++ int) ++ frac) (ex ++ post) line (bool_decide (ex = [])) (length ((((pre ++ sg) ++ int) ++ frac) ++ ex)))); [|by exists ex, e, post].
    cbn [mbind result_bind]. rewrite (app_assoc (((pre ++ sg) ++ int) ++ frac)).
    rewrite (proj1 (ends_byte _ post) Hp).
    assert (Hl : (length ((((pre ++ sg) ++ int) ++ frac) ++ ex) - length pre)%nat = length (sg ++ int ++ frac ++ ex)) by (rewrite !length_app; lia).
    rewrite Hl, (proj2 (Nat.ltb_ge _ _)) by done. do 2 f_equal. f_equal.
    replace (((((pre ++ sg) ++ int) ++ frac) ++ ex) ++ post) with (pre ++ (sg ++ int ++ frac ++ ex) ++ post) by (by rewrite <- !app_assoc).
    by apply slice_app_mid.
Qed.

(** ** What a literal is taken apart into *)

Definition clamp (e : Z) : Z := Z.max (- EXPONENT_CAP) (Z.min e EXPONENT_CAP).

Lemma digit_range b : is_digit b = true -> 0 <= u8v b - 48 <= 9.
Proof. unfold is_digit, in_range. intros. breflect. lia. Qed.

Lemma digits_value_acc ds v : fold_left (fun v b => 10 * v + (u8v b - 48)) ds v = v * 10 ^ Z.of_nat (length ds) + digits_value ds.
Proof.
  unfold digits_value. revert v. induction ds as [|b ds IH]; intros v; cbn [fold_left length]; [cbn; lia|].
  rewrite IH, (IH (10 * 0 + _)), Nat2Z.inj_succ, Z.pow_succ_r by lia. lia.
Qed.

Lemma digits_value_app a b : digits_value (a ++ b) = digits_value a * 10 ^ Z.of_nat (length b) + digits_value b.
Proof. unfold digits_value at 1. rewrite fold_left_app, digits_value_acc. done. Qed.

Lemma digits_value_range ds : digits ds -> 0 <= digits_value ds < 10 ^ Z.of_nat (length ds).
Proof.
  induction ds as [|b ds IH] using rev_ind; intros H; [cbn; lia|]. apply Forall_app in H as [H Hb].
  apply Forall_singleton, digit_range in Hb. rewrite digits_value_app, length_app. specialize (IH H).
  rewrite Nat2Z.inj_add, Z.pow_add_r by lia. unfold digits_value at 2 4. cbn. change (10 ^ 1) with 10. lia.
Qed.

(** The clamp commutes with reading a digit. *)
Lemma read_exponent_clamps ds v :
  digits ds -> 0 <= v ->
  read_exponent ds (Z.min v EXPONENT_CAP) = Z.min (fold_left (fun v b => 10 * v + (u8v b - 48)) ds v) EXPONENT_CAP.
Proof.
  intros Hd. revert v. induction Hd as [|b ds Hb _ IH]; intros v Hv; cbn [read_exponent fold_left]; [done|]. rewrite Hb.
  pose proof (digit_range b Hb). rewrite <- IH by lia. f_equal.
  unfold i64_saturate, i64_min, i64_max, EXPONENT_CAP. lia.
Qed.

Lemma int_digits_all int : int_part int -> digits int.
Proof. destruct 1; by constructor. Qed.

Lemma exp_value_hd ex e : exp_part ex e -> hd_is is_digit ex = false /\ hd_is (is_byte POINT) ex = false.
Proof. destruct 1 as [|c ds Hc _ _|c ds Hc _ _|c ds Hc _ _]; [done|..]; by apply e_facts. Qed.

Lemma decompose_exponent pre ex e : exp_part ex e -> exponent_at (pre ++ ex) (length pre) = clamp e.
Proof.
  intros He. unfold exponent_at. rewrite byte_at_here. cbv zeta.
  assert (Hr : forall ds, digits ds -> read_exponent ds 0 = Z.min (digits_value ds) EXPONENT_CAP).
  { intros ds Hd. by apply (read_exponent_clamps ds 0). }
  destruct He as [|c ds Hc Hd Hne|c ds Hc Hd Hne|c ds Hc Hd Hne]; cbn [hd_is]; [done|..]; rewrite Hc, step_in, (step_at pre c), byte_at_here, byte_at_here;
    pose proof (digits_value_range ds Hd).
  - destruct ds as [|d ds]; [done|]. cbn [hd_is]. inversion Hd; subst. rewrite (digit_not_sign d) by done.
    assert (is_byte MINUS d = false) as -> by (by destruct d). rewrite drop_app_length, Hr by done. unfold clamp, EXPONENT_CAP. lia.
  - cbn [hd_is]. change (is_byte MINUS PLUS) with false. change (is_sign PLUS) with true. cbv iota.
    rewrite (step_in (pre ++ [c]) PLUS ds), (step_at (pre ++ [c]) PLUS), drop_app_length, Hr by done. unfold clamp, EXPONENT_CAP. lia.
  - cbn [hd_is]. change (is_byte MINUS MINUS) with true. change (is_sign MINUS) with true. cbv iota.
    rewrite (step_in (pre ++ [c]) MINUS ds), (step_at (pre ++ [c]) MINUS), drop_app_length, Hr by done. unfold clamp, EXPONENT_CAP. lia.
Qed.

Lemma decompose_parts (neg : bool) int frac f ex e :
  int_part int -> frac_part frac f -> exp_part ex e ->
  decompose ((if neg then [MINUS] else []) ++ int ++ frac ++ ex) = (neg, MkMantissa int f, clamp e).
Proof.
  intros Hi Hf He. unfold decompose. set (sg := if neg then [MINUS] else []).
  assert (Hn : byte_at (sg ++ int ++ frac ++ ex) 0 (is_byte MINUS) = neg).
  { change 0%nat with (length ([] : list byte)). change (sg ++ int ++ frac ++ ex) with ([] ++ (sg ++ int ++ frac ++ ex)).
    rewrite byte_at_here. subst sg. destruct neg; [done|]. by apply (int_hd int). }
  rewrite Hn. replace (if neg then 1%nat else 0%nat) with (length sg) by (by destruct neg).
  destruct (exp_value_hd ex e He) as [Hd Hp].
  rewrite digits_from_here; [|by apply int_digits_all|by destruct Hf].
  replace (length (sg ++ int) - length sg)%nat with (length int) by (rewrite length_app; lia).
  rewrite (slice_app_mid sg int (frac ++ ex) (length sg) (length int)) by done. rewrite (app_assoc sg int), byte_at_here.
  destruct Hf as [|ds Hds Hne].
  - cbn [app]. rewrite Hp. by rewrite (decompose_exponent (sg ++ int) ex e He).
  - cbn [app hd_is]. rewrite (proj2 (is_byte_iff POINT POINT)) by done. rewrite (step_in (sg ++ int) POINT), (step_at (sg ++ int) POINT).
    rewrite digits_from_here by done.
    replace (length (((sg ++ int) ++ [POINT]) ++ ds) - length ((sg ++ int) ++ [POINT]))%nat with (length ds) by (rewrite !length_app; lia).
    rewrite slice_app_mid by done. rewrite (app_assoc _ ds ex). by rewrite (decompose_exponent _ ex e He).
Qed.

(** ** Exact readings *)

Lemma is_value_pos m k v : 0 <= k -> is_value m k v <-> m * 10 ^ k = v.
Proof. intros. unfold is_value. rewrite Z.max_l, Z.max_r by lia. change (10 ^ 0) with 1. by rewrite Z.mul_1_r. Qed.
Lemma is_value_neg m k v : k <= 0 -> is_value m k v <-> m = v * 10 ^ (- k).
Proof. intros. unfold is_value. rewrite Z.max_r, Z.max_l by lia. change (10 ^ 0) with 1. by rewrite Z.mul_1_r. Qed.

Lemma is_value_zero k v : is_value 0 k v <-> v = 0.
Proof. unfold is_value. pose proof (Z.pow_pos_nonneg 10 (Z.max (- k) 0)). rewrite Z.mul_0_l. nia. Qed.

(** Moving a power of ten across. *)
Lemma is_value_shift m j k v : 0 <= j -> is_value (m * 10 ^ j) k v <-> is_value m (k + j) v.
Proof.
  intros Hj. pose proof (Z.pow_pos_nonneg 10 j ltac:(lia) Hj). destruct (Z.le_gt_cases 0 k).
  - rewrite !is_value_pos by lia. rewrite (Z.add_comm k), Z.pow_add_r, Z.mul_assoc by lia. done.
  - rewrite is_value_neg by lia. destruct (Z.le_gt_cases 0 (k + j)).
    + rewrite is_value_pos by lia. replace j with ((k + j) + - k) at 1 by lia. rewrite Z.pow_add_r, Z.mul_assoc by lia.
      pose proof (Z.pow_pos_nonneg 10 (- k)). split; [intros; apply (Z.mul_cancel_r _ _ (10 ^ (- k))); lia|congruence].
    + rewrite is_value_neg by lia. replace (- k)%Z with (- (k + j) + j)%Z by lia. rewrite Z.pow_add_r, Z.mul_assoc by lia.
      split; [intros; apply (Z.mul_cancel_r _ _ (10 ^ j)); lia|congruence].
Qed.

Lemma digits_value_one b : digits_value [b] = u8v b - 48.
Proof. unfold digits_value. cbn [fold_left]. lia. Qed.

Lemma zeros_iff ds : digits ds -> forallb (is_byte x30) ds = true <-> digits_value ds = 0.
Proof.
  induction ds as [|b ds IH] using rev_ind; intros Hd; [done|]. apply Forall_app in Hd as [Hd Hb].
  apply Forall_singleton, digit_range in Hb. rewrite forallb_app, andb_true_iff, IH, digits_value_app, digits_value_one by done. cbn.
  rewrite andb_true_r, is_byte_iff. pose proof (digits_value_range ds Hd). change (10 ^ 1) with 10.
  split; [intros [-> ->]; done|]. intros. assert (u8v b = 48) by lia. split; [lia|]. apply u8v_inj. done.
Qed.

Lemma digits_take n ds : digits ds -> digits (take n ds).
Proof. apply Forall_take. Qed.

Lemma take_last_value c ds b : ds !! c = Some b -> digits_value (take (S c) ds) = digits_value (take c ds) * 10 + (u8v b - 48).
Proof. intros H. rewrite (take_S_r _ _ _ H), digits_value_app, digits_value_one. done. Qed.

Lemma pay_zeros_spec c ds s :
  digits ds -> (c <= length ds)%nat ->
  let '(c', s') := pay_zeros c ds s in
  exists j, c = (c' + j)%nat /\ s' = s + Z.of_nat j /\
    digits_value (take c ds) = digits_value (take c' ds) * 10 ^ Z.of_nat j /\
    (0 <= s' \/ digits_value (take c' ds) = 0 \/ digits_value (take c' ds) mod 10 <> 0).
Proof.
  intros Hd. revert s. induction c as [|c IH]; intros s Hc; cbn [pay_zeros].
  { exists 0%nat. split_and!; [done|lia|by rewrite Z.mul_1_r|by right; left]. }
  destruct (lookup_lt_is_Some_2 ds c Hc) as [b Hb]. pose proof (take_last_value c ds b Hb) as Hv.
  unfold byte_at. rewrite Hb. destruct ((s <? 0) && is_byte x30 b) eqn:E.
  - breflect. apply is_byte_iff in H0 as ->. specialize (IH (s + 1) ltac:(lia)). destruct (pay_zeros c ds (s + 1)) as [c' s'].
    destruct IH as (j & -> & -> & Hj & Hend). exists (S j). split_and!; [lia|lia| |done].
    rewrite Hv, Hj, Nat2Z.inj_succ, Z.pow_succ_r by lia. change (u8v x30) with 48. lia.
  - exists 0%nat. split_and!; [lia|lia|cbn; lia|]. apply andb_false_iff in E as [E|E]; breflect; [by left|]. right. right.
    rewrite Hv. assert (Hbd : is_digit b = true) by (exact (Forall_lookup_1 _ _ _ _ Hd Hb)). apply digit_range in Hbd.
    rewrite Z.add_comm, Z.mod_add, Z.mod_small by lia. intros H0. assert (u8v b = u8v x30) as Hu by (change (u8v x30) with 48; lia).
    apply u8v_inj in Hu as ->. by rewrite (proj2 (is_byte_iff x30 x30)) in E.
Qed.

Lemma checked_u64_some z v : checked_u64 z = Some v <-> v = z /\ 0 <= z <= u64_max.
Proof. unfold checked_u64. destruct (Z.leb_spec 0 z), (Z.leb_spec z u64_max); cbn; split; intros; simplify_eq; try lia; naive_solver lia. Qed.

Lemma accumulate_iff ds v w :
  digits ds -> 0 <= v <= u64_max ->
  accumulate ds v = Some w <-> w = v * 10 ^ Z.of_nat (length ds) + digits_value ds /\ w <= u64_max.
Proof.
  intros Hd. revert v. induction Hd as [|b ds Hb Hd IH]; intros v Hv; cbn [accumulate].
  { cbn. change (digits_value []) with 0. split; [intros [= <-]; lia|]. intros [-> _]. f_equal. lia. }
  pose proof (digit_range b Hb). pose proof (digits_value_range ds Hd).
  pose proof (Z.pow_pos_nonneg 10 (Z.of_nat (length ds)) ltac:(lia) ltac:(lia)).
  assert (Hval : v * 10 ^ Z.of_nat (length (b :: ds)) + digits_value (b :: ds) =
    (v * 10 + (u8v b - 48)) * 10 ^ Z.of_nat (length ds) + digits_value ds).
  { change (b :: ds) with ([b] ++ ds). rewrite (digits_value_app [b] ds), digits_value_one. change (length ([b] ++ ds)) with (S (length ds)). rewrite Nat2Z.inj_succ, Z.pow_succ_r by lia. ring. }
  rewrite Hval. destruct (checked_u64 (v * 10)) as [v1|] eqn:E1; cbn.
  - apply checked_u64_some in E1 as [-> ?]. destruct (checked_u64 (v * 10 + (u8v b - 48))) as [v2|] eqn:E2; cbn.
    + apply checked_u64_some in E2 as [-> ?]. by apply IH.
    + split; [done|]. intros [-> Hw]. exfalso. assert (~ (0 <= v * 10 + (u8v b - 48) <= u64_max)).
      { intros Hc. by rewrite (proj2 (checked_u64_some _ _) (conj eq_refl Hc)) in E2. } nia.
  - split; [done|]. intros [-> Hw]. exfalso. assert (~ (0 <= v * 10 <= u64_max)).
    { intros Hc. by rewrite (proj2 (checked_u64_some _ _) (conj eq_refl Hc)) in E1. } nia.
Qed.

Lemma scale_up_iff n v w :
  0 < v <= u64_max -> scale_up n v = Some w <-> w = v * 10 ^ Z.of_nat n /\ w <= u64_max.
Proof.
  revert v. induction n as [|n IH]; intros v Hv; cbn [scale_up].
  { cbn. split; [intros [= <-]; lia|]. intros [-> _]. f_equal. lia. }
  pose proof (Z.pow_pos_nonneg 10 (Z.of_nat n) ltac:(lia) ltac:(lia)).
  rewrite Nat2Z.inj_succ, Z.pow_succ_r, Z.mul_assoc by lia. destruct (checked_u64 (v * 10)) as [v1|] eqn:E1; cbn.
  - apply checked_u64_some in E1 as [-> ?]. apply IH. lia.
  - split; [done|]. intros [-> Hw]. exfalso. assert (~ (0 <= v * 10 <= u64_max)).
    { intros Hc. by rewrite (proj2 (checked_u64_some _ _) (conj eq_refl Hc)) in E1. } nia.
Qed.

(** The clamp is beyond every literal a line can hold. *)
Lemma clamp_harmless m n k f v :
  0 <= m < 10 ^ n -> 0 <= n <= 900000 -> 0 <= f <= 900000 -> 0 <= v <= u64_max ->
  is_value m (clamp k - f) v <-> is_value m (k - f) v.
Proof.
  intros Hm Hn Hf Hv. destruct (decide (m = 0)) as [->|Hm0]; [by rewrite !is_value_zero|].
  assert (Hbig : forall j, EXPONENT_CAP - f <= j -> ~ is_value m j v).
  { intros j Hj. unfold EXPONENT_CAP in Hj. rewrite is_value_pos by lia. intros Hval.
    assert (10 ^ 20 <= 10 ^ j) by (apply Z.pow_le_mono_r; lia). unfold u64_max in Hv. assert (10 ^ j <= m * 10 ^ j) by nia. lia. }
  assert (Hsmall : forall j, j <= - EXPONENT_CAP - f -> ~ is_value m j v).
  { intros j Hj. unfold EXPONENT_CAP in Hj. rewrite is_value_neg by lia. intros Hval.
    assert (10 ^ n <= 10 ^ (- j)) by (apply Z.pow_le_mono_r; lia). destruct (decide (v = 0)); [subst; lia|].
    assert (10 ^ (- j) <= v * 10 ^ (- j)) by nia. lia. }
  unfold clamp. destruct (Z.le_gt_cases k EXPONENT_CAP); [destruct (Z.le_gt_cases (- EXPONENT_CAP) k)|].
  - rewrite Z.min_l, Z.max_r by lia. done.
  - rewrite Z.min_l, Z.max_l by lia. split; intros H1; exfalso; refine (Hsmall _ _ H1); lia.
  - rewrite Z.min_r, Z.max_r by (unfold EXPONENT_CAP in *; lia). split; intros H1; exfalso; refine (Hbig _ _ H1); lia.
Qed.

(** Trailing zeros, digits, scale: the exact integer, when there is one. *)
Lemma scaled_iff ds s w :
  digits ds -> digits_value ds <> 0 ->
  (let '(count, scale) := pay_zeros (length ds) ds s in
   if scale <? 0 then None else value ← accumulate (take count ds) 0; scale_up (Z.to_nat scale) value) = Some w <->
  0 <= w <= u64_max /\ is_value (digits_value ds) s w.
Proof.
  intros Hd Hnz. pose proof (pay_zeros_spec (length ds) ds s Hd ltac:(lia)) as Hp.
  destruct (pay_zeros _ _ _) as [c s']. destruct Hp as (j & Hc & Hs & Hj & Hend). rewrite take_ge in Hj by lia.
  pose proof (Z.pow_pos_nonneg 10 (Z.of_nat j) ltac:(lia) ltac:(lia)).
  pose proof (digits_value_range _ (digits_take c ds Hd)) as Hr. set (m := digits_value (take c ds)) in *.
  assert (Hm : 0 < m) by nia. rewrite Hj, is_value_shift, <- Hs by lia. destruct (Z.ltb_spec s' 0).
  - split; [done|]. intros [_ Hval]. exfalso. rewrite is_value_neg in Hval by lia.
    destruct Hend as [?|[?|Hend]]; [lia|lia|]. apply Hend. rewrite Hval. replace (- s') with (Z.succ (- s' - 1)) by lia.
    rewrite Z.pow_succ_r by lia. replace (w * (10 * 10 ^ (- s' - 1))) with (w * 10 ^ (- s' - 1) * 10) by ring. by rewrite Z.mod_mul by lia.
  - rewrite is_value_pos by lia. pose proof (Z.pow_pos_nonneg 10 s' ltac:(lia) ltac:(lia)).
    assert (Ha : forall v, accumulate (take c ds) 0 = Some v <-> v = m /\ v <= u64_max).
    { intros v. rewrite accumulate_iff by (done || by apply digits_take). by rewrite Z.mul_0_l, Z.add_0_l. }
    destruct (accumulate (take c ds) 0) as [v|]; cbn.
    + destruct (proj1 (Ha v) eq_refl) as [-> Hv].
      rewrite scale_up_iff by lia. rewrite Z2Nat.id by lia. split; [intros [-> ?]; split; [nia|done]|]. intros [? <-]. lia.
    + split; [done|]. intros [Hw Hval]. exfalso. assert (Hmw : m <= u64_max) by nia.
      by specialize (proj2 (Ha m) (conj eq_refl Hmw)).
Qed.

(** A literal of a line's length, with its sign aside. *)
Lemma magnitude_iff raw b m k w :
  json_number raw b m k -> Z.of_nat (length raw) <= 900000 ->
  magnitude (MkNumber raw b) = Some w <-> 0 <= w <= u64_max /\ is_value (Z.abs m) k w.
Proof.
  intros Hn Hl. destruct Hn as [neg int frac f ex e Hi Hf He]. unfold magnitude. cbn [nb_raw].
  rewrite (decompose_parts neg int frac f ex e) by done. cbn [mt_frac mt_int]. set (ds := int ++ f). change (mantissa_digits (MkMantissa int f)) with ds.
  assert (Hfd : digits f /\ (length f <= length frac)%nat) by (destruct Hf; split; try done; [constructor|cbn; lia]).
  destruct Hfd as [Hfd Hfl]. assert (Hd : digits ds) by (apply Forall_app; split; [by apply int_digits_all|done]).
  pose proof (digits_value_range ds Hd) as Hr. rewrite !length_app in Hl.
  replace (Z.abs _) with (digits_value ds) by (destruct neg; lia).
  assert (Hclamp : 0 <= w <= u64_max -> is_value (digits_value ds) (clamp e - Z.of_nat (length f)) w <-> is_value (digits_value ds) (e - Z.of_nat (length f)) w).
  { intros Hw. apply (clamp_harmless _ (Z.of_nat (length ds))); try lia. unfold ds. rewrite length_app. lia. }
  destruct (forallb (is_byte x30) ds) eqn:Ez.
  - apply zeros_iff in Ez; [|done]. rewrite Ez, is_value_zero. split; [intros [= <-]; unfold u64_max; lia|]. by intros [_ ->].
  - assert (Hnz : digits_value ds <> 0) by (rewrite <- zeros_iff by done; congruence).
    unfold checked_i64. replace (_ && _) with true.
    2:{ symmetry. apply andb_true_iff. split; apply Z.leb_le; unfold clamp, EXPONENT_CAP, i64_min, i64_max; lia. }
    cbn [mbind option_bind]. rewrite scaled_iff by done.
    split; intros [Hw Hv]; (split; [done|]); by apply Hclamp.
Qed.

Lemma negative_iff raw b m k : json_number raw b m k -> negative (MkNumber raw b) = true -> m <= 0.
Proof.
  intros Hn. destruct Hn as [neg int frac f ex e Hi Hf He]. unfold negative. cbn [nb_raw].
  destruct neg.
  - intros _. assert (0 <= digits_value (int ++ f)); [|lia]. apply digits_value_range, Forall_app. split; [by apply int_digits_all|].
    destruct Hf; [constructor|done].
  - change 0%nat with (length ([] : list byte)). cbn [app]. change (int ++ frac ++ ex) with ([] ++ (int ++ frac ++ ex)).
    rewrite byte_at_here, int_hd by done. done.
Qed.

Lemma positive_iff raw b m k : json_number raw b m k -> negative (MkNumber raw b) = false -> 0 <= m.
Proof.
  intros Hn. destruct Hn as [neg int frac f ex e Hi Hf He]. unfold negative. cbn [nb_raw]. intros Hneg.
  destruct neg; [done|]. assert (0 <= digits_value (int ++ f)); [|lia]. apply digits_value_range, Forall_app. split; [by apply int_digits_all|].
  destruct Hf; [constructor|done].
Qed.

Lemma is_value_opp m k v : is_value (- m) k (- v) <-> is_value m k v.
Proof. unfold is_value. rewrite !Z.mul_opp_l. split; lia. Qed.

Lemma is_value_sign m k v : 0 <= m -> is_value m k v -> 0 <= v.
Proof. unfold is_value. intros. pose proof (Z.pow_pos_nonneg 10 (Z.max k 0)). pose proof (Z.pow_pos_nonneg 10 (Z.max (- k) 0)). nia. Qed.

Lemma checked_i64_some z v : checked_i64 z = Some v <-> v = z /\ i64_ok z.
Proof. unfold checked_i64, i64_ok, i64_min, i64_max. destruct (Z.leb_spec (- 2 ^ 63) z), (Z.leb_spec z (2 ^ 63 - 1)); cbn; split; intros; simplify_eq; try lia; naive_solver lia. Qed.

(** An integer is read exactly or not at all. A literal of the grammar, of up
    to 900,000 bytes, that means [m * 10^k] is read as the [u64], or the [i64],
    [v] exactly when [m * 10^k] is the integer [v] and fits; never a value that
    was rounded, wrapped or saturated, whatever the exponent. *)
Theorem integers_are_exact raw integral m k v :
  json_number raw integral m k -> Z.of_nat (length raw) <= 900000 ->
  (nb_as_u64 (MkNumber raw integral) = Some v <-> u64_ok v /\ is_value m k v) /\
  (nb_as_i64 (MkNumber raw integral) = Some v <-> i64_ok v /\ is_value m k v).
Proof.
  intros Hn Hl. pose proof (fun w => magnitude_iff raw integral m k w Hn Hl) as Hm.
  unfold nb_as_u64, nb_as_i64. set (n := MkNumber raw integral) in *.
  destruct (negative n) eqn:En.
  - pose proof (negative_iff raw integral m k Hn En) as Hs. rewrite Z.abs_neq in Hm by done.
    assert (Hv : is_value m k v <-> is_value (- m) k (- v)) by (by rewrite is_value_opp).
    destruct (magnitude n) as [w|] eqn:Ew; cbn [mbind option_bind andb negb].
    + destruct (proj1 (Hm w) eq_refl) as [Hw Hval].
      assert (Huniq : is_value (- m) k (- v) <-> - v = w).
      { split; [|by intros <-]. intros H. unfold is_value in *. pose proof (Z.pow_pos_nonneg 10 (Z.max (- k) 0)). nia. }
      rewrite Hv, Huniq. unfold u64_ok, i64_ok, u64_max in *. split.
      * destruct (Z.eqb_spec w 0); cbn; split; intros; simplify_eq; try lia. f_equal. lia.
      * destruct (Z.eqb_spec w (2 ^ 63)) as [->|Hne]; [unfold i64_min; split; intros; simplify_eq; try lia; f_equal; lia|].
        destruct (checked_i64 w) as [c|] eqn:Ec; cbn.
        -- apply checked_i64_some in Ec as [-> Hc]. rewrite checked_i64_some. unfold i64_ok in *. lia.
        -- split; [done|]. intros [? ?]. exfalso. assert (None = Some w); [|done]. rewrite <- Ec. apply checked_i64_some. unfold i64_ok. lia.
    + rewrite Hv. assert (Hno : 0 <= - v <= u64_max -> ~ is_value (- m) k (- v)) by (intros Hw Hx; by specialize (proj2 (Hm (- v)) (conj Hw Hx))).
      split; (split; [done|]); intros [Hok Hx]; exfalso; pose proof (is_value_sign (- m) k (- v) ltac:(lia) Hx);
        apply Hno in Hx; try done; unfold u64_ok, i64_ok, u64_max in *; lia.
  - pose proof (positive_iff raw integral m k Hn En) as Hs. rewrite Z.abs_eq in Hm by done.
    destruct (magnitude n) as [w|] eqn:Ew; cbn [mbind option_bind andb negb].
    + destruct (proj1 (Hm w) eq_refl) as [Hw Hval].
      assert (Huniq : is_value m k v <-> v = w).
      { split; [|by intros ->]. intros H. unfold is_value in *. pose proof (Z.pow_pos_nonneg 10 (Z.max (- k) 0)). nia. }
      rewrite Huniq, checked_i64_some. unfold u64_ok, u64_max in *. split; [|naive_solver].
      split; [intros [= <-]; lia|]. by intros [_ ->].
    + assert (Hno : 0 <= v <= u64_max -> ~ is_value m k v) by (intros Hw Hx; by specialize (proj2 (Hm v) (conj Hw Hx))).
      split; (split; [done|]); intros [Hok Hx]; exfalso; pose proof (is_value_sign m k v Hs Hx);
        apply Hno in Hx; try done; unfold u64_ok, i64_ok, u64_max in *; lia.
Qed.

(** [-1000e-2] is [-10], and no [u64]. *)
Lemma integers_are_exact_witness :
  json_number (lit "-1000e-2") false (-1000) (-2) /\ nb_as_i64 (MkNumber (lit "-1000e-2") false) = Some (-10) /\
  nb_as_u64 (MkNumber (lit "-1000e-2") false) <> Some (-10).
Proof.
  assert (Hn : json_number (lit "-1000e-2") false (-1000) (-2)).
  { apply (jn_literal true (lit "1000") [] [] (lit "e-2") (-2)).
    - apply int_digits; [done|done|]. repeat constructor.
    - constructor.
    - apply (exp_minus x65 [x32]); [done|repeat constructor|done]. }
  destruct (integers_are_exact (lit "-1000e-2") false (-1000) (-2) (-10) Hn ltac:(vm_compute; congruence)) as [Hu Hi].
  split; [done|]. split.
  - apply Hi. split; [done|]. reflexivity.
  - intros H. apply Hu in H as [[H _] _]. by apply H.
Defined.
