(* ===== verification/JsonReader.v ===== *)
(** * The pull reader ([trailryx-json/src/reader.rs], [validate.rs])

    A caller walks the structure it expects; the reader owns depth, duplicate
    names and position. An operation takes the reader and returns it beside its
    result, also beside an error. The stack's innermost frame comes first. *)

From S2P Require Import Prelude Bytes Ids Json JsonLex JsonNumber.

Inductive Event :=
  | EvNull | EvBool (b : bool) | EvNumber (n : Number) | EvStr (s : str) | EvArrayStart | EvObjectStart.

Definition is_container (e : Event) : bool := match e with EvArrayStart | EvObjectStart => true | _ => false end.

Record Stats := MkStats { unknown_members : Z; max_depth_seen : Z }.

Inductive FrameKind := FkArray | FkObject.
#[export] Instance FrameKind_eq_dec : EqDecision FrameKind. Proof. solve_decision. Defined.

Record RFrame := MkRFrame { fk_kind : FrameKind; fk_names : list str; fk_seen_any : bool }.

Record PullReader := MkReader {
  rd_bytes : list byte; rd_at : nat; rd_line : Z; rd_limits : Limits; rd_stack : list RFrame; rd_stats : Stats; rd_done : bool }.

Definition Reader_new (bytes : list byte) (limits : Limits) (line : Z) : PullReader :=
  MkReader bytes 0 line limits [] (MkStats 0 0) false.

Definition rd_with_at (at_ : nat) (r : PullReader) : PullReader :=
  MkReader r.(rd_bytes) at_ r.(rd_line) r.(rd_limits) r.(rd_stack) r.(rd_stats) r.(rd_done).
Definition rd_with_stack (s : list RFrame) (r : PullReader) : PullReader :=
  MkReader r.(rd_bytes) r.(rd_at) r.(rd_line) r.(rd_limits) s r.(rd_stats) r.(rd_done).
Definition rd_with_stats (s : Stats) (r : PullReader) : PullReader :=
  MkReader r.(rd_bytes) r.(rd_at) r.(rd_line) r.(rd_limits) r.(rd_stack) s r.(rd_done).
Definition rd_with_done (d : bool) (r : PullReader) : PullReader :=
  MkReader r.(rd_bytes) r.(rd_at) r.(rd_line) r.(rd_limits) r.(rd_stack) r.(rd_stats) d.

(** ** Operations over a reader *)

Definition RM (A : Type) : Type := PullReader -> JsonResult A * PullReader.
#[export] Instance RM_ret : MRet RM := fun _ a r => (Ok a, r).
#[export] Instance RM_bind : MBind RM := fun _ _ k m r =>
  match m r with (Ok a, r) => k a r | (Err e, r) => (Err e, r) end.
#[export] Instance RM_fmap : FMap RM := fun _ _ g m => a ← m; mret (g a).

Definition err (s : Syntax) (r : PullReader) : JsonError := json_syntax s r.(rd_line) r.(rd_at).
Definition rm_fail {A} (s : Syntax) : RM A := fun r => (Err (err s r), r).
Definition rm_lift {A} (m : JsonResult A) : RM A := fun r => (m, r).
Definition rm_get {A} (g : PullReader -> A) : RM A := fun r => (Ok (g r), r).
Definition rm_set (g : PullReader -> PullReader) : RM unit := fun r => (Ok tt, g r).

Definition here (r : PullReader) : option byte := r.(rd_bytes) !! r.(rd_at).
Definition skip_ws (r : PullReader) : PullReader := rd_with_at (skip_whitespace r.(rd_bytes) r.(rd_at)) r.

Fixpoint has_prefix (l p : list byte) {struct p} : bool :=
  match p, l with
  | [], _ => true
  | _ :: _, [] => false
  | x :: p, y :: l => bool_decide (x = y) && has_prefix l p
  end.

Definition spells_a_non_json_float (r : PullReader) : bool :=
  let rest := drop r.(rd_at) r.(rd_bytes) in has_prefix rest (lit "NaN") || has_prefix rest (lit "Inf").

Definition literal (word : list byte) : RM unit := fun r =>
  if has_prefix (drop r.(rd_at) r.(rd_bytes)) word then (Ok tt, rd_with_at (r.(rd_at) + length word) r)
  else (Err (err BadLiteral r), r).

Definition frame_kind (r : PullReader) : option FrameKind := fk_kind <$> head r.(rd_stack).

Definition clip_depth (n : nat) : Z := Z.min (Z.of_nat n) u32_max.

Definition rd_open (kind : FrameKind) : RM unit := fun r =>
  if (r.(rd_limits).(max_depth) <=? length r.(rd_stack))%nat then (Err (json_limit Depth r.(rd_line) r.(rd_at)), r)
  else
    let r := rd_with_stack (MkRFrame kind [] false :: r.(rd_stack)) (rd_with_at (r.(rd_at) + 1) r) in
    let depth := clip_depth (length r.(rd_stack)) in
    (Ok tt, if r.(rd_stats).(max_depth_seen) <? depth then rd_with_stats (MkStats r.(rd_stats).(unknown_members) depth) r else r).

Definition rd_close (r : PullReader) : PullReader :=
  let r := rd_with_stack (tail r.(rd_stack)) r in
  if bool_decide (r.(rd_stack) = []) then rd_with_done true r else r.

(** One value, by its first byte. *)
Definition event_at (first : byte) : RM Event :=
  if is_byte x6e first then literal (lit "null");; mret EvNull
  else if is_byte x74 first then literal (lit "true");; mret (EvBool true)
  else if is_byte x66 first then literal (lit "false");; mret (EvBool false)
  else if is_byte QUOTE first then fun r =>
    match scan_string r.(rd_bytes) r.(rd_at) r.(rd_line) with
    | Ok (text, end_) => (Ok (EvStr text), rd_with_at end_ r)
    | Err e => (Err e, r)
    end
  else if is_byte MINUS first || is_digit first then fun r =>
    match scan r.(rd_bytes) r.(rd_line) r.(rd_at) r.(rd_limits).(max_number_bytes) with
    | Ok (n, used) => (Ok (EvNumber n), rd_with_at (r.(rd_at) + used) r)
    | Err e => (Err e, r)
    end
  else if is_byte x5b first then rd_open FkArray;; mret EvArrayStart
  else if is_byte x7b first then rd_open FkObject;; mret EvObjectStart
  else if is_byte x2c first then rm_fail TrailingComma
  else if is_byte x3a first then rm_fail ExpectedColon
  else if is_byte x2b first || is_byte x2e first then rm_fail BadNumber
  else if is_byte x4e first || is_byte x49 first then
    float ← rm_get spells_a_non_json_float;
    if float : bool then rm_fail BadNumber else rm_fail UnexpectedByte
  else rm_fail UnexpectedByte.

Definition value : RM Event := fun r =>
  (_ ← (if (r.(rd_at) =? 0)%nat then rm_lift (check_utf8 r.(rd_bytes) r.(rd_line)) else mret tt);
   _ ← rm_set skip_ws;
   done ← rm_get rd_done;
   if done : bool then rm_fail TrailingContent
   else
     first ← rm_get here;
     match first with
     | None => rm_fail UnexpectedEof
     | Some first =>
         event ← event_at first;
         _ ← rm_set (fun r => if negb (is_container event) && bool_decide (r.(rd_stack) = []) then rd_with_done true r else r);
         mret event
     end) r.

Definition seen_any (r : PullReader) : bool := match r.(rd_stack) with f :: _ => f.(fk_seen_any) | [] => false end.
Definition mark_seen (r : PullReader) : PullReader :=
  match r.(rd_stack) with
  | f :: rest => rd_with_stack (MkRFrame f.(fk_kind) f.(fk_names) true :: rest) r
  | [] => r
  end.

Definition next_element : RM bool := fun r =>
  if negb (bool_decide (frame_kind r = Some FkArray)) then (Err (err UnexpectedByte r), r)
  else
    let r := skip_ws r in
    match here r with
    | None => (Err (err UnexpectedEof r), r)
    | Some b =>
        let seen := seen_any r in
        if is_byte x5d b then (Ok false, rd_close (rd_with_at (r.(rd_at) + 1) r))
        else if is_byte x2c b && negb seen then (Err (err TrailingComma r), r)
        else if is_byte x2c b then
          let comma := r.(rd_at) in
          let r := rd_with_at (comma + 1) r in
          let next := skip_whitespace r.(rd_bytes) r.(rd_at) in
          if byte_at r.(rd_bytes) next (is_byte x5d) then (Err (json_syntax TrailingComma r.(rd_line) comma), r)
          else (Ok true, r)
        else if seen then (Err (err UnexpectedByte r), r)
        else (Ok true, mark_seen r)
    end.

(** Read a member name and record it against the frame. *)
Definition member_name : RM str := fun r =>
  let start := r.(rd_at) in
  match scan_string r.(rd_bytes) start r.(rd_line) with
  | Err e => (Err e, r)
  | Ok (name, end_) =>
      let r := rd_with_at end_ r in
      match r.(rd_stack) with
      | [] => (Err (json_syntax UnexpectedByte r.(rd_line) start), r)
      | f :: rest =>
          if (r.(rd_limits).(max_keys_per_object) <=? length f.(fk_names))%nat then
            (Err (json_limit ObjectMembers r.(rd_line) start), r)
          else if existsb (fun seen => bool_decide (seen = name)) f.(fk_names) then
            (Err (json_syntax DuplicateName r.(rd_line) start), r)
          else (Ok name, rd_with_stack (MkRFrame f.(fk_kind) (f.(fk_names) ++ [name]) true :: rest) r)
      end
  end.

(** From where a name belongs to past its colon. *)
Definition named : RM (option str) := fun r =>
  match here r with
  | None => (Err (err UnexpectedEof r), r)
  | Some b =>
      if negb (is_byte QUOTE b) then (Err (err ExpectedName r), r)
      else
        (name ← member_name;
         _ ← rm_set skip_ws;
         b ← rm_get here;
         match b with
         | None => rm_fail UnexpectedEof
         | Some b => if is_byte x3a b then _ ← rm_set (fun r => rd_with_at (r.(rd_at) + 1) r); mret (Some name) else rm_fail ExpectedColon
         end) r
  end.

Definition next_name : RM (option str) := fun r =>
  if negb (bool_decide (frame_kind r = Some FkObject)) then (Err (err UnexpectedByte r), r)
  else
    let r := skip_ws r in
    match here r with
    | None => (Err (err UnexpectedEof r), r)
    | Some b =>
        let seen := seen_any r in
        if is_byte x7d b then (Ok None, rd_close (rd_with_at (r.(rd_at) + 1) r))
        else if is_byte x2c b && negb seen then (Err (err TrailingComma r), r)
        else if is_byte x2c b then
          let comma := r.(rd_at) in
          let r := skip_ws (rd_with_at (comma + 1) r) in
          if byte_at r.(rd_bytes) r.(rd_at) (is_byte x7d) then (Err (json_syntax TrailingComma r.(rd_line) comma), r)
          else named r
        else if seen then (Err (err UnexpectedByte r), r)
        else named r
    end.

(** The walk of [skip_rest]; a turn consumes a byte. *)
Fixpoint skip_loop (fuel floor : nat) : RM unit := fun r =>
  match fuel with
  | O => (Err (err UnexpectedEof r), r)
  | S fuel =>
      if (0 <? floor)%nat && (floor <=? length r.(rd_stack))%nat then
        match frame_kind r with
        | None => (Ok tt, r)
        | Some k =>
            (more ← (match k with FkArray => next_element | FkObject => (fun n => bool_decide (is_Some n)) <$> next_name end);
             _ ← (if more : bool then value;; mret tt else mret tt);
             skip_loop fuel floor) r
        end
      else (Ok tt, r)
  end.

Definition skip_rest (opened : Event) : RM unit := fun r =>
  if negb (is_container opened) then (Ok tt, r) else skip_loop (S (length r.(rd_bytes))) (length r.(rd_stack)) r.

Definition skip_value : RM unit :=
  _ ← rm_set (fun r => rd_with_stats (MkStats (Z.min (r.(rd_stats).(unknown_members) + 1) u32_max) r.(rd_stats).(max_depth_seen)) r);
  opened ← value;
  skip_rest opened.

Definition finish (r : PullReader) : JsonResult Stats :=
  if negb r.(rd_done) then Err (json_syntax UnexpectedEof r.(rd_line) r.(rd_at))
  else
    let end_ := skip_whitespace r.(rd_bytes) r.(rd_at) in
    if (end_ <? length r.(rd_bytes))%nat then Err (json_syntax TrailingContent r.(rd_line) end_) else Ok r.(rd_stats).

(** ** A whole document *)

Definition walk_document (bytes : list byte) (limits : Limits) (line : Z) : JsonResult Stats :=
  let '(m, r) := (opened ← value; if is_container opened then skip_rest opened else mret tt) (Reader_new bytes limits line) in
  _ ← m; finish r.

Definition validate (bytes : list byte) (limits : Limits) (line : Z) : JsonResult unit :=
  _ ← walk_document bytes limits line; Ok tt.

Definition depth_of (bytes : list byte) (limits : Limits) (line : Z) : JsonResult Z :=
  max_depth_seen <$> walk_document bytes limits line.
