(* ===== verification/JsonText.v ===== *)
(** * The texts the reader accepts ([trailryx-json/src/reader.rs], [validate.rs])

    The grammar of RFC 8259 within the reader's bounds, with distinct member names,
    and that [validate] accepts exactly its texts: what it accepts is one, and
    every one is accepted. *)

From S2P Require Import Prelude Bytes Ids Json JsonLex JsonNumber JsonReader.

#[local] Arguments skip_whitespace : simpl never.
#[local] Arguments is_byte : simpl never.
#[local] Arguments clip_depth : simpl never.

(** What a text says. *)
#[local] Unset Elimination Schemes.
Inductive J :=
  | JNull | JBool (b : bool) | JNumber (n : Number) | JStr (s : str) | JArr (l : list J) | JObj (l : list (str * J)).
#[local] Set Elimination Schemes.

Fixpoint jdepth (j : J) : nat :=
  match j with
  | JArr l => S (foldr (fun j m => Nat.max (jdepth j) m) 0%nat l)
  | JObj l => S (foldr (fun p m => Nat.max (jdepth p.2) m) 0%nat l)
  | _ => 0
  end.

Definition whitespace (ws : list byte) : Prop := Forall (fun b => is_whitespace b = true) ws.

Definition open_byte (k : FrameKind) : byte := match k with FkArray => x5b | FkObject => x7b end.
Definition close_byte (k : FrameKind) : byte := match k with FkArray => x5d | FkObject => x7d end.

(** Before a member: nothing but whitespace, or a comma when one came before. *)
Inductive separator : list str -> list byte -> Prop :=
  | sp_first ws : whitespace ws -> separator [] ws
  | sp_next name names ws1 ws2 : whitespace ws1 -> whitespace ws2 -> separator (name :: names) (ws1 ++ x2c :: ws2).

Section Grammar.
Variable limits : Limits.

(** A value without parts. *)
Inductive scalar : list byte -> J -> Prop :=
  | sc_null : scalar (lit "null") JNull
  | sc_true : scalar (lit "true") (JBool true)
  | sc_false : scalar (lit "false") (JBool false)
  | sc_number raw b m k :
      json_number raw b m k -> (length raw <= limits.(max_number_bytes))%nat -> scalar raw (JNumber (MkNumber raw b))
  | sc_string raw v : str_body raw v -> scalar (QUOTE :: raw ++ [QUOTE]) (JStr v).

(** A value inside [d] containers; the elements of an array after [seen], and the
    members of an object after [names], up to the byte that closes it. *)
Inductive value_g : nat -> list byte -> J -> Prop :=
  | vg_scalar d raw j : scalar raw j -> value_g d raw j
  | vg_array d raw l :
      (d < limits.(max_depth))%nat -> elements_g (S d) false raw l -> value_g d (x5b :: raw) (JArr l)
  | vg_object d raw l :
      (d < limits.(max_depth))%nat -> members_g (S d) [] raw l -> value_g d (x7b :: raw) (JObj l)
with elements_g : nat -> bool -> list byte -> list J -> Prop :=
  | eg_close d seen ws : whitespace ws -> elements_g d seen (ws ++ [x5d]) []
  | eg_first d ws raw j rest l :
      whitespace ws -> value_g d raw j -> elements_g d true rest l -> elements_g d false (ws ++ raw ++ rest) (j :: l)
  | eg_next d ws1 ws2 raw j rest l :
      whitespace ws1 -> whitespace ws2 -> value_g d raw j -> elements_g d true rest l ->
      elements_g d true (ws1 ++ x2c :: ws2 ++ raw ++ rest) (j :: l)
with members_g : nat -> list str -> list byte -> list (str * J) -> Prop :=
  | mg_close d names ws : whitespace ws -> members_g d names (ws ++ [x7d]) []
  | mg_member d names sep raw_name name ws1 ws2 raw j rest l :
      separator names sep -> str_body raw_name name -> name ∉ names -> (length names < limits.(max_keys_per_object))%nat ->
      whitespace ws1 -> whitespace ws2 -> value_g d raw j -> members_g d (names ++ [name]) rest l ->
      members_g d names (sep ++ QUOTE :: raw_name ++ QUOTE :: ws1 ++ x3a :: ws2 ++ raw ++ rest) ((name, j) :: l).

(** One text: a value, and whitespace around it, in UTF-8. *)
Definition json_text (bytes : list byte) (j : J) : Prop :=
  valid_utf8 bytes = true /\
  exists ws1 raw ws2, bytes = ws1 ++ raw ++ ws2 /\ whitespace ws1 /\ whitespace ws2 /\ value_g 0 raw j.

End Grammar.

Scheme value_g_ind' := Minimality for value_g Sort Prop
with elements_g_ind' := Minimality for elements_g Sort Prop
with members_g_ind' := Minimality for members_g Sort Prop.
Combined Scheme grammar_ind from value_g_ind', elements_g_ind', members_g_ind'.

(** ** A reader in the middle of a line *)

Section Reading.
Variables (limits : Limits) (line : Z).

(** [pre] is behind the reader, [x] before it. *)
Definition stand (pre x : list byte) (st : list RFrame) (sts : Stats) (done : bool) : PullReader :=
  MkReader (pre ++ x) (length pre) line limits st sts done.

Lemma stand_eq pre x pre' x' st sts done : pre ++ x = pre' ++ x' -> length pre = length pre' -> stand pre x st sts done = stand pre' x' st sts done.
Proof. intros H Hl. destruct (app_eq_same_length pre x pre' x' Hl H) as [-> ->]. done. Qed.

Lemma whitespace_split x : exists ws y, x = ws ++ y /\ whitespace ws /\ hd_is is_whitespace y = false.
Proof. destruct (run_split is_whitespace x) as (ws & y & -> & Hw & Hy & _). by exists ws, y. Qed.

Lemma skip_whitespace_here pre ws y :
  whitespace ws -> hd_is is_whitespace y = false -> skip_whitespace (pre ++ ws ++ y) (length pre) = length (pre ++ ws).
Proof. intros Hw Hy. unfold skip_whitespace. rewrite drop_app_length, run_exact by done. by rewrite length_app. Qed.

Lemma skip_ws_stand pre ws y st sts done :
  whitespace ws -> hd_is is_whitespace y = false ->
  skip_ws (stand pre (ws ++ y) st sts done) = stand (pre ++ ws) y st sts done.
Proof.
  intros Hw Hy. unfold skip_ws, stand, rd_with_at. cbn. rewrite skip_whitespace_here by done. by rewrite <- app_assoc.
Qed.

Lemma here_stand pre x st sts done : here (stand pre x st sts done) = head x.
Proof. unfold here, stand. cbn. replace (length pre) with (length pre + 0)%nat by lia. rewrite get_from. by destruct x. Qed.

Lemma advance_stand pre w x st sts done n :
  n = length w -> rd_with_at (length pre + n) (stand pre (w ++ x) st sts done) = stand (pre ++ w) x st sts done.
Proof. intros ->. unfold stand, rd_with_at. cbn. by rewrite length_app, app_assoc. Qed.

Lemma has_prefix_iff l p : has_prefix l p = true <-> exists k, l = p ++ k.
Proof.
  revert l. induction p as [|b p IH]; intros l.
  { split; [intros _; by exists l|done]. }
  destruct l as [|c l]; cbn.
  { split; [done|]. intros [k Hk]. done. }
  rewrite andb_true_iff, bool_decide_eq_true, IH. split.
  - intros [-> [k ->]]. by exists k.
  - intros [k Hk]. injection Hk as -> ->. eauto.
Qed.

Lemma literal_iff w pre x st sts done r :
  literal w (stand pre x st sts done) = (Ok tt, r) <-> exists y, x = w ++ y /\ r = stand (pre ++ w) y st sts done.
Proof.
  unfold literal. cbn. rewrite drop_app_length. destruct (has_prefix x w) eqn:E.
  - apply has_prefix_iff in E as [y ->]. rewrite advance_stand by done. split; [intros [= <-]; by exists y|].
    intros (y' & Hy & ->). apply app_inv_head in Hy as ->. done.
  - split; [done|]. intros (y & -> & _). assert (has_prefix (w ++ y) w = true); [|congruence]. apply has_prefix_iff. by exists y.
Qed.

Definition deepen (sts : Stats) (n : nat) : Stats := MkStats sts.(unknown_members) (Z.max sts.(max_depth_seen) (clip_depth n)).

Lemma open_iff k b pre x st sts done r :
  rd_open k (stand pre (b :: x) st sts done) = (Ok tt, r) <->
  (length st < limits.(max_depth))%nat /\
  r = stand (pre ++ [b]) x (MkRFrame k [] false :: st) (deepen sts (S (length st))) done.
Proof.
  unfold rd_open. cbn. destruct (_ <=? _)%nat eqn:E; breflect; [split; [done|lia]|]. split.
  - intros [= <-]. split; [done|]. unfold stand, deepen. rewrite length_app, <- app_assoc.
    destruct (Z.ltb_spec (max_depth_seen sts) (clip_depth (S (length st)))); cbn.
    + unfold rd_with_stats. cbn. f_equal. f_equal. lia.
    + unfold rd_with_stack, rd_with_at. cbn. f_equal. destruct sts. cbn in *. f_equal. lia.
  - intros [_ ->]. f_equal. unfold stand, deepen. rewrite length_app, <- app_assoc.
    destruct (Z.ltb_spec (max_depth_seen sts) (clip_depth (S (length st)))); cbn.
    + unfold rd_with_stats. cbn. f_equal. f_equal. lia.
    + unfold rd_with_stack, rd_with_at. cbn. f_equal. destruct sts. cbn in *. f_equal. lia.
Qed.

(** ** One value's first token *)

Definition event_of (j : J) : Event :=
  match j with
  | JNull => EvNull | JBool b => EvBool b | JNumber n => EvNumber n | JStr s => EvStr s
  | JArr _ => EvArrayStart | JObj _ => EvObjectStart
  end.
Definition start_of (k : FrameKind) : Event := match k with FkArray => EvArrayStart | FkObject => EvObjectStart end.

Lemma bind_ok {A B} (m : PullReader -> JsonResult A * PullReader) (g : A -> PullReader -> JsonResult B * PullReader) r v r' :
  RM_bind A B g m r = (Ok v, r') <-> exists a r1, m r = (Ok a, r1) /\ g a r1 = (Ok v, r').
Proof.
  unfold RM_bind. destruct (m r) as [[a|e] r1]; split.
  - intros H. by exists a, r1.
  - intros (a' & r2 & [= <- <-] & H). done.
  - done.
  - by intros (a' & r2 & [=] & _).
Qed.

Definition token_read pre b x st sts done ev r : Prop :=
  (exists raw post j, b :: x = raw ++ post /\ scalar limits raw j /\ ev = event_of j /\
     r = stand (pre ++ raw) post st sts done) \/
  (exists k, b = open_byte k /\ ev = start_of k /\ (length st < limits.(max_depth))%nat /\
     r = stand (pre ++ [b]) x (MkRFrame k [] false :: st) (deepen sts (S (length st))) done).

Lemma word_sound w j pre b x st sts done ev r :
  scalar limits w j ->
  (literal w;; mret (event_of j)) (stand pre (b :: x) st sts done) = (Ok ev, r) -> token_read pre b x st sts done ev r.
Proof.
  intros Hs H. apply bind_ok in H as ([] & r1 & Hl & [= <- <-]). apply literal_iff in Hl as (y & Hy & ->).
  left. exists w, y, j. done.
Qed.

Lemma open_sound k pre b x st sts done ev r :
  is_byte (open_byte k) b = true ->
  (rd_open k;; mret (start_of k)) (stand pre (b :: x) st sts done) = (Ok ev, r) -> token_read pre b x st sts done ev r.
Proof.
  intros Hb H. apply is_byte_iff in Hb as ->. apply bind_ok in H as ([] & r1 & Ho & [= <- <-]). apply open_iff in Ho as [Hd ->].
  right. exists k. done.
Qed.

Lemma quoted_len raw : length (QUOTE :: raw ++ [QUOTE]) = (length raw + 2)%nat.
Proof. cbn. rewrite length_app. cbn. lia. Qed.
Lemma quoted_in_len (pre raw post : list byte) : length (pre ++ QUOTE :: raw ++ QUOTE :: post) = (length pre + length raw + length post + 2)%nat.
Proof. rewrite length_app. cbn. rewrite length_app. cbn. lia. Qed.

Lemma event_sound pre b x st sts done ev r :
  utf8_chars (b :: x) -> event_at b (stand pre (b :: x) st sts done) = (Ok ev, r) -> token_read pre b x st sts done ev r.
Proof.
  intros Hu. unfold event_at.
  destruct (is_byte x6e b); [apply (word_sound _ JNull); constructor|].
  destruct (is_byte x74 b); [apply (word_sound _ (JBool true)); constructor|].
  destruct (is_byte x66 b); [apply (word_sound _ (JBool false)); constructor|].
  destruct (is_byte QUOTE b) eqn:Eq.
  { apply is_byte_iff in Eq as ->. cbn [rd_bytes rd_at rd_line stand]. destruct (scan_string _ _ _) as [[v e]|] eqn:Es; [|done].
    intros [= <- <-]. apply scan_string_iff in Es as (post & (raw & -> & Hraw) & He); [|by apply utf8_chars_ascii in Hu].
    left. exists (QUOTE :: raw ++ [QUOTE]), post, (JStr v). split_and!; [cbn; by rewrite <- app_assoc|by constructor|done|].
    replace e with (length pre + length (QUOTE :: raw ++ [QUOTE]))%nat.
    2:{ rewrite quoted_len. rewrite quoted_in_len in He. lia. }
    rewrite <- (advance_stand pre (QUOTE :: raw ++ [QUOTE]) post _ _ _ (length (QUOTE :: raw ++ [QUOTE]))) by done. f_equal. apply stand_eq; [|done]. cbn. by rewrite <- app_assoc. }
  destruct (is_byte MINUS b || is_digit b).
  { cbn [rd_bytes rd_at rd_line rd_limits stand]. destruct (scan _ _ _ _) as [[n used]|] eqn:Es; [|done].
    intros [= <- <-]. apply scan_iff in Es as (raw & post & m & k & Hx & Hn & Hr & _ & -> & Hmax).
    left. exists raw, post, (JNumber n). split_and!; [done| |done|by rewrite Hx, advance_stand].
    destruct n as [r b']. cbn in *. subst r. by econstructor. }
  destruct (is_byte x5b b) eqn:Ea; [by apply (open_sound FkArray)|].
  destruct (is_byte x7b b) eqn:Eo; [by apply (open_sound FkObject)|].
  destruct (is_byte x2c b); [done|]. destruct (is_byte x3a b); [done|]. destruct (_ || _); [done|].
  destruct (_ || _); [|done]. intros H. apply bind_ok in H as (float & r1 & _ & H). by destruct float.
Qed.

Lemma number_first raw b m k : json_number raw b m k -> exists c y, raw = c :: y /\ (is_byte MINUS c || is_digit c) = true.
Proof.
  destruct 1 as [neg int frac f ex e Hi Hf He]. destruct neg; [by eexists _, _|].
  destruct Hi as [|d ds Hd _ _]; [by eexists _, _|]. eexists d, _. split; [done|]. rewrite Hd. apply orb_true_r.
Qed.

Lemma event_complete pre raw j post st sts done :
  utf8_chars (raw ++ post) -> ends_number post -> scalar limits raw j ->
  exists b y, raw = b :: y /\
    event_at b (stand pre (raw ++ post) st sts done) = (Ok (event_of j), stand (pre ++ raw) post st sts done).
Proof.
  intros Hu Hp Hs.
  assert (Hword : forall w, scalar limits w j ->
    (literal w;; mret (event_of j)) (stand pre (w ++ post) st sts done) = (Ok (event_of j), stand (pre ++ w) post st sts done)).
  { intros w Hw. apply bind_ok. exists tt, (stand (pre ++ w) post st sts done). split; [|done]. apply literal_iff. by exists post. }
  destruct Hs as [| | |raw b m k Hn Hl|raw v Hb].
  - eexists _, _. split; [done|]. by apply Hword; constructor.
  - eexists _, _. split; [done|]. by apply Hword; constructor.
  - eexists _, _. split; [done|]. by apply Hword; constructor.
  - destruct (number_first _ _ _ _ Hn) as (c & y & -> & Hc). exists c, y. split; [done|]. unfold event_at.
    assert (is_byte x6e c = false /\ is_byte x74 c = false /\ is_byte x66 c = false /\ is_byte QUOTE c = false) as (-> & -> & -> & ->).
    { clear -Hc. destruct c; try done; by split_and!. }
    rewrite Hc. cbn [rd_bytes rd_at rd_line rd_limits stand].
    assert (Hscan : scan (pre ++ (c :: y) ++ post) line (length pre) (max_number_bytes limits) = Ok (MkNumber (c :: y) b, length (c :: y))).
    { apply scan_iff. exists (c :: y), post, m, k. by split_and!. }
    rewrite Hscan. by rewrite advance_stand.
  - eexists _, _. split; [done|]. unfold event_at. change (is_byte x6e QUOTE) with false. change (is_byte x74 QUOTE) with false.
    change (is_byte x66 QUOTE) with false. change (is_byte QUOTE QUOTE) with true. cbv iota. cbn [rd_bytes rd_at rd_line stand].
    assert (Hscan : scan_string (pre ++ (QUOTE :: raw ++ [QUOTE]) ++ post) (length pre) line = Ok (v, length pre + length (QUOTE :: raw ++ [QUOTE]))%nat).
    { cbn [app]. apply scan_string_iff.
      - cbn [app] in Hu. by apply utf8_chars_ascii in Hu.
      - exists post. split; [exists raw; split; [by rewrite <- app_assoc|done]|]. rewrite <- !app_assoc. cbn [app]. rewrite quoted_len, quoted_in_len. lia. }
    rewrite Hscan. by rewrite advance_stand.
Qed.

(** ** One value *)

Lemma digits_ascii ds : digits ds -> Forall (fun b => u8v b < 128) ds.
Proof. intros H. eapply Forall_impl; [exact H|]. cbn. intros b Hb. apply digit_range in Hb. lia. Qed.

Lemma number_ascii raw b m k : json_number raw b m k -> Forall (fun b => u8v b < 128) raw.
Proof.
  destruct 1 as [neg int frac f ex e Hi Hf He]. repeat (apply Forall_app; split).
  - destruct neg; by repeat constructor.
  - apply digits_ascii. by apply int_digits_all.
  - destruct Hf; [constructor|]. constructor; [done|by apply digits_ascii].
  - destruct He as [|c ds Hc Hd _|c ds Hc Hd _|c ds Hc Hd _]; [constructor|..];
      (assert (u8v c < 128) by (clear -Hc; destruct c; done)); repeat (constructor; [done|]); by apply digits_ascii.
Qed.

Lemma scalar_utf8 raw j post : scalar limits raw j -> utf8_chars (raw ++ post) -> utf8_chars post.
Proof.
  intros Hs Hu. destruct Hs as [| | |raw b m k Hn _|raw v Hb].
  1-3: (apply utf8_chars_ascii_app in Hu; [done|repeat constructor]).
  - apply utf8_chars_ascii_app in Hu; [done|by eapply number_ascii].
  - cbn in Hu. rewrite <- app_assoc in Hu. apply utf8_chars_ascii in Hu; [|done].
    apply (utf8_chars_split _ _ _ quote_ascii) in Hu as [_ Hu]. by apply utf8_chars_ascii in Hu.
Qed.

Lemma whitespace_ascii ws : whitespace ws -> Forall (fun b => u8v b < 128) ws.
Proof. intros H. eapply Forall_impl; [exact H|]. by intros []. Qed.

Lemma utf8_after_ws ws y : whitespace ws -> utf8_chars (ws ++ y) -> utf8_chars y.
Proof. intros Hw Hu. apply utf8_chars_ascii_app in Hu; [done|by apply whitespace_ascii]. Qed.

(** Where a value's first token leaves the reader. *)
Definition after_value pre ws raw post st sts ev r : Prop :=
  (exists j, scalar limits raw j /\ ev = event_of j /\ r = stand (pre ++ ws ++ raw) post st sts (bool_decide (st = []))) \/
  (exists k, raw = [open_byte k] /\ ev = start_of k /\ (length st < limits.(max_depth))%nat /\
     r = stand (pre ++ ws ++ raw) post (MkRFrame k [] false :: st) (deepen sts (S (length st))) false).

Lemma check_passes bytes n : valid_utf8 bytes = true -> check_utf8 bytes n = Ok tt.
Proof. intros Hv. unfold check_utf8. by rewrite (proj2 (from_utf8_valid _) Hv). Qed.

Lemma scalar_not_container raw j : scalar limits raw j -> is_container (event_of j) = false.
Proof. by destruct 1. Qed.

(** [value], from after the whitespace. *)
Lemma value_turn pre ws y st sts :
  valid_utf8 (pre ++ ws ++ y) = true -> whitespace ws -> hd_is is_whitespace y = false ->
  value (stand pre (ws ++ y) st sts false) =
  match head y with
  | None => (Err (err UnexpectedEof (stand (pre ++ ws) y st sts false)), stand (pre ++ ws) y st sts false)
  | Some b =>
      match event_at b (stand (pre ++ ws) y st sts false) with
      | (Ok ev, r) => (Ok ev, if negb (is_container ev) && bool_decide (r.(rd_stack) = []) then rd_with_done true r else r)
      | (Err e, r) => (Err e, r)
      end
  end.
Proof.
  intros Hv Hw Hy. unfold value, mbind, RM_bind, rm_set, rm_get, rm_lift, mret, RM_ret, rm_fail.
  assert (Hc : forall n, check_utf8 (pre ++ ws ++ y) n = Ok tt) by (intros; by apply check_passes).
  destruct (rd_at (stand pre (ws ++ y) st sts false) =? 0)%nat;
    [change (rd_bytes (stand pre (ws ++ y) st sts false)) with (pre ++ ws ++ y); rewrite Hc|];
    rewrite skip_ws_stand by done; change (rd_done (stand (pre ++ ws) y st sts false)) with false; cbv iota beta; rewrite here_stand;
    (destruct (head y); [|done]); by destruct (event_at _ _) as [[ev|e] r].
Qed.

Lemma value_sound pre x st sts ev r :
  valid_utf8 (pre ++ x) = true -> utf8_chars x -> value (stand pre x st sts false) = (Ok ev, r) ->
  exists ws raw post, x = ws ++ raw ++ post /\ whitespace ws /\ raw <> [] /\ utf8_chars post /\ after_value pre ws raw post st sts ev r.
Proof.
  intros Hv Hu. destruct (whitespace_split x) as (ws & y & -> & Hw & Hy). rewrite value_turn by done.
  apply utf8_after_ws in Hu; [|done]. destruct y as [|b y]; [done|]. cbn [head].
  destruct (event_at b _) as [[ev'|e] r'] eqn:Ee; [|done]. intros [= <- <-]. apply event_sound in Ee; [|done].
  destruct Ee as [(raw & post & j & Hx & Hs & -> & ->)|(k & -> & -> & Hd & ->)].
  - exists ws, raw, post. rewrite Hx in *. rewrite (scalar_not_container _ _ Hs). split_and!; [done|done| |by eapply scalar_utf8|].
    { intros ->. by inversion Hs as [| | |? ? ? ? Hn|]; destruct (number_first _ _ _ _ Hn) as (? & ? & ? & _). }
    left. exists j. split_and!; [done|done|]. rewrite (app_assoc pre). cbn [negb andb rd_stack stand]. by case_bool_decide.
  - exists ws, [open_byte k], y. split_and!; [done|done|done|by apply utf8_chars_ascii in Hu; [|destruct k]|].
    right. exists k. split_and!; [done|done|done|]. rewrite (app_assoc pre). by destruct k.
Qed.

Lemma not_ws_first raw j post : scalar limits raw j -> hd_is is_whitespace (raw ++ post) = false.
Proof.
  destruct 1 as [| | |raw b m k Hn _|raw v Hb]; try done. destruct (number_first _ _ _ _ Hn) as (c & y & -> & Hc). cbn.
  clear -Hc. by destruct c.
Qed.

Lemma value_scalar pre ws raw j post st sts :
  valid_utf8 (pre ++ ws ++ raw ++ post) = true -> utf8_chars (raw ++ post) -> whitespace ws -> ends_number post ->
  scalar limits raw j ->
  value (stand pre (ws ++ raw ++ post) st sts false) =
  (Ok (event_of j), stand (pre ++ ws ++ raw) post st sts (bool_decide (st = []))).
Proof.
  intros Hv Hu Hw Hp Hs. rewrite value_turn by (done || by eapply not_ws_first).
  destruct (event_complete (pre ++ ws) raw j post st sts false Hu Hp Hs) as (b & y & -> & He).
  cbn [app head]. cbn [app] in He. rewrite He, (scalar_not_container _ _ Hs), <- app_assoc. cbn [negb andb rd_stack stand]. by case_bool_decide.
Qed.

Lemma value_opens pre ws k post st sts :
  valid_utf8 (pre ++ ws ++ open_byte k :: post) = true -> whitespace ws -> (length st < limits.(max_depth))%nat ->
  value (stand pre (ws ++ open_byte k :: post) st sts false) =
  (Ok (start_of k), stand (pre ++ ws ++ [open_byte k]) post (MkRFrame k [] false :: st) (deepen sts (S (length st))) false).
Proof.
  intros Hv Hw Hd. rewrite value_turn by (done || by destruct k). cbn [head].
  assert (He : event_at (open_byte k) (stand (pre ++ ws) (open_byte k :: post) st sts false) =
    (Ok (start_of k), stand ((pre ++ ws) ++ [open_byte k]) post (MkRFrame k [] false :: st) (deepen sts (S (length st))) false)).
  { assert (Ho := proj2 (open_iff k (open_byte k) (pre ++ ws) post st sts false _) (conj Hd eq_refl)).
    destruct k; apply bind_ok; eexists tt, _; (split; [exact Ho|done]). }
  rewrite He, <- app_assoc. by destruct k.
Qed.

(** ** Between values *)

Lemma close_stand pre b x f st sts :
  rd_close (rd_with_at (length pre + 1) (stand pre (b :: x) (f :: st) sts false)) = stand (pre ++ [b]) x st sts (bool_decide (st = [])).
Proof.
  change (b :: x) with ([b] ++ x). rewrite advance_stand by done. unfold rd_close, stand. cbn. by case_bool_decide.
Qed.

(** The first byte after whitespace. *)
Definition next_byte (x : list byte) : option byte := head (drop (byte_run is_whitespace x) x).

Lemma next_byte_ws ws y : whitespace ws -> hd_is is_whitespace y = false -> next_byte (ws ++ y) = head y.
Proof. intros Hw Hy. unfold next_byte. by rewrite run_exact, drop_app_length. Qed.

Lemma byte_after_ws pre x p : byte_at (pre ++ x) (skip_whitespace (pre ++ x) (length pre)) p = match next_byte x with Some b => p b | None => false end.
Proof.
  destruct (whitespace_split x) as (ws & y & -> & Hw & Hy). rewrite skip_whitespace_here, next_byte_ws by done.
  rewrite app_assoc, byte_at_here. by destruct y.
Qed.

Lemma next_element_turn pre ws y ns seen st sts :
  whitespace ws -> hd_is is_whitespace y = false ->
  next_element (stand pre (ws ++ y) (MkRFrame FkArray ns seen :: st) sts false) =
  match y with
  | [] => (Err (err UnexpectedEof (stand (pre ++ ws) y (MkRFrame FkArray ns seen :: st) sts false)), stand (pre ++ ws) y (MkRFrame FkArray ns seen :: st) sts false)
  | b :: z =>
      let here := stand (pre ++ ws) y (MkRFrame FkArray ns seen :: st) sts false in
      let past := stand ((pre ++ ws) ++ [b]) z (MkRFrame FkArray ns seen :: st) sts false in
      if is_byte x5d b then (Ok false, stand ((pre ++ ws) ++ [b]) z st sts (bool_decide (st = [])))
      else if is_byte x2c b && negb seen then (Err (err TrailingComma here), here)
      else if is_byte x2c b then
        if match next_byte z with Some c => is_byte x5d c | None => false end
        then (Err (json_syntax TrailingComma line (length (pre ++ ws))), past) else (Ok true, past)
      else if seen then (Err (err UnexpectedByte here), here)
      else (Ok true, stand (pre ++ ws) y (MkRFrame FkArray ns true :: st) sts false)
  end.
Proof.
  intros Hw Hy. unfold next_element. cbn [frame_kind head rd_stack stand fmap option_fmap option_map fk_kind].
  rewrite bool_decide_eq_true_2 by done. cbn [negb]. fold (stand pre (ws ++ y) (MkRFrame FkArray ns seen :: st) sts false).
  rewrite skip_ws_stand, here_stand by done. destruct y as [|b z]; [done|]. cbn [head].
  change (seen_any (stand (pre ++ ws) (b :: z) (MkRFrame FkArray ns seen :: st) sts false)) with seen.
  change (rd_at (stand (pre ++ ws) (b :: z) (MkRFrame FkArray ns seen :: st) sts false)) with (length (pre ++ ws)).
  rewrite close_stand. destruct (is_byte x5d b); [done|]. destruct (is_byte x2c b); cbn [andb].
  - destruct seen; [|done]. cbn [negb].
    pose proof (advance_stand (pre ++ ws) [b] z (MkRFrame FkArray ns true :: st) sts false 1 eq_refl) as Ha. cbn [app] in Ha. rewrite Ha.
    cbn [rd_bytes rd_at stand rd_line]. by rewrite byte_after_ws.
  - by destruct seen.
Qed.

Lemma next_name_turn pre ws y ns st sts :
  whitespace ws -> hd_is is_whitespace y = false ->
  let seen := negb (bool_decide (ns = [])) in
  let f := MkRFrame FkObject ns seen in
  next_name (stand pre (ws ++ y) (f :: st) sts false) =
  match y with
  | [] => (Err (err UnexpectedEof (stand (pre ++ ws) y (f :: st) sts false)), stand (pre ++ ws) y (f :: st) sts false)
  | b :: z =>
      let here := stand (pre ++ ws) y (f :: st) sts false in
      if is_byte x7d b then (Ok None, stand ((pre ++ ws) ++ [b]) z st sts (bool_decide (st = [])))
      else if is_byte x2c b && negb seen then (Err (err TrailingComma here), here)
      else if is_byte x2c b then
        let r := skip_ws (stand ((pre ++ ws) ++ [b]) z (f :: st) sts false) in
        if byte_at r.(rd_bytes) r.(rd_at) (is_byte x7d) then (Err (json_syntax TrailingComma line (length (pre ++ ws))), r) else named r
      else if seen then (Err (err UnexpectedByte here), here)
      else named here
  end.
Proof.
  intros Hw Hy seen f. unfold next_name. cbn [frame_kind head rd_stack stand fmap option_fmap option_map fk_kind f].
  rewrite bool_decide_eq_true_2 by done. cbn [negb]. fold f. fold (stand pre (ws ++ y) (f :: st) sts false).
  rewrite skip_ws_stand, here_stand by done. destruct y as [|b z]; [done|]. cbn [head].
  change (seen_any (stand (pre ++ ws) (b :: z) (f :: st) sts false)) with seen.
  change (rd_at (stand (pre ++ ws) (b :: z) (f :: st) sts false)) with (length (pre ++ ws)).
  rewrite close_stand. destruct (is_byte x7d b); [done|]. destruct (is_byte x2c b); cbn [andb]; [|done].
  destruct (negb seen); [done|].
  pose proof (advance_stand (pre ++ ws) [b] z (f :: st) sts false 1 eq_refl) as Ha. cbn [app] in Ha. by rewrite Ha.
Qed.

Lemma member_name_iff pre x ns seen st sts name r :
  utf8_chars x ->
  member_name (stand pre (QUOTE :: x) (MkRFrame FkObject ns seen :: st) sts false) = (Ok name, r) <->
  exists raw post, x = raw ++ QUOTE :: post /\ str_body raw name /\ (name ∉ ns) /\
    (length ns < limits.(max_keys_per_object))%nat /\
    r = stand (pre ++ QUOTE :: raw ++ [QUOTE]) post (MkRFrame FkObject (ns ++ [name]) true :: st) sts false.
Proof.
  intros Hu. unfold member_name. cbn [rd_at rd_bytes rd_line stand].
  destruct (scan_string (pre ++ QUOTE :: x) (length pre) line) as [[v e]|] eqn:Es.
  2:{ split; [done|]. intros (raw & post & -> & Hb & _). exfalso.
      assert (Hok : scan_string (pre ++ QUOTE :: raw ++ QUOTE :: post) (length pre) line = Ok (name, length pre + length (QUOTE :: raw ++ [QUOTE]))%nat).
      { apply scan_string_iff; [done|]. exists post. split; [by exists raw|]. rewrite quoted_len, quoted_in_len. lia. }
      congruence. }
  apply scan_string_iff in Es as (post & (raw & -> & Hb) & He); [|done]. rewrite quoted_in_len in He.
  assert (Hr : rd_with_at e (stand pre (QUOTE :: raw ++ QUOTE :: post) (MkRFrame FkObject ns seen :: st) sts false) =
    stand (pre ++ QUOTE :: raw ++ [QUOTE]) post (MkRFrame FkObject ns seen :: st) sts false).
  { replace (QUOTE :: raw ++ QUOTE :: post) with ((QUOTE :: raw ++ [QUOTE]) ++ post) by (cbn; by rewrite <- app_assoc).
    replace e with (length pre + length (QUOTE :: raw ++ [QUOTE]))%nat by (rewrite quoted_len; lia). by apply advance_stand. }
  fold (stand pre (QUOTE :: raw ++ QUOTE :: post) (MkRFrame FkObject ns seen :: st) sts false). rewrite Hr.
  cbn [rd_stack rd_limits stand fk_names fk_kind].
  assert (Huniq : forall raw' post' name', raw ++ QUOTE :: post = raw' ++ QUOTE :: post' -> str_body raw' name' -> name' = v /\ raw' = raw /\ post' = post).
  { intros raw' post' name' Hx Hb'.
    assert (Hs : scan_string (pre ++ QUOTE :: raw ++ QUOTE :: post) (length pre) line = Ok (v, length pre + length raw + 2)%nat).
    { apply scan_string_iff; [done|]. exists post. split; [by exists raw|]. rewrite quoted_in_len. lia. }
    assert (Hs' : scan_string (pre ++ QUOTE :: raw ++ QUOTE :: post) (length pre) line = Ok (name', length pre + length raw' + 2)%nat).
    { apply scan_string_iff; [done|]. exists post'. split; [by exists raw'|]. rewrite Hx, quoted_in_len. lia. }
    rewrite Hs in Hs'. injection Hs' as -> Hl. assert (Hl' : length raw = length raw') by lia.
    destruct (app_eq_same_length _ _ _ _ Hl' Hx) as [<- Hp]. by injection Hp as <-. }
  destruct (_ <=? _)%nat eqn:Ek; breflect.
  { split; [done|]. intros (raw' & post' & _ & _ & _ & Hk & _). lia. }
  destruct (existsb _ ns) eqn:Ed.
  - split; [done|]. intros (raw' & post' & Hx & Hb' & Hn & _). exfalso. destruct (Huniq _ _ _ Hx Hb') as (-> & _).
    apply existsb_exists in Ed as (s & Hs & Heq). breflect. subst s. by apply Hn, list_elem_of_In.
  - assert (Hn : v ∉ ns).
    { intros Hin. apply not_true_iff_false in Ed. apply Ed, existsb_exists. exists v. split; [by apply list_elem_of_In|by apply bool_decide_eq_true]. }
    split.
    + intros [= <- <-]. by exists raw, post.
    + intros (raw' & post' & Hx & Hb' & _ & _ & ->). destruct (Huniq _ _ _ Hx Hb') as (-> & -> & ->). done.
Qed.

(** A member's name and its colon. *)
Definition name_part (raw : list byte) (ws : list byte) : list byte := QUOTE :: raw ++ QUOTE :: ws ++ [x3a].

Lemma name_part_app raw ws y : name_part raw ws ++ y = QUOTE :: raw ++ QUOTE :: ws ++ x3a :: y.
Proof. unfold name_part. cbn. rewrite <- app_assoc. cbn. by rewrite <- app_assoc. Qed.

Lemma colon_not_ws y : hd_is is_whitespace (x3a :: y) = false. Proof. done. Qed.

Lemma named_iff pre x ns seen st sts o r :
  utf8_chars x ->
  named (stand pre x (MkRFrame FkObject ns seen :: st) sts false) = (Ok o, r) <->
  exists raw name ws y, x = name_part raw ws ++ y /\ str_body raw name /\ (name ∉ ns) /\
    (length ns < limits.(max_keys_per_object))%nat /\ whitespace ws /\ o = Some name /\
    r = stand (pre ++ name_part raw ws) y (MkRFrame FkObject (ns ++ [name]) true :: st) sts false.
Proof.
  intros Hu. unfold named. rewrite here_stand. destruct x as [|b x]; cbn [head].
  { split; [done|]. intros (raw & name & ws & y & Hx & _). by rewrite name_part_app in Hx. }
  destruct (is_byte QUOTE b) eqn:Eq; cbn [negb].
  2:{ split; [done|]. intros (raw & name & ws & y & Hx & _). rewrite name_part_app in Hx. injection Hx as -> _. by rewrite (proj2 (is_byte_iff QUOTE QUOTE)) in Eq. }
  apply is_byte_iff in Eq as ->. apply utf8_chars_ascii in Hu; [|done]. unfold mbind. rewrite bind_ok. split.
  - intros (name & r1 & Hm & H). apply member_name_iff in Hm as (raw & post & -> & Hb & Hn & Hk & ->); [|done].
    destruct (whitespace_split post) as (ws & y & -> & Hw & Hy). unfold RM_bind, rm_set, rm_get, mret, RM_ret in H.
    rewrite skip_ws_stand, here_stand in H by done. destruct y as [|c y]; [done|]. cbn [head] in H.
    destruct (is_byte x3a c) eqn:Ec; [|done]. apply is_byte_iff in Ec as ->. injection H as <- <-.
    exists raw, name, ws, y. split_and!; try done; [by rewrite name_part_app|].
    pose proof (advance_stand ((pre ++ QUOTE :: raw ++ [QUOTE]) ++ ws) [x3a] y (MkRFrame FkObject (ns ++ [name]) true :: st) sts false 1 eq_refl) as Ha.
    cbn [app] in Ha. cbn [rd_at stand]. fold (stand ((pre ++ QUOTE :: raw ++ [QUOTE]) ++ ws) (x3a :: y) (MkRFrame FkObject (ns ++ [name]) true :: st) sts false).
    rewrite Ha. f_equal. unfold name_part. rewrite <- !app_assoc. cbn. by rewrite <- app_assoc.
  - intros (raw & name & ws & y & Hx & Hb & Hn & Hk & Hw & -> & ->). rewrite name_part_app in Hx. injection Hx as ->.
    eexists name, _. split; [apply member_name_iff; [done|]; by exists raw, (ws ++ x3a :: y)|].
    unfold RM_bind, rm_set, rm_get, mret, RM_ret. rewrite skip_ws_stand, here_stand by done. cbn [head].
    rewrite (proj2 (is_byte_iff x3a x3a)) by done.
    pose proof (advance_stand ((pre ++ QUOTE :: raw ++ [QUOTE]) ++ ws) [x3a] y (MkRFrame FkObject (ns ++ [name]) true :: st) sts false 1 eq_refl) as Ha.
    cbn [app] in Ha. cbn [rd_at stand]. fold (stand ((pre ++ QUOTE :: raw ++ [QUOTE]) ++ ws) (x3a :: y) (MkRFrame FkObject (ns ++ [name]) true :: st) sts false).
    rewrite Ha. do 2 f_equal. unfold name_part. rewrite <- !app_assoc. cbn. by rewrite <- app_assoc.
Qed.

(** ** Every text is accepted *)

Lemma deepen_deepen sts a b : deepen (deepen sts a) b = deepen sts (Nat.max a b).
Proof. unfold deepen, clip_depth. cbn. f_equal. lia. Qed.

Lemma deepen_known sts d : clip_depth d <= sts.(max_depth_seen) -> deepen sts d = sts.
Proof. unfold deepen. destruct sts. cbn. intros. f_equal. lia. Qed.

Lemma skip_loop_array f F pre x ns seen st sts :
  (0 < F <= S (length st))%nat ->
  skip_loop (S f) F (stand pre x (MkRFrame FkArray ns seen :: st) sts false) =
  match next_element (stand pre x (MkRFrame FkArray ns seen :: st) sts false) with
  | (Ok true, r) => match value r with (Ok _, r) => skip_loop f F r | (Err e, r) => (Err e, r) end
  | (Ok false, r) => skip_loop f F r
  | (Err e, r) => (Err e, r)
  end.
Proof.
  intros HF. cbn [skip_loop]. cbn [rd_stack stand]. fold (stand pre x (MkRFrame FkArray ns seen :: st) sts false).
  rewrite (proj2 (Nat.ltb_lt 0 F)), (proj2 (Nat.leb_le F _)) by (cbn; lia).
  change (frame_kind (stand pre x (MkRFrame FkArray ns seen :: st) sts false)) with (Some FkArray). cbn [andb].
  unfold mbind, RM_bind, mret, RM_ret. destruct (next_element _) as [[[|]|e] r]; [|done|done].
  by destruct (value r) as [[ev|e] r'].
Qed.

Lemma skip_loop_object f F pre x ns seen st sts :
  (0 < F <= S (length st))%nat ->
  skip_loop (S f) F (stand pre x (MkRFrame FkObject ns seen :: st) sts false) =
  match next_name (stand pre x (MkRFrame FkObject ns seen :: st) sts false) with
  | (Ok (Some _), r) => match value r with (Ok _, r) => skip_loop f F r | (Err e, r) => (Err e, r) end
  | (Ok None, r) => skip_loop f F r
  | (Err e, r) => (Err e, r)
  end.
Proof.
  intros HF. cbn [skip_loop]. cbn [rd_stack stand]. fold (stand pre x (MkRFrame FkObject ns seen :: st) sts false).
  rewrite (proj2 (Nat.ltb_lt 0 F)), (proj2 (Nat.leb_le F _)) by (cbn; lia).
  change (frame_kind (stand pre x (MkRFrame FkObject ns seen :: st) sts false)) with (Some FkObject). cbn [andb].
  unfold mbind, RM_bind, mret, RM_ret, fmap, RM_fmap, mbind, RM_bind, mret, RM_ret.
  destruct (next_name _) as [[[n|]|e] r]; cbn; [by destruct (value r) as [[ev|e] r']|done|done].
Qed.

Lemma value_first d raw j :
  value_g limits d raw j ->
  exists b y, raw = b :: y /\ is_whitespace b = false /\ is_byte x5d b = false /\ is_byte x2c b = false.
Proof.
  destruct 1 as [d raw j Hs|d raw l _ _|d raw l _ _]; [|by eexists _, _|by eexists _, _].
  destruct Hs as [| | |raw b m k Hn _|raw v _]; try by eexists _, _.
  destruct (number_first _ _ _ _ Hn) as (c & y & -> & Hc). exists c, y. split; [done|]. clear -Hc. by destruct c.
Qed.

Lemma ws_ends ws b y : whitespace ws -> punctuation b = true -> ends_number (ws ++ b :: y).
Proof. intros Hw Hb. destruct Hw as [|c ws Hc _]; cbn; [by left|by right]. Qed.

Lemma elements_end d rest l post : elements_g limits d true rest l -> ends_number (rest ++ post).
Proof.
  inversion 1; subst; rewrite <- app_assoc; cbn [app]; by apply ws_ends.
Qed.

Lemma members_end d n ns rest l post : members_g limits d (n :: ns) rest l -> ends_number (rest ++ post).
Proof.
  inversion 1 as [|? ? sep ? ? ? ? ? ? ? ? Hsep]; subst; rewrite <- app_assoc; cbn [app]; [by apply ws_ends|].
  inversion Hsep; subst. rewrite <- app_assoc. cbn [app]. by apply ws_ends.
Qed.

Lemma hd_ws_value d raw j y : value_g limits d raw j -> hd_is is_whitespace (raw ++ y) = false.
Proof. intros Hv. destruct (value_first _ _ _ Hv) as (b & z & -> & Hb & _). done. Qed.

Definition reads_value (d : nat) (raw : list byte) (j : J) : Prop := forall pre ws post st sts,
  length st = d -> clip_depth d <= sts.(max_depth_seen) -> valid_utf8 (pre ++ ws ++ raw ++ post) = true ->
  utf8_chars (raw ++ post) -> whitespace ws -> ends_number post ->
  utf8_chars post /\
  exists ev r1 n, value (stand pre (ws ++ raw ++ post) st sts false) = (Ok ev, r1) /\ (n < length raw)%nat /\
    let r2 := stand (pre ++ ws ++ raw) post st (deepen sts (d + jdepth j)) (bool_decide (st = [])) in
    if is_container ev
    then r1.(rd_bytes) = pre ++ ws ++ raw ++ post /\ length r1.(rd_stack) = S d /\
         forall F f, (0 < F <= S d)%nat -> skip_loop (n + f) F r1 = skip_loop f F r2
    else n = 0%nat /\ r1 = r2.

Definition finishes (frame : RFrame) (d : nat) (raw : list byte) (depth : nat) : Prop := forall pre post st sts,
  S (length st) = d -> clip_depth d <= sts.(max_depth_seen) -> valid_utf8 (pre ++ raw ++ post) = true -> utf8_chars (raw ++ post) ->
  utf8_chars post /\
  exists n, (n <= length raw)%nat /\ forall F f, (0 < F <= d)%nat ->
    skip_loop (n + f) F (stand pre (raw ++ post) (frame :: st) sts false) =
    skip_loop f F (stand (pre ++ raw) post st (deepen sts (d + depth)) (bool_decide (st = []))).

Definition elements_depth (l : list J) : nat := foldr (fun j m => Nat.max (jdepth j) m) 0%nat l.
Definition members_depth (l : list (str * J)) : nat := foldr (fun p m => Nat.max (jdepth p.2) m) 0%nat l.

(** A value in a container, then the rest of the container. *)
Lemma value_then_rest d raw j frame rest depth pre ws post st sts :
  reads_value d raw j -> finishes frame d rest depth -> S (length st) = d -> clip_depth d <= sts.(max_depth_seen) ->
  valid_utf8 (pre ++ ws ++ raw ++ rest ++ post) = true -> utf8_chars (raw ++ rest ++ post) -> whitespace ws ->
  ends_number (rest ++ post) ->
  utf8_chars post /\
  exists n, (n < length raw + length rest)%nat /\ forall F f, (0 < F <= d)%nat ->
    match value (stand pre (ws ++ raw ++ rest ++ post) (frame :: st) sts false) with
    | (Ok _, r) => skip_loop (n + f) F r
    | (Err e, r) => (Err e, r)
    end = skip_loop f F (stand (pre ++ ws ++ raw ++ rest) post st (deepen sts (d + Nat.max (jdepth j) depth)) (bool_decide (st = []))).
Proof.
  intros Hv Hr Hd Hc Hval Hu Hw He.
  destruct (Hv pre ws (rest ++ post) (frame :: st) sts) as (Hu' & ev & r1 & n1 & Hval1 & Hn1 & H1); try done.
  destruct (Hr (pre ++ ws ++ raw) post st (deepen sts (d + jdepth j))) as (Hu'' & n2 & Hn2 & H2); try done.
  { unfold deepen. cbn. lia. }
  { by rewrite <- !app_assoc. }
  split; [done|]. exists (n1 + n2)%nat. split; [lia|]. intros F f HF. rewrite Hval1.
  assert (Hskip : skip_loop (n1 + n2 + f) F r1 =
    skip_loop (n2 + f) F (stand (pre ++ ws ++ raw) (rest ++ post) (frame :: st) (deepen sts (d + jdepth j)) false)).
  { destruct (is_container ev); [|by destruct H1 as [-> ->]].
    destruct H1 as (_ & _ & H1). rewrite <- Nat.add_assoc. apply H1. lia. }
  rewrite Hskip, H2 by done. rewrite deepen_deepen, <- !app_assoc.
  by replace (Nat.max (d + jdepth j) (d + depth)) with (d + Nat.max (jdepth j) depth)%nat by lia.
Qed.

Lemma elements_close d seen ws ns : whitespace ws -> finishes (MkRFrame FkArray ns seen) d (ws ++ [x5d]) 0.
Proof.
  intros Hw pre post st sts Hd Hc Hv Hu. rewrite <- app_assoc in *. apply utf8_after_ws in Hu; [|done].
  split; [by apply utf8_chars_ascii in Hu|]. exists 1%nat. split; [rewrite length_app; cbn; lia|]. intros F f HF.
  cbn [Nat.add app]. rewrite skip_loop_array, next_element_turn by (done || lia). rewrite (proj2 (is_byte_iff x5d x5d)) by done.
  by rewrite Nat.add_0_r, (deepen_known sts), <- app_assoc by done.
Qed.

Lemma elements_more d ws raw j rest l ns :
  whitespace ws -> value_g limits d raw j -> reads_value d raw j -> elements_g limits d true rest l ->
  finishes (MkRFrame FkArray ns true) d rest (elements_depth l) ->
  finishes (MkRFrame FkArray ns false) d (ws ++ raw ++ rest) (elements_depth (j :: l)).
Proof.
  intros Hw Hg Hvr Heg Hr pre post st sts Hd Hc Hv Hu. rewrite <- !app_assoc in *. apply utf8_after_ws in Hu; [|done].
  destruct (value_then_rest d raw j _ rest _ (pre ++ ws) [] post st sts Hvr Hr Hd Hc) as (Hu' & n & Hn & Hl); try done.
  { by rewrite <- app_assoc. } { constructor. } { by eapply elements_end. }
  split; [done|]. exists (S n). split; [rewrite !length_app; lia|]. intros F f HF. cbn [Nat.add].
  rewrite skip_loop_array, next_element_turn by (done || lia || by eapply hd_ws_value).
  destruct (value_first _ _ _ Hg) as (b & y & -> & Hb & Hb1 & Hb2). cbn [app]. rewrite Hb1, Hb2. cbn [andb].
  specialize (Hl F f HF). cbn [app] in Hl. rewrite Hl. by rewrite <- !app_assoc.
Qed.

Lemma next_byte_value d raw j ws y b : whitespace ws -> value_g limits d raw j -> next_byte (ws ++ raw ++ y) = Some b ->
  is_byte x5d b = false /\ is_byte x2c b = false.
Proof.
  intros Hw Hg. rewrite next_byte_ws by (done || by eapply hd_ws_value).
  destruct (value_first _ _ _ Hg) as (c & z & -> & _ & H1 & H2). cbn. by intros [= <-].
Qed.

Lemma elements_next d ws1 ws2 raw j rest l ns :
  whitespace ws1 -> whitespace ws2 -> value_g limits d raw j -> reads_value d raw j -> elements_g limits d true rest l ->
  finishes (MkRFrame FkArray ns true) d rest (elements_depth l) ->
  finishes (MkRFrame FkArray ns true) d (ws1 ++ x2c :: ws2 ++ raw ++ rest) (elements_depth (j :: l)).
Proof.
  intros Hw1 Hw2 Hg Hvr Heg Hr pre post st sts Hd Hc Hv Hu.
  replace ((ws1 ++ x2c :: ws2 ++ raw ++ rest) ++ post) with (ws1 ++ x2c :: ws2 ++ raw ++ rest ++ post) in *
    by (rewrite <- app_assoc; cbn; by rewrite <- !app_assoc).
  apply utf8_after_ws in Hu; [|done]. apply utf8_chars_ascii in Hu; [|done]. apply utf8_after_ws in Hu; [|done].
  destruct (value_then_rest d raw j _ rest _ ((pre ++ ws1) ++ [x2c]) ws2 post st sts Hvr Hr Hd Hc) as (Hu' & n & Hn & Hl); try done.
  { by rewrite <- !app_assoc. } { by eapply elements_end. }
  split; [done|]. exists (S n). split; [rewrite length_app; cbn; rewrite !length_app; lia|]. intros F f HF. cbn [Nat.add].
  rewrite skip_loop_array, next_element_turn by (done || lia).
  change (is_byte x5d x2c) with false. change (is_byte x2c x2c) with true. cbn [andb negb].
  destruct (next_byte _) as [c|] eqn:Ec; [destruct (next_byte_value _ _ _ _ _ _ Hw2 Hg Ec) as [-> _]|];
    rewrite (Hl F f HF), <- !app_assoc; done.
Qed.

Definition object_frame (ns : list str) : RFrame := MkRFrame FkObject ns (negb (bool_decide (ns = []))).

Lemma members_close d ns ws : whitespace ws -> finishes (object_frame ns) d (ws ++ [x7d]) 0.
Proof.
  intros Hw pre post st sts Hd Hc Hv Hu. rewrite <- app_assoc in *. apply utf8_after_ws in Hu; [|done].
  split; [by apply utf8_chars_ascii in Hu|]. exists 1%nat. split; [rewrite length_app; cbn; lia|]. intros F f HF.
  cbn [Nat.add app]. unfold object_frame. rewrite skip_loop_object, next_name_turn by (done || lia).
  rewrite (proj2 (is_byte_iff x7d x7d)) by done. by rewrite Nat.add_0_r, (deepen_known sts), <- app_assoc by done.
Qed.

Lemma next_name_separated pre sep z ns st sts :
  separator ns sep ->
  next_name (stand pre (sep ++ QUOTE :: z) (object_frame ns :: st) sts false) =
  named (stand (pre ++ sep) (QUOTE :: z) (object_frame ns :: st) sts false).
Proof.
  intros Hs. destruct Hs as [ws Hw|name names ws1 ws2 Hw1 Hw2].
  - unfold object_frame. rewrite next_name_turn by done. done.
  - unfold object_frame. rewrite <- app_assoc. cbn [app]. rewrite next_name_turn by done. rewrite bool_decide_eq_false_2 by done. cbn [negb].
    change (is_byte x7d x2c) with false. change (is_byte x2c x2c) with true. cbn [andb].
    rewrite skip_ws_stand by done. cbn [rd_bytes rd_at stand]. rewrite byte_at_here. cbn [hd_is]. change (is_byte x7d QUOTE) with false. cbv iota.
    f_equal. apply stand_eq; [|rewrite !length_app; cbn; lia]. rewrite <- !app_assoc. done.
Qed.

Lemma separator_utf8 ns sep y : separator ns sep -> utf8_chars (sep ++ y) -> utf8_chars y.
Proof.
  destruct 1 as [ws Hw|name names ws1 ws2 Hw1 Hw2]; [by apply utf8_after_ws|].
  rewrite <- app_assoc. cbn [app]. intros Hu. apply utf8_after_ws in Hu; [|done]. apply utf8_chars_ascii in Hu; [|done].
  by apply utf8_after_ws in Hu.
Qed.

Lemma name_part_utf8 raw name ws y : str_body raw name -> whitespace ws -> utf8_chars (name_part raw ws ++ y) -> utf8_chars y.
Proof.
  intros Hb Hw Hu. rewrite name_part_app in Hu. apply utf8_chars_ascii in Hu; [|done].
  apply (utf8_chars_split _ _ _ quote_ascii) in Hu as [_ Hu]. apply utf8_chars_ascii in Hu; [|done].
  apply utf8_after_ws in Hu; [|done]. by apply utf8_chars_ascii in Hu.
Qed.

Lemma object_frame_snoc ns name : MkRFrame FkObject (ns ++ [name]) true = object_frame (ns ++ [name]).
Proof. unfold object_frame. rewrite bool_decide_eq_false_2; [done|]. by destruct ns. Qed.

Lemma members_more d ns sep rn name ws1 ws2 raw j rest l :
  separator ns sep -> str_body rn name -> name ∉ ns -> (length ns < limits.(max_keys_per_object))%nat ->
  whitespace ws1 -> whitespace ws2 -> value_g limits d raw j -> reads_value d raw j ->
  members_g limits d (ns ++ [name]) rest l -> finishes (object_frame (ns ++ [name])) d rest (members_depth l) ->
  finishes (object_frame ns) d (sep ++ QUOTE :: rn ++ QUOTE :: ws1 ++ x3a :: ws2 ++ raw ++ rest) (members_depth ((name, j) :: l)).
Proof.
  intros Hsep Hb Hn Hk Hw1 Hw2 Hg Hvr Hmg Hr pre post st sts Hd Hc Hv Hu.
  assert (Hx : (sep ++ QUOTE :: rn ++ QUOTE :: ws1 ++ x3a :: ws2 ++ raw ++ rest) ++ post =
    sep ++ name_part rn ws1 ++ ws2 ++ raw ++ rest ++ post).
  { rewrite name_part_app, <- app_assoc. cbn. rewrite <- app_assoc. cbn. rewrite <- app_assoc. cbn. by rewrite <- !app_assoc. }
  assert (Hlen : (length (raw ++ rest) < length (sep ++ QUOTE :: rn ++ QUOTE :: ws1 ++ x3a :: ws2 ++ raw ++ rest))%nat).
  { repeat (rewrite length_app || cbn [length]). lia. }
  rewrite Hx in *. pose proof (separator_utf8 _ _ _ Hsep Hu) as Hu1. pose proof (name_part_utf8 _ _ _ _ Hb Hw1 Hu1) as Hu2.
  apply utf8_after_ws in Hu2 as Hu3; [|done].
  destruct (value_then_rest d raw j _ rest _ ((pre ++ sep) ++ name_part rn ws1) ws2 post st sts Hvr Hr Hd Hc) as (Hu' & n & Hn' & Hl); try done.
  { by rewrite <- !app_assoc. } { destruct (ns ++ [name]) eqn:E; [by destruct ns|]. by eapply members_end. }
  split; [done|]. exists (S n). split; [rewrite length_app in Hlen; lia|]. intros F f HF. cbn [Nat.add].
  unfold object_frame at 1. rewrite skip_loop_object by lia. fold (object_frame ns).
  rewrite name_part_app, next_name_separated by done. rewrite <- name_part_app.
  assert (Hnamed : named (stand (pre ++ sep) (name_part rn ws1 ++ ws2 ++ raw ++ rest ++ post) (object_frame ns :: st) sts false) =
    (Ok (Some name), stand ((pre ++ sep) ++ name_part rn ws1) (ws2 ++ raw ++ rest ++ post) (MkRFrame FkObject (ns ++ [name]) true :: st) sts false)).
  { apply named_iff; [done|]. by exists rn, name, ws1, (ws2 ++ raw ++ rest ++ post). }
  rewrite Hnamed, object_frame_snoc, (Hl F f HF). f_equal. apply stand_eq.
  - by rewrite <- !app_assoc, <- Hx, <- !app_assoc.
  - rewrite <- !app_assoc. f_equal. f_equal. rewrite name_part_app. done.
Qed.

(** Every derivation of the grammar is read. *)
Lemma grammar_read :
  (forall d raw j, value_g limits d raw j -> reads_value d raw j) /\
  (forall d seen raw l, elements_g limits d seen raw l -> forall ns, finishes (MkRFrame FkArray ns seen) d raw (elements_depth l)) /\
  (forall d ns raw l, members_g limits d ns raw l -> finishes (object_frame ns) d raw (members_depth l)).
Proof.
  apply grammar_ind.
  - intros d raw j Hs pre ws post st sts Hd Hc Hv Hu Hw He. split; [by eapply scalar_utf8|].
    eexists _, _, 0%nat. split; [by apply value_scalar|]. split.
    { destruct raw; [|cbn; lia]. by inversion Hs as [| | |? ? ? ? Hn|]; destruct (number_first _ _ _ _ Hn) as (? & ? & ? & _). }
    cbn zeta. rewrite (scalar_not_container _ _ Hs). split; [done|]. replace (jdepth j) with 0%nat by (by destruct Hs).
    by rewrite Nat.add_0_r, deepen_known.
  - intros d raw l Hdep Hg IH pre ws post st sts Hd Hc Hv Hu Hw He. subst d.
    pose proof (IH [] (pre ++ ws ++ [x5b]) post st (deepen sts (S (length st)))) as H. destruct H as (Hu' & n & Hn & Hl); try done.
    { unfold deepen. cbn. lia. } { by rewrite <- !app_assoc. } { cbn in Hu. by apply utf8_chars_ascii in Hu. }
    split; [done|]. eexists _, _, n. split; [by apply (value_opens pre ws FkArray)|]. split; [cbn; lia|]. cbn zeta. cbn [is_container start_of].
    split; [cbn [rd_bytes stand]; by rewrite <- !app_assoc|]. split; [done|]. intros F f HF. rewrite Hl by done. rewrite deepen_deepen, <- !app_assoc.
    cbn [jdepth app]. fold (elements_depth l). by replace (Nat.max _ _) with (length st + S (elements_depth l))%nat by lia.
  - intros d raw l Hdep Hg IH pre ws post st sts Hd Hc Hv Hu Hw He. subst d.
    pose proof (IH (pre ++ ws ++ [x7b]) post st (deepen sts (S (length st)))) as H. destruct H as (Hu' & n & Hn & Hl); try done.
    { unfold deepen. cbn. lia. } { by rewrite <- !app_assoc. } { cbn in Hu. by apply utf8_chars_ascii in Hu. }
    split; [done|]. eexists _, _, n. split; [by apply (value_opens pre ws FkObject)|]. split; [cbn; lia|]. cbn zeta. cbn [is_container start_of].
    split; [cbn [rd_bytes stand]; by rewrite <- !app_assoc|]. split; [done|]. intros F f HF. change (MkRFrame FkObject [] false) with (object_frame []). rewrite Hl by done.
    rewrite deepen_deepen, <- !app_assoc.
    cbn [jdepth app]. fold (members_depth l). by replace (Nat.max _ _) with (length st + S (members_depth l))%nat by lia.
  - intros d seen ws Hw ns. by apply elements_close.
  - intros d ws raw j rest l Hw Hg IHv He IHe ns. by apply elements_more.
  - intros d ws1 ws2 raw j rest l Hw1 Hw2 Hg IHv He IHe ns. by apply elements_next.
  - intros d ns ws Hw. by apply members_close.
  - intros d ns sep rn name ws1 ws2 raw j rest l Hsep Hb Hn Hk Hw1 Hw2 Hg IHv Hm IHm. by apply members_more.
Qed.

(** ** What is accepted is a text *)

Ltac reassoc := repeat (progress (rewrite <- ?app_assoc; cbn [app open_byte])).
Ltac lens := repeat (rewrite length_app || cbn [length app open_byte]); lia.

(** [raw] completes the open containers, the innermost first, inside [d0] others. *)
Inductive closing (d0 : nat) : list RFrame -> list byte -> Prop :=
  | cl_nil : closing d0 [] []
  | cl_array ns seen frs raw raws l :
      elements_g limits (S (length frs) + d0) seen raw l -> closing d0 frs raws ->
      closing d0 (MkRFrame FkArray ns seen :: frs) (raw ++ raws)
  | cl_object ns seen frs raw raws l :
      seen = negb (bool_decide (ns = [])) -> members_g limits (S (length frs) + d0) ns raw l -> closing d0 frs raws ->
      closing d0 (MkRFrame FkObject ns seen :: frs) (raw ++ raws).

Definition frame_ok (f : RFrame) : Prop := f.(fk_kind) = FkObject -> f.(fk_seen_any) = negb (bool_decide (f.(fk_names) = [])).

Definition loop_ok (fuel : nat) (base : list RFrame) : Prop := forall frs pre x sts done r,
  Forall frame_ok frs -> (frs <> [] -> done = false) -> valid_utf8 (pre ++ x) = true -> utf8_chars x ->
  skip_loop fuel (S (length base)) (stand pre x (frs ++ base) sts done) = (Ok tt, r) ->
  exists raw post sts', x = raw ++ post /\ closing (length base) frs raw /\ utf8_chars post /\
    r = stand (pre ++ raw) post base sts' (if bool_decide (frs = []) then done else bool_decide (base = [])).

(** A value read inside the frames, and what the loop then reads. *)
Lemma value_then_closing fuel base f frs pre x sts ev r1 r :
  loop_ok fuel base -> Forall frame_ok (f :: frs) -> valid_utf8 (pre ++ x) = true -> utf8_chars x ->
  value (stand pre x (f :: frs ++ base) sts false) = (Ok ev, r1) -> skip_loop fuel (S (length base)) r1 = (Ok tt, r) ->
  exists ws raw j rest post sts', x = ws ++ raw ++ rest ++ post /\ whitespace ws /\
    value_g limits (S (length frs) + length base) raw j /\ closing (length base) (f :: frs) rest /\ utf8_chars post /\
    r = stand (pre ++ ws ++ raw ++ rest) post base sts' (bool_decide (base = [])).
Proof.
  intros IH Hf Hv Hu Hval Hloop. destruct (value_sound _ _ _ _ _ _ Hv Hu Hval) as (ws & raw & y & -> & Hw & _ & Huy & Ha).
  assert (Hvy : valid_utf8 ((pre ++ ws ++ raw) ++ y) = true) by (by rewrite <- !app_assoc).
  destruct Ha as [(j & Hs & -> & ->)|(k & -> & -> & Hd & ->)].
  - destruct (IH (f :: frs) (pre ++ ws ++ raw) y sts false r) as (rest & post & sts' & -> & Hc & Hup & ->); try done.
    exists ws, raw, j, rest, post, sts'. split_and!; try done; [by constructor|by rewrite <- !app_assoc].
  - destruct (IH (MkRFrame k [] false :: f :: frs) (pre ++ ws ++ [open_byte k]) y (deepen sts (S (length (f :: frs ++ base)))) false r) as (rest & post & sts' & -> & Hc & Hup & ->); try done.
    { by constructor. }
    cbn [length] in Hd. rewrite length_app in Hd.
    inversion Hc as [|? ? ? raw0 rest0 l He Hc'|? ? ? raw0 rest0 l Hseen Hm Hc']; subst.
    + exists ws, (x5b :: raw0), (JArr l), rest0, post, sts'. split_and!; try done; [cbn; by rewrite <- app_assoc|by apply vg_array|].
      apply stand_eq; [by reassoc|by lens].
    + exists ws, (x7b :: raw0), (JObj l), rest0, post, sts'. split_and!; try done; [cbn; by rewrite <- app_assoc|by apply vg_object|].
      apply stand_eq; [by reassoc|by lens].
Qed.

Lemma loop_ok_array fuel base ns seen frs pre x sts r :
  loop_ok fuel base -> Forall frame_ok frs -> valid_utf8 (pre ++ x) = true -> utf8_chars x ->
  skip_loop (S fuel) (S (length base)) (stand pre x ((MkRFrame FkArray ns seen :: frs) ++ base) sts false) = (Ok tt, r) ->
  exists raw post sts', x = raw ++ post /\ closing (length base) (MkRFrame FkArray ns seen :: frs) raw /\ utf8_chars post /\
    r = stand (pre ++ raw) post base sts' (bool_decide (base = [])).
Proof.
  intros IH Hfs Hv Hu. destruct (whitespace_split x) as (ws & y & -> & Hw & Hy). cbn [app].
  rewrite skip_loop_array, next_element_turn by (done || rewrite length_app; lia).
  apply utf8_after_ws in Hu; [|done]. destruct y as [|b z]; [done|]. cbv zeta.
  destruct (is_byte x5d b) eqn:E1.
  { apply is_byte_iff in E1 as ->. apply utf8_chars_ascii in Hu; [|done]. intros Hl.
    apply IH in Hl as (raw & post & sts' & -> & Hc & Hup & ->); [|done|by destruct frs|by rewrite <- !app_assoc|done].
    exists ((ws ++ [x5d]) ++ raw), post, sts'. split_and!; [by rewrite <- !app_assoc| |done|].
    { eapply cl_array; [by constructor|done]. }
    rewrite !app_assoc. f_equal. destruct frs; [done|]. by rewrite bool_decide_eq_false_2. }
  assert (Hf' : Forall frame_ok (MkRFrame FkArray ns true :: frs)) by (by constructor).
  destruct (is_byte x2c b && negb seen) eqn:E2; [done|]. destruct (is_byte x2c b) eqn:E3.
  - apply is_byte_iff in E3 as ->. destruct seen; [|done]. apply utf8_chars_ascii in Hu; [|done].
    destruct (match next_byte z with Some c => is_byte x5d c | None => false end); [done|].
    assert (Hv' : valid_utf8 (((pre ++ ws) ++ [x2c]) ++ z) = true) by (by rewrite <- !app_assoc).
    destruct (value _) as [[ev|e] r1] eqn:Eval; [|done]. intros Hl.
    destruct (value_then_closing fuel base (MkRFrame FkArray ns true) frs _ _ _ _ _ _ IH Hf' Hv' Hu Eval Hl)
      as (ws2 & raw & j & rest & post & sts' & -> & Hw2 & Hg & Hc & Hup & ->).
    inversion Hc as [|? ? ? raw0 rest0 l He Hc'|]; subst. exists ((ws ++ x2c :: ws2 ++ raw ++ raw0) ++ rest0), post, sts'. split_and!; [| |done|].
    + by reassoc.
    + eapply cl_array; [by constructor|done].
    + f_equal. by reassoc.
  - destruct seen; [done|]. assert (Hv' : valid_utf8 ((pre ++ ws) ++ b :: z) = true) by (by rewrite <- !app_assoc).
    destruct (value _) as [[ev|e] r1] eqn:Eval; [|done]. intros Hl.
    destruct (value_then_closing fuel base (MkRFrame FkArray ns true) frs _ _ _ _ _ _ IH Hf' Hv' Hu Eval Hl)
      as (ws2 & raw & j & rest & post & sts' & Hx & Hw2 & Hg & Hc & Hup & ->). rewrite Hx in *.
    inversion Hc as [|? ? ? raw0 rest0 l He Hc'|]; subst. exists (((ws ++ ws2) ++ raw ++ raw0) ++ rest0), post, sts'. split_and!; [| |done|].
    + by rewrite <- !app_assoc.
    + eapply cl_array; [constructor; [by apply Forall_app|done|done]|done].
    + f_equal. by rewrite <- !app_assoc.
Qed.

Lemma next_name_sound pre x ns st sts o r :
  utf8_chars x -> next_name (stand pre x (object_frame ns :: st) sts false) = (Ok o, r) ->
  (exists ws z, x = ws ++ x7d :: z /\ whitespace ws /\ utf8_chars z /\ o = None /\
     r = stand (pre ++ ws ++ [x7d]) z st sts (bool_decide (st = []))) \/
  (exists sep y, x = sep ++ y /\ separator ns sep /\ utf8_chars y /\
     named (stand (pre ++ sep) y (object_frame ns :: st) sts false) = (Ok o, r)).
Proof.
  intros Hu. destruct (whitespace_split x) as (ws & y & -> & Hw & Hy). apply utf8_after_ws in Hu; [|done].
  unfold object_frame. rewrite next_name_turn by done. cbv zeta. destruct y as [|b z]; [done|].
  destruct (is_byte x7d b) eqn:E1.
  { apply is_byte_iff in E1 as ->. apply utf8_chars_ascii in Hu; [|done]. intros [= <- <-]. left. exists ws, z.
    split_and!; try done. by rewrite <- app_assoc. }
  destruct (bool_decide (ns = [])) eqn:En; cbn [negb]; breflect.
  - subst ns. rewrite andb_true_r. destruct (is_byte x2c b); [done|]. intros H. right. exists ws, (b :: z). split_and!; try done. by constructor.
  - rewrite andb_false_r. destruct (is_byte x2c b) eqn:E2; [|done]. apply is_byte_iff in E2 as ->. apply utf8_chars_ascii in Hu; [|done].
    destruct (whitespace_split z) as (ws2 & y & -> & Hw2 & Hy2). apply utf8_after_ws in Hu; [|done]. rewrite skip_ws_stand by done.
    destruct (byte_at _ _ _); [done|]. intros H. right. exists (ws ++ x2c :: ws2), y. split_and!; [by reassoc| |done|].
    + destruct ns; [done|]. by constructor.
    + rewrite <- H. f_equal. apply stand_eq; [by reassoc|by lens].
Qed.

Lemma loop_ok_object fuel base ns frs pre x sts r :
  loop_ok fuel base -> Forall frame_ok frs -> valid_utf8 (pre ++ x) = true -> utf8_chars x ->
  skip_loop (S fuel) (S (length base)) (stand pre x ((object_frame ns :: frs) ++ base) sts false) = (Ok tt, r) ->
  exists raw post sts', x = raw ++ post /\ closing (length base) (object_frame ns :: frs) raw /\ utf8_chars post /\
    r = stand (pre ++ raw) post base sts' (bool_decide (base = [])).
Proof.
  intros IH Hfs Hv Hu. cbn [app]. unfold object_frame at 1. rewrite skip_loop_object by (rewrite length_app; lia). fold (object_frame ns).
  destruct (next_name _) as [[o|e] r0] eqn:En; [|done].
  apply next_name_sound in En as [(ws & z & -> & Hw & Huz & -> & ->)|(sep & y & -> & Hsep & Huy & Hn)]; [| |done].
  - intros Hl. apply IH in Hl as (raw & post & sts' & -> & Hc & Hup & ->); [|done|by destruct frs|by reassoc|done].
    exists ((ws ++ [x7d]) ++ raw), post, sts'. split_and!; [by reassoc| |done|].
    { eapply cl_object; [done|by constructor|done]. }
    rewrite <- !app_assoc. f_equal. destruct frs; [done|]. by rewrite bool_decide_eq_false_2.
  - apply named_iff in Hn as (rn & name & ws1 & z & -> & Hb & Hnew & Hk & Hw1 & -> & ->); [|done]. rewrite object_frame_snoc.
    destruct (value _) as [[ev|e] r1] eqn:Eval; [|done]. intros Hl.
    assert (Hf' : Forall frame_ok (object_frame (ns ++ [name]) :: frs)) by (by constructor).
    assert (Hv' : valid_utf8 (((pre ++ sep) ++ name_part rn ws1) ++ z) = true) by (by rewrite <- !app_assoc).
    apply (name_part_utf8 _ _ _ _ Hb Hw1) in Huy.
    destruct (value_then_closing fuel base _ frs _ _ _ _ _ _ IH Hf' Hv' Huy Eval Hl)
      as (ws2 & raw & j & rest & post & sts' & -> & Hw2 & Hg & Hc & Hup & ->).
    inversion Hc as [| |? ? ? raw0 rest0 l Hseen Hm Hc']; subst.
    exists ((sep ++ QUOTE :: rn ++ QUOTE :: ws1 ++ x3a :: ws2 ++ raw ++ raw0) ++ rest0), post, sts'. split_and!; [| |done|].
    + rewrite name_part_app. by reassoc.
    + eapply cl_object; [done|by eapply mg_member|done].
    + f_equal. unfold name_part. by reassoc.
Qed.

Lemma skip_loop_sound fuel base : loop_ok fuel base.
Proof.
  induction fuel as [|fuel IH]; intros frs pre x sts dn r Hf Hdone Hv Hu; [discriminate|]. destruct frs as [|f frs].
  { cbn [app skip_loop]. rewrite (proj2 (Nat.leb_gt (S (length base)) _)), andb_false_r by (cbn; lia).
    intros [= <-]. exists [], x, sts. split_and!; [done|constructor|done|]. by rewrite app_nil_r. }
  rewrite (Hdone ltac:(done)). apply Forall_cons in Hf as [Hf Hfs]. rewrite bool_decide_eq_false_2 by done. destruct f as [[] ns seen].
  - by apply loop_ok_array.
  - pose proof (Hf eq_refl) as Hs. cbn in Hs. subst seen. by apply (loop_ok_object fuel base ns).
Qed.

(** ** A whole line *)

Lemma finish_iff pre post sts dn s : finish (stand pre post [] sts dn) = Ok s <-> dn = true /\ whitespace post /\ s = sts.
Proof.
  unfold finish. cbn [rd_done rd_bytes rd_at rd_line rd_stats stand]. destruct dn; cbn [negb]; [|split; [done|by intros [? _]]].
  destruct (whitespace_split post) as (ws & y & -> & Hw & Hy). rewrite skip_whitespace_here by done.
  destruct (_ <? _)%nat eqn:E; breflect.
  - split; [done|]. intros (_ & Hws & _). rewrite !length_app in E. destruct y as [|b y]; [cbn in E; lia|].
    apply Forall_app in Hws as [_ Hws]. apply Forall_cons in Hws as [Hb _]. cbn in Hy. congruence.
  - rewrite !length_app in E. destruct y; [|cbn in E; lia]. rewrite app_nil_r.
    split; [intros [= <-]; done|]. by intros (_ & _ & ->).
Qed.

Lemma value_checks bytes ev r : value (Reader_new bytes limits line) = (Ok ev, r) -> valid_utf8 bytes = true.
Proof.
  unfold value, mbind. intros H. apply bind_ok in H as ([] & r1 & H & _). cbn in H. unfold rm_lift in H.
  injection H as H _. unfold check_utf8 in H. destruct (from_utf8 bytes) as [[]|[v i]] eqn:E; [|done]. by apply from_utf8_valid.
Qed.

Lemma skip_rest_top k pre x st sts :
  skip_rest (start_of k) (stand pre x st sts false) = skip_loop (S (length (pre ++ x))) (length st) (stand pre x st sts false).
Proof. by destruct k. Qed.

Lemma clip_max n : Z.max 0 (clip_depth n) = clip_depth n.
Proof. unfold clip_depth, u32_max. lia. Qed.

Lemma text_walks bytes j :
  json_text limits bytes j -> walk_document bytes limits line = Ok (MkStats 0 (clip_depth (jdepth j))).
Proof.
  intros (Hv & ws1 & raw & ws2 & -> & Hw1 & Hw2 & Hg). unfold walk_document.
  assert (He : ends_number ws2) by (destruct Hw2; [done|by right]).
  assert (Hu : utf8_chars (raw ++ ws2)) by (apply (utf8_after_ws ws1); [done|by apply valid_utf8_chars]).
  destruct (proj1 grammar_read 0%nat raw j Hg [] ws1 ws2 [] (MkStats 0 0)) as (_ & ev & r1 & n & Hval & Hn & Hr); try done.
  change (Reader_new (ws1 ++ raw ++ ws2) limits line) with (stand [] (ws1 ++ raw ++ ws2) [] (MkStats 0 0) false).
  unfold mbind, RM_bind. rewrite Hval. destruct (is_container ev) eqn:Ec.
  - destruct Hr as (Hb & Hs & Hr). unfold skip_rest. rewrite Ec. cbn [negb]. rewrite Hb, Hs. cbn [app].
    replace (S (length (ws1 ++ raw ++ ws2))) with (n + S (length (ws1 ++ raw ++ ws2) - n))%nat by (rewrite !length_app; lia).
    rewrite Hr by lia. cbn [skip_loop rd_stack stand length Nat.leb andb Nat.ltb]. cbn [mbind result_bind].
    fold (stand ([] ++ ws1 ++ raw) ws2 [] (deepen (MkStats 0 0) (0 + jdepth j)) (bool_decide (@nil RFrame = []))).
    apply finish_iff. split_and!; [done|done|]. unfold deepen. cbn. by rewrite clip_max.
  - destruct Hr as [_ ->]. cbn [mret RM_ret mbind result_bind]. apply finish_iff. split_and!; [done|done|]. unfold deepen. cbn. by rewrite clip_max.
Qed.

Lemma walked_text bytes s : walk_document bytes limits line = Ok s -> exists j, json_text limits bytes j.
Proof.
  unfold walk_document, mbind, RM_bind. destruct (value _) as [[ev|e] r] eqn:Eval; [|done].
  pose proof (value_checks _ _ _ Eval) as Hv. pose proof (proj1 (valid_utf8_chars _) Hv) as Hu.
  change (Reader_new bytes limits line) with (stand [] bytes [] (MkStats 0 0) false) in Eval.
  destruct (value_sound [] bytes _ _ _ _ Hv Hu Eval) as (ws & raw & post & -> & Hw & _ & Hup & [(j & Hs & -> & ->)|(k & -> & -> & Hd & ->)]).
  - rewrite (scalar_not_container _ _ Hs). cbn [mret RM_ret result_bind]. intros Hf. apply finish_iff in Hf as (_ & Hw2 & _).
    exists j. split; [done|]. exists ws, raw, post. split_and!; try done. by constructor.
  - replace (is_container (start_of k)) with true by (by destruct k). rewrite skip_rest_top.
    destruct (skip_loop _ _ _) as [[[]|e] r] eqn:El; [|done]. cbn [result_bind]. intros Hf.
    apply (skip_loop_sound _ [] [MkRFrame k [] false]) in El as (raw & post' & sts' & -> & Hc & _ & ->); [|by repeat constructor|done|by reassoc|done].
    apply finish_iff in Hf as (_ & Hw2 & _).
    inversion Hc as [|? ? ? raw0 rest0 l He Hc'|? ? ? raw0 rest0 l Hseen Hm Hc']; subst; inversion Hc'; subst.
    + exists (JArr l). split; [done|]. exists ws, (x5b :: raw0), post'. split_and!; try done; [by reassoc|]. by apply vg_array.
    + exists (JObj l). split; [done|]. exists ws, (x7b :: raw0), post'. split_and!; try done; [by reassoc|]. by apply vg_object.
Qed.

Lemma walk_iff bytes s :
  walk_document bytes limits line = Ok s <-> exists j, json_text limits bytes j /\ s = MkStats 0 (clip_depth (jdepth j)).
Proof.
  split.
  - intros H. destruct (walked_text _ _ H) as [j Hj]. exists j. split; [done|]. apply text_walks in Hj. congruence.
  - intros (j & Hj & ->). by apply text_walks.
Qed.

(** C22 (the reader accepts exactly JSON). [validate] accepts a line exactly when it
    is one text of RFC 8259's grammar in UTF-8, with whitespace around it, whose
    containers, numbers and objects stay within the bounds and no object of which
    names a member twice; and [depth_of] is then how deep that text nests. *)
Theorem validate_is_the_grammar bytes :
  (validate bytes limits line = Ok tt <-> exists j, json_text limits bytes j) /\
  (forall n, depth_of bytes limits line = Ok n <-> exists j, json_text limits bytes j /\ n = clip_depth (jdepth j)).
Proof.
  unfold validate, depth_of. split.
  - split.
    + destruct (walk_document bytes limits line) as [s|] eqn:E; [|done]. intros _. apply walk_iff in E as (j & Hj & _). by exists j.
    + intros [j Hj]. apply text_walks in Hj. by rewrite Hj.
  - intros n. split.
    + destruct (walk_document bytes limits line) as [s|] eqn:E; [|done]. cbn. intros [= <-]. apply walk_iff in E as (j & Hj & ->). by exists j.
    + intros (j & Hj & ->). apply text_walks in Hj. by rewrite Hj.
Qed.

End Reading.
