(* ===== verification/Bus.v ===== *)
(** * Messages, time and the trace of a simulation
    ([trailryx-sim/src/bus.rs], [clock.rs], [trace.rs])

    The simulated bus with its faults, the simulated clock, and the trace whose
    equality between two runs is the determinism test. A message is delivered to
    the shard it was sent to, when it is due, in the order of its due step and
    sequence, and each one sent is accounted for. *)

From S2P Require Import Prelude Bytes Ids SimIo Completeness.

Abbreviation ShardId := Z (only parsing).

(** [Display]: [s] and the number. *)
Definition show_shard (s : ShardId) : str := lit "s" ++ decimal s.

(** ** The bus *)

Record BusFaults := MkBusFaults { drop_ppm : Z; duplicate_ppm : Z; max_delay_steps : Z }.

Definition BusFaults_NONE : BusFaults := MkBusFaults 0 0 0.
Definition BusFaults_HOSTILE : BusFaults := MkBusFaults 50000 50000 12.

Record BusStats := MkBusStats { bs_sent : Z; bs_delivered : Z; bs_dropped : Z; bs_duplicated : Z }.

(** A message in flight ([bus.rs]'s [Envelope]). *)
Record Queued (M : Type) := MkQueued { qd_due_step : Z; qd_seq : Z; qd_from : ShardId; qd_to : ShardId; qd_msg : M }.
Arguments MkQueued {M} _ _ _ _ _.
Arguments qd_due_step {M} _.
Arguments qd_seq {M} _.
Arguments qd_from {M} _.
Arguments qd_to {M} _.
Arguments qd_msg {M} _.

Record SimBus (M : Type) := MkSimBus {
  bus_queue : list (Queued M); bus_step : Z; bus_seq : Z; bus_rng : Z; bus_faults : BusFaults; bus_stats : BusStats }.
Arguments MkSimBus {M} _ _ _ _ _ _.
Arguments bus_queue {M} _.
Arguments bus_step {M} _.
Arguments bus_seq {M} _.
Arguments bus_rng {M} _.
Arguments bus_faults {M} _.
Arguments bus_stats {M} _.

Section Messages.
Context {M : Type}.
Implicit Types b : SimBus M.

Definition SimBus_new (seed : Z) (faults : BusFaults) : SimBus M := MkSimBus [] 0 0 seed faults (MkBusStats 0 0 0 0).

Definition bus_tick b : SimBus M :=
  MkSimBus b.(bus_queue) (b.(bus_step) + 1) b.(bus_seq) b.(bus_rng) b.(bus_faults) b.(bus_stats).

Definition bus_clear b : SimBus M :=
  let st := b.(bus_stats) in
  MkSimBus [] b.(bus_step) b.(bus_seq) b.(bus_rng) b.(bus_faults)
    (MkBusStats st.(bs_sent) st.(bs_delivered) (st.(bs_dropped) + Z.of_nat (length b.(bus_queue))) st.(bs_duplicated)).

(** One copy of a message. *)
Definition enqueue (from to : ShardId) (msg : M) b : SimBus M :=
  let '(delay, r) := if b.(bus_faults).(max_delay_steps) =? 0 then (0, b.(bus_rng))
                     else below (b.(bus_faults).(max_delay_steps) + 1) b.(bus_rng) in
  let seq := b.(bus_seq) + 1 in
  MkSimBus (b.(bus_queue) ++ [MkQueued (b.(bus_step) + delay) seq from to msg]) b.(bus_step) seq r b.(bus_faults) b.(bus_stats).

Definition bus_with (r : Z) (st : BusStats) b : SimBus M :=
  MkSimBus b.(bus_queue) b.(bus_step) b.(bus_seq) r b.(bus_faults) st.

Definition bus_send (from to : ShardId) (msg : M) b : SimBus M :=
  let st := b.(bus_stats) in
  let '(dropped, r) := chance_ppm b.(bus_faults).(drop_ppm) b.(bus_rng) in
  if dropped then bus_with r (MkBusStats (st.(bs_sent) + 1) st.(bs_delivered) (st.(bs_dropped) + 1) st.(bs_duplicated)) b
  else
    let '(twice, r) := chance_ppm b.(bus_faults).(duplicate_ppm) r in
    if twice then
      enqueue from to msg (enqueue from to msg
        (bus_with r (MkBusStats (st.(bs_sent) + 1) st.(bs_delivered) st.(bs_dropped) (st.(bs_duplicated) + 1)) b))
    else enqueue from to msg (bus_with r (MkBusStats (st.(bs_sent) + 1) st.(bs_delivered) st.(bs_dropped) st.(bs_duplicated)) b).

(** [(due_step, seq)] before [(due_step, seq)]. *)
Definition sooner (e cur : Queued M) : bool :=
  (e.(qd_due_step) <? cur.(qd_due_step)) || ((e.(qd_due_step) =? cur.(qd_due_step)) && (e.(qd_seq) <? cur.(qd_seq))).

Definition ready (me : ShardId) (step : Z) (e : Queued M) : bool :=
  negb (negb (e.(qd_to) =? me) || (step <? e.(qd_due_step))).

(** The scan for the message to deliver: its place in the queue. *)
Fixpoint best_from (me : ShardId) (step : Z) (i : nat) (best : option (nat * Queued M)) (q : list (Queued M)) : option (nat * Queued M) :=
  match q with
  | [] => best
  | e :: q =>
      let best := if negb (ready me step e) then best
                  else match best with
                       | Some (_, cur) => if sooner e cur then Some (i, e) else best
                       | None => Some (i, e)
                       end in
      best_from me step (S i) best q
  end.

Definition bus_recv (me : ShardId) b : option (ShardId * M) * SimBus M :=
  match best_from me b.(bus_step) 0 None b.(bus_queue) with
  | None => (None, b)
  | Some (idx, e) =>
      let st := b.(bus_stats) in
      (Some (e.(qd_from), e.(qd_msg)),
       MkSimBus (take idx b.(bus_queue) ++ drop (S idx) b.(bus_queue)) b.(bus_step) b.(bus_seq) b.(bus_rng) b.(bus_faults)
         (MkBusStats st.(bs_sent) (st.(bs_delivered) + 1) st.(bs_dropped) st.(bs_duplicated)))
  end.

(** How many messages are queued for each destination. *)
Definition depth_by_shard b : gmap Z nat :=
  fold_left (fun m e => <[e.(qd_to) := S (default O (m !! e.(qd_to)))]> m) b.(bus_queue) ∅.

Definition in_flight b : nat := length b.(bus_queue).

End Messages.

(** The trait. *)
Class Bus (M B : Type) := {
  send : ShardId -> ShardId -> M -> B -> B;
  recv : ShardId -> B -> option (ShardId * M) * B;
  flying : B -> nat }.

#[export] Instance SimBus_Bus {M} : Bus M (SimBus M) := {
  send := bus_send; recv := bus_recv; flying := in_flight }.

(** ** Clocks *)

Record SimClock := MkSimClock { mono_nanos : Z; wall_nanos : Z }.

Definition SimClock_new (start_wall : Z) : SimClock := MkSimClock 0 start_wall.

Definition clock_advance (nanos : Z) (c : SimClock) : SimClock :=
  MkSimClock (Z.min (c.(mono_nanos) + nanos) u64_max) (Z.min (c.(wall_nanos) + nanos) u64_max).

(** A jump of the wall clock alone. *)
Definition jump_wall (delta_nanos : Z) (c : SimClock) : SimClock :=
  MkSimClock c.(mono_nanos)
    (if 0 <=? delta_nanos then Z.min (c.(wall_nanos) + delta_nanos) u64_max
     else Z.max (c.(wall_nanos) - Z.abs delta_nanos) 0).

(** ** The trace *)

Record Trace := MkTrace { tr_buf : list byte; tr_lines : Z; tr_cap_bytes : Z; tr_truncated : bool }.

Definition Trace_new (cap_bytes : Z) : Trace := MkTrace [] 0 cap_bytes false.

(** A line: the kind, a space, the text of the arguments. *)
Definition trace_record (kind args : str) (t : Trace) : Trace :=
  if t.(tr_cap_bytes) <=? Z.of_nat (length t.(tr_buf)) then MkTrace t.(tr_buf) (t.(tr_lines) + 1) t.(tr_cap_bytes) true
  else MkTrace (t.(tr_buf) ++ kind ++ lit " " ++ args ++ [x0a]) (t.(tr_lines) + 1) t.(tr_cap_bytes) t.(tr_truncated).

(** FNV-1a over the bytes and the number of lines. *)
Definition fnv_step (h : Z) (b : byte) : Z := as_u64 (Z.lxor h (u8v b) * 0x100000001B3).

Definition trace_digest (t : Trace) : Z :=
  fold_left fnv_step (to_le_bytes 8 t.(tr_lines)) (fold_left fnv_step t.(tr_buf) 0xcbf29ce484222325).

(** ** What the bus promises *)

Section Promises.
Context {M : Type}.
Implicit Types b : SimBus M.

(** Every copy of a message sent was dropped, delivered, or is in flight. *)
Definition bus_accounts b : Prop :=
  b.(bus_stats).(bs_sent) + b.(bus_stats).(bs_duplicated) =
  b.(bus_stats).(bs_dropped) + b.(bus_stats).(bs_delivered) + Z.of_nat (in_flight b).

(** Sequence numbers are given out once. *)
Definition bus_numbered b : Prop :=
  NoDup (qd_seq <$> b.(bus_queue)) /\ Forall (fun e => e.(qd_seq) <= b.(bus_seq)) b.(bus_queue).

Definition bus_ok b : Prop := bus_accounts b /\ bus_numbered b.

(** No message in flight is for its sender. *)
Definition no_echo b : Prop := Forall (fun e => e.(qd_from) <> e.(qd_to)) b.(bus_queue).

(** A copy goes to the end of the queue under a fresh number. *)
Lemma enqueue_step from to msg b : 0 <= b.(bus_faults).(max_delay_steps) ->
  exists due r, b.(bus_step) <= due <= b.(bus_step) + b.(bus_faults).(max_delay_steps) /\
    enqueue from to msg b =
      MkSimBus (b.(bus_queue) ++ [MkQueued due (b.(bus_seq) + 1) from to msg]) b.(bus_step) (b.(bus_seq) + 1) r b.(bus_faults) b.(bus_stats).
Proof.
  intros Hm. unfold enqueue. destruct (Z.eqb_spec (max_delay_steps (bus_faults b)) 0) as [E|E].
  - exists (b.(bus_step) + 0), b.(bus_rng). split; [lia|done].
  - destruct (below _ _) as [d r] eqn:Eb. apply below_range in Eb as [H0 H1]; [|lia]. specialize (H1 ltac:(lia)).
    exists (b.(bus_step) + d), r. split; [lia|done].
Qed.

Lemma enqueue_numbered from to msg b : 0 <= b.(bus_faults).(max_delay_steps) ->
  bus_numbered b -> bus_numbered (enqueue from to msg b) /\ (enqueue from to msg b).(bus_faults) = b.(bus_faults).
Proof.
  intros Hm [Hn Hg]. destruct (enqueue_step from to msg b Hm) as (due & r & _ & ->). split; [|done]. split; cbn.
  - rewrite fmap_app. apply NoDup_app. split; [done|]. split; [|cbn; constructor; [by intros ?%elem_of_nil|constructor]].
    intros q Hq. cbn. intros Hq'%list_elem_of_singleton. apply list_elem_of_fmap in Hq as (e & -> & He).
    rewrite Forall_forall in Hg. specialize (Hg e He). lia.
  - apply Forall_app. split; [|by repeat constructor]. eapply Forall_impl; [exact Hg|]. cbn. intros; lia.
Qed.

(** What [send] changes: the queue grows by copies of the message, none, one or two. *)
Lemma send_queue from to msg b : 0 <= b.(bus_faults).(max_delay_steps) ->
  exists es, (bus_send from to msg b).(bus_queue) = b.(bus_queue) ++ es /\
    Forall (fun e => e.(qd_from) = from /\ e.(qd_to) = to /\ e.(qd_msg) = msg /\ b.(bus_step) <= e.(qd_due_step)) es /\
    (bus_send from to msg b).(bus_faults) = b.(bus_faults) /\
    (bus_accounts b -> bus_accounts (bus_send from to msg b)).
Proof.
  intros Hm. unfold bus_send. destruct (chance_ppm _ (bus_rng b)) as [dropped r]. destruct dropped.
  { exists []. split_and!; [by rewrite app_nil_r|constructor|done|]. unfold bus_accounts, in_flight. cbn. lia. }
  destruct (chance_ppm _ r) as [twice r']. destruct twice.
  - match goal with |- context [enqueue from to msg (enqueue from to msg ?x)] => set (b0 := x) end.
    destruct (enqueue_step from to msg b0 Hm) as (d1 & r1 & Hd1 & ->).
    match goal with |- context [enqueue from to msg ?x] => destruct (enqueue_step from to msg x Hm) as (d2 & r2 & Hd2 & ->) end.
    cbn in *. exists [MkQueued d1 (b.(bus_seq) + 1) from to msg; MkQueued d2 (b.(bus_seq) + 1 + 1) from to msg].
    split_and!; [by rewrite <- app_assoc|by repeat (apply Forall_cons; split; [cbn; split_and!; [done..|lia]|])|done|].
    unfold bus_accounts, in_flight. cbn. rewrite !length_app. cbn. lia.
  - match goal with |- context [enqueue from to msg ?x] => destruct (enqueue_step from to msg x Hm) as (d1 & r1 & Hd1 & ->) end.
    cbn in *. exists [MkQueued d1 (b.(bus_seq) + 1) from to msg].
    split_and!; [done|by apply Forall_cons; split; [cbn; split_and!; [done..|lia]|]|done|].
    unfold bus_accounts, in_flight. cbn. rewrite !length_app. cbn. lia.
Qed.

Lemma send_ok from to msg b : 0 <= b.(bus_faults).(max_delay_steps) -> bus_ok b -> bus_ok (bus_send from to msg b).
Proof.
  intros Hm [Ha Hn]. split; [destruct (send_queue from to msg b Hm) as (es & _ & _ & _ & H); by apply H|].
  unfold bus_send. destruct (chance_ppm _ (bus_rng b)) as [[] r]; [done|]. destruct (chance_ppm _ r) as [[] r'].
  - match goal with |- context [enqueue from to msg (enqueue from to msg ?x)] =>
      destruct (enqueue_numbered from to msg x Hm Hn) as [H1 E1]; set (b1 := enqueue from to msg x) in * end.
    apply enqueue_numbered; [|done]. rewrite E1. exact Hm.
  - by apply enqueue_numbered.
Qed.

(** The order of delivery is total on distinct sequence numbers. *)
Lemma sooner_iff (e c : Queued M) : sooner e c = true <->
  e.(qd_due_step) < c.(qd_due_step) \/ (e.(qd_due_step) = c.(qd_due_step) /\ e.(qd_seq) < c.(qd_seq)).
Proof. unfold sooner. rewrite orb_true_iff, andb_true_iff, Z.eqb_eq, !Z.ltb_lt. done. Qed.

Lemma not_sooner_iff (e c : Queued M) : sooner e c = false <->
  c.(qd_due_step) < e.(qd_due_step) \/ (e.(qd_due_step) = c.(qd_due_step) /\ c.(qd_seq) <= e.(qd_seq)).
Proof. rewrite <- not_true_iff_false, sooner_iff. lia. Qed.

Lemma ready_iff me step (e : Queued M) : ready me step e = true <-> e.(qd_to) = me /\ e.(qd_due_step) <= step.
Proof. unfold ready. rewrite negb_true_iff, orb_false_iff, negb_false_iff, Z.eqb_eq, Z.ltb_ge. done. Qed.

(** The scan finds the least of the ready messages, at its place. *)
Lemma best_from_spec me step (q : list (Queued M)) i best :
  match best_from me step i best q with
  | None => best = None /\ Forall (fun e => ready me step e = false) q
  | Some (j, e) =>
      (best = Some (j, e) \/ exists k, j = (i + k)%nat /\ q !! k = Some e /\ ready me step e = true) /\
      (forall j' c, best = Some (j', c) -> sooner c e = false) /\
      Forall (fun c => ready me step c = true -> sooner c e = false) q
  end.
Proof.
  assert (Hrefl : forall e : Queued M, sooner e e = false) by (intros; apply not_sooner_iff; lia).
  revert i best; induction q as [|e q IH]; intros i best; cbn [best_from].
  { destruct best as [[j e]|]; [|done]. split_and!; [by left| |done]. by intros ? ? [= -> ->]. }
  match goal with |- context [best_from me step (S i) ?x q] => specialize (IH (S i) x); set (nb := x) in * end.
  destruct (best_from me step (S i) nb q) as [[j w]|].
  - destruct IH as (Hw & Hb & Hq). assert (Hstep : forall k, (i + S k = S i + k)%nat) by (intros; lia).
    assert (Hlater : (exists k, j = (S i + k)%nat /\ q !! k = Some w /\ ready me step w = true) ->
      exists k, j = (i + k)%nat /\ (e :: q) !! k = Some w /\ ready me step w = true).
    { intros (k & -> & ? & ?). exists (S k). by rewrite Hstep. }
    subst nb. destruct (ready me step e) eqn:Er; cbn [negb] in *.
    + destruct best as [[j0 c0]|].
      * destruct (sooner e c0) eqn:Ec; split_and!.
        -- destruct Hw as [[= <- <-]|Hw]; right; [by exists 0%nat; rewrite Nat.add_0_r|by apply Hlater].
        -- intros ? ? [= <- <-]. specialize (Hb _ _ eq_refl). apply sooner_iff in Ec. rewrite not_sooner_iff in Hb |- *. lia.
        -- constructor; [intros _; by eapply Hb|done].
        -- destruct Hw as [Hw|Hw]; [by left|right; by apply Hlater].
        -- done.
        -- constructor; [|done]. intros _. specialize (Hb _ _ eq_refl). rewrite not_sooner_iff in Ec, Hb |- *. lia.
      * split_and!; [destruct Hw as [[= <- <-]|Hw]; right; [by exists 0%nat; rewrite Nat.add_0_r|by apply Hlater]|done|]. constructor; [intros _; by eapply Hb|done].
    + split_and!; [destruct Hw as [Hw|Hw]; [by left|right; by apply Hlater]|done|]. constructor; [by rewrite Er|done].
  - destruct IH as [Hn Hq]. subst nb. destruct (ready me step e) eqn:Er; cbn [negb] in *.
    + destruct best as [[? c]|]; [by destruct (sooner e c)|done].
    + split; [done|]. by constructor.
Qed.

Lemma recv_some me b from msg b' : bus_recv me b = (Some (from, msg), b') ->
  exists i e, b.(bus_queue) !! i = Some e /\ e.(qd_to) = me /\ e.(qd_from) = from /\ e.(qd_msg) = msg /\
    e.(qd_due_step) <= b.(bus_step) /\ b'.(bus_queue) = delete i b.(bus_queue) /\ b'.(bus_faults) = b.(bus_faults) /\
    b'.(bus_seq) = b.(bus_seq) /\ b'.(bus_step) = b.(bus_step) /\
    (forall c, c ∈ b.(bus_queue) -> ready me b.(bus_step) c = true -> sooner c e = false) /\
    (bus_accounts b -> bus_accounts b').
Proof.
  unfold bus_recv. pose proof (best_from_spec me b.(bus_step) b.(bus_queue) 0 None) as H.
  destruct (best_from _ _ _ _ _) as [[i e]|]; [|done]. intros [= <- <- <-].
  destruct H as ([?|(k & -> & Hk & Hr)] & _ & Hq); [done|]. apply ready_iff in Hr as [Ht Hd]. rewrite Nat.add_0_l.
  exists k, e. cbn. split_and!; try done; [by rewrite delete_take_drop| |].
  - intros c Hc. by rewrite Forall_forall in Hq; apply Hq.
  - unfold bus_accounts, in_flight. cbn. rewrite length_app, length_take, length_drop. apply lookup_lt_Some in Hk. lia.
Qed.

Lemma recv_none me b b' : bus_recv me b = (None, b') ->
  b' = b /\ Forall (fun e => ready me b.(bus_step) e = false) b.(bus_queue).
Proof.
  unfold bus_recv. pose proof (best_from_spec me b.(bus_step) b.(bus_queue) 0 None) as H.
  destruct (best_from _ _ _ _ _) as [[i e]|]; [done|]. intros [= <-]. by destruct H.
Qed.

End Promises.
