(* ===== verification/Shard.v ===== *)
(** * One shard ([trailryx-core/src/record.rs], [shard.rs], [trailryx-sim/src/lib.rs])

    The shard that owns a file, appends numbered records to it, flushes, and
    promises what was flushed; and the rule by which it takes its file up again.
    The capabilities it is passed are type classes: the disk is any [Io] that meets
    [IoLaws], so the promise is proved of every honest disk, through every crash. *)

From S2P Require Import Prelude Bytes Ids Wire SimIo Durability Completeness Assemble Bus.

(** ** The record on disk ([record.rs]) *)

Definition MAGIC : byte := xa7.
Definition RECORD_LEN : nat := 13.

(** CRC-32, bit by bit. *)
Definition crc32 (data : list byte) : Z := Z.lxor (fold_left crc_byte data u32_mask) u32_mask.

Definition encode (seq : Z) : list byte :=
  let head := MAGIC :: to_le_bytes 8 seq in head ++ to_le_bytes 4 (crc32 head).

Record Recovered := MkRecovered { count : Z; max_seq : Z; discarded_bytes : Z; out_of_order : bool }.

(** The walk from [off]; what it found, and where it stopped. *)
Fixpoint recover_loop (fuel : nat) (bytes : list byte) (off : nat) (out : Recovered) : Recovered * nat :=
  match fuel with
  | O => (out, off)
  | S fuel =>
      if (off + RECORD_LEN <=? length bytes)%nat then
        let rec := slice bytes off RECORD_LEN in
        if negb (bool_decide (rec !! 0%nat = Some MAGIC)) then (out, off)
        else
          let want := crc32 (take 9 rec) in
          let got := from_le_bytes (slice rec 9 4) in
          if negb (want =? got) then (out, off)
          else
            let seq := from_le_bytes (slice rec 1 8) in
            if negb (seq =? out.(max_seq) + 1) then (MkRecovered out.(count) out.(max_seq) out.(discarded_bytes) true, off)
            else recover_loop fuel bytes (off + RECORD_LEN) (MkRecovered (out.(count) + 1) seq out.(discarded_bytes) out.(out_of_order))
      else (out, off)
  end.

Definition recover (bytes : list byte) : Recovered :=
  let '(out, off) := recover_loop (length bytes) bytes 0 (MkRecovered 0 0 0 false) in
  MkRecovered out.(count) out.(max_seq) (Z.of_nat (length bytes - off)) out.(out_of_order).

(** ** The shard ([shard.rs]) *)

Inductive Msg := Ping (nonce : Z) | Pong (nonce : Z).

Record Shard := MkShard {
  sh_id : ShardId; sh_file : FileId; sh_written : Z; sh_acked : Z; sh_degraded : bool; sh_sync_every : Z; sh_since_sync : Z;
  sh_pings_sent : Z; sh_pongs_seen : Z; sh_recoveries : Z;
  sh_pending_seq : Z; sh_pending_buf : list byte; sh_pending_done : nat }.

(** The capabilities a shard's operation may use. *)
Record Parts (C R W B : Type) := MkParts { p_clock : C; p_rng : R; p_io : W; p_bus : B; p_trace : Trace }.
Arguments MkParts {C R W B}.
Arguments p_clock {C R W B}.
Arguments p_rng {C R W B}.
Arguments p_io {C R W B}.
Arguments p_bus {C R W B}.
Arguments p_trace {C R W B}.

(** [Display] of an [IoError]. *)
Definition show_io_error (e : IoError) : str :=
  match e with
  | NotFound => lit "not found" | NoSpace => lit "no space" | SyncFailed => lit "sync failed" | OtherIo s => s
  end.

(** Records with one field changed. *)
Definition with_pending (seq : Z) (buf : list byte) (k : nat) (s : Shard) : Shard :=
  MkShard s.(sh_id) s.(sh_file) s.(sh_written) s.(sh_acked) s.(sh_degraded) s.(sh_sync_every) s.(sh_since_sync)
    s.(sh_pings_sent) s.(sh_pongs_seen) s.(sh_recoveries) seq buf k.
Definition with_degraded (d : bool) (s : Shard) : Shard :=
  MkShard s.(sh_id) s.(sh_file) s.(sh_written) s.(sh_acked) d s.(sh_sync_every) s.(sh_since_sync)
    s.(sh_pings_sent) s.(sh_pongs_seen) s.(sh_recoveries) s.(sh_pending_seq) s.(sh_pending_buf) s.(sh_pending_done).
Definition with_marks (written acked since_sync : Z) (s : Shard) : Shard :=
  MkShard s.(sh_id) s.(sh_file) written acked s.(sh_degraded) s.(sh_sync_every) since_sync
    s.(sh_pings_sent) s.(sh_pongs_seen) s.(sh_recoveries) s.(sh_pending_seq) s.(sh_pending_buf) s.(sh_pending_done).
Definition with_talk (pings pongs recoveries : Z) (s : Shard) : Shard :=
  MkShard s.(sh_id) s.(sh_file) s.(sh_written) s.(sh_acked) s.(sh_degraded) s.(sh_sync_every) s.(sh_since_sync)
    pings pongs recoveries s.(sh_pending_seq) s.(sh_pending_buf) s.(sh_pending_done).

Section Actor.
Context {C R W B : Type} {RN : Rng R} {IO : Io W} {BUS : Bus Msg B}.
Implicit Types (s : Shard) (p : Parts C R W B).

Definition set_io (w : W) p : Parts C R W B := MkParts p.(p_clock) p.(p_rng) w p.(p_bus) p.(p_trace).
Definition set_rand (r : R) p : Parts C R W B := MkParts p.(p_clock) r p.(p_io) p.(p_bus) p.(p_trace).
Definition set_bus (b : B) p : Parts C R W B := MkParts p.(p_clock) p.(p_rng) p.(p_io) b p.(p_trace).
Definition trace (kind args : str) p : Parts C R W B :=
  MkParts p.(p_clock) p.(p_rng) p.(p_io) p.(p_bus) (trace_record kind args p.(p_trace)).

(** Take the file up: [None] is the broken [invariant!]. *)
Definition shard_recover s p : option (result IoError Recovered * Shard * Parts C R W B) :=
  match io_read_all s.(sh_file) p.(p_io) with
  | (Err e, w) => Some (Err e, s, set_io w p)
  | (Ok bytes, w) =>
      let p := set_io w p in
      let r := recover bytes in
      if r.(out_of_order) then None
      else
        let adopt p :=
          Some (Ok r,
            with_pending 0 s.(sh_pending_buf) 0
              (with_degraded false (with_marks r.(max_seq) (Z.min s.(sh_acked) r.(max_seq)) 0 s)), p) in
        if 0 <? r.(discarded_bytes) then
          let good := r.(count) * Z.of_nat RECORD_LEN in
          match io_truncate s.(sh_file) (Z.to_nat good) p.(p_io) with
          | (Err e, w) => Some (Err e, s, set_io w p)
          | (Ok _, w) =>
              adopt (trace (lit "truncate")
                (show_shard s.(sh_id) ++ lit " to=" ++ decimal good ++ lit " discarded=" ++ decimal r.(discarded_bytes)) (set_io w p))
          end
        else adopt p
  end.

Definition journal_name (id : ShardId) : str := lit "shard-" ++ decimal id ++ lit ".journal".

Definition shard_open (id : ShardId) (sync_every : Z) p : option (result IoError Shard * Parts C R W B) :=
  let name := journal_name id in
  match io_create name p.(p_io) with
  | (Err e, w) => Some (Err e, set_io w p)
  | (Ok file, w) =>
      let p := set_io w p in
      let s := MkShard id file 0 0 false sync_every 0 0 0 0 0 (replicate RECORD_LEN x00) 0 in
      '(res, s, p) ← shard_recover s p;
      match res with
      | Err e => Some (Err e, p)
      | Ok r =>
          Some (Ok s, trace (lit "open")
            (show_shard id ++ lit " file=" ++ name ++ lit " recovered=" ++ decimal r.(count) ++ lit " max_seq=" ++ decimal r.(max_seq)
             ++ lit " discarded=" ++ decimal r.(discarded_bytes)) p)
      end
  end.

(** The loop of [push_pending]: [Ok] when the record landed or the disk stalled. *)
Fixpoint push_loop (fuel : nat) (stalled : bool) s p : option (result IoError unit * Shard * Parts C R W B) :=
  if (s.(sh_pending_done) <? RECORD_LEN)%nat && negb stalled then
    match fuel with
    | O => None
    | S fuel =>
        match io_append s.(sh_file) (drop s.(sh_pending_done) s.(sh_pending_buf)) p.(p_io) with
        | (Ok O, w) => push_loop fuel true s (set_io w p)
        | (Ok n, w) => push_loop fuel stalled (with_pending s.(sh_pending_seq) s.(sh_pending_buf) (s.(sh_pending_done) + n) s) (set_io w p)
        | (Err NoSpace, w) =>
            push_loop fuel true (with_degraded true s)
              (trace (lit "nospace")
                (show_shard s.(sh_id) ++ lit " seq=" ++ decimal s.(sh_pending_seq) ++ lit " at byte " ++ decimal (Z.of_nat s.(sh_pending_done)))
                (set_io w p))
        | (Err e, w) => Some (Err e, s, set_io w p)
        end
    end
  else Some (Ok tt, s, p).

Definition push_pending s p : option (result IoError bool * Shard * Parts C R W B) :=
  if negb (0 <? s.(sh_pending_seq)) then None
  else
    '(res, s, p) ← push_loop RECORD_LEN false s p;
    match res with
    | Err e => Some (Err e, s, p)
    | Ok _ =>
        if (s.(sh_pending_done) <? RECORD_LEN)%nat then Some (Ok false, s, p)
        else
          let s := with_degraded false (with_marks s.(sh_pending_seq) s.(sh_acked) (s.(sh_since_sync) + 1) s) in
          Some (Ok true, with_pending 0 s.(sh_pending_buf) 0 s,
            trace (lit "write") (show_shard s.(sh_id) ++ lit " seq=" ++ decimal s.(sh_written)) p)
    end.

(** The flush of [tick]. *)
Definition sync_if_due s p : option (Shard * Parts C R W B) :=
  if s.(sh_sync_every) <=? s.(sh_since_sync) then
    match io_fsync s.(sh_file) p.(p_io) with
    | (Ok _, w) =>
        let before := s.(sh_acked) in
        let s := with_degraded false (with_marks s.(sh_written) s.(sh_written) 0 s) in
        if negb (before <=? s.(sh_acked)) then None
        else Some (s, trace (lit "sync") (show_shard s.(sh_id) ++ lit " acked=" ++ decimal s.(sh_acked)) (set_io w p))
    | (Err e, w) =>
        Some (with_degraded true s, trace (lit "syncfail") (show_shard s.(sh_id) ++ lit " err=" ++ show_io_error e) (set_io w p))
    end
  else Some (s, p).

(** The ping of [tick]. *)
Definition ping_a_peer (peers : list ShardId) s p : option (Shard * Parts C R W B) :=
  if negb (bool_decide (peers = [])) then
    let '(v, r) := rng_next p.(p_rng) in
    let p := set_rand r p in
    if v mod 4 =? 0 then
      let '(v, r) := rng_next p.(p_rng) in
      let p := set_rand r p in
      to ← peers !! Z.to_nat (v mod Z.of_nat (length peers));
      let nonce := s.(sh_written) in
      let p := set_bus (send s.(sh_id) to (Ping nonce) p.(p_bus)) p in
      Some (with_talk (s.(sh_pings_sent) + 1) s.(sh_pongs_seen) s.(sh_recoveries) s,
        trace (lit "ping") (show_shard s.(sh_id) ++ lit " -> " ++ show_shard to ++ lit " nonce=" ++ decimal nonce) p)
    else Some (s, p)
  else Some (s, p).

(** One unit of work. *)
Definition tick (peers : list ShardId) s p : option (result IoError unit * Shard * Parts C R W B) :=
  let s := if s.(sh_pending_seq) =? 0 then with_pending (s.(sh_written) + 1) (encode (s.(sh_written) + 1)) 0 s else s in
  '(res, s, p) ← push_pending s p;
  match res with
  | Err e => Some (Err e, s, p)
  | Ok _ =>
      '(s, p) ← sync_if_due s p;
      '(s, p) ← ping_a_peer peers s p;
      Some (Ok tt, s, p)
  end.

Definition on_msg (from : ShardId) (msg : Msg) s p : Shard * Parts C R W B :=
  match msg with
  | Ping nonce =>
      (s, trace (lit "pong") (show_shard s.(sh_id) ++ lit " -> " ++ show_shard from ++ lit " nonce=" ++ decimal nonce)
            (set_bus (send s.(sh_id) from (Pong nonce) p.(p_bus)) p))
  | Pong nonce =>
      (with_talk s.(sh_pings_sent) (s.(sh_pongs_seen) + 1) s.(sh_recoveries) s,
       trace (lit "pongrx") (show_shard s.(sh_id) ++ lit " from=" ++ show_shard from ++ lit " nonce=" ++ decimal nonce) p)
  end.

End Actor.

Definition note_recovery (s : Shard) : Shard := with_talk s.(sh_pings_sent) s.(sh_pongs_seen) (s.(sh_recoveries) + 1) s.

(** Bytes this shard believes it has on disk. *)
Definition expected_bytes (s : Shard) : Z := s.(sh_written) * Z.of_nat RECORD_LEN.

(** ** The stream of records *)

(** The first [n] records. *)
Definition encodes (n : nat) : list byte := concat ((fun i => encode (Z.of_nat i)) <$> seq 1 n).

(** The first [m] bytes of the stream. *)
Definition stream (m : nat) : list byte := take m (encodes m).

Lemma length_encode seq : length (encode seq) = RECORD_LEN.
Proof. unfold encode. by rewrite length_app, length_cons, !length_to_le_bytes. Qed.

Lemma encodes_S n : encodes (S n) = encodes n ++ encode (Z.of_nat (S n)).
Proof. unfold encodes. rewrite seq_S, fmap_app, concat_app. done. Qed.

Lemma length_encodes n : length (encodes n) = (RECORD_LEN * n)%nat.
Proof. induction n as [|n IH]; [done|]. rewrite encodes_S, length_app, IH, length_encode. unfold RECORD_LEN. lia. Qed.

Lemma encodes_prefix n k : (n <= k)%nat -> exists tl, encodes k = encodes n ++ tl.
Proof.
  induction 1 as [|k _ [tl IH]]; [by exists []; rewrite app_nil_r|].
  exists (tl ++ encode (Z.of_nat (S k))). by rewrite encodes_S, IH, app_assoc.
Qed.

Lemma stream_of n m : (m <= RECORD_LEN * n)%nat -> take m (encodes n) = stream m.
Proof.
  intros Hm. unfold stream. destruct (Nat.le_ge_cases n m) as [H|H].
  - destruct (encodes_prefix n m H) as [tl ->]. rewrite take_app_le; [done|]. by rewrite length_encodes.
  - destruct (encodes_prefix m n H) as [tl ->]. rewrite take_app_le; [done|]. rewrite length_encodes. unfold RECORD_LEN. lia.
Qed.

Lemma length_stream m : length (stream m) = m.
Proof. unfold stream. rewrite length_take, length_encodes. unfold RECORD_LEN. lia. Qed.

Lemma take_stream k m : (k <= m)%nat -> take k (stream m) = stream k.
Proof.
  intros Hk. unfold stream at 1. rewrite take_take, Nat.min_l by done. apply stream_of. unfold RECORD_LEN. lia.
Qed.

Lemma stream_record n k : (k <= RECORD_LEN)%nat ->
  stream (RECORD_LEN * n + k) = stream (RECORD_LEN * n) ++ take k (encode (Z.of_nat (S n))).
Proof.
  intros Hk. rewrite <- (stream_of (S n) (RECORD_LEN * n + k)) by (unfold RECORD_LEN in *; lia). rewrite encodes_S.
  rewrite take_app_ge by (rewrite length_encodes; lia). rewrite length_encodes.
  rewrite <- (stream_of n (RECORD_LEN * n)) by lia. rewrite (take_ge (encodes n)) by (by rewrite length_encodes).
  do 2 f_equal. lia.
Qed.

(** Appending the next bytes of the record under way. *)
Lemma stream_append n k j : (k + j <= RECORD_LEN)%nat ->
  stream (RECORD_LEN * n + k) ++ take j (drop k (encode (Z.of_nat (S n)))) = stream (RECORD_LEN * n + (k + j)).
Proof.
  intros H. rewrite !stream_record by lia. rewrite <- app_assoc. f_equal.
  by rewrite take_plus_slice.
Qed.

Lemma crc32_u32 l : u32_ok (crc32 l).
Proof. unfold crc32. exact (Wire.crc32_ok l). Qed.

(** A magic byte, eight bytes and four bytes, read by position. *)
Lemma record_reads a b : length a = 8%nat -> length b = 4%nat ->
  ((MAGIC :: a) ++ b) !! 0%nat = Some MAGIC /\ take 9 ((MAGIC :: a) ++ b) = MAGIC :: a /\
  slice ((MAGIC :: a) ++ b) 9 4 = b /\ slice ((MAGIC :: a) ++ b) 1 8 = a.
Proof.
  intros Ha Hb. split; [done|]. split; [rewrite take_app_le by (cbn; lia); by rewrite take_ge by (cbn; lia)|]. split.
  - unfold slice. rewrite drop_app_ge by (cbn; lia). replace (9 - length (MAGIC :: a))%nat with 0%nat by (cbn; lia).
    rewrite drop_0. by rewrite take_ge by lia.
  - unfold slice. cbn [app drop]. rewrite drop_0, take_app_le by lia. by rewrite take_ge by lia.
Qed.

Lemma encode_reads i : u64_ok i ->
  encode i !! 0%nat = Some MAGIC /\ crc32 (take 9 (encode i)) = from_le_bytes (slice (encode i) 9 4) /\
  from_le_bytes (slice (encode i) 1 8) = i.
Proof.
  intros Hi. unfold encode.
  destruct (record_reads (to_le_bytes 8 i) (to_le_bytes 4 (crc32 (MAGIC :: to_le_bytes 8 i)))) as (H0 & H1 & H2 & H3);
    [by rewrite length_to_le_bytes..|].
  split; [exact H0|]. rewrite H1, H2, H3, !from_to_le_bytes. split; [symmetry|]; apply Z.mod_small; [apply crc32_u32|exact Hi].
Qed.

Lemma recover_loop_stream m i fuel : u64_ok (Z.of_nat (m / RECORD_LEN)) ->
  (i <= m / RECORD_LEN)%nat -> (m / RECORD_LEN - i < fuel)%nat ->
  recover_loop fuel (stream m) (RECORD_LEN * i) (MkRecovered (Z.of_nat i) (Z.of_nat i) 0 false) =
    (MkRecovered (Z.of_nat (m / RECORD_LEN)) (Z.of_nat (m / RECORD_LEN)) 0 false, (RECORD_LEN * (m / RECORD_LEN))%nat).
Proof.
  intros Hu. pose proof (Nat.div_mod m RECORD_LEN ltac:(done)) as Hd.
  pose proof (Nat.mod_upper_bound m RECORD_LEN ltac:(done)) as Hr. set (n := (m / RECORD_LEN)%nat) in *.
  revert i; induction fuel as [|fuel IH]; intros i Hi Hf; [lia|]. cbn [recover_loop]. rewrite length_stream.
  destruct (Nat.leb_spec (RECORD_LEN * i + RECORD_LEN) m) as [Hle|Hgt].
  - assert (Hin : (S i <= n)%nat) by (unfold RECORD_LEN in *; lia).
    assert (Hs : slice (stream m) (RECORD_LEN * i) RECORD_LEN = encode (Z.of_nat (S i))).
    { unfold slice. rewrite take_drop_commute, (Nat.add_comm _ RECORD_LEN).
      replace (take _ _) with (stream (RECORD_LEN * i + RECORD_LEN)) by (rewrite Nat.add_comm, take_stream; [done|lia]).
      rewrite stream_record by done. rewrite take_ge by (by rewrite length_encode).
      rewrite <- (length_stream (RECORD_LEN * i)) at 1. by rewrite drop_app_length. }
    rewrite Hs. destruct (encode_reads (Z.of_nat (S i))) as (H0 & Hc & Hq); [unfold u64_ok in *; lia|].
    rewrite bool_decide_true by done. cbn [negb]. rewrite Hc, Z.eqb_refl. cbn [negb max_seq count discarded_bytes out_of_order].
    rewrite Hq. replace (Z.of_nat (S i) =? Z.of_nat i + 1) with true by (symmetry; apply Z.eqb_eq; lia). cbn [negb].
    replace (Z.of_nat i + 1) with (Z.of_nat (S i)) by lia. replace (RECORD_LEN * i + RECORD_LEN)%nat with (RECORD_LEN * S i)%nat by lia.
    apply IH; lia.
  - assert (i = n) as -> by (unfold RECORD_LEN in *; lia). done.
Qed.

(** Recovery of any first part of the stream: the whole records of it. *)
Lemma recover_stream m : u64_ok (Z.of_nat (m / RECORD_LEN)) ->
  recover (stream m) = MkRecovered (Z.of_nat (m / RECORD_LEN)) (Z.of_nat (m / RECORD_LEN)) (Z.of_nat (m mod RECORD_LEN)) false.
Proof.
  intros Hu. unfold recover. pose proof (Nat.div_mod m RECORD_LEN ltac:(done)) as Hd.
  destruct m as [|m].
  { done. }
  rewrite (recover_loop_stream (S m) 0) by (try done; rewrite ?length_stream; unfold RECORD_LEN in *; lia).
  cbn [count max_seq out_of_order]. f_equal. rewrite length_stream. lia.
Qed.

(** ** The promise, over any honest disk *)

#[local] Arguments Z.min : simpl never.
#[local] Arguments Nat.mul : simpl never.
#[local] Arguments RECORD_LEN : simpl never.

Section Promise.
Context {C R W B : Type} {RN : Rng R} {IO : Io W} {IOL : IoLaws W} {BUS : Bus Msg B}.
Implicit Types (s : Shard) (p : Parts C R W B) (w : W).

(** File [f] holds the first [m] bytes of the stream, of which the records up to
    [acked] survive a power cut. *)
Definition file_holds (f : FileId) (acked : Z) (m : nat) w : Prop :=
  exists du di, io_view w f = Some (du, di) /\ du ++ di = stream m /\ Z.of_nat RECORD_LEN * acked <= Z.of_nat (length du).

Record shard_inv s w : Prop := {
  si_honest : io_honest w;
  si_marks : 0 <= s.(sh_acked) <= s.(sh_written);
  si_pending : (s.(sh_pending_seq) = 0 /\ s.(sh_pending_done) = 0%nat) \/
    (s.(sh_pending_seq) = s.(sh_written) + 1 /\ s.(sh_pending_buf) = encode (s.(sh_written) + 1) /\ (s.(sh_pending_done) < RECORD_LEN)%nat);
  si_file : file_holds s.(sh_file) s.(sh_acked) (RECORD_LEN * Z.to_nat s.(sh_written) + s.(sh_pending_done)) w;
}.

Lemma holds_acked f a m w : file_holds f a m w -> a <= Z.of_nat (m / RECORD_LEN).
Proof.
  intros (du & di & _ & E & Ha). pose proof (f_equal length E) as El. rewrite length_app, length_stream in El.
  destruct (Z.le_gt_cases a (Z.of_nat (m / RECORD_LEN))) as [H|H]; [done|].
  pose proof (Nat.div_mod m RECORD_LEN ltac:(done)). pose proof (Nat.mod_upper_bound m RECORD_LEN ltac:(done)).
  unfold RECORD_LEN in *. lia.
Qed.

(** A power cut shortens the stream, never below what was flushed. *)
Lemma holds_crash f a m w w' : file_holds f a m w -> io_crash w w' -> exists m', (m' <= m)%nat /\ file_holds f a m' w'.
Proof.
  intros (du & di & Hv & E & Ha) Hc. apply io_crash_law in Hc as (_ & _ & Hc). specialize (Hc f). rewrite Hv in Hc.
  destruct Hc as [keep Hv']. pose proof (f_equal length E) as El. rewrite length_app, length_stream in El.
  exists (length du + length (take keep di))%nat. split; [rewrite length_take; lia|].
  exists (du ++ take keep di), []. split; [done|]. split; [|rewrite length_app; lia].
  rewrite app_nil_r. rewrite <- (take_stream _ m) by (rewrite length_take; lia). rewrite <- E.
  rewrite take_app_add. f_equal. rewrite length_take. by destruct (Nat.min_spec keep (length di)) as [[? ->]|[? ->]]; [|rewrite !take_ge by lia].
Qed.

Lemma holds_view f a m w w' : io_view w' f = io_view w f -> file_holds f a m w -> file_holds f a m w'.
Proof. intros E (du & di & Hv & H). exists du, di. by rewrite E. Qed.

(** Taking a file up again: the whole records of it, and the promise kept. *)
Lemma shard_recover_ok s p m : io_honest p.(p_io) -> 0 <= s.(sh_acked) ->
  file_holds s.(sh_file) s.(sh_acked) m p.(p_io) -> u64_ok (Z.of_nat (m / RECORD_LEN)) ->
  exists res s' p', shard_recover s p = Some (res, s', p') /\ s'.(sh_id) = s.(sh_id) /\ s'.(sh_file) = s.(sh_file) /\
    only s.(sh_file) p.(p_io) p'.(p_io) /\ p'.(p_bus) = p.(p_bus) /\ p'.(p_rng) = p.(p_rng) /\
    match res with
    | Ok r => r.(max_seq) = Z.of_nat (m / RECORD_LEN) /\ s.(sh_acked) <= r.(max_seq) /\ shard_inv s' p'.(p_io) /\
        s'.(sh_written) = r.(max_seq) /\ s'.(sh_acked) = s.(sh_acked)
    | Err e => s' = s /\ (0 < m mod RECORD_LEN)%nat /\ exists len, io_truncate s.(sh_file) len p.(p_io) = (Err e, p'.(p_io))
    end.
Proof.
  intros Hh Ha Hf Hu. pose proof (holds_acked _ _ _ _ Hf) as Hle. destruct Hf as (du & di & Hv & E & Hd).
  unfold shard_recover. destruct (io_read_all _ _) as [rr w] eqn:Er. apply io_read_law in Er as [-> Er].
  destruct rr as [bytes|e]; [|congruence]. destruct Er as (du' & di' & Hv' & ->). rewrite Hv in Hv'. injection Hv' as <- <-.
  rewrite E, (recover_stream m Hu). cbn [out_of_order discarded_bytes count max_seq].
  pose proof (Nat.div_mod m RECORD_LEN ltac:(done)) as Hm. set (n := (m / RECORD_LEN)%nat) in *.
  assert (Hmin : Z.min s.(sh_acked) (Z.of_nat n) = s.(sh_acked)) by lia.
  destruct (Z.ltb_spec 0 (Z.of_nat (m mod RECORD_LEN))) as [Hpos|Hzero].
  - replace (Z.to_nat (Z.of_nat n * Z.of_nat RECORD_LEN)) with (RECORD_LEN * n)%nat by lia.
    destruct (io_truncate _ _ _) as [rt w'] eqn:Et. pose proof (truncate_only _ _ _ _ _ Et) as [Ho Hr].
    destruct rt as [u|e].
    + destruct Hr as (du' & di' & Hv' & Hv2). cbn [set_io p_io] in Hv'. rewrite Hv in Hv'. injection Hv' as <- <-.
      eexists _, _, _. split; [done|]. cbn. split_and!; try done; try lia. split; cbn.
      * by apply Ho.
      * lia.
      * by left.
      * rewrite Hmin, Nat2Z.id, Nat.add_0_r. eexists _, _. split; [exact Hv2|]. split.
        -- rewrite <- (take_stream _ m) by lia. rewrite <- E. by rewrite take_app.
        -- rewrite length_take. unfold RECORD_LEN in *. lia.
    + eexists _, _, _. split; [done|]. cbn. split_and!; try done; [lia|]. by eexists.
  - eexists _, _, _. split; [done|]. cbn. split_and!; try done; try lia. split; cbn; [done|lia|by left|].
    rewrite Hmin, Nat2Z.id, Nat.add_0_r. exists du, di. split; [done|]. split; [|done]. rewrite E. f_equal. lia.
Qed.

(** The loop that puts the record under way on the file. *)
Lemma record_push_ok n fuel st s p : (RECORD_LEN - s.(sh_pending_done) <= fuel)%nat -> (s.(sh_pending_done) <= RECORD_LEN)%nat ->
  s.(sh_pending_buf) = encode (Z.of_nat (S n)) ->
  file_holds s.(sh_file) s.(sh_acked) (RECORD_LEN * n + s.(sh_pending_done)) p.(p_io) ->
  exists res d k p', push_loop fuel st s p = Some (res, with_degraded d (with_pending s.(sh_pending_seq) s.(sh_pending_buf) k s), p') /\
    (k <= RECORD_LEN)%nat /\ (is_ok res = false -> (k < RECORD_LEN)%nat) /\ file_holds s.(sh_file) s.(sh_acked) (RECORD_LEN * n + k) p'.(p_io) /\
    only s.(sh_file) p.(p_io) p'.(p_io) /\ p'.(p_bus) = p.(p_bus).
Proof.
  revert st s p; induction fuel as [|fuel IH]; intros st s p Hf Hk Hb Hh; cbn [push_loop].
  { replace (sh_pending_done s <? RECORD_LEN)%nat with false by (symmetry; apply Nat.ltb_ge; lia).
    exists (Ok tt), s.(sh_degraded), s.(sh_pending_done), p. split; [by destruct s|]. split_and!; [done|done|done|apply only_refl|done]. }
  destruct (Nat.ltb_spec (sh_pending_done s) RECORD_LEN) as [Hlt|Hge]; [destruct st; cbn [andb negb]|cbn [andb]];
    [exists (Ok tt), s.(sh_degraded), s.(sh_pending_done), p; split; [by destruct s|]; split_and!; [done|done|done|apply only_refl|done]| |
     exists (Ok tt), s.(sh_degraded), s.(sh_pending_done), p; split; [by destruct s|]; split_and!; [done|done|done|apply only_refl|done]].
  destruct (io_append _ _ _) as [ra w] eqn:Ea. apply append_only in Ea as [Ho Hv].
  assert (Hstalled : forall (s1 : Shard) p1, s1.(sh_pending_done) = s.(sh_pending_done) ->
      (exists d, s1 = with_degraded d s) -> p1.(p_io) = w -> p1.(p_bus) = p.(p_bus) -> io_view w s.(sh_file) = io_view p.(p_io) s.(sh_file) ->
      exists res d k p', push_loop fuel true s1 p1 = Some (res, with_degraded d (with_pending s.(sh_pending_seq) s.(sh_pending_buf) k s), p') /\
        (k <= RECORD_LEN)%nat /\ (is_ok res = false -> (k < RECORD_LEN)%nat) /\ file_holds s.(sh_file) s.(sh_acked) (RECORD_LEN * n + k) p'.(p_io) /\
        only s.(sh_file) p.(p_io) p'.(p_io) /\ p'.(p_bus) = p.(p_bus)).
  { intros s1 p1 Hd1 [d ->] Hw Hbus Hvw. exists (Ok tt), d, s.(sh_pending_done), p1.
    split; [destruct fuel; cbn [push_loop]; rewrite andb_false_r; by destruct s|].
    split_and!; [lia|done|rewrite Hw; by eapply holds_view|by rewrite Hw|done]. }
  destruct ra as [[|j]|[| | |]].
  - destruct Hv as (_ & du & di & Hv & Hv'). cbn [take] in Hv'. rewrite app_nil_r in Hv'.
    apply Hstalled; try done; [by exists s.(sh_degraded); destruct s|congruence].
  - destruct Hv as (Hj & du & di & Hv & Hv'). rewrite length_drop, Hb, length_encode in Hj.
    destruct Hh as (du0 & di0 & Hv0 & E & Ha). rewrite Hv in Hv0. injection Hv0 as <- <-.
    destruct (IH false (with_pending s.(sh_pending_seq) s.(sh_pending_buf) (s.(sh_pending_done) + S j) s) (set_io w p)) as
      (res & d & k & p' & E' & Hk' & He' & Hh' & Ho' & Hbus); cbn -[RECORD_LEN]; [lia|lia|done| |].
    { exists du, (di ++ take (S j) (drop s.(sh_pending_done) s.(sh_pending_buf))). split; [done|]. split; [|done].
      rewrite app_assoc, E, Hb. apply stream_append. lia. }
    exists res, d, k, p'. split; [exact E'|]. split_and!; [done|done|done|by eapply only_trans|done].
  - exists (Err NotFound), s.(sh_degraded), s.(sh_pending_done), (set_io w p).
    split; [by destruct s|]. split_and!; [done|done|by eapply holds_view|done|done].
  - apply Hstalled; try done. by exists true.
  - exists (Err SyncFailed), s.(sh_degraded), s.(sh_pending_done), (set_io w p).
    split; [by destruct s|]. split_and!; [done|done|by eapply holds_view|done|done].
  - exists (Err (OtherIo s0)), s.(sh_degraded), s.(sh_pending_done), (set_io w p).
    split; [by destruct s|]. split_and!; [done|done|by eapply holds_view|done|done].
Qed.

(** What an operation may do besides: only its own file, at most one ping to a peer. *)
Definition pinged (id : ShardId) (peers : list ShardId) (b b' : B) : Prop :=
  b' = b \/ exists to n, to ∈ peers /\ b' = send id to (Ping n) b.

(** The shard after the push: its record has landed, or is still under way. *)
Lemma shard_push_ok s p : shard_inv s p.(p_io) -> s.(sh_pending_seq) = s.(sh_written) + 1 ->
  exists res s' p', push_pending s p = Some (res, s', p') /\ shard_inv s' p'.(p_io) /\
    s'.(sh_id) = s.(sh_id) /\ s'.(sh_file) = s.(sh_file) /\ s'.(sh_acked) = s.(sh_acked) /\
    s.(sh_written) <= s'.(sh_written) <= s.(sh_written) + 1 /\
    only s.(sh_file) p.(p_io) p'.(p_io) /\ p'.(p_bus) = p.(p_bus).
Proof.
  intros [Hh Hm Hp Hf] Hseq. unfold push_pending. replace (0 <? sh_pending_seq s) with true by (symmetry; apply Z.ltb_lt; lia).
  cbn [negb]. destruct Hp as [[? ?]|(_ & Hb & Hd)]; [lia|]. set (n := Z.to_nat s.(sh_written)) in *.
  assert (Hn : s.(sh_written) + 1 = Z.of_nat (S n)) by lia.
  destruct (record_push_ok n RECORD_LEN false s p) as (res & d & k & p' & -> & Hk & He & Hf' & Ho & Hbus); [lia|lia|congruence|done|].
  assert (Hcut : (k < RECORD_LEN)%nat -> shard_inv (with_degraded d (with_pending s.(sh_pending_seq) s.(sh_pending_buf) k s)) p'.(p_io)).
  { intros Hlt. split; cbn; [by apply Ho|done|by right|done]. }
  cbn [mbind option_bind]. destruct res as [u|e].
  - cbn [with_degraded with_pending sh_pending_done]. destruct (Nat.ltb_spec k RECORD_LEN) as [Hlt|Hge].
    + eexists _, _, _. split; [done|]. split_and!; try done; [by apply Hcut|cbn; lia..].
    + eexists _, _, _. split; [done|]. assert (k = RECORD_LEN) as -> by lia. cbn. split_and!; try done; [|lia..].
      split; cbn; [by apply Ho|lia|by left|]. rewrite Hseq, Hn, Nat2Z.id.
      by replace (RECORD_LEN * S n + 0)%nat with (RECORD_LEN * n + RECORD_LEN)%nat by lia.
  - eexists _, _, _. split; [done|]. split_and!; try done; [by apply Hcut, He|cbn; lia..].
Qed.

Lemma sync_if_due_ok s p : shard_inv s p.(p_io) ->
  exists s' p', sync_if_due s p = Some (s', p') /\ shard_inv s' p'.(p_io) /\
    s'.(sh_id) = s.(sh_id) /\ s'.(sh_file) = s.(sh_file) /\ s.(sh_acked) <= s'.(sh_acked) /\ s'.(sh_written) = s.(sh_written) /\
    only s.(sh_file) p.(p_io) p'.(p_io) /\ p'.(p_bus) = p.(p_bus).
Proof.
  intros [Hh Hm Hp Hf]. unfold sync_if_due. destruct (_ <=? _).
  2: { exists s, p. split; [done|]. split_and!; try done. }
  destruct (io_fsync _ _) as [rf w] eqn:Ef. apply fsync_only in Ef as [Ho Hv]; [|done]. destruct rf as [u|e].
  - cbn. replace (sh_acked s <=? sh_written s) with true by (symmetry; apply Z.leb_le; lia). cbn [negb].
    eexists _, _. split; [done|]. cbn. split_and!; try done; [|lia]. split; cbn; [by apply Ho|lia|done|].
    destruct Hf as (du & di & Hv0 & E & Ha), Hv as (du' & di' & Hv' & Hv2). rewrite Hv0 in Hv'. injection Hv' as <- <-.
    exists (du ++ di), []. split; [done|]. rewrite app_nil_r. split; [done|]. rewrite E, length_stream. unfold RECORD_LEN. lia.
  - eexists _, _. split; [done|]. cbn. split_and!; try done. split; cbn; [by apply Ho|done|done|by eapply holds_view].
Qed.

Lemma ping_a_peer_ok peers s p : shard_inv s p.(p_io) ->
  exists s' p', ping_a_peer peers s p = Some (s', p') /\ shard_inv s' p'.(p_io) /\
    s'.(sh_id) = s.(sh_id) /\ s'.(sh_file) = s.(sh_file) /\ s'.(sh_acked) = s.(sh_acked) /\ s'.(sh_written) = s.(sh_written) /\
    p'.(p_io) = p.(p_io) /\ pinged s.(sh_id) peers p.(p_bus) p'.(p_bus).
Proof.
  intros Hi. unfold ping_a_peer. destruct (decide (peers = [])) as [->|Hne].
  { rewrite bool_decide_true by done. exists s, p. split_and!; try done. by left. }
  rewrite bool_decide_false by done. cbn [negb]. destruct (rng_next _) as [v r]. destruct (v mod 4 =? 0).
  2: { exists s, (set_rand r p). split_and!; try done. by left. }
  destruct (rng_next _) as [v2 r2].
  assert (Hlt : (Z.to_nat (v2 mod Z.of_nat (length peers)) < length peers)%nat).
  { assert (0 < Z.of_nat (length peers)) as Hl by (destruct peers; cbn; [done|lia]).
    pose proof (Z.mod_pos_bound v2 (Z.of_nat (length peers)) Hl). lia. }
  apply lookup_lt_is_Some_2 in Hlt as [to Hto]. rewrite Hto. cbn [mbind option_bind].
  eexists _, _. split; [done|]. cbn. split_and!; try done; [by destruct Hi|].
  right. exists to, s.(sh_written). split; [by eapply list_elem_of_lookup_2|done].
Qed.

(** A unit of work keeps the shard and its file in order, and the promise only grows. *)
Lemma tick_ok peers s p : shard_inv s p.(p_io) ->
  exists res s' p', tick peers s p = Some (res, s', p') /\ shard_inv s' p'.(p_io) /\
    s'.(sh_id) = s.(sh_id) /\ s'.(sh_file) = s.(sh_file) /\ s.(sh_acked) <= s'.(sh_acked) /\
    s.(sh_written) <= s'.(sh_written) <= s.(sh_written) + 1 /\
    only s.(sh_file) p.(p_io) p'.(p_io) /\ pinged s.(sh_id) peers p.(p_bus) p'.(p_bus).
Proof.
  intros Hi. unfold tick. set (s0 := if _ =? 0 then _ else s).
  assert (H0 : shard_inv s0 p.(p_io) /\ s0.(sh_pending_seq) = s0.(sh_written) + 1 /\ s0.(sh_id) = s.(sh_id) /\
    s0.(sh_file) = s.(sh_file) /\ s0.(sh_acked) = s.(sh_acked) /\ s0.(sh_written) = s.(sh_written)).
  { subst s0. destruct Hi as [Hh Hm Hp Hf]. destruct (Z.eqb_spec (sh_pending_seq s) 0) as [E|E].
    - split; [|done]. split; cbn; [done..|right; split_and!; [done|done|by unfold RECORD_LEN; lia]|].
      destruct Hp as [[_ Hd]|[? _]]; [by rewrite Hd in Hf|lia].
    - destruct Hp as [[? _]|(Hs & Hb & Hd)]; [done|]. split; [|done]. split; [done..| |done]. by right. }
  destruct H0 as (Hi0 & Hs0 & <- & <- & <- & <-).
  destruct (shard_push_ok s0 p Hi0 Hs0) as (res & s1 & p1 & -> & Hi1 & Hid1 & Hf1 & Ha1 & Hw1 & Ho1 & Hb1).
  cbn [mbind option_bind]. destruct res as [u|e].
  2: { eexists _, _, _. split; [done|]. split_and!; try done; try lia. by left. }
  destruct (sync_if_due_ok s1 p1 Hi1) as (s2 & p2 & -> & Hi2 & Hid2 & Hf2 & Ha2 & Hw2 & Ho2 & Hb2). cbn [mbind option_bind].
  destruct (ping_a_peer_ok peers s2 p2 Hi2) as (s3 & p3 & -> & Hi3 & Hid3 & Hf3 & Ha3 & Hw3 & Ho3 & Hb3). cbn [mbind option_bind].
  eexists _, _, _. split; [done|]. split_and!; try done; try congruence; try lia.
  - rewrite Ho3. eapply only_trans; [done|]. by rewrite <- Hf1.
Qed.

Lemma on_msg_ok from msg s p : shard_inv s p.(p_io) ->
  exists s' p', on_msg from msg s p = (s', p') /\ shard_inv s' p'.(p_io) /\ p'.(p_io) = p.(p_io) /\
    s'.(sh_id) = s.(sh_id) /\ s'.(sh_file) = s.(sh_file) /\ s'.(sh_acked) = s.(sh_acked) /\ s'.(sh_written) = s.(sh_written) /\
    (p'.(p_bus) = p.(p_bus) \/ exists n, p'.(p_bus) = send s.(sh_id) from (Pong n) p.(p_bus)).
Proof.
  intros Hi. destruct msg as [n|n]; cbn [on_msg]; eexists _, _; (split; [done|]); cbn; split_and!; try done.
  - right. by exists n.
  - by destruct Hi.
  - by left.
Qed.

Lemma note_recovery_ok s w : shard_inv s w -> shard_inv (note_recovery s) w.
Proof. by intros []. Qed.

(** The invariant looks at the shard's own file only. *)
Lemma shard_inv_frame s w w' : shard_inv s w -> io_honest w' -> io_view w' s.(sh_file) = io_view w s.(sh_file) -> shard_inv s w'.
Proof. intros [Hh Hm Hp Hf] Hh' Hv. split; [done..|]. by eapply holds_view. Qed.

(** Opening a shard whose file is new ([m = 0]) or holds part of the stream. *)
Lemma shard_open_ok id sync_every p m : io_honest p.(p_io) ->
  match io_named p.(p_io) (journal_name id) with Some f => file_holds f 0 m p.(p_io) | None => m = 0%nat end ->
  u64_ok (Z.of_nat (m / RECORD_LEN)) ->
  exists res p', shard_open id sync_every p = Some (res, p') /\ p'.(p_bus) = p.(p_bus) /\
    match res with
    | Ok s => shard_inv s p'.(p_io) /\ s.(sh_id) = id /\ s.(sh_acked) = 0 /\ s.(sh_written) = Z.of_nat (m / RECORD_LEN) /\
        io_named p'.(p_io) (journal_name id) = Some s.(sh_file) /\
        (forall n, n <> journal_name id -> io_named p'.(p_io) n = io_named p.(p_io) n) /\
        (forall g, g <> s.(sh_file) -> io_view p'.(p_io) g = io_view p.(p_io) g)
    | Err e => (exists w, io_create (journal_name id) p.(p_io) = (Err e, w)) \/ (0 < m mod RECORD_LEN)%nat
    end.
Proof.
  intros Hh Hm Hu. unfold shard_open. destruct (io_create _ _) as [rc w] eqn:Ec.
  pose proof (io_create_law _ _ _ _ Ec) as [Hh' Hc]. destruct rc as [f|e].
  2: { eexists _, _. split; [done|]. split; [done|]. left. by eexists. }
  destruct Hc as (Hn & Hother & Hviews & Hf).
  assert (Hfile : file_holds f 0 m w).
  { destruct (io_named (p_io p) (journal_name id)) as [f0|].
    - destruct Hf as [-> Hv]. by eapply holds_view.
    - destruct Hf as [_ Hv]. subst m. exists [], []. by rewrite Hv. }
  match goal with |- context [shard_recover ?s0 ?p0] =>
    destruct (shard_recover_ok s0 p0 m) as (res & s' & p' & -> & Hid & Hfile' & Ho & Hb & _ & Hres); [by apply Hh'|done|done|done|] end.
  cbn [mbind option_bind]. cbn in Hid, Hfile', Ho, Hb. destruct res as [r|e].
  - destruct Hres as (Hmax & _ & Hi & Hw & Ha). eexists _, _. split; [done|]. cbn. split; [done|].
    split_and!; try done; [congruence|rewrite Hfile', (on_named _ _ _ Ho); done| |].
    + intros n Hne. rewrite (on_named _ _ _ Ho). by apply Hother.
    + intros g Hg. rewrite Hfile' in Hg. rewrite (on_view _ _ _ Ho) by done. by apply Hviews.
  - destruct Hres as (_ & Hr & _). eexists _, _. split; [done|]. split; [done|]. by right.
Qed.

End Promise.
