(* ===== verification/Simulate.v ===== *)
(** * The simulator ([trailryx-core/src/sim.rs])

    One configuration in, one report out: shards that write, flush, promise and
    talk, on a disk and a bus with faults, cut off by crashes. On a disk whose
    flush does not lie the run finishes and no promise is broken. *)

From S2P Require Import Prelude Bytes Ids SimIo Durability Completeness Publish Cold Assemble Bus Shard.

Record SimConfig := MkSimConfig {
  cfg_seed : Z; cfg_shards : Z; cfg_steps : Z; cfg_sync_every : Z; cfg_io_faults : IoFaults; cfg_bus_faults : BusFaults;
  cfg_crash_ppm : Z; cfg_crash_at : option Z; cfg_trace_cap_bytes : Z }.

Definition SimConfig_default : SimConfig := MkSimConfig 1 2 1000 8 no_faults BusFaults_NONE 0 None (Z.shiftl 4 20).

Record Report := MkReport {
  rp_seed : Z; rp_steps : Z; rp_trace_digest : Z; rp_trace_lines : Z; rp_trace_bytes : list byte; rp_crashes : Z;
  rp_durability_violations : Z; rp_acked_total : Z; rp_written_total : Z; rp_pongs_total : Z; rp_io : IoStats; rp_bus : BusStats }.

Definition digest_hex (r : Report) : str := hex16 r.(rp_trace_digest).

Definition summary (r : Report) : str :=
  let field name v := lit name ++ lit "=" ++ decimal v in
  field "seed" r.(rp_seed) ++ field " steps" r.(rp_steps) ++ lit " digest=" ++ digest_hex r ++ field " lines" r.(rp_trace_lines)
  ++ field " crashes" r.(rp_crashes) ++ field " violations" r.(rp_durability_violations) ++ field " acked" r.(rp_acked_total)
  ++ field " written" r.(rp_written_total) ++ field " pongs" r.(rp_pongs_total) ++ field " short_writes" r.(rp_io).(st_short_writes)
  ++ field " lying_fsyncs" r.(rp_io).(st_lying_fsyncs) ++ field " fsync_errors" r.(rp_io).(st_fsync_errors)
  ++ field " nospace" r.(rp_io).(st_no_space) ++ field " msgs_sent" r.(rp_bus).(bs_sent) ++ field " delivered" r.(rp_bus).(bs_delivered)
  ++ field " dropped" r.(rp_bus).(bs_dropped).

(** ** A run *)

Abbreviation SimParts := (Parts SimClock SimRng SimIo (SimBus Msg)).

Record World := MkWorld { wd_parts : SimParts; wd_shards : list Shard; wd_crashes : Z; wd_violations : Z }.

Implicit Types p : SimParts.

Definition set_clock (c : SimClock) p : SimParts := MkParts c p.(p_rng) p.(p_io) p.(p_bus) p.(p_trace).

(** The shards, opened one after the other; [None] is the failed [expect]. *)
Fixpoint open_shards (ids : list ShardId) (sync_every : Z) p : option (list Shard * SimParts) :=
  match ids with
  | [] => Some ([], p)
  | id :: ids =>
      '(res, p) ← shard_open id sync_every p;
      match res with
      | Err _ => None
      | Ok s => '(ss, p) ← open_shards ids sync_every p; Some (s :: ss, p)
      end
  end.

(** Everything due for the shard that ran. *)
Fixpoint deliver (fuel : nat) (me : ShardId) (s : Shard) p : option (Shard * SimParts) :=
  match fuel with
  | O => None
  | S fuel =>
      match bus_recv me p.(p_bus) with
      | (None, b) => Some (s, set_bus b p)
      | (Some (from, msg), b) => let '(s, p) := on_msg from msg s (set_bus b p) in deliver fuel me s p
      end
  end.

(** [{:?}] of a [Vec<u64>]. *)
Definition debug_u64s (l : list Z) : str :=
  lit "[" ++ match l with [] => [] | n :: l => decimal n ++ concat ((fun n => lit ", " ++ decimal n) <$> l) end ++ lit "]".

(** The shards after a power cut, each against what it had promised. *)
Fixpoint recover_all (l : list (Shard * (ShardId * Z))) p (violations : Z) : option (list Shard * SimParts * Z) :=
  match l with
  | [] => Some ([], p, violations)
  | (s, (id, promised)) :: l =>
      '(res, s, p) ← shard_recover s p;
      match res with
      | Err _ => None
      | Ok r =>
          let s := note_recovery s in
          let said := show_shard id ++ lit " promised=" ++ decimal promised ++ lit " recovered=" ++ decimal r.(max_seq) in
          '(ss, p, violations) ←
            (if r.(max_seq) <? promised then recover_all l (trace (lit "VIOLATION") said p) (violations + 1)
             else recover_all l (trace (lit "recovered") (said ++ lit " discarded=" ++ decimal r.(discarded_bytes)) p) violations);
          Some (s :: ss, p, violations)
      end
  end.

Definition crash_now (cfg : SimConfig) (step : Z) p : bool * SimParts :=
  if bool_decide (cfg.(cfg_crash_at) = Some step) then (true, p)
  else if 0 <? cfg.(cfg_crash_ppm) then
    let '(hit, r) := chance_ppm cfg.(cfg_crash_ppm) p.(p_rng).(rng_state) in (hit, set_rand (MkSimRng r) p)
  else (false, p).

Definition power_cut (ids : list ShardId) (step : Z) (wd : World) : option World :=
  let promised := sh_acked <$> wd.(wd_shards) in
  let p := trace (lit "crash") (lit "step=" ++ decimal step ++ lit " promised=" ++ debug_u64s promised) wd.(wd_parts) in
  let p := set_bus (bus_clear p.(p_bus)) (set_io (sim_crash p.(p_io)) p) in
  '(ss, p, violations) ← recover_all (zip wd.(wd_shards) (zip ids promised)) p wd.(wd_violations);
  Some (MkWorld p ss (wd.(wd_crashes) + 1) violations).

Definition run_step (cfg : SimConfig) (ids : list ShardId) (step : Z) (wd : World) : option World :=
  let p := set_clock (clock_advance 1000000 wd.(wd_parts).(p_clock)) wd.(wd_parts) in
  let p := set_bus (bus_tick p.(p_bus)) p in
  let '(which, r) := below cfg.(cfg_shards) p.(p_rng).(rng_state) in
  let p := set_rand (MkSimRng r) p in
  let which := Z.to_nat which in
  me ← ids !! which;
  s ← wd.(wd_shards) !! which;
  let peers := filter (fun i => i <> me) ids in
  '(res, s, p) ← tick peers s p;
  let p := match res with
           | Err e => trace (lit "tickerr") (show_shard me ++ lit " err=" ++ show_io_error e) p
           | Ok _ => p
           end in
  '(s, p) ← deliver (S (in_flight p.(p_bus))) me s p;
  let ss := <[which := s]> wd.(wd_shards) in
  let '(crash, p) := crash_now cfg step p in
  let wd := MkWorld p ss wd.(wd_crashes) wd.(wd_violations) in
  if crash then power_cut ids step wd else Some wd.

(** The steps [step .. step + n - 1]. *)
Fixpoint run_steps (cfg : SimConfig) (ids : list ShardId) (n : nat) (step : Z) (wd : World) : option World :=
  match n with
  | O => Some wd
  | S n => wd ← run_step cfg ids step wd; run_steps cfg ids n (step + 1) wd
  end.

Definition sum_of (f : Shard -> Z) (ss : list Shard) : Z := foldr Z.add 0 (f <$> ss).

(** The world the last step leaves: what [run] reports on. *)
Definition run_world (cfg : SimConfig) : option World :=
  let '(rng0, master) := next_u64 cfg.(cfg_seed) in
  let '(io0, master) := next_u64 master in
  let '(bus0, master) := next_u64 master in
  let p := MkParts (SimClock_new 1800000000000000000) (MkSimRng rng0) (sim_new io0 cfg.(cfg_io_faults))
             (SimBus_new bus0 cfg.(cfg_bus_faults)) (Trace_new cfg.(cfg_trace_cap_bytes)) in
  let ids := Z.of_nat <$> seq 0 (Z.to_nat cfg.(cfg_shards)) in
  '(ss, p) ← open_shards ids cfg.(cfg_sync_every) p;
  run_steps cfg ids (Z.to_nat cfg.(cfg_steps)) 1 (MkWorld p ss 0 0).

Definition report_of (cfg : SimConfig) (wd : World) : Report :=
  let p := wd.(wd_parts) in
  let ss := wd.(wd_shards) in
  MkReport cfg.(cfg_seed) cfg.(cfg_steps) (trace_digest p.(p_trace)) p.(p_trace).(tr_lines) p.(p_trace).(tr_buf)
    wd.(wd_crashes) wd.(wd_violations) (sum_of sh_acked ss) (sum_of sh_written ss) (sum_of sh_pongs_seen ss)
    p.(p_io).(stats) p.(p_bus).(bus_stats).

Definition run (cfg : SimConfig) : option Report := wd ← run_world cfg; Some (report_of cfg wd).

(** ** Deliveries end *)

Definition queued_for (me : ShardId) (q : list (Queued Msg)) : nat := length (filter (fun e => e.(qd_to) = me) q).

Lemma queued_for_le me q : (queued_for me q <= length q)%nat.
Proof. apply length_filter. Qed.

Lemma queued_for_delete me q i e : q !! i = Some e -> e.(qd_to) = me -> queued_for me q = S (queued_for me (delete i q)).
Proof.
  intros Hi He. unfold queued_for. rewrite <- (take_drop_middle q i e Hi) at 1. rewrite delete_take_drop.
  rewrite !filter_app, filter_cons_True by done. rewrite !length_app. cbn. lia.
Qed.

Lemma queued_for_others me q es : Forall (fun e => e.(qd_to) <> me) es -> queued_for me (q ++ es) = queued_for me q.
Proof. intros H. unfold queued_for. rewrite filter_app, (filter_none _ es) by done. by rewrite app_nil_r. Qed.

(** What the simulation keeps true of its bus. *)
Record bus_inv (f : BusFaults) (b : SimBus Msg) : Prop := {
  bi_ok : bus_ok b; bi_echo : no_echo b; bi_faults : b.(bus_faults) = f; bi_delay : 0 <= f.(max_delay_steps) }.

Lemma bus_inv_send f b from to msg : bus_inv f b -> from <> to ->
  bus_inv f (bus_send from to msg b) /\ queued_for from (bus_send from to msg b).(bus_queue) = queued_for from b.(bus_queue).
Proof.
  intros [Hok He Hf Hd] Hne. destruct (send_queue from to msg b) as (es & Hq & Hes & Hfs & _); [by rewrite Hf|].
  assert (Hothers : Forall (fun e => e.(qd_to) <> from) es) by (eapply Forall_impl; [exact Hes|]; cbn; intros e (_ & -> & _); congruence).
  split; [split; [apply send_ok; [by rewrite Hf|done]| |congruence|done]|rewrite Hq; by apply queued_for_others].
  unfold no_echo. rewrite Hq. apply Forall_app. split; [done|]. eapply Forall_impl; [exact Hes|]. cbn. intros e (-> & -> & _). done.
Qed.

Lemma bus_inv_recv f b me from msg b' : bus_inv f b -> bus_recv me b = (Some (from, msg), b') ->
  bus_inv f b' /\ from <> me /\ queued_for me b.(bus_queue) = S (queued_for me b'.(bus_queue)).
Proof.
  intros [[Ha [Hn Hg]] He Hf Hd] Hr. apply recv_some in Hr as (i & e & Hi & Ht & <- & _ & _ & Hq & Hf' & Hs & _ & _ & Ha').
  pose proof (proj1 (Forall_lookup _ _) He i e Hi) as Hne. cbn in Hne.
  assert (Hsub : b'.(bus_queue) `sublist_of` b.(bus_queue)) by (rewrite Hq; apply sublist_delete).
  split; [|split; [congruence|rewrite Hq; by eapply queued_for_delete]]. split; [split; [by apply Ha'|split]|..].
  - eapply sublist_NoDup; [exact Hn|]. by apply fmap_sublist.
  - rewrite Hs, Hq. by apply Forall_delete.
  - unfold no_echo. rewrite Hq. by apply Forall_delete.
  - congruence.
  - done.
Qed.

Lemma bus_inv_tick f b : bus_inv f b -> bus_inv f (bus_tick b).
Proof. by intros []. Qed.

Lemma bus_inv_clear f b : bus_inv f b -> bus_inv f (bus_clear b).
Proof.
  intros [[Ha [Hn Hg]] He Hf Hd]. split; [|by constructor|done|done]. split; [|by split; constructor].
  unfold bus_accounts, in_flight in *. cbn. lia.
Qed.

(** The loop ends: each message taken is answered to another shard, if at all. *)
Lemma deliver_ok f fuel me s p : (queued_for me p.(p_bus).(bus_queue) < fuel)%nat -> bus_inv f p.(p_bus) ->
  shard_inv s p.(p_io) -> s.(sh_id) = me ->
  exists s' p', deliver fuel me s p = Some (s', p') /\ bus_inv f p'.(p_bus) /\ shard_inv s' p'.(p_io) /\ p'.(p_io) = p.(p_io) /\
    s'.(sh_id) = me /\ s'.(sh_file) = s.(sh_file) /\ s'.(sh_written) = s.(sh_written).
Proof.
  revert s p; induction fuel as [|fuel IH]; intros s p Hq Hb Hs Hid; [lia|]. cbn [deliver].
  destruct (bus_recv me (p_bus p)) as [[[from msg]|] b] eqn:Er.
  - destruct (bus_inv_recv f _ _ _ _ _ Hb Er) as (Hb1 & Hne & Hless).
    destruct (on_msg_ok from msg s (set_bus b p)) as (s1 & p1 & -> & Hi1 & Hio1 & Hid1 & Hf1 & _ & Hw1 & Hbus); [done|].
    assert (Hnext : bus_inv f p1.(p_bus) /\ queued_for me p1.(p_bus).(bus_queue) = queued_for me b.(bus_queue)).
    { destruct Hbus as [->|[n ->]]; [by split|]. rewrite Hid. cbn. apply bus_inv_send; [done|congruence]. }
    destruct Hnext as [Hb1' Hq1]. destruct (IH s1 p1) as (s' & p' & -> & H1 & H2 & H3 & H4 & H5 & H6); [lia|done|done|congruence|].
    exists s', p'. split; [done|]. split_and!; try done; [by rewrite H3, Hio1|congruence..].
  - apply recv_none in Er as [-> _]. exists s, (set_bus p.(p_bus) p). by split_and!.
Qed.

(** ** Shards on one disk *)

(** A shard in order after at most [t] units of work, its file under its name. *)
Definition shard_good (t : Z) (io : SimIo) (s : Shard) : Prop :=
  shard_inv s io /\ s.(sh_written) <= t /\ sim_named io (journal_name s.(sh_id)) = Some s.(sh_file).

(** A shard whose file the power cut has shortened. *)
Definition shard_cut (t : Z) (io : SimIo) (s : Shard) : Prop :=
  0 <= s.(sh_acked) /\ (exists m, Z.of_nat (m / RECORD_LEN) <= t /\ file_holds s.(sh_file) s.(sh_acked) m io) /\
  sim_named io (journal_name s.(sh_id)) = Some s.(sh_file).

Lemma shard_good_frame t t' (io io' : SimIo) s : shard_good t io s -> t <= t' -> io_honest io' ->
  (forall n, sim_named io' n = sim_named io n) -> sim_view io' s.(sh_file) = sim_view io s.(sh_file) -> shard_good t' io' s.
Proof.
  intros (Hi & Hw & Hn) Ht Hh Hnames Hv. split; [by eapply shard_inv_frame|]. split; [lia|by rewrite Hnames].
Qed.

Lemma shard_cut_frame t (io io' : SimIo) s : shard_cut t io s ->
  (forall n, sim_named io' n = sim_named io n) -> sim_view io' s.(sh_file) = sim_view io s.(sh_file) -> shard_cut t io' s.
Proof.
  intros (Ha & (m & Hm & Hf) & Hn) Hnames Hv. split; [done|]. split; [|by rewrite Hnames]. exists m. split; [done|]. by eapply holds_view.
Qed.

Lemma shard_good_cut t (io : SimIo) s : shard_good t io s -> shard_cut t (sim_crash io) s.
Proof.
  intros ([Hh Hm Hp Hf] & Hw & Hn). pose proof (sim_crash_ok io _ eq_refl) as (_ & Hnames & _).
  split; [lia|]. split; [|by rewrite Hnames].
  destruct (holds_crash _ _ _ _ (sim_crash io) Hf eq_refl) as (m' & Hle & Hf'). exists m'. split; [|done].
  assert (Hd : (sh_pending_done s < RECORD_LEN)%nat) by (unfold RECORD_LEN; destruct Hp as [[_ ->]|(_ & _ & ?)]; [lia|done]).
  assert ((m' / RECORD_LEN <= Z.to_nat (sh_written s))%nat); [|lia].
  apply Nat.lt_succ_r, Nat.Div0.div_lt_upper_bound. unfold RECORD_LEN in *. lia.
Qed.

Lemma truncate_viewed (io : SimIo) f len e io' v : sim_view io f = Some v -> io_truncate f len io = (Err e, io') -> False.
Proof. unfold sim_view. cbn. unfold sim_truncate. destruct (files io !! f); [|done]. done. Qed.

(** Names are different, so files are. *)
Lemma journal_name_inj a b : u64_ok a -> u64_ok b -> journal_name a = journal_name b -> a = b.
Proof.
  intros Ha Hb E. unfold journal_name in E. apply app_inv_head in E. apply app_inv_tail in E. by apply decimal_inj.
Qed.

Lemma files_distinct t (io : SimIo) ss : sim_honest io -> Forall (shard_cut t io) ss -> Forall u64_ok (sh_id <$> ss) ->
  NoDup (sh_id <$> ss) -> NoDup (sh_file <$> ss).
Proof.
  intros Hh Hc Hu. induction ss as [|s ss IH]; [constructor|]. rewrite !fmap_cons in *.
  intros [Hnew Hn]%NoDup_cons. apply Forall_cons in Hc as [Hs Hc]. apply Forall_cons in Hu as [Hus Hu].
  apply NoDup_cons. split; [|by apply IH]. intros (s' & Ef & Hin)%list_elem_of_fmap. apply Hnew.
  pose proof (proj1 (Forall_forall _ _) Hc s' Hin) as (_ & _ & Hn'). destruct Hs as (_ & _ & Hns). rewrite <- Ef in Hn'.
  pose proof (honest_inj _ Hh _ _ _ Hns Hn') as En. apply list_elem_of_fmap. exists s'. split; [|done].
  apply journal_name_inj; [done| |done]. by apply (proj1 (Forall_forall _ _) Hu), list_elem_of_fmap_2.
Qed.

(** After a cut every shard comes back, and none with less than it had promised. *)
Lemma recover_all_ok t l p v : t <= u64_max -> sim_honest p.(p_io) ->
  Forall (shard_cut t p.(p_io)) l.*1 -> Forall (fun x => x.2.2 = x.1.(sh_acked)) l -> NoDup (sh_file <$> l.*1) ->
  exists ss p', recover_all l p v = Some (ss, p', v) /\ sim_honest p'.(p_io) /\ Forall (shard_good t p'.(p_io)) ss /\
    sh_id <$> ss = sh_id <$> l.*1 /\ sh_file <$> ss = sh_file <$> l.*1 /\ p'.(p_bus) = p.(p_bus) /\
    (forall n, sim_named p'.(p_io) n = sim_named p.(p_io) n) /\
    (forall g, g ∉ sh_file <$> l.*1 -> sim_view p'.(p_io) g = sim_view p.(p_io) g).
Proof.
  intros Ht. revert p v; induction l as [|[s [id promised]] l IH]; intros p v Hh Hc Hp Hn; cbn [recover_all].
  { exists [], p. by split_and!. }
  rewrite !fmap_cons in *. apply Forall_cons in Hc as [Hs Hc]. apply Forall_cons in Hp as [Hps Hp]. apply NoDup_cons in Hn as [Hnew Hn].
  cbn in Hps, Hs, Hnew, Hn. subst promised. destruct Hs as (Ha & (m & Hm & Hf) & Hns).
  destruct (shard_recover_ok s p m) as (res & s' & p1 & -> & Hid & Hfile & Ho & Hb & _ & Hres); [done|done|done|unfold u64_ok, u64_max in *; lia|].
  cbn [mbind option_bind]. destruct res as [r|e].
  2: { destruct Hres as (_ & _ & len & Htr). destruct Hf as (du & di & Hv & _). by destruct (truncate_viewed _ _ _ _ _ _ Hv Htr). }
  destruct Hres as (Hmax & Hkept & Hi & Hw & Hack). replace (max_seq r <? sh_acked s) with false by (symmetry; apply Z.ltb_ge; lia).
  match goal with |- context [recover_all l ?px v] => destruct (IH px v) as (ss & p' & -> & Hh' & Hss & Hids & Hfs & Hb' & Hnames & Hviews) end;
    [by apply (on_honest _ _ _ Ho)| |done|done|].
  { rewrite Forall_forall in Hc |- *. intros x Hx. apply (shard_cut_frame _ p.(p_io)); [by apply Hc|apply (on_named _ _ _ Ho)|].
    apply (on_view _ _ _ Ho). intros E. apply Hnew. rewrite <- E. by apply list_elem_of_fmap_2. }
  cbn in Hb', Hnames, Hviews. cbn [mbind option_bind]. eexists _, _. split; [done|]. split; [done|]. split; [|split_and!].
  - apply Forall_cons. split; [|done]. apply (shard_good_frame t t p1.(p_io)); [|done|done|done|].
    + split; [by apply note_recovery_ok|]. cbn. rewrite Hid, Hfile. split; [lia|]. etransitivity; [apply (on_named _ _ _ Ho)|done].
    + cbn. apply Hviews. by rewrite Hfile.
  - cbn. by rewrite Hid, Hids.
  - cbn. by rewrite Hfile, Hfs.
  - congruence.
  - intros n. rewrite Hnames. apply (on_named _ _ _ Ho).
  - intros g [Hg1 Hg2]%not_elem_of_cons. rewrite Hviews by done. by apply (on_view _ _ _ Ho).
Qed.

(** ** The shards are opened *)

Lemma sim_create_files name io r io' : sim_create name io = (r, io') -> (length (files io') <= S (length (files io)))%nat.
Proof.
  unfold sim_create. destruct (_ !! name); [intros [= <- <-]; lia|]. destruct (_ <? _); intros [= <- <-]; [lia|].
  cbn. rewrite length_app. cbn. lia.
Qed.

Lemma sim_create_err name io e w : sim_create name io = (Err e, w) -> u32_max < Z.of_nat (length (files io)).
Proof. unfold sim_create. destruct (_ !! name); [done|]. destruct (Z.ltb_spec u32_max (Z.of_nat (length (files io)))); done. Qed.

Lemma sim_truncate_files f len io r io' : sim_truncate f len io = (r, io') -> length (files io') = length (files io).
Proof. unfold sim_truncate. destruct (files io !! f); intros [= <- <-]; [|done]. cbn. by rewrite length_insert. Qed.

Lemma shard_recover_files s p res s' p' : shard_recover s p = Some (res, s', p') -> length (files p'.(p_io)) = length (files p.(p_io)).
Proof.
  unfold shard_recover. cbn [io_read_all io_truncate SimIo_Io]. unfold sim_read_all.
  destruct (files (p_io p) !! sh_file s) as [file|]; [|intros [= <- <- <-]; done]. generalize (recover (durable file ++ dirty file)) as r.
  intros r. cbv zeta. destruct (out_of_order r); [discriminate|]. destruct (0 <? discarded_bytes r); [|intros [= <- <- <-]; done].
  destruct (sim_truncate _ _ _) as [rt w2] eqn:Et. apply sim_truncate_files in Et. cbn [set_io p_io] in Et.
  destruct rt; intros H; injection H as <- <- <-; exact Et.
Qed.

Lemma shard_open_files id k p res p' : shard_open id k p = Some (res, p') ->
  (length (files p'.(p_io)) <= S (length (files p.(p_io))))%nat.
Proof.
  unfold shard_open. cbn [io_create SimIo_Io]. destruct (sim_create _ _) as [rc w] eqn:Ec. apply sim_create_files in Ec.
  destruct rc as [f|e]; [|intros [= <- <-]; exact Ec].
  match goal with |- context [shard_recover ?s0 ?p0] => destruct (shard_recover s0 p0) as [[[r s'] p1]|] eqn:Er; [|discriminate] end.
  apply shard_recover_files in Er. cbn [set_io p_io] in Er. cbn [mbind option_bind].
  destruct r; intros H; injection H as <- <-; cbn [trace p_io]; lia.
Qed.

Lemma open_shards_ok ids k p : sim_honest p.(p_io) -> NoDup ids -> Forall u64_ok ids ->
  Forall (fun id => sim_named p.(p_io) (journal_name id) = None) ids ->
  Z.of_nat (length (files p.(p_io)) + length ids) <= u32_max ->
  exists ss p', open_shards ids k p = Some (ss, p') /\ sh_id <$> ss = ids /\ Forall (shard_good 0 p'.(p_io)) ss /\
    sim_honest p'.(p_io) /\ p'.(p_bus) = p.(p_bus) /\
    (forall n f, sim_named p.(p_io) n = Some f -> sim_named p'.(p_io) n = Some f /\ sim_view p'.(p_io) f = sim_view p.(p_io) f).
Proof.
  revert p; induction ids as [|id ids IH]; intros p Hh Hn Hu Hnew Hl; cbn [open_shards].
  { exists [], p. split_and!; try done. }
  apply NoDup_cons in Hn as [Hid Hn]. apply Forall_cons in Hu as [Huid Hu]. apply Forall_cons in Hnew as [Hnid Hnew].
  assert (Hnid' : io_named p.(p_io) (journal_name id) = None) by exact Hnid.
  destruct (shard_open_ok id k p 0) as (res & p1 & Hopen & Hb & Hres); [done|by rewrite Hnid'|done|].
  pose proof (shard_open_files _ _ _ _ _ Hopen) as Hfiles. rewrite Hopen. cbn [mbind option_bind].
  destruct res as [s|e].
  2: { destruct Hres as [[w Hc]|H0]; [|exfalso; revert H0; unfold RECORD_LEN; cbn; lia]. apply sim_create_err in Hc.
       cbn [length] in Hl. lia. }
  destruct Hres as (Hi & Hsid & _ & Hw & Hname & Hothers & Hviews). cbn in Hname, Hothers, Hviews.
  destruct (IH p1) as (ss & p2 & -> & Hids & Hss & Hh2 & Hb2 & Hkeep); [by destruct Hi|done|done| |cbn [length] in Hl; lia|].
  { rewrite Forall_forall in Hnew, Hu |- *. intros x Hx. rewrite Hothers; [by apply Hnew|].
    intros E. apply Hid. apply journal_name_inj in E as <-; [done|by apply Hu|done]. }
  cbn [mbind option_bind]. eexists _, _. split; [done|]. split_and!; [by cbn; rewrite Hsid, Hids| |done|congruence|].
  - apply Forall_cons. split; [|done]. destruct (Hkeep _ _ Hname) as [Hn2 Hv2].
    split; [by eapply shard_inv_frame|]. rewrite Hsid. split; [by rewrite Hw|done].
  - intros n f Hf. assert (Hne : n <> journal_name id) by congruence.
    destruct (Hkeep n f) as [Hn2 Hv2]; [by rewrite Hothers|]. split; [done|]. rewrite Hv2. apply Hviews. intros ->.
    apply Hne. assert (Hh1 : sim_honest p1.(p_io)) by (by destruct Hi). eapply (honest_inj _ Hh1); [exact Hname|]. by rewrite <- (Hothers n Hne) in Hf.
Qed.

(** ** The run *)

Record world_ok (cfg : SimConfig) (ids : list ShardId) (t : Z) (wd : World) : Prop := {
  wo_honest : sim_honest wd.(wd_parts).(p_io);
  wo_bus : bus_inv cfg.(cfg_bus_faults) wd.(wd_parts).(p_bus);
  wo_ids : sh_id <$> wd.(wd_shards) = ids;
  wo_good : Forall (shard_good t wd.(wd_parts).(p_io)) wd.(wd_shards);
  wo_kept : wd.(wd_violations) = 0;
}.

Lemma zip_promised ss ids : sh_id <$> ss = ids ->
  (zip ss (zip ids (sh_acked <$> ss))).*1 = ss /\ Forall (fun x => x.2.2 = x.1.(sh_acked)) (zip ss (zip ids (sh_acked <$> ss))).
Proof.
  intros <-. induction ss as [|s ss [IH1 IH2]]; [done|]. cbn. split; [by f_equal|]. by constructor.
Qed.

Lemma power_cut_ok cfg ids step t wd : t <= u64_max -> NoDup ids -> Forall u64_ok ids -> world_ok cfg ids t wd ->
  exists wd', power_cut ids step wd = Some wd' /\ world_ok cfg ids t wd'.
Proof.
  intros Ht Hn Hu [Hh Hb Hids Hg Hv]. unfold power_cut. destruct (zip_promised _ _ Hids) as [Hz1 Hz2].
  assert (Hcut : Forall (shard_cut t (sim_crash wd.(wd_parts).(p_io))) wd.(wd_shards)).
  { eapply Forall_impl; [exact Hg|]. intros s. apply shard_good_cut. }
  assert (Hh' : sim_honest (sim_crash wd.(wd_parts).(p_io))) by (by apply (sim_crash_ok _ _ eq_refl)).
  match goal with |- context [recover_all ?l ?p ?v] => destruct (recover_all_ok t l p v) as (ss & p' & -> & H1 & H2 & H3 & H4 & H5 & _) end;
    [done|done|by rewrite Hz1|done|rewrite Hz1; eapply files_distinct; [exact Hh'|done|by rewrite Hids..]|].
  rewrite Hz1 in H3. cbn [mbind option_bind]. eexists. split; [done|]. split; cbn; [done| |by rewrite H3|done|done].
  rewrite H5. by apply bus_inv_clear.
Qed.

(** One shard's work leaves the others as they were. *)
Lemma shards_after ids t (io io' : SimIo) ss i s s' : sim_honest io -> NoDup ids -> Forall u64_ok ids -> sh_id <$> ss = ids ->
  Forall (shard_good t io) ss -> ss !! i = Some s -> shard_inv s' io' -> s'.(sh_id) = s.(sh_id) -> s'.(sh_file) = s.(sh_file) ->
  s'.(sh_written) <= t + 1 -> only s.(sh_file) io io' ->
  Forall (shard_good (t + 1) io') (<[i := s']> ss) /\ sh_id <$> <[i := s']> ss = ids.
Proof.
  intros Hh Hn Hu Hids Hg Hi Hinv Hid Hf Hw Ho. pose proof (proj1 (Forall_lookup _ _) Hg i s Hi) as (_ & _ & Hname).
  split; [|rewrite list_fmap_insert, Hid; rewrite list_insert_id; [done|by rewrite list_lookup_fmap, Hi]].
  apply Forall_lookup. intros j x Hx. apply list_lookup_insert_Some in Hx as [(<- & -> & _)|[Hne Hx]].
  - split; [done|]. split; [done|]. rewrite Hid, Hf. etransitivity; [apply (on_named _ _ _ Ho)|done].
  - pose proof (proj1 (Forall_lookup _ _) Hg j x Hx) as Hgx. eapply shard_good_frame; [exact Hgx|lia|by apply (on_honest _ _ _ Ho)|apply (on_named _ _ _ Ho)|].
    apply (on_view _ _ _ Ho). intros E. apply Hne. destruct Hgx as (_ & _ & Hnx). rewrite E in Hnx.
    pose proof (honest_inj _ Hh _ _ _ Hname Hnx) as En.
    assert (Hix : ids !! i = Some s.(sh_id)) by (by rewrite <- Hids, list_lookup_fmap, Hi).
    assert (Hjx : ids !! j = Some x.(sh_id)) by (by rewrite <- Hids, list_lookup_fmap, Hx).
    apply journal_name_inj in En; [|by eapply Forall_lookup_1..]. rewrite En in Hjx. by eapply NoDup_lookup.
Qed.

Lemma run_step_ok cfg ids step t wd : 0 < cfg.(cfg_shards) -> length ids = Z.to_nat cfg.(cfg_shards) -> 0 <= t -> t + 1 <= u64_max ->
  NoDup ids -> Forall u64_ok ids -> world_ok cfg ids t wd ->
  exists wd', run_step cfg ids step wd = Some wd' /\ world_ok cfg ids (t + 1) wd'.
Proof.
  intros Hpos Hlen Ht0 Ht Hn Hu [Hh Hb Hids Hg Hv]. unfold run_step. cbv zeta.
  destruct (below _ _) as [which r] eqn:Ebelow. apply below_range in Ebelow as [Hw0 Hw]; [|lia]. specialize (Hw Hpos).
  destruct (lookup_lt_is_Some_2 wd.(wd_shards) (Z.to_nat which)) as [s Hs].
  { rewrite <- (length_fmap sh_id), Hids, Hlen. lia. }
  assert (Hme : ids !! Z.to_nat which = Some s.(sh_id)) by (by rewrite <- Hids, list_lookup_fmap, Hs).
  rewrite Hme, Hs. cbn [mbind option_bind]. set (peers := filter _ ids).
  pose proof (proj1 (Forall_lookup _ _) Hg _ _ Hs) as (Hi & Hws & _).
  match goal with |- context [tick peers s ?p] => destruct (tick_ok peers s p Hi) as (res & s1 & p1 & -> & Hi1 & Hid1 & Hf1 & _ & Hw1 & Ho1 & Hb1) end.
  cbn [mbind option_bind]. set (p2 := match res with Ok _ => p1 | Err e => _ end).
  assert (H2 : p2.(p_io) = p1.(p_io) /\ p2.(p_bus) = p1.(p_bus)) by (by destruct res).
  destruct H2 as [Hio2 Hbus2].
  assert (Hb2 : bus_inv cfg.(cfg_bus_faults) p2.(p_bus)).
  { rewrite Hbus2. cbn [p_bus set_rand set_bus set_clock] in Hb1. apply bus_inv_tick in Hb. destruct Hb1 as [->|(to & n & Hto & ->)]; [done|].
    apply bus_inv_send; [done|]. apply list_elem_of_filter in Hto as [Hto _]. congruence. }
  destruct (deliver_ok cfg.(cfg_bus_faults) (S (in_flight p2.(p_bus))) s.(sh_id) s1 p2) as (s3 & p3 & -> & Hb3 & Hi3 & Hio3 & Hid3 & Hf3 & Hw3);
    [apply Nat.lt_succ_r, queued_for_le|done|by rewrite Hio2|done|].
  cbn [mbind option_bind]. destruct (shards_after ids t wd.(wd_parts).(p_io) p3.(p_io) wd.(wd_shards) (Z.to_nat which) s s3) as [Hg3 Hids3];
    try done; [congruence|lia|rewrite Hio3, Hio2; exact Ho1|].
  destruct (crash_now cfg step p3) as [crash p4] eqn:Ec.
  assert (H4 : p4.(p_io) = p3.(p_io) /\ p4.(p_bus) = p3.(p_bus)).
  { unfold crash_now in Ec. destruct (bool_decide _); [by injection Ec as <- <-|]. destruct (_ <? _); [|by injection Ec as <- <-].
    destruct (chance_ppm _ _). by injection Ec as <- <-. }
  destruct H4 as [Hio4 Hbus4].
  assert (Hwd : world_ok cfg ids (t + 1) (MkWorld p4 (<[Z.to_nat which := s3]> wd.(wd_shards)) wd.(wd_crashes) wd.(wd_violations))).
  { split; cbn; [rewrite Hio4; by destruct Hi3|by rewrite Hbus4|done|by rewrite Hio4|done]. }
  destruct crash; [by apply power_cut_ok|by eexists].
Qed.

Lemma run_steps_ok cfg ids n step t wd : 0 < cfg.(cfg_shards) -> length ids = Z.to_nat cfg.(cfg_shards) -> 0 <= t -> t + Z.of_nat n <= u64_max ->
  NoDup ids -> Forall u64_ok ids -> world_ok cfg ids t wd ->
  exists wd', run_steps cfg ids n step wd = Some wd' /\ world_ok cfg ids (t + Z.of_nat n) wd'.
Proof.
  intros Hpos Hlen Ht0 Ht Hn Hu. revert step t wd Ht0 Ht; induction n as [|n IH]; intros step t wd Ht0 Ht Hwd; cbn [run_steps].
  { exists wd. by rewrite Z.add_0_r. }
  destruct (run_step_ok cfg ids step t wd) as (wd1 & -> & H1); try done; [lia|]. cbn [mbind option_bind].
  replace (t + Z.of_nat (S n)) with (t + 1 + Z.of_nat n) by lia. apply IH; [lia|lia|done].
Qed.

(** A configuration, its fields in range. *)
Record SimConfig_ok (cfg : SimConfig) : Prop := {
  ck_shards : 0 < cfg.(cfg_shards) <= u16_max;
  ck_steps : u64_ok cfg.(cfg_steps);
  ck_delay : 0 <= cfg.(cfg_bus_faults).(max_delay_steps);
}.

Lemma sum_of_le f g ss : Forall (fun s => f s <= g s) ss -> sum_of f ss <= sum_of g ss.
Proof. unfold sum_of. induction 1; cbn; [lia|]. lia. Qed.

(** C24 (the simulated shards keep their promises).
    On a disk that may cut writes short, refuse them and fail to flush, but whose
    successful flush is one, and on any bus, every run comes to its end: no
    [invariant!] breaks, no [expect] fails and each delivery loop stops. No crash
    finds a record missing that had been acknowledged, and the report's counts add up
    to the last message: the copies sent are those delivered, those dropped, and those
    the bus still holds at the end. *)
Theorem an_honest_disk_breaks_no_promise (cfg : SimConfig) (Hcfg : SimConfig_ok cfg)
  (Hhonest : cfg.(cfg_io_faults).(lying_fsync_ppm) = 0) :
  exists wd r, run_world cfg = Some wd /\ run cfg = Some r /\
    r.(rp_durability_violations) = 0 /\ r.(rp_acked_total) <= r.(rp_written_total) /\
    r.(rp_bus).(bs_sent) + r.(rp_bus).(bs_duplicated) =
      r.(rp_bus).(bs_delivered) + r.(rp_bus).(bs_dropped) + Z.of_nat (in_flight wd.(wd_parts).(p_bus)).
Proof.
  destruct Hcfg as [Hsh Hst Hd]. unfold run, run_world. destruct (next_u64 (cfg_seed cfg)) as [rng0 m1]. destruct (next_u64 m1) as [io0 m2].
  destruct (next_u64 m2) as [bus0 m3]. set (p := MkParts _ _ _ _ _). set (ids := Z.of_nat <$> _).
  assert (Hlen : length ids = Z.to_nat cfg.(cfg_shards)) by (unfold ids; by rewrite length_fmap, length_seq).
  assert (Hn : NoDup ids) by (apply (NoDup_fmap_2 Z.of_nat), NoDup_ListNoDup, seq_NoDup).
  assert (Hu : Forall u64_ok ids).
  { unfold ids. apply Forall_fmap, Forall_forall. intros i Hi%list_elem_of_In%in_seq. unfold u64_ok, u16_max, u64_max in *. cbn. lia. }
  destruct (open_shards_ok ids cfg.(cfg_sync_every) p) as (ss & p1 & -> & Hids & Hss & Hh & Hb & _).
  { by split; cbn. } { done. } { done. } { by apply Forall_forall. } { rewrite Hlen. cbn. unfold u16_max, u32_max in *. lia. }
  cbn [mbind option_bind].
  destruct (run_steps_ok cfg ids (Z.to_nat cfg.(cfg_steps)) 1 0 (MkWorld p1 ss 0 0)) as (wd & -> & [_ Hbus _ Hg Hv]);
    [lia|done|lia|unfold u64_ok, u64_max in *; lia|done|done| |].
  { split; cbn; [done| |done|done|done]. rewrite Hb. split; [split; [done|split; apply NoDup_nil_2 || apply Forall_nil_2]|by apply Forall_nil_2|done|done]. }
  eexists wd, _. split; [done|]. split; [done|]. cbn. split; [done|]. split.
  - apply sum_of_le. eapply Forall_impl; [exact Hg|]. intros s (Hi & _). destruct Hi as [_ Hm _ _]. apply Hm.
  - destruct Hbus as [[Ha _] _ _ _]. unfold bus_accounts in Ha. lia.
Qed.

(** ** Concrete runs *)

Module Sample.

(** A disk with short writes, failing flushes and refusals, a bus that drops,
    repeats and delays, a crash one step in twenty. *)
Definition rough : SimConfig := MkSimConfig 7 3 200 2 (MkFaults 120000 0 20000 10000) BusFaults_HOSTILE 50000 None 4000.

(** A disk whose every flush is a lie. *)
Definition lying : SimConfig := MkSimConfig 7 2 30 1 (MkFaults 0 1000000 0 0) BusFaults_NONE 0 (Some 20) 4000.

Lemma an_honest_disk_breaks_no_promise_witness :
  SimConfig_ok rough /\ rough.(cfg_io_faults).(lying_fsync_ppm) = 0 /\
  exists wd r, run_world rough = Some wd /\ run rough = Some r /\ r.(rp_durability_violations) = 0 /\
    r.(rp_acked_total) <= r.(rp_written_total) /\
    r.(rp_bus).(bs_sent) + r.(rp_bus).(bs_duplicated) =
      r.(rp_bus).(bs_delivered) + r.(rp_bus).(bs_dropped) + Z.of_nat (in_flight wd.(wd_parts).(p_bus)).
Proof.
  assert (Hok : SimConfig_ok rough) by (split; cbn; [unfold u16_max; lia|unfold u64_ok; lia|lia]).
  split; [exact Hok|]. split; [reflexivity|]. exact (an_honest_disk_breaks_no_promise rough Hok eq_refl).
Defined.

(** What the counts of that run are: repeated, dropped and undelivered messages, all
    there to be counted. *)
Example a_rough_run_is_counted :
  (fun wd => let st := (rp_bus (report_of rough wd)) in
     (bs_sent st, bs_duplicated st, bs_delivered st, bs_dropped st, in_flight wd.(wd_parts).(p_bus))) <$> run_world rough =
  Some (73, 3, 42, 31, 3%nat).
Proof. vm_compute. reflexivity. Qed.

(** The hypothesis is needed: a lie is found out by the first crash. *)
Example a_lying_disk_breaks_promises : (rp_durability_violations <$> run lying) = Some 2.
Proof. vm_compute. reflexivity. Qed.

End Sample.
