(* ===== verification/BlockHash.v ===== *)
(** * Hashing in blocks

    What the SHA-2 hashers of the program share: a state, a buffer of one block
    that is filled and compressed, whole blocks compressed straight from the input.
    [holds] relates the three to the message fed so far; the two steps every hasher
    is made of keep it, whatever the pieces the message arrives in. *)

From S2P Require Import Prelude Bytes Ids Record Digest Sha384.

Section Blocks.
Context {S : Type} (N : nat) (comp : S -> list byte -> S) (init : S).

(** Whole blocks of [data] through [comp], and the rest. *)
Fixpoint blocks (fuel : nat) (h : S) (data : list byte) : S * list byte :=
  match fuel with
  | O => (h, data)
  | Datatypes.S f => if (N <=? length data)%nat then blocks f (comp h (take N data)) (drop N data) else (h, data)
  end.

Hypothesis N_pos : (0 < N)%nat.

Lemma blocks_step f h m : (N <= length m)%nat -> blocks (Datatypes.S f) h m = blocks f (comp h (take N m)) (drop N m).
Proof using Type. intros H. cbn [blocks]. by apply Nat.leb_le in H as ->. Qed.

Lemma blocks_short f h m : (length m < N)%nat -> blocks f h m = (h, m).
Proof using Type. intros H. destruct f; [done|]. cbn [blocks]. apply Nat.leb_gt in H as ->. done. Qed.

(** Any fuel of at least the length of the input gives the loop's result. *)
Lemma blocks_fuel f g h m : (length m <= f)%nat -> (length m <= g)%nat -> blocks f h m = blocks g h m.
Proof using N_pos.
  revert g h m; induction f as [|f IH]; intros g h m Hf Hg; [rewrite !blocks_short by lia; done|].
  destruct (Nat.le_gt_cases N (length m)) as [Hm|Hm]; [|by rewrite !blocks_short].
  destruct g as [|g]; [lia|]. rewrite !blocks_step by done. apply IH; rewrite length_drop; lia.
Qed.

Lemma blocks_rest_short f h m : (length m <= f)%nat -> (length (blocks f h m).2 < N)%nat.
Proof using N_pos.
  revert h m; induction f as [|f IH]; intros h m Hf; [rewrite blocks_short; cbn; lia|].
  destruct (Nat.le_gt_cases N (length m)) as [Hm|Hm]; [|by rewrite blocks_short].
  rewrite blocks_step by done. apply IH. rewrite length_drop. lia.
Qed.

Lemma blocks_app f h m d : (length (m ++ d) <= f)%nat ->
  blocks f h (m ++ d) = blocks f (blocks f h m).1 ((blocks f h m).2 ++ d).
Proof using N_pos.
  revert h m; induction f as [|f IH]; intros h m Hf; [done|].
  destruct (Nat.le_gt_cases N (length m)) as [Hm|Hm]; [|by rewrite (blocks_short (Datatypes.S f) h m)].
  rewrite (blocks_step f h m) by done. rewrite length_app in Hf. rewrite blocks_step by (rewrite length_app; lia).
  rewrite take_app_le, drop_app_le by done. rewrite IH by (rewrite length_app, length_drop; lia).
  pose proof (blocks_rest_short f (comp h (take N m)) (drop N m)) as Hr. rewrite length_drop in Hr.
  apply blocks_fuel; rewrite length_app; lia.
Qed.

(** The message as a whole. *)
Definition all_blocks (m : list byte) : S * list byte := blocks (length m) init m.

Lemma all_blocks_app m d h r : all_blocks m = (h, r) -> all_blocks (m ++ d) = blocks (length (r ++ d)) h (r ++ d).
Proof using N_pos.
  intros E. unfold all_blocks. rewrite blocks_app by done.
  assert (Hf : blocks (length (m ++ d)) init m = (h, r)) by (rewrite <- E; apply blocks_fuel; rewrite ?length_app; lia).
  rewrite Hf. cbn [fst snd]. apply blocks_fuel; [|done].
  assert (Hle : forall f h0 m0, (length (blocks f h0 m0).2 <= length m0)%nat).
  { clear. induction f as [|f IH]; intros h0 m0; [done|]. cbn [blocks]. destruct (_ <=? _)%nat; [|done].
    etransitivity; [apply IH|]. rewrite length_drop. lia. }
  specialize (Hle (length m) init m). unfold all_blocks in E. rewrite E in Hle. cbn in Hle. rewrite !length_app. lia.
Qed.

(** A hasher's state, buffer and fill hold the message [m]. *)
Record holds (h : S) (buf : list byte) (n : nat) (m : list byte) : Prop := {
  hl_blocks : all_blocks m = (h, take n buf); hl_buf : length buf = N; hl_fill : (n < N)%nat }.

Lemma holds_init buf : length buf = N -> holds init buf 0 [].
Proof using N_pos. intros Hb. split; [|done|done]. unfold all_blocks. by rewrite blocks_short by (cbn; lia). Qed.

(** Bytes into the buffer, compressed when it is full. *)
Lemma holds_fill h buf n m d : holds h buf n m -> (n + length d <= N)%nat ->
  if (n + length d =? N)%nat then holds (comp h (copy_at buf n d)) (copy_at buf n d) 0 (m ++ d)
  else holds h (copy_at buf n d) (n + length d) (m ++ d).
Proof using N_pos.
  intros [Ha Hb Hn] Hd. pose proof (all_blocks_app m d _ _ Ha) as Happ.
  assert (Hlb : length (copy_at buf n d) = N) by (rewrite length_copy_at; [done|lia]).
  assert (Ht : take (n + length d) (copy_at buf n d) = take n buf ++ d) by (apply take_copy_at; lia).
  destruct (Nat.eqb_spec (n + length d) N) as [Hfull|Hpart].
  - split; [|done|lia]. rewrite Happ. rewrite Hfull, take_ge in Ht by lia. rewrite <- Ht, Hlb.
    rewrite (blocks_fuel N (Datatypes.S N)) by lia. rewrite blocks_step by lia.
    rewrite take_ge, drop_ge by lia. rewrite blocks_short by (cbn; lia). by rewrite take_0.
  - split; [|done|lia]. rewrite Happ, blocks_short; [by rewrite Ht|]. rewrite length_app, length_take. lia.
Qed.

(** Whole blocks straight from the input, the rest into the empty buffer. *)
Lemma holds_absorb h buf m d : holds h buf 0 m ->
  let '(h', r) := blocks (length d) h d in holds h' (copy_at buf 0 r) (length r) (m ++ d).
Proof using N_pos.
  intros [Ha Hb Hn]. rewrite take_0 in Ha. pose proof (all_blocks_app m d _ _ Ha) as Happ. cbn [app] in Happ.
  pose proof (blocks_rest_short (length d) h d ltac:(done)) as Hr. destruct (blocks (length d) h d) as [h' r] eqn:E. cbn in Hr.
  split; [|rewrite length_copy_at; [done|cbn; lia]|done]. rewrite Happ. f_equal. symmetry. apply (take_copy_at buf 0 r). lia.
Qed.

(** The buffer's fill is the message's length modulo the block size. *)
Lemma holds_fill_length h buf n m : holds h buf n m -> n = (length m mod N)%nat.
Proof using N_pos.
  intros [Ha Hb Hn]. unfold all_blocks in Ha.
  assert (Hgen : forall f h m', (length m' <= f)%nat -> length (blocks f h m').2 = (length m' mod N)%nat).
  { clear - N_pos. induction f as [|f IH]; intros h m Hf.
    - destruct m; cbn in *; [by rewrite Nat.Div0.mod_0_l|lia].
    - destruct (Nat.le_gt_cases N (length m)) as [Hm|Hm].
      + rewrite blocks_step, IH by (rewrite ?length_drop; lia). rewrite length_drop.
        rewrite <- (Nat.sub_add N (length m)) at 2 by done. rewrite <- (Nat.mul_1_l N) at 4. by rewrite Nat.Div0.mod_add.
      + rewrite blocks_short by done. cbn [snd]. by rewrite Nat.mod_small. }
  specialize (Hgen (length m) init m ltac:(done)). rewrite Ha in Hgen. cbn [snd] in Hgen. rewrite length_take in Hgen. lia.
Qed.

(** The digest's words when the padded message ends on a block. *)
Lemma holds_end h buf m : holds h buf 0 m -> (all_blocks m).1 = h.
Proof using Type. intros [-> _ _]. done. Qed.

End Blocks.

(** The zeros that take [len] bytes to [stop] modulo the block size [N]. *)
Definition zeros_to (N stop len : nat) : nat := Z.to_nat ((Z.of_nat stop - Z.of_nat len) mod Z.of_nat N).

Lemma zeros_to_done N stop len : (0 < N)%nat -> (stop < N)%nat -> (len mod N = stop)%nat -> zeros_to N stop len = 0%nat.
Proof.
  unfold zeros_to. intros HN Hs <-. rewrite Nat2Z.inj_mod, Zminus_mod_idemp_l, Z.sub_diag. by rewrite Z.mod_0_l by lia.
Qed.

Lemma zeros_to_step N stop len : (0 < N)%nat -> (stop < N)%nat -> (len mod N <> stop)%nat ->
  zeros_to N stop len = S (zeros_to N stop (len + 1)).
Proof.
  unfold zeros_to. intros HN Hs H. assert (Hz : Z.of_nat len mod Z.of_nat N <> Z.of_nat stop).
  { intros Hz. apply H. apply Nat2Z.inj. by rewrite Nat2Z.inj_mod. }
  clear H. rewrite Nat2Z.inj_add. change (Z.of_nat 1) with 1. generalize dependent (Z.of_nat len). intros L Hz.
  set (n := Z.of_nat N) in *. set (t := Z.of_nat stop) in *. assert (Hn : 0 < n) by lia. assert (Ht : 0 <= t < n) by lia. clearbody n t.
  pose proof (Z.mod_pos_bound (t - (L + 1)) n Hn).
  assert (Hr : (t - L) mod n = 1 + (t - (L + 1)) mod n); [|rewrite Hr, Z.add_comm, Z2Nat.inj_add by lia; lia].
  pose proof (Z.div_mod L n ltac:(lia)). pose proof (Z.mod_pos_bound L n ltac:(lia)).
  pose proof (Z.div_mod (t - (L + 1)) n ltac:(lia)) as E2. set (q := (t - (L + 1)) / n) in *. set (r := (t - (L + 1)) mod n) in *.
  symmetry. apply (Z.mod_unique _ _ q); [|lia]. left. split; [lia|].
  destruct (Z.eq_dec r (n - 1)) as [Er|]; [|lia]. exfalso. apply Hz.
  symmetry. apply (Z.mod_unique _ _ (- q - 1)); [by left|]. lia.
Qed.

Lemma zeros_to_bound N stop len : (0 < N)%nat -> (zeros_to N stop len < N)%nat.
Proof. unfold zeros_to. intros HN. pose proof (Z.mod_pos_bound (Z.of_nat stop - Z.of_nat len) (Z.of_nat N)). lia. Qed.
