(* ===== verification/Sha256.v ===== *)
(** * SHA-256 and HMAC ([trailryx-crypto/src/sha256.rs], [hmac.rs])

    The streaming hasher for other people's signatures, and the keyed hash that
    signs requests to an object store. [sha256_spec] is FIPS 180-4 on a whole
    message, [hmac_spec] the two nested hashes of RFC 2104. *)

From S2P Require Import Prelude Bytes Ids Record Digest Sha384 BlockHash.

Module Sha256.

Definition SHA256_BYTES : nat := 32.

(** Row by row. *)
Definition K : list Z := concat
  [[0x428a2f98; 0x71374491; 0xb5c0fbcf; 0xe9b5dba5]; [0x3956c25b; 0x59f111f1; 0x923f82a4; 0xab1c5ed5];
   [0xd807aa98; 0x12835b01; 0x243185be; 0x550c7dc3]; [0x72be5d74; 0x80deb1fe; 0x9bdc06a7; 0xc19bf174];
   [0xe49b69c1; 0xefbe4786; 0x0fc19dc6; 0x240ca1cc]; [0x2de92c6f; 0x4a7484aa; 0x5cb0a9dc; 0x76f988da];
   [0x983e5152; 0xa831c66d; 0xb00327c8; 0xbf597fc7]; [0xc6e00bf3; 0xd5a79147; 0x06ca6351; 0x14292967];
   [0x27b70a85; 0x2e1b2138; 0x4d2c6dfc; 0x53380d13]; [0x650a7354; 0x766a0abb; 0x81c2c92e; 0x92722c85];
   [0xa2bfe8a1; 0xa81a664b; 0xc24b8b70; 0xc76c51a3]; [0xd192e819; 0xd6990624; 0xf40e3585; 0x106aa070];
   [0x19a4c116; 0x1e376c08; 0x2748774c; 0x34b0bcb5]; [0x391c0cb3; 0x4ed8aa4a; 0x5b9cca4f; 0x682e6ff3];
   [0x748f82ee; 0x78a5636f; 0x84c87814; 0x8cc70208]; [0x90befffa; 0xa4506ceb; 0xbef9a3f7; 0xc67178f2]].

Definition INITIAL : list Z :=
  [0x6a09e667; 0xbb67ae85; 0x3c6ef372; 0xa54ff53a; 0x510e527f; 0x9b05688c; 0x1f83d9ab; 0x5be0cd19].

(** [wrapping_add], [u32::rotate_right] and [!x]. *)
Definition mask32 : Z := 0xffffffff.
Definition wadd (a b : Z) : Z := Z.land (a + b) mask32.
Definition rotate_right (x n : Z) : Z := Z.lor (Z.shiftr x n) (Z.land (Z.shiftl x (32 - n)) mask32).
Definition wnot (x : Z) : Z := Z.lxor x mask32.

Fixpoint block_words (n : nat) (block : list byte) : list Z :=
  match n with
  | O => []
  | S n => from_be_bytes (take 4 block) :: block_words n (drop 4 block)
  end.

(** [for i in 16..64]. *)
Fixpoint extend_schedule (n : nat) (w : list Z) : list Z :=
  match n with
  | O => w
  | S n =>
      let i := length w in
      let w15 := word w (i - 15) in
      let w2 := word w (i - 2) in
      let s0 := Z.lxor (Z.lxor (rotate_right w15 7) (rotate_right w15 18)) (Z.shiftr w15 3) in
      let s1 := Z.lxor (Z.lxor (rotate_right w2 17) (rotate_right w2 19)) (Z.shiftr w2 10) in
      extend_schedule n (w ++ [wadd (wadd (wadd (word w (i - 16)) s0) (word w (i - 7))) s1])
  end.

Definition schedule (block : list byte) : list Z := extend_schedule 48 (block_words 16 block).

Definition round (v : Vars) (k w : Z) : Vars :=
  let s1 := Z.lxor (Z.lxor (rotate_right v.(ve) 6) (rotate_right v.(ve) 11)) (rotate_right v.(ve) 25) in
  let ch := Z.lxor (Z.land v.(ve) v.(vf)) (Z.land (wnot v.(ve)) v.(vg)) in
  let t1 := wadd (wadd (wadd (wadd v.(vh) s1) ch) k) w in
  let s0 := Z.lxor (Z.lxor (rotate_right v.(va) 2) (rotate_right v.(va) 13)) (rotate_right v.(va) 22) in
  let maj := Z.lxor (Z.lxor (Z.land v.(va) v.(vb)) (Z.land v.(va) v.(vc))) (Z.land v.(vb) v.(vc)) in
  let t2 := wadd s0 maj in
  {| va := wadd t1 t2; vb := v.(va); vc := v.(vb); vd := v.(vc); ve := wadd v.(vd) t1; vf := v.(ve); vg := v.(vf); vh := v.(vg) |}.

Fixpoint rounds (ks ws : list Z) (v : Vars) : Vars :=
  match ks, ws with
  | k :: ks, w :: ws => rounds ks ws (round v k w)
  | _, _ => v
  end.

Definition compress (h : list Z) (block : list byte) : list Z :=
  let v := rounds K (schedule block)
    {| va := word h 0; vb := word h 1; vc := word h 2; vd := word h 3;
       ve := word h 4; vf := word h 5; vg := word h 6; vh := word h 7 |} in
  [wadd (word h 0) v.(va); wadd (word h 1) v.(vb); wadd (word h 2) v.(vc); wadd (word h 3) v.(vd);
   wadd (word h 4) v.(ve); wadd (word h 5) v.(vf); wadd (word h 6) v.(vg); wadd (word h 7) v.(vh)].

(** ** The streaming hasher *)

Record Sha256 := MkSha256 { h_state : list Z; h_buffer : list byte; h_buffered : nat; h_bits : Z }.

Definition new : Sha256 := MkSha256 INITIAL (repeat x00 64) 0 0.

(** [chunks_exact(64)], and the remainder into the buffer. *)
Definition update_blocks (bits : Z) (state : list Z) (buffer data : list byte) : Sha256 :=
  let '(state, tail) := blocks 64 compress (length data) state data in
  MkSha256 state (copy_at buffer 0 tail) (length tail) bits.

Definition update (s : Sha256) (data : list byte) : Sha256 :=
  let bits := as_u64 (s.(h_bits) + as_u64 (Z.of_nat (length data) * 8)) in
  if (0 <? s.(h_buffered))%nat then
    let tk := Nat.min (64 - s.(h_buffered)) (length data) in
    let buffer := copy_at s.(h_buffer) s.(h_buffered) (take tk data) in
    let buffered := (s.(h_buffered) + tk)%nat in
    let data := drop tk data in
    if (buffered <? 64)%nat then MkSha256 s.(h_state) buffer buffered bits
    else update_blocks bits (compress s.(h_state) buffer) buffer data
  else update_blocks bits s.(h_state) s.(h_buffer) data.

(** One byte of padding. *)
Definition push_raw (s : Sha256) (b : byte) : Sha256 :=
  let buffer := copy_at s.(h_buffer) s.(h_buffered) [b] in
  let buffered := (s.(h_buffered) + 1)%nat in
  if (buffered =? 64)%nat then MkSha256 (compress s.(h_state) buffer) buffer 0 s.(h_bits)
  else MkSha256 s.(h_state) buffer buffered s.(h_bits).

Definition update_raw (s : Sha256) (data : list byte) : Sha256 := fold_left push_raw data s.

(** [while self.buffered != 56]. *)
Fixpoint pad_zeros (fuel : nat) (s : Sha256) : Sha256 :=
  match fuel with
  | O => s
  | S fuel => if (s.(h_buffered) =? 56)%nat then s else pad_zeros fuel (update_raw s [x00])
  end.

Definition finish (s : Sha256) : list byte :=
  let bits := s.(h_bits) in
  let s := update_raw s [x80] in
  let s := pad_zeros 64 s in
  let s := update_raw s (to_be_bytes 8 bits) in
  concat (map (to_be_bytes 4) s.(h_state)).

Definition digest (data : list byte) : list byte := finish (update new data).

(** ** The specification: FIPS 180-4 on a whole message *)

Definition pad (m : list byte) : list byte :=
  m ++ [x80] ++ repeat x00 (zeros_to 64 56 (length m + 1)) ++ to_be_bytes 8 (8 * Z.of_nat (length m)).

Definition sha256_spec (m : list byte) : list byte :=
  concat (map (to_be_bytes 4) (all_blocks 64 compress INITIAL (pad m)).1).

(** ** The hasher computes it, however the message is cut *)

Definition repr (s : Sha256) (m : list byte) : Prop := holds 64 compress INITIAL s.(h_state) s.(h_buffer) s.(h_buffered) m.

Lemma repr_update_blocks bits state buffer m d : holds 64 compress INITIAL state buffer 0 m ->
  repr (update_blocks bits state buffer d) (m ++ d).
Proof.
  intros H. unfold update_blocks, repr. pose proof (holds_absorb 64 compress INITIAL ltac:(lia) _ _ _ d H) as Ha.
  by destruct (blocks _ _ _ _ _).
Qed.

Lemma repr256_update s m d : repr s m -> repr (update s d) (m ++ d).
Proof.
  intros H. unfold update. destruct (Nat.ltb_spec 0 (h_buffered s)) as [Hpos|Hz].
  - set (tk := Nat.min _ _). assert (Htk : length (take tk d) = tk) by (rewrite length_take; lia).
    pose proof (hl_fill _ _ _ _ _ _ _ H) as Hn. assert (Hfit : (h_buffered s + length (take tk d) <= 64)%nat) by lia.
    pose proof (holds_fill 64 compress INITIAL ltac:(lia) _ _ _ _ (take tk d) H Hfit) as Hf. rewrite Htk in Hf.
    destruct (Nat.ltb_spec (h_buffered s + tk) 64) as [Hlt|Hge].
    + replace (h_buffered s + tk =? 64)%nat with false in Hf by (symmetry; apply Nat.eqb_neq; lia).
      assert (Hall : take tk d = d) by (apply take_ge; lia). rewrite Hall in Hf |- *. exact Hf.
    + replace (h_buffered s + tk =? 64)%nat with true in Hf by (symmetry; apply Nat.eqb_eq; lia).
      replace (m ++ d) with ((m ++ take tk d) ++ drop tk d) by (rewrite <- app_assoc; by rewrite take_drop).
      by apply repr_update_blocks.
  - unfold repr in H. replace (h_buffered s) with 0%nat in H by lia. by apply repr_update_blocks.
Qed.

Lemma repr256_push s m b : repr s m -> repr (push_raw s b) (m ++ [b]) /\ h_bits (push_raw s b) = h_bits s.
Proof.
  intros H. unfold push_raw, repr. pose proof (hl_fill _ _ _ _ _ _ _ H) as Hn.
  assert (Hfit : (h_buffered s + length [b] <= 64)%nat) by (cbn; lia).
  pose proof (holds_fill 64 compress INITIAL ltac:(lia) _ _ _ _ [b] H Hfit) as Hf. cbn [length] in Hf.
  by destruct (_ =? 64)%nat.
Qed.

Lemma repr256_raw s m d : repr s m -> repr (update_raw s d) (m ++ d).
Proof.
  revert s m; induction d as [|b d IH]; intros s m H; [by rewrite app_nil_r|].
  change (b :: d) with ([b] ++ d). rewrite app_assoc. apply IH. by apply repr256_push.
Qed.

Lemma repr256_pad_zeros fuel s m : repr s m -> (zeros_to 64 56 (length m) <= fuel)%nat ->
  repr (pad_zeros fuel s) (m ++ repeat x00 (zeros_to 64 56 (length m))).
Proof.
  revert s m; induction fuel as [|fuel IH]; intros s m Hr Hf.
  { replace (zeros_to 64 56 (length m)) with 0%nat by lia. by rewrite app_nil_r. }
  cbn [pad_zeros]. rewrite (holds_fill_length 64 compress INITIAL ltac:(lia) _ _ _ _ Hr).
  destruct (Nat.eqb_spec (length m mod 64) 56) as [He|He].
  - rewrite zeros_to_done by (done || lia). by rewrite app_nil_r.
  - rewrite zeros_to_step in Hf |- * by (done || lia). apply (repr256_raw _ _ [x00]) in Hr.
    apply IH in Hr; rewrite length_app in *; cbn [length] in *; [|lia]. by rewrite <- app_assoc in Hr.
Qed.

Definition counted (s : Sha256) (m : list byte) : Prop := h_bits s = as_u64 (8 * Z.of_nat (length m)).

Lemma update_bits s d : h_bits (update s d) = as_u64 (h_bits s + as_u64 (Z.of_nat (length d) * 8)).
Proof. unfold update, update_blocks. repeat (case_match; try done). Qed.

Lemma counted_update s m d : counted s m -> counted (update s d) (m ++ d).
Proof.
  unfold counted. rewrite update_bits, length_app. intros ->. unfold as_u64.
  rewrite <- Zplus_mod. f_equal. lia.
Qed.

Lemma finish256_repr s m : repr s m -> counted s m -> finish s = sha256_spec m.
Proof.
  intros Hr Hc. unfold finish. rewrite Hc.
  assert (Hlen : to_be_bytes 8 (as_u64 (8 * Z.of_nat (length m))) = to_be_bytes 8 (8 * Z.of_nat (length m))).
  { unfold to_be_bytes. f_equal. rewrite <- (to_from_le_bytes (to_le_bytes 8 (8 * Z.of_nat (length m)))).
    by rewrite from_to_le_bytes, length_to_le_bytes. }
  rewrite Hlen. apply (repr256_raw _ _ [x80]) in Hr.
  apply (repr256_pad_zeros 64) in Hr; [|pose proof (zeros_to_bound 64 56 (length (m ++ [x80]))); lia].
  apply (repr256_raw _ _ (to_be_bytes 8 (8 * Z.of_nat (length m)))) in Hr.
  match type of Hr with repr ?x _ => generalize dependent x end. intros last [Ha _ _].
  unfold sha256_spec, pad. rewrite length_app in Ha. cbn [length] in Ha. rewrite <- !app_assoc in Ha. rewrite Ha. reflexivity.
Qed.

Lemma fold_update parts s m : repr s m -> counted s m ->
  repr (fold_left update parts s) (m ++ concat parts) /\ counted (fold_left update parts s) (m ++ concat parts).
Proof.
  revert s m; induction parts as [|d parts IH]; intros s m Hr Hc; cbn; [by rewrite app_nil_r|].
  rewrite app_assoc. apply IH; [by apply repr256_update|by apply counted_update].
Qed.

Lemma streaming parts : finish (fold_left update parts new) = sha256_spec (concat parts).
Proof.
  assert (H0 : repr new []) by (refine (holds_init 64 compress INITIAL _ (repeat x00 64) eq_refl); lia).
  destruct (fold_update parts new [] H0 eq_refl) as [Hr Hc]. exact (finish256_repr _ _ Hr Hc).
Qed.

Lemma digest_spec m : digest m = sha256_spec m.
Proof. rewrite <- (app_nil_r m) at 2. exact (streaming [m]). Qed.

Lemma length_blocks f h m : length h = 8%nat -> length (blocks 64 compress f h m).1 = 8%nat.
Proof. revert h m; induction f as [|f IH]; intros h m Hh; [done|]. cbn [blocks]. destruct (_ <=? _)%nat; [|done]. by apply IH. Qed.

Lemma length_sha256_spec m : length (sha256_spec m) = SHA256_BYTES.
Proof.
  unfold sha256_spec, all_blocks. pose proof (length_blocks (length (pad m)) INITIAL (pad m) eq_refl) as H.
  destruct (blocks _ _ _ _ _).1 as [|w0 [|w1 [|w2 [|w3 [|w4 [|w5 [|w6 [|w7 [|w8 ws]]]]]]]]]; done.
Qed.

(** ** HMAC *)

(** The block size that pads the key. *)
Definition BLOCK : nat := 64.

Definition xor_block (pad : Z) (padded : list byte) : list byte := (fun b => u8 (Z.lxor (u8v b) pad)) <$> padded.

Definition hmac_sha256 (key message : list byte) : list byte :=
  let padded := if (BLOCK <? length key)%nat then copy_at (repeat x00 BLOCK) 0 (digest key)
                else copy_at (repeat x00 BLOCK) 0 key in
  let inner := finish (update (update new (xor_block 0x36 padded)) message) in
  finish (update (update new (xor_block 0x5c padded)) inner).

(** The comparison of two tags, every byte of them looked at. *)
Definition verify (a b : list byte) : bool :=
  if negb (length a =? length b)%nat then false
  else (fold_left (fun diff xy => Z.lor diff (Z.lxor (u8v xy.1) (u8v xy.2))) (zip a b) 0 =? 0)%Z.

(** RFC 2104. *)
Definition hmac_spec (key message : list byte) : list byte :=
  let k0 := if (64 <? length key)%nat then sha256_spec key else key in
  let k := k0 ++ repeat x00 (64 - length k0) in
  sha256_spec (xor_block 0x5c k ++ sha256_spec (xor_block 0x36 k ++ message)).

Lemma hmac_is_rfc2104 key message : hmac_sha256 key message = hmac_spec key message.
Proof.
  unfold hmac_sha256, hmac_spec.
  assert (Hpad : (if (BLOCK <? length key)%nat then copy_at (repeat x00 BLOCK) 0 (digest key) else copy_at (repeat x00 BLOCK) 0 key) =
    (if (64 <? length key)%nat then sha256_spec key else key) ++ repeat x00 (64 - length (if (64 <? length key)%nat then sha256_spec key else key))).
  { unfold BLOCK. assert (Hc : forall d, (length d <= 64)%nat -> copy_at (repeat x00 64) 0 d = d ++ repeat x00 (64 - length d)).
    { intros d Hd. unfold copy_at. rewrite take_0. cbn [app]. rewrite Nat.add_0_l. f_equal.
      assert (E : repeat x00 64 = repeat x00 (length d) ++ repeat x00 (64 - length d)) by (rewrite <- repeat_app; f_equal; lia).
      rewrite E. apply drop_app_length'. by rewrite repeat_length. }
    destruct (Nat.ltb_spec 64 (length key)); [rewrite digest_spec; apply Hc; rewrite length_sha256_spec; unfold SHA256_BYTES; lia|by apply Hc]. }
  rewrite Hpad. set (k := _ ++ repeat _ _). clearbody k.
  assert (H2 : forall a b, finish (update (update new a) b) = sha256_spec (a ++ b)).
  { intros a b. pose proof (streaming [a; b]) as H. cbn in H. by rewrite app_nil_r in H. }
  by rewrite !H2.
Qed.

Lemma verify_iff a b : verify a b = true <-> a = b.
Proof.
  unfold verify. destruct (Nat.eqb_spec (length a) (length b)) as [E|E]; cbn [negb]; [|by split; [|intros ->]].
  assert (Hfold : forall d, 0 <= d -> fold_left (fun diff (xy : byte * byte) => Z.lor diff (Z.lxor (u8v xy.1) (u8v xy.2))) (zip a b) d = 0 <-> d = 0 /\ a = b).
  { revert b E; induction a as [|x a IH]; intros [|y b] E d Hd; cbn in E; try done; cbn [zip zip_with fold_left]; [by split; [|intros [-> _]]|].
    assert (Hx : 0 <= Z.lxor (u8v x) (u8v y)).
    { apply Z.lxor_nonneg. pose proof (u8v_range x). pose proof (u8v_range y). lia. }
    rewrite IH by (try (injection E; done); by apply Z.lor_nonneg). cbn [fst snd]. rewrite Z.lor_eq_0_iff, Z.lxor_eq_0_iff. split.
    - intros [[-> Exy] ->]. apply u8v_inj in Exy as ->. done.
    - intros [-> [= -> ->]]. done. }
  rewrite Z.eqb_eq, Hfold by lia. tauto.
Qed.

(** The published vectors. *)
Example vector_abc : Hash_to_hex (digest (lit "abc")) = lit "ba7816bf8f01cfea414140de5dae2223b00361a396177a9cb410ff61f20015ad".
Proof. vm_compute. reflexivity. Qed.

Example vector_rfc4231_2 : Hash_to_hex (hmac_sha256 (lit "Jefe") (lit "what do ya want for nothing?")) =
  lit "5bdcc146bf60754e6a042426089575c75a003f089d2739839dec58b964ec3843".
Proof. vm_compute. reflexivity. Qed.

End Sha256.
