(* ===== verification/VerifySha384.v ===== *)
(** * The verifier's own SHA-384 ([trailryx-verify/src/sha384.rs])

    The verifier depends on nothing of the store, so it has a second SHA-384,
    written with arrays and indices and its own buffering. It is modelled from its
    own source, tables included, and proved to compute the store's function. *)

From S2P Require Import Prelude Bytes Ids Record Digest Sha384 BlockHash.

(** ** Loops by index *)

Lemma fold_left_fmap {A B V} (f : V -> B -> V) (g : A -> B) l v : fold_left f (g <$> l) v = fold_left (fun v x => f v (g x)) l v.
Proof. revert v; induction l as [|x l IH]; intros v; [done|]. apply IH. Qed.

(** [for i in 0..n] over two arrays is the loop over their elements. *)
Lemma fold_index {V} (f : V -> Z -> Z -> V) ks ws v : length ks = length ws ->
  fold_left (fun v i => f v (word ks i) (word ws i)) (List.seq 0 (length ks)) v = fold_left (fun v x => f v x.1 x.2) (zip ks ws) v.
Proof.
  revert ws v; induction ks as [|k ks IH]; intros [|w ws] v E; cbn in E; try done. injection E as E.
  change (List.seq 0 (length (k :: ks))) with (0%nat :: List.seq 1 (length ks)). rewrite <- seq_shift. cbn [fold_left zip_with fst snd].
  change (map S (List.seq 0 (length ks))) with (S <$> List.seq 0 (length ks)). rewrite fold_left_fmap. by rewrite <- IH.
Qed.

(** An array filled up from index [length a], each entry from those below. *)
Fixpoint fill_up (next : list Z -> nat -> Z) (n : nat) (a : list Z) : list Z :=
  match n with O => a | S n => fill_up next n (a ++ [next a (length a)]) end.

Lemma fold_fill next n a : (forall a t, (16 <= length a)%nat -> next (a ++ t) (length a) = next a (length a)) -> (16 <= length a)%nat ->
  fold_left (fun w i => <[i := next w i]> w) (List.seq (length a) n) (a ++ repeat 0 n) = fill_up next n a.
Proof.
  intros Hnext. revert a; induction n as [|n IH]; intros a Ha; cbn [List.seq fold_left repeat fill_up]; [by rewrite app_nil_r|].
  rewrite Hnext by done. rewrite insert_app_r_alt by done. rewrite Nat.sub_diag. cbn [list_insert].
  change (insert 0%nat ?x (0 :: ?l)) with (x :: l).
  replace (a ++ next a (length a) :: repeat 0 n) with ((a ++ [next a (length a)]) ++ repeat 0 n) by (by rewrite <- app_assoc).
  rewrite <- IH by (rewrite length_app; lia). by rewrite length_app, Nat.add_1_r.
Qed.

Lemma word_app a t i : (i < length a)%nat -> word (a ++ t) i = word a i.
Proof. intros. by apply app_nth1. Qed.

(** ** SHA-384 *)

Module V384.

Definition K : list Z :=
  [0x428a2f98d728ae22; 0x7137449123ef65cd; 0xb5c0fbcfec4d3b2f; 0xe9b5dba58189dbbc;
   0x3956c25bf348b538; 0x59f111f1b605d019; 0x923f82a4af194f9b; 0xab1c5ed5da6d8118;
   0xd807aa98a3030242; 0x12835b0145706fbe; 0x243185be4ee4b28c; 0x550c7dc3d5ffb4e2;
   0x72be5d74f27b896f; 0x80deb1fe3b1696b1; 0x9bdc06a725c71235; 0xc19bf174cf692694;
   0xe49b69c19ef14ad2; 0xefbe4786384f25e3; 0x0fc19dc68b8cd5b5; 0x240ca1cc77ac9c65;
   0x2de92c6f592b0275; 0x4a7484aa6ea6e483; 0x5cb0a9dcbd41fbd4; 0x76f988da831153b5;
   0x983e5152ee66dfab; 0xa831c66d2db43210; 0xb00327c898fb213f; 0xbf597fc7beef0ee4;
   0xc6e00bf33da88fc2; 0xd5a79147930aa725; 0x06ca6351e003826f; 0x142929670a0e6e70;
   0x27b70a8546d22ffc; 0x2e1b21385c26c926; 0x4d2c6dfc5ac42aed; 0x53380d139d95b3df;
   0x650a73548baf63de; 0x766a0abb3c77b2a8; 0x81c2c92e47edaee6; 0x92722c851482353b;
   0xa2bfe8a14cf10364; 0xa81a664bbc423001; 0xc24b8b70d0f89791; 0xc76c51a30654be30;
   0xd192e819d6ef5218; 0xd69906245565a910; 0xf40e35855771202a; 0x106aa07032bbd1b8;
   0x19a4c116b8d2d0c8; 0x1e376c085141ab53; 0x2748774cdf8eeb99; 0x34b0bcb5e19b48a8;
   0x391c0cb3c5c95a63; 0x4ed8aa4ae3418acb; 0x5b9cca4f7763e373; 0x682e6ff3d6b2b8a3;
   0x748f82ee5defb2fc; 0x78a5636f43172f60; 0x84c87814a1f0ab72; 0x8cc702081a6439ec;
   0x90befffa23631e28; 0xa4506cebde82bde9; 0xbef9a3f7b2c67915; 0xc67178f2e372532b;
   0xca273eceea26619c; 0xd186b8c721c0c207; 0xeada7dd6cde0eb1e; 0xf57d4f7fee6ed178;
   0x06f067aa72176fba; 0x0a637dc5a2c898a6; 0x113f9804bef90dae; 0x1b710b35131c471b;
   0x28db77f523047d84; 0x32caab7b40c72493; 0x3c9ebe0a15c9bebc; 0x431d67c49c100d4c;
   0x4cc5d4becb3e42b6; 0x597f299cfc657e2a; 0x5fcb6fab3ad6faec; 0x6c44198c4a475817].

Definition INIT : list Z :=
  [0xcbbb9d5dc1059ed8; 0x629a292a367cd507; 0x9159015a3070dd17; 0x152fecd8f70e5939;
   0x67332667ffc00b31; 0x8eb44a8768581511; 0xdb0c2e0d64f98fa7; 0x47b5481dbefa4fa4].

Record Sha384 := MkSha384 { state : list Z; buffer : list byte; buffered : nat; total_bits : Z }.

Definition new : Sha384 := MkSha384 INIT (repeat x00 128) 0 0.

(** [w[i]] from the entries below. *)
Definition next_word (w : list Z) (i : nat) : Z :=
  let s0 := Z.lxor (Z.lxor (rotate_right (word w (i - 15)) 1) (rotate_right (word w (i - 15)) 8)) (Z.shiftr (word w (i - 15)) 7) in
  let s1 := Z.lxor (Z.lxor (rotate_right (word w (i - 2)) 19) (rotate_right (word w (i - 2)) 61)) (Z.shiftr (word w (i - 2)) 6) in
  wadd (wadd (wadd (word w (i - 16)) s0) (word w (i - 7))) s1.

Definition round (v : Vars) (k w : Z) : Vars :=
  let s1 := Z.lxor (Z.lxor (rotate_right v.(ve) 14) (rotate_right v.(ve) 18)) (rotate_right v.(ve) 41) in
  let ch := Z.lxor (Z.land v.(ve) v.(vf)) (Z.land (wnot v.(ve)) v.(vg)) in
  let t1 := wadd (wadd (wadd (wadd v.(vh) s1) ch) k) w in
  let s0 := Z.lxor (Z.lxor (rotate_right v.(va) 28) (rotate_right v.(va) 34)) (rotate_right v.(va) 39) in
  let maj := Z.lxor (Z.lxor (Z.land v.(va) v.(vb)) (Z.land v.(va) v.(vc))) (Z.land v.(vb) v.(vc)) in
  let t2 := wadd s0 maj in
  {| va := wadd t1 t2; vb := v.(va); vc := v.(vb); vd := v.(vc); ve := wadd v.(vd) t1; vf := v.(ve); vg := v.(vf); vh := v.(vg) |}.

Definition compress (h : list Z) (block : list byte) : list Z :=
  let w := (fun i => from_be_bytes (slice block (i * 8) 8)) <$> List.seq 0 16 in
  let w := fold_left (fun w i => <[i := next_word w i]> w) (List.seq 16 64) (w ++ repeat 0 64) in
  let v := fold_left (fun v i => round v (word K i) (word w i)) (List.seq 0 80)
    {| va := word h 0; vb := word h 1; vc := word h 2; vd := word h 3;
       ve := word h 4; vf := word h 5; vg := word h 6; vh := word h 7 |} in
  zip_with wadd h [v.(va); v.(vb); v.(vc); v.(vd); v.(ve); v.(vf); v.(vg); v.(vh)].

Definition update (s : Sha384) (data : list byte) : Sha384 :=
  let bits := s.(total_bits) + Z.of_nat (length data) * 8 in
  let '(st, buf, n, data) :=
    if (0 <? s.(buffered))%nat then
      let tk := Nat.min (128 - s.(buffered)) (length data) in
      let buf := copy_at s.(buffer) s.(buffered) (take tk data) in
      let n := (s.(buffered) + tk)%nat in
      if (n =? 128)%nat then (compress s.(state) buf, buf, 0%nat, drop tk data) else (s.(state), buf, n, drop tk data)
    else (s.(state), s.(buffer), s.(buffered), data) in
  let '(st, data) := blocks 128 compress (length data) st data in
  if negb (length data =? 0)%nat then MkSha384 st (copy_at buf 0 data) (length data) bits
  else MkSha384 st buf n bits.

(** [while (self.buffered + tail.len()) % 128 != 112]. *)
Fixpoint push_zeros (fuel buffered : nat) (tail : list byte) : list byte :=
  match fuel with
  | O => tail
  | S fuel => if negb ((buffered + length tail) mod 128 =? 112)%nat then push_zeros fuel buffered (tail ++ [x00]) else tail
  end.

(** [while !data.is_empty()]: every turn takes at least one byte. *)
Fixpoint drain (fuel : nat) (s : Sha384) (data : list byte) : Sha384 :=
  match fuel, data with
  | S fuel, _ :: _ =>
      let tk := Nat.min (128 - s.(buffered)) (length data) in
      let buf := copy_at s.(buffer) s.(buffered) (take tk data) in
      let n := (s.(buffered) + tk)%nat in
      drain fuel (if (n =? 128)%nat then MkSha384 (compress s.(state) buf) buf 0 s.(total_bits)
                  else MkSha384 s.(state) buf n s.(total_bits)) (drop tk data)
  | _, _ => s
  end.

Definition finish (s : Sha384) : Hash :=
  let bits := s.(total_bits) in
  let tail := push_zeros 128 s.(buffered) [x80] ++ to_be_bytes 16 bits in
  let s := drain (length tail) s tail in
  concat (map (to_be_bytes 8) (take 6 s.(state))).

Definition digest (data : list byte) : Hash := finish (update new data).

End V384.

(** ** They are the store's functions *)

Lemma K384_same : V384.K = Sha384.K. Proof. reflexivity. Qed.

Lemma rounds_fold ks ws v : rounds ks ws v = fold_left (fun v x => Sha384.round v x.1 x.2) (zip ks ws) v.
Proof. revert ws v; induction ks as [|k ks IH]; intros [|w ws] v; try done. apply IH. Qed.

Lemma fill_up_384 n a : fill_up V384.next_word n a = extend_schedule n a.
Proof. revert a; induction n as [|n IH]; intros a; [done|]. apply IH. Qed.

Lemma next_384_below a t : (16 <= length a)%nat -> V384.next_word (a ++ t) (length a) = V384.next_word a (length a).
Proof. intros Ha. unfold V384.next_word. by rewrite !word_app by lia. Qed.

(** The words of a block, by index or one after the other. *)
Lemma words_by_index k n (block : list byte) :
  (fun i => from_be_bytes (slice block (i * k) k)) <$> List.seq 0 n =
  (fix words n block := match n with O => [] | S n => from_be_bytes (take k block) :: words n (drop k block) end) n block.
Proof.
  revert block; induction n as [|n IH]; intros block; [done|]. change (List.seq 0 (S n)) with (0%nat :: List.seq 1 n).
  rewrite <- seq_shift, fmap_cons. f_equal. rewrite <- IH.
  change (map S (List.seq 0 n)) with (S <$> List.seq 0 n). rewrite <- list_fmap_compose. apply list_fmap_ext.
  intros i x _. cbn. unfold slice. by rewrite drop_drop.
Qed.

Lemma extend_schedule_length n a : length (extend_schedule n a) = (length a + n)%nat.
Proof. revert a; induction n as [|n IH]; intros a; cbn [extend_schedule]; [lia|]. rewrite IH, length_app. cbn. lia. Qed.

Lemma list_of_8 (h : list Z) : length h = 8%nat ->
  h = [word h 0; word h 1; word h 2; word h 3; word h 4; word h 5; word h 6; word h 7].
Proof. intros H. do 8 (destruct h as [|? h]; [done|]). by destruct h. Qed.

Lemma compress_384_same h block : length h = 8%nat -> V384.compress h block = Sha384.compress h block.
Proof.
  intros Hh. unfold V384.compress, Sha384.compress. 
  assert (E : (fun i => from_be_bytes (slice block (i * 8) 8)) <$> List.seq 0 16 = block_words 16 block) by exact (words_by_index 8 16 block).
  rewrite E. clear E. unfold schedule. assert (Hl : length (block_words 16 block) = 16%nat) by done.
  generalize dependent (block_words 16 block). intros w16 Hl.
  assert (Hw : fold_left (fun w i => <[i := V384.next_word w i]> w) (List.seq 16 64) (w16 ++ repeat 0 64) = extend_schedule 64 w16).
  { rewrite <- Hl at 1. rewrite fold_fill; [apply fill_up_384|apply next_384_below|lia]. }
  rewrite Hw. clear Hw. assert (Hs : length (extend_schedule 64 w16) = 80%nat) by (by rewrite extend_schedule_length, Hl).
  generalize dependent (extend_schedule 64 w16). intros ws Hs.
  rewrite rounds_fold. change (List.seq 0 80) with (List.seq 0 (length V384.K)). rewrite fold_index by (by rewrite Hs).
  change V384.round with Sha384.round. rewrite K384_same. generalize (fold_left (fun v x => Sha384.round v x.1 x.2) (zip Sha384.K ws)).
  intros run. rewrite (list_of_8 h Hh) at 1. reflexivity.
Qed.

(** Whole blocks through either. *)
Lemma blocks_same N (c1 c2 : list Z -> list byte -> list Z) f h m :
  (forall h b, length h = 8%nat -> c1 h b = c2 h b) -> (forall h b, length (c2 h b) = 8%nat) -> length h = 8%nat ->
  blocks N c1 f h m = blocks N c2 f h m.
Proof.
  intros Hc Hl. revert h m; induction f as [|f IH]; intros h m Hh; [done|]. cbn [blocks].
  destruct (_ <=? _)%nat; [|done]. rewrite Hc by done. apply IH, Hl.
Qed.

Lemma blocks_absorb f h m : blocks 128 Sha384.compress f h m = absorb f h m.
Proof. revert h m; induction f as [|f IH]; intros h m; [done|]. cbn [blocks absorb]. change BLOCK with 128%nat. destruct (_ <=? _)%nat; [apply IH|done]. Qed.

(** ** The verifier's SHA-384, however its input arrives *)

Definition vrepr (s : V384.Sha384) (m : list byte) : Prop :=
  holds 128 V384.compress V384.INIT s.(V384.state) s.(V384.buffer) s.(V384.buffered) m /\
  s.(V384.total_bits) = 8 * Z.of_nat (length m).

Lemma vrepr_update s m d : vrepr s m -> vrepr (V384.update s d) (m ++ d).
Proof.
  intros [H Hb]. unfold V384.update. set (bits := _ + _).
  assert (Hbits : bits = 8 * Z.of_nat (length (m ++ d))) by (unfold bits; rewrite length_app; lia). clearbody bits.
  assert (Htail : forall st buf n d' m', holds 128 V384.compress V384.INIT st buf n m' -> (n = 0%nat \/ d' = []) -> m' ++ d' = m ++ d ->
    vrepr (let '(st, data) := blocks 128 V384.compress (length d') st d' in
           if negb (length data =? 0)%nat then V384.MkSha384 st (copy_at buf 0 data) (length data) bits else V384.MkSha384 st buf n bits) (m ++ d)).
  { intros st buf n d' m' Hh Hor E. destruct Hor as [-> | ->].
    - pose proof (holds_absorb 128 V384.compress V384.INIT ltac:(lia) _ _ _ d' Hh) as Ha. pose proof (hl_buf _ _ _ _ _ _ _ Hh) as Hlb.
      destruct (blocks _ _ _ _ _) as [st' r]. destruct (Nat.eqb_spec (length r) 0) as [Hr|Hr]; cbn [negb]; (split; [|exact Hbits]); cbn; rewrite <- E.
      + apply nil_length_inv in Hr as ->. exact Ha.
      + exact Ha.
    - cbn [length blocks Nat.eqb negb]. split; [|exact Hbits]. cbn. rewrite <- E. by rewrite app_nil_r. }
  destruct (Nat.ltb_spec 0 (V384.buffered s)) as [Hpos|Hz].
  2: { apply (Htail _ _ _ _ m); [done|left; lia|done]. }
  set (tk := Nat.min _ _). assert (Htk : length (take tk d) = tk) by (rewrite length_take; lia).
  pose proof (hl_fill _ _ _ _ _ _ _ H) as Hn. assert (Hfit : (V384.buffered s + length (take tk d) <= 128)%nat) by lia.
  pose proof (holds_fill 128 V384.compress V384.INIT ltac:(lia) _ _ _ _ (take tk d) H Hfit) as Hf. rewrite Htk in Hf.
  assert (Hsplit : (m ++ take tk d) ++ drop tk d = m ++ d) by (rewrite <- app_assoc; by rewrite take_drop).
  destruct (Nat.eqb_spec (V384.buffered s + tk) 128) as [Hfull|Hpart]; (eapply Htail; [exact Hf| |exact Hsplit]).
  - by left.
  - right. apply drop_ge. lia.
Qed.

Lemma drain_holds fuel s m d : holds 128 V384.compress V384.INIT s.(V384.state) s.(V384.buffer) s.(V384.buffered) m -> (length d <= fuel)%nat ->
  let s' := V384.drain fuel s d in holds 128 V384.compress V384.INIT s'.(V384.state) s'.(V384.buffer) s'.(V384.buffered) (m ++ d).
Proof.
  revert s m d; induction fuel as [|fuel IH]; intros s m [|b d0] H Hf; try (cbn in Hf; lia); try (cbn; by rewrite app_nil_r).
  cbn [V384.drain]. set (d := b :: d0) in *. set (tk := Nat.min _ _).
  pose proof (hl_fill _ _ _ _ _ _ _ H) as Hn. assert (Htk : length (take tk d) = tk) by (rewrite length_take; lia).
  assert (Hpos : (0 < tk)%nat) by (unfold tk, d; cbn [length]; lia).
  assert (Hfit : (V384.buffered s + length (take tk d) <= 128)%nat) by lia.
  pose proof (holds_fill 128 V384.compress V384.INIT ltac:(lia) _ _ _ _ (take tk d) H Hfit) as Hh. rewrite Htk in Hh.
  replace (m ++ d) with ((m ++ take tk d) ++ drop tk d) by (rewrite <- app_assoc; by rewrite take_drop).
  apply IH; [by destruct (_ =? 128)%nat|]. rewrite length_drop. lia.
Qed.

Lemma push_zeros_384 fuel n tail : (zeros_to 128 112 (n + length tail) <= fuel)%nat ->
  V384.push_zeros fuel n tail = tail ++ repeat x00 (zeros_to 128 112 (n + length tail)).
Proof.
  revert tail; induction fuel as [|fuel IH]; intros tail Hf; cbn [V384.push_zeros].
  { replace (zeros_to 128 112 (n + length tail)) with 0%nat by lia. by rewrite app_nil_r. }
  destruct (Nat.eqb_spec ((n + length tail) mod 128) 112) as [He|He]; cbn [negb].
  - rewrite zeros_to_done by (done || lia). by rewrite app_nil_r.
  - rewrite zeros_to_step in Hf |- * by (done || lia). rewrite IH; rewrite length_app; cbn [length];
      rewrite Nat.add_assoc; [by rewrite <- app_assoc|lia].
Qed.

(** The zeros depend on the length modulo the block only. *)
Lemma zeros_to_mod N stop a b : (0 < N)%nat -> (a mod N = b mod N)%nat -> zeros_to N stop a = zeros_to N stop b.
Proof.
  unfold zeros_to. intros HN E. apply (f_equal Z.of_nat) in E. rewrite !Nat2Z.inj_mod in E. f_equal.
  by rewrite <- (Zminus_mod_idemp_r (Z.of_nat stop) (Z.of_nat a)), E, Zminus_mod_idemp_r.
Qed.

Lemma vfinish_repr s m : vrepr s m -> V384.finish s = sha384_spec m.
Proof.
  intros [H Hb]. unfold V384.finish. rewrite Hb.
  pose proof (holds_fill_length 128 V384.compress V384.INIT ltac:(lia) _ _ _ _ H) as Hn.
  rewrite push_zeros_384 by (pose proof (zeros_to_bound 128 112 (V384.buffered s + length [x80])); lia). cbn [length].
  assert (Hz : zeros_to 128 112 (V384.buffered s + 1) = Z.to_nat ((111 - Z.of_nat (length m)) mod 128)).
  { rewrite (zeros_to_mod 128 112 _ (length m + 1)) by (try lia; rewrite Hn; by rewrite Nat.Div0.add_mod_idemp_l).
    unfold zeros_to. do 2 f_equal. lia. }
  rewrite Hz. rewrite <- app_assoc. match goal with |- context [V384.drain ?f s ?t] => pose proof (drain_holds f s m t H ltac:(lia)) as Hd;
    generalize dependent (V384.drain f s t) end.
  intros s' [Ha _ _]. unfold sha384_spec. rewrite <- blocks_absorb.
  rewrite <- (blocks_same 128 V384.compress Sha384.compress) by (first [apply compress_384_same|done]).
  unfold all_blocks in Ha. unfold pad. change V384.INIT with IV in Ha. rewrite Ha. reflexivity.
Qed.

Lemma vfold_repr parts s m : vrepr s m -> vrepr (fold_left V384.update parts s) (m ++ concat parts).
Proof.
  revert s m; induction parts as [|d parts IH]; intros s m H; cbn [fold_left concat]; [by rewrite app_nil_r|].
  rewrite app_assoc. by apply IH, vrepr_update.
Qed.

Example verifier_abc : Hash_to_hex (V384.digest (lit "abc")) =
  lit "cb00753f45a35e8bb5a03d699ac65007272c32ab0eded1631a8b605a43ff5bed8086072ba1e7cc2358baeca134c825a7".
Proof. vm_compute. reflexivity. Qed.
