(* ===== verification/VerifySha256.v ===== *)
(** * The verifier's own SHA-256 ([trailryx-verify/src/sha256.rs])

    One shot over the padded message. It is the streaming SHA-256 of
    [trailryx-crypto], as the verifier's SHA-384 is the store's. *)

From S2P Require Import Prelude Bytes Ids Record Digest Sha384 BlockHash Sha256 VerifySha384.

Module V256.

(** Row by row. *)
Definition K : list Z := concat
  [[0x428a2f98; 0x71374491; 0xb5c0fbcf; 0xe9b5dba5]; [0x3956c25b; 0x59f111f1; 0x923f82a4; 0xab1c5ed5];
   [0xd807aa98; 0x12835b01; 0x243185be; 0x550c7dc3]; [0x72be5d74; 0x80deb1fe; 0x9bdc06a7; 0xc19bf174];
   [0xe49b69c1; 0xefbe4786; 0x0fc19dc6; 0x240ca1cc]; [0x2de92c6f; 0x4a7484aa; 0x5cb0a9dc; 0x76f988da];
   [0x983e5152; 0xa831c66d; 0xb00327c8; 0xbf597fc7]; [0xc6e00bf3; 0xd5a79147; 0x06ca6351; 0x14292967];
   [0x27b70a85; 0x2e1b2138; 0x4d2c6dfc; 0x53380d13]; [0x650a7354; 0x766a0abb; 0x81c2c92e; 0x92722c85];
   [0xa2bfe8a1; 0xa81a664b; 0xc24b8b70; 0xc76c51a3]; [0xd192e819; 0xd6990624; 0xf40e3585; 0x106aa070];
   [0x19a4c116; 0x1e376c08; 0x2748774c; 0x34b0bcb5]; [0x391c0cb3; 0x4ed8aa4a; 0x5b9cca4f; 0x682e6ff3];
   [0x748f82ee; 0x78a5636f; 0x84c87814; 0x8cc70208]; [0x90befffa; 0xa4506ceb; 0xbef9a3f7; 0xc67178f2]].

Definition INITIAL : list Z :=
  [0x6a09e667; 0xbb67ae85; 0x3c6ef372; 0xa54ff53a; 0x510e527f; 0x9b05688c; 0x1f83d9ab; 0x5be0cd19].

Definition next_word (w : list Z) (i : nat) : Z :=
  let s0 := Z.lxor (Z.lxor (Sha256.rotate_right (word w (i - 15)) 7) (Sha256.rotate_right (word w (i - 15)) 18)) (Z.shiftr (word w (i - 15)) 3) in
  let s1 := Z.lxor (Z.lxor (Sha256.rotate_right (word w (i - 2)) 17) (Sha256.rotate_right (word w (i - 2)) 19)) (Z.shiftr (word w (i - 2)) 10) in
  Sha256.wadd (Sha256.wadd (Sha256.wadd (word w (i - 16)) s0) (word w (i - 7))) s1.

Definition round (v : Vars) (k w : Z) : Vars :=
  let s1 := Z.lxor (Z.lxor (Sha256.rotate_right v.(ve) 6) (Sha256.rotate_right v.(ve) 11)) (Sha256.rotate_right v.(ve) 25) in
  let ch := Z.lxor (Z.land v.(ve) v.(vf)) (Z.land (Sha256.wnot v.(ve)) v.(vg)) in
  let t1 := Sha256.wadd (Sha256.wadd (Sha256.wadd (Sha256.wadd v.(vh) s1) ch) k) w in
  let s0 := Z.lxor (Z.lxor (Sha256.rotate_right v.(va) 2) (Sha256.rotate_right v.(va) 13)) (Sha256.rotate_right v.(va) 22) in
  let maj := Z.lxor (Z.lxor (Z.land v.(va) v.(vb)) (Z.land v.(va) v.(vc))) (Z.land v.(vb) v.(vc)) in
  let t2 := Sha256.wadd s0 maj in
  {| va := Sha256.wadd t1 t2; vb := v.(va); vc := v.(vb); vd := v.(vc); ve := Sha256.wadd v.(vd) t1; vf := v.(ve); vg := v.(vf); vh := v.(vg) |}.

(** [block.as_chunks::<4>()]. *)
Definition compress (h : list Z) (block : list byte) : list Z :=
  let w := (fun i => from_be_bytes (slice block (i * 4) 4)) <$> List.seq 0 16 in
  let w := fold_left (fun w i => <[i := next_word w i]> w) (List.seq 16 48) (w ++ repeat 0 48) in
  let v := fold_left (fun v i => round v (word K i) (word w i)) (List.seq 0 64)
    {| va := word h 0; vb := word h 1; vc := word h 2; vd := word h 3;
       ve := word h 4; vf := word h 5; vg := word h 6; vh := word h 7 |} in
  zip_with Sha256.wadd h [v.(va); v.(vb); v.(vc); v.(vd); v.(ve); v.(vf); v.(vg); v.(vh)].

(** [while padded.len() % 64 != 56]. *)
Fixpoint push_zeros (fuel : nat) (padded : list byte) : list byte :=
  match fuel with
  | O => padded
  | S fuel => if negb (length padded mod 64 =? 56)%nat then push_zeros fuel (padded ++ [x00]) else padded
  end.

Definition digest (message : list byte) : list byte :=
  let padded := push_zeros 64 (message ++ [x80]) in
  let bits := as_u64 (Z.of_nat (length message) * 8) in
  let padded := padded ++ to_be_bytes 8 bits in
  let '(state, _) := blocks 64 compress (length padded) INITIAL padded in
  concat (map (to_be_bytes 4) state).

End V256.

(** ** It is the store's function *)

Lemma K256_same : V256.K = Sha256.K. Proof. reflexivity. Qed.

Lemma rounds256_fold ks ws v : Sha256.rounds ks ws v = fold_left (fun v x => Sha256.round v x.1 x.2) (zip ks ws) v.
Proof. revert ws v; induction ks as [|k ks IH]; intros [|w ws] v; try done. apply IH. Qed.

Lemma fill_up_256 n a : fill_up V256.next_word n a = Sha256.extend_schedule n a.
Proof. revert a; induction n as [|n IH]; intros a; [done|]. apply IH. Qed.

Lemma next_256_below a t : (16 <= length a)%nat -> V256.next_word (a ++ t) (length a) = V256.next_word a (length a).
Proof. intros Ha. unfold V256.next_word. by rewrite !word_app by lia. Qed.

Lemma extend256_length n a : length (Sha256.extend_schedule n a) = (length a + n)%nat.
Proof. revert a; induction n as [|n IH]; intros a; cbn [Sha256.extend_schedule]; [lia|]. rewrite IH, length_app. cbn. lia. Qed.

Lemma compress_256_same h block : length h = 8%nat -> V256.compress h block = Sha256.compress h block.
Proof.
  intros Hh. unfold V256.compress, Sha256.compress. 
  assert (E : (fun i => from_be_bytes (slice block (i * 4) 4)) <$> List.seq 0 16 = Sha256.block_words 16 block) by exact (words_by_index 4 16 block).
  rewrite E. clear E. unfold Sha256.schedule. assert (Hl : length (Sha256.block_words 16 block) = 16%nat) by done.
  generalize dependent (Sha256.block_words 16 block). intros w16 Hl.
  assert (Hw : fold_left (fun w i => <[i := V256.next_word w i]> w) (List.seq 16 48) (w16 ++ repeat 0 48) = Sha256.extend_schedule 48 w16).
  { rewrite <- Hl at 1. rewrite fold_fill; [apply fill_up_256|apply next_256_below|lia]. }
  rewrite Hw. clear Hw. assert (Hs : length (Sha256.extend_schedule 48 w16) = 64%nat) by (by rewrite extend256_length, Hl).
  generalize dependent (Sha256.extend_schedule 48 w16). intros ws Hs.
  rewrite rounds256_fold. change (List.seq 0 64) with (List.seq 0 (length V256.K)). rewrite fold_index by (by rewrite Hs).
  change V256.round with Sha256.round. rewrite K256_same. generalize (fold_left (fun v x => Sha256.round v x.1 x.2) (zip Sha256.K ws)).
  intros run. rewrite (list_of_8 h Hh) at 1. reflexivity.
Qed.

Lemma push_zeros_256 fuel m : (zeros_to 64 56 (length m) <= fuel)%nat ->
  V256.push_zeros fuel m = m ++ repeat x00 (zeros_to 64 56 (length m)).
Proof.
  revert m; induction fuel as [|fuel IH]; intros m Hf; cbn [V256.push_zeros].
  { replace (zeros_to 64 56 (length m)) with 0%nat by lia. by rewrite app_nil_r. }
  destruct (Nat.eqb_spec (length m mod 64) 56) as [He|He]; cbn [negb].
  - rewrite zeros_to_done by (done || lia). by rewrite app_nil_r.
  - rewrite zeros_to_step in Hf |- * by (done || lia). rewrite IH; rewrite length_app; cbn [length]; [by rewrite <- app_assoc|lia].
Qed.

(** C25 (two implementations, one function). The verifier's SHA-384, with its own
    tables, its own schedule and its own buffering, gives whatever it is fed in
    pieces the digest the store's gives for the whole; its one-shot SHA-256 gives
    what the store's streaming one gives for any cutting; and the request-signing
    HMAC over the latter is the one of RFC 2104, compared by value. *)
Theorem the_two_implementations_agree (parts parts' : list (list byte)) (key message tag : list byte) :
  V384.finish (fold_left V384.update parts V384.new) = Digest.digest (concat parts) /\
  V256.digest (concat parts) = Sha256.sha256_spec (concat parts) /\
  Sha256.finish (fold_left Sha256.update parts' Sha256.new) = V256.digest (concat parts') /\
  Sha256.hmac_sha256 key message = Sha256.hmac_spec key message /\
  (Sha256.verify (Sha256.hmac_sha256 key message) tag = true <-> tag = Sha256.hmac_spec key message).
Proof.
  assert (H256 : forall m, V256.digest m = Sha256.sha256_spec m).
  { intros m. unfold V256.digest. rewrite push_zeros_256 by (pose proof (zeros_to_bound 64 56 (length (m ++ [x80]))); lia).
    assert (E : ((m ++ [x80]) ++ repeat x00 (zeros_to 64 56 (length (m ++ [x80])))) ++ to_be_bytes 8 (as_u64 (Z.of_nat (length m) * 8)) = Sha256.pad m).
    { unfold Sha256.pad. rewrite length_app, <- !app_assoc. do 3 f_equal. unfold to_be_bytes. f_equal. rewrite Z.mul_comm.
      rewrite <- (to_from_le_bytes (to_le_bytes 8 (8 * Z.of_nat (length m)))). by rewrite from_to_le_bytes, length_to_le_bytes. }
    rewrite E. unfold Sha256.sha256_spec, all_blocks.
    rewrite <- (blocks_same 64 V256.compress Sha256.compress) by (first [apply compress_256_same|done]).
    change V256.INITIAL with Sha256.INITIAL. by destruct (blocks _ _ _ _ _). }
  split; [|split; [done|split; [by rewrite H256; apply Sha256.streaming|split; [apply Sha256.hmac_is_rfc2104|]]]].
  - assert (H0 : vrepr V384.new []) by (split; [refine (holds_init 128 V384.compress V384.INIT _ (repeat x00 128) eq_refl); lia|done]).
    pose proof (vfold_repr parts _ _ H0) as H. rewrite digest_sha384_spec. exact (vfinish_repr _ _ H).
  - rewrite Sha256.verify_iff, Sha256.hmac_is_rfc2104. by split.
Qed.
