(* ===== verification/Inflate.v ===== *)
(** * Gzip, decoded with bounds ([trailryx-ingest/src/inflate.rs])

    The decoder at the trust boundary: bits of a byte slice, canonical Huffman
    codes, the three kinds of block, the output with its ceiling, its ratio and its
    work meter, and the container. Loops that read the stream run on fuel, [None]
    when it is short; every turn of them reads a bit, so the bits of the input are
    fuel enough. *)

From S2P Require Import Prelude Bytes Wire.

Inductive InflateError :=
  | BadMagic | UnsupportedMethod (m : Z) | ReservedFlags (b : Z) | Truncated | ReservedBlockType | BadHuffmanTable
  | BadSymbol (s : nat) | DistanceTooFar | StoredLengthMismatch | ChecksumMismatch | LengthMismatch
  | OutputTooLarge | RatioTooHigh | TooMuchWork | TrailerNotWhereTheStreamEnded.

#[export] Instance InflateError_eq_dec : EqDecision InflateError.
Proof. solve_decision. Defined.

Record Bounds := MkBounds { max_output : Z; max_ratio : Z; ratio_after_output : Z }.

Definition Bounds_default : Bounds := MkBounds (16 * 1024 * 1024) 200 (64 * 1024).

(** ** Bits *)

(** The slice, the next unread byte, and what is held of the current one, least
    significant bit first. *)
Record Bits := MkBits { bt_data : list byte; bt_pos : nat; bt_buffer : Z; bt_count : nat }.

Definition Bits_new (data : list byte) : Bits := MkBits data 0 0 0.

Definition BitReader (A : Type) : Type := Bits -> result InflateError (A * Bits).

#[export] Instance br_ret : MRet BitReader := fun _ a b => Ok (a, b).
#[export] Instance br_bind : MBind BitReader := fun _ _ f m b =>
  match m b with Ok (a, b) => f a b | Err e => Err e end.

Definition br_fail {A} (e : InflateError) : BitReader A := fun _ => Err e.

Definition bit : BitReader Z := fun b =>
  let take_one b := Ok (Z.land b.(bt_buffer) 1, MkBits b.(bt_data) b.(bt_pos) (Z.shiftr b.(bt_buffer) 1) (b.(bt_count) - 1)) in
  if (b.(bt_count) =? 0)%nat then
    match b.(bt_data) !! b.(bt_pos) with
    | None => Err Truncated
    | Some x => take_one (MkBits b.(bt_data) (b.(bt_pos) + 1) (u8v x) 8)
    end
  else take_one b.

(** [for i in 0..n { value |= self.bit()? << i }]. *)
Fixpoint bits_from (n : nat) (i : Z) (value : Z) : BitReader Z :=
  match n with
  | O => mret value
  | S n => x ← bit; bits_from n (i + 1) (Z.lor value (Z.shiftl x i))
  end.

Definition bits (n : nat) : BitReader Z := bits_from n 0 0.

Definition align (b : Bits) : Bits := MkBits b.(bt_data) b.(bt_pos) 0 0.

Definition consumed (b : Bits) : nat := b.(bt_pos).

(** ** Huffman *)

Inductive Completeness := Required | AsSpecified.

Record Huffman := MkHuffman { hf_counts : list nat; hf_symbols : list nat }.

(** Codes per length; length zero is absence. *)
Definition count_lengths (lengths : list nat) : list nat :=
  <[0%nat := 0%nat]> (fold_left (fun counts len => <[len := S (nth len counts 0%nat)]> counts) lengths (repeat 0%nat 16)).

(** What the lengths leave of the tree; [None] when they take more than there is. *)
Fixpoint tree_left (counts : list nat) (left_ : Z) : option Z :=
  match counts with
  | [] => Some left_
  | c :: counts => let left_ := 2 * left_ - Z.of_nat c in if left_ <? 0 then None else tree_left counts left_
  end.

Definition first_offsets (counts : list nat) : list nat :=
  fold_left (fun offsets len => <[(len + 1)%nat := (nth len offsets 0 + nth len counts 0)%nat]> offsets) (seq 1 14) (repeat 0%nat 16).

(** The symbols in the order of their codes. *)
Definition place_symbol (st : list nat * list nat) (x : nat * nat) : list nat * list nat :=
  let '(symbols, offsets) := st in
  let '(symbol, len) := x in
  if negb (len =? 0)%nat then (<[nth len offsets 0%nat := symbol]> symbols, <[len := S (nth len offsets 0%nat)]> offsets)
  else (symbols, offsets).

Definition place_symbols (lengths offsets : list nat) : list nat * list nat :=
  fold_left place_symbol (zip (seq 0 (length lengths)) lengths) (repeat 0%nat (length lengths), offsets).

Definition build (lengths : list nat) (completeness : Completeness) : result InflateError Huffman :=
  let counts := count_lengths lengths in
  match tree_left (tail counts) 1 with
  | None => Err BadHuffmanTable
  | Some left_ =>
      let symbols_used := sum_list (tail counts) in
      if (0 <? left_) && (1 <? symbols_used)%nat && match completeness with Required => true | AsSpecified => false end
      then Err BadHuffmanTable
      else Ok (MkHuffman counts (place_symbols lengths (first_offsets counts)).1)
  end.

Definition Huffman_new (lengths : list nat) : result InflateError Huffman := build lengths Required.

(** The walk along the code, one length after the other. *)
Fixpoint decode_from (h : Huffman) (lens : list nat) (code first index : Z) : BitReader nat :=
  match lens with
  | [] => br_fail BadHuffmanTable
  | len :: lens =>
      x ← bit;
      let code := Z.lor code x in
      let count := Z.of_nat (nth len h.(hf_counts) 0%nat) in
      if code - first <? count then
        if index + (code - first) <? 0 then br_fail BadHuffmanTable
        else match h.(hf_symbols) !! Z.to_nat (index + (code - first)) with
             | Some symbol => mret symbol
             | None => br_fail BadHuffmanTable
             end
      else decode_from h lens (Z.shiftl code 1) (Z.shiftl (first + count) 1) (index + count)
  end.

Definition decode (h : Huffman) : BitReader nat := decode_from h (seq 1 15) 0 0 0.

Definition LENGTH_BASE : list nat :=
  [3; 4; 5; 6; 7; 8; 9; 10; 11; 13; 15; 17; 19; 23; 27; 31; 35; 43; 51; 59; 67; 83; 99; 115; 131; 163; 195; 227; 258]%nat.
Definition LENGTH_EXTRA : list nat :=
  [0; 0; 0; 0; 0; 0; 0; 0; 1; 1; 1; 1; 2; 2; 2; 2; 3; 3; 3; 3; 4; 4; 4; 4; 5; 5; 5; 5; 0]%nat.
Definition DIST_BASE : list Z :=
  [1; 2; 3; 4; 5; 7; 9; 13; 17; 25; 33; 49; 65; 97; 129; 193; 257; 385; 513; 769; 1025; 1537; 2049; 3073; 4097; 6145; 8193;
   12289; 16385; 24577].
Definition DIST_EXTRA : list nat :=
  [0; 0; 0; 0; 1; 1; 2; 2; 3; 3; 4; 4; 5; 5; 6; 6; 7; 7; 8; 8; 9; 9; 10; 10; 11; 11; 12; 12; 13; 13]%nat.
Definition CODE_LENGTH_ORDER : list nat := [16; 17; 18; 0; 8; 7; 9; 6; 10; 5; 11; 4; 12; 3; 13; 2; 14; 1; 15]%nat.

(** The lengths of the specification's own pair. *)
Definition fixed_literal : list nat :=
  (fun symbol => if (symbol <=? 143)%nat then 8 else if (symbol <=? 255)%nat then 9 else if (symbol <=? 279)%nat then 7 else 8)%nat <$> seq 0 288.
Definition fixed_distance : list nat := repeat 5%nat 30.

(** [None] is a failed [expect]. *)
Definition fixed_tables : option (Huffman * Huffman) :=
  match build fixed_literal AsSpecified, build fixed_distance AsSpecified with
  | Ok l, Ok d => Some (l, d)
  | _, _ => None
  end.

Definition TABLE_COST : Z := 300.

(** ** The output *)

(** The bytes, newest first, as a list grows; [out_bytes] reads them in order. *)
Record Out := MkOut { out_rev : list byte; out_bounds : Bounds; out_work : Z; out_work_budget : Z }.

Definition out_bytes (o : Out) : list byte := rev o.(out_rev).
Definition out_len (o : Out) : Z := Z.of_nat (length o.(out_rev)).

Definition push (b : byte) (bs : Bits) (o : Out) : result InflateError Out :=
  if o.(out_bounds).(max_output) <=? out_len o then Err OutputTooLarge
  else if (o.(out_bounds).(ratio_after_output) <=? out_len o) &&
          (o.(out_bounds).(max_ratio) <=? out_len o / Z.of_nat (Nat.max (consumed bs) 1)) then Err RatioTooHigh
  else Ok (MkOut (b :: o.(out_rev)) o.(out_bounds) o.(out_work) o.(out_work_budget)).

Definition charge (units : Z) (o : Out) : result InflateError Out :=
  let work := Z.min (o.(out_work) + units) u64_max in
  if o.(out_work_budget) <? work then Err TooMuchWork else Ok (MkOut o.(out_rev) o.(out_bounds) work o.(out_work_budget)).

(** ** Blocks *)

(** [for _ in 0..length], a byte at a time from [dist] back. *)
Fixpoint copy_back (n : nat) (dist : nat) (bs : Bits) (o : Out) : result InflateError Out :=
  match n with
  | O => Ok o
  | S n => b ← ok_or (o.(out_rev) !! (dist - 1)%nat) DistanceTooFar; o ← push b bs o; copy_back n dist bs o
  end.

(** One turn of [inflate_symbols]; the flag says whether the block ended. *)
Definition symbol_step (literal distance : Huffman) (bs : Bits) (o : Out) : result InflateError (bool * Bits * Out) :=
  o ← charge 1 o;
  '(symbol, bs) ← decode literal bs;
  if (symbol <=? 255)%nat then o ← push (u8 (Z.of_nat symbol)) bs o; Ok (false, bs, o)
  else if (symbol =? 256)%nat then Ok (true, bs, o)
  else if (symbol <=? 285)%nat then
    let index := (symbol - 257)%nat in
    '(extra, bs) ← bits (nth index LENGTH_EXTRA 0%nat) bs;
    let length_ := (nth index LENGTH_BASE 0 + Z.to_nat extra)%nat in
    '(dsymbol, bs) ← decode distance bs;
    if (length DIST_BASE <=? dsymbol)%nat then Err (BadSymbol dsymbol)
    else
      '(extra, bs) ← bits (nth dsymbol DIST_EXTRA 0%nat) bs;
      let dist := nth dsymbol DIST_BASE 0 + extra in
      if (dist =? 0) || (out_len o <? dist) then Err DistanceTooFar
      else o ← copy_back length_ (Z.to_nat dist) bs o; Ok (false, bs, o)
  else Err (BadSymbol symbol).

Fixpoint inflate_symbols (fuel : nat) (literal distance : Huffman) (bs : Bits) (o : Out) : option (result InflateError (Bits * Out)) :=
  match fuel with
  | O => None
  | S fuel =>
      match symbol_step literal distance bs o with
      | Err e => Some (Err e)
      | Ok (true, bs, o) => Some (Ok (bs, o))
      | Ok (false, bs, o) => inflate_symbols fuel literal distance bs o
      end
  end.

(** [for _ in 0..repeat] of [dynamic_tables]. *)
Fixpoint repeat_into (n : nat) (value : nat) (lengths : list nat) (at_ : nat) : result InflateError (list nat * nat) :=
  match n with
  | O => Ok (lengths, at_)
  | S n =>
      if (length lengths <=? at_)%nat then Err BadHuffmanTable
      else repeat_into n value (<[at_ := value]> lengths) (at_ + 1)
  end.

(** One turn of the loop over the code lengths. *)
Definition length_step (code_length_code : Huffman) (lengths : list nat) (at_ : nat) : BitReader (list nat * nat) := fun bs =>
  '(symbol, bs) ← decode code_length_code bs;
  if (symbol <=? 15)%nat then Ok (<[at_ := symbol]> lengths, (at_ + 1)%nat, bs)
  else if (symbol =? 16)%nat then
    if (at_ =? 0)%nat then Err BadHuffmanTable
    else
      let previous := nth (at_ - 1) lengths 0%nat in
      '(extra, bs) ← bits 2 bs;
      st ← repeat_into (3 + Z.to_nat extra) previous lengths at_; Ok (st, bs)
  else if (symbol =? 17)%nat || (symbol =? 18)%nat then
    '(extra, bs) ← bits (if (symbol =? 17)%nat then 3 else 7) bs;
    st ← repeat_into ((if (symbol =? 17)%nat then 3 else 11) + Z.to_nat extra) 0 lengths at_; Ok (st, bs)
  else Err (BadSymbol symbol).

(** [while at < lengths.len()]: every turn fills one at least. *)
Fixpoint read_lengths (fuel : nat) (code_length_code : Huffman) (lengths : list nat) (at_ : nat) : BitReader (list nat) := fun bs =>
  if (at_ <? length lengths)%nat then
    match fuel with
    | O => Err BadHuffmanTable
    | S fuel => '(lengths, at_, bs) ← length_step code_length_code lengths at_ bs; read_lengths fuel code_length_code lengths at_ bs
    end
  else Ok (lengths, bs).

Fixpoint read_code_lengths (slots : list nat) (code_lengths : list nat) : BitReader (list nat) :=
  match slots with
  | [] => mret code_lengths
  | slot :: slots => x ← bits 3; read_code_lengths slots (<[slot := Z.to_nat x]> code_lengths)
  end.

Definition dynamic_tables : BitReader (Huffman * Huffman) := fun bs =>
  '(x, bs) ← bits 5 bs;
  let hlit := (Z.to_nat x + 257)%nat in
  '(x, bs) ← bits 5 bs;
  let hdist := (Z.to_nat x + 1)%nat in
  '(x, bs) ← bits 4 bs;
  let hclen := (Z.to_nat x + 4)%nat in
  if (286 <? hlit)%nat || (30 <? hdist)%nat then Err BadHuffmanTable
  else
    '(code_lengths, bs) ← read_code_lengths (take hclen CODE_LENGTH_ORDER) (repeat 0%nat 19) bs;
    code_length_code ← Huffman_new code_lengths;
    '(lengths, bs) ← read_lengths (hlit + hdist) code_length_code (repeat 0%nat (hlit + hdist)) 0 bs;
    literal ← Huffman_new (take hlit lengths);
    distance ← Huffman_new (drop hlit lengths);
    Ok (literal, distance, bs).

(** [for _ in 0..len] of a stored block. *)
Fixpoint stored_bytes (n : nat) (bs : Bits) (o : Out) : result InflateError (Bits * Out) :=
  match n with
  | O => Ok (bs, o)
  | S n =>
      x ← ok_or (bs.(bt_data) !! bs.(bt_pos)) Truncated;
      let bs := MkBits bs.(bt_data) (bs.(bt_pos) + 1) bs.(bt_buffer) bs.(bt_count) in
      o ← push x bs o; stored_bytes n bs o
  end.

Definition stored_block (bs : Bits) (o : Out) : result InflateError (Bits * Out) :=
  let bs := align bs in
  let at_ i := ok_or (bs.(bt_data) !! (bs.(bt_pos) + i)%nat) Truncated in
  b0 ← at_ 0%nat; b1 ← at_ 1%nat;
  let len := Z.lor (u8v b0) (Z.shiftl (u8v b1) 8) in
  b2 ← at_ 2%nat; b3 ← at_ 3%nat;
  let nlen := Z.lor (u8v b2) (Z.shiftl (u8v b3) 8) in
  if negb (len =? Z.lxor nlen 0xFFFF) then Err StoredLengthMismatch
  else stored_bytes (Z.to_nat len) (MkBits bs.(bt_data) (bs.(bt_pos) + 4) bs.(bt_buffer) bs.(bt_count)) o.

(** A block behind its header. *)
Definition block_body (fuel : nat) (kind : Z) (bs : Bits) (o : Out) : option (result InflateError (Bits * Out)) :=
  if kind =? 0 then Some (stored_block bs o)
  else if kind =? 1 then
    '(literal, distance) ← fixed_tables; inflate_symbols fuel literal distance bs o
  else if kind =? 2 then
    match (o ← charge (2 * TABLE_COST) o; '(t, bs) ← dynamic_tables bs; Ok (t, bs, o)) with
    | Err e => Some (Err e)
    | Ok ((literal, distance), bs, o) => inflate_symbols fuel literal distance bs o
    end
  else Some (Err ReservedBlockType).

(** [charge(1)], the last-block bit, the block type. *)
Definition block_head (bs : Bits) (o : Out) : result InflateError (Z * Z * Bits * Out) :=
  o ← charge 1 o;
  '(last, bs) ← bit bs;
  '(kind, bs) ← bits 2 bs;
  Ok (last, kind, bs, o).

Fixpoint inflate_blocks (fuel : nat) (bs : Bits) (o : Out) : option (result InflateError (Bits * Out)) :=
  match fuel with
  | O => None
  | S fuel =>
      match block_head bs o with
      | Err e => Some (Err e)
      | Ok (last, kind, bs, o) =>
          r ← block_body (S fuel) kind bs o;
          match r with
          | Err e => Some (Err e)
          | Ok (bs, o) => if last =? 1 then Some (Ok (bs, o)) else inflate_blocks fuel bs o
          end
      end
  end.

(** ** The container *)

Definition gz_crc32 (data : list byte) : Z := Z.lxor (fold_left crc_byte data u32_mask) u32_mask.

(** A NUL-terminated field from [start]; a kilobyte of it is too much. *)
Fixpoint skip_name (fuel : nat) (input : list byte) (start at_ : nat) : result InflateError nat :=
  match fuel with
  | O => Err Truncated
  | S fuel =>
      b ← ok_or (input !! at_) Truncated;
      let at_ := (at_ + 1)%nat in
      if u8v b =? 0 then Ok at_
      else if (1024 <? at_ - start)%nat then Err Truncated
      else skip_name fuel input start at_
  end.

(** [checked_add(n).filter(|end| *end <= input.len())]. *)
Definition skip_bytes (input : list byte) (at_ n : nat) : result InflateError nat :=
  if (at_ + n <=? length input)%nat then Ok (at_ + n)%nat else Err Truncated.

Definition flag_set (flags mask : Z) : bool := negb (Z.land flags mask =? 0).

(** Where the deflate stream begins. *)
Definition gzip_header (input : list byte) : result InflateError nat :=
  if (length input <? 18)%nat then Err Truncated
  else
    let at_ i := u8v (nth i input x00) in
    if negb (at_ 0%nat =? 0x1f) || negb (at_ 1%nat =? 0x8b) then Err BadMagic
    else if negb (at_ 2%nat =? 8) then Err (UnsupportedMethod (at_ 2%nat))
    else
      let flags := at_ 3%nat in
      if flag_set flags 0xE0 then Err (ReservedFlags flags)
      else
        pos ← (if flag_set flags 0x04 then
                 b0 ← ok_or (input !! 10%nat) Truncated; b1 ← ok_or (input !! 11%nat) Truncated;
                 skip_bytes input 10 (2 + Z.to_nat (Z.lor (u8v b0) (Z.shiftl (u8v b1) 8)))
               else Ok 10%nat);
        pos ← (if flag_set flags 0x08 then skip_name 1025 input pos pos else Ok pos);
        pos ← (if flag_set flags 0x10 then skip_name 1025 input pos pos else Ok pos);
        (if flag_set flags 0x02 then skip_bytes input pos 2 else Ok pos).

(** What is checked when the blocks are through. *)
Definition gzip_trailer (input deflate : list byte) (trailer_at : nat) (bs : Bits) (o : Out) : result InflateError (list byte) :=
  if (consumed bs <? length deflate)%nat then Err TrailerNotWhereTheStreamEnded
  else
    let expected_crc := from_le_bytes (slice input trailer_at 4) in
    let expected_len := from_le_bytes (slice input (trailer_at + 4) 4) in
    if negb (gz_crc32 (out_bytes o) =? expected_crc) then Err ChecksumMismatch
    else if negb (out_len o mod 2 ^ 32 =? expected_len) then Err LengthMismatch
    else Ok (out_bytes o).

Definition work_allowed (input : list byte) (bounds : Bounds) : Z :=
  Z.min (Z.min (bounds.(max_output) + Z.of_nat (length input) * 16) u64_max + 1000000) u64_max.

Definition gunzip (input : list byte) (bounds : Bounds) : option (result InflateError (list byte)) :=
  match gzip_header input with
  | Err e => Some (Err e)
  | Ok at_ =>
      let trailer_at := (length input - 8)%nat in
      if (trailer_at <=? at_)%nat then Some (Err Truncated)
      else
        let deflate := slice input at_ (trailer_at - at_) in
        let o := MkOut [] bounds 0 (work_allowed input bounds) in
        r ← inflate_blocks (S (8 * length deflate)) (Bits_new deflate) o;
        match r with
        | Err e => Some (Err e)
        | Ok (bs, o) => Some (gzip_trailer input deflate trailer_at bs o)
        end
  end.

(** ** Every turn reads a bit *)

(** The bits a reader has left, and what a step may do to it. *)
Definition bits_left (b : Bits) : nat := (8 * (length b.(bt_data) - b.(bt_pos)) + b.(bt_count))%nat.

Record reads (k : nat) (b b' : Bits) : Prop := {
  rd_data : b'.(bt_data) = b.(bt_data);
  rd_left : (bits_left b' + k <= bits_left b)%nat;
  rd_pos : (b.(bt_pos) <= b'.(bt_pos))%nat;
  rd_end : (b.(bt_pos) <= length b.(bt_data) -> b'.(bt_pos) <= length b.(bt_data))%nat }.

Lemma reads_refl b : reads 0 b b.
Proof. split; [done|lia|lia|done]. Qed.

Lemma reads_trans j k a b c : reads j a b -> reads k b c -> reads (j + k) a c.
Proof. intros [a1 a2 a3 a4] [b1 b2 b3 b4]. split; [congruence|lia|lia|]. rewrite a1 in b4. auto. Qed.

Lemma reads_weaken j k a b : (j <= k)%nat -> reads k a b -> reads j a b.
Proof. intros Hj [H1 H2 H3 H4]. split; [done|lia|done|done]. Qed.

Lemma reads_then j k a b c : reads j a b -> reads k b c -> reads j a c.
Proof. intros H1 H2. eapply reads_weaken; [|exact (reads_trans _ _ _ _ _ H1 H2)]. lia. Qed.

Lemma reads_after j k a b c : reads j a b -> reads k b c -> reads k a c.
Proof. intros H1 H2. eapply reads_weaken; [|exact (reads_trans _ _ _ _ _ H1 H2)]. lia. Qed.

Lemma br_bind_ok {A B} (m : BitReader A) (f : A -> BitReader B) b y b2 :
  (m ≫= f) b = Ok (y, b2) <-> exists x b1, m b = Ok (x, b1) /\ f x b1 = Ok (y, b2).
Proof.
  unfold mbind, br_bind. split.
  - destruct (m b) as [[x b1]|e]; [|done]. eauto.
  - intros (x & b1 & -> & H). done.
Qed.

Lemma bit_reads b x b' : bit b = Ok (x, b') -> reads 1 b b'.
Proof.
  unfold bit. destruct (Nat.eqb_spec (bt_count b) 0) as [E|E].
  - destruct (_ !! _) as [y|] eqn:Ey; [|done]. intros [= <- <-]. apply lookup_lt_Some in Ey.
    split; cbn; [done|unfold bits_left; cbn; lia|lia|lia].
  - intros [= <- <-]. split; cbn; [done|unfold bits_left; cbn; lia|lia|done].
Qed.

Lemma bits_from_reads n i v b x b' : bits_from n i v b = Ok (x, b') -> reads 0 b b'.
Proof.
  revert i v b; induction n as [|n IH]; intros i v b; cbn [bits_from].
  - intros [= <- <-]. apply reads_refl.
  - intros (y & b1 & H1%bit_reads & H2%IH)%br_bind_ok. by eapply reads_after.
Qed.

Lemma bits_reads n b x b' : bits n b = Ok (x, b') -> reads 0 b b'.
Proof. apply bits_from_reads. Qed.

Lemma decode_reads h b x b' : decode h b = Ok (x, b') -> reads 1 b b'.
Proof.
  unfold decode. generalize 0 at 1 as code. generalize 0 at 1 as first. generalize 0 as index.
  generalize 1%nat at 1 as from. intros from. generalize 15%nat as n.
  intros n index first code. revert from b code first index. induction n as [|n IH]; intros from b code first index; [done|].
  cbn [seq decode_from]. intros (y & b1 & H1%bit_reads & H2)%br_bind_ok.
  destruct (_ <? _).
  - destruct (_ <? _); [done|]. destruct (_ !! _); [|done]. by injection H2 as <- <-.
  - apply IH in H2. by eapply reads_then.
Qed.

(** ** The output stays within its bounds *)

(** What is promised of the output when the reader has got to [bs]. *)
Record within (bs : Bits) (o : Out) : Prop := {
  wi_max : out_len o <= Z.max 0 o.(out_bounds).(max_output);
  wi_ratio : out_len o <= Z.max 0 (Z.max o.(out_bounds).(ratio_after_output) (o.(out_bounds).(max_ratio) * Z.of_nat (Nat.max (consumed bs) 1)));
  wi_work : o.(out_work) <= Z.max 0 o.(out_work_budget) }.

(** Bounds and budget do not change. *)
Definition same_terms (o o' : Out) : Prop := o'.(out_bounds) = o.(out_bounds) /\ o'.(out_work_budget) = o.(out_work_budget).

Lemma same_terms_trans a b c : same_terms a b -> same_terms b c -> same_terms a c.
Proof. intros [H1 H2] [H3 H4]. split; congruence. Qed.

Definition ratio_nonneg (o : Out) : Prop := 0 <= o.(out_bounds).(max_ratio).

Lemma within_reads k bs bs' o : ratio_nonneg o -> within bs o -> reads k bs bs' -> within bs' o.
Proof.
  intros Hr [H1 H2 H3] [_ _ Hp _]. split; [done| |done]. unfold consumed in *.
  enough (max_ratio (out_bounds o) * Z.of_nat (Nat.max (bt_pos bs) 1) <= max_ratio (out_bounds o) * Z.of_nat (Nat.max (bt_pos bs') 1)) by lia.
  apply Z.mul_le_mono_nonneg_l; [exact Hr|lia].
Qed.

Lemma push_within b bs o o' : within bs o -> push b bs o = Ok o' -> within bs o' /\ same_terms o o'.
Proof.
  intros [H1 H2 H3]. unfold push. destruct (Z.leb_spec (max_output (out_bounds o)) (out_len o)) as [|Hm]; [done|].
  destruct (_ && _) eqn:Er; [done|]. intros [= <-]. split; [|done].
  assert (Hl : forall r w g k, out_len (MkOut (b :: out_rev o) r w g) = out_len o + 1 + (k - k)) by (intros; unfold out_len; cbn; lia).
  split; rewrite ?(Hl _ _ _ 0); cbn; [lia| |done].
  apply andb_false_iff in Er as [Er|Er]; breflect; [lia|].
  set (c := Z.of_nat (Nat.max (consumed bs) 1)) in *. assert (Hc : 0 < c) by lia.
  assert (out_len o < max_ratio (out_bounds o) * c); [|lia].
  pose proof (Z.div_mod (out_len o) c ltac:(lia)). pose proof (Z.mod_pos_bound (out_len o) c Hc). nia.
Qed.

Lemma charge_within n bs o o' : within bs o -> charge n o = Ok o' -> within bs o' /\ same_terms o o'.
Proof.
  intros [H1 H2 H3]. unfold charge. destruct (Z.ltb_spec (out_work_budget o) (Z.min (out_work o + n) u64_max)) as [|Hw]; [done|].
  intros [= <-]. split; [|done]. split; cbn; [exact H1|exact H2|lia].
Qed.

Lemma copy_back_within n dist bs o o' : within bs o -> copy_back n dist bs o = Ok o' -> within bs o' /\ same_terms o o'.
Proof.
  revert o; induction n as [|n IH]; intros o Hw; cbn [copy_back]; [by intros [= <-]|]. intros H. inv_bind.
  match goal with H : push _ _ _ = Ok _ |- _ => apply (push_within _ _ _ _ Hw) in H as [Hw1 Hs1] end.
  match goal with H : copy_back _ _ _ _ = Ok _ |- _ => apply (IH _ Hw1) in H as [Hw2 Hs2] end.
  split; [done|by eapply same_terms_trans].
Qed.

(** A step of the decoder: it reads at least [k] bits, and keeps the output within. *)
Definition steps (k : nat) (bs : Bits) (o : Out) (bs' : Bits) (o' : Out) : Prop :=
  reads k bs bs' /\ same_terms o o' /\ (ratio_nonneg o -> within bs o -> within bs' o').

Lemma steps_trans j k a o b p c q : steps j a o b p -> steps k b p c q -> steps (j + k) a o c q.
Proof.
  intros (H1 & H2 & H3) (G1 & G2 & G3). split; [by eapply reads_trans|]. split; [by eapply same_terms_trans|].
  intros Hr Hw. apply G3; [|by apply H3]. unfold ratio_nonneg in *. by rewrite (proj1 H2).
Qed.

Lemma steps_reads k bs bs' o : reads k bs bs' -> steps k bs o bs' o.
Proof. intros H. split; [done|]. split; [done|]. intros Hr Hw. by eapply within_reads. Qed.

Lemma steps_charge n bs o o' : charge n o = Ok o' -> steps 0 bs o bs o'.
Proof.
  intros H. split; [apply reads_refl|]. split; [|intros _ Hw; by eapply charge_within].
  unfold charge in H. destruct (_ <? _); [done|]. by injection H as <-.
Qed.

Lemma push_terms b bs o o' : push b bs o = Ok o' -> same_terms o o'.
Proof. unfold push. destruct (_ <=? _); [done|]. destruct (_ && _); [done|]. by intros [= <-]. Qed.

Lemma steps_push b bs o o' : push b bs o = Ok o' -> steps 0 bs o bs o'.
Proof. intros H. split; [apply reads_refl|]. split; [by eapply push_terms|]. intros _ Hw. by eapply push_within. Qed.

Lemma steps_copy n dist bs o o' : copy_back n dist bs o = Ok o' -> steps 0 bs o bs o'.
Proof.
  revert o; induction n as [|n IH]; intros o; cbn [copy_back]; [intros [= <-]; apply steps_reads, reads_refl|]. intros H. inv_bind.
  match goal with H : push _ _ _ = Ok _ |- _ => apply steps_push in H as Hp end.
  match goal with H : copy_back _ _ _ _ = Ok _ |- _ => apply IH in H as Hc end.
  exact (steps_trans _ _ _ _ _ _ _ _ Hp Hc).
Qed.

Lemma steps_weaken j k a o b p : (j <= k)%nat -> steps k a o b p -> steps j a o b p.
Proof. intros Hj (H1 & H2). split; [by eapply reads_weaken|done]. Qed.

Lemma symbol_step_steps literal distance bs o fin bs' o' :
  symbol_step literal distance bs o = Ok (fin, bs', o') -> steps 1 bs o bs' o'.
Proof.
  unfold symbol_step. intros H. apply result_bind_ok in H as (o1 & Hc%(steps_charge 1 bs) & H).
  apply result_bind_ok in H as ([symbol bs1] & Hd%decode_reads & H).
  pose proof (steps_trans _ _ _ _ _ _ _ _ Hc (steps_reads _ _ _ o1 Hd)) as H1. cbn [Nat.add] in H1.
  destruct (_ <=? _)%nat.
  { apply result_bind_ok in H as (o2 & Hp%steps_push & H). injection H as <- <- <-. exact (steps_trans _ _ _ _ _ _ _ _ H1 Hp). }
  destruct (_ =? _)%nat; [by injection H as <- <- <-|]. destruct (_ <=? _)%nat; [|done].
  apply result_bind_ok in H as ([e1 bs2] & Hb%bits_reads & H). apply result_bind_ok in H as ([ds bs3] & Hd2%decode_reads & H).
  destruct (_ <=? _)%nat; [done|]. apply result_bind_ok in H as ([e2 bs4] & Hb2%bits_reads & H).
  destruct (_ || _); [done|]. apply result_bind_ok in H as (o2 & Hp%steps_copy & H). injection H as <- <- <-.
  pose proof (reads_trans _ _ _ _ _ Hb (reads_trans _ _ _ _ _ Hd2 Hb2)) as Hr.
  pose proof (steps_trans _ _ _ _ _ _ _ _ H1 (steps_trans _ _ _ _ _ _ _ _ (steps_reads _ _ _ o1 Hr) Hp)) as Hall.
  eapply steps_weaken; [|exact Hall]. lia.
Qed.

Lemma inflate_symbols_steps fuel literal distance bs o : (bits_left bs < fuel)%nat ->
  match inflate_symbols fuel literal distance bs o with
  | None => False | Some (Err _) => True | Some (Ok (bs', o')) => steps 1 bs o bs' o'
  end.
Proof.
  revert bs o; induction fuel as [|fuel IH]; intros bs o Hf; [lia|]. cbn [inflate_symbols].
  destruct (symbol_step literal distance bs o) as [[[fin bs1] o1]|e] eqn:E; [|done]. apply symbol_step_steps in E as H1.
  destruct fin; [done|]. pose proof (rd_left _ _ _ (proj1 H1)) as Hl. specialize (IH bs1 o1 ltac:(lia)).
  destruct (inflate_symbols fuel literal distance bs1 o1) as [[[bs2 o2]|e]|]; [|done|done].
  eapply steps_weaken; [|exact (steps_trans _ _ _ _ _ _ _ _ H1 IH)]. lia.
Qed.

Lemma repeat_into_at n value lengths at_ l a : repeat_into n value lengths at_ = Ok (l, a) -> length l = length lengths /\ a = (at_ + n)%nat.
Proof.
  revert lengths at_; induction n as [|n IH]; intros lengths at_; cbn [repeat_into]; [intros [= <- <-]; split; [done|lia]|].
  destruct (_ <=? _)%nat; [done|]. intros [H1 H2]%IH. rewrite length_insert in H1. split; [done|lia].
Qed.

(** A turn of the loop over the code lengths fills at least one. *)
Lemma length_step_steps h lengths at_ bs l a bs' : length_step h lengths at_ bs = Ok (l, a, bs') ->
  reads 1 bs bs' /\ length l = length lengths /\ (at_ < a)%nat.
Proof.
  unfold length_step. intros H. apply result_bind_ok in H as ([symbol bs1] & Hd%decode_reads & H).
  destruct (_ <=? _)%nat; [injection H as <- <- <-; rewrite length_insert; split_and!; [done|done|lia]|].
  destruct (_ =? _)%nat.
  - destruct (_ =? _)%nat; [done|]. apply result_bind_ok in H as ([e bs2] & Hb%bits_reads & H).
    apply result_bind_ok in H as ([l2 a2] & Hr%repeat_into_at & H). injection H as <- <- <-. destruct Hr as [H1 ->].
    split_and!; [by eapply reads_then|done|lia].
  - destruct (_ || _); [|done]. apply result_bind_ok in H as ([e bs2] & Hb%bits_reads & H).
    apply result_bind_ok in H as ([l2 a2] & Hr%repeat_into_at & H). injection H as <- <- <-. destruct Hr as [H1 ->].
    split_and!; [by eapply reads_then|done|]. destruct (_ =? 17)%nat; lia.
Qed.

Lemma read_lengths_reads fuel h lengths at_ bs l bs' : read_lengths fuel h lengths at_ bs = Ok (l, bs') -> reads 0 bs bs'.
Proof.
  revert lengths at_ bs; induction fuel as [|fuel IH]; intros lengths at_ bs; cbn [read_lengths]; destruct (_ <? _)%nat; try done;
    try (intros [= <- <-]; apply reads_refl).
  intros ([[l1 a1] bs1] & H1%length_step_steps & H2%IH)%result_bind_ok. eapply reads_after; [exact (proj1 H1)|exact H2].
Qed.

(** The fuel [dynamic_tables] gives is enough: more changes nothing. *)
Lemma read_lengths_fuel f g h lengths at_ bs : (length lengths - at_ <= f)%nat -> (length lengths - at_ <= g)%nat ->
  read_lengths f h lengths at_ bs = read_lengths g h lengths at_ bs.
Proof.
  revert g lengths at_ bs; induction f as [|f IH]; intros g lengths at_ bs Hf Hg.
  - destruct g; cbn [read_lengths]; replace (at_ <? length lengths)%nat with false by (symmetry; apply Nat.ltb_ge; lia); done.
  - destruct g as [|g]; cbn [read_lengths]; destruct (Nat.ltb_spec at_ (length lengths)) as [Hlt|]; try done; [lia|].
    destruct (length_step h lengths at_ bs) as [[[l a] bs1]|e] eqn:E; [|done]. apply length_step_steps in E as (_ & Hl & Ha).
    cbn. apply IH; lia.
Qed.

Lemma read_code_lengths_reads slots l bs l' bs' : read_code_lengths slots l bs = Ok (l', bs') -> reads 0 bs bs'.
Proof.
  revert l bs; induction slots as [|slot slots IH]; intros l bs; cbn [read_code_lengths]; [intros [= <- <-]; apply reads_refl|].
  intros (x & b1 & H1%bits_reads & H2%IH)%br_bind_ok. by eapply reads_then.
Qed.

Lemma dynamic_tables_reads bs t bs' : dynamic_tables bs = Ok (t, bs') -> reads 0 bs bs'.
Proof.
  unfold dynamic_tables. intros H. do 3 (let r := fresh "r" in apply result_bind_ok in H as ([? ?] & r%bits_reads & H)).
  destruct (_ || _); [done|]. apply result_bind_ok in H as ([? ?] & r2%read_code_lengths_reads & H). apply result_bind_ok in H as (? & _ & H).
  apply result_bind_ok in H as ([? ?] & r3%read_lengths_reads & H). inv_bind.
  repeat (first [eassumption|eapply reads_then; [eassumption|]]).
Qed.

Lemma stored_bytes_steps n bs o bs' o' : stored_bytes n bs o = Ok (bs', o') -> steps 0 bs o bs' o'.
Proof.
  revert bs o; induction n as [|n IH]; intros bs o; cbn [stored_bytes]; [intros [= <- <-]; apply steps_reads, reads_refl|].
  intros (x & Hx & H)%result_bind_ok. apply ok_or_ok in Hx. apply result_bind_ok in H as (o1 & Hp%steps_push & H%IH).
  apply lookup_lt_Some in Hx.
  match type of Hp with steps _ ?b _ _ _ => assert (Hr : reads 0 bs b) by (split; cbn; [done|unfold bits_left; cbn; lia|lia|lia]) end.
  exact (steps_trans _ _ _ _ _ _ _ _ (steps_reads _ _ _ o Hr) (steps_trans _ _ _ _ _ _ _ _ Hp H)).
Qed.

Lemma stored_block_steps bs o bs' o' : stored_block bs o = Ok (bs', o') -> steps 0 bs o bs' o'.
Proof.
  unfold stored_block. cbn [align bt_data bt_pos bt_buffer bt_count]. intros H.
  do 4 (apply result_bind_ok in H as (? & ?Hb%ok_or_ok & H)). destruct (negb _); [done|]. apply stored_bytes_steps in H.
  apply lookup_lt_Some in Hb2.
  match type of H with steps _ ?b _ _ _ => assert (Hr : reads 0 bs b) by (split; cbn; [done|unfold bits_left; cbn; lia|lia|lia]) end.
  exact (steps_trans _ _ _ _ _ _ _ _ (steps_reads _ _ _ o Hr) H).
Qed.

Lemma fixed_tables_built : exists t, fixed_tables = Some t.
Proof. eexists. vm_compute. reflexivity. Qed.

Lemma block_body_steps fuel kind bs o : (bits_left bs < fuel)%nat ->
  match block_body fuel kind bs o with
  | None => False | Some (Err _) => True | Some (Ok (bs', o')) => steps 0 bs o bs' o'
  end.
Proof.
  intros Hf. unfold block_body. destruct (kind =? 0).
  { destruct (stored_block bs o) as [[bs' o']|e] eqn:E; [|done]. by apply stored_block_steps. }
  destruct (kind =? 1).
  { destruct fixed_tables_built as [[l d] ->]. cbn [mbind option_bind]. pose proof (inflate_symbols_steps fuel l d bs o Hf) as H.
    destruct (inflate_symbols fuel l d bs o) as [[[bs' o']|e]|]; [|done|done]. eapply steps_weaken; [|exact H]. lia. }
  destruct (kind =? 2); [|done]. destruct (_ ≫= _) as [[[[l d] bs1] o1]|e] eqn:E; [|done].
  apply result_bind_ok in E as (o2 & Hc%(steps_charge _ bs) & E). apply result_bind_ok in E as ([[l' d'] bs2] & Hd%dynamic_tables_reads & E).
  injection E as -> -> -> ->. pose proof (rd_left _ _ _ Hd) as Hl.
  pose proof (inflate_symbols_steps fuel l d bs1 o1 ltac:(lia)) as H.
  destruct (inflate_symbols fuel l d bs1 o1) as [[[bs' o']|e]|]; [|done|done].
  eapply steps_weaken; [|exact (steps_trans _ _ _ _ _ _ _ _ Hc (steps_trans _ _ _ _ _ _ _ _ (steps_reads _ _ _ o1 Hd) H))]. lia.
Qed.

Lemma inflate_blocks_steps fuel bs o : (bits_left bs < fuel)%nat ->
  match inflate_blocks fuel bs o with
  | None => False | Some (Err _) => True | Some (Ok (bs', o')) => steps 0 bs o bs' o'
  end.
Proof.
  revert bs o; induction fuel as [|fuel IH]; intros bs o Hf; [lia|]. cbn [inflate_blocks].
  destruct (block_head bs o) as [[[[last kind] bs1] o1]|e] eqn:E; [|done]. unfold block_head in E.
  apply result_bind_ok in E as (o2 & Hc%(steps_charge _ bs) & E). apply result_bind_ok in E as ([l2 bs2] & Hb%bit_reads & E).
  apply result_bind_ok in E as ([k2 bs3] & Hk%bits_reads & E). injection E as <- <- <- <-.
  pose proof (steps_trans _ _ _ _ _ _ _ _ Hc (steps_reads _ _ _ o2 (reads_trans _ _ _ _ _ Hb Hk))) as H1. cbn [Nat.add] in H1.
  pose proof (rd_left _ _ _ (proj1 H1)) as Hl. pose proof (block_body_steps (S fuel) k2 bs3 o2 ltac:(lia)) as H2.
  destruct (block_body (S fuel) k2 bs3 o2) as [[[bs4 o4]|e]|]; [|done|done]. cbn [mbind option_bind].
  pose proof (steps_trans _ _ _ _ _ _ _ _ H1 H2) as H3. destruct (l2 =? 1); [eapply steps_weaken; [|exact H3]; lia|].
  pose proof (rd_left _ _ _ (proj1 H3)) as Hl3. specialize (IH bs4 o4 ltac:(lia)).
  destruct (inflate_blocks fuel bs4 o4) as [[[bs5 o5]|e]|]; [|done|done].
  eapply steps_weaken; [|exact (steps_trans _ _ _ _ _ _ _ _ H3 IH)]. lia.
Qed.

(** C27 (a compressed body cannot cost more than it may). Whatever the input, the
    decoder comes to an end on the fuel its length gives, and the body it returns is
    within the ceiling, within the ratio to the compressed bytes once there is
    enough of it to judge, and the one the trailer's checksum and length describe. *)
Theorem gunzip_is_bounded (input : list byte) (bounds : Bounds) (Hmax : 0 <= bounds.(max_output)) (Hratio : 0 <= bounds.(max_ratio)) :
  exists r, gunzip input bounds = Some r /\
    match r with
    | Err _ => True
    | Ok body =>
        Z.of_nat (length body) <= bounds.(max_output) /\
        Z.of_nat (length body) <= Z.max bounds.(ratio_after_output) (bounds.(max_ratio) * Z.of_nat (length input)) /\
        gz_crc32 body = from_le_bytes (slice input (length input - 8) 4) /\
        Z.of_nat (length body) mod 2 ^ 32 = from_le_bytes (slice input (length input - 4) 4)
    end.
Proof.
  unfold gunzip. destruct (gzip_header input) as [at_|e] eqn:Eh; [|by eexists].
  destruct (Nat.leb_spec (length input - 8) at_) as [|Hat]; [by eexists|].
  set (deflate := slice input at_ _). assert (Hld : length deflate = (length input - 8 - at_)%nat) by (unfold deflate; rewrite length_slice; lia).
  set (o0 := MkOut [] bounds 0 _).
  pose proof (inflate_blocks_steps (S (8 * length deflate)) (Bits_new deflate) o0) as H.
  destruct (inflate_blocks _ _ _) as [[[bs o]|e]|]; [|by eexists|exfalso; apply H; unfold bits_left; cbn; lia].
  specialize (H ltac:(unfold bits_left; cbn; lia)). cbn [mbind option_bind]. eexists. split; [done|].
  destruct H as (Hread & [Hb _] & Hw). destruct (gzip_trailer _ _ _ _ _) as [body|e] eqn:Et; [|done].
  specialize (Hw Hratio). destruct Hw as [W1 W2 _].
  { subst o0. split; unfold out_len; cbn -[Z.mul]; lia. }
  unfold gzip_trailer in Et. destruct (_ <? _)%nat; [done|]. destruct (Z.eqb_spec (gz_crc32 (out_bytes o)) (from_le_bytes (slice input (length input - 8) 4))) as [Ec|]; [|done].
  cbn [negb] in Et. destruct (Z.eqb_spec (out_len o mod 2 ^ 32) (from_le_bytes (slice input (length input - 8 + 4) 4))) as [El|]; [|done].
  cbn [negb] in Et. injection Et as <-. rewrite Hb in *. cbn in W1, W2.
  assert (Hlen : Z.of_nat (length (out_bytes o)) = out_len o) by (unfold out_bytes, out_len; by rewrite length_rev). rewrite Hlen.
  split; [lia|]. split; [|split; [done|by replace (length input - 4)%nat with (length input - 8 + 4)%nat by lia]].
  assert (Hc : (Nat.max (consumed bs) 1 <= length input)%nat).
  { pose proof (rd_end _ _ _ Hread) as He. cbn in He. specialize (He ltac:(lia)). unfold consumed. lia. }
  assert (max_ratio bounds * Z.of_nat (Nat.max (consumed bs) 1) <= max_ratio bounds * Z.of_nat (length input)) by (apply Z.mul_le_mono_nonneg_l; lia).
  assert (0 <= max_ratio bounds * Z.of_nat (length input)) by (apply Z.mul_nonneg_nonneg; lia). lia.
Qed.

(** Forty times one letter, in twenty-four bytes. *)
Example gunzip_is_bounded_witness :
  exists body, gunzip [x1f; x8b; x08; x00; x00; x00; x00; x00; x02; x03; x4b; x4c; x24; x0e; x00; x00; x25; x8a; x5b; xc9; x28; x00; x00; x00] Bounds_default =
      Some (Ok body) /\ length body = 40%nat /\ Z.of_nat (length body) <= Bounds_default.(max_output).
Proof.
  destruct (gunzip_is_bounded [x1f; x8b; x08; x00; x00; x00; x00; x00; x02; x03; x4b; x4c; x24; x0e; x00; x00; x25; x8a; x5b; xc9; x28; x00; x00; x00]
    Bounds_default ltac:(cbn; lia) ltac:(cbn; lia)) as (r & E & H).
  destruct r as [body|e]; [|exfalso; vm_compute in E; discriminate].
  exists body. split; [exact E|]. split; [|exact (proj1 H)]. vm_compute in E. injection E as <-. reflexivity.
Defined.
