(* ===== verification/InflateSpec.v ===== *)
(** * RFC 1951, and the decoder against it

    The specification of the format: canonical codes (3.2.2), literals and matches
    (3.2.5), the three kinds of block (3.2.3 to 3.2.7), what a list of blocks stands
    for and the bits it is written in. An encoder is free in its choices: a
    [Member] records them. The tables [build] makes are related to the codes here,
    up to [decode_takes]: a code written is a code read. *)

From S2P Require Import Prelude Bytes Wire Inflate.

(** ** Canonical codes *)

(** How many symbols have a code of length [l]. *)
Definition bl_count (lens : list nat) (l : nat) : nat := if (l =? 0)%nat then 0%nat else length (filter (fun x => x = l) lens).

(** The smallest code of each length. *)
Fixpoint next_code (lens : list nat) (l : nat) : Z :=
  match l with O => 0 | S l => 2 * (next_code lens l + Z.of_nat (bl_count lens l)) end.

(** Symbols of one length are numbered in order. *)
Definition rank (lens : list nat) (s : nat) : nat := length (filter (fun x => x = nth s lens 0%nat) (take s lens)).

Definition code_of (lens : list nat) (s : nat) : Z := next_code lens (nth s lens 0%nat) + Z.of_nat (rank lens s).

(** A code is written most significant bit first. *)
Fixpoint msb_bits (l : nat) (c : Z) : list bool :=
  match l with O => [] | S l => Z.testbit c (Z.of_nat l) :: msb_bits l c end.

Definition code_bits (lens : list nat) (s : nat) : list bool := msb_bits (nth s lens 0%nat) (code_of lens s).

(** ** Bits in order *)

Definition byte_bits (x : byte) : list bool := (fun i => Z.testbit (u8v x) (Z.of_nat i)) <$> seq 0 8.
Definition bytes_bits (l : list byte) : list bool := concat (byte_bits <$> l).

(** What a reader has before it. *)
Definition bits_ahead (b : Bits) : list bool :=
  ((fun i => Z.testbit b.(bt_buffer) (Z.of_nat i)) <$> seq 0 b.(bt_count)) ++ bytes_bits (drop b.(bt_pos) b.(bt_data)).

(** The data stays, and no more than the rest of one byte is held. *)
Definition same_data (b b' : Bits) : Prop := b'.(bt_data) = b.(bt_data) /\ (b.(bt_count) <= 7 -> b'.(bt_count) <= 7)%nat.

Lemma same_data_refl b : same_data b b.
Proof. by split. Qed.

Lemma same_data_trans a b c : same_data a b -> same_data b c -> same_data a c.
Proof. intros [H1 H2] [H3 H4]. split; [congruence|auto]. Qed.

(** A reader that takes [l] off the stream and leaves the rest. *)
Definition takes {A} (m : BitReader A) (l : list bool) (x : A) : Prop :=
  forall b rest, bits_ahead b = l ++ rest -> exists b', m b = Ok (x, b') /\ bits_ahead b' = rest /\ same_data b b'.

Lemma takes_ret {A} (x : A) : takes (mret x) [] x.
Proof. intros b rest E. exists b. split; [done|]. split; [done|apply same_data_refl]. Qed.

Lemma takes_bind {A B} (m : BitReader A) (f : A -> BitReader B) l k x y :
  takes m l x -> takes (f x) k y -> takes (m ≫= f) (l ++ k) y.
Proof.
  intros Hm Hf b rest E. rewrite <- app_assoc in E. destruct (Hm b _ E) as (b1 & E1 & S1 & D1).
  destruct (Hf b1 _ S1) as (b2 & E2 & S2 & D2). exists b2. split; [|split; [done|by eapply same_data_trans]].
  unfold mbind, br_bind. by rewrite E1.
Qed.

Lemma land_1_testbit z : Z.land z 1 = Z.b2z (Z.testbit z 0).
Proof. change 1 with (Z.ones 1). rewrite Z.land_ones by lia. rewrite Z.bit0_mod. done. Qed.

Lemma stream_take_one d p buf n : (n <> 0)%nat ->
  bits_ahead (MkBits d p buf n) = Z.testbit buf 0 :: bits_ahead (MkBits d p (Z.shiftr buf 1) (n - 1)).
Proof.
  intros Hn. destruct n as [|n]; [done|]. unfold bits_ahead. cbn [bt_buffer bt_count bt_pos bt_data].
  replace (S n - 1)%nat with n by lia. change (seq 0 (S n)) with (0%nat :: seq 1 n). rewrite fmap_cons. cbn [app]. f_equal. f_equal.
  rewrite <- seq_shift. change (map S (seq 0 n)) with (S <$> seq 0 n). rewrite <- list_fmap_compose. apply list_fmap_ext.
  intros i x _. cbn -[Z.of_nat]. rewrite Z.shiftr_spec by lia. f_equal. lia.
Qed.

Lemma cons_same {A} (a b : A) l k : a :: l = b :: k -> a = b /\ l = k.
Proof. by intros [= -> ->]. Qed.

Lemma bit_takes x : takes bit [x] (Z.b2z x).
Proof.
  intros b rest E. unfold bit. destruct b as [d p buf n]. cbn [bt_count bt_data bt_pos bt_buffer].
  destruct (Nat.eqb_spec n 0) as [->|Hn].
  - unfold bits_ahead in E. cbn [bt_buffer bt_count bt_pos bt_data seq fmap list_fmap app] in E.
    destruct (d !! p) as [y|] eqn:Ey.
    + assert (E8 : bits_ahead (MkBits d (p + 1) (u8v y) 8) = [x] ++ rest).
      { etransitivity; [|exact E]. rewrite (drop_S _ _ _ Ey). unfold bits_ahead. cbn [bt_buffer bt_count bt_pos bt_data]. by rewrite Nat.add_1_r. }
      rewrite stream_take_one in E8 by done. apply cons_same in E8 as [Ex Er]. eexists. split; [by rewrite land_1_testbit, Ex|]. split; [done|]. split; [done|]. cbn. lia.
    + exfalso. apply lookup_ge_None in Ey. rewrite drop_ge in E by lia. done.
  - rewrite stream_take_one in E by done. apply cons_same in E as [Ex Er]. eexists. split; [by rewrite land_1_testbit, Ex|]. split; [done|]. split; [done|]. cbn. lia.
Qed.

(** ** Numbers, least significant bit first *)

Fixpoint bits_value (l : list bool) : Z := match l with [] => 0 | x :: l => Z.b2z x + 2 * bits_value l end.
Fixpoint lsb_bits (n : nat) (v : Z) : list bool := match n with O => [] | S n => Z.odd v :: lsb_bits n (v / 2) end.

Lemma bits_value_lsb n v : 0 <= v < 2 ^ Z.of_nat n -> bits_value (lsb_bits n v) = v.
Proof.
  revert v; induction n as [|n IH]; intros v Hv; cbn [lsb_bits bits_value]; [cbn in Hv; lia|].
  rewrite Nat2Z.inj_succ, Z.pow_succ_r in Hv by lia. rewrite IH by (split; [apply Z.div_pos; lia|apply Z.div_lt_upper_bound; lia]).
  pose proof (Z.div_mod v 2 ltac:(lia)). rewrite Zmod_odd in H. destruct (Z.odd v); cbn; lia.
Qed.

Lemma length_lsb n v : length (lsb_bits n v) = n.
Proof. revert v; induction n; intros v; cbn; [done|]. by rewrite IHn. Qed.

Lemma bits_from_takes l i v : 0 <= i -> 0 <= v < 2 ^ i -> takes (bits_from (length l) i v) l (v + 2 ^ i * bits_value l).
Proof.
  revert i v; induction l as [|x l IH]; intros i v Hi Hv; cbn [length bits_from bits_value].
  { rewrite Z.mul_0_r, Z.add_0_r. apply takes_ret. }
  change (x :: l) with ([x] ++ l). eapply takes_bind; [apply bit_takes|].
  rewrite lor_shiftl_add by done.
  replace (v + 2 ^ i * (Z.b2z x + 2 * bits_value l)) with ((v + Z.b2z x * 2 ^ i) + 2 ^ (i + 1) * bits_value l)
    by (rewrite Z.pow_add_r by lia; ring).
  apply IH; [lia|]. rewrite Z.pow_add_r by lia. destruct x; cbn; lia.
Qed.

Lemma bits_takes n v : 0 <= v < 2 ^ Z.of_nat n -> takes (bits n) (lsb_bits n v) v.
Proof.
  intros Hv. pose proof (bits_from_takes (lsb_bits n v) 0 0 ltac:(lia) ltac:(lia)) as H.
  rewrite length_lsb, bits_value_lsb in H by done. by rewrite Z.mul_1_l in H.
Qed.

(** ** The tables [build] makes *)

Lemma sum_snoc l x : sum_list (l ++ [x]) = (sum_list l + x)%nat.
Proof. induction l as [|y l IH]; cbn; [lia|]. rewrite IH. lia. Qed.

Lemma nth_insert {A} (l : list A) i j x d : (j < length l)%nat -> nth i (<[j := x]> l) d = if (i =? j)%nat then x else nth i l d.
Proof.
  intros Hj. rewrite !nth_lookup. destruct (Nat.eqb_spec i j) as [->|Hne]; [by rewrite list_lookup_insert_eq|by rewrite list_lookup_insert_ne].
Qed.

Lemma bl_count_snoc lens x l : (l <> 0)%nat -> bl_count (lens ++ [x]) l = (bl_count lens l + if (x =? l)%nat then 1 else 0)%nat.
Proof.
  intros Hl. unfold bl_count. apply Nat.eqb_neq in Hl as ->. rewrite filter_app, length_app. f_equal.
  destruct (Nat.eqb_spec x l) as [->|Hne]; [by rewrite filter_cons_True|by rewrite filter_cons_False].
Qed.

Lemma count_lengths_ok lens : Forall (fun x => x <= 15)%nat lens ->
  length (count_lengths lens) = 16%nat /\ forall l, (l <= 15)%nat -> nth l (count_lengths lens) 0%nat = bl_count lens l.
Proof.
  intros Hall. unfold count_lengths.
  set (raw := fold_left _ lens (repeat 0%nat 16)).
  assert (H : length raw = 16%nat /\ forall l, (0 < l <= 15)%nat -> nth l raw 0%nat = bl_count lens l).
  { subst raw. induction lens as [|x lens IH] using rev_ind.
    - split; [done|]. intros l Hl. cbn [fold_left]. rewrite nth_repeat. unfold bl_count. by destruct (l =? 0)%nat.
    - apply Forall_app in Hall as [Hall Hx]. apply Forall_cons in Hx as [Hx _]. destruct (IH Hall) as [IH1 IH2].
      rewrite fold_left_app. cbn [fold_left]. split; [by rewrite length_insert|]. intros l Hl.
      rewrite nth_insert by (rewrite IH1; lia). rewrite bl_count_snoc by lia. rewrite <- IH2 by done. rewrite (Nat.eqb_sym x l).
      destruct (Nat.eqb_spec l x) as [->|]; lia. }
  destruct H as [H1 H2]. split; [by rewrite length_insert|]. intros l Hl. rewrite nth_insert by lia.
  destruct (Nat.eqb_spec l 0) as [->|]; [done|]. apply H2. lia.
Qed.

(** The codes of each length fit in the tree. *)
Lemma tree_left_ok lens counts from left_ end_ :
  (forall i, nth i counts 0%nat = if (i <? length counts)%nat then bl_count lens (from + i) else 0%nat) ->
  left_ = 2 ^ Z.of_nat (from - 1) - (next_code lens (from - 1) + Z.of_nat (bl_count lens (from - 1))) -> (0 < from)%nat ->
  tree_left counts left_ = Some end_ ->
  forall l, (from <= l < from + length counts)%nat -> next_code lens l + Z.of_nat (bl_count lens l) <= 2 ^ Z.of_nat l.
Proof.
  revert from left_; induction counts as [|c counts IH]; intros from left_ Hc Hl Hf; cbn [tree_left length]; [intros _ l Hx; lia|].
  destruct (Z.ltb_spec (2 * left_ - Z.of_nat c) 0) as [|Hge]; [done|]. intros Ht l Hx.
  pose proof (Hc 0%nat) as Hc0. cbn in Hc0. rewrite Nat.add_0_r in Hc0. subst c.
  assert (Hthis : 2 * left_ - Z.of_nat (bl_count lens from) = 2 ^ Z.of_nat from - (next_code lens from + Z.of_nat (bl_count lens from))).
  { destruct from as [|from]; [lia|]. cbn [next_code]. rewrite Hl. replace (S from - 1)%nat with from by lia.
    rewrite (Nat2Z.inj_succ from), Z.pow_succ_r by lia. lia. }
  destruct (decide (l = from)) as [->|Hne]; [lia|].
  apply (IH (S from) (2 * left_ - Z.of_nat (bl_count lens from))); [|by rewrite Hthis, Nat.sub_succ, Nat.sub_0_r|lia|exact Ht|lia].
  intros i. specialize (Hc (S i)). cbn [nth length] in Hc. rewrite Hc. replace (from + S i)%nat with (S from + i)%nat by lia. done.
Qed.

Lemma codes_fit lens left_ : Forall (fun x => x <= 15)%nat lens -> tree_left (tail (count_lengths lens)) 1 = Some left_ ->
  forall l, (1 <= l <= 15)%nat -> next_code lens l + Z.of_nat (bl_count lens l) <= 2 ^ Z.of_nat l.
Proof.
  intros Hall Ht l Hl. destruct (count_lengths_ok lens Hall) as [Hlen Hnth].
  assert (Htl : length (tail (count_lengths lens)) = 15%nat) by (destruct (count_lengths lens); cbn in *; lia).
  eapply (tree_left_ok lens (tail (count_lengths lens)) 1 1); [|done|lia|exact Ht|lia].
  intros i. rewrite Htl. destruct (Nat.ltb_spec i 15) as [Hi|Hi].
  - rewrite <- Hnth by lia. by destruct (count_lengths lens).
  - apply nth_overflow. lia.
Qed.

(** Where the symbols of each length begin. *)
Definition slot_base (lens : list nat) (l : nat) : nat := sum_list (bl_count lens <$> seq 1 (l - 1)).

Lemma base_S lens l : (1 <= l)%nat -> slot_base lens (S l) = (slot_base lens l + bl_count lens l)%nat.
Proof.
  intros Hl. unfold slot_base. replace (S l - 1)%nat with (S (l - 1)) by lia. rewrite seq_S, fmap_app. cbn [fmap list_fmap].
  rewrite sum_snoc. by replace (1 + (l - 1))%nat with l by lia.
Qed.

Lemma first_offsets_ok lens counts : (forall l, (l <= 15)%nat -> nth l counts 0%nat = bl_count lens l) ->
  length (first_offsets counts) = 16%nat /\ forall l, (1 <= l <= 15)%nat -> nth l (first_offsets counts) 0%nat = slot_base lens l.
Proof.
  intros Hc. unfold first_offsets.
  assert (H : forall n, (n <= 14)%nat -> let o := fold_left (fun offsets len => <[(len + 1)%nat := (nth len offsets 0 + nth len counts 0)%nat]> offsets)
      (seq 1 n) (repeat 0%nat 16) in length o = 16%nat /\ forall l, (1 <= l <= S n)%nat -> nth l o 0%nat = slot_base lens l).
  { induction n as [|n IH]; intros Hn.
    - split; [done|]. intros l Hl. replace l with 1%nat by lia. done.
    - destruct (IH ltac:(lia)) as [IH1 IH2]. rewrite seq_S, fold_left_app. cbn [fold_left]. split; [by rewrite length_insert|].
      intros l Hl. rewrite nth_insert by lia. replace (1 + n + 1)%nat with (S (S n)) by lia. replace (1 + n)%nat with (S n) by lia.
      destruct (Nat.eqb_spec l (S (S n))) as [->|]; [|apply IH2; lia]. rewrite (base_S lens (S n)) by lia. by rewrite IH2, Hc by lia. }
  destruct (H 14%nat ltac:(lia)) as [H1 H2]. split; [exact H1|exact H2].
Qed.

Lemma bl_count_le lens l : bl_count [] l = 0%nat /\ (bl_count lens l <= length lens)%nat.
Proof. unfold bl_count. split; [by destruct (l =? 0)%nat|]. destruct (l =? 0)%nat; [lia|]. apply length_filter. Qed.

(** Counting by length counts no symbol twice. *)
Lemma sum_counts lens ls : NoDup ls -> (sum_list (bl_count lens <$> ls) <= length lens)%nat.
Proof.
  intros Hn. induction lens as [|x lens IH] using rev_ind.
  { clear Hn. induction ls as [|l ls IH]; [done|]. cbn [fmap list_fmap sum_list]. by rewrite (proj1 (bl_count_le [] l)). }
  rewrite length_app. cbn [length].
  assert (Hone : forall ls, NoDup ls -> (sum_list (bl_count (lens ++ [x]) <$> ls) <= sum_list (bl_count lens <$> ls) + if bool_decide (x ∈ ls) then 1 else 0)%nat).
  { clear. intros ls Hn. induction Hn as [|l ls Hl Hn IH]; [cbn; lia|]. cbn [fmap list_fmap sum_list]. unfold id in *.
    assert (Hstep : (bl_count (lens ++ [x]) l <= bl_count lens l + if decide (x = l) then 1 else 0)%nat).
    { destruct (decide (l = 0%nat)) as [->|Hz]; [unfold bl_count; cbn; lia|]. rewrite bl_count_snoc by done.
      destruct (Nat.eqb_spec x l), (decide (x = l)); lia. }
    destruct (decide (x = l)) as [->|Hne].
    - rewrite bool_decide_false in IH by done. rewrite bool_decide_true by (by left). lia.
    - destruct (decide (x ∈ ls)) as [Hin|Hout].
      + rewrite bool_decide_true in IH by done. rewrite bool_decide_true by (by right). lia.
      + rewrite bool_decide_false in IH by done. rewrite bool_decide_false by (intros [?|?]%elem_of_cons; done). lia. }
  specialize (Hone ls Hn). destruct (bool_decide _); lia.
Qed.

Lemma base_total lens l : (slot_base lens l <= length lens)%nat.
Proof. unfold slot_base. apply sum_counts, NoDup_ListNoDup, seq_NoDup. Qed.

Lemma base_mono lens l k : (1 <= l)%nat -> (l < k)%nat -> (slot_base lens l + bl_count lens l <= slot_base lens k)%nat.
Proof.
  intros Hl. rewrite <- base_S by done. unfold lt. induction 1 as [|k Hk IH]; [done|]. rewrite (base_S lens k) by lia. lia.
Qed.

Lemma rank_lt lens s l : nth s lens 0%nat = l -> l <> 0%nat -> (rank lens s < bl_count lens l)%nat.
Proof.
  intros Hs Hl. unfold rank, bl_count. rewrite Hs. apply Nat.eqb_neq in Hl as E. rewrite E.
  assert (Hlt : (s < length lens)%nat).
  { destruct (Nat.lt_ge_cases s (length lens)); [done|]. rewrite nth_overflow in Hs by lia. congruence. }
  rewrite <- (take_drop s lens) at 2. rewrite filter_app, length_app.
  assert (Hd : drop s lens = l :: drop (S s) lens).
  { apply drop_S. rewrite <- Hs. destruct (lookup_lt_is_Some_2 lens s Hlt) as [y Ey]. by rewrite (nth_lookup_Some _ _ _ _ Ey). }
  rewrite Hd, filter_cons_True by done. cbn. lia.
Qed.

Lemma rank_same lens s t : (s < t)%nat -> nth s lens 0%nat = nth t lens 0%nat -> (t < length lens)%nat -> (rank lens s < rank lens t)%nat.
Proof.
  intros Hst E Ht. unfold rank. rewrite E. set (P := fun x => x = nth t lens 0%nat).
  replace (take t lens) with (take s lens ++ slice lens s (t - s)) by (rewrite <- take_plus_slice; f_equal; lia).
  rewrite filter_app, length_app. assert (Hd : slice lens s (t - s) = nth s lens 0%nat :: slice lens (S s) (t - S s)).
  { unfold slice. destruct (lookup_lt_is_Some_2 lens s ltac:(lia)) as [y Ey]. rewrite (drop_S _ _ _ Ey), (nth_lookup_Some _ _ _ _ Ey).
    replace (t - s)%nat with (S (t - S s)) by lia. done. }
  rewrite Hd, filter_cons_True by exact E. cbn. lia.
Qed.

(** Counting sort: after the first [k] symbols each is at its place. *)
Definition placed (lens : list nat) (k : nat) (st : list nat * list nat) : Prop :=
  length st.1 = length lens /\ length st.2 = 16%nat /\
  (forall l, (1 <= l <= 15)%nat -> nth l st.2 0%nat = (slot_base lens l + bl_count (take k lens) l)%nat) /\
  (forall s, (s < k)%nat -> nth s lens 0%nat <> 0%nat -> st.1 !! (slot_base lens (nth s lens 0) + rank lens s)%nat = Some s).

Lemma place_symbol_ok lens k st : Forall (fun x => x <= 15)%nat lens -> (k < length lens)%nat -> placed lens k st ->
  placed lens (S k) (place_symbol st (k, nth k lens 0%nat)).
Proof.
  intros Hall Hk (H1 & H2 & H3 & H4). destruct st as [symbols offsets]. cbn [fst snd] in *. set (l := nth k lens 0%nat).
  assert (Hl15 : (l <= 15)%nat) by (unfold l; destruct (lookup_lt_is_Some_2 lens k Hk) as [y Ey]; rewrite (nth_lookup_Some _ _ _ _ Ey); by eapply (Forall_lookup_1 _ _ _ _ Hall Ey)).
  assert (Htake : take (S k) lens = take k lens ++ [l]).
  { unfold l. destruct (lookup_lt_is_Some_2 lens k Hk) as [y Ey]. by rewrite (take_S_r _ _ _ Ey), (nth_lookup_Some _ _ _ _ Ey). }
  unfold place_symbol. destruct (Nat.eqb_spec l 0) as [Hz|Hnz]; cbn [negb].
  - split; [done|]. split; [done|]. cbn [fst snd]. split.
    + intros j Hj. rewrite H3, Htake, bl_count_snoc by lia. destruct (Nat.eqb_spec l j); lia.
    + intros s Hs Hnz. apply H4; [|done]. destruct (decide (s = k)) as [->|]; [done|lia].
  - assert (Hrank : bl_count (take k lens) l = rank lens k).
    { unfold bl_count, rank. apply Nat.eqb_neq in Hnz as ->. done. }
    assert (Hpos : nth l offsets 0%nat = (slot_base lens l + rank lens k)%nat) by (rewrite H3 by lia; by rewrite Hrank).
    assert (Hlt : forall s, nth s lens 0%nat <> 0%nat -> (slot_base lens (nth s lens 0) + rank lens s < length symbols)%nat).
    { intros s Hs. pose proof (rank_lt lens s _ eq_refl Hs). pose proof (base_total lens (S (nth s lens 0%nat))) as Ht.
      rewrite base_S in Ht by lia. lia. }
    unfold placed. cbn [fst snd]. rewrite !length_insert. split; [done|]. split; [done|]. split.
    + intros j Hj. rewrite nth_insert by lia. rewrite Htake, bl_count_snoc by lia. rewrite Nat.eqb_sym. destruct (Nat.eqb_spec l j) as [->|Hne].
      * rewrite Hpos, Hrank. lia.
      * rewrite H3 by lia. lia.
    + intros s Hs Hsnz. rewrite Hpos. destruct (decide (s = k)) as [->|Hne].
      * apply list_lookup_insert_eq. by apply (Hlt k).
      * rewrite list_lookup_insert_ne; [apply H4; [lia|done]|]. fold l in Hne |- *.
        pose proof (rank_lt lens s _ eq_refl Hsnz) as Hrs. pose proof (rank_lt lens k l eq_refl Hnz) as Hrk.
        destruct (Nat.lt_trichotomy l (nth s lens 0%nat)) as [Hc|[Hc|Hc]].
        -- pose proof (base_mono lens l (nth s lens 0%nat) ltac:(lia) Hc). lia.
        -- pose proof (rank_same lens s k ltac:(lia) (eq_sym Hc) Hk). rewrite <- Hc. lia.
        -- pose proof (base_mono lens (nth s lens 0%nat) l ltac:(lia) Hc). lia.
Qed.

Lemma place_symbols_ok lens counts : Forall (fun x => x <= 15)%nat lens -> (forall l, (l <= 15)%nat -> nth l counts 0%nat = bl_count lens l) ->
  forall s, nth s lens 0%nat <> 0%nat -> (place_symbols lens (first_offsets counts)).1 !! (slot_base lens (nth s lens 0) + rank lens s)%nat = Some s.
Proof.
  intros Hall Hc. destruct (first_offsets_ok lens counts Hc) as [Hol Hon]. unfold place_symbols.
  assert (H : forall k, (k <= length lens)%nat -> placed lens k (fold_left place_symbol (zip (seq 0 k) (take k lens)) (repeat 0%nat (length lens), first_offsets counts))).
  { induction k as [|k IH]; intros Hk.
    - unfold placed. cbn [zip_with fold_left fst snd seq take]. split; [by rewrite repeat_length|]. split; [done|]. split; [|intros s Hs; lia].
      intros l Hl. rewrite Hon by done. rewrite take_0. rewrite (proj1 (bl_count_le [] l)). lia.
    - destruct (lookup_lt_is_Some_2 lens k ltac:(lia)) as [y Ey]. rewrite seq_S, (take_S_r _ _ _ Ey), zip_with_app by (by rewrite length_seq, length_take_le by lia).
      rewrite fold_left_app. cbn [zip_with fold_left]. rewrite <- (nth_lookup_Some _ _ 0%nat _ Ey). apply place_symbol_ok; [done|lia|apply IH; lia]. }
  specialize (H (length lens) ltac:(done)). rewrite take_ge in H by done. destruct H as (_ & _ & _ & H).
  intros s Hs. apply H; [|done]. destruct (Nat.lt_ge_cases s (length lens)); [done|]. rewrite nth_overflow in Hs by lia. congruence.
Qed.

(** ** The decoder reads canonical codes *)

Lemma next_code_nonneg lens l : 0 <= next_code lens l.
Proof. induction l as [|l IH]; cbn [next_code]; lia. Qed.

(** Longer codes come after every shorter one extended. *)
Lemma next_code_ge lens l k : (l < k)%nat -> 2 ^ Z.of_nat (k - l) * (next_code lens l + Z.of_nat (bl_count lens l)) <= next_code lens k.
Proof.
  unfold lt. induction 1 as [|k Hk IH].
  - replace (S l - l)%nat with 1%nat by lia. cbn [next_code]. lia.
  - replace (S k - l)%nat with (S (k - l)) by lia. cbn [next_code]. rewrite Nat2Z.inj_succ, Z.pow_succ_r by lia. lia.
Qed.


Lemma shiftr_step c (m : nat) : Z.lor (2 * Z.shiftr c (Z.of_nat (S m))) (Z.b2z (Z.testbit c (Z.of_nat m))) = Z.shiftr c (Z.of_nat m).
Proof.
  rewrite Z.mul_comm, <- (Z.shiftl_mul_pow2 _ 1) by lia. rewrite Z.lor_comm, lor_shiftl_add by (try lia; by destruct (Z.testbit _ _)).
  change (2 ^ 1) with 2. rewrite Nat2Z.inj_succ, <- Z.add_1_r, <- Z.shiftr_shiftr by lia. rewrite (Z.shiftr_div_pow2 _ 1) by lia. change (2 ^ 1) with 2.
  rewrite Z.testbit_odd. set (x := Z.shiftr c (Z.of_nat m)). pose proof (Z.div_mod x 2 ltac:(lia)) as H. rewrite Zmod_odd in H.
  destruct (Z.odd x); cbn; lia.
Qed.

Lemma decode_takes lens comp h s : Forall (fun x => x <= 15)%nat lens -> build lens comp = Ok h -> nth s lens 0%nat <> 0%nat ->
  takes (decode h) (code_bits lens s) s.
Proof.
  intros Hall Hb Hs. unfold build in Hb. destruct (tree_left _ _) as [left_|] eqn:Et; [|done]. destruct (_ && _); [done|]. injection Hb as <-.
  destruct (count_lengths_ok lens Hall) as [_ Hcounts]. pose proof (codes_fit lens left_ Hall Et) as Hfit.
  pose proof (place_symbols_ok lens _ Hall Hcounts s Hs) as Hplace. unfold code_bits.
  set (L := nth s lens 0%nat) in *. set (C := code_of lens s). assert (HL : (L <= 15)%nat).
  { unfold L. destruct (nth_lookup_or_length lens s 0%nat) as [E|E]; [by eapply (Forall_lookup_1 _ _ _ _ Hall E)|].
    exfalso. apply Hs. unfold L. by apply nth_overflow. }
  pose proof (rank_lt lens s L eq_refl Hs) as Hrank. pose proof (next_code_nonneg lens L) as Hn0.
  assert (HC : C = next_code lens L + Z.of_nat (rank lens s)) by done.
  assert (Hlt : C < 2 ^ Z.of_nat L) by (specialize (Hfit L ltac:(lia)); lia). clearbody C.
  assert (Hwalk : forall d l, (1 <= l)%nat -> (l + d = L)%nat ->
    takes (decode_from (MkHuffman (count_lengths lens) (place_symbols lens (first_offsets (count_lengths lens))).1) (seq l (16 - l))
      (2 * Z.shiftr C (Z.of_nat (S d))) (next_code lens l) (Z.of_nat (slot_base lens l))) (msb_bits (S d) C) s).
  { induction d as [|d IH]; intros l Hl Hd; replace (16 - l)%nat with (S (16 - S l)) by lia; cbn [seq decode_from msb_bits hf_counts hf_symbols].
    - change ([Z.testbit C (Z.of_nat 0)]) with ([Z.testbit C (Z.of_nat 0)] ++ []). eapply takes_bind; [apply bit_takes|].
      rewrite shiftr_step. change (Z.of_nat 0) with 0. rewrite Z.shiftr_0_r. replace l with L in * by lia.
      rewrite Hcounts by lia. replace (C - next_code lens L) with (Z.of_nat (rank lens s)) by lia.
      replace (_ <? _) with true by (symmetry; apply Z.ltb_lt; lia). replace (_ <? 0) with false by (symmetry; apply Z.ltb_ge; lia).
      rewrite <- Nat2Z.inj_add, Nat2Z.id, Hplace. apply takes_ret.
    - change (Z.testbit C (Z.of_nat (S d)) :: ?r) with ([Z.testbit C (Z.of_nat (S d))] ++ r). eapply takes_bind; [apply bit_takes|].
      rewrite shiftr_step, Hcounts by lia.
      assert (Hge : next_code lens l + Z.of_nat (bl_count lens l) <= Z.shiftr C (Z.of_nat (S d))).
      { rewrite Z.shiftr_div_pow2 by lia. apply Z.div_le_lower_bound; [lia|]. pose proof (next_code_ge lens l L ltac:(lia)) as Hge.
        replace (L - l)%nat with (S d) in Hge by lia. lia. }
      replace (_ <? _) with false by (symmetry; apply Z.ltb_ge; lia). rewrite !Z.shiftl_mul_pow2 by lia. change (2 ^ 1) with 2.
      replace (Z.shiftr C (Z.of_nat (S d)) * 2) with (2 * Z.shiftr C (Z.of_nat (S d))) by lia.
      replace ((next_code lens l + Z.of_nat (bl_count lens l)) * 2) with (next_code lens (S l)) by (cbn [next_code]; lia).
      replace (Z.of_nat (slot_base lens l) + Z.of_nat (bl_count lens l)) with (Z.of_nat (slot_base lens (S l))) by (rewrite base_S by lia; lia).
      apply IH; lia. }
  specialize (Hwalk (L - 1)%nat 1%nat ltac:(lia) ltac:(lia)). replace (S (L - 1)) with L in Hwalk by lia.
  unfold decode. rewrite Z.shiftr_div_pow2, Z.div_small in Hwalk by lia. exact Hwalk.
Qed.

(** ** What a stream says, and how it is written *)

(** A literal, or a copy: a length symbol and a distance symbol with their extra bits. *)
Inductive token := Lit (b : byte) | Copy (li : nat) (le : Z) (ds : nat) (de : Z).

Definition copy_length (li : nat) (le : Z) : nat := (nth li LENGTH_BASE 0 + Z.to_nat le)%nat.
Definition copy_distance (ds : nat) (de : Z) : Z := nth ds DIST_BASE 0 + de.

Fixpoint copy_bytes (n dist : nat) (body : list byte) : list byte :=
  match n with
  | O => body
  | S n => copy_bytes n dist (body ++ [nth (length body - dist) body x00])
  end.

Definition expand_token (body : list byte) (t : token) : list byte :=
  match t with
  | Lit b => body ++ [b]
  | Copy li le ds de => copy_bytes (copy_length li le) (Z.to_nat (copy_distance ds de)) body
  end.

Definition token_bits (lit dist : list nat) (t : token) : list bool :=
  match t with
  | Lit b => code_bits lit (Z.to_nat (u8v b))
  | Copy li le ds de =>
      code_bits lit (257 + li) ++ lsb_bits (nth li LENGTH_EXTRA 0%nat) le ++ code_bits dist ds ++ lsb_bits (nth ds DIST_EXTRA 0%nat) de
  end.

(** A token can be written with these codes, behind this much of the body. *)
Definition deflate_token_ok (lit dist : list nat) (body : list byte) (t : token) : Prop :=
  match t with
  | Lit b => nth (Z.to_nat (u8v b)) lit 0%nat <> 0%nat
  | Copy li le ds de =>
      (li < length LENGTH_BASE)%nat /\ 0 <= le < 2 ^ Z.of_nat (nth li LENGTH_EXTRA 0%nat) /\ nth (257 + li) lit 0%nat <> 0%nat /\
      (ds < length DIST_BASE)%nat /\ 0 <= de < 2 ^ Z.of_nat (nth ds DIST_EXTRA 0%nat) /\ nth ds dist 0%nat <> 0%nat /\
      0 < copy_distance ds de <= Z.of_nat (length body)
  end.

Fixpoint tokens_ok (lit dist : list nat) (body : list byte) (ts : list token) : Prop :=
  match ts with
  | [] => nth 256 lit 0%nat <> 0%nat
  | t :: ts => deflate_token_ok lit dist body t /\ tokens_ok lit dist (expand_token body t) ts
  end.

Definition tokens_bits (lit dist : list nat) (ts : list token) : list bool :=
  concat (token_bits lit dist <$> ts) ++ code_bits lit 256.

(** The lengths of a dynamic block's codes, as runs of a code of their own. *)
Inductive item := Len (l : nat) | Again (e : Z) | Zeros (e : Z) | ManyZeros (e : Z).

Definition expand_item (lens : list nat) (i : item) : list nat :=
  match i with
  | Len l => lens ++ [l]
  | Again e => lens ++ repeat (nth (length lens - 1) lens 0%nat) (3 + Z.to_nat e)
  | Zeros e => lens ++ repeat 0%nat (3 + Z.to_nat e)
  | ManyZeros e => lens ++ repeat 0%nat (11 + Z.to_nat e)
  end.

Definition item_bits (clens : list nat) (i : item) : list bool :=
  match i with
  | Len l => code_bits clens l
  | Again e => code_bits clens 16 ++ lsb_bits 2 e
  | Zeros e => code_bits clens 17 ++ lsb_bits 3 e
  | ManyZeros e => code_bits clens 18 ++ lsb_bits 7 e
  end.

Definition item_ok (clens lens : list nat) (i : item) : Prop :=
  match i with
  | Len l => (l <= 15)%nat /\ nth l clens 0%nat <> 0%nat
  | Again e => 0 <= e < 4 /\ nth 16 clens 0%nat <> 0%nat /\ lens <> []
  | Zeros e => 0 <= e < 8 /\ nth 17 clens 0%nat <> 0%nat
  | ManyZeros e => 0 <= e < 128 /\ nth 18 clens 0%nat <> 0%nat
  end.

Fixpoint items_ok (clens lens : list nat) (is_ : list item) : Prop :=
  match is_ with [] => True | i :: is_ => item_ok clens lens i /\ items_ok clens (expand_item lens i) is_ end.

(** The share of the tree a code of length [l] takes, in leaves at depth 15. *)
Definition leaves (l : nat) : Z := if (l =? 0)%nat then 0 else 2 ^ Z.of_nat (15 - l).
Definition kraft (lens : list nat) : Z := fold_left (fun sum l => sum + leaves l) lens 0.

(** A code as the format has it: all the tree, or a symbol at most. *)
Definition code_ok (lens : list nat) : Prop :=
  Forall (fun l => l <= 15)%nat lens /\
  (kraft lens = 2 ^ 15 \/ (kraft lens <= 2 ^ 15 /\ (length (filter (fun l => l <> 0%nat) lens) <= 1)%nat)).

(** The header of a dynamic block: how many code lengths are written, what they
    are, the runs, and the two codes the runs come to. *)
Record Header := MkHeader { hd_slots : nat; hd_clens : list nat; hd_items : list item; hd_lit : list nat; hd_dist : list nat }.

Record dynamic_ok (h : Header) : Prop := {
  ho_slots : (4 <= h.(hd_slots) <= 19)%nat;
  ho_clens : length h.(hd_clens) = 19%nat /\ Forall (fun l => l <= 7)%nat h.(hd_clens) /\ code_ok h.(hd_clens);
  ho_unwritten : Forall (fun slot => nth slot h.(hd_clens) 0%nat = 0%nat) (drop h.(hd_slots) CODE_LENGTH_ORDER);
  ho_lit : (257 <= length h.(hd_lit) <= 286)%nat /\ code_ok h.(hd_lit);
  ho_dist : (1 <= length h.(hd_dist) <= 30)%nat /\ code_ok h.(hd_dist);
  ho_items : items_ok h.(hd_clens) [] h.(hd_items) /\ fold_left expand_item h.(hd_items) [] = h.(hd_lit) ++ h.(hd_dist) }.

Definition header_bits (h : Header) : list bool :=
  lsb_bits 5 (Z.of_nat (length h.(hd_lit) - 257)) ++ lsb_bits 5 (Z.of_nat (length h.(hd_dist) - 1)) ++
  lsb_bits 4 (Z.of_nat (h.(hd_slots) - 4)) ++
  concat ((fun slot => lsb_bits 3 (Z.of_nat (nth slot h.(hd_clens) 0%nat))) <$> take h.(hd_slots) CODE_LENGTH_ORDER) ++
  concat (item_bits h.(hd_clens) <$> h.(hd_items)).

(** A stored block carries what pads it to a byte. *)
Inductive block := Stored (pad : Z) (data : list byte) | Fixed (ts : list token) | Dynamic (h : Header) (ts : list token).

Definition pad_length (offset : nat) : nat := ((8 - offset mod 8) mod 8)%nat.

Definition block_bits (offset : nat) (last : bool) (b : block) : list bool :=
  last ::
  match b with
  | Stored pad data =>
      lsb_bits 2 0 ++ lsb_bits (pad_length (offset + 3)) pad ++
      bytes_bits (to_le_bytes 2 (Z.of_nat (length data)) ++ to_le_bytes 2 (Z.lxor (Z.of_nat (length data)) 0xFFFF) ++ data)
  | Fixed ts => lsb_bits 2 1 ++ tokens_bits fixed_literal fixed_distance ts
  | Dynamic h ts => lsb_bits 2 2 ++ header_bits h ++ tokens_bits h.(hd_lit) h.(hd_dist) ts
  end.

Definition block_ok (body : list byte) (b : block) : Prop :=
  match b with
  | Stored _ data => Z.of_nat (length data) < 2 ^ 16
  | Fixed ts => tokens_ok fixed_literal fixed_distance body ts
  | Dynamic h ts => dynamic_ok h /\ tokens_ok h.(hd_lit) h.(hd_dist) body ts
  end.

Definition expand_block (body : list byte) (b : block) : list byte :=
  match b with
  | Stored _ data => body ++ data
  | Fixed ts | Dynamic _ ts => fold_left expand_token ts body
  end.

(** What a block costs the decoder. *)
Definition block_work (b : block) : Z :=
  match b with
  | Stored _ _ => 1
  | Fixed ts => 2 + Z.of_nat (length ts)
  | Dynamic _ ts => 2 + 2 * TABLE_COST + Z.of_nat (length ts)
  end.

(** A list of blocks, the last one marked. *)
Fixpoint blocks_bits (offset : nat) (b : block) (bs : list block) : list bool :=
  match bs with
  | [] => block_bits offset true b
  | b' :: bs => let l := block_bits offset false b in l ++ blocks_bits (offset + length l) b' bs
  end.

Fixpoint blocks_ok (body : list byte) (b : block) (bs : list block) : Prop :=
  block_ok body b /\ match bs with [] => True | b' :: bs => blocks_ok (expand_block body b) b' bs end.

(** The container: the optional fields, the data, what it says. *)
Record Member := MkMember {
  gz_rest : list byte; gz_extra : option (list byte); gz_name : option (list byte); gz_comment : option (list byte);
  gz_hcrc : option (list byte); gz_data : list byte; gz_first : block; gz_more : list block }.

Definition gz_flag (mask : Z) (o : option (list byte)) : Z := match o with Some _ => mask | None => 0 end.
Definition gz_flags (g : Member) : Z :=
  gz_flag 0x02 g.(gz_hcrc) + gz_flag 0x04 g.(gz_extra) + gz_flag 0x08 g.(gz_name) + gz_flag 0x10 g.(gz_comment).
Definition gz_text (o : option (list byte)) : list byte := match o with Some l => l ++ [x00] | None => [] end.

Definition gz_head (g : Member) : list byte :=
  [x1f; x8b; x08; u8 (gz_flags g)] ++ g.(gz_rest) ++
  (match g.(gz_extra) with Some l => to_le_bytes 2 (Z.of_nat (length l)) ++ l | None => [] end) ++
  gz_text g.(gz_name) ++ gz_text g.(gz_comment) ++ match g.(gz_hcrc) with Some l => l | None => [] end.

Definition gz_body (g : Member) : list byte := fold_left expand_block (g.(gz_first) :: g.(gz_more)) [].
Definition gz_work (g : Member) : Z := fold_left (fun w b => w + block_work b) (g.(gz_first) :: g.(gz_more)) 0.

Definition gz_bytes (g : Member) : list byte :=
  gz_head g ++ g.(gz_data) ++ to_le_bytes 4 (gz_crc32 (gz_body g)) ++ to_le_bytes 4 (Z.of_nat (length (gz_body g))).

Definition gz_text_ok (o : option (list byte)) : Prop :=
  match o with Some l => (length l <= 1024)%nat /\ Forall (fun b => b <> x00) l | None => True end.

Record member_ok (g : Member) : Prop := {
  mo_rest : length g.(gz_rest) = 6%nat;
  mo_extra : match g.(gz_extra) with Some l => Z.of_nat (length l) < 2 ^ 16 | None => True end;
  mo_name : gz_text_ok g.(gz_name);
  mo_comment : gz_text_ok g.(gz_comment);
  mo_hcrc : match g.(gz_hcrc) with Some l => length l = 2%nat | None => True end;
  mo_data : exists pad, (length pad < 8)%nat /\ bytes_bits g.(gz_data) = blocks_bits 0 g.(gz_first) g.(gz_more) ++ pad;
  mo_blocks : blocks_ok [] g.(gz_first) g.(gz_more) }.
