(* ===== verification/InflateComplete.v ===== *)
(** * Every stream within the bounds is decoded

    The decoder against [InflateSpec]: its tables exist for every code the format
    allows, each reader takes off the stream what the encoding wrote, a block leaves
    the body the block stands for, and the container's checks hold. The one way left
    to refuse a valid stream is a bound it goes over. *)

From S2P Require Import Prelude Bytes Wire Inflate InflateSpec.

(** ** The tables exist *)

(** What the codes up to a length fill, in nodes of that depth. *)
Definition filled (lens : list nat) (l : nat) : Z := next_code lens l + Z.of_nat (bl_count lens l).

Lemma filled_S lens l : filled lens (S l) = 2 * filled lens l + Z.of_nat (bl_count lens (S l)).
Proof. unfold filled. cbn [next_code]. lia. Qed.

Lemma filled_snoc lens x l : (x <> 0)%nat ->
  filled (lens ++ [x]) l = filled lens l + if (x <=? l)%nat then 2 ^ Z.of_nat (l - x) else 0.
Proof.
  intros Hx. induction l as [|l IH].
  - unfold filled. cbn [next_code]. unfold bl_count. cbn. destruct x; [done|]. done.
  - rewrite !filled_S, IH, bl_count_snoc by done. destruct (Nat.leb_spec x l) as [H|H].
    + replace (x <=? S l)%nat with true by (symmetry; apply Nat.leb_le; lia). replace (x =? S l)%nat with false by (symmetry; apply Nat.eqb_neq; lia).
      replace (S l - x)%nat with (S (l - x)) by lia. rewrite Nat2Z.inj_succ, Z.pow_succ_r by lia. lia.
    + destruct (Nat.eqb_spec x (S l)) as [->|Hne].
      * rewrite Nat.leb_refl, Nat.sub_diag. change (2 ^ Z.of_nat 0) with 1. lia.
      * replace (x <=? S l)%nat with false by (symmetry; apply Nat.leb_gt; lia). lia.
Qed.

Lemma filled_snoc_0 lens l : filled (lens ++ [0%nat]) l = filled lens l.
Proof.
  induction l as [|l IH]; [unfold filled, bl_count; cbn; done|]. rewrite !filled_S, IH, bl_count_snoc by done. cbn [Nat.eqb]. lia.
Qed.

(** The sum over symbols is the tree's own count. *)
Lemma kraft_filled lens : Forall (fun l => l <= 15)%nat lens -> kraft lens = filled lens 15.
Proof.
  unfold kraft. induction lens as [|x lens IH] using rev_ind; intros Hall; [reflexivity|].
  apply Forall_app in Hall as [Hall [Hx _]%Forall_cons]. rewrite fold_left_app. cbn [fold_left]. rewrite IH by done. unfold leaves.
  destruct (Nat.eqb_spec x 0) as [->|Hn]; [rewrite filled_snoc_0; lia|]. rewrite filled_snoc by done.
  by replace (x <=? 15)%nat with true by (symmetry; apply Nat.leb_le; lia).
Qed.

Lemma filled_fits lens l : (l <= 15)%nat -> filled lens 15 <= 2 ^ 15 -> filled lens l <= 2 ^ Z.of_nat l.
Proof.
  intros Hl Hf. remember (15 - l)%nat as d eqn:Ed. revert l Hl Ed; induction d as [|d IH]; intros l Hl Ed.
  - by replace l with 15%nat by lia.
  - specialize (IH (S l) ltac:(lia) ltac:(lia)). rewrite filled_S, Nat2Z.inj_succ, Z.pow_succ_r in IH by lia. lia.
Qed.

Lemma tree_left_total lens counts from : 
  (forall i, (i < length counts)%nat -> nth i counts 0%nat = bl_count lens (from + i)) -> (0 < from)%nat ->
  (forall l, (l < from + length counts)%nat -> filled lens l <= 2 ^ Z.of_nat l) ->
  tree_left counts (2 ^ Z.of_nat (from - 1) - filled lens (from - 1)) =
  Some (2 ^ Z.of_nat (from + length counts - 1) - filled lens (from + length counts - 1)).
Proof.
  revert from; induction counts as [|c counts IH]; intros from Hc Hf Hfit; cbn [tree_left length]; [by rewrite Nat.add_0_r|].
  assert (Hthis : 2 * (2 ^ Z.of_nat (from - 1) - filled lens (from - 1)) - Z.of_nat c = 2 ^ Z.of_nat from - filled lens from).
  { pose proof (Hc 0%nat ltac:(cbn; lia)) as H0. cbn in H0. rewrite Nat.add_0_r in H0. subst c. destruct from as [|from]; [lia|].
    rewrite filled_S. replace (S from - 1)%nat with from by lia. rewrite (Nat2Z.inj_succ from), Z.pow_succ_r by lia. lia. }
  rewrite Hthis. pose proof (Hfit from ltac:(cbn; lia)). replace (_ <? 0) with false by (symmetry; apply Z.ltb_ge; lia).
  specialize (IH (S from)). rewrite Nat.sub_succ, Nat.sub_0_r in IH. rewrite IH; [|..].
  - by replace (S from + length counts)%nat with (from + S (length counts))%nat by lia.
  - intros i Hi. specialize (Hc (S i) ltac:(cbn; lia)). cbn [nth] in Hc. rewrite Hc. f_equal. lia.
  - lia.
  - intros l Hl. apply Hfit. cbn. lia.
Qed.

Lemma used_nonzero lens : Forall (fun l => l <= 15)%nat lens ->
  sum_list (tail (count_lengths lens)) = length (filter (fun l => l <> 0%nat) lens).
Proof.
  intros Hall. destruct (count_lengths_ok lens Hall) as [Hlen Hnth].
  assert (E : tail (count_lengths lens) = bl_count lens <$> seq 1 15).
  { apply list_eq_same_length with (n := 15%nat); [by rewrite length_fmap, length_seq|destruct (count_lengths lens); cbn in *; lia|].
    intros i x y Hi Hx Hy. rewrite list_lookup_fmap, lookup_seq_lt in Hy by done. apply (inj Some) in Hy as <-.
    change (1 + i)%nat with (S i). rewrite <- (Hnth (S i)) by lia. rewrite <- (nth_lookup_Some _ _ 0%nat _ Hx). by destruct (count_lengths lens). }
  rewrite E. clear E Hlen Hnth. induction lens as [|x lens IH] using rev_ind; [reflexivity|].
  apply Forall_app in Hall as [Hall [Hx _]%Forall_cons]. rewrite filter_app, length_app, <- IH by done.
  destruct (decide (x = 0%nat)) as [->|Hn].
  - rewrite filter_cons_False by (intros H; by apply H). cbn [length filter]. rewrite Nat.add_0_r. f_equal. apply list_fmap_ext.
    intros i l [-> Hl]%lookup_seq. rewrite bl_count_snoc by lia. cbn. lia.
  - rewrite filter_cons_True by done. cbn [filter length].
    assert (Hgen : forall n from, (0 < from)%nat -> sum_list (bl_count (lens ++ [x]) <$> seq from n) =
      (sum_list (bl_count lens <$> seq from n) + if ((from <=? x) && (x <? from + n))%nat then 1 else 0)%nat).
    { clear -Hn. induction n as [|n IH]; intros from Hf; cbn [seq fmap list_fmap].
      - destruct (Nat.leb_spec from x), (Nat.ltb_spec x (from + 0)); cbn; lia.
      - cbn [sum_list]. unfold id in *. rewrite IH, bl_count_snoc by lia.
        destruct (Nat.eqb_spec x from), (Nat.leb_spec from x), (Nat.ltb_spec x (from + S n)), (Nat.leb_spec (S from) x), (Nat.ltb_spec x (S from + n)); cbn; lia. }
    rewrite Hgen by lia. replace ((1 <=? x) && (x <? 1 + 15))%nat with true; [done|].
    symmetry. apply andb_true_iff. split; [apply Nat.leb_le|apply Nat.ltb_lt]; lia.
Qed.

(** Any code the format allows has its tables. *)
Lemma tables_exist lens : code_ok lens -> exists h, Huffman_new lens = Ok h.
Proof.
  intros [Hall Hk]. unfold Huffman_new, build. destruct (count_lengths_ok lens Hall) as [Hlen Hnth].
  assert (Hf : filled lens 15 <= 2 ^ 15) by (rewrite <- kraft_filled by done; destruct Hk as [|[]]; lia).
  assert (Htl : length (tail (count_lengths lens)) = 15%nat) by (destruct (count_lengths lens); cbn in *; lia).
  pose proof (tree_left_total lens (tail (count_lengths lens)) 1) as Ht. rewrite Htl in Ht. cbn [Nat.sub Nat.add] in Ht.
  change (2 ^ Z.of_nat 0 - filled lens 0) with 1 in Ht.
  rewrite Ht; [|intros i Hi; rewrite <- Hnth by lia; by destruct (count_lengths lens)|lia|intros l Hl; apply filled_fits; [lia|done]].
  rewrite used_nonzero by done. rewrite <- kraft_filled by done. change (2 ^ Z.of_nat 15) with (2 ^ 15).
  replace (_ && true) with false; [by eexists|]. symmetry. rewrite andb_true_r. apply andb_false_iff.
  destruct Hk as [->|[_ Hu]]; [left; by apply Z.ltb_ge|right; by apply Nat.ltb_ge].
Qed.

(** ** Within the bounds, or a bound is named *)

Section bounded.
Context (bounds : Bounds) (budget N W : Z).

(** A bound that a body of [N] bytes at a cost of [W] goes over. *)
Definition refused (e : InflateError) : Prop :=
  (e = OutputTooLarge /\ bounds.(max_output) < N) \/ (e = RatioTooHigh /\ bounds.(ratio_after_output) < N) \/
  (e = TooMuchWork /\ budget < W).

Definition outcome {A} (r : result InflateError A) (P : A -> Prop) : Prop :=
  match r with Ok x => P x | Err e => refused e end.

(** The output so far, at no more than a cost. *)
Record keeps (o : Out) (body : list byte) (w : Z) : Prop := {
  hs_body : o.(out_rev) = rev body;
  hs_bounds : o.(out_bounds) = bounds;
  hs_budget : o.(out_work_budget) = budget;
  hs_work : o.(out_work) <= w }.

Lemma outcome_mono {A} (r : result InflateError A) (P Q : A -> Prop) : outcome r P -> (forall x, P x -> Q x) -> outcome r Q.
Proof. destruct r as [x|e]; cbn; auto. Qed.

Lemma outcome_bind {A B} (m : result InflateError A) (f : A -> result InflateError B) (P : A -> Prop) Q :
  outcome m P -> (forall x, P x -> outcome (f x) Q) -> outcome (m ≫= f) Q.
Proof. destruct m as [x|e]; cbn; auto. Qed.

(** A reader that succeeds, within a handler. *)
Lemma outcome_takes {A B} (m : BitReader A) l x bs rest (f : A * Bits -> result InflateError B) Q :
  takes m l x -> bits_ahead bs = l ++ rest ->
  (forall bs', bits_ahead bs' = rest -> same_data bs bs' -> m bs = Ok (x, bs') -> outcome (f (x, bs')) Q) -> outcome (m bs ≫= f) Q.
Proof. intros Hm E Hf. destruct (Hm bs rest E) as (bs' & E1 & E2 & E3). rewrite E1. cbn. by apply Hf. Qed.

Lemma out_len_holds o body w : keeps o body w -> out_len o = Z.of_nat (length body).
Proof. intros [H _ _ _]. unfold out_len. by rewrite H, length_rev. Qed.

Lemma charge_outcome n o body w : keeps o body w -> w + n <= W -> outcome (charge n o) (fun o' => keeps o' body (w + n)).
Proof.
  intros [H1 H2 H3 H4] Hn. unfold charge. destruct (Z.ltb_spec (out_work_budget o) (Z.min (out_work o + n) u64_max)).
  - right; right. split; [done|lia].
  - split; cbn; [done|done|done|lia].
Qed.

Lemma push_outcome x bs o body w : keeps o body w -> Z.of_nat (length body) + 1 <= N ->
  outcome (push x bs o) (fun o' => keeps o' (body ++ [x]) w).
Proof.
  intros Ho Hn. pose proof (out_len_holds _ _ _ Ho) as Hl. destruct Ho as [H1 H2 H3 H4]. unfold push. rewrite Hl, H2.
  destruct (Z.leb_spec (max_output bounds) (Z.of_nat (length body))); [left; split; [done|lia]|].
  destruct (_ && _) eqn:E; [apply andb_true_iff in E as [E%Z.leb_le _]; right; left; split; [done|lia]|].
  split; cbn; [by rewrite rev_app_distr, H1|done|done|done].
Qed.

Lemma length_copy n dist body : length (copy_bytes n dist body) = (length body + n)%nat.
Proof. revert body; induction n as [|n IH]; intros body; cbn [copy_bytes]; [lia|]. rewrite IH, length_app. cbn. lia. Qed.

Lemma copy_outcome n dist bs o body w : keeps o body w -> (1 <= dist <= length body)%nat -> Z.of_nat (length body + n) <= N ->
  outcome (copy_back n dist bs o) (fun o' => keeps o' (copy_bytes n dist body) w).
Proof.
  revert o body; induction n as [|n IH]; intros o body Ho Hd Hn; cbn [copy_back copy_bytes]; [exact Ho|].
  assert (El : out_rev o !! (dist - 1)%nat = Some (nth (length body - dist) body x00)).
  { rewrite (hs_body _ _ _ Ho). rewrite rev_alt. change (rev_append body []) with (reverse body). destruct (lookup_lt_is_Some_2 body (length body - dist)%nat ltac:(lia)) as [y Ey].
    rewrite (nth_lookup_Some _ _ _ _ Ey), reverse_lookup by lia. rewrite <- Ey. f_equal. lia. }
  rewrite El. cbn [ok_or mbind result_bind]. eapply outcome_bind; [apply push_outcome; [exact Ho|lia]|].
  intros o1 Ho1. apply IH; [exact Ho1|rewrite length_app; cbn; lia|rewrite length_app; cbn; lia].
Qed.

Lemma expand_token_longer body t : (length body <= length (expand_token body t))%nat.
Proof. destruct t; cbn [expand_token]; [rewrite length_app; lia|rewrite length_copy; lia]. Qed.

Lemma expand_tokens_longer body ts : (length body <= length (fold_left expand_token ts body))%nat.
Proof.
  revert body; induction ts as [|t ts IH]; intros body; cbn; [lia|]. pose proof (expand_token_longer body t). specialize (IH (expand_token body t)). lia.
Qed.

(** ** Symbols *)

Section symbols.
Context (lit dist : list nat) (cl cd : Completeness) (hl hd : Huffman).
Context (Hlit : Forall (fun l => l <= 15)%nat lit) (Hdist : Forall (fun l => l <= 15)%nat dist).
Context (Hhl : build lit cl = Ok hl) (Hhd : build dist cd = Ok hd).

Lemma symbol_outcome t bs rest o body w : deflate_token_ok lit dist body t -> bits_ahead bs = token_bits lit dist t ++ rest -> keeps o body w ->
  w + 1 <= W -> Z.of_nat (length (expand_token body t)) <= N ->
  outcome (symbol_step hl hd bs o) (fun '(fin, bs', o') => fin = false /\ bits_ahead bs' = rest /\ same_data bs bs' /\ keeps o' (expand_token body t) (w + 1)).
Proof.
  intros Ht Es Ho Hw Hn. unfold symbol_step. eapply outcome_bind; [by apply charge_outcome|]. intros o1 Ho1.
  destruct t as [b|li le ds de]; cbn [deflate_token_ok token_bits expand_token] in *.
  - eapply outcome_takes; [eapply (decode_takes lit cl hl); eassumption|exact Es|]. intros bs1 Es1 Hk1 _. pose proof (u8v_range b).
    replace (_ <=? 255)%nat with true by (symmetry; apply Nat.leb_le; lia). rewrite Z2Nat.id, u8_u8v by lia.
    eapply outcome_bind; [apply push_outcome; [exact Ho1|rewrite length_app in Hn; cbn in Hn; lia]|]. intros o2 Ho2. cbn. by split_and!.
  - destruct Ht as (Hli & Hle & Hl & Hds & Hde & Hd & Hdlo & Hdhi). rewrite <- !app_assoc in Es.
    change (length LENGTH_BASE) with 29%nat in Hli.
    eapply outcome_takes; [eapply (decode_takes lit cl hl); eassumption|exact Es|]. intros bs1 Es1 Hk1 _.
    replace (257 + li <=? 255)%nat with false by (symmetry; apply Nat.leb_gt; lia).
    replace (257 + li =? 256)%nat with false by (symmetry; apply Nat.eqb_neq; lia).
    replace (257 + li <=? 285)%nat with true by (symmetry; apply Nat.leb_le; lia). cbn zeta.
    replace (257 + li - 257)%nat with li by lia.
    eapply outcome_takes; [by apply bits_takes|exact Es1|]. intros bs2 Es2 Hk2 _.
    eapply outcome_takes; [eapply (decode_takes dist cd hd); [exact Hdist|exact Hhd|exact Hd]|exact Es2|]. intros bs3 Es3 Hk3 _.
    replace (length DIST_BASE <=? ds)%nat with false by (symmetry; apply Nat.leb_gt; lia).
    eapply outcome_takes; [by apply bits_takes|exact Es3|]. intros bs4 Es4 Hk4 _.
    fold (copy_distance ds de). fold (copy_length li le). rewrite (out_len_holds _ _ _ Ho1).
    replace (_ || _) with false by (symmetry; apply orb_false_iff; split; [apply Z.eqb_neq|apply Z.ltb_ge]; lia).
    rewrite length_copy in Hn. eapply outcome_bind; [apply copy_outcome; [exact Ho1|lia|exact Hn]|]. intros o2 Ho2. cbn.
    split_and!; [done|done| |done]. eauto using same_data_trans.
Qed.

Lemma end_outcome bs rest o body w : nth 256 lit 0%nat <> 0%nat -> bits_ahead bs = code_bits lit 256 ++ rest -> keeps o body w -> w + 1 <= W ->
  outcome (symbol_step hl hd bs o) (fun '(fin, bs', o') => fin = true /\ bits_ahead bs' = rest /\ same_data bs bs' /\ keeps o' body (w + 1)).
Proof.
  intros Ht Es Ho Hw. unfold symbol_step. eapply outcome_bind; [by apply charge_outcome|]. intros o1 Ho1.
  eapply outcome_takes; [eapply (decode_takes lit cl hl); eassumption|exact Es|]. intros bs1 Es1 Hk1 _. cbn. by split_and!.
Qed.

Lemma symbols_outcome fuel ts bs rest o body w : (bits_left bs < fuel)%nat -> tokens_ok lit dist body ts ->
  bits_ahead bs = tokens_bits lit dist ts ++ rest -> keeps o body w -> w + Z.of_nat (length ts) + 1 <= W ->
  Z.of_nat (length (fold_left expand_token ts body)) <= N ->
  exists r, inflate_symbols fuel hl hd bs o = Some r /\
    outcome r (fun '(bs', o') => bits_ahead bs' = rest /\ same_data bs bs' /\ keeps o' (fold_left expand_token ts body) (w + Z.of_nat (length ts) + 1)).
Proof.
  revert fuel bs o body w; induction ts as [|t ts IH]; intros fuel bs o body w Hf Ht Es Ho Hw Hn; (destruct fuel as [|fuel]; [lia|]);
    cbn [inflate_symbols fold_left tokens_ok length] in *.
  - unfold tokens_bits in Es. cbn [fmap list_fmap concat app] in Es.
    pose proof (end_outcome bs rest o body w Ht Es Ho ltac:(lia)) as H. destruct (symbol_step _ _ _ _) as [[[fin bs1] o1]|e]; [|by eexists].
    destruct H as (-> & Es1 & Hk1 & Ho1). eexists. split; [done|]. cbn [outcome length Z.of_nat]. rewrite Z.add_0_r. by split_and!.
  - destruct Ht as [Ht Hts]. unfold tokens_bits in Es. cbn [fmap list_fmap concat] in Es. rewrite <- !app_assoc in Es.
    pose proof (expand_tokens_longer (expand_token body t) ts).
    pose proof (symbol_outcome t bs _ o body w Ht Es Ho ltac:(lia) ltac:(lia)) as H1.
    destruct (symbol_step _ _ _ _) as [[[fin bs1] o1]|e] eqn:Est; [|by eexists]. apply symbol_step_steps in Est as Hst.
    pose proof (rd_left _ _ _ (proj1 Hst)) as Hl. destruct H1 as (-> & Es1 & Hk1 & Ho1).
    destruct (IH fuel bs1 o1 (expand_token body t) (w + 1)) as (r & Er & Hr); [lia|done|unfold tokens_bits; rewrite <- app_assoc; exact Es1|done|lia|done|].
    exists r. split; [done|]. eapply outcome_mono; [exact Hr|]. intros [bs2 o2] (Es2 & Hk2 & Ho2).
    split; [done|]. split; [by eapply same_data_trans|]. by replace (w + Z.of_nat (S (length ts)) + 1) with (w + 1 + Z.of_nat (length ts) + 1) by lia.
Qed.

End symbols.

(** ** Stored blocks *)

Lemma length_byte_bits x : length (byte_bits x) = 8%nat.
Proof. reflexivity. Qed.

Lemma bits_value_byte x : bits_value (byte_bits x) = u8v x.
Proof. destruct x; reflexivity. Qed.

Lemma length_bytes_bits l : length (bytes_bits l) = (8 * length l)%nat.
Proof. unfold bytes_bits. induction l as [|x l IH]; [done|]. cbn [fmap list_fmap concat length]. rewrite length_app, length_byte_bits, IH. lia. Qed.

Lemma bytes_bits_cons x l : bytes_bits (x :: l) = byte_bits x ++ bytes_bits l.
Proof. done. Qed.

(** Bytes written whole are read whole. *)
Lemma bytes_bits_prefix l k rest : bytes_bits l = bytes_bits k ++ rest -> exists l', l = k ++ l' /\ rest = bytes_bits l'.
Proof.
  revert l; induction k as [|x k IH]; intros l E; [by exists l|]. rewrite bytes_bits_cons, <- app_assoc in E. destruct l as [|y l].
  - exfalso. apply (f_equal length) in E. rewrite length_app, length_byte_bits in E. discriminate.
  - rewrite bytes_bits_cons in E. apply app_inj_1 in E as [E1 E2]; [|by rewrite !length_byte_bits].
    apply (f_equal bits_value) in E1. rewrite !bits_value_byte in E1. apply u8v_inj in E1 as ->.
    destruct (IH l E2) as (l' & -> & ->). by exists l'.
Qed.

Lemma stream_length b : length (bits_ahead b) = bits_left b.
Proof. unfold bits_ahead, bits_left. rewrite length_app, length_fmap, length_seq, length_bytes_bits, length_drop. lia. Qed.

(** How far a reader is, in bits, of all it was given. *)
Definition at_offset (b : Bits) (offset : nat) : Prop := (offset + length (bits_ahead b) = 8 * length b.(bt_data) /\ b.(bt_count) <= 7)%nat.

Lemma at_offset_after l rest b b' offset : at_offset b offset -> bits_ahead b = l ++ rest -> bits_ahead b' = rest -> same_data b b' ->
  at_offset b' (offset + length l).
Proof.
  intros [H1 H2] E E' [Hd Hc]. split; [|by apply Hc]. rewrite Hd, <- H1, E, E', length_app. lia.
Qed.

(** The rest of the byte is the padding. *)
Lemma align_stream b offset pad k rest : at_offset b offset -> bits_ahead b = lsb_bits (pad_length offset) pad ++ bytes_bits k ++ rest ->
  exists l', drop b.(bt_pos) b.(bt_data) = k ++ l' /\ rest = bytes_bits l'.
Proof.
  intros [H1 H2] E. rewrite stream_length in H1. unfold bits_left in H1.
  assert (Hp : pad_length offset = bt_count b).
  { unfold pad_length. pose proof (Nat.div_mod_eq offset 8). pose proof (Nat.mod_upper_bound offset 8 ltac:(lia)).
    destruct (decide (offset mod 8 = 0)%nat) as [E0|E0].
    - rewrite E0. change ((8 - 0) mod 8)%nat with 0%nat. lia.
    - rewrite Nat.mod_small by lia. lia. }
  unfold bits_ahead in E. apply app_inj_1 in E as [_ E]; [|by rewrite length_fmap, length_seq, length_lsb, Hp].
  by apply bytes_bits_prefix.
Qed.

Lemma drop_app_S {A} p (d : list A) k l' : drop p d = k ++ l' -> drop (p + length k) d = l'.
Proof. intros E. by rewrite <- drop_drop, E, drop_app_length. Qed.

Lemma drop_lookup {A} p (d : list A) l i : drop p d = l -> d !! (p + i)%nat = l !! i.
Proof. intros <-. by rewrite lookup_drop. Qed.

Lemma stored_bytes_outcome k bs l' o body w : drop bs.(bt_pos) bs.(bt_data) = k ++ l' -> keeps o body w -> Z.of_nat (length (body ++ k)) <= N ->
  outcome (stored_bytes (length k) bs o)
    (fun '(bs', o') => bs' = MkBits bs.(bt_data) (bs.(bt_pos) + length k) bs.(bt_buffer) bs.(bt_count) /\ keeps o' (body ++ k) w).
Proof.
  revert bs o body; induction k as [|x k IH]; intros [d p bu n] o body E Ho Hn; cbn [stored_bytes length outcome bt_data bt_pos bt_buffer bt_count] in *.
  { rewrite Nat.add_0_r, app_nil_r. by split. }
  pose proof (drop_lookup p d _ 0 E) as Ex. rewrite Nat.add_0_r in Ex. cbn in Ex. rewrite Ex. cbn [ok_or mbind result_bind].
  rewrite length_app in Hn. cbn [length] in Hn.
  eapply outcome_bind; [apply push_outcome; [exact Ho|lia]|]. intros o1 Ho1.
  specialize (IH (MkBits d (p + 1) bu n) o1 (body ++ [x])). cbn [bt_data bt_pos bt_buffer bt_count] in IH.
  rewrite <- app_assoc in IH. replace (p + S (length k))%nat with (p + 1 + length k)%nat by lia. apply IH; [|done|rewrite length_app; cbn; lia].
  exact (drop_app_S p d [x] _ E).
Qed.

Lemma le_bytes_2 v : to_le_bytes 2 v = [u8 v; u8 (v / 256)].
Proof. done. Qed.

Lemma lor_le_2 v : 0 <= v < 2 ^ 16 -> Z.lor (u8v (u8 v)) (Z.shiftl (u8v (u8 (v / 256))) 8) = v.
Proof.
  intros Hv. rewrite lor_shiftl_add by (try lia; apply u8v_range). rewrite !u8v_u8.
  assert (v / 256 < 256) by (apply Z.div_lt_upper_bound; lia). assert (0 <= v / 256) by (apply Z.div_pos; lia).
  rewrite (Z.mod_small (v / 256)) by lia. pose proof (Z.div_mod v 256 ltac:(lia)). lia.
Qed.

Lemma stored_outcome offset pad data bs rest o body w : at_offset bs offset ->
  bits_ahead bs = lsb_bits (pad_length offset) pad ++
    bytes_bits (to_le_bytes 2 (Z.of_nat (length data)) ++ to_le_bytes 2 (Z.lxor (Z.of_nat (length data)) 0xFFFF) ++ data) ++ rest ->
  Z.of_nat (length data) < 2 ^ 16 -> keeps o body w -> Z.of_nat (length (body ++ data)) <= N ->
  outcome (stored_block bs o) (fun '(bs', o') => bits_ahead bs' = rest /\ same_data bs bs' /\ keeps o' (body ++ data) w).
Proof.
  intros Hat Es Hlen Ho Hn. destruct (align_stream _ _ _ _ _ Hat Es) as (l' & Ed & ->). clear Es. rewrite !le_bytes_2 in Ed.
  set (n := Z.of_nat (length data)) in *. assert (Hx : 0 <= Z.lxor n 0xFFFF < 2 ^ 16) by (apply lxor_range; lia).
  unfold stored_block, align. cbn [bt_data bt_pos bt_buffer bt_count].
  rewrite !(drop_lookup _ _ _ _ Ed). cbn [app lookup list_lookup ok_or mbind result_bind].
  rewrite !lor_le_2 by lia. rewrite Z.lxor_assoc, Z.lxor_nilpotent, Z.lxor_0_r, Z.eqb_refl. cbn [negb].
  unfold n at 1. rewrite Nat2Z.id.
  pose proof (drop_app_S (bt_pos bs) (bt_data bs) [_; _; _; _] (data ++ l') Ed) as Ed2. cbn [length] in Ed2.
  eapply outcome_mono; [by eapply stored_bytes_outcome|]. cbn [bt_data bt_pos bt_buffer bt_count].
  intros [bs' o'] [-> Ho']. split; [|split; [|done]].
  - unfold bits_ahead. cbn [bt_data bt_pos bt_buffer bt_count seq fmap list_fmap app]. by rewrite (drop_app_S _ _ _ _ Ed2).
  - split; cbn; [done|lia].
Qed.

(** ** Dynamic blocks *)

Lemma repeat_into_ok n value done_ k : (n <= k)%nat ->
  repeat_into n value (done_ ++ repeat 0%nat k) (length done_) = Ok ((done_ ++ repeat value n) ++ repeat 0%nat (k - n), (length done_ + n)%nat).
Proof.
  revert done_ k; induction n as [|n IH]; intros done_ k Hk; cbn [repeat_into].
  - by rewrite app_nil_r, Nat.sub_0_r, Nat.add_0_r.
  - rewrite length_app, repeat_length. replace (_ <=? _)%nat with false by (symmetry; apply Nat.leb_gt; lia).
    destruct k as [|k]; [lia|]. rewrite insert_app_r_alt, Nat.sub_diag by lia. cbn [repeat].
    change (<[0%nat := value]> (0%nat :: repeat 0%nat k)) with (value :: repeat 0%nat k).
    specialize (IH (done_ ++ [value]) k ltac:(lia)). rewrite length_app in IH. cbn [length] in IH. rewrite <- app_assoc in IH. cbn [app] in IH.
    rewrite IH. rewrite <- !app_assoc. cbn [app]. by replace (length done_ + 1 + n)%nat with (length done_ + S n)%nat by lia.
Qed.

Lemma sub_same a k m : (a + k - (a + m) = k - m)%nat.
Proof. lia. Qed.

Section header.
Context (clens : list nat) (ch : Huffman) (Hc : Forall (fun l => l <= 15)%nat clens) (Hch : Huffman_new clens = Ok ch).

Lemma length_step_takes i lens k : item_ok clens lens i -> (length (expand_item lens i) <= length lens + k)%nat ->
  takes (length_step ch (lens ++ repeat 0%nat k) (length lens)) (item_bits clens i)
    (expand_item lens i ++ repeat 0%nat (length lens + k - length (expand_item lens i)), length (expand_item lens i)).
Proof.
  intros Hi Hk bs rest Es. unfold length_step. pose proof (fun s => decode_takes clens Required ch s Hc Hch) as Hdec.
  destruct i as [l|e|e|e]; cbn [item_ok item_bits expand_item] in *; rewrite ?length_app, ?repeat_length in *.
  - destruct Hi as [Hl Hs]. destruct (Hdec l Hs bs rest Es) as (b1 & E1 & S1 & K1). rewrite E1. cbn [mbind result_bind].
    replace (l <=? 15)%nat with true by (symmetry; apply Nat.leb_le; lia). exists b1. split; [|done]. cbn [length] in *.
    destruct k as [|k]; [lia|]. rewrite insert_app_r_alt, Nat.sub_diag by lia. cbn [repeat].
    change (<[0%nat := l]> (0%nat :: repeat 0%nat k)) with (l :: repeat 0%nat k). rewrite <- app_assoc. cbn [app].
    by replace (length lens + S k - (length lens + 1))%nat with k by lia.
  - destruct Hi as (He & Hs & Hn). rewrite <- app_assoc in Es. destruct (Hdec _ Hs bs _ Es) as (b1 & E1 & S1 & K1). rewrite E1. cbn [mbind result_bind].
    destruct (bits_takes 2 e He b1 rest S1) as (b2 & E2 & S2 & K2). change (16 <=? 15)%nat with false. change (16 =? 16)%nat with true. cbn iota.
    replace (length lens =? 0)%nat with false by (symmetry; apply Nat.eqb_neq; destruct lens; [done|cbn; lia]). rewrite E2. cbn [mbind result_bind].
    rewrite app_nth1 by (destruct lens; [done|cbn; lia]). rewrite repeat_into_ok by lia. exists b2. split; [|split; [done|by eapply same_data_trans]].
    cbn [mbind result_bind]. by rewrite sub_same.
  - destruct Hi as (He & Hs). rewrite <- app_assoc in Es. destruct (Hdec _ Hs bs _ Es) as (b1 & E1 & S1 & K1). rewrite E1. cbn [mbind result_bind].
    destruct (bits_takes 3 e He b1 rest S1) as (b2 & E2 & S2 & K2).
    change (17 <=? 15)%nat with false. change (17 =? 16)%nat with false. change (17 =? 17)%nat with true. cbn [orb]. cbn iota. rewrite E2. cbn [mbind result_bind].
    rewrite repeat_into_ok by lia. exists b2. split; [|split; [done|by eapply same_data_trans]]. cbn [mbind result_bind]. by rewrite sub_same.
  - destruct Hi as (He & Hs). rewrite <- app_assoc in Es. destruct (Hdec _ Hs bs _ Es) as (b1 & E1 & S1 & K1). rewrite E1. cbn [mbind result_bind].
    destruct (bits_takes 7 e He b1 rest S1) as (b2 & E2 & S2 & K2).
    change (18 <=? 15)%nat with false. change (18 =? 16)%nat with false. change (18 =? 17)%nat with false. change (18 =? 18)%nat with true.
    cbn [orb]. cbn iota. rewrite E2. cbn [mbind result_bind].
    rewrite repeat_into_ok by lia. exists b2. split; [|split; [done|by eapply same_data_trans]]. cbn [mbind result_bind]. by rewrite sub_same.
Qed.

Lemma expand_item_longer lens i : (length lens < length (expand_item lens i))%nat.
Proof. destruct i; cbn [expand_item]; rewrite length_app, ?repeat_length; cbn [length]; lia. Qed.

Lemma expand_items_longer lens is_ : (length lens <= length (fold_left expand_item is_ lens))%nat.
Proof.
  revert lens; induction is_ as [|i is_ IH]; intros lens; cbn; [lia|]. pose proof (expand_item_longer lens i). specialize (IH (expand_item lens i)). lia.
Qed.

Lemma read_lengths_takes fuel is_ lens k : items_ok clens lens is_ -> length (fold_left expand_item is_ lens) = (length lens + k)%nat -> (k <= fuel)%nat ->
  takes (read_lengths fuel ch (lens ++ repeat 0%nat k) (length lens)) (concat (item_bits clens <$> is_)) (fold_left expand_item is_ lens).
Proof.
  revert fuel lens k; induction is_ as [|i is_ IH]; intros fuel lens k Hi Hk Hf bs rest Es; cbn [fold_left fmap list_fmap concat items_ok] in *.
  - assert (k = 0%nat) as -> by lia. exists bs. rewrite app_nil_r. split; [|split; [done|apply same_data_refl]].
    destruct fuel; cbn [read_lengths]; by rewrite Nat.ltb_irrefl.
  - destruct Hi as [Hi His]. pose proof (expand_item_longer lens i). pose proof (expand_items_longer (expand_item lens i) is_).
    destruct fuel as [|fuel]; [lia|]. cbn [read_lengths]. rewrite length_app, repeat_length.
    replace (_ <? _)%nat with true by (symmetry; apply Nat.ltb_lt; lia). rewrite <- app_assoc in Es.
    destruct (length_step_takes i lens k Hi ltac:(lia) bs _ Es) as (b1 & E1 & S1 & K1). rewrite E1. cbn [mbind result_bind].
    destruct (IH fuel (expand_item lens i) (length lens + k - length (expand_item lens i))%nat His) with (b := b1) (rest := rest) as (b2 & E2 & S2 & K2);
      [lia|lia|done|]. exists b2. split; [exact E2|]. split; [done|by eapply same_data_trans].
Qed.

End header.

(** The slots written, in the order they come. *)
Lemma read_code_lengths_takes slots clens acc : Forall (fun l => l <= 7)%nat clens -> length acc = length clens ->
  exists final, takes (read_code_lengths slots acc) (concat ((fun slot => lsb_bits 3 (Z.of_nat (nth slot clens 0%nat))) <$> slots)) final /\
    length final = length clens /\ forall i, (i < length clens)%nat -> nth i final 0%nat = if decide (i ∈ slots) then nth i clens 0%nat else nth i acc 0%nat.
Proof.
  intros Hall. revert acc; induction slots as [|slot slots IH]; intros acc Ha.
  - exists acc. split; [apply takes_ret|]. split; [done|]. intros i _. by rewrite decide_False by apply not_elem_of_nil.
  - destruct (IH (<[slot := nth slot clens 0%nat]> acc)) as (final & Ht & Hl & Hn); [by rewrite length_insert|]. exists final. split; [|split; [done|]].
    + cbn [read_code_lengths fmap list_fmap concat]. eapply takes_bind.
      * apply bits_takes. assert (nth slot clens 0%nat <= 7)%nat; [|lia].
        destruct (nth_lookup_or_length clens slot 0%nat) as [E|E]; [by eapply (Forall_lookup_1 _ _ _ _ Hall E)|rewrite nth_overflow by lia; lia].
      * rewrite Nat2Z.id. exact Ht.
    + intros i Hi. rewrite Hn by done. destruct (decide (i ∈ slots)) as [Hin|Hout]; [by rewrite decide_True by (by right)|].
      destruct (decide (i = slot)) as [->|Hne].
      * rewrite decide_True by (by left). rewrite nth_insert by lia. by rewrite Nat.eqb_refl.
      * rewrite decide_False by (intros [?|?]%elem_of_cons; done). rewrite !nth_lookup, list_lookup_insert_ne by done. done.
Qed.

Lemma every_slot : Forall (fun i => i ∈ CODE_LENGTH_ORDER) (seq 0 19).
Proof. by_evaluation. Qed.

Lemma code_lengths_takes h : dynamic_ok h ->
  takes (read_code_lengths (take h.(hd_slots) CODE_LENGTH_ORDER) (repeat 0%nat 19))
    (concat ((fun slot => lsb_bits 3 (Z.of_nat (nth slot h.(hd_clens) 0%nat))) <$> take h.(hd_slots) CODE_LENGTH_ORDER)) h.(hd_clens).
Proof.
  intros [H1 (Hl & H7 & _) Hun _ _ _]. destruct (read_code_lengths_takes (take (hd_slots h) CODE_LENGTH_ORDER) (hd_clens h) (repeat 0%nat 19) H7) as (final & Ht & Hlen & Hn).
  { by rewrite repeat_length. }
  enough (final = hd_clens h) as Ef by (rewrite Ef in Ht; exact Ht). apply list_eq_same_length with (n := 19%nat); [congruence|congruence|].
  intros i x y Hi Hx Hy. rewrite <- (nth_lookup_Some _ _ 0%nat _ Hx), <- (nth_lookup_Some _ _ 0%nat _ Hy). rewrite Hn by lia.
  destruct (decide _) as [|Hout]; [done|]. rewrite nth_repeat. symmetry.
  assert (Hin : i ∈ CODE_LENGTH_ORDER) by (eapply (Forall_lookup_1 _ _ i i every_slot); by apply lookup_seq_lt).
  rewrite <- (take_drop (hd_slots h)) in Hin. apply elem_of_app in Hin as [?|Hin]; [done|].
  by apply (proj1 (Forall_forall _ _) Hun).
Qed.

Lemma dynamic_tables_takes h : dynamic_ok h ->
  exists hl hd, Huffman_new h.(hd_lit) = Ok hl /\ Huffman_new h.(hd_dist) = Ok hd /\ takes dynamic_tables (header_bits h) (hl, hd).
Proof.
  intros Hh. pose proof (code_lengths_takes h Hh) as Hcl. destruct Hh as [Hs (Hl & H7 & Hcok) Hun [Hlit Hlok] [Hdist Hdok] [Hi He]].
  destruct (tables_exist _ Hlok) as [hl El]. destruct (tables_exist _ Hdok) as [hd Ed]. destruct (tables_exist _ Hcok) as [hc Ec].
  exists hl, hd. split; [done|]. split; [done|]. intros bs rest Es. unfold header_bits in Es. rewrite <- !app_assoc in Es. unfold dynamic_tables.
  destruct (bits_takes 5 (Z.of_nat (length (hd_lit h) - 257)) ltac:(lia) _ _ Es) as (b1 & E1 & S1 & K1). rewrite E1. cbn [mbind result_bind]. clear E1 Es.
  destruct (bits_takes 5 (Z.of_nat (length (hd_dist h) - 1)) ltac:(lia) _ _ S1) as (b2 & E2 & S2 & K2). rewrite E2. cbn [mbind result_bind]. clear E2 S1.
  destruct (bits_takes 4 (Z.of_nat (hd_slots h - 4)) ltac:(lia) _ _ S2) as (b3 & E3 & S3 & K3). rewrite E3. cbn [mbind result_bind]. clear E3 S2. rewrite !Nat2Z.id.
  replace (length (hd_lit h) - 257 + 257)%nat with (length (hd_lit h)) by lia. replace (length (hd_dist h) - 1 + 1)%nat with (length (hd_dist h)) by lia.
  replace (hd_slots h - 4 + 4)%nat with (hd_slots h) by lia.
  replace (_ || _) with false by (symmetry; apply orb_false_iff; split; apply Nat.ltb_ge; lia).
  destruct (Hcl _ _ S3) as (b4 & E4 & S4 & K4). rewrite E4. cbn [mbind result_bind]. clear E4 S3. rewrite Ec. cbn [mbind result_bind].
  pose proof (read_lengths_takes (hd_clens h) hc (proj1 Hcok) Ec (length (hd_lit h) + length (hd_dist h)) (hd_items h) [] (length (hd_lit h) + length (hd_dist h)) Hi) as Hr.
  rewrite He in Hr. cbn [length app] in Hr. rewrite length_app in Hr. destruct (Hr eq_refl ltac:(done) _ _ S4) as (b5 & E5 & S5 & K5).
  rewrite E5. cbn [mbind result_bind]. rewrite take_app_length, drop_app_length, El. cbn [mbind result_bind]. rewrite Ed. cbn [mbind result_bind].
  exists b5. split; [done|]. split; [done|]. eauto using same_data_trans.
Qed.

(** ** Blocks *)

Lemma fixed_tables_are : exists hl hd, build fixed_literal AsSpecified = Ok hl /\ build fixed_distance AsSpecified = Ok hd /\ fixed_tables = Some (hl, hd).
Proof.
  destruct fixed_tables_built as [[hl hd] E]. exists hl, hd. unfold fixed_tables in *.
  destruct (build fixed_literal AsSpecified) as [l|]; [|done]. destruct (build fixed_distance AsSpecified) as [d|]; [|done]. by injection E as -> ->.
Qed.

Lemma fixed_short : Forall (fun l => l <= 15)%nat fixed_literal /\ Forall (fun l => l <= 15)%nat fixed_distance.
Proof. split; by_evaluation. Qed.

Definition block_kind (b : block) : Z := match b with Stored _ _ => 0 | Fixed _ => 1 | Dynamic _ _ => 2 end.
Definition payload_bits (offset : nat) (b : block) : list bool :=
  match b with
  | Stored pad data =>
      lsb_bits (pad_length offset) pad ++
      bytes_bits (to_le_bytes 2 (Z.of_nat (length data)) ++ to_le_bytes 2 (Z.lxor (Z.of_nat (length data)) 0xFFFF) ++ data)
  | Fixed ts => tokens_bits fixed_literal fixed_distance ts
  | Dynamic h ts => header_bits h ++ tokens_bits h.(hd_lit) h.(hd_dist) ts
  end.

Lemma block_bits_split offset last b : block_bits offset last b = ([last] ++ lsb_bits 2 (block_kind b)) ++ payload_bits (offset + 3) b.
Proof. by destruct b. Qed.

Lemma expand_block_longer body b : (length body <= length (expand_block body b))%nat.
Proof. destruct b; cbn [expand_block]; [rewrite length_app; lia|apply expand_tokens_longer..]. Qed.

Lemma block_work_pos b : 1 <= block_work b.
Proof. destruct b; cbn [block_work]; unfold TABLE_COST; lia. Qed.

Lemma head_outcome offset last b bs rest o body w : at_offset bs offset -> bits_ahead bs = block_bits offset last b ++ rest ->
  keeps o body w -> w + 1 <= W ->
  outcome (block_head bs o) (fun '(l, kind, bs', o') => l = Z.b2z last /\ kind = block_kind b /\ bits_ahead bs' = payload_bits (offset + 3) b ++ rest /\
    at_offset bs' (offset + 3) /\ same_data bs bs' /\ keeps o' body (w + 1)).
Proof.
  intros Hat Es Ho Hw. unfold block_head. eapply outcome_bind; [by apply charge_outcome|]. intros o1 Ho1.
  rewrite block_bits_split, <- !app_assoc in Es. pose proof Es as Es0.
  eapply outcome_takes; [apply bit_takes|exact Es|]. intros b1 E1 K1 _.
  eapply outcome_takes; [apply (bits_takes 2 (block_kind b)); destruct b; cbn; lia|exact E1|]. intros b2 E2 K2 _. cbn [outcome].
  pose proof (same_data_trans _ _ _ K1 K2) as K. split_and!; [done|done|done| |done|done].
  apply (at_offset_after ([last] ++ lsb_bits 2 (block_kind b)) (payload_bits (offset + 3) b ++ rest) bs b2 offset); [done|by rewrite <- app_assoc|done|done].
Qed.

Lemma body_outcome fuel offset b bs rest o body w : (bits_left bs < fuel)%nat -> at_offset bs offset ->
  bits_ahead bs = payload_bits offset b ++ rest -> block_ok body b -> keeps o body w -> w + block_work b - 1 <= W ->
  Z.of_nat (length (expand_block body b)) <= N ->
  exists r, block_body fuel (block_kind b) bs o = Some r /\
    outcome r (fun '(bs', o') => bits_ahead bs' = rest /\ same_data bs bs' /\ keeps o' (expand_block body b) (w + block_work b - 1)).
Proof.
  intros Hf Hat Es Hb Ho Hw Hn. destruct b as [pad data|ts|h ts]; cbn [block_kind payload_bits block_ok expand_block block_work] in *; unfold block_body.
  - eexists. split; [reflexivity|]. rewrite <- app_assoc in Es. replace (w + 1 - 1) with w by lia. by eapply stored_outcome.
  - destruct fixed_tables_are as (hl & hd & El & Ed & ->). change (1 =? 0) with false. change (1 =? 1) with true. cbn [mbind option_bind]. cbn iota.
    destruct (symbols_outcome fixed_literal fixed_distance AsSpecified AsSpecified hl hd (proj1 fixed_short) (proj2 fixed_short) El Ed
      fuel ts bs rest o body w Hf Hb Es Ho ltac:(lia) Hn) as (r & Er & Hr).
    exists r. split; [exact Er|]. eapply outcome_mono; [exact Hr|]. intros [bs' o'] (E' & K' & Ho'). split; [done|]. split; [done|].
    by replace (w + (2 + Z.of_nat (length ts)) - 1) with (w + Z.of_nat (length ts) + 1) by lia.
  - destruct Hb as [Hh Ht]. destruct (dynamic_tables_takes h Hh) as (hl & hd & El & Ed & Htk). change (2 =? 0) with false. change (2 =? 1) with false.
    change (2 =? 2) with true. cbn iota. rewrite <- app_assoc in Es.
    assert (Hc : outcome (charge (2 * TABLE_COST) o) (fun o' => keeps o' body (w + 2 * TABLE_COST))) by (apply charge_outcome; [done|unfold TABLE_COST in *; lia]).
    destruct (charge (2 * TABLE_COST) o) as [o1|e]; [|by eexists]. cbn [mbind result_bind outcome] in *.
    destruct (Htk bs _ Es) as (bs1 & E1 & S1 & K1). rewrite E1. cbn [mbind result_bind].
    apply dynamic_tables_reads in E1. pose proof (rd_left _ _ _ E1) as Hl.
    destruct (symbols_outcome (hd_lit h) (hd_dist h) Required Required hl hd (proj1 (proj2 (ho_lit h Hh))) (proj1 (proj2 (ho_dist h Hh))) El Ed
      fuel ts bs1 rest o1 body (w + 2 * TABLE_COST) ltac:(lia) Ht S1 Hc ltac:(lia) Hn) as (r & Er & Hr).
    exists r. split; [exact Er|]. eapply outcome_mono; [exact Hr|]. intros [bs' o'] (E' & K' & Ho'). split; [done|]. split; [by eapply same_data_trans|].
    by replace (w + (2 + 2 * TABLE_COST + Z.of_nat (length ts)) - 1) with (w + 2 * TABLE_COST + Z.of_nat (length ts) + 1) by lia.
Qed.

Lemma expand_blocks_longer body bs : (length body <= length (fold_left expand_block bs body))%nat.
Proof.
  revert body; induction bs as [|b bs IH]; intros body; cbn; [lia|]. pose proof (expand_block_longer body b). specialize (IH (expand_block body b)). lia.
Qed.

Lemma work_longer w bs : w <= fold_left (fun w b => w + block_work b) bs w.
Proof. revert w; induction bs as [|b bs IH]; intros w; cbn; [lia|]. pose proof (block_work_pos b). specialize (IH (w + block_work b)). lia. Qed.

Lemma stream_left a b : bits_ahead a = b -> bits_left a = length b.
Proof. intros <-. by rewrite stream_length. Qed.

Lemma blocks_outcome fuel offset b more bs rest o body w : (bits_left bs < fuel)%nat -> at_offset bs offset ->
  bits_ahead bs = blocks_bits offset b more ++ rest -> blocks_ok body b more -> keeps o body w ->
  fold_left (fun w b => w + block_work b) (b :: more) w <= W -> Z.of_nat (length (fold_left expand_block (b :: more) body)) <= N ->
  exists r, inflate_blocks fuel bs o = Some r /\
    outcome r (fun '(bs', o') => bits_ahead bs' = rest /\ bs'.(bt_data) = bs.(bt_data) /\
      keeps o' (fold_left expand_block (b :: more) body) (fold_left (fun w b => w + block_work b) (b :: more) w)).
Proof.
  revert fuel offset b bs o body w; induction more as [|b' more IH]; intros fuel offset b bs o body w Hf Hat Es Hb Ho Hw Hn;
    (destruct fuel as [|fuel]; [lia|]); cbn [inflate_blocks blocks_bits blocks_ok] in *; destruct Hb as [Hb Hmore].
  - cbn [fold_left] in *. pose proof (block_work_pos b).
    pose proof (head_outcome _ _ _ _ _ _ _ _ Hat Es Ho ltac:(lia)) as Hhd. pose proof (stream_left _ _ Es) as L1.
    destruct (block_head bs o) as [[[[l k] bs1] o1]|e]; [|by eexists]. destruct Hhd as (-> & -> & S1 & A1 & K1 & O1). pose proof (stream_left _ _ S1) as L2.
    rewrite block_bits_split, !length_app in L1. rewrite length_app in L2.
    destruct (body_outcome (S fuel) _ _ bs1 rest o1 body (w + 1) ltac:(lia) A1 S1 Hb O1 ltac:(lia) Hn) as (r & Er & Hr). rewrite Er. cbn [mbind option_bind].
    destruct r as [[bs2 o2]|e]; [|by eexists]. destruct Hr as (S2 & K2 & O2). change (Z.b2z true =? 1) with true. cbn iota. eexists. split; [done|]. cbn.
    split; [done|]. split; [by rewrite (proj1 K2), (proj1 K1)|]. by replace (w + block_work b) with (w + 1 + block_work b - 1) by lia.
  - cbn zeta in Es. rewrite <- app_assoc in Es. set (tail_ := blocks_bits _ b' more) in *. change (fold_left ?f (b :: b' :: more) ?x) with (fold_left f (b' :: more) (f x b)) in *. cbn beta in *.
    pose proof (block_work_pos b). pose proof (work_longer (w + block_work b) (b' :: more)). pose proof (expand_blocks_longer (expand_block body b) (b' :: more)).
    pose proof (head_outcome _ _ _ _ _ _ _ _ Hat Es Ho ltac:(lia)) as Hhd. pose proof (stream_left _ _ Es) as L1.
    destruct (block_head bs o) as [[[[l k] bs1] o1]|e]; [|by eexists]. destruct Hhd as (-> & -> & S1 & A1 & K1 & O1). pose proof (stream_left _ _ S1) as L2.
    pose proof (block_bits_split offset false b) as Eb. rewrite Eb, !length_app in L1. rewrite !length_app in L2.
    destruct (body_outcome (S fuel) _ _ bs1 _ o1 body (w + 1) ltac:(lia) A1 S1 Hb O1 ltac:(lia) ltac:(lia)) as (r & Er & Hr). rewrite Er. cbn [mbind option_bind].
    destruct r as [[bs2 o2]|e]; [|by eexists]. destruct Hr as (S2 & K2 & O2). change (Z.b2z false =? 1) with false. cbn iota.
    replace (w + 1 + block_work b - 1) with (w + block_work b) in O2 by lia. pose proof (stream_left _ _ S2) as L3. rewrite length_app in L3. cbn [length] in L1.
    destruct (IH fuel (offset + length (block_bits offset false b))%nat b' bs2 o2 (expand_block body b) (w + block_work b)) as (r & Er' & Hr'); try done.
    + lia.
    + eapply at_offset_after; [exact Hat|exact Es|exact S2|by eapply same_data_trans].
    + exists r. split; [done|]. eapply outcome_mono; [exact Hr'|]. intros [bs3 o3] (S3 & D3 & O3). split; [done|]. split; [|done].
      by rewrite D3, (proj1 K2), (proj1 K1).
Qed.

End bounded.

(** ** The container *)

Lemma skip_name_ok fuel input start at_ l tl : drop at_ input = (l ++ [x00]) ++ tl -> Forall (fun b => b <> x00) l ->
  (start <= at_)%nat -> (at_ - start + length l <= 1024)%nat -> (length l < fuel)%nat ->
  skip_name fuel input start at_ = Ok (at_ + length (l ++ [x00]))%nat.
Proof.
  revert fuel at_; induction l as [|x l IH]; intros fuel at_ E Hl Hs Hb Hf; (destruct fuel as [|fuel]; [cbn in *; lia|]); cbn [skip_name];
    pose proof (drop_lookup _ _ _ 0 E) as Ex; rewrite Nat.add_0_r in Ex; cbn in Ex; rewrite Ex; cbn [ok_or mbind result_bind].
  - done.
  - apply Forall_cons in Hl as [Hx Hl]. cbn [length] in *.
    replace (u8v x =? 0) with false by (symmetry; apply Z.eqb_neq; intros H; apply Hx; by apply u8v_inj).
    replace (_ <? _)%nat with false by (symmetry; apply Nat.ltb_ge; lia).
    rewrite IH; [cbn [app length]; f_equal; lia| |done|lia|lia|lia]. exact (drop_app_S _ _ [x] _ E).
Qed.

Lemma text_field input at_ o tl (g : bool) : g = (match o with Some _ => true | None => false end) -> gz_text_ok o -> drop at_ input = gz_text o ++ tl ->
  (if g then skip_name 1025 input at_ at_ else Ok at_) = Ok (at_ + length (gz_text o))%nat /\ drop (at_ + length (gz_text o)) input = tl.
Proof.
  intros -> Ho E. split; [|by apply drop_app_S]. destruct o as [l|]; cbn [gz_text] in *; [|f_equal; cbn; lia].
  destruct Ho as [H1 H2]. eapply skip_name_ok; [exact E|done|lia|lia|lia].
Qed.

Lemma flags_set g : let f := u8v (u8 (gz_flags g)) in
  flag_set f 0xE0 = false /\
  flag_set f 0x04 = (match g.(gz_extra) with Some _ => true | None => false end) /\
  flag_set f 0x08 = (match g.(gz_name) with Some _ => true | None => false end) /\
  flag_set f 0x10 = (match g.(gz_comment) with Some _ => true | None => false end) /\
  flag_set f 0x02 = (match g.(gz_hcrc) with Some _ => true | None => false end).
Proof. unfold gz_flags, gz_flag. by destruct (gz_hcrc g), (gz_extra g), (gz_name g), (gz_comment g). Qed.

Lemma extra_field input o tl : drop 10 input = (match o with Some l => to_le_bytes 2 (Z.of_nat (length l)) ++ l | None => [] end) ++ tl ->
  match o with Some l => Z.of_nat (length l) < 2 ^ 16 | None => True end ->
  (if match o with Some _ => true | None => false end then
     b0 ← ok_or (input !! 10%nat) Truncated; b1 ← ok_or (input !! 11%nat) Truncated;
     skip_bytes input 10 (2 + Z.to_nat (Z.lor (u8v b0) (Z.shiftl (u8v b1) 8)))
   else Ok 10%nat) = Ok (10 + length (match o with Some l => to_le_bytes 2 (Z.of_nat (length l)) ++ l | None => [] end))%nat.
Proof.
  intros E Ho. destruct o as [l|]; [|done]. rewrite le_bytes_2 in E |- *.
  pose proof (drop_lookup _ _ _ 0 E) as E0. pose proof (drop_lookup _ _ _ 1 E) as E1. cbn [Nat.add app lookup list_lookup] in E0, E1.
  rewrite E0, E1. cbn [ok_or mbind result_bind]. rewrite lor_le_2 by lia. rewrite Nat2Z.id. unfold skip_bytes.
  apply (f_equal length) in E. rewrite length_drop in E. cbn [app length] in E |- *. rewrite length_app in E.
  by replace (10 + (2 + length l) <=? length input)%nat with true by (symmetry; apply Nat.leb_le; lia).
Qed.

Lemma gzip_header_ok g tl : member_ok g -> (9 <= length tl)%nat -> gzip_header (gz_head g ++ tl) = Ok (length (gz_head g)).
Proof.
  intros [H1 H2 H3 H4 H5 _ _] Htl. destruct (flags_set g) as (F1 & F2 & F3 & F4 & F5). unfold gz_head.
  set (ex := match gz_extra g with Some l => _ | None => _ end). set (nm := gz_text (gz_name g)). set (cm := gz_text (gz_comment g)). set (hc := match gz_hcrc g with Some l => l | None => [] end).
  set (input := _ ++ tl). assert (Ei : input = ([x1f; x8b; x08; u8 (gz_flags g)] ++ gz_rest g) ++ ex ++ nm ++ cm ++ hc ++ tl) by (unfold input; by rewrite <- !app_assoc).
  assert (E10 : drop 10 input = ex ++ nm ++ cm ++ hc ++ tl) by (rewrite Ei; apply drop_app_length'; by rewrite length_app, H1).
  assert (Hlen : length input = (10 + length (ex ++ nm ++ cm ++ hc ++ tl))%nat) by (rewrite Ei, !length_app, H1; cbn [length]; lia).
  assert (Hhd : forall i, (i < 4)%nat -> nth i input x00 = nth i [x1f; x8b; x08; u8 (gz_flags g)] x00).
  { intros i Hi. rewrite Ei, <- app_assoc. apply app_nth1. exact Hi. }
  unfold gzip_header. replace (length input <? 18)%nat with false by (symmetry; apply Nat.ltb_ge; rewrite Hlen, !length_app; lia).
  cbn zeta. rewrite !Hhd by lia. cbn [nth]. change (u8v x1f) with 31. change (u8v x8b) with 139. change (u8v x08) with 8. cbn [Z.eqb Pos.eqb negb orb].
  rewrite F1, F2, F3, F4, F5. rewrite (extra_field _ _ _ E10 H2). cbn [mbind result_bind]. fold ex.
  destruct (text_field input (10 + length ex) (gz_name g) (cm ++ hc ++ tl) _ eq_refl H3 ltac:(exact (drop_app_S _ _ _ _ E10))) as [En En'].
  rewrite En. cbn [mbind result_bind]. fold nm in En' |- *.
  destruct (text_field input (10 + length ex + length nm) (gz_comment g) (hc ++ tl) _ eq_refl H4 En') as [Ec Ec']. rewrite Ec. cbn [mbind result_bind].
  fold cm in Ec' |- *. rewrite !length_app, H1. cbn [length]. subst hc.
  destruct (gz_hcrc g) as [l|]; cbn iota in *; [|cbn [length]; f_equal; lia].
  unfold skip_bytes. rewrite H5, Hlen, !length_app, H5. replace (_ <=? _)%nat with true by (symmetry; apply Nat.leb_le; lia). f_equal. lia.
Qed.

Lemma gz_crc32_u32 l : 0 <= gz_crc32 l < 2 ^ 32.
Proof. exact (crc32_ok l). Qed.

Lemma data_nonempty g : member_ok g -> (1 <= length (gz_data g))%nat.
Proof.
  intros Hok. destruct (mo_data g Hok) as (pad & Hpad & Ed). apply (f_equal length) in Ed. rewrite length_bytes_bits, length_app in Ed.
  assert (1 <= length (blocks_bits 0 (gz_first g) (gz_more g)))%nat; [|lia].
  destruct (gz_more g); cbn [blocks_bits]; rewrite ?length_app; cbn [block_bits length]; lia.
Qed.

(** Between the header and the trailer there is the data. *)
Lemma gunzip_member g bounds : member_ok g ->
  gunzip (gz_bytes g) bounds =
  (r ← inflate_blocks (S (8 * length (gz_data g))) (Bits_new (gz_data g)) (MkOut [] bounds 0 (work_allowed (gz_bytes g) bounds));
   match r with
   | Err e => Some (Err e)
   | Ok (bs, o) => Some (gzip_trailer (gz_bytes g) (gz_data g) (length (gz_head g) + length (gz_data g)) bs o)
   end).
Proof.
  intros Hok. pose proof (data_nonempty g Hok). set (tl := to_le_bytes 4 (gz_crc32 (gz_body g)) ++ to_le_bytes 4 (Z.of_nat (length (gz_body g)))).
  assert (Hl : length tl = 8%nat) by (unfold tl; by rewrite length_app, !length_to_le_bytes).
  assert (Eb : gz_bytes g = gz_head g ++ gz_data g ++ tl) by done. unfold gunzip.
  assert (Eh : gzip_header (gz_bytes g) = Ok (length (gz_head g))) by (rewrite Eb; apply gzip_header_ok; [done|rewrite length_app; lia]).
  assert (Ht : (length (gz_bytes g) - 8 = length (gz_head g) + length (gz_data g))%nat) by (rewrite Eb, !length_app; lia).
  rewrite Eh, Ht. replace (_ <=? _)%nat with false by (symmetry; apply Nat.leb_gt; lia). cbn zeta.
  by replace (slice (gz_bytes g) (length (gz_head g)) _) with (gz_data g) by (rewrite Eb; symmetry; apply slice_app_mid; lia).
Qed.

Lemma gzip_trailer_ok g bs o : (length (gz_data g) <= consumed bs)%nat -> out_bytes o = gz_body g -> out_len o = Z.of_nat (length (gz_body g)) ->
  gzip_trailer (gz_bytes g) (gz_data g) (length (gz_head g) + length (gz_data g)) bs o = Ok (gz_body g).
Proof.
  intros Hc Eo El. unfold gzip_trailer. rewrite Eo, El. replace (_ <? _)%nat with false by (symmetry; apply Nat.ltb_ge; exact Hc).
  set (crc := to_le_bytes 4 (gz_crc32 (gz_body g))). set (size := to_le_bytes 4 (Z.of_nat (length (gz_body g)))).
  assert (Eb : gz_bytes g = (gz_head g ++ gz_data g) ++ crc ++ size) by (unfold gz_bytes; by rewrite <- app_assoc).
  assert (Hcrc : length crc = 4%nat) by apply length_to_le_bytes. assert (Hsize : length size = 4%nat) by apply length_to_le_bytes.
  assert (E1 : slice (gz_bytes g) (length (gz_head g) + length (gz_data g)) 4 = crc) by (rewrite Eb; apply slice_app_mid; [by rewrite length_app|done]).
  assert (E2 : slice (gz_bytes g) (length (gz_head g) + length (gz_data g) + 4) 4 = size).
  { rewrite Eb. replace (_ ++ crc ++ size) with (((gz_head g ++ gz_data g) ++ crc) ++ size ++ []) by (by rewrite app_nil_r, !app_assoc).
    apply slice_app_mid; [by rewrite !length_app, Hcrc|done]. }
  rewrite E1, E2. unfold crc, size. rewrite !from_to_le_bytes. change (256 ^ Z.of_nat 4) with (2 ^ 32).
  rewrite (Z.mod_small (gz_crc32 _)) by apply gz_crc32_u32. by rewrite !Z.eqb_refl.
Qed.

(** ** A stream of a stock compressor *)

#[export] Instance code_ok_dec lens : Decision (code_ok lens).
Proof. unfold code_ok. apply _. Defined.

#[export] Instance deflate_token_ok_dec lit dist body t : Decision (deflate_token_ok lit dist body t).
Proof. destruct t; cbn [deflate_token_ok]; apply _. Defined.

#[export] Instance tokens_ok_dec lit dist body ts : Decision (tokens_ok lit dist body ts).
Proof. revert body; induction ts as [|t ts IH]; intros body; cbn [tokens_ok]; apply _. Defined.

#[export] Instance item_ok_dec clens lens i : Decision (item_ok clens lens i).
Proof. destruct i; cbn [item_ok]; apply _. Defined.

#[export] Instance items_ok_dec clens lens is_ : Decision (items_ok clens lens is_).
Proof. revert lens; induction is_ as [|i is_ IH]; intros lens; cbn [items_ok]; apply _. Defined.

#[export] Instance dynamic_ok_dec h : Decision (dynamic_ok h).
Proof. decide_record. Defined.

#[export] Instance block_ok_dec body b : Decision (block_ok body b).
Proof. destruct b; cbn [block_ok]; apply _. Defined.

#[export] Instance blocks_ok_dec body b bs : Decision (blocks_ok body b bs).
Proof. revert body b; induction bs as [|b' bs IH]; intros body b; cbn [blocks_ok]; apply _. Defined.

(** What a stock compressor writes of some digits, a flush and a repeat: a dynamic
    block, an empty stored one, a fixed one. *)
Definition lits (l : list Z) : list token := (fun x => Lit (u8 x)) <$> l.

Definition example_items : list item :=
    [ManyZeros 37; Len 4; Len 4; Len 3; Len 3; Len 3; Len 4; Len 4; Len 4; Len 3; Len 3; ManyZeros 127; ManyZeros 49; Len 5; Len 5; Zeros 2;
    Len 1; Zeros 2; Len 1].

Definition example_first : block :=
    Dynamic (MkHeader 18 [0; 3; 0; 2; 2; 3; 0; 0; 0; 0; 0; 0; 0; 0; 0; 0; 0; 3; 3]%nat example_items
      (take 258 (fold_left expand_item example_items []))
      (drop 258 (fold_left expand_item example_items []))) (lits [51; 49; 52; 49; 53; 57; 50; 54; 53; 51; 53; 56; 57; 55; 57; 51; 50; 51;
    56; 52; 54; 50; 54; 52; 51; 51; 56; 51; 50; 55; 57; 53; 48; 50; 56; 56; 52; 49; 57; 55; 49; 54; 57; 51; 57; 57; 51; 55; 53; 49; 48; 53;
    56; 50; 48; 57; 55; 52; 57; 52; 52] ++ [Copy 0 0 11 8] ++ lits [51; 48; 55; 56; 49; 54; 52; 48; 54; 50; 56; 54; 50; 48; 56; 57; 57] ++
    [Copy 0 0 5 0] ++ lits [56; 48; 51; 52; 56; 50; 53; 51; 52; 50; 49; 49; 55; 48; 54; 55; 57; 56; 50; 49; 52; 56; 48; 56; 54; 53; 49; 51;
    50; 56] ++ [Copy 0 0 11 2] ++ lits [54; 54; 52; 55]).

Definition example_more : list block :=
    [Stored 0 []; Fixed (lits [97; 98; 99; 97] ++ [Copy 5 0 2 0])].

Definition example_member : Member :=
    MkMember [u8 0; u8 0; u8 0; u8 0; u8 2; u8 3] (Some [u8 1; u8 2]) (Some [u8 97; u8 46; u8 106]) None (Some [u8 7; u8 9]) (u8 <$> [12;
    203; 177; 1; 0; 48; 8; 2; 176; 151; 20; 80; 225; 255; 199; 218; 41; 83; 216; 234; 9; 118; 56; 206; 133; 160; 181; 88; 145; 38; 46; 83;
    176; 213; 185; 222; 48; 225; 77; 215; 24; 149; 83; 164; 31; 89; 231; 94; 213; 194; 139; 114; 242; 113; 81; 198; 80; 232; 190; 218; 139;
    209; 114; 121; 167; 9; 255; 178; 171; 123; 0; 0; 0; 255; 255; 75; 76; 74; 78; 132; 33; 0]) example_first example_more.

Lemma example_member_ok : member_ok example_member.
Proof.
  split; cbn [example_member gz_rest gz_extra gz_name gz_comment gz_hcrc gz_text_ok]; [by_evaluation..| |by_evaluation]. exists [false; false]. split; [cbn; lia|]. vm_compute. reflexivity.
Qed.

(** C26 (every valid stream within the bounds is decoded). Whatever choices the
    compressor made - the split into blocks, their kinds, their codes, the runs the
    codes are written in, the matches, the padding, the optional fields of the
    container - the decoder gives back the body the stream stands for; and it
    refuses one only for a bound: a body longer than the ceiling, one long enough for
    its ratio to be judged, or a cost over the work allowed. *)
Theorem valid_streams_are_decoded (g : Member) (bounds : Bounds) (Hok : member_ok g) :
  gunzip (gz_bytes g) bounds = Some (Ok (gz_body g)) \/
  exists e, gunzip (gz_bytes g) bounds = Some (Err e) /\
    ((e = OutputTooLarge /\ bounds.(max_output) < Z.of_nat (length (gz_body g))) \/
     (e = RatioTooHigh /\ bounds.(ratio_after_output) < Z.of_nat (length (gz_body g))) \/
     (e = TooMuchWork /\ work_allowed (gz_bytes g) bounds < gz_work g)).
Proof.
  destruct (mo_data g Hok) as (pad & Hpad & Ed). pose proof (f_equal length Ed) as Hl. rewrite length_bytes_bits, length_app in Hl.
  rewrite (gunzip_member g bounds Hok). set (budget := work_allowed _ _). set (N := Z.of_nat (length (gz_body g))).
  destruct (blocks_outcome bounds budget N (gz_work g) (S (8 * length (gz_data g))) 0 (gz_first g) (gz_more g) (Bits_new (gz_data g)) pad
    (MkOut [] bounds 0 budget) [] 0) as (r & Er & Hr); [unfold bits_left; cbn; lia| | |exact (mo_blocks g Hok)|split; cbn; [done|done|done|lia]|done|done|].
  { split; [|cbn; lia]. rewrite stream_length. unfold bits_left. cbn. lia. }
  { rewrite <- Ed. unfold bits_ahead. cbn [Bits_new bt_count bt_pos bt_data seq fmap list_fmap app]. by rewrite drop_0. }
  rewrite Er. cbn [mbind option_bind]. destruct r as [[bs o]|e]; [left|right; exists e; split; [done|exact Hr]].
  destruct Hr as (Sb & Db & Ho). f_equal. apply gzip_trailer_ok.
  - apply stream_left in Sb. unfold bits_left in Sb. rewrite Db in Sb. cbn in Sb. unfold consumed. lia.
  - unfold out_bytes. by rewrite (hs_body _ _ _ _ _ Ho), rev_involutive.
  - exact (out_len_holds _ _ _ _ _ Ho).
Qed.

Example valid_streams_are_decoded_witness :
  member_ok example_member /\ gunzip (gz_bytes example_member) Bounds_default = Some (Ok (gz_body example_member)).
Proof.
  split; [exact example_member_ok|].
  destruct (valid_streams_are_decoded example_member Bounds_default example_member_ok) as [E|(e & _ & [[_ H]|[[_ H]|[_ H]]])]; [exact E|..];
    exfalso; vm_compute in H; discriminate.
Defined.
