(* ===== verification/Asn1.v ===== *)
(** * DER, read and written ([trailryx-asn1/src/lib.rs])

    The bounded reader of the canonical encoding and the minimal writer beside it.
    A reader is a function of the cursor: what an operation leaves of it is returned
    beside the value, and dropped with an error, since every caller returns on one.
    [usize] is 64 bits. *)

From S2P Require Import Prelude Bytes.

Definition MAX_DEPTH : nat := 16.

Inductive Asn1Error :=
  | DerTruncated | Indefinite | NonMinimalLength | LengthTooLarge | HighTagNumber
  | UnexpectedTag (expected found : Z) | DerTrailingBytes | TooDeep | BadInteger | BadBoolean | BadOid | BadBitString | BadTime.

#[export] Instance Asn1Error_eq_dec : EqDecision Asn1Error.
Proof. solve_decision. Defined.

(** ** Tags *)

Definition tag_BOOLEAN : Z := 0x01.
Definition tag_INTEGER : Z := 0x02.
Definition tag_BIT_STRING : Z := 0x03.
Definition tag_OCTET_STRING : Z := 0x04.
Definition tag_NULL : Z := 0x05.
Definition tag_OID : Z := 0x06.
Definition tag_UTF8_STRING : Z := 0x0C.
Definition tag_SEQUENCE : Z := 0x30.
Definition tag_SET : Z := 0x31.
Definition tag_GENERALIZED_TIME : Z := 0x18.

Definition context_constructed (n : Z) : Z := Z.lor 0xA0 n.
Definition context_primitive (n : Z) : Z := Z.lor 0x80 n.

(** ** One value off the front *)

(** [slice::split_at_checked] at a length that may be past any list's. *)
Definition split_at_checked (bs : list byte) (n : Z) : option (list byte * list byte) :=
  if Z.of_nat (length bs) <? n then None else Some (take (Z.to_nat n) bs, drop (Z.to_nat n) bs).

Definition checked_usize (z : Z) : option Z := if u64_max <? z then None else Some z.

Fixpoint length_digits (digits : list byte) (length_ : Z) : option Z :=
  match digits with
  | [] => Some length_
  | d :: digits => v ← checked_usize (length_ * 256); v ← checked_usize (v + u8v d); length_digits digits v
  end.

(** The length octets. *)
Definition split_length (first : byte) (after_first : list byte) : result Asn1Error (Z * list byte) :=
  let f := u8v first in
  if f <? 0x80 then Ok (f, after_first)
  else if f =? 0x80 then Err Indefinite
  else if f =? 0xFF then Err NonMinimalLength
  else
    let count := Z.land f 0x7F in
    if 8 <? count then Err LengthTooLarge
    else
      '(digits, rest) ← ok_or (split_at_checked after_first count) DerTruncated;
      if match digits with d :: _ => u8v d =? 0 | [] => false end then Err NonMinimalLength
      else
        length_ ← ok_or (length_digits digits 0) LengthTooLarge;
        if length_ <? 0x80 then Err NonMinimalLength else Ok (length_, rest).

Definition split_tlv (bytes : list byte) : result Asn1Error (Z * list byte * list byte) :=
  match bytes with
  | [] => Err DerTruncated
  | tag :: after_tag =>
      if Z.land (u8v tag) 0x1F =? 0x1F then Err HighTagNumber
      else
        match after_tag with
        | [] => Err DerTruncated
        | first :: after_first =>
            '(length_, after_length) ← split_length first after_first;
            '(body, rest) ← ok_or (split_at_checked after_length length_) DerTruncated;
            Ok (u8v tag, body, rest)
        end
  end.

(** ** What the contents must be *)

Definition check_integer (body : list byte) : result Asn1Error unit :=
  match body with
  | [] => Err BadInteger
  | b :: next :: _ =>
      if (u8v b =? 0x00) && (Z.land (u8v next) 0x80 =? 0) then Err BadInteger
      else if (u8v b =? 0xFF) && negb (Z.land (u8v next) 0x80 =? 0) then Err BadInteger
      else Ok tt
  | _ => Ok tt
  end.

(** [start_of_arc] along the bytes. *)
Fixpoint oid_arcs (body : list byte) (start_of_arc : bool) : result Asn1Error unit :=
  match body with
  | [] => Ok tt
  | b :: body =>
      if start_of_arc && (u8v b =? 0x80) then Err BadOid
      else if bool_decide (body = []) && negb (Z.land (u8v b) 0x80 =? 0) then Err BadOid
      else oid_arcs body (Z.land (u8v b) 0x80 =? 0)
  end.

Definition validate_oid (body : list byte) : result Asn1Error unit :=
  match body with [] => Err BadOid | _ => oid_arcs body true end.

Definition is_ascii_digit (b : byte) : bool := (48 <=? u8v b) && (u8v b <=? 57).

Definition is_leap (year : Z) : bool := (Z.rem year 4 =? 0) && (negb (Z.rem year 100 =? 0) || (Z.rem year 400 =? 0)).

Definition days_in_month (year month : Z) : Z :=
  if (month =? 1) || (month =? 3) || (month =? 5) || (month =? 7) || (month =? 8) || (month =? 10) || (month =? 12) then 31
  else if (month =? 4) || (month =? 6) || (month =? 9) || (month =? 11) then 30
  else if month =? 2 then if is_leap year then 29 else 28
  else 0.

(** [/] and [%] truncate. *)
Definition days_from_civil (year month day : Z) : Z :=
  let y := if month <=? 2 then year - 1 else year in
  let era := Z.quot (if 0 <=? y then y else y - 399) 400 in
  let yoe := y - era * 400 in
  let mp := Z.rem (month + 9) 12 in
  let doy := Z.quot (153 * mp + 2) 5 + day - 1 in
  let doe := yoe * 365 + Z.quot yoe 4 - Z.quot yoe 100 + doy in
  era * 146097 + doe - 719468.

Definition digits_value (bs : list byte) : Z := fold_left (fun acc d => acc * 10 + (u8v d - 48)) bs 0.

Definition fraction_allowed (fraction : list byte) : bool :=
  match fraction with
  | [] => true
  | dot :: digits => (u8v dot =? 46) && negb (bool_decide (digits = [])) && forallb is_ascii_digit digits
  end.

Definition parse_generalized_time (body : list byte) : result Asn1Error Z :=
  if (length body <? 15)%nat then Err BadTime
  else
    let head := removelast body in
    if negb (u8v (List.last body x00) =? 90) then Err BadTime
    else
      let fixed := take 14 head in
      if negb (fraction_allowed (drop 14 head)) then Err BadTime
      else if negb (forallb is_ascii_digit fixed) then Err BadTime
      else
        let n from to := digits_value (slice fixed from (to - from)) in
        let '(year, month, day) := (n 0 4, n 4 6, n 6 8)%nat in
        let '(hour, minute, second) := (n 8 10, n 10 12, n 12 14)%nat in
        if negb ((1 <=? month) && (month <=? 12)) || (day <? 1) || (days_in_month year month <? day) then Err BadTime
        else if (23 <? hour) || (59 <? minute) || (59 <? second) then Err BadTime
        else Ok (days_from_civil year month day * 86400 + hour * 3600 + minute * 60 + second).

(** ** The cursor *)

Record Der := MkDer { der_bytes : list byte; der_depth : nat }.

Definition Der_new (bytes : list byte) : Der := MkDer bytes 0.
Definition der_rest (d : Der) : list byte := d.(der_bytes).
Definition der_is_empty (d : Der) : bool := bool_decide (d.(der_bytes) = []).
Definition peek_tag (d : Der) : option Z := u8v <$> head d.(der_bytes).

Definition DerReader (A : Type) : Type := Der -> result Asn1Error (A * Der).

#[export] Instance der_ret : MRet DerReader := fun _ a d => Ok (a, d).
#[export] Instance der_bind : MBind DerReader := fun _ _ f m d =>
  match m d with Ok (a, d) => f a d | Err e => Err e end.

(** A check that reads nothing. *)
Definition der_check {A} (r : result Asn1Error A) : DerReader A := fun d => a ← r; Ok (a, d).

Definition take_any : DerReader (Z * list byte) := fun d =>
  '(tag, body, rest) ← split_tlv d.(der_bytes); Ok ((tag, body), MkDer rest d.(der_depth)).

Definition der_take (expected : Z) : DerReader (list byte) := fun d =>
  '(tag, body, rest) ← split_tlv d.(der_bytes);
  if negb (tag =? expected) then Err (UnexpectedTag expected tag) else Ok (body, MkDer rest d.(der_depth)).

Definition take_nested (expected : Z) : DerReader Der := fun d =>
  if (MAX_DEPTH <? d.(der_depth) + 1)%nat then Err TooDeep
  else '(body, d') ← der_take expected d; Ok (MkDer body (d.(der_depth) + 1), d').

Definition take_raw : DerReader (list byte) := fun d =>
  let before := d.(der_bytes) in
  '(_, _, rest) ← split_tlv before;
  Ok (take (length before - length rest) before, MkDer rest d.(der_depth)).

Definition der_skip : DerReader unit := fun d =>
  '(_, _, rest) ← split_tlv d.(der_bytes); Ok (tt, MkDer rest d.(der_depth)).

Definition der_skip_if (tag : Z) : DerReader bool := fun d =>
  if bool_decide (peek_tag d = Some tag) then '(_, d) ← der_skip d; Ok (true, d) else Ok (false, d).

Definition integer_u64 : DerReader Z :=
  body ← der_take tag_INTEGER;
  der_check (
    _ ← check_integer body;
    let first := u8v (nth 0 body x00) in
    if negb (Z.land first 0x80 =? 0) then Err BadInteger
    else
      let significant := if first =? 0 then drop 1 body else body in
      if (8 <? length significant)%nat then Err BadInteger
      else Ok (fold_left (fun value b => Z.lor (as_u64 (Z.shiftl value 8)) (u8v b)) significant 0)).

Definition integer_bytes : DerReader (list byte) :=
  body ← der_take tag_INTEGER;
  der_check (
    _ ← check_integer body;
    let first := u8v (nth 0 body x00) in
    if negb (Z.land first 0x80 =? 0) then Err BadInteger
    else Ok (if (first =? 0) && (1 <? length body)%nat then drop 1 body else body)).

Definition der_boolean : DerReader bool :=
  body ← der_take tag_BOOLEAN;
  der_check (match body with
             | [b] => if u8v b =? 0x00 then Ok false else if u8v b =? 0xFF then Ok true else Err BadBoolean
             | _ => Err BadBoolean
             end).

Definition der_octet_string : DerReader (list byte) := der_take tag_OCTET_STRING.

Definition der_oid : DerReader (list byte) :=
  body ← der_take tag_OID; der_check (_ ← validate_oid body; Ok body).

Definition expect_end (d : Der) : result Asn1Error unit :=
  if der_is_empty d then Ok tt else Err DerTrailingBytes.

(** The algorithm, and its parameters as they stand. *)
Definition AlgorithmIdentifier : Type := list byte * option (Z * list byte).

Definition algorithm_identifier : DerReader AlgorithmIdentifier := fun d =>
  '(inner, d) ← take_nested tag_SEQUENCE d;
  '(algorithm, inner) ← der_oid inner;
  '(parameters, inner) ← (if der_is_empty inner then Ok (None, inner) else '(p, inner) ← take_any inner; Ok (Some p, inner));
  if negb (der_is_empty inner) then Err DerTrailingBytes else Ok ((algorithm, parameters), d).

Definition bit_string : DerReader (list byte) :=
  body ← der_take tag_BIT_STRING;
  der_check (match body with
             | [] => Err BadBitString
             | unused :: bits => if negb (u8v unused =? 0) then Err BadBitString else Ok bits
             end).

Definition generalized_time : DerReader Z :=
  body ← der_take tag_GENERALIZED_TIME; der_check (parse_generalized_time body).

(** ** Writing *)

(** [iter().position(|b| *b != 0).unwrap_or(last)], and the slice from there. *)
Definition significant (bytes : list byte) : list byte :=
  drop (match list_find (fun b => b <> x00) bytes with Some (i, _) => i | None => length bytes - 1 end)%nat bytes.

Definition write_length (length_ : Z) : list byte :=
  if length_ <? 0x80 then [u8 length_]
  else
    let digits := significant (to_be_bytes 8 length_) in
    u8 (Z.lor 0x80 (Z.of_nat (length digits))) :: digits.

Definition der_tlv (tag : Z) (contents : list byte) : list byte :=
  u8 tag :: write_length (Z.of_nat (length contents)) ++ contents.

Definition write_sequence (parts : list (list byte)) : list byte := der_tlv tag_SEQUENCE (concat parts).
Definition write_octet_string (bytes : list byte) : list byte := der_tlv tag_OCTET_STRING bytes.
Definition write_null : list byte := der_tlv tag_NULL [].
Definition write_boolean (value : bool) : list byte := der_tlv tag_BOOLEAN [if value then xff else x00].
Definition write_oid (arcs : list byte) : list byte := der_tlv tag_OID arcs.

Definition write_integer_u64 (value : Z) : list byte :=
  let bytes := significant (to_be_bytes 8 value) in
  der_tlv tag_INTEGER ((if negb (Z.land (u8v (nth 0 bytes x00)) 0x80 =? 0) then [x00] else []) ++ bytes).

(** ** The shortest spelling is the only one *)

Lemma fold_le (digits : list byte) v : fold_left (fun v d => v * 256 + u8v d) digits v = v * 256 ^ Z.of_nat (length digits) + from_be_bytes digits.
Proof.
  revert v; induction digits as [|d digits IH] using rev_ind; intros v; [unfold from_be_bytes; cbn; lia|].
  rewrite fold_left_app. cbn [fold_left]. rewrite IH, length_app. cbn [length]. rewrite Nat2Z.inj_add, Z.pow_add_r by lia.
  unfold from_be_bytes. rewrite rev_app_distr. cbn [rev app from_le_bytes]. change (256 ^ Z.of_nat 1) with 256. lia.
Qed.

Lemma from_be_cons d l : from_be_bytes (d :: l) = u8v d * 256 ^ Z.of_nat (length l) + from_be_bytes l.
Proof. pose proof (fold_le (d :: l) 0) as H. cbn [fold_left] in H. rewrite fold_le in H. cbn [Z.mul Z.add] in H. lia. Qed.

Lemma length_digits_ok digits v : 0 <= v -> v * 256 ^ Z.of_nat (length digits) + from_be_bytes digits <= u64_max ->
  length_digits digits v = Some (v * 256 ^ Z.of_nat (length digits) + from_be_bytes digits).
Proof.
  revert v; induction digits as [|d digits IH]; intros v Hv; cbn [length_digits length]; [unfold from_be_bytes; cbn; intros; f_equal; lia|].
  rewrite from_be_cons, Nat2Z.inj_succ, Z.pow_succ_r by lia. intros Hm. pose proof (u8v_range d) as Hd.
  pose proof (from_be_bytes_range digits) as Hr. set (p := 256 ^ Z.of_nat (length digits)) in *. assert (1 <= p) by (apply Z.lt_pred_le, Z.pow_pos_nonneg; lia).
  assert (Hmul : v * 256 + u8v d <= u64_max) by nia.
  unfold checked_usize. replace (u64_max <? v * 256) with false by (symmetry; apply Z.ltb_ge; lia). cbn [mbind option_bind].
  replace (u64_max <? _) with false by (symmetry; apply Z.ltb_ge; lia). cbn [mbind option_bind]. rewrite IH; [fold p; f_equal; lia|lia|fold p; lia].
Qed.

Lemma significant_zeros k d l : u8v d <> 0 -> significant (repeat x00 k ++ d :: l) = d :: l.
Proof.
  intros Hd. unfold significant. assert (E : list_find (fun b => b <> x00) (repeat x00 k ++ d :: l) = Some (k, d)).
  { apply list_find_Some. split_and!.
    - rewrite lookup_app_r, repeat_length, Nat.sub_diag by (rewrite repeat_length; lia). done.
    - intros ->. by apply Hd.
    - intros i y Hy Hi. rewrite lookup_app_l in Hy by (rewrite repeat_length; lia).
      apply list_elem_of_lookup_2, list_elem_of_In, repeat_spec in Hy. auto. }
  rewrite E. rewrite <- (repeat_length x00 k) at 1. apply drop_app_length.
Qed.

(** Digits without a leading zero are what [to_be_bytes] leaves of them. *)
Lemma significant_digits d l : (length (d :: l) <= 8)%nat -> u8v d <> 0 -> significant (to_be_bytes 8 (from_be_bytes (d :: l))) = d :: l.
Proof.
  intros Hl Hd. assert (E : to_be_bytes 8 (from_be_bytes (d :: l)) = repeat x00 (8 - length (d :: l)) ++ d :: l); [|rewrite E; by apply significant_zeros].
  set (m := d :: l) in *. clearbody m. clear Hd d l. set (k := (8 - length m)%nat).
  assert (Hv : from_be_bytes (repeat x00 k ++ m) = from_be_bytes m).
  { clearbody k. clear. induction k as [|k IH]; [done|]. cbn [repeat app]. rewrite from_be_cons, IH. change (u8v x00) with 0. lia. }
  rewrite <- Hv. replace 8%nat with (length (repeat x00 k ++ m)) by (rewrite length_app, repeat_length; lia). apply to_from_be_bytes.
Qed.

Lemma to_be_significant v : 0 < v < 2 ^ 64 -> exists d l, significant (to_be_bytes 8 v) = d :: l /\ u8v d <> 0 /\ from_be_bytes (d :: l) = v /\ (length (d :: l) <= 8)%nat.
Proof.
  intros Hv. set (m := to_be_bytes 8 v). assert (Hl : length m = 8%nat) by apply length_to_be_bytes.
  assert (Hf : from_be_bytes m = v) by (unfold m; rewrite from_to_be_bytes; [done|]; change (256 ^ Z.of_nat 8) with (2 ^ 64); lia).
  assert (Hx : exists k d l, m = repeat x00 k ++ d :: l /\ u8v d <> 0).
  { clearbody m. assert (Hnz : from_be_bytes m <> 0) by lia. clear Hl Hf Hv. induction m as [|x m IH]; [by exfalso; apply Hnz|].
    destruct (decide (u8v x = 0)) as [E|E]; [|by exists 0%nat, x, m]. rewrite from_be_cons, E in Hnz. destruct (IH ltac:(lia)) as (k & d & l & -> & Hd).
    exists (S k), d, l. split; [|done]. cbn. f_equal. by apply u8v_inj. }
  destruct Hx as (k & d & l & E & Hd). exists d, l. rewrite E, significant_zeros by done. split; [done|]. split; [done|]. split.
  - rewrite <- Hf, E. clear. induction k as [|k IH]; [done|]. cbn [repeat app]. rewrite (from_be_cons x00), <- IH. change (u8v x00) with 0. lia.
  - rewrite E, length_app in Hl. lia.
Qed.

Lemma land_low f k : 0 <= k -> Z.land f (2 ^ k - 1) = f mod 2 ^ k.
Proof. intros Hk. rewrite <- Z.land_ones by done. by rewrite Z.ones_equiv, Z.sub_1_r. Qed.

Lemma lor_count count : 0 <= count < 128 -> Z.lor 0x80 count = 128 + count.
Proof. intros Hc. change (Z.lor 0x80 count) with (Z.lor (Z.shiftl 1 7) count). rewrite Z.lor_comm, lor_shiftl_add by lia. lia. Qed.

Lemma split_at_checked_ok bs n a b : 0 <= n -> split_at_checked bs n = Some (a, b) <-> bs = a ++ b /\ Z.of_nat (length a) = n.
Proof.
  intros Hn. unfold split_at_checked. destruct (Z.ltb_spec (Z.of_nat (length bs)) n) as [H|H]; split; try done.
  - intros [-> E]. rewrite length_app in H. lia.
  - intros [= <- <-]. split; [by rewrite take_drop|]. rewrite length_take. lia.
  - intros [-> <-]. rewrite Nat2Z.id, take_app_length, drop_app_length. done.
Qed.

(** Length octets are read back as the length they were written for, and no others are. *)
Lemma split_length_iff first after n rest :
  split_length first after = Ok (n, rest) <-> 0 <= n < 2 ^ 64 /\ first :: after = write_length n ++ rest.
Proof.
  unfold split_length. pose proof (u8v_range first) as Hf. change 0x7F with (2 ^ 7 - 1). rewrite land_low by lia. change (2 ^ 7) with 128.
  set (f := u8v first) in *. split.
  - destruct (Z.ltb_spec f 0x80) as [Hs|Hs].
    { intros [= <- <-]. split; [lia|]. unfold write_length. replace (f <? 0x80) with true by (symmetry; apply Z.ltb_lt; lia). unfold f. by rewrite u8_u8v. }
    destruct (Z.eqb_spec f 0x80) as [|H0]; [done|]. destruct (Z.eqb_spec f 0xFF) as [|H1]; [done|].
    assert (Hc : f mod 128 = f - 128) by (symmetry; apply (Z.mod_unique f 128 1); lia). rewrite Hc.
    destruct (Z.ltb_spec 8 (f - 128)) as [|H8]; [done|]. intros H. apply result_bind_ok in H as ([digits rest'] & Hsp%ok_or_ok & H).
    apply split_at_checked_ok in Hsp as [-> Hl]; [|lia]. destruct digits as [|d digits]; [cbn in Hl; lia|].
    destruct (Z.eqb_spec (u8v d) 0) as [|Hd]; [done|]. apply result_bind_ok in H as (v & Hv%ok_or_ok & H).
    pose proof (from_be_bytes_range (d :: digits)) as Hr. assert (256 ^ Z.of_nat (length (d :: digits)) <= 2 ^ 64) by (change (2 ^ 64) with (256 ^ 8); apply Z.pow_le_mono_r; lia).
    rewrite length_digits_ok in Hv by (unfold u64_max; lia). rewrite Z.mul_0_l, Z.add_0_l in Hv. injection Hv as <-.
    destruct (Z.ltb_spec (from_be_bytes (d :: digits)) 0x80) as [|H128]; [done|]. injection H as <- <-. split; [lia|].
    unfold write_length. replace (_ <? 0x80) with false by (symmetry; apply Z.ltb_ge; lia).
    rewrite significant_digits by (first [done|lia]). rewrite lor_count by lia. rewrite Hl. cbn [app]. f_equal. replace (128 + (f - 128)) with f by lia.
    unfold f. by rewrite u8_u8v.
  - intros [Hn E]. unfold write_length in E. destruct (Z.ltb_spec n 0x80) as [Hs|Hs].
    { cbn [app] in E. injection E as -> ->. subst f. rewrite u8v_u8_small by lia. by replace (n <? 0x80) with true by (symmetry; apply Z.ltb_lt; lia). }
    destruct (to_be_significant n) as (d & l & Es & Hd & Hv & Hl); [lia|]. rewrite Es in E. set (c := Z.of_nat (length (d :: l))) in *.
    assert (1 <= c <= 8) by (unfold c; cbn [length] in *; lia). rewrite lor_count in E by lia. cbn [app] in E. injection E as Ef ->. 
    assert (Ef' : f = 128 + c) by (unfold f; rewrite Ef, u8v_u8_small by lia; done). rewrite Ef'.
    replace (_ <? 0x80) with false by (symmetry; apply Z.ltb_ge; lia). replace (_ =? 0x80) with false by (symmetry; apply Z.eqb_neq; lia).
    replace (_ =? 0xFF) with false by (symmetry; apply Z.eqb_neq; lia). replace ((128 + c) mod 128) with c by (apply (Z.mod_unique _ 128 1); lia).
    replace (8 <? c) with false by (symmetry; apply Z.ltb_ge; lia).
    rewrite (proj2 (split_at_checked_ok (d :: l ++ rest) c (d :: l) rest ltac:(lia)) (conj eq_refl eq_refl)). cbn [ok_or mbind result_bind].
    replace (u8v d =? 0) with false by (symmetry; by apply Z.eqb_neq). rewrite length_digits_ok by (rewrite ?Hv; unfold u64_max; lia).
    rewrite Z.mul_0_l, Z.add_0_l, Hv. cbn [ok_or mbind result_bind]. by replace (n <? 0x80) with false by (symmetry; apply Z.ltb_ge; lia).
Qed.

Lemma split_tlv_iff bytes tag body rest :
  split_tlv bytes = Ok (tag, body, rest) <->
  0 <= tag < 256 /\ tag mod 32 <> 31 /\ Z.of_nat (length body) < 2 ^ 64 /\ bytes = der_tlv tag body ++ rest.
Proof.
  unfold split_tlv, der_tlv. change 0x1F with (2 ^ 5 - 1) at 1. split.
  - destruct bytes as [|t bytes]; [done|]. pose proof (u8v_range t) as Hut. rewrite land_low by lia. change (2 ^ 5) with 32.
    destruct (Z.eqb_spec (u8v t mod 32) 0x1F) as [|Ht]; [done|]. destruct bytes as [|first after]; [done|].
    intros H. apply result_bind_ok in H as ([n al] & Hs%split_length_iff & H). destruct Hs as [Hn Es].
    apply result_bind_ok in H as ([b r] & Hb%ok_or_ok & H). injection H as <- <- <-. apply split_at_checked_ok in Hb as [-> Hl]; [|lia].
    split; [done|]. split; [done|]. split; [lia|]. rewrite u8_u8v, Hl, Es. cbn [app]. by rewrite <- app_assoc.
  - intros (Ht & H31 & Hl & ->). cbn [app]. rewrite u8v_u8_small by done. rewrite land_low by lia. change (2 ^ 5) with 32.
    replace (_ =? 0x1F) with false by (symmetry; apply Z.eqb_neq; done). rewrite <- app_assoc.
    set (n := Z.of_nat (length body)) in *. destruct (write_length n ++ body ++ rest) as [|first after] eqn:E.
    { exfalso. unfold write_length in E. destruct (n <? 0x80); discriminate. }
    rewrite (proj2 (split_length_iff first after n (body ++ rest))) by (split; [lia|by rewrite E]). cbn [mbind result_bind].
    rewrite (proj2 (split_at_checked_ok _ n body rest ltac:(lia))) by done. done.
Qed.

(** ** Integers and booleans *)

Lemma high_bit b : (Z.land (u8v b) 0x80 =? 0) = (u8v b <? 128).
Proof. by destruct b. Qed.

Lemma fold_u64 l : (length l <= 8)%nat -> fold_left (fun value b => Z.lor (as_u64 (Z.shiftl value 8)) (u8v b)) l 0 = from_be_bytes l.
Proof.
  induction l as [|b l IH] using rev_ind; [done|]. rewrite length_app. cbn [length]. intros Hl. rewrite fold_left_app. cbn [fold_left].
  rewrite IH by lia. pose proof (from_be_bytes_range l) as Hr. assert (256 ^ Z.of_nat (length l) <= 2 ^ 56) by (change (2 ^ 56) with (256 ^ 7); apply Z.pow_le_mono_r; lia).
  rewrite Z.shiftl_mul_pow2 by lia. change (2 ^ 8) with 256. rewrite as_u64_small by (unfold u64_ok; lia). pose proof (u8v_range b).
  replace (from_be_bytes l * 256) with (Z.shiftl (from_be_bytes l) 8) by (rewrite Z.shiftl_mul_pow2; lia). rewrite Z.lor_comm, lor_shiftl_add by lia.
  unfold from_be_bytes at 2. rewrite rev_app_distr. cbn [rev app from_le_bytes]. fold (from_be_bytes l). change (2 ^ 8) with 256. lia.
Qed.

Definition integer_contents (value : Z) : list byte :=
  let bytes := significant (to_be_bytes 8 value) in
  (if negb (Z.land (u8v (nth 0 bytes x00)) 0x80 =? 0) then [x00] else []) ++ bytes.

Definition integer_of (body : list byte) : result Asn1Error Z :=
  _ ← check_integer body;
  let first := u8v (nth 0 body x00) in
  if negb (Z.land first 0x80 =? 0) then Err BadInteger
  else
    let significant := if first =? 0 then drop 1 body else body in
    if (8 <? length significant)%nat then Err BadInteger
    else Ok (fold_left (fun value b => Z.lor (as_u64 (Z.shiftl value 8)) (u8v b)) significant 0).

Lemma integer_contents_head v d l : significant (to_be_bytes 8 v) = d :: l -> integer_contents v = if u8v d <? 128 then d :: l else x00 :: d :: l.
Proof. intros E. unfold integer_contents. rewrite E. cbn [nth]. rewrite high_bit. by destruct (u8v d <? 128). Qed.

Lemma integer_of_iff body v : integer_of body = Ok v <-> 0 <= v < 2 ^ 64 /\ body = integer_contents v.
Proof.
  unfold integer_of. split.
  - destruct body as [|b tl]; [done|]. intros ([] & Hc & H)%result_bind_ok. cbn [nth] in H. rewrite high_bit in H. pose proof (u8v_range b).
    destruct (Z.ltb_spec (u8v b) 128) as [Hb|]; [|done]. cbn [negb] in H. destruct (Z.eqb_spec (u8v b) 0) as [E0|E0].
    + assert (b = x00) as -> by (by apply u8v_inj). cbn [drop] in H. destruct tl as [|next tl].
      { cbn in H. injection H as <-. by vm_compute. }
      cbn [check_integer] in Hc. change (u8v x00 =? 0) with true in Hc. rewrite high_bit in Hc. cbn [andb] in Hc.
      destruct (Z.ltb_spec (u8v next) 128) as [|Hn]; [done|]. rewrite drop_0 in H. destruct (Nat.ltb_spec 8 (length (next :: tl))) as [|H8]; [done|].
      apply Ok_inj in H as <-. rewrite fold_u64 by done. pose proof (from_be_bytes_range (next :: tl)) as Hr.
      assert (256 ^ Z.of_nat (length (next :: tl)) <= 2 ^ 64) by (change (2 ^ 64) with (256 ^ 8); apply Z.pow_le_mono_r; lia). split; [lia|].
      rewrite (integer_contents_head _ next tl) by (apply significant_digits; [done|lia]).
      by replace (u8v next <? 128) with false by (symmetry; apply Z.ltb_ge; lia).
    + destruct (Nat.ltb_spec 8 (length (b :: tl))) as [|H8]; [done|]. apply Ok_inj in H as <-. rewrite fold_u64 by done.
      pose proof (from_be_bytes_range (b :: tl)) as Hr.
      assert (256 ^ Z.of_nat (length (b :: tl)) <= 2 ^ 64) by (change (2 ^ 64) with (256 ^ 8); apply Z.pow_le_mono_r; lia). split; [lia|].
      rewrite (integer_contents_head _ b tl) by (by apply significant_digits). by replace (u8v b <? 128) with true by (symmetry; by apply Z.ltb_lt).
  - intros [Hv ->]. destruct (decide (v = 0)) as [->|Hnz]; [reflexivity|].
    destruct (to_be_significant v) as (d & l & Es & Hd & Hf & Hl); [lia|]. rewrite (integer_contents_head v d l Es). pose proof (u8v_range d).
    destruct (Z.ltb_spec (u8v d) 128) as [Hb|Hb].
    + assert (Hc : check_integer (d :: l) = Ok tt).
      { cbn [check_integer]. destruct l as [|next l]; [done|]. replace (u8v d =? 0) with false by (symmetry; by apply Z.eqb_neq).
        by replace (u8v d =? 255) with false by (symmetry; apply Z.eqb_neq; lia). }
      rewrite Hc. cbn [mbind result_bind nth]. rewrite high_bit. replace (u8v d <? 128) with true by (symmetry; by apply Z.ltb_lt). cbn [negb].
      replace (u8v d =? 0) with false by (symmetry; by apply Z.eqb_neq). replace (8 <? length (d :: l))%nat with false by (symmetry; by apply Nat.ltb_ge).
      by rewrite fold_u64, Hf.
    + assert (Hc : check_integer (x00 :: d :: l) = Ok tt).
      { cbn [check_integer]. rewrite high_bit. replace (u8v d <? 128) with false by (symmetry; by apply Z.ltb_ge). done. }
      rewrite Hc. cbn [mbind result_bind nth]. rewrite high_bit. change (u8v x00 <? 128) with true. change (u8v x00 =? 0) with true. cbn [negb drop].
      replace (8 <? length (d :: l))%nat with false by (symmetry; by apply Nat.ltb_ge). by rewrite fold_u64, Hf.
Qed.

Lemma der_check_ok {A} (r : result Asn1Error A) d x d' : der_check r d = Ok (x, d') <-> r = Ok x /\ d' = d.
Proof. unfold der_check. split; [intros (y & -> & [= <- <-])%result_bind_ok; done|by intros [-> ->]]. Qed.

Lemma der_bind_ok {A B} (m : DerReader A) (f : A -> DerReader B) d y d2 :
  (m ≫= f) d = Ok (y, d2) <-> exists x d1, m d = Ok (x, d1) /\ f x d1 = Ok (y, d2).
Proof.
  unfold mbind, der_bind. split.
  - destruct (m d) as [[x d1]|e]; [|done]. eauto.
  - intros (x & d1 & -> & H). done.
Qed.

Lemma der_take_iff tag d body d' : 0 <= tag < 256 -> tag mod 32 <> 31 ->
  der_take tag d = Ok (body, d') <-> Z.of_nat (length body) < 2 ^ 64 /\ d = MkDer (der_tlv tag body ++ der_bytes d') (der_depth d').
Proof.
  intros Ht H31. unfold der_take. split.
  - intros ([[t b] r] & Hs%split_tlv_iff & H)%result_bind_ok. destruct (Z.eqb_spec t tag) as [->|]; [|done]. injection H as <- <-.
    destruct Hs as (_ & _ & Hl & Eb). split; [done|]. cbn. destruct d. cbn in *. by rewrite Eb.
  - intros [Hl ->]. cbn [der_bytes der_depth]. destruct d' as [r n]. cbn [der_bytes der_depth].
    rewrite (proj2 (split_tlv_iff _ tag body r)) by done. cbn [mbind result_bind]. by rewrite Z.eqb_refl.
Qed.

(** C28 (a value has one spelling). The reader takes off the front of its input
    exactly what the writer writes: for every tag, contents of every length, every
    64-bit integer and both booleans, in either direction. *)
Theorem values_have_one_spelling :
  (forall bytes tag body rest, split_tlv bytes = Ok (tag, body, rest) <->
     0 <= tag < 256 /\ tag mod 32 <> 31 /\ Z.of_nat (length body) < 2 ^ 64 /\ bytes = der_tlv tag body ++ rest) /\
  (forall d v d', integer_u64 d = Ok (v, d') <-> 0 <= v < 2 ^ 64 /\ d = MkDer (write_integer_u64 v ++ der_bytes d') (der_depth d')) /\
  (forall d v d', der_boolean d = Ok (v, d') <-> d = MkDer (write_boolean v ++ der_bytes d') (der_depth d')).
Proof.
  split; [exact split_tlv_iff|]. split.
  - intros d v d'. unfold integer_u64. rewrite der_bind_ok. split.
    + intros (body & d1 & [Hl ->]%der_take_iff & [H ->]%der_check_ok); [|done|done]. by apply integer_of_iff in H as [Hv ->].
    + intros [Hv ->]. exists (integer_contents v), d'. rewrite der_take_iff by done. rewrite der_check_ok. split; [|split; [by apply integer_of_iff|done]].
      split; [|done]. assert (length (integer_contents v) <= 9)%nat; [|lia]. unfold integer_contents, significant. rewrite length_app, length_drop, length_to_be_bytes.
      destruct (negb _); cbn [length]; lia.
  - intros d v d'. unfold der_boolean. rewrite der_bind_ok. split.
    + intros (body & d1 & [Hl ->]%der_take_iff & [H ->]%der_check_ok); [|done|done]. destruct body as [|b [|? ?]]; [done| |done].
      destruct (Z.eqb_spec (u8v b) 0x00) as [E|]; [injection H as <-; by apply (u8v_inj b x00) in E as ->|].
      destruct (Z.eqb_spec (u8v b) 0xFF) as [E|]; [injection H as <-; by apply (u8v_inj b xff) in E as ->|done].
    + intros ->. exists [if v then xff else x00], d'. rewrite der_take_iff by done. by destruct v.
Qed.

(** ** The calendar *)

(** A date, and the day after it. *)
Definition date_ok (d : Z * Z * Z) : Prop := let '(year, month, day) := d in 1 <= month <= 12 /\ 1 <= day <= days_in_month year month.

Definition next_day (d : Z * Z * Z) : Z * Z * Z :=
  let '(year, month, day) := d in
  if day <? days_in_month year month then (year, month, day + 1)
  else if month <? 12 then (year, month + 1, 1) else (year + 1, 1, 1).

Definition days_of (d : Z * Z * Z) : Z := let '(year, month, day) := d in days_from_civil year month day.

(** The era is the floor, for years on either side of zero. *)
Lemma era_floor y : Z.quot (if 0 <=? y then y else y - 399) 400 = y / 400.
Proof.
  destruct (Z.leb_spec 0 y); [by rewrite Z.quot_div_nonneg by lia|].
  rewrite <- (Z.opp_involutive (y - 399)), Z.quot_opp_l, Z.quot_div_nonneg by lia. Z.to_euclidean_division_equations; lia.
Qed.

(** Days by the year that begins in March: whole years, then whole months. *)
Definition march (y mp : Z) : Z := y / 400 * 146097 + (y mod 400 * 365 + (y mod 400) / 4 - (y mod 400) / 100) + (153 * mp + 2) / 5.

Lemma days_from_civil_eq year month day : 1 <= month <= 12 ->
  days_from_civil year month day =
  march (if month <=? 2 then year - 1 else year) (if month <=? 2 then month + 9 else month - 3) + day - 719469.
Proof.
  intros Hm. unfold days_from_civil, march. cbv zeta. rewrite era_floor. set (y := if month <=? 2 then _ else _).
  assert (Hy : y - y / 400 * 400 = y mod 400) by (pose proof (Z.div_mod y 400); lia). rewrite Hy. pose proof (Z.mod_pos_bound y 400 ltac:(lia)).
  assert (Hmp : Z.rem (month + 9) 12 = if month <=? 2 then month + 9 else month - 3).
  { rewrite Z.rem_mod_nonneg by lia. destruct (Z.leb_spec month 2); [by rewrite Z.mod_small by lia|symmetry; apply (Z.mod_unique _ 12 1); lia]. }
  rewrite Hmp. set (mp := if month <=? 2 then month + 9 else month - 3). assert (0 <= mp <= 11) by (unfold mp; destruct (Z.leb_spec month 2); lia).
  rewrite !Z.quot_div_nonneg by lia. lia.
Qed.

Lemma is_leap_eq y : is_leap y = (y mod 4 =? 0) && (negb (y mod 100 =? 0) || (y mod 400 =? 0)).
Proof.
  assert (E : forall k, 0 < k -> (Z.rem y k =? 0) = (y mod k =? 0)).
  { intros k Hk. apply eq_true_iff_eq. rewrite !Z.eqb_eq. rewrite Z.rem_divide, Z.mod_divide by lia. done. }
  unfold is_leap. by rewrite !E by lia.
Qed.

(** A year from March to March has 366 days when the next January is a leap year's. *)
Lemma march_year y : march (y + 1) 0 = march y 11 + if is_leap (y + 1) then 29 else 28.
Proof.
  unfold march. rewrite is_leap_eq. pose proof (Z.div_mod y 400 ltac:(lia)) as Hd. pose proof (Z.mod_pos_bound y 400 ltac:(lia)) as Hr.
  set (e := y / 400) in *. set (r := y mod 400) in *.
  assert (H4 : (y + 1) mod 4 = (r + 1) mod 4) by (rewrite Hd; replace (400 * e + r + 1) with (r + 1 + (100 * e) * 4) by lia; apply Z.mod_add; lia).
  assert (H100 : (y + 1) mod 100 = (r + 1) mod 100) by (rewrite Hd; replace (400 * e + r + 1) with (r + 1 + (4 * e) * 100) by lia; apply Z.mod_add; lia).
  assert (H400 : (y + 1) mod 400 = (r + 1) mod 400) by (rewrite Hd; replace (400 * e + r + 1) with (r + 1 + e * 400) by lia; apply Z.mod_add; lia).
  assert (Hq : (y + 1) / 400 = e + (r + 1) / 400) by (rewrite Hd; replace (400 * e + r + 1) with (r + 1 + e * 400) by lia; rewrite Z.div_add by lia; lia).
  rewrite H4, H100, H400, Hq. clearbody e r. clear Hd H4 H100 H400 Hq.
  assert (Hall : Forall (fun r => let r := Z.of_nat r in
      (r + 1) / 400 * 146097 + ((r + 1) mod 400 * 365 + (r + 1) mod 400 / 4 - (r + 1) mod 400 / 100) =
      r * 365 + r / 4 - r / 100 + 337 + if ((r + 1) mod 4 =? 0) && (negb ((r + 1) mod 100 =? 0) || ((r + 1) mod 400 =? 0)) then 29 else 28) (seq 0 400)) by by_evaluation.
  assert (Hin : seq 0 400 !! Z.to_nat r = Some (Z.to_nat r)) by (apply lookup_seq_lt; lia).
  pose proof (Forall_lookup_1 _ _ _ _ Hall Hin) as H. cbv beta zeta in H. rewrite Z2Nat.id in H by lia.
  change ((153 * 0 + 2) / 5) with 0. change ((153 * 11 + 2) / 5) with 337. lia.
Qed.

Lemma month_lengths y m : 1 <= m <= 12 -> m <> 2 -> m <> 12 ->
  (153 * (if m + 1 <=? 2 then m + 1 + 9 else m + 1 - 3) + 2) / 5 = (153 * (if m <=? 2 then m + 9 else m - 3) + 2) / 5 + days_in_month y m.
Proof.
  intros Hm H2 H12. assert (Hin : In m [1; 3; 4; 5; 6; 7; 8; 9; 10; 11]) by (cbn; lia). cbn in Hin.
  repeat (destruct Hin as [<-|Hin]; [reflexivity|]). done.
Qed.

(** One day further is one day more. *)
Lemma days_of_next d : date_ok d -> days_of (next_day d) = days_of d + 1.
Proof.
  destruct d as [[year month] day]. unfold date_ok, next_day. intros [Hm Hd]. destruct (Z.ltb_spec day (days_in_month year month)) as [Hlt|Hge].
  { unfold days_of. rewrite !days_from_civil_eq by done. lia. }
  assert (day = days_in_month year month) as -> by lia. destruct (Z.ltb_spec month 12) as [H12|H12].
  - unfold days_of. rewrite !days_from_civil_eq by lia. destruct (decide (month = 2)) as [->|H2].
    + cbn [Z.leb Z.compare Pos.compare Pos.compare_cont]. change (2 + 1 <=? 2) with false. cbn iota. change (2 + 1 - 3) with 0. change (2 + 9) with 11.
      pose proof (march_year (year - 1)) as H. replace (year - 1 + 1) with year in H by lia. rewrite H. unfold days_in_month. cbn. destruct (is_leap year); lia.
    + assert (Hy : (if month + 1 <=? 2 then year - 1 else year) = if month <=? 2 then year - 1 else year).
      { destruct (Z.leb_spec (month + 1) 2), (Z.leb_spec month 2); lia. }
      rewrite Hy. unfold march at 1. rewrite (month_lengths year month) by lia. unfold march. lia.
  - assert (month = 12) as -> by lia. unfold days_of. rewrite !days_from_civil_eq by lia. change (1 <=? 2) with true. change (12 <=? 2) with false. cbn iota.
    replace (year + 1 - 1) with year by lia. change (days_in_month year 12) with 31. unfold march. change ((153 * (1 + 9) + 2) / 5) with 306. change ((153 * (12 - 3) + 2) / 5) with 275. lia.
Qed.

Lemma epoch : days_of (1970, 1, 1) = 0.
Proof. reflexivity. Qed.

(** ** An instant as it is written *)

Fixpoint decimal_digits (width : nat) (v : Z) : list byte :=
  match width with O => [] | S width => decimal_digits width (v / 10) ++ [u8 (48 + v mod 10)] end.

Lemma length_decimal w v : length (decimal_digits w v) = w.
Proof. revert v; induction w as [|w IH]; intros v; cbn [decimal_digits]; [done|]. rewrite length_app, IH. cbn. lia. Qed.

Lemma digits_value_snoc l d : digits_value (l ++ [d]) = digits_value l * 10 + (u8v d - 48).
Proof. unfold digits_value. by rewrite fold_left_app. Qed.

Lemma digits_of_value l : forallb is_ascii_digit l = true ->
  l = decimal_digits (length l) (digits_value l) /\ 0 <= digits_value l < 10 ^ Z.of_nat (length l).
Proof.
  induction l as [|d l IH] using rev_ind; [done|]. rewrite forallb_app, length_app. cbn [forallb length]. rewrite andb_true_r.
  intros [Hl Hd]%andb_true_iff. destruct (IH Hl) as [E Hr]. unfold is_ascii_digit in Hd. apply andb_true_iff in Hd as [H1%Z.leb_le H2%Z.leb_le].
  rewrite digits_value_snoc, Nat.add_1_r. cbn [decimal_digits]. set (v := digits_value l) in *.
  assert (Hm : (v * 10 + (u8v d - 48)) mod 10 = u8v d - 48) by (rewrite Z.add_comm, Z.mod_add by lia; apply Z.mod_small; lia).
  assert (Hq : (v * 10 + (u8v d - 48)) / 10 = v) by (rewrite Z.add_comm, Z.div_add by lia; rewrite Z.div_small by lia; lia).
  rewrite Hm, Hq. split; [|rewrite Nat2Z.inj_succ, Z.pow_succ_r by lia; lia]. rewrite <- E. replace (48 + (u8v d - 48)) with (u8v d) by lia. by rewrite u8_u8v.
Qed.

Lemma value_of_decimal w v : 0 <= v < 10 ^ Z.of_nat w -> digits_value (decimal_digits w v) = v /\ forallb is_ascii_digit (decimal_digits w v) = true.
Proof.
  revert v; induction w as [|w IH]; intros v Hv; cbn [decimal_digits]; [split; [cbn in *; lia|done]|].
  rewrite Nat2Z.inj_succ, Z.pow_succ_r in Hv by lia. destruct (IH (v / 10)) as [E Hd]; [split; [apply Z.div_pos; lia|apply Z.div_lt_upper_bound; lia]|].
  pose proof (Z.mod_pos_bound v 10 ltac:(lia)). rewrite digits_value_snoc, E, u8v_u8_small by lia. split; [pose proof (Z.div_mod v 10); lia|].
  rewrite forallb_app, Hd. cbn [forallb andb]. unfold is_ascii_digit. rewrite u8v_u8_small by lia. rewrite andb_true_r. apply andb_true_iff. split; apply Z.leb_le; lia.
Qed.

(** A time of day on a date. *)
Record Instant := MkInstant { in_date : Z * Z * Z; in_hour : Z; in_minute : Z; in_second : Z }.

Definition instant_ok (i : Instant) : Prop :=
  0 <= i.(in_date).1.1 <= 9999 /\ date_ok i.(in_date) /\ 0 <= i.(in_hour) <= 23 /\ 0 <= i.(in_minute) <= 59 /\ 0 <= i.(in_second) <= 59.

Definition seconds_of (i : Instant) : Z := days_of i.(in_date) * 86400 + i.(in_hour) * 3600 + i.(in_minute) * 60 + i.(in_second).

Definition six_fields (i : Instant) : list byte :=
  decimal_digits 4 i.(in_date).1.1 ++ decimal_digits 2 i.(in_date).1.2 ++ decimal_digits 2 i.(in_date).2 ++
  decimal_digits 2 i.(in_hour) ++ decimal_digits 2 i.(in_minute) ++ decimal_digits 2 i.(in_second).

Definition written_instant (i : Instant) (fraction : list byte) : list byte := six_fields i ++ fraction ++ [x5a].

(** The six numbers the code reads out of fourteen digits. *)
Definition instant_of (fixed : list byte) : Instant :=
  let n from to := digits_value (slice fixed from (to - from)) in
  MkInstant (n 0 4, n 4 6, n 6 8)%nat (n 8 10)%nat (n 10 12)%nat (n 12 14)%nat.

Lemma forallb_slice (f : byte -> bool) l a n : forallb f l = true -> forallb f (slice l a n) = true.
Proof. unfold slice. rewrite !forallb_forall. intros H x Hx. apply H. rewrite <- (take_drop a l). apply in_app_iff. right. rewrite <- (take_drop n (drop a l)). apply in_app_iff. by left. Qed.

Lemma fields_of_digits fixed : length fixed = 14%nat -> forallb is_ascii_digit fixed = true ->
  fixed = six_fields (instant_of fixed) /\
  let i := instant_of fixed in
  0 <= i.(in_date).1.1 < 10000 /\ 0 <= i.(in_date).1.2 < 100 /\ 0 <= i.(in_date).2 < 100 /\ 0 <= i.(in_hour) < 100 /\ 0 <= i.(in_minute) < 100 /\ 0 <= i.(in_second) < 100.
Proof.
  intros Hl Hd. assert (Hf : forall a n, (a + n <= 14)%nat -> slice fixed a n = decimal_digits n (digits_value (slice fixed a n)) /\
    0 <= digits_value (slice fixed a n) < 10 ^ Z.of_nat n).
  { intros a n Ha. pose proof (length_slice fixed a n ltac:(lia)) as Hs. pose proof (digits_of_value _ (forallb_slice _ fixed a n Hd)) as H. by rewrite Hs in H. }
  unfold six_fields, instant_of. cbn [in_date in_hour in_minute in_second fst snd Nat.sub].
  destruct (Hf 0 4)%nat as [E0 R0]; [lia|]. destruct (Hf 4 2)%nat as [E1 R1]; [lia|]. destruct (Hf 6 2)%nat as [E2 R2]; [lia|].
  destruct (Hf 8 2)%nat as [E3 R3]; [lia|]. destruct (Hf 10 2)%nat as [E4 R4]; [lia|]. destruct (Hf 12 2)%nat as [E5 R5]; [lia|].
  split; [|exact (conj R0 (conj R1 (conj R2 (conj R3 (conj R4 R5)))))]. rewrite <- E0, <- E1, <- E2, <- E3, <- E4, <- E5. clear -Hl.
  do 14 (destruct fixed as [|? fixed]; [discriminate|]). destruct fixed; [done|discriminate].
Qed.

Lemma instant_of_fields i : 0 <= i.(in_date).1.1 <= 9999 -> 0 <= i.(in_date).1.2 < 100 -> 0 <= i.(in_date).2 < 100 ->
  0 <= i.(in_hour) < 100 -> 0 <= i.(in_minute) < 100 -> 0 <= i.(in_second) < 100 ->
  instant_of (six_fields i) = i /\ forallb is_ascii_digit (six_fields i) = true.
Proof.
  destruct i as [[[y mo] d] h mi s]. cbn [in_date in_hour in_minute in_second fst snd]. intros Hy Hmo Hd Hh Hmi Hs.
  destruct (value_of_decimal 4 y ltac:(cbn; lia)) as [V0 D0]. destruct (value_of_decimal 2 mo ltac:(cbn; lia)) as [V1 D1]. destruct (value_of_decimal 2 d ltac:(cbn; lia)) as [V2 D2].
  destruct (value_of_decimal 2 h ltac:(cbn; lia)) as [V3 D3]. destruct (value_of_decimal 2 mi ltac:(cbn; lia)) as [V4 D4]. destruct (value_of_decimal 2 s ltac:(cbn; lia)) as [V5 D5].
  unfold six_fields. cbn [in_date in_hour in_minute in_second fst snd]. split; [|by rewrite !forallb_app, D0, D1, D2, D3, D4, D5].
  pose proof (length_decimal 4 y) as L0. pose proof (length_decimal 2 mo) as L1. pose proof (length_decimal 2 d) as L2.
  pose proof (length_decimal 2 h) as L3. pose proof (length_decimal 2 mi) as L4. pose proof (length_decimal 2 s) as L5.
  revert V0 V1 V2 V3 V4 V5 L0 L1 L2 L3 L4 L5. clear. generalize (decimal_digits 4 y) as a. generalize (decimal_digits 2 mo) as b. generalize (decimal_digits 2 d) as c.
  generalize (decimal_digits 2 h) as e. generalize (decimal_digits 2 mi) as f. generalize (decimal_digits 2 s) as g.
  intros g f e c b a V0 V1 V2 V3 V4 V5 L0 L1 L2 L3 L4 L5.
  destruct a as [|? [|? [|? [|? [|? ?]]]]]; try discriminate. destruct b as [|? [|? [|? ?]]]; try discriminate. destruct c as [|? [|? [|? ?]]]; try discriminate.
  destruct e as [|? [|? [|? ?]]]; try discriminate. destruct f as [|? [|? [|? ?]]]; try discriminate. destruct g as [|? [|? [|? ?]]]; try discriminate.
  unfold instant_of. cbn [app slice take drop Nat.sub]. by rewrite V0, V1, V2, V3, V4, V5.
Qed.

Lemma days_in_month_small y m : days_in_month y m <= 31.
Proof. unfold days_in_month. repeat case_match; lia. Qed.

(** The checks of the code are the instant's own. *)
Lemma read_fields fixed fraction : length fixed = 14%nat ->
  parse_generalized_time (fixed ++ fraction ++ [x5a]) =
  if negb (fraction_allowed fraction) then Err BadTime
  else if negb (forallb is_ascii_digit fixed) then Err BadTime
  else let i := instant_of fixed in
    if negb ((1 <=? i.(in_date).1.2) && (i.(in_date).1.2 <=? 12)) || (i.(in_date).2 <? 1) || (days_in_month i.(in_date).1.1 i.(in_date).1.2 <? i.(in_date).2) then Err BadTime
    else if (23 <? i.(in_hour)) || (59 <? i.(in_minute)) || (59 <? i.(in_second)) then Err BadTime
    else Ok (seconds_of i).
Proof.
  intros Hl. unfold parse_generalized_time. rewrite !length_app, Hl. replace (_ <? 15)%nat with false by (symmetry; apply Nat.ltb_ge; cbn; lia).
  rewrite app_assoc, removelast_last, last_last. change (negb (u8v x5a =? 90)) with false. cbn iota.
  rewrite <- Hl at 1. rewrite drop_app_length. replace (take 14 (fixed ++ fraction)) with fixed by (rewrite <- Hl; symmetry; apply take_app_length). reflexivity.
Qed.

(** An instant is placed on the calendar. The reader accepts an instant exactly
    when it is written [YYYYMMDDHHMMSS[.fff]Z] with a date that exists and a time of
    the day, and gives the seconds to its second since 1970; the days before a date
    are one fewer than those before the next day, and none before the first of
    January 1970. *)
Theorem an_instant_is_placed_on_the_calendar :
  (forall body t, parse_generalized_time body = Ok t <->
     exists i fraction, instant_ok i /\ fraction_allowed fraction = true /\ body = written_instant i fraction /\ t = seconds_of i) /\
  (forall d, date_ok d -> days_of (next_day d) = days_of d + 1) /\ days_of (1970, 1, 1) = 0.
Proof.
  split; [|split; [exact days_of_next|exact epoch]]. intros body t. split.
  - intros H. assert (Hb : exists fixed fraction, length fixed = 14%nat /\ body = fixed ++ fraction ++ [x5a]).
    { unfold parse_generalized_time in H. destruct (Nat.ltb_spec (length body) 15) as [|Hl]; [done|].
      destruct (Z.eqb_spec (u8v (List.last body x00)) 90) as [E|]; [|done]. exists (take 14 (removelast body)), (drop 14 (removelast body)).
      assert (Hne : body <> []) by (intros ->; cbn in Hl; lia). pose proof (app_removelast_last x00 Hne) as Eb.
      assert (List.last body x00 = x5a) as Ez by (by apply u8v_inj). rewrite Ez in Eb. split.
      - apply (f_equal length) in Eb. rewrite length_app in Eb. cbn [length] in Eb. rewrite length_take. lia.
      - rewrite app_assoc, take_drop. exact Eb. }
    destruct Hb as (fixed & fraction & Hl & ->). rewrite read_fields in H by done. destruct (fraction_allowed fraction) eqn:Ef; [|done].
    destruct (forallb is_ascii_digit fixed) eqn:Ed; [|done]. cbn [negb] in H. destruct (fields_of_digits fixed Hl Ed) as [E (R0 & R1 & R2 & R3 & R4 & R5)].
    cbv zeta in H. set (i := instant_of fixed) in *. destruct (_ || _) eqn:E1 in H; [done|]. destruct (_ || _) eqn:E2 in H; [done|]. apply Ok_inj in H as <-.
    apply orb_false_iff in E1 as [[E1 E3%Z.ltb_ge]%orb_false_iff E4%Z.ltb_ge]. apply negb_false_iff, andb_true_iff in E1 as [E1%Z.leb_le E5%Z.leb_le].
    apply orb_false_iff in E2 as [[E6%Z.ltb_ge E7%Z.ltb_ge]%orb_false_iff E8%Z.ltb_ge].
    exists i, fraction. split_and!; [|done|by unfold written_instant; rewrite <- E|done]. unfold instant_ok, date_ok. destruct (in_date i) as [[y mo] d]. cbn [fst snd] in *. lia.
  - intros (i & fraction & (Hy & Hd & Hh & Hmi & Hs) & Hf & -> & ->). unfold date_ok in Hd. pose proof (days_in_month_small (in_date i).1.1 (in_date i).1.2).
    assert (Hd' : 1 <= (in_date i).1.2 <= 12 /\ 1 <= (in_date i).2 <= days_in_month (in_date i).1.1 (in_date i).1.2) by (by destruct (in_date i) as [[y mo] d]).
    clear Hd. destruct (instant_of_fields i) as [E Ed]; try lia. unfold written_instant.
    rewrite read_fields by (unfold six_fields; by rewrite !length_app, !length_decimal). rewrite Hf, Ed, E. cbn [negb]. cbv zeta.
    replace (_ || _) with false by (symmetry; rewrite !orb_false_iff, negb_false_iff, andb_true_iff, !Z.leb_le, !Z.ltb_ge; lia).
    by replace (_ || _) with false by (symmetry; rewrite !orb_false_iff, !Z.ltb_ge; lia).
Qed.

Example a_timestamp : parse_generalized_time (String.list_byte_of_string "20240229235959.5Z") = Ok 1709251199.
Proof. reflexivity. Qed.
