(* ===== verification/Bignum.v ===== *)
(** * Modular exponentiation on public numbers ([trailryx-anchor/src/bignum.rs])

    Limbs of 64 bits, least significant first; Montgomery multiplication by the
    CIOS method, [R^2] by doubling, square and multiply. The accumulator [t] of
    [mont_mul] is held as its low limbs and its top one. Each loop over limbs is a
    recursion along them, and [pow] is proved to be exponentiation of integers. *)

From S2P Require Import Prelude Bytes P384 Asn1.
From Stdlib Require Import Zpow_facts.

Inductive BigError := NotOddModulus | ModulusTooSmall | NotReduced | TooWide.

#[export] Instance BigError_eq_dec : EqDecision BigError.
Proof. solve_decision. Defined.

Definition MAX_LIMBS : nat := 256.

Record Modulus := MkModulus { md_n : list Z; md_n0inv : Z; md_r2 : list Z }.

(** ** Bytes and limbs *)

(** [rchunks(8)]: from the end, the last one short. *)
Fixpoint rchunks8 (fuel : nat) (l : list byte) : list (list byte) :=
  match fuel, l with
  | S fuel, _ :: _ => drop (length l - 8) l :: rchunks8 fuel (take (length l - 8) l)
  | _, _ => []
  end.

Definition limb_of (chunk : list byte) : Z := fold_left (fun value b => Z.lor (as_u64 (Z.shiftl value 8)) (u8v b)) chunk 0.

Fixpoint trim_zeros (bytes : list byte) : list byte :=
  match bytes with [] => [] | b :: l => if bool_decide (b = x00) then trim_zeros l else bytes end.

Definition limbs_from_be (bytes : list byte) : result BigError (list Z) :=
  let trimmed := trim_zeros bytes in
  if (MAX_LIMBS * 8 <? length trimmed)%nat then Err TooWide else Ok (limb_of <$> rchunks8 (length trimmed) trimmed).

(** The limbs' bytes from the last position up, as far as [width]; zeros above. *)
Definition limbs_to_be (l : list Z) (width : nat) : list byte :=
  let bytes := concat (to_le_bytes 8 <$> l) in
  rev (take width bytes ++ repeat x00 (width - length bytes)).

(** [resize(len, 0)], which also cuts. *)
Definition resize (l : list Z) (len : nat) : list Z := take len l ++ repeat 0 (len - length l).

(** ** Limbs *)

Fixpoint cmp_top (a b : list Z) : comparison :=
  match a, b with
  | x :: a, y :: b => match Z.compare x y with Eq => cmp_top a b | other => other end
  | _, _ => Eq
  end.
Definition cmp (a b : list Z) : comparison := cmp_top (rev a) (rev b).

Fixpoint sub_in_place (a b : list Z) (borrow : Z) : list Z :=
  match a, b with
  | x :: a, y :: b =>
      let d := as_u64 (x - y) in
      let b1 := x <? y in
      let d' := as_u64 (d - borrow) in
      let b2 := d <? borrow in
      d' :: sub_in_place a b (Z.lor (Z.b2z b1) (Z.b2z b2))
  | _, _ => a
  end.

Definition reduce_once (carry : Z) (a n : list Z) : list Z :=
  if negb (carry =? 0) || negb (bool_decide (cmp a n = Lt)) then sub_in_place a n 0 else a.

(** One doubling's limbs, and the bit out of the top one. *)
Fixpoint double_limbs (a : list Z) (carry : Z) : list Z * Z :=
  match a with
  | [] => ([], carry)
  | x :: a =>
      let doubled := Z.lor (as_u64 (Z.shiftl x 1)) carry in
      let '(a, carry) := double_limbs a (Z.shiftr x 63) in (doubled :: a, carry)
  end.

Definition double_mod (n acc : list Z) : list Z :=
  let '(acc, carry) := double_limbs acc 0 in reduce_once carry acc n.

Definition compute_r2 (n : list Z) : list Z :=
  let k := length n in
  Nat.iter (2 * 64 * k) (double_mod n) (1 :: repeat 0 (k - 1)).

Definition newton (x inv : Z) : Z := as_u64 (inv * as_u64 (2 - as_u64 (x * inv))).
Definition inv_2_64 (x : Z) : Z := Nat.iter 6 (newton x) 1.

(** ** Montgomery multiplication *)

(** [for j in 0..k]: [t += a * b], the sums in 128 bits. *)
Fixpoint mul_add (t a : list Z) (b carry : Z) : list Z * Z :=
  match t, a with
  | x :: t, y :: a =>
      let sum := x + y * b + carry in
      let '(t, carry) := mul_add t a b (Z.shiftr sum 64) in (as_u64 sum :: t, carry)
  | _, _ => ([], carry)
  end.

Definition mont_step (n : list Z) (n0inv : Z) (a : list Z) (st : list Z * Z) (b_i : Z) : list Z * Z :=
  let '(t, t_k) := st in
  let '(t, carry) := mul_add t a b_i 0 in
  let sum := t_k + carry in
  let t_k := as_u64 sum in
  let overflow := as_u64 (0 + Z.shiftr sum 64) in
  let t0 := nth 0 t 0 in
  let m := as_u64 (t0 * n0inv) in
  let low := t0 + m * nth 0 n 0 in
  let '(t, carry) := mul_add (tail t) (tail n) m (Z.shiftr low 64) in
  let sum := t_k + carry in
  (t ++ [as_u64 sum], as_u64 (overflow + Z.shiftr sum 64)).

Definition mont_mul (m : Modulus) (a b : list Z) : list Z :=
  let k := length m.(md_n) in
  let '(t, t_k) := fold_left (mont_step m.(md_n) m.(md_n0inv) a) (take k b) (repeat 0 k, 0) in
  reduce_once t_k t m.(md_n).

(** ** The modulus *)

Definition Modulus_new (bytes : list byte) : result BigError Modulus :=
  n ← limbs_from_be bytes;
  match n with
  | [] => Err ModulusTooSmall
  | n0 :: rest =>
      if Z.land n0 1 =? 0 then Err NotOddModulus
      else if bool_decide (rest = []) && (n0 <? 3) then Err ModulusTooSmall
      else Ok (MkModulus n (as_u64 (- inv_2_64 n0)) (compute_r2 n))
  end.

Definition md_limbs (m : Modulus) : nat := length m.(md_n).

Definition leading_zeros (x : Z) : Z := if x =? 0 then 64 else 63 - Z.log2 x.

Definition md_byte_len (m : Modulus) : nat :=
  let top := nth (length m.(md_n) - 1) m.(md_n) 0 in
  ((length m.(md_n) - 1) * 8 + (8 - Z.to_nat (leading_zeros top / 8)))%nat.

(** [for i in (0..bits - 1).rev()]. *)
Fixpoint pow_bits (m : Modulus) (base_mont : list Z) (exponent : Z) (i : nat) (acc : list Z) : list Z :=
  match i with
  | O => acc
  | S i =>
      let acc := mont_mul m acc acc in
      let acc := if Z.land (Z.shiftr exponent (Z.of_nat i)) 1 =? 1 then mont_mul m acc base_mont else acc in
      pow_bits m base_mont exponent i acc
  end.

Definition pow (m : Modulus) (base : list byte) (exponent : Z) : result BigError (list byte) :=
  b ← limbs_from_be base;
  let k := length m.(md_n) in
  let b := resize b k in
  if negb (bool_decide (cmp b m.(md_n) = Lt)) then Err NotReduced
  else if exponent =? 0 then Ok (<[(md_byte_len m - 1)%nat := x01]> (repeat x00 (md_byte_len m)))
  else
    let base_mont := mont_mul m b m.(md_r2) in
    let bits := 64 - leading_zeros exponent in
    let acc := pow_bits m base_mont exponent (Z.to_nat (bits - 1)) base_mont in
    let result := mont_mul m acc (1 :: repeat 0 (k - 1)) in
    Ok (limbs_to_be result (md_byte_len m)).

(** The loop's base is used at its low limbs even when it has more: [resize] cuts. *)
Example a_long_base_is_cut :
  (m ← Modulus_new [x65]; pow m (x01 :: repeat x00 7 ++ [x02]) 3) = Ok [x08].
Proof. vm_compute. reflexivity. Qed.

Example a_short_power : (m ← Modulus_new [xff; xff; xff; xff; xff; xff; xff; xff; xfb]; pow m [x7b; x00; x00; x01; x00; x00; x00; x00; x02] 65537) =
  Ok (to_be_bytes 9 (Zpow_mod (from_be_bytes [x7b; x00; x00; x01; x00; x00; x00; x00; x02]) 65537 (from_be_bytes [xff; xff; xff; xff; xff; xff; xff; xff; xfb]))).
Proof. vm_compute. reflexivity. Qed.

(** ** The loops over limbs *)

Lemma cmp_spec k a b : limbs k a -> limbs k b -> cmp a b = Z.compare (val a) (val b).
Proof.
  unfold cmp. revert a b; induction k as [|k IH]; intros a b Ha Hb; [by apply limbs_0_inv in Ha as ->, Hb as ->|].
  apply limbs_snoc_inv in Ha as (a' & x & -> & Ha & Hx). apply limbs_snoc_inv in Hb as (b' & y & -> & Hb & Hy).
  rewrite !rev_app_distr. cbn [rev app cmp_top]. rewrite (IH a' b') by done. rewrite !val_app. destruct Ha as [La Ha], Hb as [Lb Hb]. rewrite La, Lb.
  pose proof (val_range k a' (conj La Ha)). pose proof (val_range k b' (conj Lb Hb)). cbn [val]. rewrite !Z.mul_0_r, !Z.add_0_r.
  destruct (Z.compare_spec x y) as [->|Hlt|Hgt].
  - destruct (Z.compare_spec (val a') (val b')); symmetry; [apply Z.compare_eq_iff|apply Z.compare_lt_iff|apply Z.compare_gt_iff]; lia.
  - symmetry. apply Z.compare_lt_iff. nia.
  - symmetry. apply Z.compare_gt_iff. nia.
Qed.

Lemma sub_in_place_spec k a b w : limbs k a -> limbs k b -> 0 <= w <= 1 ->
  limbs k (sub_in_place a b w) /\ exists out, 0 <= out <= 1 /\ val (sub_in_place a b w) = val a - val b - w + cap k * out.
Proof.
  revert a b w; induction k as [|k IH]; intros a b w Ha Hb Hw.
  { apply limbs_0_inv in Ha as ->, Hb as ->. split; [done|]. exists w. rewrite cap_0. cbn. lia. }
  apply limbs_inv in Ha as (x & a' & -> & Hx & Ha). apply limbs_inv in Hb as (y & b' & -> & Hy & Hb). unfold u64_ok in *. cbn [sub_in_place].
  destruct (as_u64_sub (x - y) ltac:(lia)) as [Hd Ed]. replace (x <? y) with (x - y <? 0) by (destruct (Z.ltb_spec (x - y) 0), (Z.ltb_spec x y); done || lia).
  set (d := as_u64 (x - y)) in *. unfold u64_ok in Hd. destruct (as_u64_sub (d - w) ltac:(lia)) as [Hd' Ed'].
  replace (d <? w) with (d - w <? 0) by (destruct (Z.ltb_spec (d - w) 0), (Z.ltb_spec d w); done || lia).
  assert (Hor : Z.lor (Z.b2z (x - y <? 0)) (Z.b2z (d - w <? 0)) = Z.b2z (x - y <? 0) + Z.b2z (d - w <? 0) /\
    0 <= Z.b2z (x - y <? 0) + Z.b2z (d - w <? 0) <= 1).
  { clearbody d. revert Ed Ed'. destruct (Z.ltb_spec (x - y) 0), (Z.ltb_spec (d - w) 0); cbn [Z.b2z]; intros; first [exfalso; lia|split; [reflexivity|lia]]. }
  destruct Hor as [-> H01]. destruct (IH a' b' _ Ha Hb H01) as [Hr (out & Ho & Ev)].
  split; [by apply limbs_cons|]. exists out. split; [done|]. cbn [val]. rewrite cap_S, Ev. lia.
Qed.

(** The conditional subtraction, with the bit above the limbs. *)
Lemma reduce_once_spec k carry a n : limbs k a -> limbs k n -> 0 <= carry <= 1 -> val a + cap k * carry < 2 * val n ->
  limbs k (reduce_once carry a n) /\ val (reduce_once carry a n) = (val a + cap k * carry) mod val n.
Proof.
  intros Ha Hn Hc Hlt. pose proof (val_range _ _ Ha). pose proof (val_range _ _ Hn). pose proof (cap_pos k). unfold reduce_once.
  destruct (sub_in_place_spec k a n 0 Ha Hn ltac:(lia)) as [Hr (out & Ho & Ev)]. pose proof (val_range _ _ Hr).
  rewrite (cmp_spec k a n Ha Hn). destruct (Z.eqb_spec carry 0) as [->|Hne]; cbn [negb orb].
  - destruct (Z.compare_spec (val a) (val n)) as [E|E|E].
    1, 3: rewrite bool_decide_false by done; cbn [negb]; split; [done|]; rewrite Ev; assert (out = 0 \/ out = 1) as [-> | ->] by lia; try lia; apply Z.mod_unique_pos with 1; lia.
    rewrite bool_decide_true by done. cbn [negb]. split; [done|]. rewrite Z.mod_small; lia.
  - assert (carry = 1) as -> by lia. split; [done|]. rewrite Ev. assert (out = 0 \/ out = 1) as [-> | ->] by lia; [lia|]. apply Z.mod_unique_pos with 1; lia.
Qed.

Lemma double_limbs_spec k a c : limbs k a -> 0 <= c <= 1 ->
  exists r out, double_limbs a c = (r, out) /\ limbs k r /\ 0 <= out <= 1 /\ val r + cap k * out = 2 * val a + c.
Proof.
  assert (E : forall a c, double_limbs a c = shl_loop a c).
  { induction a0 as [|x a0 IH]; intros c0; [done|]. cbn [double_limbs shl_loop]. rewrite IH. by destruct (shl_loop a0 _). }
  intros Ha Hc. rewrite E. destruct (shl_loop_spec k a c Ha Hc) as (r & out & Es & Hr & Ho & Ev & _). exists r, out. split_and!; try done; lia.
Qed.

Lemma double_mod_spec k n acc : limbs k n -> limbs k acc -> val acc < val n ->
  limbs k (double_mod n acc) /\ val (double_mod n acc) = (2 * val acc) mod val n.
Proof.
  intros Hn Ha Hlt. unfold double_mod. destruct (double_limbs_spec k acc 0 Ha ltac:(lia)) as (r & out & -> & Hr & Ho & Ev).
  destruct (reduce_once_spec k out r n Hr Hn Ho) as [H1 H2]; [lia|]. split; [done|]. by rewrite H2, Ev, Z.add_0_r.
Qed.

Lemma one_limbs k : (1 <= k)%nat -> limbs k (1 :: repeat 0 (k - 1)) /\ val (1 :: repeat 0 (k - 1)) = 1.
Proof.
  intros Hk. replace k with (S (k - 1)) at 1 by lia. split; [apply limbs_cons; split; [done|apply limbs_zeros]|]. cbn [val]. rewrite val_zeros. lia.
Qed.

Lemma compute_r2_spec n : (1 <= length n)%nat -> limbs (length n) n -> 1 < val n ->
  limbs (length n) (compute_r2 n) /\ val (compute_r2 n) = (cap (length n) * cap (length n)) mod val n.
Proof.
  intros Hk Hn H1. unfold compute_r2. set (k := length n) in *. destruct (one_limbs k Hk) as [Hl Hv].
  assert (H : forall i, limbs k (Nat.iter i (double_mod n) (1 :: repeat 0 (k - 1))) /\ val (Nat.iter i (double_mod n) (1 :: repeat 0 (k - 1))) = 2 ^ Z.of_nat i mod val n).
  { induction i as [|i [IH1 IH2]]; [split; [exact Hl|change (2 ^ Z.of_nat 0) with 1; rewrite Z.mod_small by lia; exact Hv]|]. cbn [Nat.iter nat_rect].
    change (nat_rect _ _ _ i) with (Nat.iter i (double_mod n) (1 :: repeat 0 (k - 1))). pose proof (Z.mod_pos_bound (2 ^ Z.of_nat i) (val n) ltac:(lia)).
    destruct (double_mod_spec k n _ Hn IH1 ltac:(lia)) as [D1 D2]. split; [exact D1|]. rewrite D2, IH2, Z.mul_mod_idemp_r by lia.
    by rewrite Nat2Z.inj_succ, Z.pow_succ_r by lia. }
  destruct (H (2 * 64 * k)%nat) as [D1 D2]. split; [exact D1|]. rewrite D2. f_equal. unfold cap. rewrite <- Z.pow_add_r by lia. f_equal. lia.
Qed.

(** ** The inverse of the low limb *)

Lemma as_u64_cong z : exists q, as_u64 z = z - 2 ^ 64 * q.
Proof. exists (z / 2 ^ 64). unfold as_u64. pose proof (Z.div_mod z (2 ^ 64) ltac:(lia)). lia. Qed.

(** A step of Newton squares what is missing. *)
Lemma newton_spec x inv j : 0 <= j <= 32 -> (2 ^ j | 1 - x * inv) -> (2 ^ (2 * j) | 1 - x * newton x inv).
Proof.
  intros Hj [q Hq]. unfold newton. destruct (as_u64_cong (x * inv)) as [q1 ->]. destruct (as_u64_cong (2 - (x * inv - 2 ^ 64 * q1))) as [q2 ->].
  destruct (as_u64_cong (inv * (2 - (x * inv - 2 ^ 64 * q1) - 2 ^ 64 * q2))) as [q3 ->].
  assert (E64 : 2 ^ 64 = 2 ^ (2 * j) * 2 ^ (64 - 2 * j)) by (rewrite <- Z.pow_add_r by lia; f_equal; lia).
  exists (q * q - x * 2 ^ (64 - 2 * j) * (inv * q1 - inv * q2 - q3)).
  transitivity ((1 - x * inv) * (1 - x * inv) - x * (inv * q1 - inv * q2 - q3) * 2 ^ 64); [ring|].
  rewrite Hq, E64. replace (2 * j) with (j + j) by lia. rewrite Z.pow_add_r by lia. ring.
Qed.

Lemma inv_2_64_spec x : Z.odd x = true -> (2 ^ 64 | 1 - x * inv_2_64 x).
Proof.
  intros Hx. unfold inv_2_64. assert (H0 : (2 ^ 1 | 1 - x * 1)).
  { apply Zodd_bool_iff, Zodd_ex_iff in Hx as [m ->]. exists (- m). lia. }
  cbn [Nat.iter nat_rect]. apply (newton_spec x _ 32 ltac:(lia)), (newton_spec x _ 16 ltac:(lia)), (newton_spec x _ 8 ltac:(lia)),
    (newton_spec x _ 4 ltac:(lia)), (newton_spec x _ 2 ltac:(lia)), (newton_spec x _ 1 ltac:(lia)). exact H0.
Qed.

(** ** Montgomery multiplication *)

(** The sums fit 128 bits, and the carry a limb. *)
Lemma sum_fits x y b c : u64_ok x -> u64_ok y -> u64_ok b -> u64_ok c -> 0 <= x + y * b + c < 2 ^ 128 /\ u64_ok (Z.shiftr (x + y * b + c) 64).
Proof.
  unfold u64_ok. intros Hx Hy Hb Hc. assert (H : 0 <= y * b <= (2 ^ 64 - 1) * (2 ^ 64 - 1)) by (split; [lia|apply Z.mul_le_mono_nonneg; lia]).
  split; [lia|]. rewrite Z.shiftr_div_pow2 by lia. split; [apply Z.div_pos; lia|apply Z.div_lt_upper_bound; lia].
Qed.

Lemma mul_add_spec k t a b c : limbs k t -> limbs k a -> u64_ok b -> u64_ok c ->
  exists r c', mul_add t a b c = (r, c') /\ limbs k r /\ u64_ok c' /\ val r + cap k * c' = val t + val a * b + c.
Proof.
  revert t a c; induction k as [|k IH]; intros t a c Ht Ha Hb Hc.
  { apply limbs_0_inv in Ht as ->, Ha as ->. exists [], c. rewrite cap_0. cbn. split_and!; [done|done|done|lia]. }
  apply limbs_inv in Ht as (x & t' & -> & Hx & Ht). apply limbs_inv in Ha as (y & a' & -> & Hy & Ha). cbn [mul_add].
  destruct (sum_fits x y b c Hx Hy Hb Hc) as [Hs Hcar]. destruct (as_u64_split (x + y * b + c) ltac:(lia)) as [Hu Es].
  destruct (IH t' a' _ Ht Ha Hb Hcar) as (r & c' & -> & Hr & Hc' & Ev). eexists _, c'. split; [done|]. split; [by apply limbs_cons|]. split; [done|].
  cbn [val]. rewrite cap_S. lia.
Qed.

Lemma limbs_snoc k a x : limbs k a -> u64_ok x -> limbs (S k) (a ++ [x]).
Proof. intros [Hl Hf] Hx. split; [rewrite length_app; cbn; lia|]. apply Forall_app. by split; [|apply Forall_singleton]. Qed.

Section montgomery.
Context (k : nat) (n : list Z) (n0inv : Z) (Hn : limbs (S k) n) (Hinv : (2 ^ 64 | 1 + nth 0 n 0 * n0inv)) (Hlow : u64_ok n0inv).

(** The accumulator with its top limb. *)
Definition total (st : list Z * Z) : Z := val st.1 + cap (S k) * st.2.

Definition accumulator (st : list Z * Z) : Prop := limbs (S k) st.1 /\ u64_ok st.2 /\ total st < 2 * val n.

(** One turn adds [a * b_i] and a multiple of [n], and drops a limb of zeros. *)
Lemma mont_step_spec a b_i st : limbs (S k) a -> val a < val n -> u64_ok b_i -> accumulator st ->
  accumulator (mont_step n n0inv a st b_i) /\ exists q, 2 ^ 64 * total (mont_step n n0inv a st b_i) = total st + val a * b_i + q * val n.
Proof.
  intros Ha Han Hb (Ht & Hk & Htot). destruct st as [t t_k]. unfold total in *. cbn [fst snd] in *. unfold mont_step.
  destruct (mul_add_spec (S k) t a b_i 0 Ht Ha Hb ltac:(unfold u64_ok; lia)) as (t1 & c1 & -> & Ht1 & Hc1 & E1).
  destruct (as_u64_split (t_k + c1) ltac:(unfold u64_ok in *; lia)) as [Htk Es1]. set (tk1 := as_u64 (t_k + c1)) in *. set (o1 := Z.shiftr (t_k + c1) 64) in *.
  assert (Ho1 : 0 <= o1 <= 1) by (unfold u64_ok in *; lia). rewrite Z.add_0_l, (as_u64_small o1) by (unfold u64_ok; lia).
  apply limbs_inv in Ht1 as (t0 & t1' & -> & Ht0 & Ht1). pose proof Hn as Hn'. apply limbs_inv in Hn' as (n0 & n' & -> & Hn0 & Hn'). cbn [nth tail val] in *.
  pose proof (as_u64_ok (t0 * n0inv)) as Hm. set (m := as_u64 (t0 * n0inv)) in *.
  assert (Hlow0 : exists h, t0 + m * n0 = 2 ^ 64 * h).
  { unfold m. destruct (as_u64_cong (t0 * n0inv)) as [q ->]. destruct Hinv as [h Hh]. exists (t0 * h - q * n0).
    transitivity (t0 * (1 + n0 * n0inv) - 2 ^ 64 * q * n0); [ring|]. rewrite Hh. ring. }
  destruct Hlow0 as [h Hh]. assert (Hsh : Z.shiftr (t0 + m * n0) 64 = h) by (rewrite Hh, Z.shiftr_div_pow2 by lia; rewrite Z.mul_comm; apply Z.div_mul; lia).
  assert (Hhu : u64_ok h).
  { destruct (sum_fits t0 n0 m 0 Ht0 Hn0 Hm ltac:(unfold u64_ok; lia)) as [_ Hx0]. rewrite Z.add_0_r, (Z.mul_comm n0) in Hx0. by rewrite Hsh in Hx0. }
  rewrite Hsh. destruct (mul_add_spec k t1' n' m h Ht1 Hn' Hm Hhu) as (t2 & c2 & -> & Ht2 & Hc2 & E2).
  destruct (as_u64_split (tk1 + c2) ltac:(unfold u64_ok in *; lia)) as [Htk2 Es2]. set (x := as_u64 (tk1 + c2)) in *. set (o2 := Z.shiftr (tk1 + c2) 64) in *.
  assert (Ho2 : 0 <= o2 <= 1) by (unfold u64_ok in *; lia). rewrite (as_u64_small (o1 + o2)) by (unfold u64_ok; lia).
  unfold accumulator, total. cbn [fst snd]. rewrite val_app, (proj1 Ht2), ?H. cbn [val]. rewrite cap_S in *.
  assert (Ev : 2 ^ 64 * (val t2 + cap k * (x + 2 ^ 64 * 0) + 2 ^ 64 * cap k * (o1 + o2)) = val t + 2 ^ 64 * cap k * t_k + val a * b_i + m * (n0 + 2 ^ 64 * val n')).
  { assert (A1 : cap k * (x + 2 ^ 64 * o2) = cap k * tk1 + cap k * c2) by (rewrite <- Es2; ring).
    assert (A2 : cap k * (tk1 + 2 ^ 64 * o1) = cap k * t_k + cap k * c1) by (rewrite <- Es1; ring). lia. }
  pose proof (val_range _ _ Ha) as Hav. pose proof (val_range _ _ Hn') as Hnv. unfold u64_ok in *. split; [split_and!|].
  - by apply limbs_snoc.
  - lia.
  - lia.
  - assert (val a * b_i <= (n0 + 2 ^ 64 * val n') * (2 ^ 64 - 1)) by (apply Z.mul_le_mono_nonneg; lia).
    assert (m * (n0 + 2 ^ 64 * val n') <= (2 ^ 64 - 1) * (n0 + 2 ^ 64 * val n')) by (apply Z.mul_le_mono_nonneg_r; lia). lia.
  - exists m. exact Ev.
Qed.

Lemma mont_loop_spec a b st : limbs (S k) a -> val a < val n -> Forall u64_ok b -> accumulator st ->
  accumulator (fold_left (mont_step n n0inv a) b st) /\
  exists q, cap (length b) * total (fold_left (mont_step n n0inv a) b st) = total st + val a * val b + q * val n.
Proof.
  intros Ha Han. revert st; induction b as [|x b IH]; intros st Hb Hst; cbn [fold_left length].
  { split; [done|]. exists 0. rewrite cap_0. cbn [val]. lia. }
  apply Forall_cons in Hb as [Hx Hb]. destruct (mont_step_spec a x st Ha Han Hx Hst) as [H1 [q1 E1]].
  destruct (IH _ Hb H1) as [H2 [q2 E2]]. split; [exact H2|]. exists (q1 + 2 ^ 64 * q2). rewrite cap_S. cbn [val].
  rewrite <- Z.mul_assoc, E2, !Z.mul_add_distr_l, E1. ring.
Qed.

End montgomery.

(** A modulus the code may compute with. *)
Record modulus_ok (m : Modulus) : Prop := {
  mk_limbs : limbs (length m.(md_n)) m.(md_n);
  mk_size : 3 <= val m.(md_n);
  mk_odd : Z.odd (val m.(md_n)) = true;
  mk_inv : u64_ok m.(md_n0inv) /\ (2 ^ 64 | 1 + nth 0 m.(md_n) 0 * m.(md_n0inv));
  mk_r2 : m.(md_r2) = compute_r2 m.(md_n) }.

Lemma modulus_nonempty m : modulus_ok m -> exists k, length m.(md_n) = S k.
Proof. intros [_ Hs _ _ _]. destruct (md_n m) as [|x l]; [cbn in Hs; lia|]. by exists (length l). Qed.

(** Congruent modulo [n]. *)
Definition cong (n a b : Z) : Prop := (n | a - b).

Lemma cong_mod n a b : 0 < n -> cong n a b -> a mod n = b mod n.
Proof. intros Hn [q Hq]. replace a with (b + q * n) by lia. by apply Z.mod_add; lia. Qed.

Lemma mod_cong n a : 0 < n -> cong n (a mod n) a.
Proof. intros Hn. exists (- (a / n)). pose proof (Z.div_mod a n ltac:(lia)). lia. Qed.

Lemma cong_trans n a b c : cong n a b -> cong n b c -> cong n a c.
Proof. intros [p Hp] [q Hq]. exists (p + q). lia. Qed.

Lemma cong_sym n a b : cong n a b -> cong n b a.
Proof. intros [p Hp]. exists (- p). lia. Qed.

Lemma cong_mul n a b c d : cong n a b -> cong n c d -> cong n (a * c) (b * d).
Proof. intros [p Hp] [q Hq]. exists (p * c + b * q). transitivity ((a - b) * c + b * (c - d)); [ring|]. rewrite Hp, Hq. ring. Qed.

Lemma odd_cancel n j x : Z.odd n = true -> (n | 2 ^ Z.of_nat j * x) -> (n | x).
Proof.
  intros Ho. apply Zodd_bool_iff, Zodd_ex_iff in Ho as [r Hr]. revert x; induction j as [|j IH]; intros x H.
  { change (2 ^ Z.of_nat 0) with 1 in H. by rewrite Z.mul_1_l in H. }
  rewrite Nat2Z.inj_succ, Z.pow_succ_r in H by lia. replace (2 * 2 ^ Z.of_nat j * x) with (2 ^ Z.of_nat j * (2 * x)) in H by ring. apply IH in H as [q Hq].
  exists (x - q * r). subst n. assert (q = 2 * (x - q * r)) as Eq by lia. lia.
Qed.

(** The limbs' capacity can be cancelled modulo an odd number. *)
Lemma cong_cancel n k a b : Z.odd n = true -> cong n (cap k * a) (cap k * b) -> cong n a b.
Proof.
  intros Ho H. unfold cong in *. rewrite <- Z.mul_sub_distr_l in H. unfold cap in H. replace (64 * Z.of_nat k) with (Z.of_nat (64 * k)) in H by lia.
  by apply odd_cancel in H.
Qed.

Lemma mont_mul_spec m a b : modulus_ok m -> limbs (length (md_n m)) a -> val a < val (md_n m) -> limbs (length (md_n m)) b ->
  limbs (length (md_n m)) (mont_mul m a b) /\ 0 <= val (mont_mul m a b) < val (md_n m) /\
  cong (val (md_n m)) (cap (length (md_n m)) * val (mont_mul m a b)) (val a * val b).
Proof.
  intros Hm Ha Han Hb. destruct (modulus_nonempty m Hm) as [k Hk]. destruct Hm as [Hn Hsize Hodd [Hiu Hinv] _]. unfold mont_mul. rewrite Hk in *.
  rewrite take_ge by (destruct Hb; lia).
  assert (H0 : accumulator k (md_n m) (repeat 0 (S k), 0)).
  { split; [apply limbs_zeros|]. split; [unfold u64_ok; cbn; lia|]. unfold total. cbn [fst snd]. rewrite val_zeros. lia. }
  destruct (mont_loop_spec k (md_n m) (md_n0inv m) Hn Hinv a b _ Ha Han (proj2 Hb) H0) as [(H1 & H2 & H3) [q Eq]].
  destruct (fold_left _ b _) as [t t_k]. unfold total in *. cbn [fst snd] in *. rewrite val_zeros, (proj1 Hb) in Eq.
  pose proof (val_range _ _ H1). pose proof (val_range _ _ Hn). pose proof (cap_pos (S k)). unfold u64_ok in H2.
  assert (t_k <= 1) by nia. destruct (reduce_once_spec (S k) t_k t (md_n m) H1 Hn ltac:(lia) ltac:(lia)) as [R1 R2].
  split; [exact R1|]. rewrite R2. split; [apply Z.mod_pos_bound; lia|].
  eapply cong_trans; [apply (cong_mul _ _ (cap (S k))); [by exists 0; lia|apply mod_cong; lia]|]. exists q. lia.
Qed.

(** The Montgomery form of a number. *)
Definition mont (m : Modulus) (v : list Z) (x : Z) : Prop :=
  limbs (length (md_n m)) v /\ 0 <= val v < val (md_n m) /\ cong (val (md_n m)) (val v) (cap (length (md_n m)) * x).

Lemma mont_product m v w x y : modulus_ok m -> mont m v x -> mont m w y -> mont m (mont_mul m v w) (x * y).
Proof.
  intros Hm (Hv & Hvn & Ev) (Hw & Hwn & Ew). destruct (mont_mul_spec m v w Hm Hv ltac:(lia) Hw) as (R1 & R2 & R3).
  split; [done|]. split; [done|]. apply (cong_cancel _ (length (md_n m))); [apply Hm|]. eapply cong_trans; [exact R3|].
  eapply cong_trans; [exact (cong_mul _ _ _ _ _ Ev Ew)|]. exists 0. ring.
Qed.

Lemma mont_in m b : modulus_ok m -> limbs (length (md_n m)) b -> val b < val (md_n m) -> mont m (mont_mul m b (md_r2 m)) (val b).
Proof.
  intros Hm Hb Hbn. pose proof (mk_size m Hm). destruct (modulus_nonempty m Hm) as [k Hk].
  destruct (compute_r2_spec (md_n m) ltac:(lia) (mk_limbs m Hm) ltac:(lia)) as [Hr Er]. rewrite (mk_r2 m Hm).
  destruct (mont_mul_spec m b (compute_r2 (md_n m)) Hm Hb Hbn Hr) as (R1 & R2 & R3). split; [done|]. split; [done|].
  apply (cong_cancel _ (length (md_n m))); [apply Hm|]. eapply cong_trans; [exact R3|]. rewrite Er.
  eapply cong_trans; [apply (cong_mul _ (val b) (val b)); [by exists 0; lia|apply mod_cong; lia]|]. exists 0. ring.
Qed.

Lemma mont_out m v x : modulus_ok m -> mont m v x ->
  limbs (length (md_n m)) (mont_mul m v (1 :: repeat 0 (length (md_n m) - 1))) /\
  val (mont_mul m v (1 :: repeat 0 (length (md_n m) - 1))) = x mod val (md_n m).
Proof.
  intros Hm (Hv & Hvn & Ev). pose proof (mk_size m Hm). destruct (modulus_nonempty m Hm) as [k Hk].
  destruct (one_limbs (length (md_n m)) ltac:(lia)) as [H1 E1].
  destruct (mont_mul_spec m v _ Hm Hv ltac:(lia) H1) as (R1 & R2 & R3). split; [done|]. rewrite E1, Z.mul_1_r in R3.
  rewrite <- (Z.mod_small (val _) (val (md_n m)) R2). apply cong_mod; [lia|]. apply (cong_cancel _ (length (md_n m))); [apply Hm|].
  eapply cong_trans; [exact R3|exact Ev].
Qed.

(** Square and multiply. *)
Lemma pow_bits_spec m bm b e i acc : modulus_ok m -> 0 <= e -> mont m bm b -> mont m acc (b ^ (e / 2 ^ Z.of_nat i)) ->
  mont m (pow_bits m bm e i acc) (b ^ e).
Proof.
  intros Hm He Hb. revert acc; induction i as [|i IH]; intros acc Ha; cbn [pow_bits].
  { change (2 ^ Z.of_nat 0) with 1 in Ha. by rewrite Z.div_1_r in Ha. }
  apply IH. rewrite Nat2Z.inj_succ, Z.pow_succ_r, (Z.mul_comm 2), <- Z.div_div in Ha by (try apply Z.pow_pos_nonneg; try apply Z.pow_nonzero; lia).
  set (f := e / 2 ^ Z.of_nat i) in *. assert (0 <= f) by (apply Z.div_pos; [lia|apply Z.pow_pos_nonneg; lia]).
  rewrite Z.shiftr_div_pow2 by lia. fold f. change 1 with (Z.ones 1) at 1. rewrite Z.land_ones by lia. change (2 ^ 1) with 2.
  pose proof (Z.div_mod f 2 ltac:(lia)) as Hf. pose proof (Z.mod_pos_bound f 2 ltac:(lia)). pose proof (Z.div_pos f 2 ltac:(lia) ltac:(lia)).
  pose proof (mont_product m acc acc _ _ Hm Ha Ha) as Hsq. rewrite <- Z.pow_add_r in Hsq by lia.
  destruct (Z.eqb_spec (f mod 2) 1) as [E|E].
  - pose proof (mont_product m _ bm _ _ Hm Hsq Hb) as Hp. rewrite <- (Z.pow_1_r b) in Hp at 2. rewrite <- Z.pow_add_r in Hp by lia.
    by replace (f / 2 + f / 2 + 1) with f in Hp by lia.
  - by replace (f / 2 + f / 2) with f in Hsq by lia.
Qed.

(** ** Bytes *)

Lemma trim_zeros_spec bytes : from_be_bytes (trim_zeros bytes) = from_be_bytes bytes /\ (length (trim_zeros bytes) <= length bytes)%nat /\
  match trim_zeros bytes with [] => True | b :: _ => u8v b <> 0 end.
Proof.
  induction bytes as [|b l (H1 & H2 & H3)]; cbn [trim_zeros]; [done|]. destruct (bool_decide_reflect (b = x00)) as [->|Hb].
  - rewrite from_be_cons. change (u8v x00) with 0. cbn [length]. split; [lia|]. split; [lia|done].
  - split; [done|]. split; [done|]. intros E. by apply Hb, u8v_inj.
Qed.

Lemma rchunks8_spec fuel l : (length l <= fuel)%nat ->
  limbs ((length l + 7) / 8) (limb_of <$> rchunks8 fuel l) /\ val (limb_of <$> rchunks8 fuel l) = from_be_bytes l.
Proof.
  revert l; induction fuel as [|fuel IH]; intros l Hl; [by destruct l; [|cbn in Hl; lia]|].
  destruct l as [|b l]; [done|]. cbn [rchunks8]. set (m := b :: l) in *. assert (Hm : (1 <= length m)%nat) by (unfold m; cbn; lia). clearbody m. clear b l.
  rewrite fmap_cons. destruct (IH (take (length m - 8) m)) as [L V]; [rewrite length_take; lia|]. rewrite length_take in L.
  assert (Hd : length (drop (length m - 8) m) = Nat.min 8 (length m)) by (rewrite length_drop; lia).
  assert (Elimb : limb_of (drop (length m - 8) m) = from_be_bytes (drop (length m - 8) m)) by (apply fold_u64; lia).
  pose proof (from_be_bytes_range (drop (length m - 8) m)) as Hr. rewrite Hd in Hr.
  assert (256 ^ Z.of_nat (Nat.min 8 (length m)) <= 2 ^ 64) by (change (2 ^ 64) with (256 ^ 8); apply Z.pow_le_mono_r; lia).
  assert (Hk : ((length m + 7) / 8 = S ((Nat.min (length m - 8) (length m) + 7) / 8))%nat).
  { destruct (Nat.le_gt_cases 8 (length m)).
    - replace (length m + 7)%nat with (Nat.min (length m - 8) (length m) + 7 + 1 * 8)%nat by lia. rewrite Nat.div_add by lia. lia.
    - replace (Nat.min (length m - 8) (length m) + 7)%nat with 7%nat by lia. change (S (7 / 8)) with 1%nat. symmetry. apply Nat.div_unique with (length m - 1)%nat; lia. }
  rewrite Hk, Elimb. split; [apply limbs_cons; split; [unfold u64_ok; lia|exact L]|]. cbn [val]. rewrite V.
  assert (Em : from_be_bytes m = 256 ^ Z.of_nat (length (drop (length m - 8) m)) * from_be_bytes (take (length m - 8) m) + from_be_bytes (drop (length m - 8) m))
    by (by rewrite <- from_be_app, take_drop).
  rewrite Em, Hd. destruct (Nat.le_gt_cases 8 (length m)).
  - replace (Nat.min 8 (length m)) with 8%nat by lia. change (256 ^ Z.of_nat 8) with (2 ^ 64). lia.
  - replace (length m - 8)%nat with 0%nat by lia. rewrite take_0. change (from_be_bytes []) with 0. lia.
Qed.

Lemma limbs_from_be_spec bytes : (length (trim_zeros bytes) <= MAX_LIMBS * 8)%nat ->
  exists l, limbs_from_be bytes = Ok l /\ limbs (length l) l /\ val l = from_be_bytes bytes /\ length l = ((length (trim_zeros bytes) + 7) / 8)%nat.
Proof.
  intros Hl. destruct (trim_zeros_spec bytes) as (H1 & H2 & _). unfold limbs_from_be.
  replace (_ <? _)%nat with false by (symmetry; apply Nat.ltb_ge; lia).
  destruct (rchunks8_spec (length (trim_zeros bytes)) (trim_zeros bytes) ltac:(done)) as [L V].
  eexists. split; [done|]. rewrite (proj1 L). split; [exact L|]. split; [congruence|done].
Qed.

Lemma to_le_app a b v : to_le_bytes (a + b) v = to_le_bytes a v ++ to_le_bytes b (v / 256 ^ Z.of_nat a).
Proof.
  revert v; induction a as [|a IH]; intros v; cbn [Nat.add to_le_bytes app]; [change (256 ^ Z.of_nat 0) with 1; by rewrite Z.div_1_r|].
  rewrite IH, Z.div_div by (try apply Z.pow_pos_nonneg; lia). by rewrite Nat2Z.inj_succ, Z.pow_succ_r by lia.
Qed.

Lemma to_le_mod a v q : to_le_bytes a (v + 256 ^ Z.of_nat a * q) = to_le_bytes a v.
Proof.
  revert v q; induction a as [|a IH]; intros v q; cbn [to_le_bytes]; [done|]. rewrite Nat2Z.inj_succ, Z.pow_succ_r by lia. f_equal.
  - apply u8v_inj. rewrite !u8v_u8. replace (v + 256 * 256 ^ Z.of_nat a * q) with (v + (256 ^ Z.of_nat a * q) * 256) by ring. by rewrite Z.mod_add by lia.
  - replace (v + 256 * 256 ^ Z.of_nat a * q) with (v + (256 ^ Z.of_nat a * q) * 256) by ring. rewrite Z.div_add by lia. apply IH.
Qed.

Lemma limb_bytes k l : limbs k l -> concat (to_le_bytes 8 <$> l) = to_le_bytes (8 * k) (val l).
Proof.
  revert l; induction k as [|k IH]; intros l Hl; [by apply limbs_0_inv in Hl as ->|]. apply limbs_inv in Hl as (x & l' & -> & Hx & Hl).
  rewrite fmap_cons. cbn [concat val]. rewrite (IH l' Hl). replace (8 * S k)%nat with (8 + 8 * k)%nat by lia. rewrite to_le_app.
  change (2 ^ 64) with (256 ^ Z.of_nat 8). rewrite to_le_mod. f_equal. f_equal. change (256 ^ Z.of_nat 8) with (2 ^ 64). unfold u64_ok in Hx.
  rewrite (Z.mul_comm (2 ^ 64)), Z.div_add, Z.div_small by lia. lia.
Qed.

Lemma limbs_to_be_spec k l width : limbs k l -> (width <= 8 * k)%nat -> limbs_to_be l width = to_be_bytes width (val l).
Proof.
  intros Hl Hw. unfold limbs_to_be. rewrite (limb_bytes k l Hl), length_to_le_bytes. replace (width - 8 * k)%nat with 0%nat by lia.
  cbn [repeat]. rewrite app_nil_r. replace (8 * k)%nat with (width + (8 * k - width))%nat by lia. rewrite to_le_app.
  rewrite take_app_length' by (by rewrite length_to_le_bytes). done.
Qed.

(** ** The modulus, and the whole *)

Lemma log2_bytes x r : 1 <= r -> 256 ^ (r - 1) <= x < 256 ^ r -> 8 * (r - 1) <= Z.log2 x < 8 * r.
Proof.
  intros Hr Hx. change 256 with (2 ^ 8) in Hx. rewrite <- !Z.pow_mul_r in Hx by lia. pose proof (Z.pow_pos_nonneg 2 (8 * (r - 1)) ltac:(lia) ltac:(lia)).
  split; [apply Z.log2_le_pow2; lia|apply Z.log2_lt_pow2; lia].
Qed.

(** The width of the modulus is that of its bytes without leading zeros. *)
Lemma md_byte_len_spec m L : limbs ((L + 7) / 8) (md_n m) -> (1 <= L)%nat -> 256 ^ Z.of_nat (L - 1) <= val (md_n m) < 256 ^ Z.of_nat L ->
  md_byte_len m = L.
Proof.
  intros Hl HL Hv. unfold md_byte_len. set (k := ((L + 7) / 8 - 1)%nat). assert (Hk : ((L + 7) / 8 = S k)%nat).
  { assert (1 <= (L + 7) / 8)%nat by (apply Nat.div_le_lower_bound; lia). lia. }
  rewrite Hk in Hl. rewrite (proj1 Hl), Nat.sub_succ, Nat.sub_0_r. apply limbs_snoc_inv in Hl as (a & top & E & Ha & Htop). rewrite E in *.
  rewrite app_nth2, (proj1 Ha), Nat.sub_diag by (rewrite (proj1 Ha); lia). cbn [nth]. rewrite val_app, (proj1 Ha) in Hv. cbn [val] in Hv. rewrite Z.mul_0_r, Z.add_0_r in Hv.
  pose proof (val_range _ _ Ha) as Hr. assert (HL8 : (8 * k + 1 <= L <= 8 * k + 8)%nat).
  { pose proof (Nat.div_mod_eq (L + 7) 8). pose proof (Nat.mod_upper_bound (L + 7) 8 ltac:(lia)). lia. }
  set (r := (L - 8 * k)%nat). assert (Hcap : cap k = 256 ^ Z.of_nat (8 * k)) by (unfold cap; change 256 with (2 ^ 8); rewrite <- Z.pow_mul_r by lia; f_equal; lia).
  assert (Hpow : forall i, (8 * k <= i)%nat -> 256 ^ Z.of_nat i = cap k * 256 ^ Z.of_nat (i - 8 * k)) by (intros i Hi; rewrite Hcap, <- Z.pow_add_r by lia; f_equal; lia).
  rewrite (Hpow L), (Hpow (L - 1)%nat) in Hv by lia. pose proof (cap_pos k).
  assert (Hlo : 256 ^ Z.of_nat (L - 1 - 8 * k) <= top) by nia. assert (Hhi : top < 256 ^ Z.of_nat (L - 8 * k)) by nia.
  destruct (log2_bytes top (Z.of_nat r)) as [G1 G2]; [unfold r; lia|unfold r; replace (Z.of_nat (L - 8 * k) - 1) with (Z.of_nat (L - 1 - 8 * k)) by lia; lia|].
  unfold leading_zeros. pose proof (Z.pow_pos_nonneg 256 (Z.of_nat (L - 1 - 8 * k)) ltac:(lia) ltac:(lia)).
  replace (top =? 0) with false by (symmetry; apply Z.eqb_neq; lia).
  assert (Hq : (63 - Z.log2 top) / 8 = 8 - Z.of_nat r) by (symmetry; apply (Z.div_unique_pos _ 8 _ (63 - Z.log2 top - 8 * (8 - Z.of_nat r))); lia). rewrite Hq. unfold r in *. lia.
Qed.

Lemma from_be_lower b l : u8v b <> 0 -> 256 ^ Z.of_nat (length l) <= from_be_bytes (b :: l).
Proof. intros Hb. rewrite from_be_cons. pose proof (u8v_range b). pose proof (from_be_bytes_range l). pose proof (Z.pow_pos_nonneg 256 (Z.of_nat (length l)) ltac:(lia) ltac:(lia)). nia. Qed.

Lemma low_limb_odd x l : u64_ok x -> Z.odd (x + 2 ^ 64 * l) = Z.odd x.
Proof. intros _. rewrite Z.odd_add, Z.odd_mul. cbn [Z.odd]. change (Z.odd (2 ^ 64)) with false. cbn [andb]. apply xorb_false_r. Qed.

(** A number is taken for a modulus when it is odd and at least three. *)
Lemma Modulus_new_spec bytes :
  match Modulus_new bytes with
  | Ok m => modulus_ok m /\ val (md_n m) = from_be_bytes bytes /\ md_byte_len m = length (trim_zeros bytes) /\
      (1 <= md_byte_len m <= 8 * length (md_n m))%nat /\ (length (md_n m) <= MAX_LIMBS)%nat
  | Err e => (MAX_LIMBS * 8 < length (trim_zeros bytes))%nat \/ Z.odd (from_be_bytes bytes) = false \/ from_be_bytes bytes < 3
  end.
Proof.
  unfold Modulus_new. destruct (Nat.le_gt_cases (length (trim_zeros bytes)) (MAX_LIMBS * 8)) as [Hl|Hl].
  2: { unfold limbs_from_be. replace (_ <? _)%nat with true by (symmetry; by apply Nat.ltb_lt). by left. }
  destruct (limbs_from_be_spec bytes Hl) as (n & -> & Hn & Ev & El). cbn [mbind result_bind].
  destruct n as [|n0 rest]; [right; right; rewrite <- Ev; cbn; lia|]. set (n := n0 :: rest) in *. pose proof Hn as Hn'. apply limbs_cons in Hn' as [Hn0 Hrest].
  change 1 with (Z.ones 1) at 1. rewrite Z.land_ones, Zmod_odd by lia. assert (Hodd : Z.odd (from_be_bytes bytes) = Z.odd n0) by (rewrite <- Ev; cbn [n val]; by apply low_limb_odd).
  destruct (Z.odd n0) eqn:Eo; [change (1 =? 0) with false; cbn iota|right; left; exact Hodd].
  destruct (_ && _) eqn:Es.
  { apply andb_true_iff in Es as [->%bool_decide_eq_true H3%Z.ltb_lt]. right. right. rewrite <- Ev. cbn. lia. }
  assert (H3 : 3 <= val n).
  { pose proof (val_range _ _ Hrest). cbn [n val]. unfold u64_ok in Hn0. apply andb_false_iff in Es as [Es|Es%Z.ltb_ge]; [|lia].
    assert (Hv0 : val rest <> 0 \/ 3 <= n0); [|lia]. left. intros E0. apply bool_decide_eq_false in Es. apply Es.
    destruct (trim_zeros_spec bytes) as (T1 & T2 & T3). destruct (trim_zeros bytes) as [|b t] eqn:Et; [cbn in El; discriminate|].
    destruct rest as [|x rest]; [done|]. exfalso. pose proof (from_be_lower b t T3) as Hlo. rewrite T1, <- Ev in Hlo. cbn [n val] in Hlo, E0. rewrite E0 in Hlo.
    assert (Hlen : (8 <= length t)%nat).
    { cbn [n length] in El. assert (2 * 8 <= S (length t) + 7)%nat; [|lia]. rewrite (Nat.div_mod_eq (S (length t) + 7) 8). rewrite <- El. lia. }
    assert (2 ^ 64 <= 256 ^ Z.of_nat (length t)) by (change (2 ^ 64) with (256 ^ 8); apply Z.pow_le_mono_r; lia). lia. }
  assert (Hne : (1 <= length (trim_zeros bytes))%nat) by (destruct (trim_zeros bytes); [cbn in El; discriminate|cbn; lia]).
  assert (Hw : md_byte_len (MkModulus n (as_u64 (- inv_2_64 n0)) (compute_r2 n)) = length (trim_zeros bytes)).
  { destruct (trim_zeros_spec bytes) as (T1 & T2 & T3). apply md_byte_len_spec; cbn [md_n]; [by rewrite <- El|done|].
    rewrite Ev, <- T1. split; [|apply from_be_bytes_range]. destruct (trim_zeros bytes) as [|b t]; [cbn in Hne; lia|].
    cbn [length]. rewrite Nat.sub_succ, Nat.sub_0_r. by apply from_be_lower. }
  rewrite Hw. split; [split; cbn [md_n md_n0inv md_r2]|split; [exact Ev|split; [done|]]].
  - exact Hn.
  - exact H3.
  - cbn [n val]. by rewrite low_limb_odd.
  - split; [apply as_u64_ok|]. cbn [n nth]. destruct (as_u64_cong (- inv_2_64 n0)) as [q ->]. destruct (inv_2_64_spec n0 Eo) as [h Hh].
    exists (h - n0 * q). rewrite Z.mul_sub_distr_l. transitivity ((1 - n0 * inv_2_64 n0) - n0 * q * 2 ^ 64); [ring|]. rewrite Hh. ring.
  - done.
  - cbn [md_n]. rewrite El. pose proof (Nat.div_mod_eq (length (trim_zeros bytes) + 7) 8). pose proof (Nat.mod_upper_bound (length (trim_zeros bytes) + 7) 8 ltac:(lia)). unfold MAX_LIMBS in *. lia.
Qed.

Lemma val_resize l k : limbs (length l) l -> (length l <= k)%nat -> limbs k (resize l k) /\ val (resize l k) = val l.
Proof.
  intros [_ Hf] Hk. unfold resize. rewrite take_ge by done. split.
  - split; [rewrite length_app, repeat_length; lia|]. apply Forall_app. split; [done|]. apply limbs_zeros.
  - rewrite val_app, val_zeros. lia.
Qed.

Lemma one_bytes w : (1 <= w)%nat -> <[(w - 1)%nat := x01]> (repeat x00 w) = to_be_bytes w 1.
Proof.
  intros Hw. destruct w as [|w]; [lia|]. rewrite Nat.sub_succ, Nat.sub_0_r. unfold to_be_bytes. cbn [to_le_bytes rev]. change (1 / 256) with 0. change (u8 1) with x01.
  assert (E : forall n, rev (to_le_bytes n 0) = repeat x00 n).
  { intros n. assert (Ez : to_le_bytes n 0 = repeat x00 n) by (induction n as [|n IH]; [done|]; cbn [to_le_bytes repeat]; f_equal; exact IH). rewrite Ez.
    clear. induction n as [|n IH]; [done|]. cbn [repeat rev]. rewrite IH. clear. induction n as [|n IH]; [done|]. cbn [repeat app]. by rewrite IH. }
  rewrite E. change (S w) with (1 + w)%nat. rewrite Nat.add_comm, repeat_app, insert_app_r_alt by (by rewrite repeat_length). by rewrite repeat_length, Nat.sub_diag.
Qed.

(** The code's exponentiation is that of the integers. *)
Lemma pow_spec m base e : modulus_ok m -> (length base <= md_byte_len m)%nat -> (1 <= md_byte_len m <= 8 * length (md_n m))%nat -> (length (md_n m) <= MAX_LIMBS)%nat ->
  u64_ok e ->
  pow m base e = if val (md_n m) <=? from_be_bytes base then Err NotReduced
                 else Ok (to_be_bytes (md_byte_len m) (from_be_bytes base ^ e mod val (md_n m))).
Proof.
  intros Hm Hb Hw Hk He. unfold pow. pose proof (mk_size m Hm). destruct (trim_zeros_spec base) as (_ & T2 & _).
  destruct (limbs_from_be_spec base) as (b & -> & Lb & Vb & Eb); [lia|]. cbn [mbind result_bind].
  assert (length b <= length (md_n m))%nat by (rewrite Eb; apply Nat.lt_succ_r, Nat.Div0.div_lt_upper_bound; lia).
  destruct (val_resize b (length (md_n m)) Lb ltac:(lia)) as [Lr Vr]. rewrite (cmp_spec _ _ _ Lr (mk_limbs m Hm)), Vr, Vb.
  destruct (Z.leb_spec (val (md_n m)) (from_be_bytes base)) as [Hge|Hlt].
  { by rewrite bool_decide_false by (rewrite Z.compare_lt_iff; lia). }
  rewrite bool_decide_true by (by apply Z.compare_lt_iff). cbn [negb]. destruct (Z.eqb_spec e 0) as [->|Hne].
  { rewrite one_bytes by lia. by rewrite Z.pow_0_r, Z.mod_small by lia. }
  unfold u64_ok in He. unfold leading_zeros. replace (e =? 0) with false by (symmetry; by apply Z.eqb_neq).
  replace (Z.to_nat (64 - (63 - Z.log2 e) - 1)) with (Z.to_nat (Z.log2 e)) by lia.
  pose proof (mont_in m (resize b (length (md_n m))) Hm Lr ltac:(lia)) as Hin. rewrite Vr, Vb in Hin. set (bm := mont_mul m _ (md_r2 m)) in *.
  pose proof (Z.log2_nonneg e). pose proof (Z.log2_spec e ltac:(lia)) as [G1 G2].
  assert (Htop : e / 2 ^ Z.of_nat (Z.to_nat (Z.log2 e)) = 1).
  { rewrite Z2Nat.id by lia. rewrite Z.pow_succ_r in G2 by lia. symmetry. apply (Z.div_unique_pos _ _ _ (e - 2 ^ Z.log2 e)); lia. }
  assert (Hp : mont m (pow_bits m bm e (Z.to_nat (Z.log2 e)) bm) (from_be_bytes base ^ e)).
  { apply pow_bits_spec; [done|lia|exact Hin|]. rewrite Htop, Z.pow_1_r. exact Hin. }
  destruct (mont_out m _ _ Hm Hp) as [Lo Vo]. f_equal. by rewrite (limbs_to_be_spec (length (md_n m))), Vo by (done || lia).
Qed.
