(* ===== verification/Rsa.v ===== *)
(** * RSA PKCS#1 v1.5, verification ([trailryx-anchor/src/rsa.rs], [oid.rs])

    Keys as their DER has them, the padded block constructed and compared. The
    digest is given by the caller. [rsa_is_rfc_8017] is what the whole comes to. *)

From S2P Require Import Prelude Bytes P384 Asn1 Bignum.

Definition oid_SHA256 : list byte := map u8 [0x60; 0x86; 0x48; 0x01; 0x65; 0x03; 0x04; 0x02; 0x01].
Definition oid_SHA384 : list byte := map u8 [0x60; 0x86; 0x48; 0x01; 0x65; 0x03; 0x04; 0x02; 0x02].
Definition oid_RSA_ENCRYPTION : list byte := map u8 [0x2A; 0x86; 0x48; 0x86; 0xF7; 0x0D; 0x01; 0x01; 0x01].
Definition oid_SHA256_WITH_RSA : list byte := map u8 [0x2A; 0x86; 0x48; 0x86; 0xF7; 0x0D; 0x01; 0x01; 0x0B].
Definition oid_SHA384_WITH_RSA : list byte := map u8 [0x2A; 0x86; 0x48; 0x86; 0xF7; 0x0D; 0x01; 0x01; 0x0C].

Inductive RsaError :=
  | BadKey (e : Asn1Error) | BadModulus (e : BigError) | BadExponent | NotAnRsaKey
  | WrongSignatureLength (expected found : nat) | RsaNotReduced | KeyTooSmall | UnsupportedDigest | Mismatch.

#[export] Instance RsaError_eq_dec : EqDecision RsaError.
Proof. solve_decision. Defined.

Inductive DigestKind := DkSha256 | DkSha384.

#[export] Instance DigestKind_eq_dec : EqDecision DigestKind.
Proof. solve_decision. Defined.

Definition dk_oid (k : DigestKind) : list byte := match k with DkSha256 => oid_SHA256 | DkSha384 => oid_SHA384 end.
Definition dk_byte_len (k : DigestKind) : nat := match k with DkSha256 => 32 | DkSha384 => 48 end.

Definition from_digest_oid (algorithm : list byte) : option DigestKind :=
  if bool_decide (algorithm = oid_SHA256) then Some DkSha256
  else if bool_decide (algorithm = oid_SHA384) then Some DkSha384
  else None.

Inductive SignatureAlgorithm := Pkcs1Unnamed | Pkcs1Named (k : DigestKind).

Definition from_signature_oid (algorithm : list byte) : option SignatureAlgorithm :=
  if bool_decide (algorithm = oid_RSA_ENCRYPTION) then Some Pkcs1Unnamed
  else if bool_decide (algorithm = oid_SHA256_WITH_RSA) then Some (Pkcs1Named DkSha256)
  else if bool_decide (algorithm = oid_SHA384_WITH_RSA) then Some (Pkcs1Named DkSha384)
  else None.

Definition agrees_with (a : SignatureAlgorithm) (digest : DigestKind) : bool :=
  match a with Pkcs1Unnamed => true | Pkcs1Named named => bool_decide (named = digest) end.

(** ** Keys *)

Record RsaPublicKey := MkRsaPublicKey { rk_modulus : Modulus; rk_exponent : Z }.

Definition from_pkcs1 (der : list byte) : result RsaError RsaPublicKey :=
  '(key, outer) ← map_err BadKey (take_nested tag_SEQUENCE (Der_new der));
  '(modulus, key) ← map_err BadKey (integer_bytes key);
  '(exponent, key) ← map_err BadKey (integer_bytes key);
  _ ← map_err BadKey (expect_end key);
  _ ← map_err BadKey (expect_end outer);
  if (8 <? length exponent)%nat then Err BadExponent
  else
    let e := limb_of exponent in
    if (e <? 3) || (Z.rem e 2 =? 0) then Err BadExponent
    else m ← map_err BadModulus (Modulus_new modulus); Ok (MkRsaPublicKey m e).

Definition from_spki (der : list byte) : result RsaError RsaPublicKey :=
  '(spki, outer) ← map_err BadKey (take_nested tag_SEQUENCE (Der_new der));
  '((algorithm, _), spki) ← map_err BadKey (algorithm_identifier spki);
  if negb (bool_decide (algorithm = oid_RSA_ENCRYPTION)) then Err NotAnRsaKey
  else
    '(bits, spki) ← map_err BadKey (bit_string spki);
    _ ← map_err BadKey (expect_end spki);
    _ ← map_err BadKey (expect_end outer);
    from_pkcs1 bits.

Definition size_bytes (k : RsaPublicKey) : nat := md_byte_len k.(rk_modulus).

(** ** The block *)

Definition digest_info (kind : DigestKind) (digest : list byte) : list byte :=
  write_sequence [write_sequence [write_oid (dk_oid kind); write_null]; write_octet_string digest].

Definition expected_block (kind : DigestKind) (digest : list byte) (width : nat) : result RsaError (list byte) :=
  let t := digest_info kind digest in
  if (width <? length t + 11)%nat then Err KeyTooSmall
  else Ok ([x00; x01] ++ repeat xff (width - length t - 1 - 2) ++ [x00] ++ t).

Definition rsa_verify (k : RsaPublicKey) (kind : DigestKind) (digest signature : list byte) : result RsaError unit :=
  if negb (length digest =? dk_byte_len kind)%nat then Err UnsupportedDigest
  else
    let width := md_byte_len k.(rk_modulus) in
    if negb (length signature =? width)%nat then Err (WrongSignatureLength width (length signature))
    else
      expected ← expected_block kind digest width;
      recovered ← map_err (fun e => match e with NotReduced => RsaNotReduced | other => BadModulus other end)
                          (pow k.(rk_modulus) signature k.(rk_exponent));
      if bool_decide (recovered = expected) then Ok tt else Err Mismatch.

(** ** Against RFC 8017 *)

(** The prefixes of its section 9.2, note 1. *)
Definition rfc_prefix (kind : DigestKind) : list byte :=
  match kind with
  | DkSha256 => map u8 [0x30; 0x31; 0x30; 0x0d; 0x06; 0x09; 0x60; 0x86; 0x48; 0x01; 0x65; 0x03; 0x04; 0x02; 0x01; 0x05; 0x00; 0x04; 0x20]
  | DkSha384 => map u8 [0x30; 0x41; 0x30; 0x0d; 0x06; 0x09; 0x60; 0x86; 0x48; 0x01; 0x65; 0x03; 0x04; 0x02; 0x02; 0x05; 0x00; 0x04; 0x30]
  end.

(** EMSA-PKCS1-v1_5 for a modulus of [width] bytes. *)
Definition emsa (kind : DigestKind) (digest : list byte) (width : nat) : list byte :=
  [x00; x01] ++ repeat xff (width - length (rfc_prefix kind ++ digest) - 3) ++ [x00] ++ rfc_prefix kind ++ digest.

Lemma digest_info_prefix kind digest : length digest = dk_byte_len kind -> digest_info kind digest = rfc_prefix kind ++ digest.
Proof.
  intros Hl. assert (E : write_octet_string digest = [u8 4; u8 (Z.of_nat (dk_byte_len kind))] ++ digest).
  { unfold write_octet_string, der_tlv. rewrite Hl. by destruct kind. }
  unfold digest_info. rewrite E. unfold write_sequence at 1. cbn [concat]. unfold der_tlv. rewrite app_nil_r.
  assert (Hc : length (write_sequence [write_oid (dk_oid kind); write_null] ++ [u8 4; u8 (Z.of_nat (dk_byte_len kind))] ++ digest) = (17 + dk_byte_len kind)%nat).
  { rewrite !length_app, Hl. by destruct kind. }
  rewrite Hc. by destruct kind.
Qed.

Lemma expected_block_emsa kind digest width : length digest = dk_byte_len kind ->
  expected_block kind digest width =
  if (width <? length (rfc_prefix kind ++ digest) + 11)%nat then Err KeyTooSmall else Ok (emsa kind digest width).
Proof.
  intros Hl. unfold expected_block, emsa. rewrite digest_info_prefix by done. destruct (_ <? _)%nat eqn:E; [done|].
  apply Nat.ltb_ge in E. by replace (width - length (rfc_prefix kind ++ digest) - 1 - 2)%nat with (width - length (rfc_prefix kind ++ digest) - 3)%nat by lia.
Qed.

Lemma length_emsa kind digest width : (length (rfc_prefix kind ++ digest) + 11 <= width)%nat -> length (emsa kind digest width) = width.
Proof. intros H. unfold emsa. rewrite !(length_app [x00; x01]), (length_app (repeat _ _)), repeat_length, (length_app [x00]). cbn [length]. lia. Qed.

(** ** What a key that was read is *)

Record key_ok (k : RsaPublicKey) (n e : Z) : Prop := {
  kk_modulus : modulus_ok k.(rk_modulus);
  kk_n : val (md_n k.(rk_modulus)) = n;
  kk_width : (1 <= md_byte_len k.(rk_modulus) <= 8 * length (md_n k.(rk_modulus)))%nat /\ (length (md_n k.(rk_modulus)) <= MAX_LIMBS)%nat;
  kk_bound : n < 256 ^ Z.of_nat (md_byte_len k.(rk_modulus));
  kk_e : k.(rk_exponent) = e /\ u64_ok e /\ 3 <= e /\ Z.odd e = true }.

Lemma expect_end_ok d x : expect_end d = Ok x <-> der_bytes d = [].
Proof.
  unfold expect_end, der_is_empty. destruct x. destruct (bool_decide_reflect (der_bytes d = [])); split; congruence.
Qed.

Lemma take_nested_ok tag d inner d' : 0 <= tag < 256 -> tag mod 32 <> 31 -> take_nested tag d = Ok (inner, d') ->
  Z.of_nat (length (der_bytes inner)) < 2 ^ 64 /\ der_bytes d = der_tlv tag (der_bytes inner) ++ der_bytes d'.
Proof.
  intros Ht H31. unfold take_nested. destruct (_ <? _)%nat; [done|]. intros ([body d1] & H & E)%result_bind_ok. injection E as <- <-.
  apply der_take_iff in H as [Hl ->]; [|done|done]. by split.
Qed.

(** The magnitude is the contents without the sign byte. *)
Lemma integer_bytes_ok d m d' : integer_bytes d = Ok (m, d') ->
  exists body, der_bytes d = der_tlv tag_INTEGER body ++ der_bytes d' /\ Z.of_nat (length body) < 2 ^ 64 /\
    from_be_bytes m = from_be_bytes body /\ trim_zeros m = trim_zeros body /\ u8v (nth 0 body x00) < 128.
Proof.
  unfold integer_bytes. intros (body & d1 & [Hl ->]%der_take_iff & [H ->]%der_check_ok)%der_bind_ok; [|done|done].
  apply result_bind_ok in H as ([] & Hc & H). rewrite high_bit in H. destruct (Z.ltb_spec (u8v (nth 0 body x00)) 128) as [Hs|]; [|done]. cbn [negb] in H.
  exists body. split; [done|]. split; [done|]. destruct body as [|b l]; [done|]. cbn [nth] in *. apply Ok_inj in H as <-.
  destruct (Z.eqb_spec (u8v b) 0) as [E|E]; cbn [andb]; [|done]. destruct (1 <? length (b :: l))%nat; [|done]. cbn [drop].
  assert (b = x00) as -> by (by apply u8v_inj). rewrite drop_0. split_and!; [|done|done]. rewrite from_be_cons. change (u8v x00) with 0. lia.
Qed.

Lemma limb_of_le l : (length l <= 8)%nat -> limb_of l = from_be_bytes l /\ u64_ok (limb_of l).
Proof.
  intros Hl. unfold limb_of. rewrite fold_u64 by done. split; [done|]. pose proof (from_be_bytes_range l).
  assert (256 ^ Z.of_nat (length l) <= 2 ^ 64) by (change (2 ^ 64) with (256 ^ 8); apply Z.pow_le_mono_r; lia). unfold u64_ok. lia.
Qed.

Lemma from_pkcs1_ok der k : from_pkcs1 der = Ok k ->
  exists n e, der = write_sequence [der_tlv tag_INTEGER n; der_tlv tag_INTEGER e] /\ key_ok k (from_be_bytes n) (from_be_bytes e) /\
    md_byte_len k.(rk_modulus) = length (trim_zeros n).
Proof.
  unfold from_pkcs1. intros ([key outer] & Ha%map_err_ok & H)%result_bind_ok. apply take_nested_ok in Ha as [_ Ed]; [|done|done]. cbn [Der_new der_bytes] in Ed.
  apply result_bind_ok in H as ([modulus key1] & Hn%map_err_ok & H). apply integer_bytes_ok in Hn as (nb & En & _ & Vn & Tn & _).
  apply result_bind_ok in H as ([exponent key2] & He%map_err_ok & H). apply integer_bytes_ok in He as (eb & Ee & _ & Ve & _ & _).
  apply result_bind_ok in H as (u1 & Hk2%map_err_ok & H). apply expect_end_ok in Hk2.
  apply result_bind_ok in H as (u2 & Ho%map_err_ok & H). apply expect_end_ok in Ho.
  destruct (Nat.ltb_spec 8 (length exponent)) as [|H8]; [done|]. destruct (limb_of_le exponent H8) as [El Eu].
  destruct (_ || _) eqn:Ex; [done|]. apply orb_false_iff in Ex as [H3%Z.ltb_ge Hodd%Z.eqb_neq].
  apply result_bind_ok in H as (m & Hm%map_err_ok & H). apply Ok_inj in H as <-.
  pose proof (Modulus_new_spec modulus) as Hs. rewrite Hm in Hs. destruct Hs as (M1 & M2 & M3 & M4 & M5).
  exists nb, eb. split; [|split; [split; cbn [rk_modulus rk_exponent]|]].
  - unfold write_sequence. cbn [concat]. rewrite app_nil_r. rewrite Ho, app_nil_r in Ed. rewrite Hk2, app_nil_r in Ee. by rewrite <- Ee, <- En.
  - done.
  - congruence.
  - by split.
  - rewrite M3, <- Vn, <- (proj1 (trim_zeros_spec modulus)). apply from_be_bytes_range.
  - rewrite <- Ve, <- El. split; [done|]. split; [done|]. split; [lia|]. rewrite Z.rem_mod_nonneg in Hodd by (unfold u64_ok in Eu; lia).
    rewrite Zmod_odd in Hodd. by destruct (Z.odd (limb_of exponent)).
  - cbn [rk_modulus]. congruence.
Qed.

Lemma from_to_be w v : 0 <= v < 256 ^ Z.of_nat w -> from_be_bytes (to_be_bytes w v) = v.
Proof. intros. by apply from_to_be_bytes. Qed.

(** The code's verdict with a key that was read. *)
Lemma rsa_verify_iff k n e kind digest signature : key_ok k n e ->
  rsa_verify k kind digest signature = Ok tt <->
  length digest = dk_byte_len kind /\ length signature = size_bytes k /\ (length (rfc_prefix kind ++ digest) + 11 <= size_bytes k)%nat /\
  from_be_bytes signature < n /\ from_be_bytes signature ^ e mod n = from_be_bytes (emsa kind digest (size_bytes k)).
Proof.
  intros [Hm Hn [Hw Hk] Hb (Ee & Eu & _ & _)]. unfold rsa_verify, size_bytes. set (w := md_byte_len (rk_modulus k)) in *. pose proof (mk_size _ Hm) as H3. rewrite Hn in H3.
  destruct (Nat.eqb_spec (length digest) (dk_byte_len kind)) as [Hd|Hd]; cbn [negb]; [|split; [done|by intros [? _]]].
  destruct (Nat.eqb_spec (length signature) w) as [Hs|Hs]; cbn [negb]; [|split; [done|by intros (_ & ? & _)]].
  rewrite expected_block_emsa by done. destruct (Nat.ltb_spec w (length (rfc_prefix kind ++ digest) + 11)) as [Hlt|Hge]; cbn [mbind result_bind].
  { split; [done|]. intros (_ & _ & ? & _). lia. }
  rewrite pow_spec by (done || (unfold w in *; lia) || by rewrite Ee). rewrite Hn, Ee. fold w. destruct (Z.leb_spec n (from_be_bytes signature)) as [Hle|Hlt]; cbn [map_err mbind result_bind].
  { split; [done|]. intros (_ & _ & _ & ? & _). lia. }
  pose proof (Z.mod_pos_bound (from_be_bytes signature ^ e) n ltac:(lia)) as Hmod.
  assert (Hcap : 0 <= from_be_bytes signature ^ e mod n < 256 ^ Z.of_nat w).
  { fold w in Hb. lia. }
  destruct (bool_decide_reflect (to_be_bytes w (from_be_bytes signature ^ e mod n) = emsa kind digest w)) as [E|E].
  - split; [|done]. intros _. split_and!; try done. rewrite <- E. symmetry. by apply from_to_be.
  - split; [done|]. intros (_ & _ & _ & _ & Ev). exfalso. apply E. rewrite Ev. rewrite <- (length_emsa kind digest w Hge) at 1. apply to_from_be_bytes.
Qed.

(** C29 (a signature is accepted by the equation of RFC 8017). A key that is read is
    the one spelling of its two integers, an odd modulus and an odd exponent from
    three up; and with it a signature is accepted exactly when it has the modulus's
    width, is below the modulus, and its power is the number whose bytes are the
    padded digest of the standard - with room for the padding, and the digest's own
    length. *)
Theorem rsa_is_rfc_8017 (der : list byte) (k : RsaPublicKey) (Hkey : from_pkcs1 der = Ok k) :
  exists n e,
    der = write_sequence [der_tlv tag_INTEGER n; der_tlv tag_INTEGER e] /\
    size_bytes k = length (trim_zeros n) /\ 3 <= from_be_bytes n /\ Z.odd (from_be_bytes n) = true /\
    3 <= from_be_bytes e < 2 ^ 64 /\ Z.odd (from_be_bytes e) = true /\
    forall kind digest signature,
      rsa_verify k kind digest signature = Ok tt <->
      length digest = dk_byte_len kind /\ length signature = size_bytes k /\ (length (rfc_prefix kind ++ digest) + 11 <= size_bytes k)%nat /\
      from_be_bytes signature < from_be_bytes n /\
      from_be_bytes signature ^ from_be_bytes e mod from_be_bytes n = from_be_bytes (emsa kind digest (size_bytes k)).
Proof.
  destruct (from_pkcs1_ok der k Hkey) as (n & e & Ed & Hk & Hw). pose proof Hk as [Hm Hn _ _ (_ & Hu & H3 & Ho)]. exists n, e.
  pose proof (mk_size _ Hm) as Hs. pose proof (mk_odd _ Hm) as Hodd. rewrite Hn in Hs, Hodd. unfold u64_ok in Hu.
  split_and!; try done; try lia. intros kind digest signature. by apply rsa_verify_iff.
Qed.

(** ** A key, a digest and its signature *)

Definition sample_key : list byte :=
  map u8
    [0x30; 0x47; 0x02; 0x40; 0x00; 0xc1; 0x2b; 0x3c; 0xf7; 0x4b; 0x57; 0x54; 0xc3; 0x2a; 0xbb; 0xce; 0x39; 0xbb; 0x63; 0xa8; 0x6d;
     0x48; 0xb1; 0xb4; 0x35; 0xa2; 0x07; 0x67; 0xdb; 0x8c; 0xd0; 0x70; 0x20; 0xa3; 0xc6; 0x45; 0x73; 0x30; 0x82; 0x9f; 0x93; 0x3d;
     0x49; 0x23; 0x5b; 0xe1; 0x61; 0x25; 0x8c; 0x88; 0xe3; 0x43; 0x37; 0x29; 0x56; 0x20; 0xa3; 0x5c; 0x9c; 0xbd; 0x24; 0x66; 0x52;
     0xb9; 0xb6; 0x97; 0xb4; 0x75; 0x02; 0x03; 0x01; 0x00; 0x01].

Definition sample_digest : list byte :=
  map u8
    [0x5f; 0xa1; 0x9f; 0x32; 0xb7; 0x0c; 0x9b; 0xeb; 0x85; 0x96; 0x56; 0x9d; 0xed; 0x7a; 0xb6; 0xce; 0x8e; 0x1b; 0xac; 0x77; 0xc9;
     0x48; 0x8e; 0xda; 0x3c; 0x1f; 0x64; 0xd5; 0x85; 0xb7; 0xdf; 0x2d].

Definition sample_signature : list byte :=
  map u8
    [0x6e; 0x19; 0x6d; 0x24; 0xdd; 0x85; 0xbb; 0x2c; 0x40; 0x20; 0x20; 0xf1; 0xa3; 0x0d; 0x62; 0xde; 0x79; 0x93; 0x9d; 0x68; 0xb8;
     0xae; 0xe0; 0xf4; 0xf2; 0xe5; 0xca; 0xa0; 0x4a; 0x14; 0xcb; 0xfc; 0xea; 0x16; 0x1d; 0xad; 0xf7; 0x38; 0x8c; 0x15; 0x08; 0xc8;
     0x5c; 0xef; 0xfe; 0xb6; 0x94; 0x81; 0x68; 0xc6; 0x61; 0xac; 0x01; 0x32; 0xf9; 0x27; 0x78; 0xa8; 0xf8; 0xde; 0xf3; 0xfe; 0x1e].

(** The key as it is read. *)
Definition sample_public : RsaPublicKey :=
  Eval vm_compute in match from_pkcs1 sample_key with Ok k => k | Err _ => MkRsaPublicKey (MkModulus [] 0 []) 0 end.

Lemma sample_key_reads : from_pkcs1 sample_key = Ok sample_public.
Proof. vm_compute. reflexivity. Qed.

Lemma sample_verifies : rsa_verify sample_public DkSha256 sample_digest sample_signature = Ok tt.
Proof. vm_compute. reflexivity. Qed.

Example rsa_is_rfc_8017_witness :
  exists n e, from_pkcs1 sample_key = Ok sample_public /\
    from_be_bytes sample_signature ^ from_be_bytes e mod from_be_bytes n = from_be_bytes (emsa DkSha256 sample_digest (size_bytes sample_public)).
Proof.
  destruct (rsa_is_rfc_8017 sample_key sample_public sample_key_reads) as (n & e & Ed & Hw & _ & _ & _ & _ & H).
  pose proof (proj1 (H _ _ _) sample_verifies) as (_ & _ & _ & _ & Hp). exists n, e. split; [exact sample_key_reads|exact Hp].
Defined.
