(* ===== verification/Anchor.v ===== *)
(** * Anchoring a root in time ([trailryx-anchor/src/tsp.rs], [lib.rs])

    The request, the token read without believing it, its CMS signature against a
    pinned key, and the [Anchor] an authority is behind. The transport and the
    source of nonces are the caller's: parameters, with their own state. *)

From S2P Require Import Prelude Bytes Ids Record Digest Sha384 BlockHash Sha256 Completeness SimIo ObjectStore Asn1 Bignum Rsa.

Definition oid_SIGNED_DATA : list byte := map u8 [0x2A; 0x86; 0x48; 0x86; 0xF7; 0x0D; 0x01; 0x07; 0x02].
Definition oid_TST_INFO : list byte := map u8 [0x2A; 0x86; 0x48; 0x86; 0xF7; 0x0D; 0x01; 0x09; 0x10; 0x01; 0x04].
Definition oid_CONTENT_TYPE : list byte := map u8 [0x2A; 0x86; 0x48; 0x86; 0xF7; 0x0D; 0x01; 0x09; 0x03].
Definition oid_MESSAGE_DIGEST : list byte := map u8 [0x2A; 0x86; 0x48; 0x86; 0xF7; 0x0D; 0x01; 0x09; 0x04].

Inductive TspError :=
  | Malformed (what : string) (e : Asn1Error) | TspRefused (status : Z) | NoToken | NotATimestamp
  | ImprintAlgorithm | ImprintMismatch | NonceMismatch | UnknownVersion (v : Z) | UnsupportedCms (what : string)
  | ContentDigestMismatch | ContentTypeMismatch | TspSignature (e : RsaError) | UnsupportedAlgorithm | NoPinnedKey.

#[export] Instance TspError_eq_dec : EqDecision TspError.
Proof. solve_decision. Defined.

(** ** What the errors say *)

Definition text (s : str) : string := String.string_of_list_byte s.

Definition show_asn1 (e : Asn1Error) : string :=
  match e with
  | DerTruncated => "the encoding ends inside a value"
  | Indefinite => "an indefinite length: legal BER, never DER"
  | NonMinimalLength => "a length written in more bytes than it needs"
  | LengthTooLarge => "a length wider than this machine's usize"
  | HighTagNumber => "a multi-byte tag number is not implemented"
  | UnexpectedTag expected found =>
      String.append "expected tag 0x" (String.append (text (Hash_to_hex [u8 expected]))
        (String.append ", found 0x" (text (Hash_to_hex [u8 found]))))
  | DerTrailingBytes => "bytes remain after the outermost value"
  | TooDeep => "nested deeper than this reader allows"
  | BadInteger => "an INTEGER DER does not permit"
  | BadBoolean => "a BOOLEAN that is neither 0x00 nor 0xFF"
  | BadOid => "a malformed OBJECT IDENTIFIER"
  | BadBitString => "a malformed BIT STRING"
  | BadTime => "a GeneralizedTime this reader will not interpret"
  end.

Definition show_big (e : BigError) : string :=
  match e with
  | NotOddModulus => "the modulus is even, so it is not an RSA modulus"
  | ModulusTooSmall => "the modulus is too small to be a key"
  | NotReduced => "the value is not less than the modulus"
  | TooWide => "the value is wider than this implementation accepts"
  end.

Definition show_rsa (e : RsaError) : string :=
  match e with
  | BadKey e => String.append "the public key does not parse: " (show_asn1 e)
  | BadModulus e => String.append "the modulus is unusable: " (show_big e)
  | BadExponent => "a public exponent this implementation will not use"
  | NotAnRsaKey => "the key is not an rsaEncryption key"
  | WrongSignatureLength expected found =>
      String.append "the signature is " (String.append (text (decimal (Z.of_nat found)))
        (String.append " bytes and the modulus is " (text (decimal (Z.of_nat expected)))))
  | RsaNotReduced => "the signature is not less than the modulus"
  | KeyTooSmall => "the modulus is too small for this digest's padding"
  | UnsupportedDigest => "an unsupported digest algorithm"
  | Mismatch => "the signature does not match"
  end.

Definition show_tsp (e : TspError) : string :=
  match e with
  | Malformed what e => String.append what (String.append " did not parse: " (show_asn1 e))
  | TspRefused status => String.append "the authority returned PKIStatus " (String.append (text (decimal status)) " rather than granted")
  | NoToken => "the authority granted the request and sent no token"
  | NotATimestamp => "the token does not hold a TSTInfo"
  | ImprintAlgorithm => "the token used a different hash algorithm"
  | ImprintMismatch => "the token commits to a different value than this root"
  | NonceMismatch => "the nonce is absent or not the one sent, so this may be a replay"
  | UnknownVersion v => String.append "TSTInfo version " (String.append (text (decimal v)) " is not version 1")
  | UnsupportedCms what => String.append "the CMS structure is not supported: " what
  | ContentDigestMismatch => "the signed message digest is not the digest of the content"
  | ContentTypeMismatch => "the signed content type is not the content's own type"
  | TspSignature e => String.append "the signature did not verify: " (show_rsa e)
  | UnsupportedAlgorithm => "an algorithm this client does not have"
  | NoPinnedKey => "no authority key is pinned, so no signature was checked"
  end.

(** ** The request *)

Definition request (imprint : list byte) (nonce : Z) : list byte :=
  write_sequence
    [write_integer_u64 1;
     write_sequence [write_sequence [write_oid oid_SHA384; write_null]; write_octet_string imprint];
     write_integer_u64 nonce; write_boolean false].

Record Claim := MkClaim { cm_imprint : list byte; cm_at : Z; cm_serial : list byte; cm_nonce : option Z }.

#[export] Instance Claim_eq_dec : EqDecision Claim.
Proof. solve_decision. Defined.

(** [map_err(|e| TspError::Malformed(what, e))]. *)
Definition mal {A} (what : string) (r : result Asn1Error A) : result TspError A := map_err (Malformed what) r.

Definition token_from_response (response : list byte) : result TspError (list byte) :=
  '(resp, outer) ← mal "TimeStampResp" (take_nested tag_SEQUENCE (Der_new response));
  '(info, resp) ← mal "PKIStatusInfo" (take_nested tag_SEQUENCE resp);
  '(status, _) ← mal "PKIStatus" (integer_u64 info);
  if negb (status =? 0) then Err (TspRefused status)
  else if der_is_empty resp then Err NoToken
  else
    '(token, resp) ← mal "TimeStampToken" (take_raw resp);
    _ ← mal "TimeStampResp" (expect_end resp);
    _ ← mal "TimeStampResp" (expect_end outer);
    Ok token.

(** ** The token's structure *)

Definition tst_info_bytes (token : list byte) : result TspError (list byte) :=
  '(ci, _) ← mal "ContentInfo" (take_nested tag_SEQUENCE (Der_new token));
  '(content_type, ci) ← mal "ContentInfo contentType" (der_oid ci);
  if negb (bool_decide (content_type = oid_SIGNED_DATA)) then Err (UnsupportedCms "the outer content is not SignedData")
  else
    '(explicit, _) ← mal "ContentInfo content" (take_nested (context_constructed 0) ci);
    '(sd, _) ← mal "SignedData" (take_nested tag_SEQUENCE explicit);
    '(_, sd) ← mal "SignedData version" (integer_u64 sd);
    '(_, sd) ← mal "digestAlgorithms" (der_skip sd);
    '(eci, _) ← mal "encapContentInfo" (take_nested tag_SEQUENCE sd);
    '(econtent_type, eci) ← mal "eContentType" (der_oid eci);
    if negb (bool_decide (econtent_type = oid_TST_INFO)) then Err NotATimestamp
    else
      '(wrapper, _) ← mal "eContent" (take_nested (context_constructed 0) eci);
      '(content, wrapper) ← mal "eContent octets" (der_octet_string wrapper);
      _ ← mal "eContent" (expect_end wrapper);
      Ok content.

Record SignerParts := MkSignerParts { sp_signed_attrs : list byte; sp_signature : list byte; sp_digest : DigestKind }.

Definition signer_parts (token : list byte) : result TspError SignerParts :=
  '(ci, _) ← mal "ContentInfo" (take_nested tag_SEQUENCE (Der_new token));
  '(_, ci) ← mal "contentType" (der_skip ci);
  '(explicit, _) ← mal "content" (take_nested (context_constructed 0) ci);
  '(sd, _) ← mal "SignedData" (take_nested tag_SEQUENCE explicit);
  '(_, sd) ← mal "version" (integer_u64 sd);
  '(_, sd) ← mal "digestAlgorithms" (der_skip sd);
  '(_, sd) ← mal "encapContentInfo" (der_skip sd);
  '(_, sd) ← mal "certificates" (der_skip_if (context_constructed 0) sd);
  '(_, sd) ← mal "crls" (der_skip_if (context_constructed 1) sd);
  '(signers, _) ← mal "signerInfos" (take_nested tag_SET sd);
  '(si, signers) ← mal "SignerInfo" (take_nested tag_SEQUENCE signers);
  if negb (der_is_empty signers) then Err (UnsupportedCms "more than one signer")
  else
    '(_, si) ← mal "SignerInfo version" (integer_u64 si);
    '(_, si) ← mal "signerIdentifier" (der_skip si);
    '((digest_algorithm, _), si) ← mal "digestAlgorithm" (algorithm_identifier si);
    digest ← ok_or (from_digest_oid digest_algorithm) UnsupportedAlgorithm;
    if negb (bool_decide (peek_tag si = Some (context_constructed 0))) then Err (UnsupportedCms "no signed attributes")
    else
      '(signed_attrs, si) ← mal "signedAttrs" (der_take (context_constructed 0) si);
      '((signature_algorithm, _), si) ← mal "signatureAlgorithm" (algorithm_identifier si);
      signature_kind ← ok_or (from_signature_oid signature_algorithm) UnsupportedAlgorithm;
      if negb (agrees_with signature_kind digest) then Err (UnsupportedCms "the digest and signature algorithms disagree")
      else
        '(signature, si) ← mal "signature" (der_octet_string si);
        Ok (MkSignerParts signed_attrs signature digest).

Definition parse_tst_info (content : list byte) : result TspError Claim :=
  '(info, _) ← mal "TSTInfo" (take_nested tag_SEQUENCE (Der_new content));
  '(version, info) ← mal "TSTInfo version" (integer_u64 info);
  if negb (version =? 1) then Err (UnknownVersion version)
  else
    '(_, info) ← mal "policy" (der_oid info);
    '(mi, info) ← mal "messageImprint" (take_nested tag_SEQUENCE info);
    '((algorithm, _), mi) ← mal "hashAlgorithm" (algorithm_identifier mi);
    if negb (bool_decide (algorithm = oid_SHA384)) then Err ImprintAlgorithm
    else
      '(hashed, mi) ← mal "hashedMessage" (der_octet_string mi);
      _ ← mal "messageImprint" (expect_end mi);
      if negb (length hashed =? 48)%nat then Err ImprintAlgorithm
      else
        '(serial, info) ← mal "serialNumber" (integer_bytes info);
        '(at_, info) ← mal "genTime" (generalized_time info);
        '(_, info) ← mal "accuracy" (der_skip_if tag_SEQUENCE info);
        '(_, info) ← mal "ordering" (der_skip_if tag_BOOLEAN info);
        '(nonce, info) ← (if bool_decide (peek_tag info = Some tag_INTEGER)
                          then '(n, info) ← mal "nonce" (integer_u64 info); Ok (Some n, info) else Ok (None, info));
        Ok (MkClaim hashed at_ serial nonce).

Definition claim_of (token : list byte) : result TspError Claim :=
  content ← tst_info_bytes token; parse_tst_info content.

Definition binds_to (claim : Claim) (root_imprint : list byte) (nonce : Z) : result TspError unit :=
  if negb (bool_decide (claim.(cm_imprint) = root_imprint)) then Err ImprintMismatch
  else if negb (bool_decide (claim.(cm_nonce) = Some nonce)) then Err NonceMismatch
  else Ok tt.

(** ** The signature *)

Section digests.
Context {D : Digest}.

Definition imprint_of (root_ : list byte) : list byte := digest root_.

Definition digest_of (kind : DigestKind) (data : list byte) : list byte :=
  match kind with DkSha256 => Sha256.Sha256.digest data | DkSha384 => digest data end.

(** One attribute; the flags after it. *)
Definition attribute_step (content : list byte) (kind : DigestKind) (attrs : Der) (saw_digest saw_type : bool) : result TspError (Der * bool * bool) :=
  '(attr, attrs) ← mal "Attribute" (take_nested tag_SEQUENCE attrs);
  '(attr_type, attr) ← mal "attrType" (der_oid attr);
  '(values, attr) ← mal "attrValues" (take_nested tag_SET attr);
  if bool_decide (attr_type = oid_MESSAGE_DIGEST) then
    '(claimed, values) ← mal "messageDigest" (der_octet_string values);
    _ ← mal "messageDigest" (expect_end values);
    if negb (bool_decide (claimed = digest_of kind content)) then Err ContentDigestMismatch
    else if (saw_digest : bool) then Err (UnsupportedCms "two messageDigest attributes")
    else Ok (attrs, true, saw_type)
  else if bool_decide (attr_type = oid_CONTENT_TYPE) then
    '(claimed, values) ← mal "contentType" (der_oid values);
    _ ← mal "contentType" (expect_end values);
    if negb (bool_decide (claimed = oid_TST_INFO)) then Err ContentTypeMismatch
    else if (saw_type : bool) then Err (UnsupportedCms "two contentType attributes")
    else Ok (attrs, saw_digest, true)
  else Ok (attrs, saw_digest, saw_type).

(** [while !attrs.is_empty()]; [None] is a shortage of fuel. *)
Fixpoint attributes (fuel : nat) (content : list byte) (kind : DigestKind) (attrs : Der) (saw_digest saw_type : bool) : option (result TspError (bool * bool)) :=
  if der_is_empty attrs then Some (Ok (saw_digest, saw_type))
  else
    match fuel with
    | O => None
    | S fuel =>
        match attribute_step content kind attrs saw_digest saw_type with
        | Err e => Some (Err e)
        | Ok (attrs, saw_digest, saw_type) => attributes fuel content kind attrs saw_digest saw_type
        end
    end.

Definition check_signed_attrs (body content : list byte) (kind : DigestKind) : result TspError unit :=
  match attributes (length body) content kind (Der_new body) false false with
  | None => Err ContentDigestMismatch
  | Some r =>
      '(saw_digest, saw_type) ← r;
      if negb saw_digest then Err ContentDigestMismatch
      else if negb saw_type then Err ContentTypeMismatch
      else Ok tt
  end.

(** The content and the digest it was signed with. *)
Definition verify_signed_data (token : list byte) (key : RsaPublicKey) : result TspError (list byte * DigestKind) :=
  content ← tst_info_bytes token;
  parts ← signer_parts token;
  _ ← check_signed_attrs parts.(sp_signed_attrs) content parts.(sp_digest);
  let to_be_signed := der_tlv tag_SET parts.(sp_signed_attrs) in
  _ ← map_err TspSignature (rsa_verify key parts.(sp_digest) (digest_of parts.(sp_digest) to_be_signed) parts.(sp_signature));
  Ok (content, parts.(sp_digest)).

Record Attested := MkAttested { at_claim : Claim; at_digest : DigestKind }.

Definition attest (token : list byte) (key : RsaPublicKey) : result TspError Attested :=
  '(content, kind) ← verify_signed_data token key;
  claim ← parse_tst_info content;
  Ok (MkAttested claim kind).

(** ** The anchor *)

Inductive Trust := PinnedKey (key : RsaPublicKey) | Unchecked.

Record AnchorReceipt := MkAnchorReceipt { ar_root : Hash; ar_at : Z; ar_evidence : list byte }.

(** The authority behind a transport, and the embedding store's nonces. *)
Class Transport (T : Type) := exchange : list byte -> T -> result string (list byte) * T.
Class Nonces (N : Type) := next_nonce : N -> Z * N.

Record Rfc3161 (T N : Type) := MkRfc3161 { rf_transport : T; rf_trust : Trust; rf_nonce : N; rf_last_sent : option (Hash * Z) }.
#[global] Arguments MkRfc3161 {T N}.
#[global] Arguments rf_transport {T N}.
#[global] Arguments rf_trust {T N}.
#[global] Arguments rf_nonce {T N}.
#[global] Arguments rf_last_sent {T N}.

Context {T N : Type} `{Transport T, Nonces N}.

Definition Rfc3161_new (transport : T) (trust : Trust) (nonce : N) : Rfc3161 T N := MkRfc3161 transport trust nonce None.

Definition is_attesting (s : Rfc3161 T N) : bool := match s.(rf_trust) with PinnedKey _ => true | Unchecked => false end.

Definition examine (s : Rfc3161 T N) (root_ : Hash) (token : list byte) (nonce : Z) : result TspError Attested :=
  let imprint := imprint_of root_ in
  match s.(rf_trust) with
  | PinnedKey key => attested ← attest token key; _ ← binds_to attested.(at_claim) imprint nonce; Ok attested
  | Unchecked => claim ← claim_of token; _ ← binds_to claim imprint nonce; Err NoPinnedKey
  end.

Definition rejected {A} (r : result TspError A) : result AdapterError A := map_err (fun e => AdRejected (show_tsp e)) r.

(** What becomes of a response. *)
Definition accept (trust : Trust) (root_ : Hash) (nonce : Z) (response : list byte) : result AdapterError AnchorReceipt :=
  let imprint := imprint_of root_ in
  token ← rejected (token_from_response response);
  claim ← rejected (claim_of token);
  _ ← rejected (binds_to claim imprint nonce);
  _ ← (match trust with PinnedKey key => _ ← rejected (attest token key); Ok tt | Unchecked => Ok tt end);
  if claim.(cm_at) <? 0 then Err (AdRejected "the token is dated before 1970")
  else if u64_max <? claim.(cm_at) * 1000000000 then Err (AdRejected "the token's time does not fit this store's nanosecond stamp")
  else Ok (MkAnchorReceipt root_ (claim.(cm_at) * 1000000000) token).

Definition submit (s : Rfc3161 T N) (root_ : Hash) : result AdapterError AnchorReceipt * Rfc3161 T N :=
  let imprint := imprint_of root_ in
  let '(nonce, n) := next_nonce s.(rf_nonce) in
  let query := request imprint nonce in
  let '(answer, t) := exchange query s.(rf_transport) in
  let s' := MkRfc3161 t s.(rf_trust) n s.(rf_last_sent) in
  match answer with
  | Err why => (Err (AdUnavailable (String.append "the authority: " why)), s')
  | Ok response =>
      match accept s.(rf_trust) root_ nonce response with
      | Err e => (Err e, s')
      | Ok receipt => (Ok receipt, MkRfc3161 t s.(rf_trust) n (Some (root_, nonce)))
      end
  end.

Definition anchor_verify (s : Rfc3161 T N) (root_ : Hash) (receipt : AnchorReceipt) : result AdapterError bool :=
  match s.(rf_trust) with
  | Unchecked => Err (AdUnsupported "no authority key is pinned, so a token's signature cannot be checked here")
  | PinnedKey key =>
      if negb (bool_decide (receipt.(ar_root) = root_)) then Ok false
      else
        match s.(rf_last_sent) with
        | None => Err (AdUnsupported "this adapter did not obtain that token, so the nonce it answers is unknown; use `examine`")
        | Some (sent_root, nonce) =>
            if negb (bool_decide (sent_root = root_)) then Err (AdUnsupported "the nonce held by this adapter belongs to a different root; use `examine`")
            else
              let imprint := imprint_of root_ in
              match attest receipt.(ar_evidence) key with
              | Ok attested => Ok (is_ok (binds_to attested.(at_claim) imprint nonce))
              | Err _ => Ok false
              end
        end
  end.

End digests.

(** ** The loop over the attributes *)

Lemma mal_ok {A} what (r : result Asn1Error A) a : mal what r = Ok a -> r = Ok a.
Proof. apply map_err_ok. Qed.

Lemma der_tlv_length tag body : (2 <= length (der_tlv tag body))%nat.
Proof.
  unfold der_tlv. cbn [length]. rewrite length_app. assert (1 <= length (write_length (Z.of_nat (length body))))%nat; [|lia].
  unfold write_length. destruct (_ <? _); cbn; lia.
Qed.

Section facts.
Context {D : Digest}.

Lemma attribute_step_shorter content kind d sd st d' sd' st' : attribute_step content kind d sd st = Ok (d', sd', st') ->
  (length (der_bytes d') < length (der_bytes d))%nat.
Proof.
  unfold attribute_step. intros ([attr d1] & Ha%mal_ok & H)%result_bind_ok. apply take_nested_ok in Ha as [_ Ed]; [|done|done].
  assert (Hl : (length (der_bytes d1) < length (der_bytes d))%nat) by (rewrite Ed, length_app; pose proof (der_tlv_length tag_SEQUENCE (der_bytes attr)); lia).
  enough (d' = d1) by congruence.
  apply result_bind_ok in H as ([ty attr1] & _ & H). apply result_bind_ok in H as ([values attr2] & _ & H). destruct (bool_decide (ty = _)).
  - apply result_bind_ok in H as ([claimed values1] & _ & H). apply result_bind_ok in H as (u & _ & H).
    destruct (negb _); [done|]. destruct sd; [done|]. by injection H as <- <- <-.
  - destruct (bool_decide (ty = _)); [|by injection H as <- <- <-].
    apply result_bind_ok in H as ([claimed values1] & _ & H). apply result_bind_ok in H as (u & _ & H).
    destruct (negb _); [done|]. destruct st; [done|]. by injection H as <- <- <-.
Qed.

Lemma attributes_total fuel content kind d sd st : (length (der_bytes d) <= fuel)%nat -> attributes fuel content kind d sd st <> None.
Proof.
  revert d sd st; induction fuel as [|fuel IH]; intros d sd st Hf; cbn [attributes]; unfold der_is_empty.
  - destruct (bool_decide_reflect (der_bytes d = [])) as [|Hn]; [done|]. destruct (der_bytes d); [done|cbn in Hf; lia].
  - destruct (bool_decide (der_bytes d = [])); [done|]. destruct (attribute_step _ _ _ _ _) as [[[d' sd'] st']|e] eqn:E; [|done].
    apply attribute_step_shorter in E. apply IH. lia.
Qed.

(** The two ways an attribute passes, whatever the content it is held against. *)
Lemma attribute_step_two c1 k1 c2 k2 d sd st r1 r2 : attribute_step c1 k1 d sd st = Ok r1 -> attribute_step c2 k2 d sd st = Ok r2 ->
  r1 = r2 /\ (r1.1.2 = sd \/ digest_of k1 c1 = digest_of k2 c2).
Proof.
  unfold attribute_step. intros H1 H2. apply result_bind_ok in H1 as ([attr d1] & Ha & H1). rewrite Ha in H2. cbn [mbind result_bind] in H2.
  apply result_bind_ok in H1 as ([ty attr1] & Ht & H1). rewrite Ht in H2. cbn [mbind result_bind] in H2.
  apply result_bind_ok in H1 as ([values attr2] & Hv & H1). rewrite Hv in H2. cbn [mbind result_bind] in H2.
  destruct (bool_decide (ty = oid_MESSAGE_DIGEST)).
  - apply result_bind_ok in H1 as ([claimed values1] & Hc & H1). rewrite Hc in H2. cbn [mbind result_bind] in H2.
    apply result_bind_ok in H1 as (u & He & H1). rewrite He in H2. cbn [mbind result_bind] in H2.
    destruct (bool_decide_reflect (claimed = digest_of k1 c1)) as [E1|]; [|done]. destruct (bool_decide_reflect (claimed = digest_of k2 c2)) as [E2|]; [|done].
    cbn [negb] in *. destruct sd; [done|]. split; [congruence|right; congruence].
  - destruct (bool_decide (ty = oid_CONTENT_TYPE)).
    + apply result_bind_ok in H1 as ([claimed values1] & Hc & H1). rewrite Hc in H2. cbn [mbind result_bind] in H2.
      apply result_bind_ok in H1 as (u & He & H1). rewrite He in H2. cbn [mbind result_bind] in H2.
      destruct (negb _); [done|]. destruct st; [done|]. apply Ok_inj in H1 as <-. apply Ok_inj in H2 as <-. split; [done|by left].
    + apply Ok_inj in H1 as <-. apply Ok_inj in H2 as <-. split; [done|by left].
Qed.

Lemma attributes_two fuel c1 k1 c2 k2 d st r1 r2 : attributes fuel c1 k1 d false st = Some (Ok (true, r1)) -> attributes fuel c2 k2 d false st = Some (Ok (true, r2)) ->
  digest_of k1 c1 = digest_of k2 c2.
Proof.
  revert d st; induction fuel as [|fuel IH]; intros d st; cbn [attributes]; destruct (der_is_empty d); try done.
  destruct (attribute_step c1 k1 d false st) as [[[d1 sd1] st1]|] eqn:E1; [|done]. destruct (attribute_step c2 k2 d false st) as [[[d2 sd2] st2]|] eqn:E2; [|done].
  destruct (attribute_step_two _ _ _ _ _ _ _ _ _ E1 E2) as [E [Hs|Hd]]; [|done]. injection E as <- <- <-. cbn [fst snd] in Hs. subst sd1. apply IH.
Qed.

Lemma digest_of_length `{!DigestLaws D} kind data : length (digest_of kind data) = dk_byte_len kind.
Proof. destruct kind; cbn [digest_of dk_byte_len]; [rewrite Sha256.digest_spec; apply Sha256.length_sha256_spec|apply digest_ok]. Qed.

(** The signed attributes fix the digest of the content. *)
Lemma check_signed_attrs_two `{!DigestLaws D} body c1 k1 c2 k2 : check_signed_attrs body c1 k1 = Ok tt -> check_signed_attrs body c2 k2 = Ok tt ->
  k1 = k2 /\ digest_of k1 c1 = digest_of k2 c2.
Proof.
  unfold check_signed_attrs. intros H1 H2.
  destruct (attributes _ c1 _ _ _ _) as [[[sd1 st1]|e1]|] eqn:E1; [|done|done]. destruct (attributes _ c2 _ _ _ _) as [[[sd2 st2]|e2]|] eqn:E2; [|done|done].
  cbn [mbind result_bind] in H1, H2. destruct sd1; [|done]. destruct sd2; [|done]. pose proof (attributes_two _ _ _ _ _ _ _ _ _ E1 E2) as Hd. split; [|done].
  apply (f_equal length) in Hd. rewrite !digest_of_length in Hd. by destruct k1, k2.
Qed.

(** What an attestation rests on. *)
Lemma attest_ok token key a : attest token key = Ok a ->
  exists content parts,
    tst_info_bytes token = Ok content /\ signer_parts token = Ok parts /\ check_signed_attrs (sp_signed_attrs parts) content (sp_digest parts) = Ok tt /\
    rsa_verify key (sp_digest parts) (digest_of (sp_digest parts) (der_tlv tag_SET (sp_signed_attrs parts))) (sp_signature parts) = Ok tt /\
    parse_tst_info content = Ok (at_claim a) /\ at_digest a = sp_digest parts.
Proof.
  unfold attest, verify_signed_data. intros ([c k] & Hv & H)%result_bind_ok. apply result_bind_ok in H as (claim & Hp & H). apply Ok_inj in H as <-.
  apply result_bind_ok in Hv as (content & Hc & Hv). apply result_bind_ok in Hv as (parts & Hs & Hv). apply result_bind_ok in Hv as ([] & Hk & Hv).
  apply result_bind_ok in Hv as ([] & Hr%map_err_ok & Hv). apply Ok_inj in Hv as [= <- <-]. by exists content, parts.
Qed.

Lemma binds_to_ok claim imprint nonce u : binds_to claim imprint nonce = Ok u <-> cm_imprint claim = imprint /\ cm_nonce claim = Some nonce.
Proof.
  unfold binds_to. destruct u. destruct (bool_decide_reflect (cm_imprint claim = imprint)) as [E|E]; cbn [negb]; [|by split; [|intros []]].
  destruct (bool_decide_reflect (cm_nonce claim = Some nonce)) as [E2|E2]; cbn [negb]; by split; [|intros []].
Qed.

(** C30 (a receipt is an attestation). With a pinned key: a receipt [submit] gives is
    one [verify] confirms; and what [verify] confirms carries a signature of that
    key over attributes that fix - short of two contents with one digest - the
    statement that names this root's digest and this request's nonce. *)
Theorem a_receipt_is_an_attestation `{!DigestLaws D} {T N : Type} `{Transport T, Nonces N} (s : Rfc3161 T N) (root_ : Hash) (key : RsaPublicKey)
    (Hpin : rf_trust s = PinnedKey key) :
  (forall receipt s', submit s root_ = (Ok receipt, s') -> anchor_verify s' root_ receipt = Ok true) /\
  (forall receipt, anchor_verify s root_ receipt = Ok true ->
     exists nonce content parts claim,
       rf_last_sent s = Some (root_, nonce) /\ ar_root receipt = root_ /\
       tst_info_bytes (ar_evidence receipt) = Ok content /\ signer_parts (ar_evidence receipt) = Ok parts /\
       rsa_verify key (sp_digest parts) (digest_of (sp_digest parts) (der_tlv tag_SET (sp_signed_attrs parts))) (sp_signature parts) = Ok tt /\
       parse_tst_info content = Ok claim /\ cm_imprint claim = digest root_ /\ cm_nonce claim = Some nonce /\
       (forall content' kind', check_signed_attrs (sp_signed_attrs parts) content' kind' = Ok tt ->
          content' = content \/ digest_of (sp_digest parts) content' = digest_of (sp_digest parts) content /\ content' <> content)).
Proof.
  split.
  - intros receipt s'. unfold submit. destruct (next_nonce _) as [nonce n]. destruct (exchange _ _) as [[response|why] t]; [|done].
    rewrite Hpin. destruct (accept _ _ _ _) as [r|e] eqn:Ea; [|done]. intros [= <- <-]. unfold accept in Ea.
    apply result_bind_ok in Ea as (token & _ & Ea). apply result_bind_ok in Ea as (claim & Hc%map_err_ok & Ea).
    apply result_bind_ok in Ea as (u & Hb%map_err_ok & Ea). apply result_bind_ok in Ea as (u' & Ht & Ea).
    apply result_bind_ok in Ht as (a & Hat%map_err_ok & _). destruct (_ <? _); [done|]. destruct (_ <? _); [done|]. apply Ok_inj in Ea as <-.
    unfold anchor_verify. cbn [rf_trust rf_last_sent ar_root ar_evidence]. rewrite !bool_decide_true by done. cbn [negb]. rewrite Hat.
    destruct (attest_ok _ _ _ Hat) as (content & parts & Hi & _ & _ & _ & Hp & _). unfold claim_of in Hc. rewrite Hi in Hc. cbn [mbind result_bind] in Hc.
    assert (at_claim a = claim) as -> by congruence. by rewrite Hb.
  - intros receipt. unfold anchor_verify. rewrite Hpin. destruct (bool_decide_reflect (ar_root receipt = root_)) as [Hr|]; [|done]. cbn [negb].
    destruct (rf_last_sent s) as [[sent nonce]|]; [|done]. destruct (bool_decide_reflect (sent = root_)) as [->|]; [|done]. cbn [negb].
    destruct (attest _ _) as [a|] eqn:Ea; [|done]. destruct (binds_to _ _ _) as [u|] eqn:Eb; [|done]. intros _.
    destruct (attest_ok _ _ _ Ea) as (content & parts & Hi & Hs & Hk & Hv & Hp & _). apply binds_to_ok in Eb as [B1 B2].
    exists nonce, content, parts, (at_claim a). split_and!; try done. intros content' kind' Hk'. destruct (check_signed_attrs_two _ _ _ _ _ Hk' Hk) as [-> Hd].
    destruct (decide (content' = content)); [by left|right; by split].
Qed.

End facts.

(** ** A receipt from a sample authority *)

(** What an authority answers, its token signed with [sample_key]. *)
Definition sample_response : list byte :=
  map u8
    [0x30; 0x82; 0x01; 0x62; 0x30; 0x03; 0x02; 0x01; 0x00; 0x30; 0x82; 0x01; 0x59; 0x06; 0x09; 0x2a; 0x86; 0x48; 0x86; 0xf7; 0x0d;
     0x01; 0x07; 0x02; 0xa0; 0x82; 0x01; 0x4a; 0x30; 0x82; 0x01; 0x46; 0x02; 0x01; 0x03; 0x31; 0x0f; 0x30; 0x0d; 0x06; 0x09; 0x60;
     0x86; 0x48; 0x01; 0x65; 0x03; 0x04; 0x02; 0x01; 0x05; 0x00; 0x30; 0x74; 0x06; 0x0b; 0x2a; 0x86; 0x48; 0x86; 0xf7; 0x0d; 0x01;
     0x09; 0x10; 0x01; 0x04; 0xa0; 0x65; 0x04; 0x63; 0x30; 0x61; 0x02; 0x01; 0x01; 0x06; 0x02; 0x2a; 0x03; 0x30; 0x41; 0x30; 0x0d;
     0x06; 0x09; 0x60; 0x86; 0x48; 0x01; 0x65; 0x03; 0x04; 0x02; 0x02; 0x05; 0x00; 0x04; 0x30; 0x25; 0x86; 0x6c; 0x82; 0x88; 0xf9;
     0xfa; 0x31; 0x9f; 0xa9; 0xaa; 0x24; 0x70; 0xb4; 0xfc; 0x25; 0x95; 0xdf; 0xfa; 0x91; 0x54; 0xe6; 0x07; 0x44; 0x4e; 0xa3; 0x24;
     0x7e; 0x81; 0xd7; 0x4a; 0x2a; 0xe0; 0x95; 0x7d; 0x6b; 0x7e; 0x05; 0x0f; 0x8c; 0x96; 0xaa; 0x75; 0x77; 0xbe; 0xdc; 0xab; 0xb5;
     0x02; 0x01; 0x05; 0x18; 0x0f; 0x32; 0x30; 0x32; 0x34; 0x30; 0x32; 0x32; 0x39; 0x32; 0x33; 0x35; 0x39; 0x35; 0x39; 0x5a; 0x02;
     0x01; 0x4d; 0x31; 0x81; 0xb9; 0x30; 0x81; 0xb6; 0x02; 0x01; 0x01; 0x30; 0x03; 0x02; 0x01; 0x09; 0x30; 0x0d; 0x06; 0x09; 0x60;
     0x86; 0x48; 0x01; 0x65; 0x03; 0x04; 0x02; 0x01; 0x05; 0x00; 0xa0; 0x4d; 0x30; 0x1a; 0x06; 0x09; 0x2a; 0x86; 0x48; 0x86; 0xf7;
     0x0d; 0x01; 0x09; 0x03; 0x31; 0x0d; 0x06; 0x0b; 0x2a; 0x86; 0x48; 0x86; 0xf7; 0x0d; 0x01; 0x09; 0x10; 0x01; 0x04; 0x30; 0x2f;
     0x06; 0x09; 0x2a; 0x86; 0x48; 0x86; 0xf7; 0x0d; 0x01; 0x09; 0x04; 0x31; 0x22; 0x04; 0x20; 0x19; 0x71; 0xca; 0x91; 0xba; 0xf1;
     0x20; 0xa9; 0x92; 0x12; 0x4b; 0x03; 0x57; 0xaf; 0xae; 0xdb; 0x80; 0x2f; 0xc1; 0xc2; 0x3b; 0xd9; 0x32; 0x4e; 0x80; 0x27; 0x82;
     0xdc; 0x97; 0x04; 0xe2; 0xda; 0x30; 0x0d; 0x06; 0x09; 0x2a; 0x86; 0x48; 0x86; 0xf7; 0x0d; 0x01; 0x01; 0x01; 0x05; 0x00; 0x04;
     0x3f; 0x9a; 0x05; 0xf3; 0x4d; 0x31; 0xef; 0x18; 0xa0; 0x58; 0xcc; 0x8c; 0x13; 0xda; 0xa5; 0x09; 0x03; 0x31; 0x0d; 0x66; 0x80;
     0xa7; 0x80; 0xf7; 0x75; 0xe8; 0x00; 0x4e; 0x70; 0x55; 0x17; 0x93; 0xb7; 0x5a; 0x29; 0x6a; 0x7b; 0xb8; 0x3f; 0x71; 0x02; 0x12;
     0x61; 0xe4; 0x53; 0x52; 0x06; 0xa8; 0xc4; 0x51; 0x2d; 0x9e; 0x34; 0x2a; 0xf8; 0x85; 0x30; 0x55; 0x83; 0xe9; 0x12; 0xc9; 0x68; 0x80].

Definition sample_root : Hash := (fun i => u8 (Z.of_nat i)) <$> List.seq 0 48.

#[local] Instance sample_transport : Transport unit := fun _ t => (Ok sample_response, t).
#[local] Instance sample_nonces : Nonces unit := fun n => (77, n).

Lemma sample_submits :
  match (submit (D := Sha384_Digest) (Rfc3161_new tt (PinnedKey sample_public) tt) sample_root).1 with
  | Ok receipt => ar_at receipt = 1709251199 * 1000000000
  | Err _ => False
  end.
Proof. vm_compute. reflexivity. Qed.

Example a_receipt_is_an_attestation_witness :
  exists receipt s', submit (D := Sha384_Digest) (Rfc3161_new tt (PinnedKey sample_public) tt) sample_root = (Ok receipt, s') /\
    ar_at receipt = 1709251199 * 1000000000 /\ anchor_verify (D := Sha384_Digest) s' sample_root receipt = Ok true.
Proof.
  pose proof sample_submits as Hr. destruct (submit (D := Sha384_Digest) (Rfc3161_new tt (PinnedKey sample_public) tt) sample_root) as [r s'] eqn:Es.
  cbn [fst] in Hr. destruct r as [receipt|e]; [|destruct Hr]. exists receipt, s'. split; [reflexivity|]. split; [exact Hr|].
  exact (proj1 (a_receipt_is_an_attestation (D := Sha384_Digest) (Rfc3161_new tt (PinnedKey sample_public) tt) sample_root sample_public eq_refl) receipt s' Es).
Defined.
