(* ===== verification/HttpResponse.v ===== *)
(** * Answers on the wire ([trailryx-ingest/src/response.rs])

    The statuses, the response under construction, the one serialiser, and the two
    protobuf messages an answer carries. *)

From S2P Require Import Prelude Bytes Ids Wire Completeness.

(** ** Statuses *)

Inductive Status :=
  | StOk | StContinue | StBadRequest | StUnauthorized | StForbidden | StNotFound
  | StMethodNotAllowed | StRequestTimeout | StLengthRequired | StPayloadTooLarge
  | StUnsupportedMediaType | StExpectationFailed | StRequestHeaderFieldsTooLarge
  | StNotImplemented | StServiceUnavailable | StHttpVersionNotSupported.

#[export] Instance Status_eq_dec : EqDecision Status.
Proof. solve_decision. Defined.

Definition status_code (s : Status) : Z :=
  match s with
  | StOk => 200
  | StContinue => 100
  | StBadRequest => 400
  | StUnauthorized => 401
  | StForbidden => 403
  | StNotFound => 404
  | StMethodNotAllowed => 405
  | StRequestTimeout => 408
  | StLengthRequired => 411
  | StPayloadTooLarge => 413
  | StUnsupportedMediaType => 415
  | StExpectationFailed => 417
  | StRequestHeaderFieldsTooLarge => 431
  | StNotImplemented => 501
  | StServiceUnavailable => 503
  | StHttpVersionNotSupported => 505
  end.

Definition status_reason (s : Status) : str :=
  match s with
  | StOk => lit "OK"
  | StContinue => lit "Continue"
  | StBadRequest => lit "Bad Request"
  | StUnauthorized => lit "Unauthorized"
  | StForbidden => lit "Forbidden"
  | StNotFound => lit "Not Found"
  | StMethodNotAllowed => lit "Method Not Allowed"
  | StRequestTimeout => lit "Request Timeout"
  | StLengthRequired => lit "Length Required"
  | StPayloadTooLarge => lit "Payload Too Large"
  | StUnsupportedMediaType => lit "Unsupported Media Type"
  | StExpectationFailed => lit "Expectation Failed"
  | StRequestHeaderFieldsTooLarge => lit "Request Header Fields Too Large"
  | StNotImplemented => lit "Not Implemented"
  | StServiceUnavailable => lit "Service Unavailable"
  | StHttpVersionNotSupported => lit "HTTP Version Not Supported"
  end.

Definition is_retryable (s : Status) : bool :=
  let c := status_code s in (c =? 429) || (c =? 502) || (c =? 503) || (c =? 504).

(** The [google.rpc.Code]. *)
Definition rpc_code (s : Status) : Z :=
  match s with
  | StBadRequest => 3
  | StUnauthorized => 16
  | StForbidden => 7
  | StNotFound => 5
  | StRequestTimeout => 4
  | StPayloadTooLarge => 8
  | StServiceUnavailable => 14
  | StNotImplemented => 12
  | StMethodNotAllowed | StLengthRequired | StUnsupportedMediaType | StExpectationFailed
  | StRequestHeaderFieldsTooLarge | StHttpVersionNotSupported => 3
  | StOk | StContinue => 0
  end.

(** [ContentType] has one value. *)
Inductive ContentType := Protobuf.
Definition ContentType_as_str (c : ContentType) : str := match c with Protobuf => lit "application/x-protobuf" end.

Definition MAX_MESSAGE : nat := 1024.

Inductive HeaderError := HdrBadName | HdrBadValue.

#[export] Instance HeaderError_eq_dec : EqDecision HeaderError.
Proof. solve_decision. Defined.

(** ** Bytes of a header *)

Definition is_alphanumeric (b : byte) : bool :=
  let c := u8v b in ((48 <=? c) && (c <=? 57)) || ((65 <=? c) && (c <=? 90)) || ((97 <=? c) && (c <=? 122)).

Definition is_tchar (b : byte) : bool := is_alphanumeric b || bool_decide (b ∈ lit "!#$%&'*+-.^_`|~").

(** [eq_ignore_ascii_case]. *)
Definition ascii_lower (b : byte) : byte := let c := u8v b in if (65 <=? c) && (c <=? 90) then u8 (c + 32) else b.
Definition eq_ignore_ascii_case (a b : str) : bool := bool_decide (map ascii_lower a = map ascii_lower b).

(** ** A response *)

Record Response := MkResponse {
  rs_status : Status;
  rs_headers : list (str * str);
  rs_body : list byte;
  rs_close : bool;
}.

Definition Response_new (status : Status) : Response := MkResponse status [] [] false.
Definition closing (r : Response) : Response := MkResponse r.(rs_status) r.(rs_headers) r.(rs_body) true.

Definition Response_header (r : Response) (name value : str) : result HeaderError Response :=
  if bool_decide (name = []) || negb (forallb is_tchar name) then Err HdrBadName
  else if existsb (fun b => (u8v b =? 13) || (u8v b =? 10) || (u8v b =? 0) || (u8v b <? 0x20)) value then Err HdrBadValue
  else Ok (MkResponse r.(rs_status) (r.(rs_headers) ++ [(name, value)]) r.(rs_body) r.(rs_close)).

(** [retain] the other names, then [push]. *)
Definition replace_header (r : Response) (unwanted name value : str) : Response :=
  MkResponse r.(rs_status)
    (List.filter (fun h => negb (eq_ignore_ascii_case h.1 unwanted)) r.(rs_headers) ++ [(name, value)]) r.(rs_body) r.(rs_close).

Definition retry_after (r : Response) (seconds : Z) : Response := replace_header r (lit "retry-after") (lit "Retry-After") (decimal seconds).
Definition allow (r : Response) (methods : str) : Response := replace_header r (lit "allow") (lit "Allow") methods.

Definition with_body (r : Response) (content_type : ContentType) (bytes : list byte) : Response :=
  replace_header (MkResponse r.(rs_status) r.(rs_headers) bytes r.(rs_close)) (lit "content-type") (lit "Content-Type") (ContentType_as_str content_type).

(** ** Just enough protobuf to answer *)

Fixpoint rpc_put_varint_from (fuel : nat) (value : Z) : list byte :=
  match fuel with
  | O => []
  | S fuel =>
      let b := Z.land value 0x7f in
      let value := Z.shiftr value 7 in
      if value =? 0 then [u8 b] else u8 (Z.lor b 0x80) :: rpc_put_varint_from fuel value
  end.
Definition rpc_put_varint (value : Z) : list byte := rpc_put_varint_from 10 value.

Definition put_tag (field wire : Z) : list byte := rpc_put_varint (Z.lor (Z.shiftl field 3) wire).

Definition put_len_delimited (field : Z) (bytes : list byte) : list byte :=
  put_tag field 2 ++ rpc_put_varint (Z.of_nat (length bytes)) ++ bytes.

Definition encode_rpc_status (code : Z) (message : str) : list byte :=
  (if negb (code =? 0) then put_tag 1 0 ++ rpc_put_varint code else []) ++
  (if bool_decide (message = []) then [] else put_len_delimited 2 message).

(** [str::chars]: each character with its bytes. *)
Fixpoint chars_from (fuel : nat) (s : str) : list (Z * str) :=
  match fuel with
  | O => []
  | S fuel =>
      match s with
      | [] => []
      | _ :: _ =>
          match utf8_step s with
          | Some (c, n) => (c, take n s) :: chars_from fuel (drop n s)
          | None => (65533, take 1 s) :: chars_from fuel (drop 1 s)
          end
      end
  end.
Definition chars (s : str) : list (Z * str) := chars_from (length s) s.
Definition collect (l : list (Z * str)) : str := concat (map snd l).

(** [char::is_control]: the category Cc. *)
Definition is_control (c : Z) : bool := (c <? 0x20) || ((0x7f <=? c) && (c <=? 0x9f)).

Definition encode_export_response (rejected_spans : Z) (error_message : str) : list byte :=
  if (rejected_spans =? 0) && bool_decide (error_message = []) then []
  else
    put_len_delimited 1
      ((if negb (rejected_spans =? 0) then put_tag 1 0 ++ rpc_put_varint rejected_spans else []) ++
       (if bool_decide (error_message = []) then [] else put_len_delimited 2 (collect (take MAX_MESSAGE (chars error_message))))).

(** ** Errors *)

Definition Response_error (status : Status) (message : str) : Response :=
  let trimmed := collect (List.filter (fun c => negb (is_control c.1)) (take MAX_MESSAGE (chars message))) in
  closing (with_body (Response_new status) Protobuf (encode_rpc_status (rpc_code status) trimmed)).

Definition unauthorized_with (message challenge : str) : Response :=
  let response := Response_error StUnauthorized message in
  MkResponse response.(rs_status) (response.(rs_headers) ++ [(lit "WWW-Authenticate", challenge)]) response.(rs_body) response.(rs_close).

Definition unauthorized (message : str) : Response := unauthorized_with message (lit "Bearer").

(** ** Serialising *)

Definition crlf : str := [x0d; x0a].

Definition status_line (s : Status) : str := lit "HTTP/1.1 " ++ decimal (status_code s) ++ lit " " ++ status_reason s.
Definition header_line (h : str * str) : str := h.1 ++ lit ": " ++ h.2.

Definition response_head (r : Response) : list byte :=
  status_line r.(rs_status) ++ crlf ++
  concat (map (fun h => header_line h ++ crlf) r.(rs_headers)) ++
  (lit "Content-Length: " ++ decimal (Z.of_nat (length r.(rs_body)))) ++ crlf ++
  (if r.(rs_close) then lit "Connection: close" ++ crlf else []) ++
  crlf.

(** What the answer goes out through. *)
Class Write (W : Type) := {
  write_all : list byte -> W -> result unit unit * W;
  flush : W -> result unit unit * W;
}.

Definition write_and_flush `{Write W} (buf : list byte) (out : W) : result unit unit * W :=
  match write_all buf out with
  | (Err e, out) => (Err e, out)
  | (Ok _, out) => flush out
  end.

Definition write_to `{Write W} (r : Response) (out : W) : result unit unit * W :=
  write_and_flush (response_head r ++ r.(rs_body)) out.

Definition write_continue `{Write W} (out : W) : result unit unit * W :=
  write_and_flush (lit "HTTP/1.1 100 Continue" ++ crlf ++ crlf) out.

(** ** What a header may hold *)

Definition plain_byte (b : byte) : bool := 0x20 <=? u8v b.

Definition header_ok (h : str * str) : Prop := h.1 <> [] /\ forallb is_tchar h.1 = true /\ forallb plain_byte h.2 = true.
#[export] Instance header_ok_dec h : Decision (header_ok h) := ltac:(unfold header_ok; apply _).

Definition response_ok (r : Response) : Prop := Forall header_ok r.(rs_headers).

(** The responses a caller can build; the methods and the challenge are constants
    of the crate. *)
Inductive built : Response -> Prop :=
  | built_new s : built (Response_new s)
  | built_closing r : built r -> built (closing r)
  | built_header r name value r' : built r -> Response_header r name value = Ok r' -> built r'
  | built_retry_after r seconds : built r -> 0 <= seconds -> built (retry_after r seconds)
  | built_allow r methods : built r -> forallb plain_byte methods = true -> built (allow r methods)
  | built_body r c bytes : built r -> built (with_body r c bytes)
  | built_error s message : built (Response_error s message)
  | built_unauthorized message challenge : forallb plain_byte challenge = true -> built (unauthorized_with message challenge).

Lemma forallb_filter {A} (f : A -> bool) (P : A -> Prop) l : Forall P l -> Forall P (List.filter f l).
Proof. induction 1; cbn; [done|]. destruct (f x); [by constructor|done]. Qed.

Lemma replace_header_ok r u name value : response_ok r -> header_ok (name, value) -> response_ok (replace_header r u name value).
Proof.
  unfold response_ok, replace_header. cbn [rs_headers]. intros H Hh. rewrite Forall_app. split; [by apply forallb_filter|by constructor].
Qed.

Lemma decimal_fuel_digits f n : 0 <= n -> forallb (fun b => (48 <=? u8v b) && (u8v b <=? 57)) (decimal_fuel f n) = true.
Proof.
  revert n; induction f as [|f IH]; intros n Hn; [done|]. cbn [decimal_fuel]. destruct (Z.ltb_spec n 10).
  - cbn. rewrite u8v_u8_small by lia. rewrite andb_true_r. lia.
  - rewrite forallb_app, IH by (by apply Z.div_pos). cbn. pose proof (Z.mod_pos_bound n 10 ltac:(lia)). rewrite u8v_u8_small by lia. lia.
Qed.

Lemma digits_plain l : forallb (fun b => (48 <=? u8v b) && (u8v b <=? 57)) l = true -> forallb plain_byte l = true.
Proof. rewrite !forallb_forall. intros H b Hb%H. unfold plain_byte. lia. Qed.

Lemma built_ok r : built r -> response_ok r.
Proof.
  induction 1 as [s|r _ IH|r name value r' _ IH E|r seconds _ IH Hs|r methods _ IH Hm|r c bytes _ IH|s message|message challenge Hc]; try done.
  - by constructor.
  - unfold Response_header in E. destruct (bool_decide_reflect (name = [])) as [|Hn]; [done|]. cbn [orb] in E.
    destruct (forallb is_tchar name) eqn:Ht; [|done]. cbn [negb] in E. destruct (existsb _ value) eqn:Ev; [done|]. apply Ok_inj in E as <-.
    unfold response_ok. cbn [rs_headers]. rewrite Forall_app. split; [done|]. constructor; [|done]. split_and!; try done.
    apply forallb_forall. intros b Hb. unfold plain_byte. destruct (Z.leb_spec 0x20 (u8v b)); [done|]. exfalso.
    enough (existsb (fun b => (u8v b =? 13) || (u8v b =? 10) || (u8v b =? 0) || (u8v b <? 0x20)) value = true) by congruence.
    apply existsb_exists. exists b. split; [done|]. apply orb_true_iff. right. lia.
  - apply replace_header_ok; [done|]. split_and!; [done|done|]. apply digits_plain, decimal_fuel_digits. done.
  - apply replace_header_ok; [done|]. split_and!; [done|done|done].
  - apply replace_header_ok; [done|]. by destruct c.
  - apply replace_header_ok; [by constructor|done].
  - unfold response_ok, unauthorized_with. cbn [rs_headers]. rewrite Forall_app. split; [|by constructor].
    refine (replace_header_ok (MkResponse StUnauthorized [] _ false) _ _ _ _ _); [by constructor|done].
Qed.
