(* ===== verification/HttpRequest.v ===== *)
(** * Reading a request's head ([trailryx-ingest/src/request.rs], [config.rs])

    The limits, the head's lines, its request line and its fields, and the grammar
    they are read by. *)

From S2P Require Import Prelude Bytes Ids Completeness HttpResponse.

(** ** Limits *)

Inductive IpAddr := IpV4 (a b c d : Z) | IpV6 (bits : Z).
Record SocketAddr := MkSocketAddr { sa_ip : IpAddr; sa_port : Z }.

Definition is_loopback (ip : IpAddr) : bool := match ip with IpV4 a _ _ _ => a =? 127 | IpV6 bits => bits =? 1 end.

(** Durations in nanoseconds. *)
Definition secs (n : Z) : Z := n * 1000000000.

Record Config := MkConfig {
  cf_bind : SocketAddr;
  cf_path_prefix : str;
  cf_max_connections : Z;
  cf_thread_stack_bytes : Z;
  cf_max_request_line : Z;
  cf_max_header_line : Z;
  cf_max_header_count : Z;
  cf_max_header_section : Z;
  cf_max_body : Z;
  cf_max_inflight_body : Z;
  cf_gzip_max_ratio : Z;
  cf_max_pending : Z;
  cf_max_requests_per_connection : Z;
  cf_connection_lifetime : Z;
  cf_idle_timeout : Z;
  cf_header_timeout : Z;
  cf_body_timeout : Z;
  cf_write_timeout : Z;
  cf_read_timeout : Z;
  cf_min_body_rate : Z;
  cf_retry_after_seconds : Z;
}.

Definition Config_default : Config := {|
  cf_bind := MkSocketAddr (IpV4 127 0 0 1) 4318;
  cf_path_prefix := [];
  cf_max_connections := 256;
  cf_thread_stack_bytes := 128 * 1024;
  cf_max_request_line := 8 * 1024;
  cf_max_header_line := 8 * 1024;
  cf_max_header_count := 64;
  cf_max_header_section := 16 * 1024;
  cf_max_body := 16 * 1024 * 1024;
  cf_max_inflight_body := 256 * 1024 * 1024;
  cf_gzip_max_ratio := 200;
  cf_max_pending := 65536;
  cf_max_requests_per_connection := 100;
  cf_connection_lifetime := secs 300;
  cf_idle_timeout := secs 5;
  cf_header_timeout := secs 10;
  cf_body_timeout := secs 30;
  cf_write_timeout := secs 10;
  cf_read_timeout := secs 5;
  cf_min_body_rate := 1024;
  cf_retry_after_seconds := 1;
|}.

Definition is_routable (c : Config) : bool := negb (is_loopback c.(cf_bind).(sa_ip)).

(** ** What a head says *)

Record Reject := MkReject { rj_status : Status; rj_why : str }.

#[export] Instance Reject_eq_dec : EqDecision Reject.
Proof. solve_decision. Defined.

Definition bad_request {A} (why : string) : result Reject A := Err (MkReject StBadRequest (lit why)).
Definition too_large {A} (why : string) : result Reject A := Err (MkReject StRequestHeaderFieldsTooLarge (lit why)).

Inductive Method := Post | Get | OtherMethod.

#[export] Instance Method_eq_dec : EqDecision Method.
Proof. solve_decision. Defined.

Definition Method_as_str (m : Method) : str := match m with Post => lit "POST" | Get => lit "GET" | OtherMethod => [] end.

Record Head := MkHead {
  hd_method : Method;
  hd_path : str;
  hd_raw_path : str;
  hd_declared_length : option Z;
  hd_content_type : option (list byte);
  hd_content_encoding : option (list byte);
  hd_authorization : option (list byte);
  hd_dpop : option (list byte);
  hd_expect_continue : bool;
  hd_close_requested : bool;
}.

#[export] Instance Head_eq_dec : EqDecision Head.
Proof. solve_decision. Defined.

Definition body_length (h : Head) : Z := default 0 h.(hd_declared_length).

(** ** Lines *)

(** SP and HTAB only. *)
Definition is_ows (b : byte) : bool := (u8v b =? 0x20) || (u8v b =? 0x09).

Fixpoint trim_front (p : byte -> bool) (l : list byte) : list byte :=
  match l with [] => [] | b :: l' => if p b then trim_front p l' else l end.

Definition trim_ows (bytes : list byte) : list byte := rev (trim_front is_ows (rev (trim_front is_ows bytes))).

Definition CR : byte := x0d.
Definition LF : byte := x0a.

(** [cur] is [head[start..i]]. *)
Fixpoint crlf_lines_from (head cur : list byte) : result Reject (list (list byte)) :=
  match head with
  | [] => if bool_decide (cur = []) then Ok [] else bad_request "the head does not end with CRLF"
  | b :: head =>
      if Byte.eqb b LF then bad_request "a bare LF in the head"
      else if Byte.eqb b CR then
        match head with
        | c :: head =>
            if Byte.eqb c LF then lines ← crlf_lines_from head []; Ok (cur :: lines)
            else bad_request "a CR that is not part of CRLF"
        | [] => bad_request "a CR that is not part of CRLF"
        end
      else crlf_lines_from head (cur ++ [b])
  end.
Definition crlf_lines (head : list byte) : result Reject (list (list byte)) := crlf_lines_from head [].

(** [slice::split]. *)
Fixpoint split_on (c : byte) (l : list byte) : list (list byte) :=
  match l with
  | [] => [[]]
  | b :: l =>
      if Byte.eqb b c then [] :: split_on c l
      else match split_on c l with [] => [[b]] | part :: parts => (b :: part) :: parts end
  end.

Definition SP : byte := x20.

Definition split_request_line (line : list byte) : result Reject (list byte * list byte * list byte) :=
  match split_on SP line with
  | [] => bad_request "an empty request line"
  | [_] => bad_request "no request target"
  | [_; _] => bad_request "no HTTP version"
  | [method; target; version] =>
      if bool_decide (target = []) then bad_request "an empty request target" else Ok (method, target, version)
  | _ => bad_request "more than three fields in the request line"
  end.

(** ** The target *)

Fixpoint strip_scheme_of (schemes : list str) (target : list byte) : result Reject (list byte) :=
  match schemes with
  | [] => bad_request "a request target that is neither origin-form nor absolute-form"
  | scheme :: schemes =>
      if (length scheme <? length target)%nat && eq_ignore_ascii_case (take (length scheme) target) scheme then Ok (drop (length scheme) target)
      else strip_scheme_of schemes target
  end.
Definition strip_scheme (target : list byte) : result Reject (list byte) := strip_scheme_of [lit "http://"; lit "https://"] target.

(** [char::to_digit(16)]. *)
Definition to_digit16 (b : byte) : option Z :=
  let c := u8v b in
  if (48 <=? c) && (c <=? 57) then Some (c - 48)
  else if (97 <=? c) && (c <=? 102) then Some (c - 87)
  else if (65 <=? c) && (c <=? 70) then Some (c - 55)
  else None.

Definition percent : byte := x25.

Fixpoint percent_decode (path : list byte) : result Reject (list byte) :=
  match path with
  | [] => Ok []
  | b :: rest =>
      if Byte.eqb b percent then
        match rest with
        | [] => bad_request "a truncated percent-escape"
        | h :: rest =>
            match to_digit16 h, rest with
            | None, _ | Some _, [] => bad_request "a truncated percent-escape"
            | Some hi, l :: rest =>
                match to_digit16 l with
                | None => bad_request "a truncated percent-escape"
                | Some lo =>
                    let byte := hi * 16 + lo in
                    if (byte =? 0) || (byte <? 0x20) || (byte =? 0x7f) then bad_request "a percent-escaped control byte in the request target"
                    else out ← percent_decode rest; Ok (u8 byte :: out)
                end
            end
        end
      else out ← percent_decode rest; Ok (b :: out)
  end.

(** From [l]'s first [c] on; up to it. *)
Definition from_first (c : byte) (l : list byte) : option (list byte) := (fun at_ => drop at_ l) <$> position (Byte.eqb c) l.
Definition up_to_first (c : byte) (l : list byte) : list byte := match position (Byte.eqb c) l with Some at_ => take at_ l | None => l end.

Definition parse_target (target : list byte) : result Reject (str * str) :=
  path_and_query ←
    (if bool_decide (head target = Some slash) then Ok target
     else rest ← strip_scheme target; Ok (default [slash] (from_first slash rest)));
  let path := up_to_first x3f path_and_query in
  if existsb (fun b => (u8v b <=? 0x20) || (0x7f <=? u8v b)) path then bad_request "a control byte or non-ASCII byte in the request target"
  else
    decoded ← percent_decode path;
    if negb (valid_utf8 decoded) then bad_request "the request target is not valid UTF-8"
    else if negb (valid_utf8 path) then bad_request "the request target is not ASCII"
    else Ok (decoded, path).

(** ** Fields *)

Definition is_ascii_digit (b : byte) : bool := (48 <=? u8v b) && (u8v b <=? 57).

Fixpoint length_value (value : list byte) (total : Z) : option Z :=
  match value with
  | [] => Some total
  | b :: value =>
      if u64_max <? total * 10 then None
      else if u64_max <? total * 10 + (u8v b - 48) then None
      else length_value value (total * 10 + (u8v b - 48))
  end.

Definition parse_content_length (value : list byte) : result Reject Z :=
  if bool_decide (value = []) || (20 <? length value)%nat || negb (forallb is_ascii_digit value) then bad_request "Content-Length is not a plain decimal number"
  else ok_or (length_value value 0) (MkReject StPayloadTooLarge (lit "Content-Length does not fit a 64-bit integer")).

Definition colon : byte := x3a.

Definition validate_port (with_colon : list byte) : result Reject unit :=
  match with_colon with
  | c :: digits => if Byte.eqb c colon && forallb is_ascii_digit digits then Ok tt else bad_request "a malformed port in a Host field"
  | [] => bad_request "a malformed port in a Host field"
  end.

(** [rposition]. *)
Definition rposition (p : byte -> bool) (l : list byte) : option nat := (fun i => (length l - 1 - i)%nat) <$> position p (rev l).

Definition validate_host (value : list byte) : result Reject unit :=
  if bool_decide (value = []) then bad_request "an empty Host field"
  else if existsb (Byte.eqb x40) value then bad_request "userinfo in a Host field"
  else if existsb is_ows value then bad_request "whitespace in a Host field"
  else
    host ←
      (if bool_decide (head value = Some x5b) then
         close ← ok_or (position (Byte.eqb x5d) value) (MkReject StBadRequest (lit "an unterminated IPv6 literal in a Host field"));
         let after := drop (close + 1) value in
         _ ← (if bool_decide (after = []) then Ok tt else validate_port after);
         Ok (take (close + 1) value)
       else
         match rposition (Byte.eqb colon) value with
         | Some at_ => _ ← validate_port (drop at_ value); Ok (take at_ value)
         | None => Ok value
         end);
    if bool_decide (host = []) then bad_request "a Host field with no host" else Ok tt.

(** What the loop over the fields carries. *)
Record Fields := MkFields {
  fs_content_length : option Z;
  fs_content_type : option (list byte);
  fs_content_encoding : option (list byte);
  fs_authorization : option (list byte);
  fs_dpop : option (list byte);
  fs_expect : option (list byte);
  fs_host_seen : Z;
  fs_close_requested : bool;
  fs_fields : Z;
}.
Definition no_fields : Fields := MkFields None None None None None None 0 false 0.

(** A singleton field's slot. *)
Definition once {A} (slot : option A) (value : A) (status : Status) (why : string) : result Reject (option A) :=
  match slot with Some _ => Err (MkReject status (lit why)) | None => Ok (Some value) end.

Definition control_byte (b : byte) : bool := (u8v b =? 0) || ((u8v b <? 0x20) && negb (u8v b =? 0x09)) || (u8v b =? 0x7f).

Definition take_field (f : Fields) (name value : list byte) : result Reject Fields :=
  let '(MkFields cl ct ce au dp ex host close n) := f in
  let named := eq_ignore_ascii_case name in
  if named (lit "transfer-encoding") then Err (MkReject StNotImplemented (lit "this server does not implement transfer codings"))
  else if named (lit "content-length") then
    match cl with
    | Some _ => bad_request "two Content-Length fields"
    | None => v ← parse_content_length value; Ok (MkFields (Some v) ct ce au dp ex host close n)
    end
  else if named (lit "content-type") then ct ← once ct value StBadRequest "two Content-Type fields"; Ok (MkFields cl ct ce au dp ex host close n)
  else if named (lit "content-encoding") then ce ← once ce value StBadRequest "two Content-Encoding fields"; Ok (MkFields cl ct ce au dp ex host close n)
  else if named (lit "authorization") then
    au ← once au value StBadRequest "two Authorization fields; this server will not choose between credentials"; Ok (MkFields cl ct ce au dp ex host close n)
  else if named (lit "dpop") then dp ← once dp value StBadRequest "two DPoP fields; a request carries one proof"; Ok (MkFields cl ct ce au dp ex host close n)
  else if named (lit "expect") then ex ← once ex value StExpectationFailed "two Expect fields"; Ok (MkFields cl ct ce au dp ex host close n)
  else if named (lit "host") then
    if 1 <? host + 1 then bad_request "two Host fields"
    else _ ← validate_host value; Ok (MkFields cl ct ce au dp ex (host + 1) close n)
  else if named (lit "connection") then
    Ok (MkFields cl ct ce au dp ex host (close || existsb (fun option => eq_ignore_ascii_case (trim_ows option) (lit "close")) (split_on x2c value)) n)
  else Ok f.

Definition counted (f : Fields) : Fields :=
  MkFields f.(fs_content_length) f.(fs_content_type) f.(fs_content_encoding) f.(fs_authorization) f.(fs_dpop) f.(fs_expect)
    f.(fs_host_seen) f.(fs_close_requested) (f.(fs_fields) + 1).

Definition field_step (config : Config) (f : Fields) (line : list byte) : result Reject Fields :=
  let f := counted f in
  if config.(cf_max_header_count) <? f.(fs_fields) then too_large "too many header fields"
  else if config.(cf_max_header_line) <? Z.of_nat (length line) then too_large "a header line exceeds its cap"
  else if match line with b :: _ => is_ows b | [] => false end then bad_request "an obsolete line fold in the header section"
  else
    at_ ← ok_or (position (Byte.eqb colon) line) (MkReject StBadRequest (lit "a header line with no colon"));
    let name := take at_ line in
    let value := drop (at_ + 1) line in
    if bool_decide (name = []) || negb (forallb is_tchar name) then bad_request "a header name outside the token set"
    else if existsb control_byte value then bad_request "a control byte in a header value"
    else take_field f name (trim_ows value).

(** [for line in lines], to the terminator. *)
Fixpoint take_fields (config : Config) (f : Fields) (lines : list (list byte)) : result Reject Fields :=
  match lines with
  | [] => Ok f
  | line :: lines => if bool_decide (line = []) then Ok f else f ← field_step config f line; take_fields config f lines
  end.

(** ** The head *)

Definition method_of (method : list byte) : Method :=
  if bool_decide (method = lit "POST") then Post else if bool_decide (method = lit "GET") then Get else OtherMethod.

Definition expects (expect : option (list byte)) : result Reject bool :=
  match expect with
  | None => Ok false
  | Some value =>
      if eq_ignore_ascii_case value (lit "100-continue") then Ok true
      else Err (MkReject StExpectationFailed (lit "the only expectation this server understands is 100-continue"))
  end.

Definition check_version (version : list byte) : result Reject unit :=
  if bool_decide (version = lit "HTTP/1.1") then Ok tt
  else if bool_decide (take 5 version = lit "HTTP/") && (length version =? 8)%nat
  then Err (MkReject StHttpVersionNotSupported (lit "this server speaks HTTP/1.1 only"))
  else bad_request "the version is malformed".

Definition parse_head (head : list byte) (config : Config) : result Reject Head :=
  all ← crlf_lines head;
  match all with
  | [] => bad_request "no request line"
  | request_line :: lines =>
      if config.(cf_max_request_line) <? Z.of_nat (length request_line) then too_large "the request line exceeds its cap"
      else
        '(method, target, version) ← split_request_line request_line;
        _ ← check_version version;
        if negb (forallb is_tchar method) || bool_decide (method = []) then bad_request "the method is not a token"
        else
          '(path, raw_path) ← parse_target target;
          f ← take_fields config no_fields lines;
          if negb (f.(fs_host_seen) =? 1) then bad_request "a request needs exactly one Host field"
          else
            expect_continue ← expects f.(fs_expect);
            Ok {| hd_method := method_of method; hd_path := path; hd_raw_path := raw_path;
                  hd_declared_length := f.(fs_content_length); hd_content_type := f.(fs_content_type);
                  hd_content_encoding := f.(fs_content_encoding); hd_authorization := f.(fs_authorization); hd_dpop := f.(fs_dpop);
                  hd_expect_continue := expect_continue; hd_close_requested := f.(fs_close_requested) |}
  end.

Definition sample_head : list byte :=
  lit "POST /v1%2Ftraces?x=1 HTTP/1.1" ++ crlf ++ lit "host: [::1]:4318" ++ crlf ++ lit "CONTENT-LENGTH:  17	" ++ crlf ++
  lit "Connection: keep-alive, Close" ++ crlf ++ crlf.

Example sample_head_is_read : parse_head sample_head Config_default =
  Ok (MkHead Post (lit "/v1/traces") (lit "/v1%2Ftraces") (Some 17) None None None None false true).
Proof. vm_compute. reflexivity. Qed.

(** ** The grammar: a head as its sender writes it *)

Record Message := MkMessage { mg_method : list byte; mg_target : list byte; mg_fields : list (list byte * list byte) }.

Definition request_line_of (m : Message) : list byte := m.(mg_method) ++ SP :: m.(mg_target) ++ SP :: lit "HTTP/1.1".
Definition field_line (f : list byte * list byte) : list byte := f.1 ++ colon :: f.2.
Definition on_lines (lines : list (list byte)) : list byte := concat (map (fun l => l ++ crlf) lines).
Definition written (m : Message) : list byte := on_lines (request_line_of m :: map field_line m.(mg_fields)).

(** The values given under a name. *)
Definition values (name : str) (fs : list (list byte * list byte)) : list (list byte) :=
  map (fun f => trim_ows f.2) (List.filter (fun f => eq_ignore_ascii_case f.1 name) fs).

Definition singletons : list str :=
  [lit "content-length"; lit "content-type"; lit "content-encoding"; lit "authorization"; lit "dpop"; lit "expect"; lit "host"].

Definition field_ok (config : Config) (f : list byte * list byte) : Prop :=
  f.1 <> [] /\ forallb is_tchar f.1 = true /\ existsb control_byte f.2 = false /\
  Z.of_nat (length (field_line f)) <= config.(cf_max_header_line).

Definition fields_ok (config : Config) (fs : list (list byte * list byte)) : Prop :=
  Z.of_nat (length fs) <= Z.max 0 config.(cf_max_header_count) /\
  Forall (field_ok config) fs /\
  length (values (lit "transfer-encoding") fs) = 0%nat /\
  Forall (fun k => (length (values k fs) <= 1)%nat) singletons /\
  Forall (fun v => is_ok (parse_content_length v) = true) (values (lit "content-length") fs) /\
  Forall (fun v => validate_host v = Ok tt) (values (lit "host") fs).

Definition says_close (v : list byte) : bool := existsb (fun option => eq_ignore_ascii_case (trim_ows option) (lit "close")) (split_on x2c v).

Definition declared (fs : list (list byte * list byte)) : option Z :=
  v ← head (values (lit "content-length") fs); match parse_content_length v with Ok n => Some n | Err _ => None end.

Definition fields_of (fs : list (list byte * list byte)) : Fields := {|
  fs_content_length := declared fs;
  fs_content_type := head (values (lit "content-type") fs);
  fs_content_encoding := head (values (lit "content-encoding") fs);
  fs_authorization := head (values (lit "authorization") fs);
  fs_dpop := head (values (lit "dpop") fs);
  fs_expect := head (values (lit "expect") fs);
  fs_host_seen := Z.of_nat (length (values (lit "host") fs));
  fs_close_requested := existsb says_close (values (lit "connection") fs);
  fs_fields := Z.of_nat (length fs);
|}.

Definition message_ok (config : Config) (m : Message) : Prop :=
  m.(mg_method) <> [] /\ forallb is_tchar m.(mg_method) = true /\
  m.(mg_target) <> [] /\ Forall (fun b => b <> SP /\ b <> CR /\ b <> LF) m.(mg_target) /\
  Z.of_nat (length (request_line_of m)) <= config.(cf_max_request_line) /\
  fields_ok config m.(mg_fields) /\ length (values (lit "host") m.(mg_fields)) = 1%nat.

(** ** Lines *)

Definition clean (l : list byte) : Prop := Forall (fun b => b <> CR /\ b <> LF) l.

Lemma crlf_lines_from_iff head cur ls :
  crlf_lines_from head cur = Ok ls <->
  (cur = [] /\ head = [] /\ ls = []) \/
  (exists l ls', ls = (cur ++ l) :: ls' /\ head = l ++ crlf ++ on_lines ls' /\ clean l /\ Forall clean ls').
Proof.
  revert head cur ls. refine (@well_founded_induction_type _ _ (well_founded_ltof _ (@length byte)) _ _). intros head IH cur ls. destruct head as [|b head]; cbn [crlf_lines_from].
  { destruct (bool_decide_reflect (cur = [])) as [->|Hc].
    - split; [intros [= <-]; by left|]. intros [(_ & _ & ->)|(l & ls' & _ & E & _)]; [done|]. by destruct l.
    - split; [done|]. intros [(? & _)|(l & ls' & _ & E & _)]; [done|]. by destruct l. }
  destruct (Byte.eqb b LF) eqn:El.
  { apply Byte.byte_dec_bl in El as ->. split; [done|]. intros [(_ & ? & _)|(l & ls' & _ & E & Hl & _)]; [done|].
    destruct l as [|x l]; [done|]. injection E as <- _. inversion Hl. naive_solver. }
  destruct (Byte.eqb b CR) eqn:Ec.
  { apply Byte.byte_dec_bl in Ec as ->. destruct head as [|c head].
    { split; [done|]. intros [(_ & ? & _)|(l & ls' & _ & E & Hl & _)]; [done|]. destruct l as [|x l]; [done|]. injection E as <- _. inversion Hl. naive_solver. }
    destruct (Byte.eqb c LF) eqn:Elf.
    - apply Byte.byte_dec_bl in Elf as ->. rewrite result_bind_ok. setoid_rewrite (IH head); [|unfold ltof; cbn; lia]. split.
      + intros (ls2 & Hs & [= <-]). right. exists [], ls2. rewrite app_nil_r. split; [done|].
        destruct Hs as [(_ & -> & ->)|(l & ls' & -> & -> & Hl & Hls)].
        * split_and!; [done|by constructor|done].
        * split_and!; [cbn; by rewrite <- app_assoc|by constructor|by constructor].
      + intros [(_ & ? & _)|(l & ls' & -> & E & Hl & Hls)]; [done|]. destruct l as [|x l]; [|injection E as <- _; inversion Hl; naive_solver].
        injection E as ->. rewrite app_nil_r. exists ls'. split; [|done]. destruct ls' as [|l' ls']; [by left|right].
        apply Forall_cons in Hls as [H1 H2]. exists l', ls'. cbn. by rewrite <- app_assoc.
    - split; [done|]. intros [(_ & ? & _)|(l & ls' & _ & E & Hl & _)]; [done|]. destruct l as [|x l]; [injection E as -> _; done|].
      injection E as <- _. inversion Hl. naive_solver. }
  rewrite (IH head); [|unfold ltof; cbn; lia]. assert (Hb : b <> CR /\ b <> LF) by (split; intros ->; done). split.
  - intros [(H & _)|(l & ls' & -> & -> & Hl & Hls)]; [by destruct cur|]. right. exists (b :: l), ls'. rewrite <- app_assoc. split_and!; try done. by constructor.
  - intros [(_ & ? & _)|(l & ls' & -> & E & Hl & Hls)]; [done|]. destruct l as [|x l]; [injection E as -> _; naive_solver|].
    injection E as <- ->. right. apply Forall_cons in Hl as [_ Hl]. exists l, ls'. by rewrite <- app_assoc.
Qed.

Lemma crlf_lines_iff head ls : crlf_lines head = Ok ls <-> head = on_lines ls /\ Forall clean ls.
Proof.
  unfold crlf_lines. rewrite crlf_lines_from_iff. split.
  - intros [(_ & -> & ->)|(l & ls' & -> & -> & Hl & Hls)]; [done|]. split; [cbn; by rewrite <- app_assoc|by constructor].
  - intros [-> H]. destruct ls as [|l ls]; [by left|]. right. apply Forall_cons in H as [H1 H2]. exists l, ls. cbn. by rewrite <- app_assoc.
Qed.

(** ** The request line *)

Lemma eqb_true (a b : byte) : Byte.eqb a b = true <-> a = b.
Proof. split; [apply Byte.byte_dec_bl|apply Byte.byte_dec_lb]. Qed.

Lemma split_on_none c l : c ∉ l -> split_on c l = [l].
Proof.
  induction l as [|b l IH]; intros H; [done|]. cbn [split_on]. apply not_elem_of_cons in H as [Hb H].
  destruct (Byte.eqb b c) eqn:E; [by apply eqb_true in E|]. by rewrite (IH H).
Qed.

Lemma split_on_app c a l : c ∉ a -> split_on c (a ++ c :: l) = a :: split_on c l.
Proof.
  induction a as [|b a IH]; intros H; cbn [app split_on].
  - by rewrite (proj2 (eqb_true c c) eq_refl).
  - apply not_elem_of_cons in H as [Hb H]. destruct (Byte.eqb b c) eqn:E; [by apply eqb_true in E|]. by rewrite (IH H).
Qed.

(** The first piece, and what is left to split. *)
Lemma split_on_inv c l p ps :
  split_on c l = p :: ps -> c ∉ p /\ ((ps = [] /\ l = p) \/ exists l', l = p ++ c :: l' /\ split_on c l' = ps).
Proof.
  revert p ps; induction l as [|b l IH]; intros p ps; cbn [split_on].
  { intros [= <- <-]. split; [by apply not_elem_of_nil|by left]. }
  destruct (Byte.eqb b c) eqn:E.
  { apply eqb_true in E as ->. intros [= <- <-]. split; [by apply not_elem_of_nil|]. right. by exists l. }
  destruct (split_on c l) as [|q qs] eqn:Es.
  { intros [= <- <-]. exfalso. destruct l; cbn in Es; [done|]. destruct (Byte.eqb b0 c); [done|]. by destruct (split_on c l). }
  intros [= <- <-]. destruct (IH q qs eq_refl) as [Hn Hq]. split.
  { apply not_elem_of_cons. split; [|done]. intros ->. by rewrite (proj2 (eqb_true b b) eq_refl) in E. }
  destruct Hq as [[-> ->]|(l' & -> & H)]; [by left|right]. by exists l'.
Qed.

Lemma split_request_line_iff line method target version :
  split_request_line line = Ok (method, target, version) <->
  line = method ++ SP :: target ++ SP :: version /\ SP ∉ method /\ SP ∉ target /\ SP ∉ version /\ target <> [].
Proof.
  unfold split_request_line. split.
  - destruct (split_on SP line) as [|a [|b [|c [|]]]] eqn:E; try done. destruct (bool_decide_reflect (b = [])) as [|Hb]; [done|]. intros [= <- <- <-].
    apply split_on_inv in E as [Ha [[? _]|(l1 & -> & E)]]; [done|]. apply split_on_inv in E as [Hb' [[? _]|(l2 & -> & E)]]; [done|].
    apply split_on_inv in E as [Hc [[_ ->]|(l3 & -> & E)]]; [|by destruct l3; cbn in E; [|destruct (Byte.eqb _ _); [|destruct (split_on SP l3)]]]. done.
  - intros (-> & Ha & Hb & Hc & Hn). rewrite split_on_app, split_on_app, split_on_none by done. by rewrite bool_decide_false.
Qed.

Lemma check_version_ok version : check_version version = Ok tt <-> version = lit "HTTP/1.1".
Proof.
  unfold check_version. destruct (bool_decide_reflect (version = lit "HTTP/1.1")) as [->|H]; [done|]. split; [|done]. by destruct (_ && _).
Qed.

(** ** Names without case *)

Lemma eq_ignore_trans name a b : eq_ignore_ascii_case name a = true -> eq_ignore_ascii_case name b = eq_ignore_ascii_case a b.
Proof. unfold eq_ignore_ascii_case. rewrite bool_decide_eq_true. by intros ->. Qed.

Lemma values_app k a b : values k (a ++ b) = (values k a ++ values k b).
Proof. unfold values. rewrite List.filter_app, map_app. done. Qed.

Lemma values_one k name v : values k [(name, v)] = if eq_ignore_ascii_case name k then [trim_ows v] else [].
Proof. unfold values. cbn. by destruct (eq_ignore_ascii_case name k). Qed.

Lemma values_snoc k fs name v : values k (fs ++ [(name, v)]) = values k fs ++ (if eq_ignore_ascii_case name k then [trim_ows v] else []).
Proof. by rewrite values_app, values_one. Qed.

(** What one more field must be. *)
Definition one_ok (config : Config) (fs : list (list byte * list byte)) (f : list byte * list byte) : Prop :=
  field_ok config f /\ Z.of_nat (length fs) + 1 <= config.(cf_max_header_count) /\
  eq_ignore_ascii_case f.1 (lit "transfer-encoding") = false /\
  Forall (fun k => eq_ignore_ascii_case f.1 k = true -> values k fs = []) singletons /\
  (eq_ignore_ascii_case f.1 (lit "content-length") = true -> is_ok (parse_content_length (trim_ows f.2)) = true) /\
  (eq_ignore_ascii_case f.1 (lit "host") = true -> validate_host (trim_ows f.2) = Ok tt).

Lemma length_one_more {A} (l : list A) (b : bool) (x : A) : (length (l ++ (if b then [x] else [])) <= 1)%nat <-> (length l <= 1)%nat /\ (b = true -> l = []).
Proof. rewrite length_app. destruct b; destruct l as [|? [|]]; cbn; naive_solver lia. Qed.

Lemma Forall_one_more {A} (P : A -> Prop) (l : list A) (b : bool) (x : A) : Forall P (l ++ (if b then [x] else [])) <-> Forall P l /\ (b = true -> P x).
Proof. rewrite Forall_app. destruct b; [rewrite Forall_singleton|rewrite Forall_nil]; naive_solver. Qed.

Lemma fields_ok_snoc config fs f : fields_ok config (fs ++ [f]) <-> fields_ok config fs /\ one_ok config fs f.
Proof.
  destruct f as [name v]. unfold fields_ok, one_ok, singletons. rewrite !Forall_cons, !Forall_nil, !values_snoc, !length_one_more, !Forall_one_more.
  rewrite (length_app fs), Forall_app, Forall_singleton. cbn [length fst snd]. rewrite length_app.
  destruct (eq_ignore_ascii_case name (lit "transfer-encoding")) eqn:Et; cbn [length].
  - split; [intros (_ & _ & H & _); lia|]. intros (_ & _ & _ & H & _). done.
  - split; intros H; decompose [and] H; split_and!; try done; lia.
Qed.

(** ** One field *)

Lemma position_some (c : byte) l n : position (Byte.eqb c) l = Some n <-> exists a b, l = a ++ c :: b /\ c ∉ a /\ length a = n.
Proof.
  revert n; induction l as [|x l IH]; intros n; cbn [position].
  { split; [done|]. intros (a & b & E & _). by destruct a. }
  destruct (Byte.eqb c x) eqn:E.
  - apply eqb_true in E as <-. split.
    + intros [= <-]. exists [], l. split_and!; [done|by apply not_elem_of_nil|done].
    + intros (a & b & Ea & Ha & <-). destruct a as [|y a]; [done|]. injection Ea as <- _. by apply not_elem_of_cons in Ha as [? _].
  - rewrite fmap_Some. setoid_rewrite IH. split.
    + intros (m & (a & b & -> & Ha & <-) & ->). exists (x :: a), b. split_and!; [done| |done]. apply not_elem_of_cons. split; [|done].
      intros ->. by rewrite (proj2 (eqb_true x x) eq_refl) in E.
    + intros (a & b & Ea & Ha & <-). destruct a as [|y a]; [injection Ea as -> _; by rewrite (proj2 (eqb_true c c) eq_refl) in E|].
      injection Ea as <- ->. exists (length a). split; [|done]. exists a, b. apply not_elem_of_cons in Ha as [_ Ha]. done.
Qed.

Lemma tchar_not b name : forallb is_tchar name = true -> is_tchar b = false -> b ∉ name.
Proof. rewrite forallb_forall. intros H Hb Hin%list_elem_of_In%H. congruence. Qed.

Definition step_result (config : Config) (fs : list (list byte * list byte)) (f : list byte * list byte) : result Reject Fields :=
  take_field (counted (fields_of fs)) f.1 (trim_ows f.2).

Lemma field_step_iff config fs line f' :
  field_step config (fields_of fs) line = Ok f' <->
  exists f, line = field_line f /\ field_ok config f /\ Z.of_nat (length fs) + 1 <= config.(cf_max_header_count) /\ step_result config fs f = Ok f'.
Proof.
  unfold field_step, step_result, field_ok. cbn [counted fields_of fs_fields].
  destruct (Z.ltb_spec (cf_max_header_count config) (Z.of_nat (length fs) + 1)) as [|Hc]; [split; [done|]; intros (? & _ & _ & ? & _); lia|].
  destruct (Z.ltb_spec (cf_max_header_line config) (Z.of_nat (length line))) as [|Hl]; [split; [done|]; intros (? & -> & (_ & _ & _ & ?) & _); lia|].
  split.
  - destruct line as [|x line0] eqn:Eline; [intros (? & H & _)%result_bind_ok; done|]. rewrite <- Eline in *. destruct (is_ows x); [done|]. intros (n & Hn%ok_or_ok & H)%result_bind_ok.
    apply position_some in Hn as (a & b & Eab & Ha & <-). clear Eline x line0. subst line. rewrite take_app_length in H.
    replace (length a + 1)%nat with (length (a ++ [colon])) in H by (rewrite length_app; cbn; lia).
    replace (a ++ colon :: b) with ((a ++ [colon]) ++ b) in H by (by rewrite <- app_assoc). rewrite drop_app_length in H.
    destruct (bool_decide_reflect (a = [])) as [|Hne]; [done|]. destruct (forallb is_tchar a) eqn:Ht; [|done]. cbn [orb negb] in H.
    destruct (existsb control_byte b) eqn:Eb; [done|]. exists (a, b). done.
  - intros ([a b] & -> & (Hne & Ht & Eb & _) & _ & H). cbn [fst snd field_line] in *. unfold field_line in *. cbn [fst snd] in *.
    destruct a as [|x a]; [done|]. assert (Hx : is_ows x = false).
    { destruct (is_ows x) eqn:Ex; [|done]. exfalso. cbn [forallb] in Ht. apply andb_true_iff in Ht as [Ht _]. unfold is_ows in Ex.
      apply orb_true_iff in Ex as [E%Z.eqb_eq|E%Z.eqb_eq]; [apply (u8v_inj x x20) in E as ->|apply (u8v_inj x x09) in E as ->]; by vm_compute in Ht. }
    change ((x :: a) ++ colon :: b) with (x :: (a ++ colon :: b)) at 1. cbn match. rewrite Hx.
    assert (Hp : position (Byte.eqb colon) ((x :: a) ++ colon :: b) = Some (length (x :: a))).
    { apply position_some. exists (x :: a), b. split_and!; [done| |done]. by apply (tchar_not colon). }
    rewrite Hp. cbn [ok_or mbind result_bind]. rewrite take_app_length.
    replace (length (x :: a) + 1)%nat with (length ((x :: a) ++ [colon])) by (rewrite length_app; cbn; lia).
    replace ((x :: a) ++ colon :: b) with (((x :: a) ++ [colon]) ++ b) by (by rewrite <- app_assoc). rewrite drop_app_length.
    rewrite bool_decide_false by done. rewrite Ht. cbn [negb orb]. rewrite Eb. exact H.
Qed.

(** Decide every comparison of a name that is known to be [k]. *)
Ltac name_is E :=
  lazymatch type of E with
  | eq_ignore_ascii_case ?name ?k = true =>
      repeat match goal with
      | |- context [eq_ignore_ascii_case name ?b] =>
          let v := eval vm_compute in (eq_ignore_ascii_case k b) in
          replace (eq_ignore_ascii_case name b) with v by (rewrite (eq_ignore_trans name k b E); vm_compute; reflexivity)
      end; clear E
  end.

Lemma once_iff {A} (l : list A) v st why (f : option A -> result Reject Fields) f' :
  (slot ← once (head l) v st why; f slot) = Ok f' <-> l = [] /\ f (Some v) = Ok f'.
Proof. destruct l; cbn; [naive_solver|]. split; [done|]. intros [? _]. done. Qed.

Lemma declared_none config fs : fields_ok config fs -> declared fs = None <-> values (lit "content-length") fs = [].
Proof.
  intros (_ & _ & _ & _ & H & _). unfold declared. destruct (values _ fs) as [|v vs]; [done|]. cbn. apply Forall_cons in H as [H _].
  by destruct (parse_content_length v).
Qed.

Definition slot_free (fs : list (list byte * list byte)) (f : list byte * list byte) : Prop :=
  eq_ignore_ascii_case f.1 (lit "transfer-encoding") = false /\
  Forall (fun k => eq_ignore_ascii_case f.1 k = true -> values k fs = []) singletons /\
  (eq_ignore_ascii_case f.1 (lit "content-length") = true -> is_ok (parse_content_length (trim_ows f.2)) = true) /\
  (eq_ignore_ascii_case f.1 (lit "host") = true -> validate_host (trim_ows f.2) = Ok tt).

Lemma existsb_snoc {A} (p : A -> bool) l x : existsb p (l ++ [x]) = existsb p l || p x.
Proof. rewrite existsb_app. cbn. by rewrite orb_false_r. Qed.

Lemma declared_other fs name v : eq_ignore_ascii_case name (lit "content-length") = false -> declared (fs ++ [(name, v)]) = declared fs.
Proof. intros E. unfold declared. by rewrite values_snoc, E, app_nil_r. Qed.

Lemma declared_first fs name v :
  eq_ignore_ascii_case name (lit "content-length") = true -> values (lit "content-length") fs = [] ->
  declared (fs ++ [(name, v)]) = match parse_content_length (trim_ows v) with Ok n => Some n | Err _ => None end.
Proof. intros E Ev. unfold declared. by rewrite values_snoc, E, Ev. Qed.

(** The case of a field whose slot holds its value as it is. *)
Ltac plain_slot E :=
  unfold fields_of; rewrite declared_other by (name_is E; done); rewrite !values_snoc; name_is E; rewrite ?app_nil_r;
  rewrite once_iff; split; [intros [Hv [= <-]]; rewrite Hv; split; [|done]; naive_solver | intros [Hs ->]; decompose [and] Hs; split; [by auto|]];
  match goal with H : true = true -> values _ _ = [] |- _ => by rewrite (H eq_refl) end.

Lemma step_result_iff config fs f f' : fields_ok config fs -> step_result config fs f = Ok f' <-> slot_free fs f /\ f' = fields_of (fs ++ [f]).
Proof.
  intros Hok. pose proof (declared_none config fs Hok) as Hd. clear Hok. destruct f as [name v].
  unfold step_result, take_field, counted, slot_free, singletons, fields_of at 1. cbn [fs_content_length fs_content_type fs_content_encoding fs_authorization fs_dpop fs_expect fs_host_seen fs_close_requested fs_fields fst snd fields_of].
  assert (En : Z.of_nat (length fs) + 1 = Z.of_nat (length (fs ++ [(name, v)]))) by (rewrite length_app; cbn; lia). rewrite En.
  rewrite !Forall_cons, Forall_nil.
  destruct (eq_ignore_ascii_case name (lit "transfer-encoding")) eqn:Ete; [split; [done|]; intros [[? _] _]; done|].
  destruct (eq_ignore_ascii_case name (lit "content-length")) eqn:E1.
  { destruct (declared fs) eqn:Ed.
    { split; [done|]. intros [(_ & (Hv & _) & _) _]. discriminate (proj2 Hd (Hv eq_refl)). }
    pose proof (proj1 Hd eq_refl) as Hv. unfold fields_of. rewrite (declared_first fs name v E1 Hv), !values_snoc. name_is E1. rewrite !app_nil_r.
    rewrite result_bind_ok. split.
    - intros (n & -> & [= <-]). split; [|done]. split_and!; try done.
    - intros [(_ & _ & Hp & _) ->]. destruct (parse_content_length (trim_ows v)) as [n|]; [|by specialize (Hp eq_refl)]. by exists n. }
  destruct (eq_ignore_ascii_case name (lit "content-type")) eqn:E2; [plain_slot E2|].
  destruct (eq_ignore_ascii_case name (lit "content-encoding")) eqn:E3; [plain_slot E3|].
  destruct (eq_ignore_ascii_case name (lit "authorization")) eqn:E4; [plain_slot E4|].
  destruct (eq_ignore_ascii_case name (lit "dpop")) eqn:E5; [plain_slot E5|].
  destruct (eq_ignore_ascii_case name (lit "expect")) eqn:E6; [plain_slot E6|].
  destruct (eq_ignore_ascii_case name (lit "host")) eqn:E7.
  { rewrite <- (declared_other fs name v E1). unfold fields_of. rewrite !values_snoc. name_is E7. rewrite !app_nil_r, length_app. cbn [length].
    destruct (Z.ltb_spec 1 (Z.of_nat (length (values (lit "host") fs)) + 1)) as [Hh|Hh].
    - split; [done|]. intros [(_ & H & _) _]. decompose [and] H. match goal with H : true = true -> _ = [] |- _ => rewrite (H eq_refl) in Hh end. cbn in Hh. lia.
    - assert (Hv : values (lit "host") fs = []) by (destruct (values (lit "host") fs); [done|cbn in Hh; lia]). rewrite Hv. cbn [length app Z.of_nat Nat.add].
      rewrite result_bind_ok. split.
      + intros ([] & Hh' & [= <-]). split; [|done]. split_and!; try done.
      + intros [(_ & _ & _ & Hp) ->]. exists tt. by rewrite (Hp eq_refl). }
  destruct (eq_ignore_ascii_case name (lit "connection")) eqn:E8.
  { rewrite <- (declared_other fs name v E1). unfold fields_of. rewrite !values_snoc. name_is E8. rewrite !app_nil_r, existsb_snoc.
    split; [intros [= <-]|intros [_ ->]]; [|done]. split; [|done]. split_and!; done. }
  unfold fields_of. rewrite (declared_other fs name v E1), !values_snoc, E2, E3, E4, E5, E6, E7, E8, !app_nil_r.
  split; [intros [= <-]|intros [_ ->]]; [|done]. split; [|done]. split_and!; done.
Qed.

Lemma one_ok_iff config fs f : one_ok config fs f <-> field_ok config f /\ Z.of_nat (length fs) + 1 <= config.(cf_max_header_count) /\ slot_free fs f.
Proof. unfold one_ok, slot_free. tauto. Qed.

Lemma take_fields_iff config fs lines f' :
  fields_ok config fs ->
  take_fields config (fields_of fs) lines = Ok f' <->
  exists rest tail, lines = map field_line rest ++ tail /\ (tail = [] \/ exists after, tail = [] :: after) /\ fields_ok config (fs ++ rest) /\ f' = fields_of (fs ++ rest).
Proof.
  revert fs; induction lines as [|line lines IH]; intros fs Hok; cbn [take_fields].
  { split.
    - intros [= <-]. exists [], []. rewrite !app_nil_r. refine (conj _ (conj _ (conj _ _))); [done|by left|done|done].
    - intros (rest & tail & E & _ & _ & ->). destruct rest; [|done]. by rewrite app_nil_r. }
  destruct (bool_decide_reflect (line = [])) as [->|Hl].
  { split.
    - intros [= <-]. exists [], ([] :: lines). rewrite !app_nil_r. refine (conj _ (conj _ (conj _ _))); [done|right; by eexists|done|done].
    - intros (rest & tail & E & _ & Hk & ->). destruct rest as [|f rest]; [by rewrite app_nil_r|]. injection E as E _. by destruct f as [[|? ?] ?]. }
  rewrite result_bind_ok. split.
  - intros (f & (x & -> & Hf & Hc & Hs)%field_step_iff & H). apply (step_result_iff config) in Hs as [Hs ->]; [|done].
    assert (Hok' : fields_ok config (fs ++ [x])) by (apply fields_ok_snoc; split; [done|]; by apply one_ok_iff).
    apply (IH _ Hok') in H as (rest & tail & -> & Ht & Hk & ->). exists (x :: rest), tail. rewrite <- app_assoc in *. done.
  - intros (rest & tail & E & Ht & Hk & ->). destruct rest as [|x rest].
    { destruct Ht as [->|(after & ->)]; [done|]. injection E as -> _. done. }
    injection E as -> ->. replace (fs ++ x :: rest) with ((fs ++ [x]) ++ rest) in * by (by rewrite <- app_assoc).
    assert (Hx : fields_ok config (fs ++ [x])).
    { clear -Hk. induction rest as [|y rest IHr] using rev_ind; [by rewrite app_nil_r in Hk|]. rewrite app_assoc in Hk. by apply fields_ok_snoc in Hk as [Hk%IHr _]. }
    pose proof (proj1 (fields_ok_snoc _ _ _) Hx) as [_ (Hf & Hc & Hs)%one_ok_iff]. exists (fields_of (fs ++ [x])). split.
    + apply field_step_iff. exists x. split_and!; try done. by apply (step_result_iff config).
    + apply (IH _ Hx). by exists rest, tail.
Qed.

(** ** The head *)

Lemma on_lines_app a b : on_lines (a ++ b) = on_lines a ++ on_lines b.
Proof. unfold on_lines. by rewrite map_app, concat_app. Qed.

Lemma tchar_clean l : forallb is_tchar l = true -> clean l /\ SP ∉ l.
Proof.
  intros H. split; [|by apply (tchar_not SP)]. apply Forall_forall. intros b Hb. split; intros ->.
  - by apply (tchar_not CR) in H.
  - by apply (tchar_not LF) in H.
Qed.

Lemma plain_value_clean v : existsb control_byte v = false -> clean v.
Proof.
  intros H. apply Forall_forall. intros b Hb%list_elem_of_In. assert (Hc : control_byte b = false).
  { destruct (control_byte b) eqn:E; [|done]. assert (existsb control_byte v = true) by (apply existsb_exists; by exists b). congruence. }
  split; intros ->; by vm_compute in Hc.
Qed.

Lemma field_line_clean config f : field_ok config f -> clean (field_line f).
Proof.
  intros (_ & Ht%tchar_clean & Hv%plain_value_clean & _). unfold field_line, clean. destruct Ht as [Ht _]. rewrite Forall_app, Forall_cons. split_and!; done.
Qed.

Lemma request_line_clean config m : message_ok config m -> clean (request_line_of m).
Proof.
  intros (_ & Ht%tchar_clean & _ & Hg & _). destruct Ht as [Ht _]. unfold request_line_of, clean. rewrite Forall_app, Forall_cons, Forall_app, Forall_cons.
  split_and!; try done; [|by_evaluation]. eapply Forall_impl; [exact Hg|]. naive_solver.
Qed.

(** C31 (a head is read by its grammar). The reader accepts exactly the heads a
    sender writes by the grammar - a token for a method, a target without spaces,
    the one version, named fields without folds or control bytes, within every cap,
    no transfer coding, each framing and credential field at most once, exactly one
    host - and what it returns is what those fields say; after the empty line it
    reads nothing. Which targets, hosts, lengths and tokens are well formed is said by
    the reader's own functions for them: the theorem fixes where they apply. *)
Theorem a_head_is_read_by_its_grammar (config : Config) (bytes : list byte) (h : Head) :
  parse_head bytes config = Ok h <->
  exists m tail path raw_path expect_continue,
    bytes = written m ++ tail /\
    (tail = [] \/ exists after, tail = crlf ++ after /\ is_ok (crlf_lines after) = true) /\
    message_ok config m /\ parse_target m.(mg_target) = Ok (path, raw_path) /\
    expects (head (values (lit "expect") m.(mg_fields))) = Ok expect_continue /\
    h = {| hd_method := method_of m.(mg_method); hd_path := path; hd_raw_path := raw_path;
           hd_declared_length := declared m.(mg_fields);
           hd_content_type := head (values (lit "content-type") m.(mg_fields));
           hd_content_encoding := head (values (lit "content-encoding") m.(mg_fields));
           hd_authorization := head (values (lit "authorization") m.(mg_fields));
           hd_dpop := head (values (lit "dpop") m.(mg_fields));
           hd_expect_continue := expect_continue;
           hd_close_requested := existsb says_close (values (lit "connection") m.(mg_fields)) |}.
Proof.
  unfold parse_head. rewrite result_bind_ok. setoid_rewrite crlf_lines_iff. split.
  - intros (all & [-> Hall] & H). destruct all as [|rl lines]; [done|].
    destruct (Z.ltb_spec (cf_max_request_line config) (Z.of_nat (length rl))) as [|Hcap]; [done|].
    apply result_bind_ok in H as ([[method target] version] & (-> & Hm & Ht & _ & Hne)%split_request_line_iff & H).
    apply result_bind_ok in H as ([] & ->%check_version_ok & H).
    destruct (forallb is_tchar method) eqn:Etok; [|done]. destruct (bool_decide_reflect (method = [])) as [|Hmne]; [done|]. cbn [negb orb] in H.
    apply result_bind_ok in H as ([path raw] & Hpt & H). apply result_bind_ok in H as (f & Hf & H).
    change no_fields with (fields_of []) in Hf. apply take_fields_iff in Hf as (rest & tail & -> & Htail & Hok & ->);
      [|unfold fields_ok; split_and!; [cbn; lia|by constructor|done|by_evaluation|by constructor|by constructor]].
    cbn [app] in *. destruct (Z.eqb_spec (fs_host_seen (fields_of rest)) 1) as [Hh|]; [|done]. cbn [negb] in H. apply result_bind_ok in H as (ec & Hec & [= <-]).
    exists (MkMessage method target rest), (on_lines tail), path, raw, ec.
    refine (conj _ (conj _ (conj _ (conj _ (conj _ _))))); [| | |exact Hpt|exact Hec|reflexivity].
    + unfold written. rewrite <- on_lines_app. done.
    + destruct Htail as [->|(after & ->)]; [by left|right]. exists (on_lines after). split; [done|].
      assert (crlf_lines (on_lines after) = Ok after) as ->; [|done]. apply crlf_lines_iff. split; [done|]. clear -Hall.
      apply Forall_cons in Hall as [_ Hall]. apply Forall_app in Hall as [_ Hall]. by apply Forall_cons in Hall as [_ Hall].
    + unfold message_ok. cbn [mg_method mg_target mg_fields]. cbn [fs_host_seen fields_of] in Hh. refine (conj Hmne (conj Etok (conj Hne (conj _ (conj Hcap (conj Hok _)))))); [|lia].
      apply Forall_cons in Hall as [Hall _]. unfold clean in Hall. rewrite Forall_app, Forall_cons, Forall_app in Hall. destruct Hall as (_ & _ & Hall & _).
      apply Forall_forall. intros b Hb. split; [by intros ->|]. by apply (proj1 (Forall_forall _ _) Hall).
  - intros (m & tail & path & raw & ec & -> & Htail & Hm & Hpt & Hec & ->). pose proof Hm as (Hmne & Etok & Hne & Hg & Hcap & Hok & Hh).
    assert (Hls : exists ls, tail = on_lines ls /\ Forall clean ls /\ (ls = [] \/ exists after, ls = [] :: after)).
    { destruct Htail as [->|(after & -> & Ha)]; [exists []; split_and!; [done|by constructor|by left]|].
      destruct (crlf_lines after) as [ls|] eqn:E; [|done]. apply crlf_lines_iff in E as [-> E]. exists ([] :: ls).
      split_and!; [done|constructor; [by constructor|done]|right; by eexists]. }
    destruct Hls as (ls & -> & Hcl & Htl). exists (request_line_of m :: map field_line (mg_fields m) ++ ls). split.
    { split; [unfold written; by rewrite <- on_lines_app|]. constructor; [by apply (request_line_clean config)|]. rewrite Forall_app. split; [|done].
      apply Forall_map. destruct Hok as (_ & Hfs & _). eapply Forall_impl; [exact Hfs|]. intros f Hf. by apply (field_line_clean config). }
    destruct (Z.ltb_spec (cf_max_request_line config) (Z.of_nat (length (request_line_of m)))); [lia|]. apply result_bind_ok.
    exists (mg_method m, mg_target m, lit "HTTP/1.1"). split.
    { apply split_request_line_iff. split_and!; [done|by apply tchar_clean| |by_evaluation|done].
      intros Hin. by apply (proj1 (Forall_forall _ _) Hg) in Hin as [? _]. }
    apply result_bind_ok. exists tt. split; [by apply check_version_ok|]. rewrite Etok, bool_decide_false by done. cbn [negb orb].
    apply result_bind_ok. exists (path, raw). split; [done|]. apply result_bind_ok. exists (fields_of (mg_fields m)). split.
    { change no_fields with (fields_of []). apply take_fields_iff; [unfold fields_ok; split_and!; [cbn; lia|by constructor|done|by_evaluation|by constructor|by constructor]|].
      exists (mg_fields m), ls. done. }
    cbn [fs_host_seen fields_of]. rewrite Hh. cbn [Z.of_nat Pos.of_succ_nat Z.eqb Pos.eqb negb]. apply result_bind_ok. by exists ec.
Qed.
