(* ===== verification/HttpWire.v ===== *)
(** * A connection's read side ([trailryx-ingest/src/request.rs], [Wire])

    The buffer, one read, the walk to the end of a head, a body, over any stream and
    any clock; and where a message ends. *)

From S2P Require Import Prelude Bytes Ids HttpResponse HttpRequest.

(** ** The stream and the clock *)

Inductive ErrorKind := IoInterrupted | IoWouldBlock | IoTimedOut | IoFailed.

(** [read] into a buffer of [room] bytes. *)
Class Read (S : Type) := stream_read : nat -> S -> result ErrorKind (list byte) * S.

(** [Instant::now], in nanoseconds. *)
Class Instants (T : Type) := instant_now : T -> Z * T.

Definition READ_CHUNK : Z := 16 * 1024.
Definition RATE_GRACE : Z := secs 2.

(** [hw_buf] is the filled part of the buffer, [hw_room] its whole length. *)
Record HttpWire (S : Type) := MkHttpWire { hw_stream : S; hw_buf : list byte; hw_room : Z; hw_at : nat; hw_read_timeout : Z }.
#[global] Arguments MkHttpWire {S}.
#[global] Arguments hw_stream {S}.
#[global] Arguments hw_buf {S}.
#[global] Arguments hw_room {S}.
#[global] Arguments hw_at {S}.
#[global] Arguments hw_read_timeout {S}.

Inductive Incoming := InHead (h : Head) | InRefused (r : Reject) | InEof.
Inductive BodyError := BodyRefused (r : Reject) | BodyTruncated.
Inductive Filled := FilledBytes (n : nat) | FilledEof | FilledNothingYet.

Definition reject {A} (status : Status) (why : string) : result Reject A := Err (MkReject status (lit why)).

Section wire.
Context {S T : Type} {RD : Read S} {IN : Instants T}.

Definition HttpWire_new (stream : S) (config : Config) : HttpWire S :=
  MkHttpWire stream [] (config.(cf_max_header_section) + READ_CHUNK) 0 config.(cf_read_timeout).

Definition buffered (w : HttpWire S) : nat := length w.(hw_buf) - w.(hw_at).

Definition compact (w : HttpWire S) : HttpWire S :=
  if (0 <? w.(hw_at))%nat then MkHttpWire w.(hw_stream) (drop w.(hw_at) w.(hw_buf)) w.(hw_room) 0 w.(hw_read_timeout) else w.

Definition with_at (w : HttpWire S) (at_ : nat) : HttpWire S := MkHttpWire w.(hw_stream) w.(hw_buf) w.(hw_room) at_ w.(hw_read_timeout).

(** [None] is a shortage of fuel: a read was interrupted once too often. *)
Fixpoint read_loop (fuel : nat) (w : HttpWire S) : option (result Reject Filled * HttpWire S) :=
  match fuel with
  | O => None
  | Datatypes.S fuel =>
      let '(got, stream) := stream_read (Z.to_nat (w.(hw_room) - Z.of_nat (length w.(hw_buf)))) w.(hw_stream) in
      let w := MkHttpWire stream w.(hw_buf) w.(hw_room) w.(hw_at) w.(hw_read_timeout) in
      match got with
      | Ok [] => Some (Ok FilledEof, w)
      | Ok bytes => Some (Ok (FilledBytes (length bytes)), MkHttpWire stream (w.(hw_buf) ++ bytes) w.(hw_room) w.(hw_at) w.(hw_read_timeout))
      | Err IoInterrupted => read_loop fuel w
      | Err IoWouldBlock | Err IoTimedOut => Some (Ok FilledNothingYet, w)
      | Err IoFailed => Some (reject StBadRequest "the connection failed", w)
      end
  end.

Definition fill (fuel : nat) (deadline : Z) (w : HttpWire S) (t : T) : option (result Reject Filled * HttpWire S * T) :=
  let '(now, t) := instant_now t in
  if deadline <=? now then Some (reject StRequestTimeout "the deadline passed", w, t)
  else if Z.of_nat (length w.(hw_buf)) =? w.(hw_room) then Some (reject StRequestHeaderFieldsTooLarge "the head does not fit the buffer", w, t)
  else '(r, w) ← read_loop fuel w; Some (r, w, t).

(** ** The end of the head *)

Inductive Scanned := ScRefused (r : Reject) | ScFound (end_ : nat) | ScMore (scan line_start : nat).

Definition refused (status : Status) (why : string) : Scanned := ScRefused (MkReject status (lit why)).

(** [while scan < self.filled], over what is left of the filled part. *)
Fixpoint scan_lines (cap : Z) (rest : list byte) (scan line_start : nat) : Scanned :=
  match rest with
  | [] => ScMore scan line_start
  | b :: rest =>
      if cap <=? Z.of_nat scan then refused StRequestHeaderFieldsTooLarge "the header section exceeds its cap"
      else if Byte.eqb b LF then refused StBadRequest "a bare LF is not a line ending"
      else if Byte.eqb b CR then
        match rest with
        | [] => ScMore scan line_start
        | c :: rest =>
            if negb (Byte.eqb c LF) then refused StBadRequest "a CR that is not part of CRLF"
            else if (scan =? line_start)%nat then ScFound (scan + 2)
            else scan_lines cap rest (scan + 2) (scan + 2)
        end
      else if Byte.eqb b x00 then refused StBadRequest "a NUL in the header section"
      else scan_lines cap rest (scan + 1) line_start
  end.

Fixpoint find_head_end (fuel : nat) (config : Config) (deadline : Z) (scan line_start : nat) (w : HttpWire S) (t : T) :
    option (result Reject (option nat) * HttpWire S * T) :=
  match scan_lines config.(cf_max_header_section) (drop scan w.(hw_buf)) scan line_start with
  | ScRefused r => Some (Err r, w, t)
  | ScFound end_ => Some (Ok (Some end_), w, t)
  | ScMore scan line_start =>
      match fuel with
      | O => None
      | Datatypes.S fuel =>
          '(r, w, t) ← fill fuel deadline w t;
          match r with
          | Err e => Some (Err e, w, t)
          | Ok (FilledBytes _) => find_head_end fuel config deadline scan line_start w t
          | Ok FilledEof => if bool_decide (w.(hw_buf) = []) then Some (Ok None, w, t) else Some (reject StBadRequest "the head is incomplete", w, t)
          | Ok FilledNothingYet =>
              let '(now, t) := instant_now t in
              if now <? deadline then find_head_end fuel config deadline scan line_start w t
              else if bool_decide (w.(hw_buf) = []) then Some (Ok None, w, t)
              else Some (reject StRequestTimeout "the head stopped arriving", w, t)
          end
      end
  end.

Definition read_head (fuel : nat) (config : Config) (deadline : Z) (w : HttpWire S) (t : T) : option (Incoming * HttpWire S * T) :=
  '(r, w, t) ← find_head_end fuel config deadline 0 0 (compact w) t;
  match r with
  | Ok None => Some (InEof, w, t)
  | Err e => Some (InRefused e, w, t)
  | Ok (Some end_) =>
      let head := take end_ w.(hw_buf) in
      let w := with_at w end_ in
      match parse_head head config with Ok h => Some (InHead h, w, t) | Err e => Some (InRefused e, w, t) end
  end.

(** ** The body *)

(** Move what is buffered, up to what is missing. *)
Definition take_ready (length_ : Z) (body : list byte) (w : HttpWire S) : list byte * HttpWire S :=
  let ready := Nat.min (buffered w) (Z.to_nat (length_ - Z.of_nat (length body))) in
  (body ++ slice w.(hw_buf) w.(hw_at) ready, with_at w (w.(hw_at) + ready)).

Fixpoint body_loop (fuel : nat) (length_ : Z) (config : Config) (deadline started : Z) (body : list byte) (w : HttpWire S) (t : T) :
    option (result BodyError (list byte) * HttpWire S * T) :=
  if length_ <=? Z.of_nat (length body) then Some (Ok body, w, t)
  else
    match fuel with
    | O => None
    | Datatypes.S fuel =>
        let w := compact w in
        let '(now, t) := instant_now t in
        if deadline <=? now then Some (Err (BodyRefused (MkReject StRequestTimeout (lit "the body deadline passed"))), w, t)
        else
          let '(now, t) := instant_now t in
          let elapsed := Z.max 0 (now - started) in
          if (RATE_GRACE <=? elapsed) && (Z.of_nat (length body) <? config.(cf_min_body_rate) * (elapsed / 1000000) / 1000)
          then Some (Err (BodyRefused (MkReject StRequestTimeout (lit "the body is arriving below the minimum rate"))), w, t)
          else
            '(r, w, t) ← fill fuel deadline w t;
            match r with
            | Ok (FilledBytes _) => let '(body, w) := take_ready length_ body w in body_loop fuel length_ config deadline started body w t
            | Ok FilledEof => Some (Err BodyTruncated, w, t)
            | Ok FilledNothingYet => body_loop fuel length_ config deadline started body w t
            | Err e => Some (Err (BodyRefused e), w, t)
            end
    end.

(** A [u64] fits a 64-bit [usize]. *)
Definition read_body (fuel : nat) (length_ : Z) (config : Config) (deadline : Z) (w : HttpWire S) (t : T) :
    option (result BodyError (list byte) * HttpWire S * T) :=
  if config.(cf_max_body) <? length_ then Some (Err (BodyRefused (MkReject StPayloadTooLarge (lit "the declared length exceeds the body cap"))), w, t)
  else
    let '(started, t) := instant_now t in
    let '(body, w) := take_ready length_ [] w in
    body_loop fuel length_ config deadline started body w t.

Fixpoint drain_loop (fuel : nat) (budget deadline : Z) (seen : Z) (w : HttpWire S) (t : T) : option (HttpWire S * T) :=
  if budget <=? seen then Some (w, t)
  else
    let '(now, t) := instant_now t in
    if deadline <=? now then Some (w, t)
    else
      match fuel with
      | O => None
      | Datatypes.S fuel =>
          '(r, w, t) ← fill fuel deadline (compact w) t;
          match r with
          | Ok (FilledBytes n) => drain_loop fuel budget deadline (seen + Z.of_nat n) (with_at w (length w.(hw_buf))) t
          | _ => Some (w, t)
          end
      end.

Definition drain_briefly (fuel : nat) (budget deadline : Z) (w : HttpWire S) (t : T) : option (HttpWire S * T) :=
  drain_loop fuel budget deadline (Z.of_nat (buffered w)) (with_at w (length w.(hw_buf))) t.

End wire.

(** ** A peer's bytes, as the network cuts them *)

Inductive Arrival := Arrives (bytes : list byte) | Says (k : ErrorKind).

#[export] Instance script_read : Read (list Arrival) := fun room s =>
  match s with
  | [] => (Ok [], [])
  | Says k :: s => (Err k, s)
  | Arrives bytes :: s =>
      if (length bytes <=? room)%nat then (Ok bytes, s) else (Ok (take room bytes), Arrives (drop room bytes) :: s)
  end.

Fixpoint coming (s : list Arrival) : list byte :=
  match s with [] => [] | Arrives bytes :: s => bytes ++ coming s | Says _ :: s => coming s end.

(** What was received and not consumed, and what is still to come. *)
Definition still (w : HttpWire (list Arrival)) : list byte := drop w.(hw_at) w.(hw_buf) ++ coming w.(hw_stream).

Definition wire_ok {S} (w : HttpWire S) : Prop := (w.(hw_at) <= length w.(hw_buf))%nat /\ Z.of_nat (length w.(hw_buf)) <= w.(hw_room).

(** How many reads the rest of a script can take. *)
Fixpoint reads_left (s : list Arrival) : nat :=
  match s with [] => 0 | Arrives bytes :: s => 1 + length bytes + reads_left s | Says _ :: s => 1 + reads_left s end.

(** No byte is lost or moved by reading: the buffer grows at its end. *)
Record reads_to (w w' : HttpWire (list Arrival)) : Prop := {
  rt_bytes : w'.(hw_buf) ++ coming w'.(hw_stream) = w.(hw_buf) ++ coming w.(hw_stream);
  rt_grows : w.(hw_buf) `prefix_of` w'.(hw_buf);
  rt_at : w'.(hw_at) = w.(hw_at);
  rt_room : w'.(hw_room) = w.(hw_room);
  rt_fits : Z.of_nat (length w.(hw_buf)) <= w.(hw_room) -> Z.of_nat (length w'.(hw_buf)) <= w'.(hw_room);
  rt_left : (reads_left w'.(hw_stream) <= reads_left w.(hw_stream))%nat;
}.

Lemma reads_to_refl w : reads_to w w.
Proof. by split. Qed.

Lemma reads_to_trans a b c : reads_to a b -> reads_to b c -> reads_to a c.
Proof.
  intros [A1 A2 A3 A4 A5 A6] [B1 B2 B3 B4 B5 B6]. split; try congruence; try lia.
  by etrans.
Qed.

Lemma still_reads_to w w' : wire_ok w -> reads_to w w' -> still w' = still w.
Proof.
  intros [Ha _] [E [more Eg] Hat _ _ _]. unfold still. rewrite Hat. assert (Hd : forall l k : list byte, (hw_at w <= length l)%nat -> drop (hw_at w) l ++ k = drop (hw_at w) (l ++ k)) by (intros; by rewrite drop_app_le).
  rewrite Hd, Hd by (rewrite ?Eg, ?length_app; lia). by rewrite E.
Qed.

Lemma wire_ok_reads_to w w' : wire_ok w -> reads_to w w' -> wire_ok w'.
Proof. intros [Ha Hr] [_ [more Eg] Hat _ Hf _]. split; [rewrite Hat, Eg, length_app; lia|auto]. Qed.

Section reading.
Context {T : Type} {IN : Instants T}.

Lemma read_loop_reads fuel (w : HttpWire (list Arrival)) r w' : read_loop fuel w = Some (r, w') -> reads_to w w' /\ (r = Ok FilledEof \/ r = Ok FilledNothingYet -> w'.(hw_buf) = w.(hw_buf)).
Proof.
  revert w; induction fuel as [|fuel IH]; intros w; [done|]. cbn [read_loop]. unfold stream_read, script_read. set (room := Z.to_nat _).
  destruct (hw_stream w) as [|[bytes|k] s] eqn:Es.
  - intros [= <- <-]. split; [|done]. split; cbn; try done; by rewrite Es.
  - assert (Hg : forall got rest, bytes = got ++ rest -> forall s', coming s' = rest ++ coming s -> (reads_left s' <= reads_left (hw_stream w))%nat ->
        (Z.of_nat (length (hw_buf w)) <= hw_room w -> Z.of_nat (length (hw_buf w ++ got)) <= hw_room w) ->
        reads_to w (MkHttpWire s' (hw_buf w ++ got) (hw_room w) (hw_at w) (hw_read_timeout w))).
    { intros got rest -> s' Hs Hl Hf. split; cbn; try done; [|by eexists]. by rewrite Hs, Es; cbn; rewrite <- !app_assoc. }
    destruct (Nat.leb_spec (length bytes) room) as [Hle|Hgt].
    + destruct bytes as [|b bytes].
      * intros [= <- <-]. split; [|done]. rewrite <- (app_nil_r (hw_buf w)) at 1. apply (Hg [] []); [done|done|by rewrite Es; cbn; lia|by rewrite app_nil_r].
      * intros [= <- <-]. split; [|by intros [|]]. apply (Hg (b :: bytes) []); [by rewrite app_nil_r|done|by rewrite Es; cbn; lia|]. rewrite length_app. unfold room in Hle. lia.
    + destruct (take room bytes) as [|b got] eqn:Et.
      * intros [= <- <-]. split; [|done]. rewrite <- (app_nil_r (hw_buf w)) at 1. apply (Hg [] bytes); [done| |rewrite Es; cbn; rewrite length_drop; lia|by rewrite app_nil_r].
        cbn. by rewrite <- (take_drop room bytes) at 2; rewrite Et.
      * intros [= <- <-]. split; [|by intros [|]]. rewrite <- Et. apply (Hg (take room bytes) (drop room bytes)); [by rewrite take_drop|done|rewrite Es; cbn; rewrite length_drop; lia|].
        rewrite length_app, length_take. unfold room in *. lia.
  - assert (Hs : reads_to w (MkHttpWire s (hw_buf w) (hw_room w) (hw_at w) (hw_read_timeout w))) by (split; cbn; try done; rewrite Es; [done|cbn; lia]).
    destruct k.
    + intros [H1 H2]%IH. split; [by eapply reads_to_trans|done].
    + intros [= <- <-]. done.
    + intros [= <- <-]. done.
    + intros [= <- <-]. done.
Qed.

Lemma fill_reads fuel deadline w t r w' t' :
  fill fuel deadline w t = Some (r, w', t') -> reads_to w w' /\ (r = Ok FilledEof \/ r = Ok FilledNothingYet -> w'.(hw_buf) = w.(hw_buf)).
Proof.
  unfold fill. destruct (instant_now t) as [now t1]. destruct (deadline <=? now); [intros [= <- <- <-]; split; [apply reads_to_refl|done]|].
  destruct (_ =? _); [intros [= <- <- <-]; split; [apply reads_to_refl|done]|]. intros H. apply bind_Some in H as ([r0 w0] & H & [= <- <- <-]).
  by eapply read_loop_reads.
Qed.

(** ** The walk does not depend on the cuts *)

Lemma scan_lines_more cap rest more s ls :
  match scan_lines cap rest s ls with
  | ScRefused r => scan_lines cap (rest ++ more) s ls = ScRefused r
  | ScFound n => scan_lines cap (rest ++ more) s ls = ScFound n /\ (s + 2 <= n <= s + length rest)%nat
  | ScMore s' ls' => (s <= s' <= s + length rest)%nat /\ scan_lines cap (rest ++ more) s ls = scan_lines cap (drop (s' - s) (rest ++ more)) s' ls' /\
                     Z.of_nat (s + length rest) <= Z.max (Z.of_nat s) (cap + 1) /\ (s + length rest <= s' + 1)%nat
  end.
Proof.
  revert rest s ls. refine (@well_founded_induction_type _ _ (well_founded_ltof _ (@length byte)) _ _). intros rest IH s ls.
  destruct rest as [|b rest]; cbn [scan_lines].
  { cbn [length app]. split_and!; try lia. by rewrite Nat.sub_diag. }
  cbn [app scan_lines]. destruct (Z.leb_spec cap (Z.of_nat s)); [done|]. destruct (Byte.eqb b LF) eqn:El; [done|]. destruct (Byte.eqb b CR) eqn:Ec.
  - destruct rest as [|c rest].
    { cbn [app length]. split_and!; try lia. rewrite Nat.sub_diag. cbn [drop scan_lines]. rewrite El, Ec. destruct (Z.leb_spec cap (Z.of_nat s)); [lia|done]. }
    cbn [app]. destruct (negb (Byte.eqb c LF)); [done|]. destruct (Nat.eqb_spec s ls); [cbn [length]; split; [done|lia]|].
    specialize (IH rest ltac:(unfold ltof; cbn; lia) (s + 2)%nat (s + 2)%nat). destruct (scan_lines cap rest (s + 2) (s + 2)) as [r|n'|s' ls']; [done| |].
    + destruct IH as [-> ?]. cbn [length]. split; [done|lia].
    + destruct IH as (H1 & -> & H2 & H3). cbn [length]. split_and!; try lia. replace (s' - s)%nat with (Datatypes.S (Datatypes.S (s' - (s + 2)))) by lia. done.
  - destruct (Byte.eqb b x00); [done|]. specialize (IH rest ltac:(unfold ltof; cbn; lia) (s + 1)%nat ls).
    destruct (scan_lines cap rest (s + 1) ls) as [r|n'|s' ls']; [done| |].
    + destruct IH as [-> ?]. cbn [length]. split; [done|lia].
    + destruct IH as (H1 & -> & H2 & H3). cbn [length]. split_and!; try lia. replace (s' - s)%nat with (Datatypes.S (s' - (s + 1))) by lia. done.
Qed.

Lemma find_head_end_framed fuel config deadline scan ls w t r w' t' :
  (scan <= length w.(hw_buf))%nat -> find_head_end fuel config deadline scan ls w t = Some (r, w', t') ->
  reads_to w w' /\
  (forall n, r = Ok (Some n) ->
     scan_lines config.(cf_max_header_section) (drop scan (w.(hw_buf) ++ coming w.(hw_stream))) scan ls = ScFound n /\ (n <= length w'.(hw_buf))%nat).
Proof.
  revert scan ls w t; induction fuel as [|fuel IH]; intros scan ls w t Hs; cbn [find_head_end];
    pose proof (scan_lines_more (cf_max_header_section config) (drop scan (hw_buf w)) (coming (hw_stream w)) scan ls) as Hm;
    rewrite <- drop_app_le in Hm by done; rewrite length_drop in Hm;
    destruct (scan_lines _ (drop scan (hw_buf w)) scan ls) as [e|n|s' ls'].
  1, 4: intros [= <- <- <-]; split; [apply reads_to_refl|done].
  1, 3: destruct Hm as [Hm ?]; intros [= <- <- <-]; split; [apply reads_to_refl|intros n0 [= <-]; split; [done|lia]].
  { done. }
  destruct Hm as (Hr & Hm & _). intros H. apply bind_Some in H as ([[r1 w1] t1] & Hf & H). destruct (fill_reads _ _ _ _ _ _ _ Hf) as [Hrd Hno].
  assert (Hgo : forall t2, find_head_end fuel config deadline s' ls' w1 t2 = Some (r, w', t') ->
      reads_to w w' /\ (forall n, r = Ok (Some n) -> scan_lines (cf_max_header_section config) (drop scan (hw_buf w ++ coming (hw_stream w))) scan ls = ScFound n /\ (n <= length (hw_buf w'))%nat)).
  { intros t2 H2. pose proof Hrd as [Eb [more Eg] _ _ _ _]. apply IH in H2 as [H2 H3]; [|rewrite Eg, length_app; lia]. split; [by eapply reads_to_trans|].
    intros n Hn. destruct (H3 n Hn) as [H4 ?]. split; [|done]. rewrite Hm, drop_drop. replace (scan + (s' - scan))%nat with s' by lia. by rewrite <- Eb. }
  destruct r1 as [[k| |]|e].
  - by eapply Hgo.
  - destruct (bool_decide_reflect (hw_buf w1 = [])); injection H as <- <- <-; by split.
  - destruct (instant_now t1) as [now t2]. destruct (now <? deadline); [by eapply Hgo|]. destruct (bool_decide_reflect (hw_buf w1 = [])); injection H as <- <- <-; by split.
  - injection H as <- <- <-. by split.
Qed.

Lemma compact_ok {S} (w : HttpWire S) : wire_ok w -> (compact w).(hw_at) = 0%nat /\ (compact w).(hw_buf) = drop w.(hw_at) w.(hw_buf) /\ (compact w).(hw_stream) = w.(hw_stream) /\ wire_ok (compact w).
Proof.
  intros [Ha Hr]. unfold compact. destruct (Nat.ltb_spec 0 (hw_at w)) as [H|H].
  - refine (conj _ (conj _ (conj _ _))); [done|done|done|unfold wire_ok; cbn; rewrite length_drop; lia].
  - assert (E : hw_at w = 0%nat) by lia. rewrite E. refine (conj _ (conj _ (conj _ _))); [done|done|done|unfold wire_ok; lia].
Qed.

Lemma compact_still w : wire_ok w -> still (compact w) = still w.
Proof. intros H. unfold still. destruct (compact_ok w H) as (Ea & Eb & Es & _). by rewrite Ea, Eb, Es. Qed.

Lemma read_head_framed fuel config deadline w t h w' t' :
  wire_ok w -> read_head fuel config deadline w t = Some (InHead h, w', t') ->
  exists n, scan_lines config.(cf_max_header_section) (still w) 0 0 = ScFound n /\ parse_head (take n (still w)) config = Ok h /\
            still w' = drop n (still w) /\ wire_ok w'.
Proof.
  intros Hok H. unfold read_head in H. apply bind_Some in H as ([[r w1] t1] & Hf & H). destruct (compact_ok w Hok) as (Ha & Hb & Hs & Hok1).
  apply find_head_end_framed in Hf as [Hrd Hfound]; [|lia]. destruct r as [[n|]|e]; [|done|done].
  destruct (Hfound n eq_refl) as [Hn Hle]. rewrite drop_0 in Hn. destruct (parse_head _ config) as [h0|] eqn:Ep; [|done]. injection H as <- <- <-.
  pose proof (still_reads_to _ _ Hok1 Hrd) as Est. rewrite (compact_still w Hok) in Est. pose proof (wire_ok_reads_to _ _ Hok1 Hrd) as [Ha1 Hr1].
  assert (Eat : hw_at w1 = 0%nat) by (by rewrite (rt_at _ _ Hrd), Ha). unfold still in Est at 1. rewrite Eat, drop_0 in Est.
  exists n. rewrite <- Est. split_and!.
  - rewrite (rt_bytes _ _ Hrd). done.
  - by rewrite take_app_le by lia.
  - unfold still, with_at. cbn. by rewrite drop_app_le by lia.
  - unfold wire_ok, with_at. cbn. lia.
Qed.

(** ** A body is the next bytes *)

Lemma take_ready_framed length_ body (w : HttpWire (list Arrival)) body' w' :
  wire_ok w -> take_ready length_ body w = (body', w') ->
  wire_ok w' /\ body' ++ still w' = body ++ still w /\ (Z.of_nat (length body) <= Z.max 0 length_ -> Z.of_nat (length body') <= Z.max 0 length_) /\
  w'.(hw_stream) = w.(hw_stream) /\ w'.(hw_room) = w.(hw_room).
Proof.
  intros [Ha Hr]. unfold take_ready, buffered. set (ready := Nat.min _ _). intros [= <- <-]. unfold wire_ok, still, with_at, slice. cbn.
  split_and!; try done; try (unfold ready; lia).
  - rewrite <- app_assoc. f_equal. rewrite app_assoc. f_equal. rewrite <- drop_drop. apply take_drop.
  - intros H. rewrite length_app, length_take, length_drop. unfold ready. lia.
Qed.

Lemma body_loop_framed fuel length_ config deadline started body w t body' w' t' :
  wire_ok w -> Z.of_nat (length body) <= Z.max 0 length_ -> body_loop fuel length_ config deadline started body w t = Some (Ok body', w', t') ->
  wire_ok w' /\ body' ++ still w' = body ++ still w /\ Z.of_nat (length body') = Z.max 0 length_.
Proof.
  revert body w t; induction fuel as [|fuel IH]; intros body w t Hok Hl; cbn [body_loop]; destruct (Z.leb_spec length_ (Z.of_nat (length body))) as [Hd|Hd];
    try (intros [= <- <- <-]; split_and!; [done|done|lia]); [done|].
  destruct (compact_ok w Hok) as (_ & _ & _ & Hok1). destruct (instant_now t) as [now t1]. destruct (deadline <=? now); [done|].
  destruct (instant_now t1) as [now2 t2]. destruct (_ && _); [done|]. intros H. apply bind_Some in H as ([[r w1] t3] & Hf & H).
  apply fill_reads in Hf as [Hrd _]. pose proof (wire_ok_reads_to _ _ Hok1 Hrd) as Hok2. pose proof (still_reads_to _ _ Hok1 Hrd) as Est. rewrite compact_still in Est by done.
  destruct r as [[n| |]|e]; [|done| |done].
  - destruct (take_ready length_ body w1) as [b2 w2] eqn:Er. apply take_ready_framed in Er as (Hok3 & E & Hlen & _); [|done].
    apply IH in H as (H1 & H2 & H3); [|done|auto]. split_and!; try done. by rewrite H2, E, Est.
  - apply IH in H as (H1 & H2 & H3); [|done|done]. split_and!; try done. by rewrite H2, Est.
Qed.

Lemma read_body_framed fuel length_ config deadline w t body w' t' :
  wire_ok w -> 0 <= length_ -> read_body fuel length_ config deadline w t = Some (Ok body, w', t') ->
  body = take (Z.to_nat length_) (still w) /\ Z.of_nat (length body) = length_ /\ still w' = drop (Z.to_nat length_) (still w) /\ wire_ok w' /\ length_ <= config.(cf_max_body).
Proof.
  intros Hok Hn. unfold read_body. destruct (Z.ltb_spec (cf_max_body config) length_); [done|]. destruct (instant_now t) as [started t1].
  destruct (take_ready length_ [] w) as [b w1] eqn:Er. apply take_ready_framed in Er as (Hok1 & E & Hl & _); [|done]. intros H0.
  apply body_loop_framed in H0 as (Hok2 & E2 & H2); [|done|apply Hl; cbn; lia]. rewrite E in E2. cbn [app] in E2. rewrite Z.max_r in H2 by done.
  rewrite <- E2. split_and!; try done.
  - replace (Z.to_nat length_) with (length body) by lia. by rewrite take_app_length.
  - replace (Z.to_nat length_) with (length body) by lia. by rewrite drop_app_length.
Qed.


(** ** A head that arrives is read *)

(** A stream that delivers, whatever its cuts, its interruptions and its pauses. *)
Definition flows (a : Arrival) : Prop := match a with Arrives [] | Says IoFailed => False | _ => True end.

Lemma read_loop_flows fuel (w : HttpWire (list Arrival)) :
  Forall flows w.(hw_stream) -> Z.of_nat (length w.(hw_buf)) < w.(hw_room) -> (reads_left w.(hw_stream) < fuel)%nat ->
  exists r w', read_loop fuel w = Some (Ok r, w') /\ Forall flows w'.(hw_stream) /\
    match r with
    | FilledEof => coming w.(hw_stream) = [] /\ w'.(hw_buf) = w.(hw_buf)
    | FilledBytes _ | FilledNothingYet => (reads_left w'.(hw_stream) < reads_left w.(hw_stream))%nat
    end.
Proof.
  revert w; induction fuel as [|fuel IH]; intros w Hf Hr Hl; [lia|]. cbn [read_loop]. unfold stream_read, script_read. set (room := Z.to_nat _).
  assert (Hroom : (0 < room)%nat) by (unfold room; lia).
  destruct (hw_stream w) as [|[bytes|k] s] eqn:Es; [by eexists _, _|apply Forall_cons in Hf as [Hb Hf]..].
  - destruct (Nat.leb_spec (length bytes) room) as [Hle|Hgt].
    + destruct bytes as [|b bytes]; [done|]. eexists _, _. split; [done|]. split; [done|]. cbn. lia.
    + destruct bytes as [|b bytes]; [cbn in Hgt; lia|]. destruct room as [|room]; [lia|]. cbn [take]. eexists _, _. split; [done|]. cbn [hw_stream]. split.
      * constructor; [|done]. cbn [drop]. cbn [length] in Hgt. destruct (drop room bytes) eqn:Ed; [|done]. apply (f_equal length) in Ed. rewrite length_drop in Ed. cbn in Ed. lia.
      * cbn [reads_left drop]. rewrite length_drop. cbn [length] in *. lia.
  - cbn [reads_left] in *. destruct k; [| | |done].
    + destruct (IH (MkHttpWire s (hw_buf w) (hw_room w) (hw_at w) (hw_read_timeout w)) Hf Hr ltac:(cbn; lia)) as (r & w' & E & H1 & H2).
      exists r, w'. split; [done|]. split; [done|]. cbn in H2. destruct r; [lia|done|lia].
    + eexists _, _. split; [done|]. split; [done|]. cbn. lia.
    + eexists _, _. split; [done|]. split; [done|]. cbn. lia.
Qed.

(** What the bytes alone make of a head. *)
Definition head_verdict (config : Config) (bytes : list byte) : Incoming :=
  match scan_lines config.(cf_max_header_section) bytes 0 0 with
  | ScFound n => match parse_head (take n bytes) config with Ok h => InHead h | Err e => InRefused e end
  | ScRefused e => InRefused e
  | ScMore _ _ => if bool_decide (bytes = []) then InEof else InRefused (MkReject StBadRequest (lit "the head is incomplete"))
  end.

Definition end_verdict (config : Config) (scan ls : nat) (bytes : list byte) : result Reject (option nat) :=
  match scan_lines config.(cf_max_header_section) (drop scan bytes) scan ls with
  | ScFound n => Ok (Some n)
  | ScRefused e => Err e
  | ScMore _ _ => if bool_decide (bytes = []) then Ok None else reject StBadRequest "the head is incomplete"
  end.

Lemma find_head_end_flows fuel config deadline scan ls w t :
  (forall t : T, (instant_now t).1 < deadline) ->
  Forall flows w.(hw_stream) -> (scan <= length w.(hw_buf))%nat -> Z.of_nat scan <= config.(cf_max_header_section) + 1 ->
  config.(cf_max_header_section) + 1 < w.(hw_room) -> (reads_left w.(hw_stream) + 1 < fuel)%nat ->
  exists w' t', find_head_end fuel config deadline scan ls w t = Some (end_verdict config scan ls (w.(hw_buf) ++ coming w.(hw_stream)), w', t').
Proof.
  intros Hp. revert scan ls w t; induction fuel as [|fuel IH]; intros scan ls w t Hf Hs Hc Hr Hl; [lia|]. cbn [find_head_end]. unfold end_verdict.
  pose proof (scan_lines_more (cf_max_header_section config) (drop scan (hw_buf w)) (coming (hw_stream w)) scan ls) as Hm.
  rewrite <- drop_app_le in Hm by done. rewrite length_drop in Hm.
  destruct (scan_lines _ (drop scan (hw_buf w)) scan ls) as [e|n|s' ls'] eqn:Esc.
  { rewrite Hm. by eexists _, _. }
  { destruct Hm as [-> _]. by eexists _, _. }
  destruct Hm as (Hb & Hm & Hcap & Hlast). rewrite Hm. unfold fill. pose proof (Hp t) as Ht. destruct (instant_now t) as [now t1]. cbn [fst] in Ht.
  destruct (Z.leb_spec deadline now); [lia|]. destruct (Z.eqb_spec (Z.of_nat (length (hw_buf w))) (hw_room w)); [lia|].
  destruct (read_loop_flows fuel w Hf ltac:(lia) ltac:(lia)) as (r & w1 & E & Hf1 & Hr1). rewrite E. cbn [mbind option_bind].
  apply read_loop_reads in E as [Hrd Hno]. pose proof Hrd as [Eb [more Eg] _ Erm _ _]. rewrite drop_drop. replace (scan + (s' - scan))%nat with s' by lia.
  assert (Hgo : (reads_left (hw_stream w1) < reads_left (hw_stream w))%nat -> forall t2, exists w' t',
      find_head_end fuel config deadline s' ls' w1 t2 = Some (end_verdict config s' ls' (hw_buf w ++ coming (hw_stream w)), w', t')).
  { intros Hlt t2. destruct (IH s' ls' w1 t2) as (w' & t' & E); [done|rewrite Eg, length_app; lia|lia|congruence|lia|]. rewrite Eb in E. by eexists _, _. }
  destruct r as [k| |].
  - exact (Hgo Hr1 t1).
  - destruct Hr1 as [Hcm Hbf]. rewrite Hcm, app_nil_r. rewrite Hcm, app_nil_r, Esc, drop_drop in Hm.
    replace (scan + (s' - scan))%nat with s' in Hm by lia. rewrite <- Hm. rewrite Hbf. destruct (bool_decide (hw_buf w = [])); by eexists _, _.
  - pose proof (Hp t1) as Ht1. destruct (instant_now t1) as [now2 t2]. cbn [fst] in Ht1. destruct (Z.ltb_spec now2 deadline); [|lia]. exact (Hgo Hr1 t2).
Qed.

Lemma body_loop_flows fuel length_ config deadline started body w t :
  (forall t : T, (instant_now t).1 < deadline) -> (forall t : T, (instant_now t).1 - started < RATE_GRACE) ->
  Forall flows w.(hw_stream) -> 0 < w.(hw_room) -> Z.of_nat (length body) <= length_ <= Z.of_nat (length (body ++ still w)) ->
  (Z.of_nat (length body) < length_ -> w.(hw_at) = length w.(hw_buf)) -> (reads_left w.(hw_stream) + 1 < fuel)%nat ->
  exists body' w' t', body_loop fuel length_ config deadline started body w t = Some (Ok body', w', t').
Proof.
  intros Hp Hq. revert body w t; induction fuel as [|fuel IH]; intros body w t Hf Hr Hl Hat Hfuel; [lia|]. cbn [body_loop].
  destruct (Z.leb_spec length_ (Z.of_nat (length body))) as [|Hd]; [by eexists _, _, _|]. specialize (Hat Hd).
  assert (Hok : wire_ok (compact w) /\ (compact w).(hw_buf) = [] /\ (compact w).(hw_stream) = w.(hw_stream) /\ (compact w).(hw_room) = w.(hw_room) /\ (compact w).(hw_at) = 0%nat).
  { unfold compact, wire_ok. destruct (Nat.ltb_spec 0 (hw_at w)); cbn; [rewrite Hat, drop_all; split_and!; cbn; try done; lia|].
    assert (Hb : hw_buf w = []) by (destruct (hw_buf w); [done|cbn in Hat; lia]). rewrite Hb in *. cbn in *. split_and!; done || lia. }
  destruct Hok as (Hok & Hb & Hs & Hrm & Ha0). pose proof (Hp t) as Ht. destruct (instant_now t) as [now t1]. cbn [fst] in Ht. destruct (Z.leb_spec deadline now); [lia|].
  pose proof (Hq t1) as Ht1. destruct (instant_now t1) as [now2 t2]. cbn [fst] in Ht1. destruct (Z.leb_spec RATE_GRACE (Z.max 0 (now2 - started))) as [Hg|_]; [unfold RATE_GRACE, secs in *; lia|].
  cbn [andb]. unfold fill. pose proof (Hp t2) as Ht2. destruct (instant_now t2) as [now3 t3]. cbn [fst] in Ht2. destruct (Z.leb_spec deadline now3); [lia|].
  rewrite Hb, Hrm. cbn [length]. destruct (Z.eqb_spec (Z.of_nat 0) (hw_room w)); [cbn in *; lia|].
  destruct (read_loop_flows fuel (compact w)) as (r & w1 & E & Hf1 & Hr1); [by rewrite Hs|rewrite Hb, Hrm; cbn; lia|rewrite Hs; lia|].
  rewrite E. cbn [mbind option_bind]. apply read_loop_reads in E as [Hrd Hno]. pose proof (wire_ok_reads_to _ _ Hok Hrd) as Hok1. pose proof (still_reads_to _ _ Hok Hrd) as Est.
  assert (Ecw : still (compact w) = still w) by (unfold still; by rewrite Ha0, Hb, Hs, Hat, drop_all, drop_0).
  rewrite Ecw in Est. destruct r as [k| |].
  - destruct (take_ready length_ body w1) as [b2 w2] eqn:Er. pose proof Er as Er'. apply take_ready_framed in Er as (Hok2 & Eb & Hlen & Hst & Hrm2); [|done]. apply IH.
    + by rewrite Hst.
    + rewrite Hrm2, (rt_room _ _ Hrd), Hrm. done.
    + rewrite Eb, Est. lia.
    + unfold take_ready, buffered in Er'. injection Er' as <- <-. unfold with_at, slice. cbn. rewrite length_app, length_take, length_drop. destruct Hok1 as [? _]. lia.
    + rewrite Hst. rewrite Hs in Hr1. lia.
  - exfalso. destruct Hr1 as [Hc Hb1]. rewrite Hs in Hc. unfold still in Hl. rewrite Hc, Hat, drop_all in Hl. cbn in Hl. rewrite app_nil_r in Hl. lia.
  - apply IH; [done|rewrite (rt_room _ _ Hrd), Hrm; done|rewrite Est; lia| |rewrite Hs in Hr1; lia].
    intros _. rewrite (rt_at _ _ Hrd), Ha0, (Hno (or_intror eq_refl)), Hb. done.
Qed.


Lemma read_body_flows fuel length_ config deadline w t :
  wire_ok w -> 0 <= length_ <= config.(cf_max_body) -> length_ <= Z.of_nat (length (still w)) ->
  (forall t : T, (instant_now t).1 < deadline) -> (forall t t' : T, (instant_now t).1 - (instant_now t').1 < RATE_GRACE) ->
  Forall flows w.(hw_stream) -> 0 < w.(hw_room) -> (reads_left w.(hw_stream) + 1 < fuel)%nat ->
  exists body w' t', read_body fuel length_ config deadline w t = Some (Ok body, w', t').
Proof.
  intros Hok Hn Hl Hp Hq Hf Hr Hfu. unfold read_body. destruct (Z.ltb_spec (cf_max_body config) length_); [lia|].
  destruct (instant_now t) as [started t1] eqn:Et. destruct (take_ready length_ [] w) as [b w1] eqn:Er. pose proof Er as Er'.
  apply take_ready_framed in Er as (Hok1 & E & Hlen & Hst & Hrm); [|done]. apply body_loop_flows.
  - done.
  - intros t2. specialize (Hq t2 t). by rewrite Et in Hq.
  - by rewrite Hst.
  - by rewrite Hrm.
  - rewrite E. cbn [app]. rewrite Z.max_r in Hlen by lia. split; [apply Hlen; cbn; lia|done].
  - unfold take_ready, buffered in Er'. injection Er' as <- <-. unfold with_at, slice. cbn. rewrite length_take, length_drop. destruct Hok. lia.
  - by rewrite Hst.
Qed.

(** ** Every read phase comes to an end *)

(** Whatever the stream and the clock do, a script has only so many reads in it. *)
Lemma read_loop_total fuel (w : HttpWire (list Arrival)) :
  (reads_left w.(hw_stream) < fuel)%nat ->
  exists r w', read_loop fuel w = Some (r, w') /\
    match r with Ok (FilledBytes _) | Ok FilledNothingYet => (reads_left w'.(hw_stream) < reads_left w.(hw_stream))%nat | _ => True end.
Proof.
  revert w; induction fuel as [|fuel IH]; intros w Hl; [lia|]. cbn [read_loop]. unfold stream_read, script_read. set (room := Z.to_nat _).
  destruct (hw_stream w) as [|[bytes|k] s] eqn:Es; [by eexists _, _| |].
  - destruct (Nat.leb_spec (length bytes) room) as [Hle|Hgt].
    + destruct bytes as [|b bytes]; eexists _, _; (split; [done|]); cbn; [done|lia].
    + destruct bytes as [|b bytes]; [cbn in Hgt; lia|]. destruct room as [|room]; [by eexists _, _|]. cbn [take]. eexists _, _. split; [done|].
      cbn [hw_stream reads_left drop]. rewrite length_drop. cbn [length] in *. lia.
  - cbn [reads_left] in *. destruct k.
    + destruct (IH (MkHttpWire s (hw_buf w) (hw_room w) (hw_at w) (hw_read_timeout w)) ltac:(cbn; lia)) as (r & w' & E & H).
      exists r, w'. split; [done|]. cbn in H. destruct r as [[]|]; lia || done.
    + eexists _, _. split; [done|]. cbn. lia.
    + eexists _, _. split; [done|]. cbn. lia.
    + by eexists _, _.
Qed.

Lemma fill_total fuel deadline w t :
  (reads_left w.(hw_stream) < fuel)%nat ->
  exists r w' t', fill fuel deadline w t = Some (r, w', t') /\
    match r with Ok (FilledBytes _) | Ok FilledNothingYet => (reads_left w'.(hw_stream) < reads_left w.(hw_stream))%nat | _ => True end.
Proof.
  intros Hl. unfold fill. destruct (instant_now t) as [now t1]. destruct (deadline <=? now); [by eexists _, _, _|]. destruct (_ =? _); [by eexists _, _, _|].
  destruct (read_loop_total fuel w Hl) as (r & w' & -> & H). by eexists _, _, _.
Qed.

Lemma find_head_end_total fuel config deadline scan ls w t :
  (reads_left w.(hw_stream) + 1 < fuel)%nat -> exists r, find_head_end fuel config deadline scan ls w t = Some r.
Proof.
  revert scan ls w t; induction fuel as [|fuel IH]; intros scan ls w t Hl; [lia|]. cbn [find_head_end]. destruct (scan_lines _ _ _ _); [by eexists|by eexists|].
  destruct (fill_total fuel deadline w t ltac:(lia)) as (r & w' & t' & -> & H). cbn [mbind option_bind]. destruct r as [[k| |]|e]; [|destruct (bool_decide _); by eexists| |by eexists].
  - apply IH. lia.
  - destruct (instant_now t') as [now t2]. destruct (now <? deadline); [apply IH; lia|]. destruct (bool_decide _); by eexists.
Qed.

Lemma body_loop_total fuel length_ config deadline started body w t :
  (reads_left w.(hw_stream) + 1 < fuel)%nat ->
  exists r w' t', body_loop fuel length_ config deadline started body w t = Some (r, w', t') /\ (reads_left w'.(hw_stream) <= reads_left w.(hw_stream))%nat.
Proof.
  revert body w t; induction fuel as [|fuel IH]; intros body w t Hl; [lia|]. cbn [body_loop]. destruct (length_ <=? _); [by eexists _, _, _|].
  assert (Ec : hw_stream (compact w) = hw_stream w) by (unfold compact; by destruct (0 <? hw_at w)%nat).
  destruct (instant_now t) as [now t1]. destruct (deadline <=? now); [eexists _, _, _; split; [done|by rewrite Ec]|].
  destruct (instant_now t1) as [now2 t2]. destruct (_ && _); [eexists _, _, _; split; [done|by rewrite Ec]|].
  destruct (fill_total fuel deadline (compact w) t2 ltac:(rewrite Ec; lia)) as (r & w' & t' & Ef & H). rewrite Ef. cbn [mbind option_bind].
  apply fill_reads in Ef as [[_ _ _ _ _ Hle] _]. rewrite Ec in *. destruct r as [[k| |]|e]; [|by eexists _, _, _| |by eexists _, _, _].
  - unfold take_ready. destruct (IH (body ++ slice (hw_buf w') (hw_at w') (Nat.min (buffered w') (Z.to_nat (length_ - Z.of_nat (length body)))))
      (with_at w' (hw_at w' + Nat.min (buffered w') (Z.to_nat (length_ - Z.of_nat (length body))))) t' ltac:(cbn; lia)) as (r & w2 & t3 & E & H2).
    exists r, w2, t3. split; [exact E|]. cbn in H2. lia.
  - destruct (IH body w' t' ltac:(lia)) as (r & w2 & t3 & E & H2). exists r, w2, t3. split; [exact E|lia].
Qed.

Lemma read_head_total fuel config deadline w t :
  wire_ok w -> (reads_left w.(hw_stream) + 1 < fuel)%nat ->
  exists r w' t', read_head fuel config deadline w t = Some (r, w', t') /\ (reads_left w'.(hw_stream) <= reads_left w.(hw_stream))%nat.
Proof.
  intros Hok Hl. unfold read_head. destruct (compact_ok w Hok) as (_ & _ & Es & _).
  destruct (find_head_end_total fuel config deadline 0 0 (compact w) t ltac:(by rewrite Es)) as [[[r w1] t1] E]. rewrite E. cbn [mbind option_bind].
  apply find_head_end_framed in E as [[_ _ _ _ _ Hle] _]; [|lia]. rewrite Es in Hle. destruct r as [[n|]|e]; [destruct (parse_head _ config)|..]; by eexists _, _, _.
Qed.

Lemma read_body_total fuel length_ config deadline w t :
  (reads_left w.(hw_stream) + 1 < fuel)%nat ->
  exists r w' t', read_body fuel length_ config deadline w t = Some (r, w', t') /\ (reads_left w'.(hw_stream) <= reads_left w.(hw_stream))%nat.
Proof.
  intros Hl. unfold read_body. destruct (_ <? _); [by eexists _, _, _|]. destruct (instant_now t) as [started t1]. unfold take_ready.
  match goal with |- context [body_loop fuel length_ config deadline started ?b ?w1 t1] =>
    destruct (body_loop_total fuel length_ config deadline started b w1 t1) as (r & w' & t' & E & H); [exact Hl|] end.
  exists r, w', t'. split; [exact E|exact H].
Qed.

Lemma drain_loop_total fuel budget deadline seen w t :
  (reads_left w.(hw_stream) + 1 < fuel)%nat -> exists r, drain_loop fuel budget deadline seen w t = Some r.
Proof.
  revert seen w t; induction fuel as [|fuel IH]; intros seen w t Hl; [lia|]. cbn [drain_loop]. destruct (budget <=? seen); [by eexists|].
  assert (Ec : hw_stream (compact w) = hw_stream w) by (unfold compact; by destruct (0 <? hw_at w)%nat).
  destruct (instant_now t) as [now t1]. destruct (deadline <=? now); [by eexists|].
  destruct (fill_total fuel deadline (compact w) t1 ltac:(rewrite Ec; lia)) as (r & w' & t' & -> & H). cbn [mbind option_bind]. rewrite Ec in H.
  destruct r as [[k| |]|e]; [|by eexists..]. apply IH. cbn. lia.
Qed.

(** C32 (a message ends where its bytes say). However the network cuts, interrupts and
    delays a peer's bytes: a head that is read is the one its bytes make - up to the
    first empty line, parsed - and what follows it stays; a body that is read is the
    next bytes of the length asked for, no more and no fewer; and as long as the
    clock has not reached the deadline, or the body the rate's grace, what arrives
    is read. *)
Theorem a_message_ends_where_its_bytes_say (config : Config) (w : HttpWire (list Arrival)) (t : T)
    (Hok : wire_ok w) (Hcap : 0 <= config.(cf_max_header_section)) (Hroom : config.(cf_max_header_section) + 1 < w.(hw_room)) :
  (forall fuel deadline h w' t', read_head fuel config deadline w t = Some (InHead h, w', t') ->
     exists n, scan_lines config.(cf_max_header_section) (still w) 0 0 = ScFound n /\ parse_head (take n (still w)) config = Ok h /\
               still w' = drop n (still w) /\ wire_ok w') /\
  (forall fuel deadline length_ body w' t', 0 <= length_ -> read_body fuel length_ config deadline w t = Some (Ok body, w', t') ->
     body = take (Z.to_nat length_) (still w) /\ Z.of_nat (length body) = length_ /\ still w' = drop (Z.to_nat length_) (still w) /\ wire_ok w' /\
     length_ <= config.(cf_max_body)) /\
  (forall fuel deadline, (forall t : T, (instant_now t).1 < deadline) -> Forall flows w.(hw_stream) -> (reads_left w.(hw_stream) + 1 < fuel)%nat ->
     (exists w' t', read_head fuel config deadline w t = Some (head_verdict config (still w), w', t')) /\
     (forall length_, (forall t t' : T, (instant_now t).1 - (instant_now t').1 < RATE_GRACE) ->
        0 <= length_ <= config.(cf_max_body) -> length_ <= Z.of_nat (length (still w)) ->
        exists body w' t', read_body fuel length_ config deadline w t = Some (Ok body, w', t'))).
Proof.
  split_and!.
  - intros. by eapply read_head_framed.
  - intros. by eapply read_body_framed.
  - intros fuel deadline Hp Hf Hfu. split; [|intros; apply read_body_flows; done || lia].
    destruct (compact_ok w Hok) as (Ha & Hb & Hs & Hok1 & _). pose proof (compact_still w Hok) as Est. unfold still in Est at 1. rewrite Ha, drop_0 in Est.
    assert (Hrm : hw_room (compact w) = hw_room w) by (unfold compact; by destruct (0 <? hw_at w)%nat).
    destruct (find_head_end_flows fuel config deadline 0 0 (compact w) t) as (w1 & t1 & E); [done|by rewrite Hs|lia|lia|by rewrite Hrm|by rewrite Hs|].
    pose proof E as E'. apply find_head_end_framed in E' as [Hrd Hfound]; [|lia]. unfold read_head. rewrite E. cbn [mbind option_bind].
    rewrite Est in *. unfold end_verdict, head_verdict in *. rewrite drop_0 in *. destruct (scan_lines _ (still w) 0 0) as [e|n|s l].
    + by eexists _, _.
    + destruct (Hfound n eq_refl) as [_ Hle]. pose proof (rt_bytes _ _ Hrd) as Eb. rewrite Est in Eb. rewrite <- Eb, take_app_le by lia. destruct (parse_head _ config); by eexists _, _.
    + destruct (bool_decide (still w = [])); by eexists _, _.
Qed.

End reading.

(** ** A request in three pieces *)

#[local] Instance stopped_clock : Instants unit := fun t => (0, t).

Definition sample_wire : HttpWire (list Arrival) :=
  HttpWire_new [Arrives (take 20 sample_head); Says IoWouldBlock; Arrives (drop 20 sample_head ++ lit "seventeen"); Says IoInterrupted; Arrives (lit " bytes!!" ++ lit "GET")] Config_default.

(** The same connection once its head was read. *)
Definition sample_rest : HttpWire (list Arrival) :=
  MkHttpWire [Says IoInterrupted; Arrives (lit " bytes!!" ++ lit "GET")] (sample_head ++ lit "seventeen") 32768 (length sample_head) 0.

Lemma a_message_ends_where_its_bytes_say_witness :
  (exists w' t', read_head 200 Config_default 1 sample_wire tt =
     Some (InHead (MkHead Post (lit "/v1/traces") (lit "/v1%2Ftraces") (Some 17) None None None None false true), w', t')) /\
  (exists w' t', read_body 200 17 Config_default 1 sample_rest tt = Some (Ok (lit "seventeen bytes!!"), w', t') /\ still w' = lit "GET").
Proof.
  assert (Hok : wire_ok sample_wire) by (split; vm_compute; [lia|discriminate]).
  assert (Hok2 : wire_ok sample_rest) by (split; vm_compute; [lia|discriminate]).
  destruct (a_message_ends_where_its_bytes_say Config_default sample_wire tt Hok) as (_ & _ & Hlive); [vm_compute; discriminate|vm_compute; reflexivity|].
  destruct (a_message_ends_where_its_bytes_say Config_default sample_rest tt Hok2) as (_ & Hbody & Hlive2); [vm_compute; discriminate|vm_compute; reflexivity|].
  split.
  - destruct (Hlive 200%nat 1) as [(w' & t' & E) _]; [intros []; vm_compute; reflexivity|by repeat constructor|vm_compute; lia|].
    exists w', t'. rewrite E. vm_compute. reflexivity.
  - destruct (Hlive2 200%nat 1) as [_ H]; [intros []; vm_compute; reflexivity|by repeat constructor|vm_compute; lia|].
    destruct (H 17) as (body & w' & t' & E); [intros [] []; vm_compute; reflexivity|vm_compute; split; discriminate|vm_compute; discriminate|].
    pose proof E as E'. apply Hbody in E' as (-> & _ & Es & _); [|lia]. exists w', t'. rewrite Es. split; [|vm_compute; reflexivity].
    rewrite E. vm_compute. reflexivity.
Defined.

(** Between a read that came back empty and the next the clock may pass the deadline:
    a connection on which nothing of a request arrived is answered 408 all the same. *)
#[local] Instance listed_clock : Instants (list Z) := fun ts => match ts with [] => (0, []) | now :: ts => (now, ts) end.

Example a_quiet_connection_may_be_answered :
  read_head 5 Config_default 10 (HttpWire_new [Says IoWouldBlock] Config_default) [0; 9; 11] =
  Some (InRefused (MkReject StRequestTimeout (lit "the deadline passed")), HttpWire_new [] Config_default, []).
Proof. reflexivity. Qed.

(** ** An answer, read by the same rules *)

Lemma length_value_digits v acc : forallb is_ascii_digit v = true -> 0 <= acc -> length_value v acc = Completeness.parse_digits v acc.
Proof.
  revert acc; induction v as [|b v IH]; intros acc; [done|]. cbn [forallb length_value Completeness.parse_digits]. intros [Hb Hv]%andb_true_iff Ha.
  unfold is_ascii_digit in Hb. rewrite Hb. apply andb_true_iff in Hb as [H1 H2]. destruct (Z.ltb_spec u64_max (acc * 10)) as [Hm|Hm].
  - destruct (Z.ltb_spec u64_max (acc * 10 + (u8v b - 48))); [done|lia].
  - destruct (Z.ltb_spec u64_max (acc * 10 + (u8v b - 48))); [done|]. apply IH; [done|lia].
Qed.

Lemma decimal_fuel_length f n : (length (Completeness.decimal_fuel f n) <= f)%nat.
Proof. revert n; induction f as [|f IH]; intros n; [done|]. cbn. destruct (n <? 10); [cbn; lia|]. rewrite length_app. cbn. specialize (IH (n / 10)). lia. Qed.

Lemma content_length_of_decimal n : u64_ok n -> parse_content_length (Completeness.decimal n) = Ok n.
Proof.
  intros Hn. pose proof (Completeness.parse_u64_decimal n Hn) as H. unfold parse_content_length.
  assert (Hd : forallb is_ascii_digit (Completeness.decimal n) = true) by (apply decimal_fuel_digits; unfold u64_ok in Hn; lia).
  destruct (Completeness.decimal_head 20 n) as (b & l & E & Hb); [lia|unfold u64_ok in Hn; lia|]. fold (Completeness.decimal n) in E.
  rewrite bool_decide_false by (by rewrite E). pose proof (decimal_fuel_length 20 n) as Hl. fold (Completeness.decimal n) in Hl.
  destruct (Nat.ltb_spec 20 (length (Completeness.decimal n))); [lia|]. rewrite Hd. cbn [negb orb]. rewrite length_value_digits by done.
  unfold Completeness.parse_u64 in H. rewrite E in *. destruct (Z.eqb_spec (u8v b) 43); [lia|]. cbn [length Nat.eqb] in H. by rewrite H.
Qed.

Lemma tchar_plain b : is_tchar b = true -> plain_byte b = true.
Proof. by destruct b. Qed.

Lemma plain_line l : forallb plain_byte l = true -> clean l /\ x00 ∉ l.
Proof.
  rewrite forallb_forall. intros H. assert (Hx : forall b, plain_byte b = false -> b ∉ l) by (intros b Hb Hin%list_elem_of_In%H; congruence).
  split; [|by apply Hx]. apply Forall_forall. intros b Hb. split; intros ->; [by apply (Hx CR)|by apply (Hx LF)].
Qed.

Lemma scan_one_line cap l k s ls :
  clean l -> x00 ∉ l -> Z.of_nat (s + length l) < cap ->
  scan_lines cap (l ++ crlf ++ k) s ls = if (s + length l =? ls)%nat then ScFound (s + length l + 2) else scan_lines cap k (s + length l + 2) (s + length l + 2).
Proof.
  revert s; induction l as [|b l IH]; intros s Hc Hn Hs; cbn [app length] in *.
  - rewrite Nat.add_0_r in *. change (crlf ++ k) with (CR :: LF :: k). cbn [scan_lines]. destruct (Z.leb_spec cap (Z.of_nat s)); [lia|]. done.
  - apply Forall_cons in Hc as [[Hb1 Hb2] Hc]. apply not_elem_of_cons in Hn as [Hb3 Hn]. cbn [scan_lines]. destruct (Z.leb_spec cap (Z.of_nat s)); [lia|].
    destruct (Byte.eqb b LF) eqn:E1; [by apply eqb_true in E1|]. destruct (Byte.eqb b CR) eqn:E2; [by apply eqb_true in E2|].
    destruct (Byte.eqb b x00) eqn:E3; [by apply eqb_true in E3 as ->|]. rewrite IH by (done || lia).
    replace (s + 1 + length l)%nat with (s + S (length l))%nat by lia. done.
Qed.

Lemma scan_all_lines cap lines k s :
  Forall (fun l => l <> [] /\ clean l /\ x00 ∉ l) lines -> Z.of_nat (s + length (on_lines lines)) < cap ->
  scan_lines cap (on_lines lines ++ crlf ++ k) s s = ScFound (s + length (on_lines lines) + 2).
Proof.
  intros H. revert s; induction H as [|l lines (Hne & Hc & Hn) _ IH]; intros s Hs.
  - change (on_lines []) with (@nil byte) in *. cbn [length] in *. rewrite (scan_one_line cap [] k s s); [|by constructor|by apply not_elem_of_nil|cbn; lia].
    cbn [length]. rewrite Nat.add_0_r, Nat.eqb_refl. done.
  - change (on_lines (l :: lines)) with ((l ++ crlf) ++ on_lines lines) in *. rewrite !length_app in Hs. cbn [length crlf] in Hs. rewrite <- !app_assoc.
    rewrite scan_one_line by (done || lia). destruct (Nat.eqb_spec (s + length l) s) as [E|_]; [destruct l; [done|cbn in E; lia]|].
    rewrite IH by lia. f_equal. rewrite !length_app. cbn [length crlf]. lia.
Qed.

(** The lines of an answer's head before the empty one. *)
Definition answer_lines (r : Response) : list (list byte) :=
  status_line r.(rs_status) :: map header_line r.(rs_headers) ++
  (lit "Content-Length: " ++ Completeness.decimal (Z.of_nat (length r.(rs_body)))) :: (if r.(rs_close) then [lit "Connection: close"] else []).

Lemma on_lines_cons l ls : on_lines (l :: ls) = l ++ crlf ++ on_lines ls.
Proof. unfold on_lines. cbn [map concat]. by rewrite <- app_assoc. Qed.

Lemma response_head_lines r : response_head r = on_lines (answer_lines r ++ [[]]).
Proof.
  unfold response_head, answer_lines. rewrite on_lines_app, on_lines_cons, on_lines_app, on_lines_cons, <- !app_assoc. do 2 f_equal. f_equal.
  - unfold on_lines. by rewrite map_map.
  - do 3 f_equal. by destruct (rs_close r).
Qed.

Lemma status_line_plain s : status_line s <> [] /\ forallb plain_byte (status_line s) = true.
Proof. by destruct s. Qed.

Lemma answer_lines_ok r : response_ok r -> Forall (fun l => l <> [] /\ clean l /\ x00 ∉ l) (answer_lines r).
Proof.
  intros Hr. assert (Hp : forall l, l <> [] -> forallb plain_byte l = true -> l <> [] /\ clean l /\ x00 ∉ l) by (intros l Hl H%plain_line; done).
  unfold answer_lines. rewrite Forall_cons, Forall_app, Forall_cons, Forall_map. refine (conj _ (conj _ (conj _ _))).
  - destruct (status_line_plain (rs_status r)). by apply Hp.
  - eapply Forall_impl; [exact Hr|]. intros [name value] (Hn & Ht & Hv). apply Hp; [by destruct name|]. unfold header_line. cbn [fst snd] in *.
    rewrite !forallb_app, Hv. apply andb_true_iff. split; [|done]. rewrite forallb_forall in *. intros b Hb. by apply tchar_plain, Ht.
  - apply Hp; [done|]. rewrite forallb_app. apply andb_true_iff. split; [done|]. apply digits_plain, decimal_fuel_digits. lia.
  - destruct (rs_close r); [|by constructor]. constructor; [|by constructor]. by apply Hp.
Qed.

(** C33 (an answer is one message). Whatever a response was built with - nothing a
    caller passes can carry a line end into a header - its bytes are one message by
    the rules requests are read by: the head ends where the serialiser ended it,
    whatever the body holds and whatever follows; its lines are the status, the
    fields one by one, each with its own name, the length and the close; and the
    length they state is the body's. *)
Theorem an_answer_is_one_message (r : Response) (Hbuilt : built r) (Hlen : Z.of_nat (length r.(rs_body)) < 2 ^ 64) :
  (forall cap rest, Z.of_nat (length (response_head r)) <= cap ->
     scan_lines cap (response_head r ++ r.(rs_body) ++ rest) 0 0 = ScFound (length (response_head r))) /\
  crlf_lines (response_head r) = Ok (answer_lines r ++ [[]]) /\
  Forall (fun h => position (Byte.eqb colon) (header_line h) = Some (length h.1)) r.(rs_headers) /\
  parse_content_length (trim_ows (lit " " ++ Completeness.decimal (Z.of_nat (length r.(rs_body))))) = Ok (Z.of_nat (length r.(rs_body))).
Proof.
  pose proof (built_ok r Hbuilt) as Hr. pose proof (answer_lines_ok r Hr) as Hl. split_and!.
  - intros cap rest Hc. rewrite response_head_lines, on_lines_app in *. rewrite length_app in *. change (on_lines [[]]) with crlf in *. cbn [length crlf] in *.
    rewrite <- app_assoc. rewrite (scan_all_lines cap (answer_lines r) (rs_body r ++ rest) 0 Hl) by lia. done.
  - rewrite response_head_lines. apply crlf_lines_iff. split; [done|]. rewrite Forall_app. split; [|constructor; [by constructor|by constructor]].
    eapply Forall_impl; [exact Hl|]. by intros l (_ & H & _).
  - eapply Forall_impl; [exact Hr|]. intros [name value] (_ & Ht & _). apply position_some. exists name, (lit " " ++ value). split_and!; [done| |done].
    by apply (tchar_not colon).
  - assert (E : trim_ows (lit " " ++ Completeness.decimal (Z.of_nat (length (rs_body r)))) = Completeness.decimal (Z.of_nat (length (rs_body r)))).
    { set (n := Z.of_nat _). assert (Hd : forallb is_ascii_digit (Completeness.decimal n) = true) by (apply decimal_fuel_digits; lia).
      assert (Hid : forall l, forallb is_ascii_digit l = true -> trim_front is_ows l = l).
      { intros [|b l]; [done|]. cbn. intros [H _]%andb_true_iff. unfold is_ascii_digit, is_ows in *. destruct (Z.eqb_spec (u8v b) 32); [lia|]. destruct (Z.eqb_spec (u8v b) 9); [lia|]. done. }
      unfold trim_ows. change (trim_front is_ows (lit " " ++ Completeness.decimal n)) with (trim_front is_ows (Completeness.decimal n)). rewrite (Hid _ Hd).
      rewrite Hid; [apply rev_involutive|]. rewrite forallb_forall in *. intros b Hb%in_rev. by apply Hd. }
    rewrite E. apply content_length_of_decimal. unfold u64_ok. lia.
Qed.

Lemma an_answer_is_one_message_witness :
  crlf_lines (response_head (unauthorized (lit "no"))) = Ok (answer_lines (unauthorized (lit "no")) ++ [[]]).
Proof.
  destruct (an_answer_is_one_message (unauthorized (lit "no"))) as (_ & H & _).
  - apply (built_unauthorized (lit "no") (lit "Bearer")). reflexivity.
  - vm_compute. reflexivity.
  - exact H.
Defined.
