(* ===== verification/Door.v ===== *)
(** * The ingest door ([trailryx-ingest/src/auth.rs], [bearer.rs], [handler.rs], [server.rs])

    The gate in front of the body read, the one-secret provider, what a head alone
    decides, what becomes of a body, and one connection from its first byte to its
    close - over any stream, clock, provider and source. *)

From S2P Require Import Prelude Bytes Ids Record Digest ObjectStore Inflate HttpResponse HttpRequest HttpWire.

(** ** The contract of an authentication provider *)

Inductive Action := AcReadMetadata | AcReadPayload | AcQuery | AcProduceEvidence | AcErase | AcAdminister | AcIngest.
Inductive AuthDecision := DeAllow | DeDeny.

#[export] Instance Action_eq_dec : EqDecision Action.
Proof. solve_decision. Defined.
#[export] Instance AuthDecision_eq_dec : EqDecision AuthDecision.
Proof. solve_decision. Defined.

Record Principal := MkPrincipal { pr_id : PrincipalId; pr_via : str }.

Record RequestContext := MkRequestContext { rc_method : str; rc_path : str; rc_headers : list (str * list byte) }.

Definition request_header (r : RequestContext) (name : str) : option (list byte) :=
  snd <$> List.find (fun h => eq_ignore_ascii_case h.1 name) r.(rc_headers).

Class AuthProvider (P : Type) := {
  authenticate_request : RequestContext -> P -> result AdapterError Principal * P;
  authorize : Principal -> Action -> str -> P -> AuthDecision * P;
}.

(** The method a provider written against the credential alone keeps. *)
Definition authenticate_request_default {P} (authenticate : list byte -> P -> result AdapterError Principal * P) (request : RequestContext) (p : P) :=
  authenticate (default [] (request_header request (lit "authorization"))) p.

(** ** The gate *)

Inductive Outcome := GateAllow (caller : option AgentId) | GateRefuse (response : Response).

Record Gate (P : Type) := MkGate {
  gt_provider : P;
  gt_lock_poisoned : bool;
  gt_scope : str;
  gt_no_credential : Z;
  gt_rejected : Z;
  gt_denied : Z;
  gt_unavailable : Z;
  gt_poisoned : bool;
  gt_binds : bool;
  gt_challenge : str;
}.
#[global] Arguments MkGate {P}.
#[global] Arguments gt_provider {P}.
#[global] Arguments gt_lock_poisoned {P}.
#[global] Arguments gt_scope {P}.
#[global] Arguments gt_no_credential {P}.
#[global] Arguments gt_rejected {P}.
#[global] Arguments gt_denied {P}.
#[global] Arguments gt_unavailable {P}.
#[global] Arguments gt_poisoned {P}.
#[global] Arguments gt_binds {P}.
#[global] Arguments gt_challenge {P}.

Record Refusals := MkRefusals { rf_no_credential : Z; rf_rejected : Z; rf_denied : Z; rf_unavailable : Z; rf_poisoned : bool }.

Section gate.
Context {P : Type} {AP : AuthProvider P}.

Definition Gate_new (provider : P) (scope : str) : Gate P := MkGate provider false scope 0 0 0 0 false false (lit "Bearer").

Definition binding_records_to_the_caller (g : Gate P) : Gate P :=
  MkGate g.(gt_provider) g.(gt_lock_poisoned) g.(gt_scope) g.(gt_no_credential) g.(gt_rejected) g.(gt_denied) g.(gt_unavailable) g.(gt_poisoned) true g.(gt_challenge).

Definition with_challenge (g : Gate P) (challenge : str) : Gate P :=
  MkGate g.(gt_provider) g.(gt_lock_poisoned) g.(gt_scope) g.(gt_no_credential) g.(gt_rejected) g.(gt_denied) g.(gt_unavailable) g.(gt_poisoned) g.(gt_binds) challenge.

Definition refusals (g : Gate P) : Refusals :=
  MkRefusals g.(gt_no_credential) g.(gt_rejected) g.(gt_denied) g.(gt_unavailable) g.(gt_poisoned).

(** [fetch_add(1)] on the four counters, and the provider after its turn. *)
Definition gate_counted (g : Gate P) (provider : P) (no_credential rejected denied unavailable : Z) (poisoned : bool) : Gate P :=
  MkGate provider g.(gt_lock_poisoned) g.(gt_scope) (as_u64 (g.(gt_no_credential) + no_credential)) (as_u64 (g.(gt_rejected) + rejected))
    (as_u64 (g.(gt_denied) + denied)) (as_u64 (g.(gt_unavailable) + unavailable)) (g.(gt_poisoned) || poisoned) g.(gt_binds) g.(gt_challenge).

Definition decide_request (request : RequestContext) (g : Gate P) : Outcome * Gate P :=
  if match request_header request (lit "authorization") with Some [] | None => true | Some _ => false end then
    (GateRefuse (unauthorized_with (lit "this endpoint requires an Authorization field") g.(gt_challenge)), gate_counted g g.(gt_provider) 1 0 0 0 false)
  else if g.(gt_lock_poisoned) then
    (GateRefuse (Response_error StServiceUnavailable (lit "the authentication provider failed and this server will not admit writes without it")), gate_counted g g.(gt_provider) 0 0 0 1 true)
  else
    match authenticate_request request g.(gt_provider) with
    | (Err (AdUnavailable _), p) =>
        (GateRefuse (Response_error StServiceUnavailable (lit "the authentication provider is unavailable")), gate_counted g p 0 0 0 1 false)
    | (Err (AdRejected _), p) | (Err (AdUnsupported _), p) =>
        (GateRefuse (unauthorized_with (lit "the credential was not accepted") g.(gt_challenge)), gate_counted g p 0 1 0 0 false)
    | (Ok principal, p) =>
        let '(decision, p) := authorize principal AcIngest g.(gt_scope) p in
        if bool_decide (decision = DeDeny) then
          (GateRefuse (Response_error StForbidden (lit "this principal may not write records to this scope")), gate_counted g p 0 0 1 0 false)
        else if negb g.(gt_binds) then (GateAllow None, gate_counted g p 0 0 0 0 false)
        else
          match AgentId_parse_strict (as_str principal.(pr_id)) with
          | Ok agent => (GateAllow (Some agent), gate_counted g p 0 0 0 0 false)
          | Err _ =>
              (GateRefuse (Response_error StForbidden (lit "this door writes records under their caller's name, and this principal is not an agent")),
               gate_counted g p 0 0 1 0 false)
          end
    end.

Definition decide_credential (credential : option (list byte)) (g : Gate P) : Outcome * Gate P :=
  decide_request (MkRequestContext (lit "POST") (lit "/") (match credential with Some value => [(lit "authorization", value)] | None => [] end)) g.

End gate.

(** ** One shared secret *)

Definition SCHEME : str := lit "bearer ".

Inductive SecretError := SeEmpty | SeTooLong | SeNotAFieldValue.

Definition MAX_SECRET : nat := 4096.

Record SharedSecret := MkSharedSecret { ss_digest : Hash; ss_principal : PrincipalId; ss_scope : str }.

Definition is_ascii_whitespace (b : byte) : bool :=
  let c := u8v b in (c =? 0x20) || (c =? 0x09) || (c =? 0x0a) || (c =? 0x0c) || (c =? 0x0d).

Definition secret_trimmed (bytes : list byte) : list byte := rev (trim_front is_ascii_whitespace (rev (trim_front is_ascii_whitespace bytes))).

Definition field_value_byte (b : byte) : bool :=
  let c := u8v b in ((0x21 <=? c) && (c <=? 0x7E)) || (c =? 0x09) || (c =? 0x20) || (0x80 <=? c).

Definition strip_bearer (credential : list byte) : option (list byte) :=
  if (length credential <? length SCHEME)%nat then None
  else if eq_ignore_ascii_case (take (length SCHEME) credential) SCHEME then Some (drop (length SCHEME) credential) else None.

Section secret.
Context {D : Digest}.

Definition SharedSecret_new (secret : list byte) (scope : str) : result SecretError SharedSecret :=
  let secret := secret_trimmed secret in
  if bool_decide (secret = []) then Err SeEmpty
  else if (MAX_SECRET <? length secret)%nat then Err SeTooLong
  else if negb (forallb field_value_byte secret) then Err SeNotAFieldValue
  else Ok (MkSharedSecret (digest secret) (MkToken (lit "agent://shared-secret/fleet")) scope).

Definition secret_authenticate (credential : list byte) (s : SharedSecret) : result AdapterError Principal * SharedSecret :=
  (match strip_bearer credential with
   | None => Err (AdUnsupported "this provider understands the Bearer scheme only")
   | Some token =>
       if bool_decide (token = []) then Err (AdRejected "the bearer token is empty")
       else if digests_equal (digest token) s.(ss_digest) then Ok (MkPrincipal s.(ss_principal) (lit "shared-secret"))
       else Err (AdRejected "the bearer token does not match")
   end, s).

Definition secret_authorize (_ : Principal) (action : Action) (scope : str) (s : SharedSecret) : AuthDecision * SharedSecret :=
  (match action with AcIngest => if bool_decide (scope = s.(ss_scope)) then DeAllow else DeDeny | _ => DeDeny end, s).

#[export] Instance SharedSecret_provider : AuthProvider SharedSecret := {
  authenticate_request := authenticate_request_default secret_authenticate;
  authorize := secret_authorize;
}.

End secret.

(** ** The handler *)

(** The receiver behind the door: its counters and its queue. The counters are [u32]s
    that stop at their maximum, of which a client here uses that they never fall. *)
Class OtlpSource (O : Type) := {
  source_pending : O -> Z;
  malformed_batches : O -> Z;
  lost : O -> Z;
  dropped_spans : O -> Z;
  not_the_caller : O -> Z;
  accept_as : list byte -> Z -> option AgentId -> O -> O;
}.

(** The latest instant the platform can name, in nanoseconds: [Instant::checked_add]
    answers nothing past it. *)
Class LastInstant (T : Type) := last_instant : Z.

Definition checked_add (T : Type) {LI : LastInstant T} (now d : Z) : option Z :=
  if last_instant <? now + d then None else Some (now + d).

(** [checked_add(budget).unwrap_or(deadline).min(deadline)]. *)
Definition clamped (T : Type) {LI : LastInstant T} (now budget deadline : Z) : Z :=
  Z.min (default deadline (checked_add T now budget)) deadline.

(** The embedding store's clock. *)
Class StoreClock (K : Type) := store_now : K -> Z * K.

Inductive DoorVerdict := ReadBody (length_ : Z) (gzip : bool) (caller : option AgentId) | Answer (r : Response).

Record IngestDoor (O P K : Type) := MkDoor {
  dr_source : O;
  dr_source_poisoned : bool;
  dr_auth : option (Gate P);
  dr_clock : K;
  dr_config : Config;
  dr_degraded : bool;
}.
#[global] Arguments MkDoor {O P K}.
#[global] Arguments dr_source {O P K}.
#[global] Arguments dr_source_poisoned {O P K}.
#[global] Arguments dr_auth {O P K}.
#[global] Arguments dr_clock {O P K}.
#[global] Arguments dr_config {O P K}.
#[global] Arguments dr_degraded {O P K}.

Inductive Media := MediaProtobuf | MediaJson.
Inductive Coding := CodingIdentity | CodingGzip.

#[export] Instance Coding_eq_dec : EqDecision Coding.
Proof. solve_decision. Defined.

Definition media_type (value : option (list byte)) : option Media :=
  value ← value;
  let essence := trim_ows (up_to_first x3b value) in
  if eq_ignore_ascii_case essence (lit "application/x-protobuf") then Some MediaProtobuf
  else if eq_ignore_ascii_case essence (lit "application/json") then Some MediaJson
  else None.

Definition coding (value : option (list byte)) : option Coding :=
  match value with
  | None => Some CodingIdentity
  | Some value =>
      let value := trim_ows value in
      if bool_decide (value = []) then Some CodingIdentity
      else if existsb (Byte.eqb x2c) value then None
      else if eq_ignore_ascii_case value (lit "identity") then Some CodingIdentity
      else if eq_ignore_ascii_case value (lit "gzip") then Some CodingGzip
      else None
  end.

Definition READINESS_PATH : str := lit "/healthz".

(** The two fields a provider may need. *)
Definition context_of (h : Head) : RequestContext :=
  MkRequestContext (Method_as_str h.(hd_method)) h.(hd_raw_path)
    (match h.(hd_authorization) with Some v => [(lit "authorization", v)] | None => [] end ++
     match h.(hd_dpop) with Some v => [(lit "dpop", v)] | None => [] end).

Section handler.
Context {O P K : Type} {OS : OtlpSource O} {AP : AuthProvider P} {SC : StoreClock K}.
Abbreviation Door := (IngestDoor O P K) (only parsing).

Definition Door_new (source : O) (config : Config) (clock : K) : Door := MkDoor source false None clock config false.
Definition with_auth (d : Door) (gate : Gate P) : Door :=
  MkDoor d.(dr_source) d.(dr_source_poisoned) (Some gate) d.(dr_clock) d.(dr_config) d.(dr_degraded).

Definition degraded (d : Door) : Door := MkDoor d.(dr_source) d.(dr_source_poisoned) d.(dr_auth) d.(dr_clock) d.(dr_config) true.
Definition set_source (d : Door) (o : O) : Door := MkDoor o d.(dr_source_poisoned) d.(dr_auth) d.(dr_clock) d.(dr_config) d.(dr_degraded).
Definition set_gate (d : Door) (g : Gate P) : Door := MkDoor d.(dr_source) d.(dr_source_poisoned) (Some g) d.(dr_clock) d.(dr_config) d.(dr_degraded).
Definition set_clock (d : Door) (k : K) : Door := MkDoor d.(dr_source) d.(dr_source_poisoned) d.(dr_auth) k d.(dr_config) d.(dr_degraded).

Definition with_source {A} (f : O -> A * O) (d : Door) : option A * Door :=
  if d.(dr_source_poisoned) then (None, degraded d) else let '(a, o) := f d.(dr_source) in (Some a, set_source d o).

Definition unavailable (d : Door) (why : string) : Response := retry_after (Response_error StServiceUnavailable (lit why)) d.(dr_config).(cf_retry_after_seconds).

Definition readiness (h : Head) (d : Door) : Response :=
  if negb (bool_decide (h.(hd_method) = Get)) then allow (Response_error StMethodNotAllowed (lit "readiness is GETted")) (lit "GET")
  else if d.(dr_degraded) || d.(dr_source_poisoned) then unavailable d "the ingest path is degraded"
  else closing (Response_new StOk).

(** What the head says of its body, once the caller was let in. *)
Definition describe_body (h : Head) (caller : option AgentId) (d : Door) : DoorVerdict * Door :=
  match h.(hd_declared_length) with
  | Some 0 => (ReadBody 0 false caller, d)
  | None =>
      match h.(hd_content_type) with
      | None => (ReadBody 0 false caller, d)
      | Some _ => (Answer (Response_error StLengthRequired (lit "a body needs a Content-Length; this server does not implement transfer codings")), d)
      end
  | Some _ =>
      match media_type h.(hd_content_type) with
      | Some MediaJson =>
          (Answer (Response_error StUnsupportedMediaType (lit "this server accepts application/x-protobuf only; set OTEL_EXPORTER_OTLP_PROTOCOL=http/protobuf")), d)
      | None => (Answer (Response_error StUnsupportedMediaType (lit "this server accepts application/x-protobuf only")), d)
      | Some MediaProtobuf =>
          match coding h.(hd_content_encoding) with
          | None => (Answer (Response_error StUnsupportedMediaType (lit "the only content coding this server decodes is a single gzip")), d)
          | Some c =>
              if d.(dr_config).(cf_max_body) <? body_length h then
                (Answer (Response_error StPayloadTooLarge (lit "the declared body length exceeds this server's limit")), d)
              else
                match with_source (fun o => (source_pending o, o)) d with
                | (None, d) => (Answer (unavailable d "the ingest path is degraded"), d)
                | (Some pending, d) =>
                    if d.(dr_config).(cf_max_pending) <=? pending then (Answer (unavailable d "the ingest queue is full; the batch is still yours"), d)
                    else (ReadBody (body_length h) (bool_decide (c = CodingGzip)) caller, d)
                end
          end
      end
  end.

Definition inspect (h : Head) (d : Door) : DoorVerdict * Door :=
  match strip_prefix d.(dr_config).(cf_path_prefix) h.(hd_path) with
  | None => (Answer (Response_error StNotFound (lit "no endpoint is served at that path")), d)
  | Some rest =>
      if bool_decide (rest = READINESS_PATH) then (Answer (readiness h d), d)
      else if negb (bool_decide (rest = lit "/v1/traces") || bool_decide (rest = lit "/") || bool_decide (rest = [])) then
        (Answer (Response_error StNotFound
           (if bool_decide (rest = lit "/v1/metrics") || bool_decide (rest = lit "/v1/logs") || bool_decide (rest = lit "/v1development/profiles")
            then lit "this store records traces; metrics and logs are not accepted here" else lit "no endpoint is served at that path")), d)
      else if negb (bool_decide (h.(hd_method) = Post)) then (Answer (allow (Response_error StMethodNotAllowed (lit "traces are POSTed")) (lit "POST")), d)
      else if d.(dr_degraded) then (Answer (unavailable d "the ingest path is degraded"), d)
      else
        match d.(dr_auth) with
        | None => describe_body h None d
        | Some gate =>
            match decide_request (context_of h) gate with
            | (GateRefuse response, gate) => (Answer response, set_gate d gate)
            | (GateAllow caller, gate) => describe_body h caller (set_gate d gate)
            end
        end
  end.

(** The batch, under the lock: what it added to the four counters. *)
Definition hand_over (body : list byte) (recorded_at : Z) (caller : option AgentId) (max_pending : Z) (o : O) : result unit (Z * Z * Z * Z) * O :=
  if max_pending <=? source_pending o then (Err tt, o)
  else
    let o' := accept_as body recorded_at caller o in
    (Ok (malformed_batches o' - malformed_batches o, lost o' - lost o, dropped_spans o' - dropped_spans o, not_the_caller o' - not_the_caller o), o').

Definition explain (lost dropped not_the_caller : Z) : str :=
  if 0 <? not_the_caller then lit "some spans name another agent than the one whose token sent them; they were refused and the refusal was recorded"
  else if lost =? 0 then lit "some spans were dropped at this server's decode limits"
  else if dropped =? 0 then lit "some spans could not be mapped; see the store's ingest counters"
  else lit "some spans were dropped at the decode limits and others could not be mapped".

Definition submit_decoded (body : list byte) (caller : option AgentId) (d : Door) : Response * Door :=
  let '(recorded_at, k) := store_now d.(dr_clock) in
  let d := set_clock d k in
  match with_source (hand_over body recorded_at caller d.(dr_config).(cf_max_pending)) d with
  | (None, d) => (unavailable d "the ingest path is degraded", d)
  | (Some (Err _), d) => (unavailable d "the ingest queue is full; the batch is still yours", d)
  | (Some (Ok (malformed, lost, dropped, not_the_caller)), d) =>
      if 0 <? malformed then (Response_error StBadRequest (lit "the batch could not be decoded as an ExportTraceServiceRequest"), d)
      else if 0 <? lost + dropped then
        (with_body (Response_new StOk) Protobuf (encode_export_response (lost + dropped) (explain lost dropped not_the_caller)), d)
      else (with_body (Response_new StOk) Protobuf [], d)
  end.

(** [None] is the decoder's shortage of fuel, which it never has. *)
Definition decompress (body : list byte) (gzip : bool) (config : Config) : option (result Response (list byte)) :=
  if gzip then
    r ← gunzip body (MkBounds config.(cf_max_body) config.(cf_gzip_max_ratio) Bounds_default.(ratio_after_output));
    Some (match r with
          | Ok bytes => Ok bytes
          | Err OutputTooLarge | Err RatioTooHigh => Err (Response_error StPayloadTooLarge (lit "the body decompresses to more than this server accepts"))
          | Err _ => Err (Response_error StBadRequest (lit "the gzip body could not be decoded"))
          end)
  else Some (Ok body).

Definition submit (body : list byte) (gzip : bool) (caller : option AgentId) (d : Door) : option (Response * Door) :=
  r ← decompress body gzip d.(dr_config);
  match r with
  | Err response => Some (response, d)
  | Ok body => Some (submit_decoded body caller d)
  end.

End handler.

(** ** One connection *)

Inductive EventKind := EvListening | EvRoutableBind | EvAccepted | EvServed | EvRefused | EvShed | EvTruncated | EvAcceptFailed | EvSpawnFailed | EvClosed.
Record Event := MkEvent { ev_kind : EventKind; ev_status : option Z; ev_bytes : Z }.

(** [Budget::reserve]; the drop gives [taken] back. *)
Definition reserve (total want ceiling : Z) : option Z :=
  let next := total + want in if (u64_max <? next) || (ceiling <? next) then None else Some next.

Definition release (total taken : Z) : Z := total - taken.

(** [Server::bind], before the port is opened: a routable port without a gate is
    refused. *)
Definition may_bind {O P K} (d : IngestDoor O P K) : bool := negb (is_routable d.(dr_config) && match d.(dr_auth) with None => true | Some _ => false end).

(** The socket's other half. *)
Inductive How := ShutWrite | ShutBoth.
Class Shutdown (W : Type) := shutdown : How -> W -> W.

(** [cn_inflight] is the budget all connections share. *)
Record Conn (S W T O P K : Type) := MkConn {
  cn_wire : HttpWire S;
  cn_writer : W;
  cn_time : T;
  cn_door : IngestDoor O P K;
  cn_inflight : Z;
  cn_log : list Event;
}.
#[global] Arguments MkConn {S W T O P K}.
#[global] Arguments cn_wire {S W T O P K}.
#[global] Arguments cn_writer {S W T O P K}.
#[global] Arguments cn_time {S W T O P K}.
#[global] Arguments cn_door {S W T O P K}.
#[global] Arguments cn_inflight {S W T O P K}.
#[global] Arguments cn_log {S W T O P K}.

Section server.
Context {S W T O P K : Type} {RD : Read S} {WR : Write W} {SH : Shutdown W} {IN : Instants T} {LI : LastInstant T} {OS : OtlpSource O} {AP : AuthProvider P} {SC : StoreClock K}.
Abbreviation CONN := (Conn S W T O P K) (only parsing).

Definition log_event (kind : EventKind) (status : option Status) (bytes : Z) (c : CONN) : CONN :=
  MkConn c.(cn_wire) c.(cn_writer) c.(cn_time) c.(cn_door) c.(cn_inflight) (c.(cn_log) ++ [MkEvent kind (status_code <$> status) bytes]).

(** [let _ = response.write_to(&mut writer)]. *)
Definition answer (r : Response) (c : CONN) : bool * CONN :=
  let '(written, w) := write_to r c.(cn_writer) in (is_ok written, MkConn c.(cn_wire) w c.(cn_time) c.(cn_door) c.(cn_inflight) c.(cn_log)).

Definition set_wire (wire : HttpWire S) (t : T) (c : CONN) : CONN := MkConn wire c.(cn_writer) t c.(cn_door) c.(cn_inflight) c.(cn_log).
Definition set_door (d : IngestDoor O P K) (c : CONN) : CONN := MkConn c.(cn_wire) c.(cn_writer) c.(cn_time) d c.(cn_inflight) c.(cn_log).
Definition set_inflight (n : Z) (c : CONN) : CONN := MkConn c.(cn_wire) c.(cn_writer) c.(cn_time) c.(cn_door) n c.(cn_log).
Definition set_time (t : T) (c : CONN) : CONN := MkConn c.(cn_wire) c.(cn_writer) t c.(cn_door) c.(cn_inflight) c.(cn_log).

Definition send_continue (c : CONN) : bool * CONN :=
  let '(written, w) := write_continue c.(cn_writer) in (is_ok written, MkConn c.(cn_wire) w c.(cn_time) c.(cn_door) c.(cn_inflight) c.(cn_log)).

(** The body's phase, under a reservation: the response, or nothing when the
    connection breaks. *)
Definition receive_body (fuel : nat) (config : Config) (connection_deadline length_ : Z) (gzip : bool) (caller : option AgentId) (expect_continue : bool) (c : CONN) :
    option (option Response * CONN) :=
  let '(go, c) := if expect_continue then send_continue c else (true, c) in
  if negb go then Some (None, c)
  else
    let '(now, t) := instant_now c.(cn_time) in
    let body_deadline := clamped T now config.(cf_body_timeout) connection_deadline in
    '(r, wire, t) ← read_body fuel length_ config body_deadline c.(cn_wire) t;
    let c := set_wire wire t c in
    match r with
    | Ok body => '(response, d) ← submit body gzip caller c.(cn_door); Some (Some response, set_door d c)
    | Err BodyTruncated => Some (None, log_event EvTruncated None length_ c)
    | Err (BodyRefused e) =>
        let c := log_event EvRefused (Some e.(rj_status)) length_ c in
        Some (None, (answer (Response_error e.(rj_status) e.(rj_why)) c).2)
    end.

(** What a head is answered, or that the connection breaks. *)
Definition respond (fuel : nat) (config : Config) (connection_deadline : Z) (h : Head) (c : CONN) : option (option Response * CONN) :=
  match inspect h c.(cn_door) with
  | (Answer response, d) => Some (Some response, set_door d c)
  | (ReadBody length_ gzip caller, d) =>
      let c := set_door d c in
      let want := if gzip then config.(cf_max_body) else length_ in
      match reserve c.(cn_inflight) want config.(cf_max_inflight_body) with
      | None =>
          let c := log_event EvShed (Some StServiceUnavailable) length_ c in
          let response := retry_after (Response_error StServiceUnavailable (lit "this server is at its in-flight body limit; the batch is still yours")) config.(cf_retry_after_seconds) in
          Some (None, (answer response c).2)
      | Some total =>
          '(response, c) ← receive_body fuel config connection_deadline length_ gzip caller h.(hd_expect_continue) (set_inflight total c);
          Some (response, set_inflight (release c.(cn_inflight) want) c)
      end
  end.

(** One turn of the loop: whether it goes on, and how many were served. The idle and
    the header budget are [Duration]s whose sum is one: the panic of a configuration
    with centuries in them is not modelled. *)
Definition turn (fuel : nat) (config : Config) (connection_deadline : Z) (served : Z) (c : CONN) : option (bool * Z * CONN) :=
  let head_budget := if served =? 0 then config.(cf_header_timeout) else config.(cf_idle_timeout) + config.(cf_header_timeout) in
  let '(now, t) := instant_now c.(cn_time) in
  let head_deadline := clamped T now head_budget connection_deadline in
  '(incoming, wire, t) ← read_head fuel config head_deadline c.(cn_wire) t;
  let c := set_wire wire t c in
  match incoming with
  | InEof => Some (false, served, c)
  | InRefused e =>
      let c := log_event EvRefused (Some e.(rj_status)) 0 c in
      Some (false, served, (answer (Response_error e.(rj_status) e.(rj_why)) c).2)
  | InHead h =>
      '(response, c) ← respond fuel config connection_deadline h c;
      match response with
      | None => Some (false, served, c)
      | Some response =>
          let '(written, c) := answer response c in
          if negb written then Some (false, served, c)
          else
            let c := log_event (if bool_decide (response.(rs_status) = StOk) then EvServed else EvRefused) (Some response.(rs_status)) (body_length h) c in
            Some (negb (response.(rs_close) || h.(hd_close_requested) || (0 <? buffered c.(cn_wire))%nat), served + 1, c)
      end
  end.

Fixpoint connection_loop (fuel : nat) (config : Config) (connection_deadline : Z) (turns : nat) (served : Z) (c : CONN) : option (Z * CONN) :=
  if config.(cf_max_requests_per_connection) <=? served then Some (served, c)
  else
    let '(now, t) := instant_now c.(cn_time) in
    let c := set_time t c in
    if connection_deadline <=? now then Some (served, c)
    else
      match turns with
      | Datatypes.O => None
      | Datatypes.S turns =>
          '(go_on, served, c) ← turn fuel config connection_deadline served c;
          if (go_on : bool) then connection_loop fuel config connection_deadline turns served c else Some (served, c)
      end.

(** A connection over the cap: told so, and closed. *)
Definition shed (retry_after_ : Z) (w : W) : W :=
  shutdown ShutBoth (write_to (retry_after (Response_error StServiceUnavailable (lit "this server is at its connection limit; the batch is still yours")) retry_after_) w).2.

(** The close, in stages. *)
Definition close_down (fuel : nat) (served : Z) (c : CONN) : option CONN :=
  let w := shutdown ShutWrite (flush c.(cn_writer)).2 in
  let '(now, t) := instant_now c.(cn_time) in
  '(wire, t) ← match checked_add T now (secs 5) with
               | Some until => drain_briefly fuel (64 * 1024) until c.(cn_wire) t
               | None => Some (c.(cn_wire), t)
               end;
  let c := MkConn wire (shutdown ShutBoth w) t c.(cn_door) c.(cn_inflight) c.(cn_log) in
  Some (log_event EvClosed None served c).

(** [handles] is whether the socket took its timeouts and a second handle. *)
Definition serve_connection (fuel : nat) (handles : bool) (stream : S) (writer : W) (time : T) (d : IngestDoor O P K) (inflight : Z) (log : list Event) : option CONN :=
  let config := d.(dr_config) in
  let c := log_event EvAccepted None 0 (MkConn (HttpWire_new stream config) writer time d inflight log) in
  if negb handles then Some (MkConn c.(cn_wire) (shutdown ShutBoth c.(cn_writer)) c.(cn_time) c.(cn_door) c.(cn_inflight) c.(cn_log))
  else
    let '(now, t) := instant_now c.(cn_time) in
    match checked_add T now config.(cf_connection_lifetime) with
    | None => Some (MkConn c.(cn_wire) (shutdown ShutBoth c.(cn_writer)) t c.(cn_door) c.(cn_inflight) c.(cn_log))
    | Some connection_deadline =>
        '(served, c) ← connection_loop fuel config connection_deadline (Z.to_nat config.(cf_max_requests_per_connection)) 0 (set_time t c);
        close_down fuel served c
    end.

End server.

(** ** What the gate lets in *)

Section facts.
Context {W T O P K : Type} {WR : Write W} {SH : Shutdown W} {IN : Instants T} {LI : LastInstant T} {OS : OtlpSource O} {AP : AuthProvider P} {SC : StoreClock K}.






(** The same gate but for its counters and its provider's state. *)
Definition same_gate (a b : option (Gate P)) : Prop :=
  match a, b with
  | None, None => True
  | Some a, Some b => b.(gt_scope) = a.(gt_scope) /\ b.(gt_binds) = a.(gt_binds) /\ b.(gt_challenge) = a.(gt_challenge)
  | _, _ => False
  end.

#[local] Instance same_gate_refl : Reflexive same_gate.
Proof. by intros [|]. Qed.
#[local] Instance same_gate_trans : Transitive same_gate.
Proof. intros [a|] [b|] [c|]; cbn; try done. intros (? & ? & ?) (? & ? & ?). split_and!; congruence. Qed.


Lemma gate_counted_same (g : Gate P) p a b c e x : same_gate (Some g) (Some (gate_counted g p a b c e x)).
Proof. done. Qed.








(** ** What a connection hands on *)

Abbreviation PEER := (Conn (list Arrival) W T O P K) (only parsing).











(** ** The connection comes to an end *)



Abbreviation left_to_read c := (reads_left c.(cn_wire).(hw_stream)) (only parsing).






(** ** What a body is answered *)

(** The counters of a source only grow. *)
Class OtlpSourceLaws : Prop := {
  malformed_grows : forall body at_ caller o, malformed_batches o <= malformed_batches (accept_as body at_ caller o);
  lost_grows : forall body at_ caller o, lost o <= lost (accept_as body at_ caller o);
  dropped_grows : forall body at_ caller o, dropped_spans o <= dropped_spans (accept_as body at_ caller o);
}.

(** C35 (an answer says what became of the batch). A retryable answer is given only for
    a batch the source has not seen, so a client that sends it again sends it once; a
    refusal of the bytes comes with a source that is unchanged or has counted the
    batch as undecodable; and a plain success - 200 with nothing in it - means the
    batch was taken with nothing of it malformed, lost or dropped, as the source's
    counters tell it: one that has reached its maximum no longer moves. *)
Theorem an_answer_says_what_became_of_the_batch `{!OtlpSourceLaws} (raw : list byte) (gzip : bool) (caller : option AgentId) (d d' : IngestDoor O P K) (r : Response)
    (Hrun : submit raw gzip caller d = Some (r, d')) :
  let o := d.(dr_source) in let o' := d'.(dr_source) in
  (is_retryable r.(rs_status) = true -> o' = o) /\
  (r.(rs_status) = StPayloadTooLarge -> o' = o) /\
  (r.(rs_status) = StBadRequest -> o' = o \/ malformed_batches o < malformed_batches o') /\
  (r.(rs_status) = StOk -> exists body at_, decompress raw gzip d.(dr_config) = Some (Ok body) /\ o' = accept_as body at_ caller o /\
     source_pending o < d.(dr_config).(cf_max_pending) /\ malformed_batches o' = malformed_batches o /\
     (r.(rs_body) = [] <-> lost o' = lost o /\ dropped_spans o' = dropped_spans o)) /\
  r.(rs_status) ∈ [StOk; StBadRequest; StPayloadTooLarge; StServiceUnavailable].
Proof.
  cbv zeta. unfold submit in Hrun. destruct (decompress raw gzip (dr_config d)) as [[body|response]|] eqn:Ed; cbn [mbind option_bind] in Hrun; [|injection Hrun as <- <-|done].
  2: { assert (Hr : response.(rs_status) = StPayloadTooLarge \/ response.(rs_status) = StBadRequest).
       { unfold decompress in Ed. destruct gzip; [|done]. destruct (gunzip _ _) as [[b|e]|]; [done| |done]. cbn [mbind option_bind] in Ed.
         destruct e; injection Ed as <-; first [left; reflexivity|right; reflexivity]. }
       destruct Hr as [->| ->]; (split_and!; [done|done|by left|done|set_solver]). }
  unfold submit_decoded in Hrun. destruct (store_now (dr_clock d)) as [at_ k]. unfold with_source, hand_over in Hrun. cbn [dr_source dr_source_poisoned set_clock dr_config dr_auth] in Hrun.
  destruct (dr_source_poisoned d); [injection Hrun as <- <-; split_and!; [done|done|done|done|set_solver]|].
  destruct (Z.leb_spec (cf_max_pending (dr_config d)) (source_pending (dr_source d))); [injection Hrun as <- <-; split_and!; [done|done|done|done|set_solver]|].
  pose proof (malformed_grows body at_ caller (dr_source d)). pose proof (lost_grows body at_ caller (dr_source d)). pose proof (dropped_grows body at_ caller (dr_source d)).
  set (o' := accept_as body at_ caller (dr_source d)) in *. destruct (Z.ltb_spec 0 (malformed_batches o' - malformed_batches (dr_source d))) as [Hm|Hm].
  { injection Hrun as <- <-. split_and!; [done|done|intros _; right; cbn; lia|done|set_solver]. }
  destruct (Z.ltb_spec 0 (lost o' - lost (dr_source d) + (dropped_spans o' - dropped_spans (dr_source d)))) as [Hr|Hr]; injection Hrun as <- <-.
  - split_and!; [done|done|done| |set_solver]. intros _. exists body, at_. split_and!; [done|done|done|cbn; lia|]. cbn [rs_body with_body replace_header Response_new dr_source set_source].
    split; [|intros []; lia]. unfold encode_export_response. destruct (Z.eqb_spec (lost o' - lost (dr_source d) + (dropped_spans o' - dropped_spans (dr_source d))) 0); [lia|]. done.
  - split_and!; [done|done|done| |set_solver]. intros _. exists body, at_. split_and!; [done|done|done|cbn; lia|]. cbn [rs_body with_body replace_header Response_new dr_source set_source].
    split; [intros _; lia|done].
Qed.

End facts.

(** ** A sample connection *)

Module Sample.

(** A source that keeps what it is given and calls an empty batch undecodable. *)
Definition Kept : Type := list (list byte * option AgentId).

#[local] Instance kept_source : OtlpSource Kept := {
  source_pending o := Z.of_nat (length o);
  malformed_batches o := Z.of_nat (length (List.filter (fun b => bool_decide (b.1 = [])) o));
  lost _ := 0;
  dropped_spans _ := 0;
  not_the_caller _ := 0;
  accept_as body _ caller o := o ++ [(body, caller)];
}.

#[local] Instance kept_source_laws : OtlpSourceLaws (O := Kept).
Proof.
  split; intros body at_ caller o; cbn; [|done|done]. rewrite List.filter_app, length_app. lia.
Qed.

(** A provider with one credential, whose principal is an agent. *)
#[local] Instance one_credential : AuthProvider unit := {
  authenticate_request request p :=
    (match request_header request (lit "authorization") with
     | Some v => if bool_decide (v = lit "Bearer yes") then Ok (MkPrincipal (MkToken (lit "agent://acme/bot")) (lit "sample")) else Err (AdRejected "no")
     | None => Err (AdRejected "none")
     end, p);
  authorize _ action _ p := (if bool_decide (action = AcIngest) then DeAllow else DeDeny, p);
}.

#[local] Instance to_list : Write (list byte) := { write_all buf out := (Ok tt, out ++ buf); flush out := (Ok tt, out) }.
#[local] Instance no_shutdown : Shutdown (list byte) := fun _ w => w.
#[local] Instance still_clock : Instants unit := fun t => (0, t).
#[local] Instance far_end : LastInstant unit := secs (2 ^ 63 - 1).
#[local] Instance still_store_clock : StoreClock unit := fun k => (7, k).

Definition door : IngestDoor Kept unit unit :=
  with_auth (Door_new [] Config_default tt) (binding_records_to_the_caller (Gate_new tt (lit "acme"))).

Definition request (credential : str) (body : list byte) : list byte :=
  lit "POST /v1/traces HTTP/1.1" ++ crlf ++ lit "Host: a" ++ crlf ++ lit "Authorization: " ++ credential ++ crlf ++
  lit "Content-Type: application/x-protobuf" ++ crlf ++ lit "Content-Length: " ++ Completeness.decimal (Z.of_nat (length body)) ++ crlf ++ crlf ++ body.

(** Two requests, each waiting for its answer, the second without the credential. *)
Definition stream : list Arrival := [Arrives (request (lit "Bearer yes") (lit "abc")); Says IoWouldBlock; Arrives (request (lit "Bearer no") (lit "def"))].

Example the_first_is_taken_and_the_second_refused :
  (fun c => (c.(cn_door).(dr_source), c.(cn_inflight), map (fun e => (e.(ev_kind), e.(ev_status))) c.(cn_log))) <$>
    serve_connection 2000 true stream [] tt door 5 [] =
  Some ([(lit "abc", Some (MkToken (lit "agent://acme/bot")))], 5,
        [(EvAccepted, None); (EvServed, Some 200); (EvRefused, Some 401); (EvClosed, None)]).
Proof. vm_compute. reflexivity. Qed.


Lemma an_answer_says_what_became_of_the_batch_witness :
  exists r d', submit (lit "abc") false None door = Some (r, d') /\ r.(rs_status) = StOk /\ d'.(dr_source) = [(lit "abc", None)] /\
    r.(rs_status) ∈ [StOk; StBadRequest; StPayloadTooLarge; StServiceUnavailable].
Proof.
  destruct (submit (lit "abc") false None door) as [[r d']|] eqn:E; [|vm_compute in E; discriminate]. exists r, d'. split; [reflexivity|].
  destruct (an_answer_says_what_became_of_the_batch (lit "abc") false None door d' r E) as (_ & _ & _ & _ & H).
  vm_compute in E. injection E as <- <-. split; [reflexivity|]. split; [reflexivity|]. exact H.
Defined.

End Sample.
